(* ===== verification/_CoqProject ===== *)
-Q . S2P
Prelude.v
Object.v
Domain.v
DomainFacts.v
DomainTree.v
DomainProps.v
Handle.v
HandleFacts.v
HandleOps.v
HandleReserve.v
HandleClose.v
HandleProps.v
HandleTransfer.v
Channel.v
ChannelFacts.v
ChannelProps.v
Syscall.v
SyscallFacts.v
SyscallSend.v
SyscallRecv.v
SyscallDeliver.v
SyscallProps.v
Buddy.v
BuddyBits.v
BuddyScan.v
BuddyBlocks.v
BuddyOps.v
BuddySpan.v
BuddyProps.v
Wire.v
WireFacts.v
WireProps.v
WireText.v
WireTextProps.v
Sha256.v
Rollback.v
RollbackProps.v
Dma.v
DmaIova.v
DmaReach.v
DmaOps.v
DmaRevoke.v
DmaFake.v
DmaProps.v
DmaVirtio.v
DmaVirtioProps.v
VaPool.v
VaPoolProps.v
TickClock.v
Tlb.v
TlbProps.v
PortGrants.v
PortGrantsFacts.v
PortBits.v
PortBitsProps.v
PortRange.v
PortRangeSpans.v
PortRangeBits.v
PortRangeProps.v
Quarantine.v
QuarantineProps.v
Manifest.v
ManifestFacts.v
ManifestProps.v
Waits.v
WaitsHomes.v
WaitsWakes.v
WaitsSets.v
RunQueue.v
WaitsQueues.v
WaitsProps.v
Elf.v
ElfLoad.v
ElfFacts.v
ElfPages.v
ElfSegments.v
ElfWhole.v
ElfProcess.v
ElfLinks.v
ElfProps.v
