(* ===== verification/Prelude.v ===== *)
(** * The kernel core of LiberSystem

    LiberSystem is a capability microkernel in Rust (src/kernel) with separate crates
    for the parts that can be tested on a host (src/buddy, src/dma, src/wire,
    src/boot/protocol, ...) and services above the system call boundary. A process
    holds capabilities in a handle table; what it holds is charged to a Domain, a
    node of a tree of accounts. Processes talk over channels, whose messages carry
    bytes and capabilities; the system calls check and copy caller memory and compose
    the table, the channels and the accounts. Frames come from a buddy allocator.
    Devices reach memory through an IOMMU the kernel manages, and drivers the x86 I/O
    ports through permission bitmaps the cores copy; a TLB shootdown round is how one
    core makes the others give up what it took back. Messages of the services are
    encoded by the wire codec. The boot loader checks images against a monotonic floor
    kept in firmware variables; it and the kernel read programs with one ELF reader, and
    the kernel maps them into processes, sharing the pages that cannot change.

    ** Which file models what

    Paths are below src/src. Each component has one file of definitions, named first,
    and files of facts and promises behind it.

    - [Prelude]: Rust's [Result], machine integers on [Z], the monads, growable vectors
      over a heap that may refuse, the weakest precondition [wp] and its tactics.
    - [Object] (kernel/object/mod.rs, rights.rs, abi/src/lib.rs): identity, type codes,
      rights, revocation generation, and the list of effects that leave the model.
    - [Domain]; [DomainFacts], [DomainTree], [DomainProps] (kernel/object/domain/mod.rs):
      counters with their compare-and-swap loops, hierarchical charging, the tree,
      freeze and kill. Its [World] is the state every kernel component shares.
    - [Handle]; [HandleFacts], [HandleOps], [HandleReserve], [HandleClose],
      [HandleProps], [HandleTransfer] (kernel/object/handle/mod.rs): the handle table.
    - [Channel]; [ChannelFacts], [ChannelProps] (kernel/object/channel/mod.rs).
    - [Syscall]; [SyscallFacts], [SyscallSend], [SyscallRecv], [SyscallDeliver],
      [SyscallProps] (kernel/syscall/mod.rs): the handle and channel calls, over an
      environment that says what caller memory does and what other threads do.
    - [Buddy]; [BuddyBits], [BuddyScan], [BuddyBlocks], [BuddyOps], [BuddySpan],
      [BuddyProps] (buddy/src/lib.rs): the frame allocator.
    - [Wire], [WireText]; [WireFacts], [WireProps], [WireTextProps] (wire/src/lib.rs):
      sinks, reader, handle lists, JSON and CBOR.
    - [Sha256] (boot/protocol/src/sha256.rs), [Rollback]; [RollbackProps]
      (boot/protocol/src/rollback.rs, latch.rs): the digest, the boot floor, the latch.
    - [Manifest]; [ManifestFacts], [ManifestProps] (boot/protocol/src/manifest.rs): the
      signed manifest the loader checks what it executes against, read and written.
    - [Dma]; [DmaIova], [DmaReach], [DmaOps], [DmaRevoke], [DmaProps] (dma/src/lib.rs):
      plans, address spaces, and the IOMMU manager over the interface [Backend].
      [DmaFake] (dma/src/fake.rs) and [DmaVirtio]; [DmaVirtioProps]
      (dma/src/virtio_iommu.rs) implement the interface.
    - [VaPool]; [VaPoolProps] (kernel/mem/vapool.rs): pools of kernel addresses.
    - [TickClock] (tickclock/src/lib.rs): the tick, the nanoseconds and the sleeps.
    - [Tlb]; [TlbProps] (kernel/mem/tlb.rs): shootdown rounds between cores.
    - [Quarantine]; [QuarantineProps] (kernel/mem/frame/mod.rs, the part around [retire]):
      how a frame that was mapped comes back to the pool.
    - [PortGrants]; [PortGrantsFacts] (kernel/object/port_range/grants.rs): who may be
      granted which I/O port. [PortBits]; [PortBitsProps] (kernel/object/port_range/mod.rs,
      kernel/arch/x86_64/ioports.rs): the bitmap of a process and the copy a core takes
      without its lock. [PortRange]; [PortRangeSpans], [PortRangeBits],
      [PortRangeProps] (the same files): ranges in processes and on cores, composed of
      the other two; the steps of a map and of a take-back interleave with all else.
    - [Waits]; [WaitsHomes], [WaitsWakes], [WaitsSets], [WaitsProps]
      (kernel/sched/mod.rs, kernel/object/thread/mod.rs, kernel/object/wait_set.rs and the
      wait calls of kernel/syscall/mod.rs): how a thread parks and is woken, the deadlines,
      the wait sets and the change of threads on a core. [RunQueue]; [WaitsQueues]
      (kernel/sched/mod.rs): the intrusive run queues, and that the scheduler drives them
      as it should.
    - [Elf]; [ElfFacts] (boot/protocol/src/elf.rs): the ELF reader and the load plan of the
      boot loaders. [ElfLoad]; [ElfPages], [ElfSegments], [ElfWhole] (kernel/elf.rs):
      segments, shared pages, relocations, exports and the way back. [ElfProcess];
      [ElfLinks], [ElfProps] (kernel/loader.rs and the part of
      kernel/object/process/mod.rs behind it): the loads into a process and its modules.

    ** How code becomes definitions

    A stateful operation is a function of type [M S A := S -> option (A * S)]: [S] is
    the state it may touch, [None] is a panic of the kernel. The kernel is built with
    overflow checks, so an overflow, an index out of range, a failed assertion and an
    infallible allocation on an empty heap are all [None]. Errors are values of
    [result]. A theorem that an operation returns says that the option is [Some]; [wp]
    is total correctness. Code that a power loss or an exhausted writer may stop in the
    middle is of type [E W A := W -> option A * W], which keeps the state it left; code that
    fails with what it did so far in place is of type [L A] in [ElfLoad], where the heap
    and the page-table code answer from a list that may hold any refusal.
    One operation that holds its lock throughout is one step; where the code lets go of
    a lock in between, the other threads' steps are explicit (the compare-and-swap loops
    of [Domain], [duplicate_racing] of [Handle], the environment of [Syscall], the steps
    of [Tlb], the threads of [Quarantine], the stores of a bitmap change in [PortBits],
    the steps of a map and the parts of a take-back in [PortRange], the threads, wakes and set changes of
    [Waits], which stop at every lock and every atomic access). An interface of the code
    is a class with its laws ([Sink], [Firmware], [Backend], [Transport]): clients are
    proved against the laws, implementations discharge them.

    ** What the theorems show

    - Handle table: over any sequence of operations no abort, the invariant, and an
      exact account; a closed handle stays dead; rights never grow; a reservation cannot
      fail; a transfer is undone or committed exactly; teardown completes; a revoked
      capability is refused until the 32-bit generation of its object has gone round.
    - Domains: charging is all or nothing and within every limit of the chain; the
      compare-and-swap loop is one atomic step; kill and freeze reach the subtree.
    - Channels: the depth bound, the byte account, no loss and no duplication under any
      interleaving, order, wake-ups, and the refund at close.
    - System calls: a refused send costs nothing; a delivered one moves its
      capabilities; a receive takes what it reserved, and, where no other thread
      interferes, is a transaction that tells the caller the handles it installed.
    - Frame allocator: every call sequence refines a set of free pages; no frame is
      handed out twice; the state stays well formed.
    - Wire codec: round trip over any sink, one encoding per message, exact bounds.
    - Boot: no image below the floor gets control, over torn writes and power losses, if
      no torn record happens to carry the commit tag of its bytes;
      the streaming digest is the digest; a manifest reads back as what was written, and
      is the only encoding of its facts.
    - DMA: on any input range, what hardware lets through is on the books; frames called
      reusable are out of reach by the mappings closed; an address means one thing; a
      virtio device is confined. Where ranges and regions end an alignment below the end of
      the address space ([op_ok] of [DmaProps]) every call returns, and the search is first fit.
    - Address pools: a set of addresses, nothing lost, refusal only without room. Clock:
      the tick is the time awake. Shootdown: a completed round reached every core.
      Quarantine: no frame is lost or given back twice; what it would take for none in
      the pool to be translated by a core.
    - Ports: a copy without the lock is the bitmap of one moment; over everything the
      processes, the cores and the kernel may do no port is let through to two processes
      or taken from the kernel, but for ports that a round without confirmation handed back
      to an install of the kernel; a mapped port is reached by one fault at most.
    - Waiting: under any interleaving no wake is lost for what a park looked at, and the
      tables of the wait sets agree; but for the runs in which a refused park returns under
      a wake ([careful] of [WaitsProps]), a thread has one home, and the run queues, linked
      through the threads, are the lists they stand for.
    - Images: an accepted plan puts no two segments on one page; after a load every address
      of the process reads what the image and its relocations say; a module stays in its
      slot and its symbols lead there; a refused image leaves no trace.

    Where the code does not do what it means to, a theorem shows the run that goes wrong:
    [duplicate_outlives_revocation], [freeze_misses_process], [return_to_head_may_abort],
    [duplicate_may_retire_caller], [allocate_may_panic],
    [plan_may_bounce_what_cannot_be_staged], [reading_across_a_rebase_steps_back],
    [unconfirmed_console_is_shared], [racing_maps_share_a_slot],
    [drain_hands_back_early], [refused_park_loses_a_thread],
    [parked_thread_is_not_told] and [out_of_memory_breaks_the_books].

    ** Bounds and fuel

    Loops that are not structural carry fuel, and each theorem that an operation returns
    shows the fuel is enough. The walk to the root of the Domain tree has [chain_fuel],
    the identity of the Domain: a parent is created before its children and has the
    smaller identity. The loops of the allocator are bounded by [MAX_ORDER], by the words
    of a bitmap or by the pages of a span. The receive has the code's own eight attempts.
    The address search of [Dma] runs [until 64]: up to 2^64 turns, and every turn moves
    the address up. A walk over probe properties has their length. Sequences of calls are
    bounded only where a 64-bit counter would overflow ([cost] of [DmaProps]; 2^63 cycles
    in [TickClock]; the generations of [Tlb] and [PortBits] are not wrapped). A change of
    a port bitmap has the length of its range, for every turn covers a port. The steps of
    [Waits] have no fuel: a run is any list of actions, and a wake that is on its way is
    shown to need finitely many steps of its own, and the saving of contexts it waits for. The loops of the ELF reader and of the
    loads go over the headers, entries and pages of an image and are structural.

    ** Not modelled

    Context switches, the idle loop, the preemption tick, page tables and interrupt code
    act on registers; what the ports need of a switch and of a process's end is in
    [PortRange], and what the scheduler keeps in memory is in [Waits]. There, an object is
    a condition that a wake follows once it is true: the readiness of a timer, which only
    a deadline announces, the caught interrupt that ends a wait, and the drop of a wait
    set are left out. For the loads a page table is a map from pages to frames, a frame
    that is retired is free at once ([Quarantine] has what happens between), and one load
    runs at a time, as the guard of the code makes it; the handle and the first thread of a
    spawned process are left out. The life of processes and address spaces otherwise, and the
    objects over them, need page tables. The system calls other than the handle, channel and wait calls serve these
    objects. Firmware table readers, file systems, the WebAssembly runtime, the terminal
    and the TPM layer are crates of their own that share nothing with the components here. The interface
    bindings are generated by the build. Services, drivers and applications are programs
    above the system calls. Atomics are sequentially consistent here; the orderings the
    code asks for are not checked. Where a driver's ports come from (firmware tables, I/O
    BARs, chipset derivations) and a claim's count of its mappings are device.rs's and
    are left out with it. Conformance tracing is empty in a production build
    and is left out, as are functions compiled only for tests. *)

(** ** Shared vocabulary

    Rust's [Result], machine-width
    integers on [Z], a state monad whose absence of a result is a kernel abort
    (a panic, or an infallible allocation on an empty heap), growable vectors
    with an explicit capacity, and the list lemmas and tactics every component
    uses. *)

From stdpp Require Export base list gmap.
From stdpp Require Export numbers list_numbers.
From Stdlib Require Export ZArith Lia.

#[global] Open Scope Z_scope.

(** ** Rust's [Result] *)

Inductive result (A E : Type) : Type :=
| Ok (a : A)
| Err (e : E).
Arguments Ok {A E} _.
Arguments Err {A E} _.

#[export] Instance result_eq_dec A E `{EqDecision A, EqDecision E} :
  EqDecision (result A E).
Proof. solve_decision. Defined.

Definition is_ok {A E} (r : result A E) : bool :=
  match r with Ok _ => true | Err _ => false end.

(** ** Machine-width integers

    A [w]-bit unsigned value is a [Z]; wrapping, checked and saturating
    arithmetic are written out. *)

Abbreviation U32_MAX := 4294967295.
Abbreviation U64_MAX := 18446744073709551615.
Abbreviation TWO32 := 4294967296.
Abbreviation TWO64 := 18446744073709551616.

Definition wrap32 (z : Z) : Z := z mod TWO32.
Definition wrap64 (z : Z) : Z := z mod TWO64.

#[global] Arguments wrap32 : simpl never.
#[global] Arguments wrap64 : simpl never.

Definition checked_add (max a b : Z) : option Z :=
  if a + b <=? max then Some (a + b) else None.
Definition checked_mul (max a b : Z) : option Z :=
  if a * b <=? max then Some (a * b) else None.
Definition sat_add64 (a b : Z) : Z := Z.min (a + b) U64_MAX.
Definition sat_sub64 (a b : Z) : Z := Z.max (a - b) 0.

Definition u32_range (z : Z) : Prop := 0 <= z <= U32_MAX.
Definition u64_range (z : Z) : Prop := 0 <= z <= U64_MAX.

Lemma wrap32_small z : u32_range z -> wrap32 z = z.
Proof. unfold u32_range, wrap32. intros. apply Z.mod_small. lia. Qed.

Lemma wrap32_range z : u32_range (wrap32 z).
Proof. unfold u32_range, wrap32. pose proof (Z.mod_pos_bound z TWO32). lia. Qed.

Lemma wrap64_small z : u64_range z -> wrap64 z = z.
Proof. unfold u64_range, wrap64. intros. apply Z.mod_small. lia. Qed.

Lemma wrap64_range z : u64_range (wrap64 z).
Proof. unfold u64_range, wrap64. pose proof (Z.mod_pos_bound z TWO64). lia. Qed.

Lemma sat_add64_small a b : a + b <= U64_MAX -> sat_add64 a b = a + b.
Proof. unfold sat_add64. lia. Qed.

Lemma sat_sub64_small a b : b <= a -> sat_sub64 a b = a - b.
Proof. unfold sat_sub64. lia. Qed.

(** Shifts by a constant, as the arithmetic [lia] understands. *)
Lemma shiftl_mul z n : 0 <= n -> Z.shiftl z n = z * 2 ^ n.
Proof. apply Z.shiftl_mul_pow2. Qed.

Lemma shiftr_div z n : 0 <= n -> Z.shiftr z n = z / 2 ^ n.
Proof. apply Z.shiftr_div_pow2. Qed.

(** Joining disjoint halves with a bitwise or is addition. *)
Lemma lor_shiftl_add hi lo n :
  0 <= n -> 0 <= lo < 2 ^ n -> Z.lor (Z.shiftl hi n) lo = hi * 2 ^ n + lo.
Proof.
  intros Hn Hlo. rewrite <- shiftl_mul by lia.
  assert (Z.land (Z.shiftl hi n) lo = 0) as Hdisj.
  { apply Z.bits_inj'. intros i Hi.
    rewrite Z.land_spec, Z.bits_0, Z.shiftl_spec by lia.
    destruct (Z.ltb_spec i n).
    - rewrite Z.testbit_neg_r by lia. reflexivity.
    - replace lo with (lo mod 2 ^ n) by (apply Z.mod_small; lia).
      rewrite Z.mod_pow2_bits_high by lia. apply andb_false_r. }
  rewrite Z.add_nocarry_lxor, Z.lxor_lor by exact Hdisj. reflexivity.
Qed.

(** Little-endian bytes. *)
Fixpoint le_decode (bs : list Z) : Z :=
  match bs with
  | [] => 0
  | b :: bs => b + 256 * le_decode bs
  end.
Fixpoint le_encode (n : nat) (z : Z) : list Z :=
  match n with
  | O => []
  | S n => z mod 256 :: le_encode n (z / 256)
  end.

(** Whether a [Z] is one byte. *)
Definition byte_range (b : Z) : Prop := 0 <= b < 256.

Lemma length_le_encode n z : length (le_encode n z) = n.
Proof. revert z. induction n as [| n IH]; intros z; simpl; [done | by rewrite IH]. Qed.

Lemma le_encode_bytes n z : Forall byte_range (le_encode n z).
Proof.
  revert z. induction n as [| n IH]; intros z; simpl; constructor; [| apply IH].
  unfold byte_range. apply Z.mod_pos_bound. lia.
Qed.

Lemma le_decode_encode n z : 0 <= z < 256 ^ Z.of_nat n -> le_decode (le_encode n z) = z.
Proof.
  revert z. induction n as [| n IH]; intros z Hz; [simpl in *; lia |].
  rewrite Nat2Z.inj_succ, Z.pow_succ_r in Hz by lia. cbn [le_encode le_decode]. rewrite IH.
  - pose proof (Z.div_mod z 256 ltac:(lia)). lia.
  - split; [apply Z.div_pos; lia | apply Z.div_lt_upper_bound; lia].
Qed.

Lemma le_encode_decode bs : Forall byte_range bs -> le_encode (length bs) (le_decode bs) = bs.
Proof.
  unfold byte_range. induction 1 as [| b bs Hb _ IH]; [done |]. cbn [length le_encode le_decode].
  rewrite (Z.mul_comm 256), Z.mod_add, Z.mod_small by lia. f_equal.
  rewrite Z.div_add, Z.div_small, Z.add_0_l by lia. exact IH.
Qed.

Lemma le_decode_range bs : Forall byte_range bs -> 0 <= le_decode bs < 256 ^ Z.of_nat (length bs).
Proof.
  unfold byte_range. induction 1 as [| b bs Hb _ IH]; [simpl; lia |]. cbn [length le_decode].
  rewrite Nat2Z.inj_succ, Z.pow_succ_r by lia. lia.
Qed.

(** ** The abort monad

    [M S A] is a computation over state [S]; [None] is the kernel going down. *)

Definition M (S A : Type) : Type := S -> option (A * S).

#[export] Instance M_ret S : MRet (M S) := fun A a s => Some (a, s).
#[export] Instance M_bind S : MBind (M S) := fun A B f m s =>
  match m s with
  | Some (a, s') => f a s'
  | None => None
  end.

Definition abort {S A} : M S A := fun _ => None.
Definition gets {S A} (f : S -> A) : M S A := fun s => Some (f s, s).
Definition modify {S} (f : S -> S) : M S unit := fun s => Some (tt, f s).
Definition assert_some {S A} (o : option A) : M S A := fun s =>
  match o with Some a => Some (a, s) | None => None end.

(** A computation over a part of the state, run on the whole. *)
Definition zoom {S T A} (get : S -> T) (set : T -> S -> S) (m : M T A) : M S A := fun s =>
  match m (get s) with
  | Some (a, t) => Some (a, set t s)
  | None => None
  end.

(** Iterate a computation over a list, first element first. *)
Fixpoint for_each {S A} (f : A -> M S unit) (l : list A) : M S unit :=
  match l with
  | [] => mret tt
  | x :: l => f x ;; for_each f l
  end.

(** Total correctness of a computation from one state: it returns, and the
    result satisfies the postcondition. *)
Definition wp {S A} (m : M S A) (Q : A -> S -> Prop) (s : S) : Prop :=
  match m s with
  | Some (a, s') => Q a s'
  | None => False
  end.

Section wp_rules.
Context {S : Type}.

Lemma wp_ret {A} (a : A) (Q : A -> S -> Prop) s : Q a s -> wp (mret a) Q s.
Proof. trivial. Qed.

Lemma wp_bind {A B} (m : M S A) (f : A -> M S B) Q s :
  wp m (fun a s' => wp (f a) Q s') s -> wp (mbind f m) Q s.
Proof. unfold wp, mbind, M_bind. destruct (m s) as [[a s'] |]; trivial. Qed.

Lemma wp_bind_assoc {A B C} (m : M S A) (f : A -> M S B) (g : B -> M S C) Q s :
  wp (mbind (fun a => mbind g (f a)) m) Q s = wp (mbind g (mbind f m)) Q s.
Proof. unfold wp, mbind, M_bind. by destruct (m s) as [[a s'] |]. Qed.

Lemma wp_gets {A} (f : S -> A) (Q : A -> S -> Prop) s : Q (f s) s -> wp (gets f) Q s.
Proof. trivial. Qed.

Lemma wp_modify (f : S -> S) (Q : unit -> S -> Prop) s : Q tt (f s) -> wp (modify f) Q s.
Proof. trivial. Qed.

Lemma wp_assert_some {A} (o : option A) a (Q : A -> S -> Prop) s :
  o = Some a -> Q a s -> wp (assert_some o) Q s.
Proof. intros ->. trivial. Qed.

Lemma wp_mono {A} (m : M S A) (Q Q' : A -> S -> Prop) s :
  wp m Q s -> (forall a s', Q a s' -> Q' a s') -> wp m Q' s.
Proof. unfold wp. destruct (m s) as [[a s'] |]; eauto. Qed.

Lemma wp_conj {A} (m : M S A) (Q Q' : A -> S -> Prop) s :
  wp m Q s -> wp m Q' s -> wp m (fun a s' => Q a s' /\ Q' a s') s.
Proof. unfold wp. destruct (m s) as [[a s'] |]; eauto. Qed.

Lemma wp_run {A} (m : M S A) (Q : A -> S -> Prop) s :
  wp m Q s -> exists a s', m s = Some (a, s') /\ Q a s'.
Proof. unfold wp. destruct (m s) as [[a s'] |]; [eauto | intros []]. Qed.

Lemma run_wp {A} (m : M S A) (Q : A -> S -> Prop) s a s' :
  m s = Some (a, s') -> Q a s' -> wp m Q s.
Proof. unfold wp. intros ->. trivial. Qed.

Lemma run_bind {A B} (m : M S A) (f : A -> M S B) s a s' :
  m s = Some (a, s') -> mbind f m s = f a s'.
Proof. unfold mbind, M_bind. by intros ->. Qed.

Lemma wp_zoom {T A} (get : S -> T) (set : T -> S -> S) (m : M T A) Q s :
  wp m (fun a t => Q a (set t s)) (get s) -> wp (zoom get set m) Q s.
Proof. unfold wp, zoom. destruct (m (get s)) as [[a t] |]; trivial. Qed.

(** An invariant of the loop state, indexed by what is left to iterate over. *)
Lemma wp_for_each {A} (f : A -> M S unit) (I : list A -> S -> Prop) l s :
  I l s ->
  (forall x l s, I (x :: l) s -> wp (f x) (fun _ s' => I l s') s) ->
  wp (for_each f l) (fun _ s' => I [] s') s.
Proof.
  intros HI Hstep. revert s HI. induction l as [| x l IH]; intros s HI; [exact HI |].
  apply wp_bind. eapply wp_mono; [apply (Hstep x l s HI) |]. intros [] s' H'. by apply IH.
Qed.

End wp_rules.

Arguments wp : simpl never.

(** [wp_step] applies the rule of the head instruction, [wp_steps] as long as
    one fits; case analysis is left to the caller. *)
Ltac wp_step :=
  lazymatch goal with
  | |- wp (mbind _ _) _ _ => apply wp_bind
  | |- wp (mret _) _ _ => apply wp_ret
  | |- wp (gets _) _ _ => apply wp_gets
  | |- wp (modify _) _ _ => apply wp_modify
  | |- wp (zoom _ _ _) _ _ => apply wp_zoom
  end; cbv beta.
Ltac wp_steps := repeat wp_step.

(** ** Computations that may give up

    [Option]-returning code over a state it mutates: what was changed before a
    failure stays changed. *)
Definition E (W A : Type) : Type := W -> option A * W.

#[export] Instance E_ret W : MRet (E W) := fun A a w => (Some a, w).
#[export] Instance E_bind W : MBind (E W) := fun A B f m w =>
  match m w with
  | (Some a, w') => f a w'
  | (None, w') => (None, w')
  end.
Definition refuse {W A} : E W A := fun w => (None, w).

Lemma E_bind_some {W A B} (m : E W A) (f : A -> E W B) w b w' :
  mbind f m w = (Some b, w') -> exists a w1, m w = (Some a, w1) /\ f a w1 = (Some b, w').
Proof. unfold mbind, E_bind. destruct (m w) as [[a |] w1]; [eauto | discriminate]. Qed.

Lemma E_bind_run {W A B} (m : E W A) (f : A -> E W B) w a w1 : m w = (Some a, w1) -> mbind f m w = f a w1.
Proof. unfold mbind, E_bind. by intros ->. Qed.

(** ** Loops

    [until n f s] runs the loop body [f] from [s] until it answers [inr], for at
    most [2 ^ n] turns: a bound no loop over a machine word reaches, that costs
    nothing to evaluate. *)
Fixpoint until {S R} (n : nat) (f : S -> S + R) (s : S) : S + R :=
  match n with
  | O => f s
  | S n => match until n f s with inl s' => until n f s' | inr r => inr r end
  end.

(** A loop whose body decreases a measure below [2 ^ n] ends, with what its
    invariant gives at the end. *)
Lemma until_ends {S R} (I : S -> Prop) (Q : R -> Prop) (mu : S -> Z) (f : S -> S + R) n s :
  (forall s, I s -> match f s with inl s' => I s' /\ 0 <= mu s' < mu s | inr r => Q r end) ->
  I s -> 0 <= mu s < 2 ^ Z.of_nat n -> exists r, until n f s = inr r /\ Q r.
Proof.
  intros Hf Hs Hmu.
  assert (forall n s, I s -> 0 <= mu s ->
    match until n f s with inl s' => I s' /\ 0 <= mu s' <= mu s - 2 ^ Z.of_nat n | inr r => Q r end) as Hn.
  { clear n s Hs Hmu. induction n as [| n IH]; intros s Hs Hmu.
    - cbn [until]. specialize (Hf s Hs). destruct (f s); [| done]. simpl. split; [tauto | lia].
    - rewrite Nat2Z.inj_succ, Z.pow_succ_r by lia. cbn [until]. specialize (IH s Hs Hmu) as H1.
      destruct (until n f s) as [s1 | r]; [| done]. destruct H1 as [H1 Hle].
      specialize (IH s1 H1 ltac:(lia)) as H2. destruct (until n f s1) as [s2 | r]; [| done].
      split; [tauto | lia]. }
  specialize (Hn n s Hs ltac:(lia)). destruct (until n f s) as [s' | r]; [lia | eauto].
Qed.

(** What every turn keeps, the turn that answers is made from. *)
Lemma until_last {S R} (I : S -> Prop) (f : S -> S + R) n s r :
  (forall s s', I s -> f s = inl s' -> I s') -> I s -> until n f s = inr r -> exists s', I s' /\ f s' = inr r.
Proof.
  intros Hf. cut (forall s, I s -> match until n f s with inl s' => I s' | inr r => exists s', I s' /\ f s' = inr r end).
  { intros Hn Hs Hr. specialize (Hn s Hs). by rewrite Hr in Hn. }
  clear s r. induction n as [| n IH]; intros s Hs; cbn [until].
  - destruct (f s) eqn:E; eauto.
  - pose proof (IH s Hs) as H1. destruct (until n f s) as [s1 | r]; [by apply IH | done].
Qed.

#[global] Arguments until : simpl never.

(** ** Growable vectors over a heap that may refuse

    The heap is the sequence of its answers: [Some slack] grants a growth, with
    [slack] more room than was asked for, and [None] refuses it; a heap that has
    run out of answers refuses. [Vec::try_reserve] asks only when the capacity
    is short; [Vec::push] asks when the vector is full and takes the kernel down
    if the answer is no. *)

Definition heap : Type := list (option nat).

Definition heap_ask : M heap (option nat) := fun h =>
  match h with
  | [] => Some (None, [])
  | answer :: h => Some (answer, h)
  end.

Record vec (A : Type) := Vec { items : list A; capacity : nat }.
Arguments Vec {A} _ _.
Arguments items {A} _.
Arguments capacity {A} _.

Definition vec_new {A} : vec A := Vec [] 0.
Definition vec_len {A} (v : vec A) : nat := length (items v).

Definition try_reserve {A} (v : vec A) (additional : nat) : M heap (bool * vec A) :=
  if (vec_len v + additional <=? capacity v)%nat then mret (true, v)
  else
    answer ← heap_ask;
    match answer with
    | Some slack => mret (true, Vec (items v) (vec_len v + additional + slack)%nat)
    | None => mret (false, v)
    end.

Definition vec_push {A} (v : vec A) (x : A) : M heap (vec A) :=
  if (vec_len v <? capacity v)%nat then mret (Vec (items v ++ [x]) (capacity v))
  else
    answer ← heap_ask;
    match answer with
    | Some slack => mret (Vec (items v ++ [x]) (S (vec_len v) + slack)%nat)
    | None => abort
    end.

(** [Vec::pop]: the last element and the vector without it. *)
Definition vec_pop {A} (v : vec A) : option A * vec A :=
  (last (items v), Vec (take (length (items v) - 1) (items v)) (capacity v)).

Definition vec_clear {A} (v : vec A) : vec A := Vec [] (capacity v).

Definition vec_wf {A} (v : vec A) : Prop := (vec_len v <= capacity v)%nat.

Lemma wp_try_reserve {A} (v : vec A) n (Q : bool * vec A -> heap -> Prop) h :
  (forall ok cap h',
     (ok = true -> (vec_len v + n <= cap)%nat) -> (capacity v <= cap)%nat ->
     (ok = false -> cap = capacity v) ->
     Q (ok, Vec (items v) cap) h') ->
  wp (try_reserve v n) Q h.
Proof.
  intros HQ. unfold try_reserve. destruct v as [l c]. unfold vec_len in *. simpl in *.
  destruct (Nat.leb_spec (length l + n) c).
  - wp_step. apply HQ; [auto | lia | discriminate].
  - wp_step. destruct h as [| [slack |] h]; unfold wp; simpl;
      apply HQ; intros; try discriminate; auto; lia.
Qed.

(** A push into a vector with room asks the heap nothing. *)
Lemma vec_push_room {A} (v : vec A) x h :
  (vec_len v < capacity v)%nat ->
  vec_push v x h = Some (Vec (items v ++ [x]) (capacity v), h).
Proof. intros Hlt. unfold vec_push. by apply Nat.ltb_lt in Hlt as ->. Qed.

Lemma vec_pop_spec {A} (v : vec A) :
  (items v = [] /\ vec_pop v = (None, v)) \/
  (exists l x, items v = l ++ [x] /\ vec_pop v = (Some x, Vec l (capacity v))).
Proof.
  destruct v as [l c]. unfold vec_pop. simpl. destruct l as [| x l _] using rev_ind; [by left |].
  right. exists l, x. split; [done |].
  rewrite last_snoc, length_app. simpl. rewrite Nat.add_sub. by rewrite take_app_length.
Qed.

(** ** Counting the elements of a list that satisfy a test *)

Section count.
Context {A : Type} (p : A -> bool).

Definition count (l : list A) : Z := Z.of_nat (length (base.filter (fun x => p x = true) l)).

Lemma count_nil : count [] = 0.
Proof. done. Qed.

Lemma count_cons x l : count (x :: l) = (if p x then 1 else 0) + count l.
Proof.
  unfold count. rewrite filter_cons. destruct (p x) eqn:E; case_decide; simpl; try congruence; lia.
Qed.

Lemma count_app l1 l2 : count (l1 ++ l2) = count l1 + count l2.
Proof. unfold count. rewrite filter_app, length_app. lia. Qed.

Lemma count_nonneg l : 0 <= count l.
Proof. unfold count. lia. Qed.

Lemma count_le_length l : count l <= Z.of_nat (length l).
Proof. unfold count. pose proof (length_filter (fun x => p x = true) l). lia. Qed.

Lemma count_snoc l x : count (l ++ [x]) = count l + if p x then 1 else 0.
Proof. rewrite count_app, count_cons, count_nil. lia. Qed.

Lemma count_insert (l : list A) i x y :
  l !! i = Some x ->
  count (<[i := y]> l) = count l - (if p x then 1 else 0) + (if p y then 1 else 0).
Proof.
  intros Hl. rewrite insert_take_drop by (by eapply lookup_lt_Some).
  rewrite <- (take_drop_middle l i x Hl) at 3.
  rewrite !count_app, !count_cons. lia.
Qed.

Lemma count_pos (l : list A) i x : l !! i = Some x -> p x = true -> 1 <= count l.
Proof.
  intros Hl Hp. rewrite <- (take_drop_middle l i x Hl), count_app, count_cons, Hp.
  pose proof (count_nonneg (take i l)). pose proof (count_nonneg (drop (S i) l)). lia.
Qed.

End count.

Lemma count_ext {A} (p q : A -> bool) l :
  (forall x, x ∈ l -> p x = q x) -> count p l = count q l.
Proof.
  induction l as [| x l IH]; intros Hpq; [done |]. rewrite !count_cons.
  rewrite Hpq by set_solver. rewrite IH; [done | set_solver].
Qed.

Lemma forallb_ext_in {A} (p q : A -> bool) l :
  (forall x, x ∈ l -> p x = q x) -> forallb p l = forallb q l.
Proof.
  induction l as [| x l IH]; intros Hpq; [done |]. simpl.
  rewrite Hpq by set_solver. rewrite IH; [done | set_solver].
Qed.

Lemma existsb_iff {A} (t : A -> bool) l : existsb t l = true <-> exists x, x ∈ l /\ t x = true.
Proof. rewrite existsb_exists. by setoid_rewrite list_elem_of_In. Qed.

Lemma existsb_false {A} (t : A -> bool) l : existsb t l = false <-> forall x, x ∈ l -> t x = false.
Proof.
  rewrite <- not_true_iff_false, existsb_iff. split.
  - intros Hn x Hx. apply not_true_iff_false. eauto.
  - intros Hf (x & Hx & Ht). rewrite Hf in Ht by done. done.
Qed.

Lemma bind_ext_in {A B} (f g : A -> list B) (l : list A) :
  (forall x, x ∈ l -> f x = g x) -> l ≫= f = l ≫= g.
Proof.
  induction l as [| x l IH]; intros Hfg; [done |]. rewrite !bind_cons.
  rewrite Hfg by set_solver. rewrite IH; [done | set_solver].
Qed.

(** ** Duplicate-free index lists *)

Lemma NoDup_snoc {A} (l : list A) x : NoDup (l ++ [x]) <-> (x ∉ l) /\ NoDup l.
Proof.
  rewrite NoDup_app. split; [set_solver |]. intros [Hx Hl].
  repeat split; [done | set_solver | apply NoDup_singleton].
Qed.

(** A last element, brought to the front. *)
Lemma snoc_app_perm {A} (l k : list A) x : (l ++ [x]) ++ k ≡ₚ x :: l ++ k.
Proof. rewrite <- app_assoc. symmetry. apply Permutation_middle. Qed.

Lemma app_snoc_perm {A} (k l : list A) x : k ++ l ++ [x] ≡ₚ x :: k ++ l.
Proof. rewrite app_assoc. by rewrite <- Permutation_cons_append. Qed.

(** Distinct indices below a bound are at most as many as the bound. *)
Lemma NoDup_bounded (l : list Z) (n : nat) :
  NoDup l -> (forall i, i ∈ l -> 0 <= i < Z.of_nat n) -> (length l <= n)%nat.
Proof.
  intros Hnd Hb.
  assert (l ⊆+ seqZ 0 (Z.of_nat n)) as Hsub.
  { apply NoDup_submseteq; [done |]. intros i Hi. apply elem_of_seqZ. specialize (Hb i Hi). lia. }
  apply submseteq_length in Hsub. rewrite length_seqZ in Hsub. lia.
Qed.

Lemma NoDup_bounded_lt (l : list Z) (n : nat) j :
  NoDup l -> (forall i, i ∈ l -> 0 <= i < Z.of_nat n) ->
  0 <= j < Z.of_nat n -> j ∉ l -> (length l < n)%nat.
Proof.
  intros Hnd Hb Hj Hnin.
  assert (length (j :: l) <= n)%nat as H; [| simpl in H; lia].
  apply NoDup_bounded; [by constructor |]. intros i [-> | Hi]%elem_of_cons; auto.
Qed.

(** ** Automation shared by the components *)

Create HintDb kernel.
#[export] Hint Resolve count_nonneg : kernel.

(** Case analysis on every boolean test of the goal that [lia] understands. *)
Ltac case_bool :=
  match goal with
  | |- context [if ?a =? ?b then _ else _] => destruct (Z.eqb_spec a b)
  | |- context [if ?a <? ?b then _ else _] => destruct (Z.ltb_spec a b)
  | |- context [if ?a <=? ?b then _ else _] => destruct (Z.leb_spec a b)
  | |- context [if (?a =? ?b)%nat then _ else _] => destruct (Nat.eqb_spec a b)
  | |- context [if (?a <? ?b)%nat then _ else _] => destruct (Nat.ltb_spec a b)
  | |- context [if (?a <=? ?b)%nat then _ else _] => destruct (Nat.leb_spec a b)
  | |- context [if bool_decide ?P then _ else _] => destruct (bool_decide_reflect P)
  end.

(** A decidable fact about concrete values. *)
Ltac by_decide :=
  lazymatch goal with |- ?P => exact (bool_decide_unpack P ltac:(vm_compute; exact I)) end.
