(* ===== verification/Object.v ===== *)
(** Kernel objects and what a capability says about them: the rights bitset
    (kernel/object/rights.rs, with the bits of abi), the object types and their
    ABI codes, and the object header's identity and revocation generation
    (kernel/object/mod.rs). Calls that leave the modelled components are
    recorded as effects, in the order they happen. *)

From S2P Require Import Prelude.

(** ** Rights *)

Module Rights.

Definition RIGHT_READ : Z := Z.shiftl 1 0.
Definition RIGHT_WRITE : Z := Z.shiftl 1 1.
Definition RIGHT_EXECUTE : Z := Z.shiftl 1 2.
Definition RIGHT_MAP : Z := Z.shiftl 1 3.
Definition RIGHT_SEND : Z := Z.shiftl 1 4.
Definition RIGHT_RECEIVE : Z := Z.shiftl 1 5.
Definition RIGHT_DUPLICATE : Z := Z.shiftl 1 6.
Definition RIGHT_TRANSFER : Z := Z.shiftl 1 7.
Definition RIGHT_REVOKE : Z := Z.shiftl 1 8.
Definition RIGHT_GET_INFO : Z := Z.shiftl 1 9.
Definition RIGHT_MANAGE : Z := Z.shiftl 1 10.
Definition RIGHT_WAIT : Z := Z.shiftl 1 11.

Definition RIGHTS_ALL : Z :=
  foldr Z.lor 0
    [RIGHT_READ; RIGHT_WRITE; RIGHT_EXECUTE; RIGHT_MAP; RIGHT_SEND; RIGHT_RECEIVE;
     RIGHT_DUPLICATE; RIGHT_TRANSFER; RIGHT_REVOKE; RIGHT_GET_INFO; RIGHT_MANAGE; RIGHT_WAIT].

(** [Rights::from_bits]: bits outside the defined set are dropped. *)
Definition from_bits (bits : Z) : Z := Z.land bits RIGHTS_ALL.

(** [Rights::contains]. *)
Definition contains (self other : Z) : bool := Z.land self other =? other.

(** [impl BitAnd for Rights] and [impl BitOr for Rights]. *)
Definition bitand (self rhs : Z) : Z := Z.land self rhs.
Definition bitor (self rhs : Z) : Z := Z.lor self rhs.

(** [contains] is the inclusion of the bit sets. *)
Lemma contains_spec a b :
  contains a b = true <-> (forall i, Z.testbit b i = true -> Z.testbit a i = true).
Proof.
  unfold contains. rewrite Z.eqb_eq. split.
  - intros H i Hb. rewrite <- H, Z.land_spec in Hb. by apply andb_true_iff in Hb as [? _].
  - intros H. apply Z.bits_inj. intros i. rewrite Z.land_spec.
    destruct (Z.testbit b i) eqn:E; [rewrite (H i E) | rewrite andb_false_r]; done.
Qed.

Lemma contains_refl a : contains a a = true.
Proof. apply contains_spec. auto. Qed.

Lemma contains_trans a b c :
  contains a b = true -> contains b c = true -> contains a c = true.
Proof. rewrite !contains_spec. auto. Qed.

(** An intersection never widens either operand. *)
Lemma contains_bitand_l a m : contains a (bitand a m) = true.
Proof.
  apply contains_spec. intros i. unfold bitand. rewrite Z.land_spec.
  intros [? _]%andb_true_iff. done.
Qed.

Lemma contains_bitand_r a m : contains m (bitand a m) = true.
Proof. unfold bitand. rewrite Z.land_comm. apply contains_bitand_l. Qed.

Lemma contains_bitand_mono a b m :
  contains a b = true -> contains (bitand a m) (bitand b m) = true.
Proof.
  rewrite !contains_spec. intros H i. unfold bitand. rewrite !Z.land_spec.
  intros [? ?]%andb_true_iff. rewrite H by done. done.
Qed.

End Rights.

#[export] Hint Resolve Rights.contains_refl Rights.contains_trans
  Rights.contains_bitand_l Rights.contains_bitand_r : kernel.

(** ** Object types *)

Inductive ObjectType : Type :=
| TyDomain | TyProcess | TyThread | TyAddressSpace | TyMemoryObject | TyChannel | TyEvent
| TyTimer | TyInterrupt | TyDeviceMemory | TyDmaBuffer | TyClaim | TyProcessGroup
| TyPrivilege | TyWaitSet | TyPortRange | TyConsoleTap | TyRegisters | TyLatencyRequest
| TyBalloon | TyPlugRegion.

#[export] Instance ObjectType_eq_dec : EqDecision ObjectType.
Proof. solve_decision. Defined.

(** [ObjectType::code]: the wire-stable index of abi's [OBJECT_TYPE_*]. *)
Definition code (t : ObjectType) : Z :=
  match t with
  | TyDomain => 0 | TyProcess => 1 | TyThread => 2 | TyAddressSpace => 3
  | TyMemoryObject => 4 | TyChannel => 5 | TyEvent => 6 | TyTimer => 7
  | TyInterrupt => 8 | TyDeviceMemory => 9 | TyDmaBuffer => 10 | TyClaim => 14
  | TyProcessGroup => 11 | TyPrivilege => 12 | TyWaitSet => 13 | TyPortRange => 15
  | TyConsoleTap => 16 | TyRegisters => 17 | TyLatencyRequest => 18 | TyBalloon => 19
  | TyPlugRegion => 20
  end.

(** ** References and headers

    An [Arc<dyn KernelObject>] is the object's identity and its immutable type.
    The header's generation is shared state: [generations] holds the objects
    whose generation has moved from the 1 that [ObjectHeader::new] stores. *)

Abbreviation Koid := Z.

Record ObjRef := mkRef { ref_koid : Koid; ref_type : ObjectType }.

#[export] Instance ObjRef_eq_dec : EqDecision ObjRef.
Proof. solve_decision. Defined.

Definition generation (gens : gmap Koid Z) (k : Koid) : Z := default 1 (gens !! k).

(** [ObjectHeader::revoke]: [fetch_add(1)] on a u32, which wraps. *)
Definition revoke (k : Koid) (gens : gmap Koid Z) : gmap Koid Z :=
  <[k := wrap32 (generation gens k + 1)]> gens.

Lemma revoke_ne k k' gens :
  k <> k' -> generation (revoke k gens) k' = generation gens k'.
Proof. intros Hne. unfold revoke, generation. by rewrite lookup_insert_ne. Qed.

Lemma revoke_moves k gens :
  u32_range (generation gens k) -> generation (revoke k gens) k <> generation gens k.
Proof.
  intros Hr. unfold revoke. unfold generation at 1. rewrite lookup_insert_eq. simpl.
  unfold wrap32, u32_range in *. intros Heq.
  destruct (decide (generation gens k = U32_MAX)) as [E | E].
  - rewrite E in Heq. vm_compute in Heq. discriminate.
  - rewrite Z.mod_small in Heq by lia. lia.
Qed.

(** ** Effects on components outside the model *)

Inductive Effect : Type :=
| DropRef (o : ObjRef)            (** an [Arc] dropped with its capability *)
| ClaimRelease (k : Koid)         (** [Claim::release] *)
| WakeObject (k : Koid)           (** [sched::wake_object] *)
| WakeMessage (k : Koid)          (** [sched::wake_object_for(.., WOKEN_BY_MESSAGE)] *)
| Terminate (pid : Koid)          (** [Process::terminate] *)
| ProcessFrozen (pid : Koid) (on : bool)  (** [Process::set_frozen] *)
| RecordSend (pid : Koid)         (** [Process::record_send] *)
| RecordRecv (pid : Koid)         (** [Process::record_recv] *)
| UserStore (addr : Z) (bytes : list Z). (** a completed copy to user memory *)

#[export] Instance Effect_eq_dec : EqDecision Effect.
Proof. solve_decision. Defined.
