(* ===== verification/Domain.v ===== *)
(** Domains and their resource accounts (kernel/object/domain/mod.rs): the
    counted and capped resource with its compare-and-swap loops, the account of
    a Domain, the Domain tree, hierarchical charging, and the subtree walks
    that freeze and kill. [World] is the shared state every component sees. *)

From S2P Require Import Prelude Object.

Abbreviation UNLIMITED := U64_MAX.
Definition DEFAULT_STACK_CEILING : Z := 8 * 1024 * 1024.
Definition DEFAULT_WAIT_REGISTRATIONS : Z := 1024.

(** ** A counted resource *)

Record ResourceCounter := mkCounter { used : Z; peak : Z; limit : Z }.

#[export] Instance ResourceCounter_eq_dec : EqDecision ResourceCounter.
Proof. solve_decision. Defined.

Module Counter.

Definition new (lim : Z) : ResourceCounter := mkCounter 0 0 lim.

Definition set_limit (lim : Z) (c : ResourceCounter) : ResourceCounter :=
  mkCounter (used c) (peak c) lim.

(** [ResourceCounter::try_charge], the whole loop as one atomic step: [None] is
    the refusal, which changes nothing. *)
Definition try_charge (amount : Z) (c : ResourceCounter) : option ResourceCounter :=
  let next := sat_add64 (used c) amount in
  if negb (limit c =? UNLIMITED) && (limit c <? next) then None
  else Some (mkCounter next (peak c) (limit c)).

Definition charge (amount : Z) (c : ResourceCounter) : ResourceCounter :=
  let next := sat_add64 (used c) amount in
  mkCounter next (Z.max (peak c) next) (limit c).

Definition observe_peak (c : ResourceCounter) : ResourceCounter :=
  mkCounter (used c) (Z.max (peak c) (used c)) (limit c).

Definition uncharge (amount : Z) (c : ResourceCounter) : ResourceCounter :=
  mkCounter (sat_sub64 (used c) amount) (peak c) (limit c).

(** The loops as they run beside other cores. An attempt is what one
    [compare_exchange_weak] meets: the value the cell holds at that instant, and
    whether the exchange fails spuriously. *)
Inductive cas_outcome := Swapped (old next : Z) | Refused (seen : Z) | Spinning.

Fixpoint try_charge_loop (lim amount cur : Z) (attempts : list (Z * bool)) : cas_outcome :=
  let next := sat_add64 cur amount in
  if negb (lim =? UNLIMITED) && (lim <? next) then Refused cur
  else match attempts with
       | [] => Spinning
       | (cell, spurious) :: attempts =>
           if (cell =? cur) && negb spurious then Swapped cell next
           else try_charge_loop lim amount cell attempts
       end.

Fixpoint uncharge_loop (amount cur : Z) (attempts : list (Z * bool)) : cas_outcome :=
  let next := sat_sub64 cur amount in
  match attempts with
  | [] => Spinning
  | (cell, spurious) :: attempts =>
      if (cell =? cur) && negb spurious then Swapped cell next
      else uncharge_loop amount cell attempts
  end.

End Counter.

(** ** The account of a Domain *)

Inductive Resource :=
| Memory | Handles | Threads | Dma | IpcQueue | WaitRegistrations | Stack.

#[export] Instance Resource_eq_dec : EqDecision Resource.
Proof. solve_decision. Defined.

Record ResourceAccount := mkAccount {
  memory : ResourceCounter;
  handles : ResourceCounter;
  threads : ResourceCounter;
  dma : ResourceCounter;
  ipc_queue : ResourceCounter;
  wait_registrations : ResourceCounter;
  stack : ResourceCounter;
}.

#[export] Instance ResourceAccount_eq_dec : EqDecision ResourceAccount.
Proof. solve_decision. Defined.

Definition account_new (memory_limit handle_limit thread_limit : Z) : ResourceAccount :=
  mkAccount (Counter.new memory_limit) (Counter.new handle_limit) (Counter.new thread_limit)
    (Counter.new UNLIMITED) (Counter.new UNLIMITED)
    (Counter.new DEFAULT_WAIT_REGISTRATIONS) (Counter.new DEFAULT_STACK_CEILING).

(** The selectors [&|a| a.memory()] and the like. *)
Definition select (r : Resource) (a : ResourceAccount) : ResourceCounter :=
  match r with
  | Memory => memory a | Handles => handles a | Threads => threads a | Dma => dma a
  | IpcQueue => ipc_queue a | WaitRegistrations => wait_registrations a | Stack => stack a
  end.

Definition update (r : Resource) (f : ResourceCounter -> ResourceCounter)
    (a : ResourceAccount) : ResourceAccount :=
  match a with
  | mkAccount m h t d i w s =>
      match r with
      | Memory => mkAccount (f m) h t d i w s
      | Handles => mkAccount m (f h) t d i w s
      | Threads => mkAccount m h (f t) d i w s
      | Dma => mkAccount m h t (f d) i w s
      | IpcQueue => mkAccount m h t d (f i) w s
      | WaitRegistrations => mkAccount m h t d i (f w) s
      | Stack => mkAccount m h t d i w (f s)
      end
  end.

Lemma select_update r r' f a :
  select r' (update r f a) = if decide (r' = r) then f (select r' a) else select r' a.
Proof. destruct a, r, r'; reflexivity. Qed.

(** ** Domains and the shared world *)

Record Domain := mkDomain {
  account : ResourceAccount;
  parent_link : option Koid;
  children : vec Koid;
  processes : vec Koid;
  killed : bool;
  frozen : bool;
}.

Definition set_account (a : ResourceAccount) (D : Domain) : Domain :=
  mkDomain a (parent_link D) (children D) (processes D) (killed D) (frozen D).
Definition set_children (c : vec Koid) (D : Domain) : Domain :=
  mkDomain (account D) (parent_link D) c (processes D) (killed D) (frozen D).
Definition set_processes (p : vec Koid) (D : Domain) : Domain :=
  mkDomain (account D) (parent_link D) (children D) p (killed D) (frozen D).
Definition set_killed (b : bool) (D : Domain) : Domain :=
  mkDomain (account D) (parent_link D) (children D) (processes D) b (frozen D).
Definition set_frozen_flag (b : bool) (D : Domain) : Domain :=
  mkDomain (account D) (parent_link D) (children D) (processes D) (killed D) b.

(** [live] is the set of processes a [Weak<Process>] still upgrades to. *)
Record World := mkWorld {
  domains : gmap Koid Domain;
  generations : gmap Koid Z;
  live : gset Koid;
  next_koid : Z;
  next_message_id : Z;
  heap_of : heap;
  effects : list Effect;
}.

Definition set_domains (ds : gmap Koid Domain) (w : World) : World :=
  mkWorld ds (generations w) (live w) (next_koid w) (next_message_id w) (heap_of w) (effects w).
Definition set_heap (h : heap) (w : World) : World :=
  mkWorld (domains w) (generations w) (live w) (next_koid w) (next_message_id w) h (effects w).
Definition set_next_koid (k : Z) (w : World) : World :=
  mkWorld (domains w) (generations w) (live w) k (next_message_id w) (heap_of w) (effects w).
Definition set_next_message_id (n : Z) (w : World) : World :=
  mkWorld (domains w) (generations w) (live w) (next_koid w) n (heap_of w) (effects w).
Definition emit_in (e : Effect) (w : World) : World :=
  mkWorld (domains w) (generations w) (live w) (next_koid w) (next_message_id w) (heap_of w)
    (effects w ++ [e]).

Definition with_heap {A} (m : M heap A) : M World A := zoom heap_of set_heap m.
Definition emit (e : Effect) : M World unit := modify (emit_in e).

(** [NEXT_KOID.fetch_add(1)]. *)
Definition fresh_koid : M World Koid :=
  k ← gets next_koid; modify (set_next_koid (wrap64 (k + 1))) ;; mret k.

Definition get_domain (d : Koid) : M World Domain := fun w =>
  match domains w !! d with Some D => Some (D, w) | None => None end.
Definition put_domain (d : Koid) (D : Domain) : M World unit :=
  modify (fun w => set_domains (<[d := D]> (domains w)) w).
Definition alter_counter (d : Koid) (r : Resource) (f : ResourceCounter -> ResourceCounter) :
    M World unit :=
  D ← get_domain d; put_domain d (set_account (update r f (account D)) D).

(** [Domain::parent]: the weak link upgraded. *)
Definition parent (d : Koid) : M World (option Koid) :=
  D ← get_domain d;
  ds ← gets domains;
  mret (match parent_link D with
        | Some p => match ds !! p with Some _ => Some p | None => None end
        | None => None
        end).

(** ** Hierarchical charging

    The source recurses along the parent links without a bound; [fuel] is the
    bound here, and [chain_fuel] is enough because a parent is created before
    its children. *)

Fixpoint try_charge_hier (fuel : nat) (d : Koid) (amount : Z) (r : Resource) : M World bool :=
  match fuel with
  | O => abort
  | S fuel =>
      D ← get_domain d;
      match Counter.try_charge amount (select r (account D)) with
      | None => mret false
      | Some c =>
          alter_counter d r (fun _ => c) ;;
          p ← parent d;
          ok ← match p with
               | Some p => try_charge_hier fuel p amount r
               | None => mret true
               end;
          if (ok : bool) then alter_counter d r Counter.observe_peak ;; mret true
          else alter_counter d r (Counter.uncharge amount) ;; mret false
      end
  end.

Fixpoint charge_hier (fuel : nat) (d : Koid) (amount : Z) (r : Resource) : M World unit :=
  match fuel with
  | O => abort
  | S fuel =>
      alter_counter d r (Counter.charge amount) ;;
      p ← parent d;
      match p with
      | Some p => charge_hier fuel p amount r
      | None => mret tt
      end
  end.

Fixpoint uncharge_hier (fuel : nat) (d : Koid) (amount : Z) (r : Resource) : M World unit :=
  match fuel with
  | O => abort
  | S fuel =>
      alter_counter d r (Counter.uncharge amount) ;;
      p ← parent d;
      match p with
      | Some p => uncharge_hier fuel p amount r
      | None => mret tt
      end
  end.

Definition chain_fuel (d : Koid) : nat := S (Z.to_nat d).

Definition try_charge_handle (d : Koid) : M World bool :=
  try_charge_hier (chain_fuel d) d 1 Handles.
Definition charge_handle (d : Koid) : M World unit :=
  charge_hier (chain_fuel d) d 1 Handles.
Definition uncharge_handles (d : Koid) (count : Z) : M World unit :=
  uncharge_hier (chain_fuel d) d count Handles.
Definition try_charge_ipc_queue (d : Koid) (bytes : Z) : M World bool :=
  try_charge_hier (chain_fuel d) d bytes IpcQueue.
Definition uncharge_ipc_queue (d : Koid) (bytes : Z) : M World unit :=
  uncharge_hier (chain_fuel d) d bytes IpcQueue.
Definition try_charge_memory (d : Koid) (bytes : Z) : M World bool :=
  try_charge_hier (chain_fuel d) d bytes Memory.
Definition uncharge_memory (d : Koid) (bytes : Z) : M World unit :=
  uncharge_hier (chain_fuel d) d bytes Memory.
Definition try_charge_wait_registration (d : Koid) : M World bool :=
  try_charge_hier (chain_fuel d) d 1 WaitRegistrations.
Definition uncharge_wait_registrations (d : Koid) (count : Z) : M World unit :=
  uncharge_hier (chain_fuel d) d count WaitRegistrations.
Definition try_charge_dma (d : Koid) (bytes : Z) : M World bool :=
  try_charge_hier (chain_fuel d) d bytes Dma.
Definition uncharge_dma (d : Koid) (bytes : Z) : M World unit :=
  uncharge_hier (chain_fuel d) d bytes Dma.
Definition try_charge_thread (d : Koid) : M World bool :=
  try_charge_hier (chain_fuel d) d 1 Threads.
Definition charge_thread (d : Koid) : M World unit :=
  charge_hier (chain_fuel d) d 1 Threads.
Definition uncharge_thread (d : Koid) : M World unit :=
  uncharge_hier (chain_fuel d) d 1 Threads.
Definition charge_stack (d : Koid) (bytes : Z) : M World unit :=
  charge_hier (chain_fuel d) d bytes Stack.
Definition uncharge_stack (d : Koid) (bytes : Z) : M World unit :=
  uncharge_hier (chain_fuel d) d bytes Stack.

(** ** The tree *)

Definition domain_of (a : ResourceAccount) (p : option Koid) : Domain :=
  mkDomain a p vec_new vec_new false false.

(** [Domain::new] and [Domain::root]. *)
Definition domain_new (memory_limit handle_limit thread_limit : Z) : M World Koid :=
  k ← fresh_koid;
  put_domain k (domain_of (account_new memory_limit handle_limit thread_limit) None) ;; mret k.

Definition root : M World Koid := domain_new UNLIMITED UNLIMITED UNLIMITED.

(** [Domain::new_child]: the header takes its identity before the allocation is
    asked for, and a child that is not attached is dropped. *)
Definition new_child (p : Koid) (memory_limit handle_limit thread_limit : Z) : M World (option Koid) :=
  k ← fresh_koid;
  arc ← with_heap heap_ask;
  match arc with
  | None => mret None
  | Some _ =>
      P ← get_domain p;
      if killed P then mret None
      else
        let child := domain_of (account_new memory_limit handle_limit thread_limit) (Some p) in
        let child := set_frozen_flag (frozen P) child in
        '(ok, v) ← with_heap (try_reserve (children P) 1);
        if negb ok then put_domain p (set_children v P) ;; mret None
        else
          v ← with_heap (vec_push v k);
          put_domain p (set_children v P) ;;
          put_domain k child ;;
          mret (Some k)
  end.

(** [Domain::register_process]. *)
Definition register_process (d pid : Koid) : M World bool :=
  D ← get_domain d;
  if killed D then mret false
  else
    alive ← gets live;
    let list := Vec (base.filter (fun p => p ∈ alive) (items (processes D))) (capacity (processes D)) in
    (if frozen D then emit (ProcessFrozen pid true) else mret tt) ;;
    '(ok, v) ← with_heap (try_reserve list 1);
    if negb ok then put_domain d (set_processes v D) ;; mret false
    else
      v ← with_heap (vec_push v pid);
      put_domain d (set_processes v D) ;; mret true.

(** ** Walking a subtree in batches *)

Definition BATCH : nat := 8.

(** The scan of [processes_from] and [children_from]: what is written into [room]
    free places, and how many entries were passed. *)
Fixpoint scan (keep : Koid -> bool) (l : list Koid) (room : nat) : list Koid * nat :=
  match l, room with
  | [], _ | _, O => ([], O)
  | x :: l, S room' =>
      if keep x then let '(out, n) := scan keep l room' in (x :: out, S n)
      else let '(out, n) := scan keep l room in (out, S n)
  end.

Definition processes_from (d : Koid) (from : nat) : M World (list Koid * nat) :=
  D ← get_domain d;
  alive ← gets live;
  let '(out, n) := scan (fun p => bool_decide (p ∈ alive)) (drop from (items (processes D))) BATCH in
  mret (out, from + n)%nat.

Definition children_from (d : Koid) (from : nat) : M World (list Koid * nat) :=
  D ← get_domain d;
  let '(out, n) := scan (fun _ => true) (drop from (items (children D))) BATCH in
  mret (out, from + n)%nat.

(** The batch loops of [set_frozen] and [kill]; [env] is what the rest of the
    machine does while no lock is held, between two batches. *)
Fixpoint batches (fuel : nat) (fetch : nat -> M World (list Koid * nat)) (act : Koid -> M World unit)
    (env : M World unit) (at_ : nat) : M World unit :=
  match fuel with
  | O => abort
  | S fuel =>
      '(written, next) ← fetch at_;
      for_each act written ;;
      if (length written =? 0)%nat && (next =? at_)%nat then mret tt
      else env ;; batches fuel fetch act env next
  end.

(** A batch passes at least one entry until the list is at its end. *)
Definition batch_fuel (l : vec Koid) : nat := S (S (vec_len l)).

(** The shape of [set_frozen] and [kill]: the Domain's own flag, its processes,
    then its children. *)
Fixpoint walk_subtree (depth : nat) (flag : Domain -> Domain) (visit : Koid -> M World unit)
    (env : M World unit) (d : Koid) : M World unit :=
  match depth with
  | O => abort
  | S depth =>
      D ← get_domain d;
      put_domain d (flag D) ;;
      batches (batch_fuel (processes D)) (processes_from d) visit env 0 ;;
      batches (batch_fuel (children D)) (children_from d) (walk_subtree depth flag visit env) env 0
  end.

(** A child is created after its parent, so a path down the tree is shorter than
    the identities given out. *)
Definition tree_depth (w : World) : nat := S (Z.to_nat (next_koid w)).

Definition freeze_process (on : bool) (pid : Koid) : M World unit :=
  emit (ProcessFrozen pid on) ;; if negb on then emit (WakeObject pid) else mret tt.

Definition set_frozen_racing (env : M World unit) (d : Koid) (on : bool) : M World unit :=
  w ← gets id;
  walk_subtree (tree_depth w) (set_frozen_flag on) (freeze_process on) env d.
Definition set_frozen (d : Koid) (on : bool) : M World unit := set_frozen_racing (mret tt) d on.

Definition is_frozen (d : Koid) : M World bool := D ← get_domain d; mret (frozen D).

Definition kill (d : Koid) : M World unit :=
  w ← gets id;
  walk_subtree (tree_depth w) (set_killed true) (fun pid => emit (Terminate pid)) (mret tt) d.
