(* ===== verification/DomainFacts.v ===== *)
(** What hierarchical charging does to the Domain tree: the ancestor chain, the
    exact effect of each walker on it, and the relation [shifted] the clients of
    an account reason with. *)

From S2P Require Import Prelude Object Domain.

(** A parent exists before its children, so its identity is smaller. *)
Definition domains_wf (ds : gmap Koid Domain) : Prop :=
  forall d D p, ds !! d = Some D -> parent_link D = Some p -> 0 <= p < d.

(** The Domain and every ancestor its weak links still reach. *)
Fixpoint chain (fuel : nat) (ds : gmap Koid Domain) (d : Koid) : list Koid :=
  match fuel with
  | O => []
  | S fuel =>
      match ds !! d with
      | None => []
      | Some D =>
          d :: match parent_link D with
               | Some p => chain fuel ds p
               | None => []
               end
      end
  end.

Definition chain_of (ds : gmap Koid Domain) (d : Koid) : list Koid := chain (chain_fuel d) ds d.

(** Apply [f] to the counter [r] of every Domain of [C]. *)
Definition adjust (r : Resource) (C : list Koid) (f : ResourceCounter -> ResourceCounter)
    (ds : gmap Koid Domain) : gmap Koid Domain :=
  map_imap (fun a D =>
    Some (if decide (a ∈ C) then set_account (update r f (account D)) D else D)) ds.

(** Same tree, same limits; only usage may differ. *)
Definition same_tree (ds ds' : gmap Koid Domain) : Prop :=
  forall a, parent_link <$> ds !! a = parent_link <$> ds' !! a.

Section chains.
Implicit Types ds : gmap Koid Domain.

#[export] Instance same_tree_equivalence : Equivalence same_tree.
Proof. split; unfold same_tree; [by intros ? ? | intros ? ? H a; by rewrite H |].
  intros ? ? ? H1 H2 a. by rewrite H1, H2. Qed.

Lemma lookup_adjust r C f ds a :
  adjust r C f ds !! a =
  (fun D => if decide (a ∈ C) then set_account (update r f (account D)) D else D) <$> ds !! a.
Proof. unfold adjust. rewrite map_lookup_imap. by destruct (ds !! a). Qed.

Lemma adjust_same_tree r C f ds : same_tree ds (adjust r C f ds).
Proof.
  intros a. rewrite lookup_adjust. destruct (ds !! a) as [D |]; simpl; [| done].
  by case_decide.
Qed.

Lemma chain_same_tree fuel ds ds' d : same_tree ds ds' -> chain fuel ds d = chain fuel ds' d.
Proof.
  intros Hs. revert d. induction fuel as [| fuel IH]; intros d; simpl; [done |].
  specialize (Hs d). destruct (ds !! d) as [D |], (ds' !! d) as [D' |]; simplify_eq/=; try done.
  rewrite Hs. f_equal. destruct (parent_link D'); [apply IH | done].
Qed.

#[export] Instance chain_of_proper : Proper (same_tree ==> eq ==> eq) chain_of.
Proof. intros ds ds' Hs d ? <-. by apply chain_same_tree. Qed.

Lemma domains_wf_same_tree ds ds' : same_tree ds ds' -> domains_wf ds -> domains_wf ds'.
Proof.
  intros Hs Hwf d D' p Hd Hp. specialize (Hs d). rewrite Hd in Hs. simpl in Hs.
  destruct (ds !! d) as [D |] eqn:E; simplify_eq/=. eapply Hwf; [done |]. by rewrite Hs.
Qed.

Lemma chain_le fuel ds d a : domains_wf ds -> a ∈ chain fuel ds d -> a <= d.
Proof.
  intros Hwf. revert d. induction fuel as [| fuel IH]; intros d; simpl; [set_solver |].
  destruct (ds !! d) as [D |] eqn:E; [| set_solver].
  rewrite elem_of_cons. intros [-> | Ha]; [lia |].
  destruct (parent_link D) as [p |] eqn:Ep; [| set_solver].
  specialize (Hwf _ _ _ E Ep). specialize (IH _ Ha). lia.
Qed.

Lemma chain_NoDup fuel ds d : domains_wf ds -> NoDup (chain fuel ds d).
Proof.
  intros Hwf. revert d. induction fuel as [| fuel IH]; intros d; simpl; [constructor |].
  destruct (ds !! d) as [D |] eqn:E; [| constructor].
  destruct (parent_link D) as [p |] eqn:Ep; [| by apply NoDup_singleton].
  constructor; [| apply IH]. intros Hin. apply chain_le in Hin; [| done].
  specialize (Hwf _ _ _ E Ep). lia.
Qed.

(** More fuel than the identity needs changes nothing. *)
Lemma chain_fuel_enough fuel ds d :
  domains_wf ds -> 0 <= d -> (Z.to_nat d < fuel)%nat -> chain fuel ds d = chain_of ds d.
Proof.
  intros Hwf. unfold chain_of, chain_fuel. revert d.
  enough (forall n m d, 0 <= d -> (Z.to_nat d < n)%nat -> (Z.to_nat d < m)%nat ->
            chain n ds d = chain m ds d) as H by (intros; apply H; lia).
  induction n as [| n IH]; intros m d Hd Hn Hm; [lia |]. destruct m as [| m]; [lia |]. simpl.
  destruct (ds !! d) as [D |] eqn:E; [| done]. f_equal.
  destruct (parent_link D) as [p |] eqn:Ep; [| done].
  specialize (Hwf _ _ _ E Ep). apply IH; lia.
Qed.

Lemma chain_of_unfold ds d D :
  domains_wf ds -> 0 <= d -> ds !! d = Some D ->
  chain_of ds d = d :: match parent_link D with
                       | Some p => match ds !! p with Some _ => chain_of ds p | None => [] end
                       | None => []
                       end.
Proof.
  intros Hwf Hd E. unfold chain_of at 1, chain_fuel. simpl. rewrite E. f_equal.
  destruct (parent_link D) as [p |] eqn:Ep; [| done].
  pose proof (Hwf _ _ _ E Ep).
  destruct (ds !! p) as [P |] eqn:EP; [apply chain_fuel_enough; auto; lia |].
  destruct (Z.to_nat d); simpl; [done |]. by rewrite EP.
Qed.

Lemma chain_of_head ds d D : ds !! d = Some D -> d ∈ chain_of ds d.
Proof. intros E. unfold chain_of, chain_fuel. simpl. rewrite E. set_solver. Qed.

Lemma adjust_nil r f ds : adjust r [] f ds = ds.
Proof. apply map_eq. intros a. rewrite lookup_adjust. by destruct (ds !! a). Qed.

Lemma adjust_cons r d C f ds :
  d ∉ C -> adjust r (d :: C) f ds = adjust r C f (adjust r [d] f ds).
Proof.
  intros Hd. apply map_eq. intros a. rewrite !lookup_adjust.
  destruct (ds !! a) as [D |]; simpl; [| done]. f_equal.
  repeat case_decide; set_solver.
Qed.

Lemma insert_adjust r d f ds D :
  ds !! d = Some D ->
  <[d := set_account (update r f (account D)) D]> ds = adjust r [d] f ds.
Proof.
  intros E. apply map_eq. intros a. rewrite lookup_adjust.
  destruct (decide (a = d)) as [-> | Hne].
  - rewrite lookup_insert_eq, E. simpl. case_decide; set_solver.
  - rewrite lookup_insert_ne by done. destruct (ds !! a); simpl; [| done].
    case_decide; set_solver.
Qed.

End chains.

(** ** The walkers, exactly *)

Section walkers.
Implicit Types w : World.

Lemma run_alter_counter d r f w D :
  domains w !! d = Some D ->
  alter_counter d r f w = Some (tt, set_domains (adjust r [d] f (domains w)) w).
Proof.
  intros E. unfold alter_counter, get_domain, put_domain, mbind, M_bind, modify. rewrite E.
  by rewrite (insert_adjust _ _ _ _ _ E).
Qed.

Lemma run_parent d w D :
  domains w !! d = Some D ->
  parent d w = Some (match parent_link D with
                     | Some p => match domains w !! p with Some _ => Some p | None => None end
                     | None => None
                     end, w).
Proof. intros E. unfold parent, get_domain, mbind, M_bind, gets, mret, M_ret. by rewrite E. Qed.

Lemma set_domains_set ds ds' w : set_domains ds (set_domains ds' w) = set_domains ds w.
Proof. done. Qed.

Lemma domains_set ds w : domains (set_domains ds w) = ds.
Proof. done. Qed.

Lemma set_domains_id w : set_domains (domains w) w = w.
Proof. by destruct w. Qed.

(** One step of a walker on an account: the counter of [d], then the parent. *)
Lemma adjust_walk r f ds d D :
  domains_wf ds -> 0 <= d -> ds !! d = Some D ->
  exists C, chain_of ds d = d :: C /\ (d ∉ C) /\
    C = match parent_link D with
        | Some p => match ds !! p with Some _ => chain_of ds p | None => [] end
        | None => []
        end /\
    adjust r (chain_of ds d) f ds = adjust r C f (adjust r [d] f ds).
Proof.
  intros Hwf Hd E. eexists. rewrite (chain_of_unfold ds d D) by done.
  split; [done |]. assert (d ∉ match parent_link D with
      | Some p => match ds !! p with Some _ => chain_of ds p | None => [] end
      | None => [] end) as Hnin.
  { destruct (parent_link D) as [p |] eqn:Ep; [| set_solver].
    destruct (ds !! p); [| set_solver]. intros Hin. apply chain_le in Hin; [| done].
    specialize (Hwf _ _ _ E Ep). lia. }
  split; [done |]. split; [done |]. by apply adjust_cons.
Qed.

(** The link seen after the counter of [d] moved is the link seen before. *)
Lemma run_parent_adjusted r f d w D :
  domains w !! d = Some D ->
  parent d (set_domains (adjust r [d] f (domains w)) w) =
    Some (match parent_link D with
          | Some p => match domains w !! p with Some _ => Some p | None => None end
          | None => None
          end, set_domains (adjust r [d] f (domains w)) w).
Proof.
  intros E. erewrite run_parent by (simpl; by rewrite lookup_adjust, E).
  case_decide; simpl; (destruct (parent_link D) as [p |]; [| done]);
    rewrite lookup_adjust; by destruct (domains w !! p).
Qed.

Ltac walk E :=
  erewrite run_bind; [| by apply (run_alter_counter _ _ _ _ _ E)];
  erewrite run_bind; [| by apply (run_parent_adjusted _ _ _ _ _ E)].

Lemma charge_hier_run fuel d amount r w D :
  domains_wf (domains w) -> 0 <= d -> (Z.to_nat d < fuel)%nat -> domains w !! d = Some D ->
  charge_hier fuel d amount r w =
    Some (tt, set_domains (adjust r (chain_of (domains w) d) (Counter.charge amount) (domains w)) w).
Proof.
  revert d w D. induction fuel as [| fuel IH]; intros d w D Hwf Hd Hfuel E; [lia |].
  destruct (adjust_walk r (Counter.charge amount) _ _ _ Hwf Hd E) as (C & _ & _ & HC & ->).
  cbn [charge_hier]. walk E.
  destruct (parent_link D) as [p |] eqn:Ep; [| by rewrite HC, adjust_nil].
  destruct (domains w !! p) as [P |] eqn:EP; [| by rewrite HC, adjust_nil].
  pose proof (Hwf _ _ _ E Ep).
  erewrite IH; [rewrite set_domains_set, domains_set, HC; do 3 f_equal |..]; try lia.
  - f_equal. by rewrite <- (adjust_same_tree r [d] (Counter.charge amount) (domains w)).
  - eapply domains_wf_same_tree; [apply adjust_same_tree | done].
  - simpl. rewrite lookup_adjust, EP. done.
Qed.

Lemma uncharge_hier_run fuel d amount r w D :
  domains_wf (domains w) -> 0 <= d -> (Z.to_nat d < fuel)%nat -> domains w !! d = Some D ->
  uncharge_hier fuel d amount r w =
    Some (tt, set_domains (adjust r (chain_of (domains w) d) (Counter.uncharge amount) (domains w)) w).
Proof.
  revert d w D. induction fuel as [| fuel IH]; intros d w D Hwf Hd Hfuel E; [lia |].
  destruct (adjust_walk r (Counter.uncharge amount) _ _ _ Hwf Hd E) as (C & _ & _ & HC & ->).
  cbn [uncharge_hier]. walk E.
  destruct (parent_link D) as [p |] eqn:Ep; [| by rewrite HC, adjust_nil].
  destruct (domains w !! p) as [P |] eqn:EP; [| by rewrite HC, adjust_nil].
  pose proof (Hwf _ _ _ E Ep).
  erewrite IH; [rewrite set_domains_set, domains_set, HC; do 3 f_equal |..]; try lia.
  - f_equal. by rewrite <- (adjust_same_tree r [d] (Counter.uncharge amount) (domains w)).
  - eapply domains_wf_same_tree; [apply adjust_same_tree | done].
  - simpl. rewrite lookup_adjust, EP. done.
Qed.

(** Whether the counter [r] of [a] takes [amount] more. *)
Definition fits (amount : Z) (r : Resource) (ds : gmap Koid Domain) (a : Koid) : bool :=
  match ds !! a with
  | Some A =>
      match Counter.try_charge amount (select r (account A)) with Some _ => true | None => false end
  | None => true
  end.

(** No counter of [C] is close enough to the top of a u64 to saturate. *)
Definition headroom (amount : Z) (r : Resource) (C : list Koid) (ds : gmap Koid Domain) : Prop :=
  forall a A, a ∈ C -> ds !! a = Some A ->
    0 <= used (select r (account A)) /\ used (select r (account A)) + amount <= U64_MAX.

Lemma try_charge_observed amount c c' :
  Counter.try_charge amount c = Some c' -> Counter.observe_peak c' = Counter.charge amount c.
Proof.
  unfold Counter.try_charge, Counter.observe_peak, Counter.charge.
  destruct (_ && _); intros; by simplify_eq/=.
Qed.

Lemma try_charge_undone amount c c' :
  0 <= amount -> 0 <= used c -> used c + amount <= U64_MAX ->
  Counter.try_charge amount c = Some c' -> Counter.uncharge amount c' = c.
Proof.
  unfold Counter.try_charge, Counter.uncharge. intros Ha Hu Ho.
  destruct (_ && _); intros; simplify_eq/=. destruct c as [u p l]. simpl in *.
  rewrite sat_add64_small, sat_sub64_small by lia. f_equal. lia.
Qed.

Lemma fits_adjust_ne amount r f ds d (C : list Koid) a :
  d ∉ C -> a ∈ C -> fits amount r (adjust r [d] f ds) a = fits amount r ds a.
Proof.
  intros Hd Ha. unfold fits. rewrite lookup_adjust. destruct (ds !! a) as [A |]; simpl; [| done].
  rewrite decide_False by set_solver. done.
Qed.

Lemma fits_lookup amount r ds a A :
  ds !! a = Some A ->
  fits amount r ds a =
    match Counter.try_charge amount (select r (account A)) with Some _ => true | None => false end.
Proof. intros E. unfold fits. by rewrite E. Qed.

Lemma try_charge_hier_run fuel d amount r w D :
  domains_wf (domains w) -> 0 <= d -> (Z.to_nat d < fuel)%nat -> domains w !! d = Some D ->
  0 <= amount -> headroom amount r (chain_of (domains w) d) (domains w) ->
  try_charge_hier fuel d amount r w =
    let ok := forallb (fits amount r (domains w)) (chain_of (domains w) d) in
    Some (ok, set_domains (if ok then adjust r (chain_of (domains w) d) (Counter.charge amount) (domains w)
                           else domains w) w).
Proof.
  revert d w D. induction fuel as [| fuel IH]; intros d w D Hwf Hd Hfuel E Ha Hroom; [lia |].
  destruct (adjust_walk r (Counter.charge amount) _ _ _ Hwf Hd E) as (C & HdC & Hnin & HC & _).
  rewrite HdC in *. cbn [try_charge_hier forallb].
  erewrite run_bind; [| by unfold get_domain; rewrite E].
  rewrite !(fits_lookup _ _ _ _ _ E).
  destruct (Counter.try_charge amount (select r (account D))) as [c |] eqn:Hc;
    [| by simpl; rewrite set_domains_id].
  walk E.
  (* the rest of the walk, whatever it answers *)
  set (ok := forallb (fits amount r (domains w)) C).
  set (ds1 := adjust r [d] (fun _ => c) (domains w)).
  match goal with |- context [mbind ?k (match ?q with _ => _ end)] => set (rest := match q with
      | Some p => try_charge_hier fuel p amount r | None => mret true end : M World bool) end.
  assert (rest (set_domains ds1 w) =
          Some (ok, set_domains (if ok then adjust r C (Counter.charge amount) ds1 else ds1) w)) as Hrest.
  { subst rest ok. destruct (parent_link D) as [p |] eqn:Ep; [| by rewrite HC, adjust_nil].
    destruct (domains w !! p) as [P |] eqn:EP; [| by rewrite HC, adjust_nil].
    pose proof (Hwf _ _ _ E Ep).
    assert (chain_of ds1 p = C) as Hch.
    { rewrite HC. symmetry. by rewrite (adjust_same_tree r [d] (fun _ => c) (domains w)). }
    erewrite IH; cbn [domains set_domains]; rewrite ?Hch; try lia; try done.
    - cbn zeta. rewrite set_domains_set.
      rewrite (forallb_ext_in _ (fits amount r (domains w))); [done |].
      intros a Ha'. by apply fits_adjust_ne with C.
    - eapply domains_wf_same_tree; [apply adjust_same_tree | done].
    - subst ds1. rewrite lookup_adjust, EP. done.
    - intros a A HaC. subst ds1. rewrite lookup_adjust. destruct (domains w !! a) as [A' |] eqn:EA;
        simpl; [| done]. rewrite decide_False by set_solver. intros. simplify_eq.
      apply (Hroom a A); [set_solver | done]. }
  erewrite run_bind by exact Hrest. cbn zeta.
  assert (exists D', domains (set_domains (if ok then adjust r C (Counter.charge amount) ds1 else ds1) w) !! d = Some D')
    as [D' ED'].
  { cbn [domains set_domains]. destruct ok; subst ds1; rewrite !lookup_adjust, E; simpl; eauto. }
  destruct (Hroom d D) as [Hu Ho]; [set_solver | done |].
  destruct ok; (erewrite run_bind; [| by apply (run_alter_counter _ _ _ _ _ ED')]);
    unfold mret, M_ret; rewrite set_domains_set, domains_set; cbn [andb];
    apply (f_equal (fun ds => Some (_, set_domains ds w))), map_eq; intros a;
    subst ds1; rewrite !lookup_adjust; destruct (decide (a = d)) as [-> | Hne].
  - rewrite E. simpl. rewrite (decide_False (P := d ∈ C)) by done. rewrite !decide_True by set_solver.
    unfold set_account. simpl. do 2 f_equal. pose proof (try_charge_observed _ _ _ Hc) as Hob.
    clear -Hob. destruct (account D), r; simpl in *; by rewrite Hob.
  - destruct (domains w !! a); simpl; [| done]. rewrite !(decide_False (P := a ∈ [d])) by set_solver.
    do 2 f_equal. by repeat case_decide; set_solver.
  - rewrite E. simpl. rewrite !decide_True by set_solver. destruct D as [acc]. unfold set_account. simpl.
    do 2 f_equal. pose proof (try_charge_undone _ _ _ Ha Hu Ho Hc) as Hun.
    clear -Hun. destruct acc, r; simpl in *; by rewrite Hun.
  - destruct (domains w !! a); simpl; [| done]. by rewrite !(decide_False (P := a ∈ [d])) by set_solver.
Qed.

End walkers.

(** ** The accounting relation of the clients *)

Definition usage (r : Resource) (ds : gmap Koid Domain) (a : Koid) : option Z :=
  (fun D => used (select r (account D))) <$> ds !! a.
Definition cap_limit (r : Resource) (ds : gmap Koid Domain) (a : Koid) : option Z :=
  (fun D => limit (select r (account D))) <$> ds !! a.

(** From [ds] to [ds'] the usage of [r] moved by [delta] on exactly the Domains
    of [C]; the tree, the limits and every other usage are as they were. *)
Record shifted (r : Resource) (C : list Koid) (delta : Z) (ds ds' : gmap Koid Domain) : Prop := {
  shifted_tree : same_tree ds ds';
  shifted_usage : forall r' a, usage r' ds' a =
    (fun u => u + if decide (r' = r /\ a ∈ C) then delta else 0) <$> usage r' ds a;
  shifted_limit : forall r' a, cap_limit r' ds' a = cap_limit r' ds a;
}.

Lemma shifted_refl r C ds : shifted r C 0 ds ds.
Proof.
  split; [reflexivity | | done]. intros r' a. destruct (usage r' ds a); simpl; [| done].
  f_equal. case_decide; lia.
Qed.

Lemma shifted_trans r C d1 d2 d ds1 ds2 ds3 :
  shifted r C d1 ds1 ds2 -> shifted r C d2 ds2 ds3 -> d = d1 + d2 -> shifted r C d ds1 ds3.
Proof.
  intros [Ht1 Hu1 Hl1] [Ht2 Hu2 Hl2] ->. split.
  - by rewrite Ht1.
  - intros r' a. rewrite Hu2, Hu1. destruct (usage r' ds1 a); simpl; [| done]. f_equal.
    case_decide; lia.
  - intros. by rewrite Hl2, Hl1.
Qed.

(** An adjustment that only moves [used] is a shift. *)
Lemma adjust_shifted r C f delta ds :
  (forall a A, a ∈ C -> ds !! a = Some A ->
     used (f (select r (account A))) = used (select r (account A)) + delta) ->
  (forall c, limit (f c) = limit c) ->
  shifted r C delta ds (adjust r C f ds).
Proof.
  intros Hf Hl. split.
  - apply adjust_same_tree.
  - intros r' a. unfold usage. rewrite lookup_adjust. destruct (ds !! a) as [A |] eqn:E; simpl; [| done].
    f_equal. case_decide as Ha; [| rewrite decide_False by tauto; lia]. simpl. rewrite select_update.
    case_decide; subst.
    + rewrite decide_True by done. by apply Hf with a.
    + rewrite decide_False by tauto. lia.
  - intros r' a. unfold cap_limit. rewrite lookup_adjust. destruct (ds !! a) as [A |]; simpl; [| done].
    f_equal. case_decide; [| done]. simpl. rewrite select_update. case_decide; subst; [apply Hl | done].
Qed.

(** What a client needs of the Domain it pays from: at least [lo] of the
    resource is accounted on the whole chain, and [hi] more fits in a u64. *)
Definition pays (r : Resource) (d : Koid) (lo hi : Z) (ds : gmap Koid Domain) : Prop :=
  domains_wf ds /\ 0 <= d /\ is_Some (ds !! d) /\
  forall a u, a ∈ chain_of ds d -> usage r ds a = Some u -> lo <= u <= U64_MAX - hi.

Lemma pays_weaken r d lo hi lo' hi' ds :
  pays r d lo hi ds -> lo' <= lo -> hi' <= hi -> pays r d lo' hi' ds.
Proof.
  intros (Hwf & Hd & Hs & Hb) Hlo Hhi. do 3 (split; [done |]).
  intros a u Ha Hu. specialize (Hb a u Ha Hu). lia.
Qed.

Lemma pays_shifted r d lo hi delta ds ds' :
  pays r d lo hi ds -> shifted r (chain_of ds d) delta ds ds' ->
  pays r d (lo + delta) (hi - delta) ds' /\ chain_of ds' d = chain_of ds d.
Proof.
  intros (Hwf & Hd & Hs & Hb) [Ht Hu _].
  assert (chain_of ds' d = chain_of ds d) as Hch by (by rewrite Ht).
  split; [| done]. split; [by eapply domains_wf_same_tree |]. split; [done |]. split.
  - specialize (Ht d). destruct Hs as [D E]. rewrite E in Ht. by destruct (ds' !! d).
  - intros a u Ha Hua. rewrite Hch in Ha. rewrite Hu in Hua.
    destruct (usage r ds a) as [u0 |] eqn:E; simplify_eq/=.
    rewrite decide_True by done. specialize (Hb a u0 Ha E). lia.
Qed.

Section client_specs.
Context (r : Resource) (d : Koid).
Implicit Types w : World.

Lemma wp_charge_hier amount lo hi w (Q : unit -> World -> Prop) :
  pays r d lo hi (domains w) -> 0 <= lo -> 0 <= amount <= hi ->
  (forall ds', shifted r (chain_of (domains w) d) amount (domains w) ds' -> Q tt (set_domains ds' w)) ->
  wp (charge_hier (chain_fuel d) d amount r) Q w.
Proof.
  intros (Hwf & Hd & [D E] & Hb) Hlo Ha HQ. eapply run_wp.
  - eapply charge_hier_run; try done. unfold chain_fuel. lia.
  - apply HQ, adjust_shifted; [| done]. intros a A Hin EA. simpl.
    specialize (Hb a (used (select r (account A))) Hin). unfold usage in Hb. rewrite EA in Hb.
    apply sat_add64_small. specialize (Hb eq_refl). lia.
Qed.

(** A refund needs only that the whole chain accounts at least that much. *)
Lemma wp_uncharge_low amount w (Q : unit -> World -> Prop) :
  domains_wf (domains w) -> 0 <= d -> is_Some (domains w !! d) -> 0 <= amount ->
  (forall a u, a ∈ chain_of (domains w) d -> usage r (domains w) a = Some u -> amount <= u) ->
  (forall ds', shifted r (chain_of (domains w) d) (- amount) (domains w) ds' -> Q tt (set_domains ds' w)) ->
  wp (uncharge_hier (chain_fuel d) d amount r) Q w.
Proof.
  intros Hwf Hd [D E] Ha Hb HQ. eapply run_wp.
  - eapply uncharge_hier_run; try done. unfold chain_fuel. lia.
  - apply HQ, adjust_shifted; [| done]. intros a A Hin EA. simpl.
    specialize (Hb a (used (select r (account A))) Hin). unfold usage in Hb. rewrite EA in Hb.
    specialize (Hb eq_refl). rewrite sat_sub64_small by lia. lia.
Qed.

Lemma wp_uncharge_hier amount lo hi w (Q : unit -> World -> Prop) :
  pays r d lo hi (domains w) -> 0 <= amount <= lo ->
  (forall ds', shifted r (chain_of (domains w) d) (- amount) (domains w) ds' -> Q tt (set_domains ds' w)) ->
  wp (uncharge_hier (chain_fuel d) d amount r) Q w.
Proof.
  intros (Hwf & Hd & Hs & Hb) Ha HQ. apply wp_uncharge_low; try done; try lia.
  intros a u Hin Hu. specialize (Hb a u Hin Hu). lia.
Qed.

Lemma wp_try_charge_hier amount lo hi w (Q : bool -> World -> Prop) :
  pays r d lo hi (domains w) -> 0 <= lo -> 0 <= amount <= hi ->
  (forall ds', shifted r (chain_of (domains w) d) amount (domains w) ds' -> Q true (set_domains ds' w)) ->
  Q false w ->
  wp (try_charge_hier (chain_fuel d) d amount r) Q w.
Proof.
  intros (Hwf & Hd & [D E] & Hb) Hlo Ha HQ Hrefused.
  assert (headroom amount r (chain_of (domains w) d) (domains w)) as Hroom.
  { intros a A Hin EA. specialize (Hb a (used (select r (account A))) Hin). unfold usage in Hb.
    rewrite EA in Hb. specialize (Hb eq_refl). lia. }
  eapply run_wp; [eapply try_charge_hier_run; try done; try lia; unfold chain_fuel; lia |].
  destruct (forallb _ _); [| by rewrite set_domains_id].
  apply HQ, adjust_shifted; [| done]. intros a A Hin EA. simpl.
  apply sat_add64_small. by apply (Hroom a A).
Qed.

End client_specs.
