(* ===== verification/DomainTree.v ===== *)
(** Freezing and killing a Domain reach exactly its subtree: the batch walks of
    kernel/object/domain/mod.rs against the set of Domains below a Domain, and
    what creation does in a frozen or killed one. *)

From S2P Require Import Prelude Object Domain DomainFacts.

Definition procs (ds : gmap Koid Domain) (d : Koid) : list Koid :=
  match ds !! d with Some D => items (processes D) | None => [] end.
Definition kids (ds : gmap Koid Domain) (d : Koid) : list Koid :=
  match ds !! d with Some D => items (children D) | None => [] end.

(** The Domain and everything below it, parents first. *)
Fixpoint subtree (depth : nat) (ds : gmap Koid Domain) (d : Koid) : list Koid :=
  match depth with
  | O => []
  | S depth => d :: (kids ds d ≫= subtree depth ds)
  end.

(** Children come after their parent and name it; identities are below the next one. *)
Definition tree_wf (ds : gmap Koid Domain) (next : Z) : Prop :=
  (forall d D, ds !! d = Some D -> 0 <= d < next) /\
  (forall d c, c ∈ kids ds d -> d < c /\ exists C, ds !! c = Some C /\ parent_link C = Some d).

(** ** One batch, and all of them *)

Lemma filter_all {A} (l : list A) : base.filter (fun _ => true = true) l = l.
Proof. induction l as [| x l IH]; [done |]. by rewrite filter_cons_True, IH. Qed.

Lemma scan_spec keep l room :
  let '(out, n) := scan keep l room in
  out = base.filter (fun x => keep x = true) (take n l) /\ (n <= length l)%nat /\
  (n = O -> l = [] \/ room = O).
Proof.
  revert room. induction l as [| x l IH]; intros [| room]; try (simpl; by auto with lia).
  cbn [scan]. destruct (keep x) eqn:E.
  - specialize (IH room). destruct (scan keep l room) as [out n]. destruct IH as (-> & Hn & _).
    cbn [take firstn]. rewrite filter_cons_True by done. split; [done |]. simpl. split; [lia | lia].
  - specialize (IH (S room)). destruct (scan keep l (S room)) as [out n]. destruct IH as (-> & Hn & _).
    cbn [take firstn]. rewrite filter_cons_False by congruence. split; [done |]. simpl. split; [lia | lia].
Qed.

(** A list that the batches read and the action leaves alone is visited once, in
    order, entry by entry. *)
Lemma batches_for_each (P : World -> Prop) fetch act keep l fuel at_ w :
  (forall at_ w, P w -> fetch at_ w =
     Some ((fun '(out, n) => (out, at_ + n)%nat) (scan keep (drop at_ l) BATCH), w)) ->
  (forall x w, x ∈ l -> P w -> wp (act x) (fun _ w' => P w') w) ->
  P w -> (length l - at_ < fuel)%nat ->
  batches fuel fetch act (mret tt) at_ w = for_each act (base.filter (fun x => keep x = true) (drop at_ l)) w.
Proof.
  intros Hfetch Hact. revert at_ w. induction fuel as [| fuel IH]; intros at_ w HP Hfuel; [lia |].
  cbn [batches]. unfold mbind at 1, M_bind at 1. rewrite Hfetch by done.
  pose proof (scan_spec keep (drop at_ l) BATCH) as Hscan.
  destruct (scan keep (drop at_ l) BATCH) as [out n]. destruct Hscan as (-> & Hn & Hz).
  rewrite length_drop in Hn. cbn beta iota.
  destruct (decide (n = O)) as [-> | Hne].
  - destruct (Hz eq_refl) as [E | E]; [| done]. rewrite E. simpl. rewrite Nat.add_0_r, Nat.eqb_refl. done.
  - replace ((_ =? 0)%nat && (at_ + n =? at_)%nat) with false
      by (symmetry; apply andb_false_iff; right; apply Nat.eqb_neq; lia).
    rewrite <- (take_drop n (drop at_ l)) at 2. rewrite filter_app, drop_drop.
    assert (base.filter (fun x => keep x = true) (take n (drop at_ l)) ⊆ l) as Hin.
    { intros x [_ Hx]%list_elem_of_filter. rewrite <- (take_drop at_ l), elem_of_app. right.
      rewrite <- (take_drop n (drop at_ l)), elem_of_app. by left. }
    set (now := base.filter _ (take n (drop at_ l))) in *. clearbody now.
    revert w HP. induction now as [| x now IHnow]; intros w HP.
    + cbn [for_each app]. unfold mbind, M_bind, mret, M_ret. apply IH; [done | lia].
    + cbn [for_each app]. unfold mbind, M_bind.
      destruct (wp_run _ _ _ (Hact x w ltac:(set_solver) HP)) as ([] & w' & -> & HP').
      specialize (IHnow ltac:(set_solver) w' HP').
      unfold mbind, M_bind in IHnow. exact IHnow.
Qed.

(** ** The exact effect of a walk *)

Definition mark (f : Domain -> Domain) (L : list Koid) (ds : gmap Koid Domain) : gmap Koid Domain :=
  map_imap (fun a D => Some (if decide (a ∈ L) then f D else D)) ds.

Lemma lookup_mark f L ds a :
  mark f L ds !! a = (fun D => if decide (a ∈ L) then f D else D) <$> ds !! a.
Proof. unfold mark. rewrite map_lookup_imap. by destruct (ds !! a). Qed.

(** The flags these walks set leave the lists alone, and setting one twice is
    setting it once. *)
Class WalkFlag (f : Domain -> Domain) : Prop := {
  flag_children : forall D, children (f D) = children D;
  flag_processes : forall D, processes (f D) = processes D;
  flag_parent : forall D, parent_link (f D) = parent_link D;
  flag_idem : forall D, f (f D) = f D;
}.

#[export] Instance killed_flag : WalkFlag (set_killed true).
Proof. by split. Qed.
#[export] Instance frozen_flag on : WalkFlag (set_frozen_flag on).
Proof. by split. Qed.

Section walk.
Context (f : Domain -> Domain) `{!WalkFlag f} (visit : Koid -> list Effect).

Definition alive_procs (w : World) (d : Koid) : list Koid :=
  base.filter (fun p => bool_decide (p ∈ live w) = true) (procs (domains w) d).

(** The world after the Domains of [L] were flagged and their processes visited. *)
Definition walked (L : list Koid) (w : World) : World :=
  mkWorld (mark f L (domains w)) (generations w) (live w) (next_koid w) (next_message_id w) (heap_of w)
    (effects w ++ (L ≫= fun d => alive_procs w d ≫= visit)).

Lemma procs_mark L ds d : procs (mark f L ds) d = procs ds d.
Proof. unfold procs. rewrite lookup_mark. destruct (ds !! d); simpl; [| done]. case_decide; by rewrite ?flag_processes. Qed.

Lemma kids_mark L ds d : kids (mark f L ds) d = kids ds d.
Proof. unfold kids. rewrite lookup_mark. destruct (ds !! d); simpl; [| done]. case_decide; by rewrite ?flag_children. Qed.

Lemma subtree_mark depth L ds d : subtree depth (mark f L ds) d = subtree depth ds d.
Proof.
  revert d. induction depth as [| depth IH]; intros d; [done |]. cbn [subtree]. rewrite kids_mark. f_equal. by apply bind_ext_in.
Qed.

Lemma mark_mark L1 L2 ds : mark f L2 (mark f L1 ds) = mark f (L1 ++ L2) ds.
Proof.
  apply map_eq. intros a. rewrite !lookup_mark. destruct (ds !! a) as [D |]; simpl; [| done]. f_equal.
  repeat case_decide; rewrite ?flag_idem; set_solver.
Qed.

Lemma walked_nil w : walked [] w = w.
Proof.
  destruct w. unfold walked. simpl. rewrite app_nil_r. f_equal. apply map_eq. intros a.
  rewrite lookup_mark. by destruct (_ !! a).
Qed.

Lemma walked_walked L1 L2 w : walked L2 (walked L1 w) = walked (L1 ++ L2) w.
Proof.
  unfold walked. simpl. rewrite mark_mark, bind_app, app_assoc. do 2 f_equal.
  apply bind_ext_in. intros d _. unfold alive_procs. simpl. by rewrite procs_mark.
Qed.

Lemma tree_wf_mark L ds next : tree_wf ds next -> tree_wf (mark f L ds) next.
Proof.
  intros [Hb Hk]. split.
  - intros d D. rewrite lookup_mark. destruct (ds !! d) eqn:E; simpl; [| done]. eauto.
  - intros d c. rewrite kids_mark. intros Hc. destruct (Hk d c Hc) as (Hlt & C & HC & Hp).
    split; [done |]. rewrite lookup_mark, HC. simpl. eexists. split; [done |].
    case_decide; by rewrite ?flag_parent.
Qed.

Context (visitM : Koid -> M World unit).
Hypothesis Hvisit : forall p w, visitM p w =
  Some (tt, mkWorld (domains w) (generations w) (live w) (next_koid w) (next_message_id w) (heap_of w)
              (effects w ++ visit p)).

Lemma for_each_visit l w :
  for_each visitM l w =
    Some (tt, mkWorld (domains w) (generations w) (live w) (next_koid w) (next_message_id w) (heap_of w)
                (effects w ++ (l ≫= visit))).
Proof using Hvisit.
  revert w. induction l as [| p l IH]; intros w.
  - simpl. rewrite app_nil_r. by destruct w.
  - cbn [for_each]. erewrite run_bind by apply Hvisit. rewrite IH. simpl. by rewrite app_assoc.
Qed.

Lemma insert_mark d D ds : ds !! d = Some D -> <[d := f D]> ds = mark f [d] ds.
Proof.
  intros E. apply map_eq. intros a. rewrite lookup_mark. destruct (decide (a = d)) as [-> | Hne].
  - rewrite lookup_insert_eq, E. simpl. by rewrite decide_True by set_solver.
  - rewrite lookup_insert_ne by done. destruct (ds !! a); simpl; [| done]. by rewrite decide_False by set_solver.
Qed.

(** The Domain itself: its flag and its own processes. *)
Lemma walk_own d D w :
  domains w !! d = Some D ->
  batches (batch_fuel (processes D)) (processes_from d) visitM (mret tt) 0
    (set_domains (<[d := f D]> (domains w)) w) = Some (tt, walked [d] w).
Proof using All.
  intros E. rewrite (insert_mark _ _ _ E).
  rewrite (batches_for_each (fun w' => live w' = live w /\ exists D', domains w' !! d = Some D' /\ processes D' = processes D)
             _ _ (fun p => bool_decide (p ∈ live w)) (items (processes D))).
  - rewrite for_each_visit. unfold walked, alive_procs, procs. simpl. by rewrite E, app_nil_r.
  - intros at_ w' (Hlive & D' & HD' & HP). unfold processes_from, get_domain, mbind, M_bind, gets.
    rewrite HD', HP, Hlive. by destruct (scan _ _ _).
  - intros p w' _ HPw. unfold wp. rewrite Hvisit. exact HPw.
  - split; [done |]. simpl. rewrite lookup_mark, E. simpl. eexists. split; [done |].
    rewrite decide_True by set_solver. apply flag_processes.
  - unfold batch_fuel, vec_len. lia.
Qed.

(** Descending into children that are each walked as [IH] says. *)
Lemma walk_children depth w (l : list Koid) :
  (forall c w', c ∈ l -> tree_wf (domains w') (next_koid w) -> next_koid w' = next_koid w ->
     is_Some (domains w' !! c) ->
     walk_subtree depth f visitM (mret tt) c w' = Some (tt, walked (subtree depth (domains w') c) w')) ->
  tree_wf (domains w) (next_koid w) -> (forall c, c ∈ l -> is_Some (domains w !! c)) ->
  for_each (walk_subtree depth f visitM (mret tt)) l w =
    Some (tt, walked (l ≫= subtree depth (domains w)) w).
Proof using All.
  intros Hwalk Hwf Hl. revert w Hwalk Hwf Hl. induction l as [| c l IH]; intros w Hwalk Hwf Hl.
  - simpl. by rewrite walked_nil.
  - cbn [for_each]. erewrite run_bind; [| apply Hwalk; [set_solver | done | done | apply Hl; set_solver]].
    rewrite IH.
    + rewrite walked_walked, bind_cons. do 4 f_equal. apply bind_ext_in. intros c' _. apply subtree_mark.
    + intros c' w' Hc'. apply Hwalk. set_solver.
    + by apply tree_wf_mark.
    + intros c' Hc'. simpl. rewrite lookup_mark. destruct (Hl c') as [C ->]; [set_solver |]. by eexists.
Qed.

Lemma walk_subtree_run depth d w :
  tree_wf (domains w) (next_koid w) -> is_Some (domains w !! d) ->
  next_koid w - d <= Z.of_nat depth ->
  walk_subtree depth f visitM (mret tt) d w = Some (tt, walked (subtree depth (domains w) d) w).
Proof using All.
  revert d w. induction depth as [| depth IH]; intros d w Hwf [D E] Hdepth.
  { destruct Hwf as [Hb _]. specialize (Hb d D E). lia. }
  cbn [walk_subtree]. erewrite run_bind; [| by unfold get_domain; rewrite E].
  erewrite run_bind; [| unfold put_domain; reflexivity]. erewrite run_bind; [| by apply walk_own].
  assert (kids (domains w) d = items (children D)) as Hkids by (unfold kids; by rewrite E).
  assert (forall c w', c ∈ items (children D) -> tree_wf (domains w') (next_koid w') ->
    next_koid w' = next_koid w -> is_Some (domains w' !! c) ->
    walk_subtree depth f visitM (mret tt) c w' = Some (tt, walked (subtree depth (domains w') c) w')) as Hc.
  { intros c w' Hc Hwf' Hnext Hsome. apply IH; [done | done |]. rewrite Hnext.
    destruct (proj2 Hwf d c) as [Hlt _]; [by rewrite Hkids |]. lia. }
  assert (forall c, c ∈ items (children D) -> is_Some (domains w !! c)) as Hsome.
  { intros c Hin. destruct (proj2 Hwf d c) as (_ & C & HC & _); [by rewrite Hkids | by eexists]. }
  rewrite (batches_for_each (fun w' => tree_wf (domains w') (next_koid w) /\ next_koid w' = next_koid w /\
             (forall c, is_Some (domains w !! c) -> is_Some (domains w' !! c)) /\
             exists D', domains w' !! d = Some D' /\ children D' = children D)
             _ _ (fun _ => true) (items (children D))).
  - replace (base.filter _ (drop 0 (items (children D)))) with (items (children D)) by (symmetry; apply filter_all).
    rewrite walk_children.
    + rewrite walked_walked. simpl. rewrite Hkids. do 4 f_equal. apply bind_ext_in. intros. apply subtree_mark.
    + intros c w' Hin Hwf' Hnext. apply Hc; [done | by rewrite Hnext | done].
    + by apply tree_wf_mark.
    + intros c Hin. simpl. rewrite lookup_mark. destruct (Hsome c Hin) as [C ->]. by eexists.
  - intros at_ w' (_ & _ & _ & D' & HD' & HC). unfold children_from, get_domain, mbind, M_bind.
    rewrite HD', HC. by destruct (scan _ _ _).
  - intros c w' Hin (Hwf' & Hnext & Hkeep & D' & HD' & HC). eapply run_wp; [apply Hc; try done; auto |].
    + by rewrite Hnext.
    + split; [by apply tree_wf_mark |]. split; [done |]. split.
      * intros c' Hc'. simpl. rewrite lookup_mark. destruct (Hkeep c' Hc') as [C ->]. by eexists.
      * simpl. rewrite lookup_mark, HD'. simpl. eexists. split; [done |]. case_decide; by rewrite ?flag_children.
  - split; [by apply tree_wf_mark |]. split; [done |]. split.
    + intros c' [C' HC']. simpl. rewrite lookup_mark, HC'. by eexists.
    + simpl. rewrite lookup_mark, E. simpl. eexists. split; [done |]. case_decide; by rewrite ?flag_children.
  - unfold batch_fuel, vec_len. lia.
Qed.

End walk.
