(* ===== verification/DomainProps.v ===== *)
(** The promises of Domains: hierarchical charging is all or nothing and within
    every limit, the compare-and-swap loops are the atomic steps they stand for,
    freezing and killing reach the whole subtree and nothing else, and the tree
    stays a tree. *)

From S2P Require Import Prelude Object Domain DomainFacts DomainTree.

(** ** Charging *)

Lemma fits_spec amount r ds a A :
  ds !! a = Some A -> 0 <= used (select r (account A)) -> used (select r (account A)) + amount <= U64_MAX ->
  fits amount r ds a = true <->
  limit (select r (account A)) = UNLIMITED \/
  used (select r (account A)) + amount <= limit (select r (account A)).
Proof.
  intros E Hu Hs. rewrite (fits_lookup _ _ _ _ _ E). unfold Counter.try_charge.
  rewrite sat_add64_small by done.
  destruct (Z.eqb_spec (limit (select r (account A))) UNLIMITED),
    (Z.ltb_spec (limit (select r (account A))) (used (select r (account A)) + amount)); simpl; naive_solver lia.
Qed.

(** C27: A hierarchical charge is all or nothing. It succeeds exactly when the
    Domain and every ancestor have room; then the usage of each of them is higher
    by the amount and within its limit, and no other counter moved. When any of
    them refuses, the world is exactly what it was. *)
Theorem charge_all_or_nothing d amount r w :
  domains_wf (domains w) -> 0 <= d -> is_Some (domains w !! d) -> 0 <= amount ->
  headroom amount r (chain_of (domains w) d) (domains w) ->
  exists ok ds', try_charge_hier (chain_fuel d) d amount r w = Some (ok, set_domains ds' w) /\
    (ok = true <-> forall a A, a ∈ chain_of (domains w) d -> domains w !! a = Some A ->
       limit (select r (account A)) = UNLIMITED \/
       used (select r (account A)) + amount <= limit (select r (account A))) /\
    if ok then
      shifted r (chain_of (domains w) d) amount (domains w) ds' /\
      (forall a A', a ∈ chain_of (domains w) d -> ds' !! a = Some A' ->
         limit (select r (account A')) = UNLIMITED \/
         used (select r (account A')) <= limit (select r (account A')))
    else ds' = domains w.
Proof.
  intros Hwf Hd [D E] Ha Hroom. pose proof (try_charge_hier_run (chain_fuel d) d amount r w D Hwf Hd
    ltac:(unfold chain_fuel; lia) E Ha Hroom) as Hrun. cbn zeta in Hrun.
  assert (forallb (fits amount r (domains w)) (chain_of (domains w) d) = true <->
    forall a A, a ∈ chain_of (domains w) d -> domains w !! a = Some A ->
       limit (select r (account A)) = UNLIMITED \/
       used (select r (account A)) + amount <= limit (select r (account A))) as Hok.
  { rewrite forallb_forall. split.
    - intros H a A Hin EA. destruct (Hroom a A Hin EA). apply (fits_spec amount r (domains w) a A); try done.
      apply H. by apply list_elem_of_In.
    - intros H a Hin. apply list_elem_of_In in Hin. destruct (domains w !! a) as [A |] eqn:EA.
      + destruct (Hroom a A Hin EA). apply (fits_spec amount r (domains w) a A); [done | done | done | by apply (H a A)].
      + unfold fits. by rewrite EA. }
  exists (forallb (fits amount r (domains w)) (chain_of (domains w) d)). eexists. split; [exact Hrun |].
  split; [exact Hok |]. destruct (forallb _ _); [| done]. destruct Hok as [Hok _]. specialize (Hok eq_refl). split.
  - apply adjust_shifted; [| done]. intros a A Hin EA. simpl. apply sat_add64_small. by apply (Hroom a A).
  - intros a A' Hin HA'. rewrite lookup_adjust in HA'. destruct (domains w !! a) as [A |] eqn:EA; simplify_eq/=.
    rewrite decide_True by done. simpl. rewrite select_update, decide_True by done. simpl.
    destruct (Hroom a A Hin EA). rewrite sat_add64_small by done. by apply (Hok a A).
Qed.

(** A parent with room for three handles and a child with room for ten. *)
Definition family : World :=
  mkWorld (<[2 := mkDomain (account_new UNLIMITED 10 UNLIMITED) (Some 1) vec_new (Vec [21; 22] 2) false false]>
           {[1 := mkDomain (account_new UNLIMITED 3 UNLIMITED) None (Vec [2] 1) (Vec [11] 1) false false]})
    ∅ {[11; 21; 22]} 30 1 (replicate 20 (Some 3%nat)) [].

Lemma family_lookup a A :
  domains family !! a = Some A ->
  (a = 2 /\ A = mkDomain (account_new UNLIMITED 10 UNLIMITED) (Some 1) vec_new (Vec [21; 22] 2) false false) \/
  (a = 1 /\ A = mkDomain (account_new UNLIMITED 3 UNLIMITED) None (Vec [2] 1) (Vec [11] 1) false false).
Proof.
  cbn [family domains]. intros H. apply lookup_insert_Some in H as [[<- <-] | [_ H]]; [by left |].
  apply lookup_singleton_Some in H as [<- <-]. by right.
Qed.

Lemma charge_all_or_nothing_witness :
  exists ds', try_charge_handle 2 family = Some (true, set_domains ds' family) /\
    shifted Handles [2; 1] 1 (domains family) ds'.
Proof.
  destruct (charge_all_or_nothing 2 1 Handles family) as (ok & ds' & Hrun & Hok & H).
  - intros d D p HD Hp. destruct (family_lookup _ _ HD) as [[-> ->] | [-> ->]]; simplify_eq/=. lia.
  - lia.
  - vm_compute. by eexists.
  - lia.
  - intros a A _ HA. destruct (family_lookup _ _ HA) as [[-> ->] | [-> ->]]; vm_compute; split; discriminate.
  - assert (ok = true) as ->.
    { apply Hok. intros a A _ HA. right.
      destruct (family_lookup _ _ HA) as [[-> ->] | [-> ->]]; vm_compute; discriminate. }
    exists ds'. split; [exact Hrun |]. exact (proj1 H).
Defined.

(** The compare-and-swap loop of [try_charge], run against any interference
    and any spurious failures, is the one atomic step it stands for: when it
    answers, its answer is the atomic step applied to a value the counter really
    held, and an attempt is retried only if the exchange failed spuriously or
    another core had moved the counter. *)
Theorem try_charge_linearizes lim amount cur attempts pk :
  match Counter.try_charge_loop lim amount cur attempts with
  | Counter.Swapped old next =>
      (old, false) ∈ attempts /\
      Counter.try_charge amount (mkCounter old pk lim) = Some (mkCounter next pk lim)
  | Counter.Refused seen =>
      (seen = cur \/ exists sp, (seen, sp) ∈ attempts) /\
      Counter.try_charge amount (mkCounter seen pk lim) = None
  | Counter.Spinning =>
      forall before after cell sp, attempts = before ++ (cell, sp) :: after ->
        sp = true \/ cell <> default cur (fst <$> last before)
  end.
Proof.
  revert cur. induction attempts as [| [cell sp] attempts IH]; intros cur; cbn [Counter.try_charge_loop].
  - destruct (negb (lim =? UNLIMITED) && (lim <? sat_add64 cur amount)) eqn:E.
    + split; [by left |]. unfold Counter.try_charge. simpl. by rewrite E.
    + intros [] after cell sp; discriminate.
  - destruct (negb (lim =? UNLIMITED) && (lim <? sat_add64 cur amount)) eqn:E.
    { split; [by left |]. unfold Counter.try_charge. simpl. by rewrite E. }
    destruct ((cell =? cur) && negb sp) eqn:Ecas.
    + apply andb_true_iff in Ecas as [->%Z.eqb_eq ->%negb_true_iff]. split; [left |].
      unfold Counter.try_charge. simpl. by rewrite E.
    + specialize (IH cell). destruct (Counter.try_charge_loop lim amount cell attempts).
      * destruct IH as [Hin Hs]. split; [by right | done].
      * destruct IH as [[-> | [sp' Hin]] Hs]; (split; [right | done]); [exists sp; left | exists sp'; by right].
      * intros before after cell' sp' Heq. destruct before as [| b before]; simplify_eq/=.
        -- apply andb_false_iff in Ecas as [?%Z.eqb_neq | ?%negb_false_iff]; [by right | by left].
        -- destruct (IH before after cell' sp' eq_refl) as [? | Hne]; [by left | right].
           rewrite last_cons. by destruct (last before).
Qed.

(** ** Killing and freezing *)

(** [below ds d c]: [c] is [d] or a descendant of it. *)
Inductive below (ds : gmap Koid Domain) (d : Koid) : Koid -> Prop :=
| below_self : below ds d d
| below_child p c : below ds d p -> c ∈ kids ds p -> below ds d c.

Lemma below_trans ds d p c : below ds d p -> below ds p c -> below ds d c.
Proof. intros H1 H2. induction H2 as [| q c H2 IH Hc]; [done |]. by eapply below_child. Qed.

Lemma below_inv ds d c :
  below ds d c -> c = d \/ exists k, k ∈ kids ds d /\ below ds k c.
Proof.
  induction 1 as [| p c Hp IHp Hpc]; [by left |]. right.
  destruct IHp as [-> | (k & Hk1 & Hk2)]; [exists c; split; [done | constructor] |].
  exists k. split; [done |]. by eapply below_child.
Qed.

Lemma elem_subtree depth ds next d c :
  tree_wf ds next -> is_Some (ds !! d) -> next - d <= Z.of_nat depth ->
  c ∈ subtree depth ds d <-> below ds d c.
Proof.
  intros [Hb Hk]. revert d. induction depth as [| depth IH]; intros d [D E] Hdepth.
  { specialize (Hb d D E). lia. }
  cbn [subtree]. rewrite elem_of_cons, list_elem_of_bind. split.
  - intros [-> | (k & Hc & Hkid)]; [constructor |]. destruct (Hk d k Hkid) as (Hlt & K & HK & _).
    apply IH in Hc; [| by eexists | lia]. eapply below_trans; [| exact Hc]. by eapply below_child; [constructor |].
  - intros Hc. destruct (below_inv _ _ _ Hc) as [-> | (k & Hkid & Hkc)]; [by left |].
    right. exists k. destruct (Hk d k Hkid) as (Hlt & K & HK & _).
    split; [apply IH; [by eexists | lia | done] | done].
Qed.

(** What a walk of the subtree of [d] leaves: the flag on exactly the Domains
    below [d], and one visit of each live process of theirs, in order. *)
Lemma walked_spec f `{!WalkFlag f} visit depth d w a A :
  tree_wf (domains w) (next_koid w) -> is_Some (domains w !! d) -> next_koid w - d <= Z.of_nat depth ->
  domains w !! a = Some A ->
  (below (domains w) d a -> domains (walked f visit (subtree depth (domains w) d) w) !! a = Some (f A)) /\
  (~ below (domains w) d a -> domains (walked f visit (subtree depth (domains w) d) w) !! a = Some A).
Proof.
  intros Hwf Hs Hdepth HA. simpl. rewrite lookup_mark, HA. simpl.
  split; intros Hb; [rewrite decide_True | rewrite decide_False]; try done; by rewrite elem_subtree.
Qed.

Lemma visited_spec f visit depth d w e :
  tree_wf (domains w) (next_koid w) -> is_Some (domains w !! d) -> next_koid w - d <= Z.of_nat depth ->
  e ∈ effects (walked f visit (subtree depth (domains w) d) w) <->
  e ∈ effects w \/ exists c p, below (domains w) d c /\ p ∈ procs (domains w) c /\ p ∈ live w /\ e ∈ visit p.
Proof.
  intros Hwf Hs Hdepth. simpl. rewrite elem_of_app, list_elem_of_bind. f_equiv. split.
  - intros (c & (p & He & Hp)%list_elem_of_bind & Hc). exists c, p. apply elem_subtree with (next := next_koid w) in Hc; try done.
    unfold alive_procs in Hp. apply list_elem_of_filter in Hp as [Hl Hp]. apply bool_decide_eq_true in Hl. done.
  - intros (c & p & Hc & Hp & Hl & He). exists c. split; [| by rewrite elem_subtree].
    apply list_elem_of_bind. exists p. split; [done |]. apply list_elem_of_filter. by rewrite bool_decide_eq_true.
Qed.

Lemma emit_visit (visit : Koid -> Effect) p w :
  emit (visit p) w =
    Some (tt, mkWorld (domains w) (generations w) (live w) (next_koid w) (next_message_id w) (heap_of w)
                (effects w ++ [visit p])).
Proof. done. Qed.

Lemma tree_depth_enough w d : tree_wf (domains w) (next_koid w) -> is_Some (domains w !! d) ->
  next_koid w - d <= Z.of_nat (tree_depth w).
Proof. intros [Hb _] [D E]. specialize (Hb d D E). unfold tree_depth. lia. Qed.

(** C28: Killing a Domain kills its subtree and nothing else: the walk ends, every
    Domain below is marked, every other Domain is as it was, and a process is
    terminated exactly when it is alive and accounted to a Domain below. *)
Theorem kill_reaches_subtree d w :
  tree_wf (domains w) (next_koid w) -> is_Some (domains w !! d) ->
  exists w', kill d w = Some (tt, w') /\
    (forall a A, domains w !! a = Some A ->
       (below (domains w) d a -> domains w' !! a = Some (set_killed true A)) /\
       (~ below (domains w) d a -> domains w' !! a = Some A)) /\
    (forall p, Terminate p ∈ effects w' <-> Terminate p ∈ effects w \/
       exists c, below (domains w) d c /\ p ∈ procs (domains w) c /\ p ∈ live w).
Proof.
  intros Hwf Hd. pose proof (tree_depth_enough w d Hwf Hd) as Hdepth. eexists. split.
  { unfold kill. erewrite run_bind by done. apply (walk_subtree_run (set_killed true) (fun p => [Terminate p]));
      try done. }
  split; [intros a A HA; by apply walked_spec |]. intros p. rewrite visited_spec by done.
  f_equiv. split; [intros (c & q & ? & ? & ? & [= ->]%list_elem_of_singleton); eauto |].
  intros (c & ? & ? & ?). exists c, p. split; [done |]. split; [done |]. split; [done | set_solver].
Qed.

Lemma family_tree : tree_wf (domains family) (next_koid family).
Proof.
  split.
  - intros d D HD. destruct (family_lookup _ _ HD) as [[-> _] | [-> _]]; vm_compute; split; congruence.
  - intros d c. unfold kids. destruct (domains family !! d) as [D |] eqn:HD; [| set_solver].
    destruct (family_lookup _ _ HD) as [[-> ->] | [-> ->]]; cbn [items children vec_new].
    + set_solver.
    + intros ->%list_elem_of_singleton. split; [lia |]. eexists. split; reflexivity.
Qed.

Lemma kill_reaches_subtree_witness :
  exists w', kill 1 family = Some (tt, w') /\ Terminate 22 ∈ effects w'.
Proof.
  destruct (kill_reaches_subtree 1 family family_tree) as (w' & Hrun & _ & Ht); [by vm_compute; eexists |].
  exists w'. split; [exact Hrun |]. apply Ht. right. exists 2. split; [| split].
  - eapply below_child; [constructor |]. vm_compute. left.
  - vm_compute. right. left.
  - by_decide.
Defined.

(** Freezing reaches the subtree, when no process joins it meanwhile: the walk
    ends, the flag of every Domain below (and of no other) is set as asked, every
    live process below is frozen or thawed, and each one thawed is woken. *)
Theorem set_frozen_reaches_subtree d on w :
  tree_wf (domains w) (next_koid w) -> is_Some (domains w !! d) ->
  exists w', set_frozen d on w = Some (tt, w') /\
    (forall a A, domains w !! a = Some A ->
       (below (domains w) d a -> domains w' !! a = Some (set_frozen_flag on A)) /\
       (~ below (domains w) d a -> domains w' !! a = Some A)) /\
    (forall p, (exists c, below (domains w) d c /\ p ∈ procs (domains w) c /\ p ∈ live w) ->
       ProcessFrozen p on ∈ effects w' /\ (on = false -> WakeObject p ∈ effects w')).
Proof.
  intros Hwf Hd. pose proof (tree_depth_enough w d Hwf Hd) as Hdepth.
  pose (visit := fun p => ProcessFrozen p on :: if on then [] else [WakeObject p]).
  eexists. split.
  { unfold set_frozen, set_frozen_racing. erewrite run_bind by done.
    apply (walk_subtree_run (set_frozen_flag on) visit); try done.
    intros p w'. unfold freeze_process, visit. destruct on; [done |]. simpl.
    unfold mbind, M_bind, emit, modify, emit_in. simpl. by rewrite <- app_assoc. }
  split; [intros a A HA; by apply walked_spec |]. intros p (c & Hc & Hp & Hl).
  split; [| intros ->]; apply visited_spec; try done; right; exists c, p;
    (split; [done |]; split; [done |]; split; [done |]); unfold visit; set_solver.
Qed.

Lemma set_frozen_reaches_subtree_witness :
  exists w', set_frozen 1 false family = Some (tt, w') /\ WakeObject 22 ∈ effects w'.
Proof.
  destruct (set_frozen_reaches_subtree 1 false family family_tree) as (w' & Hrun & _ & Ht);
    [by vm_compute; eexists |].
  exists w'. split; [exact Hrun |]. apply (Ht 22); [| reflexivity]. exists 2. split; [| split].
  - eapply below_child; [constructor |]. vm_compute. left.
  - vm_compute. right. left.
  - by_decide.
Defined.

(** Ten processes of which the first, 100, is gone; 110 is about to be registered. *)
Definition crowd : World :=
  mkWorld {[1 := mkDomain (account_new UNLIMITED UNLIMITED UNLIMITED) None vec_new
                   (Vec (seqZ 100 10) 16) false false]}
    ∅ (list_to_set (seqZ 101 10)) 200 1 [] [].

(** Another core registering [pid], once. *)
Definition register_once (d pid : Koid) : M World unit :=
  w ← gets id;
  if bool_decide (pid ∈ procs (domains w) d) then mret tt else register_process d pid ;; mret tt.

(** A freeze can miss a process. The walk keeps an index across batches, and a
    registration in between prunes dead entries, which moves the later ones down:
    a process that was alive and registered before the freeze began, and is still
    alive when it has ended, is then never frozen. *)
Theorem freeze_misses_process :
  109 ∈ procs (domains crowd) 1 /\ 109 ∈ live crowd /\
  exists w', set_frozen_racing (register_once 1 110) 1 true crowd = Some (tt, w') /\
    is_frozen 1 w' = Some (true, w') /\ 109 ∈ procs (domains w') 1 /\ 109 ∈ live w' /\
    ProcessFrozen 109 true ∉ effects w'.
Proof.
  split; [by_decide |].
  split; [by_decide |].
  eexists. split; [vm_compute; reflexivity |]. split; [vm_compute; reflexivity |].
  split; [| split]; by_decide.
Qed.

(** ** Creation *)

(** The Domain forest: a tree both upwards and downwards, with fresh identities left. *)
Record forest (w : World) : Prop := {
  forest_tree : tree_wf (domains w) (next_koid w);
  forest_up : domains_wf (domains w);
  forest_next : 0 <= next_koid w < U64_MAX;
}.

Lemma fresh_koid_run w :
  0 <= next_koid w < U64_MAX ->
  fresh_koid w = Some (next_koid w, set_next_koid (next_koid w + 1) w).
Proof.
  intros H. unfold fresh_koid, mbind, M_bind, gets, modify, mret, M_ret.
  by rewrite wrap64_small by (unfold u64_range; lia).
Qed.

Lemma forest_fresh w : forest w -> domains w !! next_koid w = None.
Proof.
  intros [[Hb _] _ _]. destruct (domains w !! next_koid w) as [D |] eqn:E; [| done].
  specialize (Hb _ _ E). lia.
Qed.

(** Attaching the fresh Domain [k] under [p] keeps both views of the tree. *)
Lemma attach_wf ds next p P v k C :
  tree_wf ds next -> domains_wf ds -> 0 <= next -> ds !! p = Some P -> ds !! k = None -> k = next ->
  items v = items (children P) ++ [k] -> parent_link C = Some p -> items (children C) = [] ->
  tree_wf (<[k := C]> (<[p := set_children v P]> ds)) (next + 1) /\
  domains_wf (<[k := C]> (<[p := set_children v P]> ds)).
Proof.
  intros [Hb Hk] Hup Hnext HP Hfresh -> Hv HC Hkids.
  assert (p <> next) as Hne by congruence. pose proof (Hb p P HP) as Hpb. split; [split |].
  - intros d D. destruct (decide (d = next)) as [-> | ?]; [lia |]. rewrite lookup_insert_ne by done.
    destruct (decide (d = p)) as [-> | ?]; [lia |]. rewrite lookup_insert_ne by done.
    intros HD. specialize (Hb d D HD). lia.
  - intros d c. unfold kids. destruct (decide (d = next)) as [-> | Hdn].
    { rewrite lookup_insert_eq, Hkids. set_solver. }
    rewrite lookup_insert_ne by done. destruct (decide (d = p)) as [-> | Hdp].
    + rewrite lookup_insert_eq. simpl. rewrite Hv, elem_of_app. intros [Hc | ->%list_elem_of_singleton].
      * destruct (Hk p c) as (Hlt & C' & HC' & Hp'); [unfold kids; by rewrite HP |]. split; [done |].
        rewrite lookup_insert_ne by congruence. destruct (decide (c = p)) as [-> | ?]; [lia |].
        rewrite lookup_insert_ne by done. eauto.
      * split; [lia |]. rewrite lookup_insert_eq. eauto.
    + rewrite lookup_insert_ne by done. intros Hc. destruct (Hk d c Hc) as (Hlt & C' & HC' & Hp').
      split; [done |]. rewrite lookup_insert_ne by congruence. destruct (decide (c = p)) as [-> | ?].
      * rewrite lookup_insert_eq. simplify_eq. eauto.
      * rewrite lookup_insert_ne by done. eauto.
  - intros d D q. destruct (decide (d = next)) as [-> | ?].
    + rewrite lookup_insert_eq. intros [= <-] Hq. simplify_eq. lia.
    + rewrite lookup_insert_ne by done. destruct (decide (d = p)) as [-> | ?].
      * rewrite lookup_insert_eq. intros [= <-]. simpl. by apply Hup.
      * rewrite lookup_insert_ne by done. apply Hup.
Qed.

Lemma forest_set_children w p P cap :
  forest w -> domains w !! p = Some P ->
  tree_wf (<[p := set_children (Vec (items (children P)) cap) P]> (domains w)) (next_koid w) /\
  domains_wf (<[p := set_children (Vec (items (children P)) cap) P]> (domains w)).
Proof.
  intros [[Hb Hk] Hup _] HP. split; [split |].
  - intros d D. destruct (decide (d = p)) as [-> | ?]; [rewrite lookup_insert_eq; intros _; by eapply Hb |].
    rewrite lookup_insert_ne by done. apply Hb.
  - intros d c. assert (kids (<[p:=set_children (Vec (items (children P)) cap) P]> (domains w)) d = kids (domains w) d) as ->.
    { unfold kids. destruct (decide (d = p)) as [-> | ?]; [rewrite lookup_insert_eq, HP | rewrite lookup_insert_ne]; done. }
    intros Hc. destruct (Hk d c Hc) as (? & C & HC & Hp). split; [done |]. destruct (decide (c = p)) as [-> | ?].
    + rewrite lookup_insert_eq. simplify_eq. eauto.
    + rewrite lookup_insert_ne by done. eauto.
  - intros d D q. destruct (decide (d = p)) as [-> | ?].
    + rewrite lookup_insert_eq. intros [= <-]. simpl. by apply Hup.
    + rewrite lookup_insert_ne by done. apply Hup.
Qed.

(** Everything of a Domain but the capacity of its vectors. *)
Definition contents (A : Domain) :=
  (account A, parent_link A, items (children A), items (processes A), killed A, frozen A).

(** A child is born into the tree or not at all. Creating a Domain under [p]
    always returns; under a killed parent it refuses and changes no Domain; a
    child it does return is attached, alive, under [p], and frozen exactly if
    [p] is, so no creation escapes a freeze or a kill. Either way the forest
    stays well-formed. *)
Theorem new_child_sound p P ml hl tl w :
  forest w -> domains w !! p = Some P -> next_koid w + 1 < U64_MAX ->
  exists r w', new_child p ml hl tl w = Some (r, w') /\ forest w' /\
    match r with
    | None => forall a, contents <$> domains w' !! a = contents <$> domains w !! a
    | Some k => killed P = false /\ domains w !! k = None /\ below (domains w') p k /\
        exists C, domains w' !! k = Some C /\ parent_link C = Some p /\
          killed C = false /\ frozen C = frozen P
    end.
Proof.
  intros Hf HP Hnext. pose proof Hf as [Hwf Hup Hn]. pose proof (forest_fresh w Hf) as Hfresh.
  assert (forall h, forest (set_heap h (set_next_koid (next_koid w + 1) w))) as Hquiet.
  { intros h. split; [| done | simpl; lia]. destruct Hwf as [Hb Hk]. split; [| done].
    intros d D HD. specialize (Hb d D HD). simpl. lia. }
  enough (wp (new_child p ml hl tl) (fun r w' => forest w' /\
    match r with
    | None => forall a, contents <$> domains w' !! a = contents <$> domains w !! a
    | Some k => killed P = false /\ domains w !! k = None /\ below (domains w') p k /\
        exists C, domains w' !! k = Some C /\ parent_link C = Some p /\
          killed C = false /\ frozen C = frozen P
    end) w) as Hwp.
  { destruct (wp_run _ _ _ Hwp) as (r & w' & ? & ? & ?). eauto. }
  unfold new_child, put_domain. wp_step. eapply run_wp; [by apply fresh_koid_run |]. wp_step. unfold with_heap. wp_step.
  set (w1 := set_next_koid (next_koid w + 1) w).
  apply wp_mono with (Q := fun _ _ => True); [by destruct (heap_of w1) |]. intros arc h _.
  destruct arc as [slack |]; [| by wp_step]. wp_step. eapply run_wp; [unfold get_domain; simpl; by rewrite HP |].
  destruct (killed P) eqn:Ekilled; [by wp_step |]. wp_step. wp_step. apply wp_try_reserve.
  intros ok cap h' Hok Hcap _. destruct ok; simpl.
  - specialize (Hok eq_refl). wp_step. wp_step.
    eapply run_wp; [apply vec_push_room; unfold vec_len in *; simpl; lia |]. wp_step. wp_step. wp_step. wp_step. wp_step.
    simpl. destruct (attach_wf (domains w) (next_koid w) p P (Vec (items (children P) ++ [next_koid w]) cap)
      (next_koid w) (set_frozen_flag (frozen P) (domain_of (account_new ml hl tl) (Some p)))) as [Ht Hu]; try done; try lia.
    split; [by split; simpl; try lia |]. split; [done |]. split; [done |]. split.
    + eapply below_child; [constructor |]. unfold kids.
      assert (p <> next_koid w) by congruence. rewrite lookup_insert_ne, lookup_insert_eq by done. simpl. set_solver.
    + rewrite lookup_insert_eq. by eexists.
  - wp_step. wp_step. wp_step. simpl. destruct (forest_set_children w p P cap Hf HP) as [[Hb Hk] Hu].
    split; [split; simpl; [split; [| done] | done | lia] |].
    + intros d D HD. specialize (Hb d D HD). lia.
    + intros a. destruct (decide (a = p)) as [-> | ?];
        [rewrite lookup_insert_eq, HP | rewrite lookup_insert_ne]; done.
Qed.

Lemma family_forest : forest family.
Proof.
  split; [exact family_tree | | by vm_compute]. intros d D p HD Hp.
  destruct (family_lookup _ _ HD) as [[-> ->] | [-> ->]]; simplify_eq/=. lia.
Qed.

Lemma new_child_sound_witness :
  exists r w', new_child 2 5 5 5 family = Some (r, w') /\ forest w'.
Proof.
  eassert (domains family !! 2 = Some _) as HP by (vm_compute; reflexivity).
  destruct (new_child_sound 2 _ 5 5 5 family family_forest HP) as (r & w' & Hrun & Hf & _); [by vm_compute |].
  exists r, w'. split; [exact Hrun | exact Hf].
Defined.
