(* ===== verification/Handle.v ===== *)
(** The per-process handle table (kernel/object/handle/mod.rs): handles,
    capabilities, and every operation of [HandleTable] that a production build
    has. A computation runs over the table and the shared world; [None] is a
    panic or an allocation abort. The conformance-trace calls are left out: in a
    production build they reach an empty function. *)

From S2P Require Import Prelude Object Domain.

Inductive HandleError := BadHandle | WrongType | AccessDenied | Revoked | LimitReached.

#[export] Instance HandleError_eq_dec : EqDecision HandleError.
Proof. solve_decision. Defined.

(** ** Handles: [Handle(u64)] packs (generation, index) *)

Abbreviation Handle := Z.

Definition handle_new (gen index : Z) : Handle := Z.lor (Z.shiftl gen 32) index.
Definition handle_index (h : Handle) : Z := wrap32 h.
Definition handle_generation (h : Handle) : Z := wrap32 (Z.shiftr h 32).

#[global] Arguments handle_new : simpl never.
#[global] Arguments handle_index : simpl never.
#[global] Arguments handle_generation : simpl never.

(** ** Capabilities *)

Record Capability := mkCap { cap_object : ObjRef; cap_rights : Z; cap_generation : Z }.

#[export] Instance Capability_eq_dec : EqDecision Capability.
Proof. solve_decision. Defined.

(** [Capability::new] snapshots the object's revocation generation. *)
Definition capability_new (gens : gmap Koid Z) (object : ObjRef) (rights : Z) : Capability :=
  mkCap object rights (generation gens (ref_koid object)).

Definition object_type (c : Capability) : ObjectType := ref_type (cap_object c).

(** [Capability::attenuated] carries the generation. *)
Definition attenuated (mask : Z) (c : Capability) : Capability :=
  mkCap (cap_object c) (Rights.bitand (cap_rights c) mask) (cap_generation c).

Definition is_valid (gens : gmap Koid Z) (c : Capability) : bool :=
  generation gens (ref_koid (cap_object c)) =? cap_generation c.

Record HandleInfo := mkInfo {
  info_koid : Koid; info_type : ObjectType; info_rights : Z; info_generation : Z }.

Definition from_cap (gens : gmap Koid Z) (c : Capability) : HandleInfo :=
  mkInfo (ref_koid (cap_object c)) (object_type c) (cap_rights c)
    (generation gens (ref_koid (cap_object c))).

(** ** Slots and the table *)

Record Slot := mkSlot { slot_cap : option Capability; slot_generation : Z; slot_reserved : bool }.

#[export] Instance Slot_eq_dec : EqDecision Slot.
Proof. solve_decision. Defined.

Definition set_slot_cap (c : option Capability) (s : Slot) : Slot :=
  mkSlot c (slot_generation s) (slot_reserved s).
Definition set_slot_generation (g : Z) (s : Slot) : Slot :=
  mkSlot (slot_cap s) g (slot_reserved s).
Definition set_slot_reserved (b : bool) (s : Slot) : Slot :=
  mkSlot (slot_cap s) (slot_generation s) b.

Record HandleTable := mkTable {
  slots : vec Slot;
  free : vec Z;
  booked : vec Z;
  closed : bool;
  table_domain : option Koid;
}.

Definition set_slots (v : vec Slot) (t : HandleTable) : HandleTable :=
  mkTable v (free t) (booked t) (closed t) (table_domain t).
Definition set_free (v : vec Z) (t : HandleTable) : HandleTable :=
  mkTable (slots t) v (booked t) (closed t) (table_domain t).
Definition set_booked (v : vec Z) (t : HandleTable) : HandleTable :=
  mkTable (slots t) (free t) v (closed t) (table_domain t).
Definition set_closed (b : bool) (t : HandleTable) : HandleTable :=
  mkTable (slots t) (free t) (booked t) b (table_domain t).

Definition table_new : HandleTable := mkTable vec_new vec_new vec_new false None.

(** [HandleTable::set_domain]. *)
Definition set_domain (d : Koid) (t : HandleTable) : HandleTable :=
  mkTable (slots t) (free t) (booked t) (closed t) (Some d).

(** A table and the world it lives in. *)
Record TW := mkTW { tbl : HandleTable; wld : World }.

Definition set_tbl (t : HandleTable) (s : TW) : TW := mkTW t (wld s).
Definition set_wld (w : World) (s : TW) : TW := mkTW (tbl s) w.

Definition on_world {A} (m : M World A) : M TW A := zoom wld set_wld m.
Definition modify_tbl (f : HandleTable -> HandleTable) : M TW unit :=
  modify (fun s => set_tbl (f (tbl s)) s).

(** [if let Some(domain) = &self.domain { .. }] *)
Definition with_domain (f : Koid -> M World unit) : M TW unit :=
  od ← gets (table_domain ∘ tbl);
  match od with Some d => on_world (f d) | None => mret tt end.

(** [self.slots.get(i)], [self.slots[i]] and a store through [get_mut]. *)
Definition slot_at (t : HandleTable) (i : Z) : option Slot := items (slots t) !! Z.to_nat i.
Definition put_slot (i : Z) (s : Slot) : M TW unit :=
  modify_tbl (fun t =>
    set_slots (Vec (<[Z.to_nat i := s]> (items (slots t))) (capacity (slots t))) t).
Definition index_slot (i : Z) : M TW Slot :=
  t ← gets tbl; assert_some (slot_at t i).

(** The vector operations of the three fields. *)
Definition slots_try_reserve (n : nat) : M TW bool :=
  v ← gets (slots ∘ tbl);
  '(ok, v) ← on_world (with_heap (try_reserve v n));
  modify_tbl (set_slots v) ;; mret ok.
Definition free_try_reserve (n : nat) : M TW bool :=
  v ← gets (free ∘ tbl);
  '(ok, v) ← on_world (with_heap (try_reserve v n));
  modify_tbl (set_free v) ;; mret ok.
Definition booked_try_reserve (n : nat) : M TW bool :=
  v ← gets (booked ∘ tbl);
  '(ok, v) ← on_world (with_heap (try_reserve v n));
  modify_tbl (set_booked v) ;; mret ok.
Definition slots_push (x : Slot) : M TW unit :=
  v ← gets (slots ∘ tbl); v ← on_world (with_heap (vec_push v x)); modify_tbl (set_slots v).
Definition free_push (x : Z) : M TW unit :=
  v ← gets (free ∘ tbl); v ← on_world (with_heap (vec_push v x)); modify_tbl (set_free v).
Definition booked_push (x : Z) : M TW unit :=
  v ← gets (booked ∘ tbl); v ← on_world (with_heap (vec_push v x)); modify_tbl (set_booked v).
Definition free_pop : M TW (option Z) :=
  v ← gets (free ∘ tbl);
  let '(x, v) := vec_pop v in modify_tbl (set_free v) ;; mret x.
Definition booked_pop : M TW (option Z) :=
  v ← gets (booked ∘ tbl);
  let '(x, v) := vec_pop v in modify_tbl (set_booked v) ;; mret x.

(** Dropping a capability drops its reference to the object. *)
Definition drop_cap (c : Capability) : M TW unit := on_world (emit (DropRef (cap_object c))).

(** ** Queries ([&self]) *)

Definition cap_of (t : HandleTable) (h : Handle) : result Capability HandleError :=
  match slot_at t (handle_index h) with
  | None => Err BadHandle
  | Some slot =>
      if negb (slot_generation slot =? handle_generation h) then Err BadHandle
      else match slot_cap slot with Some c => Ok c | None => Err BadHandle end
  end.

Definition lookup (gens : gmap Koid Z) (t : HandleTable) (h : Handle) (required : Z) :
    result ObjRef HandleError :=
  match cap_of t h with
  | Err e => Err e
  | Ok cap =>
      if negb (is_valid gens cap) then Err Revoked
      else if negb (Rights.contains (cap_rights cap) required) then Err AccessDenied
      else Ok (cap_object cap)
  end.

Definition lookup_typed (gens : gmap Koid Z) (t : HandleTable) (h : Handle)
    (expected : ObjectType) (required : Z) : result ObjRef HandleError :=
  match cap_of t h with
  | Err e => Err e
  | Ok cap =>
      if negb (bool_decide (object_type cap = expected)) then Err WrongType
      else if negb (is_valid gens cap) then Err Revoked
      else if negb (Rights.contains (cap_rights cap) required) then Err AccessDenied
      else Ok (cap_object cap)
  end.

Definition live_cap_of (gens : gmap Koid Z) (t : HandleTable) (h : Handle) :
    result Capability HandleError :=
  match cap_of t h with
  | Err e => Err e
  | Ok cap => if negb (is_valid gens cap) then Err Revoked else Ok cap
  end.

Definition rights_of (gens : gmap Koid Z) (t : HandleTable) (h : Handle) : result Z HandleError :=
  match live_cap_of gens t h with Ok cap => Ok (cap_rights cap) | Err e => Err e end.

Definition info (gens : gmap Koid Z) (t : HandleTable) (h : Handle) : option HandleInfo :=
  match live_cap_of gens t h with Ok cap => Some (from_cap gens cap) | Err _ => None end.

Definition is_live (s : Slot) : bool := match slot_cap s with Some _ => true | None => false end.

(** [HandleTable::len]: the number of live handles. *)
Definition table_len (t : HandleTable) : Z := count is_live (items (slots t)).

(** [HandleTable::for_each_object]: the objects the closure is called with, in order. *)
Definition for_each_object (t : HandleTable) : list ObjRef :=
  omap (fun s => cap_object <$> slot_cap s) (items (slots t)).

(** ** Recycling a slot *)

Definition retire_or_recycle (slot : Slot) (index : Z) : M TW Slot :=
  match checked_add U32_MAX (slot_generation slot) 1 with
  | Some next => free_push (wrap32 index) ;; mret (set_slot_generation next slot)
  | None => mret (set_slot_generation U32_MAX slot)
  end.

(** ** Placing and inserting *)

Definition try_place (cap : Capability) : M TW (result Handle Capability) :=
  popped ← free_pop;
  match popped with
  | Some index =>
      slot ← index_slot index;
      put_slot index (set_slot_cap (Some cap) slot) ;;
      mret (Ok (handle_new (slot_generation slot) index))
  | None =>
      t ← gets tbl;
      let wanted := S (vec_len (slots t)) in
      ok ← slots_try_reserve 1;
      ok ← if (ok : bool) then free_try_reserve (wanted - vec_len (free t)) else mret false;
      if (ok : bool) then
        let index := wrap32 (Z.of_nat (vec_len (slots t))) in
        slots_push (mkSlot (Some cap) 1 false) ;;
        mret (Ok (handle_new 1 index))
      else mret (Err cap)
  end.

Definition place (cap : Capability) : M TW Handle :=
  r ← try_place cap;
  match r with
  | Ok h => mret h
  | Err cap => drop_cap cap ;; mret (handle_new 0 0)
  end.

Definition insert (cap : Capability) : M TW Handle :=
  with_domain charge_handle ;;
  r ← try_place cap;
  match r with
  | Ok h => mret h
  | Err cap =>
      drop_cap cap ;;
      with_domain (fun d => uncharge_handles d 1) ;;
      mret (handle_new 0 0)
  end.

Definition insert_object (object : ObjRef) (rights : Z) : M TW Handle :=
  gens ← gets (generations ∘ wld); insert (capability_new gens object rights).

Definition try_insert_or_return (cap : Capability) : M TW (result Handle Capability) :=
  od ← gets (table_domain ∘ tbl);
  admitted ← match od with Some d => on_world (try_charge_handle d) | None => mret true end;
  if negb admitted then mret (Err cap)
  else
    r ← try_place cap;
    match r with
    | Ok h => mret (Ok h)
    | Err cap => with_domain (fun d => uncharge_handles d 1) ;; mret (Err cap)
    end.

Definition try_insert (cap : Capability) : M TW (option Handle) :=
  r ← try_insert_or_return cap;
  match r with
  | Ok h => mret (Some h)
  | Err cap => drop_cap cap ;; mret None
  end.

Definition try_insert_object (object : ObjRef) (rights : Z) : M TW (option Handle) :=
  gens ← gets (generations ∘ wld); try_insert (capability_new gens object rights).

(** ** Reservations *)

(** [unbook(keep)]: every slot booked since [keep] goes back on the free list. *)
Fixpoint unbook_loop (n : nat) : M TW unit :=
  match n with
  | O => mret tt
  | S n =>
      popped ← booked_pop;
      index ← assert_some popped;
      free_push index ;; unbook_loop n
  end.

Definition unbook (keep : nat) : M TW unit :=
  t ← gets tbl; unbook_loop (vec_len (booked t) - keep).

(** One iteration of [reserve]'s first loop: a concrete slot taken out of
    circulation, or [false] when the table cannot grow. *)
Definition book_one : M TW bool :=
  popped ← free_pop;
  match popped with
  | Some index => booked_push index ;; mret true
  | None =>
      t ← gets tbl;
      let wanted := S (vec_len (slots t)) in
      ok ← slots_try_reserve 1;
      ok ← if (ok : bool) then free_try_reserve (wanted - vec_len (free t)) else mret false;
      if (ok : bool) then
        let index := wrap32 (Z.of_nat (vec_len (slots t))) in
        slots_push (mkSlot None 1 false) ;; booked_push index ;; mret true
      else mret false
  end.

Fixpoint book_slots (count before : nat) : M TW bool :=
  match count with
  | O => mret true
  | S count =>
      ok ← book_one;
      if (ok : bool) then book_slots count before else unbook before ;; mret false
  end.

(** [reserve]'s second loop: the quota, one handle at a time; a refusal refunds
    what was taken. *)
Fixpoint charge_handles (d : Koid) (count : nat) (taken : Z) : M World bool :=
  match count with
  | O => mret true
  | S count =>
      ok ← try_charge_handle d;
      if (ok : bool) then charge_handles d count (taken + 1)
      else uncharge_handles d taken ;; mret false
  end.

Definition reserve (count : nat) : M TW bool :=
  ok ← booked_try_reserve count;
  if negb ok then mret false
  else
    t ← gets tbl;
    let before := vec_len (booked t) in
    ok ← book_slots count before;
    if negb ok then mret false
    else
      match table_domain t with
      | None => mret true
      | Some d =>
          ok ← on_world (charge_handles d count 0);
          if (ok : bool) then mret true else unbook before ;; mret false
      end.

Definition insert_reserved (cap : Capability) : M TW Handle :=
  t ← gets tbl;
  if closed t then
    drop_cap cap ;;
    popped ← booked_pop;
    match popped with
    | Some _ => with_domain (fun d => uncharge_handles d 1)
    | None => mret tt
    end ;;
    mret 0
  else
    popped ← booked_pop;
    match popped with
    | Some index =>
        slot ← index_slot index;
        put_slot index (set_slot_cap (Some cap) slot) ;;
        mret (handle_new (slot_generation slot) index)
    | None => place cap
    end.

Definition release_reservation (count : nat) : M TW unit :=
  t ← gets tbl;
  let give_back := Nat.min count (vec_len (booked t)) in
  unbook (vec_len (booked t) - give_back) ;;
  with_domain (fun d => uncharge_handles d (Z.of_nat count)).

(** ** Duplicating, taking, closing *)

(** The revocation generation is read twice, by [is_valid] and again by
    [Capability::new], and nothing excludes a revocation in between; [env] is
    what the rest of the machine does there. *)
Definition duplicate_racing (env : World -> World) (h : Handle) (new_rights : Z) :
    M TW (result Handle HandleError) :=
  t ← gets tbl;
  gens ← gets (generations ∘ wld);
  match cap_of t h with
  | Err e => mret (Err e)
  | Ok cap =>
      if negb (is_valid gens cap) then mret (Err Revoked)
      else if negb (Rights.contains (cap_rights cap) Rights.RIGHT_DUPLICATE)
      then mret (Err AccessDenied)
      else if negb (Rights.contains (cap_rights cap) new_rights) then mret (Err AccessDenied)
      else
        on_world (modify env) ;;
        gens ← gets (generations ∘ wld);
        r ← try_insert (capability_new gens (cap_object cap) new_rights);
        match r with Some h => mret (Ok h) | None => mret (Err LimitReached) end
  end.

(** [duplicate] with nothing in between. *)
Definition duplicate : Handle -> Z -> M TW (result Handle HandleError) := duplicate_racing id.

Definition take (h : Handle) (rights : Z) : M TW (result Capability HandleError) :=
  t ← gets tbl;
  gens ← gets (generations ∘ wld);
  match live_cap_of gens t h with
  | Err e => mret (Err e)
  | Ok cap =>
      if negb (Rights.contains (cap_rights cap) rights) then mret (Err AccessDenied)
      else
        match slot_at t (handle_index h) with
        | None => mret (Err BadHandle)
        | Some slot =>
            match slot_cap slot with
            | None => mret (Err BadHandle)
            | Some cap =>
                slot ← retire_or_recycle (set_slot_cap None slot) (handle_index h);
                put_slot (handle_index h) slot ;;
                with_domain (fun d => uncharge_handles d 1) ;;
                mret (Ok cap)
            end
        end
  end.

Definition take_for_transfer (h : Handle) (rights : Z) : M TW (result Capability HandleError) :=
  t ← gets tbl;
  gens ← gets (generations ∘ wld);
  match live_cap_of gens t h with
  | Err e => mret (Err e)
  | Ok cap =>
      if negb (Rights.contains (cap_rights cap) rights) then mret (Err AccessDenied)
      else
        match slot_at t (handle_index h) with
        | None => mret (Err BadHandle)
        | Some slot =>
            match slot_cap slot with
            | None => mret (Err BadHandle)
            | Some cap =>
                put_slot (handle_index h) (set_slot_reserved true (set_slot_cap None slot)) ;;
                mret (Ok cap)
            end
        end
  end.

Definition resolve_taken (h : Handle) : M TW unit :=
  t ← gets tbl;
  match slot_at t (handle_index h) with
  | Some slot =>
      slot ← retire_or_recycle (set_slot_reserved false slot) (handle_index h);
      put_slot (handle_index h) slot
  | None => mret tt
  end ;;
  with_domain (fun d => uncharge_handles d 1).

Definition commit_taken (h : Handle) : M TW unit := resolve_taken h.
Definition abandon_taken (h : Handle) : M TW unit := resolve_taken h.

Definition restore_taken (h : Handle) (cap : Capability) : M TW unit :=
  t ← gets tbl;
  if closed t then
    drop_cap cap ;;
    match slot_at t (handle_index h) with
    | Some slot => put_slot (handle_index h) (set_slot_reserved false slot)
    | None => mret tt
    end ;;
    with_domain (fun d => uncharge_handles d 1)
  else
    match slot_at t (handle_index h) with
    | Some slot => put_slot (handle_index h) (set_slot_reserved false (set_slot_cap (Some cap) slot))
    | None => insert cap ;; mret tt
    end.

(** Whether some slot still holds a capability to [o]. *)
Definition names_object (o : ObjRef) (s : Slot) : bool :=
  match slot_cap s with Some other => bool_decide (cap_object other = o) | None => false end.

Definition close (h : Handle) : M TW (result unit HandleError) :=
  t ← gets tbl;
  match slot_at t (handle_index h) with
  | None => mret (Err BadHandle)
  | Some slot =>
      match slot_cap slot with
      | None => mret (Err BadHandle)
      | Some cap =>
          if negb (slot_generation slot =? handle_generation h) then mret (Err BadHandle)
          else
            slot ← retire_or_recycle (set_slot_cap None slot) (handle_index h);
            put_slot (handle_index h) slot ;;
            with_domain (fun d => uncharge_handles d 1) ;;
            drop_cap cap ;;
            t ← gets tbl;
            (if bool_decide (object_type cap = TyClaim)
                && negb (existsb (names_object (cap_object cap)) (items (slots t)))
             then on_world (emit (ClaimRelease (ref_koid (cap_object cap))))
             else mret tt) ;;
            mret (Ok tt)
      end
  end.

(** One iteration of [close_all]: answers whether the slot held a capability. *)
Definition close_all_slot (index : Z) : M TW bool :=
  t ← gets tbl;
  slot ← index_slot index;
  if slot_reserved slot || bool_decide (index ∈ items (booked t)) then mret false
  else
    match slot_cap slot with
    | Some cap =>
        drop_cap cap ;;
        match checked_add U32_MAX (slot_generation slot) 1 with
        | Some next =>
            put_slot index (set_slot_generation next (set_slot_cap None slot)) ;;
            free_push index ;; mret true
        | None =>
            put_slot index (set_slot_generation U32_MAX (set_slot_cap None slot)) ;; mret true
        end
    | None =>
        if slot_generation slot =? U32_MAX then mret false
        else free_push index ;; mret false
    end.

Fixpoint close_all_loop (indices : list Z) (closed_count : Z) : M TW Z :=
  match indices with
  | [] => mret closed_count
  | i :: indices =>
      had ← close_all_slot i;
      close_all_loop indices (if (had : bool) then closed_count + 1 else closed_count)
  end.

Definition close_all : M TW unit :=
  modify_tbl (set_closed true) ;;
  modify_tbl (fun t => set_free (vec_clear (free t)) t) ;;
  t ← gets tbl;
  n ← close_all_loop (seqZ 0 (Z.of_nat (vec_len (slots t)))) 0;
  if 0 <? n then with_domain (fun d => uncharge_handles d n) else mret tt.

(** [impl Drop for HandleTable], and then the drop of its slots. *)
Definition drop_table : M TW unit :=
  t ← gets tbl;
  match table_domain t with
  | Some d => if 0 <? table_len t then on_world (uncharge_handles d (table_len t)) else mret tt
  | None => mret tt
  end ;;
  for_each (fun o => on_world (emit (DropRef o))) (for_each_object t).
