(* ===== verification/HandleFacts.v ===== *)
(** The handle table is safe and exactly accounted: its invariant, the rules of
    its primitive steps, and for every operation that it returns (no abort),
    keeps the invariant, and moves the Domain's handle quota by exactly the
    change in what the table charges. *)

From S2P Require Import Prelude Object Domain DomainFacts Handle.

(** ** The packing of a handle *)

Lemma handle_index_new g i : u32_range g -> u32_range i -> handle_index (handle_new g i) = i.
Proof.
  unfold u32_range, handle_index, handle_new, wrap32. intros Hg Hi.
  rewrite lor_shiftl_add by lia. change (2 ^ 32) with TWO32.
  rewrite Z.add_comm, Z.mod_add by lia. apply Z.mod_small. lia.
Qed.

Lemma handle_generation_new g i :
  u32_range g -> u32_range i -> handle_generation (handle_new g i) = g.
Proof.
  unfold u32_range, handle_generation, handle_new, wrap32. intros Hg Hi.
  rewrite lor_shiftl_add, shiftr_div by lia. change (2 ^ 32) with TWO32.
  rewrite Z.add_comm, Z.div_add, Z.div_small by lia. apply Z.mod_small. lia.
Qed.

Lemma handle_new_parts h :
  u64_range h -> handle_new (handle_generation h) (handle_index h) = h.
Proof.
  unfold u64_range, handle_generation, handle_index, handle_new, wrap32. intros Hh.
  pose proof (Z.mod_pos_bound h TWO32).
  rewrite lor_shiftl_add, shiftr_div by lia. change (2 ^ 32) with TWO32.
  rewrite (Z.mod_small (h / TWO32)).
  - pose proof (Z.div_mod h TWO32). lia.
  - split; [apply Z.div_pos; lia | apply Z.div_lt_upper_bound; lia].
Qed.

Lemma handle_index_wrap h : handle_index h = wrap32 h.
Proof. reflexivity. Qed.

Lemma handle_index_range h : u32_range (handle_index h).
Proof. apply wrap32_range. Qed.

Lemma handle_new_range g i : u32_range g -> u32_range i -> u64_range (handle_new g i).
Proof.
  unfold u32_range, u64_range, handle_new. intros. rewrite lor_shiftl_add by lia.
  change (2 ^ 32) with TWO32. lia.
Qed.

(** From here on the packing is used through these lemmas. *)
#[global] Opaque handle_new handle_index handle_generation.

(** ** The invariant *)

(** Neither a capability nor a transfer in flight. *)
Definition idle (s : Slot) : Prop := slot_cap s = None /\ slot_reserved s = false.

Definition slot_ok (s : Slot) : Prop :=
  (slot_reserved s = true -> slot_cap s = None) /\ 1 <= slot_generation s <= U32_MAX.

(** The indices out of use: distinct, and each names an idle slot. *)
Definition pool_ok (ss : list Slot) (pool : list Z) : Prop :=
  NoDup pool /\ forall i, i ∈ pool -> 0 <= i /\ exists s, ss !! Z.to_nat i = Some s /\ idle s.

Record table_inv (t : HandleTable) : Prop := {
  inv_pool : pool_ok (items (slots t)) (items (free t) ++ items (booked t));
  inv_slots : Forall slot_ok (items (slots t));
  inv_width : Z.of_nat (vec_len (slots t)) <= TWO32;
  inv_room : (vec_len (slots t) <= capacity (free t))%nat;
}.

(** What the table has charged to its Domain: live handles, transfers in flight
    and booked slots. *)
Definition charged (t : HandleTable) : Z :=
  count is_live (items (slots t)) + count slot_reserved (items (slots t))
  + Z.of_nat (vec_len (booked t)).

Lemma charged_nonneg t : 0 <= charged t.
Proof.
  unfold charged. pose proof (count_nonneg is_live (items (slots t))).
  pose proof (count_nonneg slot_reserved (items (slots t))). lia.
Qed.

#[export] Instance pool_ok_proper ss : Proper (Permutation ==> iff) (pool_ok ss).
Proof.
  intros l l' Hp. unfold pool_ok. rewrite Hp. split; intros [? H]; split; try done;
    intros i Hi; apply H; [by rewrite Hp | by rewrite <- Hp].
Qed.

(** What one slot charges. *)
Definition weight (s : Slot) : Z :=
  (if is_live s then 1 else 0) + (if slot_reserved s then 1 else 0).

Lemma weight_idle s : idle s -> weight s = 0.
Proof. intros [Hc Hr]. unfold weight, is_live. by rewrite Hc, Hr. Qed.

Section pool.
Implicit Types (ss : list Slot) (pool : list Z).

Lemma pool_bounded ss pool i : pool_ok ss pool -> i ∈ pool -> 0 <= i < Z.of_nat (length ss).
Proof.
  intros [_ H] Hi. destruct (H i Hi) as (? & s & Hs & _).
  apply lookup_lt_Some in Hs. lia.
Qed.

Lemma pool_length ss pool : pool_ok ss pool -> (length pool <= length ss)%nat.
Proof. intros H. apply NoDup_bounded; [apply H |]. intros i Hi. by eapply pool_bounded. Qed.

Lemma pool_remove ss i pool : pool_ok ss (i :: pool) -> (i ∉ pool) /\ pool_ok ss pool.
Proof.
  intros [Hnd H]. apply NoDup_cons in Hnd as [? ?]. repeat split; try done; apply H; set_solver.
Qed.

(** A slot outside the pool may become anything. *)
Lemma pool_insert_ne ss pool i s :
  pool_ok ss pool -> 0 <= i -> i ∉ pool -> pool_ok (<[Z.to_nat i := s]> ss) pool.
Proof.
  intros [Hnd H] Hi Hnin. split; [done |]. intros j Hj. destruct (H j Hj) as (Hj0 & s' & Hs' & Hid).
  split; [done |]. exists s'. rewrite list_lookup_insert_ne; [done |].
  intros Heq. apply Hnin. by replace i with j by lia.
Qed.

(** An idle slot outside the pool may join it. *)
Lemma pool_add ss pool i s :
  pool_ok ss pool -> 0 <= i -> i ∉ pool -> ss !! Z.to_nat i = Some s -> idle s ->
  pool_ok ss (i :: pool).
Proof.
  intros [Hnd H] Hi Hnin Hs Hid. split; [by constructor |].
  intros j [-> | Hj]%elem_of_cons; [eauto | auto].
Qed.

Lemma pool_grow ss pool s : pool_ok ss pool -> pool_ok (ss ++ [s]) pool.
Proof.
  intros [Hnd H]. split; [done |]. intros j Hj. destruct (H j Hj) as (? & s' & Hs' & ?).
  split; [done |]. exists s'. by rewrite (lookup_app_l_Some _ _ _ _ Hs').
Qed.

(** A slot in use (live, or with a transfer in flight) is not in the pool. *)
Lemma pool_busy ss pool i s :
  pool_ok ss pool -> ss !! Z.to_nat i = Some s -> ~ idle s -> i ∉ pool.
Proof.
  intros [_ H] Hs Hbusy Hin. destruct (H i Hin) as (_ & s' & Hs' & Hid). by simplify_eq.
Qed.

End pool.

Lemma busy_room ss pool i s :
  pool_ok ss pool -> 0 <= i -> ss !! Z.to_nat i = Some s -> ~ idle s ->
  (length pool < length ss)%nat.
Proof.
  intros Hp Hi Hs Hbusy. apply (NoDup_bounded_lt pool (length ss) i); [apply Hp | | |].
  - intros j Hj. by eapply pool_bounded.
  - apply lookup_lt_Some in Hs. lia.
  - by eapply pool_busy.
Qed.

Lemma live_busy s : is_live s = true -> ~ idle s.
Proof. unfold is_live, idle. destruct (slot_cap s); naive_solver. Qed.

Lemma reserved_busy s : slot_reserved s = true -> ~ idle s.
Proof. unfold idle. intros -> [_ ?]. done. Qed.

#[export] Hint Resolve live_busy reserved_busy : kernel.

(** ** The world under table operations *)

(** Everything but the accounts, the heap and the effect log. *)
Record world_frame (w w' : World) : Prop := {
  frame_generations : generations w' = generations w;
  frame_live : live w' = live w;
  frame_next_koid : next_koid w' = next_koid w;
  frame_next_message_id : next_message_id w' = next_message_id w;
}.

#[export] Instance world_frame_preorder : PreOrder world_frame.
Proof. split; [by intros w | intros w1 w2 w3 [] []]. split; congruence. Qed.

(** The Domain a table pays from, if it has one. *)
Definition affords (od : option Koid) (lo hi : Z) (w : World) : Prop :=
  match od with Some d => pays Handles d lo hi (domains w) | None => True end.

(** The handle usage moved by [delta] along the payer's chain, and nothing else. *)
Definition billed (od : option Koid) (delta : Z) (w w' : World) : Prop :=
  world_frame w w' /\
  match od with
  | Some d => shifted Handles (chain_of (domains w) d) delta (domains w) (domains w')
  | None => domains w' = domains w
  end.

Lemma billed_refl od w w' :
  world_frame w w' -> domains w' = domains w -> billed od 0 w w'.
Proof. intros Hf Hd. split; [done |]. destruct od; rewrite Hd; [apply shifted_refl | done]. Qed.

Lemma affords_weaken od lo hi lo' hi' w :
  affords od lo hi w -> lo' <= lo -> hi' <= hi -> affords od lo' hi' w.
Proof. destruct od; simpl; [apply pays_weaken | done]. Qed.

Lemma affords_billed od lo hi delta w w' :
  affords od lo hi w -> billed od delta w w' -> affords od (lo + delta) (hi - delta) w'.
Proof.
  destruct od as [d |]; simpl; [| done]. intros Ha [_ Hs].
  by destruct (pays_shifted _ _ _ _ _ _ _ Ha Hs).
Qed.

Lemma billed_trans od lo hi d1 d2 d w1 w2 w3 :
  affords od lo hi w1 -> billed od d1 w1 w2 -> billed od d2 w2 w3 -> d = d1 + d2 ->
  billed od d w1 w3.
Proof.
  intros Ha [Hf1 H1] [Hf2 H2] Hd. split; [by etrans |]. destruct od as [k |]; simpl in *.
  - destruct (pays_shifted _ _ _ _ _ _ _ Ha H1) as [_ Hch]. rewrite Hch in H2.
    by eapply shifted_trans.
  - congruence.
Qed.

(** ** Moves of the table *)

Definition pool (t : HandleTable) : list Z := items (free t) ++ items (booked t).

(** A slot that will never be used again. *)
Definition retired (t : HandleTable) (i : Z) (s : Slot) : Prop :=
  slot_generation s = U32_MAX /\ idle s /\ i ∉ pool t.

(** Slots stay, generations only grow, and what is retired stays retired. *)
Definition progress (t t' : HandleTable) : Prop :=
  forall i s, 0 <= i -> slot_at t i = Some s ->
    exists s', slot_at t' i = Some s' /\ slot_generation s <= slot_generation s' /\
      (retired t i s -> retired t' i s').

#[export] Instance progress_preorder : PreOrder progress.
Proof.
  split; [intros t i s _ Hs; exists s; auto with lia |]. intros t1 t2 t3 H12 H23 i s Hi Hs.
  destruct (H12 i s Hi Hs) as (s2 & Hs2 & ? & ?). destruct (H23 i s2 Hi Hs2) as (s3 & Hs3 & ? & ?).
  exists s3. auto with lia.
Qed.

Lemma charged_put (t t' : HandleTable) i s s' :
  slot_at t i = Some s ->
  items (slots t') = <[Z.to_nat i := s']> (items (slots t)) ->
  charged t' = charged t + weight s' - weight s
               + Z.of_nat (vec_len (booked t')) - Z.of_nat (vec_len (booked t)).
Proof.
  intros Hs Hi. unfold charged. rewrite Hi, !(count_insert _ _ _ _ _ Hs). unfold weight. lia.
Qed.

Lemma slot_at_put (t t' : HandleTable) i j s' :
  0 <= i -> 0 <= j -> (Z.to_nat i < vec_len (slots t))%nat ->
  items (slots t') = <[Z.to_nat i := s']> (items (slots t)) ->
  slot_at t' j = if decide (i = j) then Some s' else slot_at t j.
Proof.
  intros Hi Hj Hlt E. unfold slot_at. rewrite E. case_decide.
  - subst. by apply list_lookup_insert_eq.
  - apply list_lookup_insert_ne. lia.
Qed.

Section moves.
Context (t t' : HandleTable) (i : Z) (s s' : Slot).
Hypothesis Hinv : table_inv t.
Hypothesis Hi : 0 <= i.
Hypothesis Hs : slot_at t i = Some s.
Hypothesis Hput : items (slots t') = <[Z.to_nat i := s']> (items (slots t)).
Hypothesis Hok : slot_ok s'.
Hypothesis Hgen : slot_generation s <= slot_generation s'.
Hypothesis Hcap : (capacity (free t) <= capacity (free t'))%nat.

#[local] Lemma move_inv : pool_ok (items (slots t')) (pool t') -> table_inv t'.
Proof using All.
  destruct Hinv as [_ Hsl Hw Hr]. intros Hp. unfold vec_len in *.
  split; unfold vec_len; rewrite ?Hput, ?length_insert; try done; try lia.
  - by rewrite <- Hput.
  - by apply Forall_insert.
Qed.

#[local] Lemma move_progress :
  (retired t i s -> retired t' i s') ->
  (forall j, j <> i -> j ∉ pool t -> j ∉ pool t') -> progress t t'.
Proof using All.
  intros Hret Hpool j sj Hj Hsj.
  rewrite (slot_at_put t t' i j s') by (try done; by eapply lookup_lt_Some).
  case_decide as E; [subst j; rewrite Hs in Hsj; simplify_eq; eauto |].
  exists sj. split; [done |]. split; [lia |]. intros (? & ? & ?). split; [done |]. auto.
Qed.

(** Slot [i] leaves the pool, to hold anything. *)
Lemma move_out : pool t ≡ₚ i :: pool t' -> table_inv t' /\ progress t t'.
Proof using All.
  intros Hp. pose proof (inv_pool _ Hinv) as Hpok. fold (pool t) in Hpok. rewrite Hp in Hpok.
  apply pool_remove in Hpok as [Hnin Hpok]. split.
  - apply move_inv. rewrite Hput. by apply pool_insert_ne.
  - apply move_progress.
    + intros (_ & _ & []). rewrite Hp. set_solver.
    + intros j Hne Hj. rewrite Hp in Hj. set_solver.
Qed.

(** A busy slot becomes idle and joins the pool. *)
Lemma move_in : ~ idle s -> idle s' -> pool t' ≡ₚ i :: pool t -> table_inv t' /\ progress t t'.
Proof using All.
  intros Hbusy Hid Hp. pose proof (inv_pool _ Hinv) as Hpok. fold (pool t) in Hpok.
  pose proof (pool_busy _ _ _ _ Hpok Hs Hbusy) as Hnin. split.
  - apply move_inv. rewrite Hp, Hput. apply pool_add with s'; try done; [by apply pool_insert_ne |].
    apply list_lookup_insert_eq. by eapply lookup_lt_Some.
  - apply move_progress; [by intros (_ & ? & _) |]. intros j Hne Hj. rewrite Hp. set_solver.
Qed.

(** A busy slot changes outside the pool. *)
Lemma move_busy : ~ idle s -> pool t' ≡ₚ pool t -> table_inv t' /\ progress t t'.
Proof using All.
  intros Hbusy Hp. pose proof (inv_pool _ Hinv) as Hpok. fold (pool t) in Hpok.
  pose proof (pool_busy _ _ _ _ Hpok Hs Hbusy) as Hnin. split.
  - apply move_inv. rewrite Hp, Hput. by apply pool_insert_ne.
  - apply move_progress; [by intros (_ & ? & _) |]. intros j Hne Hj. by rewrite Hp.
Qed.

End moves.

(** Indices move inside the pool or leave it; capacities may grow. *)
Lemma move_pool t t' :
  table_inv t -> items (slots t') = items (slots t) ->
  (capacity (free t) <= capacity (free t'))%nat -> pool t' ⊆+ pool t ->
  table_inv t' /\ progress t t' /\
  charged t' = charged t + Z.of_nat (vec_len (booked t')) - Z.of_nat (vec_len (booked t)).
Proof.
  intros [Hp Hsl Hw Hr] Hsame Hcap Hsub. fold (pool t) in Hp. unfold vec_len in *. split; [| split].
  - split; unfold vec_len; rewrite ?Hsame; try done; [| lia].
    destruct (submseteq_Permutation _ _ Hsub) as [l Hl]. destruct Hp as [Hnd Hel].
    fold (pool t'). split.
    + rewrite Hl in Hnd. by apply NoDup_app in Hnd as (? & _ & _).
    + intros j Hj. apply Hel. rewrite Hl. set_solver.
  - intros j s Hj Hs. exists s. unfold slot_at in *. rewrite Hsame. split; [done |]. split; [lia |].
    intros (? & ? & Hnin). split; [done |]. split; [done |]. intros Hin. apply Hnin.
    destruct (submseteq_Permutation _ _ Hsub) as [l Hl]. rewrite Hl. set_solver.
  - unfold charged, vec_len. rewrite Hsame. lia.
Qed.

(** A fresh slot at the end, with its index in the pool or not. *)
Lemma move_grow t t' s :
  let i := Z.of_nat (vec_len (slots t)) in
  table_inv t -> items (slots t') = items (slots t) ++ [s] -> slot_ok s ->
  i < TWO32 -> (S (vec_len (slots t)) <= capacity (free t'))%nat ->
  pool t' ≡ₚ pool t \/ (idle s /\ pool t' ≡ₚ i :: pool t) ->
  table_inv t' /\ progress t t' /\
  charged t' = charged t + weight s + Z.of_nat (vec_len (booked t')) - Z.of_nat (vec_len (booked t)).
Proof.
  intros i [Hp Hsl Hw Hr] Hgrow Hok Hlt Hcap Hpool. subst i. fold (pool t) in Hp. unfold vec_len in *.
  assert (Z.of_nat (length (items (slots t))) ∉ pool t) as Hnin.
  { intros Hin. pose proof (pool_bounded _ _ _ Hp Hin). lia. }
  split; [| split].
  - split; unfold vec_len; rewrite ?Hgrow, ?length_app; simpl; try lia.
    + fold (pool t'). destruct Hpool as [-> | [Hid ->]]; [by apply pool_grow |].
      apply pool_add with s; [by apply pool_grow | lia | done | | done].
      rewrite Nat2Z.id. by rewrite lookup_app_r, Nat.sub_diag.
    + apply Forall_app. split; [done |]. by apply Forall_singleton.
  - intros j sj Hj Hsj. exists sj. unfold slot_at in *. rewrite Hgrow.
    pose proof (lookup_lt_Some _ _ _ Hsj).
    rewrite (lookup_app_l_Some _ _ _ _ Hsj). split; [done |]. split; [lia |].
    intros (? & ? & Hnj). split; [done |]. split; [done |].
    destruct Hpool as [-> | [_ ->]]; [done |]. rewrite not_elem_of_cons. split; [lia | done].
  - unfold charged, vec_len. rewrite Hgrow, !count_snoc. unfold weight. lia.
Qed.

(** There is room on the free list for any index that is not in the pool. *)
Lemma room_for t i s :
  table_inv t -> 0 <= i -> slot_at t i = Some s -> i ∉ pool t ->
  (vec_len (free t) < capacity (free t))%nat.
Proof.
  intros [Hp _ _ Hr] Hi Hs Hnin. fold (pool t) in Hp.
  assert (length (pool t) < length (items (slots t)))%nat as Hlt.
  { apply NoDup_bounded_lt with i; [apply Hp | | | done].
    - intros j Hj. by eapply pool_bounded.
    - apply lookup_lt_Some in Hs. lia. }
  unfold pool, vec_len in *. rewrite length_app in Hlt. lia.
Qed.

(** ** Rules of the primitive steps *)

Section primitive_rules.
Implicit Types (t : HandleTable) (w : World).

Lemma set_heap_id w : set_heap (heap_of w) w = w.
Proof. by destruct w. Qed.

Lemma wp_on_world {A} (m : M World A) Q t w :
  wp m (fun a w' => Q a (mkTW t w')) w -> wp (on_world m) Q (mkTW t w).
Proof. intros H. by apply wp_zoom. Qed.

Lemma wp_modify_tbl f (Q : unit -> TW -> Prop) t w :
  Q tt (mkTW (f t) w) -> wp (modify_tbl f) Q (mkTW t w).
Proof. done. Qed.

Lemma wp_put_slot i s (Q : unit -> TW -> Prop) t w :
  Q tt (mkTW (set_slots (Vec (<[Z.to_nat i := s]> (items (slots t))) (capacity (slots t))) t) w) ->
  wp (put_slot i s) Q (mkTW t w).
Proof. done. Qed.

Lemma wp_index_slot i s (Q : Slot -> TW -> Prop) t w :
  slot_at t i = Some s -> Q s (mkTW t w) -> wp (index_slot i) Q (mkTW t w).
Proof. intros Hs HQ. unfold index_slot. wp_steps. simpl. by eapply wp_assert_some. Qed.

Lemma wp_drop_cap c (Q : unit -> TW -> Prop) t w :
  Q tt (mkTW t (emit_in (DropRef (cap_object c)) w)) -> wp (drop_cap c) Q (mkTW t w).
Proof. done. Qed.

Lemma wp_heap_push {A B} (v : vec A) x (k : vec A -> M TW B) Q t w :
  (vec_len v < capacity v)%nat ->
  wp (k (Vec (items v ++ [x]) (capacity v))) Q (mkTW t w) ->
  wp (v' ← on_world (with_heap (vec_push v x)); k v') Q (mkTW t w).
Proof.
  intros Hlt HQ. wp_step. apply wp_on_world, wp_zoom.
  eapply run_wp; [by apply vec_push_room |]. by rewrite set_heap_id.
Qed.

Lemma wp_free_push x (Q : unit -> TW -> Prop) t w :
  (vec_len (free t) < capacity (free t))%nat ->
  Q tt (mkTW (set_free (Vec (items (free t) ++ [x]) (capacity (free t))) t) w) ->
  wp (free_push x) Q (mkTW t w).
Proof. intros ? ?. unfold free_push. wp_step. wp_step. by apply wp_heap_push. Qed.

Lemma wp_booked_push x (Q : unit -> TW -> Prop) t w :
  (vec_len (booked t) < capacity (booked t))%nat ->
  Q tt (mkTW (set_booked (Vec (items (booked t) ++ [x]) (capacity (booked t))) t) w) ->
  wp (booked_push x) Q (mkTW t w).
Proof. intros ? ?. unfold booked_push. wp_step. wp_step. by apply wp_heap_push. Qed.

Lemma wp_slots_push x (Q : unit -> TW -> Prop) t w :
  (vec_len (slots t) < capacity (slots t))%nat ->
  Q tt (mkTW (set_slots (Vec (items (slots t) ++ [x]) (capacity (slots t))) t) w) ->
  wp (slots_push x) Q (mkTW t w).
Proof. intros ? ?. unfold slots_push. wp_step. wp_step. by apply wp_heap_push. Qed.

Lemma wp_free_pop (Q : option Z -> TW -> Prop) t w :
  (items (free t) = [] -> Q None (mkTW (set_free (free t) t) w)) ->
  (forall l i, items (free t) = l ++ [i] ->
     Q (Some i) (mkTW (set_free (Vec l (capacity (free t))) t) w)) ->
  wp free_pop Q (mkTW t w).
Proof.
  intros Hnone Hsome. unfold free_pop. wp_step. wp_step. cbn [compose tbl].
  destruct (vec_pop_spec (free t)) as [[E ->] | (l & i & E & ->)]; wp_step;
    apply wp_modify_tbl; wp_step; auto.
Qed.

Lemma wp_booked_pop (Q : option Z -> TW -> Prop) t w :
  (items (booked t) = [] -> Q None (mkTW (set_booked (booked t) t) w)) ->
  (forall l i, items (booked t) = l ++ [i] ->
     Q (Some i) (mkTW (set_booked (Vec l (capacity (booked t))) t) w)) ->
  wp booked_pop Q (mkTW t w).
Proof.
  intros Hnone Hsome. unfold booked_pop. wp_step. wp_step. cbn [compose tbl].
  destruct (vec_pop_spec (booked t)) as [[E ->] | (l & i & E & ->)]; wp_step;
    apply wp_modify_tbl; wp_step; auto.
Qed.

Lemma wp_heap_reserve {A B} (v : vec A) n (k : bool * vec A -> M TW B) Q t w :
  (forall ok cap h, (ok = true -> (vec_len v + n <= cap)%nat) -> (capacity v <= cap)%nat ->
     wp (k (ok, Vec (items v) cap)) Q (mkTW t (set_heap h w))) ->
  wp (p ← on_world (with_heap (try_reserve v n)); k p) Q (mkTW t w).
Proof. intros HQ. wp_step. apply wp_on_world, wp_zoom, wp_try_reserve. auto. Qed.

Lemma wp_booked_try_reserve n (Q : bool -> TW -> Prop) t w :
  (forall ok cap h, (ok = true -> (vec_len (booked t) + n <= cap)%nat) ->
     Q ok (mkTW (set_booked (Vec (items (booked t)) cap) t) (set_heap h w))) ->
  wp (booked_try_reserve n) Q (mkTW t w).
Proof.
  intros HQ. unfold booked_try_reserve. wp_step. wp_step. apply wp_heap_reserve. intros.
  wp_step. apply wp_modify_tbl. wp_step. auto.
Qed.

(** The growth of the table by one slot: either both vectors have room for it,
    or nothing is used of what they may have been given. *)
Lemma wp_grow {A} (k : bool -> M TW A) Q t w :
  (forall cs cf h, (vec_len (slots t) < cs)%nat -> (S (vec_len (slots t)) <= cf)%nat ->
     (capacity (free t) <= cf)%nat ->
     wp (k true) Q (mkTW (set_free (Vec (items (free t)) cf)
                            (set_slots (Vec (items (slots t)) cs) t)) (set_heap h w))) ->
  (forall cs cf h, (capacity (free t) <= cf)%nat ->
     wp (k false) Q (mkTW (set_free (Vec (items (free t)) cf)
                             (set_slots (Vec (items (slots t)) cs) t)) (set_heap h w))) ->
  wp (ok ← slots_try_reserve 1;
      ok ← (if (ok : bool) then free_try_reserve (S (vec_len (slots t)) - vec_len (free t)) else mret false);
      k ok) Q (mkTW t w).
Proof.
  intros Htrue Hfalse. unfold slots_try_reserve, free_try_reserve. wp_step. wp_step. wp_step.
  apply wp_heap_reserve. intros ok cs h Hok _. wp_step. apply wp_modify_tbl. wp_step. wp_step.
  destruct ok.
  - wp_step. wp_step. apply wp_heap_reserve. intros ok2 cf h2 Hok2 Hcf. wp_step. apply wp_modify_tbl.
    wp_step. cbn [tbl compose set_slots free slots items capacity] in *.
    specialize (Hok eq_refl). destruct ok2; [specialize (Hok2 eq_refl) |].
    + apply (Htrue cs cf h2); unfold vec_len in *; simpl in *; lia.
    + apply (Hfalse cs cf h2). done.
  - wp_step. assert (E : free t = Vec (items (free t)) (capacity (free t))) by (by destruct (free t)).
    specialize (Hfalse cs (capacity (free t)) h (le_n _)). rewrite <- E in Hfalse.
    unfold set_free, set_slots in *. simpl in *. done.
Qed.

Lemma wp_refund n lo hi (Q : unit -> TW -> Prop) t w :
  affords (table_domain t) lo hi w -> 0 <= n <= lo ->
  (forall w', billed (table_domain t) (- n) w w' -> effects w' = effects w -> Q tt (mkTW t w')) ->
  wp (with_domain (fun d => uncharge_handles d n)) Q (mkTW t w).
Proof.
  intros Ha Hn HQ. unfold with_domain. wp_step. wp_step. simpl.
  destruct (table_domain t) as [d |]; [| wp_step; apply HQ; [by split | done]].
  apply wp_on_world. eapply wp_uncharge_hier; [done | lia |]. intros ds' Hs. apply HQ; [by split | done].
Qed.

Lemma wp_charge lo hi (Q : unit -> TW -> Prop) t w :
  affords (table_domain t) lo hi w -> 0 <= lo -> 1 <= hi ->
  (forall w', billed (table_domain t) 1 w w' -> Q tt (mkTW t w')) ->
  wp (with_domain charge_handle) Q (mkTW t w).
Proof.
  intros Ha Hlo Hn HQ. unfold with_domain. wp_step. wp_step. simpl.
  destruct (table_domain t) as [d |]; [| wp_step; apply HQ; by split].
  apply wp_on_world. eapply wp_charge_hier; [done | lia | lia |]. intros ds' Hs. apply HQ. by split.
Qed.

End primitive_rules.
