(* ===== verification/HandleOps.v ===== *)
(** The operations of the handle table, one specification each: the operation
    returns, the table's invariant holds again, what it charges moves by a known
    amount, and the Domain's account moves by the same amount. *)

From S2P Require Import Prelude Object Domain DomainFacts Handle HandleFacts.

(** From [t] to [t']: the invariant holds, at most [n] slots were added, only the
    slots of [X] differ, and the charge moved by [delta]. *)
Record kept (n : nat) (X : list Z) (delta : Z) (t t' : HandleTable) : Prop := {
  kept_inv : table_inv t';
  kept_domain : table_domain t' = table_domain t;
  kept_closed : closed t' = closed t;
  kept_progress : progress t t';
  kept_len : (vec_len (slots t) <= vec_len (slots t') <= vec_len (slots t) + n)%nat;
  kept_slots : forall i, 0 <= i -> i ∉ X -> slot_at t' i = slot_at t i;
  kept_charged : charged t' = charged t + delta;
}.

Lemma kept_trans n1 n2 n X1 X2 X d1 d2 d t1 t2 t3 :
  kept n1 X1 d1 t1 t2 -> kept n2 X2 d2 t2 t3 ->
  (n1 + n2 <= n)%nat -> X1 ⊆ X -> X2 ⊆ X -> d = d1 + d2 -> kept n X d t1 t3.
Proof.
  intros [] [] Hn HX1 HX2 ->. split; try congruence; try lia.
  - by etrans.
  - intros i Hi Hnin. etrans; [apply kept_slots1 | apply kept_slots0]; set_solver.
Qed.

Lemma kept_weaken n n' X X' d d' t t' :
  kept n X d t t' -> (n <= n')%nat -> X ⊆ X' -> d = d' -> kept n' X' d' t t'.
Proof.
  intros [] Hn HX <-. split; try done; [lia |]. intros i Hi Hnin. apply kept_slots0; set_solver.
Qed.

Lemma kept_refl n X t : table_inv t -> kept n X 0 t t.
Proof. intros. split; try done; lia. Qed.

(** ** The moves, as [kept] *)

Section kept_moves.
Context (t t' : HandleTable).
Hypothesis Hinv : table_inv t.
Hypothesis Hdom : table_domain t' = table_domain t.
Hypothesis Hclosed : closed t' = closed t.
Hypothesis Hcap : (capacity (free t) <= capacity (free t'))%nat.
Let booked_delta : Z := Z.of_nat (vec_len (booked t')) - Z.of_nat (vec_len (booked t)).

Section one_slot.
Context (i : Z) (s s' : Slot).
Hypothesis Hi : 0 <= i.
Hypothesis Hs : slot_at t i = Some s.
Hypothesis Hput : items (slots t') = <[Z.to_nat i := s']> (items (slots t)).
Hypothesis Hok : slot_ok s'.
Hypothesis Hgen : slot_generation s <= slot_generation s'.

#[local] Lemma kept_one :
  table_inv t' /\ progress t t' -> kept 0 [i] (weight s' - weight s + booked_delta) t t'.
Proof using All.
  intros [? ?]. split; try done.
  - unfold vec_len. rewrite Hput, length_insert. lia.
  - intros j Hj Hnin. rewrite (slot_at_put t t' i j s') by (try done; by eapply lookup_lt_Some).
    rewrite decide_False by set_solver. done.
  - rewrite (charged_put t t' i s s') by done. unfold booked_delta. lia.
Qed.

Lemma kept_out delta :
  pool t ≡ₚ i :: pool t' -> delta = weight s' + booked_delta -> kept 0 [i] delta t t'.
Proof using All.
  intros Hp ->. assert (weight s = 0) as Hw.
  { apply weight_idle. destruct (inv_pool _ Hinv) as [_ H]. destruct (H i) as (_ & s0 & Hs0 & Hid).
    - fold (pool t). rewrite Hp. set_solver.
    - unfold slot_at in Hs. by simplify_eq. }
  replace (weight s' + booked_delta) with (weight s' - weight s + booked_delta) by lia.
  apply kept_one. by apply (move_out t t' i s s').
Qed.

Lemma kept_in delta :
  ~ idle s -> idle s' -> pool t' ≡ₚ i :: pool t -> delta = booked_delta - weight s ->
  kept 0 [i] delta t t'.
Proof using All.
  intros Hbusy Hid Hp ->. pose proof (weight_idle _ Hid).
  replace (booked_delta - weight s) with (weight s' - weight s + booked_delta) by lia.
  apply kept_one. by apply (move_in t t' i s s').
Qed.

Lemma kept_busy delta :
  ~ idle s -> pool t' ≡ₚ pool t -> delta = weight s' - weight s + booked_delta ->
  kept 0 [i] delta t t'.
Proof using All. intros Hbusy Hp ->. apply kept_one. by apply (move_busy t t' i s s'). Qed.

End one_slot.

Lemma kept_pool delta :
  items (slots t') = items (slots t) -> pool t' ⊆+ pool t -> delta = booked_delta ->
  kept 0 [] delta t t'.
Proof using All.
  intros Hsame Hsub ->. destruct (move_pool t t') as (? & ? & Hch); try done. split; try done.
  - unfold vec_len. rewrite Hsame. lia.
  - intros. unfold slot_at. by rewrite Hsame.
  - unfold booked_delta. lia.
Qed.

Lemma kept_grow s delta :
  let i := Z.of_nat (vec_len (slots t)) in
  items (slots t') = items (slots t) ++ [s] -> slot_ok s -> i < TWO32 ->
  (S (vec_len (slots t)) <= capacity (free t'))%nat ->
  pool t' ≡ₚ pool t \/ (idle s /\ pool t' ≡ₚ i :: pool t) ->
  delta = weight s + booked_delta -> kept 1 [i] delta t t'.
Proof using All.
  intros i Hgrow Hok Hlt Hroom Hpool ->.
  destruct (move_grow t t' s) as (? & ? & Hch); try done. split; try done.
  - unfold vec_len. rewrite Hgrow, length_app. simpl. lia.
  - intros j Hj Hnin. unfold slot_at. rewrite Hgrow. subst i. unfold vec_len in Hnin.
    apply not_elem_of_cons in Hnin as [Hnin _]. assert (Z.to_nat j <> length (items (slots t))) by lia.
    destruct (decide (Z.to_nat j < length (items (slots t)))%nat).
    + by rewrite lookup_app_l.
    + rewrite !lookup_ge_None_2; [done | lia | rewrite length_app; simpl; lia].
  - unfold booked_delta. lia.
Qed.

End kept_moves.

(** The same capability, or none, at every index. *)
Definition same_caps (t t' : HandleTable) : Prop :=
  forall i, 0 <= i -> slot_at t' i ≫= slot_cap = slot_at t i ≫= slot_cap.

#[export] Instance same_caps_equivalence : Equivalence same_caps.
Proof.
  split; unfold same_caps; [done | intros t t' H i Hi; symmetry; auto |].
  intros t1 t2 t3 H1 H2 i Hi. by rewrite H2, H1.
Qed.

(** A capability of [t'] under a handle [t] did not know. *)
Definition minted (t t' : HandleTable) (h : Handle) (cap : Capability) : Prop :=
  u64_range h /\ cap_of t h = Err BadHandle /\ 0 < handle_generation h /\
  slot_at t' (handle_index h) = Some (mkSlot (Some cap) (handle_generation h) false).

Lemma minted_cap t t' h cap : minted t t' h cap -> cap_of t' h = Ok cap.
Proof. intros (_ & _ & _ & Hs). unfold cap_of. rewrite Hs. simpl. by rewrite Z.eqb_refl. Qed.

Lemma minted_intro t t' g i cap :
  1 <= g <= U32_MAX -> 0 <= i < TWO32 ->
  (slot_at t i = None \/ exists s, slot_at t i = Some s /\ slot_cap s = None) ->
  slot_at t' i = Some (mkSlot (Some cap) g false) ->
  minted t t' (handle_new g i) cap.
Proof.
  intros Hg Hi Hold Hnew. unfold minted, cap_of.
  rewrite handle_index_new, handle_generation_new by (unfold u32_range; lia).
  split; [apply handle_new_range; unfold u32_range; lia |]. split; [| split; [lia | done]].
  destruct Hold as [-> | (s & -> & ->)]; [done |]. by destruct (negb _).
Qed.

(** ** Placing *)

Lemma pool_slot t i :
  table_inv t -> i ∈ pool t ->
  0 <= i < TWO32 /\ exists s, slot_at t i = Some s /\ idle s /\ slot_ok s.
Proof.
  intros [Hp Hsl Hw _] Hi. fold (pool t) in Hp. pose proof (pool_bounded _ _ _ Hp Hi).
  destruct Hp as [_ Hp]. destruct (Hp i Hi) as (? & s & Hs & Hid).
  split; [unfold vec_len in *; lia |]. exists s. split; [done |]. split; [done |].
  by eapply Forall_lookup_1.
Qed.

Lemma occupied_ok s cap : slot_ok s -> idle s -> slot_ok (set_slot_cap (Some cap) s).
Proof. intros [_ ?] [_ ?]. split; simpl; congruence. Qed.

(** Slot [i], taken off one of the lists of idle indices, is given [cap]. *)
Lemma occupy t t' i s cap delta :
  table_inv t -> slot_at t i = Some s -> pool t ≡ₚ i :: pool t' ->
  table_domain t' = table_domain t -> closed t' = closed t ->
  (capacity (free t) <= capacity (free t'))%nat ->
  items (slots t') = <[Z.to_nat i := set_slot_cap (Some cap) s]> (items (slots t)) ->
  delta = 1 + Z.of_nat (vec_len (booked t')) - Z.of_nat (vec_len (booked t)) ->
  let h := handle_new (slot_generation s) i in
  minted t t' h cap /\ kept 0 [handle_index h] delta t t'.
Proof.
  intros Hinv Hs Hp ? ? ? Hput -> h.
  destruct (pool_slot t i Hinv) as (Hi & s0 & Hs0 & Hid & Hok); [rewrite Hp; set_solver |].
  simplify_eq. pose proof Hok as [_ Hg].
  assert (handle_index h = i) as -> by (apply handle_index_new; unfold u32_range; lia).
  split.
  - apply minted_intro; try done; [right; exists s; split; [done | apply Hid] |].
    rewrite (slot_at_put t t' i i _) by (try lia; try done; by eapply lookup_lt_Some).
    rewrite decide_True by done. unfold set_slot_cap. destruct Hid as [_ ->]. done.
  - eapply (kept_out t t') with (s := s) (s' := set_slot_cap (Some cap) s); try done; try lia.
    + by apply occupied_ok.
    + unfold weight. simpl. destruct Hid as [_ ->]. lia.
Qed.

(** Only the heap was asked. *)
Definition only_heap (w w' : World) : Prop := world_frame w w' /\ domains w' = domains w.

Lemma wp_try_place cap t w :
  table_inv t -> Z.of_nat (vec_len (slots t)) < TWO32 ->
  wp (try_place cap) (fun r '(mkTW t' w') =>
    only_heap w w' /\
    match r with
    | Ok h => minted t t' h cap /\ kept 1 [handle_index h] 1 t t'
    | Err c => c = cap /\ kept 0 [] 0 t t'
    end) (mkTW t w).
Proof.
  intros Hinv Hlt. unfold try_place. wp_step. apply wp_free_pop.
  - intros Hnil. wp_step. wp_step. apply wp_grow.
    + intros cs cf h Hcs Hcf Hcf'. simpl in *. wp_step. apply wp_slots_push; [done |]. wp_step.
      split; [done |]. rewrite wrap32_small by (unfold u32_range; lia).
      rewrite handle_index_new by (unfold u32_range; lia). split.
      * apply minted_intro; [lia | lia | |]; unfold slot_at; rewrite Nat2Z.id; simpl.
        -- left. by apply lookup_ge_None_2.
        -- by rewrite lookup_app_r, Nat.sub_diag.
      * eapply (kept_grow t) with (s := mkSlot (Some cap) 1 false); try done; unfold weight, vec_len; simpl; try lia.
        left. unfold pool. simpl. done.
    + intros cs cf h Hcf. simpl in *. wp_step. split; [done |]. split; [done |].
      eapply (kept_pool t); try done; unfold pool, vec_len; simpl; try lia; done.
  - intros l i Hl. destruct (pool_slot t i Hinv) as (Hi & s & Hs & Hid & Hok).
    { unfold pool. rewrite Hl. set_solver. }
    wp_step. eapply wp_index_slot; [exact Hs |]. wp_step. apply wp_put_slot. wp_step. split; [done |].
    edestruct (occupy t) as [Hm Hk]; [done | exact Hs | ..]; last first.
    + split; [exact Hm |]. eapply kept_weaken; [exact Hk | lia | done | done].
    + simpl. unfold vec_len. simpl. lia.
    + done.
    + done.
    + done.
    + done.
    + unfold pool. simpl. rewrite Hl. apply snoc_app_perm.
Qed.

(** ** Inserting *)

(** A whole operation: the table is kept, and the account moved by the change in
    what the table charges. *)
Definition accounted (n : nat) (X : list Z) (s s' : TW) : Prop :=
  exists delta, kept n X delta (tbl s) (tbl s') /\
    billed (table_domain (tbl s)) delta (wld s) (wld s').

(** What every operation needs: the invariant, and a Domain whose account covers
    what the table charges with room for [hi] more handles below 2{^64}. *)
Record ready (hi : Z) (s : TW) : Prop := {
  ready_inv : table_inv (tbl s);
  ready_affords : affords (table_domain (tbl s)) (charged (tbl s)) hi (wld s);
}.

Lemma ready_accounted hi n X s s' :
  ready hi s -> accounted n X s s' ->
  ready (hi - (charged (tbl s') - charged (tbl s))) s'.
Proof.
  intros [Hinv Ha] (delta & Hk & Hb). split; [apply Hk |].
  rewrite (kept_domain _ _ _ _ _ Hk), (kept_charged _ _ _ _ _ Hk).
  replace (charged (tbl s) + delta - charged (tbl s)) with delta by lia.
  by eapply affords_billed.
Qed.

Lemma ready_weaken hi hi' s : ready hi s -> hi' <= hi -> ready hi' s.
Proof. intros [? ?] ?. split; [done |]. eapply affords_weaken; [done | lia | done]. Qed.

Lemma accounted_trans n1 n2 n X1 X2 X hi s1 s2 s3 :
  ready hi s1 -> accounted n1 X1 s1 s2 -> accounted n2 X2 s2 s3 ->
  (n1 + n2 <= n)%nat -> X1 ⊆ X -> X2 ⊆ X -> accounted n X s1 s3.
Proof.
  intros [_ Ha] (d1 & Hk1 & Hb1) (d2 & Hk2 & Hb2) Hn HX1 HX2.
  exists (d1 + d2). split; [by eapply kept_trans |].
  rewrite (kept_domain _ _ _ _ _ Hk1) in Hb2. by eapply billed_trans.
Qed.

Lemma accounted_refl n X s : table_inv (tbl s) -> accounted n X s s.
Proof. intros. exists 0. split; [by apply kept_refl | by apply billed_refl]. Qed.

Lemma only_heap_billed od w w' : only_heap w w' -> billed od 0 w w'.
Proof. intros [? ?]. by apply billed_refl. Qed.

Lemma emit_billed od e w : billed od 0 w (emit_in e w).
Proof. by apply billed_refl. Qed.

(** An effect logged along the way bills nothing. *)
Lemma billed_emit od delta e w w' : billed od delta w w' -> billed od delta w (emit_in e w').
Proof.
  intros [Hf Hb]. split; [| by destruct od]. etrans; [done |]. by split.
Qed.

Lemma accounted_emit n X s t' w' e :
  accounted n X s (mkTW t' w') -> accounted n X s (mkTW t' (emit_in e w')).
Proof. intros (d & ? & ?). exists d. split; [done |]. by apply billed_emit. Qed.

#[export] Hint Resolve accounted_emit billed_emit only_heap_billed : kernel.

Section inserting.
Context (cap : Capability) (t : HandleTable) (w : World) (hi : Z).
Hypothesis Hready : ready hi (mkTW t w).
Hypothesis Hhi : 1 <= hi.
Hypothesis Hlt : Z.of_nat (vec_len (slots t)) < TWO32.

Lemma wp_place :
  wp (place cap) (fun h '(mkTW t' w') => world_frame w w' /\ domains w' = domains w /\
    ((minted t t' h cap /\ kept 1 [handle_index h] 1 t t') \/ (h = 0 /\ kept 0 [] 0 t t')))
    (mkTW t w).
Proof using Hlt Hready.
  unfold place. wp_step. eapply wp_mono; [apply wp_try_place; [apply Hready | done] |].
  intros [h | c] [t' w'] [[Hf Hd] H].
  - wp_step. auto.
  - destruct H as [-> Hk]. wp_step. apply wp_drop_cap. wp_step. split; [| split]; [| done |].
    + etrans; [done |]. by split.
    + right. split; [reflexivity | done].
Qed.

Lemma wp_insert :
  wp (insert cap) (fun h s' =>
    (minted t (tbl s') h cap /\ accounted 1 [handle_index h] (mkTW t w) s' /\
       charged (tbl s') = charged t + 1) \/
    (h = 0 /\ accounted 0 [] (mkTW t w) s' /\ charged (tbl s') = charged t)) (mkTW t w).
Proof using Hhi Hlt Hready.
  destruct Hready as [Hinv Ha]. simpl in *. pose proof (charged_nonneg t).
  unfold insert. wp_step. eapply wp_charge; [done | lia | lia |]. intros w1 Hb1.
  wp_step. eapply wp_mono; [by apply wp_try_place |]. intros [h | c] [t' w'] [Hh H'].
  - wp_step. left. destruct H' as [Hm Hk]. split; [done |]. split; [| apply Hk].
    exists 1. split; [done |]. simpl.
    eapply billed_trans; [exact Ha | exact Hb1 | apply only_heap_billed, Hh | lia].
  - destruct H' as [-> Hk]. wp_step. apply wp_drop_cap. wp_step.
    pose proof (affords_billed _ _ _ _ _ _ Ha Hb1) as Ha1.
    pose proof (affords_billed _ _ _ _ _ _ Ha1 (only_heap_billed _ _ _ Hh)) as Ha2.
    rewrite <- (kept_domain _ _ _ _ _ Hk) in Ha2.
    eapply (wp_refund 1); [exact Ha2 | lia |]. intros w2 Hb2 _. wp_step. right. split; [done |].
    split; [| pose proof (kept_charged _ _ _ _ _ Hk); simpl; lia].
    exists 0. split; [done |]. simpl. rewrite (kept_domain _ _ _ _ _ Hk) in Hb2.
    eapply (billed_trans _ _ _ 1 (-1)); [exact Ha | exact Hb1 | | done].
    eapply billed_trans; [exact Ha1 | apply billed_emit, only_heap_billed, Hh | exact Hb2 | done].
Qed.

Lemma wp_try_insert_or_return :
  wp (try_insert_or_return cap) (fun r s' =>
    match r with
    | Ok h => minted t (tbl s') h cap /\ accounted 1 [handle_index h] (mkTW t w) s' /\
        charged (tbl s') = charged t + 1
    | Err c => c = cap /\ accounted 0 [] (mkTW t w) s' /\ charged (tbl s') = charged t
    end) (mkTW t w).
Proof using Hhi Hlt Hready.
  destruct Hready as [Hinv Ha]. simpl in *. pose proof (charged_nonneg t).
  unfold try_insert_or_return. wp_step. wp_step. simpl. wp_step.
  apply wp_mono with (Q := fun ok s' => exists w1, s' = mkTW t w1 /\
    billed (table_domain t) (if (ok : bool) then 1 else 0) w w1).
  { destruct (table_domain t) as [d |] eqn:Ed; [| wp_step; exists w; split; [done |]; by split].
    apply wp_on_world. simpl in Ha. eapply wp_try_charge_hier; [exact Ha | lia | lia | |].
    - intros ds' Hs. eexists. split; [done |]. by split.
    - eexists. split; [done |]. by apply billed_refl. }
  intros ok s1 (w1 & -> & Hb1). destruct ok; simpl.
  - wp_step. eapply wp_mono; [by apply wp_try_place |]. intros [h | c] [t' w'] [Hh H'].
    + wp_step. destruct H' as [Hm Hk]. split; [done |]. split; [| apply Hk].
      exists 1. split; [done |]. simpl.
      eapply billed_trans; [exact Ha | exact Hb1 | apply only_heap_billed, Hh | lia].
    + destruct H' as [-> Hk]. wp_step.
      pose proof (affords_billed _ _ _ _ _ _ Ha Hb1) as Ha1.
      pose proof (affords_billed _ _ _ _ _ _ Ha1 (only_heap_billed _ _ _ Hh)) as Ha2.
      rewrite <- (kept_domain _ _ _ _ _ Hk) in Ha2.
      eapply (wp_refund 1); [exact Ha2 | lia |]. intros w2 Hb2 _. wp_step. split; [done |].
      split; [| pose proof (kept_charged _ _ _ _ _ Hk); simpl; lia].
      exists 0. split; [done |]. simpl. rewrite (kept_domain _ _ _ _ _ Hk) in Hb2.
      eapply (billed_trans _ _ _ 1 (-1)); [exact Ha | exact Hb1 | | done].
      eapply billed_trans; [exact Ha1 | apply only_heap_billed, Hh | exact Hb2 | done].
  - wp_step. split; [done |]. split; [| done]. exists 0. split; [by apply kept_refl | done].
Qed.

Lemma wp_try_insert :
  wp (try_insert cap) (fun r s' =>
    match r with
    | Some h => minted t (tbl s') h cap /\ accounted 1 [handle_index h] (mkTW t w) s' /\
        charged (tbl s') = charged t + 1
    | None => accounted 0 [] (mkTW t w) s' /\ charged (tbl s') = charged t
    end) (mkTW t w).
Proof using Hhi Hlt Hready.
  unfold try_insert. wp_step. eapply wp_mono; [apply wp_try_insert_or_return |].
  intros [h | c] [t' w'] H'; [by wp_step |]. destruct H' as (-> & Hk & Hc).
  wp_step. apply wp_drop_cap. wp_step. split; [by apply accounted_emit | done].
Qed.

End inserting.

(** ** Vacating a slot *)

(** No capability is, or will be, found under [h]. *)
Definition dead (t : HandleTable) (h : Handle) : Prop :=
  exists s, slot_at t (handle_index h) = Some s /\
    (handle_generation h < slot_generation s \/ retired t (handle_index h) s).

(** Dead, and the slot is idle. *)
Definition vacated (t : HandleTable) (h : Handle) : Prop :=
  exists s, slot_at t (handle_index h) = Some s /\ idle s /\
    (handle_generation h < slot_generation s \/ retired t (handle_index h) s).

Lemma vacated_dead t h : vacated t h -> dead t h.
Proof. intros (s & ? & _ & ?). by exists s. Qed.

#[export] Hint Resolve vacated_dead : kernel.

Lemma dead_cap_of t h : dead t h -> cap_of t h = Err BadHandle.
Proof.
  intros (s & Hs & Hd). unfold cap_of. rewrite Hs. destruct (Z.eqb_spec (slot_generation s) (handle_generation h)); [| done].
  simpl. destruct Hd as [? | (_ & [-> _] & _)]; [lia | done].
Qed.

Lemma dead_progress t t' h : progress t t' -> dead t h -> dead t' h.
Proof.
  intros Hp (s & Hs & Hd). destruct (Hp (handle_index h) s) as (s' & Hs' & Hg & Hr); [apply handle_index_range | done |].
  exists s'. split; [done |]. destruct Hd; [left; lia | right; auto].
Qed.

Lemma weight_busy s : slot_ok s -> ~ idle s -> weight s = 1.
Proof.
  intros [Hr _] Hb. unfold weight, idle, is_live in *.
  destruct (slot_cap s), (slot_reserved s); try done; try lia; [naive_solver | tauto].
Qed.

Lemma slot_at_ok t i s : table_inv t -> slot_at t i = Some s -> slot_ok s.
Proof. intros [_ Hsl _ _] Hs. by eapply Forall_lookup_1. Qed.

Section vacating.
Context (t : HandleTable) (w : World) (h : Handle) (s s0 : Slot).
Hypothesis Hinv : table_inv t.
Hypothesis Hs : slot_at t (handle_index h) = Some s.
Hypothesis Hbusy : ~ idle s.
Hypothesis Hidle : idle s0.
Hypothesis Hgen0 : slot_generation s0 = slot_generation s.
Hypothesis Hgen : slot_generation s = handle_generation h.

Lemma wp_vacate {A} (k : M TW A) Q :
  (forall t', kept 0 [handle_index h] (-1) t t' -> vacated t' h ->
     booked t' = booked t -> wp k Q (mkTW t' w)) ->
  wp (slot ← retire_or_recycle s0 (handle_index h); put_slot (handle_index h) slot ;; k) Q (mkTW t w).
Proof using All.
  intros HQ. pose proof (handle_index_range h) as Hi. unfold u32_range in Hi.
  pose proof (slot_at_ok _ _ _ Hinv Hs) as Hok. pose proof (weight_busy _ Hok Hbusy) as Hwt.
  pose proof Hok as [_ Hg]. unfold retire_or_recycle, checked_add. rewrite (wrap32_small (handle_index h)) by (unfold u32_range; lia).
  assert (handle_index h ∉ pool t) as Hnin by (eapply pool_busy; [apply Hinv | exact Hs | done]).
  wp_step. destruct (Z.leb_spec (slot_generation s0 + 1) U32_MAX).
  - wp_step. eapply wp_free_push; [apply (room_for t (handle_index h) s); try done; lia |]. wp_steps. apply wp_put_slot.
    apply HQ; [| | done].
    + eapply (kept_in t) with (s := s) (s' := set_slot_generation (slot_generation s0 + 1) s0);
        try done; try (simpl; lia).
      * destruct Hidle as [Hc Hr]. split; simpl; [congruence | lia].
      * unfold pool. simpl. apply snoc_app_perm.
    + exists (set_slot_generation (slot_generation s0 + 1) s0). split; [| split; [done |]].
      * unfold slot_at. simpl. apply list_lookup_insert_eq. by eapply lookup_lt_Some.
      * left. simpl. lia.
  - wp_steps. apply wp_put_slot. apply HQ; [| | done].
    + eapply (kept_busy t) with (s := s) (s' := set_slot_generation U32_MAX s0); try done; try (simpl; lia).
      * destruct Hidle as [Hc Hr]. split; simpl; [congruence | lia].
      * assert (weight (set_slot_generation U32_MAX s0) = 0) as -> by (by apply weight_idle).
        unfold vec_len. simpl. lia.
    + exists (set_slot_generation U32_MAX s0). split; [| split; [done |]].
      * unfold slot_at. simpl. apply list_lookup_insert_eq. by eapply lookup_lt_Some.
      * right. done.
Qed.

Lemma wp_vacate_last (Q : unit -> TW -> Prop) :
  (forall t', kept 0 [handle_index h] (-1) t t' -> vacated t' h ->
     booked t' = booked t -> Q tt (mkTW t' w)) ->
  wp (slot ← retire_or_recycle s0 (handle_index h); put_slot (handle_index h) slot) Q (mkTW t w).
Proof using All.
  intros HQ. pose proof (wp_vacate (mret tt) Q HQ) as H. revert H.
  unfold wp, mbind, M_bind. by destruct (retire_or_recycle s0 (handle_index h) (mkTW t w)) as [[? ?] |].
Qed.

(** Vacating, and then the refund of one handle. *)
Lemma wp_vacate_refund {A} hi (k : M TW A) Q :
  ready hi (mkTW t w) ->
  (forall t' w', accounted 0 [handle_index h] (mkTW t w) (mkTW t' w') -> vacated t' h ->
     charged t' = charged t - 1 -> booked t' = booked t -> effects w' = effects w ->
     wp k Q (mkTW t' w')) ->
  wp (slot ← retire_or_recycle s0 (handle_index h);
      put_slot (handle_index h) slot ;; with_domain (fun d => uncharge_handles d 1) ;; k) Q (mkTW t w).
Proof using All.
  intros [_ Ha] HQ. simpl in Ha. apply wp_vacate. intros t' Hk Hd Hbk. wp_step.
  pose proof (charged_nonneg t'). pose proof (kept_charged _ _ _ _ _ Hk).
  eapply wp_refund; [rewrite (kept_domain _ _ _ _ _ Hk); exact Ha | lia |].
  intros w' Hb He. apply HQ; try done; try lia.
  rewrite (kept_domain _ _ _ _ _ Hk) in Hb. by exists (-1).
Qed.

End vacating.

Lemma cap_of_ok t h cap :
  cap_of t h = Ok cap ->
  exists s, slot_at t (handle_index h) = Some s /\ slot_cap s = Some cap /\
    slot_generation s = handle_generation h.
Proof.
  unfold cap_of. intros H. destruct (slot_at t (handle_index h)) as [s |]; [| done].
  destruct (Z.eqb_spec (slot_generation s) (handle_generation h)); [| done].
  simpl in H. destruct (slot_cap s) as [c |] eqn:E; simplify_eq. eauto.
Qed.

Lemma live_cap_of_ok gens t h cap :
  live_cap_of gens t h = Ok cap -> cap_of t h = Ok cap /\ is_valid gens cap = true.
Proof.
  unfold live_cap_of. destruct (cap_of t h) as [c |]; [| done].
  destruct (is_valid gens c) eqn:E; simpl; intros; by simplify_eq.
Qed.

Lemma live_not_reserved t i s cap :
  table_inv t -> slot_at t i = Some s -> slot_cap s = Some cap -> slot_reserved s = false.
Proof.
  intros Hinv Hs Hc. destruct (slot_at_ok _ _ _ Hinv Hs) as [Hr _].
  destruct (slot_reserved s); [| done]. rewrite Hr in Hc by done. done.
Qed.

(** ** Taking, closing and transferring *)

(** A transfer of [h] is in flight: its slot is empty, reserved, and charged. *)
Definition pending (t : HandleTable) (h : Handle) : Prop :=
  slot_at t (handle_index h) = Some (mkSlot None (handle_generation h) true).

Lemma pending_generation t h : table_inv t -> pending t h -> 1 <= handle_generation h <= U32_MAX.
Proof. intros Hinv Hp. by destruct (slot_at_ok _ _ _ Hinv Hp) as [_ ?]. Qed.

Section consuming.
Context (t : HandleTable) (w : World) (hi : Z) (h : Handle).
Hypothesis Hready : ready hi (mkTW t w).
Let s : TW := mkTW t w.

Lemma wp_take rights :
  wp (take h rights) (fun r s' =>
    match r with
    | Ok cap => live_cap_of (generations w) t h = Ok cap /\
        Rights.contains (cap_rights cap) rights = true /\
        accounted 0 [handle_index h] s s' /\ vacated (tbl s') h /\ charged (tbl s') = charged t - 1
    | Err e => s' = s /\
        (live_cap_of (generations w) t h = Err e \/
         exists cap, live_cap_of (generations w) t h = Ok cap /\ e = AccessDenied /\
           Rights.contains (cap_rights cap) rights = false)
    end) s.
Proof using Hready.
  pose proof (ready_inv _ _ Hready) as Hinv. simpl in Hinv. unfold take. wp_steps. simpl.
  destruct (live_cap_of (generations w) t h) as [cap | e] eqn:E; [| wp_step; auto].
  destruct (live_cap_of_ok _ _ _ _ E) as [Hc _]. destruct (cap_of_ok _ _ _ Hc) as (sl & Hs & Hcap & Hg).
  destruct (Rights.contains (cap_rights cap) rights) eqn:Er; simpl; [| wp_step; eauto 7].
  rewrite Hs, Hcap. eapply (wp_vacate_refund t w h sl); try done.
  - apply live_busy. unfold is_live. by rewrite Hcap.
  - split; [done |]. simpl. by eapply live_not_reserved.
Qed.

Lemma wp_take_for_transfer rights :
  wp (take_for_transfer h rights) (fun r s' =>
    match r with
    | Ok cap => live_cap_of (generations w) t h = Ok cap /\
        Rights.contains (cap_rights cap) rights = true /\
        accounted 0 [handle_index h] s s' /\ pending (tbl s') h /\
        charged (tbl s') = charged t /\
        s' = mkTW (set_slots (Vec (<[Z.to_nat (handle_index h) :=
                     mkSlot None (handle_generation h) true]> (items (slots t))) (capacity (slots t))) t) w
    | Err e => s' = s /\
        (live_cap_of (generations w) t h = Err e \/
         exists cap, live_cap_of (generations w) t h = Ok cap /\ e = AccessDenied /\
           Rights.contains (cap_rights cap) rights = false)
    end) s.
Proof using Hready.
  pose proof (ready_inv _ _ Hready) as Hinv. simpl in Hinv. unfold take_for_transfer. wp_steps. simpl.
  destruct (live_cap_of (generations w) t h) as [cap | e] eqn:E; [| wp_step; auto].
  destruct (live_cap_of_ok _ _ _ _ E) as [Hc _]. destruct (cap_of_ok _ _ _ Hc) as (sl & Hs & Hcap & Hg).
  destruct (Rights.contains (cap_rights cap) rights) eqn:Er; simpl; [| wp_step; eauto 7].
  rewrite Hs, Hcap. unfold set_slot_reserved, set_slot_cap. simpl. rewrite Hg.
  wp_step. apply wp_put_slot. wp_step. split; [done |]. split; [done |].
  pose proof (slot_at_ok _ _ _ Hinv Hs) as Hok.
  assert (~ idle sl) as Hbusy by (apply live_busy; unfold is_live; by rewrite Hcap).
  match goal with |- accounted _ _ _ (mkTW ?t' _) /\ _ => assert (kept 0 [handle_index h] 0 t t') as Hk end.
  { eapply (kept_busy t) with (s := sl) (s' := mkSlot None (handle_generation h) true); try done.
    - apply handle_index_range.
    - split; [done |]. simpl. rewrite <- Hg. apply Hok.
    - simpl. lia.
    - rewrite (weight_busy sl) by done. unfold weight, vec_len. simpl. lia. }
  split; [exists 0; split; [done | by apply billed_refl] |]. split.
  - unfold pending, slot_at. simpl. apply list_lookup_insert_eq. by eapply lookup_lt_Some.
  - split; [| done]. pose proof (kept_charged _ _ _ _ _ Hk). simpl. lia.
Qed.

Lemma wp_resolve_taken :
  pending t h ->
  wp (resolve_taken h) (fun _ s' =>
    accounted 0 [handle_index h] s s' /\ vacated (tbl s') h /\ charged (tbl s') = charged t - 1 /\
    booked (tbl s') = booked t /\ effects (wld s') = effects w) s.
Proof using Hready.
  intros Hp. pose proof (ready_inv _ _ Hready) as Hinv. simpl in Hinv.
  pose proof Hp as Hs. unfold pending in Hs. unfold resolve_taken. wp_steps. simpl. rewrite Hs.
  apply wp_mono with (Q := fun _ s1 => exists t1, s1 = mkTW t1 w /\
    kept 0 [handle_index h] (-1) t t1 /\ vacated t1 h /\ booked t1 = booked t).
  { eapply (wp_vacate_last t w h _ (mkSlot None (handle_generation h) false) Hinv Hs); try done.
    - by apply reserved_busy.
    - eauto. }
  intros _ s1 (t1 & -> & Hk & Hd & Hbk). destruct Hready as [_ Ha]. simpl in Ha.
  pose proof (charged_nonneg t1). pose proof (kept_charged _ _ _ _ _ Hk).
  eapply wp_refund; [rewrite (kept_domain _ _ _ _ _ Hk); exact Ha | lia |].
  intros w' Hb He. rewrite (kept_domain _ _ _ _ _ Hk) in Hb.
  split; [by exists (-1) |]. split; [done |]. split; [simpl; lia |]. done.
Qed.

Lemma wp_restore_taken cap :
  pending t h ->
  wp (restore_taken h cap) (fun _ s' =>
    accounted 0 [handle_index h] s s' /\
    if closed t then charged (tbl s') = charged t - 1 /\
      slot_at (tbl s') (handle_index h) = Some (mkSlot None (handle_generation h) false)
    else charged (tbl s') = charged t /\
      s' = mkTW (set_slots (Vec (<[Z.to_nat (handle_index h) :=
             mkSlot (Some cap) (handle_generation h) false]> (items (slots t))) (capacity (slots t))) t) w) s.
Proof using Hready.
  intros Hp. pose proof (ready_inv _ _ Hready) as Hinv. simpl in Hinv. pose proof Hp as Hs.
  unfold pending in Hs. pose proof (pending_generation _ _ Hinv Hp).
  assert (forall s', s' = mkSlot None (handle_generation h) false \/
                     s' = mkSlot (Some cap) (handle_generation h) false ->
    kept 0 [handle_index h] (weight s' - 1) t
      (set_slots (Vec (<[Z.to_nat (handle_index h) := s']> (items (slots t))) (capacity (slots t))) t)) as Hk.
  { intros s' Hs'. eapply (kept_busy t) with (s := mkSlot None (handle_generation h) true) (s' := s'); try done.
    - apply handle_index_range.
    - destruct Hs' as [-> | ->]; by split.
    - by destruct Hs' as [-> | ->].
    - by apply reserved_busy.
    - unfold weight, vec_len. simpl. lia. }
  unfold restore_taken. wp_steps. simpl. destruct (closed t) eqn:Ecl.
  - wp_step. apply wp_drop_cap. rewrite Hs. wp_step.
    unfold set_slot_reserved, set_slot_cap. cbn [slot_cap slot_generation slot_reserved]. apply wp_put_slot.
    specialize (Hk _ (or_introl eq_refl)). destruct Hready as [_ Ha]. simpl in Ha.
    pose proof (charged_nonneg (set_slots (Vec (<[Z.to_nat (handle_index h) := mkSlot None (handle_generation h) false]>
      (items (slots t))) (capacity (slots t))) t)) as Hnn. rewrite (kept_charged _ _ _ _ _ Hk) in Hnn.
    unfold weight in Hnn, Hk. simpl in Hnn, Hk.
    eapply (wp_refund 1) with (lo := charged t) (hi := hi); [exact Ha | lia |].
    intros w' Hb _. split; [| split].
    + exists (-1). split; [exact Hk |]. eapply billed_trans; [exact Ha | apply emit_billed | exact Hb | lia].
    + pose proof (kept_charged _ _ _ _ _ Hk) as Hch. simpl in Hch |- *. lia.
    + unfold slot_at. simpl. apply list_lookup_insert_eq. by eapply lookup_lt_Some.
  - rewrite Hs. unfold set_slot_reserved, set_slot_cap. cbn [slot_cap slot_generation slot_reserved].
    apply wp_put_slot. specialize (Hk _ (or_intror eq_refl)). unfold weight in Hk. simpl in Hk.
    split; [exists 0; split; [exact Hk | by apply billed_refl] |].
    split; [| done]. pose proof (kept_charged _ _ _ _ _ Hk) as Hch. simpl in Hch |- *. lia.
Qed.

End consuming.

(** [close] also says what it drops, and whether it released a claim. *)
Definition released (cap : Capability) (t : HandleTable) : list Effect :=
  DropRef (cap_object cap) ::
  if bool_decide (object_type cap = TyClaim)
     && negb (existsb (names_object (cap_object cap)) (items (slots t)))
  then [ClaimRelease (ref_koid (cap_object cap))] else [].

Lemma wp_close t w hi h :
  ready hi (mkTW t w) ->
  wp (close h) (fun r s' =>
    match r with
    | Ok _ => exists cap, cap_of t h = Ok cap /\
        accounted 0 [handle_index h] (mkTW t w) s' /\ vacated (tbl s') h /\
        charged (tbl s') = charged t - 1 /\ booked (tbl s') = booked t /\
        effects (wld s') = effects w ++ released cap (tbl s')
    | Err e => e = BadHandle /\ s' = mkTW t w /\ cap_of t h = Err BadHandle
    end) (mkTW t w).
Proof.
  intros Hready. pose proof (ready_inv _ _ Hready) as Hinv. simpl in Hinv.
  unfold close. wp_steps. simpl. unfold cap_of.
  destruct (slot_at t (handle_index h)) as [sl |] eqn:Hs; [| by wp_step].
  destruct (slot_cap sl) as [cap |] eqn:Hcap; [| wp_step; split; [done |]; by destruct (negb _)].
  destruct (Z.eqb_spec (slot_generation sl) (handle_generation h)) as [Hg | Hg]; simpl; [| by wp_step].
  eapply (wp_vacate_refund t w h sl); try done.
  - apply live_busy. unfold is_live. by rewrite Hcap.
  - split; [done |]. simpl. by eapply live_not_reserved.
  - intros t' w' Hacc Hd Hc Hbk He. wp_step. apply wp_drop_cap. wp_steps. simpl.
    destruct (bool_decide (object_type cap = TyClaim) &&
              negb (existsb (names_object (cap_object cap)) (items (slots t')))) eqn:Elast.
    + apply wp_on_world, wp_modify. wp_step. exists cap. unfold released. cbn [tbl wld]. rewrite Elast.
      split; [done |]. split; [by do 2 apply accounted_emit |]. do 3 (split; [done |]). simpl.
      by rewrite He, <- app_assoc.
    + wp_steps. exists cap. unfold released. cbn [tbl wld]. rewrite Elast.
      split; [done |]. split; [by apply accounted_emit |]. do 3 (split; [done |]). simpl.
      by rewrite He.
Qed.

(** [duplicate]: a fresh handle to the same object, never with more rights. *)
Lemma wp_duplicate t w hi h new_rights :
  ready hi (mkTW t w) -> 1 <= hi -> Z.of_nat (vec_len (slots t)) < TWO32 ->
  wp (duplicate h new_rights) (fun r s' =>
    match r with
    | Ok h' => exists cap, live_cap_of (generations w) t h = Ok cap /\
        Rights.contains (cap_rights cap) Rights.RIGHT_DUPLICATE = true /\
        Rights.contains (cap_rights cap) new_rights = true /\
        minted t (tbl s') h' (mkCap (cap_object cap) new_rights (cap_generation cap)) /\
        accounted 1 [handle_index h'] (mkTW t w) s' /\ charged (tbl s') = charged t + 1
    | Err _ => accounted 0 [] (mkTW t w) s' /\ charged (tbl s') = charged t
    end) (mkTW t w).
Proof.
  intros Hready Hhi Hlt. pose proof (ready_inv _ _ Hready) as Hinv. simpl in Hinv.
  assert (accounted 0 [] (mkTW t w) (mkTW t w)) as Hsame by (by apply accounted_refl).
  unfold duplicate, duplicate_racing, live_cap_of. wp_steps. simpl.
  destruct (cap_of t h) as [cap | e] eqn:E; [| by wp_step].
  destruct (is_valid (generations w) cap) eqn:Ev; simpl; [| by wp_step].
  destruct (Rights.contains (cap_rights cap) Rights.RIGHT_DUPLICATE) eqn:Ed; simpl; [| by wp_step].
  destruct (Rights.contains (cap_rights cap) new_rights) eqn:En; simpl; [| by wp_step].
  wp_step. apply wp_on_world, wp_modify. wp_steps. simpl.
  eapply wp_mono; [eapply wp_try_insert; done |].
  intros [h' |] s' H'; wp_step; [| done]. destruct H' as (Hm & ? & ?). exists cap. repeat (split; [done |]).
  split; [| done]. unfold capability_new in Hm. unfold is_valid in Ev. apply Z.eqb_eq in Ev. by rewrite Ev in Hm.
Qed.

(** ** Reservations *)

Lemma wp_unbook_loop n t w :
  table_inv t -> (n <= vec_len (booked t))%nat ->
  wp (unbook_loop n) (fun _ '(mkTW t' w') => w' = w /\
    kept 0 [] (- Z.of_nat n) t t' /\ slots t' = slots t /\
    items (booked t') = list.take (vec_len (booked t) - n) (items (booked t))) (mkTW t w).
Proof.
  revert t. induction n as [| n IH]; intros t Hinv Hn.
  - cbn [unbook_loop]. wp_step. split; [done |]. split; [by apply kept_refl |]. split; [done |].
    rewrite Nat.sub_0_r. symmetry. by apply firstn_all.
  - cbn [unbook_loop]. wp_step. apply wp_booked_pop.
    { intros Hnil. unfold vec_len in Hn. rewrite Hnil in Hn. simpl in Hn. lia. }
    intros l i Hl. wp_step. eapply wp_assert_some; [done |].
    destruct (pool_slot t i Hinv) as (Hi & s & Hs & Hid & _); [unfold pool; rewrite Hl; set_solver |].
    set (t1 := set_booked (Vec l (capacity (booked t))) t).
    assert (kept 0 [] (-1) t t1) as Hk1.
    { eapply (kept_pool t); try done; unfold pool, vec_len; simpl; rewrite Hl.
      - rewrite app_assoc. apply submseteq_inserts_r. done.
      - rewrite length_app. simpl. lia. }
    wp_step. apply wp_free_push.
    { eapply (room_for t1 i s); [apply Hk1 | lia | done |]. unfold pool. simpl.
      destruct (inv_pool _ Hinv) as [Hnd _]. rewrite Hl, app_assoc in Hnd.
      by apply NoDup_snoc in Hnd as [? _]. }
    set (t2 := set_free _ t1).
    assert (kept 0 [] (-1) t t2) as Hk2.
    { eapply (kept_pool t); try done; unfold pool, vec_len; simpl; rewrite Hl.
      - apply Permutation_submseteq. by rewrite snoc_app_perm, app_snoc_perm.
      - rewrite length_app. simpl. lia. }
    assert (vec_len (booked t) = S (vec_len (booked t2))) as Hlen.
    { unfold vec_len. rewrite Hl, length_app. simpl. lia. }
    eapply wp_mono; [apply IH; [apply Hk2 | lia] |]. intros [] [t' w'] (-> & Hk & Hsl & Hbk).
    split; [done |]. split; [eapply kept_trans; [exact Hk2 | exact Hk | lia | done | done | lia] |].
    split; [done |]. rewrite Hbk, Hlen, Hl. simpl.
    rewrite take_app_le; [done |]. unfold vec_len. simpl. lia.
Qed.

Lemma wp_unbook keep t w :
  table_inv t -> (keep <= vec_len (booked t))%nat ->
  wp (unbook keep) (fun _ '(mkTW t' w') => w' = w /\
    kept 0 [] (Z.of_nat keep - Z.of_nat (vec_len (booked t))) t t' /\ slots t' = slots t /\
    items (booked t') = list.take keep (items (booked t))) (mkTW t w).
Proof.
  intros Hinv Hkeep. unfold unbook. wp_steps. simpl.
  eapply wp_mono; [apply wp_unbook_loop; [done | lia] |]. intros [] [t' w'] (-> & Hk & ? & Hbk).
  replace (vec_len (booked t) - (vec_len (booked t) - keep))%nat with keep in Hbk by lia.
  split; [done |]. split; [| done]. eapply kept_weaken; [exact Hk | done | done | lia].
Qed.
