(* ===== verification/HandleReserve.v ===== *)
(** Reservations and teardown of the handle table: a reservation either books
    and charges exactly what was asked or leaves the account and the bookings as
    they were, a reserved insertion cannot fail, and [close_all] drops every
    capability while keeping what is booked or in flight charged. *)

From S2P Require Import Prelude Object Domain DomainFacts Handle HandleFacts HandleOps.

(** The indices of the next [n] slots the table grows by. *)
Definition next_slots (t : HandleTable) (n : nat) : list Z :=
  seqZ (Z.of_nat (vec_len (slots t))) (Z.of_nat n).

Lemma grown_same_caps t t' g r :
  items (slots t') = items (slots t) ++ [mkSlot None g r] -> same_caps t t'.
Proof.
  intros E i Hi. unfold slot_at. rewrite E.
  destruct (decide (Z.to_nat i < length (items (slots t)))%nat); [by rewrite lookup_app_l |].
  rewrite (lookup_ge_None_2 (items (slots t))) by lia. rewrite lookup_app_r by lia.
  by destruct (Z.to_nat i - length (items (slots t)))%nat as [| []].
Qed.

Lemma wp_book_one t w :
  table_inv t -> Z.of_nat (vec_len (slots t)) < TWO32 ->
  (vec_len (booked t) < capacity (booked t))%nat ->
  wp book_one (fun ok '(mkTW t' w') => only_heap w w' /\
    (vec_len (slots t') <= S (vec_len (slots t)))%nat /\
    capacity (booked t') = capacity (booked t) /\ same_caps t t' /\
    if (ok : bool) then kept 1 (next_slots t 1) 1 t t' /\
      exists i, items (booked t') = items (booked t) ++ [i]
    else kept 0 [] 0 t t' /\ booked t' = booked t) (mkTW t w).
Proof.
  intros Hinv Hlt Hroom. unfold book_one. wp_step. apply wp_free_pop.
  - intros Hnil. wp_step. wp_step. apply wp_grow.
    + intros cs cf h Hcs Hcf Hcf'. simpl in *. wp_step. apply wp_slots_push; [done |].
      wp_step. apply wp_booked_push; [done |]. wp_step. split; [done |].
      rewrite wrap32_small by (unfold u32_range; lia).
      split; [unfold vec_len; simpl; rewrite length_app; simpl; lia |]. split; [done |].
      split; [by eapply grown_same_caps |]. split; [| eexists; done].
      eapply (kept_grow t) with (s := mkSlot None 1 false); try done; unfold weight, vec_len; simpl; try lia.
      * right. split; [done |]. unfold pool. simpl.
        apply app_snoc_perm.
      * rewrite length_app. simpl. lia.
    + intros cs cf h Hcf. simpl in *. wp_step. split; [done |].
      split; [unfold vec_len; simpl; lia |]. split; [done |]. split; [done |]. split; [| done].
      eapply (kept_pool t); try done; unfold pool, vec_len; simpl; try lia; done.
  - intros l i Hl. wp_step. apply wp_booked_push; [done |]. wp_step. split; [done |].
    split; [simpl; lia |]. split; [done |]. split; [done |]. split; [| eexists; done].
    eapply kept_weaken with (n := 0%nat) (X := []); [| lia | set_solver | reflexivity].
    eapply (kept_pool t); try done; unfold pool, vec_len; simpl; rewrite ?Hl, ?length_app; simpl; try lia.
    apply Permutation_submseteq. by rewrite snoc_app_perm, app_snoc_perm.
Qed.

Lemma next_slots_sub t t' n m :
  (vec_len (slots t) <= vec_len (slots t') <= vec_len (slots t) + 1)%nat -> (n < m)%nat ->
  next_slots t' n ⊆ next_slots t m.
Proof. intros Hlen Hnm i. unfold next_slots. rewrite !elem_of_seqZ. lia. Qed.

Lemma wp_book_slots n before t w :
  table_inv t -> Z.of_nat (vec_len (slots t)) + Z.of_nat n <= TWO32 ->
  (vec_len (booked t) + n <= capacity (booked t))%nat -> (before <= vec_len (booked t))%nat ->
  wp (book_slots n before) (fun ok '(mkTW t' w') => only_heap w w' /\ same_caps t t' /\
    if (ok : bool) then kept n (next_slots t n) (Z.of_nat n) t t' /\
      exists l, length l = n /\ items (booked t') = items (booked t) ++ l
    else kept n (next_slots t n) (Z.of_nat before - Z.of_nat (vec_len (booked t))) t t' /\
      items (booked t') = list.take before (items (booked t))) (mkTW t w).
Proof.
  revert t w. induction n as [| n IH]; intros t w Hinv Hlt Hroom Hbefore.
  - cbn [book_slots]. wp_step. split; [done |]. split; [done |]. split; [by apply kept_refl |]. exists []. by rewrite app_nil_r.
  - cbn [book_slots]. wp_step. eapply wp_mono; [apply wp_book_one; [done | lia | lia] |].
    intros ok [t1 w1] (Hh1 & Hlen & Hcap & Hsame1 & Hk). destruct ok.
    + destruct Hk as [Hk1 [i Hi]].
      assert (vec_len (booked t1) = S (vec_len (booked t))) as Hbl
        by (unfold vec_len; rewrite Hi, length_app; simpl; lia).
      eapply wp_mono; [apply IH; [apply Hk1 | lia..] |].
      intros ok [t2 w2] (Hh2 & Hsame2 & H2). split; [destruct Hh1, Hh2; split; [by etrans | congruence] |].
      split; [by etrans |].
      pose proof (kept_len _ _ _ _ _ Hk1).
      assert (next_slots t 1 ⊆ next_slots t (S n)) by (intros j; unfold next_slots; rewrite !elem_of_seqZ; lia).
      destruct ok; destruct H2 as [Hk2 Hb2].
      * split; [eapply kept_trans; [exact Hk1 | exact Hk2 | lia | done | apply next_slots_sub; lia | lia] |].
        destruct Hb2 as (l & Hl & Hb2). exists (i :: l). rewrite Hb2, Hi, <- app_assoc. simpl. by rewrite Hl.
      * split; [eapply kept_trans; [exact Hk1 | exact Hk2 | lia | done | apply next_slots_sub; lia | lia] |].
        rewrite Hb2, Hi. by rewrite take_app_le.
    + destruct Hk as [Hk1 Hb1]. wp_step.
      eapply wp_mono; [apply wp_unbook; [apply Hk1 | by rewrite Hb1] |].
      intros [] [t2 w2] (-> & Hk2 & Hsl2 & Hb2). wp_step. split; [done |].
      split; [etrans; [exact Hsame1 |]; intros i _; unfold slot_at; by rewrite Hsl2 |].
      rewrite Hb1 in *. split; [| done].
      eapply kept_trans; [exact Hk1 | exact Hk2 | lia | set_solver | set_solver | lia].
Qed.

(** The quota of a reservation is all or nothing. *)
Lemma wp_charge_handles d n taken lo hi w :
  pays Handles d lo hi (domains w) -> 0 <= taken <= lo -> Z.of_nat n <= hi ->
  wp (charge_handles d n taken) (fun ok w' =>
    billed (Some d) (if (ok : bool) then Z.of_nat n else - taken) w w') w.
Proof.
  revert taken lo hi w. induction n as [| n IH]; intros taken lo hi w Hp Ht Hn.
  - cbn [charge_handles]. wp_step. by apply billed_refl.
  - cbn [charge_handles]. wp_step. eapply wp_try_charge_hier; [exact Hp | lia | lia | |].
    + intros ds' Hs. assert (billed (Some d) 1 w (set_domains ds' w)) as Hb by (by split).
      destruct (pays_shifted _ _ _ _ _ _ _ Hp Hs) as [Hp' _].
      eapply wp_mono; [eapply (IH (taken + 1)); [exact Hp' | lia | lia] |].
      intros ok w' Hb'. eapply (billed_trans (Some d)); [exact Hp | exact Hb | exact Hb' |].
      destruct ok; lia.
    + wp_step. eapply wp_uncharge_hier; [exact Hp | lia |]. intros ds' Hs. wp_step. by split.
Qed.

Section reservations.
Context (t : HandleTable) (w : World) (hi : Z).
Hypothesis Hready : ready hi (mkTW t w).
Let s : TW := mkTW t w.

Lemma wp_reserve n :
  Z.of_nat (vec_len (slots t)) + Z.of_nat n <= TWO32 -> Z.of_nat n <= hi ->
  wp (reserve n) (fun ok s' =>
    accounted n (next_slots t n) s s' /\ same_caps t (tbl s') /\
    if (ok : bool) then charged (tbl s') = charged t + Z.of_nat n /\
      exists l, length l = n /\ items (booked (tbl s')) = items (booked t) ++ l
    else charged (tbl s') = charged t /\ items (booked (tbl s')) = items (booked t)) s.
Proof using Hready.
  intros Hlt Hn. destruct Hready as [Hinv Ha]. simpl in *. pose proof (charged_nonneg t).
  unfold reserve. wp_step. apply wp_booked_try_reserve. intros ok cap h Hok.
  set (t0 := set_booked (Vec (items (booked t)) cap) t).
  assert (kept 0 [] 0 t t0) as Hk0.
  { eapply (kept_pool t); try done; unfold pool, vec_len; simpl; try done; lia. }
  destruct ok; simpl; [specialize (Hok eq_refl) | wp_step; split; [| done]; exists 0; split; [| by apply billed_refl]].
  2: { simpl. eapply kept_weaken; [exact Hk0 | lia | set_solver | done]. }
  wp_step. wp_step. simpl. wp_step.
  eapply wp_mono; [apply (wp_book_slots n (vec_len (booked t0)) t0); [apply Hk0 | done | done | done] |].
  intros ok [t1 w1] (Hh1 & Hsame1 & H1). change ((∀ i, 0 <= i -> slot_at t1 i ≫= slot_cap = slot_at t i ≫= slot_cap)) in Hsame1. change (next_slots t0 n) with (next_slots t n) in H1.
  assert (only_heap w w1) as Hheap by (destruct Hh1 as [[] ?]; by split).
  assert (billed (table_domain t) 0 w w1) as Hb1 by (by apply only_heap_billed).
  destruct ok; destruct H1 as [Hk1 Hb1']; simpl.
  - assert (kept n (next_slots t n) (Z.of_nat n) t t1) as Hk.
    { eapply kept_trans; [exact Hk0 | exact Hk1 | lia | set_solver | done | lia]. }
    assert (table_domain t1 = table_domain t) as Hd1 by apply Hk.
    pose proof (affords_billed _ _ _ _ _ _ Ha Hb1) as Ha1.
    destruct (table_domain t) as [d |] eqn:Ed.
    + wp_step. apply wp_on_world. eapply wp_mono; [eapply (wp_charge_handles d n 0); [exact Ha1 | lia | lia] |].
      intros ok w2 Hb2. destruct ok.
      * wp_step. split; [| split; [done |]; split; [apply Hk | done]]. exists (Z.of_nat n). split; [done |]. unfold s. simpl. rewrite Ed.
        eapply billed_trans; [exact Ha | exact Hb1 | exact Hb2 | lia].
      * destruct Hb1' as (l & Hl & Hbl). wp_step.
        assert (vec_len (booked t1) = vec_len (booked t) + n)%nat as Hlen1
          by (unfold vec_len; rewrite Hbl, length_app; simpl; lia).
        eapply wp_mono; [apply wp_unbook; [apply Hk | rewrite Hlen1; unfold t0, vec_len; simpl; lia] |].
        intros [] [t2 w3] (-> & Hk2 & Hsl2 & Hbk2). wp_step.
        assert (kept n (next_slots t n) 0 t t2) as Hk'.
        { eapply kept_trans; [exact Hk | exact Hk2 | lia | done | set_solver |].
          rewrite Hlen1. unfold t0, vec_len. simpl. lia. }
        split; [| split; [intros i Hi; unfold slot_at; cbn [tbl]; rewrite Hsl2; by apply Hsame1 | split]].
        -- exists 0. split; [done |]. unfold s. simpl. rewrite Ed. eapply billed_trans; [exact Ha | exact Hb1 | exact Hb2 | lia].
        -- pose proof (kept_charged _ _ _ _ _ Hk') as Hch. simpl in Hch |- *. lia.
        -- simpl. rewrite Hbk2, Hbl. simpl. by apply take_app_length.
    + wp_step. split; [| split; [done |]; split; [apply Hk | done]]. exists (Z.of_nat n). split; [done |]. unfold s. simpl. rewrite Ed. simpl.
      destruct Hheap. by split.
  - wp_step. assert (kept n (next_slots t n) 0 t t1) as Hk.
    { eapply kept_trans; [exact Hk0 | exact Hk1 | lia | set_solver | done | lia]. }
    split; [exists 0; by split |]. split; [done |]. split; [pose proof (kept_charged _ _ _ _ _ Hk) as Hch; simpl in Hch |- *; lia |].
    simpl. rewrite Hb1'. simpl. apply firstn_all.
Qed.

(** A booked insertion always succeeds: on an open table the capability is in. *)
Lemma wp_insert_reserved cap l i :
  items (booked t) = l ++ [i] ->
  wp (insert_reserved cap) (fun h s' =>
    items (booked (tbl s')) = l /\
    if closed t then h = 0 /\ accounted 0 [] s s' /\ charged (tbl s') = charged t - 1
    else minted t (tbl s') h cap /\ accounted 0 [handle_index h] s s' /\
      handle_index h = i /\ charged (tbl s') = charged t) s.
Proof using Hready.
  intros Hl. destruct Hready as [Hinv Ha]. simpl in *.
  assert (pool t ≡ₚ i :: items (free t) ++ l) as Hpool.
  { unfold pool. rewrite Hl. apply app_snoc_perm. }
  unfold insert_reserved. wp_steps. simpl. destruct (closed t) eqn:Ecl.
  - wp_step. apply wp_drop_cap. wp_step.
    apply wp_booked_pop; [intros Hnil; rewrite Hl in Hnil; by destruct l |].
    intros l' i' Hl'. rewrite Hl in Hl'. apply app_inj_tail in Hl' as [<- <-].
    set (t1 := set_booked (Vec l (capacity (booked t))) t).
    assert (kept 0 [] (-1) t t1) as Hk.
    { eapply (kept_pool t); try done.
      - rewrite Hpool. unfold pool. simpl. by apply submseteq_cons.
      - unfold vec_len. simpl. rewrite Hl, length_app. simpl. lia. }
    pose proof (charged_nonneg t1). pose proof (kept_charged _ _ _ _ _ Hk).
    wp_step. eapply (wp_refund 1); [exact Ha | lia |]. intros w' Hb _. wp_step.
    split; [done |]. split; [done |]. split; [| simpl; lia].
    exists (-1). split; [done |]. eapply billed_trans; [exact Ha | apply emit_billed | exact Hb | lia].
  - wp_step. apply wp_booked_pop; [intros Hnil; rewrite Hl in Hnil; by destruct l |].
    intros l' i' Hl'. rewrite Hl in Hl'. apply app_inj_tail in Hl' as [<- <-].
    destruct (pool_slot t i Hinv) as (Hi & sl & Hs & Hid & [_ Hg]); [rewrite Hpool; set_solver |].
    wp_step. eapply wp_index_slot; [exact Hs |]. wp_step. apply wp_put_slot. wp_step. split; [done |].
    edestruct (occupy t) as [Hm Hk]; [done | exact Hs | ..]; last first.
    + split; [exact Hm |]. split; [exists 0; split; [exact Hk | by apply billed_refl] |].
      split; [apply handle_index_new; unfold u32_range; lia |].
      pose proof (kept_charged _ _ _ _ _ Hk) as Hch. simpl in Hch |- *. lia.
    + simpl. unfold vec_len. simpl. rewrite Hl, length_app. simpl. lia.
    + done.
    + done.
    + done.
    + done.
    + exact Hpool.
Qed.

Lemma wp_release_reservation n :
  (n <= vec_len (booked t))%nat ->
  wp (release_reservation n) (fun _ s' =>
    accounted 0 [] s s' /\ charged (tbl s') = charged t - Z.of_nat n /\
    items (booked (tbl s')) = list.take (vec_len (booked t) - n) (items (booked t))) s.
Proof using Hready.
  intros Hn. destruct Hready as [Hinv Ha]. simpl in *.
  unfold release_reservation. wp_steps. simpl. rewrite Nat.min_l by done.
  eapply wp_mono; [apply wp_unbook; [done | lia] |]. intros [] [t1 w1] (-> & Hk & _ & Hb).
  pose proof (charged_nonneg t1). pose proof (kept_charged _ _ _ _ _ Hk).
  eapply (wp_refund (Z.of_nat n)); [rewrite (kept_domain _ _ _ _ _ Hk); exact Ha | lia |].
  intros w' Hbl _. rewrite (kept_domain _ _ _ _ _ Hk) in Hbl.
  split; [| split; [simpl; lia | done]]. exists (- Z.of_nat n). split; [| done].
  eapply kept_weaken; [exact Hk | done | done | lia].
Qed.

End reservations.
