(* ===== verification/HandleClose.v ===== *)
(** [HandleTable::close_all] and [drop]: every capability the table holds is
    dropped, every handle it gave out is dead, what is booked or in flight stays
    charged, and the account gives back exactly one handle per capability. *)

From S2P Require Import Prelude Object Domain DomainFacts Handle HandleFacts HandleOps.

(** An idle slot that is not at the end of its generations joins the pool. *)
Lemma kept_join t i s :
  table_inv t -> 0 <= i -> slot_at t i = Some s -> idle s -> slot_generation s <> U32_MAX ->
  i ∉ pool t ->
  kept 0 [] 0 t (set_free (Vec (items (free t) ++ [i]) (capacity (free t))) t).
Proof.
  intros [Hp Hsl Hw Hr] Hi Hs Hid Hg Hnin. fold (pool t) in Hp.
  assert (pool (set_free (Vec (items (free t) ++ [i]) (capacity (free t))) t) ≡ₚ i :: pool t) as Hpool
    by apply snoc_app_perm.
  split; try done; [| | simpl; lia | unfold charged; simpl; lia].
  - split; try done. fold (pool (set_free (Vec (items (free t) ++ [i]) (capacity (free t))) t)).
    rewrite Hpool. by apply pool_add with s.
  - intros j sj Hj Hsj. exists sj. split; [done |]. split; [lia |]. intros (Hgj & Hidj & Hnj).
    split; [done |]. split; [done |]. rewrite Hpool, not_elem_of_cons. split; [| done].
    intros ->. by simplify_eq.
Qed.

(** Where [close_all] is after the slots below [k], from the cleared table [tc]. *)
Record closing (tc : HandleTable) (w : World) (k : Z) (c : Z) (s : TW) : Prop := {
  closing_kept : kept 0 (seqZ 0 k) (- c) tc (tbl s);
  closing_booked : booked (tbl s) = booked tc;
  closing_free : forall i, i ∈ items (free (tbl s)) -> i < k;
  closing_done : forall i sl cap, 0 <= i < k -> slot_at tc i = Some sl -> slot_cap sl = Some cap ->
    exists sl', slot_at (tbl s) i = Some sl' /\
      (slot_generation sl < slot_generation sl' \/ retired (tbl s) i sl');
  closing_empty : forall i sl, 0 <= i < k -> slot_at (tbl s) i = Some sl -> slot_cap sl = None;
  closing_count : c = count is_live (list.take (Z.to_nat k) (items (slots tc)));
  closing_world : exists es, wld s = foldl (fun w e => emit_in e w) w es /\
    es = (fun o => DropRef o) <$>
      omap (fun sl => cap_object <$> slot_cap sl) (list.take (Z.to_nat k) (items (slots tc)));
}.

Lemma closing_next tc w k c d s t' e :
  0 <= k -> closing tc w k c s -> kept 0 [k] (- d) (tbl s) t' -> booked t' = booked (tbl s) ->
  (forall i, i ∈ items (free t') -> i = k \/ i ∈ items (free (tbl s))) ->
  (forall sl, slot_at t' k = Some sl -> slot_cap sl = None) ->
  forall sl, slot_at (tbl s) k = Some sl ->
  (forall cap, slot_cap sl = Some cap -> exists sl', slot_at t' k = Some sl' /\
      (slot_generation sl < slot_generation sl' \/ retired t' k sl')) ->
  e = match slot_cap sl with Some cap => [DropRef (cap_object cap)] | None => [] end ->
  d = (if is_live sl then 1 else 0) ->
  closing tc w (k + 1) (c + d) (mkTW t' (foldl (fun w e => emit_in e w) (wld s) e)).
Proof.
  intros Hk [Hkept Hbk Hfree Hdone Hempty Hcount (es & Hw & Hes)] Hk' Hbk' Hfree' Hempty' sl Hsl Hdead -> Hd.
  assert (slot_at tc k = Some sl) as Hslc.
  { rewrite <- Hsl. symmetry. apply Hkept; [lia |]. rewrite elem_of_seqZ. lia. }
  split; cbn [tbl wld].
  - eapply kept_trans; [exact Hkept | exact Hk' | lia | | | lia];
      intros i; rewrite ?elem_of_cons, !elem_of_seqZ; [lia |]. intros [-> | []%elem_of_nil]. lia.
  - congruence.
  - intros i Hi. destruct (Hfree' i Hi) as [-> | Hi']; [lia |]. specialize (Hfree i Hi'). lia.
  - intros i sli cap Hi Hsli Hcap. destruct (decide (i = k)) as [-> | Hne].
    + simplify_eq. by apply Hdead with cap.
    + destruct (Hdone i sli cap) as (sl1 & Hsl1 & Hgone); [lia | done | done |].
      destruct (kept_progress _ _ _ _ _ Hk' i sl1) as (sl2 & Hsl2 & Hg & Hr); [lia | done |].
      exists sl2. split; [done |]. destruct Hgone; [left; lia | right; auto].
  - intros i sli Hi Hsli. destruct (decide (i = k)) as [-> | Hne]; [auto |].
    apply (Hempty i); [lia |]. rewrite <- Hsli. symmetry. apply Hk'; [lia |].
    rewrite elem_of_cons. intros [-> | []%elem_of_nil]. done.
  - replace (Z.to_nat (k + 1)) with (S (Z.to_nat k)) by lia.
    rewrite (take_S_r _ _ _ Hslc), count_snoc. lia.
  - exists (es ++ match slot_cap sl with Some cap => [DropRef (cap_object cap)] | None => [] end).
    rewrite foldl_app, <- Hw. split; [done |].
    replace (Z.to_nat (k + 1)) with (S (Z.to_nat k)) by lia.
    rewrite (take_S_r _ _ _ Hslc), omap_app, fmap_app, Hes. f_equal. simpl.
    by destruct (slot_cap sl).
Qed.

Lemma wp_close_all_slot tc w k c s :
  0 <= k < Z.of_nat (vec_len (slots tc)) -> closing tc w k c s ->
  wp (close_all_slot k) (fun had s' => closing tc w (k + 1) (if (had : bool) then c + 1 else c) s') s.
Proof.
  intros Hk Hc. destruct s as [t w1]. pose proof Hc as [Hkept Hbk Hfree _ _ _ _]. simpl in *.
  pose proof (kept_inv _ _ _ _ _ Hkept) as Hinv.
  assert (exists sl, slot_at t k = Some sl) as [sl Hsl].
  { apply lookup_lt_is_Some. pose proof (kept_len _ _ _ _ _ Hkept). unfold vec_len in *. lia. }
  pose proof (slot_at_ok _ _ _ Hinv Hsl) as [Hres Hg].
  unfold close_all_slot. wp_steps. eapply wp_index_slot; [exact Hsl |]. simpl.
  assert (slot_cap sl = None -> closing tc w (k + 1) c (mkTW t w1)) as Hskip.
  { intros Hnone. replace c with (c + 0) by lia.
    eapply (closing_next _ _ _ _ 0 _ t []) in Hc; try done; try lia.
    - by apply kept_refl.
    - auto.
    - intros. by simplify_eq.
    - congruence.
    - by rewrite Hnone.
    - unfold is_live. by rewrite Hnone. }
  destruct (slot_reserved sl) eqn:Er; simpl; [wp_step; apply Hskip, Hres, eq_refl |].
  case_bool_decide as Hb; [wp_step; apply Hskip |].
  { destruct (pool_slot t k Hinv) as (_ & sl' & Hsl' & [? _] & _); [unfold pool; set_solver | congruence]. }
  assert (k ∉ pool t) as Hnin.
  { unfold pool. rewrite elem_of_app. intros [Hf | Hf]; [| done]. specialize (Hfree k Hf). lia. }
  destruct (slot_cap sl) as [cap |] eqn:Ecap.
  - wp_step. apply wp_drop_cap. unfold checked_add.
    assert (~ idle sl) as Hbusy by (apply live_busy; unfold is_live; by rewrite Ecap).
    assert (weight sl = 1) as Hwt by (unfold weight, is_live; by rewrite Ecap, Er).
    assert (forall s', slot_at (set_slots (Vec (<[Z.to_nat k := s']> (items (slots t))) (capacity (slots t))) t) k = Some s') as Hput.
    { intros s'. unfold slot_at. simpl. apply list_lookup_insert_eq. by eapply lookup_lt_Some. }
    destruct (Z.leb_spec (slot_generation sl + 1) U32_MAX); wp_step; apply wp_put_slot.
    + wp_step. apply wp_free_push; [apply (room_for t k sl); try done; lia |]. wp_step.
      eapply (closing_next _ _ _ _ 1 _ _ [DropRef (cap_object cap)] (proj1 Hk) Hc); cbn [tbl].
      * eapply (kept_in t) with (s := sl) (s' := mkSlot None (slot_generation sl + 1) (slot_reserved sl));
          try done; try (simpl; lia).
        -- split; simpl; [done | lia].
        -- apply snoc_app_perm.
      * done.
      * simpl. intros i. rewrite elem_of_app, list_elem_of_singleton. tauto.
      * intros sl' Hsl'. pose proof (eq_trans (eq_sym (Hput _)) Hsl'). by simplify_eq.
      * exact Hsl.
      * intros _ _. eexists. split; [apply Hput |]. left. simpl. lia.
      * by rewrite Ecap.
      * unfold is_live. by rewrite Ecap.
    + wp_step. eapply (closing_next _ _ _ _ 1 _ _ [DropRef (cap_object cap)] (proj1 Hk) Hc); cbn [tbl].
      * eapply (kept_busy t) with (s := sl) (s' := mkSlot None U32_MAX (slot_reserved sl));
          try done; try (simpl; lia).
        rewrite Hwt. unfold weight, vec_len. simpl. rewrite Er. lia.
      * done.
      * auto.
      * intros sl' Hsl'. pose proof (eq_trans (eq_sym (Hput _)) Hsl'). by simplify_eq.
      * exact Hsl.
      * intros _ _. eexists. split; [apply Hput |]. right. done.
      * by rewrite Ecap.
      * unfold is_live. by rewrite Ecap.
  - destruct (Z.eqb_spec (slot_generation sl) U32_MAX); wp_step; [by apply Hskip |].
    apply wp_free_push; [apply (room_for t k sl); try done; lia |]. wp_step.
    replace c with (c + 0) by lia.
    eapply (closing_next _ _ _ _ 0 _ _ [] (proj1 Hk) Hc); cbn [tbl].
    + eapply kept_weaken; [by apply (kept_join t k sl); try done; lia | lia | set_solver | done].
    + done.
    + simpl. intros i. rewrite elem_of_app, list_elem_of_singleton. tauto.
    + intros sl' Hsl'. unfold slot_at in *. simpl in *. by simplify_eq.
    + exact Hsl.
    + congruence.
    + by rewrite Ecap.
    + unfold is_live. by rewrite Ecap.
Qed.

Lemma wp_close_all_loop tc w m k c s :
  0 <= k -> k + Z.of_nat m = Z.of_nat (vec_len (slots tc)) -> closing tc w k c s ->
  wp (close_all_loop (seqZ k (Z.of_nat m)) c)
    (fun n s' => closing tc w (Z.of_nat (vec_len (slots tc))) n s') s.
Proof.
  revert k c s. induction m as [| m IH]; intros k c s Hk Hm Hc.
  - rewrite seqZ_nil by lia. cbn [close_all_loop]. wp_step. by replace (Z.of_nat (vec_len (slots tc))) with k by lia.
  - rewrite seqZ_cons by lia. cbn [close_all_loop]. wp_step.
    eapply wp_mono; [apply (wp_close_all_slot tc w k c s); [lia | exact Hc] |]. intros had s' Hc'.
    replace (Z.pred (Z.of_nat (S m))) with (Z.of_nat m) by lia. apply IH; [lia | lia | done].
Qed.

Lemma count_none (t : HandleTable) :
  (forall i sl, 0 <= i -> slot_at t i = Some sl -> slot_cap sl = None) ->
  count is_live (items (slots t)) = 0.
Proof.
  intros H. rewrite (count_ext _ (fun _ => false)).
  - induction (items (slots t)); [done |]. rewrite count_cons. lia.
  - intros sl [i Hi]%list_elem_of_lookup. unfold is_live. rewrite (H (Z.of_nat i) sl); [done | lia |].
    unfold slot_at. by rewrite Nat2Z.id.
Qed.

(** The world with effects appended. *)
Lemma foldl_emit w es :
  let w' := foldl (fun w e => emit_in e w) w es in
  world_frame w w' /\ domains w' = domains w /\ effects w' = effects w ++ es.
Proof.
  revert w. induction es as [| e es IH]; intros w; simpl; [by rewrite app_nil_r |].
  destruct (IH (emit_in e w)) as (Hf & Hd & He). split; [etrans; [| exact Hf]; by split |].
  split; [by rewrite Hd |]. rewrite He. simpl. by rewrite <- app_assoc.
Qed.

Lemma wp_close_all t w hi :
  ready hi (mkTW t w) ->
  wp close_all (fun _ s' =>
    accounted 0 (seqZ 0 (Z.of_nat (vec_len (slots t)))) (mkTW (set_closed true t) w) s' /\
    (forall i sl, 0 <= i -> slot_at (tbl s') i = Some sl -> slot_cap sl = None) /\
    (forall h cap, cap_of t h = Ok cap -> dead (tbl s') h) /\
    booked (tbl s') = booked t /\ charged (tbl s') = charged t - table_len t /\
    effects (wld s') = effects w ++ (DropRef <$> for_each_object t)) (mkTW t w).
Proof.
  intros [Hinv Ha]. simpl in *. unfold close_all. wp_step. apply wp_modify_tbl. wp_step.
  apply wp_modify_tbl. wp_steps. simpl.
  set (tc := set_free (vec_clear (free t)) (set_closed true t)).
  assert (kept 0 [] 0 (set_closed true t) tc) as Hk0.
  { eapply (kept_pool (set_closed true t)); try done.
    - destruct Hinv. by split.
    - unfold pool. simpl. by apply submseteq_inserts_l.
    - simpl; lia. }
  eapply wp_mono; [apply (wp_close_all_loop tc w (vec_len (slots t)) 0 0); [done | done |] |].
  { split; cbn [tbl wld]; try done; try (intros; lia).
    - apply kept_refl, Hk0.
    - simpl. intros i Hi. set_solver.
    - exists []. done. }
  intros n [t' w'] [Hk Hbk _ Hdone Hempty Hcount (es & Hw & Hes)]. cbn [tbl wld] in *. subst w'.
  destruct (foldl_emit w es) as (Hf & Hd & He). set (w' := foldl _ w es) in *.
  assert (forall i sl, 0 <= i -> slot_at t' i = Some sl -> slot_cap sl = None) as Hnone.
  { intros i sl Hi Hsl. apply (Hempty i); [| done]. split; [done |]. apply lookup_lt_Some in Hsl.
    pose proof (kept_len _ _ _ _ _ Hk). unfold vec_len in *. lia. }
  assert (kept 0 (seqZ 0 (Z.of_nat (vec_len (slots t)))) (- n) (set_closed true t) t') as Hkt.
  { eapply kept_trans; [exact Hk0 | exact Hk | lia | set_solver | done | lia]. }
  assert (es = DropRef <$> for_each_object t) as ->.
  { rewrite Hes, Nat2Z.id. unfold for_each_object, vec_len. simpl. by rewrite firstn_all. }
  assert (n = table_len t) as ->.
  { rewrite Hcount, Nat2Z.id. unfold table_len, vec_len. simpl. by rewrite firstn_all. }
  assert (forall h cap, cap_of t h = Ok cap -> dead t' h) as Hdead.
  { intros h cap Hcap. destruct (cap_of_ok _ _ _ Hcap) as (sl & Hsl & Hc & Hg).
    destruct (Hdone (handle_index h) sl cap) as (sl' & Hsl' & Hd'); try done.
    - pose proof (handle_index_range h) as Hr. unfold u32_range in Hr. apply lookup_lt_Some in Hsl.
      unfold vec_len in *. simpl. lia.
    - exists sl'. split; [done |]. by rewrite <- Hg. }
  pose proof (kept_charged _ _ _ _ _ Hkt) as Hch. change (charged (set_closed true t)) with (charged t) in Hch.
  pose proof (charged_nonneg t'). pose proof (count_nonneg is_live (items (slots t))).
  destruct (Z.ltb_spec 0 (table_len t)) as [Hpos | Hzero].
  - eapply (wp_refund (table_len t)) with (lo := charged t) (hi := hi).
    + rewrite (kept_domain _ _ _ _ _ Hkt). simpl. unfold affords. rewrite Hd. exact Ha.
    + lia.
    + intros w2 Hb2 He2. rewrite (kept_domain _ _ _ _ _ Hkt) in Hb2. cbn [tbl wld]. rewrite He2.
      split; [| split; [done |]; split; [done |]; split; [done |]; split; [lia | done]].
      exists (- table_len t). split; [done |].
      eapply billed_trans; [exact Ha | apply billed_refl; [exact Hf | exact Hd] | exact Hb2 | lia].
  - wp_step. cbn [tbl wld]. unfold table_len in *.
    split; [| split; [done |]; split; [done |]; split; [done |]; split; [lia | done]].
    exists (- count is_live (items (slots t))). split; [done |].
    replace (- count is_live (items (slots t))) with 0 by lia. by apply billed_refl.
Qed.
