(* ===== verification/HandleProps.v ===== *)
(** The promises of the handle table, as theorems: over every sequence of
    operations and revocations the table never takes the kernel down, keeps its
    invariant and is accounted to the handle; a dead handle stays dead; rights
    never grow; a reservation cannot fail; and a transfer undone is a transfer
    that never happened. *)

From S2P Require Import Prelude Object Domain DomainFacts Handle HandleFacts HandleOps HandleReserve HandleClose.

(** ** The table as a transition system *)

Inductive TableOp :=
| OpInsert (cap : Capability)
| OpTryInsert (cap : Capability)
| OpReserve (n : nat)
| OpInsertReserved (cap : Capability)
| OpReleaseReservation (n : nat)
| OpDuplicate (h : Handle) (rights : Z)
| OpTake (h : Handle) (rights : Z)
| OpTakeForTransfer (h : Handle) (rights : Z)
| OpCommitTaken (h : Handle)
| OpAbandonTaken (h : Handle)
| OpRestoreTaken (h : Handle) (cap : Capability)
| OpClose (h : Handle)
| OpCloseAll
| OpRevoke (k : Koid).

Definition set_generations (g : gmap Koid Z) (w : World) : World :=
  mkWorld (domains w) g (live w) (next_koid w) (next_message_id w) (heap_of w) (effects w).

(** One operation; [OpRevoke] is the rest of the machine revoking an object. *)
Definition run_op (op : TableOp) : M TW unit :=
  match op with
  | OpInsert cap => insert cap ;; mret tt
  | OpTryInsert cap => try_insert cap ;; mret tt
  | OpReserve n => reserve n ;; mret tt
  | OpInsertReserved cap => insert_reserved cap ;; mret tt
  | OpReleaseReservation n => release_reservation n
  | OpDuplicate h r => duplicate h r ;; mret tt
  | OpTake h r => take h r ;; mret tt
  | OpTakeForTransfer h r => take_for_transfer h r ;; mret tt
  | OpCommitTaken h => commit_taken h
  | OpAbandonTaken h => abandon_taken h
  | OpRestoreTaken h cap => restore_taken h cap
  | OpClose h => close h ;; mret tt
  | OpCloseAll => close_all
  | OpRevoke k => on_world (modify (fun w => set_generations (revoke k (generations w)) w))
  end.

(** The contract of each operation: growth stays within 32-bit indices, a booked
    insertion follows a reservation, and a transfer is resolved once. *)
Definition allowed (op : TableOp) (t : HandleTable) : Prop :=
  match op with
  | OpInsert _ | OpTryInsert _ | OpDuplicate _ _ => Z.of_nat (vec_len (slots t)) < TWO32
  | OpReserve n => Z.of_nat (vec_len (slots t)) + Z.of_nat n <= TWO32
  | OpInsertReserved _ => items (booked t) <> []
  | OpReleaseReservation n => (n <= vec_len (booked t))%nat
  | OpCommitTaken h | OpAbandonTaken h | OpRestoreTaken h _ => pending t h
  | _ => True
  end.

(** What every operation leaves behind. *)
Record settled (s s' : TW) : Prop := {
  settled_inv : table_inv (tbl s');
  settled_domain : table_domain (tbl s') = table_domain (tbl s);
  settled_progress : progress (tbl s) (tbl s');
  settled_account :
    match table_domain (tbl s) with
    | Some d => shifted Handles (chain_of (domains (wld s)) d)
                  (charged (tbl s') - charged (tbl s)) (domains (wld s)) (domains (wld s'))
    | None => domains (wld s') = domains (wld s)
    end;
}.

Lemma accounted_settled n X s s' : accounted n X s s' -> settled s s'.
Proof.
  intros (delta & Hk & Hf & Hb). split; [apply Hk.. |].
  rewrite (kept_charged _ _ _ _ _ Hk). destruct (table_domain (tbl s)); [| done].
  by replace (charged (tbl s) + delta - charged (tbl s)) with delta by lia.
Qed.

#[export] Hint Resolve accounted_settled : kernel.

Lemma wp_discard {S A} (m : M S A) (Q : S -> Prop) s :
  wp m (fun _ s' => Q s') s -> wp (m ;; mret tt) (fun _ s' => Q s') s.
Proof. intros H. wp_step. eapply wp_mono; [exact H |]. intros. by wp_step. Qed.

Lemma run_op_settled op t w :
  ready TWO32 (mkTW t w) -> allowed op t ->
  wp (run_op op) (fun _ s' => settled (mkTW t w) s') (mkTW t w).
Proof.
  intros Hr Ha. pose proof (ready_inv _ _ Hr) as Hinv.
  destruct op; simpl in Ha |- *; try apply wp_discard.
  - eapply wp_mono; [by eapply wp_insert |]. intros ? ? [(? & ? & ?) | (? & ? & ?)]; eauto with kernel.
  - eapply wp_mono; [by eapply wp_try_insert |]. intros [?|] ? [? ?]; [| eauto with kernel].
    naive_solver eauto with kernel.
  - eapply wp_mono; [eapply wp_reserve; [done | done | lia] |]. intros ? ? [? _]. eauto with kernel.
  - destruct (items (booked t)) as [| i l _] eqn:E using rev_ind; [done |].
    eapply wp_mono; [by eapply wp_insert_reserved |]. intros h s' [_ H].
    destruct (closed t); naive_solver eauto with kernel.
  - eapply wp_mono; [by eapply wp_release_reservation |]. intros ? ? [? _]. eauto with kernel.
  - eapply wp_mono; [by eapply wp_duplicate |]. intros [h' |] ? H; naive_solver eauto with kernel.
  - eapply wp_mono; [by eapply wp_take |]. intros [cap | e] s' H; [naive_solver eauto with kernel |].
    destruct H as [-> _]. eapply accounted_settled, (accounted_refl 0 []). done.
  - eapply wp_mono; [by eapply wp_take_for_transfer |].
    intros [cap | e] s' H; [naive_solver eauto with kernel |].
    destruct H as [-> _]. eapply accounted_settled, (accounted_refl 0 []). done.
  - eapply wp_mono; [by eapply wp_resolve_taken |]. intros ? ? [? _]. eauto with kernel.
  - eapply wp_mono; [by eapply wp_resolve_taken |]. intros ? ? [? _]. eauto with kernel.
  - eapply wp_mono; [by eapply wp_restore_taken |]. intros ? ? [? _]. eauto with kernel.
  - eapply wp_mono; [by eapply wp_close |]. intros [u | e] s' H; [naive_solver eauto with kernel |].
    destruct H as (_ & -> & _). eapply accounted_settled, (accounted_refl 0 []). done.
  - eapply wp_mono; [by eapply wp_close_all |]. intros ? s' [H _].
    destruct (accounted_settled _ _ _ _ H). by split.
  - apply wp_on_world, wp_modify. split; try done. simpl. destruct (table_domain t) as [d |]; [| done].
    rewrite Z.sub_diag. apply shifted_refl.
Qed.

(** ** A table from its creation on *)

(** Distinct indices whose slots pass a test are at most as many as such slots. *)
Lemma indices_le_count (p : Slot -> bool) ss l :
  NoDup l -> (forall i, i ∈ l -> 0 <= i /\ exists s, ss !! Z.to_nat i = Some s /\ p s = true) ->
  (forall s, exists s', p s = true -> p s' = false) ->
  Z.of_nat (length l) <= count p ss.
Proof.
  intros Hnd Hl Hp. revert ss Hl. induction Hnd as [| i l Hi Hnd IH]; intros ss Hl.
  - pose proof (count_nonneg p ss). simpl. lia.
  - destruct (Hl i) as (Hi0 & s & Hs & Hps); [set_solver |]. destruct (Hp s) as [s' Hs'].
    specialize (Hs' Hps). specialize (IH (<[Z.to_nat i := s']> ss)).
    rewrite (count_insert _ _ _ _ _ Hs), Hps, Hs' in IH. simpl.
    assert (Z.of_nat (length l) <= count p ss - 1 + 0); [| lia]. apply IH. intros j Hj.
    destruct (Hl j) as (Hj0 & sj & Hsj & ?); [set_solver |]. split; [done |]. exists sj.
    rewrite list_lookup_insert_ne; [done |]. intros Heq. apply Hi. by replace i with j by lia.
Qed.

(** A table never charges more than it has slots. *)
Lemma charged_le t : table_inv t -> charged t <= Z.of_nat (vec_len (slots t)).
Proof.
  intros [[Hnd Hp] Hsl _ _].
  pose (p := fun s => negb (is_live s) && negb (slot_reserved s)).
  assert (Z.of_nat (vec_len (booked t)) <= count p (items (slots t))) as Hb.
  { apply indices_le_count.
    - by apply NoDup_app in Hnd as (_ & _ & ?).
    - intros i Hi. destruct (Hp i) as (? & s & Hs & Hc & Hr); [set_solver |]. split; [done |].
      exists s. split; [done |]. unfold p, is_live. by rewrite Hc, Hr.
    - intros s. by exists (mkSlot None 0 true). }
  enough (count is_live (items (slots t)) + count slot_reserved (items (slots t))
          + count p (items (slots t)) <= Z.of_nat (length (items (slots t)))) by (unfold charged, vec_len in *; lia).
  clear Hb Hp Hnd. induction Hsl as [| s ss [Hres _] _ IH]; [done |]. rewrite !count_cons. simpl length.
  unfold p at 1, is_live at 1 3. destruct (slot_reserved s); [rewrite Hres by done; simpl; lia |].
  destruct (slot_cap s); simpl; lia.
Qed.

(** [runs s ops s']: the operations [ops], each within its contract, take [s] to [s']. *)
Inductive runs (s : TW) : list TableOp -> TW -> Prop :=
| runs_nil : runs s [] s
| runs_snoc ops op s1 s2 :
    runs s ops s1 -> allowed op (tbl s1) -> run_op op s1 = Some (tt, s2) -> runs s (ops ++ [op]) s2.

(** What a table reaches from its creation in the Domain [d] of [w0]. *)
Definition reachable (d : Koid) (w0 : World) (ops : list TableOp) (s : TW) : Prop :=
  runs (mkTW (set_domain d table_new) w0) ops s.

Lemma runs_trans s ops s1 ops' s2 : runs s ops s1 -> runs s1 ops' s2 -> runs s (ops ++ ops') s2.
Proof.
  intros H1 H2. induction H2 as [| ops' op s2 s3 H2 IH Ha Hr]; [by rewrite app_nil_r |].
  rewrite app_assoc. by eapply runs_snoc.
Qed.

(** The account of [d] holds at least [0] handles and is not near 2{^64}. *)
Definition fresh_account (d : Koid) (w0 : World) : Prop := pays Handles d 0 (2 * TWO32) (domains w0).

Lemma table_new_inv d : table_inv (set_domain d table_new).
Proof. split; unfold vec_len; simpl; try done; try lia. split; [constructor | set_solver]. Qed.

Lemma charged_new d : charged (set_domain d table_new) = 0.
Proof. done. Qed.

Lemma reachable_settled d w0 ops s :
  fresh_account d w0 -> reachable d w0 ops s -> settled (mkTW (set_domain d table_new) w0) s /\ ready TWO32 s.
Proof.
  intros Hacc Hr. induction Hr as [| ops op s s' Hr [IHs IHr] Hallowed Hrun].
  - split.
    + eapply accounted_settled, (accounted_refl 0 []). apply table_new_inv.
    + split; [apply table_new_inv |]. simpl. rewrite charged_new. eapply pays_weaken; [exact Hacc | lia | lia].
  - destruct s as [t w]. pose proof (run_op_settled op t w IHr Hallowed) as Hwp.
    unfold wp in Hwp. rewrite Hrun in Hwp. destruct IHs as [? Hd Hpr Ha], Hwp as [Hinv' Hd' Hpr' Ha'].
    simpl in *. rewrite Hd in Ha', Hd'. simpl in *.
    destruct (pays_shifted _ _ _ _ _ _ _ Hacc Ha) as [_ Hch]. rewrite Hch in Ha'.
    assert (shifted Handles (chain_of (domains w0) d) (charged (tbl s') - 0) (domains w0) (domains (wld s'))) as Hs'.
    { eapply shifted_trans; [exact Ha | exact Ha' |]. rewrite charged_new. lia. }
    split; [split; try done; by etrans |]. split; [done |]. rewrite Hd'. simpl.
    destruct (pays_shifted _ _ _ _ _ _ _ Hacc Hs') as [Hp' _].
    eapply pays_weaken; [exact Hp' | lia |]. pose proof (charged_le _ Hinv'). destruct Hinv'. lia.
Qed.

(** C7: Over every sequence of its operations and of revocations, a handle table
    never takes the kernel down: in any state it reaches, any operation whose
    contract holds returns. Its invariant holds in that state, and the handle
    usage of its Domain and of every ancestor is what it was at the table's
    creation plus exactly what the table charges. *)
Theorem table_safe_and_accounted d w0 ops s op :
  fresh_account d w0 -> reachable d w0 ops s -> allowed op (tbl s) ->
  table_inv (tbl s) /\
  (forall a, a ∈ chain_of (domains w0) d ->
     usage Handles (domains (wld s)) a = (fun u => u + charged (tbl s)) <$> usage Handles (domains w0) a) /\
  exists s', run_op op s = Some (tt, s').
Proof.
  intros Hacc Hr Hallowed. destruct (reachable_settled _ _ _ _ Hacc Hr) as [[Hinv Hd _ Ha] Hready].
  split; [done |]. split.
  - intros a Hin. simpl in Ha. rewrite (shifted_usage _ _ _ _ _ Ha). destruct (usage _ _ _); simpl; [| done].
    f_equal. rewrite decide_True, charged_new by done. lia.
  - destruct s as [t w]. destruct (wp_run _ _ _ (run_op_settled op t w Hready Hallowed)) as ([] & s' & ? & _). eauto.
Qed.

(** A root Domain with room for eight handles, and a heap that grants everything. *)
Definition sample_world : World :=
  mkWorld {[1 := mkDomain (account_new UNLIMITED 8 UNLIMITED) None vec_new vec_new false false]}
    ∅ ∅ 10 1 (replicate 40 (Some 3%nat)) [].
Definition sample_cap : Capability := mkCap (mkRef 7 TyChannel) Rights.RIGHTS_ALL 1.

Lemma sample_account : fresh_account 1 sample_world.
Proof.
  split; [| split; [done |]; split; [by eexists |]].
  - intros d D p HD Hp. cbn [sample_world domains] in HD. apply lookup_singleton_Some in HD as [<- <-]. done.
  - intros a u Ha. vm_compute in Ha. apply list_elem_of_singleton in Ha as ->.
    change (usage Handles (domains sample_world) 1) with (Some 0). intros [= <-]. lia.
Qed.

(** The table after one insertion. *)
Definition after (op : TableOp) (s : TW) : TW :=
  match run_op op s with Some (_, s') => s' | None => s end.
Definition sample_state : TW := after (OpInsert sample_cap) (mkTW (set_domain 1 table_new) sample_world).
Definition sample_handle : Handle := 4294967296.

Lemma sample_reachable : reachable 1 sample_world [OpInsert sample_cap] sample_state.
Proof. eapply (runs_snoc _ []); [constructor | done | vm_compute; reflexivity]. Qed.

Lemma table_safe_and_accounted_witness :
  charged (tbl sample_state) = 1 /\ usage Handles (domains (wld sample_state)) 1 = Some 1 /\
  exists s', run_op (OpReserve 2) sample_state = Some (tt, s').
Proof.
  destruct (table_safe_and_accounted 1 sample_world _ _ (OpReserve 2) sample_account sample_reachable)
    as (_ & Hu & Hs').
  - vm_compute. discriminate.
  - split; [reflexivity |]. split; [| exact Hs']. rewrite Hu; [reflexivity |]. vm_compute. left.
Defined.

(** ** Stale handles *)

Lemma runs_reachable d w0 ops s ops' s' :
  reachable d w0 ops s -> runs s ops' s' -> reachable d w0 (ops ++ ops') s'.
Proof. apply runs_trans. Qed.

Lemma runs_progress d w0 ops s ops' s' :
  fresh_account d w0 -> reachable d w0 ops s -> runs s ops' s' -> progress (tbl s) (tbl s').
Proof.
  intros Hacc Hr H. induction H as [| ops' op s1 s2 H IH Ha Hrun]; [done |].
  etrans; [exact IH |]. pose proof (runs_reachable _ _ _ _ _ _ Hr H) as H1.
  destruct (reachable_settled _ _ _ _ Hacc H1) as [_ Hready]. destruct s1 as [t w].
  pose proof (run_op_settled op t w Hready Ha) as Hwp. unfold wp in Hwp. rewrite Hrun in Hwp. apply Hwp.
Qed.

(** C12: A closed handle is dead for good. Whatever the table goes through
    afterwards (recycling of the slot, generations running out, reservations,
    transfers, teardown), no capability is ever found under that handle value. *)
Theorem closed_handle_stays_dead d w0 ops s s1 h ops' s2 :
  fresh_account d w0 -> reachable d w0 ops s ->
  close h s = Some (Ok tt, s1) -> runs s1 ops' s2 ->
  cap_of (tbl s2) h = Err BadHandle.
Proof.
  intros Hacc Hr Hclose Hruns. destruct (reachable_settled _ _ _ _ Hacc Hr) as [_ Hready].
  destruct s as [t w]. pose proof (wp_close t w _ h Hready) as Hwp. unfold wp in Hwp. rewrite Hclose in Hwp.
  destruct Hwp as (cap & _ & _ & Hd & _).
  assert (reachable d w0 (ops ++ [OpClose h]) s1) as Hr1.
  { eapply runs_snoc; [exact Hr | done |]. simpl. by erewrite run_bind by exact Hclose. }
  apply dead_cap_of. eapply dead_progress; [by eapply runs_progress | by apply vacated_dead].
Qed.

Lemma closed_handle_stays_dead_witness :
  let s1 := after (OpClose sample_handle) sample_state in
  let s2 := after (OpInsert sample_cap) s1 in
  runs s1 [OpInsert sample_cap] s2 /\ table_len (tbl s2) = 1 /\
  cap_of (tbl s2) sample_handle = Err BadHandle.
Proof.
  intros s1 s2. assert (runs s1 [OpInsert sample_cap] s2) as Hruns.
  { eapply (runs_snoc _ []); [constructor | vm_compute; reflexivity | vm_compute; reflexivity]. }
  split; [exact Hruns |]. split; [vm_compute; reflexivity |].
  apply (closed_handle_stays_dead 1 sample_world [OpInsert sample_cap] sample_state s1 sample_handle
           [OpInsert sample_cap] s2 sample_account sample_reachable);
    [vm_compute; reflexivity | exact Hruns].
Defined.

(** ** Authority *)

(** [cap] is [cap0], possibly with fewer rights. *)
Definition derives (cap0 cap : Capability) : Prop :=
  cap_object cap = cap_object cap0 /\ cap_generation cap = cap_generation cap0 /\
  Rights.contains (cap_rights cap0) (cap_rights cap) = true.

#[export] Instance derives_preorder : PreOrder derives.
Proof.
  split; [intros c; split; [done |]; split; [done |]; apply Rights.contains_refl |].
  intros c1 c2 c3 (? & ? & ?) (? & ? & ?). split; [congruence |]. split; [congruence |].
  by eapply Rights.contains_trans.
Qed.

(** The capabilities an operation brings into the table. *)
Definition given (op : TableOp) : list Capability :=
  match op with
  | OpInsert cap | OpTryInsert cap | OpInsertReserved cap | OpRestoreTaken _ cap => [cap]
  | _ => []
  end.

Lemma cap_of_agree t t' h :
  slot_at t' (handle_index h) = slot_at t (handle_index h) -> cap_of t' h = cap_of t h.
Proof. intros E. unfold cap_of. by rewrite E. Qed.

Lemma cap_of_slot t h cap s :
  cap_of t h = Ok cap -> slot_at t (handle_index h) = Some s -> slot_cap s = Some cap.
Proof. intros H Hs. destruct (cap_of_ok _ _ _ H) as (s' & Hs' & Hc & _). by simplify_eq. Qed.

(** Where only [X] changed, and [X] holds capabilities of [new] or none. *)
Lemma accounted_origin n X s s' (new : list Capability) :
  accounted n X s s' ->
  (forall i sl cap, 0 <= i -> i ∈ X -> slot_at (tbl s') i = Some sl -> slot_cap sl = Some cap -> cap ∈ new) ->
  forall h cap, cap_of (tbl s') h = Ok cap -> cap_of (tbl s) h = Ok cap \/ cap ∈ new.
Proof.
  intros (delta & Hk & _) Hnew h cap Hcap.
  pose proof (handle_index_range h) as [Hi _].
  destruct (decide (handle_index h ∈ X)) as [HX | HX].
  - right. destruct (cap_of_ok _ _ _ Hcap) as (sl & Hsl & Hc & _). by eapply Hnew.
  - left. rewrite <- Hcap. symmetry. apply cap_of_agree, Hk; done.
Qed.

Lemma minted_origin t t' h cap (new : list Capability) n w w' :
  minted t t' h cap -> accounted n [handle_index h] (mkTW t w) (mkTW t' w') -> cap ∈ new ->
  forall h0 cap0, cap_of t' h0 = Ok cap0 -> cap_of t h0 = Ok cap0 \/ cap0 ∈ new.
Proof.
  intros (_ & _ & _ & Hm) Hacc Hnew h0 cap0 Hc0. eapply (accounted_origin _ _ _ _ new Hacc); [| exact Hc0].
  intros i sl c _ ->%list_elem_of_singleton Hsl Hc. simpl in Hsl. by simplify_eq/=.
Qed.

Lemma vacated_origin t t' h n w w' :
  vacated t' h -> accounted n [handle_index h] (mkTW t w) (mkTW t' w') ->
  forall h0 cap0, cap_of t' h0 = Ok cap0 -> cap_of t h0 = Ok cap0.
Proof.
  intros (s & Hs & [Hc _] & _) Hacc h0 cap0 H0.
  destruct (accounted_origin _ _ _ _ [] Hacc) with (h := h0) (cap := cap0) as [| []%elem_of_nil]; try done.
  intros i sl c _ ->%list_elem_of_singleton Hsl Hcl. simpl in Hsl. by simplify_eq/=.
Qed.

Lemma same_caps_origin t t' h cap :
  table_inv t -> same_caps t t' -> progress t t' -> cap_of t' h = Ok cap ->
  exists h0, cap_of t h0 = Ok cap.
Proof.
  intros Hinv Hsame Hp Hc. destruct (cap_of_ok _ _ _ Hc) as (s' & Hs' & Hc' & Hg').
  pose proof (handle_index_range h) as Hr. specialize (Hsame (handle_index h) ltac:(apply Hr)).
  rewrite Hs' in Hsame. simpl in Hsame. rewrite Hc' in Hsame.
  destruct (slot_at t (handle_index h)) as [s |] eqn:Hs; [| done]. simpl in Hsame.
  destruct (slot_at_ok _ _ _ Hinv Hs) as [_ Hg].
  exists (handle_new (slot_generation s) (handle_index h)). unfold cap_of.
  rewrite handle_index_new, handle_generation_new by (unfold u32_range in *; lia).
  by rewrite Hs, Z.eqb_refl, <- Hsame.
Qed.

(** Where the capabilities of a table come from after one operation. *)
Definition origin (t : HandleTable) (new : list Capability) (t' : HandleTable) : Prop :=
  forall h cap, cap_of t' h = Ok cap ->
    cap ∈ new \/ exists h0 cap0, cap_of t h0 = Ok cap0 /\ derives cap0 cap.

Lemma origin_kept t new t' :
  (forall h cap, cap_of t' h = Ok cap -> cap_of t h = Ok cap \/ cap ∈ new) -> origin t new t'.
Proof. intros H h cap Hc. destruct (H h cap Hc); [right; by exists h, cap | by left]. Qed.

Lemma origin_same t new t' :
  (forall h cap, cap_of t' h = Ok cap -> cap_of t h = Ok cap) -> origin t new t'.
Proof. intros H. apply origin_kept. auto. Qed.

Lemma origin_accounted t w s' new : accounted 0 [] (mkTW t w) s' -> origin t new (tbl s').
Proof. intros H. apply origin_kept. eapply (accounted_origin _ _ _ _ new H). set_solver. Qed.

Lemma run_op_origin op t w :
  ready TWO32 (mkTW t w) -> allowed op t ->
  wp (run_op op) (fun _ s' => origin t (given op) (tbl s')) (mkTW t w).
Proof.
  intros Hr Ha. pose proof (ready_inv _ _ Hr) as Hinv. simpl in Hinv.
  destruct op; simpl in Ha |- *; try apply wp_discard.
  - eapply wp_mono; [by eapply wp_insert |]. intros h [t' w'] [(Hm & Hk & _) | (_ & Hk & _)].
    + eapply origin_kept, minted_origin; [done | done | set_solver].
    + by eapply origin_accounted.
  - eapply wp_mono; [by eapply wp_try_insert |]. intros [h |] [t' w'].
    + intros (Hm & Hk & _). eapply origin_kept, minted_origin; [done | done | set_solver].
    + intros [Hk _]. by eapply origin_accounted.
  - eapply wp_mono; [eapply wp_reserve; [done | done | lia] |]. intros ok [t' w'] ((dl & Hk & _) & Hs & _) h cap Hc.
    right. destruct (same_caps_origin t t' h cap) as [h0 H0]; try done; [apply Hk |]. by exists h0, cap.
  - destruct (items (booked t)) as [| i l _] eqn:E using rev_ind; [done |].
    eapply wp_mono; [by eapply wp_insert_reserved |]. intros h [t' w'] [_ H]. destruct (closed t).
    + destruct H as (_ & Hk & _). by eapply origin_accounted.
    + destruct H as (Hm & Hk & _). eapply origin_kept, minted_origin; [done | done | set_solver].
  - eapply wp_mono; [by eapply wp_release_reservation |]. intros ? ? [? _]. by eapply origin_accounted.
  - eapply wp_mono; [by eapply wp_duplicate |]. intros [h' |] [t' w'] H.
    + destruct H as (cap & Hl & _ & Hn & Hm & Hk & _). intros h0 c0 Hc0. right.
      destruct (minted_origin _ _ _ _ [mkCap (cap_object cap) rights (cap_generation cap)] _ _ _ Hm Hk)
        with (h0 := h0) (cap0 := c0) as [Hold | ->%list_elem_of_singleton]; [set_solver | done | by exists h0, c0 |].
      destruct (live_cap_of_ok _ _ _ _ Hl) as [Hc _]. exists h, cap. split; [done |]. by split.
    + destruct H as [Hk _]. by eapply origin_accounted.
  - eapply wp_mono; [by eapply wp_take |]. intros [cap | e] [t' w'] H.
    + destruct H as (_ & _ & Hk & Hv & _). by eapply origin_same, vacated_origin.
    + destruct H as [[= -> ->] _]. by apply origin_same.
  - eapply wp_mono; [by eapply wp_take_for_transfer |]. intros [cap | e] [t' w'] H.
    + destruct H as (_ & _ & Hk & Hp & _). eapply origin_kept, (accounted_origin _ _ _ _ [] Hk).
      intros i sl c _ ->%list_elem_of_singleton Hsl Hcl. unfold pending in Hp. simpl in *. by simplify_eq/=.
    + destruct H as [[= -> ->] _]. by apply origin_same.
  - eapply wp_mono; [by eapply wp_resolve_taken |]. intros ? [t' w'] (Hk & Hv & _). by eapply origin_same, vacated_origin.
  - eapply wp_mono; [by eapply wp_resolve_taken |]. intros ? [t' w'] (Hk & Hv & _). by eapply origin_same, vacated_origin.
  - eapply wp_mono; [by eapply wp_restore_taken |]. intros ? [t' w'] [Hk H].
    eapply origin_kept, (accounted_origin _ _ _ _ [cap] Hk).
    intros i sl c _ ->%list_elem_of_singleton Hsl Hcl. simpl in *. destruct (closed t); [naive_solver |].
    destruct H as [_ [= -> ->]]. unfold slot_at in Hsl. simpl in Hsl.
    rewrite list_lookup_insert_eq in Hsl by (by eapply lookup_lt_Some). simplify_eq/=. set_solver.
  - eapply wp_mono; [by eapply wp_close |]. intros [u | e] [t' w'] H.
    + destruct H as (cap & _ & Hk & Hv & _). by eapply origin_same, vacated_origin.
    + destruct H as (_ & [= -> ->] & _). by apply origin_same.
  - eapply wp_mono; [by eapply wp_close_all |]. intros ? [t' w'] (_ & Hnone & _) h cap Hc.
    destruct (cap_of_ok _ _ _ Hc) as (sl & Hsl & Hcl & _). rewrite (Hnone (handle_index h) sl) in Hcl; [done | | done].
    apply handle_index_range.
  - apply wp_on_world, wp_modify. by apply origin_same.
Qed.

(** C13: A table never amplifies authority. Every capability found in a reachable
    table names the object and carries the revocation generation of a capability
    that was put into the table, with no right that capability did not have. *)
Theorem no_amplification d w0 ops s h cap :
  fresh_account d w0 -> reachable d w0 ops s -> cap_of (tbl s) h = Ok cap ->
  exists cap0, cap0 ∈ (ops ≫= given) /\ derives cap0 cap.
Proof.
  intros Hacc Hr. revert h cap. induction Hr as [| ops op s s' Hr IH Ha Hrun]; intros h cap Hc.
  - unfold cap_of, slot_at in Hc. simpl in Hc. done.
  - destruct (reachable_settled _ _ _ _ Hacc Hr) as [_ Hready]. destruct s as [t w].
    pose proof (run_op_origin op t w Hready Ha) as Hwp. unfold wp in Hwp. rewrite Hrun in Hwp.
    rewrite bind_app. destruct (Hwp h cap Hc) as [Hnew | (h0 & cap0 & H0 & Hd)].
    + exists cap. split; [| done]. apply elem_of_app. right. simpl. by rewrite app_nil_r.
    + destruct (IH h0 cap0 H0) as (cap1 & Hin & Hd1). exists cap1. split; [set_solver | by etrans].
Qed.

Lemma no_amplification_witness :
  exists cap0, cap0 ∈ [sample_cap] /\ derives cap0 sample_cap.
Proof.
  destruct (no_amplification 1 sample_world [OpInsert sample_cap] sample_state sample_handle sample_cap
              sample_account sample_reachable) as (cap0 & H & Hd).
  - vm_compute. reflexivity.
  - exists cap0. split; [exact H | exact Hd].
Defined.

(** ** Reservations *)

(** Insert every capability of a batch into booked slots. *)
Fixpoint insert_all_reserved (caps : list Capability) : M TW (list Handle) :=
  match caps with
  | [] => mret []
  | cap :: caps =>
      h ← insert_reserved cap;
      hs ← insert_all_reserved caps;
      mret (h :: hs)
  end.

Lemma wp_insert_all_reserved caps t w hi l0 l :
  ready hi (mkTW t w) -> closed t = false -> items (booked t) = l0 ++ l -> length l = length caps ->
  wp (insert_all_reserved caps) (fun hs s' =>
    Forall2 (fun h cap => cap_of (tbl s') h = Ok cap) hs caps /\
    items (booked (tbl s')) = l0 /\ handle_index <$> hs = reverse l /\
    (forall h cap, cap_of t h = Ok cap -> cap_of (tbl s') h = Ok cap) /\
    accounted 0 l (mkTW t w) s' /\ charged (tbl s') = charged t) (mkTW t w).
Proof.
  revert t w l. induction caps as [| cap caps IH]; intros t w l Hr Hcl Hb Hlen.
  - destruct l; [| done]. cbn [insert_all_reserved]. wp_step. rewrite app_nil_r in Hb.
    split; [constructor |]. do 3 (split; [done |]). split; [apply accounted_refl, Hr | done].
  - destruct l as [| i l _] using rev_ind; [done |]. rewrite length_app in Hlen. simpl in Hlen.
    cbn [insert_all_reserved]. wp_step.
    eapply wp_mono; [eapply wp_insert_reserved; [exact Hr | by rewrite Hb, app_assoc] |].
    intros h [t1 w1] [Hb1 H]. rewrite Hcl in H. destruct H as (Hm & Hacc & Hidx & Hch). simpl in *.
    pose proof (ready_accounted _ _ _ _ _ Hr Hacc) as Hr1. simpl in Hr1. rewrite Hch in Hr1.
    replace (hi - (charged t - charged t)) with hi in Hr1 by lia.
    pose proof Hacc as (dl & Hk & _).
    assert (forall h0 c0, cap_of t h0 = Ok c0 -> cap_of t1 h0 = Ok c0) as Hold.
    { intros h0 c0 Hc0. rewrite <- Hc0. apply cap_of_agree, Hk; [apply handle_index_range |].
      rewrite list_elem_of_singleton. intros E. destruct (cap_of_ok _ _ _ Hc0) as (s0 & Hs0 & Hcap0 & _).
      destruct (pool_slot t i (ready_inv _ _ Hr)) as (_ & si & Hsi & [Hci _] & _).
      - unfold pool. simpl. rewrite Hb. set_solver.
      - rewrite E, Hidx in Hs0. simpl in Hsi. by simplify_eq/=. }
    wp_step. eapply wp_mono; [apply (IH t1 w1 l); try done; [etrans; [apply (kept_closed _ _ _ _ _ Hk) | done] | lia] |].
    intros hs s2 (Hall & Hb2 & Hidx2 & Hold2 & Hacc2 & Hch2). wp_step.
    split; [constructor; [apply Hold2; by eapply minted_cap | done] |]. split; [done |].
    split; [rewrite reverse_app, fmap_cons, Hidx, Hidx2; done |].
    split; [auto |]. split; [| by rewrite Hch2].
    eapply accounted_trans; [exact Hr | exact Hacc | exact Hacc2 | lia | set_solver | set_solver].
Qed.

(** A reservation keeps its promise. Once [reserve n] has answered yes on an
    open table, [n] insertions go in without any further allocation, quota or
    failure: none aborts, each capability is then found under the handle that was
    returned for it, no earlier capability is disturbed, and the account ends
    [n] handles above where it was before the reservation. *)
Theorem reservation_cannot_fail t w hi caps s1 :
  ready hi (mkTW t w) -> closed t = false ->
  Z.of_nat (vec_len (slots t)) + Z.of_nat (length caps) <= TWO32 -> Z.of_nat (length caps) <= hi ->
  reserve (length caps) (mkTW t w) = Some (true, s1) ->
  exists hs s2, insert_all_reserved caps s1 = Some (hs, s2) /\
    Forall2 (fun h cap => cap_of (tbl s2) h = Ok cap) hs caps /\
    items (booked (tbl s2)) = items (booked t) /\
    charged (tbl s2) = charged t + Z.of_nat (length caps) /\ settled (mkTW t w) s2.
Proof.
  intros Hr Hcl Hlen Hhi Hres. pose proof (wp_reserve t w hi Hr (length caps) Hlen Hhi) as Hwp.
  unfold wp in Hwp. rewrite Hres in Hwp. destruct Hwp as (Hacc & _ & Hch & l & Hl & Hb).
  pose proof (ready_accounted _ _ _ _ _ Hr Hacc) as Hr1. pose proof Hacc as (dl & Hk & _). destruct s1 as [t1 w1].
  destruct (wp_run _ _ _ (wp_insert_all_reserved caps t1 w1 _ (items (booked t)) l Hr1 (eq_trans (kept_closed _ _ _ _ _ Hk) Hcl) Hb Hl))
    as (hs & s2 & Hrun & Hall & Hb2 & _ & _ & Hacc2 & Hch2). simpl in *.
  exists hs, s2. split; [done |]. split; [done |]. split; [done |]. split; [lia |].
  eapply accounted_settled, accounted_trans; [exact Hr | exact Hacc | exact Hacc2 | apply le_n |
    by apply list_subseteq_app_l | by apply list_subseteq_app_r].
Qed.

Lemma reservation_cannot_fail_witness :
  let s1 := after (OpReserve 2) sample_state in
  exists hs s2, insert_all_reserved [sample_cap; sample_cap] s1 = Some (hs, s2) /\
    charged (tbl s2) = 3.
Proof.
  intros s1.
  destruct (reservation_cannot_fail (tbl sample_state) (wld sample_state) TWO32
              [sample_cap; sample_cap] s1) as (hs & s2 & Hrun & _ & _ & Hch & _).
  - apply (reachable_settled _ _ _ _ sample_account sample_reachable).
  - vm_compute. reflexivity.
  - vm_compute. discriminate.
  - vm_compute. discriminate.
  - vm_compute. reflexivity.
  - exists hs, s2. split; [exact Hrun |]. rewrite Hch. vm_compute. reflexivity.
Defined.
