(* ===== verification/HandleTransfer.v ===== *)
(** More promises of the handle table: transfers that are undone, teardown,
    revocation, and the packing of a handle. *)

From S2P Require Import Prelude Object Domain DomainFacts Handle HandleFacts HandleOps HandleReserve HandleClose HandleProps.

(** A transfer that is taken and then restored never happened: on an open
    table the state after [take_for_transfer] and [restore_taken] is exactly the
    state before, the slot, the handle value and the account included. *)
Theorem transfer_undone t w hi h rights cap s1 :
  ready hi (mkTW t w) -> closed t = false ->
  take_for_transfer h rights (mkTW t w) = Some (Ok cap, s1) ->
  restore_taken h cap s1 = Some (tt, mkTW t w).
Proof.
  intros Hr Hcl Htake. pose proof (wp_take_for_transfer t w hi h Hr rights) as Hwp.
  unfold wp in Hwp. rewrite Htake in Hwp. destruct Hwp as (Hlive & _ & Hacc & Hp & _ & ->).
  pose proof (ready_accounted _ _ _ _ _ Hr Hacc) as Hr1.
  destruct (wp_run _ _ _ (wp_restore_taken _ _ _ _ Hr1 cap Hp)) as ([] & s2 & Hrun & _ & H).
  simpl in H. rewrite Hcl in H. destruct H as [_ ->]. simpl in Hrun. rewrite Hrun.
  destruct (live_cap_of_ok _ _ _ _ Hlive) as [Hc _]. destruct (cap_of_ok _ _ _ Hc) as (s & Hs & Hcap & Hg).
  pose proof (live_not_reserved _ _ _ _ (ready_inv _ _ Hr) Hs Hcap) as Hres.
  rewrite list_insert_insert_eq. rewrite list_insert_id by (rewrite <- Hg, <- Hcap, <- Hres; by destruct s).
  by destruct t as [[? ?] ? ? ? ?].
Qed.

Lemma transfer_undone_witness :
  let s1 := after (OpTakeForTransfer sample_handle Rights.RIGHT_TRANSFER) sample_state in
  table_len (tbl s1) = 0 /\ restore_taken sample_handle sample_cap s1 = Some (tt, sample_state).
Proof.
  intros s1. split; [vm_compute; reflexivity |].
  apply (transfer_undone (tbl sample_state) (wld sample_state) TWO32 sample_handle Rights.RIGHT_TRANSFER).
  - apply (reachable_settled _ _ _ _ sample_account sample_reachable).
  - vm_compute. reflexivity.
  - vm_compute. reflexivity.
Defined.

(** A transfer that is committed spends the handle: between the take and the
    commit the capability is in no slot while its quota stays charged, so a full
    table cannot refuse the return path; after the commit the handle value is
    dead and the Domain has exactly one handle back. *)
Theorem transfer_committed t w hi h rights cap s1 :
  ready hi (mkTW t w) ->
  take_for_transfer h rights (mkTW t w) = Some (Ok cap, s1) ->
  cap_of t h = Ok cap /\ is_valid (generations w) cap = true /\
  Rights.contains (cap_rights cap) rights = true /\
  cap_of (tbl s1) h = Err BadHandle /\ charged (tbl s1) = charged t /\
  exists s2, commit_taken h s1 = Some (tt, s2) /\
    cap_of (tbl s2) h = Err BadHandle /\ charged (tbl s2) = charged t - 1 /\ settled (mkTW t w) s2.
Proof.
  intros Hr Htake. pose proof (wp_take_for_transfer t w hi h Hr rights) as Hwp.
  unfold wp in Hwp. rewrite Htake in Hwp. destruct Hwp as (Hlive & Hrights & Hacc & Hp & Hch & Hs1).
  destruct (live_cap_of_ok _ _ _ _ Hlive) as [Hc Hv]. split; [done |]. split; [done |]. split; [done |].
  split; [unfold cap_of; rewrite Hp; simpl; by rewrite Z.eqb_refl |]. split; [done |].
  pose proof (ready_accounted _ _ _ _ _ Hr Hacc) as Hr1. clear Hs1. destruct s1 as [t1 w1].
  destruct (wp_run _ _ _ (wp_resolve_taken _ _ _ _ Hr1 Hp)) as ([] & s2 & Hrun & Hacc2 & Hd & Hch2 & _).
  exists s2. split; [done |]. split; [by apply dead_cap_of, vacated_dead |]. simpl in *. split; [lia |].
  eapply accounted_settled, accounted_trans; [exact Hr | exact Hacc | exact Hacc2 | apply le_n | done | done].
Qed.

Lemma transfer_committed_witness :
  let s1 := after (OpTakeForTransfer sample_handle Rights.RIGHT_TRANSFER) sample_state in
  charged (tbl s1) = 1 /\ exists s2, commit_taken sample_handle s1 = Some (tt, s2) /\ charged (tbl s2) = 0.
Proof.
  intros s1.
  destruct (transfer_committed (tbl sample_state) (wld sample_state) TWO32 sample_handle
              Rights.RIGHT_TRANSFER sample_cap s1) as (_ & _ & _ & _ & Hch & s2 & Hrun & _ & Hch2 & _).
  - apply (reachable_settled _ _ _ _ sample_account sample_reachable).
  - vm_compute. reflexivity.
  - split; [rewrite Hch; vm_compute; reflexivity |].
    exists s2. split; [exact Hrun |]. rewrite Hch2. vm_compute. reflexivity.
Defined.

(** Teardown is complete. [close_all] returns, empties every slot, drops the
    reference of every capability the table held in slot order, leaves every
    handle it had given out dead, and gives back one handle of quota for each;
    what stays charged is what is booked or in flight. *)
Theorem close_all_complete t w hi :
  ready hi (mkTW t w) ->
  exists s', close_all (mkTW t w) = Some (tt, s') /\ closed (tbl s') = true /\
    table_len (tbl s') = 0 /\
    charged (tbl s') = charged t - table_len t /\
    charged (tbl s') = count slot_reserved (items (slots (tbl s'))) + Z.of_nat (vec_len (booked t)) /\
    (forall h cap, cap_of t h = Ok cap -> dead (tbl s') h) /\
    effects (wld s') = effects w ++ (DropRef <$> for_each_object t) /\
    settled (mkTW (set_closed true t) w) s'.
Proof.
  intros Hr. destruct (wp_run _ _ _ (wp_close_all t w hi Hr)) as ([] & s' & Hrun & Hacc & Hnone & Hdead & Hb & Hch & He).
  exists s'. split; [done |]. pose proof (count_none _ Hnone) as H0. split; [by destruct Hacc as (? & [] & _) |].
  split; [done |]. split; [done |]. split; [unfold charged in *; rewrite H0, Hb in *; lia |].
  split; [done |]. split; [done |]. by eapply accounted_settled.
Qed.

Lemma close_all_complete_witness :
  exists s', close_all sample_state = Some (tt, s') /\ charged (tbl s') = 0 /\
    effects (wld s') = [DropRef (cap_object sample_cap)].
Proof.
  destruct (close_all_complete (tbl sample_state) (wld sample_state) TWO32)
    as (s' & Hrun & _ & _ & Hch & _ & _ & He & _).
  - apply (reachable_settled _ _ _ _ sample_account sample_reachable).
  - exists s'. split; [exact Hrun |]. split; [rewrite Hch | rewrite He]; vm_compute; reflexivity.
Defined.

(** A claim ends with its last handle. Closing a live handle drops one
    reference, and releases the device claim exactly when the handle named one
    and no other slot of the table still does. *)
Theorem close_releases_claim t w hi h cap :
  ready hi (mkTW t w) -> cap_of t h = Ok cap ->
  exists s', close h (mkTW t w) = Some (Ok tt, s') /\
    effects (wld s') = effects w ++ released cap (tbl s') /\
    (ClaimRelease (ref_koid (cap_object cap)) ∈ released cap (tbl s') <->
     object_type cap = TyClaim /\
     forall h' cap', cap_of (tbl s') h' = Ok cap' -> cap_object cap' <> cap_object cap).
Proof.
  intros Hr Hc. destruct (wp_run _ _ _ (wp_close t w hi h Hr)) as ([[] | e] & s' & Hrun & H);
    [| destruct H as (_ & _ & H); by rewrite Hc in H].
  destruct H as (cap' & Hc' & Hacc & _ & _ & _ & He). rewrite Hc in Hc'. injection Hc' as <-. exists s'. split; [done |]. split; [done |].
  assert (existsb (names_object (cap_object cap)) (items (slots (tbl s'))) = true <->
          exists h' c, cap_of (tbl s') h' = Ok c /\ cap_object c = cap_object cap) as Hex.
  { rewrite existsb_exists. split.
    - intros (sl & Hin & Hn). apply list_elem_of_In, list_elem_of_lookup in Hin as [i Hi].
      unfold names_object in Hn. destruct (slot_cap sl) as [c |] eqn:Ec; [| done].
      destruct Hacc as (dl & Hk & _). pose proof (kept_inv _ _ _ _ _ Hk) as Hinv.
      assert (slot_at (tbl s') (Z.of_nat i) = Some sl) as Hsl by (unfold slot_at; by rewrite Nat2Z.id).
      destruct (slot_at_ok _ _ _ Hinv Hsl) as [_ Hg]. pose proof (inv_width _ Hinv) as Hw.
      apply lookup_lt_Some in Hi. unfold vec_len in Hw.
      exists (handle_new (slot_generation sl) (Z.of_nat i)), c. unfold cap_of.
      rewrite handle_index_new, handle_generation_new by (unfold u32_range; lia).
      rewrite Hsl, Z.eqb_refl, Ec. split; [done |]. by apply bool_decide_eq_true in Hn.
    - intros (h' & c & Hc' & Ho). destruct (cap_of_ok _ _ _ Hc') as (sl & Hsl & Hcl & _). exists sl.
      split; [apply list_elem_of_In; by eapply list_elem_of_lookup_2 |].
      unfold names_object. rewrite Hcl. by apply bool_decide_eq_true. }
  unfold released. rewrite elem_of_cons. destruct (bool_decide_reflect (object_type cap = TyClaim)) as [Ht | Ht]; simpl.
  - destruct (existsb _ _); simpl.
    + split; [by intros [? | []%elem_of_nil] |]. intros [_ Hno]. exfalso.
      destruct Hex as [(h' & c & Hc1 & Hc2) _]; [done |]. by apply (Hno h' c).
    + split; [| right; left]. intros _. split; [done |]. intros h' c Hc1 Hc2.
      destruct Hex as [_ Hex]. discriminate Hex. by exists h', c.
  - split; [by intros [? | []%elem_of_nil] | by intros [? _]].
Qed.

Lemma close_releases_claim_witness :
  let claim := mkCap (mkRef 9 TyClaim) Rights.RIGHTS_ALL 1 in
  let s := after (OpInsert claim) (mkTW (set_domain 1 table_new) sample_world) in
  exists s', close sample_handle s = Some (Ok tt, s') /\
    effects (wld s') = [DropRef (mkRef 9 TyClaim); ClaimRelease 9].
Proof.
  intros claim s.
  destruct (close_releases_claim (tbl s) (wld s) TWO32 sample_handle claim) as (s' & Hrun & He & _).
  - apply (reachable_settled 1 sample_world [OpInsert claim]); [exact sample_account |].
    eapply (runs_snoc _ []); [constructor | done | vm_compute; reflexivity].
  - vm_compute. reflexivity.
  - exists s'. split; [exact Hrun |]. rewrite He. revert Hrun. vm_compute. by intros [= <-].
Defined.

(** ** Revocation *)

(** A computation that leaves the revocation generations alone. *)
Definition steady {S A} (gens : S -> gmap Koid Z) (m : M S A) : Prop := forall s a s', m s = Some (a, s') -> gens s' = gens s.

Section steady.
Context {S : Type} (gens : S -> gmap Koid Z).

Lemma steady_ret {A} (a : A) : steady gens (mret a).
Proof. by intros s a' s' [= _ <-]. Qed.
Lemma steady_abort {A} : steady gens (abort : M S A).
Proof. done. Qed.
Lemma steady_gets {A} (f : S -> A) : steady gens (gets f).
Proof. by intros s a' s' [= _ <-]. Qed.
Lemma steady_assert {A} (o : option A) : steady gens (assert_some o).
Proof. intros s a s'. unfold assert_some. destruct o; [by intros [= _ <-] | done]. Qed.
Lemma steady_modify f : (forall s, gens (f s) = gens s) -> steady gens (modify f).
Proof. intros Hf s a s' [= _ <-]. apply Hf. Qed.
Lemma steady_bind {A B} (m : M S A) (f : A -> M S B) : steady gens m -> (forall a, steady gens (f a)) -> steady gens (m ≫= f).
Proof.
  intros Hm Hf s b s'. unfold mbind, M_bind. destruct (m s) as [[a s1] |] eqn:E; [| done]. intros H. rewrite (Hf a _ _ _ H). by apply (Hm _ _ _ E).
Qed.
End steady.

Lemma steady_on_world {A} (m : M World A) : steady generations m -> steady (generations ∘ wld) (on_world m).
Proof. intros Hm [t w] a s'. unfold on_world, zoom. simpl. destruct (m w) as [[b w'] |] eqn:E; [| done]. intros [= <- <-]. by apply (Hm _ _ _ E). Qed.
Lemma steady_with_heap {A} (m : M heap A) : steady generations (with_heap m).
Proof. intros w a w'. unfold with_heap, zoom. destruct (m (heap_of w)) as [[b h] |]; [| done]. by intros [= _ <-]. Qed.
Lemma steady_get_domain d : steady generations (get_domain d).
Proof. intros w a w'. unfold get_domain. destruct (domains w !! d); [by intros [= _ <-] | done]. Qed.

Create HintDb steady.
#[local] Hint Resolve steady_ret steady_abort steady_gets steady_assert steady_on_world steady_with_heap steady_get_domain : steady.
#[local] Hint Extern 1 (steady _ (modify _)) => apply steady_modify; reflexivity : steady.

Ltac steadily :=
  repeat match goal with
  | |- steady _ (_ ≫= _) => apply steady_bind; [| intros ?]
  | |- steady _ (match ?x with _ => _ end) => destruct x
  | |- steady _ (on_world _) => apply steady_on_world
  end; eauto with steady.

Lemma steady_alter d r f : steady generations (alter_counter d r f).
Proof. unfold alter_counter, put_domain. steadily. Qed.
Lemma steady_parent d : steady generations (parent d).
Proof. unfold parent. steadily. Qed.
#[local] Hint Resolve steady_alter steady_parent : steady.

Lemma steady_try_charge fuel d n r : steady generations (try_charge_hier fuel d n r).
Proof. revert d. induction fuel as [| fuel IH]; intros d; cbn [try_charge_hier]; steadily. Qed.
Lemma steady_charge fuel d n r : steady generations (charge_hier fuel d n r).
Proof. revert d. induction fuel as [| fuel IH]; intros d; cbn [charge_hier]; steadily. Qed.
Lemma steady_uncharge fuel d n r : steady generations (uncharge_hier fuel d n r).
Proof. revert d. induction fuel as [| fuel IH]; intros d; cbn [uncharge_hier]; steadily. Qed.
#[local] Hint Resolve steady_try_charge steady_charge steady_uncharge : steady.

Lemma steady_with_domain f : (forall d, steady generations (f d)) -> steady (generations ∘ wld) (with_domain f).
Proof. intros Hf. unfold with_domain. steadily. Qed.
#[local] Hint Extern 1 (steady _ (with_domain _)) => apply steady_with_domain; intros ?; unfold uncharge_handles, charge_handle; eauto with steady : steady.
#[local] Hint Extern 1 (steady _ (put_slot _ _)) => apply steady_modify; reflexivity : steady.
#[local] Hint Extern 1 (steady _ (modify_tbl _)) => apply steady_modify; reflexivity : steady.
#[local] Hint Extern 1 (steady _ (drop_cap _)) => apply steady_on_world, steady_modify; reflexivity : steady.
#[local] Hint Extern 1 (steady _ (emit _)) => apply steady_modify; reflexivity : steady.

Lemma steady_push x : steady (generations ∘ wld) (free_push x) /\ steady (generations ∘ wld) (booked_push x).
Proof. unfold free_push, booked_push. split; steadily. Qed.
Lemma steady_pops : steady (generations ∘ wld) free_pop /\ steady (generations ∘ wld) booked_pop.
Proof. unfold free_pop, booked_pop. split; steadily. Qed.
Lemma steady_reserves n :
  steady (generations ∘ wld) (slots_try_reserve n) /\ steady (generations ∘ wld) (free_try_reserve n) /\ steady (generations ∘ wld) (booked_try_reserve n).
Proof. unfold slots_try_reserve, free_try_reserve, booked_try_reserve. split_and!; steadily. Qed.
#[local] Hint Extern 1 (steady _ (free_push _)) => apply steady_push : steady.
#[local] Hint Extern 1 (steady _ (booked_push _)) => apply steady_push : steady.
#[local] Hint Extern 1 (steady _ free_pop) => apply steady_pops : steady.
#[local] Hint Extern 1 (steady _ booked_pop) => apply steady_pops : steady.
#[local] Hint Extern 1 (steady _ (slots_try_reserve _)) => apply steady_reserves : steady.
#[local] Hint Extern 1 (steady _ (free_try_reserve _)) => apply steady_reserves : steady.
#[local] Hint Extern 1 (steady _ (booked_try_reserve _)) => apply steady_reserves : steady.

Lemma steady_slots_push x : steady (generations ∘ wld) (slots_push x).
Proof. unfold slots_push. steadily. Qed.
Lemma steady_index_slot i : steady (generations ∘ wld) (index_slot i).
Proof. unfold index_slot. steadily. Qed.
#[local] Hint Resolve steady_slots_push steady_index_slot : steady.

Lemma steady_try_place cap : steady (generations ∘ wld) (try_place cap).
Proof. unfold try_place. steadily. Qed.
#[local] Hint Resolve steady_try_place : steady.
Lemma steady_insert cap : steady (generations ∘ wld) (insert cap).
Proof. unfold insert. steadily. Qed.
Lemma steady_try_insert cap : steady (generations ∘ wld) (try_insert cap).
Proof. unfold try_insert, try_insert_or_return, try_charge_handle. steadily. Qed.
Lemma steady_unbook n : steady (generations ∘ wld) (unbook n).
Proof.
  unfold unbook. steadily. generalize (vec_len (booked a) - n)%nat as k. induction k as [| k IH]; cbn [unbook_loop]; steadily.
Qed.
Lemma steady_recycle slot i : steady (generations ∘ wld) (retire_or_recycle slot i).
Proof. unfold retire_or_recycle. steadily. Qed.
#[local] Hint Resolve steady_insert steady_try_insert steady_unbook steady_recycle : steady.

Lemma steady_reserve n : steady (generations ∘ wld) (reserve n).
Proof.
  assert (steady (generations ∘ wld) book_one) as H1 by (unfold book_one; steadily).
  assert (forall k before, steady (generations ∘ wld) (book_slots k before)) as H2
    by (induction k as [| k IH]; intros before; cbn [book_slots]; steadily).
  assert (forall d k taken, steady generations (charge_handles d k taken)) as H3
    by (intros d; induction k as [| k IH]; intros taken; cbn [charge_handles]; unfold try_charge_handle, uncharge_handles; steadily).
  unfold reserve. steadily.
Qed.

Lemma steady_close_all : steady (generations ∘ wld) close_all.
Proof.
  assert (forall i, steady (generations ∘ wld) (close_all_slot i)) as H1 by (intros i; unfold close_all_slot; steadily).
  assert (forall l n, steady (generations ∘ wld) (close_all_loop l n)) as H2 by (induction l as [| i l IH]; intros n; cbn [close_all_loop]; steadily).
  unfold close_all. steadily.
Qed.
#[local] Hint Resolve steady_reserve steady_close_all : steady.

(** Of the table's operations only a revocation moves a generation. *)
Lemma steady_op op : (forall k, op <> OpRevoke k) -> steady (generations ∘ wld) (run_op op).
Proof.
  intros Hne. destruct op; cbn [run_op];
    unfold insert_reserved, place, release_reservation, duplicate, duplicate_racing, take, take_for_transfer, commit_taken, abandon_taken,
      resolve_taken, restore_taken, close; steadily.
  by destruct (Hne k).
Qed.

(** How often [k] is revoked. *)
Definition revocations (k : Koid) (ops : list TableOp) : Z :=
  count (fun op => match op with OpRevoke k' => k' =? k | _ => false end) ops.

Lemma generation_after k s ops s' :
  runs s ops s' -> u32_range (generation (generations (wld s)) k) ->
  generation (generations (wld s')) k = wrap32 (generation (generations (wld s)) k + revocations k ops).
Proof.
  intros Hr Hg. induction Hr as [| ops op s1 s2 Hr IH Ha Hrun].
  - unfold revocations. simpl. rewrite Z.add_0_r. unfold wrap32, u32_range in *. rewrite Z.mod_small; lia.
  - unfold revocations in *. rewrite count_app, count_cons. change (count _ []) with 0. rewrite Z.add_0_r.
    destruct op; try (assert (generations (wld s2) = generations (wld s1)) as E by (by refine (steady_op _ _ _ _ _ Hrun));
      rewrite E; cbv beta iota; rewrite Z.add_0_r; exact IH).
    injection Hrun as <-. cbn [wld set_wld generations set_generations]. destruct (Z.eqb_spec k0 k) as [-> | Hne].
    + unfold revoke, generation at 1. rewrite lookup_insert_eq. simpl. rewrite IH. unfold wrap32. rewrite Zplus_mod_idemp_l. f_equal. lia.
    + rewrite revoke_ne by done. rewrite Z.add_0_r. exact IH.
Qed.

(** A generation stays what it is after so many revocations exactly when it went round. *)
Lemma wrap32_round g n : u32_range g -> wrap32 (g + n) = g <-> n mod TWO32 = 0.
Proof.
  intros Hg. unfold wrap32, u32_range in *. split; intros H.
  - replace n with ((g + n) - g) by lia. rewrite Zminus_mod, H, (Z.mod_small g), Z.sub_diag by lia. done.
  - rewrite Zplus_mod, H, Z.add_0_r, Z.mod_mod by done. rewrite Z.mod_small; lia.
Qed.

(** C25: Revoking an object takes effect everywhere at once and stays. A capability that
    was valid when its object was revoked is refused, as revoked and whatever rights are
    asked for, by every lookup in whatever table it lies then, after any operations of a
    table and any further revocations; it is found valid again exactly when the 32-bit
    generation of the object has gone all the way round, every 2{^32} revocations of it.
    Revoking another object changes no lookup of the capability. *)
Theorem revoke_is_immediate s s1 ops s2 cap t h required :
  is_valid (generations (wld s)) cap = true -> u32_range (cap_generation cap) ->
  run_op (OpRevoke (ref_koid (cap_object cap))) s = Some (tt, s1) -> runs s1 ops s2 -> cap_of t h = Ok cap ->
  (lookup (generations (wld s2)) t h required = Err Revoked <-> (1 + revocations (ref_koid (cap_object cap)) ops) mod TWO32 <> 0) /\
  forall gens k, k <> ref_koid (cap_object cap) -> lookup (revoke k gens) t h required = lookup gens t h required.
Proof.
  intros Hv Hr Hrun Hruns Hc. unfold lookup, is_valid in *. rewrite Hc. set (k := ref_koid (cap_object cap)) in *. apply Z.eqb_eq in Hv. split.
  - assert (runs s ([OpRevoke k] ++ ops) s2) as Hall.
    { eapply runs_trans; [| exact Hruns]. apply (runs_snoc _ [] _ s); [constructor | done | done]. }
    rewrite (generation_after k s _ s2 Hall), Hv by (by rewrite Hv). unfold revocations at 1. rewrite count_app, count_cons.
    change (count _ []) with 0. rewrite Z.eqb_refl, Z.add_0_r. fold (revocations k ops).
    rewrite <- (wrap32_round (cap_generation cap)) by done.
    destruct (Z.eqb_spec (wrap32 (cap_generation cap + (1 + revocations k ops))) (cap_generation cap)) as [E | E]; cbn [negb]; [| by split].
    split; [| by intros []]. by destruct (negb _).
  - intros gens k' Hk. by rewrite revoke_ne.
Qed.

Lemma revoke_is_immediate_witness :
  exists s1 s2, run_op (OpRevoke 7) sample_state = Some (tt, s1) /\ run_op (OpReserve 2) s1 = Some (tt, s2) /\
    lookup (generations (wld s2)) (tbl s2) sample_handle Rights.RIGHT_SEND = Err Revoked.
Proof.
  exists (after (OpRevoke 7) sample_state), (after (OpReserve 2) (after (OpRevoke 7) sample_state)).
  split; [vm_compute; reflexivity |]. split; [vm_compute; reflexivity |].
  refine (proj2 (proj1 (revoke_is_immediate sample_state (after (OpRevoke 7) sample_state) [OpReserve 2]
    (after (OpReserve 2) (after (OpRevoke 7) sample_state)) sample_cap _ _ _ _ _ _ _ _)) _).
  - vm_compute. reflexivity.
  - split; vm_compute; discriminate.
  - vm_compute. reflexivity.
  - apply (runs_snoc _ [] _ (after (OpRevoke 7) sample_state)); [constructor | vm_compute; discriminate | vm_compute; reflexivity].
  - vm_compute. reflexivity.
  - vm_compute. discriminate.
Defined.

(** C26: [duplicate] is not atomic with revocation. Validity is checked against one
    reading of the object's generation and the copy is stamped with a second; if
    the object is revoked in between, the copy carries the new generation and is
    valid, although the handle it was made from is refused. *)
Theorem duplicate_outlives_revocation :
  exists s' h', duplicate_racing
      (fun w => set_generations (revoke 7 (generations w)) w) sample_handle Rights.RIGHT_SEND sample_state
    = Some (Ok h', s') /\
  lookup (generations (wld s')) (tbl s') sample_handle Rights.RIGHT_SEND = Err Revoked /\
  lookup (generations (wld s')) (tbl s') h' Rights.RIGHT_SEND = Ok (mkRef 7 TyChannel).
Proof. eexists _, _. split; [vm_compute; reflexivity |]. split; vm_compute; reflexivity. Qed.

(** ** The packing *)

(** A handle is its generation and its index: packing two 32-bit halves and
    unpacking them gives them back, and every 64-bit handle value is the packing
    of its halves. *)
Theorem handle_packing_roundtrip g i h :
  u32_range g -> u32_range i -> u64_range h ->
  handle_index (handle_new g i) = i /\ handle_generation (handle_new g i) = g /\
  u64_range (handle_new g i) /\ handle_new (handle_generation h) (handle_index h) = h.
Proof.
  intros. split; [by apply handle_index_new |]. split; [by apply handle_generation_new |].
  split; [by apply handle_new_range | by apply handle_new_parts].
Qed.

Lemma handle_packing_roundtrip_witness :
  handle_index (handle_new 3 U32_MAX) = U32_MAX /\ handle_generation (handle_new 3 U32_MAX) = 3.
Proof.
  destruct (handle_packing_roundtrip 3 U32_MAX 0) as (? & ? & _); [unfold u32_range; lia.. | unfold u64_range; lia |].
  split; assumption.
Defined.
