(* ===== verification/Channel.v ===== *)
(** Channels (kernel/object/channel/mod.rs): messages and their queued-bytes
    charge, the endpoint pair, sending, the two receives, the put-back and the
    commit of a delivery, and the drop of an endpoint. An operation runs over the
    endpoints and the shared world; each holds the inbox lock for its whole
    decision, so one operation is one step. *)

From S2P Require Import Prelude Object Domain Handle.

Definition CHANNEL_QUEUE_DEFAULT : Z := 64.
Definition CHANNEL_QUEUE_MAX : Z := 4096.

Inductive ChannelError := PeerClosed | Full | Empty.

#[export] Instance ChannelError_eq_dec : EqDecision ChannelError.
Proof. solve_decision. Defined.

Inductive RecvRefusal := TooLarge | TooManyCaps | Superseded | Gone (e : ChannelError).

#[export] Instance RecvRefusal_eq_dec : EqDecision RecvRefusal.
Proof. solve_decision. Defined.

(** The Domain charged for a message's queued bytes, and how many. *)
Record QueueCharge := mkCharge { charge_domain : Koid; charge_bytes : Z }.

#[export] Instance QueueCharge_eq_dec : EqDecision QueueCharge.
Proof. solve_decision. Defined.

Record Message := mkMessage {
  msg_id : Z;
  msg_bytes : list Z;
  msg_caps : list Capability;
  queue_charge : option QueueCharge;
  slot_in_flight : bool; (** [Message::slot_reserved] *)
}.

#[export] Instance Message_eq_dec : EqDecision Message.
Proof. solve_decision. Defined.

Definition set_charge (c : option QueueCharge) (m : Message) : Message :=
  mkMessage (msg_id m) (msg_bytes m) (msg_caps m) c (slot_in_flight m).
Definition set_in_flight_slot (b : bool) (m : Message) : Message :=
  mkMessage (msg_id m) (msg_bytes m) (msg_caps m) (queue_charge m) b.

Record Channel := mkChannel {
  inbox : vec Message;
  queue_limit : Z;
  in_flight : Z;
  peer_link : option Koid;
}.

Definition set_inbox (v : vec Message) (c : Channel) : Channel :=
  mkChannel v (queue_limit c) (in_flight c) (peer_link c).
Definition set_in_flight (n : Z) (c : Channel) : Channel :=
  mkChannel (inbox c) (queue_limit c) n (peer_link c).
Definition set_peer_link (p : option Koid) (c : Channel) : Channel :=
  mkChannel (inbox c) (queue_limit c) (in_flight c) p.

(** The live endpoints and the shared world. *)
Record CW := mkCW { chans : gmap Koid Channel; cworld : World }.

Definition set_chans (cs : gmap Koid Channel) (s : CW) : CW := mkCW cs (cworld s).
Definition set_cworld (w : World) (s : CW) : CW := mkCW (chans s) w.

Definition on_cworld {A} (m : M World A) : M CW A := zoom cworld set_cworld m.
Definition get_chan (k : Koid) : M CW Channel := fun s =>
  match chans s !! k with Some c => Some (c, s) | None => None end.
Definition put_chan (k : Koid) (c : Channel) : M CW unit :=
  modify (fun s => set_chans (<[k := c]> (chans s)) s).

Definition drop_caps (caps : list Capability) : M World unit :=
  for_each (fun c => emit (DropRef (cap_object c))) caps.

(** ** Messages *)

(** [Message::new]. *)
Definition message_new (bytes : list Z) (caps : list Capability) : M World Message :=
  n ← gets next_message_id;
  modify (set_next_message_id (wrap64 (n + 1))) ;;
  mret (mkMessage n bytes caps None false).

(** [Message::charge_queue]. *)
Definition charge_queue (d : Koid) (m : Message) : M World (bool * Message) :=
  let bytes := Z.of_nat (length (msg_bytes m)) in
  ok ← try_charge_ipc_queue d bytes;
  if negb ok then mret (false, m) else mret (true, set_charge (Some (mkCharge d bytes)) m).

(** [Message::take_queue_charge]: the charge refunds itself when it is dropped. *)
Definition take_queue_charge (m : Message) : M World Message :=
  match queue_charge m with
  | Some q => uncharge_ipc_queue (charge_domain q) (charge_bytes q)
  | None => mret tt
  end ;;
  mret (set_charge None m).

Definition release_queue_charge (m : Message) : M World Message := take_queue_charge m.

(** ** Endpoints *)

Definition new_endpoint (limit : Z) : Channel := mkChannel vec_new limit 0 None.

Definition try_create_with_depth (depth : Z) : M CW (option (Koid * Koid)) :=
  let limit := if depth =? 0 then CHANNEL_QUEUE_DEFAULT else Z.max 1 (Z.min depth CHANNEL_QUEUE_MAX) in
  a ← on_cworld fresh_koid;
  arc ← on_cworld (with_heap heap_ask);
  match arc with
  | None => mret None
  | Some _ =>
      b ← on_cworld fresh_koid;
      arc ← on_cworld (with_heap heap_ask);
      match arc with
      | None => mret None
      | Some _ =>
          put_chan a (set_peer_link (Some b) (new_endpoint limit)) ;;
          put_chan b (set_peer_link (Some a) (new_endpoint limit)) ;;
          mret (Some (a, b))
      end
  end.

(** [Channel::create]. *)
Definition create : M CW (Koid * Koid) :=
  r ← try_create_with_depth 0; assert_some r.

(** [Channel::depth]: what is queued plus what a receive holds undelivered. *)
Definition depth (c : Channel) : Z := wrap64 (Z.of_nat (vec_len (inbox c)) + in_flight c).

(** [Channel::peer]: the weak link upgraded. *)
Definition chan_peer (cs : gmap Koid Channel) (c : Channel) : option Koid :=
  match peer_link c with
  | Some p => match cs !! p with Some _ => Some p | None => None end
  | None => None
  end.

Definition peer_koid (cs : gmap Koid Channel) (c : Channel) : option Koid := chan_peer cs c.
Definition peer_unread (cs : gmap Koid Channel) (c : Channel) : option nat :=
  p ← chan_peer cs c; P ← cs !! p; Some (vec_len (inbox P)).
Definition is_peer_closed (cs : gmap Koid Channel) (c : Channel) : bool :=
  match chan_peer cs c with Some _ => false | None => true end.
Definition is_readable (cs : gmap Koid Channel) (c : Channel) : bool :=
  negb (vec_len (inbox c) =? 0)%nat || is_peer_closed cs c.
Definition is_writable (cs : gmap Koid Channel) (c : Channel) : bool :=
  match chan_peer cs c with
  | Some p => match cs !! p with Some P => depth P <? queue_limit P | None => true end
  | None => true
  end.

(** ** Sending *)

Definition send_inner (self : Koid) (msg : Message) (sender : option Koid) :
    M CW (result unit (ChannelError * list Capability)) :=
  c ← get_chan self;
  cs ← gets chans;
  match chan_peer cs c with
  | None => mret (Err (PeerClosed, msg_caps msg))
  | Some p =>
      P ← get_chan p;
      if queue_limit P <=? depth P then mret (Err (Full, msg_caps msg))
      else
        '(ok, v) ← on_cworld (with_heap (try_reserve (inbox P) 1));
        put_chan p (set_inbox v P) ;;
        if negb ok then mret (Err (Full, msg_caps msg))
        else
          '(ok, msg) ← match sender with
                       | Some d => on_cworld (charge_queue d msg)
                       | None => mret (true, msg)
                       end;
          if negb ok then mret (Err (Full, msg_caps msg))
          else
            v ← on_cworld (with_heap (vec_push v msg));
            put_chan p (set_inbox v P) ;;
            on_cworld (emit (WakeMessage p)) ;;
            mret (Ok tt)
  end.

(** [Channel::send]: kernel IPC, not charged; the capabilities of a message that
    is not sent are dropped. *)
Definition send (self : Koid) (msg : Message) : M CW (result unit ChannelError) :=
  r ← send_inner self msg None;
  match r with
  | Ok _ => mret (Ok tt)
  | Err (e, caps) => on_cworld (drop_caps caps) ;; mret (Err e)
  end.

Definition send_charged_or_return (self : Koid) (msg : Message) (sender : Koid) :
    M CW (result unit (ChannelError * list Capability)) :=
  send_inner self msg (Some sender).

(** ** Receiving *)

Definition pop_front {A} (v : vec A) : option (A * vec A) :=
  match items v with
  | [] => None
  | x :: l => Some (x, Vec l (capacity v))
  end.

(** [VecDeque::push_front]: like a push, it grows infallibly when full. *)
Definition push_front {A} (v : vec A) (x : A) : M heap (vec A) :=
  if (vec_len v <? capacity v)%nat then mret (Vec (x :: items v) (capacity v))
  else
    answer ← heap_ask;
    match answer with
    | Some slack => mret (Vec (x :: items v) (S (vec_len v) + slack)%nat)
    | None => abort
    end.

Definition wake_peer (self : Channel) : M CW unit :=
  cs ← gets chans;
  match chan_peer cs self with
  | Some p => on_cworld (emit (WakeObject p))
  | None => mret tt
  end.

Definition recv (self : Koid) : M CW (result Message ChannelError) :=
  c ← get_chan self;
  let was_full := queue_limit c <=? depth c in
  match pop_front (inbox c) with
  | Some (msg, v) =>
      put_chan self (set_inbox v c) ;;
      msg ← on_cworld (release_queue_charge msg);
      (if was_full then wake_peer c else mret tt) ;;
      mret (Ok msg)
  | None =>
      cs ← gets chans;
      mret (Err (if is_peer_closed cs c then PeerClosed else Empty))
  end.

(** [Channel::return_to_head]. *)
Definition return_to_head (self : Koid) (msg : Message) : M CW unit :=
  c ← get_chan self;
  let c := if slot_in_flight msg then set_in_flight (wrap64 (in_flight c - 1)) c else c in
  v ← on_cworld (with_heap (push_front (inbox c) (set_in_flight_slot false msg)));
  put_chan self (set_inbox v c) ;;
  on_cworld (emit (WakeObject self)).

(** [Channel::commit_delivery]: the message as it is left, its charge released. *)
Definition commit_delivery (self : Koid) (msg : Message) : M CW Message :=
  msg ← on_cworld (release_queue_charge msg);
  c ← get_chan self;
  if slot_in_flight msg then
    let was := in_flight c in
    put_chan self (set_in_flight (wrap64 (was - 1)) c) ;;
    (if queue_limit c <=? wrap64 (Z.of_nat (vec_len (inbox c)) + was) then wake_peer c else mret tt) ;;
    mret (set_in_flight_slot false msg)
  else mret msg.

Definition recv_identified (self : Koid) (id bytes_cap : Z) (cap_slots : nat) :
    M CW (result Message RecvRefusal) :=
  c ← get_chan self;
  match pop_front (inbox c) with
  | Some (msg, v) =>
      if negb (msg_id msg =? id) then mret (Err Superseded)
      else if bytes_cap <? Z.of_nat (length (msg_bytes msg)) then mret (Err TooLarge)
      else if (cap_slots <? length (msg_caps msg))%nat then mret (Err TooManyCaps)
      else
        put_chan self (set_in_flight (wrap64 (in_flight c + 1)) (set_inbox v c)) ;;
        mret (Ok (set_in_flight_slot true msg))
  | None =>
      cs ← gets chans;
      mret (Err (Gone (if is_peer_closed cs c then PeerClosed else Empty)))
  end.

Definition peek_identified (self : Koid) : M CW (result (Z * nat * nat) ChannelError) :=
  c ← get_chan self;
  match items (inbox c) with
  | msg :: _ => mret (Ok (msg_id msg, length (msg_bytes msg), length (msg_caps msg)))
  | [] =>
      cs ← gets chans;
      mret (Err (if is_peer_closed cs c then PeerClosed else Empty))
  end.

Definition peek_shape (self : Koid) : M CW (result (nat * nat) ChannelError) :=
  r ← peek_identified self;
  mret (match r with Ok (_, bytes, caps) => Ok (bytes, caps) | Err e => Err e end).

Definition peek_len (self : Koid) : M CW (result nat ChannelError) :=
  r ← peek_shape self;
  mret (match r with Ok (bytes, _) => Ok bytes | Err e => Err e end).

(** ** Closing an endpoint *)

(** The loop of [impl Drop for Channel]: each message is refunded, then dropped
    with the capabilities it carried. *)
Definition drop_message (msg : Message) : M World unit :=
  msg ← take_queue_charge msg; drop_caps (msg_caps msg).

Definition drop_channel (self : Koid) : M CW unit :=
  c ← get_chan self;
  modify (fun s => set_chans (delete self (chans s)) s) ;;
  on_cworld (for_each drop_message (items (inbox c))) ;;
  wake_peer c.
