(* ===== verification/ChannelFacts.v ===== *)
(** One channel endpoint under any interleaving of senders and receivers: the
    depth bound, the exact accounting of queued bytes, and what each operation
    does to the queue. *)

From S2P Require Import Prelude Object Domain DomainFacts Handle HandleFacts Channel.

(** ** What queued messages owe *)

(** The bytes of one charge that [a] accounts: those of its payer's chain. *)
Definition owed1 (ds : gmap Koid Domain) (a : Koid) (q : QueueCharge) : Z :=
  if decide (a ∈ chain_of ds (charge_domain q)) then charge_bytes q else 0.

Fixpoint owed (ds : gmap Koid Domain) (qs : list QueueCharge) (a : Koid) : Z :=
  match qs with
  | [] => 0
  | q :: qs => owed1 ds a q + owed ds qs a
  end.

(** The charges some messages carry. *)
Definition charges (ms : list Message) : list QueueCharge := omap queue_charge ms.

#[global] Arguments charges : simpl never.

(** A charge names an existing Domain and a length. *)
Definition charge_ok (ds : gmap Koid Domain) (q : QueueCharge) : Prop :=
  0 <= charge_domain q /\ is_Some (ds !! charge_domain q) /\ 0 <= charge_bytes q.

Section owed.
Implicit Types (ds : gmap Koid Domain) (qs : list QueueCharge).

Lemma owed_perm ds qs qs' a : qs ≡ₚ qs' -> owed ds qs a = owed ds qs' a.
Proof. induction 1; simpl; lia. Qed.

Lemma owed1_nonneg ds q a : charge_ok ds q -> 0 <= owed1 ds a q.
Proof. intros (_ & _ & ?). unfold owed1. case_decide; lia. Qed.

Lemma owed_nonneg ds qs a : Forall (charge_ok ds) qs -> 0 <= owed ds qs a.
Proof. induction 1 as [| q qs Hq _ IH]; simpl; [lia |]. pose proof (owed1_nonneg ds q a Hq). lia. Qed.

(** The tree decides who owes; usage does not. *)
Lemma owed1_same_tree ds ds' q a : same_tree ds ds' -> owed1 ds' a q = owed1 ds a q.
Proof.
  intros Hs. unfold owed1. assert (chain_of ds' (charge_domain q) = chain_of ds (charge_domain q)) as ->; [| done].
  symmetry. by apply chain_of_proper.
Qed.

Lemma owed_same_tree ds ds' qs a : same_tree ds ds' -> owed ds' qs a = owed ds qs a.
Proof. intros Hs. induction qs as [| q qs IH]; simpl; [done |]. by rewrite IH, (owed1_same_tree ds ds' q a Hs). Qed.

Lemma charge_ok_same_tree ds ds' q : same_tree ds ds' -> charge_ok ds q -> charge_ok ds' q.
Proof.
  intros Hs (? & [D HD] & ?). split; [done |]. split; [| done]. specialize (Hs (charge_domain q)).
  rewrite HD in Hs. by destruct (ds' !! charge_domain q).
Qed.

End owed.

(** The in-transit usage of every Domain is [base] plus what the charges owe. *)
Record owing (base ds : gmap Koid Domain) (qs : list QueueCharge) : Prop := {
  owing_wf : domains_wf ds;
  owing_tree : same_tree base ds;
  owing_base : forall a u, usage IpcQueue base a = Some u -> 0 <= u;
  owing_usage : forall a, usage IpcQueue ds a = (fun u => u + owed ds qs a) <$> usage IpcQueue base a;
  owing_charges : Forall (charge_ok ds) qs;
}.

Lemma owing_perm base ds qs qs' : qs ≡ₚ qs' -> owing base ds qs -> owing base ds qs'.
Proof.
  intros Hp [? ? ? Hu Hc]. split; try done; [| by rewrite <- Hp].
  intros a. rewrite Hu. by rewrite (owed_perm ds qs qs' a Hp).
Qed.

(** The in-transit accounts and the tree are as they were. *)
Record ipc_same (ds ds' : gmap Koid Domain) : Prop := {
  ipc_tree : same_tree ds ds';
  ipc_usage : forall a, usage IpcQueue ds' a = usage IpcQueue ds a;
}.

#[export] Instance ipc_same_preorder : PreOrder ipc_same.
Proof.
  split; [intros ds; split; [reflexivity | done] |]. intros ds1 ds2 ds3 [H1 U1] [H2 U2].
  split; [by etrans | intros a; by rewrite U2, U1].
Qed.

Lemma ipc_same_eq ds ds' : ds' = ds -> ipc_same ds ds'.
Proof. intros ->. reflexivity. Qed.

Lemma ipc_same_billed od delta w w' : billed od delta w w' -> ipc_same (domains w) (domains w').
Proof.
  intros [_ H]. destruct od as [d |]; [| by apply ipc_same_eq]. destruct H as [Ht Hu _]. split; [done |].
  intros a. rewrite Hu. destruct (usage IpcQueue (domains w) a); [| done]. cbn -[decide]. f_equal.
  case_decide; [naive_solver | lia].
Qed.

Lemma owing_ipc_same base ds ds' qs : ipc_same ds ds' -> owing base ds qs -> owing base ds' qs.
Proof.
  intros [Hs Hus] [Hwf Ht Hb Hu Hc]. split; try done.
  - by eapply domains_wf_same_tree.
  - by etrans.
  - intros a. rewrite Hus, Hu. by rewrite (owed_same_tree ds ds' qs a Hs).
  - eapply Forall_impl; [exact Hc |]. intros ? ?. by eapply charge_ok_same_tree.
Qed.

(** Charging one more, refunding one. *)
Lemma owing_cons base ds ds' qs q :
  owing base ds qs -> charge_ok ds q ->
  shifted IpcQueue (chain_of ds (charge_domain q)) (charge_bytes q) ds ds' ->
  owing base ds' (q :: qs).
Proof.
  intros [Hwf Ht Hb Hu Hc] Hq [Hs Hus _]. split; try done.
  - by eapply domains_wf_same_tree.
  - by etrans.
  - intros a. rewrite Hus, Hu. destruct (usage IpcQueue base a) as [u |]; simpl; [| done]. f_equal.
    rewrite (owed_same_tree ds ds' qs a Hs), (owed1_same_tree ds ds' q a Hs). unfold owed1.
    repeat case_decide; try tauto; lia.
  - constructor; [by eapply charge_ok_same_tree |]. eapply Forall_impl; [exact Hc |].
    intros ? ?. by eapply charge_ok_same_tree.
Qed.

Lemma owing_refund base ds ds' qs q :
  owing base ds (q :: qs) ->
  shifted IpcQueue (chain_of ds (charge_domain q)) (- charge_bytes q) ds ds' ->
  owing base ds' qs.
Proof.
  intros [Hwf Ht Hb Hu Hc] [Hs Hus _]. inversion Hc as [| ? ? Hq Hqs]; subst. split; try done.
  - by eapply domains_wf_same_tree.
  - by etrans.
  - intros a. rewrite Hus, Hu. destruct (usage IpcQueue base a) as [u |]; simpl; [| done]. f_equal.
    rewrite (owed_same_tree ds ds' qs a Hs). unfold owed1. repeat case_decide; try tauto; lia.
  - eapply Forall_impl; [exact Hqs |]. intros ? ?. by eapply charge_ok_same_tree.
Qed.

(** Whoever owes [q] accounts at least its bytes. *)
Lemma owing_covers base ds qs q a u :
  owing base ds (q :: qs) -> a ∈ chain_of ds (charge_domain q) -> usage IpcQueue ds a = Some u ->
  charge_bytes q <= u.
Proof.
  intros [_ _ Hb Hu Hc] Ha Hua. rewrite Hu in Hua. destruct (usage IpcQueue base a) as [u0 |] eqn:E; simplify_eq/=.
  inversion Hc; subst. pose proof (owed_nonneg ds qs a ltac:(done)). specialize (Hb a u0 E).
  unfold owed1. rewrite decide_True by done. lia.
Qed.

Lemma charges_app ms ms' : charges (ms ++ ms') = charges ms ++ charges ms'.
Proof. apply omap_app. Qed.

Lemma charges_perm ms ms' : ms ≡ₚ ms' -> charges ms ≡ₚ charges ms'.
Proof. intros Hp. unfold charges. by rewrite Hp. Qed.

Lemma charges_slot b m ms : charges (set_in_flight_slot b m :: ms) = charges (m :: ms).
Proof. done. Qed.

(** Refunding the charge of a message, if it has one. *)
Lemma wp_take_queue_charge base m ms w (Q : Message -> World -> Prop) :
  owing base (domains w) (charges (m :: ms)) ->
  (forall ds', owing base ds' (charges ms) -> (exists C delta, shifted IpcQueue C delta (domains w) ds') ->
     Q (set_charge None m) (set_domains ds' w)) ->
  wp (take_queue_charge m) Q w.
Proof.
  intros Ho HQ. unfold take_queue_charge, charges in *. simpl in Ho. wp_step.
  destruct (queue_charge m) as [q |].
  - pose proof (owing_charges _ _ _ Ho) as Hc. inversion Hc as [| ? ? (Hd & Hs & Hb) _]; subst.
    apply wp_uncharge_low; try done; [apply Ho | by intros; eapply owing_covers |].
    intros ds' Hsh. wp_step. apply HQ; [by eapply owing_refund | eauto].
  - wp_step. wp_step. specialize (HQ (domains w) Ho). rewrite set_domains_id in HQ. apply HQ.
    exists [], 0. apply shifted_refl.
Qed.

(** Charging a fresh message: the Domain refuses and nothing moves, or the
    message carries a charge for exactly its length. *)
Lemma wp_charge_queue base d m ms w (Q : bool * Message -> World -> Prop) :
  owing base (domains w) (charges ms) -> queue_charge m = None ->
  0 <= d -> is_Some (domains w !! d) ->
  (forall a u, a ∈ chain_of (domains w) d -> usage IpcQueue (domains w) a = Some u ->
     u + Z.of_nat (length (msg_bytes m)) <= U64_MAX) ->
  Q (false, m) w ->
  (forall ds', let m' := set_charge (Some (mkCharge d (Z.of_nat (length (msg_bytes m))))) m in
     owing base ds' (charges (m' :: ms)) ->
     shifted IpcQueue (chain_of (domains w) d) (Z.of_nat (length (msg_bytes m))) (domains w) ds' ->
     Q (true, m') (set_domains ds' w)) ->
  wp (charge_queue d m) Q w.
Proof.
  intros Ho Hm Hd Hs Hroom Hno Hyes. unfold charge_queue. wp_step.
  eapply (wp_try_charge_hier IpcQueue d _ 0 (Z.of_nat (length (msg_bytes m)))); [| lia | lia | | cbn [negb]; by wp_step].
  - split; [apply Ho |]. split; [done |]. split; [done |]. intros a u Ha Hu. specialize (Hroom a u Ha Hu).
    rewrite (owing_usage _ _ _ Ho) in Hu. destruct (usage IpcQueue base a) as [u0 |] eqn:E; simplify_eq/=.
    pose proof (owing_base _ _ _ Ho a u0 E). pose proof (owed_nonneg _ _ a (owing_charges _ _ _ Ho)). lia.
  - intros ds' Hsh. cbn [negb]. wp_step. apply Hyes; [| exact Hsh]. unfold charges. simpl.
    eapply owing_cons; [exact Ho | | exact Hsh]. split; [done |]. split; [done | simpl; lia].
Qed.

(** ** An endpoint in service *)

(** The system, the messages receivers have taken and not resolved, and the
    identities sent to and delivered from the endpoint. *)
Record EP := mkEP { ep_sys : CW; ep_held : list Message; ep_sent : list Z; ep_done : list Z }.

Record chan_inv (base ds : gmap Koid Domain) (held : list Message) (c : Channel) : Prop := {
  ci_flight : in_flight c = Z.of_nat (length held);
  ci_limit : queue_limit c <= CHANNEL_QUEUE_MAX;
  ci_depth : Z.of_nat (vec_len (inbox c)) + Z.of_nat (length held) <= queue_limit c;
  ci_held : Forall (fun m => slot_in_flight m = true) held;
  ci_queued : Forall (fun m => slot_in_flight m = false) (items (inbox c));
  ci_owing : owing base ds (charges (held ++ items (inbox c)));
}.

Definition ids (ms : list Message) : list Z := msg_id <$> ms.

Definition ep_inv (base : gmap Koid Domain) (k : Koid) (e : EP) : Prop :=
  exists c, chans (ep_sys e) !! k = Some c /\
    chan_inv base (domains (cworld (ep_sys e))) (ep_held e) c /\
    ep_sent e ≡ₚ ep_done e ++ ids (ep_held e) ++ ids (items (inbox c)).

Lemma depth_small base ds held c :
  chan_inv base ds held c -> depth c = Z.of_nat (vec_len (inbox c)) + Z.of_nat (length held).
Proof.
  intros [Hf Hl Hd _ _ _]. unfold depth. rewrite Hf. apply wrap64_small. unfold u64_range, CHANNEL_QUEUE_MAX in *. lia.
Qed.

Lemma chan_inv_ipc_same base ds ds' held c : ipc_same ds ds' -> chan_inv base ds held c -> chan_inv base ds' held c.
Proof. intros Hi []. split; try done. by eapply owing_ipc_same. Qed.

(** A message a sender may hand over: not charged, not taken, and payable. *)
Definition sendable (ds : gmap Koid Domain) (sender : option Koid) (m : Message) : Prop :=
  queue_charge m = None /\ slot_in_flight m = false /\
  match sender with
  | Some d => 0 <= d /\ is_Some (ds !! d) /\
      forall a u, a ∈ chain_of ds d -> usage IpcQueue ds a = Some u ->
        u + Z.of_nat (length (msg_bytes m)) <= U64_MAX
  | None => True
  end.

Inductive ep_step (k : Koid) : EP -> EP -> Prop :=
| step_send from f sender m r s' e :
    chans (ep_sys e) !! from = Some f -> peer_link f = Some k ->
    sendable (domains (cworld (ep_sys e))) sender m ->
    send_inner from m sender (ep_sys e) = Some (r, s') ->
    ep_step k e (mkEP s' (ep_held e) (if is_ok r then ep_sent e ++ [msg_id m] else ep_sent e) (ep_done e))
| step_take id bytes_cap cap_slots r s' e :
    recv_identified k id bytes_cap cap_slots (ep_sys e) = Some (r, s') ->
    ep_step k e (mkEP s' (match r with Ok m => m :: ep_held e | Err _ => ep_held e end) (ep_sent e) (ep_done e))
| step_return l1 m l2 s' e :
    ep_held e = l1 ++ m :: l2 -> return_to_head k m (ep_sys e) = Some (tt, s') ->
    ep_step k e (mkEP s' (l1 ++ l2) (ep_sent e) (ep_done e))
| step_commit l1 m l2 m' s' e :
    ep_held e = l1 ++ m :: l2 -> commit_delivery k m (ep_sys e) = Some (m', s') ->
    ep_step k e (mkEP s' (l1 ++ l2) (ep_sent e) (ep_done e ++ [msg_id m]))
| step_recv r s' e :
    recv k (ep_sys e) = Some (r, s') ->
    ep_step k e (mkEP s' (ep_held e) (ep_sent e)
                   (match r with Ok m => ep_done e ++ [msg_id m] | Err _ => ep_done e end)).

Section endpoint.
Context (base : gmap Koid Domain) (k : Koid).
Implicit Types (s : CW) (c : Channel) (m : Message).

Lemma run_get_chan s c : chans s !! k = Some c -> get_chan k s = Some (c, s).
Proof. intros E. unfold get_chan. by rewrite E. Qed.

Lemma wp_on_cworld {A} (m : M World A) Q s :
  wp m (fun a w => Q a (set_cworld w s)) (cworld s) -> wp (on_cworld m) Q s.
Proof. intros H. by apply wp_zoom. Qed.

Lemma wp_get_chan j s c (Q : Channel -> CW -> Prop) :
  chans s !! j = Some c -> Q c s -> wp (get_chan j) Q s.
Proof. intros E HQ. unfold wp, get_chan. by rewrite E. Qed.

Lemma cw_same_domains s : set_cworld (set_domains (domains (cworld s)) (cworld s)) s = s.
Proof. by destruct s as [? []]. Qed.

Lemma wp_send_inner from f sender m held c s :
  chans s !! from = Some f -> peer_link f = Some k -> chans s !! k = Some c ->
  chan_inv base (domains (cworld s)) held c -> sendable (domains (cworld s)) sender m ->
  wp (send_inner from m sender) (fun r s' => exists c',
    chans s' = <[k := c']> (chans s) /\ chan_inv base (domains (cworld s')) held c' /\
    queue_limit c' = queue_limit c /\ world_frame (cworld s) (cworld s') /\
    match r with
    | Ok _ => exists m', items (inbox c') = items (inbox c) ++ [m'] /\ msg_id m' = msg_id m /\
        msg_bytes m' = msg_bytes m /\ msg_caps m' = msg_caps m /\ queue_charge m' =
          (fun d => mkCharge d (Z.of_nat (length (msg_bytes m)))) <$> sender /\
        effects (cworld s') = effects (cworld s) ++ [WakeMessage k] /\
        match sender with
        | Some d => shifted IpcQueue (chain_of (domains (cworld s)) d) (Z.of_nat (length (msg_bytes m)))
                      (domains (cworld s)) (domains (cworld s'))
        | None => domains (cworld s') = domains (cworld s)
        end
    | Err (e, caps) => items (inbox c') = items (inbox c) /\ caps = msg_caps m /\ e = Full /\
        domains (cworld s') = domains (cworld s) /\ effects (cworld s') = effects (cworld s) /\
        exists cap, c' = set_inbox (Vec (items (inbox c)) cap) c
    end) s.
Proof.
  intros Ef Hp Ek Hinv (Hq & Hslot & Hpay). pose proof Hinv as [Hf Hl Hd Hh Hi Ho].
  unfold send_inner. wp_step. eapply wp_get_chan; [exact Ef |]. wp_steps. unfold chan_peer. rewrite Hp, Ek.
  wp_step. eapply wp_get_chan; [exact Ek |]. rewrite (depth_small _ _ _ _ Hinv).
  destruct (Z.leb_spec (queue_limit c) (Z.of_nat (vec_len (inbox c)) + Z.of_nat (length held))) as [Hfull | Hroom].
  { wp_step. exists c. rewrite insert_id by done. do 4 (split; [done |]). do 5 (split; [done |]).
    exists (capacity (inbox c)). by destruct c as [[? ?] ? ? ?]. }
  wp_step. apply wp_on_cworld. unfold with_heap. wp_step. apply wp_try_reserve.
  intros ok cap h Hok Hcap _. wp_step. unfold put_chan. wp_step.
  assert (forall ms, chan_inv base (domains (cworld s)) held (set_inbox (Vec (items (inbox c)) ms) c)) as Hsame by (by split).
  destruct ok; simpl; [specialize (Hok eq_refl) |]; last first.
  { wp_step. eexists. split; [done |]. split; [apply Hsame |]. split; [done |]. split; [by split |]. eauto 10. }
  set (s1 := set_chans _ _).
  assert (forall m' ds', owing base ds' (charges (m' :: held ++ items (inbox c))) -> slot_in_flight m' = false ->
    chan_inv base ds' held (set_inbox (Vec (items (inbox c) ++ [m']) cap) c)) as Hpush.
  { intros m' ds' Ho' Hs'. split; simpl; try done.
    - unfold vec_len in *. simpl. rewrite length_app. simpl. lia.
    - apply Forall_app. split; [done | by apply Forall_singleton].
    - eapply owing_perm; [| exact Ho']. apply charges_perm.
      rewrite app_assoc. apply Permutation_cons_append. }
  wp_step. apply wp_mono with (Q := fun '(ok, m') s' => exists ds', s' = set_cworld (set_domains ds' (cworld s1)) s1 /\
    if (ok : bool) then owing base ds' (charges (m' :: held ++ items (inbox c))) /\
      m' = set_charge ((fun d => mkCharge d (Z.of_nat (length (msg_bytes m)))) <$> sender) m /\
      match sender with
      | Some d => shifted IpcQueue (chain_of (domains (cworld s)) d) (Z.of_nat (length (msg_bytes m)))
                    (domains (cworld s)) ds'
      | None => ds' = domains (cworld s)
      end
    else ds' = domains (cworld s) /\ m' = m).
  { destruct sender as [d |].
    - apply wp_on_cworld. destruct Hpay as (Hd0 & Hds & Hhead).
      eapply wp_charge_queue with (base := base) (ms := held ++ items (inbox c)); try done.
      + exists (domains (cworld s)). split; [| done]. symmetry. apply (cw_same_domains s1).
      + intros ds' m' Ho' Hsh. exists ds'. done.
    - wp_step. exists (domains (cworld s)). split; [symmetry; apply (cw_same_domains s1) |]. unfold charges. simpl. rewrite Hq.
      split; [exact Ho |]. split; [| done]. destruct m; simpl in *; by subst. }
  intros [ok m'] s2 (ds' & -> & Hres). destruct ok; simpl.
  - destruct Hres as (Ho' & Hm' & Hds). wp_step. apply wp_on_cworld. wp_step.
    eapply run_wp; [apply vec_push_room; unfold vec_len in *; simpl; lia |]. wp_step. wp_step. wp_step.
    apply wp_on_cworld, wp_modify. wp_step. simpl. eexists. split; [by rewrite insert_insert_eq |].
    split; [apply Hpush; [exact Ho' | by rewrite Hm'] |]. split; [done |]. split; [by split |].
    exists m'. split; [done |]. rewrite Hm'. done.
  - destruct Hres as [-> ->]. wp_step. eexists. split; [done |]. split; [apply Hsame |]. split; [done |].
    split; [by split |]. eauto 10.
Qed.

Lemma pop_front_spec (v : vec Message) :
  (items v = [] /\ pop_front v = None) \/
  exists m l, items v = m :: l /\ pop_front v = Some (m, Vec l (capacity v)).
Proof. unfold pop_front. destruct (items v) as [| m l]; [by left | right; eauto]. Qed.

(** The endpoint while its head is in a receiver's hands. *)
Definition head_taken (c : Channel) (rest : list Message) : Channel :=
  set_in_flight (in_flight c + 1) (set_inbox (Vec rest (capacity (inbox c))) c).

Lemma chan_inv_head_taken ds held c m rest :
  chan_inv base ds held c -> items (inbox c) = m :: rest ->
  chan_inv base ds (set_in_flight_slot true m :: held) (head_taken c rest).
Proof.
  intros [Hf Hl Hd Hh Hi Ho] E. unfold vec_len in *. rewrite E in *. simpl in *. inversion Hi; subst.
  split; unfold vec_len; simpl; try done; try lia.
  - by constructor.
  - rewrite charges_slot. eapply owing_perm; [| exact Ho]. apply charges_perm. symmetry. apply Permutation_middle.
Qed.

Lemma wp_recv_identified id bytes_cap cap_slots held c s :
  chans s !! k = Some c -> chan_inv base (domains (cworld s)) held c ->
  wp (recv_identified k id bytes_cap cap_slots) (fun r s' =>
    match r with
    | Ok m => exists m0 l c', items (inbox c) = m0 :: l /\ m = set_in_flight_slot true m0 /\
        msg_id m = id /\ Z.of_nat (length (msg_bytes m)) <= bytes_cap /\ (length (msg_caps m) <= cap_slots)%nat /\
        s' = set_chans (<[k := c']> (chans s)) s /\
        chan_inv base (domains (cworld s)) (m :: held) c' /\ items (inbox c') = l /\
        depth c' = depth c /\ inbox c' = Vec l (capacity (inbox c)) /\ queue_limit c' = queue_limit c /\
        peer_link c' = peer_link c
    | Err _ => s' = s
    end) s.
Proof.
  intros Ek Hinv. pose proof Hinv as [Hf Hl Hd Hh Hi Ho]. unfold recv_identified. wp_step.
  eapply wp_get_chan; [exact Ek |].
  destruct (pop_front_spec (inbox c)) as [[E ->] | (m & l & E & ->)]; [by wp_steps |].
  destruct (Z.eqb_spec (msg_id m) id) as [Hid | _]; simpl; [| by wp_step].
  destruct (Z.ltb_spec bytes_cap (Z.of_nat (length (msg_bytes m)))); [by wp_step |].
  destruct (Nat.ltb_spec cap_slots (length (msg_caps m))); [by wp_step |].
  unfold put_chan. wp_step. wp_step. wp_step. rewrite wrap64_small by (unfold u64_range, CHANNEL_QUEUE_MAX in *; lia).
  pose proof (chan_inv_head_taken _ _ _ _ _ Hinv E) as Hinv'. unfold head_taken in Hinv'.
  exists m, l. eexists. split; [done |]. split; [done |]. split; [done |]. split; [done |]. split; [done |].
  split; [done |]. split; [exact Hinv' |]. split; [done |]. split; [| done].
  rewrite (depth_small _ _ _ _ Hinv), (depth_small _ _ _ _ Hinv'). unfold vec_len. simpl. rewrite E. simpl. lia.
Qed.

Lemma wp_recv_head id bytes_cap cap_slots held c s :
  chans s !! k = Some c -> chan_inv base (domains (cworld s)) held c ->
  wp (recv_identified k id bytes_cap cap_slots) (fun r s' =>
    match r with
    | Ok m => exists m0 rest, items (inbox c) = m0 :: rest /\ m = set_in_flight_slot true m0 /\ msg_id m0 = id /\
        Z.of_nat (length (msg_bytes m)) <= bytes_cap /\ (length (msg_caps m) <= cap_slots)%nat /\
        s' = set_chans (<[k := head_taken c rest]> (chans s)) s /\
        chan_inv base (domains (cworld s)) (m :: held) (head_taken c rest)
    | Err _ => s' = s
    end) s.
Proof.
  intros Ek Hinv. eapply wp_mono; [by eapply wp_recv_identified |]. intros [m | e] s'; [| done].
  intros (m0 & l & c' & Hi & -> & Hid & Hb & Hcs & -> & Hinv' & _ & _ & Hin & Hq & Hp). exists m0, l.
  assert (c' = head_taken c l) as ->; [| done]. pose proof (ci_flight _ _ _ _ Hinv) as H1.
  pose proof (ci_flight _ _ _ _ Hinv') as H2. destruct c as [[? ?] ? ? ?], c' as [[? ?] ? ? ?]. unfold head_taken, set_in_flight, set_inbox.
  simpl in *. simplify_eq. f_equal. lia.
Qed.

(** Put back into the ring it left, the head is where it was. *)
Lemma run_return_head m0 rest c s :
  chans s !! k = Some (head_taken c rest) -> items (inbox c) = m0 :: rest -> slot_in_flight m0 = false ->
  0 <= in_flight c < U64_MAX -> (vec_len (inbox c) <= capacity (inbox c))%nat ->
  return_to_head k (set_in_flight_slot true m0) s =
    Some (tt, mkCW (<[k := c]> (chans s)) (emit_in (WakeObject k) (cworld s))).
Proof.
  intros Ek Hi Hs Hf Hwf. unfold return_to_head, get_chan, on_cworld, with_heap, zoom, put_chan, emit, modify, mbind, M_bind.
  rewrite Ek. simpl. rewrite wrap64_small by (unfold u64_range; lia). unfold push_front, vec_len in *. rewrite Hi in Hwf. simpl in *.
  destruct (Nat.ltb_spec (length rest) (capacity (inbox c))); [| lia]. unfold mret, M_ret. simpl. f_equal. f_equal.
  unfold set_chans, set_cworld. simpl. f_equal. f_equal. destruct c as [[its cp] ql fl pl], m0; simpl in *. subst.
  unfold set_inbox, set_in_flight, set_in_flight_slot. simpl. f_equal. lia.
Qed.

(** The put-back, when the ring has a free place for it. *)
Lemma wp_return_to_head l1 m l2 c s :
  chans s !! k = Some c -> chan_inv base (domains (cworld s)) (l1 ++ m :: l2) c ->
  (exists h' cap, with_heap (push_front (inbox c) (set_in_flight_slot false m)) (cworld s) =
     Some (Vec (set_in_flight_slot false m :: items (inbox c)) cap, set_heap h' (cworld s))) ->
  wp (return_to_head k m) (fun _ s' => exists c' w',
    s' = mkCW (<[k := c']> (chans s)) w' /\ chan_inv base (domains w') (l1 ++ l2) c' /\
    items (inbox c') = set_in_flight_slot false m :: items (inbox c) /\ depth c' = depth c /\
    in_flight c' = in_flight c - 1 /\ queue_limit c' = queue_limit c /\ peer_link c' = peer_link c /\
    effects w' = effects (cworld s) ++ [WakeObject k]) s.
Proof.
  intros Ek Hinv (h' & cap & Hpush). pose proof Hinv as [Hf Hl Hd Hh Hi Ho]. unfold return_to_head. wp_step.
  eapply wp_get_chan; [exact Ek |]. rewrite length_app in *. simpl in *.
  apply Forall_app in Hh as [Hh1 Hh2]. inversion Hh2 as [| ? ? Hm Hh2']; subst. rewrite Hm. wp_step.
  rewrite wrap64_small by (unfold u64_range, CHANNEL_QUEUE_MAX in *; lia).
  apply wp_on_cworld. eapply run_wp; [exact Hpush |]. unfold put_chan. wp_step. wp_step.
  apply wp_on_cworld, wp_modify. simpl. eexists _, _. split; [done |].
  assert (chan_inv base (domains (cworld s)) (l1 ++ l2)
    (set_inbox (Vec (set_in_flight_slot false m :: items (inbox c)) cap) (set_in_flight (in_flight c - 1) c))) as Hinv'.
  { unfold vec_len in *. split; unfold vec_len; simpl; try done; rewrite ?length_app; try lia.
    - by apply Forall_app.
    - by constructor.
    - eapply owing_perm with (qs := charges (set_in_flight_slot false m :: (l1 ++ l2) ++ items (inbox c))).
      + apply charges_perm, Permutation_middle.
      + rewrite charges_slot. eapply owing_perm; [| exact Ho]. apply charges_perm.
        rewrite <- !app_assoc. symmetry. apply Permutation_middle. }
  split; [exact Hinv' |]. split; [done |]. split; [| done].
  rewrite (depth_small _ _ _ _ Hinv), (depth_small _ _ _ _ Hinv'). unfold vec_len. simpl. rewrite !length_app. simpl. lia.
Qed.

Lemma wp_wake_peer c (Q : unit -> CW -> Prop) s :
  (forall es, es = (match chan_peer (chans s) c with Some p => [WakeObject p] | None => [] end) ->
     Q tt (set_cworld (mkWorld (domains (cworld s)) (generations (cworld s)) (live (cworld s)) (next_koid (cworld s))
       (next_message_id (cworld s)) (heap_of (cworld s)) (effects (cworld s) ++ es)) s)) ->
  wp (wake_peer c) Q s.
Proof.
  intros HQ. unfold wake_peer. wp_steps. destruct (chan_peer (chans s) c) as [p |].
  - apply wp_on_cworld, wp_modify. by apply HQ.
  - wp_step. specialize (HQ [] eq_refl). rewrite app_nil_r in HQ. by destruct s as [? []].
Qed.

Lemma wp_commit_delivery l1 m l2 c s :
  chans s !! k = Some c -> chan_inv base (domains (cworld s)) (l1 ++ m :: l2) c ->
  wp (commit_delivery k m) (fun m' s' => exists c' w',
    s' = mkCW (<[k := c']> (chans s)) w' /\ chan_inv base (domains w') (l1 ++ l2) c' /\
    m' = mkMessage (msg_id m) (msg_bytes m) (msg_caps m) None false /\
    items (inbox c') = items (inbox c) /\ depth c' = depth c - 1 /\ queue_limit c' = queue_limit c /\
    (exists C delta, shifted IpcQueue C delta (domains (cworld s)) (domains w')) /\
    generations w' = generations (cworld s) /\
    (queue_limit c <= depth c -> forall p, chan_peer (<[k := c']> (chans s)) c = Some p ->
       effects w' = effects (cworld s) ++ [WakeObject p])) s.
Proof.
  intros Ek Hinv. pose proof Hinv as [Hf Hl Hd Hh Hi Ho]. unfold commit_delivery. wp_step. apply wp_on_cworld.
  eapply (wp_take_queue_charge base m (l1 ++ l2 ++ items (inbox c))).
  { eapply owing_perm; [| exact Ho]. apply charges_perm. rewrite <- app_assoc. simpl.
    symmetry. apply Permutation_middle. }
  intros ds' Ho' Hsh. wp_step. eapply wp_get_chan; [exact Ek |]. rewrite length_app in *. simpl in *.
  apply Forall_app in Hh as [Hh1 Hh2]. inversion Hh2 as [| ? ? Hm Hh2']; subst. rewrite Hm.
  unfold put_chan. wp_step. wp_step.
  rewrite (wrap64_small (in_flight c - 1)) by (unfold u64_range, CHANNEL_QUEUE_MAX in *; lia).
  assert (chan_inv base ds' (l1 ++ l2) (set_in_flight (in_flight c - 1) c)) as Hinv'.
  { unfold vec_len in *. split; unfold vec_len; simpl; try done; rewrite ?length_app; try lia; [by apply Forall_app |].
    by rewrite <- app_assoc. }
  assert (depth (set_in_flight (in_flight c - 1) c) = depth c - 1) as Hdep.
  { rewrite (depth_small _ _ _ _ Hinv), (depth_small _ _ _ _ Hinv'). unfold vec_len. simpl. rewrite !length_app. simpl. lia. }
  change (wrap64 (Z.of_nat (vec_len (inbox c)) + in_flight c)) with (depth c).
  wp_step. destruct (Z.leb_spec (queue_limit c) (depth c)).
  - apply wp_wake_peer. intros es Hes. wp_step. eexists _, _. split; [done |]. split; [exact Hinv' |].
    do 6 (split; [done |]). intros _ p Hp. simpl in Hes |- *. rewrite Hp in Hes. by subst es.
  - wp_step. wp_step. eexists _, _. split; [done |]. split; [exact Hinv' |]. do 5 (split; [done |]). split; [done | lia].
Qed.

Lemma wp_recv held c s :
  chans s !! k = Some c -> chan_inv base (domains (cworld s)) held c ->
  wp (recv k) (fun r s' =>
    match r with
    | Ok m => exists m0 l c' w', items (inbox c) = m0 :: l /\ m = set_charge None m0 /\
        s' = mkCW (<[k := c']> (chans s)) w' /\ chan_inv base (domains w') held c' /\
        items (inbox c') = l /\ depth c' = depth c - 1 /\ queue_limit c' = queue_limit c /\
        (queue_limit c <= depth c -> forall p, chan_peer (<[k := c']> (chans s)) c = Some p ->
       effects w' = effects (cworld s) ++ [WakeObject p])
    | Err e => s' = s /\ items (inbox c) = []
    end) s.
Proof.
  intros Ek Hinv. pose proof Hinv as [Hf Hl Hd Hh Hi Ho]. unfold recv. wp_step. eapply wp_get_chan; [exact Ek |].
  destruct (pop_front_spec (inbox c)) as [[E ->] | (m & l & E & ->)]; [by wp_steps |].
  unfold put_chan. wp_step. wp_step. wp_step. apply wp_on_cworld.
  eapply (wp_take_queue_charge base m (held ++ l)).
  { eapply owing_perm; [| exact Ho]. apply charges_perm. rewrite E. symmetry. apply Permutation_middle. }
  intros ds' Ho' _.
  assert (chan_inv base ds' held (set_inbox (Vec l (capacity (inbox c))) c)) as Hinv'.
  { unfold vec_len in *. rewrite E in *. simpl in *. inversion Hi; subst. split; simpl; try done. unfold vec_len. simpl. lia. }
  assert (depth (set_inbox (Vec l (capacity (inbox c))) c) = depth c - 1) as Hdep.
  { rewrite (depth_small _ _ _ _ Hinv), (depth_small _ _ _ _ Hinv'). unfold vec_len. simpl. rewrite E. simpl. lia. }
  wp_step. destruct (Z.leb_spec (queue_limit c) (depth c)).
  - apply wp_wake_peer. intros es Hes. wp_step. exists m, l. eexists _, _. split; [done |]. split; [done |].
    split; [done |]. split; [exact Hinv' |]. do 3 (split; [done |]).
    intros _ p Hp. simpl in Hes |- *. rewrite Hp in Hes. by subst es.
  - wp_step. wp_step. exists m, l. eexists _, _. split; [done |]. split; [done |]. split; [done |].
    split; [exact Hinv' |]. do 3 (split; [done |]). lia.
Qed.

End endpoint.
