(* ===== verification/ChannelProps.v ===== *)
(** The promises of a channel: the depth bound and the byte accounting under any
    interleaving, no loss, no duplication and order, the put-back of a message
    that could not be delivered, the refund at close, and the wake-up of a
    blocked sender. *)

From S2P Require Import Prelude Object Domain DomainFacts Handle Channel ChannelFacts.

(** Accounts a channel can be created over. *)
Definition accounts_ok (ds : gmap Koid Domain) : Prop :=
  domains_wf ds /\ forall a u, usage IpcQueue ds a = Some u -> 0 <= u.

Lemma try_create_spec d s a b s' :
  0 <= next_koid (cworld s) -> next_koid (cworld s) + 1 < U64_MAX -> 0 <= d ->
  try_create_with_depth d s = Some (Some (a, b), s') ->
  a <> b /\ domains (cworld s') = domains (cworld s) /\
  exists limit, 1 <= limit <= CHANNEL_QUEUE_MAX /\
    chans s' !! a = Some (mkChannel vec_new limit 0 (Some b)) /\
    chans s' !! b = Some (mkChannel vec_new limit 0 (Some a)).
Proof.
  intros Hk Hk' Hd. unfold try_create_with_depth, on_cworld, with_heap, zoom, fresh_koid, put_chan.
  unfold mbind, M_bind, gets, modify, mret, M_ret. cbn -[wrap64].
  rewrite wrap64_small by (unfold u64_range; lia). destruct (heap_of (cworld s)) as [| [sl |] h]; cbn -[wrap64]; [done | | done].
  destruct h as [| [sl' |] h]; cbn -[wrap64]; [done | | done]. intros [= <- <- <-]. cbn -[wrap64].
  split; [lia |]. split; [done |].
  exists (if d =? 0 then CHANNEL_QUEUE_DEFAULT else Z.max 1 (Z.min d CHANNEL_QUEUE_MAX)).
  split; [unfold CHANNEL_QUEUE_DEFAULT, CHANNEL_QUEUE_MAX; case_bool; lia |].
  rewrite lookup_insert_ne by lia. rewrite !lookup_insert_eq. done.
Qed.

Lemma new_chan_inv ds limit p :
  accounts_ok ds -> 1 <= limit <= CHANNEL_QUEUE_MAX ->
  chan_inv ds ds [] (mkChannel vec_new limit 0 p).
Proof.
  intros [Hwf Hu] Hl. split; unfold vec_len; simpl; try done; try lia. split; try done.
  intros a. destruct (usage IpcQueue ds a); simpl; [| done]. f_equal. lia.
Qed.

Lemma ids_app ms ms' : ids (ms ++ ms') = ids ms ++ ids ms'.
Proof. apply fmap_app. Qed.

(** A put-back that returned found a place. *)
Lemma return_found_place k m c s s' :
  chans s !! k = Some c -> return_to_head k m s = Some (tt, s') ->
  exists h' cap, with_heap (push_front (inbox c) (set_in_flight_slot false m)) (cworld s) =
    Some (Vec (set_in_flight_slot false m :: items (inbox c)) cap, set_heap h' (cworld s)).
Proof.
  intros Ek Hrun. unfold return_to_head in Hrun. erewrite run_bind in Hrun by (by apply run_get_chan).
  replace (inbox (if slot_in_flight m then set_in_flight (wrap64 (in_flight c - 1)) c else c)) with (inbox c)
    in Hrun by (by destruct (slot_in_flight m)).
  unfold on_cworld, with_heap, zoom, mbind, M_bind in Hrun |- *. unfold push_front in *.
  destruct (vec_len (inbox c) <? capacity (inbox c))%nat; [eexists _, _; reflexivity |].
  unfold mbind, M_bind, heap_ask in *.
  destruct (heap_of (cworld s)) as [| [slack |] h]; [done | eexists _, _; reflexivity | done].
Qed.

Lemma ep_step_inv base k e e' : ep_inv base k e -> ep_step k e e' -> ep_inv base k e'.
Proof.
  intros (c & Ek & Hinv & Hp) Hstep. destruct Hstep as [from f sender m r s' e Ef Hpeer Hs Hrun |
    id bc cs r s' e Hrun | l1 m l2 s' e Hh Hrun | l1 m l2 m' s' e Hh Hrun | r s' e Hrun]; unfold ep_inv; simpl in *.
  - pose proof (wp_send_inner base k from f sender m _ c _ Ef Hpeer Ek Hinv Hs) as Hwp.
    unfold wp in Hwp. rewrite Hrun in Hwp. destruct Hwp as (c' & Ec & Hinv' & _ & _ & H).
    exists c'. rewrite Ec, lookup_insert_eq. split; [done |]. split; [done |].
    destruct r as [u | [er caps]]; simpl.
    + destruct H as (m' & Hi & Hid & _). rewrite Hi, ids_app. simpl. rewrite Hid, Hp. by rewrite !app_assoc.
    + destruct H as (Hi & _). by rewrite Hi.
  - pose proof (wp_recv_identified base k id bc cs _ c _ Ek Hinv) as Hwp. unfold wp in Hwp. rewrite Hrun in Hwp.
    destruct r as [m | er]; [| subst; by exists c].
    destruct Hwp as (m0 & l & c' & Hi & -> & _ & _ & _ & -> & Hinv' & Hi' & _). exists c'. simpl.
    rewrite lookup_insert_eq. split; [done |]. split; [done |]. rewrite Hp, Hi, Hi'. simpl.
    apply Permutation_app_head. symmetry. apply Permutation_middle.
  - rewrite Hh in *. pose proof (wp_return_to_head base k l1 m l2 c _ Ek Hinv (return_found_place _ _ _ _ _ Ek Hrun)) as Hwp.
    unfold wp in Hwp. rewrite Hrun in Hwp. destruct Hwp as (c' & w' & -> & Hinv' & Hi & _). exists c'. simpl.
    rewrite lookup_insert_eq. split; [done |]. split; [done |]. rewrite Hp, Hi, !ids_app. simpl.
    apply Permutation_app_head. rewrite <- !app_assoc. simpl. apply Permutation_app_head, Permutation_middle.
  - rewrite Hh in *. pose proof (wp_commit_delivery base k l1 m l2 c _ Ek Hinv) as Hwp. unfold wp in Hwp. rewrite Hrun in Hwp.
    destruct Hwp as (c' & w' & -> & Hinv' & _ & Hi & _). exists c'. simpl. rewrite lookup_insert_eq.
    split; [done |]. split; [done |]. rewrite Hp, Hi, !ids_app. simpl. rewrite <- !app_assoc.
    apply Permutation_app_head. simpl. symmetry. apply Permutation_middle.
  - pose proof (wp_recv base k _ c _ Ek Hinv) as Hwp. unfold wp in Hwp. rewrite Hrun in Hwp.
    destruct r as [m | er]; [| destruct Hwp as [-> _]; by exists c].
    destruct Hwp as (m0 & l & c' & w' & Hi & -> & -> & Hinv' & Hi' & _). exists c'. simpl.
    rewrite lookup_insert_eq. split; [done |]. split; [done |]. rewrite Hp, Hi, Hi'. simpl. rewrite <- !app_assoc.
    apply Permutation_app_head. simpl. symmetry. apply Permutation_middle.
Qed.

(** C24: Whatever senders and receivers do to an endpoint, in any interleaving and
    any number, its bound and its accounts hold: what is queued plus what
    receivers hold undelivered never exceeds the limit the channel was created
    with, every Domain is charged for exactly the bytes of the undelivered
    messages sent under it, and every identity that was sent is delivered, held
    or queued, exactly once. *)
Theorem channel_bounded_and_accounted d s0 a b s1 e :
  0 <= next_koid (cworld s0) -> next_koid (cworld s0) + 1 < U64_MAX -> 0 <= d ->
  accounts_ok (domains (cworld s0)) ->
  try_create_with_depth d s0 = Some (Some (a, b), s1) ->
  rtc (ep_step a) (mkEP s1 [] [] []) e ->
  exists c, chans (ep_sys e) !! a = Some c /\
    depth c = Z.of_nat (vec_len (inbox c)) + Z.of_nat (length (ep_held e)) /\
    depth c <= queue_limit c <= CHANNEL_QUEUE_MAX /\
    (forall k, usage IpcQueue (domains (cworld (ep_sys e))) k =
       (fun u => u + owed (domains (cworld s0)) (charges (ep_held e ++ items (inbox c))) k)
         <$> usage IpcQueue (domains (cworld s0)) k) /\
    ep_sent e ≡ₚ ep_done e ++ ids (ep_held e) ++ ids (items (inbox c)).
Proof.
  intros Hk Hk' Hd Hacc Hcreate Hsteps.
  destruct (try_create_spec d s0 a b s1 Hk Hk' Hd Hcreate) as (_ & Hdom & limit & Hl & Ha & _).
  assert (ep_inv (domains (cworld s0)) a e) as (c & Ek & Hinv & Hp).
  { assert (ep_inv (domains (cworld s0)) a (mkEP s1 [] [] [])) as H0.
    { eexists. split; [exact Ha |]. split; [| done]. simpl. rewrite Hdom. by apply new_chan_inv. }
    clear -H0 Hsteps. induction Hsteps as [| e e1 e2 Hstep _ IH]; [done |]. apply IH. by eapply ep_step_inv. }
  exists c. split; [done |]. pose proof (depth_small _ _ _ _ Hinv) as Hdep. split; [done |].
  destruct Hinv as [_ Hlim Hdepth _ _ Ho]. split; [lia |]. split; [| done].
  intros j. rewrite (owing_usage _ _ _ Ho). destruct (usage IpcQueue (domains (cworld s0)) j); simpl; [| done].
  f_equal. by rewrite (owed_same_tree _ _ _ j (owing_tree _ _ _ Ho)).
Qed.

(** A Domain, and a system about to create its first channel. *)
Definition sample_system : CW :=
  mkCW ∅ (mkWorld {[1 := mkDomain (account_new UNLIMITED 8 UNLIMITED) None vec_new vec_new false false]}
            ∅ ∅ 10 1 (replicate 6 (Some 3%nat)) []).

Lemma sample_accounts_ok : accounts_ok (domains (cworld sample_system)).
Proof.
  split.
  - intros d D p HD Hp. cbn [sample_system cworld domains] in HD. apply lookup_singleton_Some in HD as [<- <-]. done.
  - intros a u. unfold usage. cbn [sample_system cworld domains]. destruct (decide (a = 1)) as [-> | Hne].
    + rewrite lookup_singleton_eq. intros [= <-]. done.
    + by rewrite lookup_singleton_ne.
Qed.

Definition sample_message : Message := mkMessage 1 [65; 66; 67] [] None false.

(** The channel pair (10, 11) with one charged message in the inbox of 10. *)
Definition sample_pair : CW :=
  match try_create_with_depth 4 sample_system with Some (_, s) => s | None => sample_system end.
Definition sample_queued : CW :=
  match send_inner 11 sample_message (Some 1) sample_pair with Some (_, s) => s | None => sample_pair end.

Lemma sample_step : ep_step 10 (mkEP sample_pair [] [] []) (mkEP sample_queued [] [1] []).
Proof.
  apply (step_send 10 11 (mkChannel vec_new 4 0 (Some 10)) (Some 1) sample_message (Ok tt) sample_queued
           (mkEP sample_pair [] [] [])); [by vm_compute | done | | by vm_compute].
  split; [done |]. split; [done |]. split; [done |]. split; [by vm_compute; eexists |].
  intros a u Ha. vm_compute in Ha. apply list_elem_of_singleton in Ha as ->.
  assert (usage IpcQueue (domains (cworld sample_pair)) 1 = Some 0) as Hu by (vm_compute; reflexivity).
  cbn [ep_sys]. rewrite Hu. intros [= <-]. vm_compute. discriminate.
Qed.

Lemma sample_steps : rtc (ep_step 10) (mkEP sample_pair [] [] []) (mkEP sample_queued [] [1] []).
Proof. eapply rtc_l; [exact sample_step | apply rtc_refl]. Qed.

Lemma sample_pair_inv : ep_inv (domains (cworld sample_system)) 10 (mkEP sample_pair [] [] []).
Proof.
  exists (mkChannel vec_new 4 0 (Some 11)).
  split; [by vm_compute |]. split; [| done]. by apply (new_chan_inv _ _ _ sample_accounts_ok).
Qed.

Lemma sample_inv : ep_inv (domains (cworld sample_system)) 10 (mkEP sample_queued [] [1] []).
Proof. eapply ep_step_inv; [exact sample_pair_inv | exact sample_step]. Qed.

Lemma channel_bounded_and_accounted_witness :
  exists c, chans sample_queued !! 10 = Some c /\ depth c <= queue_limit c /\
    usage IpcQueue (domains (cworld sample_queued)) 1 = Some 3.
Proof.
  destruct (channel_bounded_and_accounted 4 sample_system 10 11 sample_pair (mkEP sample_queued [] [1] []))
    as (c & Hc & _ & Hd & Hu & _).
  - vm_compute. discriminate.
  - vm_compute. reflexivity.
  - lia.
  - exact sample_accounts_ok.
  - vm_compute. reflexivity.
  - exact sample_steps.
  - exists c. split; [exact Hc |]. split; [lia |]. simpl in Hu. rewrite Hu. revert Hc. vm_compute. by intros [= <-].
Defined.

(** ** Order *)

(** One receiver at a time: nothing is taken while a message is held. *)
Definition solo_step (k : Koid) (e e' : EP) : Prop :=
  ep_step k e e' /\
  (ep_held e <> [] ->
   (length (ep_held e') + length (ep_done e') <= length (ep_held e) + length (ep_done e))%nat).

Definition in_order (k : Koid) (e : EP) : Prop :=
  (length (ep_held e) <= 1)%nat /\
  forall c, chans (ep_sys e) !! k = Some c ->
    ep_sent e = ep_done e ++ ids (ep_held e) ++ ids (items (inbox c)).

Lemma solo_step_in_order base k e e' :
  ep_inv base k e -> in_order k e -> solo_step k e e' -> in_order k e'.
Proof.
  intros (c & Ek & Hinv & _) [Hlen Hord] [Hstep Hsolo]. specialize (Hord c Ek). revert Hsolo.
  destruct Hstep as [from f sender m r s' e Ef Hpeer Hs Hrun | id bc cs r s' e Hrun | l1 m l2 s' e Hh Hrun |
    l1 m l2 m' s' e Hh Hrun | r s' e Hrun]; unfold in_order; simpl in *; intros Hsolo.
  - pose proof (wp_send_inner base k from f sender m _ c _ Ef Hpeer Ek Hinv Hs) as Hwp.
    unfold wp in Hwp. rewrite Hrun in Hwp. destruct Hwp as (c' & Ec & _ & _ & _ & H). split; [done |].
    intros c2. rewrite Ec, lookup_insert_eq. intros [= <-]. destruct r as [u | [er caps]]; simpl.
    + destruct H as (m' & Hi & Hid & _). rewrite Hi, ids_app. simpl. rewrite Hid, Hord. by rewrite <- !app_assoc.
    + destruct H as (Hi & _). by rewrite Hi.
  - pose proof (wp_recv_identified base k id bc cs _ c _ Ek Hinv) as Hwp. unfold wp in Hwp. rewrite Hrun in Hwp.
    destruct r as [m | er]; [| subst; split; [done |]; intros c2 Hc2; by simplify_eq].
    destruct (ep_held e) as [| m1 held]; [| specialize (Hsolo ltac:(done)); simpl in Hsolo; lia].
    destruct Hwp as (m0 & l & c' & Hi & -> & _ & _ & _ & -> & _ & Hi' & _). split; [done |]. simpl.
    intros c2. rewrite lookup_insert_eq. intros [= <-]. by rewrite Hord, Hi, Hi'.
  - rewrite Hh in *. pose proof (wp_return_to_head base k l1 m l2 c _ Ek Hinv (return_found_place _ _ _ _ _ Ek Hrun)) as Hwp.
    unfold wp in Hwp. rewrite Hrun in Hwp. destruct Hwp as (c' & w' & -> & _ & Hi & _).
    destruct l1; simpl in Hlen; [| rewrite length_app in Hlen; simpl in Hlen; lia]. destruct l2; [| simpl in Hlen; lia].
    split; [simpl; lia |]. simpl. intros c2. rewrite lookup_insert_eq. intros [= <-]. by rewrite Hord, Hi.
  - rewrite Hh in *. pose proof (wp_commit_delivery base k l1 m l2 c _ Ek Hinv) as Hwp. unfold wp in Hwp. rewrite Hrun in Hwp.
    destruct Hwp as (c' & w' & -> & _ & _ & Hi & _).
    destruct l1; simpl in Hlen; [| rewrite length_app in Hlen; simpl in Hlen; lia]. destruct l2; [| simpl in Hlen; lia].
    split; [simpl; lia |]. simpl. intros c2. rewrite lookup_insert_eq. intros [= <-]. rewrite Hord, Hi. simpl.
    by rewrite <- app_assoc.
  - pose proof (wp_recv base k _ c _ Ek Hinv) as Hwp. unfold wp in Hwp. rewrite Hrun in Hwp.
    destruct r as [m | er]; [| destruct Hwp as [-> _]; split; [done |]; intros c2 Hc2; by simplify_eq].
    destruct (ep_held e) as [| m1 held]; [| specialize (Hsolo ltac:(done)); rewrite length_app in Hsolo; simpl in Hsolo; lia].
    destruct Hwp as (m0 & l & c' & w' & Hi & -> & -> & _ & Hi' & _). split; [done |]. simpl.
    intros c2. rewrite lookup_insert_eq. intros [= <-]. rewrite Hord, Hi, Hi'. simpl. by rewrite <- app_assoc.
Qed.

(** C29: With one receiver at a time a channel is a queue: the identities delivered,
    then the one in hand, then those queued, are exactly the identities sent, in
    the order they were sent. A delivery that failed and was put back changes
    nothing of it. *)
Theorem channel_fifo d s0 a b s1 e :
  0 <= next_koid (cworld s0) -> next_koid (cworld s0) + 1 < U64_MAX -> 0 <= d ->
  accounts_ok (domains (cworld s0)) ->
  try_create_with_depth d s0 = Some (Some (a, b), s1) ->
  rtc (solo_step a) (mkEP s1 [] [] []) e ->
  exists c, chans (ep_sys e) !! a = Some c /\
    ep_sent e = ep_done e ++ ids (ep_held e) ++ ids (items (inbox c)).
Proof.
  intros Hk Hk' Hd Hacc Hcreate Hsteps.
  destruct (try_create_spec d s0 a b s1 Hk Hk' Hd Hcreate) as (_ & Hdom & limit & Hl & Ha & _).
  assert (ep_inv (domains (cworld s0)) a (mkEP s1 [] [] []) /\ in_order a (mkEP s1 [] [] [])) as H0.
  { split.
    - eexists. split; [exact Ha |]. split; [| done]. simpl. rewrite Hdom. by apply new_chan_inv.
    - split; [simpl; lia |]. intros c Hc. simpl in Hc. by simplify_eq. }
  enough (ep_inv (domains (cworld s0)) a e /\ in_order a e) as [(c & Ec & _) [_ Hord]] by eauto.
  clear -H0 Hsteps. induction Hsteps as [| e e1 e2 Hstep _ IH]; [done |]. apply IH. destruct H0 as [Hi Ho]. split.
  - eapply ep_step_inv; [exact Hi | apply Hstep].
  - by eapply solo_step_in_order.
Qed.

Lemma channel_fifo_witness :
  exists c, chans sample_queued !! 10 = Some c /\ [1] = ids (items (inbox c)).
Proof.
  apply (channel_fifo 4 sample_system 10 11 sample_pair (mkEP sample_queued [] [1] [])).
  - vm_compute. discriminate.
  - vm_compute. reflexivity.
  - lia.
  - exact sample_accounts_ok.
  - vm_compute. reflexivity.
  - eapply rtc_l; [| apply rtc_refl]. split; [exact sample_step | intros []; reflexivity].
Defined.

(** ** The put-back *)

(** A receive that is taken back never happened: when nothing touched the
    endpoint in between, [return_to_head] after [recv_identified] cannot fail,
    leaves every endpoint exactly as it was, and has only announced the message. *)
Theorem put_back_restores base k id bytes_cap cap_slots held c s m s1 :
  chans s !! k = Some c -> chan_inv base (domains (cworld s)) held c ->
  (vec_len (inbox c) <= capacity (inbox c))%nat ->
  recv_identified k id bytes_cap cap_slots s = Some (Ok m, s1) ->
  return_to_head k m s1 = Some (tt, mkCW (chans s) (emit_in (WakeObject k) (cworld s))).
Proof.
  intros Ek Hinv Hwf Hrun. pose proof (wp_recv_head base k id bytes_cap cap_slots held c s Ek Hinv) as Hwp.
  unfold wp in Hwp. rewrite Hrun in Hwp. destruct Hwp as (m0 & rest & Hi & -> & _ & _ & _ & -> & _).
  destruct Hinv as [Hf Hl Hd _ Hq _]. rewrite Hi in Hq. inversion Hq as [| ? ? Hm _]; subst.
  rewrite (run_return_head k m0 rest c); simpl; [| apply lookup_insert_eq | done | done | | done].
  - by rewrite insert_insert_eq, insert_id.
  - unfold CHANNEL_QUEUE_MAX in *. lia.
Qed.

Lemma put_back_restores_witness :
  exists m s1, recv_identified 10 1 16 0 sample_queued = Some (Ok m, s1) /\
    return_to_head 10 m s1 = Some (tt, mkCW (chans sample_queued) (emit_in (WakeObject 10) (cworld sample_queued))).
Proof.
  destruct sample_inv as (c & Hc & Hinv & _).
  assert (exists m s1, recv_identified 10 1 16 0 sample_queued = Some (Ok m, s1)) as (m & s1 & Hrun)
    by (eexists _, _; vm_compute; reflexivity).
  exists m, s1. split; [exact Hrun |].
  apply (put_back_restores (domains (cworld sample_system)) 10 1 16 0 [] c sample_queued m s1 Hc Hinv);
    [| exact Hrun].
  revert Hc. vm_compute. intros [= <-]. repeat constructor.
Defined.

(** ** Wake-ups *)

(** What a step announced. *)
Definition announced (e e' : EP) (f : Effect) : Prop :=
  exists news, effects (cworld (ep_sys e')) = effects (cworld (ep_sys e)) ++ news /\ f ∈ news.

Lemma announced_one e e' f :
  effects (cworld (ep_sys e')) = effects (cworld (ep_sys e)) ++ [f] -> announced e e' f.
Proof. intros H. exists [f]. split; [done | set_solver]. Qed.

(** No wake-up is lost, whatever the interleaving: a step that makes an empty
    endpoint readable wakes its receivers, and a step that makes a full endpoint
    accept messages again wakes the peer, whose senders wait for the room. *)
Theorem no_lost_wakeup base k e e' c c' :
  ep_inv base k e -> ep_step k e e' ->
  chans (ep_sys e) !! k = Some c -> chans (ep_sys e') !! k = Some c' ->
  (items (inbox c) = [] -> items (inbox c') <> [] ->
     announced e e' (WakeMessage k) \/ announced e e' (WakeObject k)) /\
  (queue_limit c <= depth c -> depth c' < queue_limit c' ->
     forall p, chan_peer (chans (ep_sys e')) c = Some p -> announced e e' (WakeObject p)).
Proof.
  intros (c0 & Ek & Hinv & _) Hstep Hc Hc'. assert (c0 = c) as -> by congruence.
  destruct Hstep as [from f sender m r s' e Ef Hpeer Hs Hrun | id bc cs r s' e Hrun | l1 m l2 s' e Hh Hrun |
    l1 m l2 m' s' e Hh Hrun | r s' e Hrun]; simpl in *; rewrite ?Hh in *.
  - pose proof (wp_send_inner base k from f sender m _ c _ Ef Hpeer Ek Hinv Hs) as Hwp.
    unfold wp in Hwp. rewrite Hrun in Hwp. destruct Hwp as (c2 & Ec & Hinv' & Hq & _ & H). rewrite Ec, lookup_insert_eq in Hc'.
    simplify_eq. assert (depth c <= depth c') as Hd; [| split; [| lia]].
    { rewrite (depth_small _ _ _ _ Hinv), (depth_small _ _ _ _ Hinv'). unfold vec_len. destruct r as [u | [er caps]].
      - destruct H as (m' & -> & _). rewrite length_app. lia.
      - by destruct H as (-> & _). }
    intros Hi Hi'. left. apply announced_one. destruct r as [u | [er caps]]; [by destruct H as (? & ? & ? & ? & ? & ? & ? & ?) |].
    destruct H as (H & _). congruence.
  - pose proof (wp_recv_identified base k id bc cs _ c _ Ek Hinv) as Hwp. unfold wp in Hwp. rewrite Hrun in Hwp.
    destruct r as [m | er]; [| subst; simplify_eq; split; [done | lia]].
    destruct Hwp as (m0 & l & c2 & Hi & _ & _ & _ & _ & -> & _ & Hi' & Hd & _ & Hq & _). simpl in Hc'.
    rewrite lookup_insert_eq in Hc'. simplify_eq. split; [by rewrite Hi | lia].
  - pose proof (wp_return_to_head base k l1 m l2 c _ Ek Hinv (return_found_place _ _ _ _ _ Ek Hrun)) as Hwp.
    unfold wp in Hwp. rewrite Hrun in Hwp. destruct Hwp as (c2 & w' & -> & _ & Hi & Hd & _ & Hq & _ & He). simpl in *.
    rewrite lookup_insert_eq in Hc'. simplify_eq. split; [intros _ _; right; by apply announced_one | lia].
  - pose proof (wp_commit_delivery base k l1 m l2 c _ Ek Hinv) as Hwp. unfold wp in Hwp. rewrite Hrun in Hwp.
    destruct Hwp as (c2 & w' & -> & _ & _ & Hi & Hd & Hq & _ & _ & He). simpl in *.
    rewrite lookup_insert_eq in Hc'. simplify_eq. split; [congruence |]. intros Hf _ p Hp. apply announced_one. by apply He.
  - pose proof (wp_recv base k _ c _ Ek Hinv) as Hwp. unfold wp in Hwp. rewrite Hrun in Hwp.
    destruct r as [m | er]; [| destruct Hwp as [-> _]; simplify_eq; split; [done | lia]].
    destruct Hwp as (m0 & l & c2 & w' & Hi & _ & -> & _ & Hi' & Hd & Hq & He). simpl in *.
    rewrite lookup_insert_eq in Hc'. simplify_eq. split; [congruence |]. intros Hf _ p Hp. apply announced_one. by apply He.
Qed.

Lemma no_lost_wakeup_witness :
  announced (mkEP sample_pair [] [] []) (mkEP sample_queued [] [1] []) (WakeMessage 10) \/
  announced (mkEP sample_pair [] [] []) (mkEP sample_queued [] [1] []) (WakeObject 10).
Proof.
  assert (exists c', chans sample_queued !! 10 = Some c') as [c' Hc'] by (vm_compute; eauto).
  refine (proj1 (no_lost_wakeup (domains (cworld sample_system)) 10 _ _ (mkChannel vec_new 4 0 (Some 11)) c'
                   _ sample_step _ Hc') eq_refl _).
  - exact sample_pair_inv.
  - vm_compute. reflexivity.
  - revert Hc'. vm_compute. by intros [= <-].
Defined.

(** ** Closing an endpoint *)

Definition set_effects (es : list Effect) (w : World) : World :=
  mkWorld (domains w) (generations w) (live w) (next_koid w) (next_message_id w) (heap_of w) es.

(** The references a message's capabilities give up. *)
Definition drops (ms : list Message) : list Effect := DropRef <$> (cap_object <$> concat (msg_caps <$> ms)).

Lemma wp_drop_caps caps w (Q : unit -> World -> Prop) :
  Q tt (set_effects (effects w ++ (DropRef <$> (cap_object <$> caps))) w) -> wp (drop_caps caps) Q w.
Proof.
  revert w. induction caps as [| c caps IH]; intros w HQ; unfold drop_caps; cbn [for_each].
  - wp_step. simpl in HQ. rewrite app_nil_r in HQ. by destruct w.
  - wp_step. apply wp_modify. apply IH. simpl in *. by rewrite <- app_assoc.
Qed.

Lemma wp_drop_messages base ms w (Q : unit -> World -> Prop) :
  owing base (domains w) (charges ms) ->
  (forall ds', owing base ds' [] -> Q tt (set_effects (effects w ++ drops ms) (set_domains ds' w))) ->
  wp (for_each drop_message ms) Q w.
Proof.
  revert w. induction ms as [| m ms IH]; intros w Ho HQ; cbn [for_each].
  - wp_step. specialize (HQ (domains w) Ho). unfold drops in HQ. simpl in HQ. rewrite app_nil_r in HQ. by destruct w.
  - wp_step. unfold drop_message. wp_step. eapply (wp_take_queue_charge base m ms); [exact Ho |]. intros ds' Ho' _.
    apply wp_drop_caps. apply IH; [exact Ho' |]. intros ds2 Ho2. simpl. specialize (HQ ds2 Ho2).
    unfold drops in *. simpl in HQ. by rewrite !fmap_app, app_assoc in HQ.
Qed.

(** Closing an endpoint gives back everything: it cannot fail, every queued
    message's bytes return to the Domains that paid for them, so that each one's
    in-transit usage is what it was before any of the messages was sent, every
    capability in the queue is dropped, in order, and a peer that still lives is
    told. *)
Theorem drop_channel_complete base k c s :
  chans s !! k = Some c -> chan_inv base (domains (cworld s)) [] c ->
  exists s', drop_channel k s = Some (tt, s') /\ chans s' = delete k (chans s) /\
    (forall d, usage IpcQueue (domains (cworld s')) d = usage IpcQueue base d) /\
    effects (cworld s') = effects (cworld s) ++ drops (items (inbox c)) ++
      match chan_peer (delete k (chans s)) c with Some p => [WakeObject p] | None => [] end.
Proof.
  intros Ek Hinv.
  enough (wp (drop_channel k) (fun _ s' => chans s' = delete k (chans s) /\
    (forall d, usage IpcQueue (domains (cworld s')) d = usage IpcQueue base d) /\
    effects (cworld s') = effects (cworld s) ++ drops (items (inbox c)) ++
      match chan_peer (delete k (chans s)) c with Some p => [WakeObject p] | None => [] end) s) as Hwp.
  { unfold wp in Hwp. destruct (drop_channel k s) as [[[] s'] |]; [eauto | done]. }
  unfold drop_channel. wp_step. eapply wp_get_chan; [exact Ek |]. wp_step. wp_step. wp_step. apply wp_on_cworld.
  apply (wp_drop_messages base); [apply Hinv |]. intros ds' Ho. apply wp_wake_peer. intros es ->. simpl.
  split; [done |]. split; [| by rewrite <- app_assoc]. intros d. rewrite (owing_usage _ _ _ Ho). simpl.
  destruct (usage IpcQueue base d); simpl; [by rewrite Z.add_0_r | done].
Qed.

Lemma drop_channel_complete_witness :
  exists s', drop_channel 10 sample_queued = Some (tt, s') /\ usage IpcQueue (domains (cworld s')) 1 = Some 0.
Proof.
  destruct sample_inv as (c & Hc & Hinv & _).
  destruct (drop_channel_complete (domains (cworld sample_system)) 10 c sample_queued Hc Hinv) as (s' & Hrun & _ & Hu & _).
  exists s'. split; [exact Hrun |]. rewrite (Hu 1). vm_compute. reflexivity.
Defined.

(** ** A put-back that meets a full ring *)

(** A channel with a limit of three whose ring has two places, both taken. *)
Definition crowded : CW :=
  mkCW {[10 := mkChannel (Vec [mkMessage 1 [65] [] None false; mkMessage 2 [66] [] None false] 2) 3 0 (Some 11);
         11 := mkChannel vec_new 3 0 (Some 10)]}
       (mkWorld ∅ ∅ ∅ 20 4 [] []).

Definition crowded_late : Message := mkMessage 3 [67] [] None false.
Definition crowded_taken : CW :=
  match recv_identified 10 1 16 4 crowded with Some (_, s) => s | None => crowded end.
Definition crowded_refilled : CW :=
  match send_inner 11 crowded_late None crowded_taken with Some (_, s) => s | None => crowded end.

(** The put-back is not always free of allocation. A receive takes the head of
    a full ring, a sender fills the place it freed, and the put-back must grow the
    ring: with no heap left the kernel aborts, although the depth never exceeded
    the limit. *)
Theorem return_to_head_may_abort :
  recv_identified 10 1 16 4 crowded = Some (Ok (mkMessage 1 [65] [] None true), crowded_taken) /\
  send_inner 11 crowded_late None crowded_taken = Some (Ok tt, crowded_refilled) /\
  fmap depth (chans crowded_refilled !! 10) = Some 3 /\
  fmap queue_limit (chans crowded_refilled !! 10) = Some 3 /\
  return_to_head 10 (mkMessage 1 [65] [] None true) crowded_refilled = None.
Proof. vm_compute. done. Qed.
