(* ===== verification/Syscall.v ===== *)
(** The channel and handle system calls (kernel/syscall/mod.rs): the checks and
    copies of caller memory, and the handlers that compose the handle table, the
    channels and the Domain accounts. A handler runs for one calling process. The
    machine is an environment: it says at each moment which pages are mapped, what
    a copy reads and how far it gets, and what the other threads of the machine do
    between two steps that each hold a lock. *)

From S2P Require Import Prelude Object Domain Handle Channel.

(** ** Results and limits (abi/src/lib.rs) *)

Definition ERR_NO_THREAD : Z := -2.
Definition ERR_NO_MEMORY : Z := -3.
Definition ERR_BAD_HANDLE : Z := -4.
Definition ERR_ACCESS_DENIED : Z := -5.
Definition ERR_INVALID : Z := -6.
Definition ERR_NOT_MAPPED : Z := -7.
Definition ERR_WOULD_BLOCK : Z := -8.
Definition ERR_PEER_CLOSED : Z := -9.
Definition ERR_RESOURCE_EXHAUSTED : Z := -10.

Definition MAX_MESSAGE_CAPS : nat := 4.
Definition MAX_MESSAGE_BYTES : Z := 1024 * 1024.
Definition USER_VA_END : Z := 140737488355328.
Definition PAGE_WRITABLE : Z := 2.
Definition PAGE_USER : Z := 4.

Definition sys_is_err (ret : Z) : bool :=
  let signed := if ret <? 2 ^ 63 then ret else ret - TWO64 in
  (-4095 <=? signed) && (signed <? 0).

(** [value as i64]. *)
Definition as_i64 (z : Z) : Z := if z <? 2 ^ 63 then z else z - TWO64.

Record CapTransfer := mkTransfer { xfer_handle : Handle; xfer_rights : Z }.

(** ** The state of a call, and the machine around it *)

Record Sys := mkSys {
  clock : nat;
  s_tbl : HandleTable;
  s_chans : gmap Koid Channel;
  s_world : World;
  written : list (Z * list Z); (** what was stored in caller memory, in order *)
  messages_sent : Z;
  messages_received : Z;
}.

Definition set_clock (n : nat) (s : Sys) : Sys :=
  mkSys n (s_tbl s) (s_chans s) (s_world s) (written s) (messages_sent s) (messages_received s).
Definition set_written (l : list (Z * list Z)) (s : Sys) : Sys :=
  mkSys (clock s) (s_tbl s) (s_chans s) (s_world s) l (messages_sent s) (messages_received s).
Definition set_tw (x : TW) (s : Sys) : Sys :=
  mkSys (clock s) (tbl x) (s_chans s) (wld x) (written s) (messages_sent s) (messages_received s).
Definition set_cw (x : CW) (s : Sys) : Sys :=
  mkSys (clock s) (s_tbl s) (chans x) (cworld x) (written s) (messages_sent s) (messages_received s).
Definition set_s_world (w : World) (s : Sys) : Sys :=
  mkSys (clock s) (s_tbl s) (s_chans s) w (written s) (messages_sent s) (messages_received s).

Record Env := mkEnv {
  caller : option Koid; (** the Domain of the calling thread, if a thread calls *)
  in_user_syscall : bool;
  translate_flags : nat -> Z -> option Z;
  user_reads : nat -> Z -> nat -> list Z;
  user_takes : nat -> Z -> nat -> nat;
  others : nat -> Sys -> Sys;
}.

Definition on_table {A} (m : M TW A) : M Sys A := zoom (fun s => mkTW (s_tbl s) (s_world s)) set_tw m.
Definition on_channels {A} (m : M CW A) : M Sys A := zoom (fun s => mkCW (s_chans s) (s_world s)) set_cw m.
Definition on_kernel {A} (m : M World A) : M Sys A := zoom s_world set_s_world m.

(** [Process::record_send] and [Process::record_recv]. *)
Definition record_send : M Sys unit := modify (fun s =>
  mkSys (clock s) (s_tbl s) (s_chans s) (s_world s) (written s) (wrap64 (messages_sent s + 1)) (messages_received s)).
Definition record_recv : M Sys unit := modify (fun s =>
  mkSys (clock s) (s_tbl s) (s_chans s) (s_world s) (written s) (messages_sent s) (wrap64 (messages_received s + 1))).

(** [let x = match r { Ok(x) => x, Err(e) => return e }]. *)
Definition or_return {A} (r : result A Z) (k : A -> M Sys Z) : M Sys Z :=
  match r with Ok a => k a | Err e => mret e end.

(** How a handler reports a handle it could not use, and a channel that refused. *)
Definition handle_code (e : HandleError) : Z :=
  match e with AccessDenied => ERR_ACCESS_DENIED | _ => ERR_BAD_HANDLE end.
Definition send_code (e : ChannelError) : Z :=
  match e with Full => ERR_WOULD_BLOCK | PeerClosed => ERR_PEER_CLOSED | Empty => ERR_INVALID end.
Definition send_caps_code (e : ChannelError) : Z :=
  match e with PeerClosed => ERR_PEER_CLOSED | _ => ERR_WOULD_BLOCK end.

(** [has_repeat]: does any value appear twice? *)
Definition has_repeat (values : list Z) : bool :=
  existsb (fun i => match values !! i with
                    | Some v => existsb (Z.eqb v) (firstn i values)
                    | None => false
                    end) (seq 0 (length values)).

Section calls.
Context (E : Env).

(** One moment passes. *)
Definition tick : M Sys nat :=
  t ← gets clock; modify (set_clock (S t)) ;; mret t.

(** The rest of the machine runs before a lock is taken. *)
Definition yield : M Sys unit :=
  t ← tick; modify (others E t).

Definition locked {A} (m : M TW A) : M Sys A := yield ;; on_table m.
Definition channel_op {A} (m : M CW A) : M Sys A := yield ;; on_channels m.

Definition current_thread (k : Koid -> M Sys Z) : M Sys Z :=
  match caller E with Some d => k d | None => mret ERR_NO_THREAD end.

(** ** Caller memory *)

Definition try_zeroed_bytes (len : nat) : M Sys (option (list Z)) :=
  match len with
  | O => mret (Some [])
  | _ =>
      answer ← on_kernel (with_heap heap_ask);
      mret (match answer with Some _ => Some (replicate len 0) | None => None end)
  end.

Fixpoint pages_loop (fuel : nat) (page last : Z) (write : bool) : M Sys bool :=
  match fuel with
  | O => mret false
  | S fuel =>
      t ← tick;
      match translate_flags E t page with
      | None => mret false
      | Some flags =>
          if Z.land flags PAGE_USER =? 0 then mret false
          else if write && (Z.land flags PAGE_WRITABLE =? 0) then mret false
          else if page =? last then mret true
          else pages_loop fuel (page + 4096) last write
      end
  end.

(** The source loops until the last page; the fuel is the number of pages. *)
Definition user_pages_ok (ptr stop : Z) (write : bool) : M Sys bool :=
  let page := Z.land ptr (Z.lnot 4095) in
  let last := Z.land (stop - 1) (Z.lnot 4095) in
  pages_loop (S (Z.to_nat ((last - page) / 4096))) page last write.

Definition user_buf_checked (ptr len : Z) (write : bool) : M Sys bool :=
  if negb (in_user_syscall E) then mret true
  else if len =? 0 then mret true
  else if ptr =? 0 then mret false
  else match checked_add U64_MAX ptr len with
       | None => mret false
       | Some stop => if USER_VA_END <? stop then mret false else user_pages_ok ptr stop write
       end.

Definition user_buf_ok (ptr len : Z) : M Sys bool := user_buf_checked ptr len false.
Definition user_buf_writable (ptr len : Z) : M Sys bool := user_buf_checked ptr len true.

(** [arch::usercopy]: the bytes read before the first fault, and how many bytes
    were stored before it. *)
Definition copy_from_user (src : Z) (len : nat) : M Sys (list Z) :=
  t ← tick; mret (firstn len (user_reads E t src len)).
Definition copy_to_user (dst : Z) (src : list Z) : M Sys nat :=
  t ← tick;
  let copied := Nat.min (length src) (user_takes E t dst (length src)) in
  modify (fun s => set_written (written s ++ [(dst, firstn copied src)]) s) ;;
  mret copied.

(** [read_user]: a value of [size] bytes, all zero after a short read. *)
Definition read_user (size : nat) (ptr : Z) : M Sys (list Z) :=
  value ← copy_from_user ptr size;
  mret (if (length value <? size)%nat then replicate size 0 else value).
Definition read_user_u64 (ptr : Z) : M Sys Z :=
  value ← read_user 8 ptr; mret (le_decode value).
Definition read_user_transfer (ptr : Z) : M Sys CapTransfer :=
  value ← read_user 16 ptr;
  mret (mkTransfer (le_decode (firstn 8 value)) (le_decode (firstn 4 (skipn 8 value)))).

Definition copy_to_user_exact (dst : Z) (src : list Z) : M Sys (result unit Z) :=
  match src with
  | [] => mret (Ok tt)
  | _ =>
      copied ← copy_to_user dst src;
      mret (if (copied =? length src)%nat then Ok tt else Err ERR_NOT_MAPPED)
  end.

Definition copy_from_user_exact (src : Z) (len : nat) : M Sys (result (list Z) Z) :=
  match len with
  | O => mret (Ok [])
  | _ =>
      bytes ← copy_from_user src len;
      mret (if (length bytes =? len)%nat then Ok bytes else Err ERR_NOT_MAPPED)
  end.

(** [write_user::<u64>]. *)
Definition write_user (ptr value : Z) : M Sys (result unit Z) :=
  ok ← user_buf_writable ptr 8;
  if negb ok then mret (Err ERR_NOT_MAPPED)
  else copy_to_user_exact ptr (le_encode 8 value).

Definition read_bytes (ptr : Z) (len : nat) : M Sys (result (list Z) Z) :=
  if (ptr =? 0) || (len =? 0)%nat then mret (Ok [])
  else
    buffer ← try_zeroed_bytes len;
    match buffer with
    | None => mret (Err ERR_NO_MEMORY)
    | Some _ => copy_from_user_exact ptr len
    end.

(** ** Handles *)

Definition query_typed (h : Handle) (ty : ObjectType) (rights : Z) : M TW (result Koid Z) :=
  t ← gets tbl;
  gens ← gets (generations ∘ wld);
  mret (match lookup_typed gens t h ty rights with
        | Ok object => Ok (ref_koid object)
        | Err e => Err (handle_code e)
        end).

Definition current_object (h : Handle) (ty : ObjectType) (rights : Z) : M Sys (result Koid Z) :=
  match caller E with
  | None => mret (Err ERR_NO_THREAD)
  | Some _ => locked (query_typed h ty rights)
  end.

Definition sys_handle_duplicate (h rights_bits : Z) : M Sys Z :=
  current_thread (fun _ =>
    r ← locked (duplicate h (Rights.from_bits (wrap32 rights_bits)));
    mret (match r with
          | Ok h => as_i64 h
          | Err AccessDenied => ERR_ACCESS_DENIED
          | Err LimitReached => ERR_RESOURCE_EXHAUSTED
          | Err _ => ERR_BAD_HANDLE
          end)).

Definition sys_handle_close (h : Z) : M Sys Z :=
  current_thread (fun _ =>
    r ← locked (close h);
    mret (match r with Ok _ => 0 | Err _ => ERR_BAD_HANDLE end)).

(** ** Creating a channel *)

(** The two endpoints in the caller's table, or neither; a local reference that
    is not stored is dropped. *)
Definition install_pair (ep0 ep1 : Koid) : M TW (option (Handle * Handle)) :=
  h0 ← try_insert_object (mkRef ep0 TyChannel) Rights.RIGHTS_ALL;
  match h0 with
  | None => on_world (emit (DropRef (mkRef ep1 TyChannel))) ;; mret None
  | Some h0 =>
      h1 ← try_insert_object (mkRef ep1 TyChannel) Rights.RIGHTS_ALL;
      match h1 with
      | None => close h0 ;; mret None
      | Some h1 => mret (Some (h0, h1))
      end
  end.

Definition sys_channel_create (out0_ptr out1_ptr depth : Z) : M Sys Z :=
  current_thread (fun _ =>
    if (out0_ptr =? 0) || (out1_ptr =? 0) then mret ERR_INVALID
    else
      ok ← user_buf_ok out0_ptr 8;
      ok ← if negb ok then mret false else user_buf_ok out1_ptr 8;
      if negb ok then mret ERR_INVALID
      else
        pair ← on_channels (try_create_with_depth depth);
        match pair with
        | None => mret ERR_RESOURCE_EXHAUSTED
        | Some (ep0, ep1) =>
            hs ← locked (install_pair ep0 ep1);
            match hs with
            | None => mret ERR_RESOURCE_EXHAUSTED
            | Some (h0, h1) =>
                out ← write_user out0_ptr h0;
                out ← match out with Ok _ => write_user out1_ptr h1 | Err e => mret (Err e) end;
                match out with
                | Ok _ => mret 0
                | Err error => locked (close h0 ;; close h1 ;; mret tt) ;; mret error
                end
            end
        end).

(** ** Sending *)

Definition sys_channel_send (ch bytes_ptr bytes_len xfer : Z) : M Sys Z :=
  if MAX_MESSAGE_BYTES <? bytes_len then mret ERR_INVALID
  else current_thread (fun domain =>
    object ← locked (query_typed ch TyChannel Rights.RIGHT_SEND);
    or_return object (fun channel =>
    ok ← user_buf_ok bytes_ptr bytes_len;
    if negb ok then mret ERR_INVALID
    else
    bytes ← read_bytes bytes_ptr (Z.to_nat bytes_len);
    or_return bytes (fun bytes =>
    caps ← (if xfer =? 0 then mret (Ok [])
            else
              '(ok, _) ← on_kernel (with_heap (try_reserve (@vec_new Capability) 1));
              if negb ok then mret (Err ERR_NO_MEMORY)
              else
                r ← locked (take_for_transfer xfer Rights.RIGHT_TRANSFER);
                mret (match r with Ok cap => Ok [cap] | Err e => Err (handle_code e) end));
    or_return caps (fun caps =>
    msg ← on_kernel (message_new bytes caps);
    r ← channel_op (send_charged_or_return channel msg domain);
    match r with
    | Ok _ =>
        (if xfer =? 0 then mret tt else locked (commit_taken xfer)) ;;
        record_send ;; mret 0
    | Err (e, caps) =>
        (if xfer =? 0 then mret tt else locked (for_each (restore_taken xfer) caps)) ;;
        mret (send_code e)
    end)))).

Definition sys_channel_send_attenuated (ch bytes_ptr bytes_len transfer_ptr : Z) : M Sys Z :=
  if MAX_MESSAGE_BYTES <? bytes_len then mret ERR_INVALID
  else
    ok ← user_buf_ok transfer_ptr 16;
    if negb ok then mret ERR_INVALID
    else
    transfer ← read_user_transfer transfer_ptr;
    if xfer_handle transfer =? 0 then mret ERR_INVALID
    else current_thread (fun domain =>
    object ← locked (query_typed ch TyChannel Rights.RIGHT_SEND);
    or_return object (fun channel =>
    ok ← user_buf_ok bytes_ptr bytes_len;
    if negb ok then mret ERR_INVALID
    else
    bytes ← read_bytes bytes_ptr (Z.to_nat bytes_len);
    or_return bytes (fun bytes =>
    let mask := Rights.from_bits (xfer_rights transfer) in
    let handle := xfer_handle transfer in
    '(ok, _) ← on_kernel (with_heap (try_reserve (@vec_new Capability) 1));
    if negb ok then mret ERR_NO_MEMORY
    else
    r ← locked (take_for_transfer handle Rights.RIGHT_TRANSFER);
    match r with
    | Err e => mret (handle_code e)
    | Ok taken =>
        msg ← on_kernel (message_new bytes [attenuated mask taken]);
        r ← channel_op (send_charged_or_return channel msg domain);
        match r with
        | Ok _ =>
            locked (commit_taken handle) ;; record_send ;;
            on_kernel (drop_caps [taken]) ;; mret 0
        | Err (e, caps) =>
            on_kernel (drop_caps caps) ;;
            locked (restore_taken handle taken) ;;
            mret (send_code e)
        end
    end))).

(** The loop that takes every named capability under one lock, or none. *)
Definition restore_all : list (Handle * Capability) -> M TW unit :=
  for_each (fun '(h, cap) => restore_taken h cap).

Fixpoint take_all (handles : list Handle) (taken : list (Handle * Capability)) :
    M TW (result (list (Handle * Capability)) Z) :=
  match handles with
  | [] => mret (Ok taken)
  | h :: handles =>
      r ← take_for_transfer h Rights.RIGHT_TRANSFER;
      match r with
      | Ok cap => take_all handles (taken ++ [(h, cap)])
      | Err e => restore_all taken ;; mret (Err (handle_code e))
      end
  end.

Definition commit_all (taken : list (Handle * Capability)) : M TW unit :=
  for_each (fun '(h, _) => commit_taken h) taken.

(** [for (index, slot) in .. { *slot = read_user(..) }]. *)
Fixpoint read_each {A} (read : Z -> M Sys A) (ptr stride : Z) (count : nat) : M Sys (list A) :=
  match count with
  | O => mret []
  | S count =>
      x ← read ptr;
      xs ← read_each read (ptr + stride) stride count;
      mret (x :: xs)
  end.

(** The reservations both batch sends make before the first take. *)
Definition reserve_batch (count : nat) : M Sys bool :=
  '(ok, _) ← on_kernel (with_heap (try_reserve (@vec_new Capability) count));
  if negb ok then mret false
  else
    '(ok, _) ← on_kernel (with_heap (try_reserve (@vec_new Handle) count));
    mret ok.

Definition sys_channel_send_caps (ch bytes_ptr bytes_len caps_ptr : Z) : M Sys Z :=
  if MAX_MESSAGE_BYTES <? bytes_len then mret ERR_INVALID
  else current_thread (fun domain =>
    ok ← user_buf_ok bytes_ptr bytes_len;
    ok ← if negb ok then mret false else user_buf_ok caps_ptr 8;
    if negb ok then mret ERR_INVALID
    else
    count ← read_user_u64 caps_ptr;
    if (count =? 0) || (Z.of_nat MAX_MESSAGE_CAPS <? count) then mret ERR_INVALID
    else
    ok ← user_buf_ok caps_ptr ((count + 1) * 8);
    if negb ok then mret ERR_INVALID
    else
    raw ← read_each read_user_u64 (caps_ptr + 8) 8 (Z.to_nat count);
    object ← locked (query_typed ch TyChannel Rights.RIGHT_SEND);
    or_return object (fun channel =>
    buffer ← try_zeroed_bytes (Z.to_nat bytes_len);
    match buffer with
    | None => mret ERR_NO_MEMORY
    | Some _ =>
    bytes ← copy_from_user_exact bytes_ptr (Z.to_nat bytes_len);
    or_return bytes (fun bytes =>
    if has_repeat raw then mret ERR_INVALID
    else
    ok ← reserve_batch (Z.to_nat count);
    if negb ok then mret ERR_NO_MEMORY
    else
    taken ← locked (take_all raw []);
    or_return taken (fun taken =>
    msg ← on_kernel (message_new bytes (snd <$> taken));
    r ← channel_op (send_charged_or_return channel msg domain);
    match r with
    | Ok _ => locked (commit_all taken) ;; record_send ;; mret 0
    | Err (e, caps) =>
        locked (restore_all (zip (fst <$> taken) caps)) ;; mret (send_caps_code e)
    end))
    end)).

Definition sys_channel_send_caps_attenuated (ch bytes_ptr bytes_len caps_ptr : Z) : M Sys Z :=
  if MAX_MESSAGE_BYTES <? bytes_len then mret ERR_INVALID
  else current_thread (fun domain =>
    ok ← user_buf_ok bytes_ptr bytes_len;
    ok ← if negb ok then mret false else user_buf_ok caps_ptr 8;
    if negb ok then mret ERR_INVALID
    else
    count ← read_user_u64 caps_ptr;
    if (count =? 0) || (Z.of_nat MAX_MESSAGE_CAPS <? count) then mret ERR_INVALID
    else
    ok ← user_buf_ok caps_ptr (8 + count * 16);
    if negb ok then mret ERR_INVALID
    else
    transfers ← read_each read_user_transfer (caps_ptr + 8) 16 (Z.to_nat count);
    if existsb (fun x => xfer_handle x =? 0) transfers then mret ERR_INVALID
    else
    object ← locked (query_typed ch TyChannel Rights.RIGHT_SEND);
    or_return object (fun channel =>
    buffer ← try_zeroed_bytes (Z.to_nat bytes_len);
    match buffer with
    | None => mret ERR_NO_MEMORY
    | Some _ =>
    bytes ← copy_from_user_exact bytes_ptr (Z.to_nat bytes_len);
    or_return bytes (fun bytes =>
    let raw := xfer_handle <$> transfers in
    if has_repeat raw then mret ERR_INVALID
    else
    ok ← reserve_batch (Z.to_nat count);
    if negb ok then mret ERR_NO_MEMORY
    else
    taken ← locked (take_all raw []);
    or_return taken (fun taken =>
    let caps := zip_with (fun x '(_, cap) => attenuated (Rights.from_bits (xfer_rights x)) cap) transfers taken in
    msg ← on_kernel (message_new bytes caps);
    r ← channel_op (send_charged_or_return channel msg domain);
    match r with
    | Ok _ =>
        locked (commit_all taken) ;; record_send ;;
        on_kernel (drop_caps (snd <$> taken)) ;; mret 0
    | Err (e, caps) =>
        on_kernel (drop_caps caps) ;;
        locked (restore_all taken) ;; mret (send_caps_code e)
    end))
    end)).

(** ** Receiving *)

Definition peek_code (e : ChannelError) : Z :=
  match e with Empty => ERR_WOULD_BLOCK | PeerClosed => ERR_PEER_CLOSED | Full => ERR_INVALID end.

Definition sys_channel_peek (ch : Z) : M Sys Z :=
  current_thread (fun _ =>
    object ← locked (query_typed ch TyChannel Rights.RIGHT_RECEIVE);
    or_return object (fun channel =>
    r ← channel_op (peek_len channel);
    mret (match r with Ok len => Z.of_nat len | Err e => peek_code e end))).

Definition gone_code (e : ChannelError) : Z :=
  match e with PeerClosed => ERR_PEER_CLOSED | _ => ERR_WOULD_BLOCK end.

Definition ATTEMPTS : nat := 8.

Fixpoint receive_attempts (attempts : nat) (channel : Koid) (refuse_above_bytes : Z)
    (install_caps_max : nat) : M Sys (result Message Z) :=
  match attempts with
  | O => mret (Err ERR_WOULD_BLOCK)
  | S attempts =>
      shape ← channel_op (peek_identified channel);
      match shape with
      | Err e => mret (Err (gone_code e))
      | Ok (id, bytes, caps) =>
          if refuse_above_bytes <? Z.of_nat bytes then mret (Err ERR_INVALID)
          else
            let reserved := Nat.min caps install_caps_max in
            ok ← locked (reserve reserved);
            if negb ok then mret (Err ERR_RESOURCE_EXHAUSTED)
            else
              r ← channel_op (recv_identified channel id refuse_above_bytes MAX_MESSAGE_CAPS);
              match r with
              | Ok message => mret (Ok message)
              | Err refusal =>
                  locked (release_reservation reserved) ;;
                  match refusal with
                  | Superseded => receive_attempts attempts channel refuse_above_bytes install_caps_max
                  | TooLarge | TooManyCaps => mret (Err ERR_INVALID)
                  | Gone e => mret (Err (gone_code e))
                  end
              end
      end
  end.

Definition receive_transactionally : Koid -> Z -> nat -> M Sys (result Message Z) :=
  receive_attempts ATTEMPTS.

(** The installation loop: one reserved handle for each capability. *)
Fixpoint install_reserved (caps : list Capability) : M TW (list Handle) :=
  match caps with
  | [] => mret []
  | cap :: caps => h ← insert_reserved cap; hs ← install_reserved caps; mret (h :: hs)
  end.

(** [(0..installed).try_for_each(|i| write_user(caps_ptr + (i + 1) * 8, raws[i]))]. *)
Fixpoint write_handles (ptr : Z) (hs : list Handle) : M Sys (result unit Z) :=
  match hs with
  | [] => mret (Ok tt)
  | h :: hs =>
      r ← write_user ptr h;
      match r with Ok _ => write_handles (ptr + 8) hs | Err e => mret (Err e) end
  end.

Definition close_each (hs : list Handle) : M TW unit :=
  for_each (fun h => close h ;; mret tt) hs.

Definition sys_channel_recv_caps (ch bytes_ptr bytes_cap caps_ptr : Z) : M Sys Z :=
  current_thread (fun _ =>
    ok ← user_buf_ok bytes_ptr bytes_cap;
    ok ← if negb ok then mret false else user_buf_ok caps_ptr (Z.of_nat (MAX_MESSAGE_CAPS + 1) * 8);
    if negb ok then mret ERR_INVALID
    else
    object ← current_object ch TyChannel Rights.RIGHT_RECEIVE;
    or_return object (fun channel =>
    r ← receive_transactionally channel bytes_cap MAX_MESSAGE_CAPS;
    or_return r (fun message =>
    out ← copy_to_user_exact bytes_ptr (msg_bytes message);
    match out with
    | Err error =>
        locked (release_reservation (Nat.min (length (msg_caps message)) MAX_MESSAGE_CAPS)) ;;
        channel_op (return_to_head channel message) ;;
        mret error
    | Ok _ =>
        message ← channel_op (commit_delivery channel message);
        raws ← locked (install_reserved (firstn MAX_MESSAGE_CAPS (msg_caps message)));
        out ← write_handles (caps_ptr + 8) raws;
        out ← match out with
              | Ok _ => write_user caps_ptr (Z.of_nat (length raws))
              | Err e => mret (Err e)
              end;
        match out with
        | Err error => locked (close_each raws) ;; mret error
        | Ok _ => record_recv ;; mret (Z.of_nat (length (msg_bytes message)))
        end
    end))).

Definition sys_channel_recv (ch bytes_ptr bytes_cap out_handle_ptr : Z) : M Sys Z :=
  current_thread (fun _ =>
    ok ← user_buf_ok bytes_ptr bytes_cap;
    ok ← (if negb ok then mret false
          else if out_handle_ptr =? 0 then mret true else user_buf_ok out_handle_ptr 8);
    if negb ok then mret ERR_INVALID
    else
    object ← locked (query_typed ch TyChannel Rights.RIGHT_RECEIVE);
    or_return object (fun channel =>
    let install_max := if out_handle_ptr =? 0 then 0%nat else 1%nat in
    r ← receive_transactionally channel U64_MAX install_max;
    or_return r (fun message =>
    let n := Z.min (Z.of_nat (length (msg_bytes message))) bytes_cap in
    out ← (if (0 <? n) && negb (bytes_ptr =? 0)
           then copy_to_user_exact bytes_ptr (firstn (Z.to_nat n) (msg_bytes message))
           else mret (Ok tt));
    match out with
    | Err error =>
        locked (release_reservation (Nat.min (length (msg_caps message)) install_max)) ;;
        channel_op (return_to_head channel message) ;;
        mret error
    | Ok _ =>
        message ← channel_op (commit_delivery channel message);
        record_recv ;;
        if out_handle_ptr =? 0 then on_kernel (drop_caps (msg_caps message)) ;; mret n
        else
          handle_value ← match msg_caps message with
                         | cap :: rest =>
                             h ← locked (insert_reserved cap);
                             on_kernel (drop_caps rest) ;; mret h
                         | [] => mret 0
                         end;
          out ← write_user out_handle_ptr handle_value;
          match out with
          | Err error =>
              (if handle_value =? 0 then mret tt else locked (close handle_value ;; mret tt)) ;;
              mret error
          | Ok _ => mret n
          end
    end))).

End calls.

(** ** The end of a system call *)

Definition RETIRE : Z := - 2 ^ 63.

(** What [syscall_dispatch] does with a handler's result: [None] when the calling
    thread is retired, the value it returns to user mode otherwise. *)
Definition finish_dispatch (result : Z) : option Z :=
  if result =? RETIRE then None else Some (wrap64 result).
