(* ===== verification/SyscallFacts.v ===== *)
(** The building blocks of the channel system calls: what touching caller memory
    can change, a batch of capabilities taken and restored or committed, and the
    send that sits between. *)

From S2P Require Import Prelude Object Domain DomainFacts Handle HandleFacts HandleOps Channel ChannelFacts Syscall.

(** ** What leaves the kernel's state alone *)

(** Only the clock, the heap, the message counter and caller memory moved. *)
Record calm (s s' : Sys) : Prop := {
  calm_tbl : s_tbl s' = s_tbl s;
  calm_chans : s_chans s' = s_chans s;
  calm_domains : domains (s_world s') = domains (s_world s);
  calm_generations : generations (s_world s') = generations (s_world s);
  calm_live : live (s_world s') = live (s_world s);
  calm_next_koid : next_koid (s_world s') = next_koid (s_world s);
  calm_effects : effects (s_world s') = effects (s_world s);
  calm_sent : messages_sent s' = messages_sent s;
  calm_received : messages_received s' = messages_received s;
}.

#[export] Instance calm_preorder : PreOrder calm.
Proof. split; [by intros s | intros s1 s2 s3 [] []; split; congruence]. Qed.

Definition harmless {A} (m : M Sys A) : Prop := forall s, wp m (fun _ s' => calm s s') s.

Lemma harmless_ret {A} (a : A) : harmless (mret a).
Proof. intros s. by wp_step. Qed.

Lemma harmless_bind {A B} (m : M Sys A) (k : A -> M Sys B) :
  harmless m -> (forall a, harmless (k a)) -> harmless (mbind k m).
Proof.
  intros Hm Hk s. wp_step. eapply wp_mono; [apply Hm |]. intros a s1 H1.
  eapply wp_mono; [apply Hk |]. intros b s2 H2. by transitivity s1.
Qed.

Lemma harmless_gets {A} (f : Sys -> A) : harmless (gets f).
Proof. intros s. by wp_step. Qed.

Lemma wp_harmless {A B} (m : M Sys A) (k : A -> M Sys B) Q s :
  harmless m -> (forall a s', calm s s' -> wp (k a) Q s') -> wp (mbind k m) Q s.
Proof. intros Hm Hk. wp_step. eapply wp_mono; [apply Hm |]. auto. Qed.

Lemma harmless_tick : harmless tick.
Proof. intros s. unfold tick. wp_step. wp_step. wp_step. wp_step. by wp_step. Qed.

Lemma harmless_heap {A} (m : M heap A) : (forall h, is_Some (m h)) -> harmless (on_kernel (with_heap m)).
Proof.
  intros Hm s. unfold on_kernel, with_heap. wp_step. wp_step. unfold wp.
  destruct (Hm (heap_of (s_world s))) as [[a h] ->]. by split.
Qed.

Lemma heap_ask_some h : is_Some (heap_ask h).
Proof. destruct h; eauto. Qed.

Lemma try_reserve_some {A} (v : vec A) n h : is_Some (try_reserve v n h).
Proof.
  unfold try_reserve, mbind, M_bind. destruct (_ <=? _)%nat; [eauto |].
  destruct h as [| [slack |] h]; simpl; eauto.
Qed.

Lemma harmless_message_new bytes caps : harmless (on_kernel (message_new bytes caps)).
Proof. intros s. unfold on_kernel, message_new. wp_steps. by split. Qed.

#[export] Hint Resolve harmless_ret harmless_gets harmless_tick harmless_message_new heap_ask_some try_reserve_some
  harmless_heap : harmless.
#[export] Hint Extern 1 (harmless (mbind _ _)) => apply harmless_bind; [| intros ?] : harmless.
#[export] Hint Extern 1 (harmless (if ?b then _ else _)) => destruct b : harmless.
#[export] Hint Extern 1 (harmless (match ?x with _ => _ end)) => destruct x : harmless.
#[export] Hint Extern 1 (harmless (let '(_, _) := ?x in _)) => destruct x : harmless.

Section memory.
Context (E : Env).

Lemma harmless_pages_loop fuel page last write : harmless (pages_loop E fuel page last write).
Proof. revert page. induction fuel as [| fuel IH]; intros page; cbn [pages_loop]; auto 10 with harmless. Qed.

Lemma harmless_user_buf ptr len write : harmless (user_buf_checked E ptr len write).
Proof. unfold user_buf_checked, user_pages_ok. pose proof harmless_pages_loop. auto 10 with harmless. Qed.

Lemma harmless_user_buf_ok ptr len : harmless (user_buf_ok E ptr len).
Proof. apply harmless_user_buf. Qed.

Lemma harmless_copy_from ptr len : harmless (copy_from_user E ptr len).
Proof. unfold copy_from_user. auto 10 with harmless. Qed.

Lemma harmless_copy_from_exact ptr len : harmless (copy_from_user_exact E ptr len).
Proof. unfold copy_from_user_exact. pose proof harmless_copy_from. auto 10 with harmless. Qed.

Lemma harmless_zeroed len : harmless (try_zeroed_bytes len).
Proof. unfold try_zeroed_bytes. auto 10 with harmless. Qed.

Lemma harmless_read_bytes ptr len : harmless (read_bytes E ptr len).
Proof.
  unfold read_bytes. pose proof harmless_copy_from_exact. pose proof harmless_zeroed. auto 10 with harmless.
Qed.

Lemma harmless_read_u64 ptr : harmless (read_user_u64 E ptr).
Proof. unfold read_user_u64, read_user. pose proof harmless_copy_from. auto 10 with harmless. Qed.

Lemma harmless_read_transfer ptr : harmless (read_user_transfer E ptr).
Proof. unfold read_user_transfer, read_user. pose proof harmless_copy_from. auto 10 with harmless. Qed.

Lemma harmless_read_each {A} (read : Z -> M Sys A) ptr stride n :
  (forall p, harmless (read p)) -> harmless (read_each read ptr stride n).
Proof.
  intros Hr. revert ptr. induction n as [| n IH]; intros ptr; cbn [read_each]; auto 10 with harmless.
Qed.

Lemma harmless_reserve_batch n : harmless (reserve_batch n).
Proof. unfold reserve_batch. auto 10 with harmless. Qed.

Lemma harmless_copy_to dst src : harmless (copy_to_user E dst src).
Proof. intros s. unfold copy_to_user, tick. wp_steps. by split. Qed.

Lemma harmless_copy_to_exact dst src : harmless (copy_to_user_exact E dst src).
Proof. unfold copy_to_user_exact. pose proof harmless_copy_to. auto 10 with harmless. Qed.

Lemma harmless_write_user ptr v : harmless (write_user E ptr v).
Proof.
  unfold write_user, user_buf_writable. pose proof harmless_copy_to_exact. pose proof harmless_user_buf.
  auto 10 with harmless.
Qed.

Lemma harmless_write_handles ptr hs : harmless (write_handles E ptr hs).
Proof.
  pose proof harmless_write_user. revert ptr.
  induction hs as [| h hs IH]; intros ptr; cbn [write_handles]; auto 10 with harmless.
Qed.

(** What was read is no longer than what was asked for. *)
Lemma wp_copy_from_exact ptr len s :
  wp (copy_from_user_exact E ptr len) (fun r s' => calm s s' /\
    match r with Ok bytes => length bytes = len | Err e => e = ERR_NOT_MAPPED end) s.
Proof.
  unfold copy_from_user_exact. destruct len as [| len]; [by wp_step |]. apply wp_harmless; [apply harmless_copy_from |].
  intros bytes s' Hc. wp_step. split; [done |]. destruct (Nat.eqb_spec (length bytes) (S len)); done.
Qed.

Lemma wp_read_bytes ptr len s :
  wp (read_bytes E ptr len) (fun r s' => calm s s' /\
    match r with Ok bytes => (length bytes <= len)%nat | Err e => e < 0 end) s.
Proof.
  unfold read_bytes. destruct (_ || _); [wp_step; split; [done | simpl; lia] |].
  apply wp_harmless; [apply harmless_zeroed |]. intros [b |] s1 H1; [| by wp_step].
  eapply wp_mono; [apply wp_copy_from_exact |]. intros r s2 [H2 Hr]. split; [by transitivity s1 |].
  destruct r; [lia | by subst].
Qed.

End memory.

#[export] Hint Resolve harmless_user_buf_ok harmless_copy_from_exact harmless_zeroed harmless_read_u64
  harmless_read_transfer harmless_read_each harmless_reserve_batch harmless_copy_to_exact harmless_write_user
  harmless_write_handles : harmless.

(** ** A batch of capabilities lent to a message *)

Definition slot_of (x : Handle * Capability) : Z := handle_index (fst x).

Definition lend_slots (taken : list (Handle * Capability)) (l : list Slot) : list Slot :=
  foldr (fun x l => <[Z.to_nat (slot_of x) := mkSlot None (handle_generation (fst x)) true]> l) l taken.

(** The table with the capabilities of [taken] out, their slots reserved. *)
Definition lend (taken : list (Handle * Capability)) (t : HandleTable) : HandleTable :=
  set_slots (Vec (lend_slots taken (items (slots t))) (capacity (slots t))) t.

(** What may be lent: distinct slots, each a valid capability with the right to
    be transferred. *)
Record lendable (gens : gmap Koid Z) (t : HandleTable) (taken : list (Handle * Capability)) : Prop := {
  lendable_distinct : NoDup (slot_of <$> taken);
  lendable_caps : Forall (fun x => live_cap_of gens t (fst x) = Ok (snd x) /\
    Rights.contains (cap_rights (snd x)) Rights.RIGHT_TRANSFER = true) taken;
}.

Section lending.
Implicit Types (taken : list (Handle * Capability)) (t : HandleTable) (l : list Slot).

Lemma slot_of_nonneg x : 0 <= slot_of x.
Proof. apply handle_index_range. Qed.

Lemma lend_nil t : lend [] t = t.
Proof. by destruct t as [[? ?] ? ? ? ?]. Qed.

Lemma lookup_lend_ne taken l j :
  0 <= j -> j ∉ (slot_of <$> taken) -> lend_slots taken l !! Z.to_nat j = l !! Z.to_nat j.
Proof.
  intros Hj. induction taken as [| x taken IH]; simpl; [done |]. intros [Hne Hnin]%not_elem_of_cons.
  rewrite list_lookup_insert_ne; [by apply IH |]. pose proof (slot_of_nonneg x). lia.
Qed.

Lemma lookup_lend_live taken l j s cap :
  lend_slots taken l !! Z.to_nat j = Some s -> slot_cap s = Some cap -> 0 <= j -> j ∉ (slot_of <$> taken).
Proof.
  intros Hs Hc Hj. induction taken as [| x taken IH]; simpl in *; [set_solver |].
  destruct (decide (Z.to_nat (slot_of x) = Z.to_nat j)) as [Heq | Hne].
  - rewrite Heq in Hs. destruct (decide (Z.to_nat j < length (lend_slots taken l))%nat).
    + rewrite list_lookup_insert_eq in Hs by done. by simplify_eq.
    + rewrite list_insert_ge in Hs by lia. apply lookup_lt_Some in Hs. lia.
  - rewrite list_lookup_insert_ne in Hs by done. pose proof (slot_of_nonneg x). apply not_elem_of_cons.
    split; [lia | by apply IH].
Qed.

Lemma lend_snoc taken x t :
  slot_of x ∉ (slot_of <$> taken) ->
  lend (taken ++ [x]) t = set_slots (Vec (<[Z.to_nat (slot_of x) := mkSlot None (handle_generation (fst x)) true]>
      (items (slots (lend taken t)))) (capacity (slots (lend taken t)))) (lend taken t).
Proof.
  intros Hnin. unfold lend, set_slots. simpl. f_equal. f_equal. induction taken as [| y taken IH]; simpl in *; [done |].
  apply not_elem_of_cons in Hnin as [Hne Hnin]. rewrite IH by done. apply list_insert_insert_ne.
  pose proof (slot_of_nonneg x). pose proof (slot_of_nonneg y). lia.
Qed.

(** A capability that can still be found was there before, in a slot not lent. *)
Lemma live_cap_of_lend gens taken t h cap :
  live_cap_of gens (lend taken t) h = Ok cap ->
  live_cap_of gens t h = Ok cap /\ handle_index h ∉ (slot_of <$> taken).
Proof.
  intros H. destruct (live_cap_of_ok _ _ _ _ H) as [Hc _]. destruct (cap_of_ok _ _ _ Hc) as (s & Hs & Hcap & _).
  pose proof (lookup_lend_live taken (items (slots t)) (handle_index h) s cap Hs Hcap
                (proj1 (handle_index_range h))) as Hnin.
  split; [| done]. revert H. unfold live_cap_of, cap_of, slot_at, lend. simpl.
  by rewrite lookup_lend_ne by (done || apply handle_index_range).
Qed.

Lemma lend_pending gens taken t x : lendable gens t taken -> x ∈ taken -> pending (lend taken t) (fst x).
Proof.
  intros [Hnd Hc] Hx. unfold pending, slot_at, lend. simpl.
  rewrite Forall_forall in Hc. destruct (Hc x Hx) as [Hl _]. destruct (live_cap_of_ok _ _ _ _ Hl) as [Hcap _].
  destruct (cap_of_ok _ _ _ Hcap) as (s & Hs & _). unfold slot_at in Hs. clear Hc Hl Hcap.
  induction taken as [| y taken IH]; [set_solver |]. simpl in *. apply NoDup_cons in Hnd as [Hnin Hnd].
  assert (length (lend_slots taken (items (slots t))) = length (items (slots t))) as Hlen.
  { clear. induction taken as [| z taken IH]; simpl; [done | by rewrite length_insert]. }
  apply elem_of_cons in Hx as [-> | Hx].
  - unfold slot_of. rewrite list_lookup_insert_eq; [done |]. rewrite Hlen. by eapply lookup_lt_Some.
  - rewrite list_lookup_insert_ne; [by apply IH |].
    assert (slot_of y <> slot_of x) as Hne by (intros Heq; apply Hnin; rewrite Heq; by apply list_elem_of_fmap_2).
    pose proof (slot_of_nonneg x). pose proof (slot_of_nonneg y). unfold slot_of in *. lia.
Qed.

(** Giving the first lent capability back. *)
Lemma lend_restore gens t x taken :
  table_inv t -> lendable gens t (x :: taken) ->
  set_slots (Vec (<[Z.to_nat (slot_of x) := mkSlot (Some (snd x)) (handle_generation (fst x)) false]>
      (items (slots (lend (x :: taken) t)))) (capacity (slots (lend (x :: taken) t)))) (lend (x :: taken) t)
  = lend taken t.
Proof.
  intros Hinv [Hnd Hc]. unfold lend. simpl in *. apply NoDup_cons in Hnd as [Hnin Hnd].
  inversion Hc as [| ? ? [Hl _] _]; subst. destruct (live_cap_of_ok _ _ _ _ Hl) as [Hcap _].
  destruct (cap_of_ok _ _ _ Hcap) as (s & Hs & Hsc & Hg). pose proof (live_not_reserved _ _ _ _ Hinv Hs Hsc) as Hres.
  unfold set_slots. simpl. f_equal. f_equal. rewrite list_insert_insert_eq. apply list_insert_id.
  rewrite lookup_lend_ne by (done || apply slot_of_nonneg). unfold slot_at in Hs. unfold slot_of. rewrite Hs. f_equal.
  destruct s; simpl in *. by subst.
Qed.

End lending.

(** ** Taking, restoring and committing a batch *)

Section batch.
Context (t : HandleTable) (w : World) (hi : Z).
Hypothesis Hready : ready hi (mkTW t w).
Hypothesis Hopen : closed t = false.

(** Lending leaves the table ready and the account as it was. *)
Definition on_loan (taken : list (Handle * Capability)) : Prop :=
  lendable (generations w) t taken /\ ready hi (mkTW (lend taken t) w) /\ charged (lend taken t) = charged t.

Lemma on_loan_nil : on_loan [].
Proof using Hready.
  pose proof (lend_nil t) as Hl. unfold on_loan. rewrite Hl. split; [| done].
  by split; constructor.
Qed.

Lemma wp_take_lent h taken :
  on_loan taken ->
  wp (take_for_transfer h Rights.RIGHT_TRANSFER) (fun r s' =>
    match r with
    | Ok cap => on_loan (taken ++ [(h, cap)]) /\ s' = mkTW (lend (taken ++ [(h, cap)]) t) w
    | Err e => s' = mkTW (lend taken t) w
    end) (mkTW (lend taken t) w).
Proof.
  intros (Hl & Hr & Hch). eapply wp_mono; [apply (wp_take_for_transfer _ _ hi h Hr) |].
  intros [cap | e] s'; [| by intros [-> _]]. intros (Hlive & Hright & Hacc & _ & Hch' & ->).
  destruct (live_cap_of_lend _ _ _ _ _ Hlive) as [Hlive0 Hnin]. pose proof (lend_snoc taken (h, cap) t Hnin) as Heq.
  simpl in Heq. unfold slot_of in Heq at 1. simpl in Heq. rewrite Heq. split; [| done].
  pose proof (ready_accounted _ _ _ _ _ Hr Hacc) as Hr'. rewrite Hch' in Hr'. cbn [tbl] in Hr'.
  rewrite Z.sub_diag, Z.sub_0_r in Hr'. unfold on_loan. rewrite Heq. split; [| split; [exact Hr' | simpl in *; congruence]].
  destruct Hl as [Hnd Hc]. split.
  - rewrite fmap_app. apply NoDup_snoc. done.
  - apply Forall_app. split; [done |]. by apply Forall_singleton.
Qed.

Lemma wp_restore_one x taken :
  on_loan (x :: taken) ->
  wp (restore_taken (fst x) (snd x)) (fun _ s' => on_loan taken /\ s' = mkTW (lend taken t) w)
    (mkTW (lend (x :: taken) t) w).
Proof using Hready Hopen.
  intros (Hl & Hr & Hch). assert (pending (lend (x :: taken) t) (fst x)) as Hp by (eapply lend_pending; [done | set_solver]).
  eapply wp_mono; [apply (wp_restore_taken _ _ hi _ Hr (snd x) Hp) |]. intros _ s' [Hacc H].
  change (closed (lend (x :: taken) t)) with (closed t) in H. rewrite Hopen in H. destruct H as [Hch' ->].
  pose proof (lend_restore _ t x taken (ready_inv _ _ Hready) Hl) as Heq.
  unfold slot_of in Heq at 1. rewrite Heq in *. split; [| done].
  pose proof (ready_accounted _ _ _ _ _ Hr Hacc) as Hr'. rewrite Hch' in Hr'. cbn [tbl] in *.
  rewrite Z.sub_diag, Z.sub_0_r in Hr'. split; [| split; [exact Hr' | congruence]].
  destruct Hl as [Hnd Hc]. simpl in Hnd. apply NoDup_cons in Hnd as [_ Hnd]. inversion Hc; subst. by split.
Qed.

Lemma wp_restore_all taken :
  on_loan taken -> wp (restore_all taken) (fun _ s' => s' = mkTW t w) (mkTW (lend taken t) w).
Proof using Hready Hopen.
  induction taken as [| [h cap] taken IH]; intros Hl; unfold restore_all; cbn [for_each].
  - wp_step. by rewrite lend_nil.
  - wp_step. eapply wp_mono; [apply (wp_restore_one _ _ Hl) |]. intros _ s' [Hl' ->]. by apply IH.
Qed.

Lemma wp_take_all hs taken :
  on_loan taken ->
  wp (take_all hs taken) (fun r s' =>
    match r with
    | Ok l => on_loan l /\ fst <$> l = (fst <$> taken) ++ hs /\ s' = mkTW (lend l t) w
    | Err e => e < 0 /\ s' = mkTW t w
    end) (mkTW (lend taken t) w).
Proof using Hready Hopen.
  revert taken. induction hs as [| h hs IH]; intros taken Hl; cbn [take_all].
  - wp_step. by rewrite app_nil_r.
  - wp_step. eapply wp_mono; [apply (wp_take_lent h _ Hl) |]. intros [cap | e] s'.
    + intros [Hl' ->]. eapply wp_mono; [apply (IH _ Hl') |]. intros [l | e] s2; [| done].
      rewrite fmap_app. simpl. by rewrite <- app_assoc.
    + intros ->. wp_step. eapply wp_mono; [apply (wp_restore_all _ Hl) |]. intros _ s' ->. wp_step.
      split; [by destruct e | done].
Qed.

End batch.

(** Committing: every handle of the batch dies and its quota comes back. *)
Lemma wp_commit_all taken t w hi :
  ready hi (mkTW t w) -> NoDup (slot_of <$> taken) -> Forall (fun x => pending t (fst x)) taken ->
  wp (commit_all taken) (fun _ s' =>
    Forall (fun x => dead (tbl s') (fst x)) taken /\ accounted 0 (slot_of <$> taken) (mkTW t w) s' /\
    charged (tbl s') = charged t - Z.of_nat (length taken) /\ effects (wld s') = effects w) (mkTW t w).
Proof.
  revert t w hi. induction taken as [| [h cap] taken IH]; intros t w hi Hr Hnd Hp; unfold commit_all; cbn [for_each].
  - wp_step. split; [done |]. split; [apply accounted_refl, Hr |]. simpl. split; [lia | done].
  - simpl in Hnd. apply NoDup_cons in Hnd as [Hnin Hnd]. inversion Hp as [| ? ? Hp1 Hps]; subst. simpl in Hp1.
    wp_step. unfold commit_taken. eapply wp_mono; [apply (wp_resolve_taken _ _ hi _ Hr Hp1) |].
    intros _ [t1 w1] (Hacc & Hv & Hch & _ & He). cbn [tbl wld] in *.
    pose proof (ready_accounted _ _ _ _ _ Hr Hacc) as Hr1. eapply wp_mono; [apply (IH t1 w1 _ Hr1 Hnd) |].
    + rewrite Forall_forall in Hps |- *. intros x Hx. specialize (Hps x Hx). unfold pending in *.
      destruct Hacc as (dl & Hk & _). rewrite (kept_slots _ _ _ _ _ Hk); [done | apply handle_index_range |].
      intros Heq%list_elem_of_singleton. apply Hnin. change (handle_index (fst x)) with (slot_of x) in Heq.
      unfold slot_of at 1. simpl. rewrite <- Heq. by apply list_elem_of_fmap_2.
    + intros _ s2 (Hd & Hacc2 & Hch2 & He2). destruct Hacc2 as (dl2 & Hk2 & Hb2). simpl in *. split; [| split; [| split]].
      * constructor; [| done]. eapply dead_progress; [apply Hk2 | by apply vacated_dead].
      * eapply accounted_trans; [exact Hr | exact Hacc | exists dl2; by split | apply le_n | set_solver | set_solver].
      * lia.
      * congruence.
Qed.
