(* ===== verification/SyscallSend.v ===== *)
(** The four sends: what a refused one leaves behind, and what a delivered one
    moved. The calling thread runs alone here; what other threads can do between
    two steps is the subject of the receive's theorems. *)

From S2P Require Import Prelude Object Domain DomainFacts Handle HandleFacts HandleOps Channel ChannelFacts Syscall SyscallFacts.

(** Nobody else runs. *)
Definition quiet (E : Env) : Prop := forall t s, others E t s = s.

(** The system a send starts from: the caller's table is sound and open, each of
    its channel handles names a live endpoint, every endpoint is sound, and the
    caller's Domain can count one more message. *)
Record sys_ok (E : Env) (hi : Z) (s : Sys) : Prop := {
  ok_ready : ready hi (mkTW (s_tbl s) (s_world s));
  ok_open : closed (s_tbl s) = false;
  ok_channels : forall h cap, cap_of (s_tbl s) h = Ok cap -> object_type cap = TyChannel ->
    is_Some (s_chans s !! ref_koid (cap_object cap));
  ok_endpoints : forall k c, s_chans s !! k = Some c ->
    exists base held, chan_inv base (domains (s_world s)) held c;
  ok_rings : forall k c, s_chans s !! k = Some c -> vec_wf (inbox c);
  ok_payer : forall d, caller E = Some d -> pays IpcQueue d 0 MAX_MESSAGE_BYTES (domains (s_world s));
}.

(** An endpoint without the room its ring happens to have. *)
Definition contents (c : Channel) : Channel := set_inbox (Vec (items (inbox c)) 0) c.

(** Nothing the caller or anybody else could notice has changed; a reference that
    was dropped was a copy of a capability the caller still holds. *)
Record undisturbed (s s' : Sys) : Prop := {
  und_tbl : s_tbl s' = s_tbl s;
  und_chans : contents <$> s_chans s' = contents <$> s_chans s;
  und_domains : domains (s_world s') = domains (s_world s);
  und_generations : generations (s_world s') = generations (s_world s);
  und_counters : messages_sent s' = messages_sent s /\ messages_received s' = messages_received s;
  und_effects : exists es, effects (s_world s') = effects (s_world s) ++ es /\
    forall e, e ∈ es -> exists h cap, cap_of (s_tbl s) h = Ok cap /\ e = DropRef (cap_object cap);
}.

(** The capability that travels is the one that was taken, with no added right. *)
Definition narrowed (x : Handle * Capability) (cap : Capability) : Prop :=
  cap_object cap = cap_object (snd x) /\ cap_generation cap = cap_generation (snd x) /\
  Rights.contains (cap_rights (snd x)) (cap_rights cap) = true.

(** The message [m] went from [ch] to the endpoint [k], paid by [d], with the
    capabilities of [taken]. *)
Record delivered (d : Koid) (ch : Handle) (s s' : Sys) (k : Koid) (m : Message)
    (taken : list (Handle * Capability)) : Prop := {
  del_route : exists cap f, cap_of (s_tbl s) ch = Ok cap /\
    s_chans s !! ref_koid (cap_object cap) = Some f /\ peer_link f = Some k;
  del_queue : exists c c', s_chans s !! k = Some c /\ s_chans s' = <[k := c']> (s_chans s) /\
    items (inbox c') = items (inbox c) ++ [m] /\ depth c' <= queue_limit c';
  del_charge : queue_charge m = Some (mkCharge d (Z.of_nat (length (msg_bytes m))));
  del_bytes : Z.of_nat (length (msg_bytes m)) <= MAX_MESSAGE_BYTES;
  del_usage : forall a, usage IpcQueue (domains (s_world s')) a =
    (fun u => u + if decide (a ∈ chain_of (domains (s_world s)) d) then Z.of_nat (length (msg_bytes m)) else 0)
      <$> usage IpcQueue (domains (s_world s)) a;
  del_caps : Forall2 narrowed taken (msg_caps m);
  del_taken : Forall (fun x => live_cap_of (generations (s_world s)) (s_tbl s) (fst x) = Ok (snd x) /\
    Rights.contains (cap_rights (snd x)) Rights.RIGHT_TRANSFER = true /\ dead (s_tbl s') (fst x)) taken;
  del_distinct : NoDup (slot_of <$> taken);
  del_rest : forall h cap, cap_of (s_tbl s) h = Ok cap -> handle_index h ∉ (slot_of <$> taken) ->
    cap_of (s_tbl s') h = Ok cap;
  del_charged : charged (s_tbl s') = charged (s_tbl s) - Z.of_nat (length taken);
  del_sent : messages_sent s' = wrap64 (messages_sent s + 1);
}.

Definition outcome (E : Env) (ch : Handle) (s : Sys) (r : Z) (s' : Sys) : Prop :=
  (r < 0 /\ undisturbed s s') \/
  (r = 0 /\ exists d k m taken, caller E = Some d /\ delivered d ch s s' k m taken).

Lemma calm_undisturbed s s' : calm s s' -> undisturbed s s'.
Proof.
  intros Hc. split; [| rewrite (calm_chans _ _ Hc) | ..]; try apply Hc; [done | split; apply Hc |].
  exists []. rewrite app_nil_r. split; [apply Hc | set_solver].
Qed.

Lemma outcome_calm E ch s r s' : calm s s' -> r < 0 -> outcome E ch s r s'.
Proof. intros Hc Hr. left. split; [done | by apply calm_undisturbed]. Qed.

Section send.
Context (E : Env) (hi : Z) (s0 : Sys).
Hypothesis Hquiet : quiet E.
Hypothesis Hok : sys_ok E hi s0.

Lemma wp_locked {A} (m : M TW A) Q s :
  wp m (fun a x => Q a (set_tw x (set_clock (S (clock s)) s))) (mkTW (s_tbl s) (s_world s)) -> wp (locked E m) Q s.
Proof using Hquiet.
  intros H. unfold locked, yield, tick. wp_steps. rewrite Hquiet. unfold on_table. by apply wp_zoom.
Qed.

Lemma wp_channel_op {A} (m : M CW A) Q s :
  wp m (fun a x => Q a (set_cw x (set_clock (S (clock s)) s))) (mkCW (s_chans s) (s_world s)) -> wp (channel_op E m) Q s.
Proof using Hquiet.
  intros H. unfold channel_op, yield, tick. wp_steps. rewrite Hquiet. unfold on_channels. by apply wp_zoom.
Qed.

Lemma wp_query h rights s :
  calm s0 s ->
  wp (locked E (query_typed h TyChannel rights)) (fun r s' => calm s0 s' /\
    match r with
    | Ok k => exists cap f, cap_of (s_tbl s0) h = Ok cap /\ ref_koid (cap_object cap) = k /\ s_chans s0 !! k = Some f
    | Err e => e < 0
    end) s.
Proof using Hquiet Hok.
  intros Hc. apply wp_locked. unfold query_typed. wp_steps. cbn [tbl wld]. split; [destruct Hc; by split |].
  rewrite (calm_tbl _ _ Hc). unfold lookup_typed. destruct (cap_of (s_tbl s0) h) as [cap | e] eqn:E1; [| by destruct e].
  destruct (bool_decide_reflect (object_type cap = TyChannel)) as [Hty |]; simpl; [| done].
  destruct (is_valid _ cap); simpl; [| done]. destruct (Rights.contains _ _); simpl; [| done].
  destruct (ok_channels _ _ _ Hok h cap E1 Hty) as [f Hf]. eauto.
Qed.

(** ** Between the take and the outcome *)

(** From [s0] to [s] only [taken] went out of the table. *)
Record loaned (taken : list (Handle * Capability)) (s : Sys) : Prop := {
  loan_tbl : s_tbl s = lend taken (s_tbl s0);
  loan_rest : calm s0 (set_tw (mkTW (s_tbl s0) (s_world s)) s);
}.

Lemma loaned_calm taken s s' : loaned taken s -> calm s s' -> loaned taken s'.
Proof using. intros [Ht []] []. split; [congruence |]. split; simpl in *; congruence. Qed.

Lemma calm_loaned s : calm s0 s -> loaned [] s.
Proof using. intros []. split; [by rewrite lend_nil |]. by split. Qed.

Lemma ready_same_domains t w w' : domains w' = domains w -> ready hi (mkTW t w) -> ready hi (mkTW t w').
Proof using. intros Hd [Hi Ha]. split; [done |]. unfold affords in *. simpl in *. by rewrite Hd. Qed.

Lemma on_loan_world t w w' taken :
  domains w' = domains w -> generations w' = generations w ->
  on_loan t w hi taken -> on_loan t w' hi taken.
Proof using.
  intros Hd Hg ([Hnd Hc] & Hr & Hch). split; [| split; [by eapply ready_same_domains | done]]. split; [done |].
  by rewrite Hg.
Qed.

(** The message is in the peer's queue, and its payer charged. *)
Definition accepted (taken : list (Handle * Capability)) (d : Koid) (f : Channel) (m : Message) (s' : Sys) : Prop :=
  exists k P P' m', peer_link f = Some k /\ s_chans s0 !! k = Some P /\
    s_chans s' = <[k := P']> (s_chans s0) /\ items (inbox P') = items (inbox P) ++ [m'] /\
    depth P' <= queue_limit P' /\ msg_bytes m' = msg_bytes m /\ msg_caps m' = msg_caps m /\
    queue_charge m' = Some (mkCharge d (Z.of_nat (length (msg_bytes m)))) /\
    s_tbl s' = lend taken (s_tbl s0) /\ generations (s_world s') = generations (s_world s0) /\
    shifted IpcQueue (chain_of (domains (s_world s0)) d) (Z.of_nat (length (msg_bytes m)))
      (domains (s_world s0)) (domains (s_world s')) /\ messages_sent s' = messages_sent s0.

(** The message was refused and is nowhere. *)
Definition bounced (taken : list (Handle * Capability)) (s' : Sys) : Prop :=
  s_tbl s' = lend taken (s_tbl s0) /\
  contents <$> s_chans s' = contents <$> s_chans s0 /\ domains (s_world s') = domains (s_world s0) /\
  generations (s_world s') = generations (s_world s0) /\ effects (s_world s') = effects (s_world s0) /\
  messages_sent s' = messages_sent s0 /\ messages_received s' = messages_received s0.

(** The send itself, with [taken] out of the table. *)
Lemma wp_send_loaned taken d c f m s :
  caller E = Some d -> loaned taken s -> s_chans s0 !! c = Some f ->
  queue_charge m = None -> slot_in_flight m = false -> Z.of_nat (length (msg_bytes m)) <= MAX_MESSAGE_BYTES ->
  wp (channel_op E (send_charged_or_return c m d)) (fun r s' =>
    match r with
    | Ok _ => accepted taken d f m s'
    | Err (e, caps) => e <> Empty /\ caps = msg_caps m /\ bounced taken s'
    end) s.
Proof using Hquiet Hok.
  intros Hd [Ht [_ Hc Hdom Hg _ _ He Hms Hmr]] Hf Hq Hs Hlen. simpl in *. apply wp_channel_op. unfold send_charged_or_return.
  destruct (chan_peer (s_chans s0) f) as [k |] eqn:Hpeer.
  - unfold chan_peer in Hpeer. destruct (peer_link f) as [p |] eqn:Hp; [| done].
    destruct (s_chans s0 !! p) as [P |] eqn:HP; [| done]. injection Hpeer as <-.
    destruct (ok_endpoints _ _ _ Hok p P HP) as (base & held & Hinv). rewrite <- Hdom in Hinv.
    destruct (ok_payer _ _ _ Hok d Hd) as (Hwf & Hd0 & Hds & Hpay).
    eapply wp_mono; [eapply (wp_send_inner base p c f (Some d) m held P)|]; simpl; rewrite ?Hc, ?Hdom in *; try done.
    + split; [done |]. split; [done |]. split; [done |]. split; [done |].
      intros a u Ha Hu. specialize (Hpay a u Ha Hu). lia.
    + intros [u | [e caps]] s' (P' & HP' & Hinv' & Hql & Hfr & H); simpl.
      * destruct H as (m' & Hi & _ & Hb & Hcaps & Hch & _ & Hsh). rewrite ?Hdom in Hsh. exists p, P, P', m'. simpl.
        split; [done |]. split; [done |]. split; [by rewrite HP' |]. split; [done |].
        split; [rewrite (depth_small _ _ _ _ Hinv'); apply Hinv' |]. destruct Hfr. repeat split; try done; congruence || apply Hsh.
      * destruct H as (_ & -> & -> & Hds' & He' & cap & ->). split; [done |]. split; [done |]. split; [done |]. simpl.
        split; [| destruct Hfr; repeat split; congruence].
        rewrite HP'. rewrite fmap_insert. apply insert_id. rewrite lookup_fmap, HP. done.
  - unfold send_inner. wp_step. eapply wp_get_chan; [simpl; by rewrite Hc |]. wp_steps. simpl. rewrite Hc, Hpeer. wp_step.
    split; [done |]. done.
Qed.

(** ** The two endings *)

Lemma pays_other r r' d lo h C delta ds ds' :
  r <> r' -> pays r d lo h ds -> shifted r' C delta ds ds' -> pays r d lo h ds'.
Proof using.
  intros Hne (Hwf & Hd & [D HD] & Hb) [Ht Hu _]. split; [by eapply domains_wf_same_tree |]. split; [done |].
  split; [specialize (Ht d); rewrite HD in Ht; by destruct (ds' !! d) |].
  assert (chain_of ds' d = chain_of ds d) as -> by (by rewrite Ht).
  intros a u Ha Hua. rewrite Hu in Hua. destruct (usage r ds a) as [u0 |] eqn:E0; simplify_eq/=.
  rewrite decide_False by tauto. specialize (Hb a u0 Ha E0). lia.
Qed.

Lemma cap_of_lend_ne taken t h :
  handle_index h ∉ (slot_of <$> taken) -> cap_of (lend taken t) h = cap_of t h.
Proof using.
  intros Hnin. unfold cap_of, slot_at, lend. simpl. by rewrite lookup_lend_ne by (done || apply handle_index_range).
Qed.

(** The lent handles of [taken] are spent between [s] and [s']. *)
Record spent (taken : list (Handle * Capability)) (s s' : Sys) : Prop := {
  spent_dead : Forall (fun x => dead (s_tbl s') (fst x)) taken;
  spent_account : accounted 0 (slot_of <$> taken) (mkTW (s_tbl s) (s_world s)) (mkTW (s_tbl s') (s_world s'));
  spent_charged : charged (s_tbl s') = charged (s_tbl s) - Z.of_nat (length taken);
  spent_chans : s_chans s' = s_chans s;
  spent_sent : messages_sent s' = messages_sent s;
}.

Lemma accepted_ready taken d f m s :
  on_loan (s_tbl s0) (s_world s0) hi taken -> accepted taken d f m s -> ready hi (mkTW (s_tbl s) (s_world s)).
Proof using.
  intros (_ & [Hinv Ha] & _) (k & P & P' & m' & _ & _ & _ & _ & _ & _ & _ & _ & Ht & _ & Hsh & _). rewrite Ht.
  split; [done |]. unfold affords in *. simpl in *. destruct (table_domain (s_tbl s0)); [| done].
  eapply (pays_other Handles IpcQueue); [done | exact Ha | exact Hsh].
Qed.

Lemma wp_commit_spent taken d f m s :
  on_loan (s_tbl s0) (s_world s0) hi taken -> accepted taken d f m s ->
  wp (locked E (commit_all taken)) (fun _ s' => spent taken s s') s.
Proof using Hquiet.
  intros Hl Hacc. pose proof (accepted_ready _ _ _ _ _ Hl Hacc) as Hr. apply wp_locked.
  destruct Hl as (Hl & _). destruct Hacc as (k & P & P' & m' & _ & _ & _ & _ & _ & _ & _ & _ & Ht & _). rewrite Ht in *.
  eapply wp_mono; [apply (wp_commit_all taken _ _ hi Hr) |].
  - apply Hl.
  - apply Forall_forall. intros x Hx. by eapply lend_pending.
  - intros _ [t' w'] (Hdead & Hacc & Hch & _). split; simpl; try done; by rewrite Ht.
Qed.

Lemma spent_nil d f m s : on_loan (s_tbl s0) (s_world s0) hi [] -> accepted [] d f m s -> spent [] s s.
Proof using.
  intros Hl Hacc. pose proof (accepted_ready _ _ _ _ _ Hl Hacc) as Hr.
  split; try done; [apply accounted_refl, Hr | simpl; lia].
Qed.

(** [commit_taken] on its own is a batch of one. *)
Lemma wp_commit_one x taken s (Q : unit -> Sys -> Prop) :
  wp (locked E (commit_all [(x, taken)])) Q s -> wp (locked E (commit_taken x)) Q s.
Proof using Hquiet.
  unfold locked, commit_all. cbn [for_each]. unfold on_table, zoom, wp, mbind, M_bind, mret, M_ret.
  destruct (yield E s) as [[[] s1] |]; [| done]. destruct (commit_taken x _) as [[[] y] |]; done.
Qed.

Lemma wp_restore_single x taken s (Q : unit -> Sys -> Prop) :
  wp (locked E (restore_all [(x, taken)])) Q s -> wp (locked E (restore_taken x taken)) Q s.
Proof using Hquiet.
  unfold locked, restore_all. cbn [for_each]. unfold on_table, zoom, wp, mbind, M_bind, mret, M_ret.
  destruct (yield E s) as [[[] s1] |]; [| done]. destruct (restore_taken x taken _) as [[[] y] |]; done.
Qed.

Lemma delivered_intro ch cap taken d f m s s1 s2 :
  cap_of (s_tbl s0) ch = Ok cap -> s_chans s0 !! ref_koid (cap_object cap) = Some f ->
  on_loan (s_tbl s0) (s_world s0) hi taken -> Forall2 narrowed taken (msg_caps m) ->
  Z.of_nat (length (msg_bytes m)) <= MAX_MESSAGE_BYTES -> accepted taken d f m s -> spent taken s s1 ->
  s_tbl s2 = s_tbl s1 -> s_chans s2 = s_chans s1 -> domains (s_world s2) = domains (s_world s1) ->
  messages_sent s2 = wrap64 (messages_sent s1 + 1) -> exists k m', delivered d ch s0 s2 k m' taken.
Proof using.
  intros Hch Hf (Hl & _ & Hc0) Hn Hlen (k & P & P' & m' & Hk & HP & Hcs & Hi & Hdep & Hb & Hcaps & Hq & Ht & Hg & Hsh & Hms).
  intros [Hdead (delta & Hkept & Hbill) Hchg Hcs1 Hms1] Ht2 Hcs2 Hds2 Hms2. simpl in *.
  exists k, m'. destruct Hl as [Hnd Hlc]. split; rewrite ?Ht2, ?Hcs2, ?Hds2, ?Hcs1; simpl.
  - eauto.
  - exists P, P'. by rewrite Hcs.
  - by rewrite Hb.
  - by rewrite Hb.
  - intros a. rewrite (ipc_usage _ _ (ipc_same_billed _ _ _ _ Hbill)), (shifted_usage _ _ _ _ _ Hsh), Hb.
    destruct (usage IpcQueue _ a); simpl; [| done]. f_equal. repeat case_decide; tauto || lia.
  - by rewrite Hcaps.
  - rewrite Forall_forall in *. intros x Hx. destruct (Hlc x Hx). auto.
  - done.
  - intros h c Hc Hnin. rewrite <- Hc. rewrite <- (cap_of_lend_ne taken (s_tbl s0) h) by done. unfold cap_of.
    rewrite (kept_slots _ _ _ _ _ Hkept) by (done || apply handle_index_range). by rewrite Ht.
  - rewrite Hchg, Ht. lia.
  - by rewrite Hms2, Hms1, Hms.
Qed.

(** Restoring after a refusal: [copies] are what the message carried, dropped or
    put back. *)
Lemma wp_restore_bounced taken copies es s :
  on_loan (s_tbl s0) (s_world s0) hi taken -> Forall2 narrowed taken copies ->
  es = [] \/ es = DropRef <$> (cap_object <$> copies) ->
  bounced taken (set_s_world (mkWorld (domains (s_world s)) (generations (s_world s)) (live (s_world s))
    (next_koid (s_world s)) (next_message_id (s_world s)) (heap_of (s_world s)) (effects (s_world s0))) s) ->
  effects (s_world s) = effects (s_world s0) ++ es ->
  wp (locked E (restore_all taken)) (fun _ s' => undisturbed s0 s') s.
Proof using Hquiet Hok.
  intros Hl Hn Hes (Ht & Hcs & Hd & Hg & _ & Hms & Hmr) He. simpl in *. apply wp_locked. rewrite Ht.
  eapply wp_mono; [apply (wp_restore_all (s_tbl s0) (s_world s) hi)|].
  - by eapply ready_same_domains, Hok.
  - apply Hok.
  - by eapply on_loan_world.
  - intros _ x ->. destruct Hl as [[_ Hlc] _]. split; simpl; try done. exists es. split; [done |].
    destruct Hes as [-> | ->]; [set_solver |].
    intros e (o & -> & Ho)%list_elem_of_fmap. apply list_elem_of_fmap in Ho as (cp & -> & Hcp).
    apply list_elem_of_lookup in Hcp as [i Hi]. destruct (Forall2_lookup_r _ _ _ _ _ Hn Hi) as (y & Hy & Ho & _).
    rewrite Forall_forall in Hlc. destruct (Hlc y) as [Hlive _]; [by eapply list_elem_of_lookup_2 |].
    destruct (live_cap_of_ok _ _ _ _ Hlive) as [Hcap _]. exists (fst y), (snd y). by rewrite Ho.
Qed.

(** ** The steps before the send *)

Lemma wp_take_locked h s :
  calm s0 s ->
  wp (locked E (take_for_transfer h Rights.RIGHT_TRANSFER)) (fun r s' =>
    match r with
    | Ok cap => on_loan (s_tbl s0) (s_world s0) hi [(h, cap)] /\ loaned [(h, cap)] s'
    | Err e => calm s0 s'
    end) s.
Proof using Hquiet Hok.
  intros Hc. apply wp_locked. rewrite (calm_tbl _ _ Hc). rewrite <- (lend_nil (s_tbl s0)) at 1.
  eapply wp_mono; [eapply (wp_take_lent (s_tbl s0) (s_world s) hi) |].
  - eapply on_loan_world, on_loan_nil, Hok; apply Hc.
  - intros [cap | e] x.
    + intros [Hl ->]. split; [eapply on_loan_world; [| | exact Hl]; symmetry; apply Hc |].
      split; [done |]. destruct Hc. by split.
    + intros ->. rewrite lend_nil. destruct Hc. by split.
Qed.

Lemma wp_take_all_locked hs s :
  calm s0 s ->
  wp (locked E (take_all hs [])) (fun r s' =>
    match r with
    | Ok l => on_loan (s_tbl s0) (s_world s0) hi l /\ loaned l s' /\ fst <$> l = hs
    | Err e => e < 0 /\ calm s0 s'
    end) s.
Proof using Hquiet Hok.
  intros Hc. apply wp_locked. rewrite (calm_tbl _ _ Hc). rewrite <- (lend_nil (s_tbl s0)) at 1.
  eapply wp_mono; [eapply (wp_take_all (s_tbl s0) (s_world s) hi) |].
  - eapply ready_same_domains, Hok. apply Hc.
  - apply Hok.
  - eapply on_loan_world, on_loan_nil, Hok; apply Hc.
  - intros [l | e] x.
    + intros (Hl & Hfst & ->). split; [eapply on_loan_world; [| | exact Hl]; symmetry; apply Hc |].
      split; [| done]. split; [done |]. destruct Hc. by split.
    + intros [He ->]. split; [done |]. destruct Hc. by split.
Qed.

Lemma wp_message bytes caps s :
  wp (on_kernel (message_new bytes caps)) (fun m s' => calm s s' /\ msg_bytes m = bytes /\ msg_caps m = caps /\
    queue_charge m = None /\ slot_in_flight m = false) s.
Proof using. unfold on_kernel, message_new. wp_steps. by repeat split. Qed.

Lemma narrowed_self x : narrowed x (snd x).
Proof using.
  unfold narrowed, Rights.contains. split; [done |]. split; [done |]. rewrite Z.land_diag. apply Z.eqb_refl.
Qed.

Lemma narrowed_attenuated mask h cap : narrowed (h, cap) (attenuated mask cap).
Proof using.
  unfold narrowed, attenuated, Rights.contains, Rights.bitand. simpl. split; [done |]. split; [done |].
  rewrite Z.land_assoc, Z.land_diag. apply Z.eqb_refl.
Qed.

Lemma wp_drop_refs caps s :
  wp (on_kernel (drop_caps caps)) (fun _ s' => s' = set_s_world (mkWorld (domains (s_world s)) (generations (s_world s))
    (live (s_world s)) (next_koid (s_world s)) (next_message_id (s_world s)) (heap_of (s_world s))
    (effects (s_world s) ++ (DropRef <$> (cap_object <$> caps)))) s) s.
Proof using.
  unfold on_kernel. wp_step. generalize (s_world s). induction caps as [| c caps IH]; intros w; unfold drop_caps; cbn [for_each].
  - wp_step. simpl. rewrite app_nil_r. by destruct w.
  - wp_step. apply wp_modify. eapply wp_mono; [apply IH |]. intros _ w' ->. simpl. by rewrite <- app_assoc.
Qed.

Lemma bounced_effects taken s : bounced taken s -> effects (s_world s) = effects (s_world s0) ++ [].
Proof using. intros (_ & _ & _ & _ & He & _). by rewrite app_nil_r. Qed.

Lemma bounced_back taken s :
  bounced taken s -> bounced taken (set_s_world (mkWorld (domains (s_world s)) (generations (s_world s)) (live (s_world s))
    (next_koid (s_world s)) (next_message_id (s_world s)) (heap_of (s_world s)) (effects (s_world s0))) s).
Proof using. intros (? & ? & ? & ? & ? & ?). done. Qed.

Lemma outcome_delivered ch cap taken d f m s s1 s2 :
  caller E = Some d -> cap_of (s_tbl s0) ch = Ok cap -> s_chans s0 !! ref_koid (cap_object cap) = Some f ->
  on_loan (s_tbl s0) (s_world s0) hi taken -> Forall2 narrowed taken (msg_caps m) ->
  Z.of_nat (length (msg_bytes m)) <= MAX_MESSAGE_BYTES -> accepted taken d f m s -> spent taken s s1 ->
  s_tbl s2 = s_tbl s1 -> s_chans s2 = s_chans s1 -> domains (s_world s2) = domains (s_world s1) ->
  messages_sent s2 = wrap64 (messages_sent s1 + 1) -> outcome E ch s0 0 s2.
Proof using.
  intros Hd ? ? ? ? ? ? ? ? ? ? ?. right. split; [done |].
  edestruct (delivered_intro ch cap taken d f m s s1 s2) as (k & m' & Hdel); try done. eauto 10.
Qed.

(** ** The handlers *)

(** A step that leaves the kernel alone: [H : calm s0 _] moves along. *)
#[local] Ltac calmly x H :=
  apply wp_harmless; [by auto with harmless |];
  let s := fresh "now" in let H' := fresh "Hnow" in
  intros x s H'; eapply transitivity in H'; [| exact H]; clear H; rename H' into H.
#[local] Ltac refuse := wp_step; by apply outcome_calm.

Lemma small_enough n len : (len <= Z.to_nat n)%nat -> n <= MAX_MESSAGE_BYTES -> Z.of_nat len <= MAX_MESSAGE_BYTES.
Proof using. unfold MAX_MESSAGE_BYTES. lia. Qed.

Lemma wp_sys_channel_send ch p n x : wp (sys_channel_send E ch p n x) (outcome E ch s0) s0.
Proof using Hquiet Hok.
  unfold sys_channel_send. assert (calm s0 s0) as Hc by reflexivity.
  destruct (Z.ltb_spec MAX_MESSAGE_BYTES n); [refuse |]. unfold current_thread. destruct (caller E) as [d |] eqn:Hd; [| refuse].
  wp_step. eapply wp_mono; [by apply wp_query |]. intros [c | e] s1 [H1 Hq]; simpl; [| refuse].
  destruct Hq as (cap & f & Hch & <- & Hf). calmly ok H1. destruct ok; simpl; [| refuse].
  wp_step. eapply wp_mono; [apply wp_read_bytes |]. intros [bytes | e] s2 [H2 Hlen]; eapply transitivity in H2; [| exact H1 | | exact H1];
    simpl; [| refuse].
  pose proof (small_enough _ _ Hlen ltac:(done)) as Hsmall.
  (* the capability, if there is one *)
  wp_step. apply wp_mono with (Q := fun r s' =>
    match r with
    | Ok caps => exists taken, on_loan (s_tbl s0) (s_world s0) hi taken /\ loaned taken s' /\ caps = snd <$> taken /\
        (if x =? 0 then taken = [] else exists cp, taken = [(x, cp)])
    | Err e => e < 0 /\ calm s0 s'
    end).
  { destruct (Z.eqb_spec x 0); [wp_step; exists []; split; [apply on_loan_nil, Hok | by split; [apply calm_loaned |]] |].
    calmly r H2. destruct r as [ok ?]. destruct ok; simpl; [| by wp_step]. wp_step.
    eapply wp_mono; [by apply wp_take_locked |]. intros [cp | e] s3 H3; wp_step; [| split; [by destruct e | done]].
    destruct H3. exists [(x, cp)]. eauto. }
  intros [caps | e] s3; [| intros [? ?]; simpl; refuse]. intros (taken & Hl & Hloan & -> & Hx). simpl.
  wp_step. eapply wp_mono; [apply wp_message |]. intros m s4 (H4 & Hb & Hcaps & Hqc & Hsl).
  pose proof (loaned_calm _ _ _ Hloan H4) as Hloan4. rewrite <- Hb in Hsmall.
  assert (Forall2 narrowed taken (snd <$> taken)) as Hn.
  { apply Forall2_fmap_r. apply Forall_Forall2_diag, Forall_true. intros y. apply narrowed_self. }
  wp_step. eapply wp_mono; [eapply wp_send_loaned; done |]. intros [u | [e caps]] s5.
  - intros Hacc. rewrite <- Hcaps in Hn. wp_step. apply wp_mono with (Q := fun _ s' => spent taken s5 s').
    + destruct (x =? 0); [subst; wp_step; by eapply spent_nil |]. destruct Hx as [cp ->].
      apply (wp_commit_one _ cp). by eapply wp_commit_spent.
    + intros _ s6 Hsp. unfold record_send. wp_steps. by eapply (outcome_delivered ch cap taken d f m s5 s6).
  - intros (He & -> & Hbo). wp_step. apply wp_mono with (Q := fun _ s' => undisturbed s0 s').
    + rewrite Hcaps. destruct (x =? 0).
      * subst. wp_step. destruct Hbo as (Ht & Hcs & Hds & Hg & Hef & Hms & Hmr). rewrite lend_nil in Ht.
        split; try done. exists []. rewrite app_nil_r. split; [done | set_solver].
      * destruct Hx as [cp ->]. change (for_each (restore_taken x) (snd <$> [(x, cp)])) with (restore_all [(x, cp)]).
        eapply wp_restore_bounced; [done | exact Hn | by left | by apply bounced_back | by eapply bounced_effects].
    + intros _ s6 Hu. wp_step. left. split; [by destruct e | done].
Qed.

Lemma wp_sys_channel_send_attenuated ch p n q : wp (sys_channel_send_attenuated E ch p n q) (outcome E ch s0) s0.
Proof using Hquiet Hok.
  unfold sys_channel_send_attenuated. assert (calm s0 s0) as H1 by reflexivity.
  destruct (Z.ltb_spec MAX_MESSAGE_BYTES n); [refuse |]. calmly ok H1. destruct ok; simpl; [| refuse].
  calmly xf H1. destruct (_ =? 0); [refuse |]. unfold current_thread. destruct (caller E) as [d |] eqn:Hd; [| refuse].
  wp_step. eapply wp_mono; [by apply wp_query |]. intros [c | e] s1 [H2 Hq]; simpl; [| refuse].
  destruct Hq as (cap & f & Hch & <- & Hf). calmly ok H2. destruct ok; simpl; [| refuse].
  wp_step. eapply wp_mono; [apply wp_read_bytes |]. intros [bytes | e] s2 [H3 Hlen]; eapply transitivity in H3; [| exact H2 | | exact H2];
    simpl; [| refuse].
  pose proof (small_enough _ _ Hlen ltac:(done)) as Hsmall. calmly r H3. destruct r as [ok ?]. destruct ok; simpl; [| refuse].
  wp_step. eapply wp_mono; [by apply wp_take_locked |].
  intros [taken | e] s3 Ht; [| wp_step; apply outcome_calm; [done | by destruct e]]. destruct Ht as [Hl Hloan].
  wp_step. eapply wp_mono; [apply wp_message |]. intros m s4 (H4 & Hb & Hcaps & Hqc & Hsl).
  pose proof (loaned_calm _ _ _ Hloan H4) as Hloan4. rewrite <- Hb in Hsmall.
  assert (Forall2 narrowed [(xfer_handle xf, taken)] (msg_caps m)) as Hn.
  { rewrite Hcaps. constructor; [apply narrowed_attenuated | constructor]. }
  wp_step. eapply wp_mono; [eapply wp_send_loaned; done |]. intros [u | [e caps]] s5.
  - intros Hacc. wp_step.
    apply wp_mono with (Q := fun _ s' => spent [(xfer_handle xf, taken)] s5 s');
      [apply (wp_commit_one _ taken); by eapply wp_commit_spent |].
    intros _ s6 Hsp. unfold record_send. wp_step. wp_step. wp_step. eapply wp_mono; [apply wp_drop_refs |]. intros _ s7 ->. wp_step.
    by eapply (outcome_delivered ch cap _ d f m s5 s6).
  - intros (He & -> & Hbo). wp_step. eapply wp_mono; [apply wp_drop_refs |]. intros _ s6 ->. wp_step.
    apply wp_mono with (Q := fun _ s' => undisturbed s0 s');
      [apply wp_restore_single; eapply wp_restore_bounced; [done | exact Hn | by right | ..] |].
    + by apply bounced_back in Hbo.
    + destruct Hbo as (_ & _ & _ & _ & Hef & _). simpl. by rewrite Hef.
    + intros _ s7 Hu. wp_step. left. split; [by destruct e | done].
Qed.

(** What the two batch sends share, from the capabilities on. *)
Lemma wp_batch ch cap f d bytes taken copies s (drop : bool) :
  caller E = Some d -> cap_of (s_tbl s0) ch = Ok cap -> s_chans s0 !! ref_koid (cap_object cap) = Some f ->
  on_loan (s_tbl s0) (s_world s0) hi taken -> loaned taken s -> Forall2 narrowed taken copies ->
  Z.of_nat (length bytes) <= MAX_MESSAGE_BYTES -> (drop = false -> copies = snd <$> taken) ->
  wp (msg ← on_kernel (message_new bytes copies);
      r ← channel_op E (send_charged_or_return (ref_koid (cap_object cap)) msg d);
      match r with
      | Ok _ =>
          locked E (commit_all taken) ;; record_send ;;
          (if drop then on_kernel (drop_caps (snd <$> taken)) ;; mret 0 else mret 0)
      | Err (e, caps) =>
          if drop then on_kernel (drop_caps caps) ;; locked E (restore_all taken) ;; mret (send_caps_code e)
          else locked E (restore_all (zip (fst <$> taken) caps)) ;; mret (send_caps_code e)
      end) (outcome E ch s0) s.
Proof using Hquiet Hok.
  intros Hd Hch Hf Hl Hloan Hn Hsmall Hdrop. wp_step. eapply wp_mono; [apply wp_message |].
  intros m s4 (H4 & Hb & Hcaps & Hqc & Hsl). pose proof (loaned_calm _ _ _ Hloan H4) as Hloan4. rewrite <- Hb in Hsmall.
  wp_step. eapply wp_mono; [eapply wp_send_loaned; done |]. rewrite <- Hcaps in Hn. intros [u | [e caps]] s5.
  - intros Hacc. wp_step. apply wp_mono with (Q := fun _ s' => spent taken s5 s'); [by eapply wp_commit_spent |].
    intros _ s6 Hsp. unfold record_send. wp_step. wp_step. destruct drop; [wp_step; eapply wp_mono; [apply wp_drop_refs |]; intros _ s7 -> |];
      wp_step; by eapply (outcome_delivered ch cap _ d f m s5 s6).
  - intros (He & -> & Hbo). destruct drop.
    + wp_step. eapply wp_mono; [apply wp_drop_refs |]. intros _ s6 ->. wp_step.
      apply wp_mono with (Q := fun _ s' => undisturbed s0 s'); [eapply wp_restore_bounced; [done | exact Hn | by right | ..] |].
      * by apply bounced_back in Hbo.
      * destruct Hbo as (_ & _ & _ & _ & Hef & _). simpl. by rewrite Hef.
      * intros _ s7 Hu. wp_step. left. split; [by destruct e | done].
    + rewrite Hcaps, Hdrop by done. replace (zip (fst <$> taken) (snd <$> taken)) with taken by (by rewrite zip_fst_snd).
      wp_step. apply wp_mono with (Q := fun _ s' => undisturbed s0 s'); [eapply wp_restore_bounced; [done | exact Hn | by left | by apply bounced_back | by eapply bounced_effects] |].
      intros _ s6 Hu. wp_step. left. split; [by destruct e | done].
Qed.

Lemma wp_sys_channel_send_caps ch p n q : wp (sys_channel_send_caps E ch p n q) (outcome E ch s0) s0.
Proof using Hquiet Hok.
  unfold sys_channel_send_caps. assert (calm s0 s0) as H1 by reflexivity.
  destruct (Z.ltb_spec MAX_MESSAGE_BYTES n); [refuse |]. unfold current_thread. destruct (caller E) as [d |] eqn:Hd; [| refuse].
  calmly ok H1. calmly ok' H1. destruct ok'; simpl; [| refuse]. calmly cnt H1. destruct (_ || _); [refuse |].
  calmly ok'' H1. destruct ok''; simpl; [| refuse]. calmly raw H1.
  wp_step. eapply wp_mono; [by apply wp_query |]. intros [c | e] s1 [H2 Hq]; simpl; [| refuse].
  destruct Hq as (cap & f & Hch & <- & Hf). calmly buf H2. destruct buf as [buf |]; [| refuse].
  wp_step. eapply wp_mono; [apply wp_copy_from_exact |]. intros [bytes | e] s2 [H3 Hlen]; eapply transitivity in H3; [| exact H2 | | exact H2];
    simpl; [| subst; refuse].
  pose proof (small_enough n _ (Nat.eq_le_incl _ _ Hlen) ltac:(done)) as Hsmall. destruct (has_repeat raw); [refuse |].
  calmly ok3 H3. destruct ok3; simpl; [| refuse]. wp_step. eapply wp_mono; [by apply wp_take_all_locked |].
  intros [taken | e] s3; [| intros [? ?]; simpl; refuse]. intros (Hl & Hloan & _). simpl.
  eapply (wp_batch ch cap f d bytes taken (snd <$> taken) s3 false); try done.
  apply Forall2_fmap_r. apply Forall_Forall2_diag, Forall_true. intros y. apply narrowed_self.
Qed.

Lemma wp_sys_channel_send_caps_attenuated ch p n q :
  wp (sys_channel_send_caps_attenuated E ch p n q) (outcome E ch s0) s0.
Proof using Hquiet Hok.
  unfold sys_channel_send_caps_attenuated. assert (calm s0 s0) as H1 by reflexivity.
  destruct (Z.ltb_spec MAX_MESSAGE_BYTES n); [refuse |]. unfold current_thread. destruct (caller E) as [d |] eqn:Hd; [| refuse].
  calmly ok H1. calmly ok' H1. destruct ok'; simpl; [| refuse]. calmly cnt H1. destruct (_ || _); [refuse |].
  calmly ok'' H1. destruct ok''; simpl; [| refuse]. calmly xs H1. destruct (existsb _ xs); [refuse |].
  wp_step. eapply wp_mono; [by apply wp_query |]. intros [c | e] s1 [H2 Hq]; simpl; [| refuse].
  destruct Hq as (cap & f & Hch & <- & Hf). calmly buf H2. destruct buf as [buf |]; [| refuse].
  wp_step. eapply wp_mono; [apply wp_copy_from_exact |]. intros [bytes | e] s2 [H3 Hlen]; eapply transitivity in H3; [| exact H2 | | exact H2];
    simpl; [| subst; refuse].
  pose proof (small_enough n _ (Nat.eq_le_incl _ _ Hlen) ltac:(done)) as Hsmall. destruct (has_repeat _); [refuse |].
  calmly ok3 H3. destruct ok3; simpl; [| refuse]. wp_step. eapply wp_mono; [by apply wp_take_all_locked |].
  intros [taken | e] s3; [| intros [? ?]; simpl; refuse]. intros (Hl & Hloan & Hfst). simpl.
  eapply (wp_batch ch cap f d bytes taken _ s3 true); try done.
  clear -Hfst. revert taken Hfst. induction xs as [| x xs IH]; intros [| [h c] taken] Hfst; simplify_eq/=; constructor; [| by apply IH].
  apply narrowed_attenuated.
Qed.

End send.
