(* ===== verification/SyscallRecv.v ===== *)
(** The transactional receive: look, reserve, take by identity, while other
    receivers of the same endpoint do what they like in between. *)

From S2P Require Import Prelude Object Domain DomainFacts Handle HandleFacts HandleOps HandleReserve Channel ChannelFacts Syscall SyscallFacts.

(** From [s] to [s'] the table booked [l] more slots, charged for each, and is
    otherwise as it was, up to [n] slots of growth; the Domains moved by [rel]. *)
Record rebooked (rel : gmap Koid Domain -> gmap Koid Domain -> Prop) (hi : Z) (n : nat) (s s' : Sys) (l : list Z) : Prop := {
  rb_ready : ready (hi - Z.of_nat (length l)) (mkTW (s_tbl s') (s_world s'));
  rb_charged : charged (s_tbl s') = charged (s_tbl s) + Z.of_nat (length l);
  rb_booked : items (booked (s_tbl s')) = items (booked (s_tbl s)) ++ l;
  rb_caps : same_caps (s_tbl s) (s_tbl s');
  rb_closed : closed (s_tbl s') = closed (s_tbl s);
  rb_domain : table_domain (s_tbl s') = table_domain (s_tbl s);
  rb_slots : (vec_len (slots (s_tbl s')) <= vec_len (slots (s_tbl s)) + n)%nat;
  rb_domains : rel (domains (s_world s)) (domains (s_world s'));
}.
Arguments rb_ready {_ _ _ _ _ _}. Arguments rb_charged {_ _ _ _ _ _}. Arguments rb_booked {_ _ _ _ _ _}. Arguments rb_caps {_ _ _ _ _ _}.
Arguments rb_closed {_ _ _ _ _ _}. Arguments rb_domain {_ _ _ _ _ _}. Arguments rb_slots {_ _ _ _ _ _}. Arguments rb_domains {_ _ _ _ _ _}.

Lemma ready_same hi s s' :
  ready hi (mkTW (s_tbl s) (s_world s)) -> s_tbl s' = s_tbl s -> domains (s_world s') = domains (s_world s) ->
  ready hi (mkTW (s_tbl s') (s_world s')).
Proof. intros [Hi Ha] Ht Hd. rewrite Ht. split; [done |]. unfold affords in *. simpl in *. by rewrite Hd. Qed.

Section rebooked.
Context (rel : gmap Koid Domain -> gmap Koid Domain -> Prop) `{!PreOrder rel}.
Hypothesis Hrel : forall ds ds', ipc_same ds ds' -> rel ds ds'.

Lemma rebooked_at hi n s s' :
  ready hi (mkTW (s_tbl s') (s_world s')) -> s_tbl s' = s_tbl s -> rel (domains (s_world s)) (domains (s_world s')) -> rebooked rel hi n s s' [].
Proof using. intros Hr Ht Hd. split; rewrite ?Ht, ?app_nil_r; try done; simpl; try lia. rewrite Z.sub_0_r. by rewrite <- Ht. Qed.

Lemma rebooked_later hi n s s1 s' l :
  rebooked rel hi n s s1 l -> s_tbl s' = s_tbl s1 -> rel (domains (s_world s1)) (domains (s_world s')) ->
  (ready (hi - Z.of_nat (length l)) (mkTW (s_tbl s1) (s_world s1)) -> ready (hi - Z.of_nat (length l)) (mkTW (s_tbl s') (s_world s'))) ->
  rebooked rel hi n s s' l.
Proof using PreOrder0.
  intros [Hr ? ? ? ? ? ? Hi] Ht Hd Hk. specialize (Hk Hr). split; rewrite ?Ht in *; try done. by etrans.
Qed.

Lemma rebooked_here hi n s s' :
  ready hi (mkTW (s_tbl s) (s_world s)) -> s_tbl s' = s_tbl s -> domains (s_world s') = domains (s_world s) -> rebooked rel hi n s s' [].
Proof using PreOrder0. intros Hr Ht Hd. apply rebooked_at; [by apply (ready_same _ s) | done |]. by rewrite Hd. Qed.

Lemma rebooked_same hi n s s1 s' l :
  rebooked rel hi n s s1 l -> s_tbl s' = s_tbl s1 -> domains (s_world s') = domains (s_world s1) -> rebooked rel hi n s s' l.
Proof using PreOrder0. intros Hb Ht Hd. apply (rebooked_later _ _ _ s1); [done | done | by rewrite Hd |]. intros Hr. by apply (ready_same _ s1). Qed.

Lemma rebooked_trans hi n1 n2 n s1 s2 s3 l :
  rebooked rel hi n1 s1 s2 [] -> rebooked rel hi n2 s2 s3 l -> (n1 + n2 <= n)%nat -> rebooked rel hi n s1 s3 l.
Proof using PreOrder0.
  intros [? ? ? ? ? ? ? ?] [? ? ? ? ? ? ? ?] Hn. rewrite app_nil_r in *. simpl in *.
  split; try done; try congruence; try lia; [by transitivity (s_tbl s2) | by transitivity (domains (s_world s2))].
Qed.

(** One reservation and, when the take is refused, its release. *)
Lemma rebooked_accounted hi n s s' l :
  ready hi (mkTW (s_tbl s) (s_world s)) ->
  accounted n (next_slots (s_tbl s) n) (mkTW (s_tbl s) (s_world s)) (mkTW (s_tbl s') (s_world s')) ->
  same_caps (s_tbl s) (s_tbl s') -> charged (s_tbl s') = charged (s_tbl s) + Z.of_nat (length l) ->
  items (booked (s_tbl s')) = items (booked (s_tbl s)) ++ l -> rebooked rel hi n s s' l.
Proof using Hrel.
  intros Hr1 Hacc Hsame Hch Hb. pose proof (ready_accounted _ _ _ _ _ Hr1 Hacc) as Hr.
  destruct Hacc as (dl & Hk & Hbill). apply ipc_same_billed, Hrel in Hbill. destruct Hk. simpl in *.
  rewrite Hch in Hr. split; try done; [| lia]. by replace (hi - _) with
    (hi - (charged (s_tbl s) + Z.of_nat (length l) - charged (s_tbl s))) by lia.
Qed.

Lemma rebooked_released hi n s s1 s' l :
  rebooked rel hi n s s1 l -> accounted 0 [] (mkTW (s_tbl s1) (s_world s1)) (mkTW (s_tbl s') (s_world s')) ->
  charged (s_tbl s') = charged (s_tbl s1) - Z.of_nat (length l) ->
  items (booked (s_tbl s')) = list.take (vec_len (booked (s_tbl s1)) - length l) (items (booked (s_tbl s1))) ->
  rebooked rel hi n s s' [].
Proof using Hrel PreOrder0.
  intros [Hr1 Hch Hb Hc Hcl Hdm Hsl Hipc] Hacc Hch' Hb'.
  pose proof (ready_accounted _ _ _ _ _ Hr1 Hacc) as Hr. destruct Hacc as (dl & Hk & Hbill).
  apply ipc_same_billed, Hrel in Hbill. simpl in *.
  split; rewrite ?app_nil_r; try (destruct Hk; congruence || simpl in *; lia).
  - rewrite Hch' in Hr. by replace (hi - Z.of_nat (length [])) with
      (hi - Z.of_nat (length l) - (charged (s_tbl s1) - Z.of_nat (length l) - charged (s_tbl s1))) by (simpl; lia).
  - rewrite Hb'. unfold vec_len. rewrite Hb, length_app. rewrite Nat.add_sub. by rewrite take_app_length.
  - intros i Hi0. rewrite <- Hc by done. by rewrite (kept_slots _ _ _ _ _ Hk) by (done || set_solver).
  - by etrans.
Qed.

End rebooked.

(** ** The loop, against an interface of the endpoint

    [J] is what is known of the endpoints whoever else runs; [P] is what the look
    learns of a message, and [T] what the take leaves behind. Whoever else runs moves the
    Domains by [rel], and leaves the account of the table with the room it has, up to [hi]. *)

Record Endpoint (rel : gmap Koid Domain -> gmap Koid Domain -> Prop) (hi : Z) (E : Env) (k : Koid) (J : gmap Koid Channel -> Prop)
    (P : Z -> nat -> nat -> Prop) (T : Message -> gmap Koid Channel -> Prop) : Prop := {
  ep_others : forall t s, s_tbl (others E t s) = s_tbl s /\ rel (domains (s_world s)) (domains (s_world (others E t s))) /\
    (forall h, 0 <= h <= hi -> ready h (mkTW (s_tbl s) (s_world s)) -> ready h (mkTW (s_tbl s) (s_world (others E t s)))) /\
    (J (s_chans s) -> J (s_chans (others E t s)));
  ep_peek : forall cs w, J cs ->
    wp (peek_identified k) (fun r x => x = mkCW cs w /\
      match r with Ok (id, bytes, caps) => P id bytes caps | Err _ => True end) (mkCW cs w);
  ep_take : forall cs w id bytes caps cap n, J cs -> P id bytes caps ->
    wp (recv_identified k id cap n) (fun r x => cworld x = w /\
      match r with
      | Ok m => T m (chans x) /\ length (msg_caps m) = caps /\ Z.of_nat (length (msg_bytes m)) <= cap /\
          (length (msg_caps m) <= n)%nat
      | Err _ => chans x = cs
      end) (mkCW cs w);
}.

Section receive.
Context (rel : gmap Koid Domain -> gmap Koid Domain -> Prop) `{!PreOrder rel} (hi : Z).
Context (E : Env) (k : Koid) (J : gmap Koid Channel -> Prop) (P : Z -> nat -> nat -> Prop).
Context (T : Message -> gmap Koid Channel -> Prop).
Hypothesis Hrel : forall ds ds', ipc_same ds ds' -> rel ds ds'.
Hypothesis Hep : Endpoint rel hi E k J P T.

(** From [s] to [s'] only others ran. *)
Definition yielded (s s' : Sys) : Prop :=
  J (s_chans s') /\ s_tbl s' = s_tbl s /\ rel (domains (s_world s)) (domains (s_world s')) /\
  forall h, 0 <= h <= hi -> ready h (mkTW (s_tbl s) (s_world s)) -> ready h (mkTW (s_tbl s') (s_world s')).

(** What a step under a lock starts from. *)
Lemma wp_yield s (Q : unit -> Sys -> Prop) : J (s_chans s) -> (forall s', yielded s s' -> Q tt s') -> wp (yield E) Q s.
Proof using Hep.
  intros HJ HQ. unfold yield, tick. wp_steps.
  destruct (ep_others _ _ _ _ _ _ _ Hep (clock s) (set_clock (S (clock s)) s)) as (Ht & Hd & Hr & Hj). apply HQ.
  split; [by apply Hj |]. split; [done |]. split; [done |]. intros h Hh Hr0. rewrite Ht. by apply Hr.
Qed.

Lemma rebooked_yielded n s s1 s' l :
  rebooked rel hi n s s1 l -> yielded s1 s' -> Z.of_nat (length l) <= hi -> rebooked rel hi n s s' l.
Proof using PreOrder0. intros Hb (_ & Ht & Hd & Hr) Hl. apply (rebooked_later rel _ _ _ s1); try done. apply Hr. lia. Qed.

Definition received (n : nat) (cap : Z) (imax : nat) (s : Sys) (r : result Message Z) (s' : Sys) : Prop :=
  exists l, rebooked rel hi n s s' l /\
  match r with
  | Ok m => T m (s_chans s') /\ Z.of_nat (length (msg_bytes m)) <= cap /\
      (length (msg_caps m) <= MAX_MESSAGE_CAPS)%nat /\ length l = Nat.min (length (msg_caps m)) imax
  | Err e => e < 0 /\ l = [] /\ J (s_chans s')
  end.

(** The take, with [n] slots booked for the message that was seen. *)
Lemma wp_take_booked cap imax n id bytes caps s s2 l (K : result Message RecvRefusal -> M Sys (result Message Z)) Q :
  J (s_chans s2) -> P id bytes caps -> rebooked rel hi n s s2 l -> length l = Nat.min caps imax -> Z.of_nat imax <= hi ->
  (forall m s3, received n cap imax s (Ok m) s3 -> wp (K (Ok m)) Q s3) ->
  (forall e s3, J (s_chans s3) -> rebooked rel hi n s s3 l -> wp (K (Err e)) Q s3) ->
  wp (r ← channel_op E (recv_identified k id cap MAX_MESSAGE_CAPS); K r) Q s2.
Proof using Hep PreOrder0.
  intros HJ HP Hb Hl Hhi HOk HErr. wp_step. unfold channel_op. wp_step. apply wp_yield; [done |]. intros s3 Hy.
  pose proof (rebooked_yielded _ _ _ _ _ Hb Hy ltac:(lia)) as Hb3. destruct Hy as (HJ3 & _). unfold on_channels. wp_step.
  eapply wp_mono; [by apply (ep_take _ _ _ _ _ _ _ Hep _ _ id bytes caps) |]. intros [m | e] x [Hw Hm].
  - apply HOk. destruct Hm as (HT & Hc & Hcap & Hn). exists l. split; [| do 3 (split; [done |]); by rewrite Hc].
    eapply rebooked_same; [done | exact Hb3 | done | simpl; by rewrite Hw].
  - apply HErr; [simpl; by rewrite Hm |]. eapply rebooked_same; [done | exact Hb3 | done | simpl; by rewrite Hw].
Qed.

(** The release of what was booked for a message that got away. *)
Lemma wp_release_booked n m s s4 l (K : M Sys (result Message Z)) Q :
  J (s_chans s4) -> rebooked rel hi n s s4 l -> Z.of_nat (length l) <= hi -> m = length l ->
  (forall s6, J (s_chans s6) -> rebooked rel hi n s s6 [] -> wp K Q s6) ->
  wp (locked E (release_reservation m) ;; K) Q s4.
Proof using Hep PreOrder0 Hrel.
  intros HJ Hb Hl -> HK. wp_step. unfold locked at 1. wp_step. apply wp_yield; [done |]. intros s5 Hy.
  pose proof (rebooked_yielded _ _ _ _ _ Hb Hy Hl) as Hb5. destruct Hy as (HJ5 & _). unfold on_table. wp_step.
  eapply wp_mono; [eapply (wp_release_reservation _ _ _ (rb_ready Hb5) (length l)) |].
  { unfold vec_len. rewrite (rb_booked Hb5), length_app. lia. }
  intros [] [t6 w6] (Hacc6 & Hch6 & Hb6). apply HK; [done |]. by eapply (rebooked_released rel Hrel).
Qed.

Lemma rebooked_more n n' s s' l : rebooked rel hi n s s' l -> (n <= n')%nat -> rebooked rel hi n' s s' l.
Proof using. intros [] Hle. split; try done. lia. Qed.

Lemma wp_receive_attempts a cap imax s :
  J (s_chans s) -> ready hi (mkTW (s_tbl s) (s_world s)) ->
  Z.of_nat (vec_len (slots (s_tbl s))) + Z.of_nat (a * imax) <= TWO32 -> Z.of_nat imax <= hi ->
  wp (receive_attempts E a k cap imax) (received (a * imax) cap imax s) s.
Proof using Hep PreOrder0 Hrel.
  revert s. induction a as [| a IH]; intros s HJ Hr Hlen Hhi; cbn [receive_attempts].
  { wp_step. exists []. split; [by apply rebooked_here | done]. }
  wp_step. unfold channel_op at 1. wp_step. apply wp_yield; [done |]. intros s1 Hy1. unfold on_channels. wp_step.
  pose proof (rebooked_yielded (S a * imax) s s s1 [] (rebooked_here rel _ _ _ _ Hr eq_refl eq_refl) Hy1 ltac:(simpl; lia)) as Hb1.
  destruct Hy1 as (HJ1 & Ht1 & Hd1 & Hr1). specialize (Hr1 hi ltac:(lia) Hr).
  eapply wp_mono; [by apply (ep_peek _ _ _ _ _ _ _ Hep) |]. intros r x [-> Hshape].
  set (s1' := set_cw _ s1). assert (s1' = s1) as -> by (by destruct s1).
  assert (forall e, e < 0 -> received (S a * imax) cap imax s (Err e) s1) as Hfail by (intros e He; by exists []).
  destruct r as [[[id bytes] caps] | e]; [| wp_step; apply Hfail; by destruct e].
  destruct (_ <? _); [wp_step; by apply Hfail |].
  set (n := Nat.min caps imax). assert (n <= imax)%nat as Hn by (unfold n; lia).
  wp_step. unfold locked at 1. wp_step. apply wp_yield; [done |]. intros s2 (HJ2 & Ht2 & Hd2 & Hr2). specialize (Hr2 hi ltac:(lia) Hr1).
  unfold on_table. wp_step. eapply wp_mono; [apply (wp_reserve _ _ hi Hr2); rewrite ?Ht2, ?Ht1; lia |]. intros ok [t' w'] (Hacc & Hsame & H).
  set (s3 := set_tw _ s2). assert (forall l, charged t' = charged (s_tbl s2) + Z.of_nat (length l) ->
    items (booked t') = items (booked (s_tbl s2)) ++ l -> rebooked rel hi imax s s3 l) as Hb.
  { intros l Hch Hbk. eapply (rebooked_trans rel _ 0 imax); [apply (rebooked_at rel hi 0 s s2 Hr2); [congruence | by etrans] | | apply Nat.le_refl].
    apply (rebooked_more n); [| done]. by apply (rebooked_accounted rel Hrel). }
  cbn [tbl] in H. destruct ok; cbn [negb].
  2: { wp_step. exists []. split; [| done]. destruct H as [Hch Hbk]. apply (rebooked_more imax); [| lia].
       apply Hb; [simpl; lia | by rewrite app_nil_r]. }
  destruct H as (Hch & l & Hl & Hbk). specialize (Hb l ltac:(by rewrite Hl) Hbk).
  apply (wp_take_booked cap imax imax id bytes caps s s3 l); try done.
  - intros m s4 (l' & Hb' & H'). wp_step. exists l'. split; [| done]. apply (rebooked_more imax); [done | lia].
  - intros ref s4 HJ4 Hb4. apply (wp_release_booked imax n s s4 l); try done; [lia |]. intros s6 HJ6 Hb6.
    assert (forall e, e < 0 -> received (S a * imax) cap imax s (Err e) s6) as Hfail6.
    { intros e He. exists []. split; [| done]. apply (rebooked_more imax); [done | lia]. }
    destruct ref as [| | | e]; [wp_step; by apply Hfail6.. | | wp_step; apply Hfail6; by destruct e].
    pose proof Hb6 as [Hr6 ? ? ? ? ? Hsl6 ?]. simpl in Hr6. rewrite Z.sub_0_r in Hr6.
    eapply wp_mono; [apply (IH s6); try done; lia |]. intros r s7 (l7 & Hb7 & H7).
    exists l7. split; [| done]. eapply rebooked_trans; [done | exact Hb6 | exact Hb7 | lia].
Qed.

End receive.
