(* ===== verification/SyscallDeliver.v ===== *)
(** The two receive calls of a thread that runs alone: a delivery that fails puts
    the message back, one that succeeds hands over exactly what it reports, and
    the handle account is exact either way. *)

From S2P Require Import Prelude Object Domain DomainFacts Handle HandleFacts HandleOps HandleReserve HandleProps.
From S2P Require Import Channel ChannelFacts Syscall SyscallFacts SyscallSend SyscallRecv.

(** ** What reaches caller memory *)

(** Nothing is stored in caller memory. *)
Definition stores_nothing {A} (m : M Sys A) : Prop := forall s, wp m (fun _ s' => written s' = written s) s.

Lemma stores_nothing_bind {A B} (m : M Sys A) (f : A -> M Sys B) :
  stores_nothing m -> (forall a, stores_nothing (f a)) -> stores_nothing (mbind f m).
Proof.
  intros Hm Hf s. wp_step. eapply wp_mono; [apply Hm |]. intros a s1 H1. eapply wp_mono; [apply Hf |]. intros b s2 H2. congruence.
Qed.

Lemma stores_nothing_ret {A} (a : A) : stores_nothing (mret a).
Proof. intros s. by wp_step. Qed.

Lemma stores_nothing_tick : stores_nothing tick.
Proof. intros s. unfold tick. by wp_steps. Qed.

#[local] Hint Resolve stores_nothing_ret stores_nothing_tick : stores.
#[local] Hint Extern 1 (stores_nothing (mbind _ _)) => apply stores_nothing_bind; [| intros ?] : stores.
#[local] Hint Extern 1 (stores_nothing (if ?b then _ else _)) => destruct b : stores.
#[local] Hint Extern 1 (stores_nothing (match ?x with _ => _ end)) => destruct x : stores.

Section stores.
Context (E : Env).

Lemma stores_nothing_pages_loop fuel page last write : stores_nothing (pages_loop E fuel page last write).
Proof. revert page. induction fuel as [| fuel IH]; intros page; cbn [pages_loop]; auto 10 with stores. Qed.

Lemma stores_nothing_user_buf ptr len write : stores_nothing (user_buf_checked E ptr len write).
Proof. unfold user_buf_checked, user_pages_ok. pose proof stores_nothing_pages_loop. auto 10 with stores. Qed.

(** An announcement touches caller memory only. It stores exactly [l], or fails with an
    error code. *)
Definition announces (l : list (Z * list Z)) (m : M Sys (result unit Z)) : Prop := forall s,
  wp m (fun r s' => calm s s' /\ match r with Ok _ => written s' = written s ++ l | Err e => e < 0 end) s.

Lemma announces_bind l1 l2 (m : M Sys (result unit Z)) (f : M Sys (result unit Z)) :
  announces l1 m -> announces l2 f -> announces (l1 ++ l2) (r ← m; match r with Ok _ => f | Err e => mret (Err e) end).
Proof.
  intros Hm Hf s. wp_step. eapply wp_mono; [apply Hm |]. intros [[] | e] s1 (H1 & He); [| by wp_step].
  eapply wp_mono; [apply Hf |]. intros r s2 (H2 & Hr). split; [by transitivity s1 |]. destruct r; [| done]. by rewrite Hr, He, app_assoc.
Qed.

Lemma announces_write_user ptr v : announces [(ptr, le_encode 8 v)] (write_user E ptr v).
Proof.
  intros s. unfold write_user, user_buf_writable. wp_step.
  eapply wp_mono; [apply wp_conj; [apply harmless_user_buf | apply stores_nothing_user_buf] |]. intros [] s1 [H1 Hw1]; cbn [negb]; [| by wp_step].
  unfold copy_to_user_exact. destruct (le_encode 8 v) as [| b bs] eqn:Ev; [by apply (f_equal length) in Ev; rewrite length_le_encode in Ev |].
  unfold copy_to_user, tick. wp_steps. split; [transitivity s1; [done | by split] |].
  destruct (Nat.eqb_spec (Nat.min (length (b :: bs)) (user_takes E (clock s1) ptr (length (b :: bs)))) (length (b :: bs))) as [Heq |]; [| done].
  cbn [written set_written set_clock]. by rewrite Heq, firstn_all, Hw1.
Qed.

(** The numbers of new handles, eight bytes apart. *)
Fixpoint numbered (ptr : Z) (hs : list Handle) : list (Z * list Z) :=
  match hs with [] => [] | h :: hs => (ptr, le_encode 8 h) :: numbered (ptr + 8) hs end.

Lemma announces_write_handles ptr hs : announces (numbered ptr hs) (write_handles E ptr hs).
Proof.
  revert ptr. induction hs as [| h hs IH]; intros ptr; cbn [write_handles].
  - intros s. wp_step. split; [done |]. by rewrite app_nil_r.
  - apply (announces_bind [_]); [apply announces_write_user | apply IH].
Qed.

(** A copy that reports success stored every byte. *)
Lemma wp_copy_to_exact dst src s :
  wp (copy_to_user_exact E dst src) (fun r s' => calm s s' /\
    match r with Ok _ => src = [] \/ (dst, src) ∈ written s' | Err e => e < 0 end) s.
Proof.
  unfold copy_to_user_exact. destruct src as [| b src]; [wp_step; split; [done | by left] |].
  unfold copy_to_user, tick. wp_steps. split; [by split |].
  destruct (Nat.eqb_spec (Nat.min (length (b :: src)) (user_takes E (clock s) dst (length (b :: src)))) (length (b :: src))) as [Heq |];
    [| done]. right. cbn [written set_written set_clock]. rewrite Heq, firstn_all. set_solver.
Qed.

End stores.

(** ** Installing, and closing what could not be announced *)

Lemma install_insert caps : install_reserved caps = insert_all_reserved caps.
Proof. induction caps as [| c caps IH]; simpl; [done | by rewrite IH]. Qed.

Lemma wp_close_each hs t w hi :
  ready hi (mkTW t w) -> NoDup (handle_index <$> hs) -> Forall (fun h => exists cap, cap_of t h = Ok cap) hs ->
  wp (close_each hs) (fun _ s' => ready (hi + Z.of_nat (length hs)) s' /\ booked (tbl s') = booked t /\
    charged (tbl s') = charged t - Z.of_nat (length hs) /\ ipc_same (domains w) (domains (wld s'))) (mkTW t w).
Proof.
  revert t w hi. induction hs as [| h hs IH]; intros t w hi Hr Hnd Hl; unfold close_each; cbn [for_each].
  - wp_step. simpl. rewrite Z.add_0_r, Z.sub_0_r. done.
  - simpl in Hnd. apply NoDup_cons in Hnd as [Hnin Hnd]. inversion Hl as [| ? ? [cap Hc] Hls]; subst.
    wp_step. wp_step. eapply wp_mono; [apply (wp_close _ _ hi h Hr) |]. intros [[] | e] [t1 w1] H; [| destruct H as (_ & _ & H); by rewrite Hc in H].
    destruct H as (cap' & _ & Hacc & _ & Hch & Hbk & _). wp_step. cbn [tbl wld] in *.
    pose proof (ready_accounted _ _ _ _ _ Hr Hacc) as Hr1. destruct Hacc as (dl & Hk & Hb). apply ipc_same_billed in Hb. simpl in *.
    eapply wp_mono; [apply (IH t1 w1 _ Hr1 Hnd) |].
    + rewrite Forall_forall in Hls |- *. intros h' Hh'. destruct (Hls h' Hh') as [c' Hc']. exists c'. rewrite <- Hc'.
      apply cap_of_agree, Hk; [apply handle_index_range |]. intros Heq%list_elem_of_singleton. apply Hnin. rewrite <- Heq.
      by apply list_elem_of_fmap_2.
    + intros _ s2 (Hr2 & Hb2 & Hch2 & Hi2). split; [by replace (hi + _) with (hi - (charged t1 - charged t) + Z.of_nat (length hs)) by lia |].
      split; [congruence |]. split; [lia |]. by etrans.
Qed.

(** What a call that returns does not touch. *)
Definition spares {A} (m : M Sys A) : Prop :=
  forall s, match m s with
            | Some (_, s') => messages_received s' = messages_received s
            | None => True
            end.

Lemma wp_spares {A} (m : M Sys A) Q s :
  spares m -> wp m Q s -> wp m (fun a s' => Q a s' /\ messages_received s' = messages_received s) s.
Proof. intros Hm. specialize (Hm s). unfold wp. destruct (m s) as [[a s'] |]; [done | done]. Qed.

Lemma spares_bind {A B} (m : M Sys A) (f : A -> M Sys B) : spares m -> (forall a, spares (f a)) -> spares (mbind f m).
Proof.
  intros Hm Hf s. specialize (Hm s). unfold mbind, M_bind. destruct (m s) as [[a s1] |]; [| done].
  specialize (Hf a s1). destruct (f a s1) as [[b s2] |]; [congruence | done].
Qed.

Lemma spares_ret {A} (a : A) : spares (mret a).
Proof. done. Qed.

Section spares.
Context (E : Env).
Hypothesis Hquiet : quiet E.

Lemma spares_locked {A} (m : M TW A) : spares (locked E m).
Proof using Hquiet.
  intros s. unfold locked, yield, tick, on_table, zoom, mbind, M_bind. simpl. rewrite Hquiet. by destruct (m _) as [[a x] |].
Qed.

Lemma spares_channel_op {A} (m : M CW A) : spares (channel_op E m).
Proof using Hquiet.
  intros s. unfold channel_op, yield, tick, on_channels, zoom, mbind, M_bind. simpl. rewrite Hquiet. by destruct (m _) as [[a x] |].
Qed.

Lemma spares_receive a k cap imax : spares (receive_attempts E a k cap imax).
Proof using Hquiet.
  induction a as [| a IH]; cbn [receive_attempts]; [apply spares_ret |].
  apply spares_bind; [apply spares_channel_op |]. intros [[[id bytes] caps] | e]; [| apply spares_ret].
  destruct (_ <? _); [apply spares_ret |]. apply spares_bind; [apply spares_locked |]. intros []; [| apply spares_ret].
  apply spares_bind; [apply spares_channel_op |]. intros [m | e]; [apply spares_ret |].
  apply spares_bind; [apply spares_locked |]. intros _. destruct e; (apply spares_ret || exact IH).
Qed.

End spares.

(** ** The endpoint of a receive that runs alone *)

(** The head [m] of the endpoint [k] is gone, and nothing else of it changed:
    before and after, its account is exact. *)
Definition taken_off (k : Koid) (s s' : Sys) (m : Message) : Prop :=
  exists c c' rest base held, s_chans s !! k = Some c /\ items (inbox c) = m :: rest /\
    s_chans s' = <[k := c']> (s_chans s) /\ items (inbox c') = rest /\ depth c' = depth c - 1 /\
    chan_inv base (domains (s_world s)) held c /\ chan_inv base (domains (s_world s')) held c'.

(** The message waits where it was, and the table books and charges as it did. *)
Definition unreceived (hi : Z) (n : nat) (s s' : Sys) : Prop :=
  rebooked ipc_same hi n s s' [] /\ s_chans s' = s_chans s /\ messages_received s' = messages_received s.

(** Where the caller is told of its new handles: one number at [q], if the caller gave a
    place for it, or the numbers from [q + 8] on and their count at [q]. *)
Definition told_one (q : Z) (hs : list Handle) : list (Z * list Z) :=
  if q =? 0 then [] else [(q, le_encode 8 (default 0 (head hs)))].
Definition told_all (q : Z) (hs : list Handle) : list (Z * list Z) :=
  numbered (q + 8) hs ++ [(q, le_encode 8 (Z.of_nat (length hs)))].

(** The first [imax] capabilities of [m] are the caller's under [hs], whose numbers are the
    last thing stored in its memory; before them the [r] bytes of [m] went to [ptr]. *)
Definition handed_over (ptr cap : Z) (imax : nat) (told : list Handle -> list (Z * list Z)) (s s' : Sys) (m : Message) (r : Z) : Prop :=
  r = Z.min (Z.of_nat (length (msg_bytes m))) cap /\
  messages_received s' = wrap64 (messages_received s + 1) /\
  exists hs before, Forall2 (fun h c => cap_of (s_tbl s') h = Ok c) hs (firstn imax (msg_caps m)) /\
    charged (s_tbl s') = charged (s_tbl s) + Z.of_nat (length hs) /\
    written s' = before ++ told hs /\ (r = 0 \/ ptr = 0 \/ (ptr, firstn (Z.to_nat r) (msg_bytes m)) ∈ before).

Definition recv_outcome (hi : Z) (ch : Handle) (ptr cap : Z) (imax : nat) (told : list Handle -> list (Z * list Z)) (s : Sys) (r : Z) (s' : Sys) : Prop :=
  (r < 0 /\ unreceived hi (ATTEMPTS * imax) s s') \/
  exists hcap m, cap_of (s_tbl s) ch = Ok hcap /\ taken_off (ref_koid (cap_object hcap)) s s' m /\
    items (booked (s_tbl s')) = items (booked (s_tbl s)) /\
    ((r < 0 /\ charged (s_tbl s') = charged (s_tbl s)) \/ (0 <= r /\ handed_over ptr cap imax told s s' m r)).

Section deliver.
Context (E : Env) (hi : Z) (s0 : Sys).
Hypothesis Hquiet : quiet E.
Hypothesis Hok : sys_ok E hi s0.

Section endpoint.
Context (k : Koid) (c : Channel) (base : gmap Koid Domain) (held : list Message).
Hypothesis Hk : s_chans s0 !! k = Some c.
Hypothesis Hinv : chan_inv base (domains (s_world s0)) held c.

Definition seen (id : Z) (bytes caps : nat) : Prop :=
  exists m rest, items (inbox c) = m :: rest /\ msg_id m = id /\ length (msg_caps m) = caps.
Definition in_hand (m : Message) (cs : gmap Koid Channel) : Prop :=
  exists m0 rest, items (inbox c) = m0 :: rest /\ m = set_in_flight_slot true m0 /\
    cs = <[k := head_taken c rest]> (s_chans s0).

Lemma quiet_endpoint : Endpoint ipc_same hi E k (fun cs => cs = s_chans s0) seen in_hand.
Proof using Hquiet Hk Hinv.
  split.
  - intros t s. by rewrite Hquiet.
  - intros cs w ->. unfold peek_identified. wp_step. eapply wp_get_chan; [exact Hk |].
    destruct (items (inbox c)) as [| m rest] eqn:E0; [by wp_steps |]. wp_step. split; [done |]. exists m, rest. done.
  - intros cs w id bytes caps cap n -> (m & rest & Hi & <- & <-). unfold recv_identified. wp_step. eapply wp_get_chan; [exact Hk |].
    unfold pop_front. rewrite Hi, Z.eqb_refl. cbn [negb]. destruct Hinv as [Hf Hl Hd _ _ _].
    destruct (Z.ltb_spec cap (Z.of_nat (length (msg_bytes m)))); [by wp_step |].
    destruct (Nat.ltb_spec n (length (msg_caps m))); [by wp_step |].
    rewrite wrap64_small by (unfold u64_range, CHANNEL_QUEUE_MAX in *; lia). unfold put_chan. wp_steps. simpl.
    split; [done |]. split; [| done]. exists m, rest. done.
Qed.

(** Putting the message back: nothing happened. *)
Lemma wp_put_back m l n s error :
  error < 0 -> rebooked ipc_same hi n s0 s l -> in_hand m (s_chans s) -> messages_received s = messages_received s0 ->
  wp (locked E (release_reservation (length l)) ;; channel_op E (return_to_head k m) ;; mret error)
    (fun r s' => r < 0 /\ unreceived hi n s0 s') s.
Proof using Hquiet Hok Hk Hinv.
  intros He Hb (m0 & rest & Hi & -> & Hcs) Hmr. wp_step. apply wp_locked; [done |].
  eapply wp_mono; [eapply (wp_release_reservation _ _ _ (rb_ready Hb)) |].
  { unfold vec_len. rewrite (rb_booked Hb), length_app. lia. }
  intros _ [t1 w1] (Hacc & Hch & Hbk). cbn [tbl wld] in *. set (s1 := set_tw _ _).
  assert (rebooked ipc_same hi n s0 s1 []) as Hb1 by (by eapply (rebooked_released ipc_same (fun _ _ H => H))).
  wp_step. apply wp_channel_op; [done |].
  pose proof Hinv as [Hf Hl Hd _ Hq _]. rewrite Hi in Hq. inversion Hq as [| ? ? Hm _]; subst.
  eapply run_wp.
  - apply (run_return_head k m0 rest c); simpl; [by rewrite Hcs, lookup_insert_eq | done | done | |].
    + unfold CHANNEL_QUEUE_MAX in *. lia.
    + by apply (ok_rings _ _ _ Hok k).
  - wp_step. split; [done |]. split; [| split; [| done]].
    + eapply (rebooked_same ipc_same); [exact Hb1 | done | done].
    + simpl. by rewrite Hcs, insert_insert_eq, insert_id.
Qed.

(** Committing: the head is off the queue for good. *)
Lemma wp_commit m l n s :
  rebooked ipc_same hi n s0 s l -> in_hand m (s_chans s) ->
  wp (channel_op E (commit_delivery k m)) (fun m' s' => exists m0, taken_off k s0 s' m0 /\
    msg_bytes m' = msg_bytes m0 /\ msg_caps m' = msg_caps m0 /\ msg_bytes m = msg_bytes m0 /\ msg_caps m = msg_caps m0 /\
    s_tbl s' = s_tbl s /\ written s' = written s /\ messages_received s' = messages_received s /\
    ready (hi - Z.of_nat (length l)) (mkTW (s_tbl s') (s_world s'))) s.
Proof using Hquiet Hok Hk Hinv.
  intros Hb (m0 & rest & Hi & -> & Hcs). apply wp_channel_op; [done |].
  pose proof (chan_inv_head_taken base _ _ _ _ _ Hinv Hi) as Hinv1. apply (chan_inv_ipc_same _ _ _ _ _ (rb_domains Hb)) in Hinv1.
  eapply wp_mono; [eapply (wp_commit_delivery base k [] _ held (head_taken c rest)); simpl; [by rewrite Hcs, lookup_insert_eq | exact Hinv1] |].
  intros m' s' (c' & w' & -> & Hinv' & -> & Hi' & Hdep & _ & (C & delta & Hsh) & _). exists m0. simpl in *. split.
  - exists c, c', rest, base, held. rewrite Hcs, insert_insert_eq. do 4 (split; [done |]).
    split; [| done]. rewrite Hdep. rewrite (depth_small _ _ _ _ Hinv), (depth_small _ _ _ _ Hinv1).
    unfold vec_len. simpl. rewrite Hi. simpl. lia.
  - do 7 (split; [done |]). destruct (rb_ready Hb) as [Hti Ha]. split; [done |]. unfold affords in *. simpl in *.
    destruct (table_domain (s_tbl s)); [| done]. eapply (pays_other Handles IpcQueue); [done | exact Ha | exact Hsh].
Qed.

Lemma taken_off_later s s' m :
  taken_off k s0 s m -> s_chans s' = s_chans s -> ipc_same (domains (s_world s)) (domains (s_world s')) -> taken_off k s0 s' m.
Proof using.
  intros (c1 & c2 & rest & b & hd & H1 & H2 & H3 & H4 & H5 & H6 & H7) Hcs Hi. exists c1, c2, rest, b, hd.
  rewrite Hcs. do 6 (split; [done |]). by eapply chan_inv_ipc_same.
Qed.

End endpoint.

(** Installing [caps] into the slots that were booked for them. *)
Lemma wp_install caps l n s1 s :
  rebooked ipc_same hi n s0 s1 l -> s_tbl s = s_tbl s1 -> ready (hi - Z.of_nat (length l)) (mkTW (s_tbl s) (s_world s)) ->
  length l = length caps ->
  wp (locked E (install_reserved caps)) (fun hs s' =>
    Forall2 (fun h cp => cap_of (s_tbl s') h = Ok cp) hs caps /\ NoDup (handle_index <$> hs) /\
    items (booked (s_tbl s')) = items (booked (s_tbl s0)) /\ charged (s_tbl s') = charged (s_tbl s0) + Z.of_nat (length hs) /\
    ready (hi - Z.of_nat (length l)) (mkTW (s_tbl s') (s_world s')) /\ ipc_same (domains (s_world s)) (domains (s_world s')) /\
    s_chans s' = s_chans s /\ written s' = written s /\ messages_received s' = messages_received s) s.
Proof using Hquiet Hok.
  intros Hb Ht Hr Hlen. apply wp_locked; [done |]. rewrite install_insert.
  assert (items (booked (s_tbl s)) = items (booked (s_tbl s0)) ++ l) as Hbk by (rewrite Ht; apply Hb).
  eapply wp_mono; [apply (wp_insert_all_reserved caps _ _ _ (items (booked (s_tbl s0))) l Hr); [rewrite Ht, (rb_closed Hb); apply Hok | done | done] |].
  intros hs [t' w'] (Hall & Hb' & Hidx & _ & Hacc & Hch). simpl in *.
  assert (length hs = length l) as Hhs by (rewrite <- (length_fmap handle_index), Hidx; apply length_reverse).
  split; [done |]. split.
  { rewrite Hidx. rewrite reverse_Permutation. destruct (inv_pool _ (ready_inv _ _ Hr)) as [Hnd _]. simpl in Hnd. rewrite Hbk in Hnd.
    by apply NoDup_app in Hnd as (_ & _ & (_ & _ & Hnd)%NoDup_app). }
  split; [done |]. split; [rewrite Hch, Ht, (rb_charged Hb); lia |].
  split; [pose proof (ready_accounted _ _ _ _ _ Hr Hacc) as Hr'; simpl in Hr'; rewrite Hch in Hr';
          by rewrite Z.sub_diag, Z.sub_0_r in Hr' |].
  split; [| done]. destruct Hacc as (dl & _ & Hbill). by apply ipc_same_billed in Hbill.
Qed.

(** Closing what the caller was not told of. *)
Lemma wp_unannounced hs caps (l : list Z) s :
  Forall2 (fun h cp => cap_of (s_tbl s) h = Ok cp) hs caps -> NoDup (handle_index <$> hs) ->
  ready (hi - Z.of_nat (length l)) (mkTW (s_tbl s) (s_world s)) ->
  wp (locked E (close_each hs)) (fun _ s' => items (booked (s_tbl s')) = items (booked (s_tbl s)) /\
    charged (s_tbl s') = charged (s_tbl s) - Z.of_nat (length hs) /\ s_chans s' = s_chans s /\
    ipc_same (domains (s_world s)) (domains (s_world s'))) s.
Proof using Hquiet.
  intros Hall Hnd Hr. apply wp_locked; [done |]. eapply wp_mono; [apply (wp_close_each hs _ _ _ Hr Hnd) |].
  - clear -Hall. induction Hall; constructor; eauto.
  - intros _ [t' w'] (_ & Hb & Hch & Hi). simpl in *. by rewrite Hb.
Qed.

(** ** The handlers *)

#[local] Ltac calmly x H :=
  apply wp_harmless; [by auto with harmless |];
  let s := fresh "now" in let H' := fresh "Hnow" in
  intros x s H'; eapply transitivity in H'; [| exact H]; clear H; rename H' into H.

Lemma unreceived_calm n s : calm s0 s -> unreceived hi n s0 s.
Proof using Hok. intros []. split; [| done]. by apply (rebooked_here ipc_same); [apply Hok | ..]. Qed.

#[local] Ltac refuse := wp_step; left; split; [done | by apply unreceived_calm].

Lemma rebooked_calm n s s' l : calm s0 s -> rebooked ipc_same hi n s s' l -> rebooked ipc_same hi n s0 s' l.
Proof using Hok.
  intros [Ht _ Hd _ _ _ _ _ _] Hb. eapply (rebooked_trans ipc_same hi 0 n); [| exact Hb | lia]. apply (rebooked_here ipc_same); [apply Hok | done | done].
Qed.

(** The receive of both handlers, up to the message in hand. *)
Lemma wp_receive_alone k c base held cap imax s :
  s_chans s0 !! k = Some c -> chan_inv base (domains (s_world s0)) held c ->
  Z.of_nat (vec_len (slots (s_tbl s0))) + Z.of_nat (ATTEMPTS * imax) <= TWO32 -> Z.of_nat imax <= hi -> calm s0 s ->
  wp (receive_transactionally E k cap imax) (fun r s' => messages_received s' = messages_received s0 /\
    exists l, rebooked ipc_same hi (ATTEMPTS * imax) s0 s' l /\
    match r with
    | Ok m => in_hand k c m (s_chans s') /\ Z.of_nat (length (msg_bytes m)) <= cap /\
        (length (msg_caps m) <= MAX_MESSAGE_CAPS)%nat /\ length l = Nat.min (length (msg_caps m)) imax
    | Err e => e < 0 /\ l = [] /\ s_chans s' = s_chans s0
    end) s.
Proof using Hquiet Hok.
  intros Hk Hinv Hslots Himax Hc. unfold receive_transactionally.
  eapply wp_mono; [apply wp_spares; [by apply spares_receive | eapply (wp_receive_attempts ipc_same hi E k _ _ _ (fun _ _ H => H) (quiet_endpoint k c base held Hk Hinv))] |].
  - apply Hc.
  - eapply ready_same; [apply Hok | apply Hc..].
  - by rewrite (calm_tbl _ _ Hc).
  - done.
  - intros r s' [(l & Hb & H) Hmr]. split; [by rewrite Hmr; apply Hc |]. exists l. split; [by eapply rebooked_calm | done].
Qed.

Lemma wp_sys_channel_recv_caps ch ptr cap q :
  Z.of_nat (vec_len (slots (s_tbl s0))) + Z.of_nat (ATTEMPTS * MAX_MESSAGE_CAPS) <= TWO32 -> Z.of_nat MAX_MESSAGE_CAPS <= hi ->
  wp (sys_channel_recv_caps E ch ptr cap q) (recv_outcome hi ch ptr cap MAX_MESSAGE_CAPS (told_all q) s0) s0.
Proof using Hquiet Hok.
  intros Hslots Hhi. unfold sys_channel_recv_caps, current_thread, current_object. assert (calm s0 s0) as H1 by reflexivity.
  destruct (caller E) as [d |] eqn:Hd; [| refuse]. calmly ok H1. calmly ok' H1. destruct ok'; cbn [negb]; [| refuse].
  wp_step. eapply wp_mono; [by eapply wp_query |]. intros [k | e] s1 [H2 Hq]; cbn [or_return]; [| refuse].
  destruct Hq as (hcap & c & Hch & Hkk & Hk). destruct (ok_endpoints _ _ _ Hok k c Hk) as (base & held & Hinv).
  wp_step. eapply wp_mono; [by eapply (wp_receive_alone k c base held cap MAX_MESSAGE_CAPS) |]. intros [m | e] s2 (Hmr & l & Hb & H); cbn [or_return].
  2: { wp_step. destruct H as (He & -> & Hcs). left. done. }
  destruct H as (Hhand & Hfit & Hcaps & Hl). wp_step. eapply wp_mono; [apply wp_copy_to_exact |].
  intros out s3 [H3 Hout]. pose proof (rebooked_same ipc_same _ _ _ _ _ _ Hb (calm_tbl _ _ H3) (calm_domains _ _ H3)) as Hb3.
  rewrite <- (calm_chans _ _ H3) in Hhand. rewrite <- (calm_received _ _ H3) in Hmr. destruct out as [[] | error].
  2: { rewrite <- Hl. eapply wp_mono; [eapply (wp_put_back k c base held); done |]. intros r s' H. by left. }
  wp_step. eapply wp_mono; [by eapply (wp_commit k c base held) |].
  intros m' s4 (m0 & Hoff & Hb0 & Hc0 & Hb0' & Hc0' & Ht4 & Hw4 & Hmr4 & Hr4). rewrite Hc0, Hb0. rewrite Hb0', Hc0' in *.
  wp_step. rewrite (firstn_all2 (msg_caps m0)) by done.
  eapply wp_mono; [eapply (wp_install (msg_caps m0) l _ _ _ Hb3 Ht4 Hr4); lia |].
  intros hs s5 (Hall & Hnd & Hbk5 & Hch5 & Hr5 & Hi5 & Hcs5 & Hw5 & Hmr5).
  pose proof (taken_off_later _ _ _ _ Hoff Hcs5 Hi5) as Hoff5.
  (* the numbers go out *)
  pose proof (announces_bind _ _ _ _ (announces_write_handles E (q + 8) hs) (announces_write_user E q (Z.of_nat (length hs))) s5) as Hout7.
  rewrite wp_bind_assoc. wp_step. eapply wp_mono; [exact Hout7 |]. clear Hout7.
  intros out7 s7 (H7 & Herr). rewrite <- (calm_tbl _ _ H7) in Hall, Hbk5, Hch5.
  pose proof (ready_same _ _ _ Hr5 (calm_tbl _ _ H7) (calm_domains _ _ H7)) as Hr7.
  pose proof (taken_off_later _ _ _ _ Hoff5 (calm_chans _ _ H7) (ipc_same_eq _ _ (calm_domains _ _ H7))) as Hoff7.
  destruct out7 as [[] | e7].
  - unfold record_recv. wp_steps. right. exists hcap, m0. rewrite Hkk. split; [done |]. split; [done |]. split; [done |].
    right. split; [lia |]. split; [lia |]. split; [simpl; by rewrite (calm_received _ _ H7), Hmr5, Hmr4, Hmr |].
    exists hs, (written s5). simpl. rewrite (firstn_all2 (msg_caps m0)) by done. do 3 (split; [done |]). rewrite Hw5, Hw4.
    destruct Hout as [-> | Hin]; [by left |]. right. right. by rewrite Nat2Z.id, firstn_all.
  - wp_step. eapply wp_mono; [by eapply wp_unannounced |]. intros _ s8 (Hb8 & Hch8 & Hcs8 & Hi8). wp_step.
    right. exists hcap, m0. rewrite Hkk. split; [done |]. split; [by eapply taken_off_later |]. split; [congruence |].
    left. split; [done | lia].
Qed.

(** The tail of the plain receive: at most one capability goes in. *)
Definition install_first (caps : list Capability) : M Sys Handle :=
  match caps with
  | cap :: rest => h ← locked E (insert_reserved cap); on_kernel (drop_caps rest) ;; mret h
  | [] => mret 0
  end.

Lemma wp_install_first caps l n s1 s :
  rebooked ipc_same hi n s0 s1 l -> s_tbl s = s_tbl s1 -> ready (hi - Z.of_nat (length l)) (mkTW (s_tbl s) (s_world s)) ->
  length l = Nat.min (length caps) 1 ->
  wp (install_first caps) (fun h s' => exists hs,
    Forall2 (fun h cp => cap_of (s_tbl s') h = Ok cp) hs (firstn 1 caps) /\ NoDup (handle_index <$> hs) /\
    hs = (if h =? 0 then [] else [h]) /\
    items (booked (s_tbl s')) = items (booked (s_tbl s0)) /\ charged (s_tbl s') = charged (s_tbl s0) + Z.of_nat (length hs) /\
    ready (hi - Z.of_nat (length l)) (mkTW (s_tbl s') (s_world s')) /\ ipc_same (domains (s_world s)) (domains (s_world s')) /\
    s_chans s' = s_chans s /\ written s' = written s /\ messages_received s' = messages_received s) s.
Proof using Hquiet Hok.
  intros Hb Ht Hr Hlen. destruct caps as [| cp rest]; cbn [install_first].
  - wp_step. exists []. destruct l; [| done]. pose proof Hb as [_ Hch Hbk _ _ _ _ _]. rewrite app_nil_r in Hbk. simpl in *.
    rewrite Ht, Hch, Hbk. split; [constructor |]. split; [constructor |]. split; [done |]. split; [done |]. split; [done |].
    rewrite <- Ht. split; [done |]. by split.
  - wp_step. apply wp_locked; [done |]. destruct l as [| i [| ? ?]]; simpl in Hlen; [lia | | lia].
    assert (items (booked (s_tbl s)) = items (booked (s_tbl s0)) ++ [i]) as Hbk by (rewrite Ht; apply Hb).
    eapply wp_mono; [apply (wp_insert_reserved _ _ _ Hr cp _ _ Hbk) |]. intros h [t' w'] [Hb' H].
    rewrite Ht, (rb_closed Hb), (ok_open _ _ _ Hok) in H. destruct H as (Hm & Hacc & Hidx & Hch). rewrite <- Ht in *.
    wp_step. eapply wp_mono; [apply wp_drop_refs |]. intros _ s3 ->. wp_step. simpl in *. exists [h].
    split; [constructor; [by eapply minted_cap | constructor] |]. split; [apply NoDup_singleton |].
    split.
    { destruct (Z.eqb_spec h 0) as [-> |]; [| done]. destruct Hm as (_ & _ & Hg & _). by vm_compute in Hg. }
    split; [done |]. split; [rewrite Hch, Ht, (rb_charged Hb); simpl; lia |].
    pose proof (ready_accounted _ _ _ _ _ Hr Hacc) as Hr'. simpl in Hr'. rewrite Hch, Z.sub_diag, Z.sub_0_r in Hr'.
    split; [destruct Hr' as [Hti Ha]; by split |].
    destruct Hacc as (dl & _ & Hbill). apply ipc_same_billed in Hbill. by split.
Qed.

Lemma wp_close_announced h hs caps (l : list Z) s :
  hs = (if h =? 0 then [] else [h]) ->
  Forall2 (fun h cp => cap_of (s_tbl s) h = Ok cp) hs caps -> NoDup (handle_index <$> hs) ->
  ready (hi - Z.of_nat (length l)) (mkTW (s_tbl s) (s_world s)) ->
  wp (if h =? 0 then mret tt else locked E (close h ;; mret tt))
    (fun _ s' => items (booked (s_tbl s')) = items (booked (s_tbl s)) /\
    charged (s_tbl s') = charged (s_tbl s) - Z.of_nat (length hs) /\ s_chans s' = s_chans s /\
    ipc_same (domains (s_world s)) (domains (s_world s'))) s.
Proof using Hquiet.
  intros -> Hall Hnd Hr. destruct (h =? 0).
  - wp_step. simpl. split; [done |]. split; [lia | done].
  - pose proof (wp_unannounced [h] caps l s Hall Hnd Hr) as Hwp. revert Hwp.
    unfold locked, close_each. cbn [for_each]. unfold on_table, zoom, wp, mbind, M_bind, mret, M_ret.
    destruct (yield E s) as [[[] s1] |]; [| done]. by destruct (close h _) as [[r y] |].
Qed.

Lemma wp_sys_channel_recv ch ptr cap q :
  0 <= cap -> Z.of_nat (vec_len (slots (s_tbl s0))) + Z.of_nat ATTEMPTS <= TWO32 -> 1 <= hi ->
  wp (sys_channel_recv E ch ptr cap q) (recv_outcome hi ch ptr cap (if q =? 0 then 0%nat else 1%nat) (told_one q) s0) s0.
Proof using Hquiet Hok.
  intros Hcap Hslots Hhi. unfold sys_channel_recv, current_thread. assert (calm s0 s0) as H1 by reflexivity.
  destruct (caller E) as [d |] eqn:Hd; [| refuse]. calmly ok H1. calmly ok' H1. destruct ok'; cbn [negb]; [| refuse].
  wp_step. eapply wp_mono; [by eapply wp_query |]. intros [k | e] s1 [H2 Hq]; cbn [or_return]; [| refuse].
  destruct Hq as (hcap & c & Hch & Hkk & Hk). destruct (ok_endpoints _ _ _ Hok k c Hk) as (base & held & Hinv).
  set (imax := if q =? 0 then 0%nat else 1%nat). assert (imax <= 1)%nat as Himax by (unfold imax; destruct (q =? 0); lia).
  wp_step. eapply wp_mono; [eapply (wp_receive_alone k c base held U64_MAX imax); [done | done | unfold ATTEMPTS in *; lia | lia | done] |].
  intros [m | e] s2 (Hmr & l & Hb & H); cbn [or_return].
  2: { wp_step. destruct H as (He & -> & Hcs). left. done. }
  destruct H as (Hhand & _ & _ & Hl). set (n := Z.min _ cap). assert (0 <= n) as Hn by (unfold n; lia).
  wp_step. apply wp_mono with (Q := fun r s' => calm s2 s' /\
    match r with Ok _ => n = 0 \/ ptr = 0 \/ (ptr, firstn (Z.to_nat n) (msg_bytes m)) ∈ written s' | Err e => e < 0 end).
  { destruct (Z.ltb_spec 0 n); simpl; [| wp_step; split; [done | left; lia]]. destruct (Z.eqb_spec ptr 0); simpl; [wp_step; split; [done | auto] |].
    eapply wp_mono; [apply wp_copy_to_exact |]. intros [[] | e] s' [Hc Ho]; (split; [done |]); [| done].
    destruct Ho as [Hnil | Hin]; [| auto]. exfalso. apply (f_equal length) in Hnil. rewrite length_take in Hnil. simpl in Hnil. lia. }
  intros out s3 [H3 Hout]. pose proof (rebooked_same ipc_same _ _ _ _ _ _ Hb (calm_tbl _ _ H3) (calm_domains _ _ H3)) as Hb3.
  rewrite <- (calm_chans _ _ H3) in Hhand. rewrite <- (calm_received _ _ H3) in Hmr. destruct out as [[] | error].
  2: { rewrite <- Hl. eapply wp_mono; [eapply (wp_put_back k c base held); done |]. intros r s' H. by left. }
  wp_step. eapply wp_mono; [by eapply (wp_commit k c base held) |].
  intros m' s4 (m0 & Hoff & Hb0 & Hc0 & Hb0' & Hc0' & Ht4 & Hw4 & Hmr4 & Hr4). rewrite Hc0. rewrite Hb0', Hc0' in *.
  wp_step. unfold record_recv at 1. wp_step.
  match goal with |- wp _ _ ?s => set (s4' := s) end.
  assert (forall hs s', Forall2 (fun h cp => cap_of (s_tbl s') h = Ok cp) hs (firstn imax (msg_caps m0)) ->
    items (booked (s_tbl s')) = items (booked (s_tbl s0)) -> charged (s_tbl s') = charged (s_tbl s0) + Z.of_nat (length hs) ->
    s_chans s' = s_chans s4 -> ipc_same (domains (s_world s4)) (domains (s_world s')) ->
    written s' = written s4 ++ told_one q hs -> messages_received s' = messages_received s4' ->
    recv_outcome hi ch ptr cap imax (told_one q) s0 n s') as Hdone.
  { intros hs s' Hall Hbk Hchg Hcs Hi Hw Hmr'. right. exists hcap, m0. rewrite Hkk. split; [done |].
    split; [by eapply taken_off_later |]. split; [done |]. right. split; [done |].
    split; [unfold n; by rewrite Hb0' |]. rewrite Hmr'.
    split; [simpl; by rewrite Hmr4, Hmr |]. exists hs, (written s4). do 3 (split; [done |]). by rewrite Hw4. }
  destruct (Z.eqb_spec q 0).
  - destruct l; [| simpl in Hl; unfold imax in Hl; lia]. wp_step. eapply wp_mono; [apply wp_drop_refs |]. intros _ s5 ->. wp_step.
    destruct Hb3 as [_ Hch3 Hbk3 _ _ _ _ _]. rewrite app_nil_r in Hbk3. simpl in Hch3.
    apply (Hdone []); simpl; rewrite ?Ht4; try done; try lia. unfold told_one. subst q. by rewrite app_nil_r.
  - wp_step. fold (install_first (msg_caps m0)).
    eapply wp_mono; [eapply (wp_install_first (msg_caps m0) l _ s3 s4' Hb3 Ht4 Hr4 Hl) |].
    intros h s5 (hs & Hall & Hnd & Hhs & Hbk5 & Hch5 & Hr5 & Hi5 & Hcs5 & Hw5 & Hmr5).
    wp_step. eapply wp_mono; [apply announces_write_user |]. intros out6 s6 (H6 & Herr).
    rewrite <- (calm_tbl _ _ H6) in Hall, Hbk5, Hch5.
    pose proof (ipc_same_eq _ _ (calm_domains _ _ H6)) as Hi6.
    assert (ipc_same (domains (s_world s4)) (domains (s_world s6))) as Hi46 by (by etrans).
    destruct out6 as [[] | e6].
    + wp_step. apply (Hdone hs); try done; [by rewrite (calm_chans _ _ H6) | | by rewrite (calm_received _ _ H6)].
      unfold told_one. rewrite Herr, Hw5, Hhs, (proj2 (Z.eqb_neq q 0)) by done. by destruct (Z.eqb_spec h 0) as [-> |].
    + pose proof (ready_same _ _ _ Hr5 (calm_tbl _ _ H6) (calm_domains _ _ H6)) as Hr6.
      wp_step. eapply wp_mono; [by eapply (wp_close_announced h hs _ l) |]. intros _ s7 (Hb7 & Hch7 & Hcs7 & Hi7). wp_step.
      right. exists hcap, m0. rewrite Hkk. split; [done |].
      split; [eapply taken_off_later; [exact Hoff | by rewrite Hcs7, (calm_chans _ _ H6) | by etrans] |].
      split; [congruence |]. left. split; [done | lia].
Qed.

End deliver.
