(* ===== verification/SyscallProps.v ===== *)
(** What the channel system calls promise: a refused send costs nothing, a
    delivered one moves its capabilities, a receive takes exactly what it reserved
    for whatever other receivers do, and a failed delivery puts the message back. *)

From S2P Require Import Prelude Object Domain DomainFacts Handle HandleFacts HandleOps HandleReserve HandleProps.
From S2P Require Import Channel ChannelFacts ChannelProps Syscall SyscallFacts SyscallSend SyscallRecv SyscallDeliver.

(** ** Sending *)

(** The four ways to send. *)
Inductive SendCall :=
| Send (ch bytes_ptr bytes_len xfer : Z)
| SendAttenuated (ch bytes_ptr bytes_len transfer_ptr : Z)
| SendCaps (ch bytes_ptr bytes_len caps_ptr : Z)
| SendCapsAttenuated (ch bytes_ptr bytes_len caps_ptr : Z).

Definition send_channel (call : SendCall) : Handle :=
  match call with
  | Send ch _ _ _ | SendAttenuated ch _ _ _ | SendCaps ch _ _ _ | SendCapsAttenuated ch _ _ _ => ch
  end.

Definition run_send (E : Env) (call : SendCall) : M Sys Z :=
  match call with
  | Send ch p n x => sys_channel_send E ch p n x
  | SendAttenuated ch p n x => sys_channel_send_attenuated E ch p n x
  | SendCaps ch p n x => sys_channel_send_caps E ch p n x
  | SendCapsAttenuated ch p n x => sys_channel_send_caps_attenuated E ch p n x
  end.

Lemma wp_run_send E hi call s :
  quiet E -> sys_ok E hi s -> wp (run_send E call) (outcome E (send_channel call) s) s.
Proof.
  intros Hq Hok. destruct call; simpl;
    [by eapply wp_sys_channel_send | by eapply wp_sys_channel_send_attenuated | by eapply wp_sys_channel_send_caps |
     by eapply wp_sys_channel_send_caps_attenuated].
Qed.

(** A caller with a channel to send on (handle 2{^32}), a capability to give away
    (handle 2{^32} + 1), and the machine around it. *)
Definition gift : Capability := mkCap (mkRef 9 TyEvent) Rights.RIGHTS_ALL 1.
Definition sender_state : TW := after (OpInsert gift) sample_state.
Definition sender_sys : Sys :=
  mkSys 0 (tbl sender_state)
    {[7 := mkChannel vec_new 4 0 (Some 8); 8 := mkChannel vec_new 4 0 (Some 7)]} (wld sender_state) [] 0 0.
Definition still_env : Env :=
  mkEnv (Some 1) false (fun _ _ => None) (fun _ _ n => firstn n [65; 66; 67]) (fun _ _ n => n) (fun _ s => s).

Lemma sender_reachable : reachable 1 sample_world [OpInsert sample_cap; OpInsert gift] sender_state.
Proof. eapply (runs_snoc _ [OpInsert sample_cap]); [exact sample_reachable | done | vm_compute; reflexivity]. Qed.

Lemma sender_accounts : accounts_ok (domains (s_world sender_sys)).
Proof.
  destruct (reachable_settled _ _ _ _ sample_account sender_reachable) as [[_ _ _ Ha] [_ (Hwf & _)]]. split; [exact Hwf |].
  intros a u. change (domains (s_world sender_sys)) with (domains (wld sender_state)).
  rewrite (shifted_usage _ _ _ _ _ Ha). unfold usage. cbn [sample_world domains wld]. destruct (decide (a = 1)) as [-> | Hne].
  - rewrite lookup_singleton_eq. cbn. by intros [= <-].
  - by rewrite lookup_singleton_ne.
Qed.

Lemma tw_eta (x : TW) : mkTW (tbl x) (wld x) = x.
Proof. by destruct x. Qed.

Lemma sender_ok : sys_ok still_env TWO32 sender_sys.
Proof.
  split.
  - change (ready TWO32 (mkTW (tbl sender_state) (wld sender_state))). rewrite tw_eta.
    apply (reachable_settled _ _ _ _ sample_account sender_reachable).
  - vm_compute. reflexivity.
  - intros h cap Hc Hty. destruct (cap_of_ok _ _ _ Hc) as (sl & Hs & Hcap & _). revert Hs. unfold slot_at.
    assert (items (slots (s_tbl sender_sys)) = [mkSlot (Some sample_cap) 1 false; mkSlot (Some gift) 1 false]) as -> by (by vm_compute).
    destruct (Z.to_nat (handle_index h)) as [| [| i]]; cbn; intros [= <-]; cbn in Hcap; injection Hcap as <-;
      [by vm_compute; eexists | discriminate Hty].
  - intros k c Hk. cbn [sender_sys s_chans] in Hk. exists (domains (s_world sender_sys)), [].
    apply lookup_insert_Some in Hk as [[<- <-] | [_ [<- <-]%lookup_singleton_Some]];
      by apply (new_chan_inv _ _ _ sender_accounts).
  - intros k c Hk. cbn [sender_sys s_chans] in Hk.
    apply lookup_insert_Some in Hk as [[<- <-] | [_ [<- <-]%lookup_singleton_Some]]; by apply Nat.le_refl.
  - intros d [= <-]. split; [apply sender_accounts |]. split; [done |]. split; [by vm_compute; eexists |].
    intros a u Ha. assert (chain_of (domains (s_world sender_sys)) 1 = [1]) as Hch by (by vm_compute). rewrite Hch in Ha.
    apply list_elem_of_singleton in Ha as ->.
    assert (usage IpcQueue (domains (s_world sender_sys)) 1 = Some 0) as -> by (by vm_compute). intros [= <-]. by vm_compute.
Qed.

(** A send always returns, and one that does not deliver costs the caller
    nothing: whichever of the four calls it is and whatever it was given, on a
    negative result the handle table is the one it was, every handle still live
    under its value, every queue holds what it held, and no Domain is charged. *)
Theorem failed_send_costs_nothing E hi call s :
  quiet E -> sys_ok E hi s ->
  exists r s', run_send E call s = Some (r, s') /\ r <= 0 /\ (r < 0 -> undisturbed s s').
Proof.
  intros Hq Hok. destruct (wp_run _ _ _ (wp_run_send E hi call s Hq Hok)) as (r & s' & Hrun & H).
  exists r, s'. split; [done |]. destruct H as [[Hr Hu] | [-> _]]; [| split; [done | lia]]. split; [lia | done].
Qed.

(** The caller names a handle it does not have. *)
Lemma failed_send_costs_nothing_witness :
  exists s', run_send still_env (Send sample_handle 4096 3 77) sender_sys = Some (ERR_BAD_HANDLE, s') /\
    undisturbed sender_sys s'.
Proof.
  destruct (failed_send_costs_nothing still_env TWO32 (Send sample_handle 4096 3 77) sender_sys ltac:(done) sender_ok)
    as (r & s' & Hrun & _ & Hu).
  assert (fmap fst (run_send still_env (Send sample_handle 4096 3 77) sender_sys) = Some ERR_BAD_HANDLE) as Hr by (vm_compute; reflexivity).
  rewrite Hrun in Hr. injection Hr as ->. exists s'. split; [exact Hrun |]. apply Hu. vm_compute. reflexivity.
Defined.

(** A delivered send moves its capabilities: the message is at the tail of the
    peer's queue and within its limit, its bytes are charged to the sender's
    Domain and its ancestors, each capability it carries is one the caller held
    validly with the right to transfer it, with no right added, each handle that
    named one is dead, no handle was named twice, every other handle is
    untouched, and the caller's Domain has one handle back for each. *)
Theorem sent_capabilities_move E hi call s s' :
  quiet E -> sys_ok E hi s -> run_send E call s = Some (0, s') ->
  exists d k m taken, caller E = Some d /\ delivered d (send_channel call) s s' k m taken.
Proof.
  intros Hq Hok Hrun. pose proof (wp_run_send E hi call s Hq Hok) as Hwp. unfold wp in Hwp. rewrite Hrun in Hwp.
  by destruct Hwp as [[? _] | [_ H]].
Qed.

Definition after_send : Sys :=
  match run_send still_env (Send sample_handle 4096 3 (sample_handle + 1)) sender_sys with
  | Some (_, s) => s
  | None => sender_sys
  end.

Lemma sent_capabilities_move_witness :
  exists k m taken, delivered 1 sample_handle sender_sys after_send k m taken.
Proof.
  destruct (sent_capabilities_move still_env TWO32 (Send sample_handle 4096 3 (sample_handle + 1)) sender_sys after_send
              ltac:(done) sender_ok) as (d & k & m & taken & Hd & Hdel).
  - vm_compute. reflexivity.
  - injection Hd as <-. by exists k, m, taken.
Defined.

(** ** Receiving among other receivers *)

(** Every message of the endpoint [k] is the one its identity was given to. *)
Definition registered (registry : Z -> list Z * list Capability) (k : Koid) (cs : gmap Koid Channel) : Prop :=
  exists c, cs !! k = Some c /\
    forall m, m ∈ items (inbox c) -> (msg_bytes m, msg_caps m) = registry (msg_id m).

(** What the rest of the machine may do while a receive is under way: anything to
    the channels, as long as a message is never altered, and anything to the accounts, as
    long as the one the caller's table pays from goes on covering what the table charges
    and keeps the room it has below 2{^64}, up to [hi]. No other thread of the caller's
    process works on its table meanwhile. *)
Definition tolerant (hi : Z) (E : Env) (registry : Z -> list Z * list Capability) (k : Koid) : Prop :=
  forall t s, s_tbl (others E t s) = s_tbl s /\
    (forall h, 0 <= h <= hi -> ready h (mkTW (s_tbl s) (s_world s)) -> ready h (mkTW (s_tbl s) (s_world (others E t s)))) /\
    (registered registry k (s_chans s) -> registered registry k (s_chans (others E t s))).

(** Accounts that others charge too. *)
Definition anyhow (ds ds' : gmap Koid Domain) : Prop := True.

#[local] Instance anyhow_preorder : PreOrder anyhow.
Proof. by split. Qed.

Lemma registered_endpoint hi E registry k :
  tolerant hi E registry k ->
  Endpoint anyhow hi E k (registered registry k) (fun id _ caps => caps = length (snd (registry id)))
    (fun m _ => (msg_bytes m, msg_caps m) = registry (msg_id m)).
Proof.
  intros Ho. split; [intros t s; by destruct (Ho t s) as (? & ? & ?) | |].
  - intros cs w (c & Hk & Hm). unfold peek_identified. wp_step. eapply wp_get_chan; [exact Hk |].
    destruct (items (inbox c)) as [| m rest]; [by wp_steps |]. wp_step. split; [done |]. rewrite <- (Hm m) by set_solver. done.
  - intros cs w id bytes caps cap n (c & Hk & Hm) ->. unfold recv_identified. wp_step. eapply wp_get_chan; [exact Hk |].
    destruct (pop_front_spec (inbox c)) as [[E0 ->] | (m & l & E0 & ->)]; [by wp_steps |].
    destruct (Z.eqb_spec (msg_id m) id) as [<- |]; simpl; [| by wp_step].
    destruct (Z.ltb_spec cap (Z.of_nat (length (msg_bytes m)))); [by wp_step |].
    destruct (Nat.ltb_spec n (length (msg_caps m))); [by wp_step |]. unfold put_chan. wp_steps. simpl.
    assert ((msg_bytes m, msg_caps m) = registry (msg_id m)) as Hreg by (apply Hm; rewrite E0; set_solver).
    split; [done |]. split; [done |]. rewrite <- Hreg. done.
Qed.

(** C30: Whatever the rest of the machine does between the steps of a receive, to the
    endpoint (other receivers take from it and put back), to the other channels and to the
    Domain accounts, while no other thread works on the caller's own handle table: a
    transactional receive returns within its eight attempts, the message it takes fits the
    buffer the caller declared and carries no more capabilities than a message may, and the
    table has booked and charged exactly one slot for each capability the caller will
    install from that message; a receive that takes nothing leaves the bookings and what
    the table charges as they were. *)
Theorem receive_takes_what_it_reserved E registry k cap imax hi s :
  tolerant hi E registry k -> registered registry k (s_chans s) -> ready hi (mkTW (s_tbl s) (s_world s)) ->
  Z.of_nat (vec_len (slots (s_tbl s))) + Z.of_nat (ATTEMPTS * imax) <= TWO32 -> Z.of_nat imax <= hi ->
  exists r s' l, receive_transactionally E k cap imax s = Some (r, s') /\
    rebooked anyhow hi (ATTEMPTS * imax) s s' l /\
    match r with
    | Ok m => (msg_bytes m, msg_caps m) = registry (msg_id m) /\ Z.of_nat (length (msg_bytes m)) <= cap /\
        (length (msg_caps m) <= MAX_MESSAGE_CAPS)%nat /\ length l = Nat.min (length (msg_caps m)) imax
    | Err e => e < 0 /\ l = []
    end.
Proof.
  intros Ho Hreg Hr Hsl Hhi.
  destruct (wp_run _ _ _ (wp_receive_attempts anyhow hi E k _ _ _ (fun _ _ _ => I) (registered_endpoint _ _ _ _ Ho) ATTEMPTS cap imax s Hreg Hr Hsl Hhi))
    as (r & s' & Hrun & l & Hb & H).
  exists r, s', l. split; [exact Hrun |]. split; [done |]. destruct r; [done |]. by destruct H as (? & ? & _).
Qed.

(** Two messages wait; another receiver takes the first between the look and the
    take, so the first attempt finds its message gone, and pays for a handle from the
    Domain of the caller. *)
Definition contended : Sys :=
  mkSys 0 (tbl sender_state)
    {[7 := mkChannel (Vec [mkMessage 1 [65] [] None false; mkMessage 2 [66; 67] [gift] None false] 4) 4 0 None]}
    (wld sender_state) [] 0 0.
Definition rival_charge (c : ResourceCounter) : ResourceCounter := if used c <? 2 ^ 40 then Counter.charge 1 c else c.
Definition pop_head (s : Sys) : Sys :=
  set_cw (mkCW (alter (fun c => set_inbox (Vec (tail (items (inbox c))) (capacity (inbox c))) c) 7 (s_chans s))
    (set_domains (adjust Handles [1] rival_charge (domains (s_world s))) (s_world s))) s.
Definition rival_env : Env :=
  mkEnv (Some 1) false (fun _ _ => None) (fun _ _ n => []) (fun _ _ n => n) (fun t s => if (t =? 2)%nat then pop_head s else s).
Definition rival_registry (id : Z) : list Z * list Capability := if id =? 1 then ([65], []) else ([66; 67], [gift]).

Lemma rival_affords od lo h w :
  0 <= h <= TWO32 -> affords od lo h w -> affords od lo h (set_domains (adjust Handles [1] rival_charge (domains w)) w).
Proof.
  intros Hh. destruct od as [d |]; [| done]. simpl. intros (Hwf & Hd & Hs & Hb). pose proof (adjust_same_tree Handles [1] rival_charge (domains w)) as Ht.
  split; [by eapply domains_wf_same_tree |]. split; [done |]. split.
  - rewrite lookup_adjust. destruct (domains w !! d); [by eexists | by destruct Hs].
  - intros a u Ha. rewrite <- Ht in Ha. specialize (Hb a). unfold usage in *. rewrite lookup_adjust.
    destruct (domains w !! a) as [D |]; simpl in *; [| done]. specialize (Hb _ Ha eq_refl). intros [= <-].
    case_decide; [| done]. destruct D as [[m [used0 peak0 limit0] ? ? ? ? ?] ? ? ? ? ?]. simpl in *. unfold rival_charge. simpl.
    destruct (Z.ltb_spec used0 (2 ^ 40)); simpl; [| done]. unfold sat_add64. lia.
Qed.

Lemma rival_tolerant : tolerant TWO32 rival_env rival_registry 7.
Proof.
  intros t s. cbn [others rival_env]. destruct (t =? 2)%nat; [| done]. split; [done |]. split.
  { intros h Hh [Hi Ha]. split; [done |]. by apply rival_affords. }
  intros (c & Hc & Hm). unfold pop_head, registered. simpl. rewrite lookup_alter_eq, Hc. eexists. split; [done |]. simpl.
  intros m Hin. apply Hm. destruct (items (inbox c)); [done |]. set_solver.
Qed.

Lemma receive_takes_what_it_reserved_witness :
  exists s' l, receive_transactionally rival_env 7 16 4 contended =
      Some (Ok (mkMessage 2 [66; 67] [gift] None true), s') /\
    length l = 1%nat /\ items (booked (s_tbl s')) = items (booked (s_tbl contended)) ++ l.
Proof.
  destruct (receive_takes_what_it_reserved rival_env rival_registry 7 16 4 TWO32 contended) as (r & s' & l & Hrun & Hb & H).
  - exact rival_tolerant.
  - eexists. split; [vm_compute; reflexivity |]. intros m Hm. cbn [items inbox] in Hm.
    apply elem_of_cons in Hm as [-> | Hm]; [reflexivity |]. apply list_elem_of_singleton in Hm as ->. reflexivity.
  - change (ready TWO32 (mkTW (tbl sender_state) (wld sender_state))). rewrite tw_eta.
    apply (reachable_settled _ _ _ _ sample_account sender_reachable).
  - vm_compute. discriminate.
  - vm_compute. discriminate.
  - assert (fmap fst (receive_transactionally rival_env 7 16 4 contended) =
            Some (Ok (mkMessage 2 [66; 67] [gift] None true))) as Hr by (vm_compute; reflexivity).
    rewrite Hrun in Hr. injection Hr as ->. exists s', l. split; [exact Hrun |]. split; [apply H | exact (rb_booked Hb)].
Defined.

(** ** Receiving alone *)









(** ** Results a caller can read *)

Lemma wrap64_as_i64 h : u64_range h -> wrap64 (as_i64 h) = h.
Proof.
  unfold u64_range, as_i64, wrap64. intros. destruct (Z.ltb_spec h (2 ^ 63)); [by rewrite Z.mod_small by lia |].
  replace (h - TWO64) with (h + (-1) * TWO64) by lia. rewrite Z.mod_add by lia. by rewrite Z.mod_small by lia.
Qed.

(** A handle is taken for an error only at the end of the index space. *)
Lemma handle_not_err h :
  u64_range h -> handle_index h < TWO32 - 4096 -> sys_is_err h = false.
Proof.
  intros Hh Hi. unfold sys_is_err. unfold u64_range in Hh. destruct (Z.ltb_spec h (2 ^ 63)) as [Hs | Hs].
  { destruct (Z.ltb_spec h 0); [lia | apply andb_false_r]. }
  destruct (Z.leb_spec (-4095) (h - TWO64)); [| done]. exfalso.
  assert (wrap32 h = h - (TWO32 - 1) * TWO32) as Hw.
  { unfold wrap32, u64_range in *. symmetry. apply Z.mod_unique_pos with (q := TWO32 - 1); lia. }
  rewrite <- handle_index_wrap in Hw. lia.
Qed.

(** The 64-bit value [handle_duplicate] returns to user mode says what
    happened: a value outside the error band is a live handle to the same object
    with exactly the requested rights, and a value inside it means that no handle
    was added and none is charged. *)
Theorem duplicate_result_decodes E hi h bits s :
  quiet E -> caller E <> None -> ready hi (mkTW (s_tbl s) (s_world s)) -> 1 <= hi ->
  Z.of_nat (vec_len (slots (s_tbl s))) < TWO32 - 4096 ->
  exists r s', sys_handle_duplicate E h bits s = Some (r, s') /\
    if sys_is_err (wrap64 r) then charged (s_tbl s') = charged (s_tbl s)
    else charged (s_tbl s') = charged (s_tbl s) + 1 /\
      exists cap, cap_of (s_tbl s) h = Ok cap /\
        cap_of (s_tbl s') (wrap64 r) = Ok (mkCap (cap_object cap) (Rights.from_bits (wrap32 bits)) (cap_generation cap)).
Proof.
  intros Hq Hc Hr Hhi Hsl.
  enough (wp (sys_handle_duplicate E h bits) (fun r s' => if sys_is_err (wrap64 r) then charged (s_tbl s') = charged (s_tbl s)
    else charged (s_tbl s') = charged (s_tbl s) + 1 /\
      exists cap, cap_of (s_tbl s) h = Ok cap /\
        cap_of (s_tbl s') (wrap64 r) = Ok (mkCap (cap_object cap) (Rights.from_bits (wrap32 bits)) (cap_generation cap))) s) as Hwp
    by (by apply wp_run in Hwp).
  unfold sys_handle_duplicate, current_thread. destruct (caller E); [| done]. wp_step. apply wp_locked; [done |].
  eapply wp_mono; [eapply (wp_duplicate _ _ hi); done || lia |]. intros [h' | e] [t' w'] H; wp_step; simpl in *.
  - destruct H as (cap & Hlive & _ & _ & Hm & Hacc & Hch). pose proof Hm as (Hu & _ & _ & Hs'). rewrite wrap64_as_i64 by done.
    assert (handle_index h' < TWO32 - 4096) as Hidx.
    { destruct Hacc as (dl & Hk & _). pose proof (kept_len _ _ _ _ _ Hk). simpl in *. apply lookup_lt_Some in Hs'.
      unfold vec_len in *. pose proof (handle_index_range h'). lia. }
    rewrite handle_not_err by done. split; [done |]. exists cap. split; [by eapply live_cap_of_ok | by eapply minted_cap].
  - destruct H as [_ Hch]. by destruct e.
Qed.

Lemma duplicate_result_decodes_witness :
  exists r s', sys_handle_duplicate still_env sample_handle Rights.RIGHT_SEND sender_sys = Some (r, s') /\
    charged (s_tbl s') = 3.
Proof.
  destruct (duplicate_result_decodes still_env TWO32 sample_handle Rights.RIGHT_SEND sender_sys) as (r & s' & Hrun & H).
  - done.
  - discriminate.
  - exact (ok_ready _ _ _ sender_ok).
  - vm_compute. discriminate.
  - vm_compute. reflexivity.
  - exists r, s'. split; [exact Hrun |].
    assert (fmap fst (sys_handle_duplicate still_env sample_handle Rights.RIGHT_SEND sender_sys) = Some 4294967298) as Hr
      by (vm_compute; reflexivity).
    rewrite Hrun in Hr. injection Hr as ->. destruct H as [H _]. rewrite H. vm_compute. reflexivity.
Defined.

(** A process whose slot 0 has been reused 2{^31} times. *)
Definition worn_sys : Sys :=
  mkSys 0 (mkTable (Vec [mkSlot None (2 ^ 31) false; mkSlot (Some sample_cap) 1 false] 4) (Vec [0] 4) vec_new false (Some 1))
    ∅ (wld sample_state) [] 0 0.

(** One success is not read as one: duplicating into slot 0 at generation
    2{^31} makes the handle value 2{^63}, which is the code for a thread found
    killed. The copy is made and charged, and [syscall_dispatch] then retires the
    calling thread, although nothing killed its process. *)
Theorem duplicate_may_retire_caller :
  exists s', sys_handle_duplicate still_env (sample_handle + 1) Rights.RIGHT_SEND worn_sys = Some (RETIRE, s') /\
    cap_of (s_tbl s') (2 ^ 63) = Ok (mkCap (cap_object sample_cap) Rights.RIGHT_SEND 1) /\
    finish_dispatch RETIRE = None.
Proof. eexists. split; [vm_compute; reflexivity |]. split; vm_compute; reflexivity. Qed.
