(* ===== verification/Buddy.v ===== *)
(** The physical frame allocator (buddy/src/lib.rs): a binary buddy over one
    bitmap per order. A computation runs over the allocator; [None] is a panic: an
    index outside an array, a counter below zero, a failed debug assertion. *)

From S2P Require Import Prelude.

Definition PAGE_SIZE : Z := 4096.
Definition MAX_ORDER : nat := 18.

(** Where the orders are: [0..=MAX_ORDER]. *)
Definition orders : list nat := seq 0 (S MAX_ORDER).

Record Buddy := mkBuddy {
  base : Z;
  pages : Z;
  bits : list Z; (** 64-bit words, order after order *)
  offsets : list nat;
  words : list nat;
  hint : list Z;
  counts : list Z;
  free_pages : Z;
}.

Definition set_bits (l : list Z) (b : Buddy) : Buddy :=
  mkBuddy (base b) (pages b) l (offsets b) (words b) (hint b) (counts b) (free_pages b).
Definition set_hint (l : list Z) (b : Buddy) : Buddy :=
  mkBuddy (base b) (pages b) (bits b) (offsets b) (words b) l (counts b) (free_pages b).
Definition set_counts (l : list Z) (b : Buddy) : Buddy :=
  mkBuddy (base b) (pages b) (bits b) (offsets b) (words b) (hint b) l (free_pages b).
Definition set_free_pages (n : Z) (b : Buddy) : Buddy :=
  mkBuddy (base b) (pages b) (bits b) (offsets b) (words b) (hint b) (counts b) n.

(** [1u64 << order]. *)
Definition block_pages (order : nat) : Z := 2 ^ Z.of_nat order.

Definition blocks_of (pages : Z) (order : nat) : Z := Z.max (Z.shiftr pages (Z.of_nat order)) 1.
Definition blocks_at (order : nat) (b : Buddy) : Z := blocks_of (pages b) order.

(** [usize::div_ceil(64)]. *)
Definition div_ceil64 (n : Z) : nat := Z.to_nat ((n + 63) / 64).

(** The word counts and offsets of [Buddy::new], order after order. *)
Fixpoint layout (pages : Z) (os : list nat) (total : nat) : list (nat * nat) :=
  match os with
  | [] => []
  | o :: os =>
      let w := div_ceil64 (blocks_of pages o) in
      (total, w) :: layout pages os (total + w)
  end.
Definition layout_total (l : list (nat * nat)) : nat :=
  match last l with Some (off, w) => (off + w)%nat | None => 0%nat end.

(** [Buddy::new]. *)
Definition new (base pages : Z) : M heap (option Buddy) :=
  if (pages =? 0) || negb (base mod PAGE_SIZE =? 0) then mret None
  else
    match checked_mul U64_MAX pages PAGE_SIZE with
    | None => mret None
    | Some extent_bytes =>
        match checked_add U64_MAX base extent_bytes with
        | None => mret None
        | Some _ =>
            let l := layout pages orders 0 in
            let total := layout_total l in
            answer ← heap_ask;
            mret (match answer with
                  | None => None
                  | Some _ => Some (mkBuddy base pages (replicate total 0) (fst <$> l) (snd <$> l)
                                      (replicate (S MAX_ORDER) U64_MAX) (replicate (S MAX_ORDER) 0) 0)
                  end)
        end
    end.

Definition extent (b : Buddy) : Z * Z := (base b, pages b).
Definition metadata_bytes (b : Buddy) : Z := Z.of_nat (length (bits b)) * 8.

(** ** One bit *)

(** [self.bits[self.offsets[order] + w]], read and written. *)
Definition word_index (order w : nat) : M Buddy nat :=
  b ← gets id;
  off ← assert_some (offsets b !! order);
  mret (off + w)%nat.
Definition load (order w : nat) : M Buddy Z :=
  i ← word_index order w;
  b ← gets id;
  assert_some (bits b !! i).
Definition store (order w : nat) (v : Z) : M Buddy unit :=
  i ← word_index order w;
  b ← gets id;
  assert_some (bits b !! i) ;;
  modify (fun b => set_bits (<[i := v]> (bits b)) b).

Definition word_of (index : Z) : nat := Z.to_nat (index / 64).
Definition bit_of (index : Z) : Z := Z.shiftl 1 (index mod 64).

Definition get (order : nat) (index : Z) : M Buddy bool :=
  b ← gets id;
  if blocks_at order b <=? index then mret false
  else
    v ← load order (word_of index);
    mret (negb (Z.land v (bit_of index) =? 0)).

Definition debug_assert (p : bool) : M Buddy unit := if p then mret tt else abort.

Definition count_add (order : nat) (d : Z) : M Buddy unit :=
  b ← gets id;
  n ← assert_some (counts b !! order);
  debug_assert (0 <=? n + d) ;;
  modify (fun b => set_counts (<[order := n + d]> (counts b)) b).

Definition lower_hint (order : nat) (w : Z) : M Buddy unit :=
  b ← gets id;
  h ← assert_some (hint b !! order);
  if w <? h then modify (fun b => set_hint (<[order := w]> (hint b)) b) else mret tt.

Definition set (order : nat) (index : Z) : M Buddy unit :=
  b ← gets id;
  debug_assert (index <? blocks_at order b) ;;
  v ← load order (word_of index);
  (if Z.land v (bit_of index) =? 0 then
     store order (word_of index) (Z.lor v (bit_of index)) ;; count_add order 1
   else mret tt) ;;
  lower_hint order (index / 64).

Definition clear (order : nat) (index : Z) : M Buddy unit :=
  b ← gets id;
  debug_assert (index <? blocks_at order b) ;;
  v ← load order (word_of index);
  if Z.land v (bit_of index) =? 0 then mret tt
  else
    store order (word_of index) (Z.land v (Z.lnot (bit_of index))) ;; count_add order (-1).

(** ** Scans *)

(** [u64::MAX << n] and [u64::MAX >> n]. *)
Definition mask_from (n : Z) : Z := wrap64 (Z.shiftl U64_MAX n).
Definition mask_upto (n : Z) : Z := Z.shiftr U64_MAX n.

Fixpoint any_bit_words (order : nat) (start stop : Z) (first_word last_word : nat) (ws : list nat) : M Buddy bool :=
  match ws with
  | [] => mret false
  | word :: ws =>
      v ← load order word;
      let v := if (word =? first_word)%nat then Z.land v (mask_from (start mod 64)) else v in
      let v := if (word =? last_word)%nat && negb (stop mod 64 =? 0)
               then Z.land v (mask_upto (64 - stop mod 64)) else v in
      if negb (v =? 0) then mret true else any_bit_words order start stop first_word last_word ws
  end.

Definition any_bit_in_range (order : nat) (start count : Z) : M Buddy bool :=
  b ← gets id;
  let stop := Z.min (start + count) (blocks_at order b) in
  if stop <=? start then mret false
  else
    let first_word := word_of start in
    let last_word := word_of (stop - 1) in
    any_bit_words order start stop first_word last_word (seq first_word (S last_word - first_word)).

(** [(a..b).any(f)]: the first [true] ends it. *)
Fixpoint any_of {A} (f : A -> M Buddy bool) (l : list A) : M Buddy bool :=
  match l with
  | [] => mret false
  | x :: l => r ← f x; if (r : bool) then mret true else any_of f l
  end.

Definition block_touches_free (page : Z) (order : nat) : M Buddy bool :=
  up ← any_of (fun at_ => get at_ (Z.shiftr page (Z.of_nat at_))) (seq order (S MAX_ORDER - order));
  if (up : bool) then mret true
  else any_of (fun at_ => any_bit_in_range at_ (Z.shiftr page (Z.of_nat at_)) (block_pages (order - at_))) (seq 0 order).

(** [u64::trailing_zeros]: the index of the lowest set bit, 64 when there is none. *)
Fixpoint trailing_zeros_from (fuel : nat) (i v : Z) : Z :=
  match fuel with
  | O => i
  | S fuel => if Z.testbit v i then i else trailing_zeros_from fuel (i + 1) v
  end.
Definition trailing_zeros (v : Z) : Z := trailing_zeros_from 64 0 v.

(** The scan [first_free] and [peek_first_free] share: the first word from [start]
    on that is not zero. *)
Fixpoint scan_words (order : nat) (ws : list nat) : M Buddy (option (nat * Z)) :=
  match ws with
  | [] => mret None
  | word :: ws =>
      v ← load order word;
      if v =? 0 then scan_words order ws else mret (Some (word, v))
  end.

Definition scan (order : nat) : M Buddy (option (nat * Z)) :=
  b ← gets id;
  h ← assert_some (hint b !! order);
  w ← assert_some (words b !! order);
  let start := Z.to_nat (Z.min h (Z.of_nat w)) in
  scan_words order (seq start (w - start)).

Definition found_index (order : nat) (word : nat) (v : Z) : M Buddy (option Z) :=
  b ← gets id;
  let index := Z.of_nat word * 64 + trailing_zeros v in
  mret (if index <? blocks_at order b then Some index else None).

Definition raise_hint (order : nat) (w : Z) : M Buddy unit :=
  b ← gets id;
  assert_some (hint b !! order) ;;
  modify (fun b => set_hint (<[order := w]> (hint b)) b).

Definition first_free (order : nat) : M Buddy (option Z) :=
  b ← gets id;
  n ← assert_some (counts b !! order);
  if n =? 0 then mret None
  else
    r ← scan order;
    match r with
    | Some (word, v) => raise_hint order (Z.of_nat word) ;; found_index order word v
    | None =>
        w ← assert_some (words b !! order);
        raise_hint order (Z.of_nat w) ;; mret None
    end.

Definition peek_first_free (order : nat) : M Buddy (option Z) :=
  b ← gets id;
  n ← assert_some (counts b !! order);
  if n =? 0 then mret None
  else
    r ← scan order;
    match r with
    | Some (word, v) => found_index order word v
    | None => mret None
    end.

(** ** Taking a block *)

Fixpoint find_order (os : list nat) : M Buddy (option (nat * Z)) :=
  match os with
  | [] => mret None
  | larger :: os =>
      r ← first_free larger;
      match r with
      | Some index => mret (Some (larger, index))
      | None => find_order os
      end
  end.

(** [while at_order > order]: split down to [order]; [n] is [at_order - order]. *)
Fixpoint split_down (n order : nat) (index : Z) : M Buddy Z :=
  match n with
  | O => mret index
  | S n =>
      let index := index * 2 in
      set (order + n)%nat (index + 1) ;;
      split_down n order index
  end.

Definition take_pages (order : nat) : M Buddy unit :=
  b ← gets id;
  debug_assert (block_pages order <=? free_pages b) ;;
  modify (fun b => set_free_pages (free_pages b - block_pages order) b).

Definition block_address (order : nat) (index : Z) : M Buddy Z :=
  b ← gets id; mret (base b + index * block_pages order * PAGE_SIZE).

(** Take the free block [index] of [larger], split down to [order]. *)
Definition take_block (larger order : nat) (index : Z) : M Buddy Z :=
  clear larger index ;;
  index ← split_down (larger - order) order index;
  take_pages order ;;
  block_address order index.

Definition alloc (order : nat) : M Buddy (option Z) :=
  if (MAX_ORDER <? order)%nat then mret None
  else
    found ← find_order (seq order (S MAX_ORDER - order));
    match found with
    | None => mret None
    | Some (at_order, index) => phys ← take_block at_order order index; mret (Some phys)
    end.

(** ** Giving a block back *)

(** [while at < MAX_ORDER]: merge upward; [fuel] is [MAX_ORDER - at]. *)
Fixpoint merge_up (fuel at_ : nat) (index : Z) : M Buddy (nat * Z) :=
  match fuel with
  | O => mret (at_, index)
  | S fuel =>
      let buddy := Z.lxor index 1 in
      free ← get at_ buddy;
      b ← gets id;
      if negb free then mret (at_, index)
      else if pages b <? Z.shiftl (Z.land index (Z.lnot 1)) (Z.of_nat at_) + 2 * block_pages at_
      then mret (at_, index)
      else
        clear at_ buddy ;;
        merge_up fuel (S at_) (Z.shiftr index 1)
  end.

Definition free_inner (phys : Z) (order : nat) (refuse_double : bool) : M Buddy bool :=
  b ← gets id;
  if (MAX_ORDER <? order)%nat || (phys <? base b) then mret false
  else if negb ((phys - base b) mod PAGE_SIZE =? 0) then mret false
  else
    let page := (phys - base b) / PAGE_SIZE in
    if negb (page mod block_pages order =? 0) || (pages b <=? page) then mret false
    else if pages b <? page + block_pages order then mret false
    else
      touches ← if refuse_double then block_touches_free page order else mret false;
      if (touches : bool) then mret false
      else
        '(at_, index) ← merge_up (MAX_ORDER - order) order (Z.shiftr page (Z.of_nat order));
        set at_ index ;;
        modify (fun b => set_free_pages (free_pages b + block_pages order) b) ;;
        mret true.

Definition free (phys : Z) (order : nat) : M Buddy bool := free_inner phys order true.

Fixpoint free_block_or_split (order : nat) (phys : Z) : M Buddy Z :=
  ok ← free phys order;
  if (ok : bool) then mret (block_pages order)
  else
    match order with
    | O => mret 0
    | S half =>
        let second := phys + block_pages half * PAGE_SIZE in
        a ← free_block_or_split half phys;
        b ← free_block_or_split half second;
        mret (a + b)
    end.

(** [while left > 0]: each turn takes at least one page, so [left] turns are
    enough. *)
Fixpoint free_span_loop (fuel : nat) (at_ left taken_total : Z) : M Buddy Z :=
  match fuel with
  | O => mret taken_total
  | S fuel =>
      if left =? 0 then mret taken_total
      else
        b ← gets id;
        let page := (at_ - base b) / PAGE_SIZE in
        let by_alignment := if page =? 0 then MAX_ORDER else Nat.min (Z.to_nat (trailing_zeros page)) MAX_ORDER in
        let by_size := Nat.min (Z.to_nat (Z.log2 left)) MAX_ORDER in
        let order := Nat.min by_alignment by_size in
        n ← free_block_or_split order at_;
        free_span_loop fuel (at_ + block_pages order * PAGE_SIZE) (left - block_pages order) (taken_total + n)
  end.

Definition free_span (phys n : Z) : M Buddy Z :=
  b ← gets id;
  if (phys <? base b) || negb ((phys - base b) mod PAGE_SIZE =? 0) then mret 0
  else
    let first := (phys - base b) / PAGE_SIZE in
    if pages b <=? first then mret 0
    else
      let left := Z.min n (pages b - first) in
      free_span_loop (Z.to_nat left) phys left 0.

(** ** Contiguous runs *)

(** [order_for]: the loop counts up, at most to [MAX_ORDER + 1]. *)
Fixpoint order_for_loop (fuel order : nat) (n : Z) : nat :=
  match fuel with
  | O => order
  | S fuel =>
      if block_pages order <? n then
        if (MAX_ORDER <? S order)%nat then S order else order_for_loop fuel (S order) n
      else order
  end.
Definition order_for (n : Z) : nat := order_for_loop (S (S MAX_ORDER)) 0 n.

(** What rounding up to a whole block took goes straight back. *)
Definition hand_back (phys : Z) (order : nat) (n : Z) : M Buddy unit :=
  if n <? block_pages order then
    handed_back ← free_span (phys + n * PAGE_SIZE) (block_pages order - n);
    debug_assert (handed_back =? block_pages order - n)
  else mret tt.

Definition alloc_contiguous (n : Z) : M Buddy (option Z) :=
  if n =? 0 then mret None
  else
    let order := order_for n in
    if (MAX_ORDER <? order)%nat then mret None
    else
      r ← alloc order;
      match r with
      | None => mret None
      | Some phys => hand_back phys order n ;; mret (Some phys)
      end.

(** The smallest order whose lowest free block serves below the limit. *)
Fixpoint find_below (os : list nat) (bytes limit : Z) : M Buddy (option nat) :=
  match os with
  | [] => mret None
  | larger :: os =>
      r ← peek_first_free larger;
      match r with
      | None => find_below os bytes limit
      | Some index =>
          at_ ← block_address larger index;
          match checked_add U64_MAX at_ bytes with
          | Some stop => if stop <=? limit then mret (Some larger) else find_below os bytes limit
          | None => find_below os bytes limit
          end
      end
  end.

Definition alloc_contiguous_below (n limit : Z) : M Buddy (option Z) :=
  if n =? 0 then mret None
  else
    let order := order_for n in
    if (MAX_ORDER <? order)%nat then mret None
    else
      match checked_mul U64_MAX n PAGE_SIZE with
      | None => mret None
      | Some bytes =>
          fits ← find_below (seq order (S MAX_ORDER - order)) bytes limit;
          match fits with
          | None => mret None
          | Some larger =>
              r ← first_free larger;
              match r with
              | None => mret None
              | Some index =>
                  phys ← take_block larger order index;
                  hand_back phys order n ;; mret (Some phys)
              end
          end
      end.

(** ** Questions *)

Definition is_free_at (page : Z) : M Buddy bool :=
  any_of (fun order => get order (Z.shiftr page (Z.of_nat order))) orders.

Definition is_free_page (phys : Z) : M Buddy bool :=
  b ← gets id;
  if phys <? base b then mret false
  else
    let page := (phys - base b) / PAGE_SIZE in
    if pages b <=? page then mret false else is_free_at page.

Definition page_index (phys : Z) (b : Buddy) : option Z :=
  if phys <? base b then None
  else
    let offset := phys - base b in
    if negb (offset mod PAGE_SIZE =? 0) then None
    else
      let page := offset / PAGE_SIZE in
      if pages b <=? page then None else Some page.

Definition any_free (phys n : Z) : M Buddy bool :=
  b ← gets id;
  match page_index phys b with
  | None => mret false
  | Some first =>
      let last := Z.min (sat_add64 first (sat_sub64 n 1)) (sat_sub64 (pages b) 1) in
      if (n =? 0) || (pages b <=? first) then mret false
      else any_of is_free_at (seqZ first (last - first + 1))
  end.

(** ** The audit walk *)

(** [while value != 0]: the set bits of one word, lowest first; a word has 64. *)
Fixpoint word_bits (fuel : nat) (value : Z) : list Z :=
  match fuel with
  | O => []
  | S fuel =>
      if value =? 0 then []
      else trailing_zeros value :: word_bits fuel (Z.land value (value - 1))
  end.

Fixpoint visit_words (order : nat) (ws : list nat) : M Buddy (list (nat * Z)) :=
  match ws with
  | [] => mret []
  | word :: ws =>
      b ← gets id;
      value ← load order word;
      let indices := (fun bit => Z.of_nat word * 64 + bit) <$> word_bits 64 value in
      let here := base.filter (fun index => index <? blocks_at order b = true) indices in
      rest ← visit_words order ws;
      mret (((fun index => (order, base b + index * block_pages order * PAGE_SIZE)) <$> here) ++ rest)
  end.

(** What [for_each_free_block] calls its visitor with, in order. *)
Fixpoint visit_orders (os : list nat) : M Buddy (list (nat * Z)) :=
  match os with
  | [] => mret []
  | order :: os =>
      b ← gets id;
      w ← assert_some (words b !! order);
      here ← visit_words order (seq 0 w);
      rest ← visit_orders os;
      mret (here ++ rest)
  end.
Definition for_each_free_block : M Buddy (list (nat * Z)) := visit_orders orders.
