(* ===== verification/BuddyBits.v ===== *)
(** The bitmaps of the frame allocator: where the words of an order are, what one
    bit operation does to the bits, and that the word-wise scans answer what a
    bit-by-bit search would. *)

From S2P Require Import Prelude Buddy.

(** ** Where the words are *)

Lemma layout_lookup p os t k o :
  os !! k = Some o ->
  exists off, layout p os t !! k = Some (off, div_ceil64 (blocks_of p o)) /\ (t <= off)%nat.
Proof.
  revert t k. induction os as [| o' os IH]; intros t k Hk; [done |].
  destruct k as [| k]; simpl in *.
  - injection Hk as ->. eexists. split; [done | lia].
  - destruct (IH (t + div_ceil64 (blocks_of p o'))%nat k Hk) as (off & -> & Hle).
    eexists. split; [done | lia].
Qed.

Lemma layout_apart p os t k1 k2 off1 w1 off2 w2 :
  (k1 < k2)%nat -> layout p os t !! k1 = Some (off1, w1) -> layout p os t !! k2 = Some (off2, w2) ->
  (off1 + w1 <= off2)%nat.
Proof.
  revert t k1 k2. induction os as [| o' os IH]; intros t k1 k2 Hk H1 H2; [done |].
  destruct k2 as [| k2]; [lia |]. destruct k1 as [| k1]; simpl in *; [| by eapply IH; [| done..]; lia].
  injection H1 as <- <-.
  assert (k2 < length os)%nat as Hlt.
  { apply lookup_lt_Some in H2. clear -H2. revert H2. generalize (t + div_ceil64 (blocks_of p o'))%nat as n.
    revert k2. induction os as [| o os IH]; intros k2 n H; simpl in *; [lia |].
    destruct k2; [lia |]. apply Nat.succ_lt_mono in H. specialize (IH _ _ H). lia. }
  destruct (lookup_lt_is_Some_2 _ _ Hlt) as [o Ho].
  destruct (layout_lookup p os (t + div_ceil64 (blocks_of p o')) k2 o Ho) as (off & Hoff & Hle).
  rewrite Hoff in H2. injection H2 as <- _. exact Hle.
Qed.

Lemma length_layout p os t : length (layout p os t) = length os.
Proof. revert t. induction os as [| o os IH]; intros t; simpl; [done | by rewrite IH]. Qed.

Lemma orders_lookup o : (o <= MAX_ORDER)%nat -> orders !! o = Some o.
Proof. intros Ho. unfold orders. apply lookup_seq. lia. Qed.

Lemma elem_of_orders o : o ∈ orders <-> (o <= MAX_ORDER)%nat.
Proof. unfold orders. rewrite elem_of_seq. lia. Qed.

#[global] Opaque orders.

(** The words of an order, and where they start, in an extent of [p] pages. *)
Definition words_in (p : Z) (o : nat) : nat := div_ceil64 (blocks_of p o).
Definition offset_in (p : Z) (o : nat) : nat :=
  match layout p orders 0 !! o with Some (off, _) => off | None => 0%nat end.
Definition total_in (p : Z) : nat := layout_total (layout p orders 0).

Lemma layout_at p o :
  (o <= MAX_ORDER)%nat -> layout p orders 0 !! o = Some (offset_in p o, words_in p o).
Proof.
  intros Ho. destruct (layout_lookup p orders 0 o o (orders_lookup o Ho)) as (off & Hl & _).
  unfold offset_in. by rewrite Hl.
Qed.

Lemma offsets_apart p o1 o2 :
  (o1 < o2)%nat -> (o2 <= MAX_ORDER)%nat -> (offset_in p o1 + words_in p o1 <= offset_in p o2)%nat.
Proof.
  intros H12 H2. eapply (layout_apart p orders 0 o1 o2); [done | apply layout_at; lia | by apply layout_at].
Qed.

Lemma total_in_last p : total_in p = (offset_in p MAX_ORDER + words_in p MAX_ORDER)%nat.
Proof.
  unfold total_in, layout_total. rewrite last_lookup, length_layout.
  replace (Nat.pred (length orders)) with MAX_ORDER by done. by rewrite layout_at by lia.
Qed.

Lemma words_inside p o : (o <= MAX_ORDER)%nat -> (offset_in p o + words_in p o <= total_in p)%nat.
Proof.
  intros Ho. rewrite total_in_last. destruct (decide (o = MAX_ORDER)) as [-> | Hne]; [lia |].
  pose proof (offsets_apart p o MAX_ORDER). lia.
Qed.

(** Two words of two orders are two words of the bitmap. *)
Lemma word_place_inj p o1 w1 o2 w2 :
  (o1 <= MAX_ORDER)%nat -> (o2 <= MAX_ORDER)%nat -> (w1 < words_in p o1)%nat -> (w2 < words_in p o2)%nat ->
  (offset_in p o1 + w1 = offset_in p o2 + w2)%nat -> o1 = o2 /\ w1 = w2.
Proof.
  intros H1 H2 Hw1 Hw2 Heq. destruct (lt_eq_lt_dec o1 o2) as [[Hlt | ->] | Hgt].
  - pose proof (offsets_apart p o1 o2). lia.
  - lia.
  - pose proof (offsets_apart p o2 o1). lia.
Qed.

Lemma blocks_of_pos p o : 1 <= blocks_of p o.
Proof. unfold blocks_of. lia. Qed.

(** A block of an order has its bit in one of the words of that order. *)
Lemma word_of_inside p o i : 0 <= i < blocks_of p o -> (word_of i < words_in p o)%nat.
Proof.
  intros Hi. unfold word_of, words_in, div_ceil64.
  assert (i / 64 < (blocks_of p o + 63) / 64).
  { apply Z.div_lt_upper_bound; [lia |]. pose proof (Z.div_mod (blocks_of p o + 63) 64).
    pose proof (Z.mod_pos_bound (blocks_of p o + 63) 64). lia. }
  assert (0 <= i / 64) by (apply Z.div_pos; lia). lia.
Qed.

Lemma words_in_bound p o w : (w < words_in p o)%nat -> Z.of_nat w * 64 < blocks_of p o.
Proof.
  unfold words_in, div_ceil64. intros Hw. pose proof (blocks_of_pos p o).
  pose proof (Z.div_mod (blocks_of p o + 63) 64). pose proof (Z.mod_pos_bound (blocks_of p o + 63) 64). lia.
Qed.

(** ** The geometry every operation keeps *)

Record geometry (b : Buddy) : Prop := {
  geo_base : 0 <= base b /\ base b mod PAGE_SIZE = 0;
  geo_pages : 0 < pages b;
  geo_end : base b + pages b * PAGE_SIZE <= U64_MAX;
  geo_offsets : offsets b = fst <$> layout (pages b) orders 0;
  geo_words : words b = snd <$> layout (pages b) orders 0;
  geo_bits : length (bits b) = total_in (pages b);
  geo_width : Forall u64_range (bits b);
}.

(** The word [w] of order [o]. *)
Definition word (b : Buddy) (o w : nat) : Z := nth (offset_in (pages b) o + w) (bits b) 0.

(** Whether block [i] of order [o] is free. *)
Definition bit (b : Buddy) (o : nat) (i : Z) : bool :=
  (o <=? MAX_ORDER)%nat && (0 <=? i) && (i <? blocks_at o b) && Z.testbit (word b o (word_of i)) (i mod 64).

Lemma bit_range b o i : bit b o i = true -> (o <= MAX_ORDER)%nat /\ 0 <= i < blocks_at o b.
Proof. unfold bit. rewrite !andb_true_iff, Nat.leb_le, Z.leb_le, Z.ltb_lt. intuition. Qed.

Lemma bit_in b o i :
  (o <= MAX_ORDER)%nat -> 0 <= i < blocks_at o b -> bit b o i = Z.testbit (word b o (word_of i)) (i mod 64).
Proof.
  intros Ho Hi. unfold bit. apply Nat.leb_le in Ho as ->.
  rewrite (proj2 (Z.leb_le 0 i)), (proj2 (Z.ltb_lt i _)) by lia. done.
Qed.

Lemma bit_out b o i : ~ 0 <= i < blocks_at o b -> bit b o i = false.
Proof. intros Hi. destruct (bit b o i) eqn:E; [| done]. apply bit_range in E as [_ ?]. lia. Qed.

Section geometry.
Context (b : Buddy) (Hgeo : geometry b).

Lemma offsets_at o : (o <= MAX_ORDER)%nat -> offsets b !! o = Some (offset_in (pages b) o).
Proof using Hgeo. intros Ho. by rewrite (geo_offsets b Hgeo), list_lookup_fmap, layout_at. Qed.

Lemma words_at o : (o <= MAX_ORDER)%nat -> words b !! o = Some (words_in (pages b) o).
Proof using Hgeo. intros Ho. by rewrite (geo_words b Hgeo), list_lookup_fmap, layout_at. Qed.

Lemma word_lookup o w :
  (o <= MAX_ORDER)%nat -> (w < words_in (pages b) o)%nat ->
  bits b !! (offset_in (pages b) o + w)%nat = Some (word b o w).
Proof using Hgeo.
  intros Ho Hw. unfold word. pose proof (words_inside (pages b) o Ho). pose proof (geo_bits b Hgeo).
  destruct (nth_lookup_or_length (bits b) (offset_in (pages b) o + w) 0) as [Hl | Hl]; [exact Hl | lia].
Qed.

Lemma word_u64 o w : u64_range (word b o w).
Proof using Hgeo.
  unfold word. destruct (nth_lookup_or_length (bits b) (offset_in (pages b) o + w) 0) as [Hl | Hl].
  - exact (proj1 (Forall_lookup _ _) (geo_width b Hgeo) _ _ Hl).
  - rewrite nth_overflow by done. done.
Qed.

Lemma run_load o w :
  (o <= MAX_ORDER)%nat -> (w < words_in (pages b) o)%nat -> load o w b = Some (word b o w, b).
Proof using Hgeo.
  intros Ho Hw. unfold load, word_index, mbind, M_bind, gets, mret, M_ret, assert_some, id.
  by rewrite (offsets_at o Ho), word_lookup.
Qed.

End geometry.

(** ** Bits of a word *)

Lemma u64_high v k : u64_range v -> 64 <= k -> Z.testbit v k = false.
Proof.
  unfold u64_range. intros Hv Hk. rewrite <- (Z.mod_small v (2 ^ 64)) by lia.
  by apply Z.mod_pow2_bits_high.
Qed.

Lemma u64_zero v :
  u64_range v -> (forall k, 0 <= k < 64 -> Z.testbit v k = false) -> v = 0.
Proof.
  intros Hv Hk. apply Z.bits_inj'. intros n Hn. rewrite Z.bits_0.
  destruct (Z.ltb_spec n 64); [by apply Hk | by apply u64_high].
Qed.

Lemma u64_nonzero v :
  u64_range v -> v <> 0 -> exists k, 0 <= k < 64 /\ Z.testbit v k = true.
Proof.
  intros Hv Hne. destruct (existsb (Z.testbit v) (seqZ 0 64)) eqn:E.
  - apply existsb_exists in E as (k & Hk%list_elem_of_In & Hb). apply elem_of_seqZ in Hk. eauto with lia.
  - destruct Hne. apply u64_zero; [done |]. intros k Hk. destruct (Z.testbit v k) eqn:Hb; [| done].
    rewrite <- E. symmetry. apply existsb_exists. exists k. split; [| done].
    apply list_elem_of_In, elem_of_seqZ. lia.
Qed.

Lemma testbit_bit_of i k : 0 <= k -> Z.testbit (bit_of i) k = (k =? i mod 64).
Proof.
  intros Hk. unfold bit_of. rewrite Z.shiftl_spec by lia. pose proof (Z.mod_pos_bound i 64).
  destruct (Z.eqb_spec k (i mod 64)) as [-> | Hne]; [by rewrite Z.sub_diag |].
  destruct (Z.ltb_spec k (i mod 64)); [by rewrite Z.testbit_neg_r by lia |].
  apply (Z.bits_above_log2 1); simpl; lia.
Qed.

(** [v & (1 << n) != 0] is the bit. *)
Lemma land_bit_of v i : negb (Z.land v (bit_of i) =? 0) = Z.testbit v (i mod 64).
Proof.
  pose proof (Z.mod_pos_bound i 64 ltac:(lia)). destruct (Z.testbit v (i mod 64)) eqn:E.
  - apply negb_true_iff, Z.eqb_neq. intros H0. apply (f_equal (fun x => Z.testbit x (i mod 64))) in H0.
    rewrite Z.land_spec, testbit_bit_of, E, Z.eqb_refl, Z.bits_0 in H0 by lia. done.
  - apply negb_false_iff, Z.eqb_eq. apply Z.bits_inj'. intros n Hn.
    rewrite Z.land_spec, testbit_bit_of, Z.bits_0 by lia.
    destruct (Z.eqb_spec n (i mod 64)) as [-> |]; [by rewrite E | apply andb_false_r].
Qed.

Lemma testbit_set v i k :
  0 <= k -> Z.testbit (Z.lor v (bit_of i)) k = if k =? i mod 64 then true else Z.testbit v k.
Proof.
  intros Hk. rewrite Z.lor_spec, testbit_bit_of by done. case_bool; [apply orb_true_r | apply orb_false_r].
Qed.

Lemma testbit_clear v i k :
  0 <= k -> Z.testbit (Z.land v (Z.lnot (bit_of i))) k = if k =? i mod 64 then false else Z.testbit v k.
Proof.
  intros Hk. rewrite Z.land_spec, Z.lnot_spec, testbit_bit_of by done.
  case_bool; [apply andb_false_r | apply andb_true_r].
Qed.

(** A value whose bits at 64 and above are clear is a word. *)
Lemma u64_of_bits v : 0 <= v -> (forall k, 64 <= k -> Z.testbit v k = false) -> u64_range v.
Proof.
  intros Hv Hhigh. unfold u64_range. split; [done |]. destruct (Z.eq_dec v 0) as [-> |]; [lia |].
  destruct (Z.ltb_spec (Z.log2 v) 64) as [Hl | Hl].
  - apply Z.log2_lt_pow2 in Hl; lia.
  - specialize (Hhigh _ Hl). rewrite Z.bit_log2 in Hhigh by lia. done.
Qed.

Lemma u64_set v i : u64_range v -> u64_range (Z.lor v (bit_of i)).
Proof.
  intros Hv. pose proof (Z.mod_pos_bound i 64 ltac:(lia)). apply u64_of_bits.
  - apply Z.lor_nonneg. split; [apply Hv |]. unfold bit_of. apply Z.shiftl_nonneg. lia.
  - intros k Hk. rewrite testbit_set by lia. case_bool; [lia |]. by apply u64_high.
Qed.

Lemma u64_clear v i : u64_range v -> u64_range (Z.land v (Z.lnot (bit_of i))).
Proof.
  intros Hv. apply u64_of_bits.
  - apply Z.land_nonneg. left. apply Hv.
  - intros k Hk. rewrite testbit_clear by lia. case_bool; [done |]. by apply u64_high.
Qed.

Lemma trailing_zeros_from_spec fuel i v :
  0 <= i -> (exists k, i <= k < i + Z.of_nat fuel /\ Z.testbit v k = true) ->
  let t := trailing_zeros_from fuel i v in
  i <= t < i + Z.of_nat fuel /\ Z.testbit v t = true /\ forall k, i <= k < t -> Z.testbit v k = false.
Proof.
  revert i. induction fuel as [| fuel IH]; intros i Hi (k & Hk & Hb); cbn [trailing_zeros_from]; [lia |].
  destruct (Z.testbit v i) eqn:E; [repeat split; try lia; done |].
  assert (k <> i) by congruence.
  destruct (IH (i + 1)) as (H1 & H2 & H3); [lia | exists k; split; [lia | done] |].
  repeat split; try lia; [done |]. intros j Hj. destruct (Z.eq_dec j i) as [-> |]; [done | apply H3; lia].
Qed.

Lemma trailing_zeros_spec v :
  u64_range v -> v <> 0 ->
  0 <= trailing_zeros v < 64 /\ Z.testbit v (trailing_zeros v) = true /\
  forall k, 0 <= k < trailing_zeros v -> Z.testbit v k = false.
Proof.
  intros Hv Hne. destruct (u64_nonzero v Hv Hne) as (k & Hk & Hb).
  apply (trailing_zeros_from_spec 64 0 v); [lia |]. exists k. split; [lia | done].
Qed.

Lemma testbit_mask_from n k : 0 <= n -> 0 <= k < 64 -> Z.testbit (mask_from n) k = (n <=? k).
Proof.
  intros Hn Hk. unfold mask_from, wrap64. change TWO64 with (2 ^ 64).
  rewrite Z.mod_pow2_bits_low, Z.shiftl_spec by lia.
  destruct (Z.leb_spec n k); [| by rewrite Z.testbit_neg_r by lia].
  change U64_MAX with (Z.ones 64). apply Z.ones_spec_low. lia.
Qed.

Lemma testbit_mask_upto n k : 0 <= n -> 0 <= k -> Z.testbit (mask_upto n) k = (k + n <? 64).
Proof.
  intros Hn Hk. unfold mask_upto. rewrite Z.shiftr_spec by lia. change U64_MAX with (Z.ones 64).
  destruct (Z.ltb_spec (k + n) 64); [apply Z.ones_spec_low | apply Z.ones_spec_high]; lia.
Qed.

(** ** Counting over an interval *)

(** Two tests that agree outside an interval count differently only inside it. *)
Lemma count_seqZ_range (p q : Z -> bool) N a n :
  0 <= a -> 0 <= n -> a + n <= N ->
  (forall x, 0 <= x < N -> ~ (a <= x < a + n) -> q x = p x) ->
  count q (seqZ 0 N) = count p (seqZ 0 N) - count p (seqZ a n) + count q (seqZ a n).
Proof.
  intros Ha Hn HN Hout.
  replace (seqZ 0 N) with (seqZ 0 a ++ seqZ a n ++ seqZ (a + n) (N - a - n)).
  - rewrite !count_app. rewrite (count_ext q p (seqZ 0 a)), (count_ext q p (seqZ (a + n) _)); [lia | |];
      intros x Hx%elem_of_seqZ; apply Hout; lia.
  - rewrite <- (seqZ_app (a) n), <- (seqZ_app 0 a) by lia. f_equal. lia.
Qed.

Lemma count_seqZ_all (p : Z -> bool) a n :
  0 <= n -> (forall x, a <= x < a + n -> p x = true) -> count p (seqZ a n) = n.
Proof.
  intros Hn Hp. rewrite (count_ext p (fun _ => true)) by (intros x Hx%elem_of_seqZ; apply Hp; lia).
  transitivity (Z.of_nat (length (seqZ a n))); [| rewrite length_seqZ; lia].
  induction (seqZ a n) as [| x l IH]; [done |]. rewrite count_cons, IH. simpl. lia.
Qed.

Lemma count_seqZ_none (p : Z -> bool) a n :
  (forall x, a <= x < a + n -> p x = false) -> count p (seqZ a n) = 0.
Proof.
  intros Hp. rewrite (count_ext p (fun _ => false)) by (intros x Hx%elem_of_seqZ; apply Hp; lia).
  induction (seqZ a n) as [| x l IH]; [done |]. by rewrite count_cons, IH.
Qed.

(** ** One bit changed *)

Definition upd (B : nat -> Z -> bool) (o : nat) (i : Z) (x : bool) (o' : nat) (i' : Z) : bool :=
  if (o' =? o)%nat && (i' =? i) then x else B o' i'.

Lemma upd_eq B o i x : upd B o i x o i = x.
Proof. unfold upd. by rewrite Nat.eqb_refl, Z.eqb_refl. Qed.

Lemma upd_ne B o i x o' i' : o' <> o \/ i' <> i -> upd B o i x o' i' = B o' i'.
Proof. intros Hne. unfold upd. destruct (Nat.eqb_spec o' o), (Z.eqb_spec i' i); simpl; tauto. Qed.

Lemma upd_same B o i x o' i' : B o i = x -> upd B o i x o' i' = B o' i'.
Proof.
  intros HB. destruct (decide (o' = o /\ i' = i)) as [[-> ->] |]; [by rewrite upd_eq |].
  apply upd_ne. lia.
Qed.

Lemma count_upd B o i x o' N :
  0 <= i < N ->
  count (upd B o i x o') (seqZ 0 N) =
  count (B o') (seqZ 0 N) +
  (if (o' =? o)%nat then (if x then 1 else 0) - (if B o i then 1 else 0) else 0).
Proof.
  intros Hi. destruct (Nat.eqb_spec o' o) as [-> | Hne].
  - rewrite (count_seqZ_range (B o) (upd B o i x o) N i 1) by (try lia; intros; apply upd_ne; lia).
    unfold seqZ. simpl. rewrite Z.add_0_l, !count_cons, !count_nil, upd_eq. lia.
  - rewrite Z.add_0_r. apply count_ext. intros. apply upd_ne. by left.
Qed.

(** ** What the bitmaps, the counts and the hints promise each other *)

Record sound (b : Buddy) : Prop := {
  sound_geo : geometry b;
  sound_stray : forall o w k, (o <= MAX_ORDER)%nat -> (w < words_in (pages b) o)%nat -> 0 <= k < 64 ->
    Z.testbit (word b o w) k = true -> Z.of_nat w * 64 + k < blocks_at o b;
  sound_counts : forall o, (o <= MAX_ORDER)%nat ->
    counts b !! o = Some (count (bit b o) (seqZ 0 (blocks_at o b)));
  sound_hint : forall o, (o <= MAX_ORDER)%nat ->
    exists h, hint b !! o = Some h /\ 0 <= h /\ forall i, bit b o i = true -> h <= i / 64;
}.

(** What no bit operation changes. *)
Definition framed (b b' : Buddy) : Prop :=
  base b' = base b /\ pages b' = pages b /\ free_pages b' = free_pages b.

Lemma framed_refl b : framed b b.
Proof. done. Qed.

Lemma framed_trans a b c : framed a b -> framed b c -> framed a c.
Proof. unfold framed. intuition congruence. Qed.

Definition put_word (b : Buddy) (o w : nat) (v : Z) : Buddy :=
  set_bits (<[(offset_in (pages b) o + w)%nat := v]> (bits b)) b.

Section put_word.
Context (b : Buddy) (Hgeo : geometry b) (o : nat) (Ho : (o <= MAX_ORDER)%nat).
Context (i : Z) (Hi : 0 <= i < blocks_at o b) (v : Z) (Hv : u64_range v).

Notation b' := (put_word b o (word_of i) v).

Lemma run_store : store o (word_of i) v b = Some (tt, b').
Proof using Hgeo Ho Hi.
  unfold store, word_index, mbind, M_bind, gets, mret, M_ret, assert_some, modify, id.
  rewrite (offsets_at b Hgeo o Ho), (word_lookup b Hgeo) by (done || by apply word_of_inside). done.
Qed.

Lemma geometry_put_word : geometry b'.
Proof using Hgeo Hv.
  destruct Hgeo. constructor; simpl; try done.
  - by rewrite length_insert.
  - apply Forall_insert; done.
Qed.

Lemma word_put_word o' w' :
  (o' <= MAX_ORDER)%nat -> (w' < words_in (pages b) o')%nat ->
  word b' o' w' = if (o' =? o)%nat && (w' =? word_of i)%nat then v else word b o' w'.
Proof using Hgeo Ho Hi.
  intros Ho' Hw'. unfold word at 1. simpl.
  assert (word_of i < words_in (pages b) o)%nat as Hw by by apply word_of_inside.
  destruct (Nat.eqb_spec o' o) as [-> | Hne], (Nat.eqb_spec w' (word_of i)) as [-> | Hnw]; simpl.
  - apply nth_lookup_Some, list_lookup_insert_eq, lookup_lt_is_Some. rewrite word_lookup by done. eauto.
  - apply nth_lookup_Some. rewrite list_lookup_insert_ne by lia. by apply word_lookup.
  - apply nth_lookup_Some. rewrite list_lookup_insert_ne; [by apply word_lookup |].
    intros Heq. apply (word_place_inj (pages b)) in Heq as [? _]; congruence || lia.
  - apply nth_lookup_Some. rewrite list_lookup_insert_ne; [by apply word_lookup |].
    intros Heq. apply (word_place_inj (pages b)) in Heq as [? _]; congruence || lia.
Qed.

(** The new word differs from the old one in the bit of block [i]. *)
Context (x : bool) (Hbits : forall k, 0 <= k ->
  Z.testbit v k = if k =? i mod 64 then x else Z.testbit (word b o (word_of i)) k).

Lemma bit_put_word o' i' : bit b' o' i' = upd (bit b) o i x o' i'.
Proof using Hgeo Ho Hi Hbits.
  destruct (decide ((o' <= MAX_ORDER)%nat /\ 0 <= i' < blocks_at o' b)) as [[Ho' Hi'] | Hout].
  - rewrite bit_in by done. rewrite word_put_word by (done || by apply word_of_inside).
    unfold upd. destruct (Nat.eqb_spec o' o) as [-> |]; simpl; [| by rewrite bit_in].
    unfold word_of. pose proof (Z.div_mod i 64 ltac:(lia)). pose proof (Z.div_mod i' 64 ltac:(lia)).
    pose proof (Z.mod_pos_bound i' 64 ltac:(lia)).
    assert (0 <= i / 64 /\ 0 <= i' / 64) as [? ?] by (split; apply Z.div_pos; lia).
    destruct (Nat.eqb_spec (Z.to_nat (i' / 64)) (Z.to_nat (i / 64))) as [He | Hne].
    + rewrite Hbits by lia. destruct (Z.eqb_spec (i' mod 64) (i mod 64)), (Z.eqb_spec i' i); try lia; try done.
      rewrite bit_in by done. unfold word_of. by rewrite He.
    + destruct (Z.eqb_spec i' i); [congruence |]. by rewrite bit_in.
  - rewrite upd_ne by (destruct (decide (o' = o)) as [-> |]; [right; intros ->; tauto | by left]).
    transitivity false; [| symmetry]; (destruct (bit _ o' i') eqn:E; [| done]; by apply bit_range in E).
Qed.

Lemma stray_put_word o' w' k :
  (forall o w k, (o <= MAX_ORDER)%nat -> (w < words_in (pages b) o)%nat -> 0 <= k < 64 ->
    Z.testbit (word b o w) k = true -> Z.of_nat w * 64 + k < blocks_at o b) ->
  (o' <= MAX_ORDER)%nat -> (w' < words_in (pages b) o')%nat -> 0 <= k < 64 ->
  Z.testbit (word b' o' w') k = true -> Z.of_nat w' * 64 + k < blocks_at o' b.
Proof using Hgeo Ho Hi Hbits.
  intros Hold Ho' Hw' Hk. rewrite word_put_word by done.
  destruct (Nat.eqb_spec o' o) as [-> |], (Nat.eqb_spec w' (word_of i)) as [-> |]; simpl;
    intros Hb; try by apply Hold.
  rewrite Hbits in Hb by lia. destruct (Z.eqb_spec k (i mod 64)) as [-> |]; [| by apply Hold].
  unfold word_of. assert (0 <= i / 64) by (apply Z.div_pos; lia).
  pose proof (Z.div_mod i 64). rewrite Z2Nat.id by done. lia.
Qed.

End put_word.

(** ** The bit operations *)

(** The state after a bit has been given a value. *)
Definition flipped (o : nat) (i : Z) (x : bool) (b b' : Buddy) : Prop :=
  sound b' /\ framed b b' /\ forall o' i', bit b' o' i' = upd (bit b) o i x o' i'.

Section bit_ops.
Context (b : Buddy) (Hs : sound b) (o : nat) (Ho : (o <= MAX_ORDER)%nat).

Lemma run_get i : 0 <= i -> get o i b = Some (bit b o i, b).
Proof using Hs Ho.
  intros Hi. unfold get. rewrite (run_bind _ _ b b b) by done.
  destruct (Z.leb_spec (blocks_at o b) i); [by rewrite bit_out by lia |].
  rewrite (run_bind _ _ _ _ _ (run_load b (sound_geo b Hs) o _ Ho (word_of_inside (pages b) o i ltac:(done)))).
  rewrite bit_in by done. by rewrite <- land_bit_of.
Qed.

Section one_bit.
Context (i : Z) (Hi : 0 <= i < blocks_at o b).

Lemma run_load_at : load o (word_of i) b = Some (word b o (word_of i), b).
Proof using Hs Ho Hi. apply run_load; [by apply sound_geo | done | by apply word_of_inside]. Qed.

(** The stored word and the new count, put in place together. *)
Lemma flip_sound v x h :
  u64_range v ->
  (forall k, 0 <= k -> Z.testbit v k = if k =? i mod 64 then x else Z.testbit (word b o (word_of i)) k) ->
  bit b o i = negb x ->
  hint b !! o = Some h ->
  let b1 := put_word b o (word_of i) v in
  let n := count (bit b o) (seqZ 0 (blocks_at o b)) + (if x then 1 else -1) in
  let h' := if x then Z.min (i / 64) h else h in
  flipped o i x b (set_hint (<[o := h']> (hint b)) (set_counts (<[o := n]> (counts b)) b1)).
Proof using Hs Ho Hi.
  intros Hv Hbits Hold Hh b1 n h'. pose proof (sound_geo b Hs) as Hgeo.
  assert (forall o' i', bit b1 o' i' = upd (bit b) o i x o' i') as Hupd by by apply bit_put_word.
  split; [| done]. constructor; simpl.
  - destruct (geometry_put_word b Hgeo o i v Hv). by constructor.
  - intros o' w k Ho' Hw Hk. apply (stray_put_word b Hgeo o Ho i Hi v x Hbits o' w k); try done.
    apply (sound_stray b Hs).
  - intros o' Ho'. change (blocks_at o' _) with (blocks_at o' b).
    rewrite (count_ext _ (upd (bit b) o i x o')) by (intros; apply Hupd).
    destruct (decide (o' = o)) as [-> | Hne].
    + rewrite count_upd, Nat.eqb_refl, Hold by done.
      rewrite list_lookup_insert_eq; [| apply lookup_lt_is_Some; rewrite (sound_counts b Hs) by done; eauto].
      unfold n. destruct x; simpl; f_equal; lia.
    + rewrite list_lookup_insert_ne, (sound_counts b Hs) by done. f_equal.
      apply count_ext. intros. symmetry. apply upd_ne. by left.
  - intros o' Ho'. destruct (sound_hint b Hs o' Ho') as (h0 & Hh0 & Hpos & Hle).
    destruct (decide (o' = o)) as [-> | Hne].
    + rewrite Hh in Hh0. injection Hh0 as <-. exists h'.
      rewrite list_lookup_insert_eq by (apply lookup_lt_is_Some; eauto).
      assert (0 <= i / 64) by (apply Z.div_pos; lia).
      split; [done |]. split; [unfold h'; destruct x; lia |]. intros j.
      change (bit _ o j = true) with (bit b1 o j = true). rewrite Hupd. unfold upd. rewrite Nat.eqb_refl. simpl.
      destruct (Z.eqb_spec j i) as [-> |]; [intros ->; unfold h'; lia |]. intros Hj%Hle. unfold h'. destruct x; lia.
    + exists h0. rewrite list_lookup_insert_ne by done. split; [done |]. split; [done |]. intros j.
      change (bit _ o' j = true) with (bit b1 o' j = true). rewrite Hupd, upd_ne by (by left). apply Hle.
Qed.

Lemma run_count_add d b1 :
  counts b1 = counts b -> 0 <= count (bit b o) (seqZ 0 (blocks_at o b)) + d ->
  count_add o d b1 =
  Some (tt, set_counts (<[o := count (bit b o) (seqZ 0 (blocks_at o b)) + d]> (counts b1)) b1).
Proof using Hs Ho.
  intros Hc Hd. unfold count_add, debug_assert, mbind, M_bind, gets, assert_some, modify, id.
  rewrite Hc, (sound_counts b Hs o Ho), (proj2 (Z.leb_le _ _) Hd). cbv beta iota delta [mret M_ret]. by rewrite Hc.
Qed.

Lemma wp_set Q : (forall b', flipped o i true b b' -> Q tt b') -> wp (set o i) Q b.
Proof using Hs Ho Hi.
  intros HQ. unfold set. wp_steps. unfold id, debug_assert.
  rewrite (proj2 (Z.ltb_lt i (blocks_at o b))) by lia. wp_steps.
  eapply run_wp; [apply run_load_at |].
  destruct (sound_hint b Hs o Ho) as (h & Hh & Hh0 & Hle).
  pose proof (sound_geo b Hs) as Hgeo. pose proof (land_bit_of (word b o (word_of i)) i) as Hland.
  rewrite <- bit_in in Hland by done. destruct (Z.eqb_spec (Z.land (word b o (word_of i)) (bit_of i)) 0); simpl in Hland.
  - assert (0 <= count (bit b o) (seqZ 0 (blocks_at o b)) + 1) by (pose proof (count_nonneg (bit b o) (seqZ 0 (blocks_at o b))); lia).
    wp_steps. eapply run_wp; [by apply run_store |].
    eapply run_wp; [by apply run_count_add |].
    pose proof (flip_sound (Z.lor (word b o (word_of i)) (bit_of i)) true h (u64_set _ _ (word_u64 b Hgeo _ _))
                  ltac:(intros; by apply testbit_set) ltac:(done) Hh) as Hflip. cbv zeta in Hflip.
    unfold lower_hint. wp_steps. eapply wp_assert_some; [exact Hh |].
    destruct (Z.ltb_spec (i / 64) h).
    + wp_step. apply HQ. rewrite Z.min_l in Hflip by lia. exact Hflip.
    + wp_step. apply HQ. rewrite Z.min_r, list_insert_id in Hflip by (done || lia).
      destruct b. exact Hflip.
  - wp_steps. unfold lower_hint. wp_steps. eapply wp_assert_some; [exact Hh |].
    symmetry in Hland. specialize (Hle i Hland). destruct (Z.ltb_spec (i / 64) h); [lia |].
    wp_step. apply HQ. split; [done |]. split; [done |]. intros o' i'. by rewrite upd_same.
Qed.

Lemma wp_clear Q : (forall b', flipped o i false b b' -> Q tt b') -> wp (clear o i) Q b.
Proof using Hs Ho Hi.
  intros HQ. unfold clear. wp_steps. unfold id, debug_assert.
  rewrite (proj2 (Z.ltb_lt i (blocks_at o b))) by lia. wp_steps.
  eapply run_wp; [apply run_load_at |].
  destruct (sound_hint b Hs o Ho) as (h & Hh & Hh0 & Hle).
  pose proof (sound_geo b Hs) as Hgeo. pose proof (land_bit_of (word b o (word_of i)) i) as Hland.
  rewrite <- bit_in in Hland by done. destruct (Z.eqb_spec (Z.land (word b o (word_of i)) (bit_of i)) 0); simpl in Hland.
  - wp_step. apply HQ. split; [done |]. split; [done |]. intros o' i'. by rewrite upd_same.
  - symmetry in Hland.
    assert (0 <= count (bit b o) (seqZ 0 (blocks_at o b)) + -1).
    { assert (1 <= count (bit b o) (seqZ 0 (blocks_at o b))); [| lia].
      apply (count_pos _ _ (Z.to_nat i) i); [| done]. rewrite lookup_seqZ. lia. }
    wp_steps. eapply run_wp; [by apply run_store |].
    eapply run_wp; [by apply run_count_add |].
    pose proof (flip_sound (Z.land (word b o (word_of i)) (Z.lnot (bit_of i))) false h (u64_clear _ _ (word_u64 b Hgeo _ _))
                  ltac:(intros; by apply testbit_clear) ltac:(done) Hh) as Hflip. cbv zeta in Hflip.
    apply HQ. rewrite list_insert_id in Hflip by done. destruct b. exact Hflip.
Qed.

End one_bit.
End bit_ops.
