(* ===== verification/BuddyScan.v ===== *)
(** The word-wise scans of the frame allocator against bit-by-bit searches. *)

From S2P Require Import Prelude Buddy BuddyBits.

(** A search of a list with a test that changes nothing is [existsb]. *)
Lemma run_any_of {A} (f : A -> M Buddy bool) (t : A -> bool) l b :
  (forall x, x ∈ l -> f x b = Some (t x, b)) -> any_of f l b = Some (existsb t l, b).
Proof.
  induction l as [| x l IH]; intros Hf; cbn [any_of existsb]; [done |].
  rewrite (run_bind _ _ _ _ _ (Hf x ltac:(set_solver))). destruct (t x); [done |].
  apply IH. set_solver.
Qed.

Section scans.
Context (b : Buddy) (Hs : sound b) (o : nat) (Ho : (o <= MAX_ORDER)%nat).

(** A set bit, named by its word and its place in it. *)
Lemma bit_place i :
  bit b o i = true <->
  exists w k, (w < words_in (pages b) o)%nat /\ 0 <= k < 64 /\
              i = Z.of_nat w * 64 + k /\ Z.testbit (word b o w) k = true.
Proof using Hs Ho.
  split.
  - intros Hb. pose proof (bit_range b o i Hb) as [_ Hi]. rewrite bit_in in Hb by done.
    assert (0 <= i / 64) by (apply Z.div_pos; lia). pose proof (Z.div_mod i 64).
    exists (word_of i), (i mod 64). repeat split; try done; try (apply Z.mod_pos_bound; lia).
    + by apply word_of_inside.
    + unfold word_of. lia.
  - intros (w & k & Hw & Hk & -> & Hb).
    pose proof (sound_stray b Hs o w k Ho Hw Hk Hb). rewrite bit_in by (done || lia).
    unfold word_of. rewrite Z.div_add_l, (Z.div_small k), Z.add_0_r, Nat2Z.id by lia.
    rewrite Z.add_comm, Z.mod_add, Z.mod_small by lia. done.
Qed.

(** ** A range of bits, word by word *)

Definition masked (start stop : Z) (fw lw w : nat) (v : Z) : Z :=
  let v := if (w =? fw)%nat then Z.land v (mask_from (start mod 64)) else v in
  if (w =? lw)%nat && negb (stop mod 64 =? 0) then Z.land v (mask_upto (64 - stop mod 64)) else v.

Lemma testbit_masked start stop w v k :
  0 <= start < stop -> (word_of start <= w <= word_of (stop - 1))%nat -> 0 <= k < 64 ->
  Z.testbit (masked start stop (word_of start) (word_of (stop - 1)) w v) k =
  Z.testbit v k && (start <=? Z.of_nat w * 64 + k) && (Z.of_nat w * 64 + k <? stop).
Proof.
  unfold word_of, masked. intros Hst Hw Hk.
  assert (0 <= start / 64 /\ 0 <= (stop - 1) / 64) as [? ?] by (split; apply Z.div_pos; lia).
  pose proof (Z.div_mod start 64 ltac:(lia)). pose proof (Z.mod_pos_bound start 64 ltac:(lia)).
  pose proof (Z.div_mod (stop - 1) 64 ltac:(lia)). pose proof (Z.mod_pos_bound (stop - 1) 64 ltac:(lia)).
  pose proof (Z.div_mod stop 64 ltac:(lia)). pose proof (Z.mod_pos_bound stop 64 ltac:(lia)).
  assert (Z.testbit (if (w =? Z.to_nat (start / 64))%nat then Z.land v (mask_from (start mod 64)) else v) k =
          Z.testbit v k && (start <=? Z.of_nat w * 64 + k)) as Hlow.
  { destruct (Nat.eqb_spec w (Z.to_nat (start / 64))).
    - rewrite Z.land_spec, testbit_mask_from by lia. f_equal.
      destruct (Z.leb_spec (start mod 64) k), (Z.leb_spec start (Z.of_nat w * 64 + k)); lia.
    - rewrite (proj2 (Z.leb_le start _)) by lia. by rewrite andb_true_r. }
  destruct (Nat.eqb_spec w (Z.to_nat ((stop - 1) / 64))), (Z.eqb_spec (stop mod 64) 0); simpl;
    try (rewrite Hlow, (proj2 (Z.ltb_lt _ stop)) by lia; by rewrite andb_true_r).
  rewrite Z.land_spec, Hlow, testbit_mask_upto by lia. f_equal.
  destruct (Z.ltb_spec (k + (64 - stop mod 64)) 64), (Z.ltb_spec (Z.of_nat w * 64 + k) stop); lia.
Qed.

Lemma masked_u64 start stop fw lw w v : u64_range v -> u64_range (masked start stop fw lw w v).
Proof.
  intros Hv. unfold masked.
  assert (forall x m, u64_range x -> u64_range (Z.land x m)) as Hland.
  { intros x m Hx. apply u64_of_bits; [apply Z.land_nonneg; left; apply Hx |].
    intros k Hk. by rewrite Z.land_spec, u64_high. }
  destruct (w =? fw)%nat, (_ && _); auto.
Qed.

Lemma run_any_bit_words start stop fw lw ws :
  (forall w, w ∈ ws -> (w < words_in (pages b) o)%nat) ->
  any_bit_words o start stop fw lw ws b =
  Some (existsb (fun w => negb (masked start stop fw lw w (word b o w) =? 0)) ws, b).
Proof using Hs Ho.
  induction ws as [| w ws IH]; intros Hws; cbn [any_bit_words existsb]; [done |].
  rewrite (run_bind _ _ _ _ _ (run_load b (sound_geo b Hs) o w Ho (Hws w ltac:(set_solver)))).
  fold (masked start stop fw lw w (word b o w)).
  destruct (negb _); [done |]. apply IH. set_solver.
Qed.

Lemma run_any_bit_in_range start n :
  0 <= start -> any_bit_in_range o start n b = Some (existsb (bit b o) (seqZ start n), b).
Proof using Hs Ho.
  intros Hstart. unfold any_bit_in_range. rewrite (run_bind _ _ b b b) by done.
  set (stop := Z.min (start + n) (blocks_at o b)).
  destruct (Z.leb_spec stop start).
  - unfold mret, M_ret. do 2 f_equal. symmetry. apply existsb_false. intros i Hi%elem_of_seqZ.
    apply bit_out. lia.
  - assert (word_of (stop - 1) < words_in (pages b) o)%nat as Hlast by (apply word_of_inside; unfold blocks_at in *; lia).
    assert (0 <= start / 64) by (apply Z.div_pos; lia).
    assert (start / 64 <= (stop - 1) / 64) by (apply Z.div_le_mono; lia).
    rewrite run_any_bit_words by (intros w Hw%elem_of_seq; unfold word_of in *; lia).
    do 2 f_equal. apply eq_true_iff_eq. rewrite !existsb_iff. split.
    + intros (w & Hw%elem_of_seq & Hne%negb_true_iff%Z.eqb_neq).
      apply u64_nonzero in Hne as (k & Hk & Hb); [| apply masked_u64, word_u64; by apply sound_geo].
      rewrite testbit_masked in Hb by (unfold word_of in *; lia).
      apply andb_true_iff in Hb as [[Hb Hlo%Z.leb_le]%andb_true_iff Hhi%Z.ltb_lt].
      exists (Z.of_nat w * 64 + k). split; [apply elem_of_seqZ; lia |].
      apply bit_place. exists w, k. split; [unfold word_of in *; lia | done].
    + intros (i & Hi%elem_of_seqZ & Hb). pose proof (bit_range b o i Hb) as [_ Hr].
      apply bit_place in Hb as (w & k & Hw & Hk & -> & Hb).
      assert (w = Z.to_nat ((Z.of_nat w * 64 + k) / 64)) as Hwk.
      { rewrite Z.div_add_l, (Z.div_small k) by lia. lia. }
      assert (start / 64 <= (Z.of_nat w * 64 + k) / 64 <= (stop - 1) / 64) by (split; apply Z.div_le_mono; lia).
      exists w. split; [apply elem_of_seq; unfold word_of; lia |].
      apply negb_true_iff, Z.eqb_neq. intros Hz.
      apply (f_equal (fun x => Z.testbit x k)) in Hz. rewrite Z.bits_0, testbit_masked, Hb in Hz
        by (unfold word_of; lia).
      rewrite (proj2 (Z.leb_le start _)), (proj2 (Z.ltb_lt _ stop)) in Hz by lia. done.
Qed.

(** ** The lowest free block *)

(** What [first_free] and [peek_first_free] answer. *)
Definition lowest (r : option Z) : Prop :=
  match r with
  | Some i => bit b o i = true /\ forall j, bit b o j = true -> i <= j
  | None => forall j, bit b o j = false
  end.

Lemma run_scan_words start n :
  (start + n <= words_in (pages b) o)%nat ->
  exists r, scan_words o (seq start n) b = Some (r, b) /\
    match r with
    | Some (w, v) => (start <= w < start + n)%nat /\ v = word b o w /\ v <> 0 /\
                     forall w', (start <= w' < w)%nat -> word b o w' = 0
    | None => forall w', (start <= w' < start + n)%nat -> word b o w' = 0
    end.
Proof using Hs Ho.
  revert start. induction n as [| n IH]; intros start Hn; cbn [seq scan_words].
  - exists None. split; [done | lia].
  - rewrite (run_bind _ _ _ _ _ (run_load b (sound_geo b Hs) o start Ho ltac:(lia))).
    destruct (Z.eqb_spec (word b o start) 0) as [H0 | H0].
    + destruct (IH (S start) ltac:(lia)) as (r & -> & Hr). exists r. split; [done |].
      destruct r as [[w v] |].
      * destruct Hr as (Hw & Hv & Hne & Hz). repeat split; try done; try lia.
        intros w' Hw'. destruct (decide (w' = start)) as [-> |]; [done | apply Hz; lia].
      * intros w' Hw'. destruct (decide (w' = start)) as [-> |]; [done | apply Hr; lia].
    + eexists. split; [done |]. simpl. repeat split; try done; lia.
Qed.

Lemma run_scan :
  exists r, scan o b = Some (r, b) /\
    match r with
    | Some (w, v) => (w < words_in (pages b) o)%nat /\ v = word b o w /\ v <> 0 /\
                     forall w', (w' < w)%nat -> word b o w' = 0
    | None => forall w', (w' < words_in (pages b) o)%nat -> word b o w' = 0
    end.
Proof using Hs Ho.
  pose proof (sound_geo b Hs) as Hgeo. destruct (sound_hint b Hs o Ho) as (h & Hh & Hh0 & Hle).
  unfold scan, mbind, M_bind, gets, id, assert_some. rewrite Hh, (words_at b Hgeo o Ho).
  set (start := Z.to_nat (Z.min h (Z.of_nat (words_in (pages b) o)))).
  assert (start <= words_in (pages b) o)%nat by lia.
  assert (forall w, (w < start)%nat -> word b o w = 0) as Hbelow.
  { intros w Hw. apply u64_zero; [by apply word_u64 |]. intros k Hk.
    destruct (Z.testbit (word b o w) k) eqn:E; [| done].
    assert (bit b o (Z.of_nat w * 64 + k) = true) as Hb.
    { apply bit_place. exists w, k. repeat split; try done; lia. }
    apply Hle in Hb. rewrite Z.div_add_l, (Z.div_small k) in Hb by lia. lia. }
  destruct (run_scan_words start (words_in (pages b) o - start) ltac:(lia)) as (r & -> & Hr).
  exists r. split; [done |]. destruct r as [[w v] |].
  - destruct Hr as (Hw & Hv & Hne & Hz). repeat split; try done; [lia |].
    intros w' Hw'. destruct (decide (w' < start)%nat); [auto | apply Hz; lia].
  - intros w' Hw'. destruct (decide (w' < start)%nat); [auto | apply Hr; lia].
Qed.

(** The word a scan found holds the lowest free block. *)
Lemma found_lowest w :
  (w < words_in (pages b) o)%nat -> word b o w <> 0 -> (forall w', (w' < w)%nat -> word b o w' = 0) ->
  let i := Z.of_nat w * 64 + trailing_zeros (word b o w) in
  i < blocks_at o b /\ lowest (Some i) /\ forall j, bit b o j = true -> Z.of_nat w <= j / 64.
Proof using Hs Ho.
  intros Hw Hne Hz i. destruct (trailing_zeros_spec (word b o w)) as (Ht & Hb & Hlow);
    [by apply word_u64, sound_geo | done |].
  assert (bit b o i = true) as Hi by (apply bit_place; exists w, (trailing_zeros (word b o w)); done).
  assert (forall j, bit b o j = true -> i <= j /\ Z.of_nat w <= j / 64) as Hmin.
  { intros j (w' & k & Hw' & Hk & -> & Hb')%bit_place. rewrite Z.div_add_l, (Z.div_small k) by lia.
    destruct (lt_eq_lt_dec w' w) as [[Hlt | ->] | Hgt]; [| | unfold i; lia].
    - rewrite Hz, Z.bits_0 in Hb' by done. done.
    - destruct (Z.ltb_spec k (trailing_zeros (word b o w))); [| unfold i; lia].
      rewrite Hlow in Hb' by lia. done. }
  pose proof (bit_range b o i Hi) as [_ ?]. repeat split; try done; [lia | |]; intros j Hj; by apply Hmin.
Qed.

Lemma none_lowest : (forall w, (w < words_in (pages b) o)%nat -> word b o w = 0) -> lowest None.
Proof using Hs Ho.
  intros Hz j. destruct (bit b o j) eqn:E; [| done]. apply bit_place in E as (w & k & Hw & _ & _ & Hb).
  by rewrite Hz, Z.bits_0 in Hb.
Qed.

(** A count of zero is an empty order. *)
Lemma count_zero_lowest : count (bit b o) (seqZ 0 (blocks_at o b)) = 0 -> lowest None.
Proof using Ho.
  intros H0 j. destruct (bit b o j) eqn:E; [| done]. pose proof (bit_range b o j E) as [_ ?].
  pose proof (count_pos (bit b o) (seqZ 0 (blocks_at o b)) (Z.to_nat j) j) as Hp.
  rewrite lookup_seqZ in Hp. specialize (Hp ltac:(lia) E). lia.
Qed.

Lemma run_peek_first_free : exists r, peek_first_free o b = Some (r, b) /\ lowest r.
Proof using Hs Ho.
  unfold peek_first_free. rewrite (run_bind _ _ b b b) by done.
  rewrite (run_bind (assert_some _) _ b (count (bit b o) (seqZ 0 (blocks_at o b))) b)
    by (unfold assert_some; by rewrite (sound_counts b Hs o Ho)).
  destruct (Z.eqb_spec (count (bit b o) (seqZ 0 (blocks_at o b))) 0) as [H0 | H0].
  { eexists. split; [done |]. by apply count_zero_lowest. }
  destruct run_scan as (r & Hr & Hspec). rewrite (run_bind _ _ _ _ _ Hr). destruct r as [[w v] |].
  - destruct Hspec as (Hw & -> & Hne & Hz). destruct (found_lowest w Hw Hne Hz) as (Hlt & Hlow & _).
    unfold found_index. rewrite (run_bind _ _ b b b) by done. apply Z.ltb_lt in Hlt. unfold mret, M_ret.
    rewrite Hlt. eauto.
  - exists None. split; [done |]. by apply none_lowest.
Qed.

(** Moving the hint of an order up to a word below which nothing is free. *)
Lemma raise_hint_sound w :
  0 <= w -> (forall j, bit b o j = true -> w <= j / 64) ->
  let b' := set_hint (<[o := w]> (hint b)) b in
  raise_hint o w b = Some (tt, b') /\ sound b'.
Proof using Hs Ho.
  intros Hw Hle b'. destruct (sound_hint b Hs o Ho) as (h & Hh & _). split.
  - unfold raise_hint, mbind, M_bind, gets, assert_some, modify, id. by rewrite Hh.
  - destruct Hs as [Hgeo Hstray Hcounts Hhint]. constructor; simpl; try done.
    + destruct Hgeo. by constructor.
    + intros o' Ho'. destruct (decide (o' = o)) as [-> | Hne].
      * exists w. rewrite list_lookup_insert_eq by (apply lookup_lt_is_Some; eauto). done.
      * rewrite list_lookup_insert_ne by done. by apply Hhint.
Qed.

End scans.

Lemma wp_first_free b o (Q : option Z -> Buddy -> Prop) :
  sound b -> (o <= MAX_ORDER)%nat ->
  (forall r b', sound b' -> framed b b' -> (forall o' i, bit b' o' i = bit b o' i) -> lowest b o r -> Q r b') ->
  wp (first_free o) Q b.
Proof.
  intros Hs Ho HQ. unfold first_free. wp_steps.
  eapply wp_assert_some; [by apply sound_counts |].
  destruct (Z.eqb_spec (count (bit (id b) o) (seqZ 0 (blocks_at o (id b)))) 0) as [H0 | H0].
  { wp_step. apply HQ; try done. by apply count_zero_lowest. }
  wp_step. destruct (run_scan b Hs o Ho) as (r & Hr & Hspec). eapply run_wp; [exact Hr |].
  destruct r as [[w v] |].
  - destruct Hspec as (Hw & -> & Hne & Hz). destruct (found_lowest b Hs o Ho w Hw Hne Hz) as (Hlt & Hlow & Hmin).
    destruct (raise_hint_sound b Hs o Ho (Z.of_nat w) ltac:(lia) Hmin) as [Hrun Hs'].
    wp_step. eapply run_wp; [exact Hrun |]. unfold found_index. wp_steps. unfold id.
    change (blocks_at o _) with (blocks_at o b). rewrite (proj2 (Z.ltb_lt _ _) Hlt). by apply HQ.
  - pose proof (none_lowest b Hs o Ho Hspec) as Hnone.
    wp_step. eapply wp_assert_some; [apply words_at; [by apply sound_geo | done] |].
    destruct (raise_hint_sound b Hs o Ho (Z.of_nat (words_in (pages b) o)) ltac:(lia)) as [Hrun Hs'].
    { intros j Hj. by rewrite Hnone in Hj. }
    wp_step. eapply run_wp; [exact Hrun |]. wp_step. by apply HQ.
Qed.
