(* ===== verification/BuddyBlocks.v ===== *)
(** Sets of free blocks, apart from the bitmaps that store them: which pages they
    cover, when no page is covered twice and no two buddies are left unmerged, and
    what taking, adding, splitting and merging a block does to the covered pages. *)

From S2P Require Import Prelude Buddy BuddyBits BuddyScan.

Lemma block_pages_pos o : 0 < block_pages o.
Proof. unfold block_pages. apply Z.pow_pos_nonneg; lia. Qed.

Lemma block_pages_S o : block_pages (S o) = 2 * block_pages o.
Proof. unfold block_pages. rewrite Nat2Z.inj_succ, Z.pow_succ_r; lia. Qed.

Lemma block_pages_add o n : block_pages (o + n) = block_pages o * block_pages n.
Proof. unfold block_pages. rewrite Nat2Z.inj_add, Z.pow_add_r; lia. Qed.

#[global] Opaque block_pages.

(** The block of order [o] a page is in. *)
Definition block_of (o : nat) (p : Z) : Z := p / block_pages o.

Lemma block_of_spec o p i :
  block_of o p = i <-> i * block_pages o <= p < (i + 1) * block_pages o.
Proof.
  unfold block_of. pose proof (block_pages_pos o). pose proof (Z.div_mod p (block_pages o)).
  pose proof (Z.mod_pos_bound p (block_pages o)). split; [intros <-; lia |].
  intros Hp. symmetry. apply (Z.div_unique p _ i (p - i * block_pages o)); lia.
Qed.

Lemma block_of_add o n p : block_of (o + n) p = block_of o p / block_pages n.
Proof.
  unfold block_of. rewrite block_pages_add. pose proof (block_pages_pos n).
  pose proof (block_pages_pos o). by rewrite Zdiv_Zdiv by lia.
Qed.

Lemma block_of_S o p : block_of (S o) p = block_of o p / 2.
Proof. rewrite <- Nat.add_1_r, block_of_add. done. Qed.

Lemma block_of_0 p : block_of 0 p = p.
Proof. apply block_of_spec. change (block_pages 0) with 1. lia. Qed.

Lemma block_of_head o i : block_of o (i * block_pages o) = i.
Proof. apply block_of_spec. pose proof (block_pages_pos o). lia. Qed.

Lemma lxor_1 i : Z.lxor i 1 = if Z.even i then i + 1 else i - 1.
Proof.
  rewrite (Z.div_mod i 2) by lia. rewrite Zmod_even. set (k := i / 2).
  assert (forall a, Z.lxor (2 * k + a) 1 = 2 * k + (1 - a) -> a = 0 \/ a = 1 ->
    Z.lxor (2 * k + a) 1 = if Z.even (2 * k + a) then 2 * k + a + 1 else 2 * k + a - 1) as Hcase.
  { intros a -> [-> | ->]; rewrite Z.even_add_mul_2 || idtac.
    - rewrite Z.add_0_r, Z.even_mul. simpl. lia.
    - rewrite Z.even_add, Z.even_mul. simpl. lia. }
  apply Hcase; [| destruct (Z.even i); auto].
  apply Z.bits_inj'. intros n Hn. rewrite Z.lxor_spec.
  destruct (Z.eq_dec n 0) as [-> |].
  - rewrite !Z.bit0_odd, !Z.odd_add, !Z.odd_mul. by destruct (Z.even i).
  - replace n with (Z.succ (Z.pred n)) by lia.
    rewrite <- !(Z.div2_spec), !Z.div2_div || idtac.
    change 1 with (2 * 0 + 1) at 2. rewrite Z.testbit_odd_succ, Z.bits_0, xorb_false_r by lia.
    destruct (Z.even i); simpl (1 - _); rewrite ?Z.add_0_r, ?Z.testbit_odd_succ, ?Z.testbit_even_succ by lia; done.
Qed.

(** The two halves of a block, one order down. *)
Lemma halves i : (i * 2) / 2 = i /\ (i * 2 + 1) / 2 = i.
Proof. split; [apply Z.div_mul | symmetry; apply (Z.div_unique _ 2 i 1)]; lia. Qed.

(** The buddy is the other half of the block one order up. *)
Lemma buddy_half i j : j / 2 = i / 2 <-> j = i \/ j = Z.lxor i 1.
Proof.
  rewrite lxor_1. pose proof (Z.div_mod i 2). pose proof (Z.div_mod j 2).
  pose proof (Zmod_even i). pose proof (Zmod_even j). destruct (Z.even i), (Z.even j); lia.
Qed.

Lemma buddy_parent i : Z.lxor i 1 / 2 = i / 2.
Proof. apply buddy_half. by right. Qed.

Lemma buddy_nonneg i : 0 <= i -> 0 <= Z.lxor i 1.
Proof. intros Hi. apply Z.lxor_nonneg. lia. Qed.

(** ** Covered pages *)

Definition covered (B : nat -> Z -> bool) (p : Z) : bool :=
  existsb (fun o => B o (block_of o p)) orders.

Lemma covered_iff B p :
  covered B p = true <-> exists o, (o <= MAX_ORDER)%nat /\ B o (block_of o p) = true.
Proof. unfold covered. rewrite existsb_iff. by setoid_rewrite elem_of_orders. Qed.

Lemma not_covered B p o :
  covered B p = false -> (o <= MAX_ORDER)%nat -> B o (block_of o p) = false.
Proof.
  unfold covered. rewrite existsb_false. intros Hc Ho. apply (Hc o). by apply elem_of_orders.
Qed.

Lemma covered_ext B B' p : (forall o i, B o i = B' o i) -> covered B p = covered B' p.
Proof. intros HB. apply eq_true_iff_eq. rewrite !covered_iff. by setoid_rewrite HB. Qed.

(** Block [i] of order [o] lies inside an extent of [N] pages. *)
Definition fits (N : Z) (o : nat) (i : Z) : Prop :=
  (o <= MAX_ORDER)%nat /\ 0 <= i /\ (i + 1) * block_pages o <= N.

Record tidy (N : Z) (B : nat -> Z -> bool) : Prop := {
  tidy_fits : forall o i, B o i = true -> fits N o i;
  tidy_once : forall p o1 o2, B o1 (block_of o1 p) = true -> B o2 (block_of o2 p) = true -> o1 = o2;
  tidy_merged : forall o i, (o < MAX_ORDER)%nat -> B o i = true -> B o (Z.lxor i 1) = false;
}.

Lemma tidy_ext N B B' : (forall o i, B o i = B' o i) -> tidy N B' -> tidy N B.
Proof. intros HB [Hf Ho Hm]. constructor; intros *; rewrite !HB; eauto. Qed.

(** A block of the extent no page of which is covered. *)
Definition hole (N : Z) (B : nat -> Z -> bool) (o : nat) (i : Z) : Prop :=
  fits N o i /\ forall p, block_of o p = i -> covered B p = false.

Lemma hole_ext N B B' o i : (forall o i, B o i = B' o i) -> hole N B' o i -> hole N B o i.
Proof. intros HB [Hf Hc]. split; [done |]. intros p Hp. rewrite (covered_ext _ B') by done. auto. Qed.

Lemma fits_blocks N o i : fits N o i -> 0 <= i < blocks_of N o.
Proof.
  intros (Ho & Hi & Hle). unfold blocks_of. rewrite Z.shiftr_div_pow2 by lia.
  change (2 ^ Z.of_nat o) with (block_pages o). pose proof (block_pages_pos o).
  assert (i + 1 <= N / block_pages o) by (apply Z.div_le_lower_bound; lia). lia.
Qed.

Lemma covered_inside N B p : tidy N B -> covered B p = true -> 0 <= p < N.
Proof.
  intros HB (o & Ho & Hb)%covered_iff. apply (tidy_fits _ _ HB) in Hb as (_ & Hi & Hle).
  pose proof (proj1 (block_of_spec o p _) eq_refl). pose proof (block_pages_pos o). nia.
Qed.

Section blocks.
Context (N : Z) (B : nat -> Z -> bool) (HB : tidy N B).

(** *** A block added where nothing is free *)

Lemma covered_put o i p :
  (o <= MAX_ORDER)%nat -> covered (upd B o i true) p = covered B p || (block_of o p =? i).
Proof.
  intros Ho. apply eq_true_iff_eq. rewrite orb_true_iff, Z.eqb_eq, !covered_iff. split.
  - intros (o' & Ho' & Hb). destruct (decide (o' = o /\ block_of o' p = i)) as [[-> ?] | Hne]; [by right |].
    left. exists o'. by rewrite upd_ne in Hb by lia.
  - intros [(o' & Ho' & Hb) | <-].
    + exists o'. split; [done |]. destruct (decide (o' = o /\ block_of o' p = i)) as [[-> <-] | Hne].
      * apply upd_eq.
      * by rewrite upd_ne by lia.
    + exists o. by rewrite upd_eq.
Qed.

Lemma tidy_put o i :
  hole N B o i -> (o = MAX_ORDER \/ B o (Z.lxor i 1) = false) -> tidy N (upd B o i true).
Proof using HB.
  intros [Hfit Hhole] Hbud. pose proof (proj1 Hfit) as Ho.
  assert (forall p o', upd B o i true o' (block_of o' p) = true ->
            (o' = o /\ block_of o p = i) \/ (B o' (block_of o' p) = true /\ block_of o p <> i)) as Hcase.
  { intros p o' Hb. destruct (decide (o' = o /\ block_of o' p = i)) as [[-> ?] | Hne]; [by left |].
    rewrite upd_ne in Hb by lia. right. split; [done |]. intros Hp%Hhole.
    rewrite (not_covered B p o') in Hb; [done | done |]. by apply (tidy_fits _ _ HB) in Hb as [? _]. }
  constructor.
  - intros o' i' Hb. destruct (decide (o' = o /\ i' = i)) as [[-> ->] | Hne]; [done |].
    rewrite upd_ne in Hb by lia. by apply (tidy_fits _ _ HB).
  - intros p o1 o2 [[-> ?] | [? ?]]%Hcase [[-> ?] | [? ?]]%Hcase; try done.
    by apply (tidy_once _ _ HB p).
  - intros o' i' Ho' Hb. pose proof (buddy_half i i') as Hii. pose proof (buddy_parent i').
    pose proof (lxor_1 i') as Hl. destruct (decide (o' = o)) as [-> | Hne].
    + destruct Hbud as [-> | Hbud]; [lia |].
      destruct (Z.eq_dec i' i) as [-> |].
      * rewrite upd_ne; [done |]. right. destruct (Z.even i); lia.
      * rewrite upd_ne in Hb by (by right). destruct (Z.eq_dec (Z.lxor i' 1) i) as [Hi |].
        -- assert (i' = Z.lxor i 1) as ->; [| congruence]. rewrite <- Hi, Z.lxor_assoc. by rewrite Z.lxor_0_r.
        -- rewrite upd_ne by (by right). by apply (tidy_merged _ _ HB).
    + rewrite upd_ne in Hb by (by left). rewrite upd_ne by (by left). by apply (tidy_merged _ _ HB).
Qed.

(** *** A free block taken *)

Lemma covered_del o i p :
  B o i = true -> covered (upd B o i false) p = covered B p && negb (block_of o p =? i).
Proof using HB.
  intros Hoi. apply eq_true_iff_eq. rewrite andb_true_iff, negb_true_iff, Z.eqb_neq, !covered_iff. split.
  - intros (o' & Ho' & Hb). destruct (decide (o' = o /\ block_of o' p = i)) as [[-> Hi] | Hne].
    { subst i. by rewrite upd_eq in Hb. }
    rewrite upd_ne in Hb by lia. split; [by exists o' |]. intros Hp. subst i.
    destruct Hne. by rewrite (tidy_once _ _ HB p o' o).
  - intros [(o' & Ho' & Hb) Hne]. exists o'. split; [done |]. destruct (decide (o' = o)) as [-> |].
    + by rewrite upd_ne by (by right).
    + by rewrite upd_ne by (by left).
Qed.

Lemma upd_false_sub o i o' i' : upd B o i false o' i' = true -> B o' i' = true.
Proof. unfold upd. by destruct (_ && _). Qed.

Lemma tidy_del o i : tidy N (upd B o i false).
Proof using HB.
  constructor.
  - intros o' i' Hb%upd_false_sub. by apply (tidy_fits _ _ HB).
  - intros p o1 o2 H1%upd_false_sub H2%upd_false_sub. by apply (tidy_once _ _ HB p).
  - intros o' i' Ho' Hb%upd_false_sub. apply (tidy_merged _ _ HB) in Hb; [| done].
    apply not_true_iff_false. intros Hc%upd_false_sub. congruence.
Qed.

Lemma hole_del o i : B o i = true -> hole N (upd B o i false) o i.
Proof using HB.
  intros Hoi. split; [by apply (tidy_fits _ _ HB) |]. intros p <-. rewrite covered_del by done.
  rewrite Z.eqb_refl. apply andb_false_r.
Qed.

Lemma covered_free o i p : B o i = true -> block_of o p = i -> covered B p = true.
Proof using HB.
  intros Hb <-. apply covered_iff. exists o. split; [| done]. by apply (tidy_fits _ _ HB) in Hb as [? _].
Qed.

(** *** Splitting and merging *)

(** The two halves of a block. *)
Lemma fits_half o i j : fits N (S o) i -> j / 2 = i -> fits N o j.
Proof.
  intros (Ho & Hi & Hle) Hj. rewrite block_pages_S in Hle. pose proof (Z.div_mod j 2).
  pose proof (Z.mod_pos_bound j 2). pose proof (block_pages_pos o). repeat split; [lia | lia | nia].
Qed.

(** The upper half of a hole made free leaves the lower half a hole. *)
Lemma split_step o i :
  hole N B (S o) i ->
  let B' := upd B o (i * 2 + 1) true in
  tidy N B' /\ hole N B' o (i * 2) /\
  forall p, covered B' p || (block_of o p =? i * 2) = covered B p || (block_of (S o) p =? i).
Proof using HB.
  intros [Hfit Hhole] B'. pose proof (proj1 Hfit) as Ho.
  destruct (halves i) as [Hlo Hhi].
  assert (hole N B o (i * 2 + 1)) as Hup.
  { split; [by eapply fits_half |]. intros p Hp. apply Hhole. by rewrite block_of_S, Hp. }
  assert (Z.lxor (i * 2 + 1) 1 = i * 2) as Hbud.
  { rewrite lxor_1, Z.even_add, Z.even_mul. simpl. rewrite orb_true_r. simpl. lia. }
  assert (forall p, covered B' p = covered B p || (block_of o p =? i * 2 + 1)) as Hcov.
  { intros p. apply covered_put. lia. }
  split; [| split; [split |]].
  - apply tidy_put; [done |]. right. rewrite Hbud, <- (block_of_head o (i * 2)).
    apply not_covered; [| lia]. apply Hhole. by rewrite block_of_S, block_of_head.
  - by eapply fits_half.
  - intros p Hp. rewrite Hcov, Hhole by (by rewrite block_of_S, Hp). simpl. apply Z.eqb_neq. lia.
  - intros p. rewrite Hcov, block_of_S, <- orb_assoc. f_equal. pose proof (Z.div_mod (block_of o p) 2).
    pose proof (Z.mod_pos_bound (block_of o p) 2).
    destruct (Z.eqb_spec (block_of o p) (i * 2 + 1)), (Z.eqb_spec (block_of o p) (i * 2)),
      (Z.eqb_spec (block_of o p / 2) i); simpl; lia.
Qed.

(** A hole whose buddy is free, with the buddy taken, is a hole twice the size. *)
Lemma merge_step o i :
  (o < MAX_ORDER)%nat -> hole N B o i -> B o (Z.lxor i 1) = true ->
  let B' := upd B o (Z.lxor i 1) false in
  tidy N B' /\ hole N B' (S o) (i / 2) /\
  forall p, covered B' p || (block_of (S o) p =? i / 2) = covered B p || (block_of o p =? i).
Proof using HB.
  intros Ho [(_ & Hi & Hle) Hhole] Hbud B'. set (j := Z.lxor i 1) in *.
  assert (forall p, covered B' p = covered B p && negb (block_of o p =? j)) as Hcov by (intros; by apply covered_del).
  pose proof (tidy_fits _ _ HB _ _ Hbud) as (_ & Hj & Hjle).
  split; [by apply tidy_del |]. split; [split |].
  - repeat split; [lia | apply Z.div_pos; lia |]. rewrite block_pages_S. unfold j in *. rewrite lxor_1 in Hjle.
    pose proof (Z.div_mod i 2). pose proof (Zmod_even i). pose proof (block_pages_pos o). destruct (Z.even i); nia.
  - intros p Hp. rewrite block_of_S in Hp. apply buddy_half in Hp as [Hp | Hp].
    + by rewrite Hcov, (Hhole p Hp).
    + rewrite Hcov, Hp, Z.eqb_refl. apply andb_false_r.
  - intros p. rewrite Hcov, block_of_S. pose proof (buddy_half i (block_of o p)) as Hhalf. fold j in Hhalf.
    assert (block_of o p = j -> covered B p = true) by (intros; by apply (covered_free o j)).
    destruct (Z.eqb_spec (block_of o p) j), (Z.eqb_spec (block_of o p) i), (Z.eqb_spec (block_of o p / 2) (i / 2)),
      (covered B p); simpl; try tauto; naive_solver.
Qed.

(** ** Merged sets leave no free block unfound *)

Lemma block_of_up o o' p q :
  (o <= o')%nat -> block_of o p = block_of o q -> block_of o' p = block_of o' q.
Proof. intros Ho Hpq. replace o' with (o + (o' - o))%nat by lia. by rewrite !block_of_add, Hpq. Qed.

(** An aligned block all of whose pages are free lies in one free block. *)
Lemma whole_block o i :
  (o <= MAX_ORDER)%nat -> (forall p, block_of o p = i -> covered B p = true) ->
  exists o', (o <= o' <= MAX_ORDER)%nat /\ forall p, block_of o p = i -> B o' (block_of o' p) = true.
Proof using HB.
  revert i. induction o as [| o IH]; intros i Ho Hall.
  - destruct (proj1 (covered_iff B i) (Hall i (block_of_0 i))) as (o' & Ho' & Hb).
    exists o'. split; [lia |]. intros p Hp. rewrite block_of_0 in Hp. by subst p.
  - destruct (halves i) as [Hlo Hhi].
    destruct (IH (i * 2) ltac:(lia)) as (o1 & Ho1 & H1).
    { intros p Hp. apply Hall. by rewrite block_of_S, Hp. }
    destruct (IH (i * 2 + 1) ltac:(lia)) as (o2 & Ho2 & H2).
    { intros p Hp. apply Hall. by rewrite block_of_S, Hp. }
    specialize (H1 _ (block_of_head o (i * 2))). specialize (H2 _ (block_of_head o (i * 2 + 1))).
    assert (forall o' j, j / 2 = i -> (o < o')%nat -> forall p, block_of (S o) p = i ->
              block_of o' p = block_of o' (j * block_pages o)) as Hup.
    { intros o' j Hj Ho' p Hp. apply (block_of_up (S o)); [lia |]. by rewrite Hp, block_of_S, block_of_head. }
    destruct (decide (o1 = o)) as [-> |].
    + destruct (decide (o2 = o)) as [-> |].
      * exfalso. rewrite block_of_head in H1, H2. apply (tidy_merged _ _ HB) in H1; [| lia].
        rewrite lxor_1, Z.even_mul, orb_true_r in H1. congruence.
      * exists o2. split; [lia |]. intros p Hp. by rewrite (Hup o2 _ Hhi ltac:(lia) p Hp).
    + exists o1. split; [lia |]. intros p Hp. by rewrite (Hup o1 _ Hlo ltac:(lia) p Hp).
Qed.

End blocks.
