(* ===== verification/BuddyOps.v ===== *)
(** What each operation of the frame allocator does to the set of free pages. *)

From S2P Require Import Prelude Buddy BuddyBits BuddyScan BuddyBlocks.

(** ** The invariant *)

(** Whether page [p] of the extent is free. *)
Definition frees (b : Buddy) (p : Z) : bool := covered (bit b) p.

Record buddy_inv (b : Buddy) : Prop := {
  inv_sound : sound b;
  inv_tidy : tidy (pages b) (bit b);
  inv_free : free_pages b = count (frees b) (seqZ 0 (pages b));
}.

(** The extent an allocator frames never changes. *)
Definition same_extent (b b' : Buddy) : Prop := base b' = base b /\ pages b' = pages b.

Lemma same_extent_refl b : same_extent b b.
Proof. done. Qed.

#[export] Hint Resolve same_extent_refl : kernel.

Lemma same_extent_trans a b c : same_extent a b -> same_extent b c -> same_extent a c.
Proof. unfold same_extent. intuition congruence. Qed.

(** The physical address of block [i] of order [o]. *)
Definition address (b : Buddy) (o : nat) (i : Z) : Z := base b + i * block_pages o * PAGE_SIZE.

Lemma sound_set_free_pages b n : sound b -> sound (set_free_pages n b).
Proof. intros [Hgeo Hstray Hcounts Hhint]. constructor; try done. destruct Hgeo. by constructor. Qed.

(** The pages of a block, counted. *)
Lemma count_block (f g : Z -> bool) N o i :
  fits N o i ->
  (forall p, 0 <= p < N -> block_of o p <> i -> g p = f p) ->
  (forall p, block_of o p = i -> f p = false /\ g p = true) ->
  count g (seqZ 0 N) = count f (seqZ 0 N) + block_pages o.
Proof.
  intros (Ho & Hi & Hle) Hout Hin. pose proof (block_pages_pos o).
  rewrite (count_seqZ_range f g N (i * block_pages o) (block_pages o)).
  - rewrite (count_seqZ_none f (i * _)), (count_seqZ_all g (i * _)); [lia | lia | |]; intros x Hx; apply Hin, block_of_spec; lia.
  - nia.
  - lia.
  - lia.
  - intros x Hx Hn. apply Hout; [done |]. rewrite block_of_spec. lia.
Qed.

(** ** The loops *)

(** A hole held aside: with it, the covered pages are still those of [f]. *)
Definition held (b : Buddy) (f : Z -> bool) (o : nat) (i : Z) : Prop :=
  sound b /\ tidy (pages b) (bit b) /\ hole (pages b) (bit b) o i /\
  forall p, frees b p || (block_of o p =? i) = f p.

Lemma held_fits b f o i : held b f o i -> fits (pages b) o i.
Proof. intros (_ & _ & [Hfit _] & _). exact Hfit. Qed.

(** Setting a bit that belongs to the hole held aside. *)
Lemma held_split b b' f o i :
  held b f (S o) i -> flipped o (i * 2 + 1) true b b' -> held b' f o (i * 2).
Proof.
  intros (Hs & Ht & Hh & Hf) (Hs' & (Hb & Hp & _) & Hbit). destruct (split_step _ _ Ht o i Hh) as (Ht' & Hh' & Hu).
  rewrite <- Hp in Ht', Hh'. split; [done |]. split; [by apply (tidy_ext _ _ _ Hbit) |].
  split; [by apply (hole_ext _ _ _ _ _ Hbit) |]. intros p. unfold frees. rewrite (covered_ext _ _ p Hbit), Hu. apply Hf.
Qed.

Lemma wp_split_down n o i f b (Q : Z -> Buddy -> Prop) :
  held b f (o + n) i ->
  (forall i' b', i' = i * block_pages n -> held b' f o i' -> framed b b' -> Q i' b') ->
  wp (split_down n o i) Q b.
Proof.
  revert i b. induction n as [| n IH]; intros i b Hheld HQ; cbn [split_down].
  - wp_step. rewrite Nat.add_0_r in Hheld. apply HQ; [change (block_pages 0) with 1; lia | done | done].
  - rewrite Nat.add_succ_r in Hheld. pose proof (held_fits _ _ _ _ Hheld) as Hfit.
    assert (fits (pages b) (o + n) (i * 2 + 1)) as Hup by (eapply fits_half; [exact Hfit | apply halves]).
    wp_step. eapply wp_set; [apply Hheld | apply Hup | by apply fits_blocks |]. intros b' Hflip.
    pose proof (held_split _ _ _ _ _ Hheld Hflip) as Hheld'.
    apply IH; [done |]. intros i' b2 -> Hh Hfr. apply HQ; [rewrite block_pages_S; lia | done |].
    eapply framed_trans; [apply Hflip | done].
Qed.

(** Clearing the buddy of the hole held aside. *)
Lemma held_merge b b' f o i :
  (o < MAX_ORDER)%nat -> held b f o i -> bit b o (Z.lxor i 1) = true ->
  flipped o (Z.lxor i 1) false b b' -> held b' f (S o) (i / 2).
Proof.
  intros Ho (Hs & Ht & Hh & Hf) Hbud (Hs' & (Hb & Hp & _) & Hbit).
  destruct (merge_step _ _ Ht o i Ho Hh Hbud) as (Ht' & Hh' & Hu).
  rewrite <- Hp in Ht', Hh'. split; [done |]. split; [by apply (tidy_ext _ _ _ Hbit) |].
  split; [by apply (hole_ext _ _ _ _ _ Hbit) |]. intros p. unfold frees. rewrite (covered_ext _ _ p Hbit), Hu. apply Hf.
Qed.

Lemma wp_merge_up fuel o i f b (Q : nat * Z -> Buddy -> Prop) :
  held b f o i -> (o + fuel = MAX_ORDER)%nat ->
  (forall o' i' b', held b' f o' i' -> framed b b' -> (o' = MAX_ORDER \/ bit b' o' (Z.lxor i' 1) = false) ->
                    Q (o', i') b') ->
  wp (merge_up fuel o i) Q b.
Proof.
  revert o i b. induction fuel as [| fuel IH]; intros o i b Hheld Hfuel HQ; cbn [merge_up].
  - wp_step. apply HQ; [done | done | left; lia].
  - pose proof (held_fits _ _ _ _ Hheld) as (Ho & Hi & Hle). pose proof (buddy_nonneg i Hi) as Hj.
    wp_step. eapply run_wp; [apply run_get; [apply Hheld | done | done] |]. wp_steps. unfold id.
    destruct (bit b o (Z.lxor i 1)) eqn:Hbud; simpl; [| by wp_step; apply HQ; auto].
    pose proof Hheld as (Hs & Ht & _). pose proof (tidy_fits _ _ Ht _ _ Hbud) as Hfit.
    destruct (Z.ltb_spec (pages b) (Z.shiftl (Z.land i (Z.lnot 1)) (Z.of_nat o) + 2 * block_pages o)) as [Hend | _].
    { exfalso. destruct Hfit as (_ & _ & Hfit). rewrite Z.shiftl_mul_pow2 in Hend by lia.
      change (2 ^ Z.of_nat o) with (block_pages o) in Hend.
      assert (Z.land i (Z.lnot 1) = i - i mod 2) as Hland.
      { rewrite <- Z.ldiff_land. change 1 with (Z.ones 1). rewrite Z.ldiff_ones_r by lia.
        rewrite Z.shiftr_div_pow2, Z.shiftl_mul_pow2 by lia. change (2 ^ 1) with 2. pose proof (Z.div_mod i 2). lia. }
      rewrite Hland, Zmod_even in Hend. rewrite lxor_1 in Hfit. destruct (Z.even i); lia. }
    wp_step. eapply wp_clear; [done | done | by apply fits_blocks |]. intros b' Hflip.
    pose proof (held_merge b b' f o i ltac:(lia) Hheld Hbud Hflip) as Hheld'.
    rewrite Z.shiftr_div_pow2 by lia. change (2 ^ 1) with 2. apply IH; [done | lia |].
    intros o' i' b2 Hh Hfr Hstop. apply HQ; [done | | done]. eapply framed_trans; [apply Hflip | done].
Qed.

(** ** Taking a block *)

Lemma wp_take_block larger o i b (Q : Z -> Buddy -> Prop) :
  buddy_inv b -> (o <= larger)%nat -> bit b larger i = true ->
  let i' := i * block_pages (larger - o) in
  (forall b', buddy_inv b' -> same_extent b b' -> fits (pages b) o i' ->
     (forall p, block_of o p = i' -> frees b p = true) ->
     (forall p, frees b' p = frees b p && negb (block_of o p =? i')) ->
     Q (address b o i') b') ->
  wp (take_block larger o i) Q b.
Proof.
  intros [Hs Ht Hfree] Ho Hbit i' HQ. unfold take_block. pose proof (tidy_fits _ _ Ht _ _ Hbit) as Hfit.
  wp_step. eapply wp_clear; [done | apply Hfit | by apply fits_blocks |].
  intros b1 (Hs1 & (Hb1 & Hp1 & Hf1) & Hbit1).
  assert (held b1 (frees b) (o + (larger - o)) i) as Hheld.
  { replace (o + (larger - o))%nat with larger by lia.
    pose proof (tidy_del _ _ Ht larger i) as Ht'. pose proof (hole_del _ _ Ht larger i Hbit) as Hh'.
    rewrite <- Hp1 in Ht', Hh'. split; [done |]. split; [by apply (tidy_ext _ _ _ Hbit1) |].
    split; [by apply (hole_ext _ _ _ _ _ Hbit1) |]. intros p. unfold frees.
    rewrite (covered_ext _ _ p Hbit1), (covered_del _ _ Ht) by done.
    pose proof (covered_free _ _ Ht larger i p Hbit).
    destruct (Z.eqb_spec (block_of larger p) i), (covered (bit b) p); simpl; intuition congruence. }
  wp_step. eapply wp_split_down; [exact Hheld |]. intros j b2 -> Hheld2 (Hb2 & Hp2 & Hf2).
  destruct Hheld2 as (Hs2 & Ht2 & [Hfit2 Hhole2] & Hu2). fold i' in Hfit2, Hhole2, Hu2.
  assert (free_pages b = count (frees b2) (seqZ 0 (pages b2)) + block_pages o) as Hcount.
  { rewrite Hfree, <- Hp1, <- Hp2. apply (count_block _ _ _ o i'); [done | |].
    - intros p _ Hp. rewrite <- Hu2. apply Z.eqb_neq in Hp as ->. by rewrite orb_false_r.
    - intros p Hp. split; [by apply Hhole2 |]. rewrite <- Hu2, Hp, Z.eqb_refl. apply orb_true_r. }
  pose proof (count_nonneg (frees b2) (seqZ 0 (pages b2))). unfold take_pages, debug_assert. wp_steps. unfold id.
  rewrite (proj2 (Z.leb_le (block_pages o) (free_pages b2))) by lia. unfold block_address. wp_steps.
  fold i'. unfold id. simpl. rewrite Hb2, Hb1. apply HQ.
  - constructor; [by apply sound_set_free_pages | done |]. change (free_pages b2 - block_pages o = count (frees b2) (seqZ 0 (pages b2))). lia.
  - split; simpl; congruence.
  - congruence.
  - intros p Hp. rewrite <- Hu2, Hp, Z.eqb_refl. apply orb_true_r.
  - intros p. change (frees (set_free_pages _ b2) p) with (frees b2 p). rewrite <- Hu2.
    destruct (Z.eqb_spec (block_of o p) i') as [Hp |]; simpl.
    + rewrite andb_false_r. by apply Hhole2.
    + by rewrite orb_false_r, andb_true_r.
Qed.

(** Searching the orders changes no bit. *)
Definition untouched (b b' : Buddy) : Prop :=
  sound b' /\ framed b b' /\ forall o i, bit b' o i = bit b o i.

Lemma untouched_inv b b' : untouched b b' -> buddy_inv b -> buddy_inv b'.
Proof.
  intros (Hs & (_ & Hp & Hf) & Hbit) [_ Ht Hfree]. constructor; [done | |].
  - rewrite Hp. by apply (tidy_ext _ _ _ Hbit).
  - rewrite Hf, Hp, Hfree. apply count_ext. intros. symmetry. by apply covered_ext.
Qed.

Lemma untouched_frees b b' p : untouched b b' -> frees b' p = frees b p.
Proof. intros (_ & _ & Hbit). by apply covered_ext. Qed.

Lemma untouched_trans a b c : untouched a b -> untouched b c -> untouched a c.
Proof.
  intros (_ & H1 & E1) (Hs & H2 & E2). split; [done |]. split; [by eapply framed_trans |].
  intros. by rewrite E2, E1.
Qed.

Lemma untouched_extent b b' : untouched b b' -> same_extent b b'.
Proof. intros (_ & (? & ? & _) & _). done. Qed.

Lemma wp_find_order os b (Q : option (nat * Z) -> Buddy -> Prop) :
  sound b -> (forall o, o ∈ os -> (o <= MAX_ORDER)%nat) ->
  (forall r b', untouched b b' ->
     match r with
     | Some (o, i) => o ∈ os /\ bit b o i = true
     | None => forall o i, o ∈ os -> bit b o i = false
     end -> Q r b') ->
  wp (find_order os) Q b.
Proof.
  revert b. induction os as [| o os IH]; intros b Hs Hos HQ; cbn [find_order].
  - wp_step. apply HQ; [done |]. intros o i Ho. by apply not_elem_of_nil in Ho.
  - wp_step. eapply wp_first_free; [done | apply Hos; set_solver |]. intros r b1 Hs1 Hf1 Hb1 Hlow.
    assert (untouched b b1) as Hun by done. destruct r as [i |].
    + wp_step. apply HQ; [done |]. split; [set_solver | apply Hlow].
    + apply IH; [done | set_solver |]. intros r b2 Hun2 Hr. apply HQ; [by eapply untouched_trans |].
      destruct r as [[o' i'] |].
      * destruct Hr as [? Hr]. rewrite Hb1 in Hr. split; [set_solver | done].
      * intros o' i' [-> | Ho']%elem_of_cons; [apply Hlow | rewrite <- Hb1; by apply Hr].
Qed.

(** No aligned block of an order is free as a whole. *)
Definition exhausted (b : Buddy) (o : nat) : Prop :=
  forall i, fits (pages b) o i -> exists p, block_of o p = i /\ frees b p = false.

Lemma none_exhausted b o :
  buddy_inv b -> (o <= MAX_ORDER)%nat -> (forall o' i, (o <= o' <= MAX_ORDER)%nat -> bit b o' i = false) -> exhausted b o.
Proof.
  intros [_ Ht _] Ho Hnone i Hfit.
  destruct (forallb (frees b) (seqZ (i * block_pages o) (block_pages o))) eqn:E.
  - exfalso. destruct (whole_block _ _ Ht o i Ho) as (o' & Ho' & Hb).
    + intros p Hp. apply forallb_forall with (x := p) in E; [done |].
      apply list_elem_of_In, elem_of_seqZ. apply block_of_spec in Hp. lia.
    + specialize (Hb _ (block_of_head o i)). by rewrite Hnone in Hb.
  - apply not_true_iff_false in E. rewrite forallb_forall in E.
    destruct (existsb (fun p => negb (frees b p)) (seqZ (i * block_pages o) (block_pages o))) eqn:E2.
    + apply existsb_iff in E2 as (p & Hp%elem_of_seqZ & Hn%negb_true_iff). exists p. split; [apply block_of_spec; lia | done].
    + destruct E. intros p Hp%list_elem_of_In. rewrite existsb_false in E2. by apply negb_false_iff, E2.
Qed.

(** What an allocation of one block promises. *)
Definition block_taken (b b' : Buddy) (o : nat) (i : Z) : Prop :=
  fits (pages b) o i /\ (forall p, block_of o p = i -> frees b p = true) /\
  forall p, frees b' p = frees b p && negb (block_of o p =? i).

Lemma wp_alloc o b (Q : option Z -> Buddy -> Prop) :
  buddy_inv b ->
  (forall r b', buddy_inv b' -> same_extent b b' ->
     match r with
     | Some phys => exists i, phys = address b o i /\ block_taken b b' o i
     | None => (forall p, frees b' p = frees b p) /\ ((o <= MAX_ORDER)%nat -> exhausted b o)
     end -> Q r b') ->
  wp (alloc o) Q b.
Proof.
  intros Hinv HQ. unfold alloc. destruct (Nat.ltb_spec MAX_ORDER o).
  { wp_step. apply HQ; [done | done |]. split; [done | lia]. }
  wp_step. apply wp_find_order; [apply Hinv | intros o' Ho'%elem_of_seq; lia |].
  intros r b1 Hun Hr. pose proof (untouched_inv _ _ Hun Hinv) as Hinv1. destruct r as [[larger i] |].
  - destruct Hr as [Hl%elem_of_seq Hbit]. destruct Hun as (Hs1 & (Hb1 & Hp1 & Hf1) & Hbits).
    wp_step. apply wp_take_block; [done | lia | by rewrite Hbits |].
    intros b' Hinv' Hext Hfit Hwas Hnow. wp_step. apply HQ; [done | by eapply same_extent_trans |].
    exists (i * block_pages (larger - o)). unfold address. rewrite Hb1. split; [done |].
    assert (forall p, frees b1 p = frees b p) as Hfr by (intros; by apply covered_ext).
    split; [by rewrite <- Hp1 |]. split; [intros p Hp; rewrite <- Hfr; by apply Hwas | intros p; by rewrite <- Hfr].
  - wp_step. apply HQ; [done | by apply untouched_extent |]. split; [intros; by apply untouched_frees |].
    intros _. apply none_exhausted; [done | done |]. intros o' i Ho'. apply Hr, elem_of_seq. lia.
Qed.
