(* ===== verification/BuddySpan.v ===== *)
(** Giving blocks and spans back to the frame allocator, and the contiguous
    allocations built on both, and the questions that change nothing. *)

From S2P Require Import Prelude Buddy BuddyBits BuddyScan BuddyBlocks BuddyOps.

(** ** The double-free test *)

Lemma shiftr_block_of o p : Z.shiftr p (Z.of_nat o) = block_of o p.
Proof. by rewrite Z.shiftr_div_pow2 by lia. Qed.

(** The first smaller block of a block. *)
Lemma block_of_first o o' i :
  (o' <= o)%nat -> block_of o' (i * block_pages o) = i * block_pages (o - o').
Proof.
  intros Ho. replace (block_pages o) with (block_pages (o - o') * block_pages o').
  - by rewrite Z.mul_assoc, block_of_head.
  - rewrite Z.mul_comm, <- block_pages_add. f_equal. lia.
Qed.

Lemma run_block_touches_free b o i :
  sound b -> (o <= MAX_ORDER)%nat -> 0 <= i ->
  exists r, block_touches_free (i * block_pages o) o b = Some (r, b) /\
    (r = true <-> exists p, block_of o p = i /\ frees b p = true).
Proof.
  intros Hs Ho Hi. unfold block_touches_free. set (page := i * block_pages o).
  assert (0 <= page) by (pose proof (block_pages_pos o); nia).
  assert (forall o', 0 <= block_of o' page) as Hnn.
  { intros o'. apply Z.div_pos; [lia | apply block_pages_pos]. }
  pose proof (run_any_of (fun o' => get o' (Z.shiftr page (Z.of_nat o'))) (fun o' => bit b o' (block_of o' page))
                (seq o (S MAX_ORDER - o)) b) as Hany.
  rewrite (run_bind _ _ _ _ _ (Hany ltac:(
    intros o' Ho'%elem_of_seq; cbv beta; rewrite shiftr_block_of; apply run_get; [done | lia | apply Hnn]))).
  destruct (existsb _ (seq o _)) eqn:Hup.
  - exists true. split; [done |]. split; [| done]. intros _.
    apply existsb_iff in Hup as (o' & Ho'%elem_of_seq & Hb). exists page.
    split; [apply block_of_head |]. apply covered_iff. exists o'. split; [lia | done].
  - rewrite existsb_false in Hup.
    rewrite (run_any_of _ (fun o' => existsb (bit b o') (seqZ (block_of o' page) (block_pages (o - o'))))).
    2:{ intros o' Ho'%elem_of_seq. cbv beta. rewrite shiftr_block_of. apply run_any_bit_in_range; [done | lia | apply Hnn]. }
    eexists. split; [done |]. rewrite existsb_iff. split.
    + intros (o' & Ho'%elem_of_seq & (j & Hj%elem_of_seqZ & Hb)%existsb_iff).
      exists (j * block_pages o'). split; [| apply covered_iff; exists o'; rewrite block_of_head; split; [lia | done]].
      replace o with (o' + (o - o'))%nat at 1 by lia. rewrite block_of_add, block_of_head.
      symmetry. apply (Z.div_unique_pos _ _ _ (j - block_of o' page)); [lia |].
      unfold page. rewrite block_of_first by lia. lia.
    + intros (p & Hp & (o' & Ho' & Hb)%covered_iff).
      destruct (decide (o <= o')%nat) as [Hle | Hgt].
      * exfalso. rewrite (block_of_up o o' p page) in Hb; [| done | unfold page; by rewrite Hp, block_of_head].
        rewrite (Hup o') in Hb; [done | apply elem_of_seq; lia].
      * exists o'. split; [apply elem_of_seq; lia |]. apply existsb_iff. exists (block_of o' p). split; [| done].
        apply elem_of_seqZ. replace o with (o' + (o - o'))%nat in Hp at 1 by lia. rewrite block_of_add in Hp.
        unfold page. rewrite block_of_first by lia.
        pose proof (block_pages_pos (o - o')). pose proof (Z.div_mod (block_of o' p) (block_pages (o - o'))).
        pose proof (Z.mod_pos_bound (block_of o' p) (block_pages (o - o'))). nia.
Qed.

(** ** One block *)

(** A block that may come back: it is one, and none of it is free. *)
Definition returnable (b : Buddy) (phys : Z) (o : nat) (i : Z) : Prop :=
  phys = address b o i /\ hole (pages b) (bit b) o i.

Lemma mod_block page o : page mod block_pages o = 0 -> page = block_of o page * block_pages o.
Proof. intros Hm. unfold block_of. pose proof (block_pages_pos o). pose proof (Z.div_mod page (block_pages o)). lia. Qed.

Lemma address_page b o i : (address b o i - base b) / PAGE_SIZE = i * block_pages o.
Proof.
  unfold address. replace (_ - _) with (i * block_pages o * PAGE_SIZE) by lia. by apply Z.div_mul.
Qed.

Lemma address_aligned b o i : (address b o i - base b) mod PAGE_SIZE = 0.
Proof.
  unfold address. replace (_ - _) with (i * block_pages o * PAGE_SIZE) by lia. by apply Z.mod_mul.
Qed.

Lemma address_inj b o i j : address b o i = address b o j -> i = j.
Proof. unfold address, PAGE_SIZE. pose proof (block_pages_pos o). intros. nia. Qed.

(** The checks of [free] before the double-free test accept exactly the blocks of
    the extent. *)
Lemma free_checks b phys o :
  buddy_inv b ->
  let page := (phys - base b) / PAGE_SIZE in
  (MAX_ORDER <? o)%nat || (phys <? base b) = false /\ negb ((phys - base b) mod PAGE_SIZE =? 0) = false /\
  negb (page mod block_pages o =? 0) || (pages b <=? page) = false /\ (pages b <? page + block_pages o) = false
  <-> exists i, phys = address b o i /\ fits (pages b) o i.
Proof.
  intros Hinv page. pose proof (block_pages_pos o). unfold PAGE_SIZE in *. split.
  - rewrite !orb_false_iff, !negb_false_iff, Z.eqb_eq, Z.eqb_eq, Nat.ltb_ge, !Z.ltb_ge, Z.leb_gt.
    intros ([Ho Hb] & Ha & [Hm Hp] & He). exists (block_of o page). pose proof (mod_block page o Hm).
    pose proof (Z.div_mod (phys - base b) 4096). assert (0 <= page) by (apply Z.div_pos; lia).
    split; [unfold address; fold page in H1; change PAGE_SIZE with 4096; lia |].
    repeat split; [done | apply Z.div_pos; lia | lia].
  - intros (i & -> & Ho & Hi & Hle). unfold page. change 4096 with PAGE_SIZE. rewrite address_page, address_aligned, Z.mod_mul by lia.
    simpl. rewrite orb_false_iff, Nat.ltb_ge, !Z.ltb_ge, Z.leb_gt. unfold address, PAGE_SIZE. repeat split; nia.
Qed.

Lemma wp_free_block b phys o i (Q : bool -> Buddy -> Prop) :
  buddy_inv b -> returnable b phys o i ->
  (forall b', buddy_inv b' -> same_extent b b' -> free_pages b' = free_pages b + block_pages o ->
     (forall p, frees b' p = frees b p || (block_of o p =? i)) -> Q true b') ->
  wp ('(at_, index) ← merge_up (MAX_ORDER - o) o i;
      set at_ index ;;
      modify (fun b => set_free_pages (free_pages b + block_pages o) b) ;;
      mret true) Q b.
Proof.
  intros [Hs Ht Hfree] [_ Hhole] HQ.
  pose proof (proj1 (proj1 Hhole)) as Ho. wp_step.
  apply (wp_merge_up _ o i (fun p => frees b p || (block_of o p =? i))); [done | lia |].
  intros o' i' b1 Hheld (Hb1 & Hp1 & Hf1) Hstop. pose proof (held_fits _ _ _ _ Hheld) as Hfit'.
  pose proof Hheld as (Hs1 & Ht1 & Hhole1 & Hu1).
  wp_step. eapply wp_set; [done | apply Hfit' | by apply fits_blocks |]. intros b2 (Hs2 & (Hb2 & Hp2 & Hf2) & Hbit2).
  assert (forall p, frees b2 p = frees b p || (block_of o p =? i)) as Hfr.
  { intros p. unfold frees at 1. rewrite (covered_ext _ _ p Hbit2), covered_put by apply Hfit'. apply Hu1. }
  wp_steps. apply HQ; simpl.
  - constructor; [by apply sound_set_free_pages | |].
    + simpl. rewrite Hp2. apply (tidy_ext _ _ _ Hbit2). by apply tidy_put.
    + simpl. rewrite Hf2, Hf1, Hfree, Hp2, Hp1. symmetry.
      apply (count_block _ _ _ o i); [apply Hhole | |].
      * intros p _ Hp. change (frees (set_free_pages _ b2) p) with (frees b2 p). rewrite Hfr.
        apply Z.eqb_neq in Hp as ->. apply orb_false_r.
      * intros p Hp. split; [by apply Hhole |]. change (frees (set_free_pages _ b2) p) with (frees b2 p).
        rewrite Hfr, Hp, Z.eqb_refl. apply orb_true_r.
  - split; simpl; congruence.
  - congruence.
  - exact Hfr.
Qed.

Lemma wp_free b phys o (Q : bool -> Buddy -> Prop) :
  buddy_inv b ->
  (forall i b', returnable b phys o i -> buddy_inv b' -> same_extent b b' ->
     free_pages b' = free_pages b + block_pages o ->
     (forall p, frees b' p = frees b p || (block_of o p =? i)) -> Q true b') ->
  ((forall i, ~ returnable b phys o i) -> Q false b) ->
  wp (free phys o) Q b.
Proof.
  intros Hinv HQ HR. pose proof (free_checks b phys o Hinv) as Hchecks. cbv zeta in Hchecks.
  unfold free, free_inner. wp_steps. unfold id.
  assert ((~ exists i, phys = address b o i /\ fits (pages b) o i) -> Q false b) as Hno.
  { intros Hn. apply HR. intros i [-> [Hfit _]]. eauto. }
  destruct ((MAX_ORDER <? o)%nat || (phys <? base b)).
  { wp_step. apply Hno. rewrite <- Hchecks. by intros (? & ? & ? & ?). }
  destruct (negb ((phys - base b) mod PAGE_SIZE =? 0)).
  { wp_step. apply Hno. rewrite <- Hchecks. by intros (? & ? & ? & ?). }
  destruct (negb (_ =? 0) || (_ <=? _)).
  { wp_step. apply Hno. rewrite <- Hchecks. by intros (? & ? & ? & ?). }
  destruct (pages b <? _).
  { wp_step. apply Hno. rewrite <- Hchecks. by intros (? & ? & ? & ?). }
  destruct (proj1 Hchecks ltac:(done)) as (i & -> & Hfit). rewrite address_page, shiftr_block_of, block_of_head.
  destruct (run_block_touches_free b o i) as (r & Hr & Hspec); [apply Hinv | apply Hfit | apply Hfit |].
  wp_step. eapply run_wp; [exact Hr |]. destruct r.
  - wp_step. apply HR. intros j [Hj [_ Hhole]].
    apply address_inj in Hj as <-.
    destruct (proj1 Hspec eq_refl) as (p & Hp & Hfr). unfold frees in Hfr. by rewrite (Hhole p Hp) in Hfr.
  - assert (returnable b (address b o i) o i) as Hret.
    { split; [done |]. split; [done |]. intros p Hp. apply not_true_iff_false. intros Hc.
      assert (false = true) by (apply Hspec; eauto). done. }
    apply (wp_free_block b (address b o i) o i); [done | done |]. intros. by eapply HQ.
Qed.

(** ** Spans *)

(** The span [[a, a + n)] made free on top of what already was. *)
Definition spanned (b b' : Buddy) (a n r : Z) : Prop :=
  buddy_inv b' /\ same_extent b b' /\ r = free_pages b' - free_pages b /\
  forall p, frees b' p = frees b p || ((a <=? p) && (p <? a + n)).

Lemma spanned_app a b c s m n r1 r2 :
  0 <= m -> 0 <= n -> spanned a b s m r1 -> spanned b c (s + m) n r2 -> spanned a c s (m + n) (r1 + r2).
Proof.
  intros Hm Hn (_ & He1 & -> & Hf1) (Hi & He2 & -> & Hf2). split; [done |].
  split; [by eapply same_extent_trans |]. split; [lia |]. intros p. rewrite Hf2, Hf1, <- orb_assoc. f_equal.
  destruct (Z.leb_spec s p), (Z.ltb_spec p (s + m)), (Z.leb_spec (s + m) p), (Z.ltb_spec p (s + m + n)),
    (Z.ltb_spec p (s + (m + n))); simpl; lia.
Qed.

Lemma in_block_span o i p :
  (block_of o p =? i) = (i * block_pages o <=? p) && (p <? i * block_pages o + block_pages o).
Proof.
  apply eq_true_iff_eq. rewrite Z.eqb_eq, block_of_spec, andb_true_iff, Z.leb_le, Z.ltb_lt. lia.
Qed.

Lemma address_second b o i :
  address b (S o) i + block_pages o * PAGE_SIZE = address b o (i * 2 + 1).
Proof. unfold address. rewrite block_pages_S. lia. Qed.

Lemma wp_free_block_or_split o b i (Q : Z -> Buddy -> Prop) :
  buddy_inv b -> fits (pages b) o i ->
  (forall r b', spanned b b' (i * block_pages o) (block_pages o) r -> Q r b') ->
  wp (free_block_or_split o (address b o i)) Q b.
Proof.
  revert b i Q. induction o as [| o IH]; intros b i Q Hinv Hfit HQ; cbn [free_block_or_split]; wp_step;
    (apply wp_free; [done | |]).
  1,3: intros j b' [Hj _] Hinv' Hext Hfp Hfr; wp_step; apply HQ;
    apply address_inj in Hj as <-;
    (split; [done |]); (split; [done |]); (split; [lia |]); intros p; by rewrite Hfr, in_block_span.
  - intros Hno. wp_step. apply HQ. split; [done |]. split; [done |]. split; [lia |]. intros p.
    rewrite <- in_block_span, block_of_0. destruct (Z.eqb_spec p i) as [-> |]; [| by rewrite orb_false_r].
    rewrite orb_true_r. apply not_false_iff_true. intros Hc. apply (Hno i). split; [done |].
    split; [done |]. intros p Hp. rewrite block_of_0 in Hp. by subst p.
  - intros _. destruct (halves i) as [Hlo Hhi].
    pose proof (fits_half _ o i (i * 2) Hfit Hlo) as Hfit1. pose proof (fits_half _ o i (i * 2 + 1) Hfit Hhi) as Hfit2.
    replace (address b (S o) i) with (address b o (i * 2)) at 1 by (unfold address; rewrite block_pages_S; lia).
    wp_step. apply IH; [done | done |]. intros r1 b1 H1. rewrite address_second.
    pose proof H1 as (Hinv1 & [Hb1 Hp1] & _).
    replace (address b o (i * 2 + 1)) with (address b1 o (i * 2 + 1)) by (unfold address; congruence).
    wp_step. apply IH; [done | by rewrite Hp1 |]. intros r2 b2 H2. wp_step. apply HQ.
    pose proof (block_pages_pos o). rewrite block_pages_S.
    replace (i * (2 * block_pages o)) with (i * 2 * block_pages o) by lia.
    replace (2 * block_pages o) with (block_pages o + block_pages o) by lia.
    eapply spanned_app; [lia | lia | exact H1 |].
    by replace (i * 2 * block_pages o + block_pages o) with ((i * 2 + 1) * block_pages o) by lia.
Qed.

(** A page whose low bits are clear heads a block. *)
Lemma trailing_zeros_block page o :
  0 < page <= U64_MAX -> (o <= Z.to_nat (trailing_zeros page))%nat -> page mod block_pages o = 0.
Proof.
  intros Hp Ho. destruct (trailing_zeros_spec page) as (Ht & _ & Hlow); [unfold u64_range; lia | lia |].
  change (block_pages o) with (2 ^ Z.of_nat o). apply Z.bits_inj'. intros n Hn. rewrite Z.bits_0.
  destruct (Z.ltb_spec n (Z.of_nat o)).
  - rewrite Z.mod_pow2_bits_low by lia. apply Hlow. lia.
  - apply Z.mod_pow2_bits_high. lia.
Qed.

Lemma log2_block o n : 0 < n -> (o <= Z.to_nat (Z.log2 n))%nat -> block_pages o <= n.
Proof.
  intros Hn Ho. pose proof (Z.log2_spec n Hn). pose proof (Z.log2_nonneg n).
  change (block_pages o) with (2 ^ Z.of_nat o). transitivity (2 ^ Z.log2 n); [apply Z.pow_le_mono_r; lia | lia].
Qed.

(** The largest aligned block at a page that what is left of the span has room for. *)
Lemma span_order page left :
  0 <= page <= U64_MAX -> 0 < left ->
  let o := Nat.min (if page =? 0 then MAX_ORDER else Nat.min (Z.to_nat (trailing_zeros page)) MAX_ORDER)
             (Nat.min (Z.to_nat (Z.log2 left)) MAX_ORDER) in
  (o <= MAX_ORDER)%nat /\ page = block_of o page * block_pages o /\ block_pages o <= left.
Proof.
  intros Hp Hl o. assert (o <= MAX_ORDER)%nat by (unfold o; destruct (page =? 0); lia).
  split; [done |]. split.
  - apply mod_block. destruct (Z.eqb_spec page 0) as [-> |]; [apply Z.mod_0_l; pose proof (block_pages_pos o); lia |].
    apply trailing_zeros_block; lia.
  - apply log2_block; lia.
Qed.

Lemma pages_u64 b : buddy_inv b -> pages b <= U64_MAX.
Proof. intros [[Hgeo _ _ _] _ _]. destruct Hgeo as [[? ?] ? He _ _ _ _]. unfold PAGE_SIZE in *. lia. Qed.

Lemma wp_free_span_loop fuel b page left acc (Q : Z -> Buddy -> Prop) :
  buddy_inv b -> 0 <= page -> 0 <= left -> page + left <= pages b -> left <= Z.of_nat fuel ->
  (forall r b', spanned b b' page left r -> Q (acc + r) b') ->
  wp (free_span_loop fuel (base b + page * PAGE_SIZE) left acc) Q b.
Proof.
  revert b page left acc. induction fuel as [| fuel IH]; intros b page left acc Hinv Hp Hl He Hf HQ;
    cbn [free_span_loop];
    (destruct (Z.eq_dec left 0) as [-> | Hne]; [| try lia]).
  1,2: rewrite ?Z.eqb_refl; wp_step; replace acc with (acc + 0) by lia; apply HQ;
    (split; [done |]); (split; [done |]); (split; [lia |]); intros p;
    destruct (Z.leb_spec page p), (Z.ltb_spec p (page + 0)); simpl; try lia; by rewrite orb_false_r.
  rewrite (proj2 (Z.eqb_neq left 0)) by done. wp_steps. unfold id.
  replace ((base b + page * PAGE_SIZE - base b) / PAGE_SIZE) with page.
  2:{ replace (base b + page * PAGE_SIZE - base b) with (page * PAGE_SIZE) by lia. by rewrite Z.div_mul. }
  pose proof (pages_u64 b Hinv). destruct (span_order page left ltac:(lia) ltac:(lia)) as (Ho & Hblk & Hle).
  set (o := Nat.min _ _) in *. set (i := block_of o page) in *. pose proof (block_pages_pos o).
  assert (fits (pages b) o i) as Hfit by (repeat split; [done | unfold i, block_of; apply Z.div_pos; lia | lia]).
  replace (base b + page * PAGE_SIZE) with (address b o i) at 1 by (unfold address; rewrite <- Hblk; done).
  apply wp_free_block_or_split; [done | done |]. rewrite <- Hblk. intros r b1 H1.
  pose proof H1 as (Hinv1 & [Hb1 Hp1] & _).
  replace (base b + page * PAGE_SIZE + block_pages o * PAGE_SIZE)
    with (base b1 + (page + block_pages o) * PAGE_SIZE) by (rewrite Hb1; lia).
  apply IH; [done | lia | lia | lia | lia |]. intros r2 b2 H2. rewrite <- Z.add_assoc. apply HQ.
  replace left with (block_pages o + (left - block_pages o)) by lia. by eapply spanned_app; [lia | lia | |].
Qed.

(** The part of a span an extent has room for. *)
Definition clamped (b : Buddy) (phys n a m : Z) : Prop :=
  phys = base b + a * PAGE_SIZE /\ 0 <= a < pages b /\ m = Z.min n (pages b - a).

Lemma clamped_checks b phys n :
  let first := (phys - base b) / PAGE_SIZE in
  (phys <? base b) || negb ((phys - base b) mod PAGE_SIZE =? 0) = false /\ (pages b <=? first) = false ->
  clamped b phys n first (Z.min n (pages b - first)).
Proof.
  intros first. rewrite orb_false_iff, negb_false_iff, Z.eqb_eq, Z.ltb_ge, Z.leb_gt.
  intros [[Hb Ha] Hp]. unfold PAGE_SIZE in *. pose proof (Z.div_mod (phys - base b) 4096).
  assert (0 <= first) by (apply Z.div_pos; unfold PAGE_SIZE; lia). unfold first, PAGE_SIZE in *.
  repeat split; unfold PAGE_SIZE; lia.
Qed.

Lemma wp_free_span b phys n (Q : Z -> Buddy -> Prop) :
  buddy_inv b -> 0 <= n ->
  (forall a m r b', clamped b phys n a m -> spanned b b' a m r -> Q r b') ->
  ((forall a m, ~ clamped b phys n a m) -> Q 0 b) ->
  wp (free_span phys n) Q b.
Proof.
  intros Hinv Hn HQ HR. unfold free_span. wp_steps. unfold id. pose proof (clamped_checks b phys n) as Hc. cbv zeta in Hc.
  destruct (_ || _) eqn:E1.
  { wp_step. apply HR. intros a m (-> & Ha & _). apply orb_true_iff in E1.
    rewrite Z.ltb_lt, negb_true_iff, Z.eqb_neq in E1. destruct E1 as [? | Hm]; [unfold PAGE_SIZE in *; lia |].
    replace (base b + a * PAGE_SIZE - base b) with (a * PAGE_SIZE) in Hm by lia. by rewrite Z.mod_mul in Hm. }
  destruct (Z.leb_spec (pages b) ((phys - base b) / PAGE_SIZE)) as [Hle | Hlt].
  { wp_step. apply HR. intros a m (-> & Ha & _).
    replace (base b + a * PAGE_SIZE - base b) with (a * PAGE_SIZE) in Hle by lia. rewrite Z.div_mul in Hle by done. lia. }
  specialize (Hc (conj eq_refl eq_refl)). set (a := (phys - base b) / PAGE_SIZE) in *.
  pose proof Hc as (Heq & Ha & _). clearbody a. subst phys. apply wp_free_span_loop; [done | lia | lia | lia | lia |].
  intros r b' Hsp. rewrite Z.add_0_l. by eapply HQ.
Qed.

(** ** Contiguous runs *)

Lemma order_for_loop_spec fuel o n :
  (o + fuel = S (S MAX_ORDER))%nat -> (o <= MAX_ORDER)%nat ->
  let r := order_for_loop fuel o n in
  (r <= S MAX_ORDER)%nat /\ ((r <= MAX_ORDER)%nat -> n <= block_pages r) /\
  ((o < r)%nat -> block_pages (r - 1) < n) /\ (o <= r)%nat.
Proof.
  revert o. induction fuel as [| fuel IH]; intros o Hf Ho; cbn [order_for_loop]; [lia |].
  destruct (Z.ltb_spec (block_pages o) n) as [Hlt | Hge]; [| repeat split; lia].
  destruct (Nat.ltb_spec MAX_ORDER (S o)) as [Hm | Hm].
  - repeat split; try lia. intros _. by replace (S o - 1)%nat with o by lia.
  - destruct (IH (S o) ltac:(lia) ltac:(lia)) as (H1 & H2 & H3 & H4). repeat split; [done | done | | lia].
    intros _. destruct (decide (S o < order_for_loop fuel (S o) n)%nat) as [? | Hn]; [by apply H3 |].
    replace (order_for_loop fuel (S o) n - 1)%nat with o by lia. done.
Qed.

(** The smallest block that holds [n] pages. *)
Lemma order_for_spec n :
  (order_for n <= S MAX_ORDER)%nat /\ ((order_for n <= MAX_ORDER)%nat -> n <= block_pages (order_for n)) /\
  ((0 < order_for n)%nat -> block_pages (order_for n - 1) < n).
Proof. destruct (order_for_loop_spec (S (S MAX_ORDER)) 0 n) as (H1 & H2 & H3 & _); [lia | lia | done]. Qed.

(** What a contiguous allocation promises: exactly the run, all of it free before. *)
Definition run_taken (b b' : Buddy) (a n : Z) : Prop :=
  0 <= a /\ a + n <= pages b /\
  (forall p, a <= p < a + n -> frees b p = true) /\
  forall p, frees b' p = frees b p && negb ((a <=? p) && (p <? a + n)).

Lemma wp_hand_back b0 b o i n (Q : unit -> Buddy -> Prop) :
  same_extent b0 b -> buddy_inv b -> block_taken b0 b o i -> 0 < n <= block_pages o ->
  (forall b', buddy_inv b' -> same_extent b0 b' -> run_taken b0 b' (i * block_pages o) n -> Q tt b') ->
  wp (hand_back (address b0 o i) o n) Q b.
Proof.
  intros [Hb Hp] Hinv (Hfit & Hwas & Hnow) Hn HQ. unfold hand_back. pose proof Hfit as (Ho & Hi & Hle).
  assert (forall p, i * block_pages o <= p < i * block_pages o + n -> frees b0 p = true) as Hrun.
  { intros p Hin. apply Hwas, block_of_spec. lia. }
  assert (0 <= i * block_pages o) by (pose proof (block_pages_pos o); nia).
  destruct (Z.ltb_spec n (block_pages o)) as [Hlt | Hge].
  - wp_step. replace (address b0 o i + n * PAGE_SIZE) with (base b + (i * block_pages o + n) * PAGE_SIZE)
      by (unfold address; rewrite Hb; lia).
    apply wp_free_span; [done | lia | | intros Hno; exfalso; eapply (Hno (i * block_pages o + n)); split; [done |]; split; [lia | done]].
    intros a m r b' (Ha & Har & Hm) (Hinv' & Hext & -> & Hfr).
    assert (a = i * block_pages o + n) as -> by (unfold PAGE_SIZE in *; lia).
    replace m with (block_pages o - n) in * by lia.
    assert (free_pages b' = free_pages b + (block_pages o - n)) as ->.
    { pose proof Hext as [_ Hp']. rewrite (inv_free _ Hinv'), (inv_free _ Hinv), Hp'.
      rewrite (count_seqZ_range (frees b) (frees b') (pages b) (i * block_pages o + n) (block_pages o - n)) by
        (try lia; intros x Hx Hout; rewrite Hfr; destruct (Z.leb_spec (i * block_pages o + n) x),
          (Z.ltb_spec x (i * block_pages o + n + (block_pages o - n))); simpl; try lia; apply orb_false_r).
      rewrite (count_seqZ_none (frees b) (i * block_pages o + n)), (count_seqZ_all (frees b') (i * block_pages o + n)); [lia | lia | |].
      - intros x Hx. rewrite Hfr, (proj2 (Z.leb_le _ x)), (proj2 (Z.ltb_lt x _)) by lia. apply orb_true_r.
      - intros x Hx. rewrite Hnow, (proj2 (Z.eqb_eq (block_of o x) i)) by (apply block_of_spec; lia). apply andb_false_r. }
    unfold debug_assert. rewrite (proj2 (Z.eqb_eq _ _)) by lia. wp_step. apply HQ; [done | by eapply same_extent_trans; [split; done |] |].
    repeat split; [lia | lia | done |]. intros p. rewrite Hfr, Hnow, in_block_span.
    specialize (Hwas p). rewrite block_of_spec in Hwas.
    destruct (Z.leb_spec (i * block_pages o) p), (Z.ltb_spec p (i * block_pages o + block_pages o)),
      (Z.leb_spec (i * block_pages o + n) p), (Z.ltb_spec p (i * block_pages o + n + (block_pages o - n))),
      (Z.ltb_spec p (i * block_pages o + n)); simpl; try lia; rewrite ?andb_true_r, ?andb_false_r, ?orb_false_r; try done.
    rewrite Hwas by lia. done.
  - wp_step. apply HQ; [done | split; done |]. assert (n = block_pages o) as -> by lia.
    repeat split; [lia | lia | done |]. intros p. by rewrite Hnow, in_block_span.
Qed.

(** * The questions the frame allocator answers without changing: whether a page or a span is
    free, and the walk over every free block. *)

(** ** Pages *)

Lemma run_is_free_at b page : sound b -> 0 <= page -> is_free_at page b = Some (frees b page, b).
Proof.
  intros Hs Hp. unfold is_free_at.
  rewrite (run_any_of _ (fun o => bit b o (block_of o page))); [done |].
  intros o Ho%elem_of_orders. cbv beta. rewrite shiftr_block_of. apply run_get; [done | done |].
  apply Z.div_pos; [done | apply block_pages_pos].
Qed.

(** The page an address falls in. *)
Definition page_of (b : Buddy) (phys : Z) : Z := (phys - base b) / PAGE_SIZE.

Lemma run_is_free_page b phys :
  buddy_inv b -> is_free_page phys b = Some ((base b <=? phys) && frees b (page_of b phys), b).
Proof.
  intros [Hs Ht _]. unfold is_free_page, page_of. rewrite (run_bind _ _ b b b) by done.
  destruct (Z.ltb_spec phys (base b)) as [Hlt | Hge].
  { by rewrite (proj2 (Z.leb_gt (base b) phys)) by lia. }
  rewrite (proj2 (Z.leb_le (base b) phys)) by lia.
  assert (0 <= (phys - base b) / PAGE_SIZE) by (apply Z.div_pos; unfold PAGE_SIZE; lia).
  destruct (Z.leb_spec (pages b) ((phys - base b) / PAGE_SIZE)).
  - unfold mret, M_ret. do 2 f_equal. simpl. symmetry. apply not_true_iff_false.
    intros Hc%(covered_inside _ _ _ Ht). lia.
  - rewrite run_is_free_at by done. done.
Qed.

(** [any_free] asks about the part of the span that lies in the extent. *)
Lemma run_any_free b phys n :
  buddy_inv b -> 0 <= n ->
  any_free phys n b =
  Some (match page_index phys b with
        | Some first => existsb (frees b) (seqZ first (Z.min n (pages b - first)))
        | None => false
        end, b).
Proof.
  intros Hinv Hn. unfold any_free. rewrite (run_bind _ _ b b b) by done. change (id b) with b.
  destruct (page_index phys b) as [first |] eqn:Hidx; [| done].
  assert (0 <= first < pages b) as Hfirst.
  { unfold page_index in Hidx. destruct (Z.ltb_spec phys (base b)); [done |]. cbv zeta in Hidx.
    destruct (negb _); [done |]. destruct (Z.leb_spec (pages b) ((phys - base b) / PAGE_SIZE)); [done |].
    injection Hidx as <-. split; [apply Z.div_pos; unfold PAGE_SIZE; lia | done]. }
  pose proof (pages_u64 b Hinv). destruct (Z.eqb_spec n 0) as [-> | Hne]; simpl.
  { by rewrite Z.min_l by lia. }
  rewrite (proj2 (Z.leb_gt (pages b) first)) by lia.
  rewrite (run_any_of _ (frees b)).
  - do 4 f_equal. unfold sat_add64, sat_sub64. lia.
  - intros p Hp%elem_of_seqZ. apply run_is_free_at; [apply Hinv | lia].
Qed.

(** ** The walk *)

(** [value & (value - 1)] clears the lowest set bit. *)
Lemma testbit_clear_lowest v k :
  u64_range v -> v <> 0 -> 0 <= k ->
  Z.testbit (Z.land v (v - 1)) k = Z.testbit v k && negb (k =? trailing_zeros v).
Proof.
  intros Hv Hne Hk. destruct (trailing_zeros_spec v Hv Hne) as (Ht & Hb & Hlow).
  set (t := trailing_zeros v) in *. rewrite Z.land_spec.
  assert (v = v / 2 ^ (t + 1) * 2 ^ (t + 1) + 2 ^ t) as Hv2.
  { rewrite (Z.div_mod v (2 ^ (t + 1))) at 1 by (apply Z.pow_nonzero; lia).
    rewrite (Z.mul_comm (2 ^ (t + 1))). f_equal. apply Z.bits_inj'. intros n Hn.
    rewrite Z.pow2_bits_eqb by lia. destruct (Z.ltb_spec n (t + 1)).
    - rewrite Z.mod_pow2_bits_low by lia. destruct (Z.eqb_spec t n) as [<- |]; [done | apply Hlow; lia].
    - rewrite Z.mod_pow2_bits_high by lia. symmetry. apply Z.eqb_neq. lia. }
  set (m := v / 2 ^ (t + 1)) in *. pose proof (Z.pow_pos_nonneg 2 t).
  assert (2 ^ (t + 1) = 2 * 2 ^ t) as Hpow by (rewrite Z.pow_add_r; lia).
  assert (forall r, 0 <= r < 2 ^ (t + 1) -> t < k -> Z.testbit (m * 2 ^ (t + 1) + r) k = Z.testbit m (k - (t + 1))) as Hhigh.
  { intros r Hr Htk. replace k with (k - (t + 1) + (t + 1)) at 1 by lia. rewrite <- Z.div_pow2_bits by lia.
    by rewrite Z.div_add_l, (Z.div_small r), Z.add_0_r by lia. }
  destruct (Z.eqb_spec k t) as [-> | Hkt]; simpl.
  - rewrite andb_false_r. replace (v - 1) with (m * 2 ^ (t + 1) + (2 ^ t - 1)) by lia.
    assert (Z.testbit (m * 2 ^ (t + 1) + (2 ^ t - 1)) t = false) as ->; [| apply andb_false_r].
    rewrite <- (Z.mod_pow2_bits_low _ (t + 1)) by lia.
    rewrite (Z.add_comm (m * _)), Z.mod_add, Z.mod_small by lia.
    replace (2 ^ t - 1) with (Z.ones t) by (rewrite Z.ones_equiv; lia). apply Z.ones_spec_high. lia.
  - rewrite andb_true_r. destruct (Z.ltb_spec k t); [by rewrite Hlow by lia |].
    rewrite Hv2 at 1 3. replace (v - 1) with (m * 2 ^ (t + 1) + (2 ^ t - 1)) by lia.
    rewrite !Hhigh by lia. apply andb_diag.
Qed.

Lemma elem_of_word_bits fuel v k :
  u64_range v -> (forall j, Z.testbit v j = true -> 64 - Z.of_nat fuel <= j) ->
  k ∈ word_bits fuel v <-> 0 <= k /\ Z.testbit v k = true.
Proof.
  revert v. induction fuel as [| fuel IH]; intros v Hv Hlow; cbn [word_bits].
  - split; [by intros ?%not_elem_of_nil |]. intros [Hk Hb]. pose proof (Hlow k Hb).
    rewrite u64_high in Hb by (done || lia). done.
  - destruct (Z.eqb_spec v 0) as [-> | Hne].
    { split; [by intros ?%not_elem_of_nil |]. intros [_ Hb]. by rewrite Z.bits_0 in Hb. }
    destruct (trailing_zeros_spec v Hv Hne) as (Ht & Hb & Hmin).
    assert (u64_range (Z.land v (v - 1))) as Hv'.
    { apply u64_of_bits; [apply Z.land_nonneg; left; apply Hv |]. intros j Hj. by rewrite Z.land_spec, u64_high. }
    rewrite elem_of_cons, IH; [| done |].
    + split.
      * intros [-> | [Hk Hc]]; [split; [lia | done] |]. rewrite testbit_clear_lowest in Hc by done.
        apply andb_true_iff in Hc as [? _]. done.
      * intros [Hk Hc]. destruct (Z.eq_dec k (trailing_zeros v)) as [| Hkt]; [by left | right].
        split; [done |]. rewrite testbit_clear_lowest by done. apply Z.eqb_neq in Hkt as ->. by rewrite Hc.
    + intros j Hj. destruct (Z.ltb_spec j 0); [by rewrite Z.testbit_neg_r in Hj |].
      rewrite testbit_clear_lowest in Hj by done.
      apply andb_true_iff in Hj as [Hj Hjt%negb_true_iff%Z.eqb_neq].
      pose proof (Hlow _ Hb). destruct (Z.ltb_spec j (trailing_zeros v)); [| lia].
      rewrite Hmin in Hj by lia. done.
Qed.

Section walk.
Context (b : Buddy) (Hs : sound b).

Lemma run_visit_words o ws :
  (o <= MAX_ORDER)%nat -> (forall w, w ∈ ws -> (w < words_in (pages b) o)%nat) ->
  exists l, visit_words o ws b = Some (l, b) /\
    forall o' phys, (o', phys) ∈ l <->
      o' = o /\ exists w k, w ∈ ws /\ 0 <= k < 64 /\ Z.testbit (word b o w) k = true /\
                            phys = address b o (Z.of_nat w * 64 + k).
Proof using Hs.
  intros Ho. induction ws as [| w ws IH]; intros Hws; cbn [visit_words].
  - exists []. split; [done |]. intros o' phys. split; [by intros ?%not_elem_of_nil |].
    intros (_ & w & _ & Hw & _). by apply not_elem_of_nil in Hw.
  - destruct (IH ltac:(set_solver)) as (l & Hl & Hspec). specialize (Hws w ltac:(set_solver)) as Hw.
    rewrite (run_bind _ _ b b b) by done. rewrite (run_bind _ _ _ _ _ (run_load b (sound_geo b Hs) o w Ho Hw)).
    cbv zeta. rewrite (run_bind _ _ _ _ _ Hl). eexists. split; [done |]. intros o' phys.
    rewrite elem_of_app, Hspec, list_elem_of_fmap. split.
    + intros [(i & [= -> ->] & Hi) | (-> & w' & k & Hw' & Hrest)].
      * apply list_elem_of_filter in Hi as [_ (k & -> & Hk)%list_elem_of_fmap].
        apply elem_of_word_bits in Hk as [Hk Hb]; [| by apply word_u64, sound_geo |].
        2:{ intros j Hj. destruct (Z.ltb_spec j 0); [by rewrite Z.testbit_neg_r in Hj | lia]. }
        split; [done |]. exists w, k. split; [set_solver |]. split; [| done]. split; [done |].
        destruct (Z.ltb_spec k 64); [done |]. rewrite u64_high in Hb; [done | by apply word_u64, sound_geo | done].
      * split; [done |]. exists w', k. split; [set_solver | done].
    + intros (-> & w' & k & [-> | Hw']%elem_of_cons & Hk & Hb & ->); [left | right; split; [done |]; by exists w', k].
      exists (Z.of_nat w * 64 + k). split; [done |]. apply list_elem_of_filter. split.
      * apply Z.ltb_lt. by apply (sound_stray b Hs).
      * apply list_elem_of_fmap. exists k. split; [done |]. apply elem_of_word_bits.
        -- by apply word_u64, sound_geo.
        -- intros j Hj. destruct (Z.ltb_spec j 0); [by rewrite Z.testbit_neg_r in Hj | lia].
        -- split; [lia | done].
Qed.

Lemma run_visit_orders os :
  (forall o, o ∈ os -> (o <= MAX_ORDER)%nat) ->
  exists l, visit_orders os b = Some (l, b) /\
    forall o phys, (o, phys) ∈ l <-> o ∈ os /\ exists i, bit b o i = true /\ phys = address b o i.
Proof using Hs.
  induction os as [| o os IH]; intros Hos; cbn [visit_orders].
  - exists []. split; [done |]. intros o phys. split; [by intros ?%not_elem_of_nil |].
    intros [Ho _]. by apply not_elem_of_nil in Ho.
  - destruct (IH ltac:(set_solver)) as (l & Hl & Hspec). specialize (Hos o ltac:(set_solver)) as Ho.
    rewrite (run_bind _ _ b b b) by done.
    rewrite (run_bind (assert_some _) _ b (words_in (pages b) o) b)
      by (unfold assert_some, id; by rewrite (words_at b (sound_geo b Hs) o Ho)).
    destruct (run_visit_words o (seq 0 (words_in (pages b) o)) Ho) as (l1 & Hl1 & Hspec1).
    { intros w Hw%elem_of_seq. lia. }
    rewrite (run_bind _ _ _ _ _ Hl1), (run_bind _ _ _ _ _ Hl). eexists. split; [done |]. intros o' phys.
    rewrite elem_of_app, Hspec, Hspec1, elem_of_cons. split.
    + intros [(-> & w & k & Hw%elem_of_seq & Hk & Hb & ->) | [Ho' Hi]].
      * split; [by left |]. exists (Z.of_nat w * 64 + k). split; [| done].
        apply (bit_place b Hs o Ho). exists w, k. repeat split; try done; lia.
      * split; [by right | done].
    + intros [[-> | Ho'] (i & Hb & ->)]; [left | right; eauto].
      split; [done |]. apply (bit_place b Hs o Ho) in Hb as (w & k & Hw & Hk & -> & Hb).
      exists w, k. repeat split; try done; try lia. apply elem_of_seq. lia.
Qed.

Lemma run_for_each_free_block :
  exists l, for_each_free_block b = Some (l, b) /\
    forall o phys, (o, phys) ∈ l <-> exists i, bit b o i = true /\ phys = address b o i.
Proof using Hs.
  destruct (run_visit_orders orders) as (l & Hl & Hspec); [by intros o ?%elem_of_orders |].
  exists l. split; [done |]. intros o phys. rewrite Hspec, elem_of_orders. split; [naive_solver |].
  intros (i & Hb & ->). split; [by apply bit_range in Hb as [? _] | eauto].
Qed.

End walk.
