(* ===== verification/BuddyProps.v ===== *)
(** The frame allocator against its contract: a set of free pages, from which
    aligned blocks and contiguous runs are taken and to which blocks and spans are
    given back. *)

From S2P Require Import Prelude Buddy BuddyBits BuddyScan BuddyBlocks BuddyOps BuddySpan.

(** ** Contiguous allocations *)

Lemma wp_alloc_contiguous b n (Q : option Z -> Buddy -> Prop) :
  buddy_inv b -> 0 <= n ->
  (forall r b', buddy_inv b' -> same_extent b b' ->
     match r with
     | Some phys => 0 < n /\ exists a, phys = base b + a * PAGE_SIZE /\ run_taken b b' a n
     | None => (forall p, frees b' p = frees b p) /\
               (n = 0 \/ (MAX_ORDER < order_for n)%nat \/ exhausted b (order_for n))
     end -> Q r b') ->
  wp (alloc_contiguous n) Q b.
Proof.
  intros Hinv Hn HQ. unfold alloc_contiguous. destruct (order_for_spec n) as (_ & Hfit & _).
  destruct (Z.eqb_spec n 0); [wp_step; apply HQ; auto with kernel |]. cbv zeta.
  destruct (Nat.ltb_spec MAX_ORDER (order_for n)) as [? | Ho]; [wp_step; apply HQ; auto with kernel |].
  wp_step. apply wp_alloc; [done |]. intros r b1 Hinv1 Hext Hr. destruct r as [phys |].
  - destruct Hr as (i & -> & Htaken). wp_step.
    apply (wp_hand_back b); [done | done | done | specialize (Hfit Ho); lia |].
    intros b' Hinv' Hext' Hrun. wp_step. apply HQ; [done | done |]. split; [lia |].
    exists (i * block_pages (order_for n)). done.
  - wp_step. apply HQ; [done | done |]. destruct Hr as [Hf He]. auto.
Qed.

(** The lowest free block of an order ends its run below the limit. *)
Definition serves (b : Buddy) (bytes limit : Z) (o : nat) (i : Z) : Prop :=
  lowest b o (Some i) /\ address b o i + bytes <= limit.

Lemma run_find_below b os bytes limit :
  buddy_inv b -> 0 <= bytes -> limit <= U64_MAX -> (forall o, o ∈ os -> (o <= MAX_ORDER)%nat) ->
  exists r, find_below os bytes limit b = Some (r, b) /\
    match r with
    | Some o => o ∈ os /\ exists i, serves b bytes limit o i
    | None => forall o i, o ∈ os -> ~ serves b bytes limit o i
    end.
Proof.
  intros Hinv Hb Hlim. induction os as [| o os IH]; intros Hos; cbn [find_below].
  - exists None. split; [done |]. intros o i Ho. by apply not_elem_of_nil in Ho.
  - destruct (run_peek_first_free b (inv_sound b Hinv) o (Hos o ltac:(set_solver))) as (r & Hr & Hlow).
    rewrite (run_bind _ _ _ _ _ Hr). destruct (IH ltac:(set_solver)) as (r' & Hr' & Hspec).
    assert ((forall i, ~ serves b bytes limit o i) ->
      exists r, find_below os bytes limit b = Some (r, b) /\
        match r with
        | Some o' => o' ∈ o :: os /\ exists i, serves b bytes limit o' i
        | None => forall o' i, o' ∈ o :: os -> ~ serves b bytes limit o' i
        end) as Hskip.
    { intros Hno. exists r'. split; [done |]. destruct r' as [o' |].
      - destruct Hspec. split; [set_solver | done].
      - intros o' i [-> | Ho']%elem_of_cons; auto. }
    destruct r as [i |].
    + unfold block_address. rewrite (run_bind (mbind _ _) _ _ (address b o i) b) by done.
      assert (forall j, serves b bytes limit o j -> j = i) as Huniq.
      { intros j [[Hj Hjm] _]. destruct Hlow as [Hi Him]. apply Him in Hj. apply Hjm in Hi. lia. }
      unfold checked_add. destruct (Z.leb_spec (address b o i + bytes) U64_MAX);
        [destruct (Z.leb_spec (address b o i + bytes) limit) |].
      * exists (Some o). split; [done |]. split; [set_solver |]. exists i. done.
      * apply Hskip. intros j Hj. pose proof (Huniq j Hj). subst j. destruct Hj. lia.
      * apply Hskip. intros j Hj. pose proof (Huniq j Hj). subst j. destruct Hj. lia.
    + apply Hskip. intros i [[Hi _] _]. by rewrite Hlow in Hi.
Qed.

(** Every run of [n] pages at the head of a free aligned block ends above the limit. *)
Definition nothing_below (b : Buddy) (n limit : Z) : Prop :=
  forall i, fits (pages b) (order_for n) i -> (forall p, block_of (order_for n) p = i -> frees b p = true) ->
    limit < address b (order_for n) i + n * PAGE_SIZE.

Lemma none_below b n limit :
  buddy_inv b -> 0 <= n -> (order_for n <= MAX_ORDER)%nat ->
  (forall o i, (order_for n <= o <= MAX_ORDER)%nat -> ~ serves b (n * PAGE_SIZE) limit o i) ->
  nothing_below b n limit.
Proof.
  intros Hinv Hn Ho Hno i Hfit Hall. set (o := order_for n) in *.
  destruct (whole_block _ _ (inv_tidy _ Hinv) o i Ho Hall) as (o' & Ho' & Hb).
  specialize (Hb _ (block_of_head o i)). set (j := block_of o' (i * block_pages o)) in *.
  destruct (run_peek_first_free b (inv_sound b Hinv) o' ltac:(lia)) as (r & _ & Hlow).
  destruct r as [k |]; [| by rewrite Hlow in Hb].
  pose proof (proj2 Hlow j Hb) as Hkj. pose proof (proj1 (block_of_spec o' (i * block_pages o) j) eq_refl).
  destruct (Z.leb_spec (address b o' k + n * PAGE_SIZE) limit) as [Hle | Hgt].
  - destruct (Hno o' k ltac:(lia)). done.
  - unfold address in *. pose proof (block_pages_pos o'). unfold PAGE_SIZE in *. nia.
Qed.

Lemma wp_alloc_contiguous_below b n limit (Q : option Z -> Buddy -> Prop) :
  buddy_inv b -> 0 <= n <= U64_MAX -> 0 <= limit <= U64_MAX ->
  (forall r b', buddy_inv b' -> same_extent b b' ->
     match r with
     | Some phys => 0 < n /\ exists a, phys = base b + a * PAGE_SIZE /\ run_taken b b' a n /\ phys + n * PAGE_SIZE <= limit
     | None => (forall p, frees b' p = frees b p) /\
               (n = 0 \/ (MAX_ORDER < order_for n)%nat \/ nothing_below b n limit)
     end -> Q r b') ->
  wp (alloc_contiguous_below n limit) Q b.
Proof.
  intros Hinv Hn Hlim HQ. unfold alloc_contiguous_below. destruct (order_for_spec n) as (_ & Hfit & _).
  destruct (Z.eqb_spec n 0); [wp_step; apply HQ; auto with kernel |]. cbv zeta.
  destruct (Nat.ltb_spec MAX_ORDER (order_for n)) as [? | Ho]; [wp_step; apply HQ; auto with kernel |].
  specialize (Hfit Ho). unfold checked_mul. destruct (Z.leb_spec (n * PAGE_SIZE) U64_MAX) as [_ | Hbig].
  2:{ exfalso. assert (block_pages (order_for n) <= block_pages MAX_ORDER) as Hm.
      { replace MAX_ORDER with (order_for n + (MAX_ORDER - order_for n))%nat by lia. rewrite block_pages_add.
        pose proof (block_pages_pos (order_for n)). pose proof (block_pages_pos (MAX_ORDER - order_for n)). nia. }
      change (block_pages MAX_ORDER) with 262144 in Hm. unfold PAGE_SIZE in *. lia. }
  set (o := order_for n) in *. assert (0 <= n * PAGE_SIZE) by (unfold PAGE_SIZE; lia).
  destruct (run_find_below b (seq o (S MAX_ORDER - o)) (n * PAGE_SIZE) limit) as (r & Hr & Hspec);
    [done | lia | lia | intros o' Ho'%elem_of_seq; lia |].
  wp_step. eapply run_wp; [exact Hr |]. destruct r as [larger |].
  2:{ wp_step. apply HQ; [done | done |]. split; [done |]. right. right. apply none_below; [done | lia | done |].
      intros o' i Ho'. apply Hspec, elem_of_seq. lia. }
  destruct Hspec as [Hl%elem_of_seq (i & [Hi Him] & Hend)].
  wp_step. apply wp_first_free; [apply Hinv | lia |]. intros r b1 Hs1 Hf1 Hb1 Hlow.
  destruct r as [j |]; [| by rewrite Hlow in Hi].
  assert (j = i) as ->. { destruct Hlow as [Hj Hjm]. apply Hjm in Hi. apply Him in Hj. lia. }
  assert (untouched b b1) as Hun by done. pose proof (untouched_inv _ _ Hun Hinv) as Hinv1.
  pose proof (untouched_extent _ _ Hun) as [Hbase Hpages].
  wp_step. apply wp_take_block; [done | lia | by rewrite Hb1 |]. set (k := i * block_pages (larger - o)).
  intros b2 Hinv2 Hext2 Hfit2 Hwas Hnow.
  assert (block_taken b b2 o k) as Htaken.
  { split; [by rewrite <- Hpages |]. split; intros p; [intros Hp |]; rewrite <- (untouched_frees b b1 p Hun); auto. }
  assert (address b1 o k = address b o k) as -> by (unfold address; congruence).
  wp_step. apply (wp_hand_back b); [by eapply same_extent_trans | done | done | lia |].
  intros b' Hinv' Hext' Hrun. wp_step. apply HQ; [done | done |]. split; [lia |].
  exists (k * block_pages o). split; [done |]. split; [done |].
  assert (address b o k = address b larger i) as ->; [| done].
  unfold address, k. replace (i * _ * block_pages o) with (i * (block_pages o * block_pages (larger - o))) by lia. rewrite <- block_pages_add.
  by replace (o + (larger - o))%nat with larger by lia.
Qed.

(** ** The contract *)

(** What a caller can ask of the allocator, and what it answers. *)
Inductive call :=
| Alloc (o : nat)
| AllocContiguous (n : Z)
| AllocContiguousBelow (n limit : Z)
| Free (phys : Z) (o : nat)
| FreeSpan (phys n : Z)
| FreePages
| IsFreePage (phys : Z)
| AnyFree (phys n : Z)
| ForEachFreeBlock.

Inductive reply :=
| Frame (r : option Z)
| Accepted (ok : bool)
| Count (n : Z)
| Blocks (l : list (nat * Z)).

Definition perform (c : call) : M Buddy reply :=
  match c with
  | Alloc o => r ← alloc o; mret (Frame r)
  | AllocContiguous n => r ← alloc_contiguous n; mret (Frame r)
  | AllocContiguousBelow n limit => r ← alloc_contiguous_below n limit; mret (Frame r)
  | Free phys o => r ← free phys o; mret (Accepted r)
  | FreeSpan phys n => r ← free_span phys n; mret (Count r)
  | FreePages => r ← gets free_pages; mret (Count r)
  | IsFreePage phys => r ← is_free_page phys; mret (Accepted r)
  | AnyFree phys n => r ← any_free phys n; mret (Accepted r)
  | ForEachFreeBlock => r ← for_each_free_block; mret (Blocks r)
  end.

(** The arguments are 64-bit values. *)
Definition call_u64 (c : call) : Prop :=
  match c with
  | AllocContiguous n => u64_range n
  | AllocContiguousBelow n limit => u64_range n /\ u64_range limit
  | Free phys _ | IsFreePage phys => u64_range phys
  | FreeSpan phys n | AnyFree phys n => u64_range phys /\ u64_range n
  | _ => True
  end.

(** Sets of pages, by their index in the extent. *)
Definition span (a n : Z) : gset Z := list_to_set (seqZ a n).
Definition block (o : nat) (i : Z) : gset Z := span (i * block_pages o) (block_pages o).

Section contract.
Context (first_frame extent_pages : Z).

Definition frame_address (o : nat) (i : Z) : Z := first_frame + i * block_pages o * PAGE_SIZE.

(** The pages of the extent a span of addresses names; none, when it starts
    outside the extent or between two pages. *)
Definition named (phys n : Z) : gset Z :=
  if bool_decide (first_frame <= phys /\ (phys - first_frame) mod PAGE_SIZE = 0)
  then let a := (phys - first_frame) / PAGE_SIZE in span a (Z.min n (extent_pages - a))
  else ∅.

(** What each call does to a set of free pages and answers. *)
Inductive page_set (F : gset Z) : call -> reply -> gset Z -> Prop :=
| alloc_some o i : fits extent_pages o i -> block o i ⊆ F ->
    page_set F (Alloc o) (Frame (Some (frame_address o i))) (F ∖ block o i)
| alloc_none o : ((o <= MAX_ORDER)%nat -> forall i, fits extent_pages o i -> ~ block o i ⊆ F) ->
    page_set F (Alloc o) (Frame None) F
| contiguous_some n a : 0 < n -> 0 <= a -> a + n <= extent_pages -> span a n ⊆ F ->
    page_set F (AllocContiguous n) (Frame (Some (first_frame + a * PAGE_SIZE))) (F ∖ span a n)
| contiguous_none n :
    (n = 0 \/ (MAX_ORDER < order_for n)%nat \/
     forall i, fits extent_pages (order_for n) i -> ~ block (order_for n) i ⊆ F) ->
    page_set F (AllocContiguous n) (Frame None) F
| below_some n limit a : 0 < n -> 0 <= a -> a + n <= extent_pages -> span a n ⊆ F ->
    first_frame + (a + n) * PAGE_SIZE <= limit ->
    page_set F (AllocContiguousBelow n limit) (Frame (Some (first_frame + a * PAGE_SIZE))) (F ∖ span a n)
| below_none n limit :
    (n = 0 \/ (MAX_ORDER < order_for n)%nat \/
     forall i, fits extent_pages (order_for n) i -> block (order_for n) i ⊆ F ->
       limit < frame_address (order_for n) i + n * PAGE_SIZE) ->
    page_set F (AllocContiguousBelow n limit) (Frame None) F
| free_accepted o i : fits extent_pages o i -> block o i ## F ->
    page_set F (Free (frame_address o i) o) (Accepted true) (F ∪ block o i)
| free_refused phys o :
    (forall i, fits extent_pages o i -> phys = frame_address o i -> ~ block o i ## F) ->
    page_set F (Free phys o) (Accepted false) F
| span_freed phys n :
    page_set F (FreeSpan phys n) (Count (Z.of_nat (size (named phys n ∖ F)))) (F ∪ named phys n)
| pages_counted : page_set F FreePages (Count (Z.of_nat (size F))) F
| page_asked phys :
    page_set F (IsFreePage phys)
      (Accepted (bool_decide (first_frame <= phys /\ (phys - first_frame) / PAGE_SIZE ∈ F))) F
| span_asked phys n : page_set F (AnyFree phys n) (Accepted (negb (bool_decide (named phys n ## F)))) F
| blocks_listed l :
    (forall o phys, (o, phys) ∈ l -> exists i, phys = frame_address o i /\ fits extent_pages o i /\ block o i ⊆ F) ->
    (forall p, p ∈ F -> exists o i, p ∈ block o i /\
       forall o' i', (o', frame_address o' i') ∈ l /\ p ∈ block o' i' <-> o' = o /\ i' = i) ->
    page_set F ForEachFreeBlock (Blocks l) F.

End contract.

(** ** The allocator keeps it *)

Definition free_set (b : Buddy) : gset Z :=
  list_to_set (base.filter (fun p => frees b p = true) (seqZ 0 (pages b))).

Lemma elem_of_span a n p : p ∈ span a n <-> a <= p < a + n.
Proof. unfold span. rewrite elem_of_list_to_set, elem_of_seqZ. done. Qed.

Lemma elem_of_block o i p : p ∈ block o i <-> block_of o p = i.
Proof. unfold block. rewrite elem_of_span, block_of_spec. lia. Qed.

Lemma elem_of_free_set b p : buddy_inv b -> p ∈ free_set b <-> frees b p = true.
Proof.
  intros Hinv. unfold free_set. rewrite elem_of_list_to_set, list_elem_of_filter, elem_of_seqZ.
  split; [tauto |]. intros Hp. split; [done |]. apply (covered_inside _ _ _ (inv_tidy b Hinv)) in Hp. lia.
Qed.

Lemma size_free_set b : buddy_inv b -> free_pages b = Z.of_nat (size (free_set b)).
Proof.
  intros Hinv. rewrite (inv_free b Hinv). unfold free_set. rewrite size_list_to_set; [done |].
  apply NoDup_filter, NoDup_seqZ.
Qed.

Lemma block_subset b o i :
  buddy_inv b -> block o i ⊆ free_set b <-> forall p, block_of o p = i -> frees b p = true.
Proof.
  intros Hinv. split; intros Hsub p.
  - intros Hp. apply (elem_of_free_set b p Hinv), Hsub. by apply elem_of_block.
  - rewrite elem_of_block, elem_of_free_set by done. apply Hsub.
Qed.

Lemma block_disjoint b o i :
  buddy_inv b -> block o i ## free_set b <-> forall p, block_of o p = i -> frees b p = false.
Proof.
  intros Hinv. split.
  - intros Hd p Hp. apply not_true_iff_false. intros Hf. apply (Hd p); [by apply elem_of_block | by apply elem_of_free_set].
  - intros Hf p Hp%elem_of_block Hq%elem_of_free_set; [| done]. by rewrite Hf in Hq.
Qed.

Lemma free_set_eq b' (X : gset Z) :
  buddy_inv b' -> (forall p, frees b' p = true <-> p ∈ X) -> free_set b' = X.
Proof. intros Hinv Hp. apply set_eq. intros p. by rewrite elem_of_free_set. Qed.

Lemma free_set_same b b' :
  buddy_inv b -> buddy_inv b' -> (forall p, frees b' p = frees b p) -> free_set b' = free_set b.
Proof. intros Hinv Hinv' Hf. apply free_set_eq; [done |]. intros p. by rewrite elem_of_free_set, Hf. Qed.

Lemma free_set_without b b' (t : Z -> bool) (X : gset Z) :
  buddy_inv b -> buddy_inv b' -> (forall p, frees b' p = frees b p && negb (t p)) ->
  (forall p, t p = true <-> p ∈ X) -> free_set b' = free_set b ∖ X.
Proof.
  intros Hinv Hinv' Hf Ht. apply free_set_eq; [done |]. intros p.
  rewrite Hf, elem_of_difference, elem_of_free_set, andb_true_iff, negb_true_iff, <- Ht, <- not_true_iff_false by done. done.
Qed.

Lemma free_set_with b b' (t : Z -> bool) (X : gset Z) :
  buddy_inv b -> buddy_inv b' -> (forall p, frees b' p = frees b p || t p) ->
  (forall p, t p = true <-> p ∈ X) -> free_set b' = free_set b ∪ X.
Proof.
  intros Hinv Hinv' Hf Ht. apply free_set_eq; [done |]. intros p.
  by rewrite Hf, elem_of_union, elem_of_free_set, orb_true_iff, <- Ht by done.
Qed.

Lemma in_block_elem o i p : (block_of o p =? i) = true <-> p ∈ block o i.
Proof. by rewrite Z.eqb_eq, elem_of_block. Qed.

Lemma in_span_elem a n p : (a <=? p) && (p <? a + n) = true <-> p ∈ span a n.
Proof. by rewrite andb_true_iff, Z.leb_le, Z.ltb_lt, elem_of_span. Qed.

Lemma run_taken_subset b b' a n : buddy_inv b -> run_taken b b' a n -> span a n ⊆ free_set b.
Proof. intros Hinv (_ & _ & Hwas & _) p Hp%elem_of_span. by apply elem_of_free_set, Hwas. Qed.

Lemma exhausted_blocks b o i : buddy_inv b -> exhausted b o -> fits (pages b) o i -> ~ block o i ⊆ free_set b.
Proof.
  intros Hinv He Hfit Hsub. destruct (He i Hfit) as (p & Hp & Hf).
  rewrite (proj1 (block_subset b o i Hinv) Hsub p Hp) in Hf. done.
Qed.

(** One call, answered as the contract says. *)
Definition kept (b : Buddy) (c : call) (r : reply) (b' : Buddy) : Prop :=
  buddy_inv b' /\ same_extent b b' /\ page_set (base b) (pages b) (free_set b) c r (free_set b').

Section calls.
Context (b : Buddy) (Hinv : buddy_inv b).

Lemma alloc_kept o : wp (perform (Alloc o)) (kept b (Alloc o)) b.
Proof using Hinv.
  cbn [perform]. wp_step. apply wp_alloc; [done |]. intros r b' Hinv' Hext Hr. wp_step.
  split; [done |]. split; [done |]. destruct r as [phys |].
  - destruct Hr as (i & -> & Hfit & Hwas & Hnow).
    rewrite (free_set_without b b' _ (block o i) Hinv Hinv' Hnow) by apply in_block_elem.
    apply alloc_some; [done | by apply block_subset].
  - destruct Hr as [Hsame He]. rewrite (free_set_same b b') by done. apply alloc_none.
    intros Ho i. apply exhausted_blocks; [done | by apply He].
Qed.

Lemma alloc_contiguous_kept n :
  u64_range n -> wp (perform (AllocContiguous n)) (kept b (AllocContiguous n)) b.
Proof using Hinv.
  intros Hn. cbn [perform]. wp_step. apply wp_alloc_contiguous; [done | apply Hn |].
  intros r b' Hinv' Hext Hr. wp_step. split; [done |]. split; [done |]. destruct r as [phys |].
  - destruct Hr as (Hpos & a & -> & Hrun). pose proof Hrun as (Ha & He & _ & Hnow).
    rewrite (free_set_without b b' _ (span a n) Hinv Hinv' Hnow) by apply in_span_elem.
    apply contiguous_some; [done | done | done | by eapply run_taken_subset].
  - destruct Hr as [Hsame Hwhy]. rewrite (free_set_same b b') by done. apply contiguous_none.
    destruct Hwhy as [? | [? | He]]; [by left | by right; left | right; right].
    intros i. by apply exhausted_blocks.
Qed.

Lemma alloc_contiguous_below_kept n limit :
  u64_range n -> u64_range limit ->
  wp (perform (AllocContiguousBelow n limit)) (kept b (AllocContiguousBelow n limit)) b.
Proof using Hinv.
  intros Hn Hl. cbn [perform]. wp_step. apply wp_alloc_contiguous_below; [done | apply Hn | apply Hl |].
  intros r b' Hinv' Hext Hr. wp_step. split; [done |]. split; [done |]. destruct r as [phys |].
  - destruct Hr as (Hpos & a & -> & Hrun & Hlim). pose proof Hrun as (Ha & He & _ & Hnow).
    rewrite (free_set_without b b' _ (span a n) Hinv Hinv' Hnow) by apply in_span_elem.
    apply below_some; [done | done | done | by eapply run_taken_subset | lia].
  - destruct Hr as [Hsame Hwhy]. rewrite (free_set_same b b') by done. apply below_none.
    destruct Hwhy as [? | [? | He]]; [by left | by right; left | right; right].
    intros i Hfit Hsub. apply He; [done | by apply block_subset].
Qed.

Lemma free_kept phys o : wp (perform (Free phys o)) (kept b (Free phys o)) b.
Proof using Hinv.
  cbn [perform]. wp_step. apply wp_free; [done | |].
  - intros i b' [-> [Hfit Hhole]] Hinv' Hext _ Hnow. wp_step. split; [done |]. split; [done |].
    rewrite (free_set_with b b' _ (block o i) Hinv Hinv' Hnow) by apply in_block_elem.
    apply (free_accepted (base b)); [done | by apply block_disjoint].
  - intros Hno. wp_step. split; [done |]. split; [done |]. apply free_refused. intros i Hfit -> Hd.
    apply (Hno i). split; [done |]. split; [done |]. by apply block_disjoint.
Qed.

(** The pages a span of addresses names are those [free_span] clamps it to. *)
Lemma named_clamped phys n a m :
  clamped b phys n a m -> named (base b) (pages b) phys n = span a m.
Proof.
  intros (-> & Ha & ->). unfold named, PAGE_SIZE. rewrite bool_decide_true.
  - replace (base b + a * 4096 - base b) with (a * 4096) by lia. cbv zeta. by rewrite Z.div_mul by lia.
  - split; [lia |]. replace (base b + a * 4096 - base b) with (a * 4096) by lia. by apply Z.mod_mul.
Qed.

Lemma named_outside phys n : (forall a m, ~ clamped b phys n a m) -> named (base b) (pages b) phys n = ∅.
Proof.
  intros Hno. unfold named. case_bool_decide; [| done]. cbv zeta.
  set (a := (phys - base b) / PAGE_SIZE). assert (pages b <= a) as Hle.
  { destruct (Z.leb_spec (pages b) a) as [? | Hlt]; [done |]. exfalso. apply (Hno a (Z.min n (pages b - a))).
    apply (clamped_checks b phys n). split; [| by apply Z.leb_gt].
    rewrite orb_false_iff, negb_false_iff, Z.eqb_eq, Z.ltb_ge. tauto. }
  apply set_eq. intros p. rewrite elem_of_span, elem_of_empty. lia.
Qed.

Lemma free_span_kept phys n : u64_range n -> wp (perform (FreeSpan phys n)) (kept b (FreeSpan phys n)) b.
Proof using Hinv.
  intros Hn. cbn [perform]. wp_step. apply wp_free_span; [done | apply Hn | |].
  - intros a m r b' Hc (Hinv' & Hext & -> & Hnow). wp_step. split; [done |]. split; [done |].
    pose proof (free_set_with b b' _ (span a m) Hinv Hinv' Hnow (in_span_elem a m)) as Hset.
    assert (free_pages b' - free_pages b = Z.of_nat (size (named (base b) (pages b) phys n ∖ free_set b))) as ->.
    { rewrite (size_free_set b), (size_free_set b'), Hset, (named_clamped phys n a m Hc) by done.
      rewrite (size_union_alt (free_set b) (span a m)). lia. }
    rewrite Hset, <- (named_clamped phys n a m Hc). apply span_freed.
  - intros Hno. wp_step. split; [done |]. split; [done |]. pose proof (named_outside phys n Hno) as He.
    pose proof (span_freed (base b) (pages b) (free_set b) phys n) as Hsp. rewrite He in Hsp.
    rewrite (left_id_L ∅ (∪)) in Hsp || rewrite (right_id_L ∅ (∪)) in Hsp.
    by rewrite (difference_disjoint_L ∅ (free_set b)), size_empty in Hsp by set_solver.
Qed.

Lemma is_free_page_kept phys : wp (perform (IsFreePage phys)) (kept b (IsFreePage phys)) b.
Proof using Hinv.
  cbn [perform]. wp_step. eapply run_wp; [by apply run_is_free_page |]. wp_step.
  split; [done |]. split; [done |].
  replace ((base b <=? phys) && frees b (page_of b phys))
    with (bool_decide (base b <= phys /\ (phys - base b) / PAGE_SIZE ∈ free_set b)); [constructor |].
  apply eq_true_iff_eq. rewrite bool_decide_eq_true, andb_true_iff, Z.leb_le, elem_of_free_set by done. done.
Qed.

Lemma page_index_clamped phys n first :
  page_index phys b = Some first -> clamped b phys n first (Z.min n (pages b - first)).
Proof.
  unfold page_index. destruct (phys <? base b) eqn:E1; [done |]. cbv zeta.
  destruct (negb _) eqn:E2; [done |]. destruct (_ <=? _) eqn:E3; [done |]. intros [= <-].
  apply (clamped_checks b phys n). by rewrite E1, E2, E3.
Qed.

Lemma page_index_outside phys n : page_index phys b = None -> forall a m, ~ clamped b phys n a m.
Proof.
  unfold page_index. intros Hidx a m (-> & Ha & _). unfold PAGE_SIZE in *.
  replace (base b + a * 4096 - base b) with (a * 4096) in Hidx by lia.
  rewrite Z.mod_mul, Z.div_mul in Hidx by lia. rewrite (proj2 (Z.ltb_ge _ _)), (proj2 (Z.leb_gt _ _)) in Hidx by lia.
  done.
Qed.

Lemma any_free_kept phys n : u64_range n -> wp (perform (AnyFree phys n)) (kept b (AnyFree phys n)) b.
Proof using Hinv.
  intros Hn. cbn [perform]. wp_step. eapply run_wp; [apply run_any_free; [done | apply Hn] |]. wp_step.
  split; [done |]. split; [done |].
  assert (forall x, x = negb (bool_decide (named (base b) (pages b) phys n ## free_set b)) ->
            page_set (base b) (pages b) (free_set b) (AnyFree phys n) (Accepted x) (free_set b)) as Hx.
  { intros x ->. constructor. }
  apply Hx. destruct (page_index phys b) as [first |] eqn:Hidx.
  - rewrite (named_clamped phys n _ _ (page_index_clamped phys n first Hidx)).
    apply eq_true_iff_eq. rewrite negb_true_iff, bool_decide_eq_false, existsb_iff. split.
    + intros (p & Hp%elem_of_seqZ & Hf) Hd. apply (Hd p); [by apply elem_of_span | by apply elem_of_free_set].
    + intros Hd. destruct (existsb (frees b) (seqZ first (Z.min n (pages b - first)))) eqn:E.
      * by apply existsb_iff in E.
      * destruct Hd. intros p Hp%elem_of_span Hq%elem_of_free_set; [| done].
        rewrite existsb_false in E. rewrite E in Hq; [done | by apply elem_of_seqZ].
  - rewrite (named_outside phys n) by (by apply page_index_outside).
    by rewrite bool_decide_true by set_solver.
Qed.

Lemma for_each_free_block_kept : wp (perform ForEachFreeBlock) (kept b ForEachFreeBlock) b.
Proof using Hinv.
  cbn [perform]. wp_step. destruct (run_for_each_free_block b (inv_sound b Hinv)) as (l & Hl & Hspec).
  eapply run_wp; [exact Hl |]. wp_step. split; [done |]. split; [done |]. apply blocks_listed.
  - intros o phys (i & Hb & ->)%Hspec. exists i. split; [done |].
    split; [by apply (tidy_fits _ _ (inv_tidy b Hinv)) |]. apply block_subset; [done |].
    intros p Hp. by apply (covered_free _ _ (inv_tidy b Hinv) o i).
  - intros p Hp. rewrite elem_of_free_set in Hp by done. apply covered_iff in Hp as (o & Ho & Hb).
    exists o, (block_of o p). split; [by apply elem_of_block |]. intros o' i'. rewrite elem_of_block, Hspec. split.
    + intros [(j & Hj & Haddr) <-]. apply (address_inj b o') in Haddr. subst j.
      by rewrite (tidy_once _ _ (inv_tidy b Hinv) p o o' Hb Hj).
    + intros [-> ->]. split; [| done]. by exists (block_of o p).
Qed.

Lemma perform_kept c : call_u64 c -> wp (perform c) (kept b c) b.
Proof using Hinv.
  destruct c; simpl; intros Hu.
  - apply alloc_kept.
  - by apply alloc_contiguous_kept.
  - by apply alloc_contiguous_below_kept; apply Hu.
  - apply free_kept.
  - apply free_span_kept, Hu.
  - unfold perform. wp_steps. split; [done |]. split; [done |]. rewrite size_free_set by done. constructor.
  - apply is_free_page_kept.
  - apply any_free_kept, Hu.
  - apply for_each_free_block_kept.
Qed.

End calls.

(** ** Sequences of calls *)

Fixpoint performs (cs : list call) : M Buddy (list (call * reply)) :=
  match cs with
  | [] => mret []
  | c :: cs => r ← perform c; rs ← performs cs; mret ((c, r) :: rs)
  end.

Inductive page_sets (first_frame extent_pages : Z) (F : gset Z) : list (call * reply) -> gset Z -> Prop :=
| page_sets_nil : page_sets first_frame extent_pages F [] F
| page_sets_cons c r rs F' F'' :
    page_set first_frame extent_pages F c r F' -> page_sets first_frame extent_pages F' rs F'' ->
    page_sets first_frame extent_pages F ((c, r) :: rs) F''.

Lemma performs_kept cs b :
  buddy_inv b -> Forall call_u64 cs ->
  wp (performs cs) (fun rs b' => rs.*1 = cs /\ buddy_inv b' /\ same_extent b b' /\
                                 page_sets (base b) (pages b) (free_set b) rs (free_set b')) b.
Proof.
  revert b. induction cs as [| c cs IH]; intros b Hinv Hu; cbn [performs].
  - wp_step. split; [done |]. split; [done |]. split; [done | constructor].
  - inversion_clear Hu as [| ? ? Hc Hcs]. wp_step.
    eapply wp_mono; [by apply perform_kept |]. intros r b1 (Hinv1 & Hext1 & Hset1).
    wp_step. eapply wp_mono; [by apply IH |]. intros rs b2 (Hrs & Hinv2 & Hext2 & Hset2). wp_step.
    split; [by rewrite fmap_cons, Hrs |]. split; [done |]. split; [by eapply same_extent_trans |].
    destruct Hext1 as [Hb Hp]. rewrite Hb, Hp in Hset2. by econstructor.
Qed.

(** A new allocator frames its extent with nothing free. *)
Lemma new_inv first_frame n h b h' :
  0 <= first_frame -> 0 <= n -> new first_frame n h = Some (Some b, h') ->
  buddy_inv b /\ base b = first_frame /\ pages b = n /\ free_set b = ∅.
Proof.
  unfold new. intros Hb Hn.
  destruct (Z.eqb_spec n 0); [done |]. destruct (Z.eqb_spec (first_frame mod PAGE_SIZE) 0) as [Ha |]; [| done]. cbn [orb negb].
  unfold checked_mul, checked_add. destruct (Z.leb_spec (n * PAGE_SIZE) U64_MAX); [| done].
  destruct (Z.leb_spec (first_frame + n * PAGE_SIZE) U64_MAX); [| done].
  cbv zeta. unfold mbind, M_bind. destruct (heap_ask h) as [[[x |] h1] |]; [| done | done]. intros [= <- _].
  set (b := mkBuddy _ _ _ _ _ _ _ _).
  assert (forall o w, word b o w = 0) as Hword.
  { intros o w. unfold word, b. simpl. rewrite nth_lookup.
    destruct (replicate _ 0 !! _) as [v |] eqn:E; [by apply lookup_replicate in E as [-> _] | done]. }
  assert (forall o i, bit b o i = false) as Hbit.
  { intros o i. unfold bit. rewrite Hword, Z.bits_0. apply andb_false_r. }
  assert (forall p, frees b p = false) as Hfrees.
  { intros p. apply not_true_iff_false. intros (o & _ & Hc)%covered_iff. by rewrite Hbit in Hc. }
  assert (buddy_inv b) as Hinv.
  { constructor.
    - constructor.
      + constructor; simpl; try done; try lia; [by rewrite length_replicate | by apply Forall_replicate].
      + intros o w k _ _ _ Hc. by rewrite Hword, Z.bits_0 in Hc.
      + intros o Ho. unfold b at 1. simpl counts. rewrite count_seqZ_none by (intros; apply Hbit).
        change (replicate (S MAX_ORDER) 0 !! o = Some 0). apply lookup_replicate. lia.
      + intros o Ho. exists U64_MAX. change (hint b) with (replicate (S MAX_ORDER) U64_MAX).
        split; [apply lookup_replicate; lia |]. split; [lia |].
        intros i Hc. by rewrite Hbit in Hc.
    - constructor; intros *; rewrite ?Hbit; done.
    - by rewrite count_seqZ_none. }
  split; [done |]. split; [done |]. split; [done |]. apply free_set_eq; [done |]. intros p. rewrite Hfrees. set_solver.
Qed.

(** C8: The allocator implements a set of free pages. From [Buddy::new] on, every
    sequence of calls returns - no index leaves an array, no counter goes below
    zero, no debug assertion fires - and each call answers and changes the set as
    the contract says: an allocation takes an aligned block (or the run asked for)
    all of whose pages were free and reports failure only when no aligned block of
    the size is free (below the limit), a free is accepted exactly when it names a
    block of the extent no page of which is free, a span adds exactly the pages it
    names and counts the new ones, and the questions and the walk over the free
    blocks tell the truth. *)
Theorem buddy_refines_page_set first_frame n h b h' cs :
  u64_range first_frame -> u64_range n -> new first_frame n h = Some (Some b, h') -> Forall call_u64 cs ->
  exists rs b', performs cs b = Some (rs, b') /\ rs.*1 = cs /\
                page_sets first_frame n ∅ rs (free_set b').
Proof.
  intros Hb Hn Hnew Hu. destruct (new_inv first_frame n h b h') as (Hinv & <- & <- & Hempty); [apply Hb | apply Hn | done |].
  destruct (wp_run _ _ _ (performs_kept cs b Hinv Hu)) as (rs & b' & Hrun & Hrs & _ & _ & Hset).
  exists rs, b'. rewrite Hempty in Hset. done.
Qed.

(** Every state a new allocator reaches is well formed: the bitmap words are
    64-bit values laid out as the offsets say with no bit past the last block of an
    order, each count is the number of free blocks of its order and each hint lies
    at or below the first of them, every free block lies inside the extent, no page
    is in two of them, no two buddies are left unmerged, and the free-page counter
    is the number of free pages. *)
Theorem buddy_state_well_formed first_frame n h b h' cs rs b' :
  u64_range first_frame -> u64_range n -> new first_frame n h = Some (Some b, h') -> Forall call_u64 cs ->
  performs cs b = Some (rs, b') ->
  buddy_inv b' /\ extent b' = (first_frame, n) /\ free_pages b' = Z.of_nat (size (free_set b')).
Proof.
  intros Hb Hn Hnew Hu Hrun. destruct (new_inv first_frame n h b h') as (Hinv & <- & <- & _); [apply Hb | apply Hn | done |].
  destruct (wp_run _ _ _ (performs_kept cs b Hinv Hu)) as (rs' & b2 & Hrun' & _ & Hinv' & [Hbase Hpages] & _).
  rewrite Hrun in Hrun'. injection Hrun' as <- <-. split; [done |]. split; [| by apply size_free_set].
  unfold extent. congruence.
Qed.

(** ** No frame is handed out twice *)

(** The pages an answer hands out, and the pages a call gives back. *)
Definition handed_out (first_frame : Z) (cr : call * reply) : gset Z :=
  match cr with
  | (Alloc o, Frame (Some phys)) => span ((phys - first_frame) / PAGE_SIZE) (block_pages o)
  | (AllocContiguous n, Frame (Some phys))
  | (AllocContiguousBelow n _, Frame (Some phys)) => span ((phys - first_frame) / PAGE_SIZE) n
  | _ => ∅
  end.
Definition given_back (first_frame : Z) (c : call) : gset Z :=
  match c with
  | Free phys o => span ((phys - first_frame) / PAGE_SIZE) (block_pages o)
  | FreeSpan phys n => span ((phys - first_frame) / PAGE_SIZE) n
  | _ => ∅
  end.

Lemma frame_page first_frame a : (first_frame + a * PAGE_SIZE - first_frame) / PAGE_SIZE = a.
Proof. replace (_ - _) with (a * PAGE_SIZE) by lia. by apply Z.div_mul. Qed.

Lemma frame_address_page first_frame o i :
  (frame_address first_frame o i - first_frame) / PAGE_SIZE = i * block_pages o.
Proof. apply frame_page. Qed.

Lemma named_given first_frame n phys m : named first_frame n phys m ⊆ given_back first_frame (FreeSpan phys m).
Proof.
  unfold named. case_bool_decide; [| set_solver]. cbv zeta. intros p. simpl. rewrite !elem_of_span. lia.
Qed.

Lemma page_set_flow first_frame n F c r F' :
  page_set first_frame n F c r F' ->
  handed_out first_frame (c, r) ⊆ F /\ handed_out first_frame (c, r) ## F' /\
  F' ⊆ F ∪ given_back first_frame c.
Proof.
  intros Hset. destruct Hset; cbn [handed_out given_back]; rewrite ?frame_address_page, ?frame_page; unfold block in *;
    try set_solver.
  pose proof (named_given first_frame n phys n0). cbn [given_back] in *. set_solver.
Qed.

Lemma never_handed_out first_frame n F rs F' p :
  page_sets first_frame n F rs F' -> p ∉ F -> (forall c, c ∈ rs.*1 -> p ∉ given_back first_frame c) ->
  base.filter (fun cr => p ∈ handed_out first_frame cr) rs = [].
Proof.
  induction 1 as [| F c r rs F' F'' Hset _ IH]; intros Hp Hback; [done |].
  pose proof (page_set_flow _ _ _ _ _ _ Hset) as (Hsub & _ & Hflow). simpl in Hback.
  rewrite filter_cons_False by set_solver. apply IH; [| set_solver].
  pose proof (Hback c ltac:(set_solver)). set_solver.
Qed.

(** No frame is handed out twice. Over any run of calls from a well-formed
    state, a page that none of the calls gives back is part of at most one
    allocation the run answers with. *)
Theorem frame_handed_out_once b cs rs b' p :
  buddy_inv b -> Forall call_u64 cs -> performs cs b = Some (rs, b') ->
  (forall c, c ∈ cs -> p ∉ given_back (base b) c) ->
  (length (base.filter (fun cr => p ∈ handed_out (base b) cr) rs) <= 1)%nat.
Proof.
  intros Hinv Hu Hrun Hback. destruct (wp_run _ _ _ (performs_kept cs b Hinv Hu)) as (rs' & b2 & Hrun' & Hrs & _ & _ & Hset).
  rewrite Hrun in Hrun'. injection Hrun' as <- <-. rewrite <- Hrs in Hback. clear -Hset Hback.
  induction Hset as [| F c r rs F' F'' Hset Hsets IH]; [simpl; lia |].
  pose proof (page_set_flow _ _ _ _ _ _ Hset) as (Hsub & Hout & Hflow). simpl in Hback.
  destruct (decide (p ∈ handed_out (base b) (c, r))) as [Hin | Hnin].
  - rewrite filter_cons_True by done. rewrite (never_handed_out _ _ _ _ _ p Hsets); [simpl; lia | set_solver | set_solver].
  - rewrite filter_cons_False by done. apply IH. set_solver.
Qed.

(** The masked word scan [any_bit_in_range] - the test that keeps a free from
    covering a smaller free block - answers exactly what asking the range bit by
    bit would, also where it starts or ends inside a word or runs past the order. *)
Theorem any_bit_in_range_is_bit_search b o start n :
  sound b -> (o <= MAX_ORDER)%nat -> 0 <= start ->
  any_bit_in_range o start n b = Some (existsb (bit b o) (seqZ start n), b).
Proof. intros. by apply run_any_bit_in_range. Qed.

(** ** A pool of twenty pages *)

Definition sample_calls : list call :=
  [FreeSpan 1048576 20; Alloc 1; AllocContiguous 3; AllocContiguousBelow 1 1048575; Free 1048576 1; Free 1048576 1;
   AnyFree 1048576 4; FreePages].

Definition empty_pool : Buddy :=
  match new 1048576 20 [Some 0%nat] with
  | Some (Some b, _) => b
  | _ => mkBuddy 0 0 [] [] [] [] [] 0
  end.

Definition pool_after (cs : list call) : Buddy :=
  match performs cs empty_pool with Some (_, b) => b | None => empty_pool end.

Definition sample_replies : list reply :=
  [Count 20; Frame (Some 1114112); Frame (Some 1048576); Frame None; Accepted true; Accepted false;
   Accepted true; Count 17].

Lemma new_empty_pool : new 1048576 20 [Some 0%nat] = Some (Some empty_pool, []).
Proof. by vm_compute. Qed.

Lemma pool_after_inv cs : Forall call_u64 cs -> buddy_inv (pool_after cs).
Proof.
  intros Hu. destruct (new_inv 1048576 20 [Some 0%nat] empty_pool []) as (Hinv & _); [lia | lia | apply new_empty_pool |].
  destruct (wp_run _ _ _ (performs_kept cs empty_pool Hinv Hu)) as (rs & b' & Hrun & _ & Hinv' & _).
  unfold pool_after. by rewrite Hrun.
Qed.

Lemma sample_u64 : Forall call_u64 sample_calls.
Proof. unfold sample_calls, call_u64, u64_range. repeat constructor; lia. Qed.

Lemma buddy_refines_page_set_witness :
  fmap (fun x => x.1.*2) (performs sample_calls empty_pool) = Some sample_replies /\
  exists rs b', performs sample_calls empty_pool = Some (rs, b') /\ rs.*1 = sample_calls /\
                page_sets 1048576 20 ∅ rs (free_set b').
Proof.
  split; [by vm_compute |].
  apply (buddy_refines_page_set 1048576 20 [Some 0%nat] empty_pool [] sample_calls);
    [unfold u64_range; lia | unfold u64_range; lia | apply new_empty_pool | apply sample_u64].
Defined.

Lemma buddy_state_well_formed_witness :
  let b' := pool_after sample_calls in
  buddy_inv b' /\ extent b' = (1048576, 20) /\ free_pages b' = Z.of_nat (size (free_set b')).
Proof.
  apply (buddy_state_well_formed 1048576 20 [Some 0%nat] empty_pool [] sample_calls (zip sample_calls sample_replies)
           (pool_after sample_calls));
    [unfold u64_range; lia | unfold u64_range; lia | apply new_empty_pool | apply sample_u64 | by vm_compute].
Defined.

Definition seeded_pool : Buddy := pool_after [FreeSpan 1048576 20].

Lemma seeded_inv : buddy_inv seeded_pool.
Proof. apply pool_after_inv. repeat constructor; unfold u64_range; lia. Qed.

Definition drain : list call := [Alloc 2; AllocContiguous 3; Free 1064960 1; Alloc 1; Alloc 0].

Definition drained : list (call * reply) :=
  match performs drain seeded_pool with Some (rs, _) => rs | None => [] end.

Lemma frame_handed_out_once_witness :
  (length (base.filter (fun cr => (16 : Z) ∈ handed_out (base seeded_pool) cr) drained) <= 1)%nat /\
  (length (base.filter (fun cr => (0 : Z) ∈ handed_out (base seeded_pool) cr) drained) = 1)%nat.
Proof.
  split; [| by vm_compute].
  apply (frame_handed_out_once seeded_pool drain drained
           (match performs drain seeded_pool with Some (_, b) => b | None => seeded_pool end) 16).
  - apply seeded_inv.
  - unfold drain. repeat constructor; unfold u64_range; lia.
  - by vm_compute.
  - intros c Hc. assert (forallb (fun c => bool_decide ((16 : Z) ∉ given_back (base seeded_pool) c)) drain = true) as Hall by by vm_compute.
    rewrite forallb_forall in Hall. by apply list_elem_of_In, Hall, bool_decide_eq_true in Hc.
Defined.

Lemma any_bit_in_range_is_bit_search_witness :
  any_bit_in_range 2 3 70 seeded_pool = Some (true, seeded_pool) /\
  any_bit_in_range 2 3 70 seeded_pool = Some (existsb (bit seeded_pool 2) (seqZ 3 70), seeded_pool).
Proof.
  split; [by vm_compute |]. apply (any_bit_in_range_is_bit_search seeded_pool 2 3 70).
  - apply seeded_inv.
  - unfold MAX_ORDER. lia.
  - lia.
Defined.
