(* ===== verification/Wire.v ===== *)
(** The wire codec (wire/src/lib.rs): byte sinks over a fixed buffer and over a
    growing vector, the list of transferred handles, the reader, and the JSON and
    CBOR renderers. Bytes are [Z] in [0, 256); floats travel as their bit
    patterns. *)

From S2P Require Import Prelude.

(** [abi::MAX_MESSAGE_CAPS]. *)
Definition MAX_HANDLES : nat := 4.

(** ** Sinks *)

(** [trait Sink]: what a concrete sink implements; [raw] has a default, which both
    sinks below override. *)
Class Sink (W : Type) := {
  put : Z -> E W unit;
  set_handle : Z -> E W unit;
  raw : list Z -> E W unit;
}.

Section sink.
Context {W : Type} `{Sink W}.

(** The default [raw]. *)
Fixpoint raw_default (s : list Z) : E W unit :=
  match s with
  | [] => mret tt
  | b :: s => put b ;; raw_default s
  end.

(** [to_le_bytes] of an [n]-byte value, two's complement for the signed ones. *)
Definition to_le_bytes (n : nat) (v : Z) : list Z := le_encode n (v mod 2 ^ (8 * Z.of_nat n)).

Definition put_boolean (v : bool) : E W unit := put (if v then 1 else 0).
Definition put_u8 (v : Z) : E W unit := put v.
Definition put_u16 (v : Z) : E W unit := raw (to_le_bytes 2 v).
Definition put_u32 (v : Z) : E W unit := raw (to_le_bytes 4 v).
Definition put_u64 (v : Z) : E W unit := raw (to_le_bytes 8 v).
Definition put_i8 (v : Z) : E W unit := raw (to_le_bytes 1 v).
Definition put_i16 (v : Z) : E W unit := raw (to_le_bytes 2 v).
Definition put_i32 (v : Z) : E W unit := raw (to_le_bytes 4 v).
Definition put_i64 (v : Z) : E W unit := raw (to_le_bytes 8 v).
Definition put_f32 (bits : Z) : E W unit := raw (to_le_bytes 4 bits).
Definition put_f64 (bits : Z) : E W unit := raw (to_le_bytes 8 bits).

Definition U16_MAX : Z := 65535.

Definition put_bytes_lp (s : list Z) : E W unit :=
  if U16_MAX <? Z.of_nat (length s) then refuse
  else put_u16 (Z.of_nat (length s)) ;; raw s.

End sink.

Definition no_handles : list Z := replicate MAX_HANDLES 0.

(** *** The sink over a caller's buffer *)

Record SliceWriter := mkSliceWriter {
  sw_buf : list Z;
  sw_pos : nat;
  sw_handles : list Z;
  sw_handle_count : nat;
}.

Definition slice_writer_new (buf : list Z) : SliceWriter := mkSliceWriter buf 0 no_handles 0.
Definition slice_writer_handle (w : SliceWriter) : Z := nth 0 (sw_handles w) 0.
Definition slice_writer_handles (w : SliceWriter) : list Z := take (sw_handle_count w) (sw_handles w).
Definition slice_writer_has_handle (w : SliceWriter) : bool := (0 <? sw_handle_count w)%nat.
Definition slice_writer_finish (w : SliceWriter) : option nat :=
  if (sw_handle_count w =? 0)%nat then Some (sw_pos w) else None.
Definition slice_writer_reset (w : SliceWriter) : SliceWriter := mkSliceWriter (sw_buf w) 0 no_handles 0.

Definition slice_put (b : Z) : E SliceWriter unit := fun w =>
  match sw_buf w !! sw_pos w with
  | None => (None, w)
  | Some _ => (Some tt, mkSliceWriter (<[sw_pos w := b]> (sw_buf w)) (S (sw_pos w)) (sw_handles w) (sw_handle_count w))
  end.

(** [buf[pos..end].copy_from_slice(s)], [None] when the range leaves the buffer. *)
Definition slice_raw (s : list Z) : E SliceWriter unit := fun w =>
  match checked_add U64_MAX (Z.of_nat (sw_pos w)) (Z.of_nat (length s)) with
  | None => (None, w)
  | Some _ =>
      let stop := (sw_pos w + length s)%nat in
      if (length (sw_buf w) <? stop)%nat then (None, w)
      else (Some tt, mkSliceWriter (take (sw_pos w) (sw_buf w) ++ s ++ drop stop (sw_buf w)) stop
                       (sw_handles w) (sw_handle_count w))
  end.

Definition slice_set_handle (h : Z) : E SliceWriter unit := fun w =>
  if (MAX_HANDLES <=? sw_handle_count w)%nat then (None, w)
  else (Some tt, mkSliceWriter (sw_buf w) (sw_pos w) (<[sw_handle_count w := h]> (sw_handles w)) (S (sw_handle_count w))).

#[export] Instance slice_sink : Sink SliceWriter :=
  {| put := slice_put; set_handle := slice_set_handle; raw := slice_raw |}.

(** *** The list of transferred handles *)

Record Handles := mkHandles { h_list : list Z; h_count : nat }.

Definition handles_new : Handles := mkHandles no_handles 0.

Fixpoint handles_fill (l : list Z) (h : Handles) : Handles :=
  match l with
  | [] => h
  | x :: l => handles_fill l (mkHandles (<[h_count h := x]> (h_list h)) (S (h_count h)))
  end.

Definition try_from_slice (l : list Z) : option Handles :=
  if (MAX_HANDLES <? length l)%nat then None else Some (handles_fill l handles_new).

Definition try_from_array (l : list Z) (count : nat) : option Handles :=
  if (MAX_HANDLES <? count)%nat then None else Some (handles_fill (take count l) handles_new).

(** [self.list.get(..self.count)], nothing when the count leaves the array. *)
Definition as_slice (h : Handles) : list Z :=
  if (h_count h <=? length (h_list h))%nat then take (h_count h) (h_list h) else [].
Definition handles_len (h : Handles) : nat := h_count h.
Definition handles_is_empty (h : Handles) : bool := (h_count h =? 0)%nat.
Definition handles_first (h : Handles) : Z := if (h_count h =? 0)%nat then 0 else nth 0 (h_list h) 0.

Definition handles_push (x : Z) : E Handles unit := fun h =>
  if (MAX_HANDLES <=? h_count h)%nat then (None, h)
  else (Some tt, mkHandles (<[h_count h := x]> (h_list h)) (S (h_count h))).

(** [while index < self.count]: shift one down; [n] is [count - index]. *)
Fixpoint shift_down (n index : nat) (l : list Z) : list Z :=
  match n with
  | O => l
  | S n => shift_down n (S index) (<[(index - 1)%nat := nth index l 0]> l)
  end.
Definition take_first (h : Handles) : Z * Handles :=
  if (h_count h =? 0)%nat then (0, h)
  else
    let first := nth 0 (h_list h) 0 in
    let l := shift_down (h_count h - 1) 1 (h_list h) in
    let count := (h_count h - 1)%nat in
    (first, mkHandles (<[count := 0]> l) count).
Definition handles_clear (_ : Handles) : Handles := mkHandles no_handles 0.

(** *** The growing sink *)

Record VecWriter := mkVecWriter {
  vw_buf : vec Z;
  vw_handles : list Z;
  vw_handle_count : nat;
}.

Definition vec_writer_new : VecWriter := mkVecWriter vec_new no_handles 0.
Definition vec_writer_handle (w : VecWriter) : Z := nth 0 (vw_handles w) 0.
Definition vec_writer_handles (w : VecWriter) : list Z := take (vw_handle_count w) (vw_handles w).
Definition into_inner (w : VecWriter) : option (list Z) :=
  if (vw_handle_count w =? 0)%nat then Some (items (vw_buf w)) else None.

(** [while index < self.handle_count]: copy one; [n] is [handle_count - index]. *)
Fixpoint copy_handles (n index : nat) (src dst : list Z) : list Z :=
  match n with
  | O => dst
  | S n => copy_handles n (S index) src (<[index := nth index src 0]> dst)
  end.
Definition into_message (w : VecWriter) : list Z * Handles :=
  (items (vw_buf w), mkHandles (copy_handles (vw_handle_count w) 0 (vw_handles w) no_handles) (vw_handle_count w)).

(** The growing sink and the heap it grows on. *)
Definition vec_raw (s : list Z) : E (VecWriter * heap) unit := fun '(w, h) =>
  match try_reserve (vw_buf w) (length s) h with
  | Some ((true, v), h') =>
      (Some tt, (mkVecWriter (Vec (items v ++ s) (capacity v)) (vw_handles w) (vw_handle_count w), h'))
  | Some ((false, v), h') => (None, (mkVecWriter v (vw_handles w) (vw_handle_count w), h'))
  | None => (None, (w, h))
  end.
Definition vec_put (b : Z) : E (VecWriter * heap) unit := vec_raw [b].
Definition vec_set_handle (x : Z) : E (VecWriter * heap) unit := fun '(w, h) =>
  if (MAX_HANDLES <=? vw_handle_count w)%nat then (None, (w, h))
  else (Some tt, (mkVecWriter (vw_buf w) (<[vw_handle_count w := x]> (vw_handles w)) (S (vw_handle_count w)), h)).

#[export] Instance vec_sink : Sink (VecWriter * heap) :=
  {| put := vec_put; set_handle := vec_set_handle; raw := vec_raw |}.

(** ** The reader *)

Record Reader := mkReader {
  r_buf : list Z;
  r_pos : nat;
  r_handles : list Z;
  r_count : nat;
  r_taken : nat;
}.

Definition reader_new (buf : list Z) : Reader := mkReader buf 0 no_handles 0 0.
Definition with_handle (buf : list Z) (handle : Z) : Reader := mkReader buf 0 (<[0%nat := handle]> no_handles) 1 0.
Definition with_handles (buf : list Z) (transferred : Handles) : Reader :=
  let taken := as_slice transferred in
  mkReader buf 0 (taken ++ drop (length taken) no_handles) (length taken) 0.
Definition with_handle_list (buf : list Z) (transferred : Handles) : Reader := with_handles buf transferred.

Definition take_handle : E Reader Z := fun r =>
  if (r_count r <=? r_taken r)%nat then (None, r)
  else (Some (nth (r_taken r) (r_handles r) 0),
        mkReader (r_buf r) (r_pos r) (r_handles r) (r_count r) (S (r_taken r))).
Definition reader_has_handle (r : Reader) : bool := (r_taken r <? r_count r)%nat.

(** [self.buf.get(self.pos..self.pos + n)]. *)
Definition take_bytes (n : nat) : E Reader (list Z) := fun r =>
  if (length (r_buf r) <? r_pos r + n)%nat then (None, r)
  else (Some (take n (drop (r_pos r) (r_buf r))),
        mkReader (r_buf r) (r_pos r + n) (r_handles r) (r_count r) (r_taken r)).

(** [from_le_bytes] of an [n]-byte signed value. *)
Definition to_signed (n : nat) (v : Z) : Z := if v <? 2 ^ (8 * Z.of_nat n - 1) then v else v - 2 ^ (8 * Z.of_nat n).

Definition get_u8 : E Reader Z := s ← take_bytes 1; mret (nth 0 s 0).
Definition get_u16 : E Reader Z := s ← take_bytes 2; mret (le_decode s).
Definition get_u32 : E Reader Z := s ← take_bytes 4; mret (le_decode s).
Definition get_u64 : E Reader Z := s ← take_bytes 8; mret (le_decode s).
Definition get_i8 : E Reader Z := s ← take_bytes 1; mret (to_signed 1 (le_decode s)).
Definition get_i16 : E Reader Z := s ← take_bytes 2; mret (to_signed 2 (le_decode s)).
Definition get_i32 : E Reader Z := s ← take_bytes 4; mret (to_signed 4 (le_decode s)).
Definition get_i64 : E Reader Z := s ← take_bytes 8; mret (to_signed 8 (le_decode s)).
Definition get_f32 : E Reader Z := s ← take_bytes 4; mret (le_decode s).
Definition get_f64 : E Reader Z := s ← take_bytes 8; mret (le_decode s).

Definition tag : E Reader bool :=
  v ← get_u8;
  if v =? 0 then mret false else if v =? 1 then mret true else refuse.
Definition get_boolean : E Reader bool := tag.

Definition reader_finish (r : Reader) : option unit :=
  if negb (r_pos r =? length (r_buf r))%nat || negb (r_taken r =? r_count r)%nat then None else Some tt.

Definition get_bytes_lp : E Reader (list Z) := n ← get_u16; take_bytes (Z.to_nat n).

(** *** [String::from_utf8]: the well-formed byte sequences of the Unicode standard *)

Definition continuation (b : Z) : bool := (128 <=? b) && (b <=? 191).
Definition between (lo hi b : Z) : bool := (lo <=? b) && (b <=? hi).

Fixpoint utf8_valid (s : list Z) : bool :=
  match s with
  | [] => true
  | b0 :: s0 =>
      if between 0 127 b0 then utf8_valid s0
      else
        match s0 with
        | [] => false
        | b1 :: s1 =>
            if between 194 223 b0 then continuation b1 && utf8_valid s1
            else
              match s1 with
              | [] => false
              | b2 :: s2 =>
                  if between 224 239 b0 then
                    (if b0 =? 224 then between 160 191 b1 else if b0 =? 237 then between 128 159 b1 else continuation b1)
                    && continuation b2 && utf8_valid s2
                  else
                    match s2 with
                    | [] => false
                    | b3 :: s3 =>
                        between 240 244 b0
                        && (if b0 =? 240 then between 144 191 b1 else if b0 =? 244 then between 128 143 b1 else continuation b1)
                        && continuation b2 && continuation b3 && utf8_valid s3
                    end
              end
        end
  end.

(** A reader computation on a heap. *)
Definition on_reader {A} (m : E Reader A) : E (Reader * heap) A := fun '(r, h) =>
  let '(a, r') := m r in (a, (r', h)).

(** The fallible copy of [string_lp] and the check of its encoding. *)
Definition own_string (bytes : list Z) : E (Reader * heap) (list Z) := fun '(r, h) =>
  match try_reserve (vec_new (A := Z)) (length bytes) h with
  | Some ((true, _), h') => (if utf8_valid bytes then Some bytes else None, (r, h'))
  | Some ((false, _), h') => (None, (r, h'))
  | None => (None, (r, h))
  end.

Definition string_lp : E (Reader * heap) (list Z) :=
  bytes ← on_reader get_bytes_lp;
  own_string bytes.

(** ** Received authority *)

Definition NO_REQUIRED_TYPE : Z := U64_MAX.

(** The runtime's [liber_handle_authority] is the parameter: a packed word, the
    rights below the object type. *)
Definition handle_carries (liber_handle_authority : Z -> Z) (handle required_rights required_type : Z) : bool :=
  let authority := liber_handle_authority handle in
  if authority =? U64_MAX then false
  else
    let rights := wrap32 authority in
    let object_type := Z.shiftr authority 32 in
    if negb (required_type =? NO_REQUIRED_TYPE) && negb (object_type =? required_type) then false
    else Z.land rights required_rights =? required_rights.
