(* ===== verification/WireFacts.v ===== *)
(** The wire codec, one field at a time: what a sink promises the encoders, what the
    reader gives back, and why each value has one encoding. *)

From S2P Require Import Prelude Wire.

(** ** Machine values and their bytes *)

Lemma pow_bytes n : 256 ^ Z.of_nat n = 2 ^ (8 * Z.of_nat n).
Proof. change 256 with (2 ^ 8). rewrite <- Z.pow_mul_r by lia. done. Qed.

Lemma length_to_le_bytes n v : length (to_le_bytes n v) = n.
Proof. apply length_le_encode. Qed.

Lemma to_le_bytes_bytes n v : Forall byte_range (to_le_bytes n v).
Proof. apply le_encode_bytes. Qed.

Definition unsigned (n : nat) (v : Z) : Prop := 0 <= v < 2 ^ (8 * Z.of_nat n).
Definition signed (n : nat) (v : Z) : Prop := - 2 ^ (8 * Z.of_nat n - 1) <= v < 2 ^ (8 * Z.of_nat n - 1).

Lemma unsigned_roundtrip n v : unsigned n v -> le_decode (to_le_bytes n v) = v.
Proof.
  intros Hv. unfold to_le_bytes. rewrite Z.mod_small by done. apply le_decode_encode. by rewrite pow_bytes.
Qed.

Lemma unsigned_canonical s : Forall byte_range s -> to_le_bytes (length s) (le_decode s) = s /\ unsigned (length s) (le_decode s).
Proof.
  intros Hs. pose proof (le_decode_range s Hs) as Hr. rewrite pow_bytes in Hr. split; [| done].
  unfold to_le_bytes. rewrite Z.mod_small by done. by apply le_encode_decode.
Qed.

Lemma half_pow n : (0 < n)%nat -> 2 ^ (8 * Z.of_nat n) = 2 * 2 ^ (8 * Z.of_nat n - 1).
Proof. intros Hn. rewrite <- Z.pow_succ_r by lia. f_equal. lia. Qed.

Lemma to_signed_mod n v : (0 < n)%nat -> signed n v -> to_signed n (v mod 2 ^ (8 * Z.of_nat n)) = v.
Proof.
  intros Hn Hv. unfold signed, to_signed in *. pose proof (half_pow n Hn).
  destruct (Z.ltb_spec v 0).
  - rewrite <- (Z.mod_add v 1), Z.mod_small by lia. case_bool; lia.
  - rewrite Z.mod_small by lia. case_bool; lia.
Qed.

Lemma signed_roundtrip n v : (0 < n)%nat -> signed n v -> to_signed n (le_decode (to_le_bytes n v)) = v.
Proof.
  intros Hn Hv. unfold to_le_bytes. rewrite le_decode_encode; [by apply to_signed_mod |].
  rewrite pow_bytes. apply Z.mod_pos_bound. pose proof (Z.pow_pos_nonneg 2 (8 * Z.of_nat n)). lia.
Qed.

Lemma signed_canonical s :
  (0 < length s)%nat -> Forall byte_range s ->
  to_le_bytes (length s) (to_signed (length s) (le_decode s)) = s /\ signed (length s) (to_signed (length s) (le_decode s)).
Proof.
  intros Hn Hs. pose proof (le_decode_range s Hs) as Hr. rewrite pow_bytes in Hr. pose proof (half_pow _ Hn).
  split; [| unfold signed, to_signed; case_bool; lia].
  unfold to_le_bytes. rewrite <- (le_encode_decode s Hs) at 5. f_equal. unfold to_signed.
  case_bool; [by apply Z.mod_small |]. rewrite <- (Z.mod_add _ 1), Z.mod_small by lia. lia.
Qed.

(** ** Fields *)

(** The field types of a message the codec offers a primitive for. *)
Inductive kind :=
| KBool | KU8 | KU16 | KU32 | KU64 | KI8 | KI16 | KI32 | KI64 | KF32 | KF64 | KBytes | KString | KHandle.

Inductive value :=
| VBool (b : bool)
| VU8 (v : Z) | VU16 (v : Z) | VU32 (v : Z) | VU64 (v : Z)
| VI8 (v : Z) | VI16 (v : Z) | VI32 (v : Z) | VI64 (v : Z)
| VF32 (bits : Z) | VF64 (bits : Z)
| VBytes (s : list Z)
| VString (s : list Z)
| VHandle (h : Z).

Definition kind_of (v : value) : kind :=
  match v with
  | VBool _ => KBool | VU8 _ => KU8 | VU16 _ => KU16 | VU32 _ => KU32 | VU64 _ => KU64
  | VI8 _ => KI8 | VI16 _ => KI16 | VI32 _ => KI32 | VI64 _ => KI64 | VF32 _ => KF32 | VF64 _ => KF64
  | VBytes _ => KBytes | VString _ => KString | VHandle _ => KHandle
  end.

(** The values of the Rust types. *)
Definition valid (v : value) : Prop :=
  match v with
  | VBool _ => True
  | VU8 v => unsigned 1 v | VU16 v => unsigned 2 v | VU32 v => unsigned 4 v | VU64 v => unsigned 8 v
  | VI8 v => signed 1 v | VI16 v => signed 2 v | VI32 v => signed 4 v | VI64 v => signed 8 v
  | VF32 v => unsigned 4 v | VF64 v => unsigned 8 v
  | VBytes s => Forall byte_range s
  | VString s => Forall byte_range s /\ utf8_valid s = true
  | VHandle _ => True
  end.

(** The bytes of a value in the stream, and the handles beside it. *)
Definition enc_bytes (v : value) : list Z :=
  match v with
  | VBool b => [if b then 1 else 0]
  | VU8 v => [v] | VU16 v => to_le_bytes 2 v | VU32 v => to_le_bytes 4 v | VU64 v => to_le_bytes 8 v
  | VI8 v => to_le_bytes 1 v | VI16 v => to_le_bytes 2 v | VI32 v => to_le_bytes 4 v | VI64 v => to_le_bytes 8 v
  | VF32 v => to_le_bytes 4 v | VF64 v => to_le_bytes 8 v
  | VBytes s | VString s => to_le_bytes 2 (Z.of_nat (length s)) ++ s
  | VHandle _ => []
  end.
Definition enc_handles (v : value) : list Z := match v with VHandle h => [h] | _ => [] end.

(** Byte strings a length prefix can describe. *)
Definition prefixed (v : value) : bool :=
  match v with VBytes s | VString s => Z.of_nat (length s) <=? U16_MAX | _ => true end.

Definition write_value {W} `{Sink W} (v : value) : E W unit :=
  match v with
  | VBool b => put_boolean b
  | VU8 v => put_u8 v | VU16 v => put_u16 v | VU32 v => put_u32 v | VU64 v => put_u64 v
  | VI8 v => put_i8 v | VI16 v => put_i16 v | VI32 v => put_i32 v | VI64 v => put_i64 v
  | VF32 v => put_f32 v | VF64 v => put_f64 v
  | VBytes s | VString s => put_bytes_lp s
  | VHandle h => set_handle h
  end.

Fixpoint write_fields {W} `{Sink W} (vs : list value) : E W unit :=
  match vs with
  | [] => mret tt
  | v :: vs => write_value v ;; write_fields vs
  end.

Definition read_value (k : kind) : E (Reader * heap) value :=
  match k with
  | KBool => v ← on_reader get_boolean; mret (VBool v)
  | KU8 => v ← on_reader get_u8; mret (VU8 v)
  | KU16 => v ← on_reader get_u16; mret (VU16 v)
  | KU32 => v ← on_reader get_u32; mret (VU32 v)
  | KU64 => v ← on_reader get_u64; mret (VU64 v)
  | KI8 => v ← on_reader get_i8; mret (VI8 v)
  | KI16 => v ← on_reader get_i16; mret (VI16 v)
  | KI32 => v ← on_reader get_i32; mret (VI32 v)
  | KI64 => v ← on_reader get_i64; mret (VI64 v)
  | KF32 => v ← on_reader get_f32; mret (VF32 v)
  | KF64 => v ← on_reader get_f64; mret (VF64 v)
  | KBytes => s ← on_reader get_bytes_lp; mret (VBytes s)
  | KString => s ← string_lp; mret (VString s)
  | KHandle => h ← on_reader take_handle; mret (VHandle h)
  end.

Fixpoint read_fields (ks : list kind) : E (Reader * heap) (list value) :=
  match ks with
  | [] => mret []
  | k :: ks => v ← read_value k; vs ← read_fields ks; mret (v :: vs)
  end.

Definition message_bytes (vs : list value) : list Z := vs ≫= enc_bytes.
Definition message_handles (vs : list value) : list Z := vs ≫= enc_handles.

(** ** What a sink promises *)

(** What has gone into a sink, and that an operation that succeeds appends exactly
    what it was given. *)
Class SinkLaws (W : Type) `{Sink W} := {
  sink_bytes : W -> list Z;
  sink_handles : W -> list Z;
  sink_ok : W -> Prop;
  put_law b w w' : sink_ok w -> put b w = (Some tt, w') ->
    sink_ok w' /\ sink_bytes w' = sink_bytes w ++ [b] /\ sink_handles w' = sink_handles w;
  raw_law s w w' : sink_ok w -> raw s w = (Some tt, w') ->
    sink_ok w' /\ sink_bytes w' = sink_bytes w ++ s /\ sink_handles w' = sink_handles w;
  set_handle_law h w w' : sink_ok w -> set_handle h w = (Some tt, w') ->
    sink_ok w' /\ sink_bytes w' = sink_bytes w /\ sink_handles w' = sink_handles w ++ [h];
  handles_law w : sink_ok w -> (length (sink_handles w) <= MAX_HANDLES)%nat;
}.

Section writing.
Context {W : Type} `{SinkLaws W}.

(** A value that went in: its bytes and handles, appended. *)
Lemma write_value_appends v w w' :
  sink_ok w -> write_value v w = (Some tt, w') ->
  sink_ok w' /\ sink_bytes w' = sink_bytes w ++ enc_bytes v /\ sink_handles w' = sink_handles w ++ enc_handles v /\
  prefixed v = true.
Proof.
  intros Hok Hw.
  assert (forall s, raw s w = (Some tt, w') -> sink_ok w' /\ sink_bytes w' = sink_bytes w ++ s /\
            sink_handles w' = sink_handles w ++ [] /\ true = true) as Hraw.
  { intros s Hs. rewrite app_nil_r. by destruct (raw_law s w w' Hok Hs) as (? & ? & ?). }
  assert (forall b, put b w = (Some tt, w') -> sink_ok w' /\ sink_bytes w' = sink_bytes w ++ [b] /\
            sink_handles w' = sink_handles w ++ [] /\ true = true) as Hput.
  { intros b Hb. rewrite app_nil_r. by destruct (put_law b w w' Hok Hb) as (? & ? & ?). }
  assert (forall s, put_bytes_lp s w = (Some tt, w') ->
            sink_ok w' /\ sink_bytes w' = sink_bytes w ++ to_le_bytes 2 (Z.of_nat (length s)) ++ s /\
            sink_handles w' = sink_handles w ++ [] /\ (Z.of_nat (length s) <=? U16_MAX) = true) as Hlp.
  { intros s Hs. unfold put_bytes_lp in Hs. destruct (Z.ltb_spec U16_MAX (Z.of_nat (length s))); [done |].
    apply E_bind_some in Hs as ([] & w1 & HA & HB). apply raw_law in HA as (Hok1 & Hb1 & Hh1); [| done].
    apply raw_law in HB as (Hok2 & Hb2 & Hh2); [| done]. split; [done |].
    rewrite Hb2, Hb1, Hh2, Hh1, <- app_assoc, app_nil_r. split; [done |]. split; [done |]. by apply Z.leb_le. }
  destruct v; cbn [write_value enc_bytes enc_handles prefixed] in *; try (by apply Hraw); try (by apply Hput); try (by apply Hlp).
  apply set_handle_law in Hw as (? & ? & ?); [| done]. by rewrite app_nil_r.
Qed.

Lemma write_fields_appends vs w w' :
  sink_ok w -> write_fields vs w = (Some tt, w') ->
  sink_ok w' /\ sink_bytes w' = sink_bytes w ++ message_bytes vs /\
  sink_handles w' = sink_handles w ++ message_handles vs /\ forallb prefixed vs = true.
Proof.
  revert w. induction vs as [| v vs IH]; intros w Hok Hw; cbn [write_fields] in Hw.
  - injection Hw as <-. unfold message_bytes, message_handles. simpl. by rewrite !app_nil_r.
  - apply E_bind_some in Hw as ([] & w1 & HA & HB).
    apply write_value_appends in HA as (Hok1 & Hb1 & Hh1 & Hp1); [| done].
    apply IH in HB as (Hok2 & Hb2 & Hh2 & Hp2); [| done]. split; [done |].
    unfold message_bytes, message_handles in *. rewrite !bind_cons, Hb2, Hb1, Hh2, Hh1, <- !app_assoc.
    split; [done |]. split; [done |]. simpl. by rewrite Hp1, Hp2.
Qed.

End writing.

(** ** What the reader has left *)

Record rest (r : Reader) (bs hs : list Z) : Prop := {
  rest_bytes : drop (r_pos r) (r_buf r) = bs;
  rest_pos : (r_pos r <= length (r_buf r))%nat;
  rest_handles : drop (r_taken r) (take (r_count r) (r_handles r)) = hs;
  rest_taken : (r_taken r <= r_count r <= length (r_handles r))%nat;
}.

Lemma finish_iff r bs hs : rest r bs hs -> reader_finish r = Some tt <-> bs = [] /\ hs = [].
Proof.
  intros [<- Hp <- Ht]. unfold reader_finish. split.
  - destruct (Nat.eqb_spec (r_pos r) (length (r_buf r))) as [-> |]; [| done].
    destruct (Nat.eqb_spec (r_taken r) (r_count r)) as [-> |]; [| done]. intros _. rewrite !drop_ge; [done | | lia].
    rewrite length_take. lia.
  - intros [Hb Hh]. apply (f_equal length) in Hb, Hh. rewrite length_drop in Hb, Hh. rewrite length_take in Hh.
    simpl in *. rewrite (proj2 (Nat.eqb_eq (r_pos r) _)), (proj2 (Nat.eqb_eq (r_taken r) _)) by lia. done.
Qed.

(** Bytes come out as they lie, and only as many as there are. *)
Lemma take_bytes_run r s bs hs :
  rest r (s ++ bs) hs -> exists r', take_bytes (length s) r = (Some s, r') /\ rest r' bs hs.
Proof.
  intros [Hb Hp Hh Ht]. unfold take_bytes. pose proof (f_equal length Hb) as Hlen.
  rewrite length_drop, length_app in Hlen. destruct (Nat.ltb_spec (length (r_buf r)) (r_pos r + length s)); [lia |].
  rewrite Hb, take_app_length. eexists. split; [done |].
  split; simpl; [| lia | done | done]. by rewrite <- drop_drop, Hb, drop_app_length.
Qed.

Lemma take_bytes_inv r n s r' bs hs :
  rest r bs hs -> take_bytes n r = (Some s, r') -> exists bs', bs = s ++ bs' /\ length s = n /\ rest r' bs' hs.
Proof.
  intros [Hb Hp Hh Ht]. unfold take_bytes.
  destruct (Nat.ltb_spec (length (r_buf r)) (r_pos r + n)) as [| Hle]; [done |]. intros [= <- <-].
  exists (drop n bs). rewrite Hb, take_drop. split; [done |].
  split; [subst bs; rewrite length_take, length_drop; lia |].
  split; simpl; [by rewrite <- drop_drop, Hb | lia | done | done].
Qed.

Lemma take_handle_run r x bs hs :
  rest r bs (x :: hs) -> exists r', take_handle r = (Some x, r') /\ rest r' bs hs.
Proof.
  intros [Hb Hp Hh Ht]. unfold take_handle. pose proof (f_equal length Hh) as Hlen.
  rewrite length_drop, length_take in Hlen. simpl in Hlen.
  destruct (Nat.leb_spec (r_count r) (r_taken r)); [lia |].
  assert (r_handles r !! r_taken r = Some x) as Hx.
  { pose proof (f_equal (fun l => l !! 0%nat) Hh) as H0. simpl in H0.
    rewrite lookup_drop, Nat.add_0_r, lookup_take in H0. by case_decide. }
  rewrite (nth_lookup_Some _ _ 0 x Hx). eexists. split; [done |].
  split; simpl; [done | done | | lia]. by rewrite <- Nat.add_1_r, <- drop_drop, Hh.
Qed.

Lemma take_handle_inv r x r' bs hs :
  rest r bs hs -> take_handle r = (Some x, r') -> exists hs', hs = x :: hs' /\ rest r' bs hs'.
Proof.
  intros [Hb Hp Hh Ht]. unfold take_handle.
  destruct (Nat.leb_spec (r_count r) (r_taken r)); [done |]. intros [= <- <-].
  exists (drop 1 hs). split.
  - destruct (lookup_lt_is_Some_2 (r_handles r) (r_taken r) ltac:(lia)) as [x Hx].
    rewrite (nth_lookup_Some _ _ 0 x Hx), <- Hh. rewrite drop_drop, Nat.add_1_r. apply drop_S.
    rewrite lookup_take. by case_decide; [| lia].
  - split; simpl; [done | done | | lia]. by rewrite <- Nat.add_1_r, <- drop_drop, Hh.
Qed.

(** A reader over a message and what travelled beside it. *)
Lemma with_handles_rest buf hs : rest (with_handles buf hs) buf (as_slice hs).
Proof.
  unfold with_handles. split; simpl; [done | lia | by rewrite drop_0, take_app_length |].
  rewrite length_app. lia.
Qed.

(** ** Fields, read back *)

#[local] Arguments utf8_valid : simpl never.

(** The heap grants the next [n] requests. *)
Definition grants (n : nat) (h : heap) : Prop := (n <= length h)%nat /\ Forall is_Some (take n h).

Definition cost (v : value) : nat := match v with VString (_ :: _) => 1 | _ => 0 end.

Lemma own_string_run s r h :
  utf8_valid s = true -> grants (cost (VString s)) h -> own_string s (r, h) = (Some s, (r, drop (cost (VString s)) h)).
Proof.
  intros Hu [Hn Hg]. unfold own_string, try_reserve, vec_len, vec_new. simpl. destruct s as [| b s]; [done |].
  cbn [cost] in Hn, Hg. destruct h as [| [slack |] h]; simpl in Hn; [lia | | by inversion Hg as [| ? ? [? ?]]].
  simpl. rewrite drop_0. by rewrite Hu.
Qed.

Lemma own_string_inv s r h s' r' h' :
  own_string s (r, h) = (Some s', (r', h')) -> s' = s /\ r' = r /\ utf8_valid s = true.
Proof.
  unfold own_string. destruct (try_reserve _ _ h) as [[[[|] v] h1] |]; [| done | done].
  destruct (utf8_valid s); [| done]. by intros [= <- <- <-].
Qed.

Lemma on_reader_run {A} (m : E Reader A) r h a r' : m r = (Some a, r') -> on_reader m (r, h) = (Some a, (r', h)).
Proof. unfold on_reader. by intros ->. Qed.

Lemma on_reader_inv {A} (m : E Reader A) r h a r' h' :
  on_reader m (r, h) = (Some a, (r', h')) -> m r = (Some a, r') /\ h' = h.
Proof. unfold on_reader. destruct (m r) as [x y]. by intros [= -> -> ->]. Qed.

Section scalar.
Context {A : Type} (n : nat) (f : list Z -> A) (c : A -> value).

(** A value of a fixed number of bytes. *)
Definition read_scalar : E (Reader * heap) value := v ← on_reader (s ← take_bytes n; mret (f s)); mret (c v).

Lemma read_scalar_run r h s bs hs :
  length s = n -> rest r (s ++ bs) hs -> exists r', read_scalar (r, h) = (Some (c (f s)), (r', h)) /\ rest r' bs hs.
Proof.
  intros Hlen Hr. destruct (take_bytes_run r s bs hs Hr) as (r' & Hrun & Hr'). exists r'. split; [| done].
  rewrite Hlen in Hrun. unfold read_scalar. rewrite (E_bind_run (on_reader _) _ (r, h) (f s) (r', h)); [done |].
  apply on_reader_run. by rewrite (E_bind_run _ _ _ _ _ Hrun).
Qed.

Lemma read_scalar_inv r h v r' h' bs hs :
  rest r bs hs -> read_scalar (r, h) = (Some v, (r', h')) ->
  exists s bs', bs = s ++ bs' /\ length s = n /\ v = c (f s) /\ rest r' bs' hs.
Proof.
  intros Hr Hrun. unfold read_scalar in Hrun. apply E_bind_some in Hrun as (a & [r1 h1] & HA & [= <- <- <-]).
  apply on_reader_inv in HA as [HA _]. apply E_bind_some in HA as (s & r2 & HB & [= <- <-]).
  destruct (take_bytes_inv _ _ _ _ _ _ Hr HB) as (bs' & -> & Hlen & Hr'). by exists s, bs'.
Qed.

End scalar.

Lemma tag_run r (b : bool) bs hs :
  rest r ((if b then 1 else 0) :: bs) hs -> exists r', tag r = (Some b, r') /\ rest r' bs hs.
Proof.
  intros Hr. destruct (take_bytes_run r [if b then 1 else 0] bs hs Hr) as (r' & Hrun & Hr').
  exists r'. split; [| done]. unfold tag, get_u8.
  rewrite (E_bind_run (mbind _ _) _ r (if b then 1 else 0) r') by (by rewrite (E_bind_run _ _ _ _ _ Hrun)). by destruct b.
Qed.

Lemma tag_inv r (b : bool) r' bs hs :
  rest r bs hs -> tag r = (Some b, r') -> exists bs', bs = (if b then 1 else 0) :: bs' /\ rest r' bs' hs.
Proof.
  intros Hr Hrun. unfold tag, get_u8 in Hrun. apply E_bind_some in Hrun as (v & r1 & HA & HB).
  apply E_bind_some in HA as (s & r2 & HC & [= <- <-]).
  destruct (take_bytes_inv _ _ _ _ _ _ Hr HC) as (bs' & -> & Hlen & Hr').
  destruct s as [| x [| y s]]; simpl in Hlen; try lia. simpl in HB. exists bs'.
  destruct (Z.eqb_spec x 0) as [-> |]; [by injection HB as <- <- |].
  destruct (Z.eqb_spec x 1) as [-> |]; [by injection HB as <- <- | done].
Qed.

Lemma get_bytes_lp_run r s bs hs :
  Z.of_nat (length s) <= U16_MAX -> rest r ((to_le_bytes 2 (Z.of_nat (length s)) ++ s) ++ bs) hs ->
  exists r', get_bytes_lp r = (Some s, r') /\ rest r' bs hs.
Proof.
  intros Hlen Hr. rewrite <- app_assoc in Hr.
  destruct (take_bytes_run r (to_le_bytes 2 (Z.of_nat (length s))) _ hs Hr) as (r1 & Hrun1 & Hr1).
  destruct (take_bytes_run r1 s bs hs Hr1) as (r2 & Hrun2 & Hr2). exists r2. split; [| done].
  rewrite length_to_le_bytes in Hrun1. unfold get_bytes_lp, get_u16.
  rewrite (E_bind_run (mbind _ _) _ r (Z.of_nat (length s)) r1), Nat2Z.id; [done |].
  rewrite (E_bind_run _ _ _ _ _ Hrun1). unfold mret, E_ret. rewrite unsigned_roundtrip; [done |].
  unfold unsigned, U16_MAX in *. change (2 ^ (8 * Z.of_nat 2)) with 65536. lia.
Qed.

Lemma get_bytes_lp_inv r s r' bs hs :
  Forall byte_range bs -> rest r bs hs -> get_bytes_lp r = (Some s, r') ->
  exists bs', bs = (to_le_bytes 2 (Z.of_nat (length s)) ++ s) ++ bs' /\ rest r' bs' hs.
Proof.
  intros Hbytes Hr Hrun. unfold get_bytes_lp, get_u16 in Hrun. apply E_bind_some in Hrun as (n & r1 & HA & HB).
  apply E_bind_some in HA as (p & r2 & HC & [= <- <-]).
  destruct (take_bytes_inv _ _ _ _ _ _ Hr HC) as (bs1 & -> & Hlen & Hr1).
  destruct (take_bytes_inv _ _ _ _ _ _ Hr1 HB) as (bs2 & -> & Hlen2 & Hr2). exists bs2. split; [| done].
  apply Forall_app in Hbytes as [Hp _]. destruct (unsigned_canonical p Hp) as [Hcan [Hnn _]].
  rewrite <- app_assoc. f_equal. rewrite Hlen2, Z2Nat.id by done. by rewrite <- Hlen.
Qed.

Lemma unsigned_run n c r h v bs hs :
  unsigned n v -> rest r (to_le_bytes n v ++ bs) hs ->
  exists r', read_scalar n le_decode c (r, h) = (Some (c v), (r', h)) /\ rest r' bs hs.
Proof.
  intros Hv Hr. destruct (read_scalar_run n le_decode c r h _ bs hs (length_to_le_bytes _ _) Hr) as (r' & Hrun & Hr').
  rewrite unsigned_roundtrip in Hrun by done. by exists r'.
Qed.

Definition le_signed (n : nat) (s : list Z) : Z := to_signed n (le_decode s).

Lemma signed_run n c r h v bs hs :
  (0 < n)%nat -> signed n v -> rest r (to_le_bytes n v ++ bs) hs ->
  exists r', read_scalar n (le_signed n) c (r, h) = (Some (c v), (r', h)) /\ rest r' bs hs.
Proof.
  intros Hn Hv Hr. destruct (read_scalar_run n (le_signed n) c r h _ bs hs (length_to_le_bytes _ _) Hr) as (r' & Hrun & Hr').
  unfold le_signed in Hrun at 2. rewrite signed_roundtrip in Hrun by done. by exists r'.
Qed.

(** A value written is the value read, whatever follows it. *)
Lemma read_value_run v r h bs hs :
  valid v -> prefixed v = true -> grants (cost v) h -> rest r (enc_bytes v ++ bs) (enc_handles v ++ hs) ->
  exists r', read_value (kind_of v) (r, h) = (Some v, (r', drop (cost v) h)) /\ rest r' bs hs.
Proof.
  intros Hv Hp Hg Hr.
  destruct v as [b | v | v | v | v | v | v | v | v | v | v | s | s | x];
    cbn [kind_of enc_bytes enc_handles cost app valid prefixed] in *; rewrite ?drop_0.
  1:{ destruct (tag_run r b bs hs Hr) as (r' & Hrun & Hr'). exists r'. split; [| done].
      cbn [read_value]. unfold get_boolean. by rewrite (E_bind_run _ _ _ _ _ (on_reader_run _ r h _ _ Hrun)). }
  1:{ destruct (read_scalar_run 1 (fun s => nth 0 s 0) VU8 r h [v] bs hs eq_refl Hr) as (r' & Hrun & Hr'). by exists r'. }
  1-3: by eapply unsigned_run.
  1-4: eapply signed_run; [lia | done | done].
  1-2: by eapply unsigned_run.
  - apply Z.leb_le in Hp. destruct (get_bytes_lp_run r s bs hs Hp Hr) as (r' & Hrun & Hr'). exists r'. split; [| done].
    cbn [read_value]. by rewrite (E_bind_run _ _ _ _ _ (on_reader_run _ r h _ _ Hrun)).
  - apply Z.leb_le in Hp. destruct (get_bytes_lp_run r s bs hs Hp Hr) as (r' & Hrun & Hr'). exists r'. split; [| done].
    cbn [read_value]. unfold string_lp.
    rewrite (E_bind_run (mbind _ _) _ (r, h) s (r', drop (cost (VString s)) h)); [done |].
    rewrite (E_bind_run _ _ _ _ _ (on_reader_run _ r h _ _ Hrun)). apply own_string_run; [apply Hv | exact Hg].
  - destruct (take_handle_run r x bs hs Hr) as (r' & Hrun & Hr'). exists r'. split; [| done].
    cbn [read_value]. by rewrite (E_bind_run _ _ _ _ _ (on_reader_run _ r h _ _ Hrun)).
Qed.

Lemma unsigned_inv n c r h v r' h' bs hs :
  Forall byte_range bs -> rest r bs hs -> read_scalar n le_decode c (r, h) = (Some v, (r', h')) ->
  exists x bs', v = c x /\ unsigned n x /\ bs = to_le_bytes n x ++ bs' /\ rest r' bs' hs.
Proof.
  intros Hb Hr Hrun. destruct (read_scalar_inv _ _ _ _ _ _ _ _ _ _ Hr Hrun) as (s & bs' & -> & <- & -> & Hr').
  apply Forall_app in Hb as [Hs _]. destruct (unsigned_canonical s Hs) as [Hcan Hu].
  exists (le_decode s), bs'. by rewrite Hcan.
Qed.

Lemma signed_inv n c r h v r' h' bs hs :
  (0 < n)%nat -> Forall byte_range bs -> rest r bs hs -> read_scalar n (le_signed n) c (r, h) = (Some v, (r', h')) ->
  exists x bs', v = c x /\ signed n x /\ bs = to_le_bytes n x ++ bs' /\ rest r' bs' hs.
Proof.
  intros Hn Hb Hr Hrun. destruct (read_scalar_inv _ _ _ _ _ _ _ _ _ _ Hr Hrun) as (s & bs' & -> & <- & -> & Hr').
  apply Forall_app in Hb as [Hs _]. destruct (signed_canonical s Hn Hs) as [Hcan Hu].
  exists (le_signed (length s) s), bs'. unfold le_signed. by rewrite Hcan.
Qed.

(** A value read was encoded the one way it can be. *)
Lemma read_value_inv k r h v r' h' bs hs :
  Forall byte_range bs -> rest r bs hs -> read_value k (r, h) = (Some v, (r', h')) ->
  kind_of v = k /\ valid v /\ exists bs' hs', bs = enc_bytes v ++ bs' /\ hs = enc_handles v ++ hs' /\ rest r' bs' hs'.
Proof.
  intros Hb Hr Hrun.
  assert (forall m c, (v ← on_reader m; mret (c v)) (r, h) = (Some v, (r', h')) ->
    exists a : list Z, v = c a /\ m r = (Some a, r')) as Hinv.
  { intros m c (a & [r1 h1] & HA & [= <- <- <-])%E_bind_some. apply on_reader_inv in HA as [HA _]. eauto. }
  destruct k; cbn [read_value] in Hrun.
  1:{ apply E_bind_some in Hrun as (b & [r1 h1] & HA & [= <- <- <-]). apply on_reader_inv in HA as [HA _].
      destruct (tag_inv _ _ _ _ _ Hr HA) as (bs' & -> & Hr'). split; [done |]. split; [done |]. by exists bs', hs. }
  1:{ destruct (read_scalar_inv 1 (fun s => nth 0 s 0) VU8 _ _ _ _ _ _ _ Hr Hrun) as (s & bs' & -> & Hlen & -> & Hr').
      destruct s as [| x [| y s]]; simpl in Hlen; try lia. apply Forall_app in Hb as [Hs _].
      split; [done |]. split; [by inversion_clear Hs |]. by exists bs', hs. }
  1-3: destruct (unsigned_inv _ _ _ _ _ _ _ _ _ Hb Hr Hrun) as (x & bs' & -> & Hx & -> & Hr');
    (split; [done |]); (split; [done |]); by exists bs', hs.
  1-4: refine ((fun H => _) (signed_inv _ _ _ _ _ _ _ _ _ _ Hb Hr Hrun)); [| lia];
    destruct H as (x & bs' & -> & Hx & -> & Hr'); (split; [done |]); (split; [done |]); by exists bs', hs.
  1-2: destruct (unsigned_inv _ _ _ _ _ _ _ _ _ Hb Hr Hrun) as (x & bs' & -> & Hx & -> & Hr');
    (split; [done |]); (split; [done |]); by exists bs', hs.
  - destruct (Hinv _ _ Hrun) as (s & -> & HA). destruct (get_bytes_lp_inv _ _ _ _ _ Hb Hr HA) as (bs' & -> & Hr').
    split; [done |]. apply Forall_app in Hb as [Hs _]. apply Forall_app in Hs as [_ Hs]. split; [done |]. by exists bs', hs.
  - apply E_bind_some in Hrun as (s & [r1 h1] & HA & [= <- <- <-]). unfold string_lp in HA.
    apply E_bind_some in HA as (s0 & [r2 h2] & HB & HC). apply on_reader_inv in HB as [HB _].
    apply own_string_inv in HC as (-> & -> & Hu). destruct (get_bytes_lp_inv _ _ _ _ _ Hb Hr HB) as (bs' & -> & Hr').
    split; [done |]. apply Forall_app in Hb as [Hs _]. apply Forall_app in Hs as [_ Hs]. split; [done |]. by exists bs', hs.
  - apply E_bind_some in Hrun as (x & [r1 h1] & HA & [= <- <- <-]). apply on_reader_inv in HA as [HA _].
    destruct (take_handle_inv _ _ _ _ _ Hr HA) as (hs' & -> & Hr'). split; [done |]. split; [done |]. by exists bs, hs'.
Qed.

(** ** Messages *)

Definition message_cost (vs : list value) : nat := sum_list (cost <$> vs).

Lemma grants_app n m h : grants (n + m) h -> grants n h /\ grants m (drop n h).
Proof.
  intros [Hn Hg]. rewrite Nat.add_comm in Hn. split; split.
  - lia.
  - rewrite <- (take_drop n (take (n + m) h)) in Hg. apply Forall_app in Hg as [Hg _].
    by rewrite take_take, Nat.min_l in Hg by lia.
  - rewrite length_drop. lia.
  - rewrite take_drop_commute. rewrite <- (take_drop n (take (n + m) h)) in Hg. by apply Forall_app in Hg as [_ Hg].
Qed.

Lemma read_fields_run vs r h bs hs :
  Forall valid vs -> forallb prefixed vs = true -> grants (message_cost vs) h ->
  rest r (message_bytes vs ++ bs) (message_handles vs ++ hs) ->
  exists r', read_fields (kind_of <$> vs) (r, h) = (Some vs, (r', drop (message_cost vs) h)) /\ rest r' bs hs.
Proof.
  revert r h. induction vs as [| v vs IH]; intros r h Hv Hp Hg Hr.
  - exists r. by rewrite drop_0.
  - inversion_clear Hv as [| ? ? Hv1 Hvs]. cbn [forallb] in Hp. apply andb_true_iff in Hp as [Hp1 Hps].
    unfold message_bytes, message_handles in Hr. rewrite !bind_cons, <- !app_assoc in Hr.
    change (message_cost (v :: vs)) with (cost v + message_cost vs)%nat in *. apply grants_app in Hg as [Hg1 Hgs].
    destruct (read_value_run v r h _ _ Hv1 Hp1 Hg1 Hr) as (r1 & Hrun1 & Hr1).
    destruct (IH r1 _ Hvs Hps Hgs Hr1) as (r2 & Hrun2 & Hr2). exists r2. split; [| done].
    rewrite fmap_cons. cbn [read_fields]. rewrite (E_bind_run _ _ _ _ _ Hrun1), (E_bind_run _ _ _ _ _ Hrun2).
    unfold mret, E_ret. by rewrite drop_drop.
Qed.

Lemma read_fields_inv ks r h vs r' h' bs hs :
  Forall byte_range bs -> rest r bs hs -> read_fields ks (r, h) = (Some vs, (r', h')) ->
  kind_of <$> vs = ks /\ Forall valid vs /\
  exists bs' hs', bs = message_bytes vs ++ bs' /\ hs = message_handles vs ++ hs' /\ rest r' bs' hs'.
Proof.
  revert r h vs bs hs. induction ks as [| k ks IH]; intros r h vs bs hs Hb Hr Hrun; cbn [read_fields] in Hrun.
  - injection Hrun as <- <- <-. split; [done |]. split; [constructor |]. by exists bs, hs.
  - apply E_bind_some in Hrun as (v & [r1 h1] & HA & HB). apply E_bind_some in HB as (vs' & [r2 h2] & HB & [= <- <- <-]).
    destruct (read_value_inv _ _ _ _ _ _ _ _ Hb Hr HA) as (<- & Hv & bs1 & hs1 & -> & -> & Hr1).
    apply Forall_app in Hb as [_ Hb].
    destruct (IH _ _ _ _ _ Hb Hr1 HB) as (<- & Hvs & bs2 & hs2 & -> & -> & Hr2).
    split; [done |]. split; [by constructor |]. exists bs2, hs2. unfold message_bytes, message_handles.
    by rewrite !bind_cons, <- !app_assoc.
Qed.
