(* ===== verification/WireProps.v ===== *)
(** The wire codec as a whole: both sinks keep the promise the encoders rely on, a
    message read back is the message written, and a message read was encoded the
    one way it can be. *)

From S2P Require Import Prelude Wire WireFacts.

(** ** The sinks *)

Definition slice_ok (w : SliceWriter) : Prop :=
  (sw_pos w <= length (sw_buf w))%nat /\ (sw_handle_count w <= MAX_HANDLES)%nat /\
  length (sw_handles w) = MAX_HANDLES.

Lemma take_insert_snoc {A} (l : list A) n x :
  (n < length l)%nat -> take (S n) (<[n := x]> l) = take n l ++ [x].
Proof.
  intros Hn. rewrite (take_S_r _ n x); [| by apply list_lookup_insert_eq].
  by rewrite take_insert_ge by lia.
Qed.

Lemma slice_raw_some s w w' :
  slice_ok w -> slice_raw s w = (Some tt, w') ->
  slice_ok w' /\ take (sw_pos w') (sw_buf w') = take (sw_pos w) (sw_buf w) ++ s /\
  slice_writer_handles w' = slice_writer_handles w.
Proof.
  intros (Hp & Hc & Hl) Hrun. unfold slice_raw in Hrun. destruct (checked_add _ _ _); [| done].
  destruct (Nat.ltb_spec (length (sw_buf w)) (sw_pos w + length s)); [done |]. injection Hrun as <-. simpl.
  split; [| split; [| done]].
  - split; [| done]. simpl. rewrite !length_app, length_take, length_drop. lia.
  - rewrite app_assoc, take_app_le by (rewrite length_app, length_take; lia).
    apply take_ge. rewrite length_app, length_take. lia.
Qed.

#[export] Instance slice_laws : SinkLaws SliceWriter.
Proof.
  refine {| sink_bytes := fun w => take (sw_pos w) (sw_buf w);
            sink_handles := slice_writer_handles; sink_ok := slice_ok |}.
  - intros b w w' (Hp & Hc & Hl) Hrun. unfold put, slice_sink, slice_put in Hrun.
    destruct (sw_buf w !! sw_pos w) eqn:Hlook; [| done]. injection Hrun as <-.
    apply lookup_lt_Some in Hlook. simpl. split; [| split; [by apply take_insert_snoc | done]].
    split; [| done]. simpl. rewrite length_insert. lia.
  - apply slice_raw_some.
  - intros h w w' (Hp & Hc & Hl) Hrun. unfold set_handle, slice_sink, slice_set_handle in Hrun.
    destruct (Nat.leb_spec MAX_HANDLES (sw_handle_count w)); [done |]. injection Hrun as <-.
    split; [| split; [done |]].
    + repeat split; simpl; [done | lia | by rewrite length_insert].
    + unfold slice_writer_handles. simpl. apply take_insert_snoc. lia.
  - intros w (_ & Hc & Hl). unfold slice_writer_handles. rewrite length_take. lia.
Defined.

Definition vec_ok (w : VecWriter * heap) : Prop :=
  (vw_handle_count w.1 <= MAX_HANDLES)%nat /\ length (vw_handles w.1) = MAX_HANDLES.

Lemma try_reserve_items {A} (v v' : vec A) n h h' ok :
  try_reserve v n h = Some ((ok, v'), h') -> items v' = items v.
Proof.
  unfold try_reserve. destruct (_ <=? _)%nat; [by intros [= _ <- _] |].
  unfold mbind, M_bind. destruct (heap_ask h) as [[[slack |] h1] |]; [| | done]; by intros [= _ <- _].
Qed.

Lemma vec_raw_some s w w' :
  vec_ok w -> vec_raw s w = (Some tt, w') ->
  vec_ok w' /\ items (vw_buf w'.1) = items (vw_buf w.1) ++ s /\ vec_writer_handles w'.1 = vec_writer_handles w.1.
Proof.
  destruct w as [w h]. intros Hok Hrun. unfold vec_raw in Hrun. cbv beta iota in Hrun.
  destruct (try_reserve _ _ h) as [[[[|] v] h1] |] eqn:Hres; [| done | done]. injection Hrun as <-.
  apply try_reserve_items in Hres. simpl. by rewrite Hres.
Qed.

#[export] Instance vec_laws : SinkLaws (VecWriter * heap).
Proof.
  refine {| sink_bytes := fun w => items (vw_buf w.1);
            sink_handles := fun w => vec_writer_handles w.1; sink_ok := vec_ok |}.
  - intros b. apply (vec_raw_some [b]).
  - apply vec_raw_some.
  - intros x [w h] w' (Hc & Hl) Hrun. unfold set_handle, vec_sink, vec_set_handle in Hrun. cbv beta iota in Hrun. cbn [fst] in *.
    destruct (Nat.leb_spec MAX_HANDLES (vw_handle_count w)); [done |]. injection Hrun as <-.
    split; [| split; [done |]].
    + split; simpl; [lia | by rewrite length_insert].
    + unfold vec_writer_handles. simpl. apply take_insert_snoc. lia.
  - intros w (Hc & Hl). unfold vec_writer_handles. rewrite length_take. lia.
Defined.

(** ** The list of handles *)

Lemma handles_fill_spec l h :
  (h_count h + length l <= length (h_list h))%nat ->
  h_count (handles_fill l h) = (h_count h + length l)%nat /\ length (h_list (handles_fill l h)) = length (h_list h) /\
  take (h_count h + length l) (h_list (handles_fill l h)) = take (h_count h) (h_list h) ++ l.
Proof.
  revert h. induction l as [| x l IH]; intros h Hlen; cbn [handles_fill].
  - simpl. by rewrite Nat.add_0_r, app_nil_r.
  - simpl in Hlen. destruct (IH (mkHandles (<[h_count h := x]> (h_list h)) (S (h_count h)))) as (Hc & Hl & Ht).
    { simpl. rewrite length_insert. lia. }
    simpl in Hc, Hl, Ht. rewrite length_insert in Hl. simpl.
    replace (h_count h + S (length l))%nat with (S (h_count h + length l)) by lia.
    split; [done |]. split; [done |]. rewrite Ht, take_insert_snoc by lia. by rewrite <- app_assoc.
Qed.

Lemma try_from_slice_spec l :
  (length l <= MAX_HANDLES)%nat -> exists hs, try_from_slice l = Some hs /\ as_slice hs = l.
Proof.
  intros Hl. unfold try_from_slice. destruct (Nat.ltb_spec MAX_HANDLES (length l)); [lia |].
  eexists. split; [done |]. destruct (handles_fill_spec l handles_new) as (Hc & Hlen & Ht).
  { simpl. unfold MAX_HANDLES in Hl. lia. }
  unfold as_slice. rewrite Hc, Hlen. simpl in *. unfold MAX_HANDLES in Hl.
  rewrite (proj2 (Nat.leb_le _ _)) by lia. exact Ht.
Qed.

(** C15: What one end writes is what the other reads. Over any sink that keeps the
    sinks' promise, if the fields of a message were written, then its handles fit
    the list a message carries, and a reader over the bytes and that list gives
    back exactly the fields, in order, with every byte and every handle consumed. *)
Theorem wire_roundtrip {W} `{SinkLaws W} vs w w' h :
  sink_ok w -> sink_bytes w = [] -> sink_handles w = [] -> Forall valid vs ->
  write_fields vs w = (Some tt, w') -> grants (message_cost vs) h ->
  exists hs r, try_from_slice (sink_handles w') = Some hs /\
    read_fields (kind_of <$> vs) (with_handles (sink_bytes w') hs, h) = (Some vs, (r, drop (message_cost vs) h)) /\
    reader_finish r = Some tt.
Proof.
  intros Hok Hb Hh Hv Hw Hg. destruct (write_fields_appends vs w w' Hok Hw) as (Hok' & Hb' & Hh' & Hp).
  rewrite Hb in Hb'. rewrite Hh in Hh'. simpl in Hb', Hh'.
  destruct (try_from_slice_spec (sink_handles w')) as (hs & Hhs & Hslice); [by apply handles_law |].
  pose proof (with_handles_rest (sink_bytes w') hs) as Hr. rewrite Hslice, Hb', Hh' in Hr.
  rewrite <- (app_nil_r (message_bytes vs)), <- (app_nil_r (message_handles vs)) in Hr.
  destruct (read_fields_run vs _ h [] [] Hv Hp Hg Hr) as (r' & Hrun & Hr').
  exists hs, r'. split; [done |]. split; [by rewrite Hb'; rewrite app_nil_r in Hrun |]. by apply (finish_iff r' [] []).
Qed.

(** C31: One encoding per message. If a reader decodes a message completely - every
    byte and every handle consumed - then the bytes and the handles are exactly the
    encoding of the fields it answered with: no other byte string, boolean or
    length spelling, trailing byte or extra handle decodes to them. *)
Theorem wire_canonical ks buf hs h vs r h' :
  Forall byte_range buf -> read_fields ks (with_handles buf hs, h) = (Some vs, (r, h')) -> reader_finish r = Some tt ->
  kind_of <$> vs = ks /\ Forall valid vs /\ message_bytes vs = buf /\ message_handles vs = as_slice hs.
Proof.
  intros Hb Hrun Hfin. pose proof (with_handles_rest buf hs) as Hr.
  destruct (read_fields_inv _ _ _ _ _ _ _ _ Hb Hr Hrun) as (Hk & Hv & bs' & hs' & Hbs & Hhs & Hr').
  apply (finish_iff _ _ _ Hr') in Hfin as [-> ->]. by rewrite !app_nil_r in Hbs, Hhs.
Qed.

(** ** The fixed buffer *)

(** What no outcome of a write touches: the length of the buffer and what lies
    behind the write position. *)
Definition beyond_kept (w w' : SliceWriter) : Prop :=
  length (sw_buf w') = length (sw_buf w) /\ (sw_pos w <= sw_pos w')%nat /\
  drop (sw_pos w') (sw_buf w') = drop (sw_pos w') (sw_buf w).

Lemma beyond_refl w : beyond_kept w w.
Proof. done. Qed.

Lemma beyond_trans a b c : beyond_kept a b -> beyond_kept b c -> beyond_kept a c.
Proof.
  intros (L1 & P1 & D1) (L2 & P2 & D2). split; [congruence |]. split; [lia |].
  rewrite D2. replace (sw_pos c) with (sw_pos b + (sw_pos c - sw_pos b))%nat by lia.
  by rewrite <- !drop_drop, D1.
Qed.

(** Room for [n] bytes and [k] handles. *)
Definition room (w : SliceWriter) (n k : nat) : Prop :=
  (sw_pos w + n <= length (sw_buf w))%nat /\ (sw_handle_count w + k <= MAX_HANDLES)%nat.

Definition small (w : SliceWriter) : Prop := Z.of_nat (length (sw_buf w)) <= U64_MAX.

Lemma slice_raw_cases s w :
  slice_ok w -> small w ->
  exists r w', slice_raw s w = (r, w') /\ beyond_kept w w' /\
    (r = Some tt <-> room w (length s) 0) /\
    (r = Some tt -> slice_ok w' /\ small w' /\ sw_pos w' = (sw_pos w + length s)%nat /\ sw_handle_count w' = sw_handle_count w).
Proof.
  intros Hok Hsm. destruct (slice_raw s w) as [r w'] eqn:Hrun. exists r, w'. split; [done |].
  pose proof Hok as (Hp & Hc & Hl). unfold small, room in *. unfold slice_raw, checked_add in Hrun.
  destruct (Z.leb_spec (Z.of_nat (sw_pos w) + Z.of_nat (length s)) U64_MAX).
  - destruct (Nat.ltb_spec (length (sw_buf w)) (sw_pos w + length s)) as [Hlt | Hge].
    + injection Hrun as <- <-. split; [apply beyond_refl |]. split; [split; [discriminate | intros; exfalso; lia] | discriminate].
    + pose proof Hrun as Hrun'. injection Hrun' as <- <-. simpl.
      assert (length (take (sw_pos w) (sw_buf w) ++ s ++ drop (sw_pos w + length s) (sw_buf w)) = length (sw_buf w)) as Hlen.
      { rewrite !length_app, length_take, length_drop. lia. }
      split; [| split; [split; [lia | done] |]].
      * split; [done |]. simpl. split; [lia |]. rewrite app_assoc, drop_app_ge by (rewrite length_app, length_take; lia).
        rewrite length_app, length_take. replace (_ - _)%nat with 0%nat by lia. apply drop_0.
      * intros _. split; [| split; [lia | done]]. split; simpl; [rewrite Hlen; lia | done].
  - injection Hrun as <- <-. split; [apply beyond_refl |]. split; [split; [discriminate | intros; exfalso; lia] | discriminate].
Qed.

(** One byte is a slice of one byte. *)
Lemma slice_put_raw b w : slice_ok w -> small w -> slice_put b w = slice_raw [b] w.
Proof.
  intros (Hp & _) Hsm. unfold slice_put, slice_raw, small in *. cbn [length].
  destruct (sw_buf w !! sw_pos w) as [x |] eqn:Hlook.
  - pose proof (lookup_lt_Some _ _ _ Hlook). unfold checked_add. rewrite (proj2 (Z.leb_le _ _)) by lia.
    rewrite (proj2 (Nat.ltb_ge _ _)) by lia. rewrite Nat.add_1_r. by rewrite insert_take_drop.
  - apply lookup_ge_None in Hlook. destruct (checked_add _ _ _); [| done].
    by rewrite (proj2 (Nat.ltb_lt _ _)) by lia.
Qed.

Definition fits_in (vs : list value) (w : SliceWriter) : Prop :=
  forallb prefixed vs = true /\ room w (length (message_bytes vs)) (length (message_handles vs)).

Lemma slice_lp_cases s w :
  slice_ok w -> small w ->
  exists r w', put_bytes_lp s w = (r, w') /\ beyond_kept w w' /\
    (r = Some tt <-> Z.of_nat (length s) <= U16_MAX /\ room w (2 + length s) 0) /\
    (r = Some tt -> slice_ok w' /\ small w' /\ sw_pos w' = (sw_pos w + (2 + length s))%nat /\ sw_handle_count w' = sw_handle_count w).
Proof.
  intros Hok Hsm. unfold put_bytes_lp. destruct (Z.ltb_spec U16_MAX (Z.of_nat (length s))).
  { exists None, w. split; [done |]. split; [apply beyond_refl |]. split; [split; [discriminate | intros; exfalso; lia] | discriminate]. }
  unfold put_u16. set (p := to_le_bytes 2 _). assert (length p = 2%nat) as Hlp by done.
  destruct (slice_raw_cases p w Hok Hsm) as (r1 & w1 & Hrun1 & Hb1 & Hr1 & Hs1).
  unfold mbind, E_bind. change (raw p w) with (slice_raw p w). rewrite Hrun1. destruct r1 as [[] |].
  - destruct (Hs1 eq_refl) as (Hok1 & Hsm1 & Hp1 & Hc1).
    destruct (slice_raw_cases s w1 Hok1 Hsm1) as (r2 & w2 & Hrun2 & Hb2 & Hr2 & Hs2).
    exists r2, w2. split; [exact Hrun2 |]. split; [by eapply beyond_trans |].
    unfold room in *. destruct Hb1 as (Hl1 & _). split.
    + rewrite Hr2. rewrite Hl1, Hp1, Hc1. lia.
    + intros Hr. destruct (Hs2 Hr) as (? & ? & ? & ?). repeat split; try done; apply H0 || lia.
  - exists None, w1. split; [done |]. split; [done |]. split; [| done].
    split; [done |]. intros [_ Hroom]. apply Hr1. unfold room in *. lia.
Qed.

(** What one write does to a fixed buffer, on every outcome. *)
Definition slice_write (m : E SliceWriter unit) (ok : bool) (n k : nat) (w : SliceWriter) : Prop :=
  exists r w', m w = (r, w') /\ beyond_kept w w' /\ (r = Some tt <-> ok = true /\ room w n k) /\
    (r = Some tt -> slice_ok w' /\ small w' /\ sw_pos w' = (sw_pos w + n)%nat /\
                    sw_handle_count w' = (sw_handle_count w + k)%nat).

Lemma slice_write_raw s w : slice_ok w -> small w -> slice_write (raw s) true (length s) 0 w.
Proof.
  intros Hok Hsm. destruct (slice_raw_cases s w Hok Hsm) as (r & w' & Hrun & Hb & Hr & Hs). exists r, w'.
  split; [done |]. split; [done |]. split; [rewrite Hr; tauto |]. rewrite Nat.add_0_r. done.
Qed.

Lemma slice_write_put b w : slice_ok w -> small w -> slice_write (put b) true 1 0 w.
Proof.
  intros Hok Hsm. pose proof (slice_write_raw [b] w Hok Hsm) as Hraw. unfold slice_write in *.
  change (put b w) with (slice_put b w). rewrite slice_put_raw by done. exact Hraw.
Qed.

Lemma slice_write_lp s w :
  slice_ok w -> small w -> slice_write (put_bytes_lp s) (Z.of_nat (length s) <=? U16_MAX) (2 + length s) 0 w.
Proof.
  intros Hok Hsm. destruct (slice_lp_cases s w Hok Hsm) as (r & w' & Hrun & Hb & Hr & Hs). exists r, w'.
  split; [done |]. split; [done |]. split; [rewrite Hr, Z.leb_le; tauto |]. rewrite Nat.add_0_r. done.
Qed.

Lemma slice_write_handle h w : slice_ok w -> small w -> slice_write (set_handle h) true 0 1 w.
Proof.
  intros (Hp & Hc & Hl) Hsm. unfold slice_write. change (set_handle h w) with (slice_set_handle h w).
  unfold slice_set_handle, room. destruct (Nat.leb_spec MAX_HANDLES (sw_handle_count w)).
  - exists None, w. split; [done |]. split; [apply beyond_refl |].
    split; [split; [discriminate | intros; exfalso; lia] | discriminate].
  - eexists (Some tt), _. split; [done |]. split; [done |]. split; [split; [lia | done] |]. intros _.
    split; [| split; [done | simpl; lia]]. repeat split; simpl; [done | lia | by rewrite length_insert].
Qed.

Lemma slice_write_value v w :
  slice_ok w -> small w ->
  slice_write (write_value v) (prefixed v) (length (enc_bytes v)) (length (enc_handles v)) w.
Proof.
  intros Hok Hsm. destruct v; cbn [write_value prefixed enc_bytes enc_handles length];
    rewrite ?length_app, ?length_to_le_bytes;
    first [by apply slice_write_put | by apply slice_write_lp | by apply slice_write_handle | idtac].
  all: lazymatch goal with
       | |- slice_write ?m _ _ _ _ =>
           match eval cbv beta delta [put_u16 put_u32 put_u64 put_i8 put_i16 put_i32 put_i64 put_f32 put_f64] in m with
           | context [raw ?s] => exact (slice_write_raw s w Hok Hsm)
           end
       end.
Qed.

Lemma message_bytes_cons v vs : message_bytes (v :: vs) = enc_bytes v ++ message_bytes vs.
Proof. unfold message_bytes. by rewrite bind_cons. Qed.

Lemma message_handles_cons v vs : message_handles (v :: vs) = enc_handles v ++ message_handles vs.
Proof. unfold message_handles. by rewrite bind_cons. Qed.

Lemma slice_write_fields vs w :
  slice_ok w -> small w ->
  slice_write (write_fields vs) (forallb prefixed vs) (length (message_bytes vs)) (length (message_handles vs)) w.
Proof.
  revert w. induction vs as [| v vs IH]; intros w Hok Hsm.
  - exists (Some tt), w. split; [done |]. split; [apply beyond_refl |]. unfold room. destruct Hok as (Hp & Hc & Hl).
    split; [split; [simpl; lia | done] |]. intros _. simpl. repeat split; try done; lia.
  - destruct (slice_write_value v w Hok Hsm) as (r1 & w1 & Hrun1 & Hb1 & Hr1 & Hs1).
    rewrite message_bytes_cons, message_handles_cons, !length_app. unfold slice_write. cbn [write_fields forallb].
    unfold mbind at 1, E_bind. rewrite Hrun1. destruct r1 as [[] |].
    + destruct (Hs1 eq_refl) as (Hok1 & Hsm1 & Hp1 & Hc1). destruct (proj1 Hr1 eq_refl) as [Hpre _].
      destruct (IH w1 Hok1 Hsm1) as (r2 & w2 & Hrun2 & Hb2 & Hr2 & Hs2).
      exists r2, w2. split; [done |]. split; [by eapply beyond_trans |].
      destruct Hb1 as (Hl1 & _ & _). unfold room in *. rewrite Hl1, Hp1, Hc1 in Hr2. split.
      * rewrite Hr2, andb_true_iff. intuition lia.
      * intros Hr. destruct (Hs2 Hr) as (Hok2 & Hsm2 & Hp2 & Hc2). repeat split; try done; try (apply Hok2); lia.
    + exists None, w1. split; [done |]. split; [done |]. split; [| discriminate]. split; [discriminate |].
      intros [[Hpre _]%andb_true_iff Hroom]. apply Hr1. unfold room in *. split; [done | lia].
Qed.

(** C32: Encoding into a fixed buffer is exact. It succeeds precisely when the bytes
    of the message fit the buffer, its handles fit the list and every byte string
    fits its length prefix; then the buffer starts with the message and the handles
    are recorded in order. On every outcome the buffer keeps its length and what
    lies beyond the write position is untouched. *)
Theorem slice_encoding_exact vs buf :
  Z.of_nat (length buf) <= U64_MAX ->
  exists r w, write_fields vs (slice_writer_new buf) = (r, w) /\
    (r = Some tt <-> forallb prefixed vs = true /\ (length (message_bytes vs) <= length buf)%nat /\
                     (length (message_handles vs) <= MAX_HANDLES)%nat) /\
    (r = Some tt -> sw_buf w = message_bytes vs ++ drop (length (message_bytes vs)) buf /\
                    slice_writer_handles w = message_handles vs) /\
    length (sw_buf w) = length buf /\ drop (sw_pos w) (sw_buf w) = drop (sw_pos w) buf.
Proof.
  intros Hsm. assert (slice_ok (slice_writer_new buf)) as Hok by (repeat split; simpl; lia).
  destruct (slice_write_fields vs (slice_writer_new buf) Hok Hsm) as (r & w & Hrun & (Hl & _ & Hd) & Hr & Hs).
  exists r, w. split; [done |]. split; [exact Hr |]. split; [| done]. intros ->.
  pose proof (write_fields_appends (W := SliceWriter) vs (slice_writer_new buf) w) as Happ.
  destruct (Happ Hok Hrun) as (_ & Hb & Hh & _).
  destruct (Hs eq_refl) as (_ & _ & Hp & _). simpl in Hb, Hh, Hp, Hd. split; [| exact Hh].
  rewrite <- (take_drop (sw_pos w) (sw_buf w)), Hd, Hp. f_equal. by rewrite <- Hp.
Qed.

(** The trait's default [raw], byte at a time, keeps the promise its overrides keep. *)
Lemma raw_default_law {W} `{SinkLaws W} s w w' :
  sink_ok w -> raw_default s w = (Some tt, w') ->
  sink_ok w' /\ sink_bytes w' = sink_bytes w ++ s /\ sink_handles w' = sink_handles w.
Proof.
  revert w. induction s as [| b s IH]; intros w Hok Hrun; cbn [raw_default] in Hrun.
  - injection Hrun as <-. by rewrite app_nil_r.
  - apply E_bind_some in Hrun as ([] & w1 & HA & HB). apply put_law in HA as (Hok1 & Hb1 & Hh1); [| done].
    apply IH in HB as (Hok2 & Hb2 & Hh2); [| done]. rewrite Hb2, Hb1, Hh2, Hh1, <- app_assoc. done.
Qed.

(** The growing sink hands over bytes alone only when no handle was recorded, and
    both halves otherwise. *)
Lemma copy_handles_spec n index src dst :
  (index + n <= length src)%nat -> length src = length dst -> take index src = take index dst ->
  take (index + n) (copy_handles n index src dst) = take (index + n) src.
Proof.
  revert index dst. induction n as [| n IH]; intros index dst Hn Hl Ht; cbn [copy_handles].
  - by rewrite Nat.add_0_r.
  - replace (index + S n)%nat with (S index + n)%nat by lia.
    destruct (lookup_lt_is_Some_2 src index ltac:(lia)) as [x Hx]. rewrite (nth_lookup_Some _ _ 0 x Hx).
    apply IH; [lia | by rewrite length_insert |].
    rewrite take_insert_snoc by lia. by rewrite (take_S_r src index x Hx), Ht.
Qed.

Lemma into_message_spec (w : VecWriter) (h : heap) :
  vec_ok (w, h) ->
  (into_message w).1 = items (vw_buf w) /\ as_slice (into_message w).2 = vec_writer_handles w /\ into_inner w = match vec_writer_handles w with [] => Some (items (vw_buf w)) | _ => None end.
Proof.
  intros (Hc & Hl). simpl in Hc, Hl. split; [done |]. unfold vec_writer_handles. split.
  - unfold as_slice, into_message. cbn [snd h_count h_list].
    assert (forall n i d, length (copy_handles n i (vw_handles w) d) = length d) as Hlen.
    { induction n as [| n IH]; intros i d; [done |]. cbn [copy_handles]. by rewrite IH, length_insert. }
    rewrite Hlen. rewrite (proj2 (Nat.leb_le _ _)) by (unfold MAX_HANDLES in *; simpl; lia).
    apply (copy_handles_spec (vw_handle_count w) 0); [lia | by rewrite Hl |]. by rewrite !take_0.
  - unfold into_inner. destruct (Nat.eqb_spec (vw_handle_count w) 0) as [-> | Hne].
    + by rewrite take_0.
    + destruct (take (vw_handle_count w) (vw_handles w)) eqn:E; [| done]. apply (f_equal length) in E.
      rewrite length_take in E. simpl in E. unfold MAX_HANDLES in Hl. lia.
Qed.

(** ** A message with two handles *)

Definition sample_message : list value :=
  [VU32 7; VString [104; 105; 195; 169]; VHandle 4294967297; VI16 (-2); VBool true; VHandle 2; VBytes []].

Definition sample_buffer : list Z := replicate 20 170.

Lemma sample_valid : Forall valid sample_message.
Proof.
  unfold sample_message. repeat (apply Forall_cons; split); try apply Forall_nil; simpl; try done;
    unfold unsigned, signed; try (simpl; lia).
  split; [| done]. unfold byte_range. repeat (apply Forall_cons; split; [lia |]). apply Forall_nil. done.
Qed.

Definition sample_written : SliceWriter := (write_fields sample_message (slice_writer_new sample_buffer)).2.

Lemma wire_roundtrip_witness :
  exists hs r, try_from_slice (sink_handles sample_written) = Some hs /\
    read_fields (kind_of <$> sample_message) (with_handles (sink_bytes sample_written) hs, [Some 0%nat])
      = (Some sample_message, (r, [])) /\
    reader_finish r = Some tt.
Proof.
  apply (wire_roundtrip (W := SliceWriter) sample_message (slice_writer_new sample_buffer) sample_written [Some 0%nat]).
  - repeat split; simpl; lia.
  - done.
  - done.
  - apply sample_valid.
  - by vm_compute.
  - split; [vm_compute; lia |]. vm_compute. repeat constructor. by eexists.
Defined.

Definition sample_bytes : list Z := [2; 0; 195; 169; 1; 254; 255].
Definition sample_handles : Handles := handles_fill [9] handles_new.

Lemma wire_canonical_witness :
  let vs := [VString [195; 169]; VBool true; VI16 (-2); VHandle 9] in
  Forall valid vs /\ message_bytes vs = sample_bytes /\ message_handles vs = as_slice sample_handles.
Proof.
  destruct (wire_canonical [KString; KBool; KI16; KHandle] sample_bytes sample_handles [Some 0%nat]
              [VString [195; 169]; VBool true; VI16 (-2); VHandle 9]
              (mkReader sample_bytes 7 [9; 0; 0; 0] 1 1) []) as (_ & Hv & Hb & Hh).
  - unfold sample_bytes, byte_range. repeat (apply Forall_cons; split; [lia |]). apply Forall_nil. done.
  - by vm_compute.
  - done.
  - split; [exact Hv |]. split; [exact Hb | exact Hh].
Defined.

Lemma slice_encoding_exact_witness :
  exists r w, write_fields sample_message (slice_writer_new sample_buffer) = (r, w) /\
    (r = Some tt <-> forallb prefixed sample_message = true /\
    (length (message_bytes sample_message) <= length sample_buffer)%nat /\
    (length (message_handles sample_message) <= MAX_HANDLES)%nat) /\
    (r = Some tt -> sw_buf w = message_bytes sample_message ++ drop (length (message_bytes sample_message)) sample_buffer /\
    slice_writer_handles w = message_handles sample_message) /\
    length (sw_buf w) = length sample_buffer /\ drop (sw_pos w) (sw_buf w) = drop (sw_pos w) sample_buffer.
Proof. apply (slice_encoding_exact sample_message sample_buffer). vm_compute. done. Defined.
