(* ===== verification/WireText.v ===== *)
(** The JSON and CBOR renderers of the wire codec (wire/src/lib.rs). Strings are
    their UTF-8 bytes: every character the renderers look for is ASCII, so no byte
    of a longer character is taken for one. *)

From S2P Require Import Prelude Wire.

(** ** JSON string literals *)

Definition QUOTE : Z := 34.
Definition BACKSLASH : Z := 92.

(** A lower-case hexadecimal digit. *)
Definition hex_digit (d : Z) : Z := if d <? 10 then 48 + d else 87 + d.

Definition escape_char (c : Z) : list Z :=
  if c =? QUOTE then [BACKSLASH; QUOTE]
  else if c =? BACKSLASH then [BACKSLASH; BACKSLASH]
  else if c =? 10 then [BACKSLASH; 110]
  else if c =? 13 then [BACKSLASH; 114]
  else if c =? 9 then [BACKSLASH; 116]
  else if c <? 32 then [BACKSLASH; 117; 48; 48; hex_digit (c / 16); hex_digit (c mod 16)]
  else [c].

(** [json_escape s out]. *)
Definition json_escape (s out : list Z) : list Z := out ++ [QUOTE] ++ (s ≫= escape_char) ++ [QUOTE].

(** ** The indented form *)

Inductive JsonMode := Pretty | Min.

Definition parse_mode (token : list Z) : option JsonMode :=
  if bool_decide (token = [106; 115; 111; 110]) then Some Pretty
  else if bool_decide (token = [106; 115; 111; 110; 45; 109; 105; 110]) then Some Min
  else None.

(** The rest of a string literal after its opening quote, and what follows it. *)
Fixpoint scan_literal (s : list Z) : list Z * list Z :=
  match s with
  | [] => ([], [])
  | c :: s =>
      if c =? BACKSLASH then
        match s with
        | [] => ([c], [])
        | x :: s => let '(lit, tail) := scan_literal s in (c :: x :: lit, tail)
        end
      else if c =? QUOTE then ([c], s)
      else let '(lit, tail) := scan_literal s in (c :: lit, tail)
  end.

(** The bytes that end a number or a word: comma, colon, quote and the brackets. *)
Definition delimiter (c : Z) : bool :=
  (c =? 44) || (c =? 125) || (c =? 93) || (c =? 58) || (c =? QUOTE) || (c =? 123) || (c =? 91).

Fixpoint scan_token (s : list Z) : list Z * list Z :=
  match s with
  | [] => ([], [])
  | c :: s' =>
      if delimiter c then ([], s)
      else let '(token, tail) := scan_token s' in (c :: token, tail)
  end.

Definition indent (depth : nat) : list Z := 10 :: replicate (2 * depth) 32.

Definition KEY : list Z := [27; 91; 51; 54; 109].
Definition STR : list Z := [27; 91; 51; 50; 109].
Definition NUM : list Z := [27; 91; 51; 51; 109].
Definition LIT : list Z := [27; 91; 51; 53; 109].
Definition RESET : list Z := [27; 91; 48; 109].

Definition starts_number (token : list Z) : bool :=
  match token with c :: _ => ((48 <=? c) && (c <=? 57)) || (c =? 45) | [] => false end.
Definition starts_with (c : Z) (s : list Z) : bool := match s with x :: _ => x =? c | [] => false end.

(** The [push]es and [push_str]s of [json_pretty], in order: one turn of its loop
    at a time, on what is left of the input. Each turn consumes at least a byte. *)
Fixpoint pretty_chunks (fuel : nat) (color : bool) (depth : nat) (s : list Z) : list (list Z) :=
  match fuel with
  | O => []
  | S fuel =>
      match s with
      | [] => []
      | c :: s' =>
          if (c =? 123) || (c =? 91) then
            let close := if c =? 123 then 125 else 93 in
            if starts_with close s' then [c] :: [close] :: pretty_chunks fuel color depth (drop 1 s')
            else [c] :: indent (S depth) :: pretty_chunks fuel color (S depth) s'
          else if (c =? 125) || (c =? 93) then
            indent (depth - 1) :: [c] :: pretty_chunks fuel color (depth - 1) s'
          else if c =? 44 then [c] :: indent depth :: pretty_chunks fuel color depth s'
          else if c =? 58 then [58; 32] :: pretty_chunks fuel color depth s'
          else if c =? QUOTE then
            let '(lit, tail) := scan_literal s' in
            let paint := if starts_with 58 tail then KEY else STR in
            (if color then [paint] else []) ++ (c :: lit) :: (if color then [RESET] else []) ++
            pretty_chunks fuel color depth tail
          else if c =? 32 then pretty_chunks fuel color depth s'
          else
            let '(token, tail) := scan_token s in
            let paint := if starts_number token then NUM else LIT in
            (if color then [paint] else []) ++ token :: (if color then [RESET] else []) ++
            pretty_chunks fuel color depth tail
      end
  end.

(** [String::push_str]: a growth the heap refuses aborts the process. *)
Definition push_str (v : vec Z) (s : list Z) : M heap (vec Z) :=
  '(ok, v) ← try_reserve v (length s);
  if (ok : bool) then mret (Vec (items v ++ s) (capacity v)) else abort.

Fixpoint push_all (v : vec Z) (l : list (list Z)) : M heap (vec Z) :=
  match l with
  | [] => mret v
  | s :: l => v ← push_str v s; push_all v l
  end.

Definition json_pretty (min : list Z) (color : bool) : M heap (list Z) :=
  '(ok, out) ← try_reserve vec_new (Z.to_nat (Z.min (Z.of_nat (length min) * 2) U64_MAX));
  if (ok : bool) then
    out ← push_all out (pretty_chunks (length min) color 0 min);
    mret (items out)
  else mret [].

Definition render (mode : JsonMode) (min : list Z) : M heap (list Z) :=
  match mode with
  | Pretty => json_pretty min true
  | Min => mret min
  end.

(** ** CBOR *)

Module Cbor.

(** [to_be_bytes] of an [n]-byte value. *)
Definition be_bytes (n : nat) (v : Z) : list Z := reverse (to_le_bytes n v).

Definition head (out : list Z) (major n : Z) : list Z :=
  let mt := Z.shiftl major 5 mod 256 in
  if n <? 24 then out ++ [Z.lor mt n]
  else if n <=? 255 then out ++ [Z.lor mt 24; n]
  else if n <=? U16_MAX then out ++ [Z.lor mt 25] ++ be_bytes 2 n
  else if n <=? U32_MAX then out ++ [Z.lor mt 26] ++ be_bytes 4 n
  else out ++ [Z.lor mt 27] ++ be_bytes 8 n.

Definition uint (out : list Z) (v : Z) : list Z := head out 0 v.
Definition int (out : list Z) (v : Z) : list Z := if v <? 0 then head out 1 (-1 - v) else head out 0 v.
Definition boolean (out : list Z) (v : bool) : list Z := out ++ [if v then 245 else 244].
Definition null (out : list Z) : list Z := out ++ [246].
Definition f32 (out : list Z) (bits : Z) : list Z := out ++ [250] ++ be_bytes 4 bits.
Definition f64 (out : list Z) (bits : Z) : list Z := out ++ [251] ++ be_bytes 8 bits.
Definition text (out s : list Z) : list Z := head out 3 (Z.of_nat (length s)) ++ s.
Definition array (out : list Z) (len : Z) : list Z := head out 4 len.
Definition map (out : list Z) (pairs : Z) : list Z := head out 5 pairs.

End Cbor.

(** ** Reading the renderers back *)

(** JSON without its insignificant spaces and newlines: those outside strings. *)
Inductive place := Outside | Inside | Escaped.

Fixpoint squeeze (p : place) (s : list Z) : list Z :=
  match s with
  | [] => []
  | c :: s =>
      match p with
      | Outside =>
          if c =? QUOTE then c :: squeeze Inside s
          else if (c =? 32) || (c =? 10) then squeeze Outside s
          else c :: squeeze Outside s
      | Inside =>
          if c =? BACKSLASH then c :: squeeze Escaped s
          else if c =? QUOTE then c :: squeeze Outside s
          else c :: squeeze Inside s
      | Escaped => c :: squeeze Inside s
      end
  end.

(** The head of a CBOR item, as RFC 8949 reads it. *)
Definition read_argument (n : nat) (major : Z) (s : list Z) : option (Z * Z * list Z) :=
  if (length s <? n)%nat then None else Some (major, le_decode (reverse (take n s)), drop n s).

Definition read_head (s : list Z) : option (Z * Z * list Z) :=
  match s with
  | [] => None
  | c :: s =>
      let major := c / 32 in
      let info := c mod 32 in
      if info <? 24 then Some (major, info, s)
      else if info =? 24 then read_argument 1 major s
      else if info =? 25 then read_argument 2 major s
      else if info =? 26 then read_argument 4 major s
      else if info =? 27 then read_argument 8 major s
      else None
  end.
