(* ===== verification/WireTextProps.v ===== *)
(** The indented JSON form says what the minified one says, a string literal gives
    its string back, and a CBOR head gives its type and argument back. *)

From S2P Require Import Prelude Wire WireFacts WireText.

(** ** The indented form *)

Lemma squeeze_plain a s :
  Forall (fun c => c <> QUOTE) a -> squeeze Outside (a ++ s) = squeeze Outside a ++ squeeze Outside s.
Proof.
  induction 1 as [| c a Hc _ IH]; [done |]. cbn [app squeeze]. rewrite (proj2 (Z.eqb_neq c QUOTE)) by done.
  destruct (_ || _); [done |]. by rewrite IH.
Qed.

Lemma squeeze_indent depth s : squeeze Outside (indent depth ++ s) = squeeze Outside s.
Proof.
  unfold indent. cbn [app squeeze]. simpl (10 =? QUOTE). simpl ((10 =? 32) || _).
  induction (2 * depth)%nat as [| n IH]; [done |]. exact IH.
Qed.

Lemma scan_literal_spec s :
  let '(lit, tail) := scan_literal s in
  s = lit ++ tail /\ (forall x, squeeze Inside (lit ++ x) = lit ++ squeeze Outside x \/ tail = []) /\
  (tail = [] -> squeeze Inside lit = lit) /\ (length tail <= length s)%nat.
Proof.
  assert (forall n s, (length s <= n)%nat ->
    let '(lit, tail) := scan_literal s in
    s = lit ++ tail /\ (forall x, squeeze Inside (lit ++ x) = lit ++ squeeze Outside x \/ tail = []) /\
    (tail = [] -> squeeze Inside lit = lit) /\ (length tail <= length s)%nat) as Hind; [| by eapply Hind].
  clear s. induction n as [| n IH]; intros s Hlen; (destruct s as [| c s]; [simpl; auto |]); simpl in Hlen; [lia |].
  cbn [scan_literal]. destruct (Z.eqb_spec c BACKSLASH) as [-> |].
  - destruct s as [| y s]; [simpl; auto |]. simpl in Hlen. pose proof (IH s ltac:(lia)) as Hs.
    destruct (scan_literal s) as [lit tail]. destruct Hs as (-> & Hx & Hend & Hl). split; [done |].
    split; [intros x; destruct (Hx x) as [E |]; [left; cbn [app squeeze]; rewrite Z.eqb_refl; by rewrite E | by right] |].
    split; [intros Ht; cbn [squeeze]; rewrite Z.eqb_refl; by rewrite Hend | simpl; lia].
  - destruct (Z.eqb_spec c QUOTE) as [-> |].
    + split; [done |]. split; [by left |]. split; [done | simpl; lia].
    + pose proof (IH s ltac:(lia)) as Hs. destruct (scan_literal s) as [lit tail]. destruct Hs as (-> & Hx & Hend & Hl).
      assert ((c =? BACKSLASH) = false /\ (c =? QUOTE) = false) as [E1 E2] by (split; by apply Z.eqb_neq).
      split; [done |].
      split; [intros x; destruct (Hx x) as [E |]; [left; cbn [app squeeze]; rewrite E1, E2; by rewrite E | by right] |].
      split; [intros Ht; cbn [squeeze]; rewrite E1, E2; by rewrite Hend | simpl; lia].
Qed.

Lemma scan_token_spec s :
  let '(token, tail) := scan_token s in
  s = token ++ tail /\ Forall (fun c => c <> QUOTE) token.
Proof.
  induction s as [| c s IH]; cbn [scan_token]; [done |]. destruct (delimiter c) eqn:E; [done |].
  destruct (scan_token s) as [token tail]. destruct IH as [-> Hq]. split; [done |]. constructor; [| done].
  intros ->. by unfold delimiter in E.
Qed.

(** One turn of the loop: what it emits and what it leaves say what was there. *)
Lemma pretty_chunks_squeeze fuel depth s :
  (length s <= fuel)%nat -> squeeze Outside (concat (pretty_chunks fuel false depth s)) = squeeze Outside s.
Proof.
  revert depth s. induction fuel as [| fuel IH]; intros depth s Hlen; (destruct s as [| c s]; [done |]); simpl in Hlen; [lia |].
  cbn [pretty_chunks].
  assert (forall x d s', c <> QUOTE -> (length s' <= fuel)%nat -> squeeze Outside s = squeeze Outside (x ++ s') ->
    Forall (fun c => c <> QUOTE) x ->
    squeeze Outside (concat ([c] :: x :: pretty_chunks fuel false d s')) = squeeze Outside (c :: s)) as Hplain.
  { intros x d s' Hc Hs' Hsq Hx. cbn [concat].
    rewrite (squeeze_plain [c]), (squeeze_plain x), IH, <- (squeeze_plain x), <- Hsq by (done || by repeat constructor).
    change (c :: s) with ([c] ++ s). by rewrite (squeeze_plain [c]) by (by repeat constructor). }
  assert (forall d, squeeze Outside s = squeeze Outside (indent d ++ s)) as Hind by (intros; by rewrite squeeze_indent).
  assert (forall d, Forall (fun c => c <> QUOTE) (indent d)) as Hq.
  { intros d. constructor; [done |]. by apply Forall_replicate. }
  destruct ((c =? 123) || (c =? 91)) eqn:Hopen.
  { assert (c <> QUOTE) by (intros ->; by vm_compute in Hopen). cbv zeta. set (close := if c =? 123 then 125 else 93).
    destruct (starts_with close s) eqn:Hstart; [| apply Hplain; [done | lia | done | done]].
    destruct s as [| x s]; [done |]. simpl in Hstart, Hlen. apply Z.eqb_eq in Hstart as ->. cbn [drop].
    apply Hplain; [done | rewrite drop_0; lia | by rewrite drop_0 |]. repeat constructor. unfold close. by destruct (c =? 123). }
  destruct ((c =? 125) || (c =? 93)) eqn:Hclose.
  { assert (c <> QUOTE) by (intros ->; by vm_compute in Hclose). cbn [concat]. rewrite squeeze_indent.
    change (c :: s) with ([c] ++ s). by rewrite !(squeeze_plain [c]), IH by (lia || by repeat constructor). }
  destruct (Z.eqb_spec c 44) as [-> |]; [apply Hplain; [done | lia | done | done] |].
  destruct (Z.eqb_spec c 58) as [-> |].
  { cbn [concat]. rewrite squeeze_plain by (by repeat constructor). rewrite IH by lia. done. }
  destruct (Z.eqb_spec c QUOTE) as [-> |].
  { pose proof (scan_literal_spec s) as Hlit. destruct (scan_literal s) as [lit tail]. destruct Hlit as (-> & Hx & Hend & Hl).
    cbv zeta. cbn [app concat]. cbn [squeeze]. rewrite Z.eqb_refl. f_equal.
    destruct (decide (tail = [])) as [-> | Hne].
    - rewrite !app_nil_r. destruct fuel; cbn [pretty_chunks concat]; by rewrite app_nil_r.
    - destruct (Hx (concat (pretty_chunks fuel false depth tail))) as [-> | ?]; [| done].
      destruct (Hx tail) as [-> | ?]; [| done]. rewrite IH; [done |]. rewrite length_app in Hlen. lia. }
  destruct (Z.eqb_spec c 32) as [-> |]; [rewrite IH by lia; done |].
  pose proof (scan_token_spec (c :: s)) as Htok. cbv zeta.
  assert (delimiter c = false) as Hdel.
  { apply orb_false_iff in Hopen as [? ?], Hclose as [? ?]. unfold delimiter. repeat (apply orb_false_iff; split); try done; by apply Z.eqb_neq. }
  cbn [scan_token] in *. rewrite Hdel in *. destruct (scan_token s) as [token tail]. destruct Htok as [Heq Htq].
  cbn [app concat]. injection Heq as ->.
  change (c :: token ++ ?x) with ((c :: token) ++ x). rewrite squeeze_plain by done.
  rewrite IH by (rewrite length_app in Hlen; lia). change (c :: token ++ tail) with ((c :: token) ++ tail). by rewrite squeeze_plain.
Qed.

Lemma grants_S n h : grants (S n) h -> exists a h', h = Some a :: h' /\ grants n h'.
Proof.
  intros [Hn Hg]. destruct h as [| [a |] h]; simpl in *; [lia | | by inversion Hg as [| ? ? [? ?]]].
  exists a, h. split; [done |]. inversion_clear Hg. split; [lia | done].
Qed.

Lemma grants_le n m h : (m <= n)%nat -> grants n h -> grants m h.
Proof.
  intros Hle [Hn Hg]. split; [lia |]. replace (take m h) with (take m (take n h)) by (by rewrite take_take, Nat.min_l by lia).
  by apply Forall_take.
Qed.

Lemma push_str_run v s h n :
  grants (S n) h -> exists v' h', push_str v s h = Some (v', h') /\ items v' = items v ++ s /\ grants n h'.
Proof.
  intros Hg. unfold push_str, try_reserve. destruct (_ <=? _)%nat.
  - eexists _, h. split; [done |]. split; [done |]. eapply grants_le; [| done]. lia.
  - destruct (grants_S n h Hg) as (a & h' & -> & Hg'). eexists _, h'. done.
Qed.

Lemma push_all_run l v h :
  grants (length l) h -> exists v' h', push_all v l h = Some (v', h') /\ items v' = items v ++ concat l.
Proof.
  revert v h. induction l as [| s l IH]; intros v h Hg; cbn [push_all concat].
  - exists v, h. by rewrite app_nil_r.
  - destruct (push_str_run v s h (length l) Hg) as (v1 & h1 & Hrun & Hi & Hg1).
    destruct (IH v1 h1 Hg1) as (v2 & h2 & Hrun2 & Hi2). exists v2, h2.
    rewrite (run_bind _ _ _ _ _ Hrun), Hrun2, Hi2, Hi, <- app_assoc. done.
Qed.

(** The indented form a tool prints says what the minified document says. On a
    heap that grants its requests [json_pretty] returns, for every input, well
    formed or not, and its uncoloured output is the input up to spaces and newlines
    outside string literals: no token, bracket, separator, escape or byte of a
    string is lost, added or moved. *)
Theorem json_pretty_says_the_same min h :
  grants (S (length (pretty_chunks (length min) false 0 min))) h ->
  exists out h', json_pretty min false h = Some (out, h') /\ squeeze Outside out = squeeze Outside min.
Proof.
  intros Hg. unfold json_pretty.
  set (n := Z.to_nat _). assert (exists v h', try_reserve (vec_new (A := Z)) n h = Some ((true, v), h') /\
    items v = [] /\ grants (length (pretty_chunks (length min) false 0 min)) h') as (v & h1 & Hres & Hi & Hg1).
  { unfold try_reserve. destruct (_ <=? _)%nat.
    - eexists _, h. split; [done |]. split; [done |]. eapply grants_le; [| done]. lia.
    - destruct (grants_S _ h Hg) as (a & h' & -> & Hg'). by eexists _, h'. }
  rewrite (run_bind _ _ _ _ _ Hres). destruct (push_all_run _ v h1 Hg1) as (v2 & h2 & Hrun & Hi2).
  rewrite (run_bind _ _ _ _ _ Hrun). exists (items v2), h2. split; [done |].
  rewrite Hi2, Hi. simpl. by apply pretty_chunks_squeeze.
Qed.

(** A document with nested brackets and a string that holds one. *)
Definition sample_json : list Z := [123; 34; 97; 123; 34; 58; 91; 49; 44; 45; 50; 93; 125].

Lemma json_pretty_says_the_same_witness :
  exists out h', json_pretty sample_json false (replicate 20 (Some 0%nat)) = Some (out, h') /\
    squeeze Outside out = sample_json.
Proof.
  destruct (json_pretty_says_the_same sample_json (replicate 20 (Some 0%nat))) as (out & h' & Hrun & Hsq).
  - split; [vm_compute; lia |]. apply Forall_take, Forall_replicate. by eexists.
  - exists out, h'. split; [exact Hrun |]. rewrite Hsq. by vm_compute.
Defined.

(** The reservation up front does not cover the indentation: a heap that grants it
    and refuses the next growth takes the process down. *)
Lemma json_pretty_may_abort : json_pretty [91; 91; 91; 91; 49; 93; 93; 93; 93] false [Some 0%nat] = None.
Proof. by vm_compute. Qed.

(** ** String literals *)

(** A reader of string literals, after the opening quote. *)
Definition unhex (d : Z) : Z := if d <? 58 then d - 48 else d - 87.
Fixpoint unescape (s : list Z) : option (list Z * list Z) :=
  match s with
  | [] => None
  | c :: s =>
      if c =? QUOTE then Some ([], s)
      else if c =? BACKSLASH then
        match s with
        | 117 :: _ :: _ :: hi :: lo :: s => prod_map (cons (unhex hi * 16 + unhex lo)) id <$> unescape s
        | x :: s =>
            let y := if x =? 110 then 10 else if x =? 114 then 13 else if x =? 116 then 9 else x in
            prod_map (cons y) id <$> unescape s
        | [] => None
        end
      else prod_map (cons c) id <$> unescape s
  end.

Lemma unescape_escape c x :
  byte_range c -> unescape (escape_char c ++ x) = prod_map (cons c) id <$> unescape x.
Proof.
  unfold byte_range. intros Hc. unfold escape_char.
  destruct (Z.eqb_spec c QUOTE) as [-> |]; [done |]. destruct (Z.eqb_spec c BACKSLASH) as [-> |]; [done |].
  destruct (Z.eqb_spec c 10) as [-> |]; [done |]. destruct (Z.eqb_spec c 13) as [-> |]; [done |].
  destruct (Z.eqb_spec c 9) as [-> |]; [done |]. destruct (Z.ltb_spec c 32).
  - cbn [app unescape]. rewrite (proj2 (Z.eqb_neq BACKSLASH QUOTE)), Z.eqb_refl by done.
    replace (unhex (hex_digit (c / 16)) * 16 + unhex (hex_digit (c mod 16))) with c; [done |].
    unfold unhex, hex_digit. pose proof (Z.div_mod c 16). pose proof (Z.mod_pos_bound c 16).
    assert (0 <= c / 16 < 2) by (split; [apply Z.div_pos | apply Z.div_lt_upper_bound]; lia).
    repeat case_bool; lia.
  - cbn [app unescape]. by rewrite (proj2 (Z.eqb_neq c QUOTE)), (proj2 (Z.eqb_neq c BACKSLASH)) by done.
Qed.

(** A string literal gives its string back and ends at its own closing quote, so no
    string can break out of the document it is put in. *)
Lemma json_escape_roundtrip s out x :
  Forall byte_range s -> exists lit, json_escape s out ++ x = out ++ QUOTE :: lit /\ unescape lit = Some (s, x).
Proof.
  intros Hs. exists ((s ≫= escape_char) ++ QUOTE :: x). split.
  - unfold json_escape. by rewrite <- !app_assoc.
  - induction Hs as [| c s Hc _ IH]; [done |]. by rewrite bind_cons, <- app_assoc, unescape_escape, IH.
Qed.

(** ** CBOR *)

Lemma be_bytes_back n v : unsigned n v -> le_decode (reverse (Cbor.be_bytes n v)) = v.
Proof. intros Hv. unfold Cbor.be_bytes. rewrite reverse_involutive. by apply unsigned_roundtrip. Qed.

Lemma read_argument_back n major v x :
  unsigned n v -> read_argument n major (Cbor.be_bytes n v ++ x) = Some (major, v, x).
Proof.
  intros Hv. assert (length (Cbor.be_bytes n v) = n) as Hlen by (unfold Cbor.be_bytes; by rewrite length_reverse, length_to_le_bytes).
  unfold read_argument. rewrite length_app, (proj2 (Nat.ltb_ge _ _)) by lia.
  by rewrite take_app_length', drop_app_length', be_bytes_back.
Qed.

Lemma initial_byte major info : 0 <= major < 8 -> 0 <= info < 32 ->
  Z.lor (Z.shiftl major 5 mod 256) info / 32 = major /\ Z.lor (Z.shiftl major 5 mod 256) info mod 32 = info.
Proof.
  intros Hm Hi. assert (Z.shiftl major 5 mod 256 = Z.shiftl major 5) as ->.
  { rewrite Z.shiftl_mul_pow2 by lia. apply Z.mod_small. lia. }
  rewrite lor_shiftl_add by lia. change (2 ^ 5) with 32.
  split; [rewrite Z.div_add_l, Z.div_small by lia; lia |].
  rewrite (Z.add_comm (major * 32)), Z.mod_add, Z.mod_small by lia. done.
Qed.

(** A head gives its major type and argument back, whatever follows. *)
Lemma cbor_head_roundtrip out major n x :
  0 <= major < 8 -> u64_range n ->
  exists h, Cbor.head out major n = out ++ h /\ read_head (h ++ x) = Some (major, n, x).
Proof.
  unfold u64_range. intros Hm Hn. unfold Cbor.head, U16_MAX. cbv zeta.
  assert (forall info, 0 <= info < 32 ->
    Z.lor (Z.shiftl major 5 mod 256) info / 32 = major /\ Z.lor (Z.shiftl major 5 mod 256) info mod 32 = info) as Hinit
    by (intros; by apply initial_byte).
  destruct (Z.ltb_spec n 24).
  { eexists. split; [done |]. unfold read_head. cbn [app]. destruct (Hinit n) as [-> ->]; [lia |]. by rewrite (proj2 (Z.ltb_lt n 24)). }
  destruct (Z.leb_spec n 255); [| destruct (Z.leb_spec n 65535); [| destruct (Z.leb_spec n U32_MAX)]];
    (eexists; split; [done |]); unfold read_head; cbn [app].
  - destruct (Hinit 24) as [-> ->]; [lia |]. simpl (24 <? 24). simpl (24 =? 24). cbv iota.
    replace (n :: x) with (Cbor.be_bytes 1 n ++ x); [by apply read_argument_back; unfold unsigned; simpl; lia |].
    unfold Cbor.be_bytes, to_le_bytes. rewrite Z.mod_small by (simpl; lia). cbn [le_encode]. by rewrite Z.mod_small by lia.
  - destruct (Hinit 25) as [-> ->]; [lia |]. exact (read_argument_back 2 major n x ltac:(unfold unsigned; simpl; lia)).
  - destruct (Hinit 26) as [-> ->]; [lia |]. exact (read_argument_back 4 major n x ltac:(unfold unsigned; simpl; lia)).
  - destruct (Hinit 27) as [-> ->]; [lia |]. exact (read_argument_back 8 major n x ltac:(unfold unsigned; simpl; lia)).
Qed.
