(* ===== verification/Sha256.v ===== *)
(** SHA-256 (boot/protocol/src/sha256.rs): the one-shot digest and the digest over
    parts fed in turn. Words are 32-bit [Z], bytes [Z] in [0, 256). *)

From S2P Require Import Prelude.

Definition INITIAL_STATE : list Z :=
  [0x6a09_e667; 0xbb67_ae85; 0x3c6e_f372; 0xa54f_f53a; 0x510e_527f; 0x9b05_688c; 0x1f83_d9ab; 0x5be0_cd19].

Definition ROUND_CONSTANTS : list Z :=
  [0x428a_2f98; 0x7137_4491; 0xb5c0_fbcf; 0xe9b5_dba5; 0x3956_c25b; 0x59f1_11f1; 0x923f_82a4; 0xab1c_5ed5;
   0xd807_aa98; 0x1283_5b01; 0x2431_85be; 0x550c_7dc3; 0x72be_5d74; 0x80de_b1fe; 0x9bdc_06a7; 0xc19b_f174;
   0xe49b_69c1; 0xefbe_4786; 0x0fc1_9dc6; 0x240c_a1cc; 0x2de9_2c6f; 0x4a74_84aa; 0x5cb0_a9dc; 0x76f9_88da;
   0x983e_5152; 0xa831_c66d; 0xb003_27c8; 0xbf59_7fc7; 0xc6e0_0bf3; 0xd5a7_9147; 0x06ca_6351; 0x1429_2967;
   0x27b7_0a85; 0x2e1b_2138; 0x4d2c_6dfc; 0x5338_0d13; 0x650a_7354; 0x766a_0abb; 0x81c2_c92e; 0x9272_2c85;
   0xa2bf_e8a1; 0xa81a_664b; 0xc24b_8b70; 0xc76c_51a3; 0xd192_e819; 0xd699_0624; 0xf40e_3585; 0x106a_a070;
   0x19a4_c116; 0x1e37_6c08; 0x2748_774c; 0x34b0_bcb5; 0x391c_0cb3; 0x4ed8_aa4a; 0x5b9c_ca4f; 0x682e_6ff3;
   0x748f_82ee; 0x78a5_636f; 0x84c8_7814; 0x8cc7_0208; 0x90be_fffa; 0xa450_6ceb; 0xbef9_a3f7; 0xc671_78f2].

(** [u32::rotate_right] and [!x]. *)
Definition rotate_right (x n : Z) : Z := Z.lor (Z.shiftr x n) (wrap32 (Z.shiftl x (32 - n))).
Definition not32 (x : Z) : Z := Z.lxor x U32_MAX.

(** [wrapping_add]. *)
Definition add32 (a b : Z) : Z := wrap32 (a + b).

(** Big-endian values: [from_be_bytes] and [to_be_bytes]. *)
Definition be_decode (bs : list Z) : Z := le_decode (reverse bs).
Definition be_encode (n : nat) (z : Z) : list Z := reverse (le_encode n z).

(** *** The compression function *)

(** [schedule[index]] for [index] below 16. *)
Definition block_word (block : list Z) (index : nat) : Z := be_decode (take 4 (drop (index * 4) block)).

Definition schedule_word (schedule : list Z) (index : nat) : Z :=
  let w n := nth (index - n) schedule 0 in
  let sigma0 := Z.lxor (Z.lxor (rotate_right (w 15%nat) 7) (rotate_right (w 15%nat) 18)) (Z.shiftr (w 15%nat) 3) in
  let sigma1 := Z.lxor (Z.lxor (rotate_right (w 2%nat) 17) (rotate_right (w 2%nat) 19)) (Z.shiftr (w 2%nat) 10) in
  add32 (add32 (add32 (w 16%nat) sigma0) (w 7%nat)) sigma1.

(** The two filling loops: each word is appended after the ones before it. *)
Definition message_schedule (block : list Z) : list Z :=
  foldl (fun s index => s ++ [schedule_word s index]) (block_word block <$> seq 0 16) (seq 16 48).

Record working := mkWorking { wa : Z; wb : Z; wc : Z; wd : Z; we : Z; wf : Z; wg : Z; wh : Z }.

Definition round (schedule : list Z) (s : working) (index : nat) : working :=
  let '(mkWorking a b c d e f g h) := s in
  let sigma1 := Z.lxor (Z.lxor (rotate_right e 6) (rotate_right e 11)) (rotate_right e 25) in
  let choose := Z.lxor (Z.land e f) (Z.land (not32 e) g) in
  let temp1 := add32 (add32 (add32 (add32 h sigma1) choose) (nth index ROUND_CONSTANTS 0)) (nth index schedule 0) in
  let sigma0 := Z.lxor (Z.lxor (rotate_right a 2) (rotate_right a 13)) (rotate_right a 22) in
  let majority := Z.lxor (Z.lxor (Z.land a b) (Z.land a c)) (Z.land b c) in
  let temp2 := add32 sigma0 majority in
  mkWorking (add32 temp1 temp2) a b c (add32 d temp1) e f g.

Definition compress (state block : list Z) : list Z :=
  let schedule := message_schedule block in
  let at_ i := nth i state 0 in
  let start := mkWorking (at_ 0%nat) (at_ 1%nat) (at_ 2%nat) (at_ 3%nat) (at_ 4%nat) (at_ 5%nat) (at_ 6%nat) (at_ 7%nat) in
  let '(mkWorking a b c d e f g h) := foldl (round schedule) start (seq 0 64) in
  [add32 (at_ 0%nat) a; add32 (at_ 1%nat) b; add32 (at_ 2%nat) c; add32 (at_ 3%nat) d;
   add32 (at_ 4%nat) e; add32 (at_ 5%nat) f; add32 (at_ 6%nat) g; add32 (at_ 7%nat) h].

(** *** Blocks *)

(** [chunks_exact(64)]: the whole blocks, and the remainder. *)
Fixpoint split_blocks (n : nat) (l : list Z) : list (list Z) * list Z :=
  match n with
  | O => ([], l)
  | S n => let '(cs, r) := split_blocks n (drop 64 l) in (take 64 l :: cs, r)
  end.
Definition chunks_exact (l : list Z) : list (list Z) * list Z := split_blocks (length l / 64) l.

(** [dst[at..at + src.len()].copy_from_slice(src)]. *)
Definition copy_at (i : nat) (src dst : list Z) : list Z := take i dst ++ src ++ drop (i + length src) dst.

(** The padded tail: the remainder, 0x80, zeros and the length in bits. *)
Definition padded_tail (remainder : list Z) (length64 : Z) : list Z :=
  let tail := copy_at 0 remainder (replicate 128 0) in
  let tail := <[length remainder := 0x80]> tail in
  let tail_len := if (length remainder + 1 + 8 <=? 64)%nat then 64%nat else 128%nat in
  take tail_len (copy_at (tail_len - 8) (be_encode 8 (wrap64 (length64 * 8))) tail).

(** The end of [digest] and of [Sha256::finish]. *)
Definition output (state remainder : list Z) (length64 : Z) : list Z :=
  foldl compress state (chunks_exact (padded_tail remainder length64)).1 ≫= be_encode 4.

Definition digest (bytes : list Z) : list Z :=
  let '(chunks, remainder) := chunks_exact bytes in
  output (foldl compress INITIAL_STATE chunks) remainder (wrap64 (Z.of_nat (length bytes))).

(** *** Parts fed in turn *)

Record Sha256 := mkSha256 { s_state : list Z; s_block : list Z; s_filled : nat; s_length : Z }.

Definition sha256_new : Sha256 := mkSha256 INITIAL_STATE (replicate 64 0) 0 0.

(** The part of [update] after a partial block has been completed. *)
Definition update_blocks (state block bytes : list Z) (length64 : Z) : Sha256 :=
  let '(chunks, remainder) := chunks_exact bytes in
  mkSha256 (foldl compress state chunks) (copy_at 0 remainder block) (length remainder) length64.

Definition update (h : Sha256) (bytes : list Z) : Sha256 :=
  let length64 := wrap64 (s_length h + Z.of_nat (length bytes)) in
  if (s_filled h =? 0)%nat then update_blocks (s_state h) (s_block h) bytes length64
  else
    let n := Nat.min (64 - s_filled h) (length bytes) in
    let block := copy_at (s_filled h) (take n bytes) (s_block h) in
    let filled := (s_filled h + n)%nat in
    if (filled <? 64)%nat then mkSha256 (s_state h) block filled length64
    else update_blocks (compress (s_state h) block) block (drop n bytes) length64.

Definition finish (h : Sha256) : list Z := output (s_state h) (take (s_filled h) (s_block h)) (s_length h).

(** ** The blocks of a byte string *)

Lemma chunks_exact_long l :
  (64 <= length l)%nat ->
  chunks_exact l = (take 64 l :: (chunks_exact (drop 64 l)).1, (chunks_exact (drop 64 l)).2).
Proof.
  intros Hl. unfold chunks_exact. rewrite length_drop.
  replace (length l / 64)%nat with (S ((length l - 64) / 64)).
  - cbn [split_blocks]. by destruct (split_blocks _ (drop 64 l)).
  - replace (length l) with (1 * 64 + (length l - 64))%nat at 2 by lia. rewrite Nat.div_add_l by lia. lia.
Qed.

Lemma chunks_exact_short l : (length l < 64)%nat -> chunks_exact l = ([], l).
Proof. intros Hl. unfold chunks_exact. by rewrite Nat.div_small by done. Qed.

(** Hashing the whole blocks of a string, and what is left of it. *)
Definition absorb (state l : list Z) : list Z := foldl compress state (chunks_exact l).1.
Definition left_over (l : list Z) : list Z := (chunks_exact l).2.

Lemma absorb_block state a l :
  length a = 64%nat -> absorb state (a ++ l) = absorb (compress state a) l /\ left_over (a ++ l) = left_over l.
Proof.
  intros Ha. unfold absorb, left_over. rewrite chunks_exact_long by (rewrite length_app; lia).
  rewrite <- Ha, take_app_length, drop_app_length. done.
Qed.

Lemma absorb_blocks n state a l :
  length a = (64 * n)%nat -> absorb state (a ++ l) = absorb (absorb state a) l /\ left_over (a ++ l) = left_over l.
Proof.
  revert state a. induction n as [| n IH]; intros state a Ha.
  - destruct a; [done | simpl in Ha; lia].
  - assert (length (take 64 a) = 64%nat) as Hl by (rewrite length_take; lia).
    assert (length (drop 64 a) = (64 * n)%nat) as Hd by (rewrite length_drop; lia).
    rewrite <- (take_drop 64 a), <- app_assoc. destruct (absorb_block state _ (drop 64 a ++ l) Hl) as [-> ->].
    destruct (absorb_block state _ (drop 64 a) Hl) as [-> _]. by apply IH.
Qed.

(** Every string is whole blocks and a remainder shorter than one. *)
Lemma blocks_and_rest l :
  exists a n, l = a ++ left_over l /\ length a = (64 * n)%nat /\ (length (left_over l) < 64)%nat.
Proof.
  remember (length l / 64)%nat as n eqn:Hn. revert l Hn. induction n as [| n IH]; intros l Hn.
  - assert (length l < 64)%nat as Hl by (apply Nat.div_small_iff; lia).
    exists [], 0%nat. unfold left_over. by rewrite chunks_exact_short.
  - assert (64 <= length l)%nat as Hl.
    { destruct (Nat.le_gt_cases 64 (length l)) as [? | Hlt]; [done |]. rewrite Nat.div_small in Hn by done. lia. }
    destruct (IH (drop 64 l)) as (a & m & Heq & Ha & Hr).
    { rewrite length_drop. replace (length l) with (1 * 64 + (length l - 64))%nat in Hn by lia.
      rewrite Nat.div_add_l in Hn by lia. lia. }
    exists (take 64 l ++ a), (S m). unfold left_over in *. rewrite chunks_exact_long by done. simpl.
    rewrite <- app_assoc, <- Heq, take_drop, length_app, length_take. split; [done |]. split; [lia | done].
Qed.

Lemma absorb_short state l : (length l < 64)%nat -> absorb state l = state /\ left_over l = l.
Proof. intros Hl. unfold absorb, left_over. by rewrite chunks_exact_short. Qed.

(** ** The invariant of the streaming digest *)

(** A hasher that has been fed [t]. *)
Record fed (h : Sha256) (t : list Z) : Prop := {
  fed_state : s_state h = absorb INITIAL_STATE t;
  fed_block : length (s_block h) = 64%nat;
  fed_filled : s_filled h = length (left_over t);
  fed_rest : take (s_filled h) (s_block h) = left_over t;
  fed_length : s_length h = wrap64 (Z.of_nat (length t));
}.

Lemma fed_new : fed sha256_new [].
Proof. by constructor. Qed.

Lemma length_copy_at i src dst :
  (i + length src <= length dst)%nat -> length (copy_at i src dst) = length dst.
Proof. intros Hi. unfold copy_at. rewrite !length_app, length_take, length_drop. lia. Qed.

Lemma take_copy_at i src dst :
  (i + length src <= length dst)%nat -> take (i + length src) (copy_at i src dst) = take i dst ++ src.
Proof.
  intros Hi. unfold copy_at. rewrite app_assoc, take_app_le by (rewrite length_app, length_take; lia).
  apply take_ge. rewrite length_app, length_take. lia.
Qed.

(** Whole blocks absorbed into a state that stands at a block boundary. *)
Lemma fed_blocks state block bytes t len64 :
  absorb INITIAL_STATE (t ++ bytes) = absorb state bytes -> left_over (t ++ bytes) = left_over bytes ->
  length block = 64%nat -> len64 = wrap64 (Z.of_nat (length (t ++ bytes))) ->
  fed (update_blocks state block bytes len64) (t ++ bytes).
Proof.
  intros Ha Hl Hb Hn. destruct (blocks_and_rest bytes) as (a & n & _ & _ & Hr). unfold update_blocks.
  unfold absorb, left_over in *. destruct (chunks_exact bytes) as [chunks remainder] eqn:E. simpl in *.
  constructor; simpl; unfold absorb, left_over;
    [by rewrite Ha | rewrite length_copy_at; [done | lia] | by rewrite Hl | | done].
  rewrite Hl. rewrite <- (Nat.add_0_l (length remainder)) at 1.
  by rewrite take_copy_at by lia.
Qed.

Lemma wrap64_add a b : wrap64 (wrap64 a + b) = wrap64 (a + b).
Proof. unfold wrap64. by rewrite Zplus_mod_idemp_l. Qed.

Lemma fed_update h t bytes : fed h t -> fed (update h bytes) (t ++ bytes).
Proof.
  intros [Hst Hbl Hfi Hre Hle]. destruct (blocks_and_rest t) as (a & n & Ht & Ha & Hr).
  assert (wrap64 (s_length h + Z.of_nat (length bytes)) = wrap64 (Z.of_nat (length (t ++ bytes)))) as Hlen.
  { rewrite Hle, wrap64_add, length_app, Nat2Z.inj_add. done. }
  assert (forall x, absorb INITIAL_STATE (t ++ x) = absorb (s_state h) (left_over t ++ x) /\
                    left_over (t ++ x) = left_over (left_over t ++ x)) as Hx.
  { assert (s_state h = absorb INITIAL_STATE a) as Hs.
    { rewrite Hst, Ht at 1. destruct (absorb_blocks n INITIAL_STATE a (left_over t) Ha) as [-> _].
      by apply absorb_short. }
    intros x. destruct (absorb_blocks n INITIAL_STATE a (left_over t ++ x) Ha) as [H1 H2].
    rewrite app_assoc, <- Ht in H1, H2. by rewrite H1, H2, Hs. }
  unfold update. cbv zeta. rewrite Hlen. destruct (Nat.eqb_spec (s_filled h) 0) as [H0 | H0].
  { destruct (Hx bytes) as [Hxa Hxl]. rewrite Hfi in H0. apply length_zero_iff_nil in H0.
    rewrite H0 in Hxa, Hxl. by apply fed_blocks. }
  set (k := Nat.min (64 - s_filled h) (length bytes)).
  assert (length (take k bytes) = k) as Hk by (rewrite length_take; lia).
  assert (take (s_filled h + k) (copy_at (s_filled h) (take k bytes) (s_block h)) = left_over t ++ take k bytes) as Hcopy.
  { rewrite <- Hk at 1. rewrite take_copy_at by lia. by rewrite Hre. }
  destruct (Nat.ltb_spec (s_filled h + k) 64) as [Hlt | Hge].
  - assert (take k bytes = bytes) as Hall by (apply take_ge; lia). rewrite Hall in Hcopy.
    assert (length (left_over t ++ bytes) < 64)%nat as Hshort by (rewrite length_app; lia).
    destruct (Hx bytes) as [Hxa Hxl]. destruct (absorb_short (s_state h) _ Hshort) as [Has Hls].
    rewrite Has in Hxa. rewrite Hls in Hxl.
    constructor; simpl; [by rewrite Hxa | rewrite length_copy_at; lia | rewrite Hxl, length_app; lia | by rewrite Hxl, Hall | done].
  - assert (copy_at (s_filled h) (take k bytes) (s_block h) = left_over t ++ take k bytes) as Hblock.
    { rewrite <- Hcopy. symmetry. apply take_ge. rewrite length_copy_at; lia. }
    assert (length (left_over t ++ take k bytes) = 64%nat) as H64 by (rewrite length_app; lia).
    assert (left_over t ++ bytes = (left_over t ++ take k bytes) ++ drop k bytes) as Hsplit by (by rewrite <- app_assoc, take_drop).
    destruct (absorb_block (s_state h) _ (drop k bytes) H64) as [Hba Hbl'].
    rewrite Hblock. destruct (Hx bytes) as [Hxa Hxl]. rewrite Hsplit, Hba in Hxa. rewrite Hsplit, Hbl' in Hxl.
    assert (t ++ bytes = (t ++ take k bytes) ++ drop k bytes) as Ht2 by (by rewrite <- app_assoc, take_drop).
    rewrite Ht2 in *. by apply fed_blocks.
Qed.

(** C33: The streaming digest is the digest of the concatenation: feeding parts of
    any sizes in turn and finishing gives exactly what [digest] gives for all of
    them at once, also when a part ends on a block boundary, fills a block partly
    or spans several. *)
Theorem sha256_streaming_is_digest parts :
  finish (foldl update sha256_new parts) = digest (concat parts).
Proof.
  assert (fed (foldl update sha256_new parts) (concat parts)) as Hfed.
  { rewrite <- (app_nil_l (concat parts)). generalize fed_new. generalize sha256_new, (@nil Z).
    induction parts as [| p ps IH]; intros h t Hh; cbn [foldl concat]; [by rewrite app_nil_r |].
    rewrite app_assoc. apply IH. by apply fed_update. }
  destruct Hfed as [Hst Hbl Hfi Hre Hle]. unfold finish, digest. rewrite Hst, Hre, Hle.
  unfold absorb, left_over. by destruct (chunks_exact (concat parts)).
Qed.

(** The test vector of the standard: the digest of the three bytes of abc. *)
Lemma digest_abc :
  be_decode (digest [97; 98; 99]) = 0xba7816bf8f01cfea414140de5dae2223b00361a396177a9cb410ff61f20015ad.
Proof. by vm_compute. Qed.
