(* ===== verification/Rollback.v ===== *)
(** The monotonic boot floor (boot/protocol/src/rollback.rs) and the latch
    (boot/protocol/src/latch.rs): the record in firmware variables, how what
    firmware answered is judged, and the writes of an accepted boot. A computation
    drives a firmware; one that stops is a machine that lost power, with its
    variables as they were left. *)

From S2P Require Import Prelude Sha256.

(** ** The record *)

(** [LSROLLB1]. *)
Definition MAGIC : list Z := [76; 83; 82; 79; 76; 76; 66; 49].
Definition FORMAT_VERSION : Z := 1.
Definition RECORD_LEN : nat := 64.
Definition TAG_LEN : nat := 8.
Definition TAG_AT : nat := 56.
Definition FLOOR_AT : nat := 48.
Definition PRODUCT_AT : nat := 16.
Definition RESERVED_AT : nat := 12.
Definition VERSION_AT : nat := 8.
Definition MARKER_LEN : nat := 1.
Definition MARKER_VALUE : Z := 1.
Definition ATTRIBUTE_NON_VOLATILE : Z := 1.
Definition ATTRIBUTE_BOOTSERVICE_ACCESS : Z := 2.
Definition ATTRIBUTES : Z := Z.lor ATTRIBUTE_NON_VOLATILE ATTRIBUTE_BOOTSERVICE_ACCESS.

Inductive Slot := SlotA | SlotB.

#[export] Instance slot_eq_dec : EqDecision Slot.
Proof. solve_decision. Defined.

Definition index_byte (s : Slot) : Z := match s with SlotA => 0 | SlotB => 1 end.
Definition other (s : Slot) : Slot := match s with SlotA => SlotB | SlotB => SlotA end.

Inductive Variable_ := VSlotA | VSlotB | VMarker.

Definition variable (s : Slot) : Variable_ := match s with SlotA => VSlotA | SlotB => VSlotB end.

Definition product_identity (product : list Z) : list Z := digest product.

(** The hashed input: the first 56 bytes of the record and the slot's index byte. *)
Definition tag (head : list Z) (slot : Slot) : list Z := take TAG_LEN (digest (take TAG_AT head ++ [index_byte slot])).

(** [range(at, at + n)] of a record. *)
Definition field (at_ n : nat) (bytes : list Z) : list Z := take n (drop at_ bytes).

Definition encode (floor : Z) (slot : Slot) (product : list Z) : list Z :=
  let record := replicate RECORD_LEN 0 in
  let record := copy_at 0 MAGIC record in
  let record := copy_at VERSION_AT (le_encode 4 FORMAT_VERSION) record in
  let record := copy_at PRODUCT_AT product record in
  let record := copy_at FLOOR_AT (le_encode 8 floor) record in
  copy_at TAG_AT (tag record slot) record.

Inductive Invalid :=
| ILength (n : nat)
| IMagic
| IVersion (v : Z)
| IReserved (v : Z)
| IProduct
| ITag.

#[export] Instance invalid_eq_dec : EqDecision Invalid.
Proof. solve_decision. Defined.

Definition decode (bytes : list Z) (slot : Slot) (product : list Z) : result Z Invalid :=
  if negb (length bytes =? RECORD_LEN)%nat then Err (ILength (length bytes))
  else if bool_decide (field 0 (length MAGIC) bytes <> MAGIC) then Err IMagic
  else
    let version := le_decode (field VERSION_AT 4 bytes) in
    if negb (version =? FORMAT_VERSION) then Err (IVersion version)
    else
      let reserved := le_decode (field RESERVED_AT 4 bytes) in
      if negb (reserved =? 0) then Err (IReserved reserved)
      else if bool_decide (field PRODUCT_AT 32 bytes <> product) then Err IProduct
      else if bool_decide (tag bytes slot <> drop TAG_AT bytes) then Err ITag
      else Ok (le_decode (field FLOOR_AT 8 bytes)).

(** ** What firmware answered *)

Inductive Read :=
| RAbsent
| RPresent (attributes : Z) (len : nat) (bytes : list Z)
| ROversized (n : nat)
| RAccessDenied
| RDeviceError
| RFailed (status : Z).

(** [Read::present]. *)
Definition present (attributes : Z) (data : list Z) : Read :=
  if (RECORD_LEN <? length data)%nat then ROversized (length data)
  else RPresent attributes (length data) (copy_at 0 data (replicate RECORD_LEN 0)).

Inductive SlotState :=
| SValid (floor : Z)
| SAbsent
| SInvalid (reason : Invalid)
| SWrongAttributes (attributes : Z)
| SAccessDenied
| SDeviceError
| SFailed (status : Z).

#[export] Instance slot_state_eq_dec : EqDecision SlotState.
Proof. solve_decision. Defined.

Definition floor (s : SlotState) : option Z := match s with SValid floor => Some floor | _ => None end.

Definition slot_state (read : Read) (slot : Slot) (product : list Z) : SlotState :=
  match read with
  | RAbsent => SAbsent
  | RAccessDenied => SAccessDenied
  | RDeviceError => SDeviceError
  | RFailed status => SFailed status
  | ROversized len => SInvalid (ILength len)
  | RPresent attributes len bytes =>
      if negb (attributes =? ATTRIBUTES) then SWrongAttributes attributes
      else
        match decode (take len bytes) slot product with
        | Ok floor => SValid floor
        | Err reason => SInvalid reason
        end
  end.

Inductive MarkerRefusal :=
| MLength (n : nat)
| MValue (v : Z)
| MAttributes (attributes : Z)
| MAccessDenied
| MDeviceError
| MFailed (status : Z).

Inductive MarkerState :=
| MAbsent
| MPresent
| MRefused (reason : MarkerRefusal).

Definition marker_state (read : Read) : MarkerState :=
  match read with
  | RAbsent => MAbsent
  | RAccessDenied => MRefused MAccessDenied
  | RDeviceError => MRefused MDeviceError
  | RFailed status => MRefused (MFailed status)
  | ROversized len => MRefused (MLength len)
  | RPresent attributes len bytes =>
      if negb (len =? MARKER_LEN)%nat then MRefused (MLength len)
      else if negb (attributes =? ATTRIBUTES) then MRefused (MAttributes attributes)
      else if negb (nth 0 bytes 0 =? MARKER_VALUE) then MRefused (MValue (nth 0 bytes 0))
      else MPresent
  end.

(** ** The decision *)

Inductive Refusal :=
| RMarker (reason : MarkerRefusal)
| RNoValidSlot (a b : SlotState).

Inductive Provisioning :=
| Unprovisioned
| Provisioned (floor : Z) (lagging : option Slot)
| PRefused (reason : Refusal).

Definition classify (marker : MarkerState) (a b : SlotState) : Provisioning :=
  match marker with
  | MRefused reason => PRefused (RMarker reason)
  | MAbsent => Unprovisioned
  | MPresent =>
      match floor a, floor b with
      | Some x, Some y =>
          if x =? y then Provisioned x None
          else Provisioned (Z.max x y) (Some (if x <? y then SlotA else SlotB))
      | Some x, None => Provisioned x (Some SlotB)
      | None, Some y => Provisioned y (Some SlotA)
      | None, None => PRefused (RNoValidSlot a b)
      end
  end.

Record Writes := mkWrites { first : option Slot; second : option Slot }.

Inductive Verdict :=
| VUnprovisioned
| VBelow (floor generation : Z)
| VAccepted (previous floor : Z) (writes : Writes).

Definition decide_ (state : Provisioning) (generation : Z) : result Verdict Refusal :=
  match state with
  | PRefused reason => Err reason
  | Unprovisioned => Ok VUnprovisioned
  | Provisioned floor lagging =>
      if generation <? floor then Ok (VBelow floor generation)
      else if generation =? floor then Ok (VAccepted floor floor (mkWrites lagging None))
      else
        let slot := default SlotA lagging in
        Ok (VAccepted floor generation (mkWrites (Some slot) (Some (other slot))))
  end.

(** ** Driving the firmware *)

Inductive WriteFault :=
| NoWritePath
| WRefused (status : Z).

(** [trait Firmware]; an operation that does not answer is a power loss. *)
Class Firmware (F : Type) := {
  read : Variable_ -> E F Read;
  write : Slot -> list Z -> E F (result unit WriteFault);
}.

Inductive Fault :=
| FRefused (reason : Refusal)
| FBelow (floor generation : Z)
| FWrite (slot : Slot) (fault : WriteFault)
| FReadback (slot : Slot) (found : SlotState).

Inductive Outcome :=
| OUnprovisioned (generation : Z)
| OAccepted (previous floor : Z) (converged : Writes).

Section enforce.
Context {F : Type} `{Firmware F} (product : list Z).

(** The loop over the writes: each is read back before the next. *)
Fixpoint write_slots (floor_ : Z) (slots : list Slot) : E F (result unit Fault) :=
  match slots with
  | [] => mret (Ok tt)
  | slot :: slots =>
      r ← write slot (encode floor_ slot product);
      match r with
      | Err fault => mret (Err (FWrite slot fault))
      | Ok _ =>
          v ← read (variable slot);
          let found := slot_state v slot product in
          if bool_decide (found <> SValid floor_) then mret (Err (FReadback slot found))
          else write_slots floor_ slots
      end
  end.

(** [[writes.first, writes.second].into_iter().flatten()]. *)
Definition write_list (w : Writes) : list Slot :=
  option_list (first w) ++ option_list (second w).

Definition enforce (generation : Z) : E F (result Outcome Fault) :=
  m ← read VMarker;
  ra ← read VSlotA;
  rb ← read VSlotB;
  let marker := marker_state m in
  let a := slot_state ra SlotA product in
  let b := slot_state rb SlotB product in
  match decide_ (classify marker a b) generation with
  | Err reason => mret (Err (FRefused reason))
  | Ok VUnprovisioned => mret (Ok (OUnprovisioned generation))
  | Ok (VBelow floor_ generation) => mret (Err (FBelow floor_ generation))
  | Ok (VAccepted previous floor_ writes) =>
      r ← write_slots floor_ (write_list writes);
      mret (match r with
            | Err fault => Err fault
            | Ok _ => Ok (OAccepted previous floor_ writes)
            end)
  end.

End enforce.

(** ** One value, latched by the first source that supplies it *)

Section latch.
Context {T : Type} `{EqDecision T}.

Record Latch := mkLatch { held : option T; offered : Z }.
Record Conflict := mkConflict { c_held : T; c_offered : T }.

Definition latch_new : Latch := mkLatch None 0.

Definition record (l : Latch) (value : T) : result unit Conflict * Latch :=
  let n := offered l + 1 in
  match held l with
  | None => (Ok tt, mkLatch (Some value) n)
  | Some h => (if bool_decide (h = value) then Ok tt else Err (mkConflict h value), mkLatch (Some h) n)
  end.

Definition latch_value (l : Latch) : option T := held l.

End latch.
Arguments Latch : clear implicits.
Arguments Conflict : clear implicits.
