(* ===== verification/RollbackProps.v ===== *)
(** The boot floor over a machine's life: firmware variables that tear, refuse and
    lose power, boot after boot. *)

From stdpp Require Import sorting.
From S2P Require Import Prelude Sha256 Rollback.

(** ** The record *)

Lemma length_compress state block : length (compress state block) = 8%nat.
Proof. unfold compress. by destruct (foldl _ _ _). Qed.

Lemma length_foldl_compress chunks state : length state = 8%nat -> length (foldl compress state chunks) = 8%nat.
Proof. revert state. induction chunks as [| c cs IH]; intros state Hs; [done |]. apply IH, length_compress. Qed.

Lemma length_digest bytes : length (digest bytes) = 32%nat.
Proof.
  unfold digest. destruct (chunks_exact bytes) as [chunks rem]. unfold output.
  assert (length (foldl compress (foldl compress INITIAL_STATE chunks)
    (chunks_exact (padded_tail rem (wrap64 (Z.of_nat (length bytes))))).1) = 8%nat) as Hlen.
  { by apply length_foldl_compress, length_foldl_compress. }
  revert Hlen. generalize (foldl compress (foldl compress INITIAL_STATE chunks)
    (chunks_exact (padded_tail rem (wrap64 (Z.of_nat (length bytes))))).1) as l. intros l Hlen.
  do 8 (destruct l as [| ? l]; [discriminate |]). destruct l; [| discriminate]. done.
Qed.

Lemma length_tag head slot : length (tag head slot) = TAG_LEN.
Proof. unfold tag. rewrite length_take, length_digest. done. Qed.

(** The tag covers the head only. *)
Lemma tag_app head x slot : length head = TAG_AT -> tag (head ++ x) slot = tag head slot.
Proof. intros Hl. unfold tag. by rewrite take_app_length', (take_ge head) by lia. Qed.

(** The bytes of a record, field by field. *)
Definition record_head (floor_ : Z) (product : list Z) : list Z :=
  (MAGIC ++ le_encode 4 FORMAT_VERSION ++ [0; 0; 0; 0]) ++ product ++ le_encode 8 floor_.

Section record.
Context (floor_ : Z) (slot : Slot) (product : list Z).
Context (Hproduct : length product = 32%nat) (Hfloor : u64_range floor_).

Lemma length_record_head : length (record_head floor_ product) = TAG_AT.
Proof using Hproduct. unfold record_head. rewrite !length_app, !length_le_encode, Hproduct. done. Qed.

Lemma encode_layout : encode floor_ slot product = record_head floor_ product ++ tag (record_head floor_ product) slot.
Proof using Hproduct.
  unfold encode. cbv zeta.
  set (start := copy_at VERSION_AT (le_encode 4 FORMAT_VERSION) (copy_at 0 MAGIC (replicate RECORD_LEN 0))).
  assert (start = (MAGIC ++ le_encode 4 FORMAT_VERSION ++ [0; 0; 0; 0]) ++ replicate 48 0) as Hstart by by vm_compute.
  assert (copy_at PRODUCT_AT product start =
    ((MAGIC ++ le_encode 4 FORMAT_VERSION ++ [0; 0; 0; 0]) ++ product) ++ replicate 16 0) as ->.
  { unfold copy_at. rewrite Hproduct, Hstart. rewrite <- app_assoc. f_equal. }
  assert (forall tail, copy_at FLOOR_AT (le_encode 8 floor_)
    (((MAGIC ++ le_encode 4 FORMAT_VERSION ++ [0; 0; 0; 0]) ++ product) ++ replicate 16 tail) =
    record_head floor_ product ++ replicate 8 tail) as Hfl.
  { intros x. unfold copy_at, record_head. rewrite length_le_encode. set (pre := _ ++ product).
    assert (length pre = FLOOR_AT) as Hpre by (unfold pre; rewrite length_app, Hproduct; done).
    rewrite (take_app_length' pre) by done. rewrite drop_app_ge by (rewrite Hpre; unfold FLOOR_AT; lia).
    rewrite Hpre. unfold pre. rewrite <- !app_assoc. done. }
  rewrite Hfl. unfold copy_at at 1.
  rewrite (take_app_length' (record_head floor_ product)) by (by rewrite length_record_head).
  rewrite length_tag, drop_ge, app_nil_r by (rewrite length_app, length_record_head; done).
  by rewrite tag_app by apply length_record_head.
Qed.

Lemma length_encode : length (encode floor_ slot product) = RECORD_LEN.
Proof using Hproduct. rewrite encode_layout, length_app, length_record_head, length_tag. done. Qed.

(** A record decodes to the floor it was written for. *)
Lemma decode_encode : decode (encode floor_ slot product) slot product = Ok floor_.
Proof using Hproduct Hfloor.
  unfold decode. rewrite length_encode, Nat.eqb_refl. cbn [negb]. rewrite encode_layout.
  set (t := tag _ slot). pose proof length_record_head as Hlen.
  assert (field PRODUCT_AT 32 (record_head floor_ product ++ t) = product) as Hprod.
  { unfold field, record_head. set (pre := MAGIC ++ _). assert (length pre = PRODUCT_AT) as Hpre by done.
    rewrite <- (app_assoc pre), drop_app_length', <- app_assoc by done. by rewrite take_app_length'. }
  assert (field FLOOR_AT 8 (record_head floor_ product ++ t) = le_encode 8 floor_) as Hfl.
  { unfold field, record_head. rewrite app_assoc.
    set (pre := _ ++ product). assert (length pre = FLOOR_AT) as Hpre by (unfold pre; rewrite length_app, Hproduct; done).
    rewrite <- app_assoc, <- Hpre, drop_app_length. by rewrite take_app_length'. }
  assert (le_decode (field VERSION_AT 4 (record_head floor_ product ++ t)) = FORMAT_VERSION) as -> by done.
  assert (le_decode (field RESERVED_AT 4 (record_head floor_ product ++ t)) = 0) as -> by done.
  rewrite Hprod, Hfl, (tag_app _ t slot Hlen), drop_app_length' by done. fold t.
  rewrite (bool_decide_false (field 0 (length MAGIC) _ <> MAGIC)) by (by intros Hne).
  rewrite (bool_decide_false (product <> product)), (bool_decide_false (t <> t)) by (by intros Hne).
  rewrite le_decode_encode; [done |]. unfold u64_range in Hfloor. change (256 ^ Z.of_nat 8) with TWO64. lia.
Qed.

(** Read back as it was written, the slot holds the floor. *)
Lemma present_encode :
  slot_state (present ATTRIBUTES (encode floor_ slot product)) slot product = SValid floor_.
Proof using Hproduct Hfloor.
  unfold present. rewrite length_encode. change (RECORD_LEN <? RECORD_LEN)%nat with false. cbv iota.
  cbn [slot_state]. rewrite Z.eqb_refl. cbn [negb].
  assert (take RECORD_LEN (copy_at 0 (encode floor_ slot product) (replicate RECORD_LEN 0)) = encode floor_ slot product) as ->.
  { unfold copy_at. rewrite take_0, app_nil_l. by rewrite take_app_length' by (by rewrite length_encode). }
  by rewrite decode_encode.
Qed.

End record.

(** ** Firmware variables that tear, refuse and lose power *)

(** What an interrupted write leaves in its slot. *)
Inductive remains :=
| Old
| New
| Garbage (r : Read).

(** What happens to the next operation of the firmware. *)
Inductive event :=
| Works
| ReadFails (r : Read)
| Torn (left_ : remains) (answer : result unit WriteFault)
| PowerLoss (left_ : remains).

Record nvram := mkNvram { n_marker : Read; n_a : Read; n_b : Read; n_events : list event }.

Definition stored (s : Slot) (n : nvram) : Read := match s with SlotA => n_a n | SlotB => n_b n end.
Definition store (s : Slot) (r : Read) (n : nvram) : nvram :=
  match s with
  | SlotA => mkNvram (n_marker n) r (n_b n) (n_events n)
  | SlotB => mkNvram (n_marker n) (n_a n) r (n_events n)
  end.
Definition variable_of (v : Variable_) (n : nvram) : Read :=
  match v with VSlotA => n_a n | VSlotB => n_b n | VMarker => n_marker n end.

(** The next event, [Works] once they have run out. *)
Definition next_event (n : nvram) : event * nvram :=
  match n_events n with
  | [] => (Works, n)
  | e :: es => (e, mkNvram (n_marker n) (n_a n) (n_b n) es)
  end.

Definition leave (s : Slot) (data : list Z) (l : remains) (n : nvram) : nvram :=
  match l with
  | Old => n
  | New => store s (present ATTRIBUTES data) n
  | Garbage r => store s r n
  end.

Definition nv_read (v : Variable_) : E nvram Read := fun n =>
  let '(e, n) := next_event n in
  match e with
  | PowerLoss _ => (None, n)
  | ReadFails r => (Some r, n)
  | _ => (Some (variable_of v n), n)
  end.

Definition nv_write (s : Slot) (data : list Z) : E nvram (result unit WriteFault) := fun n =>
  let '(e, n) := next_event n in
  match e with
  | PowerLoss l => (None, leave s data l n)
  | Torn l answer => (Some answer, leave s data l n)
  | _ => (Some (Ok tt), leave s data New n)
  end.

#[export] Instance nvram_firmware : Firmware nvram := {| read := nv_read; write := nv_write |}.

(** What a torn write leaves may be anything that is not committed: the last eight bytes are
    not by chance the digest of the bytes before them. *)
Definition uncommitted (r : Read) : Prop :=
  match r with
  | RPresent _ len bytes => forall s, take TAG_LEN (digest (take TAG_AT (take len bytes) ++ [index_byte s])) <> drop TAG_AT (take len bytes)
  | _ => True
  end.

(** A read that fails says so, and a torn write that leaves neither the old nor the new
    record leaves no commit tag. *)
Definition honest (e : event) : Prop :=
  match e with
  | Works => True
  | ReadFails r => match r with RAccessDenied | RDeviceError | RFailed _ => True | _ => False end
  | Torn (Garbage r) _ | PowerLoss (Garbage r) => uncommitted r
  | _ => True
  end.

(** The tag is what nobody believes such a slot for. *)
Lemma uncommitted_unbelieved product r s : uncommitted r -> floor (slot_state r s product) = None.
Proof.
  intros Hu. destruct r as [| attributes len bytes | | | |]; try done. cbn [slot_state]. destruct (negb _); [done |].
  destruct (decode _ s product) as [x | e] eqn:E; [exfalso | done]. unfold decode in E. cbv zeta in E.
  rewrite (bool_decide_true _ (Hu s)) in E. repeat case_match; discriminate.
Qed.

(** Boot after boot: what each ended with, [None] for a loss of power. *)
Fixpoint boots (product : list Z) (gens : list Z) (n : nvram) : list (Z * option (result Outcome Fault)) * nvram :=
  match gens with
  | [] => ([], n)
  | g :: gens =>
      let '(r, n) := enforce product g n in
      let '(rs, n) := boots product gens n in
      ((g, r) :: rs, n)
  end.

(** The generations control was transferred to. *)
Definition transferred (rs : list (Z * option (result Outcome Fault))) : list Z :=
  omap (fun x => match x with (g, Some (Ok _)) => Some g | _ => None end) rs.

(** ** The invariant *)

(** What a provisioned state says of the two slots: both lie at or below its floor,
    and the one that does not lag is at it. *)
Lemma classify_spec a b f lagging :
  classify MPresent a b = Provisioned f lagging ->
  (exists s, floor (match s with SlotA => a | SlotB => b end) = Some f) /\
  forall s, lagging <> Some s -> floor (match s with SlotA => a | SlotB => b end) = Some f.
Proof.
  cbn [classify]. destruct (floor a) as [x |] eqn:Ea, (floor b) as [y |] eqn:Eb; [| | |done].
  - destruct (Z.eqb_spec x y) as [-> | Hne]; intros [= <- <-].
    + split; [by exists SlotA | by intros []].
    + destruct (Z.ltb_spec x y).
      * rewrite Z.max_r by lia. split; [by exists SlotB |]. by intros [].
      * rewrite Z.max_l by lia. split; [by exists SlotA |]. by intros [].
  - intros [= <- <-]. split; [by exists SlotA |]. by intros [].
  - intros [= <- <-]. split; [by exists SlotB |]. by intros [].
Qed.

Lemma write_list_cover lagging s :
  NoDup (write_list (mkWrites lagging None)) /\ NoDup (write_list (mkWrites (Some s) (Some (other s)))) /\
  (forall t, t ∈ write_list (mkWrites (Some s) (Some (other s)))) /\
  forall t, t ∉ write_list (mkWrites lagging None) -> lagging <> Some t.
Proof.
  unfold write_list. cbn [first second option_list]. repeat split.
  - destruct lagging; simpl; [apply NoDup_singleton | apply NoDup_nil_2].
  - simpl. apply NoDup_cons. split; [rewrite list_elem_of_singleton; by destruct s | apply NoDup_singleton].
  - intros t. simpl. rewrite elem_of_cons, list_elem_of_singleton. destruct s, t; auto.
  - intros t Ht ->. apply Ht. simpl. set_solver.
Qed.

Section floor.
Context (product : list Z) (Hproduct : length product = 32%nat).

(** Every record a slot would be believed for is at least [h]. *)
Record above (h : Z) (n : nvram) : Prop := {
  above_marker : marker_state (n_marker n) = MPresent;
  above_honest : Forall honest (n_events n);
  above_slots : forall s x, floor (slot_state (stored s n) s product) = Some x -> h <= x;
}.

Lemma above_le h h' n : h' <= h -> above h n -> above h' n.
Proof. intros Hle [Hm He Hs]. constructor; [done | done |]. intros s x Hx. specialize (Hs s x Hx). lia. Qed.

Lemma next_event_spec h n e n' :
  above h n -> next_event n = (e, n') ->
  above h n' /\ honest e /\ n_marker n' = n_marker n /\ forall s, stored s n' = stored s n.
Proof.
  intros [Hm He Hs]. unfold next_event. destruct (n_events n) as [| e' es] eqn:E; intros [= <- <-].
  - split; [| done]. constructor; [done | by rewrite E | done].
  - inversion_clear He as [| ? ? He1 Hes]. split; [| split; [done | split; [done | by intros []]]].
    constructor; [done | done |]. intros [] x Hx; [apply (Hs SlotA x Hx) | apply (Hs SlotB x Hx)].
Qed.

(** A slot read as valid is what the slot holds. *)
Lemma read_slot_spec h n s r n' :
  above h n -> nv_read (variable s) n = (r, n') ->
  above h n' /\ n_marker n' = n_marker n /\ (forall s, stored s n' = stored s n) /\
  forall v x, r = Some v -> floor (slot_state v s product) = Some x -> slot_state v s product = slot_state (stored s n) s product.
Proof.
  intros Ha Hrun. unfold nv_read in Hrun. destruct (next_event n) as [e n1] eqn:E.
  destruct (next_event_spec h n e n1 Ha E) as (Ha1 & Hh & Hm & Hst).
  assert (forall v, v = variable_of (variable s) n1 -> v = stored s n) as Hv by (intros v ->; rewrite <- Hst; by destruct s).
  destruct e as [| r0 | l0 a0 | l0]; injection Hrun as <- <-; (split; [done |]); (split; [done |]); (split; [done |]); intros v x Hr Hf;
    try discriminate; injection Hr as <-; try (by rewrite (Hv _ eq_refl)).
  by destruct r0.
Qed.

Lemma read_marker_spec h n r n' :
  above h n -> nv_read VMarker n = (r, n') ->
  above h n' /\ (forall s, stored s n' = stored s n) /\
  forall v, r = Some v -> marker_state v = MPresent \/ exists reason, marker_state v = MRefused reason.
Proof.
  intros Ha Hrun. unfold nv_read in Hrun. destruct (next_event n) as [e n1] eqn:E.
  destruct (next_event_spec h n e n1 Ha E) as (Ha1 & Hh & Hm & Hst).
  destruct e as [| r0 | l0 a0 | l0]; injection Hrun as <- <-; (split; [done |]); (split; [done |]); intros v Hr;
    try discriminate; injection Hr as <-; try (left; apply (above_marker h n1 Ha1)).
  right. destruct r0; try done; eauto.
Qed.

Lemma stored_store s s' r n : stored s' (store s r n) = if decide (s' = s) then r else stored s' n.
Proof. by destruct s, s'. Qed.

(** Writing a generation at or above the floor keeps every believable record at or
    above it, however the write ends, and touches one slot. *)
Lemma write_spec h g s n r n' :
  above h n -> h <= g -> u64_range g -> nv_write s (encode g s product) n = (r, n') ->
  above h n' /\ forall s', s' <> s -> stored s' n' = stored s' n.
Proof using Hproduct.
  intros Ha Hle Hg Hrun. unfold nv_write in Hrun. destruct (next_event n) as [e n1] eqn:E.
  destruct (next_event_spec h n e n1 Ha E) as (Ha1 & Hh & _ & Hst).
  assert (forall l, (forall r, l = Garbage r -> forall s, floor (slot_state r s product) = None) ->
    above h (leave s (encode g s product) l n1) /\ forall s', s' <> s -> stored s' (leave s (encode g s product) l n1) = stored s' n) as Hleave.
  { intros l Hl. split.
    - destruct Ha1 as [Hm He Hs]. constructor.
      + by destruct l, s.
      + by destruct l, s.
      + intros s' x. destruct l as [| | r0]; cbn [leave]; [apply Hs | |]; rewrite stored_store;
          (destruct (decide (s' = s)) as [-> |]; [| apply Hs]).
        * rewrite present_encode by done. by intros [= <-].
        * by rewrite (Hl r0).
    - intros s' Hne. rewrite <- Hst. destruct l as [| | r0]; cbn [leave]; [done | |];
        rewrite stored_store; by destruct (decide (s' = s)). }
  destruct e as [| r0 | l answer | l]; injection Hrun as <- <-.
  - by apply (Hleave New).
  - by apply (Hleave New).
  - apply Hleave. intros r0 -> s'. by apply uncommitted_unbelieved.
  - apply Hleave. intros r0 -> s'. by apply uncommitted_unbelieved.
Qed.

(** The writes of an accepted boot: a slot written and read back holds the floor. *)
Lemma write_slots_spec h g slots n r n' :
  above h n -> h <= g -> u64_range g -> NoDup slots -> write_slots product g slots n = (r, n') ->
  above h n' /\ (r = Some (Ok tt) -> forall s,
    if decide (s ∈ slots) then floor (slot_state (stored s n') s product) = Some g else stored s n' = stored s n).
Proof using Hproduct.
  revert n. induction slots as [| s0 slots IH]; intros n Ha Hle Hg Hnd Hrun; cbn [write_slots] in Hrun.
  - injection Hrun as <- <-. split; [done |]. intros _ s. by rewrite decide_False by apply not_elem_of_nil.
  - apply NoDup_cons in Hnd as [Hnin Hnd]. unfold mbind, E_bind in Hrun.
    change (write s0 (encode g s0 product) n) with (nv_write s0 (encode g s0 product) n) in Hrun.
    destruct (nv_write s0 (encode g s0 product) n) as [[[[] | fault] |] n1] eqn:Hw;
      destruct (write_spec h g s0 n _ n1 Ha Hle Hg Hw) as [Ha1 Hkeep];
      [| injection Hrun as <- <-; by split | injection Hrun as <- <-; by split].
    change (read (variable s0) n1) with (nv_read (variable s0) n1) in Hrun.
    destruct (nv_read (variable s0) n1) as [v n2] eqn:Hr.
    destruct (read_slot_spec h n1 s0 v n2 Ha1 Hr) as (Ha2 & _ & Hst2 & Hval).
    destruct v as [v |]; [| injection Hrun as <- <-; by split].
    case_bool_decide as Hfound; [injection Hrun as <- <-; by split |].
    destruct (IH n2 Ha2 Hle Hg Hnd Hrun) as [Ha3 Hdone]. split; [done |].
    intros Hok s. specialize (Hdone Hok s). destruct (decide (s = s0)) as [-> | Hne].
    + rewrite decide_True by left. rewrite decide_False in Hdone by done.
      rewrite Hdone, Hst2, <- (Hval v g eq_refl) by (by rewrite Hfound). by rewrite Hfound.
    + destruct (decide (s ∈ slots)) as [Hin | Hout].
      * by rewrite decide_True by (by right).
      * rewrite decide_False by (intros [? | ?]%elem_of_cons; done). by rewrite Hdone, Hst2, Hkeep.
Qed.

(** One boot: the floor holds however it ends, and control is transferred only to a
    generation at or above it, which is the floor from then on. *)
Lemma boot_spec h g n r n' :
  above h n -> u64_range g -> enforce product g n = (r, n') ->
  above h n' /\ forall o, r = Some (Ok o) -> h <= g /\ above g n' /\ exists previous w, o = OAccepted previous g w.
Proof using Hproduct.
  intros Ha Hg Hrun. unfold enforce, mbind, E_bind in Hrun.
  change (read VMarker n) with (nv_read VMarker n) in Hrun. destruct (nv_read VMarker n) as [m n1] eqn:Em.
  destruct (read_marker_spec h n m n1 Ha Em) as (Ha1 & Hst1 & Hm).
  destruct m as [m |]; [| by injection Hrun as <- <-].
  change (read VSlotA n1) with (nv_read (variable SlotA) n1) in Hrun. destruct (nv_read (variable SlotA) n1) as [ra n2] eqn:Era.
  destruct (read_slot_spec h n1 SlotA ra n2 Ha1 Era) as (Ha2 & _ & Hst2 & Hva).
  destruct ra as [ra |]; [| by injection Hrun as <- <-].
  change (read VSlotB n2) with (nv_read (variable SlotB) n2) in Hrun. destruct (nv_read (variable SlotB) n2) as [rb n3] eqn:Erb.
  destruct (read_slot_spec h n2 SlotB rb n3 Ha2 Erb) as (Ha3 & _ & Hst3 & Hvb).
  destruct rb as [rb |]; [| by injection Hrun as <- <-].
  destruct (Hm m eq_refl) as [Hpres | [reason Href]].
  2:{ rewrite Href in Hrun. by injection Hrun as <- <-. }
  rewrite Hpres in Hrun.
  set (a := slot_state ra SlotA product) in *. set (b := slot_state rb SlotB product) in *.
  assert (forall s x, floor (match s with SlotA => a | SlotB => b end) = Some x ->
            floor (slot_state (stored s n3) s product) = Some x) as Hseen.
  { intros [] x Hx; rewrite Hst3.
    - rewrite Hst2, <- (Hva ra x eq_refl Hx). exact Hx.
    - rewrite <- (Hvb rb x eq_refl Hx). exact Hx. }
  destruct (classify MPresent a b) as [| f lagging | reason] eqn:Ec.
  { cbn [classify] in Ec. by destruct (floor a), (floor b); [case_bool_decide || destruct (_ =? _) | | |]. }
  2:{ by injection Hrun as <- <-. }
  destruct (classify_spec a b f lagging Ec) as [[s Hs] Hlag].
  assert (h <= f) as Hhf by (by apply (above_slots h n3 Ha3 s), Hseen).
  cbn [decide_] in Hrun. destruct (Z.ltb_spec g f); [by injection Hrun as <- <- |].
  destruct (write_list_cover lagging (default SlotA lagging)) as (Hnd1 & Hnd2 & Hall & Hout).
  destruct (Z.eqb_spec g f) as [-> | Hne].
  - destruct (write_slots product f (write_list (mkWrites lagging None)) n3) as [w n4] eqn:Ew.
    destruct (write_slots_spec h f _ n3 w n4 Ha3 ltac:(lia) Hg Hnd1 Ew) as [Ha4 Hdone].
    destruct w as [w |]; [| by injection Hrun as <- <-]. injection Hrun as <- <-. split; [done |].
    intros o Ho. destruct w as [[] | fault]; [| done]. injection Ho as <-. split; [done |]. split; [| eauto].
    destruct Ha4 as [Hm4 He4 Hs4]. constructor; [done | done |]. intros t x Hx. specialize (Hdone eq_refl t).
    destruct (decide (t ∈ write_list (mkWrites lagging None))) as [Hin | Hnin].
    + rewrite Hdone in Hx. injection Hx as <-. lia.
    + rewrite Hdone, (Hseen t f (Hlag t (Hout t Hnin))) in Hx. injection Hx as <-. lia.
  - cbv zeta in Hrun. set (wr := mkWrites (Some (default SlotA lagging)) (Some (other (default SlotA lagging)))) in *.
    destruct (write_slots product g (write_list wr) n3) as [w n4] eqn:Ew.
    destruct (write_slots_spec h g _ n3 w n4 Ha3 ltac:(lia) Hg Hnd2 Ew) as [Ha4 Hdone].
    destruct w as [w |]; [| by injection Hrun as <- <-]. injection Hrun as <- <-. split; [done |].
    intros o Ho. destruct w as [[] | fault]; [| done]. injection Ho as <-. split; [lia |]. split; [| eauto].
    destruct Ha4 as [Hm4 He4 Hs4]. constructor; [done | done |]. intros t x Hx. specialize (Hdone eq_refl t).
    rewrite decide_True in Hdone by apply Hall. rewrite Hdone in Hx. injection Hx as <-. lia.
Qed.

End floor.

(** ** Over a machine's life *)

Lemma transferred_cons g r rs :
  transferred ((g, r) :: rs) = match r with Some (Ok _) => g :: transferred rs | _ => transferred rs end.
Proof. destruct r as [[o | f] |]; done. Qed.

(** C16: A machine never goes back. From a provisioned machine whose believable slots
    are at or above a floor, over any sequence of boots - with reads that fail,
    writes that are refused or torn, and power lost at any read or before, during
    or after any write - control is only ever transferred to generations at or
    above the floor, each at or above every one transferred to before. A torn write
    leaves the old record, the new one, or any bytes whose last eight are not the
    digest of the ones before; the marker does not change. *)
Theorem no_rollback product gens n h :
  length product = 32%nat -> above product h n -> Forall u64_range gens ->
  StronglySorted Z.le (h :: transferred (boots product gens n).1).
Proof.
  intros Hp. revert n h. induction gens as [| g gens IH]; intros n h Ha Hg.
  - repeat constructor.
  - inversion_clear Hg as [| ? ? Hg1 Hgs]. cbn [boots].
    destruct (enforce product g n) as [r n1] eqn:Er. destruct (boot_spec product Hp h g n r n1 Ha Hg1 Er) as [Ha1 Hok].
    specialize (IH n1). destruct (boots product gens n1) as [rs n2]. cbn [fst] in *. rewrite transferred_cons.
    destruct r as [[o | f] |]; [| by apply IH | by apply IH].
    destruct (Hok o eq_refl) as (Hle & Hag & _). specialize (IH g Hag Hgs).
    constructor; [done |]. constructor; [done |]. inversion_clear IH as [| ? ? _ Hall].
    eapply Forall_impl; [exact Hall |]. simpl. lia.
Qed.

(** ** A boot nothing disturbs *)

Section quiet.
Context (product : list Z) (Hproduct : length product = 32%nat).

Lemma quiet_read v n : n_events n = [] -> nv_read v n = (Some (variable_of v n), n).
Proof. intros He. unfold nv_read, next_event. by rewrite He. Qed.

Lemma quiet_write s data n :
  n_events n = [] -> nv_write s data n = (Some (Ok tt), store s (present ATTRIBUTES data) n).
Proof. intros He. unfold nv_write, next_event. by rewrite He. Qed.

Lemma quiet_write_slots g slots n :
  n_events n = [] -> u64_range g ->
  exists n', write_slots product g slots n = (Some (Ok tt), n') /\ n_events n' = [] /\ n_marker n' = n_marker n /\
    forall s, slot_state (stored s n') s product =
      if decide (s ∈ slots) then SValid g else slot_state (stored s n) s product.
Proof using Hproduct.
  revert n. induction slots as [| s0 slots IH]; intros n He Hg; cbn [write_slots].
  - exists n. split; [done |]. split; [done |]. split; [done |]. intros s. by rewrite decide_False by apply not_elem_of_nil.
  - set (n1 := store s0 (present ATTRIBUTES (encode g s0 product)) n).
    assert (n_events n1 = []) as He1 by (by destruct s0).
    destruct (IH n1 He1 Hg) as (n' & Hrun & He' & Hm' & Hs').
    assert (variable_of (variable s0) n1 = present ATTRIBUTES (encode g s0 product)) as Hv by (by destruct s0).
    exists n'. split.
    + rewrite (E_bind_run _ _ _ _ _ (quiet_write s0 (encode g s0 product) n He)). fold n1.
      rewrite (E_bind_run _ _ _ _ _ (quiet_read (variable s0) n1 He1)), Hv. cbv zeta.
      rewrite present_encode by done. by rewrite bool_decide_false by (intros Hne; by apply Hne).
    + split; [done |]. split; [rewrite Hm'; by destruct s0 |]. intros s. rewrite Hs'. unfold n1. rewrite stored_store.
      destruct (decide (s = s0)) as [-> | Hne].
      * rewrite (decide_True (P := s0 ∈ s0 :: slots)) by left. destruct (decide (s0 ∈ slots)); [done | by apply present_encode].
      * destruct (decide (s ∈ slots)) as [Hin | Hout].
        -- by rewrite decide_True by (by right).
        -- by rewrite decide_False by (intros [? | ?]%elem_of_cons; done).
Qed.

End quiet.

(** An undisturbed boot does what its state calls for. Unprovisioned machines
    boot and write nothing; a machine whose marker or slots cannot be believed, and
    a release below the floor, are refused with nothing written; any other release
    is accepted, and then both slots hold its generation - the floor has advanced
    to it, and a lagging, damaged or missing slot has been repaired. *)
Theorem undisturbed_boot product n g :
  length product = 32%nat -> n_events n = [] -> u64_range g ->
  exists r n', enforce product g n = (Some r, n') /\
    match classify (marker_state (n_marker n)) (slot_state (n_a n) SlotA product) (slot_state (n_b n) SlotB product) with
    | Unprovisioned => r = Ok (OUnprovisioned g) /\ n' = n
    | PRefused reason => r = Err (FRefused reason) /\ n' = n
    | Provisioned f _ =>
        if g <? f then r = Err (FBelow f g) /\ n' = n
        else (exists w, r = Ok (OAccepted f g w)) /\ n_marker n' = n_marker n /\
             slot_state (n_a n') SlotA product = SValid g /\ slot_state (n_b n') SlotB product = SValid g
    end.
Proof.
  intros Hp He Hg. unfold enforce.
  rewrite (E_bind_run _ _ _ _ _ (quiet_read VMarker n He)), (E_bind_run _ _ _ _ _ (quiet_read VSlotA n He)),
    (E_bind_run _ _ _ _ _ (quiet_read VSlotB n He)). cbv zeta. cbn [variable_of].
  set (a := slot_state (n_a n) SlotA product). set (b := slot_state (n_b n) SlotB product).
  destruct (classify (marker_state (n_marker n)) a b) as [| f lagging | reason] eqn:Ec; cbn [decide_]; [by eauto | | by eauto].
  destruct (Z.ltb_spec g f); [by eauto |].
  assert (marker_state (n_marker n) = MPresent) as Hm by (by destruct (marker_state (n_marker n))).
  rewrite Hm in Ec. destruct (classify_spec a b f lagging Ec) as [_ Hlag].
  destruct (write_list_cover lagging (default SlotA lagging)) as (_ & _ & Hall & Hout).
  assert (forall s x, floor (slot_state (stored s n) s product) = Some x -> slot_state (stored s n) s product = SValid x) as Hval
    by (intros s x; destruct (slot_state (stored s n) s product); [by intros [= ->] | done..]).
  destruct (Z.eqb_spec g f) as [-> | Hne].
  - destruct (quiet_write_slots product Hp f (write_list (mkWrites lagging None)) n He Hg) as (n' & Hrun & _ & Hm' & Hs').
    eexists _, n'. rewrite (E_bind_run _ _ _ _ _ Hrun). split; [done |]. split; [eauto |]. split; [done |].
    assert (forall s, slot_state (stored s n') s product = SValid f) as Hboth.
    { intros s. rewrite Hs'. destruct (decide _) as [| Hnin]; [done |]. apply Hval. specialize (Hlag s (Hout s Hnin)). by destruct s. }
    split; [apply (Hboth SlotA) | apply (Hboth SlotB)].
  - destruct (quiet_write_slots product Hp g
      (write_list (mkWrites (Some (default SlotA lagging)) (Some (other (default SlotA lagging))))) n He Hg) as (n' & Hrun & _ & Hm' & Hs').
    eexists _, n'. rewrite (E_bind_run _ _ _ _ _ Hrun). split; [done |]. split; [eauto |]. split; [done |].
    assert (forall s, slot_state (stored s n') s product = SValid g) as Hboth.
    { intros s. rewrite Hs'. by rewrite decide_True by apply Hall. }
    split; [apply (Hboth SlotA) | apply (Hboth SlotB)].
Qed.

(** ** An advance torn between its two writes *)

Definition sample_product : list Z := replicate 32 7.

(** The record of generation 9, torn before its tag. *)
Definition torn_record : Read := present ATTRIBUTES (take TAG_AT (encode 9 SlotB sample_product) ++ replicate TAG_LEN 0).

Lemma torn_record_uncommitted : uncommitted torn_record.
Proof.
  assert (exists bytes, torn_record = RPresent ATTRIBUTES RECORD_LEN bytes /\
    forallb (fun s => bool_decide (tag (take RECORD_LEN bytes) s <> drop TAG_AT (take RECORD_LEN bytes))) [SlotA; SlotB] = true) as (bytes & -> & Hall).
  { eexists. split; [vm_compute; reflexivity |]. vm_compute. reflexivity. }
  intros s. rewrite forallb_forall in Hall. apply (bool_decide_eq_true _), Hall.
  destruct s; [left; reflexivity | right; left; reflexivity].
Qed.

Definition sample_machine : nvram :=
  mkNvram (present ATTRIBUTES [MARKER_VALUE]) (present ATTRIBUTES (encode 5 SlotA sample_product))
    (present ATTRIBUTES (encode 5 SlotB sample_product))
    [Works; Works; Works; Works; Works; PowerLoss (Garbage torn_record); ReadFails RDeviceError].

Lemma sample_above : above sample_product 5 sample_machine.
Proof.
  constructor.
  - by vm_compute.
  - do 5 (apply Forall_cons; split; [exact I |]). apply Forall_cons. split; [exact torn_record_uncommitted |].
    apply Forall_cons. split; [exact I | apply Forall_nil; exact I].
  - intros [] x; cbn [stored sample_machine n_a n_b]; rewrite present_encode by (done || unfold u64_range; lia);
      intros [= <-]; lia.
Qed.

Lemma no_rollback_witness :
  StronglySorted Z.le (5 :: transferred (boots sample_product [6; 6; 5; 6; 4] sample_machine).1) /\
  transferred (boots sample_product [6; 6; 5; 6; 4] sample_machine).1 = [6].
Proof.
  split; [| by vm_compute].
  apply (no_rollback sample_product [6; 6; 5; 6; 4] sample_machine 5); [done | apply sample_above |].
  unfold u64_range. repeat (apply Forall_cons; split; [lia |]). by apply Forall_nil.
Defined.

Definition lagging_machine : nvram :=
  mkNvram (present ATTRIBUTES [MARKER_VALUE]) (present ATTRIBUTES (encode 6 SlotA sample_product)) RAbsent [].

Lemma undisturbed_boot_witness :
  exists r n', enforce sample_product 7 lagging_machine = (Some r, n') /\
    (exists w, r = Ok (OAccepted 6 7 w)) /\
    slot_state (n_a n') SlotA sample_product = SValid 7 /\ slot_state (n_b n') SlotB sample_product = SValid 7.
Proof.
  destruct (undisturbed_boot sample_product lagging_machine 7) as (r & n' & Hrun & Hspec);
    [done | done | unfold u64_range; lia |].
  assert (classify (marker_state (n_marker lagging_machine)) (slot_state (n_a lagging_machine) SlotA sample_product)
    (slot_state (n_b lagging_machine) SlotB sample_product) = Provisioned 6 (Some SlotB)) as Hc by (vm_compute; reflexivity).
  rewrite Hc in Hspec. destruct Hspec as (Hw & _ & Ha & Hb).
  exists r, n'. split; [exact Hrun |]. split; [exact Hw |]. split; [exact Ha | exact Hb].
Defined.

(** ** The latch *)

(** The first value offered is held, and each later offer agrees exactly when it
    equals it. *)
Lemma latch_first {T} `{EqDecision T} (v : T) (vs : list T) :
  foldl (fun l x => (record l x).2) latch_new (v :: vs) = mkLatch (Some v) (Z.of_nat (S (length vs))) /\
  forall x n, (record (mkLatch (Some v) n) x).1 = Ok tt <-> x = v.
Proof.
  split.
  - cbn [foldl]. change (record latch_new v).2 with (mkLatch (Some v) 1).
    replace (Z.of_nat (S (length vs))) with (1 + Z.of_nat (length vs)) by lia. generalize 1 as k.
    induction vs as [| x vs IH]; intros k; cbn [foldl length]; [f_equal; simpl; lia |].
    change (record (mkLatch (Some v) k) x).2 with (mkLatch (Some v) (k + 1)). rewrite IH. f_equal. lia.
  - intros x n. cbn. case_bool_decide; split; congruence.
Qed.
