(* ===== verification/Dma.v ===== *)
(** What a device may reach (dma/src/lib.rs): the requirements of a device and the
    plan that meets them, the address space of an IOMMU domain, and the manager that
    owns domains, mappings and the ledger of faults and reaches the hardware only
    through [Backend]. A panic, an arithmetic overflow included, is [None]. A
    [BTreeMap] is a finite map with its entries in key order; its allocations and
    those of [Vec::push] succeed. *)

From stdpp Require Import sorting.
From S2P Require Import Prelude.

(** ** The parts of the language and its library used here *)

(** The entries of a [BTreeMap] in key order. *)
Definition key_le {A} (x y : Z * A) : Prop := x.1 <= y.1.
#[export] Instance key_le_dec {A} : RelDecision (@key_le A) := fun x y => Z_le_dec x.1 y.1.
Definition entries {A} (m : gmap Z A) : list (Z * A) := merge_sort key_le (map_to_list m).
Definition values {A} (m : gmap Z A) : list A := (entries m).*2.

(** [range(..end).next_back()]: the entry with the greatest key below [end_]. *)
Definition last_below {A} (end_ : Z) (m : gmap Z A) : option (Z * A) :=
  last (base.filter (fun e => e.1 < end_) (entries m)).

(** [u64::next_multiple_of], which panics when the multiple does not fit. *)
Definition next_multiple_of (z n : Z) : option Z :=
  if z mod n =? 0 then Some z else checked_add U64_MAX z (n - z mod n).

Definition is_power_of_two (z : Z) : bool := (0 <? z) && (Z.land z (z - 1) =? 0).

(** [z += 1] on a [u64]. *)
Definition incr64 (z : Z) : option Z := checked_add U64_MAX z 1.

(** ** Directions, accesses and faults *)

Inductive Direction := ToDevice | FromDevice | Bidirectional.
Inductive Access := Read | Write.

#[export] Instance Direction_eq_dec : EqDecision Direction.
Proof. solve_decision. Defined.
#[export] Instance Access_eq_dec : EqDecision Access.
Proof. solve_decision. Defined.

Definition device_may_read (d : Direction) : bool :=
  match d with ToDevice | Bidirectional => true | FromDevice => false end.
Definition device_may_write (d : Direction) : bool :=
  match d with FromDevice | Bidirectional => true | ToDevice => false end.
Definition direction_permits (d : Direction) (access : Access) : bool :=
  match access with Read => device_may_read d | Write => device_may_write d end.

Inductive Fault :=
| UnknownEndpoint
| StaleGeneration
| NotMapped
| Permission
| OutOfRange
| NoSpace
| Unconfirmed
| Malformed
| Overlaps.

#[export] Instance Fault_eq_dec : EqDecision Fault.
Proof. solve_decision. Defined.

(** ** What a device can address *)

Record Requirements := mkRequirements {
  address_bits : Z;
  alignment : Z;
  max_segments : Z;
  coherent : bool;
}.

Definition requirements_new (address_bits alignment max_segments : Z) (coherent : bool) : result Requirements Fault :=
  if (address_bits =? 0) || (64 <? address_bits) then Err Malformed
  else if (alignment =? 0) || negb (is_power_of_two alignment) then Err Malformed
  else if max_segments =? 0 then Err Malformed
  else Ok (mkRequirements address_bits alignment max_segments coherent).

Definition ceiling (r : Requirements) : Z :=
  if 64 <=? address_bits r then U64_MAX else Z.shiftl 1 (address_bits r) - 1.

Definition permits (r : Requirements) (address len : Z) : bool :=
  if len =? 0 then false
  else
    match checked_add U64_MAX address len with
    | Some end_ => (address mod alignment r =? 0) && (end_ - 1 <=? ceiling r)
    | None => false
    end.

(** ** How a device reaches a buffer *)

Record Segment := mkSegment { seg_physical : Z; seg_len : Z }.
Inductive Plan :=
| Direct (segments : list Segment)
| BounceOf (len : Z).

(** [Iterator::sum] on [u64]. *)
Fixpoint sum64 (acc : Z) (l : list Z) : option Z :=
  match l with
  | [] => Some acc
  | z :: l => match checked_add U64_MAX acc z with Some acc => sum64 acc l | None => None end
  end.

Definition plan (segments : list Segment) (r : Requirements) : option (result Plan Fault) :=
  if bool_decide (segments = []) || existsb (fun s => seg_len s =? 0) segments then Some (Err Malformed)
  else
    match sum64 0 (seg_len <$> segments) with
    | None => None
    | Some total =>
        let reachable := forallb (fun s => permits r (seg_physical s) (seg_len s)) segments in
        Some
          (if reachable && (Z.of_nat (length segments) <=? max_segments r) then Ok (Direct segments)
           else if ceiling r <? alignment r then Err OutOfRange
           else Ok (BounceOf total))
    end.

(** ** Policy *)

Inductive Policy := IommuRequired | TrustedUntranslated | PolicyNone.
Inductive BindDecision := Translated | DegradedUntranslated | Refused | NonMastering.

Definition decide_bind (policy : Policy) (enforcing : bool) : BindDecision :=
  match policy, enforcing with
  | IommuRequired, true => Translated
  | IommuRequired, false => Refused
  | TrustedUntranslated, true => Translated
  | TrustedUntranslated, false => DegradedUntranslated
  | PolicyNone, _ => NonMastering
  end.

(** ** The address space of a domain *)

Record Reserved := mkReserved { res_base : Z; res_len : Z }.
Inductive RegionKind := RegionReserved | MsiDoorbell.
Record ProbedRegion := mkProbedRegion { region_kind : RegionKind; region_base : Z; region_len : Z }.

Record IovaSpace := mkIovaSpace {
  sp_base : Z;
  sp_len : Z;
  taken : gmap Z Z;
  reserved : list Reserved;
  quarantined : list Reserved;
}.

Definition set_taken (t : gmap Z Z) (s : IovaSpace) : IovaSpace :=
  mkIovaSpace (sp_base s) (sp_len s) t (reserved s) (quarantined s).
Definition set_quarantined (q : list Reserved) (s : IovaSpace) : IovaSpace :=
  mkIovaSpace (sp_base s) (sp_len s) (taken s) (reserved s) q.

Module IovaSpace.

Definition new (base len : Z) (reserved : list Reserved) : IovaSpace :=
  mkIovaSpace base len ∅ reserved [].

Definition end_ (s : IovaSpace) : Z := sat_add64 (sp_base s) (sp_len s).

Definition hits (at_ len : Z) (r : Reserved) : bool :=
  (at_ <? sat_add64 (res_base r) (res_len r)) && (res_base r <? sat_add64 at_ len).

Definition overlaps_any (s : IovaSpace) (at_ len : Z) : bool :=
  let reserved := existsb (hits at_ len) (reserved s) in
  let quarantined := existsb (hits at_ len) (quarantined s) in
  let before :=
    match last_below (sat_add64 at_ len) (taken s) with
    | Some (start, length) => at_ <? sat_add64 start length
    | None => false
    end in
  reserved || quarantined || before.

(** The step over one occupied region that covers [at_]. *)
Definition step_past (at_ past : Z) (region : Reserved) : Z :=
  let end_ := sat_add64 (res_base region) (res_len region) in
  if (res_base region <=? at_) && (at_ <? end_) then Z.max past end_ else past.

Definition next_free_after (s : IovaSpace) (at_ : Z) : Z :=
  let past := foldl (step_past at_) (sat_add64 at_ 1) (reserved s ++ quarantined s) in
  match last_below (at_ + 1) (taken s) with
  | Some (start, len) => step_past at_ past (mkReserved start len)
  | None => past
  end.

(** One turn of the search: [inr] ends it, with [None] for a panic. *)
Definition search (s : IovaSpace) (len alignment at_ : Z) : Z + option (option Z) :=
  if sat_add64 at_ len <=? end_ s then
    if negb (overlaps_any s at_ len) then inr (Some (Some at_))
    else
      match next_multiple_of (next_free_after s at_) alignment with
      | None => inr None
      | Some at_ => if end_ s <=? at_ then inr (Some None) else inl at_
      end
  else inr (Some None).

Definition allocate (len alignment : Z) : M IovaSpace (result Z Fault) := fun s =>
  if (len =? 0) || (alignment =? 0) || negb (is_power_of_two alignment) then Some (Err Malformed, s)
  else
    match next_multiple_of (Z.max (sp_base s) alignment) alignment with
    | None => None
    | Some at_ =>
        match until 64 (search s len alignment) at_ with
        | inr (Some (Some at_)) => Some (Ok at_, set_taken (<[at_ := len]> (taken s)) s)
        | inr (Some None) => Some (Err NoSpace, s)
        | _ => None
        end
    end.

Definition take_exact (at_ len : Z) : M IovaSpace (result Z Fault) := fun s =>
  if len =? 0 then Some (Err Malformed, s)
  else
    match checked_add U64_MAX at_ len with
    | None => Some (Err Malformed, s)
    | Some stop =>
        if (at_ <? sp_base s) || (end_ s <? stop) then Some (Err OutOfRange, s)
        else if overlaps_any s at_ len then Some (Err Overlaps, s)
        else Some (Ok at_, set_taken (<[at_ := len]> (taken s)) s)
    end.

Definition release (at_ : Z) (s : IovaSpace) : result unit Fault * IovaSpace :=
  match taken s !! at_ with
  | Some _ => (Ok tt, set_taken (delete at_ (taken s)) s)
  | None => (Err NotMapped, s)
  end.

Definition quarantine (at_ : Z) (s : IovaSpace) : result unit Fault * IovaSpace :=
  match taken s !! at_ with
  | Some len => (Ok tt, set_quarantined (quarantined s ++ [mkReserved at_ len]) (set_taken (delete at_ (taken s)) s))
  | None => (Err NotMapped, s)
  end.

Definition quarantined_ranges (s : IovaSpace) : nat := length (quarantined s).
Definition live_ranges (s : IovaSpace) : nat := size (taken s).

End IovaSpace.

(** ** Staging for a device that cannot reach the data *)

(** The memory behind a mapping seen by the processor and by a device, and the cache
    maintenance asked for. *)
Inductive CacheEvent :=
| CleanForDevice (physical len : Z)
| InvalidateForCpu (physical len : Z).

Record Bounce := mkBounce {
  staging_bytes : list Z;
  staging_physical : Z;
  bounce_coherent : bool;
}.

Module Bounce.

Definition new (bytes : list Z) (physical : Z) (r : Requirements) : result Bounce Fault :=
  if bool_decide (bytes = []) then Err Malformed
  else if negb (permits r physical (Z.of_nat (length bytes))) then Err OutOfRange
  else Ok (mkBounce bytes physical (coherent r)).

Definition for_device (source : list Z) (b : Bounce) : result unit Fault * Bounce * list CacheEvent :=
  if (length (staging_bytes b) <? length source)%nat then (Err OutOfRange, b, [])
  else
    (Ok tt, mkBounce (source ++ drop (length source) (staging_bytes b)) (staging_physical b) (bounce_coherent b),
     if bounce_coherent b then [] else [CleanForDevice (staging_physical b) (Z.of_nat (length source))]).

(** The bytes read into a destination of [len] bytes. *)
Definition for_cpu (len : nat) (b : Bounce) : result (list Z) Fault * list CacheEvent :=
  if (length (staging_bytes b) <? len)%nat then (Err OutOfRange, [])
  else
    (Ok (take len (staging_bytes b)),
     if bounce_coherent b then [] else [InvalidateForCpu (staging_physical b) (Z.of_nat len)]).

Definition sync_direct_for_device (segments : list Segment) (r : Requirements) : list CacheEvent :=
  if coherent r then [] else (fun s => CleanForDevice (seg_physical s) (seg_len s)) <$> segments.
Definition sync_direct_for_cpu (segments : list Segment) (r : Requirements) : list CacheEvent :=
  if coherent r then [] else (fun s => InvalidateForCpu (seg_physical s) (seg_len s)) <$> segments.

End Bounce.

(** ** Mappings, domains and the fault log *)

Inductive MappingState := Live | Closing | Released | Quarantined.
#[export] Instance MappingState_eq_dec : EqDecision MappingState.
Proof. solve_decision. Defined.

Record Mapping := mkMapping {
  m_id : Z;
  m_domain : Z;
  m_iova : Z;
  m_physical : Z;
  m_len : Z;
  m_direction : Direction;
  m_generation : Z;
  m_state : MappingState;
  retain_on_retire : bool;
}.

Definition set_m_state (st : MappingState) (m : Mapping) : Mapping :=
  mkMapping (m_id m) (m_domain m) (m_iova m) (m_physical m) (m_len m) (m_direction m) (m_generation m) st
    (retain_on_retire m).
Definition set_retain (b : bool) (m : Mapping) : Mapping :=
  mkMapping (m_id m) (m_domain m) (m_iova m) (m_physical m) (m_len m) (m_direction m) (m_generation m)
    (m_state m) b.

(** What a completed close permits ([Release::Quarantined] is [StayQuarantined]). *)
Inductive Release := FramesReusable | StayQuarantined.
#[export] Instance Release_eq_dec : EqDecision Release.
Proof. solve_decision. Defined.

Record DomainState := mkDomainState {
  space : IovaSpace;
  ds_generation : Z;
  endpoints : list Z;
  attached_confirmed : bool;
  ds_faults : Z;
}.

Definition set_space (sp : IovaSpace) (d : DomainState) : DomainState :=
  mkDomainState sp (ds_generation d) (endpoints d) (attached_confirmed d) (ds_faults d).
Definition set_ds_generation (g : Z) (d : DomainState) : DomainState :=
  mkDomainState (space d) g (endpoints d) (attached_confirmed d) (ds_faults d).
Definition set_endpoints (es : list Z) (confirmed : bool) (d : DomainState) : DomainState :=
  mkDomainState (space d) (ds_generation d) es confirmed (ds_faults d).
Definition set_ds_faults (n : Z) (d : DomainState) : DomainState :=
  mkDomainState (space d) (ds_generation d) (endpoints d) (attached_confirmed d) n.

Record FaultEvent := mkFaultEvent {
  ev_endpoint : Z;
  ev_domain : Z;
  ev_generation : Z;
  ev_address : option Z;
  ev_access : Access;
  ev_reason : Fault;
}.

Definition stamp (domain generation : Z) (e : FaultEvent) : FaultEvent :=
  mkFaultEvent (ev_endpoint e) domain generation (ev_address e) (ev_access e) (ev_reason e).

Record FaultLog := mkFaultLog {
  recent : list FaultEvent;
  log_capacity : nat;
  total : Z;
  dropped : Z;
}.

Module FaultLog.

Definition new (capacity : nat) : FaultLog := mkFaultLog [] capacity 0 0.

Definition record (event : FaultEvent) (l : FaultLog) : option FaultLog :=
  match incr64 (total l) with
  | None => None
  | Some total =>
      if (log_capacity l =? 0)%nat then
        match incr64 (dropped l) with
        | None => None
        | Some dropped => Some (mkFaultLog (recent l) (log_capacity l) total dropped)
        end
      else if (log_capacity l <=? length (recent l))%nat then
        match incr64 (dropped l) with
        | None => None
        | Some dropped => Some (mkFaultLog (tail (recent l) ++ [event]) (log_capacity l) total dropped)
        end
      else Some (mkFaultLog (recent l ++ [event]) (log_capacity l) total (dropped l))
  end.

End FaultLog.

Record DetachedTail := mkTail {
  tail_endpoint : Z;
  tail_domain : Z;
  tail_generation : Z;
  tail_faults : Z;
  drained : bool;
}.

Definition MOST_DETACHED_TAILS : nat := 8.

(** ** The hardware, as the manager reaches it *)

(** The trait: every method answers a completion or a fault. [be_drain_faults n]
    gives the events written into a buffer of [n]. *)
Class Backend (B : Type) := {
  be_domain_create : B -> result Z Fault * B;
  be_domain_destroy : Z -> B -> result unit Fault * B;
  be_attach : Z -> Z -> B -> result unit Fault * B;
  be_detach : Z -> Z -> B -> result unit Fault * B;
  be_map : Z -> Z -> Z -> Z -> Direction -> B -> result unit Fault * B;
  be_unmap : Z -> Z -> Z -> B -> result unit Fault * B;
  be_invalidate : Z -> B -> result unit Fault * B;
  be_drain_faults : nat -> B -> list FaultEvent * B;
  be_transport_was_emptied : B -> bool;
  be_fault_queue_capacity : B -> option Z;
  be_enforces_directions : B -> bool;
  be_probe : Z -> B -> result (list ProbedRegion) Fault * B;
}.

(** ** The manager *)

Record Iommu (B : Type) := mkIommu {
  backend : B;
  domains : gmap Z DomainState;
  mappings : gmap Z Mapping;
  next_mapping : Z;
  fault_log : FaultLog;
  detached : list DetachedTail;
  attribution_lost : bool;
  tails_overflowed : Z;
}.
Arguments mkIommu {B} _ _ _ _ _ _ _ _.
Arguments backend {B} _.
Arguments domains {B} _.
Arguments mappings {B} _.
Arguments next_mapping {B} _.
Arguments fault_log {B} _.
Arguments detached {B} _.
Arguments attribution_lost {B} _.
Arguments tails_overflowed {B} _.

(** [?] on a [Result] inside a computation. *)
Definition try_bind {S A C} (m : M S (result A Fault)) (f : A -> M S (result C Fault)) : M S (result C Fault) :=
  r ← m; match r with Ok a => f a | Err e => mret (Err e) end.
Notation "x ←? m ; k" := (try_bind m (fun x => k)) (at level 20, m at level 100, k at level 200, right associativity).

Module Iommu.
Section iommu.
Context {B : Type} `{Backend B}.

Definition set_backend (b : B) (s : Iommu B) : Iommu B :=
  mkIommu b (domains s) (mappings s) (next_mapping s) (fault_log s) (detached s) (attribution_lost s) (tails_overflowed s).
Definition set_domains (d : gmap Z DomainState) (s : Iommu B) : Iommu B :=
  mkIommu (backend s) d (mappings s) (next_mapping s) (fault_log s) (detached s) (attribution_lost s) (tails_overflowed s).
Definition set_mappings (m : gmap Z Mapping) (s : Iommu B) : Iommu B :=
  mkIommu (backend s) (domains s) m (next_mapping s) (fault_log s) (detached s) (attribution_lost s) (tails_overflowed s).
Definition set_next_mapping (n : Z) (s : Iommu B) : Iommu B :=
  mkIommu (backend s) (domains s) (mappings s) n (fault_log s) (detached s) (attribution_lost s) (tails_overflowed s).
Definition set_fault_log (l : FaultLog) (s : Iommu B) : Iommu B :=
  mkIommu (backend s) (domains s) (mappings s) (next_mapping s) l (detached s) (attribution_lost s) (tails_overflowed s).
Definition set_tails (t : list DetachedTail) (lost : bool) (n : Z) (s : Iommu B) : Iommu B :=
  mkIommu (backend s) (domains s) (mappings s) (next_mapping s) (fault_log s) t lost n.

(** A call into the backend. *)
Definition be {A} (f : B -> A * B) : M (Iommu B) A := fun s =>
  let (a, b) := f (backend s) in Some (a, set_backend b s).

Definition put_domain (id : Z) (d : DomainState) : M (Iommu B) unit :=
  modify (fun s => set_domains (<[id := d]> (domains s)) s).
Definition put_mapping (id : Z) (m : Mapping) : M (Iommu B) unit :=
  modify (fun s => set_mappings (<[id := m]> (mappings s)) s).

(** [get(&domain).ok_or(UnknownEndpoint)] and [.expect(...)]. *)
Definition get_domain (id : Z) : M (Iommu B) (result DomainState Fault) :=
  gets (fun s => match domains s !! id with Some d => Ok d | None => Err UnknownEndpoint end).
Definition get_mapping (id : Z) : M (Iommu B) (result Mapping Fault) :=
  gets (fun s => match mappings s !! id with Some m => Ok m | None => Err NotMapped end).
Definition expect {A} (r : result A Fault) : M (Iommu B) A :=
  match r with Ok a => mret a | Err _ => abort end.

Definition new (backend : B) (fault_capacity : nat) : Iommu B :=
  mkIommu backend ∅ ∅ 1 (FaultLog.new fault_capacity) [] false 0.

(** [for mapping in self.mappings.values()] of the replay. *)
Fixpoint replay_rows (rows : list Mapping) : M (Iommu B) (result unit Fault) :=
  match rows with
  | [] => mret (Ok tt)
  | m :: rows =>
      if bool_decide (m_state m = Live) then
        _ ←? be (be_map (m_domain m) (m_iova m) (m_physical m) (m_len m) (m_direction m));
        replay_rows rows
      else replay_rows rows
  end.

Definition replay_after_reset (reattach : B -> result unit Fault * B) : M (Iommu B) (result unit Fault) :=
  _ ←? be reattach;
  rows ← gets (fun s => values (mappings s));
  replay_rows rows.

Definition create_domain (base len : Z) (reserved : list Reserved) (generation : Z) : M (Iommu B) (result Z Fault) :=
  id ←? be be_domain_create;
  put_domain id (mkDomainState (IovaSpace.new base len reserved) generation [] false 0) ;;
  mret (Ok id).

(** [room] is the answer of [state.endpoints.try_reserve(1)]. *)
Definition attach (room : bool) (domain endpoint : Z) : M (Iommu B) (result unit Fault) :=
  busy ← gets (fun s =>
    attribution_lost s
    || existsb (fun t => (tail_endpoint t =? endpoint) && negb (drained t)) (detached s)
    || existsb (fun d => bool_decide (endpoint ∈ endpoints d)) (values (domains s)));
  if (busy : bool) then mret (Err Unconfirmed)
  else
    state ←? get_domain domain;
    if negb room then mret (Err NoSpace)
    else
      answer ← be (be_attach domain endpoint);
      match answer with
      | Ok _ => put_domain domain (set_endpoints (endpoints state ++ [endpoint]) true state) ;; mret (Ok tt)
      | Err Unconfirmed =>
          put_domain domain (set_endpoints (endpoints state ++ [endpoint]) false state) ;; mret (Err Unconfirmed)
      | Err reason => mret (Err reason)
      end.

Definition may_master (domain endpoint : Z) (s : Iommu B) : bool :=
  match domains s !! domain with
  | Some d => attached_confirmed d && bool_decide (endpoint ∈ endpoints d)
  | None => false
  end.

(** [let id = MappingId(self.next_mapping); self.next_mapping += 1]. *)
Definition fresh_id : M (Iommu B) Z :=
  id ← gets next_mapping;
  n ← assert_some (incr64 id);
  modify (set_next_mapping n) ;;
  mret id.

Definition map_failed (domain iova physical len : Z) (direction : Direction) (generation : Z) (reason : Fault) :
    M (Iommu B) Fault :=
  if bool_decide (reason = Unconfirmed) then
    r ← get_domain domain; state ← expect r;
    let (answer, sp) := IovaSpace.quarantine iova (space state) in
    expect answer ;;
    put_domain domain (set_space sp state) ;;
    id ← fresh_id;
    put_mapping id (mkMapping id domain iova physical len direction generation Quarantined false) ;;
    mret reason
  else
    r ← get_domain domain; state ← expect r;
    let (_, sp) := IovaSpace.release iova (space state) in
    put_domain domain (set_space sp state) ;;
    mret reason.

(** The tail of both maps: ask the backend, and record what it answered. *)
Definition install (domain iova physical len : Z) (direction : Direction) (generation : Z) :
    M (Iommu B) (result Z Fault) :=
  answer ← be (be_map domain iova physical len direction);
  match answer with
  | Ok _ =>
      id ← fresh_id;
      put_mapping id (mkMapping id domain iova physical len direction generation Live false) ;;
      mret (Ok id)
  | Err reason => reason ← map_failed domain iova physical len direction generation reason; mret (Err reason)
  end.

Definition map (domain physical len : Z) (direction : Direction) (requirements : Requirements) :
    M (Iommu B) (result Z Fault) :=
  if len =? 0 then mret (Err Malformed)
  else
    state ←? get_domain domain;
    let generation := ds_generation state in
    '(answer, sp) ← assert_some (IovaSpace.allocate len (alignment requirements) (space state));
    put_domain domain (set_space sp state) ;;
    match answer with
    | Err e => mret (Err e)
    | Ok iova =>
        if negb (permits requirements iova len) then
          r ← get_domain domain; state ← expect r;
          let (_, sp) := IovaSpace.release iova (space state) in
          put_domain domain (set_space sp state) ;;
          mret (Err OutOfRange)
        else install domain iova physical len direction generation
    end.

Definition map_identity (domain address len : Z) (direction : Direction) : M (Iommu B) (result Z Fault) :=
  if len =? 0 then mret (Err Malformed)
  else
    state ←? get_domain domain;
    let generation := ds_generation state in
    '(answer, sp) ← assert_some (IovaSpace.take_exact address len (space state));
    put_domain domain (set_space sp state) ;;
    match answer with
    | Err e => mret (Err e)
    | Ok iova => install domain iova address len direction generation
    end.

Definition probe (endpoint : Z) : M (Iommu B) (result (list ProbedRegion) Fault) := be (be_probe endpoint).

Definition address_of (id : Z) (s : Iommu B) : option Z := m_iova <$> mappings s !! id.

Definition begin_close (id : Z) : M (Iommu B) (result unit Fault) :=
  mapping ←? get_mapping id;
  if negb (bool_decide (m_state mapping = Live)) then mret (Err NotMapped)
  else put_mapping id (set_m_state Closing mapping) ;; mret (Ok tt).

(** [self.mappings.get_mut(&id).expect("present").state = state]. *)
Definition settle (id : Z) (state : MappingState) : M (Iommu B) unit :=
  r ← get_mapping id; mapping ← expect r;
  put_mapping id (set_m_state state mapping).

Definition finish_close (id : Z) : M (Iommu B) (result Release Fault) :=
  mapping ←? get_mapping id;
  if negb (bool_decide (m_state mapping = Closing)) then mret (Err NotMapped)
  else
    unmapped ← be (be_unmap (m_domain mapping) (m_iova mapping) (m_len mapping));
    invalidated ← (if is_ok unmapped then be (be_invalidate (m_domain mapping)) else mret (Err Unconfirmed));
    state ←? get_domain (m_domain mapping);
    if is_ok unmapped && is_ok invalidated then
      let (answer, sp) := IovaSpace.release (m_iova mapping) (space state) in
      _ ←? mret answer;
      put_domain (m_domain mapping) (set_space sp state) ;;
      settle id Released ;;
      mret (Ok FramesReusable)
    else
      let (answer, sp) := IovaSpace.quarantine (m_iova mapping) (space state) in
      _ ←? mret answer;
      put_domain (m_domain mapping) (set_space sp state) ;;
      settle id Quarantined ;;
      mret (Ok StayQuarantined).

Definition close (id : Z) : M (Iommu B) (result Release Fault) :=
  mapping ←? get_mapping id;
  match m_state mapping with
  | Released => mret (Ok FramesReusable)
  | Quarantined => mret (Ok StayQuarantined)
  | Live => _ ←? begin_close id; finish_close id
  | Closing => finish_close id
  end.

Definition retain_mapping (id : Z) : M (Iommu B) (result unit Fault) :=
  mapping ←? get_mapping id;
  put_mapping id (set_retain true mapping) ;; mret (Ok tt).

Definition release_mapping (id : Z) : M (Iommu B) (result Release Fault) :=
  released ←? close id;
  if bool_decide (released = FramesReusable) then
    modify (fun s => set_mappings (delete id (mappings s)) s) ;; mret (Ok released)
  else mret (Ok released).

Definition in_domain (domain : Z) (m : Mapping) : bool := m_domain m =? domain.
Definition quarantined_in (domain : Z) (m : Mapping) : bool :=
  in_domain domain m && bool_decide (m_state m = Quarantined).

Definition destroy_domain (domain : Z) : M (Iommu B) (result unit Fault) :=
  state ←? get_domain domain;
  if negb (bool_decide (endpoints state = [])) then mret (Err Unconfirmed)
  else
    stuck ← gets (fun s => existsb (quarantined_in domain) (values (mappings s)));
    if (stuck : bool) then mret (Err Unconfirmed)
    else
      _ ←? be (be_domain_destroy domain);
      modify (fun s => set_mappings (base.filter (fun e => m_domain e.2 <> domain \/ retain_on_retire e.2 = true) (mappings s)) s) ;;
      modify (fun s => set_domains (delete domain (domains s)) s) ;;
      mret (Ok tt).

(** [while self.detached.len() >= MOST_DETACHED_TAILS]: drop the oldest drained
    records until there is room; [None] when every record still attributes. *)
Fixpoint make_room (fuel : nat) (tails : list DetachedTail) : option (list DetachedTail) :=
  match fuel with
  | O => Some tails
  | S fuel =>
      if (MOST_DETACHED_TAILS <=? length tails)%nat then
        match list_find (fun t => drained t = true) tails with
        | None => None
        | Some (at_, _) => make_room fuel (delete at_ tails)
        end
      else Some tails
  end.

Definition remember_detached_tail (endpoint domain generation : Z) : M (Iommu B) unit :=
  tails ← gets detached;
  lost ← gets attribution_lost;
  overflowed ← gets tails_overflowed;
  if existsb (fun t => (tail_endpoint t =? endpoint) && negb (drained t)) tails then mret tt
  else
    match list_find (fun t => tail_endpoint t = endpoint /\ drained t = true) tails with
    | Some (at_, _) => modify (set_tails (<[at_ := mkTail endpoint domain generation 0 false]> tails) lost overflowed)
    | None =>
        match make_room (length tails) tails with
        | None => modify (set_tails tails true (sat_add64 overflowed 1))
        | Some tails => modify (set_tails (tails ++ [mkTail endpoint domain generation 0 false]) lost overflowed)
        end
    end.

(** The unmaps of a revoke, each on its own. *)
Fixpoint unmap_all (ids : list Z) : M (Iommu B) (list (Z * bool)) :=
  match ids with
  | [] => mret []
  | id :: ids =>
      r ← get_mapping id; mapping ← expect r;
      answer ← be (be_unmap (m_domain mapping) (m_iova mapping) (m_len mapping));
      rest ← unmap_all ids;
      mret ((id, is_ok answer) :: rest)
  end.

(** What each unmapped row becomes, and whether every one was confirmed. *)
Fixpoint settle_all (domain : Z) (endpoint_gone every_one : bool) (unmapped : list (Z * bool)) : M (Iommu B) bool :=
  match unmapped with
  | [] => mret every_one
  | (id, unmap_ok) :: unmapped =>
      let confirmed := unmap_ok && endpoint_gone in
      r ← get_mapping id; mapping ← expect r;
      put_mapping id (set_m_state (if confirmed then Released else Quarantined) mapping) ;;
      r ← get_domain domain; state ← expect r;
      let (_, sp) :=
        if confirmed then IovaSpace.release (m_iova mapping) (space state)
        else IovaSpace.quarantine (m_iova mapping) (space state) in
      put_domain domain (set_space sp state) ;;
      settle_all domain endpoint_gone (every_one && confirmed) unmapped
  end.

Definition open_in (domain : Z) (m : Mapping) : bool :=
  in_domain domain m && bool_decide (m_state m = Live \/ m_state m = Closing).

Definition revoke_endpoint (domain endpoint : Z) : M (Iommu B) (result Release Fault) :=
  live ← gets (fun s => m_id <$> base.filter (fun m => open_in domain m = true) (values (mappings s)));
  unmapped ← unmap_all live;
  invalidated ← be (be_invalidate domain);
  detached ← be (be_detach domain endpoint);
  let endpoint_gone := is_ok invalidated && is_ok detached in
  state ←? get_domain domain;
  let left := base.filter (fun e => e <> endpoint) (endpoints state) in
  put_domain domain (set_endpoints left (if bool_decide (left = []) then false else attached_confirmed state) state) ;;
  stuck ← gets (fun s => existsb (quarantined_in domain) (values (mappings s)));
  every_one ← settle_all domain endpoint_gone (negb stuck) unmapped;
  remember_detached_tail endpoint domain (ds_generation state) ;;
  mret (Ok (if every_one && endpoint_gone then FramesReusable else StayQuarantined)).

Definition set_generation (domain generation : Z) : M (Iommu B) (result unit Fault) :=
  state ←? get_domain domain;
  put_domain domain (set_ds_generation generation state) ;; mret (Ok tt).

Definition record_fault (event : FaultEvent) : M (Iommu B) unit :=
  log ← gets fault_log;
  log ← assert_some (FaultLog.record event log);
  modify (set_fault_log log).

Definition translate (endpoint address : Z) (access : Access) : M (Iommu B) (result Z Fault) :=
  s ← gets id;
  match list_find (fun d => endpoint ∈ endpoints d.2 /\ attached_confirmed d.2 = true) (entries (domains s)) with
  | None =>
      record_fault (mkFaultEvent endpoint 0 0 (Some address) access UnknownEndpoint) ;;
      mret (Err UnknownEndpoint)
  | Some (_, (domain, state)) =>
      let generation := ds_generation state in
      match list_find (fun m => (m_domain m = domain /\ m_state m = Live) /\ (m_iova m <= address /\ address < m_iova m + m_len m))
              (values (mappings s)) with
      | None =>
          record_fault (mkFaultEvent endpoint domain generation (Some address) access NotMapped) ;;
          mret (Err NotMapped)
      | Some (_, mapping) =>
          if negb (m_generation mapping =? generation) then
            record_fault (mkFaultEvent endpoint domain generation (Some address) access StaleGeneration) ;;
            mret (Err StaleGeneration)
          else if negb (direction_permits (m_direction mapping) access) then
            record_fault (mkFaultEvent endpoint domain generation (Some address) access Permission) ;;
            mret (Err Permission)
          else
            physical ← assert_some (checked_add U64_MAX (m_physical mapping) (address - m_iova mapping));
            mret (Ok physical)
      end
  end.

(** One event of a drain: whose it is, and its place in the ledger. *)
Definition attribute (teardown : option (Z * Z * Z)) (event : FaultEvent) : M (Iommu B) FaultEvent :=
  s ← gets id;
  match list_find (fun t => drained t = false /\ tail_endpoint t = ev_endpoint event) (detached s) with
  | Some (at_, t) =>
      let event := stamp (tail_domain t) (tail_generation t) event in
      modify (set_tails
        (<[at_ := mkTail (tail_endpoint t) (tail_domain t) (tail_generation t) (sat_add64 (tail_faults t) 1) (drained t)]> (detached s))
        (attribution_lost s) (tails_overflowed s)) ;;
      record_fault event ;;
      mret event
  | None =>
      let event :=
        match domains s !! ev_domain event with
        | Some state => stamp (ev_domain event) (ds_generation state) event
        | None => event
        end in
      let event :=
        match teardown with
        | Some (endpoint, domain, generation) =>
            if (ev_endpoint event =? endpoint) && (ev_domain event =? 0) then stamp domain generation event else event
        | None => event
        end in
      match domains s !! ev_domain event with
      | Some state => put_domain (ev_domain event) (set_ds_faults (sat_add64 (ds_faults state) 1) state)
      | None => mret tt
      end ;;
      record_fault event ;;
      mret event
  end.

Fixpoint attribute_all (teardown : option (Z * Z * Z)) (events : list FaultEvent) : M (Iommu B) (list FaultEvent) :=
  match events with
  | [] => mret []
  | e :: events => e ← attribute teardown e; rest ← attribute_all teardown events; mret (e :: rest)
  end.

(** The events written into the caller's buffer of [room]. *)
Definition drain_faults_during (room : nat) (teardown : option (Z * Z * Z)) : M (Iommu B) (list FaultEvent) :=
  events ← be (be_drain_faults room);
  events ← attribute_all teardown events;
  emptied ← gets (fun s => be_transport_was_emptied (backend s));
  if (emptied : bool) then
    modify (fun s => set_tails
      ((fun t => mkTail (tail_endpoint t) (tail_domain t) (tail_generation t) (tail_faults t) true) <$> detached s)
      false (tails_overflowed s) s) ;;
    mret events
  else mret events.

Definition drain_faults (room : nat) : M (Iommu B) (list FaultEvent) := drain_faults_during room None.

Definition attribution_is_complete (s : Iommu B) : bool := negb (attribution_lost s).

Definition faults_in (domain : Z) (s : Iommu B) : option Z :=
  let live := match domains s !! domain with Some state => ds_faults state | None => 0 end in
  match sum64 0 (tail_faults <$> base.filter (fun t => tail_domain t = domain) (detached s)) with
  | Some tail => Some (sat_add64 live tail)
  | None => None
  end.

Definition identity_mapped (domain address len : Z) (direction : Direction) (s : Iommu B) : bool :=
  match domains s !! domain with
  | None => false
  | Some state =>
      existsb (fun m =>
        in_domain domain m && (m_generation m =? ds_generation state) && bool_decide (m_state m = Live)
        && (m_iova m =? address) && (m_physical m =? address) && (m_len m =? len)
        && bool_decide (m_direction m = direction)) (values (mappings s))
  end.

Definition generation_of (domain : Z) (s : Iommu B) : option Z := ds_generation <$> domains s !! domain.
Definition mappings_in (domain : Z) (s : Iommu B) : Z :=
  count (fun m => in_domain domain m && negb (bool_decide (m_state m = Released))) (values (mappings s)).
Definition attached_endpoints (s : Iommu B) : nat :=
  foldr plus 0%nat ((fun d => length (endpoints d)) <$> values (domains s)).
Definition live_mappings (s : Iommu B) : Z := count (fun m => bool_decide (m_state m = Live)) (values (mappings s)).
Definition quarantined_mappings (s : Iommu B) : Z :=
  count (fun m => bool_decide (m_state m = Quarantined)) (values (mappings s)).
Definition live_addresses (domain : Z) (s : Iommu B) : nat :=
  match domains s !! domain with Some d => IovaSpace.live_ranges (space d) | None => 0%nat end.
Definition quarantined_addresses (domain : Z) (s : Iommu B) : nat :=
  match domains s !! domain with Some d => IovaSpace.quarantined_ranges (space d) | None => 0%nat end.

End iommu.
End Iommu.
