(* ===== verification/DmaIova.v ===== *)
(** The address space of an IOMMU domain: the overlap test answers for every byte of
    a request, the search finds the lowest place with room, and what is handed out
    stays inside the negotiated range and apart from everything held or reserved. *)

From stdpp Require Import sorting.
From S2P Require Import Prelude Dma.

(** ** Ordered maps *)

Section ordered.
Context {A : Type}.
Implicit Types m : gmap Z A.

#[export] Instance key_le_total : Total (@key_le A).
Proof. intros x y. unfold key_le. lia. Qed.
#[export] Instance key_le_trans : Transitive (@key_le A).
Proof. intros x y z. unfold key_le. lia. Qed.

Lemma elem_of_entries m k v : (k, v) ∈ entries m <-> m !! k = Some v.
Proof. unfold entries. rewrite merge_sort_Permutation. apply elem_of_map_to_list. Qed.

Lemma elem_of_values m v : v ∈ values m <-> exists k, m !! k = Some v.
Proof.
  unfold values. rewrite list_elem_of_fmap. split.
  - intros ([k v'] & -> & Hin). exists k. by apply elem_of_entries.
  - intros (k & Hk). exists (k, v). split; [done | by apply elem_of_entries].
Qed.

Lemma NoDup_entry_keys m : NoDup (entries m).*1.
Proof. unfold entries. rewrite merge_sort_Permutation. apply NoDup_fst_map_to_list. Qed.

Lemma sorted_filter_last (P : Z * A -> Prop) `{!forall x, Decision (P x)} (l : list (Z * A)) x :
  StronglySorted key_le l -> last (base.filter P l) = Some x ->
  x ∈ l /\ P x /\ forall y, y ∈ l -> P y -> y.1 <= x.1.
Proof.
  intros Hl. induction Hl as [| y l Hl IH Hy]; [done |]. rewrite filter_cons. case_decide as HP.
  - rewrite last_cons. destruct (last (base.filter P l)) as [z |] eqn:Hz; intros [= <-].
    + destruct (IH eq_refl) as (Hin & HPz & Hmax). split; [by right |]. split; [done |].
      intros w [-> | Hw]%elem_of_cons HPw; [| auto].
      rewrite Forall_forall in Hy. by apply (Hy z).
    + split; [left |]. split; [done |]. intros w [-> | Hw]%elem_of_cons HPw; [lia |].
      apply last_None in Hz. assert (w ∈ base.filter P l) as Hbad by (by apply list_elem_of_filter).
      rewrite Hz in Hbad. by apply elem_of_nil in Hbad.
  - intros Hx. destruct (IH Hx) as (Hin & HPx & Hmax). split; [by right |]. split; [done |].
    intros w [-> | Hw]%elem_of_cons HPw; [done | auto].
Qed.

Lemma last_below_Some e m k v :
  last_below e m = Some (k, v) ->
  m !! k = Some v /\ k < e /\ forall k' v', m !! k' = Some v' -> k' < e -> k' <= k.
Proof.
  unfold last_below. intros Hl. apply sorted_filter_last in Hl as (Hin & Hlt & Hmax).
  - split; [by apply elem_of_entries |]. split; [done |].
    intros k' v' Hk'%elem_of_entries Hlt'. apply (Hmax (k', v') Hk' Hlt').
  - apply StronglySorted_merge_sort; apply _.
Qed.

Lemma last_below_None e m k v : last_below e m = None -> m !! k = Some v -> e <= k.
Proof.
  unfold last_below. intros Hl%last_None Hk%elem_of_entries. apply Z.nlt_ge. intros Hlt.
  assert ((k, v) ∈ base.filter (fun e0 => e0.1 < e) (entries m)) as Hbad by (by apply list_elem_of_filter).
  rewrite Hl in Hbad. by apply elem_of_nil in Hbad.
Qed.

End ordered.

(** ** Occupied addresses *)

(** A region as the comparisons see it: its end is clamped to the last address. *)
Definition region_covers (a : Z) (r : Reserved) : Prop := res_base r <= a < sat_add64 (res_base r) (res_len r).

(** Addresses no new range may contain: reserved, quarantined, or in a range that is
    in use or held. *)
Definition occupied (s : IovaSpace) (a : Z) : Prop :=
  (exists r, r ∈ reserved s ++ quarantined s /\ region_covers a r) \/
  (exists start len, taken s !! start = Some len /\ start <= a < start + len).

(** The invariant of a space between two calls: what is taken lies in the negotiated
    range, and no address is in two ranges. *)
Record space_ok (s : IovaSpace) : Prop := mk_space_ok {
  ok_base : u64_range (sp_base s);
  ok_len : 0 <= sp_len s;
  ok_regions : forall r, r ∈ reserved s ++ quarantined s -> 0 <= res_base r <= U64_MAX /\ 0 < res_len r;
  ok_taken : forall start len, taken s !! start = Some len ->
    0 < len /\ sp_base s <= start /\ start + len <= IovaSpace.end_ s;
  ok_apart : forall s1 l1 s2 l2, taken s !! s1 = Some l1 -> taken s !! s2 = Some l2 -> s1 < s2 -> s1 + l1 <= s2;
  ok_clear : forall start len a r, taken s !! start = Some len -> start <= a < start + len ->
    r ∈ reserved s ++ quarantined s -> ~ region_covers a r;
}.

(** Room for [len] bytes at [at_]. *)
Definition room_at (s : IovaSpace) (len at_ : Z) : Prop :=
  at_ < IovaSpace.end_ s /\ sat_add64 at_ len <= IovaSpace.end_ s /\
  forall a, at_ <= a < sat_add64 at_ len -> ~ occupied s a.

Lemma end_max s : IovaSpace.end_ s <= U64_MAX.
Proof. unfold IovaSpace.end_, sat_add64. lia. Qed.

Lemma space_new_ok base len res :
  u64_range base -> 0 <= len ->
  (forall r, r ∈ res -> 0 <= res_base r <= U64_MAX /\ 0 < res_len r) -> space_ok (IovaSpace.new base len res).
Proof.
  intros Hb Hl Hr. split; simpl; try done; try (rewrite app_nil_r; exact Hr); intros *; rewrite ?lookup_empty; done.
Qed.

Section space.
Context (s : IovaSpace) (Hok : space_ok s).

Lemma hits_spec at_ len r :
  0 <= at_ < U64_MAX -> 0 < len -> 0 <= res_base r <= U64_MAX -> 0 < res_len r ->
  IovaSpace.hits at_ len r = true <-> exists a, at_ <= a < sat_add64 at_ len /\ region_covers a r.
Proof.
  intros Ha Hl Hb Hr. unfold IovaSpace.hits, region_covers, sat_add64. rewrite andb_true_iff, !Z.ltb_lt. split.
  - intros [H1 H2]. exists (Z.max at_ (res_base r)). lia.
  - intros (a & H1 & H2). lia.
Qed.

Lemma existsb_hits at_ len l :
  (forall r, r ∈ l -> 0 <= res_base r <= U64_MAX /\ 0 < res_len r) -> 0 <= at_ < U64_MAX -> 0 < len ->
  existsb (IovaSpace.hits at_ len) l = true <->
  exists a r, r ∈ l /\ at_ <= a < sat_add64 at_ len /\ region_covers a r.
Proof.
  intros Hl Ha Hlen. rewrite existsb_exists. split.
  - intros (r & Hin%list_elem_of_In & Hr). destruct (Hl r Hin).
    apply hits_spec in Hr as (a & H1 & H2); [eauto | done..].
  - intros (a & r & Hin & H1 & H2). destruct (Hl r Hin). exists r.
    split; [by apply list_elem_of_In | apply hits_spec; eauto].
Qed.

(** Only the last range that starts below the end of a request can decide it. *)
Lemma before_spec at_ len :
  0 <= at_ < U64_MAX -> 0 < len ->
  (match last_below (sat_add64 at_ len) (taken s) with
   | Some (start, length) => at_ <? sat_add64 start length
   | None => false
   end) = true <->
  exists a start l, taken s !! start = Some l /\ start <= a < start + l /\ at_ <= a < sat_add64 at_ len.
Proof.
  intros Ha Hl. assert (at_ < sat_add64 at_ len) as Hpos by (unfold sat_add64; lia).
  destruct (last_below _ _) as [[k l] |] eqn:Hlast.
  - apply last_below_Some in Hlast as (Hk & Hlt & Hmax). rewrite Z.ltb_lt.
    destruct (ok_taken s Hok k l Hk) as (Hl0 & _ & Hle). pose proof (end_max s).
    rewrite sat_add64_small by lia. split.
    + intros Hin. exists (Z.max at_ k), k, l. split; [done | lia].
    + intros (a & start & l' & Hs & H1 & H2). specialize (Hmax start l' Hs ltac:(lia)).
      destruct (decide (start = k)) as [-> | Hne]; [rewrite Hk in Hs; injection Hs as ->; lia |].
      pose proof (ok_apart s Hok start l' k l Hs Hk ltac:(lia)). lia.
  - split; [done |]. intros (a & start & l & Hs & H1 & H2).
    pose proof (last_below_None _ _ _ _ Hlast Hs). lia.
Qed.

(** The overlap test is a search for an occupied address of the request. *)
Lemma overlaps_any_spec at_ len :
  0 <= at_ < U64_MAX -> 0 < len ->
  IovaSpace.overlaps_any s at_ len = true <-> exists a, at_ <= a < sat_add64 at_ len /\ occupied s a.
Proof.
  intros Ha Hl. unfold IovaSpace.overlaps_any, occupied.
  pose proof (ok_regions s Hok) as Hreg.
  rewrite !orb_true_iff, before_spec, !existsb_hits by (done || (intros; apply Hreg; set_solver)). split.
  - intros [[(a & r & Hin & H1 & H2) | (a & r & Hin & H1 & H2)] | (a & st & l & Hs & H1 & H2)];
      exists a; (split; [done |]); [left | left | right; eauto]; exists r; set_solver.
  - intros (a & Ha' & [(r & [Hin | Hin]%elem_of_app & Hr) | (st & l & Hs & H1)]); [left; left | left; right | right]; eauto 10.
Qed.

Lemma step_past_spec at_ past r :
  let p := IovaSpace.step_past at_ past r in
  past <= p /\ (region_covers at_ r -> sat_add64 (res_base r) (res_len r) <= p) /\
  (p = past \/ region_covers at_ r /\ p = sat_add64 (res_base r) (res_len r)).
Proof.
  unfold IovaSpace.step_past, region_covers.
  destruct (Z.leb_spec (res_base r) at_); destruct (Z.ltb_spec at_ (sat_add64 (res_base r) (res_len r))); simpl; lia.
Qed.

Lemma fold_step_past at_ l past :
  let p := foldl (IovaSpace.step_past at_) past l in
  past <= p /\ (p = past \/ exists r, r ∈ l /\ region_covers at_ r /\ p = sat_add64 (res_base r) (res_len r)).
Proof.
  revert past. induction l as [| r l IH]; intros past; simpl; [auto with lia |].
  destruct (step_past_spec at_ past r) as (H1 & _ & H3).
  destruct (IH (IovaSpace.step_past at_ past r)) as [H4 H5]. split; [lia |].
  destruct H5 as [-> | (r' & Hin & H5 & ->)]; [| right; exists r'; split; [by right | done]].
  destruct H3 as [-> | [H3 ->]]; [by left | right; exists r; split; [left | done]].
Qed.

Lemma next_free_after_ge at_ : sat_add64 at_ 1 <= IovaSpace.next_free_after s at_.
Proof.
  unfold IovaSpace.next_free_after. cbv zeta.
  destruct (fold_step_past at_ (reserved s ++ quarantined s) (sat_add64 at_ 1)) as [H1 _].
  destruct (last_below _ _) as [[k l] |]; [| done].
  destruct (step_past_spec at_ (foldl (IovaSpace.step_past at_) (sat_add64 at_ 1) (reserved s ++ quarantined s)) (mkReserved k l)) as [H2 _]. lia.
Qed.

(** The next candidate lies past [at_] and every address it skips is occupied. *)
Lemma next_free_after_spec at_ :
  0 <= at_ < U64_MAX ->
  let p := IovaSpace.next_free_after s at_ in
  at_ < p <= U64_MAX /\ forall a, at_ < a < p -> occupied s a.
Proof.
  intros Ha. unfold IovaSpace.next_free_after. cbv zeta.
  destruct (fold_step_past at_ (reserved s ++ quarantined s) (sat_add64 at_ 1)) as [H1 H2].
  set (p := foldl _ _ _) in *. rewrite (sat_add64_small at_ 1) in * by lia.
  assert (p <= U64_MAX /\ forall a, at_ < a < p -> occupied s a) as [Hmax Hskip].
  { destruct H2 as [-> | (r & Hin & [Hr1 Hr2] & Hp)]; [split; [lia | intros; lia] |].
    split; [rewrite Hp; unfold sat_add64; lia |]. intros a Hap. left. exists r.
    split; [done |]. unfold region_covers. lia. }
  destruct (last_below (at_ + 1) (taken s)) as [[k l] |] eqn:Hlast; [| auto with lia].
  apply last_below_Some in Hlast as (Hk & Hlt & _). destruct (ok_taken s Hok k l Hk) as (Hl0 & _ & Hle).
  pose proof (end_max s). destruct (step_past_spec at_ p (mkReserved k l)) as (H3 & _ & H4).
  set (q := IovaSpace.step_past _ _ _) in *. unfold region_covers in H4. simpl in H4.
  rewrite (sat_add64_small k l) in H4 by lia.
  destruct H4 as [-> | [Hc ->]]; [auto with lia |]. split; [lia |]. intros a Hak. right. exists k, l. split; [done | lia].
Qed.

End space.

(** ** The search *)

Lemma next_multiple_of_spec z n c :
  0 < n -> next_multiple_of z n = Some c ->
  (n | c) /\ z <= c < z + n /\ c <= Z.max z U64_MAX /\ forall d, (n | d) -> z <= d -> c <= d.
Proof.
  intros Hn. unfold next_multiple_of, checked_add. pose proof (Z.mod_pos_bound z n Hn) as Hm.
  pose proof (Z.div_mod z n ltac:(lia)) as Hz.
  destruct (Z.eqb_spec (z mod n) 0) as [H0 | H0].
  - intros [= <-]. split; [by apply Z.mod_divide; lia |]. split; [lia |]. split; [lia |]. auto.
  - destruct (Z.leb_spec (z + (n - z mod n)) U64_MAX); intros [= <-].
    split; [exists (z / n + 1); lia |]. split; [lia |]. split; [lia |].
    intros d [k ->] Hd. assert (z / n < k) by nia. nia.
Qed.

Lemma next_multiple_of_some z n : 0 < n -> z + n <= TWO64 -> exists c, next_multiple_of z n = Some c.
Proof.
  intros Hn Hz. unfold next_multiple_of, checked_add. pose proof (Z.mod_pos_bound z n Hn).
  destruct (Z.eqb_spec (z mod n) 0); [eauto |].
  destruct (Z.leb_spec (z + (n - z mod n)) U64_MAX); [eauto | lia].
Qed.

Lemma is_power_of_two_pos n : is_power_of_two n = true -> 0 < n.
Proof. unfold is_power_of_two. rewrite andb_true_iff, Z.ltb_lt. tauto. Qed.

(** No end of a range or region is within [alignment] of the end of the address
    space, so that rounding up past it cannot overflow. An alignment of zero asks for
    nothing. *)
Definition headroom (s : IovaSpace) (alignment : Z) : Prop :=
  (0 < alignment -> sp_base s < U64_MAX) /\ IovaSpace.end_ s + alignment <= TWO64 /\
  forall r, r ∈ reserved s ++ quarantined s -> sat_add64 (res_base r) (res_len r) + alignment <= TWO64.

(** Where [allocate] starts to look. *)
Definition floor_of (s : IovaSpace) (alignment : Z) : Z := Z.max (sp_base s) alignment.

(** Candidates below [at_] have no room. *)
Definition tried (s : IovaSpace) (len alignment at_ : Z) : Prop :=
  forall c, (alignment | c) -> floor_of s alignment <= c < at_ -> ~ room_at s len c.

Section search.
Context (s : IovaSpace) (Hok : space_ok s) (len alignment : Z).
Context (Hlen : 0 < len) (Hal : 0 < alignment) (Hsmall : alignment < U64_MAX) (Hhead : headroom s alignment).

Lemma next_free_after_headroom at_ :
  0 <= at_ < IovaSpace.end_ s -> IovaSpace.next_free_after s at_ + alignment <= TWO64.
Proof.
  intros Ha. unfold IovaSpace.next_free_after. cbv zeta. destruct Hhead as (_ & He & Hr).
  destruct (fold_step_past at_ (reserved s ++ quarantined s) (sat_add64 at_ 1)) as [_ H2].
  set (p := foldl _ _ _) in *.
  assert (p + alignment <= TWO64) as Hp.
  { destruct H2 as [-> | (r & Hin & _ & ->)]; [unfold sat_add64; lia | by apply Hr]. }
  destruct (last_below (at_ + 1) (taken s)) as [[k l] |] eqn:Hlast; [| done].
  apply last_below_Some in Hlast as (Hk & _ & _). destruct (ok_taken s Hok k l Hk) as (Hl0 & _ & Hle).
  destruct (step_past_spec at_ p (mkReserved k l)) as (_ & _ & [-> | [_ ->]]); [done |].
  simpl. pose proof (end_max s). rewrite sat_add64_small; lia.
Qed.

(** A place with room is free throughout. *)
Lemma room_not_overlapped at_ : 0 <= at_ < U64_MAX -> IovaSpace.overlaps_any s at_ len = true -> ~ room_at s len at_.
Proof.
  intros Ha Ho (_ & _ & Hfree). apply (overlaps_any_spec s Hok at_ len Ha Hlen) in Ho as (a & Hin & Hocc).
  by apply (Hfree a).
Qed.

Lemma tried_next at_ next :
  0 <= at_ < U64_MAX -> (alignment | at_) -> tried s len alignment at_ ->
  IovaSpace.overlaps_any s at_ len = true ->
  next_multiple_of (IovaSpace.next_free_after s at_) alignment = Some next ->
  at_ < next /\ (alignment | next) /\ tried s len alignment next.
Proof.
  intros Ha Hd Htried Hover Hn. destruct (next_free_after_spec s Hok at_ Ha) as [Hnf Hskip].
  destruct (next_multiple_of_spec _ _ _ Hal Hn) as (Hdn & Hrange & _ & Hmin).
  split; [lia |]. split; [done |]. intros c Hc Hcr Hroom.
  destruct (Z.lt_trichotomy c at_) as [Hlt | [-> | Hgt]].
  - apply (Htried c); [done | lia | done].
  - by apply (room_not_overlapped at_ Ha Hover).
  - destruct (decide (c < IovaSpace.next_free_after s at_)) as [Hin | Hout].
    + destruct Hroom as (Hce & _ & Hfree). pose proof (end_max s). apply (Hfree c).
      * unfold sat_add64. lia.
      * apply Hskip. lia.
    + specialize (Hmin c Hc ltac:(lia)). lia.
Qed.

(** The search ends, at the lowest place with room or when there is none. *)
Lemma search_ends at_ :
  0 <= at_ <= U64_MAX -> (at_ = U64_MAX -> IovaSpace.end_ s < U64_MAX) ->
  (alignment | at_) -> floor_of s alignment <= at_ -> tried s len alignment at_ ->
  exists r, until 64 (IovaSpace.search s len alignment) at_ = inr (Some r) /\
    match r with
    | Some a => (alignment | a) /\ floor_of s alignment <= a /\ room_at s len a /\ tried s len alignment a
    | None => forall a, (alignment | a) -> floor_of s alignment <= a -> ~ room_at s len a
    end.
Proof.
  intros Ha Htop Hd Hf Ht.
  destruct (until_ends
    (fun c => (0 <= c <= U64_MAX /\ (c = U64_MAX -> IovaSpace.end_ s < U64_MAX)) /\ (alignment | c) /\ floor_of s alignment <= c /\ tried s len alignment c)
    (fun o => exists r, o = Some r /\
       match r with
       | Some a => (alignment | a) /\ floor_of s alignment <= a /\ room_at s len a /\ tried s len alignment a
       | None => forall a, (alignment | a) -> floor_of s alignment <= a -> ~ room_at s len a
       end)
    (fun c => U64_MAX - c) (IovaSpace.search s len alignment) 64 at_) as (r & Hr & o & -> & Ho); [| done | simpl; lia | eauto].
  clear Ha Htop Hd Hf Ht at_. intros c ([Hc Htop] & Hd & Hf & Ht). unfold IovaSpace.search. pose proof (end_max s) as Hmax.
  destruct (Z.leb_spec (sat_add64 c len) (IovaSpace.end_ s)) as [Hfit | Hfit].
  - assert (0 <= c < U64_MAX) as Hc' by (unfold sat_add64 in Hfit; lia).
    assert (c < IovaSpace.end_ s) as Hce by (unfold sat_add64 in Hfit; lia).
    destruct (IovaSpace.overlaps_any s c len) eqn:Hover; simpl.
    + destruct (next_multiple_of_some (IovaSpace.next_free_after s c) alignment Hal) as [next Hn];
        [apply next_free_after_headroom; lia |].
      rewrite Hn. destruct (tried_next c next Hc' Hd Ht Hover Hn) as (Hlt & Hdn & Htn).
      destruct (Z.leb_spec (IovaSpace.end_ s) next) as [Hpast | Hin].
      * exists None. split; [done |]. intros a Hda Hfa Hroom. apply (Htn a Hda); [| done].
        destruct Hroom as [Hae _]. lia.
      * split; [| lia]. split; [lia |]. split; [done |]. split; [lia | done].
    + exists (Some c). split; [done |]. split; [done |]. split; [done |]. split; [| done].
      split; [done |]. split; [done |]. intros a Ha Hocc.
      assert (IovaSpace.overlaps_any s c len = true) as Hbad by (apply overlaps_any_spec; eauto). congruence.
  - exists None. split; [done |]. intros a Hda Hfa Hroom.
    destruct (decide (a < c)) as [Hlt | Hge]; [apply (Ht a Hda); [lia | done] |].
    destruct Hroom as (_ & Hroom & _). unfold sat_add64 in *. lia.
Qed.

(** [allocate] returns: the lowest aligned address with room, or that there is none. *)
Lemma allocate_spec :
  is_power_of_two alignment = true ->
  exists r s', IovaSpace.allocate len alignment s = Some (r, s') /\
    match r with
    | Ok a =>
        s' = set_taken (<[a := len]> (taken s)) s /\ (alignment | a) /\ floor_of s alignment <= a /\
        room_at s len a /\ tried s len alignment a
    | Err e =>
        e = NoSpace /\ s' = s /\ forall a, (alignment | a) -> floor_of s alignment <= a -> ~ room_at s len a
    end.
Proof.
  intros Hp. unfold IovaSpace.allocate. fold (floor_of s alignment).
  destruct (Z.eqb_spec len 0); [lia |]. destruct (Z.eqb_spec alignment 0); [lia |]. rewrite Hp. simpl.
  destruct Hhead as (Hlow & He & _). specialize (Hlow Hal). pose proof (ok_base s Hok) as [Hb _]. pose proof (ok_len s Hok).
  assert (sp_base s <= IovaSpace.end_ s) as Hbe by (unfold IovaSpace.end_, sat_add64; lia).
  assert (exists at_, next_multiple_of (floor_of s alignment) alignment = Some at_) as [at_ Hat].
  { destruct (decide (sp_base s <= alignment)) as [Hle | Hgt].
    - exists alignment. unfold floor_of, next_multiple_of. rewrite Z.max_r, Z.mod_same by lia. done.
    - apply next_multiple_of_some; unfold floor_of; lia. }
  rewrite Hat. destruct (next_multiple_of_spec _ _ _ Hal Hat) as (Hd & Hr & Hmax & Hmin).
  destruct (search_ends at_) as (r & -> & Hspec); [| | done | lia | | ].
  - unfold floor_of in *. lia.
  - intros ->. apply Z.nle_gt. intros Hend. assert (alignment = 1) as -> by lia. unfold floor_of in *. lia.
  - intros c Hc Hcr. specialize (Hmin c Hc). lia.
  - destruct r as [a |]; [exists (Ok a) | exists (Err NoSpace)]; eexists; (split; [done |]); tauto.
Qed.

End search.

Lemma room_untaken s len a : 0 < len -> space_ok s -> room_at s len a -> taken s !! a = None.
Proof.
  intros Hl Hok (Ha & Hfit & Hfree). destruct (taken s !! a) as [l |] eqn:Hs; [| done]. exfalso.
  pose proof (end_max s). destruct (ok_taken s Hok a l Hs) as (Hl0 & _). apply (Hfree a).
  - unfold sat_add64. lia.
  - right. exists a, l. split; [done | lia].
Qed.

(** Whatever the ends of the space, an address [allocate] answers with lies in the
    negotiated range and is not taken, and has room where the request ends inside the
    address space. *)
Lemma allocate_sound s len alignment r s' :
  space_ok s -> 0 < len -> IovaSpace.allocate len alignment s = Some (r, s') ->
  match r with
  | Ok a => s' = set_taken (<[a := len]> (taken s)) s /\ sp_base s <= a /\ taken s !! a = None /\
      (a + len <= U64_MAX -> room_at s len a)
  | Err _ => s' = s
  end.
Proof.
  intros Hok Hlen. unfold IovaSpace.allocate. destruct (Z.eqb_spec alignment 0) as [-> | Ha0].
  { rewrite orb_true_r. by intros [= <- <-]. }
  destruct (is_power_of_two alignment) eqn:Hp; [| rewrite orb_true_r; by intros [= <- <-]].
  apply is_power_of_two_pos in Hp as Hal. destruct (Z.eqb_spec len 0); [lia |]. simpl. pose proof (end_max s) as Hmax.
  destruct (next_multiple_of _ _) as [at_ |] eqn:Hat; [| done].
  destruct (next_multiple_of_spec _ _ _ Hal Hat) as (_ & Hr & _). pose proof (ok_base s Hok) as [Hb _].
  destruct (until 64 _ at_) as [? | [[a |] |]] eqn:Hu; [done | | by intros [= <- <-] | done].
  intros [= <- <-]. split; [done |].
  apply (until_last (fun c => sp_base s <= c)) in Hu as (c & Hc & Hs); [| | lia].
  - unfold IovaSpace.search in Hs. destruct (Z.leb_spec (sat_add64 c len) (IovaSpace.end_ s)) as [Hfit |]; [| done].
    destruct (IovaSpace.overlaps_any s c len) eqn:Hover; [by repeat (case_match; try done) |]. injection Hs as <-.
    split; [done |]. destruct (decide (c < U64_MAX)) as [Hlow | Htop].
    + assert (room_at s len c) as Hroom; [| split; [by apply (room_untaken s len) | done]].
      split; [unfold sat_add64 in Hfit; lia |]. split; [done |]. intros x Hx Hocc.
      assert (IovaSpace.overlaps_any s c len = true) as Hbad; [| congruence].
      apply overlaps_any_spec; [done | lia | done | eauto].
    + split; [| lia]. destruct (taken s !! c) as [l |] eqn:Ht; [| done].
      destruct (ok_taken s Hok c l Ht) as (? & _ & ?). lia.
  - intros c c' Hc. unfold IovaSpace.search. repeat case_match; try done. intros [= <-].
    pose proof (ok_base s Hok) as [_ ?]. pose proof (next_free_after_ge s c) as Hge. unfold sat_add64 in Hge.
    match goal with E : next_multiple_of _ _ = Some _ |- _ => destruct (next_multiple_of_spec _ _ _ Hal E) as (_ & Hn & _) end. lia.
Qed.

(** ** What the operations keep *)

Lemma set_taken_end t s : IovaSpace.end_ (set_taken t s) = IovaSpace.end_ s.
Proof. done. Qed.

Lemma space_insert_ok s len a :
  space_ok s -> 0 < len -> sp_base s <= a -> a + len <= U64_MAX -> room_at s len a ->
  space_ok (set_taken (<[a := len]> (taken s)) s).
Proof.
  intros Hok Hl Hb Htop (Ha & Hfit & Hfree). rewrite sat_add64_small in Hfit, Hfree by lia.
  assert (forall st l x, taken s !! st = Some l -> st <= x < st + l -> a <= x < a + len -> False) as Hdis.
  { intros st l x Hs Hx Hax. apply (Hfree x Hax). right. eauto. }
  split; simpl; [apply Hok | apply Hok | apply Hok | | |].
  - intros st l. rewrite set_taken_end.
    intros [[<- <-] | [Hne Hs]]%lookup_insert_Some; [lia | by apply (ok_taken s Hok)].
  - intros s1 l1 s2 l2 [[<- <-] | [Hn1 H1]]%lookup_insert_Some [[<- <-] | [Hn2 H2]]%lookup_insert_Some Hlt.
    + lia.
    + destruct (ok_taken s Hok s2 l2 H2) as (? & _). apply Z.nlt_ge. intros Hbad. apply (Hdis s2 l2 s2 H2); lia.
    + apply Z.nlt_ge. intros Hbad. apply (Hdis s1 l1 a H1); lia.
    + by apply (ok_apart s Hok s1 l1 s2 l2).
  - intros st l x r [[<- <-] | [Hne Hs]]%lookup_insert_Some Hx Hr Hc; [| by eapply (ok_clear s Hok)].
    apply (Hfree x Hx). left. eauto.
Qed.

Lemma space_delete_ok s a : space_ok s -> space_ok (set_taken (delete a (taken s)) s).
Proof.
  intros Hok. split; simpl; try apply Hok; intros *; rewrite ?set_taken_end.
  - intros [_ Hs]%lookup_delete_Some. by apply (ok_taken s Hok).
  - intros [_ H1]%lookup_delete_Some [_ H2]%lookup_delete_Some. by eapply (ok_apart s Hok).
  - intros [_ Hs]%lookup_delete_Some. by eapply (ok_clear s Hok).
Qed.

Lemma space_quarantine_ok s a len :
  space_ok s -> taken s !! a = Some len ->
  space_ok (set_quarantined (quarantined s ++ [mkReserved a len]) (set_taken (delete a (taken s)) s)).
Proof.
  intros Hok Ha. destruct (ok_taken s Hok a len Ha) as (Hl & Hb & He). destruct (ok_base s Hok) as [Hlo Hhi]. pose proof (end_max s) as Hmax.
  split; simpl; [done | apply Hok | | | |].
  - intros r. rewrite app_assoc. intros [Hr | ->%list_elem_of_singleton]%elem_of_app; [by apply (ok_regions s Hok) | simpl; lia].
  - intros st l [_ Hs]%lookup_delete_Some. by apply (ok_taken s Hok).
  - intros s1 l1 s2 l2 [_ H1]%lookup_delete_Some [_ H2]%lookup_delete_Some. by eapply (ok_apart s Hok).
  - intros st l x r [Hne Hs]%lookup_delete_Some Hx. rewrite app_assoc.
    intros [Hr | ->%list_elem_of_singleton]%elem_of_app; [by eapply (ok_clear s Hok) |].
    unfold region_covers. simpl. rewrite sat_add64_small by lia. intros Hbad.
    destruct (Z.lt_trichotomy st a) as [Hlt | [-> | Hgt]]; [| done |].
    + pose proof (ok_apart s Hok st l a len Hs Ha Hlt). lia.
    + pose proof (ok_apart s Hok a len st l Ha Hs Hgt). lia.
Qed.

(** [take_exact] never panics; it takes the range or says which rule it breaks. *)
Lemma take_exact_spec s a len :
  space_ok s -> 0 <= a -> 0 <= len ->
  exists r s', IovaSpace.take_exact a len s = Some (r, s') /\
    match r with
    | Ok b => b = a /\ 0 < len /\ a + len <= U64_MAX /\ sp_base s <= a /\ room_at s len a /\
        s' = set_taken (<[a := len]> (taken s)) s
    | Err e => s' = s /\ (e = Malformed \/ e = OutOfRange \/ e = Overlaps /\ ~ room_at s len a)
    end.
Proof.
  intros Hok Ha Hl. unfold IovaSpace.take_exact, checked_add. pose proof (end_max s) as Hmax.
  destruct (Z.eqb_spec len 0); [eexists (Err _), _; eauto |].
  destruct (Z.leb_spec (a + len) U64_MAX) as [Htop |]; [| eexists (Err _), _; eauto].
  destruct (Z.ltb_spec a (sp_base s)); [eexists (Err _), _; eauto |].
  destruct (Z.ltb_spec (IovaSpace.end_ s) (a + len)); [eexists (Err _), _; eauto |]. simpl.
  pose proof (overlaps_any_spec s Hok a len ltac:(lia) ltac:(lia)) as Hspec.
  destruct (IovaSpace.overlaps_any s a len) eqn:Ho.
  - eexists (Err _), _. split; [done |]. split; [done |]. right. right. split; [done |].
    apply room_not_overlapped; [done | lia | lia | done].
  - eexists (Ok _), _. split; [done |]. split; [done |]. split; [lia |]. split; [done |]. split; [done |]. split; [| done].
    split; [lia |]. rewrite sat_add64_small by lia. split; [lia |]. intros x Hx Hocc.
    assert (false = true) as Hbad; [| done]. apply Hspec. exists x. rewrite sat_add64_small by lia. done.
Qed.

Lemma headroom_taken s t A : headroom s A -> headroom (set_taken t s) A.
Proof. done. Qed.

Lemma headroom_quarantine s t a len A :
  space_ok s -> headroom s A -> taken s !! a = Some len ->
  headroom (set_quarantined (quarantined s ++ [mkReserved a len]) (set_taken t s)) A.
Proof.
  intros Hok (Hlow & He & Hr) Ha. split; [done |]. split; [done |]. simpl. intros r. rewrite app_assoc.
  intros [Hin | ->%list_elem_of_singleton]%elem_of_app; [by apply Hr |]. simpl.
  destruct (ok_taken s Hok a len Ha) as (_ & _ & Hle). unfold sat_add64. lia.
Qed.

Lemma headroom_smaller s A A' : headroom s A -> A' <= A -> headroom s A'.
Proof. intros (Hlow & He & Hr) Hle. split; [lia |]. split; [lia |]. intros r Hin. specialize (Hr r Hin). lia. Qed.

Lemma headroom_none s : headroom s 0.
Proof. split; [lia |]. split; [pose proof (end_max s); lia |]. intros r _. unfold sat_add64. lia. Qed.
