(* ===== verification/DmaReach.v ===== *)
(** What the hardware can do behind the manager, and the ledger against it: the
    promises of [Backend], the invariant that every translation a device could use is
    on the books, and what each operation does to both. *)

From S2P Require Import Prelude Dma DmaIova.

(** ** The hardware *)

(** One translation as the controller holds it. *)
Record row := mkRow {
  row_domain : Z;
  row_iova : Z;
  row_physical : Z;
  row_len : Z;
  row_direction : Direction;
}.

Definition row_of (m : Mapping) : row :=
  mkRow (m_domain m) (m_iova m) (m_physical m) (m_len m) (m_direction m).

(** What a controller may be doing: which endpoints may use which domain, which
    translations are in its tables, which it may still answer from a cache, and which
    domain ids it has handed out. Each is an upper bound on the hardware. [hw_ok] is
    the backend's own invariant. *)
Class Hardware (B : Type) := {
  hw_ok : B -> Prop;
  hw_attached : B -> Z -> Z -> Prop;
  hw_installed : B -> row -> Prop;
  hw_cached : B -> row -> Prop;
  hw_known : B -> Z -> Prop;
}.

(** Nothing new but copies: attachments and tables may shrink, caches fill from the
    tables. *)
Record evolves {B} `{Hardware B} (b b' : B) : Prop := mk_evolves {
  evolves_ok : hw_ok b -> hw_ok b';
  evolves_attached : forall e d, hw_attached b' e d -> hw_attached b e d;
  evolves_installed : forall r, hw_installed b' r -> hw_installed b r;
  evolves_cached : forall r, hw_cached b' r -> hw_cached b r \/ hw_installed b r;
  evolves_known : forall d, hw_known b d -> hw_known b' d;
}.

(** A range of bus addresses that fits 64 bits. *)
Definition range_ok (iova len : Z) : Prop := 0 <= iova /\ 0 < len /\ iova + len <= U64_MAX.

(** The promises of the trait, for arguments of their machine width and domains the
    backend handed out. A confirmation is a completion; a refusal changed nothing; an
    unconfirmed answer may have done what was asked. A frame is out of reach once its
    unmap and a later invalidation of its domain are confirmed. *)
Class BackendLaws (B : Type) `{Backend B, Hardware B} := {
  law_create b r b' : hw_ok b -> be_domain_create b = (r, b') ->
    evolves b b' /\ forall d, r = Ok d -> ~ hw_known b d /\ hw_known b' d;
  law_destroy d b r b' : hw_ok b -> be_domain_destroy d b = (r, b') ->
    evolves b b' /\ (hw_known b d -> is_ok r = true -> forall e, ~ hw_attached b' e d);
  law_attach d e b r b' : hw_ok b -> hw_known b d -> u32_range e -> be_attach d e b = (r, b') ->
    hw_ok b' /\
    (forall e' d', hw_attached b' e' d' ->
       hw_attached b e' d' \/ (e' = e /\ d' = d /\ (is_ok r = true \/ r = Err Unconfirmed))) /\
    (forall x, hw_installed b' x -> hw_installed b x) /\
    (forall x, hw_cached b' x -> hw_cached b x \/ hw_installed b x) /\
    (forall d, hw_known b d -> hw_known b' d);
  law_detach d e b r b' : hw_ok b -> be_detach d e b = (r, b') ->
    evolves b b' /\ (hw_known b d -> u32_range e -> is_ok r = true -> ~ hw_attached b' e d);
  law_map d iova physical len dir b r b' :
    hw_ok b -> hw_known b d -> range_ok iova len -> u64_range physical ->
    be_map d iova physical len dir b = (r, b') ->
    hw_ok b' /\
    (forall e d, hw_attached b' e d -> hw_attached b e d) /\
    (forall x, hw_installed b' x ->
       hw_installed b x \/ (x = mkRow d iova physical len dir /\ (is_ok r = true \/ r = Err Unconfirmed))) /\
    (forall x, hw_cached b' x -> hw_cached b x \/ hw_installed b x \/ hw_installed b' x) /\
    (forall d, hw_known b d -> hw_known b' d);
  law_unmap d iova len b r b' : hw_ok b -> be_unmap d iova len b = (r, b') ->
    evolves b b' /\
    (hw_known b d -> range_ok iova len -> is_ok r = true ->
     forall x, row_domain x = d -> row_iova x = iova -> row_len x = len -> ~ hw_installed b' x);
  law_invalidate d b r b' : hw_ok b -> be_invalidate d b = (r, b') ->
    evolves b b' /\ (is_ok r = true -> forall x, row_domain x = d -> hw_cached b' x -> hw_installed b' x);
  law_drain n b es b' : hw_ok b -> be_drain_faults n b = (es, b') -> evolves b b' /\ (length es <= n)%nat;
  law_probe e b r b' : hw_ok b -> be_probe e b = (r, b') -> evolves b b';
}.

(** A device access the hardware lets through: endpoint, bus address, kind of access,
    and the physical address it lands on. *)
Definition reaches {B} `{Hardware B} (b : B) (e a : Z) (access : Access) (p : Z) : Prop :=
  exists r, hw_attached b e (row_domain r) /\ (hw_installed b r \/ hw_cached b r) /\
    row_iova r <= a < row_iova r + row_len r /\ direction_permits (row_direction r) access = true /\
    p = row_physical r + (a - row_iova r).

Section evolves.
Context {B : Type} `{Hardware B}.

#[export] Instance evolves_preorder : PreOrder (@evolves B _).
Proof.
  split.
  - intros b. split; auto.
  - intros b1 b2 b3 [O1 A1 I1 C1 K1] [O2 A2 I2 C2 K2]. split; auto.
    intros r Hr. destruct (C2 r Hr) as [?%C1 | ?]; [done | auto].
Qed.

(** What a row does not have, it never gets. *)
Lemma evolves_gone (b b' : B) r :
  evolves b b' -> ~ hw_installed b r -> ~ hw_cached b r -> ~ hw_installed b' r /\ ~ hw_cached b' r.
Proof. intros [_ _ I C _] Hi Hc. split; [by intros ?%I | intros Hc'; destruct (C r Hc'); auto]. Qed.

(** A table that lost a row and then a flushed cache have it nowhere. *)
Lemma flushed_row (b1 b2 : B) r d :
  row_domain r = d -> ~ hw_installed b1 r -> evolves b1 b2 ->
  (forall x, row_domain x = d -> hw_cached b2 x -> hw_installed b2 x) -> ~ hw_installed b2 r /\ ~ hw_cached b2 r.
Proof. intros Hd Hi E Hf. assert (~ hw_installed b2 r) by (by intros ?%(evolves_installed b1 b2 E)). split; [done | auto]. Qed.

End evolves.

(** ** The ledger *)

Definition is_open (st : MappingState) : Prop := st = Live \/ st = Closing.
#[export] Instance is_open_dec st : Decision (is_open st).
Proof. unfold is_open. solve_decision. Defined.

(** The address range of a mapping is held in its space. *)
Definition held_in (sp : IovaSpace) (m : Mapping) : Prop :=
  (is_open (m_state m) -> taken sp !! m_iova m = Some (m_len m)) /\
  (m_state m = Quarantined -> mkReserved (m_iova m) (m_len m) ∈ quarantined sp).

Definition apart (m1 m2 : Mapping) : Prop :=
  m_iova m1 + m_len m1 <= m_iova m2 \/ m_iova m2 + m_len m2 <= m_iova m1.

(** A row some mapping still answers for. *)
Definition booked {B} (s : Iommu B) (r : row) : Prop :=
  exists id m, mappings s !! id = Some m /\ row_of m = r /\ m_state m <> Released.

(** The books: domains, mappings and spaces among themselves. [A] bounds the
    alignments in use. *)
Record books_ok (A : Z) (ds : gmap Z DomainState) (ms : gmap Z Mapping) (next : Z) : Prop := mk_books_ok {
  bk_id : forall id m, ms !! id = Some m -> m_id m = id /\ id < next;
  bk_range : forall id m, ms !! id = Some m ->
    0 < m_len m /\ 0 <= m_iova m /\ m_iova m + m_len m <= U64_MAX /\ 0 <= m_physical m /\ m_physical m + m_len m <= TWO64;
  bk_space : forall d st, ds !! d = Some st -> space_ok (space st) /\ headroom (space st) A;
  bk_held : forall id m st, ms !! id = Some m -> ds !! m_domain m = Some st -> held_in (space st) m;
  bk_used : forall d st a l, ds !! d = Some st -> taken (space st) !! a = Some l ->
    exists id m, ms !! id = Some m /\ m_domain m = d /\ m_iova m = a /\ m_len m = l /\ is_open (m_state m);
  bk_apart : forall i j m1 m2, ms !! i = Some m1 -> ms !! j = Some m2 -> i <> j ->
    m_domain m1 = m_domain m2 -> is_Some (ds !! m_domain m1) ->
    m_state m1 <> Released -> m_state m2 <> Released -> apart m1 m2;
}.

(** The books against the hardware. *)
Record iommu_inv {B} `{Hardware B} (A : Z) (s : Iommu B) : Prop := mk_iommu_inv {
  inv_hw : hw_ok (backend s);
  inv_books : books_ok A (domains s) (mappings s) (next_mapping s);
  inv_booked : forall r, is_Some (domains s !! row_domain r) ->
    hw_installed (backend s) r \/ hw_cached (backend s) r -> booked s r;
  inv_attached : forall e d, hw_attached (backend s) e d -> is_Some (domains s !! d);
  inv_scope : forall r, hw_installed (backend s) r \/ hw_cached (backend s) r -> hw_known (backend s) (row_domain r);
  inv_domains : forall d, is_Some (domains s !! d) -> hw_known (backend s) d;
  inv_rows : forall id m, mappings s !! id = Some m -> hw_known (backend s) (m_domain m);
}.

(** ** Changes to the books *)

Section books.
Context (A : Z).
Implicit Types (ds : gmap Z DomainState) (ms : gmap Z Mapping).

(** A booked range of a domain is occupied in its space. *)
Lemma booked_occupied ds ms next id m st a :
  books_ok A ds ms next -> ms !! id = Some m -> ds !! m_domain m = Some st -> m_state m <> Released ->
  m_iova m <= a < m_iova m + m_len m -> occupied (space st) a.
Proof.
  intros Hb Hm Hd Hst Ha. destruct (bk_held _ _ _ _ Hb id m st Hm Hd) as [Ho Hq].
  destruct (bk_range _ _ _ _ Hb id m Hm) as (_ & _ & Htop & _).
  destruct (decide (is_open (m_state m))) as [Hopen | Hno].
  - right. exists (m_iova m), (m_len m). auto.
  - left. exists (mkReserved (m_iova m) (m_len m)). split.
    + apply elem_of_app. right. apply Hq. unfold is_open in Hno. destruct (m_state m); naive_solver.
    + unfold region_covers. simpl. rewrite sat_add64_small by lia. done.
Qed.

(** A new row where there was room. *)
Lemma books_add ds ms next d st sp m :
  books_ok A ds ms next -> ds !! d = Some st -> m_domain m = d -> m_id m = next ->
  0 < m_len m -> 0 <= m_iova m -> m_iova m + m_len m <= U64_MAX -> 0 <= m_physical m -> m_physical m + m_len m <= TWO64 ->
  room_at (space st) (m_len m) (m_iova m) ->
  space_ok sp -> headroom sp A -> held_in sp m ->
  taken (space st) ⊆ taken sp -> (forall r, r ∈ quarantined (space st) -> r ∈ quarantined sp) ->
  (forall a l, taken sp !! a = Some l ->
     taken (space st) !! a = Some l \/ (a = m_iova m /\ l = m_len m /\ is_open (m_state m))) ->
  books_ok A (<[d := set_space sp st]> ds) (<[next := m]> ms) (next + 1).
Proof.
  intros Hb Hd Hdom Hid Hlen Hlo Htop Hp Hptop Hroom Hsp Hhead Hheld Hsub Hq Hused.
  assert (forall id m', ms !! id = Some m' -> m_domain m' = d -> m_state m' <> Released -> apart m m') as Hnew.
  { intros id m' Hm' Hd' Hst'. destruct (bk_range _ _ _ _ Hb id m' Hm') as (Hl' & Hlo' & _).
    destruct (decide (apart m m')) as [Ha | Hna]; [done | exfalso].
    assert (exists x, m_iova m <= x < m_iova m + m_len m /\ m_iova m' <= x < m_iova m' + m_len m') as (x & Hx & Hx').
    { exists (Z.max (m_iova m) (m_iova m')). unfold apart in Hna. lia. }
    destruct Hroom as (_ & _ & Hfree). rewrite sat_add64_small in Hfree by lia. apply (Hfree x Hx).
    eapply booked_occupied; eauto. by rewrite Hd'. }
  destruct Hb as [Hi Hrg Hspace Hh Hu Hap]. split.
  - intros id m' [[<- <-] | [Hne Hm']]%lookup_insert_Some; [lia |]. destruct (Hi id m' Hm'). split; [done | lia].
  - intros id m' [[<- <-] | [Hne Hm']]%lookup_insert_Some; [done | by eapply Hrg].
  - intros d' st' [[<- <-] | [Hne Hst']]%lookup_insert_Some; [done | by eapply Hspace].
  - intros id m' st' [[<- <-] | [Hne Hm']]%lookup_insert_Some.
    + rewrite Hdom, lookup_insert_eq. intros [= <-]. done.
    + intros [[Heq <-] | [Hne' Hst']]%lookup_insert_Some; [| by eapply Hh].
      rewrite Heq in Hd. destruct (Hh id m' st Hm' Hd) as [Ho Hqq]. split; simpl; [| auto].
      intros Hop. eapply lookup_weaken; eauto.
  - intros d' st' a l [[<- <-] | [Hne Hst']]%lookup_insert_Some Ha; simpl in *.
    + destruct (Hused a l Ha) as [Hold | (-> & -> & Hop)].
      * destruct (Hu d st a l Hd Hold) as (id & m' & Hm' & ?). exists id, m'. split; [| done].
        rewrite lookup_insert_ne; [done |]. destruct (Hi id m' Hm'). lia.
      * exists next, m. rewrite lookup_insert_eq. done.
    + destruct (Hu d' st' a l Hst' Ha) as (id & m' & Hm' & ?). exists id, m'. split; [| done].
      rewrite lookup_insert_ne; [done |]. destruct (Hi id m' Hm'). lia.
  - assert (forall x, is_Some (<[d := set_space sp st]> ds !! x) -> is_Some (ds !! x)) as Hdm.
    { intros x. destruct (decide (x = d)) as [-> | Hne]; [rewrite Hd; eauto | by rewrite lookup_insert_ne]. }
    intros i j m1 m2 [[<- <-] | [Hne1 H1]]%lookup_insert_Some [[<- <-] | [Hne2 H2]]%lookup_insert_Some Hij Hsame Hin Hs1 Hs2.
    + done.
    + eapply Hnew; [exact H2 | congruence | done].
    + assert (apart m m1) as Hx by (eapply Hnew; [exact H1 | congruence | done]). unfold apart in *. lia.
    + eapply (Hap i j); eauto.
Qed.

(** An open row settles: its range leaves [taken]. *)
Lemma books_settle ds ms next d st sp id m x :
  books_ok A ds ms next -> ds !! d = Some st -> ms !! id = Some m -> m_domain m = d -> is_open (m_state m) ->
  x = Released \/ x = Quarantined ->
  space_ok sp -> headroom sp A -> held_in sp (set_m_state x m) ->
  taken sp = delete (m_iova m) (taken (space st)) -> (forall r, r ∈ quarantined (space st) -> r ∈ quarantined sp) ->
  books_ok A (<[d := set_space sp st]> ds) (<[id := set_m_state x m]> ms) next.
Proof.
  intros Hb Hd Hm Hdom Hopen Hx Hsp Hhead Hheld Htk Hq.
  assert (forall j m', ms !! j = Some m' -> j <> id -> m_domain m' = d -> m_state m' <> Released -> m_iova m' <> m_iova m) as Hne.
  { intros j m' Hm' Hj Hd' Hst'. destruct (bk_range _ _ _ _ Hb id m Hm) as (? & _).
    destruct (bk_range _ _ _ _ Hb j m' Hm') as (? & _).
    assert (apart m' m) as Ha; [| unfold apart in Ha; lia]. apply (bk_apart _ _ _ _ Hb j id m' m); try done.
    - congruence.
    - rewrite Hd'. eauto.
    - destruct Hopen as [-> | ->]; done. }
  destruct Hb as [Hi Hrg Hspace Hh Hu Hap]. split.
  - intros id' m' [[<- <-] | [Hn Hm']]%lookup_insert_Some; [by apply (Hi id m) | by apply Hi].
  - intros id' m' [[<- <-] | [Hn Hm']]%lookup_insert_Some; [by apply (Hrg id m) | by eapply Hrg].
  - intros d' st' [[<- <-] | [Hn Hst']]%lookup_insert_Some; [done | by eapply Hspace].
  - intros id' m' st' [[<- <-] | [Hn Hm']]%lookup_insert_Some.
    + simpl. rewrite Hdom, lookup_insert_eq. intros [= <-]. done.
    + intros [[Heq <-] | [Hn' Hst']]%lookup_insert_Some; [| by eapply Hh].
      rewrite Heq in Hd. destruct (Hh id' m' st Hm' Hd) as [Ho Hqq]. split; simpl; [| auto].
      intros Hop. rewrite Htk, lookup_delete_ne; [auto |]. apply not_eq_sym, (Hne id'); [done | done | done |].
      destruct Hop as [-> | ->]; done.
  - intros d' st' a l [[<- <-] | [Hn Hst']]%lookup_insert_Some Ha; simpl in *.
    + rewrite Htk in Ha. apply lookup_delete_Some in Ha as [Hna Ha].
      destruct (Hu d st a l Hd Ha) as (j & m' & Hm' & Hd' & Ha' & ?). exists j, m'. split; [| done].
      rewrite lookup_insert_ne; [done |]. intros <-. congruence.
    + destruct (Hu d' st' a l Hst' Ha) as (j & m' & Hm' & Hd' & ?). exists j, m'. split; [| done].
      rewrite lookup_insert_ne; [done |]. intros <-. congruence.
  - assert (forall x, is_Some (<[d := set_space sp st]> ds !! x) -> is_Some (ds !! x)) as Hdm.
    { intros y. destruct (decide (y = d)) as [-> | Hn]; [rewrite Hd; eauto | by rewrite lookup_insert_ne]. }
    assert (m_state m <> Released) as Hmr by (destruct Hopen as [-> | ->]; done).
    intros i j m1 m2 [[<- <-] | [Hn1 H1]]%lookup_insert_Some [[<- <-] | [Hn2 H2]]%lookup_insert_Some Hij Hsame Hin Hs1 Hs2.
    + done.
    + apply (Hap id j m m2); eauto.
    + apply (Hap i id m1 m); eauto.
    + eapply (Hap i j); eauto.
Qed.

(** A row that keeps its range and stays open, or keeps its state. *)
Lemma books_touch ds ms next id m m' :
  books_ok A ds ms next -> ms !! id = Some m -> row_of m' = row_of m -> m_id m' = m_id m ->
  (is_open (m_state m) /\ is_open (m_state m')) \/ m_state m' = m_state m ->
  books_ok A ds (<[id := m']> ms) next.
Proof.
  intros Hb Hm Hrow Hmid Hst. injection Hrow as Hdom Hio Hph Hln Hdir.
  assert (forall st, held_in st m -> held_in st m') as Hheld.
  { intros sp [Ho Hq]. unfold held_in. rewrite Hio, Hln. split; intros Hs.
    - apply Ho. destruct Hst as [[? _] | <-]; done.
    - apply Hq. destruct Hst as [[_ [? | ?]] | <-]; congruence. }
  assert (m_state m' <> Released -> m_state m <> Released) as Hrel.
  { destruct Hst as [[[-> | ->] _] | ->]; done. }
  destruct Hb as [Hi Hrg Hspace Hh Hu Hap]. split; [| | done | | |].
  - intros i m1 [[<- <-] | [Hn H1]]%lookup_insert_Some; [rewrite Hmid; by apply Hi | by apply Hi].
  - intros i m1 [[<- <-] | [Hn H1]]%lookup_insert_Some; [rewrite Hio, Hph, Hln; by apply (Hrg id) | by eapply Hrg].
  - intros i m1 st [[<- <-] | [Hn H1]]%lookup_insert_Some Hd; [| by eapply Hh].
    apply Hheld. rewrite Hdom in Hd. by eapply Hh.
  - intros d st a l Hd Ha. destruct (Hu d st a l Hd Ha) as (i & m1 & H1 & H2 & H3 & H4 & H5).
    destruct (decide (i = id)) as [-> | Hn]; [| exists i, m1; by rewrite lookup_insert_ne].
    exists id, m'. rewrite lookup_insert_eq. replace m1 with m in * by congruence.
    rewrite Hdom, Hio, Hln. split; [done |]. split; [done |]. split; [done |]. split; [done |].
    destruct Hst as [[_ ?] | ->]; done.
  - intros i j m1 m2 [[<- <-] | [Hn1 H1]]%lookup_insert_Some [[<- <-] | [Hn2 H2]]%lookup_insert_Some Hij Hsame Hin Hs1 Hs2.
    + done.
    + unfold apart. rewrite Hio, Hln. rewrite Hdom in *. apply (Hap id j m m2); auto.
    + unfold apart. rewrite Hio, Hln. rewrite Hdom in *. apply (Hap i id m1 m); auto.
    + by eapply (Hap i j).
Qed.

(** A released row is forgotten. *)
Lemma books_drop ds ms next id m :
  books_ok A ds ms next -> ms !! id = Some m -> m_state m = Released -> books_ok A ds (delete id ms) next.
Proof.
  intros [Hi Hrg Hspace Hh Hu Hap] Hm Hst. split.
  - intros i m1 [_ H1]%lookup_delete_Some. by apply Hi.
  - intros i m1 [_ H1]%lookup_delete_Some. by eapply Hrg.
  - done.
  - intros i m1 st [_ H1]%lookup_delete_Some. by eapply Hh.
  - intros d st a l Hd Ha. destruct (Hu d st a l Hd Ha) as (i & m1 & H1 & H2 & H3 & H4 & H5).
    exists i, m1. split; [| done]. rewrite lookup_delete_ne; [done |]. intros <-.
    replace m1 with m in H5 by congruence. rewrite Hst in H5. by destruct H5.
  - intros i j m1 m2 [_ H1]%lookup_delete_Some [_ H2]%lookup_delete_Some. by eapply Hap.
Qed.

(** A domain goes, with rows of its own. *)
Lemma books_retire ds ms ms' next d :
  books_ok A ds ms next -> ms' ⊆ ms -> (forall id m, ms !! id = Some m -> m_domain m <> d -> ms' !! id = Some m) ->
  books_ok A (delete d ds) ms' next.
Proof.
  intros [Hi Hrg Hspace Hh Hu Hap] Hsub Hkeep.
  assert (forall id m, ms' !! id = Some m -> ms !! id = Some m) as Hw by (intros; by eapply lookup_weaken).
  split; eauto.
  - intros d' st [_ Hd]%lookup_delete_Some. by eapply Hspace.
  - intros id m st Hm [_ Hd]%lookup_delete_Some. eauto.
  - intros d' st a l [Hne Hd]%lookup_delete_Some Ha. destruct (Hu d' st a l Hd Ha) as (i & m & Hm & H2 & ?).
    exists i, m. split; [apply Hkeep; [done | congruence] | done].
  - intros i j m1 m2 H1 H2 Hij Hsame [st Hin]. apply lookup_delete_Some in Hin as [_ Hin]. eapply (Hap i j); eauto.
Qed.

(** A new domain no row names yet. *)
Lemma books_create ds ms next d st :
  books_ok A ds ms next -> (forall id m, ms !! id = Some m -> m_domain m <> d) ->
  space_ok (space st) -> headroom (space st) A -> taken (space st) = ∅ ->
  books_ok A (<[d := st]> ds) ms next.
Proof.
  intros [Hi Hrg Hspace Hh Hu Hap] Hno Hsp Hhead Htk. split; [done | done | | | |].
  - intros d' st' [[<- <-] | [Hn Hd]]%lookup_insert_Some; [done | by eapply Hspace].
  - intros id m st' Hm [[Heq <-] | [Hn Hd]]%lookup_insert_Some; [by destruct (Hno id m Hm) | by eapply Hh].
  - intros d' st' a l [[<- <-] | [Hn Hd]]%lookup_insert_Some Ha; [by rewrite Htk, lookup_empty in Ha | by eapply Hu].
  - intros i j m1 m2 H1 H2 Hij Hsame Hin. apply (Hap i j m1 m2 H1 H2 Hij Hsame).
    rewrite lookup_insert_ne in Hin; [done |]. apply not_eq_sym. by eapply Hno.
Qed.

End books.

Section ledger.
Context {B : Type} `{Hardware B} (A : Z).
Implicit Types s : Iommu B.

(** Hardware that moves on its own, or is asked to take something away. *)
Lemma inv_evolves s b' : iommu_inv A s -> evolves (backend s) b' -> iommu_inv A (Iommu.set_backend b' s).
Proof.
  intros [Hw Hb Hbk Ha Hs Hd Hr] E. pose proof E as [EO EA EI EC EK].
  assert (forall r, hw_installed b' r \/ hw_cached b' r -> hw_installed (backend s) r \/ hw_cached (backend s) r) as Hsub.
  { intros r [?%EI | Hc]; [auto | destruct (EC r Hc); auto]. }
  split; simpl; [auto | done | | | | |]; eauto.
Qed.

(** The parts of the state the invariant does not read. *)
Lemma inv_frame s s' :
  iommu_inv A s -> backend s' = backend s -> domains s' = domains s -> mappings s' = mappings s ->
  next_mapping s' = next_mapping s -> iommu_inv A s'.
Proof.
  intros [Hw Hb Hbk Ha Hs Hd Hr] E1 E2 E3 E4. split; unfold booked in *; rewrite ?E1, ?E2, ?E3, ?E4; auto.
Qed.

(** Endpoints, generations and fault counts of a domain are not on these books. *)
Lemma books_domain ds ms next d st st' :
  books_ok A ds ms next -> ds !! d = Some st -> space st' = space st -> books_ok A (<[d := st']> ds) ms next.
Proof.
  intros [Hi Hrg Hsp Hh Hu Hap] Hd Hs. split; [done | done | | | |].
  - intros d' st1 [[<- <-] | [Hne H1]]%lookup_insert_Some; [rewrite Hs; by apply (Hsp d) | by apply (Hsp d')].
  - intros id m st1 Hm [[-> <-] | [Hne H1]]%lookup_insert_Some; [rewrite Hs; by eapply (Hh id) | by eapply Hh].
  - intros d' st1 a l [[<- <-] | [Hne H1]]%lookup_insert_Some; [rewrite Hs; by eapply (Hu d) | by eapply Hu].
  - intros i j m1 m2 H1 H2 Hij Hdom Hin. apply (Hap i j m1 m2 H1 H2 Hij Hdom).
    destruct (decide (m_domain m1 = d)) as [-> | Hne]; [eauto | by rewrite lookup_insert_ne in Hin].
Qed.

Lemma inv_put_domain s d st st' :
  iommu_inv A s -> domains s !! d = Some st -> space st' = space st ->
  iommu_inv A (Iommu.set_domains (<[d := st']> (domains s)) s).
Proof.
  intros [Hw Hb Hbk Ha Hs Hd Hr] Hst Hsp.
  assert (forall d', is_Some (<[d := st']> (domains s) !! d') <-> is_Some (domains s !! d')) as Hdom.
  { intros d'. destruct (decide (d' = d)) as [-> |]; [rewrite lookup_insert_eq, Hst; split; eauto | by rewrite lookup_insert_ne]. }
  split; simpl; [done | by eapply books_domain | | | done | |].
  - intros r Hin. apply Hbk. by apply Hdom.
  - intros e d' Hat. apply Hdom. eauto.
  - intros d' Hin. apply Hd. by apply Hdom.
  - done.
Qed.

End ledger.

(** ** Changes to the books and the hardware together *)

Section together.
Context {B : Type} `{Hardware B} (A : Z).
Implicit Types s : Iommu B.

(** A row the backend was asked to install, and that is on the books now. *)
Lemma inv_add s s' d st sp m :
  iommu_inv A s -> domains s !! d = Some st -> m_domain m = d -> m_state m <> Released ->
  books_ok A (<[d := set_space sp st]> (domains s)) (<[next_mapping s := m]> (mappings s)) (next_mapping s + 1) ->
  domains s' = <[d := set_space sp st]> (domains s) ->
  mappings s' = <[next_mapping s := m]> (mappings s) -> next_mapping s' = next_mapping s + 1 -> hw_ok (backend s') ->
  (forall e d, hw_attached (backend s') e d -> hw_attached (backend s) e d) ->
  (forall x, hw_installed (backend s') x -> hw_installed (backend s) x \/ x = row_of m) ->
  (forall x, hw_cached (backend s') x -> hw_cached (backend s) x \/ hw_installed (backend s) x \/ hw_installed (backend s') x) ->
  (forall d, hw_known (backend s) d -> hw_known (backend s') d) ->
  iommu_inv A s'.
Proof.
  intros [Hw Hb Hbk Ha Hs Hd Hr] Hst Hdom Hrel Hbooks E2 E3 E4 LO LA LI LC LK.
  assert (forall x, is_Some (domains s' !! x) <-> is_Some (domains s !! x)) as Hdm.
  { intros x. rewrite E2. destruct (decide (x = d)) as [-> | Hn]; [rewrite lookup_insert_eq, Hst; split; eauto | by rewrite lookup_insert_ne]. }
  assert (forall x, hw_installed (backend s') x \/ hw_cached (backend s') x ->
            (hw_installed (backend s) x \/ hw_cached (backend s) x) \/ x = row_of m) as Hsub.
  { intros x [Hx | Hx]; [destruct (LI x Hx); auto |]. destruct (LC x Hx) as [? | [? | Hx']]; [auto | auto |]. destruct (LI x Hx'); auto. }
  split; [done | by rewrite E2, E3, E4 | | | | |].
  - intros r Hin Hx. destruct (Hsub r Hx) as [Hold | ->].
    + destruct (Hbk r ltac:(by apply Hdm) Hold) as (id & m' & Hm' & Hrow & Hst'). exists id, m'. split; [| done].
      rewrite E3, lookup_insert_ne; [done |]. destruct (bk_id _ _ _ _ Hb id m' Hm'). lia.
    + exists (next_mapping s), m. by rewrite E3, lookup_insert_eq.
  - intros e d' Hat. apply Hdm. eauto.
  - intros r Hx. destruct (Hsub r Hx) as [Hold | ->]; [auto |]. simpl. rewrite Hdom. eauto.
  - intros d' Hin. apply LK, Hd. by apply Hdm.
  - intros id m'. rewrite E3. intros [[<- <-] | [Hn Hm']]%lookup_insert_Some; [rewrite Hdom |]; eauto.
Qed.

(** An open row settles. Released, it must be gone from the hardware. *)
Lemma inv_settle s s' d st sp id m x :
  iommu_inv A s -> domains s !! d = Some st -> mappings s !! id = Some m -> m_domain m = d ->
  (x = Released -> ~ hw_installed (backend s) (row_of m) /\ ~ hw_cached (backend s) (row_of m)) ->
  books_ok A (<[d := set_space sp st]> (domains s)) (<[id := set_m_state x m]> (mappings s)) (next_mapping s) ->
  backend s' = backend s -> domains s' = <[d := set_space sp st]> (domains s) ->
  mappings s' = <[id := set_m_state x m]> (mappings s) -> next_mapping s' = next_mapping s ->
  iommu_inv A s'.
Proof.
  intros [Hw Hb Hbk Ha Hs Hd Hr] Hst Hm Hdom Hgone Hbooks E1 E2 E3 E4.
  assert (forall x, is_Some (domains s' !! x) <-> is_Some (domains s !! x)) as Hdm.
  { intros y. rewrite E2. destruct (decide (y = d)) as [-> | Hn]; [rewrite lookup_insert_eq, Hst; split; eauto | by rewrite lookup_insert_ne]. }
  split; [by rewrite E1 | by rewrite E2, E3, E4 | | | | |]; rewrite ?E1.
  - intros r Hin Hx. destruct (Hbk r ltac:(by apply Hdm) Hx) as (j & m' & Hm' & Hrow & Hst').
    destruct (decide (j = id)) as [-> | Hn].
    + exists id, (set_m_state x m). rewrite E3, lookup_insert_eq. replace m' with m in * by congruence.
      split; [done |]. split; [done |]. simpl. intros ->. subst r. destruct (Hgone eq_refl). tauto.
    + exists j, m'. by rewrite E3, lookup_insert_ne.
  - intros e d' Hat. apply Hdm. eauto.
  - done.
  - intros d' Hin. apply Hd. by apply Hdm.
  - intros j m'. rewrite E3. intros [[<- <-] | [Hn Hm']]%lookup_insert_Some; [apply (Hr id m Hm) | eauto].
Qed.

(** A row changes without moving. *)
Lemma inv_touch s s' id m m' :
  iommu_inv A s -> mappings s !! id = Some m -> row_of m' = row_of m -> m_id m' = m_id m ->
  (is_open (m_state m) /\ is_open (m_state m')) \/ m_state m' = m_state m ->
  backend s' = backend s -> domains s' = domains s ->
  mappings s' = <[id := m']> (mappings s) -> next_mapping s' = next_mapping s ->
  iommu_inv A s'.
Proof.
  intros [Hw Hb Hbk Ha Hs Hd Hr] Hm Hrow Hid Hst E1 E2 E3 E4.
  split; rewrite ?E1, ?E2; [done | rewrite E3, E4; by eapply books_touch | | done | done | done |].
  - intros r Hin Hx. destruct (Hbk r Hin Hx) as (j & m1 & H1 & Hr1 & Hs1).
    destruct (decide (j = id)) as [-> | Hn]; [| exists j, m1; by rewrite E3, lookup_insert_ne].
    exists id, m'. rewrite E3, lookup_insert_eq. replace m1 with m in * by congruence.
    split; [done |]. split; [congruence |]. destruct Hst as [[_ [-> | ->]] | ->]; done.
  - intros j m1. rewrite E3. intros [[<- <-] | [Hn Hm1]]%lookup_insert_Some; [| eauto].
    injection Hrow as -> _. eauto.
Qed.

(** A released row is forgotten. *)
Lemma inv_drop s s' id m :
  iommu_inv A s -> mappings s !! id = Some m -> m_state m = Released ->
  backend s' = backend s -> domains s' = domains s ->
  mappings s' = delete id (mappings s) -> next_mapping s' = next_mapping s -> iommu_inv A s'.
Proof.
  intros [Hw Hb Hbk Ha Hs Hd Hr] Hm Hst E1 E2 E3 E4.
  split; rewrite ?E1, ?E2; [done | rewrite E3, E4; by eapply books_drop | | done | done | done |].
  - intros r Hin Hx. destruct (Hbk r Hin Hx) as (j & m1 & H1 & Hr1 & Hs1). exists j, m1.
    rewrite E3, lookup_delete_ne; [done |]. intros <-. congruence.
  - intros j m1. rewrite E3. intros [_ Hm1]%lookup_delete_Some. eauto.
Qed.

(** A domain no endpoint is attached to goes, with rows of its own. *)
Lemma inv_retire s s' d :
  iommu_inv A s -> evolves (backend s) (backend s') -> (forall e, ~ hw_attached (backend s') e d) ->
  mappings s' ⊆ mappings s ->
  (forall id m, mappings s !! id = Some m -> m_domain m <> d -> mappings s' !! id = Some m) ->
  domains s' = delete d (domains s) -> next_mapping s' = next_mapping s -> iommu_inv A s'.
Proof.
  intros [Hw Hb Hbk Ha Hs Hd Hr] [EO EA EI EC EK] Hnone Hsub Hkeep E2 E4.
  assert (forall x, hw_installed (backend s') x \/ hw_cached (backend s') x -> hw_installed (backend s) x \/ hw_cached (backend s) x) as Hx.
  { intros x [?%EI | Hc]; [auto | destruct (EC x Hc); auto]. }
  split; rewrite ?E2.
  - auto.
  - rewrite E4. by eapply books_retire.
  - intros r [st Hin] Hr'. apply lookup_delete_Some in Hin as [Hne Hin].
    destruct (Hbk r ltac:(eauto) (Hx r Hr')) as (j & m & Hm & Hrow & Hst). exists j, m.
    split; [apply Hkeep; [done |] | done]. subst r. simpl in *. congruence.
  - intros e d' Hat. destruct (decide (d' = d)) as [-> | Hne]; [by destruct (Hnone e) |].
    rewrite lookup_delete_ne by done. eauto.
  - eauto.
  - intros d' [st Hin]. apply lookup_delete_Some in Hin as [_ Hin]. eauto.
  - intros id m Hm. eapply EK, Hr, lookup_weaken; eauto.
Qed.

(** A domain id the backend had not handed out before. *)
Lemma inv_create s s' d st :
  iommu_inv A s -> evolves (backend s) (backend s') -> ~ hw_known (backend s) d -> hw_known (backend s') d ->
  space_ok (space st) -> headroom (space st) A -> taken (space st) = ∅ ->
  domains s' = <[d := st]> (domains s) -> mappings s' = mappings s -> next_mapping s' = next_mapping s ->
  iommu_inv A s'.
Proof.
  intros [Hw Hb Hbk Ha Hs Hd Hr] [EO EA EI EC EK] Hnew Hknown Hsp Hhead Htk E2 E3 E4.
  assert (forall x, hw_installed (backend s') x \/ hw_cached (backend s') x -> hw_installed (backend s) x \/ hw_cached (backend s) x) as Hx.
  { intros x [?%EI | Hc]; [auto | destruct (EC x Hc); auto]. }
  split; unfold booked; rewrite ?E2, ?E3.
  - auto.
  - rewrite E4. apply books_create; try done. intros id m Hm Heq. apply Hnew. rewrite <- Heq. eauto.
  - intros r Hin Hr'. assert (row_domain r <> d) as Hne by (intros Heq; apply Hnew; rewrite <- Heq; by apply Hs, Hx).
    rewrite lookup_insert_ne in Hin by done. exact (Hbk r Hin (Hx r Hr')).
  - intros e d' Hat. destruct (decide (d' = d)) as [-> | Hne]; [rewrite lookup_insert_eq; eauto |].
    rewrite lookup_insert_ne by done. eauto.
  - eauto.
  - intros d' Hin. destruct (decide (d' = d)) as [-> | Hne]; [done |]. rewrite lookup_insert_ne in Hin by done. eauto.
  - eauto.
Qed.

(** An endpoint the backend was asked to attach to a domain of the books. *)
Lemma inv_attach s s' d e st st' :
  iommu_inv A s -> domains s !! d = Some st -> space st' = space st -> hw_ok (backend s') ->
  (forall e' d', hw_attached (backend s') e' d' -> hw_attached (backend s) e' d' \/ e' = e /\ d' = d) ->
  (forall x, hw_installed (backend s') x -> hw_installed (backend s) x) ->
  (forall x, hw_cached (backend s') x -> hw_cached (backend s) x \/ hw_installed (backend s) x) ->
  (forall d, hw_known (backend s) d -> hw_known (backend s') d) ->
  domains s' = <[d := st']> (domains s) -> mappings s' = mappings s -> next_mapping s' = next_mapping s ->
  iommu_inv A s'.
Proof.
  intros Hinv Hst Hsp LO LA LI LC LK E2 E3 E4. pose proof (inv_put_domain A s d st st' Hinv Hst Hsp) as [Hw Hb Hbk Ha Hs Hd Hr].
  simpl in *. assert (forall x, hw_installed (backend s') x \/ hw_cached (backend s') x -> hw_installed (backend s) x \/ hw_cached (backend s) x) as Hx.
  { intros x [?%LI | Hc]; [auto | destruct (LC x Hc); auto]. }
  split; unfold booked in *; simpl in *; rewrite ?E2, ?E3, ?E4; eauto.
  intros e' d' Hat. destruct (LA e' d' Hat) as [? | [_ ->]]; [eauto |]. rewrite lookup_insert_eq. eauto.
Qed.

End together.
