(* ===== verification/DmaOps.v ===== *)
(** The operations of the IOMMU manager: each returns, keeps the ledger and the
    hardware in step, and answers that frames are reusable only when they are. *)

From S2P Require Import Prelude Dma DmaIova DmaReach.
Import Iommu.

(** ** Stepping through an operation *)

Section rules.
Context {B : Type} `{Backend B}.
Implicit Types s : Iommu B.

Lemma wp_be {X} (f : B -> X * B) (Q : X -> Iommu B -> Prop) s :
  (forall x b, f (backend s) = (x, b) -> Q x (set_backend b s)) -> wp (be f) Q s.
Proof. intros HQ. unfold wp, be. destruct (f (backend s)) as [x b] eqn:E. by apply HQ. Qed.

Lemma wp_try {T X Y} (m : M T (result X Fault)) (f : X -> M T (result Y Fault)) Q t :
  wp m (fun r t' => match r with Ok x => wp (f x) Q t' | Err e => Q (Err e) t' end) t -> wp (try_bind m f) Q t.
Proof.
  intros Hm. apply wp_bind. eapply wp_mono; [exact Hm |]. intros [x | e] t' Hr; [done | by apply wp_ret].
Qed.

Lemma wp_get_domain d (Q : result DomainState Fault -> Iommu B -> Prop) s :
  (forall st, domains s !! d = Some st -> Q (Ok st) s) -> (domains s !! d = None -> Q (Err UnknownEndpoint) s) ->
  wp (get_domain d) Q s.
Proof. intros H1 H2. apply wp_gets. destruct (domains s !! d) as [st |]; auto. Qed.

Lemma wp_get_mapping id (Q : result Mapping Fault -> Iommu B -> Prop) s :
  (forall m, mappings s !! id = Some m -> Q (Ok m) s) -> (mappings s !! id = None -> Q (Err NotMapped) s) ->
  wp (get_mapping id) Q s.
Proof. intros H1 H2. apply wp_gets. destruct (mappings s !! id) as [m |]; auto. Qed.

(** A lookup the caller knows to succeed. *)
Lemma wp_expect_domain {Y} d st (f : DomainState -> M (Iommu B) Y) Q s :
  domains s !! d = Some st -> wp (f st) Q s -> wp (r ← get_domain d; x ← expect r; f x) Q s.
Proof. intros Hd Hf. apply wp_bind, wp_gets. rewrite Hd. by apply wp_bind, wp_ret. Qed.

Lemma wp_expect_mapping {Y} id m (f : Mapping -> M (Iommu B) Y) Q s :
  mappings s !! id = Some m -> wp (f m) Q s -> wp (r ← get_mapping id; x ← expect r; f x) Q s.
Proof. intros Hd Hf. apply wp_bind, wp_gets. rewrite Hd. by apply wp_bind, wp_ret. Qed.

Lemma wp_fresh_id (Q : Z -> Iommu B -> Prop) s :
  next_mapping s + 1 <= U64_MAX -> Q (next_mapping s) (set_next_mapping (next_mapping s + 1) s) -> wp fresh_id Q s.
Proof.
  intros Hle HQ. unfold fresh_id. wp_steps. apply wp_assert_some with (next_mapping s + 1).
  - unfold incr64, checked_add. destruct (Z.leb_spec (next_mapping s + 1) U64_MAX); [done | lia].
  - by wp_steps.
Qed.

End rules.

(** ** The budget of the counters

    [n] more mappings and fault records fit the 64-bit counters, and the log keeps
    its bound. *)
Definition budget {B} (n : Z) (s : Iommu B) : Prop :=
  next_mapping s + n <= U64_MAX /\ total (fault_log s) + n <= U64_MAX /\
  0 <= dropped (fault_log s) <= total (fault_log s) /\ (length (recent (fault_log s)) <= log_capacity (fault_log s))%nat.

Lemma budget_less {B} n n' (s : Iommu B) : budget n s -> n' <= n -> budget n' s.
Proof. unfold budget. lia. Qed.

(** The state between two calls. *)
Definition good {B} `{Hardware B} (A n : Z) (s : Iommu B) : Prop := iommu_inv A s /\ budget n s.

(** What a request to map must be like: a range that fits the address space. *)
Definition span_ok (physical len : Z) : Prop := 0 <= physical /\ 0 <= len /\ physical + len <= TWO64.

Lemma set_space_id (st : DomainState) : set_space (space st) st = st.
Proof. by destruct st. Qed.

Lemma set_taken_undo sp a len : taken sp !! a = None -> set_taken (delete a (<[a := len]> (taken sp))) sp = sp.
Proof. intros Ha. rewrite delete_insert_id by done. by destruct sp. Qed.

(** A space with one more range. *)
Definition add_range (iova len : Z) (sp : IovaSpace) : IovaSpace := set_taken (<[iova := len]> (taken sp)) sp.

Section map.
Context {B : Type} `{BackendLaws B} (A : Z).

(** The state in the middle of a map: the range is taken and no row says so yet. *)
Definition with_taken (s : Iommu B) d st iova len : Iommu B :=
  set_domains (<[d := set_space (add_range iova len (space st)) st]> (domains s)) s.

Context (s : Iommu B) (d : Z) (st : DomainState) (iova physical len : Z).
Context (Hinv : iommu_inv A s) (Hd : domains s !! d = Some st).
Context (Hspan : span_ok physical len) (Hlen : 0 < len) (Hbase : sp_base (space st) <= iova).

Lemma map_space : space_ok (space st) /\ headroom (space st) A.
Proof. by apply (bk_space _ _ _ _ (inv_books _ _ Hinv) d). Qed.

Lemma with_taken_lookup : domains (with_taken s d st iova len) !! d = Some (set_space (add_range iova len (space st)) st).
Proof. by apply lookup_insert_eq. Qed.

Context (Huntaken : taken (space st) !! iova = None).

(** Undoing the reservation gives the state before. *)
Lemma release_reserved : IovaSpace.release iova (add_range iova len (space st)) = (Ok tt, space st).
Proof.
  unfold IovaSpace.release, add_range. simpl. rewrite lookup_insert_eq. f_equal.
  by apply (set_taken_undo (space st) iova len).
Qed.

Lemma domains_undo :
  <[d := set_space (space st) (set_space (add_range iova len (space st)) st)]>
    (<[d := set_space (add_range iova len (space st)) st]> (domains s)) = domains s.
Proof.
  rewrite insert_insert_eq. replace (set_space (space st) (set_space _ st)) with st by (by destruct st).
  by apply insert_id.
Qed.

Context (Htop : iova + len <= U64_MAX) (Hroom : room_at (space st) len iova).

Lemma map_known : hw_known (backend s) d.
Proof. apply (inv_domains _ _ Hinv). eauto. Qed.

Lemma map_range : range_ok iova len.
Proof. destruct map_space as [Hsp _]. destruct (ok_base _ Hsp). unfold range_ok. lia. Qed.

Lemma map_physical : u64_range physical.
Proof. destruct Hspan as (? & ? & ?). unfold u64_range. lia. Qed.

Lemma add_range_ok : space_ok (add_range iova len (space st)).
Proof. apply space_insert_ok; [apply map_space | done..]. Qed.

Lemma quarantine_reserved :
  IovaSpace.quarantine iova (add_range iova len (space st)) =
    (Ok tt, set_quarantined (quarantined (space st) ++ [mkReserved iova len]) (space st)).
Proof.
  unfold IovaSpace.quarantine, add_range. simpl. rewrite lookup_insert_eq. f_equal.
  unfold set_quarantined, set_taken. simpl. by rewrite delete_insert_id.
Qed.

(** A new row in [sp], which is the space with the range taken or quarantined. *)
Lemma books_new_row m sp :
  m_domain m = d -> m_id m = next_mapping s -> m_iova m = iova -> m_len m = len -> m_physical m = physical ->
  (m_state m = Live /\ sp = add_range iova len (space st)) \/
  (m_state m = Quarantined /\ sp = set_quarantined (quarantined (space st) ++ [mkReserved iova len]) (space st)) ->
  books_ok A (<[d := set_space sp st]> (domains s)) (<[next_mapping s := m]> (mappings s)) (next_mapping s + 1).
Proof.
  intros Edom Eid Eiova Elen Ephys Hcase. destruct map_space as [Hsp Hhead]. destruct (ok_base _ Hsp). destruct Hspan as (? & ? & ?).
  pose proof add_range_ok as Hadd.
  apply books_add; rewrite ?Eiova, ?Elen, ?Ephys; try done; try lia; [apply Hinv | ..];
    destruct Hcase as [[Hst ->] | [Hst ->]]; unfold held_in; rewrite ?Eiova, ?Elen, ?Hst; simpl.
  - done.
  - pose proof (space_quarantine_ok _ iova len Hadd ltac:(by apply lookup_insert_eq)) as Hq.
    unfold set_quarantined, set_taken in *. simpl in Hq. by rewrite delete_insert_id in Hq.
  - by apply headroom_taken.
  - pose proof (headroom_quarantine _ (taken (space st)) iova len A Hadd ltac:(by apply headroom_taken) ltac:(by apply lookup_insert_eq)) as Hq.
    by unfold set_quarantined, set_taken in *.
  - split; [intros _; by apply lookup_insert_eq | done].
  - split; [intros [? | ?]; done |]. intros _. set_solver.
  - by apply insert_subseteq.
  - done.
  - auto.
  - set_solver.
  - intros a l [[<- <-] | [_ ?]]%lookup_insert_Some; [right | left; done]. split; [done |]. split; [done |]. by left.
  - auto.
Qed.

Lemma wp_install_row dir gen (Q : result Z Fault -> Iommu B -> Prop) :
  next_mapping s + 1 <= U64_MAX ->
  (forall r s', iommu_inv A s' -> next_mapping s' <= next_mapping s + 1 -> fault_log s' = fault_log s ->
     match r with
     | Ok id => mappings s' !! id = Some (mkMapping id d iova physical len dir gen Live false)
     | Err Unconfirmed => True
     | Err _ => domains s' = domains s /\ mappings s' = mappings s
     end -> Q r s') ->
  wp (install d iova physical len dir gen) Q (with_taken s d st iova len).
Proof.
  intros Hnext HQ. unfold install. apply wp_bind, wp_be. intros r b Hmap.
  destruct (law_map _ _ _ _ _ _ _ _ (inv_hw _ _ Hinv) map_known map_range map_physical Hmap) as (LO & LA & LI & LC & LK).
  destruct r as [[] | reason].
  - apply wp_bind, wp_fresh_id; [done |]. unfold put_mapping. wp_steps. apply HQ; simpl; [| lia | done | by apply lookup_insert_eq].
    eapply (inv_add A s _ d st (add_range iova len (space st))
      (mkMapping (next_mapping s) d iova physical len dir gen Live false)); try done.
    + apply books_new_row; try done. by left.
    + intros x Hx. destruct (LI x Hx) as [? | [-> _]]; auto.
  - apply wp_bind. unfold map_failed. case_bool_decide as Hun.
    + subst reason. eapply wp_expect_domain; [apply with_taken_lookup |].
      change (space (set_space (add_range iova len (space st)) st)) with (add_range iova len (space st)).
      rewrite quarantine_reserved. unfold put_domain. cbn [expect]. wp_steps. apply wp_fresh_id; [done |]. unfold put_mapping. wp_steps.
      apply HQ; simpl; [| lia | done | done].
      eapply (inv_add A s _ d st (set_quarantined (quarantined (space st) ++ [mkReserved iova len]) (space st))
        (mkMapping (next_mapping s) d iova physical len dir gen Quarantined false)); try done.
      * apply books_new_row; try done. by right.
      * simpl. by rewrite insert_insert_eq.
      * intros x Hx. destruct (LI x Hx) as [? | [-> _]]; auto.
    + eapply wp_expect_domain; [apply with_taken_lookup |].
      change (space (set_space (add_range iova len (space st)) st)) with (add_range iova len (space st)).
      rewrite release_reserved. unfold put_domain. wp_steps.
      assert (iommu_inv A (set_backend b s)) as Hb.
      { apply inv_evolves; [done |]. split; [done | exact LA | | | exact LK].
        - intros x Hx. destruct (LI x Hx) as [? | (_ & [? | [= ->]])]; done.
        - intros x Hx. destruct (LC x Hx) as [? | [? | Hx']]; [auto | auto |].
          destruct (LI x Hx') as [? | (_ & [? | [= ->]])]; auto; done. }
      apply HQ; simpl; [| lia | done |].
      * eapply inv_frame; [exact Hb | done | | done | done]. apply domains_undo.
      * rewrite domains_undo. by destruct reason.
Qed.

End map.

(** ** The operations *)

(** Requirements a device may have: a power of two within the headroom. *)
Definition req_ok (A : Z) (r : Requirements) : Prop :=
  is_power_of_two (alignment r) = true /\ alignment r <= A /\ alignment r < U64_MAX.

Lemma permits_fits r a len : permits r a len = true -> a + len <= U64_MAX.
Proof.
  unfold permits, checked_add. case_bool; [done |]. destruct (Z.leb_spec (a + len) U64_MAX); [lia | done].
Qed.

Section ops.
Context {B : Type} `{BackendLaws B} (A : Z).
Implicit Types s : Iommu B.

Lemma good_frame n n' s s' :
  good A n s -> n' <= n -> backend s' = backend s -> domains s' = domains s -> mappings s' = mappings s ->
  next_mapping s' = next_mapping s -> fault_log s' = fault_log s -> good A n' s'.
Proof.
  intros [Hinv Hb] Hn E1 E2 E3 E4 E5. split; [by eapply inv_frame |]. unfold budget in *. rewrite E4, E5. lia.
Qed.

(** A domain written back with its space as it was. *)
Lemma good_put_domain n s d st st' :
  good A n s -> domains s !! d = Some st -> space st' = space st ->
  good A n (set_domains (<[d := st']> (domains s)) s).
Proof. intros [Hinv Hb] Hd Hsp. split; [by eapply inv_put_domain | done]. Qed.

Lemma good_evolves n s b : good A n s -> evolves (backend s) b -> good A n (set_backend b s).
Proof. intros [Hinv Hb] E. split; [by apply inv_evolves | done]. Qed.

(** What a successful map leaves: a live row with a range of its own. *)
Definition mapped s' id d physical len dir gen : Prop :=
  exists iova, mappings s' !! id = Some (mkMapping id d iova physical len dir gen Live false).

(** What [map] leaves behind. *)
Definition map_post n s d physical len dir (r : result Z Fault) s' : Prop :=
  good A (n - 1) s' /\
  match r with
  | Ok id => exists st, domains s !! d = Some st /\ mapped s' id d physical len dir (ds_generation st)
  | Err Unconfirmed => True
  | Err _ => mappings s' = mappings s
  end.

(** A map whose address search answers. *)
Lemma wp_map_placed n s d physical len dir req :
  good A n s -> 1 <= n -> span_ok physical len ->
  (forall st, domains s !! d = Some st -> 0 < len -> is_Some (IovaSpace.allocate len (alignment req) (space st))) ->
  wp (map d physical len dir req) (map_post n s d physical len dir) s.
Proof.
  intros Hgood Hn Hspan Hplaced. pose proof Hgood as [Hinv [Hnext Hlog]]. unfold map, map_post.
  assert (good A (n - 1) s) as Hless by (by eapply good_frame; [exact Hgood | lia | ..]).
  destruct (Z.eqb_spec len 0); [by wp_steps |]. apply wp_try, wp_get_domain; [| done].
  intros st Hd. cbv zeta. destruct (bk_space _ _ _ _ (inv_books _ _ Hinv) d st Hd) as [Hsp Hhead].
  assert (0 < len) as Hlen by (destruct Hspan; lia).
  destruct (Hplaced st Hd Hlen) as [[r sp] Hal]. pose proof (allocate_sound _ _ _ _ _ Hsp Hlen Hal) as Hr.
  wp_step. eapply wp_assert_some; [exact Hal |]. unfold put_domain. wp_steps. destruct r as [iova | e].
  - destruct Hr as (-> & Hbase & Hun & Hroom). fold (add_range iova len (space st)).
    change (set_domains _ s) with (with_taken s d st iova len).
    destruct (permits req iova len) eqn:Hp; simpl.
    + apply permits_fits in Hp. eapply wp_install_row; try done; [by apply Hroom | lia |]. intros r s' Hinv' Hnm Hfl' Hres.
      split; [split; [done |]; unfold budget; rewrite Hfl'; lia |].
      destruct r as [id | []]; try done; try apply Hres. exists st. split; [done |]. by exists iova.
    + eapply wp_expect_domain; [by apply with_taken_lookup |]. simpl.
      rewrite (release_reserved st iova len Hun). unfold put_domain. wp_steps. split; [| done].
      eapply good_frame; [exact Hless | lia | done | simpl; by apply domains_undo | done..].
  - subst sp. wp_steps. split; [| by destruct e]. eapply good_put_domain; [exact Hless | done |]. done.
Qed.

Lemma wp_map n s d physical len dir req :
  good A n s -> 1 <= n -> span_ok physical len -> req_ok A req ->
  wp (map d physical len dir req) (map_post n s d physical len dir) s.
Proof.
  intros Hgood Hn Hspan (Hpow & HA & Hsmall). apply wp_map_placed; [done | done | done |]. intros st Hd Hlen.
  destruct (bk_space _ _ _ _ (inv_books _ _ (proj1 Hgood)) d st Hd) as [Hsp Hhead].
  destruct (allocate_spec (space st) Hsp len (alignment req) Hlen (is_power_of_two_pos _ Hpow) Hsmall
    (headroom_smaller _ _ _ Hhead HA) Hpow) as (r & sp & -> & _). eauto.
Qed.

(** A map that returns, whatever the ends of the space and the requirements. *)
Lemma map_returned n s d physical len dir req r s' :
  good A n s -> 1 <= n -> span_ok physical len -> map d physical len dir req s = Some (r, s') ->
  map_post n s d physical len dir r s'.
Proof.
  intros Hgood Hn Hspan Hmap.
  assert (wp (map d physical len dir req) (map_post n s d physical len dir) s) as Hwp; [| unfold wp in Hwp; by rewrite Hmap in Hwp].
  apply wp_map_placed; [done | done | done |]. intros st Hd Hlen.
  destruct (IovaSpace.allocate len (alignment req) (space st)) as [x |] eqn:Hal; [eauto |]. exfalso.
  revert Hmap. unfold map. destruct (Z.eqb_spec len 0); [lia |].
  unfold try_bind, get_domain, gets, assert_some, mbind, M_bind. by rewrite Hd, Hal.
Qed.

Lemma wp_map_identity n s d address len dir :
  good A n s -> 1 <= n -> span_ok address len ->
  wp (map_identity d address len dir)
    (fun r s' => good A (n - 1) s' /\
       match r with
       | Ok id => exists st, domains s !! d = Some st /\
           mappings s' !! id = Some (mkMapping id d address address len dir (ds_generation st) Live false)
       | Err Unconfirmed => True
       | Err _ => mappings s' = mappings s
       end) s.
Proof.
  intros Hgood Hn Hspan. pose proof Hgood as [Hinv [Hnext Hlog]]. unfold map_identity.
  assert (good A (n - 1) s) as Hless by (by eapply good_frame; [exact Hgood | lia | ..]).
  destruct (Z.eqb_spec len 0); [by wp_steps |]. apply wp_try, wp_get_domain; [| done].
  intros st Hd. cbv zeta. destruct (bk_space _ _ _ _ (inv_books _ _ Hinv) d st Hd) as [Hsp Hhead].
  destruct (take_exact_spec (space st) address len Hsp) as (r & sp & Htake & Hr); [apply Hspan.. |].
  wp_step. eapply wp_assert_some; [exact Htake |]. unfold put_domain. wp_steps. destruct r as [iova | e].
  - destruct Hr as (-> & Hlen & Htop & Hbase & Hroom & ->). fold (add_range address len (space st)).
    change (set_domains _ s) with (with_taken s d st address len).
    eapply wp_install_row; try done; [by apply (room_untaken _ len) | lia |]. intros r s' Hinv' Hnm Hfl' Hres.
    split; [split; [done |]; unfold budget; rewrite Hfl'; lia |].
    destruct r as [id | []]; try done; try apply Hres. by exists st.
  - destruct Hr as (-> & He). wp_steps. split; [| destruct e; naive_solver]. eapply good_put_domain; [exact Hless | done |]. done.
Qed.

(** ** Closing *)

Lemma row_range s id m : iommu_inv A s -> mappings s !! id = Some m -> range_ok (m_iova m) (m_len m).
Proof. intros Hinv Hm. destruct (bk_range _ _ _ _ (inv_books _ _ Hinv) id m Hm) as (? & ? & ? & _). done. Qed.

(** What an open row's space says about it, and the books once it settles. *)
Lemma settle_spaces s id m st :
  iommu_inv A s -> mappings s !! id = Some m -> domains s !! m_domain m = Some st -> is_open (m_state m) ->
  exists released quarantined,
    IovaSpace.release (m_iova m) (space st) = (Ok tt, released) /\
    IovaSpace.quarantine (m_iova m) (space st) = (Ok tt, quarantined) /\
    books_ok A (<[m_domain m := set_space released st]> (domains s))
      (<[id := set_m_state Released m]> (mappings s)) (next_mapping s) /\
    books_ok A (<[m_domain m := set_space quarantined st]> (domains s))
      (<[id := set_m_state Quarantined m]> (mappings s)) (next_mapping s).
Proof.
  intros Hinv Hm Hd Hopen. pose proof (inv_books _ _ Hinv) as Hb.
  destruct (bk_held _ _ _ _ Hb id m st Hm Hd) as [Htk _]. specialize (Htk Hopen).
  destruct (bk_space _ _ _ _ Hb (m_domain m) st Hd) as [Hsp Hhead].
  unfold IovaSpace.release, IovaSpace.quarantine. rewrite Htk. eexists _, _. split; [done |]. split; [done |]. split.
  - eapply books_settle; try done; [by left | by apply space_delete_ok |]. split; simpl; [intros [? | ?]; done | done].
  - eapply books_settle; try done; [by right | by apply space_quarantine_ok | by apply headroom_quarantine | |].
    + split; simpl; [intros [? | ?]; done |]. intros _. set_solver.
    + simpl. set_solver.
Qed.

Lemma wp_begin_close n s id :
  good A n s ->
  wp (begin_close id) (fun r s' => good A n s' /\
    match r with
    | Ok _ => exists m, mappings s !! id = Some m /\ mappings s' = <[id := set_m_state Closing m]> (mappings s)
    | Err _ => s' = s
    end) s.
Proof.
  intros Hgood. unfold begin_close. apply wp_try, wp_get_mapping; [| done]. intros m Hm.
  case_bool_decide as Hlive; simpl; [| by wp_steps]. unfold put_mapping. wp_steps. split; [| by exists m].
  destruct Hgood as [Hinv Hb]. split; [| done].
  eapply (inv_touch A s _ id m (set_m_state Closing m)); try done. left. simpl. rewrite Hlive. by split; [left | right].
Qed.

(** The end of a close: what is answered is what the row became. *)
Definition closed s' id (r : result Release Fault) : Prop :=
  match r with
  | Ok FramesReusable => exists m, mappings s' !! id = Some m /\ m_state m = Released
  | Ok StayQuarantined => exists m, mappings s' !! id = Some m /\ m_state m = Quarantined
  | Err _ => True
  end.

Lemma wp_settle_row n s id m st sp x :
  good A n s -> mappings s !! id = Some m -> domains s !! m_domain m = Some st ->
  (x = Released -> ~ hw_installed (backend s) (row_of m) /\ ~ hw_cached (backend s) (row_of m)) ->
  books_ok A (<[m_domain m := set_space sp st]> (domains s)) (<[id := set_m_state x m]> (mappings s)) (next_mapping s) ->
  wp (put_domain (m_domain m) (set_space sp st) ;; settle id x)
    (fun _ s' => good A n s' /\ mappings s' = <[id := set_m_state x m]> (mappings s) /\ backend s' = backend s) s.
Proof.
  intros [Hinv Hb] Hm Hd Hgone Hbooks. unfold put_domain, settle, put_mapping. wp_step. wp_step.
  eapply wp_expect_mapping; [exact Hm |]. wp_steps. split; [| done]. split; [| done].
  by eapply (inv_settle A s _ (m_domain m) st sp id m x).
Qed.

Lemma wp_finish_close n s id :
  good A n s -> wp (finish_close id) (fun r s' => good A n s' /\ closed s' id r) s.
Proof.
  intros Hgood. unfold finish_close. apply wp_try, wp_get_mapping; [| done]. intros m Hm.
  case_bool_decide as Hst; simpl; [| by wp_steps].
  pose proof Hgood as [Hinv _]. pose proof (row_range s id m Hinv Hm) as Hrange. pose proof (inv_rows _ _ Hinv id m Hm) as Hknown.
  apply wp_bind, wp_be. intros u b1 Hu. destruct (law_unmap _ _ _ _ _ _ (inv_hw _ _ Hinv) Hu) as [E1 Hun].
  assert (is_open (m_state m)) as Hopen by (rewrite Hst; by right).
  apply wp_bind. eapply wp_mono with (Q := fun inv s' => exists b2, s' = set_backend b2 s /\ evolves (backend s) b2 /\
    (is_ok u && is_ok inv = true -> ~ hw_installed b2 (row_of m) /\ ~ hw_cached b2 (row_of m))).
  { destruct u as [[] | e]; simpl; [| wp_steps; exists b1; done].
    apply wp_be. intros inv b2 Hiv.
    destruct (law_invalidate _ _ _ _ (evolves_ok _ _ E1 (inv_hw _ _ Hinv)) Hiv) as [E2 Hfl]. exists b2.
    split; [done |]. split; [by transitivity b1 |]. intros Hok. eapply flushed_row; eauto; done. }
  intros inv s1 (b2 & -> & E2 & Hflush). assert (good A n (set_backend b2 s)) as Hgood2 by (by apply good_evolves).
  apply wp_try, wp_get_domain; [| done]. simpl. intros st Hd.
  destruct (settle_spaces (set_backend b2 s) id m st (proj1 Hgood2) Hm Hd Hopen) as (rel & qu & -> & -> & Hbr & Hbq).
  destruct (is_ok u && is_ok inv) eqn:Hok; apply wp_try, wp_ret; rewrite wp_bind_assoc; wp_step;
    (eapply wp_mono; [eapply wp_settle_row; [exact Hgood2 | exact Hm | exact Hd | | eassumption] |]);
    try (intros [=]; fail); try (intros _; by apply Hflush); intros [] s' (Hg & Hms & _); wp_step; (split; [done |]);
    simpl; rewrite Hms, lookup_insert_eq; eauto.
Qed.

Lemma wp_close_mapping n s id : good A n s -> wp (close id) (fun r s' => good A n s' /\ closed s' id r) s.
Proof.
  intros Hgood. unfold close. apply wp_try, wp_get_mapping; [| done]. intros m Hm.
  destruct (m_state m) eqn:Hst; [| by apply wp_finish_close | wp_step; split; [done | by exists m] | wp_step; split; [done | by exists m]].
  apply wp_try. eapply wp_mono; [by apply wp_begin_close |]. intros [[] | e] s' [Hg _]; [by apply wp_finish_close | done].
Qed.

Lemma wp_retain_mapping n s id : good A n s -> wp (retain_mapping id) (fun r s' => good A n s') s.
Proof.
  intros [Hinv Hb]. unfold retain_mapping. apply wp_try, wp_get_mapping; [| done]. intros m Hm.
  unfold put_mapping. wp_steps. split; [| done]. eapply (inv_touch A s _ id m (set_retain true m)); try done. by right.
Qed.

Lemma wp_release_mapping n s id :
  good A n s -> wp (release_mapping id) (fun r s' => good A n s' /\
    (r = Ok FramesReusable -> mappings s' !! id = None)) s.
Proof.
  intros Hgood. unfold release_mapping. apply wp_try. eapply wp_mono; [by apply wp_close_mapping |].
  intros [[|] | e] s1 [Hg Hc]; [| by wp_steps | by split].
  simpl in *. destruct Hc as (m & Hm & Hst). wp_steps. split; [| intros _; by apply lookup_delete_eq].
  destruct Hg as [Hinv Hb]. split; [| done]. by eapply (inv_drop A s1 _ id m).
Qed.

End ops.
