(* ===== verification/DmaRevoke.v ===== *)
(** The rest of the IOMMU manager's operations: domains and endpoints come and go, the
    ledger of faults is kept, and a reset controller is told everything again. *)

From S2P Require Import Prelude Dma DmaIova DmaReach DmaOps.
Import Iommu.

Section domains.
Context {B : Type} `{BackendLaws B} (A : Z).
Implicit Types s : Iommu B.

(** ** Domains and endpoints *)

(** What a controller may say about an address space: numbers of 64 bits, and regions
    that are not empty. *)
Definition input_sane (base len : Z) (res : list Reserved) : Prop :=
  u64_range base /\ 0 <= len /\ forall r, r ∈ res -> 0 <= res_base r <= U64_MAX /\ 0 < res_len r.

(** A range with room below the end of the address space, and reserved regions that
    end as far below it. *)
Definition input_ok (base len : Z) (res : list Reserved) : Prop :=
  input_sane base len res /\ headroom (IovaSpace.new base len res) A.

Lemma wp_create_domain n s base len res gen :
  good A n s -> input_ok base len res ->
  wp (create_domain base len res gen) (fun r s' => good A n s' /\
    match r with Ok d => domains s !! d = None /\ is_Some (domains s' !! d) | Err _ => domains s' = domains s end) s.
Proof.
  intros Hgood [(Hb & Hl & Hres) Hhead]. unfold create_domain. apply wp_try, wp_be. intros r b Hc.
  destruct (law_create _ _ _ (inv_hw _ _ (proj1 Hgood)) Hc) as [E Hnew]. destruct r as [d | e]; [| split; [by apply good_evolves | done]].
  destruct (Hnew d eq_refl) as [Hfresh Hknown]. unfold put_domain. wp_steps. destruct Hgood as [Hinv Hbud].
  split; [| simpl; rewrite lookup_insert_eq; split; [| eauto]].
  - split; [| done]. eapply (inv_create A s _ d); simpl; try done.
    + by apply space_new_ok.
    + done.
    + done.
  - destruct (domains s !! d) eqn:Hd; [| done]. destruct Hfresh. apply (inv_domains _ _ Hinv). eauto.
Qed.

(** An endpoint is attached once, and never while its faults could be mistaken. *)
Lemma wp_attach n s room d e :
  good A n s -> u32_range e ->
  wp (attach room d e) (fun r s' => good A n s' /\
    match r with
    | Ok _ => may_master d e s' = true /\ attribution_lost s = false /\
        (forall t, t ∈ detached s -> tail_endpoint t = e -> drained t = true) /\
        (forall d' st, domains s !! d' = Some st -> e ∉ endpoints st)
    | Err _ => may_master d e s' = true -> may_master d e s = true
    end) s.
Proof.
  intros Hgood He32. unfold attach. wp_step. apply wp_gets.
  destruct (attribution_lost s || _ || _) eqn:Hbusy; [by wp_steps |].
  rewrite !orb_false_iff in Hbusy. destruct Hbusy as [[Hlost Htails] Hothers].
  assert (forall t, t ∈ detached s -> tail_endpoint t = e -> drained t = true) as Ht.
  { intros t Hin He. apply not_false_is_true. intros Hdr.
    pose proof (proj1 (existsb_false _ _) Htails t Hin) as Hbad. cbv beta in Hbad. rewrite He, Z.eqb_refl, Hdr in Hbad. done. }
  assert (forall d' st, domains s !! d' = Some st -> e ∉ endpoints st) as Ho.
  { intros d' st Hd' Hin. assert (st ∈ values (domains s)) as Hv by (apply elem_of_values; eauto).
    pose proof (proj1 (existsb_false _ _) Hothers st Hv) as Hbad. cbv beta in Hbad. by apply bool_decide_eq_false in Hbad. }
  apply wp_try, wp_get_domain; [| done]. intros st Hd. destruct room; simpl; [| by wp_steps].
  apply wp_bind, wp_be. intros r b Hat. destruct Hgood as [Hinv Hb].
  destruct (law_attach _ _ _ _ _ (inv_hw _ _ Hinv) (inv_domains _ _ Hinv d ltac:(eauto)) He32 Hat) as (LO & LA & LI & LC & LK).
  assert (forall st', space st' = space st -> (is_ok r = true \/ r = Err Unconfirmed) ->
    good A n (set_domains (<[d := st']> (domains s)) (set_backend b s))) as Hput.
  { intros st' Hsp Hr. split; [| done]. eapply (inv_attach A s _ d e st st' Hinv Hd Hsp); try done.
    intros e' d' Ha. destruct (LA e' d' Ha) as [? | (-> & -> & _)]; auto. }
  unfold put_domain. destruct r as [[] | reason].
  - wp_steps. split; [apply Hput; auto |]. split; [| done]. unfold may_master. simpl. rewrite lookup_insert_eq. simpl.
    apply bool_decide_eq_true. set_solver.
  - destruct reason; wp_steps; simpl;
      try (split; [by split; [apply inv_evolves; [done |]; split; [done | intros e' d' Ha; by destruct (LA e' d' Ha) as [? | (_ & _ & [? | ?])] | ..] |] | done]).
    split; [apply Hput; auto |]. unfold may_master. simpl. rewrite lookup_insert_eq. done.
Qed.

Lemma wp_destroy_domain n s d :
  good A n s ->
  wp (destroy_domain d) (fun r s' => good A n s' /\
    match r with
    | Ok _ => domains s' = delete d (domains s) /\ (forall e, ~ hw_attached (backend s') e d)
    | Err _ => domains s' = domains s /\ mappings s' = mappings s
    end) s.
Proof.
  intros Hgood. unfold destroy_domain. apply wp_try, wp_get_domain; [| done]. intros st Hd.
  case_bool_decide; simpl; [| by wp_steps]. wp_step. apply wp_gets.
  destruct (existsb _ _); [by wp_steps |]. apply wp_try, wp_be. intros r b Hdest.
  destruct (law_destroy _ _ _ _ (inv_hw _ _ (proj1 Hgood)) Hdest) as [E Hgone].
  specialize (Hgone (inv_domains _ _ (proj1 Hgood) d ltac:(eauto))). destruct r as [[] | e]; [| split; [by apply good_evolves | done]].
  wp_steps. split; [| split; [done | by apply Hgone]]. destruct Hgood as [Hinv Hb]. split; [| done].
  eapply (inv_retire A s _ d Hinv); try done; [by apply Hgone | |]; simpl.
  - apply map_filter_subseteq.
  - intros id m Hm Hne. apply map_lookup_filter_Some. split; [done |]. by left.
Qed.

Lemma wp_set_generation n s d gen : good A n s -> wp (set_generation d gen) (fun _ s' => good A n s') s.
Proof.
  intros Hgood. unfold set_generation. apply wp_try, wp_get_domain; [| done]. intros st Hd.
  unfold put_domain. wp_steps. by eapply good_put_domain.
Qed.

Lemma wp_probe n s e : good A n s -> wp (probe e) (fun _ s' => good A n s') s.
Proof. intros Hgood. apply wp_be. intros r b Hp. apply good_evolves; [done |]. apply (law_probe e _ r); [apply Hgood | done]. Qed.

(** ** Revoking an endpoint *)

Lemma wp_unmap_all ids s (Q : list (Z * bool) -> Iommu B -> Prop) :
  iommu_inv A s -> (forall id, id ∈ ids -> is_Some (mappings s !! id)) ->
  (forall us b, us.*1 = ids -> evolves (backend s) b ->
     (forall id m, (id, true) ∈ us -> mappings s !! id = Some m -> ~ hw_installed b (row_of m)) ->
     Q us (set_backend b s)) ->
  wp (unmap_all ids) Q s.
Proof.
  revert s Q. induction ids as [| id ids IH]; intros s Q Hinv Hin HQ; cbn [unmap_all].
  - wp_step. replace s with (set_backend (backend s) s) by (by destruct s). apply HQ; [done | done |].
    intros id m Hbad. by apply elem_of_nil in Hbad.
  - destruct (Hin id) as [m Hm]; [left |]. eapply wp_expect_mapping; [exact Hm |].
    apply wp_bind, wp_be. intros r b1 Hu. destruct (law_unmap _ _ _ _ _ _ (inv_hw _ _ Hinv) Hu) as [E1 Hgone].
    specialize (Hgone (inv_rows _ _ Hinv id m Hm) (row_range A s id m Hinv Hm)).
    apply wp_bind, IH; [by apply inv_evolves | intros i Hi; apply Hin; by right |]. intros us b Hus E Hrest. wp_step.
    apply (HQ ((id, is_ok r) :: us) b); [by rewrite fmap_cons, Hus | by transitivity b1 |].
    intros id' m' [[= -> Hr] | Hin']%elem_of_cons Hm'; [| by apply (Hrest id' m')].
    rewrite Hm in Hm'. injection Hm' as <-. intros Hi%(evolves_installed _ _ E). by apply (Hgone ltac:(congruence) (row_of m)).
Qed.

(** The rows of a revoke settle one after the other. *)
Lemma wp_settle_all d gone us every n s (Q : bool -> Iommu B -> Prop) :
  good A n s -> NoDup us.*1 ->
  (forall id ok, (id, ok) ∈ us -> exists m, mappings s !! id = Some m /\ m_domain m = d /\ is_open (m_state m) /\
     (ok && gone = true -> ~ hw_installed (backend s) (row_of m) /\ ~ hw_cached (backend s) (row_of m))) ->
  is_Some (domains s !! d) ->
  (forall r s', good A n s' -> backend s' = backend s ->
     (forall id, id ∉ us.*1 -> mappings s' !! id = mappings s !! id) ->
     (r = true -> every = true /\ forall id, id ∈ us.*1 -> exists m, mappings s' !! id = Some m /\ m_state m = Released) ->
     Q r s') ->
  wp (settle_all d gone every us) Q s.
Proof.
  revert every s Q. induction us as [| [id ok] us IH]; intros every s Q Hgood Hnd Hrows [st Hd] HQ; cbn [settle_all].
  - wp_step. apply HQ; [done | done | done |]. intros ->. split; [done |]. intros id Hbad. by apply elem_of_nil in Hbad.
  - destruct (Hrows id ok) as (m & Hm & Hdom & Hopen & Hflush); [left |]. cbv zeta.
    eapply wp_expect_mapping; [exact Hm |]. unfold put_mapping. wp_step. wp_step.
    eapply wp_expect_domain; [exact Hd |]. pose proof Hgood as [Hinv Hb]. rewrite <- Hdom in Hd.
    destruct (settle_spaces A s id m st Hinv Hm Hd Hopen) as (rel & qu & Er & Eq & Hbr & Hbq).
    assert (exists sp, (if ok && gone then IovaSpace.release (m_iova m) (space st) else IovaSpace.quarantine (m_iova m) (space st)) = (Ok tt, sp) /\
      books_ok A (<[m_domain m := set_space sp st]> (domains s))
        (<[id := set_m_state (if ok && gone then Released else Quarantined) m]> (mappings s)) (next_mapping s)) as (sp & -> & Hbooks).
    { destruct (ok && gone); eauto. }
    unfold put_domain. wp_step. wp_step. apply NoDup_cons in Hnd as [Hnid Hnd].
    set (x := if ok && gone then Released else Quarantined) in *.
    set (s1 := set_domains _ _).
    assert (good A n s1) as Hg1.
    { split; [| done]. eapply (inv_settle A s s1 (m_domain m) st sp id m x); try done.
      - intros Hx. apply Hflush. unfold x in Hx. by destruct (ok && gone).
      - unfold s1. simpl. by rewrite Hdom. }
    apply IH; [done | done | | by unfold s1; simpl; rewrite lookup_insert_eq; eauto |].
    + intros id' ok' Hin. destruct (Hrows id' ok') as (m' & Hm' & ?); [by right |]. exists m'.
      unfold s1. simpl. rewrite lookup_insert_ne; [done |]. intros ->. apply Hnid. by apply (list_elem_of_fmap_2 fst) in Hin.
    + intros r s' Hg' Eb Hsame Hr. apply HQ; [done | done | |].
      * intros i Hi. simpl in Hi. apply not_elem_of_cons in Hi as [Hne Hi]. rewrite Hsame by done.
        unfold s1. simpl. by rewrite lookup_insert_ne.
      * intros Htrue. destruct (Hr Htrue) as [Hev Hall]. apply andb_true_iff in Hev as [-> Hok]. split; [done |].
        intros i [-> | Hi]%elem_of_cons; [| by apply Hall]. exists (set_m_state x m). rewrite Hsame by done.
        unfold s1, x. simpl. rewrite lookup_insert_eq, Hok. done.
Qed.

Lemma wp_remember n s e d gen :
  good A n s -> wp (remember_detached_tail e d gen) (fun _ s' => good A n s' /\ backend s' = backend s /\ mappings s' = mappings s) s.
Proof.
  intros Hgood. unfold remember_detached_tail. wp_step. apply wp_gets. wp_step. apply wp_gets. wp_step. apply wp_gets.
  destruct (existsb _ _); [by wp_steps |].
  destruct (list_find _ _) as [[i t] |]; [| destruct (make_room _ _)]; wp_steps; (split; [| done]);
    by eapply good_frame; [exact Hgood | lia | ..].
Qed.

Lemma open_ids s d id :
  iommu_inv A s -> id ∈ m_id <$> base.filter (fun m => open_in d m = true) (values (mappings s)) <->
  exists m, mappings s !! id = Some m /\ m_domain m = d /\ is_open (m_state m).
Proof.
  intros Hinv. rewrite list_elem_of_fmap. unfold open_in, in_domain. split.
  - intros (m & -> & Hin). apply list_elem_of_filter in Hin as [Ho (k & Hk)%elem_of_values].
    rewrite andb_true_iff, Z.eqb_eq, bool_decide_eq_true in Ho.
    destruct (bk_id _ _ _ _ (inv_books _ _ Hinv) k m Hk) as [<- _]. exists m. done.
  - intros (m & Hm & Hd & Ho). destruct (bk_id _ _ _ _ (inv_books _ _ Hinv) id m Hm) as [Hid _]. exists m.
    split; [done |]. apply list_elem_of_filter. split; [| apply elem_of_values; eauto].
    rewrite andb_true_iff, Z.eqb_eq, bool_decide_eq_true. done.
Qed.

Lemma NoDup_open_ids s d :
  iommu_inv A s -> NoDup (m_id <$> base.filter (fun m => open_in d m = true) (values (mappings s))).
Proof.
  intros Hinv. assert (m_id <$> values (mappings s) = (entries (mappings s)).*1) as Hkeys.
  { unfold values. rewrite <- list_fmap_compose. apply list_fmap_ext. intros i [k m] Hi. simpl.
    apply list_elem_of_lookup_2, elem_of_entries in Hi. by destruct (bk_id _ _ _ _ (inv_books _ _ Hinv) k m Hi). }
  eapply sublist_NoDup; [| apply fmap_sublist, sublist_filter]. rewrite Hkeys. apply NoDup_entry_keys.
Qed.

(** A revoke that answers that frames are reusable has the endpoint detached and every
    mapping of the domain released. *)
Lemma wp_revoke_endpoint n s d e :
  good A n s -> u32_range e ->
  wp (revoke_endpoint d e) (fun r s' => good A n s' /\
    (r = Ok FramesReusable -> ~ hw_attached (backend s') e d /\
       forall id m, mappings s' !! id = Some m -> m_domain m = d -> m_state m = Released)) s.
Proof.
  intros Hgood He32. pose proof Hgood as [Hinv _]. unfold revoke_endpoint. wp_step. apply wp_gets.
  set (live := m_id <$> _). assert (forall id, id ∈ live <-> _) as Hlive by (intros id; apply (open_ids s d id Hinv)).
  apply wp_bind, wp_unmap_all; [done | intros id (m & Hm & _)%Hlive; eauto |]. intros us b1 Hus E1 Hun.
  apply wp_bind, wp_be. intros inv b2 Hi.
  destruct (law_invalidate _ _ _ _ (evolves_ok _ _ E1 (inv_hw _ _ Hinv)) Hi) as [E2 Hfl]. simpl in E2.
  apply wp_bind, wp_be. intros det b3 Hdt.
  assert (evolves (backend s) b2) as E12 by (by transitivity b1).
  destruct (law_detach _ _ _ _ _ (evolves_ok _ _ E12 (inv_hw _ _ Hinv)) Hdt) as [E3 Hgone]. simpl in E3, Hgone. cbv zeta.
  set (gone := is_ok inv && is_ok det).
  assert (evolves (backend s) b3) as E by (transitivity b1; [done |]; by transitivity b2).
  assert (good A n (set_backend b3 s)) as Hg3 by (by apply good_evolves).
  change (set_backend b3 (set_backend b2 (set_backend b1 s))) with (set_backend b3 s).
  apply wp_try, wp_get_domain; [| done]. simpl. intros st Hd. specialize (Hgone (evolves_known _ _ E12 d (inv_domains _ _ Hinv d ltac:(eauto))) He32).
  unfold put_domain. wp_step. wp_step. wp_step. apply wp_gets.
  set (left := base.filter _ (endpoints st)). set (st' := set_endpoints left _ st).
  assert (good A n (set_domains (<[d := st']> (domains s)) (set_backend b3 s))) as Hg4 by (by eapply (good_put_domain A n (set_backend b3 s))).
  apply wp_bind. eapply wp_settle_all; [exact Hg4 | | | simpl; rewrite lookup_insert_eq; eauto |].
  - rewrite Hus. by apply NoDup_open_ids.
  - simpl. intros id ok Hin. assert (id ∈ live) as (m & Hm & Hdm & Hop)%Hlive by (rewrite <- Hus; by apply (list_elem_of_fmap_2 fst) in Hin).
    exists m. split; [done |]. split; [done |]. split; [done |]. unfold gone. rewrite !andb_true_iff. intros (-> & Hok1 & _).
    destruct (flushed_row b1 b2 (row_of m) d) as [? ?]; [done | by apply (Hun id m) | done | by apply Hfl |].
    by apply (evolves_gone b2 b3).
  - simpl. intros r s' Hg' Eb Hsame Hr. wp_step. eapply wp_mono; [by apply wp_remember |].
    intros [] s'' (Hg'' & Eb' & Em). wp_step. split; [done |]. rewrite Eb', Em, Eb.
    destruct (r && gone) eqn:Hall; [intros _ | done]. apply andb_true_iff in Hall as [-> Hg].
    destruct (Hr eq_refl) as [Hstuck Hrel]. split; [apply andb_true_iff in Hg as [_ Hdet]; by apply Hgone |].
    intros id m Hm Hdm. destruct (decide (id ∈ us.*1)) as [Hin | Hout].
    + destruct (Hrel id Hin) as (m' & Hm' & ?). congruence.
    + rewrite Hsame in Hm by done. apply negb_true_iff in Hstuck.
      assert (quarantined_in d m = false) as Hq by (apply (proj1 (existsb_false _ _) Hstuck), elem_of_values; eauto).
      unfold quarantined_in, in_domain in Hq. rewrite Hdm, Z.eqb_refl in Hq. simpl in Hq. apply bool_decide_eq_false in Hq.
      assert (~ is_open (m_state m)) as Hno by (intros Ho; apply Hout; rewrite Hus; apply Hlive; eauto).
      unfold is_open in Hno. destruct (m_state m); naive_solver.
Qed.

(** ** After a reset *)

(** A row of the books sent to the backend again. *)
Lemma inv_again s id m b r :
  iommu_inv A s -> mappings s !! id = Some m -> m_state m <> Released ->
  be_map (m_domain m) (m_iova m) (m_physical m) (m_len m) (m_direction m) (backend s) = (r, b) ->
  iommu_inv A (set_backend b s).
Proof.
  intros Hinv Hm Hst Hmap. pose proof Hinv as [Hw Hb Hbk Ha Hs Hd Hr].
  assert (u64_range (m_physical m)) as Hp64 by (destruct (bk_range _ _ _ _ Hb id m Hm); unfold u64_range; lia).
  destruct (law_map _ _ _ _ _ _ _ _ Hw (Hr id m Hm) (row_range A s id m Hinv Hm) Hp64 Hmap) as (LO & LA & LI & LC & LK).
  assert (forall x, hw_installed b x \/ hw_cached b x -> (hw_installed (backend s) x \/ hw_cached (backend s) x) \/ x = row_of m) as Hsub.
  { intros x [Hx | Hx]; [destruct (LI x Hx) as [? | [? _]]; auto |].
    destruct (LC x Hx) as [? | [? | Hx']]; [auto | auto |]. destruct (LI x Hx') as [? | [? _]]; auto. }
  split; simpl; [done | done | | | | |]; eauto.
  - intros x Hin Hx. destruct (Hsub x Hx) as [Hold | ->]; [exact (Hbk x Hin Hold) |]. exists id, m. done.
  - intros x Hx. destruct (Hsub x Hx) as [Hold | ->]; [auto |]. apply LK, (Hr id m Hm).
Qed.

Lemma wp_replay_rows n rows s :
  good A n s -> (forall m, m ∈ rows -> exists id, mappings s !! id = Some m) ->
  wp (replay_rows rows) (fun _ s' => good A n s') s.
Proof.
  revert s. induction rows as [| m rows IH]; intros s Hgood Hin; cbn [replay_rows]; [by wp_step |].
  assert (forall m', m' ∈ rows -> exists id, mappings s !! id = Some m') as Hrest by (intros; apply Hin; by right).
  case_bool_decide as Hlive; [| by apply IH]. apply wp_try, wp_be. intros r b Hmap.
  destruct (Hin m) as [id Hm]; [left |]. destruct Hgood as [Hinv Hb].
  assert (good A n (set_backend b s)) as Hg by (split; [by eapply inv_again; eauto; rewrite Hlive | done]).
  destruct r; [by apply IH | done].
Qed.

Lemma wp_replay_after_reset n s reattach :
  good A n s -> (forall b r b', hw_ok b -> reattach b = (r, b') -> evolves b b') ->
  wp (replay_after_reset reattach) (fun _ s' => good A n s') s.
Proof.
  intros Hgood Hre. unfold replay_after_reset. apply wp_try, wp_be. intros r b Hr.
  assert (good A n (set_backend b s)) as Hg by (apply good_evolves; [done | eapply Hre; [apply Hgood | done]]).
  destruct r as [[] | e]; [| done]. wp_step. apply wp_gets. apply wp_replay_rows; [done |].
  intros m Hm. by apply elem_of_values in Hm.
Qed.

(** ** Faults *)

Lemma incr64_some z : z + 1 <= U64_MAX -> incr64 z = Some (z + 1).
Proof. intros Hz. unfold incr64, checked_add. destruct (Z.leb_spec (z + 1) U64_MAX); [done | lia]. Qed.

(** A record always fits, counts once, and the log keeps its bound. *)
Lemma record_spec l ev :
  total l + 1 <= U64_MAX -> 0 <= dropped l <= total l -> (length (recent l) <= log_capacity l)%nat ->
  exists l', FaultLog.record ev l = Some l' /\ total l' = total l + 1 /\ 0 <= dropped l' <= total l' /\
    log_capacity l' = log_capacity l /\ (length (recent l') <= log_capacity l')%nat.
Proof.
  intros Ht Hd Hlen. unfold FaultLog.record. rewrite incr64_some by done.
  destruct (Nat.eqb_spec (log_capacity l) 0); [| destruct (Nat.leb_spec (log_capacity l) (length (recent l)))];
    rewrite ?incr64_some by lia; eexists; (split; [done |]); simpl; rewrite ?length_app; simpl; split; try lia.
  destruct (recent l); simpl in *; lia.
Qed.

Lemma wp_record_fault n s ev (Q : unit -> Iommu B -> Prop) :
  good A n s -> 1 <= n -> (forall l, good A (n - 1) (set_fault_log l s) -> Q tt (set_fault_log l s)) -> wp (record_fault ev) Q s.
Proof.
  intros [Hinv (Hn & Ht & Hd & Hl)] H1n HQ. unfold record_fault. wp_step. apply wp_gets.
  destruct (record_spec (fault_log s) ev) as (l & Hrec & Htot & Hdr & Hcap & Hlen); [lia | done | done |].
  wp_step. eapply wp_assert_some; [exact Hrec |]. wp_step. apply HQ.
  split; [by eapply inv_frame | unfold budget; simpl; lia].
Qed.

(** What [translate] lets through: a live mapping of the domain the endpoint is
    attached to, made under that domain's generation, in a permitted direction. *)
Definition translates s e a access p : Prop :=
  exists d st id m, domains s !! d = Some st /\ e ∈ endpoints st /\ attached_confirmed st = true /\
    mappings s !! id = Some m /\ m_domain m = d /\ m_state m = Live /\ m_generation m = ds_generation st /\
    m_iova m <= a < m_iova m + m_len m /\ direction_permits (m_direction m) access = true /\
    p = m_physical m + (a - m_iova m).

Lemma wp_translate n s e a access :
  good A n s -> 1 <= n ->
  wp (translate e a access) (fun r s' => good A (n - 1) s' /\
    match r with Ok p => s' = s /\ translates s e a access p | Err _ => True end) s.
Proof.
  intros Hgood Hn. unfold translate. wp_step. apply wp_gets. unfold id.
  destruct (list_find _ (entries _)) as [[i [d st]] |] eqn:Hf; [| wp_step; by eapply wp_record_fault].
  apply list_find_Some in Hf as (Hin & [He Hc] & _). simpl in He, Hc. apply list_elem_of_lookup_2, elem_of_entries in Hin.
  cbv zeta. destruct (list_find _ (values _)) as [[j m] |] eqn:Hg; [| wp_step; by eapply wp_record_fault].
  apply list_find_Some in Hg as (Hm & ((Hd & Hlive) & Ha1 & Ha2) & _). apply list_elem_of_lookup_2, elem_of_values in Hm as [k Hm].
  destruct (Z.eqb_spec (m_generation m) (ds_generation st)); simpl; [| wp_step; by eapply wp_record_fault].
  destruct (direction_permits _ _) eqn:Hp; simpl; [| wp_step; by eapply wp_record_fault].
  destruct (bk_range _ _ _ _ (inv_books _ _ (proj1 Hgood)) k m Hm) as (_ & _ & _ & Hp0 & Hptop).
  wp_step. apply wp_assert_some with (m_physical m + (a - m_iova m)).
  - unfold checked_add. destruct (Z.leb_spec (m_physical m + (a - m_iova m)) U64_MAX); [done | lia].
  - wp_step. split; [by eapply good_frame; [exact Hgood | lia | ..] |]. split; [done |]. by exists d, st, k, m.
Qed.

Lemma wp_attribute n s td ev :
  good A n s -> 1 <= n -> wp (attribute td ev) (fun _ s' => good A (n - 1) s') s.
Proof.
  intros Hgood Hn. unfold attribute. wp_step. apply wp_gets. unfold id.
  destruct (list_find _ _) as [[i t] |]; cbv zeta.
  - wp_steps. eapply (wp_record_fault n); [| done |].
    + by eapply good_frame; [exact Hgood | lia | ..].
    + intros l Hg. by wp_step.
  - set (ev2 := match td with Some _ => _ | None => _ end). wp_step.
    destruct (domains s !! ev_domain ev2) as [st |] eqn:Hd; unfold put_domain; wp_steps;
      eapply (wp_record_fault n); try done; try (intros l Hg; by wp_step). by eapply good_put_domain.
Qed.

Lemma wp_attribute_all n td events s :
  good A n s -> Z.of_nat (length events) <= n ->
  wp (attribute_all td events) (fun es s' => good A (n - Z.of_nat (length events)) s') s.
Proof.
  revert n s. induction events as [| e events IH]; intros n s Hgood Hn; cbn [attribute_all].
  - wp_step. by eapply good_frame; [exact Hgood | simpl; lia | ..].
  - simpl length in *. wp_step. eapply wp_mono; [apply (wp_attribute n); [done | lia] |]. intros e' s' Hg.
    wp_step. eapply wp_mono; [apply (IH (n - 1)); [done | lia] |]. intros es s2 Hg2. wp_step.
    by replace (n - Z.of_nat (S (length events))) with (n - 1 - Z.of_nat (length events)) by lia.
Qed.

Lemma wp_drain_faults_during n s room td :
  good A n s -> Z.of_nat room <= n ->
  wp (drain_faults_during room td) (fun _ s' => good A (n - Z.of_nat room) s') s.
Proof.
  intros Hgood Hn. unfold drain_faults_during. apply wp_bind, wp_be. intros es b Hdr.
  destruct (law_drain _ _ _ _ (inv_hw _ _ (proj1 Hgood)) Hdr) as [E Hlen]. assert (good A n (set_backend b s)) as Hg by (by apply good_evolves).
  wp_step. eapply wp_mono; [apply (wp_attribute_all n); [done | lia] |]. intros es' s' Hg'. wp_step. apply wp_gets.
  assert (good A (n - Z.of_nat room) s') as Hg2 by (by eapply good_frame; [exact Hg' | lia | ..]).
  destruct (be_transport_was_emptied _); wp_steps; [| done]. by eapply good_frame; [exact Hg2 | lia | ..].
Qed.

End domains.
