(* ===== verification/DmaFake.v ===== *)
(** The backend that fails where it is told to (dma/src/fake.rs), and that it keeps
    the promises of [Backend]. Its count of domains is not bounded; the code's is a [u32],
    which 2^32 - 1 domains exhaust. *)

From S2P Require Import Prelude Dma DmaIova DmaReach.

Inductive Injection := InjDomainCreate | InjAttach | InjDetach | InjMap | InjUnmap | InjInvalidate.
#[export] Instance Injection_eq_dec : EqDecision Injection.
Proof. solve_decision. Defined.

Inductive Call :=
| CallDomainCreate (d : Z)
| CallDomainDestroy (d : Z)
| CallAttach (d e : Z)
| CallDetach (d e : Z)
| CallMap (d iova len : Z)
| CallUnmap (d iova len : Z)
| CallInvalidate (d : Z).

Record Fake := mkFake {
  fk_next_domain : Z;
  fk_installed : gmap (Z * Z) (Z * Z * Direction);
  fk_attached : list (Z * Z);
  fk_calls : list Call;
  fk_injected : list (Injection * Fault);
  fk_pending : list FaultEvent;
  fk_directions : bool;
  fk_capacity : option Z;
}.

Module Fake.

Definition new : Fake := mkFake 1 ∅ [] [] [] [] true None.

Definition inject (which : Injection) (fault : Fault) (f : Fake) : Fake :=
  mkFake (fk_next_domain f) (fk_installed f) (fk_attached f) (fk_calls f) (fk_injected f ++ [(which, fault)])
    (fk_pending f) (fk_directions f) (fk_capacity f).
Definition queue_fault (event : FaultEvent) (f : Fake) : Fake :=
  mkFake (fk_next_domain f) (fk_installed f) (fk_attached f) (fk_calls f) (fk_injected f)
    (fk_pending f ++ [event]) (fk_directions f) (fk_capacity f).
Definition reset_hardware (f : Fake) : Fake :=
  mkFake (fk_next_domain f) ∅ (fk_attached f) (fk_calls f) (fk_injected f) (fk_pending f) (fk_directions f) (fk_capacity f).
Definition reattach_all (f : Fake) : result unit Fault * Fake :=
  (Ok tt, mkFake (fk_next_domain f) (fk_installed f) (fk_attached f)
    (fk_calls f ++ ((fun p => CallAttach p.1 p.2) <$> fk_attached f)) (fk_injected f) (fk_pending f) (fk_directions f) (fk_capacity f)).

(** The next injected failure of this kind, once. *)
Definition take (which : Injection) (f : Fake) : option (Fault * Fake) :=
  match list_find (fun p => p.1 = which) (fk_injected f) with
  | None => None
  | Some (at_, (_, fault)) =>
      Some (fault, mkFake (fk_next_domain f) (fk_installed f) (fk_attached f) (fk_calls f) (delete at_ (fk_injected f))
        (fk_pending f) (fk_directions f) (fk_capacity f))
  end.

(** A call that may have been told to fail. *)
Definition unless {A} (which : Injection) (k : Fake -> result A Fault * Fake) (f : Fake) : result A Fault * Fake :=
  match take which f with
  | Some (fault, f) => (Err fault, f)
  | None => k f
  end.

Definition set (next : Z) (installed : gmap (Z * Z) (Z * Z * Direction)) (attached : list (Z * Z)) (call : Call) (f : Fake) : Fake :=
  mkFake next installed attached (fk_calls f ++ [call]) (fk_injected f) (fk_pending f) (fk_directions f) (fk_capacity f).

Definition domain_create : Fake -> result Z Fault * Fake :=
  unless InjDomainCreate (fun f =>
    let id := fk_next_domain f in (Ok id, set (id + 1) (fk_installed f) (fk_attached f) (CallDomainCreate id) f)).
Definition domain_destroy (d : Z) (f : Fake) : result unit Fault * Fake :=
  (Ok tt, set (fk_next_domain f) (base.filter (fun e => e.1.1 <> d) (fk_installed f))
    (base.filter (fun p => p.1 <> d) (fk_attached f)) (CallDomainDestroy d) f).
Definition attach (d e : Z) : Fake -> result unit Fault * Fake :=
  unless InjAttach (fun f => (Ok tt, set (fk_next_domain f) (fk_installed f) (fk_attached f ++ [(d, e)]) (CallAttach d e) f)).
Definition detach (d e : Z) : Fake -> result unit Fault * Fake :=
  unless InjDetach (fun f =>
    (Ok tt, set (fk_next_domain f) (fk_installed f) (base.filter (fun p => p <> (d, e)) (fk_attached f)) (CallDetach d e) f)).
Definition overlap (d iova len : Z) (e : Z * Z * (Z * Z * Direction)) : bool :=
  let '((d', base), (_, length, _)) := e in (d' =? d) && (iova <? base + length) && (base <? iova + len).
Definition map (d iova physical len : Z) (dir : Direction) : Fake -> result unit Fault * Fake :=
  unless InjMap (fun f =>
    if existsb (overlap d iova len) (map_to_list (fk_installed f)) then (Err Overlaps, f)
    else (Ok tt, set (fk_next_domain f) (<[(d, iova) := (physical, len, dir)]> (fk_installed f)) (fk_attached f) (CallMap d iova len) f)).
Definition unmap (d iova len : Z) : Fake -> result unit Fault * Fake :=
  unless InjUnmap (fun f =>
    (Ok tt, set (fk_next_domain f) (delete (d, iova) (fk_installed f)) (fk_attached f) (CallUnmap d iova len) f)).
Definition invalidate (d : Z) : Fake -> result unit Fault * Fake :=
  unless InjInvalidate (fun f => (Ok tt, set (fk_next_domain f) (fk_installed f) (fk_attached f) (CallInvalidate d) f)).
Definition drain_faults (room : nat) (f : Fake) : list FaultEvent * Fake :=
  (firstn room (fk_pending f),
   mkFake (fk_next_domain f) (fk_installed f) (fk_attached f) (fk_calls f) (fk_injected f)
     (drop room (fk_pending f)) (fk_directions f) (fk_capacity f)).

End Fake.

#[export] Instance fake_backend : Backend Fake := {
  be_domain_create := Fake.domain_create;
  be_domain_destroy := Fake.domain_destroy;
  be_attach := Fake.attach;
  be_detach := Fake.detach;
  be_map := Fake.map;
  be_unmap := Fake.unmap;
  be_invalidate := Fake.invalidate;
  be_drain_faults := Fake.drain_faults;
  be_transport_was_emptied f := bool_decide (fk_pending f = []);
  be_fault_queue_capacity := fk_capacity;
  be_enforces_directions := fk_directions;
  be_probe _ f := (Ok [], f);
}.

(** Its own idea of the hardware. *)
#[export] Instance fake_hardware : Hardware Fake := {
  hw_ok _ := True;
  hw_attached f e d := (d, e) ∈ fk_attached f;
  hw_installed f r := fk_installed f !! (row_domain r, row_iova r) = Some (row_physical r, row_len r, row_direction r);
  hw_cached _ _ := False;
  hw_known f d := d < fk_next_domain f;
}.

Section laws.

(** The injected failures leave the hardware alone. *)
Definition same_hardware (f f' : Fake) : Prop :=
  fk_installed f' = fk_installed f /\ fk_attached f' = fk_attached f /\ fk_next_domain f' = fk_next_domain f.

Lemma take_same which f fault f' : Fake.take which f = Some (fault, f') -> same_hardware f f'.
Proof. unfold Fake.take. destruct (list_find _ _) as [[i [k x]] |]; [| done]. by intros [= <- <-]. Qed.

Lemma same_evolves f f' : same_hardware f f' -> evolves f f'.
Proof. intros (E1 & E2 & E3). split; simpl; intros *; rewrite ?E1, ?E2, ?E3; auto. Qed.

Lemma unless_cases {A} which (k : Fake -> result A Fault * Fake) f r f' :
  Fake.unless which k f = (r, f') -> (is_ok r = false /\ same_hardware f f') \/ k f = (r, f').
Proof.
  unfold Fake.unless. destruct (Fake.take which f) as [[fault f1] |] eqn:E; [| auto].
  intros [= <- <-]. left. split; [done | by eapply take_same].
Qed.

#[export] Instance fake_laws : BackendLaws Fake.
Proof.
  split; simpl.
  - intros f r f' _ [[Hr Hs] | [= <- <-]]%unless_cases.
    + split; [by apply same_evolves |]. intros d ->. done.
    + split; [split; simpl; auto with lia; tauto |]. intros d [= <-]. simpl. lia.
  - intros d f r f' _ [= <- <-]. simpl. split; [split; simpl; [done | | | tauto | auto] |].
    + intros e d'. by intros [_ ?]%list_elem_of_filter.
    + intros x. by intros [? _]%map_lookup_filter_Some.
    + intros _ _ e. intros [Hne _]%list_elem_of_filter. by apply Hne.
  - intros d e f r f' _ _ _ [[Hr Hs] | [= <- <-]]%unless_cases.
    + destruct Hs as (E1 & E2 & E3). rewrite E1, E2, E3. split; [done |]. split; [auto |]. split; [auto |]. split; [tauto | auto].
    + simpl. split; [done |]. split; [| split; [auto |]; split; [tauto | auto]]. intros e' d' [? | [= -> ->]%list_elem_of_singleton]%elem_of_app; auto 6.
  - intros d e f r f' _ [[Hr Hs] | [= <- <-]]%unless_cases.
    + split; [by apply same_evolves |]. by rewrite Hr.
    + simpl. split; [split; simpl; [done | | auto | tauto | auto] |].
      * intros e' d'. by intros [_ ?]%list_elem_of_filter.
      * intros _ _ _ [Hne _]%list_elem_of_filter. done.
  - intros d iova p len dir f r f' _ _ _ _ [[Hr (E1 & E2 & E3)] | Hk]%unless_cases.
    + rewrite E1, E2, E3. split; [done |]. split; [auto |]. split; [auto |]. split; [tauto | auto].
    + destruct (existsb _ _); injection Hk as <- <-; simpl; (split; [done |]); (split; [auto |]); [split; [auto |]; split; [tauto | auto] |].
      split; [| split; [tauto | auto]]. intros [d' i' p' l' dir']; simpl.
      intros [[[= -> ->] [= -> -> ->]] | [_ ?]]%lookup_insert_Some; auto 6.
  - intros d iova len f r f' _ [[Hr Hs] | [= <- <-]]%unless_cases.
    + split; [by apply same_evolves |]. by rewrite Hr.
    + simpl. split; [split; simpl; [done | auto | | tauto | auto] |].
      * intros x. by intros [_ ?]%lookup_delete_Some.
      * intros _ _ _ x Hd Hi _. rewrite Hd, Hi. by rewrite lookup_delete_eq.
  - intros d f r f' _ [[Hr Hs] | [= <- <-]]%unless_cases; (split; [| tauto]); by apply same_evolves.
  - intros n f es f' _ [= <- <-]. split; [by apply same_evolves |]. rewrite length_firstn. lia.
  - intros e f r f' _ [= <- <-]. done.
Qed.

End laws.
