(* ===== verification/DmaProps.v ===== *)
(** What the IOMMU manager promises: a device reaches only what the ledger still
    answers for, frames are called reusable only when no device can touch them, a bus
    address means one thing, and the address search finds what there is. *)

From S2P Require Import Prelude Dma DmaIova DmaReach DmaOps DmaRevoke DmaFake.
Import Iommu.

(** ** Sequences of operations *)

(** One call into the manager, or something the hardware does meanwhile. *)
Inductive DmaOp (B : Type) :=
| OpCreate (base len : Z) (res : list Reserved) (gen : Z)
| OpAttach (room : bool) (d e : Z)
| OpMap (d physical len : Z) (dir : Direction) (req : Requirements)
| OpMapIdentity (d address len : Z) (dir : Direction)
| OpBeginClose (id : Z)
| OpFinishClose (id : Z)
| OpClose (id : Z)
| OpRetain (id : Z)
| OpRelease (id : Z)
| OpDestroy (d : Z)
| OpRevoke (d e : Z)
| OpSetGeneration (d gen : Z)
| OpTranslate (e a : Z) (access : Access)
| OpDrain (room : nat) (teardown : option (Z * Z * Z))
| OpProbe (e : Z)
| OpReplay (reattach : B -> result unit Fault * B)
| OpHardware (move : B -> B).
Arguments OpCreate {B}. Arguments OpAttach {B}. Arguments OpMap {B}. Arguments OpMapIdentity {B}.
Arguments OpBeginClose {B}. Arguments OpFinishClose {B}. Arguments OpClose {B}. Arguments OpRetain {B}.
Arguments OpRelease {B}. Arguments OpDestroy {B}. Arguments OpRevoke {B}. Arguments OpSetGeneration {B}.
Arguments OpTranslate {B}. Arguments OpDrain {B}. Arguments OpProbe {B}. Arguments OpReplay {B}. Arguments OpHardware {B}.

Section sequences.
Context {B : Type} `{BackendLaws B}.
Implicit Types s : Iommu B.

Definition forget {X} (m : M (Iommu B) X) : M (Iommu B) unit := m ;; mret tt.

Definition run_op (op : DmaOp B) : M (Iommu B) unit :=
  match op with
  | OpCreate base len res gen => forget (create_domain base len res gen)
  | OpAttach room d e => forget (attach room d e)
  | OpMap d physical len dir req => forget (map d physical len dir req)
  | OpMapIdentity d address len dir => forget (map_identity d address len dir)
  | OpBeginClose id => forget (begin_close id)
  | OpFinishClose id => forget (finish_close id)
  | OpClose id => forget (close id)
  | OpRetain id => forget (retain_mapping id)
  | OpRelease id => forget (release_mapping id)
  | OpDestroy d => forget (destroy_domain d)
  | OpRevoke d e => forget (revoke_endpoint d e)
  | OpSetGeneration d gen => forget (set_generation d gen)
  | OpTranslate e a access => forget (translate e a access)
  | OpDrain room teardown => forget (drain_faults_during room teardown)
  | OpProbe e => forget (probe e)
  | OpReplay reattach => forget (replay_after_reset reattach)
  | OpHardware move => modify (fun s => set_backend (move (backend s)) s)
  end.

(** What every caller respects: numbers of their width, reserved regions that are not
    empty, frames inside the physical address space, and hardware that only evolves. *)
Definition op_sane (op : DmaOp B) : Prop :=
  match op with
  | OpCreate base len res _ => input_sane base len res
  | OpMap _ physical len _ _ => span_ok physical len
  | OpMapIdentity _ address len _ => span_ok address len
  | OpAttach _ _ e | OpRevoke _ e => u32_range e
  | OpReplay reattach => forall b r b', hw_ok b -> reattach b = (r, b') -> evolves b b'
  | OpHardware move => forall b, evolves b (move b)
  | _ => True
  end.

(** What the address search needs to come back: also alignments up to [A], and an input
    range and reserved regions that end [A] below the end of the address space. *)
Definition op_ok (A : Z) (op : DmaOp B) : Prop :=
  match op with
  | OpCreate base len res _ => input_ok A base len res
  | OpMap _ physical len _ req => span_ok physical len /\ req_ok A req
  | OpMapIdentity _ address len _ => span_ok address len
  | OpAttach _ _ e | OpRevoke _ e => u32_range e
  | OpReplay reattach => forall b r b', hw_ok b -> reattach b = (r, b') -> evolves b b'
  | OpHardware move => forall b, evolves b (move b)
  | _ => True
  end.

(** How far the 64-bit counters may move. *)
Definition op_cost (op : DmaOp B) : Z :=
  match op with OpDrain room _ => Z.of_nat room | _ => 1 end.
Definition cost (ops : list (DmaOp B)) : Z := foldr Z.add 0 (op_cost <$> ops).

Lemma op_cost_nonneg op : 0 <= op_cost op.
Proof. destruct op; simpl; lia. Qed.

Lemma cost_cons op ops : cost (op :: ops) = op_cost op + cost ops.
Proof. done. Qed.

Lemma cost_nonneg ops : 0 <= cost ops.
Proof. induction ops as [| op ops IH]; [done |]. rewrite cost_cons. pose proof (op_cost_nonneg op). lia. Qed.

Lemma wp_forget {X} (m : M (Iommu B) X) (P : X -> Iommu B -> Prop) (Q : Iommu B -> Prop) s :
  wp m P s -> (forall x s', P x s' -> Q s') -> wp (forget m) (fun _ => Q) s.
Proof. intros Hm HQ. unfold forget. wp_step. eapply wp_mono; [exact Hm |]. intros x s' Hp. wp_step. eauto. Qed.

Lemma good_less A n n' s : good A n s -> n' <= n -> good A n' s.
Proof. intros [? ?] Hle. split; [done | by eapply budget_less]. Qed.

(** Each operation returns and keeps the ledger in step with the hardware. *)
Lemma wp_run_op A n op s :
  good A n s -> op_ok A op -> op_cost op <= n -> wp (run_op op) (fun _ s' => good A (n - op_cost op) s') s.
Proof.
  intros Hgood Hok Hn.
  assert (forall s', good A n s' -> good A (n - 1) s') as Hless by (intros s' Hg; apply (good_less A n); [done | lia]).
  destruct op; cbn [run_op op_cost op_ok] in *.
  - eapply wp_forget; [by apply wp_create_domain |]. intros r s' [? _]. auto.
  - eapply wp_forget; [by apply wp_attach |]. intros r s' [? _]. auto.
  - eapply wp_forget; [by apply wp_map; try apply Hok |]. intros r s' [? _]. auto.
  - eapply wp_forget; [by apply wp_map_identity |]. intros r s' [? _]. auto.
  - eapply wp_forget; [by apply wp_begin_close |]. intros r s' [? _]. auto.
  - eapply wp_forget; [by apply wp_finish_close |]. intros r s' [? _]. auto.
  - eapply wp_forget; [by apply wp_close_mapping |]. intros r s' [? _]. auto.
  - eapply wp_forget; [by apply wp_retain_mapping |]. auto.
  - eapply wp_forget; [by apply wp_release_mapping |]. intros r s' [? _]. auto.
  - eapply wp_forget; [by apply wp_destroy_domain |]. intros r s' [? _]. auto.
  - eapply wp_forget; [by apply wp_revoke_endpoint |]. intros r s' [? _]. auto.
  - eapply wp_forget; [by apply wp_set_generation |]. auto.
  - eapply wp_forget; [by apply wp_translate |]. intros r s' [? _]. auto.
  - eapply wp_forget; [by apply wp_drain_faults_during |]. auto.
  - eapply wp_forget; [by apply wp_probe |]. auto.
  - eapply wp_forget; [by apply wp_replay_after_reset |]. auto.
  - wp_step. apply Hless. by apply good_evolves.
Qed.

(** A call that returns keeps the ledger in step, whatever the ends of the range. *)
Lemma run_op_returned n op s s' :
  good 0 n s -> op_sane op -> op_cost op <= n -> run_op op s = Some (tt, s') -> good 0 (n - op_cost op) s'.
Proof.
  intros Hgood Hsane Hn Hrun.
  assert (op_ok 0 op \/ exists d physical len dir req, op = OpMap d physical len dir req) as [Hok | (d & physical & len & dir & req & ->)].
  { destruct op; try (left; exact Hsane); [left | right; eauto 10]. split; [done | apply headroom_none]. }
  - pose proof (wp_run_op 0 n op s Hgood Hok Hn) as Hwp. unfold wp in Hwp. by rewrite Hrun in Hwp.
  - cbn [run_op op_cost op_sane] in *. unfold forget, mbind, M_bind in Hrun.
    destruct (map d physical len dir req s) as [[r s1] |] eqn:Hmap; [| done]. injection Hrun as <-.
    by apply (map_returned 0 n s d physical len dir req r s1).
Qed.

Lemma run_ops_returned n ops s s' :
  good 0 n s -> Forall op_sane ops -> cost ops <= n -> for_each run_op ops s = Some (tt, s') -> good 0 (n - cost ops) s'.
Proof.
  revert n s. induction ops as [| op ops IH]; intros n s Hgood Hok Hn; cbn [for_each].
  - intros [= <-]. by apply (good_less 0 n); [| unfold cost; simpl; lia].
  - apply Forall_cons in Hok as [Hop Hok]. rewrite cost_cons in *. pose proof (cost_nonneg ops).
    unfold mbind, M_bind. destruct (run_op op s) as [[[] s1] |] eqn:Hrun; [| done]. intros Hrest.
    replace (n - (op_cost op + cost ops)) with (n - op_cost op - cost ops) by lia.
    apply (IH (n - op_cost op) s1); [| done | lia | done]. apply (run_op_returned n op s); [done | done | lia | done].
Qed.

Lemma op_ok_sane A op : op_ok A op -> op_sane op.
Proof. destruct op; try done; by intros []. Qed.

Lemma wp_run_ops A n ops s :
  good A n s -> Forall (op_ok A) ops -> cost ops <= n -> wp (for_each run_op ops) (fun _ s' => good A (n - cost ops) s') s.
Proof.
  revert n s. induction ops as [| op ops IH]; intros n s Hgood Hok Hn; cbn [for_each].
  - wp_step. by apply (good_less A n); [| unfold cost; simpl; lia].
  - apply Forall_cons in Hok as [Hop Hok]. rewrite cost_cons in *. pose proof (cost_nonneg ops).
    wp_step. eapply wp_mono; [apply (wp_run_op A n); [done | done | lia] |]. intros [] s' Hg.
    eapply wp_mono; [apply (IH (n - op_cost op)); [done | done | lia] |].
    intros [] s2 Hg2. by replace (n - (op_cost op + cost ops)) with (n - op_cost op - cost ops) by lia.
Qed.

(** A controller nothing was asked of yet. *)
Definition idle (b : B) : Prop := hw_ok b /\ (forall e d, ~ hw_attached b e d) /\ forall r, ~ hw_installed b r /\ ~ hw_cached b r.

Lemma new_good A n b capacity : idle b -> 0 <= n -> 1 + n <= U64_MAX -> good A n (new b capacity).
Proof.
  intros (Hw & Ha & Hr) Hn Hle. split; [| unfold budget; simpl; lia].
  split; simpl; [done | ..].
  - split; intros *; rewrite ?lookup_empty; done.
  - intros r [st Hin]. by rewrite lookup_empty in Hin.
  - intros e d Hat. by destruct (Ha e d).
  - intros r Hx. destruct (Hr r). tauto.
  - intros d [st Hin]. by rewrite lookup_empty in Hin.
  - intros id m Hm. by rewrite lookup_empty in Hm.
Qed.

Lemma run_ops_good A ops b capacity :
  idle b -> Forall (op_ok A) ops -> 1 + cost ops <= U64_MAX ->
  wp (for_each run_op ops) (fun _ s => good A 0 s) (new b capacity).
Proof.
  intros Hb Hok Hc. pose proof (cost_nonneg ops).
  eapply wp_mono; [apply (wp_run_ops A (cost ops)); [by apply new_good | done | lia] |].
  intros [] s Hg. by rewrite Z.sub_diag in Hg.
Qed.

(** The ledger after any calls that came back, on any input range. *)
Lemma returned_good ops b capacity s :
  idle b -> Forall op_sane ops -> 1 + cost ops <= U64_MAX ->
  for_each run_op ops (new b capacity) = Some (tt, s) -> good 0 0 s.
Proof.
  intros Hb Hok Hc Hrun. pose proof (cost_nonneg ops).
  assert (good 0 (cost ops - cost ops) s) as Hg; [| by rewrite Z.sub_diag in Hg].
  by apply (run_ops_returned (cost ops) ops (new b capacity)); [apply new_good | ..].
Qed.

(** Calls that leave the search room come back. *)
Lemma run_ops_return A ops b capacity :
  idle b -> Forall (op_ok A) ops -> 1 + cost ops <= U64_MAX ->
  exists s, for_each run_op ops (new b capacity) = Some (tt, s).
Proof. intros Hb Hok Hc. destruct (wp_run _ _ _ (run_ops_good A ops b capacity Hb Hok Hc)) as ([] & s & Hrun & _). eauto. Qed.

(** ** Reachability *)

(** An access the hardware lets through goes by a mapping on the books. *)
Lemma reach_booked A s b e a access p :
  iommu_inv A s -> evolves (backend s) b -> reaches b e a access p ->
  exists id m, mappings s !! id = Some m /\ m_state m <> Released /\ hw_attached b e (m_domain m) /\
    m_iova m <= a < m_iova m + m_len m /\ direction_permits (m_direction m) access = true /\
    p = m_physical m + (a - m_iova m).
Proof.
  intros Hinv E (r & Hat & Hx & Ha & Hp & Hphys). pose proof (inv_evolves A s b Hinv E) as Hinv'.
  pose proof (inv_attached _ _ Hinv' e (row_domain r) Hat) as Hd.
  destruct (inv_booked _ _ Hinv' r Hd Hx) as (id & m & Hm & <- & Hst). exists id, m. done.
Qed.

(** Two translations the hardware holds for one address are one mapping. *)
Lemma one_meaning A s r1 r2 a :
  iommu_inv A s -> is_Some (domains s !! row_domain r1) -> row_domain r1 = row_domain r2 ->
  hw_installed (backend s) r1 \/ hw_cached (backend s) r1 -> hw_installed (backend s) r2 \/ hw_cached (backend s) r2 ->
  row_iova r1 <= a < row_iova r1 + row_len r1 -> row_iova r2 <= a < row_iova r2 + row_len r2 -> r1 = r2.
Proof.
  intros Hinv Hd Hsame H1r H2r Ha1 Ha2.
  destruct (inv_booked _ _ Hinv r1 Hd H1r) as (i & m1 & Hm1 & <- & Hs1).
  destruct (inv_booked _ _ Hinv r2 ltac:(by rewrite <- Hsame) H2r) as (j & m2 & Hm2 & <- & Hs2).
  destruct (decide (i = j)) as [-> | Hne]; [congruence |]. simpl in *.
  pose proof (bk_apart _ _ _ _ (inv_books _ _ Hinv) i j m1 m2 Hm1 Hm2 Hne Hsame Hd Hs1 Hs2) as Hap.
  unfold apart in Hap. lia.
Qed.

(** No device reaches the frames of the mapping [id] by it, now or after anything the
    hardware does on its own: an access that still lands in them goes by another
    mapping that is not released, of the domain of the endpoint that makes it. *)
Definition out_of_reach s (id : Z) (m : Mapping) : Prop :=
  m_state m = Released /\
  forall b e a access p, evolves (backend s) b -> reaches b e a access p -> m_physical m <= p < m_physical m + m_len m ->
    exists j m', j <> id /\ mappings s !! j = Some m' /\ m_state m' <> Released /\ hw_attached b e (m_domain m') /\
      m_iova m' <= a < m_iova m' + m_len m' /\ p = m_physical m' + (a - m_iova m').

Lemma released_out_of_reach A s id m :
  iommu_inv A s -> mappings s !! id = Some m -> m_state m = Released -> out_of_reach s id m.
Proof.
  intros Hinv Hm Hst. split; [done |]. intros b e a access p E Hr Hp.
  destruct (reach_booked A s b e a access p Hinv E Hr) as (j & m' & Hm' & Hs' & Hat & Ha & _ & ->).
  exists j, m'. split; [congruence | done].
Qed.

End sequences.

(** ** Promises *)

(** C9: Device isolation. From an idle controller, after any sequence of calls into the
    manager that came back and of moves of the hardware, an access by any endpoint that
    the hardware lets through - from its tables or from a cache, now or after it moves
    on - goes by a mapping on the books that is not released, of the domain the endpoint
    is attached to, at an address that mapping covers and in a direction it permits, and
    lands inside that mapping's frames. This holds for every input range a controller
    may report, the whole address space included. The calls do come back when the input
    ranges and reserved regions end an alignment below the end of the address space;
    past that the search may overflow, see [allocate_may_panic]. The hardware is any
    backend that keeps the promises of the trait, the frames lie inside the physical
    address space, and the 64-bit counters do not run out. *)
Theorem dma_isolation {B} `{BackendLaws B} (ops : list (DmaOp B)) (b : B) capacity :
  idle b -> Forall op_sane ops -> 1 + cost ops <= U64_MAX ->
  (forall s, for_each run_op ops (new b capacity) = Some (tt, s) ->
    forall b' e a access p, evolves (backend s) b' -> reaches b' e a access p ->
    exists id m, mappings s !! id = Some m /\ m_state m <> Released /\ hw_attached b' e (m_domain m) /\
      m_iova m <= a < m_iova m + m_len m /\ direction_permits (m_direction m) access = true /\
      p = m_physical m + (a - m_iova m)) /\
  (forall A, Forall (op_ok A) ops -> exists s, for_each run_op ops (new b capacity) = Some (tt, s)).
Proof.
  intros Hb Hok Hc. split; [| intros A HA; by apply (run_ops_return A)]. intros s Hrun b' e a access p E Hr.
  destruct (returned_good ops b capacity s Hb Hok Hc Hrun) as [Hinv _]. by apply (reach_booked 0).
Qed.

(** C14: Completion precedes reuse. In every state calls into the manager that came back
    leave, on any input range, closing a mapping and revoking an endpoint return. When a
    close answers that the frames are reusable, no device reaches them by that mapping
    any more, now or after anything the hardware does on its own: an access that still
    lands in them goes by another mapping on the books, of the domain its endpoint is
    attached to, as the frame of an interrupt doorbell that every domain maps is still
    written by the other domains. When a revoke answers so, the endpoint is detached
    from the domain and the same holds for every mapping of the domain. *)
Theorem reusable_frames_are_out_of_reach {B} `{BackendLaws B} (ops : list (DmaOp B)) (b : B) capacity s :
  idle b -> Forall op_sane ops -> 1 + cost ops <= U64_MAX ->
  for_each run_op ops (new b capacity) = Some (tt, s) ->
  (forall id, exists r s', close id s = Some (r, s') /\
     (r = Ok FramesReusable -> exists m, mappings s' !! id = Some m /\ out_of_reach s' id m)) /\
  (forall d e, u32_range e -> exists r s', revoke_endpoint d e s = Some (r, s') /\
     (r = Ok FramesReusable -> ~ hw_attached (backend s') e d /\
        forall id m, mappings s' !! id = Some m -> m_domain m = d -> out_of_reach s' id m)).
Proof.
  intros Hb Hok Hc Hrun. pose proof (returned_good ops b capacity s Hb Hok Hc Hrun) as Hg. split.
  - intros id. destruct (wp_run _ _ _ (wp_close_mapping 0 0 s id Hg)) as (r & s' & Hcl & [Hinv _] & Hr).
    exists r, s'. split; [done |]. intros ->. destruct Hr as (m & Hm & Hst). exists m. split; [done |].
    by apply (released_out_of_reach 0).
  - intros d e He. destruct (wp_run _ _ _ (wp_revoke_endpoint 0 0 s d e Hg He)) as (r & s' & Hre & [Hinv _] & Hr).
    exists r, s'. split; [done |]. intros Heq. destruct (Hr Heq) as [Hat Hrel]. split; [done |].
    intros id m Hm Hd. apply (released_out_of_reach 0); eauto.
Qed.

(** A bus address means one thing. After any calls that came back and hardware moves,
    two translations of one live domain that the hardware holds or may still answer from
    a cache, and that cover a common address, are the same translation: an address is
    not handed out again while a device may still resolve its last use. *)
Theorem address_means_one_thing {B} `{BackendLaws B} (ops : list (DmaOp B)) (b : B) capacity s :
  idle b -> Forall op_sane ops -> 1 + cost ops <= U64_MAX ->
  for_each run_op ops (new b capacity) = Some (tt, s) ->
    forall r1 r2 a, is_Some (domains s !! row_domain r1) -> row_domain r1 = row_domain r2 ->
      hw_installed (backend s) r1 \/ hw_cached (backend s) r1 ->
      hw_installed (backend s) r2 \/ hw_cached (backend s) r2 ->
      row_iova r1 <= a < row_iova r1 + row_len r1 -> row_iova r2 <= a < row_iova r2 + row_len r2 -> r1 = r2.
Proof.
  intros Hb Hok Hc Hrun r1 r2 a ? ? ? ? ? ?. destruct (returned_good ops b capacity s Hb Hok Hc Hrun) as [Hinv _].
  by eapply (one_meaning 0 s r1 r2 a).
Qed.

(** First fit. In a well-formed address space whose ends leave room for the
    rounding, [allocate] returns, with the lowest aligned non-zero address of the
    negotiated range that has room for the request, now taken and apart from every
    reserved, quarantined and taken range, or with [NoSpace] and the space unchanged
    when no aligned address has room. *)
Theorem allocate_finds_the_first_fit s len alignment :
  space_ok s -> 0 < len -> is_power_of_two alignment = true -> alignment < U64_MAX -> headroom s alignment ->
  exists r s', IovaSpace.allocate len alignment s = Some (r, s') /\
    match r with
    | Ok a =>
        (alignment | a) /\ 0 < a /\ sp_base s <= a /\ room_at s len a /\
        (forall c, (alignment | c) -> Z.max (sp_base s) alignment <= c -> room_at s len c -> a <= c) /\
        taken s' = <[a := len]> (taken s) /\ (a + len <= U64_MAX -> space_ok s')
    | Err e =>
        e = NoSpace /\ s' = s /\ forall c, (alignment | c) -> Z.max (sp_base s) alignment <= c -> ~ room_at s len c
    end.
Proof.
  intros Hok Hl Hp Hs Hh. pose proof (is_power_of_two_pos _ Hp) as Ha.
  destruct (allocate_spec s Hok len alignment Hl Ha Hs Hh Hp) as (r & s' & -> & Hr). exists r, s'. split; [done |].
  destruct r as [a | e]; [| done]. destruct Hr as (-> & Hd & Hf & Hroom & Htried). unfold floor_of in *.
  split; [done |]. split; [lia |]. split; [lia |]. split; [done |]. split; [| split; [done |]].
  - intros c Hdc Hfc Hroomc. apply Z.nlt_ge. intros Hlt. apply (Htried c Hdc); [unfold floor_of; lia | done].
  - intros Htop. apply space_insert_ok; [done | done | lia | done | done].
Qed.

(** A search that runs into a region reserved up to the last addresses overflows
    when it rounds up past it, and takes the kernel down: a controller that reports
    the whole range and reserves all of it but the last byte does that to the first
    mapping. *)
Theorem allocate_may_panic :
  IovaSpace.allocate 4096 4096 (IovaSpace.new 0 U64_MAX [mkReserved 0 U64_MAX]) = None.
Proof. vm_compute. reflexivity. Qed.

(** [plan] may answer with a bounce no staging buffer can serve: a device that
    addresses 16 bits is told to stage 128 KiB, and every buffer of that length is
    refused. *)
Theorem plan_may_bounce_what_cannot_be_staged :
  let r := mkRequirements 16 4096 1 true in
  requirements_new 16 4096 1 true = Ok r /\
  plan [mkSegment 0x100000 0x20000] r = Some (Ok (BounceOf 0x20000)) /\
  forall bytes physical, 0 <= physical -> Z.of_nat (length bytes) = 0x20000 -> Bounce.new bytes physical r = Err OutOfRange.
Proof.
  split; [reflexivity |]. split; [reflexivity |]. intros bytes physical Hp Hlen. unfold Bounce.new.
  rewrite bool_decide_false by (intros ->; done). rewrite Hlen.
  replace (permits _ physical 0x20000) with false; [done |]. symmetry. unfold permits, checked_add, ceiling. simpl.
  destruct (Z.leb_spec (physical + 131072) U64_MAX); [| done]. apply andb_false_iff. right. apply Z.leb_gt.
  change (Z.shiftl 1 16) with 65536. lia.
Qed.

(** ** The promises at work *)

Definition demo_req : Requirements := mkRequirements 32 4096 1 true.

(** Two mappings, one close whose unmap is not confirmed, and a doorbell. *)
Definition demo_ops : list (DmaOp Fake) :=
  [OpCreate 0x1000 0x100000 [mkReserved 0x4000 0x1000] 1; OpAttach true 1 7;
   OpMap 1 0x200000 0x2000 ToDevice demo_req; OpHardware (fun b => b);
   OpMap 1 0x300000 0x1000 Bidirectional demo_req; OpMapIdentity 1 0x8000 0x1000 FromDevice; OpClose 2; OpDrain 4 None].
Definition demo_backend : Fake := Fake.inject InjUnmap Unconfirmed Fake.new.

Lemma demo_idle : idle demo_backend.
Proof. split; [done |]. split; [intros e d; apply not_elem_of_nil |]. intros r. split; [done | intros []]. Qed.

Lemma demo_ok : Forall (op_ok 4096) demo_ops.
Proof.
  assert (req_ok 4096 demo_req) by (by split).
  unfold demo_ops. repeat (apply Forall_cons; split); simpl; try done.
  split; split; [done | | done | split; [done |]].
  - split; [done |]. by intros r ->%list_elem_of_singleton.
  - by intros r ->%list_elem_of_singleton.
Qed.

Lemma demo_sane : Forall op_sane demo_ops.
Proof. eapply Forall_impl; [exact demo_ok |]. intros op. apply op_ok_sane. Qed.

(** A controller that translates the whole address space. *)
Definition full_ops : list (DmaOp Fake) :=
  [OpCreate 0 U64_MAX [] 1; OpAttach true 1 7; OpMap 1 0x200000 0x2000 ToDevice demo_req;
   OpMap 1 0x300000 0x1000 Bidirectional demo_req; OpClose 1].

Lemma full_sane : Forall op_sane full_ops.
Proof.
  unfold full_ops. repeat (apply Forall_cons; split); simpl; try done.
  split; [done |]. split; [done |]. by intros r ?%not_elem_of_nil.
Qed.

Lemma dma_isolation_witness :
  (exists s, for_each run_op demo_ops (new demo_backend 4) = Some (tt, s)) /\
  exists s, for_each run_op full_ops (new demo_backend 4) = Some (tt, s) /\
    (forall b' e a access p, evolves (backend s) b' -> reaches b' e a access p ->
     exists id m, mappings s !! id = Some m /\ m_state m <> Released /\ hw_attached b' e (m_domain m) /\
       m_iova m <= a < m_iova m + m_len m /\ direction_permits (m_direction m) access = true /\
       p = m_physical m + (a - m_iova m)) /\
    reaches (backend s) 7 0x3010 Read 0x300010.
Proof.
  split; [apply (proj2 (dma_isolation demo_ops demo_backend 4 demo_idle demo_sane ltac:(by vm_compute)) 4096 demo_ok) |].
  destruct (dma_isolation full_ops demo_backend 4 demo_idle full_sane ltac:(by vm_compute)) as [Hiso _].
  destruct (for_each run_op full_ops (new demo_backend 4)) as [[[] s] |] eqn:Hrun; [| by vm_compute in Hrun].
  exists s. split; [done |]. split; [by apply Hiso |]. vm_compute in Hrun. injection Hrun as <-.
  exists (mkRow 1 0x3000 0x300000 0x1000 Bidirectional). split; [left |]. split; [by left |]. split; [simpl; lia |]. done.
Defined.

Definition demo_state : Iommu Fake :=
  match for_each run_op demo_ops (new demo_backend 4) with Some (_, s) => s | None => new demo_backend 4 end.

Lemma reusable_frames_are_out_of_reach_witness :
  fst <$> close 1 demo_state = Some (Ok FramesReusable) /\
  (forall id, exists r s', close id demo_state = Some (r, s') /\
     (r = Ok FramesReusable -> exists m, mappings s' !! id = Some m /\ out_of_reach s' id m)) /\
  (forall d e, u32_range e -> exists r s', revoke_endpoint d e demo_state = Some (r, s') /\
     (r = Ok FramesReusable -> ~ hw_attached (backend s') e d /\
        forall id m, mappings s' !! id = Some m -> m_domain m = d -> out_of_reach s' id m)).
Proof.
  split; [vm_compute; reflexivity |].
  apply (reusable_frames_are_out_of_reach demo_ops demo_backend 4); [exact demo_idle | exact demo_sane | by vm_compute |].
  vm_compute. reflexivity.
Defined.

Lemma address_means_one_thing_witness :
  let s := demo_state in
    forall r1 r2 a, is_Some (domains s !! row_domain r1) -> row_domain r1 = row_domain r2 ->
      hw_installed (backend s) r1 \/ hw_cached (backend s) r1 ->
      hw_installed (backend s) r2 \/ hw_cached (backend s) r2 ->
      row_iova r1 <= a < row_iova r1 + row_len r1 -> row_iova r2 <= a < row_iova r2 + row_len r2 -> r1 = r2.
Proof. apply (address_means_one_thing demo_ops demo_backend 4); [exact demo_idle | exact demo_sane | by vm_compute | by vm_compute]. Defined.

(** A space with a reserved region and a taken range: the request goes past both. *)
Definition demo_space : IovaSpace := mkIovaSpace 0x1000 0x9000 {[0x1000 := 0x2000]} [mkReserved 0x4000 0x1000] [].

Lemma demo_space_ok : space_ok demo_space.
Proof.
  assert (forall start len, taken demo_space !! start = Some len -> start = 0x1000 /\ len = 0x2000) as Ht.
  { intros start len. cbn [taken demo_space]. by intros [<- <-]%lookup_singleton_Some. }
  assert (forall r, r ∈ reserved demo_space ++ quarantined demo_space -> r = mkReserved 0x4000 0x1000) as Hr.
  { intros r Hin. by apply list_elem_of_singleton in Hin. }
  split; try done.
  - intros r ->%Hr. done.
  - intros start len [-> ->]%Ht. done.
  - intros s1 l1 s2 l2 [-> ->]%Ht [-> ->]%Ht. lia.
  - intros start len a r [-> ->]%Ht Ha ->%Hr. unfold region_covers. simpl. lia.
Qed.

Lemma allocate_finds_the_first_fit_witness :
  exists s', IovaSpace.allocate 0x2000 0x1000 demo_space = Some (Ok 0x5000, s') /\
    room_at demo_space 0x2000 0x5000 /\
    (forall c, (0x1000 | c) -> 0x1000 <= c -> room_at demo_space 0x2000 c -> 0x5000 <= c).
Proof.
  assert (headroom demo_space 0x1000) as Hh.
  { split; [done |]. split; [done |]. intros r ->%list_elem_of_singleton. done. }
  destruct (allocate_finds_the_first_fit demo_space 0x2000 0x1000 demo_space_ok ltac:(lia) eq_refl ltac:(lia) Hh) as (r & s' & Hal & Hr).
  exists s'. assert (r = Ok 0x5000) as -> by (vm_compute in Hal; congruence).
  split; [exact Hal |]. destruct Hr as (_ & _ & _ & Hroom & Hmin & _). split; [exact Hroom | exact Hmin].
Defined.
