(* ===== verification/DmaVirtio.v ===== *)
(** The [virtio-iommu] backend (dma/src/virtio_iommu.rs): the wire format, what is
    believed of a device's configuration, answers and fault records, and the backend
    over a transport. Bytes are [Z] in [0, 256). The counter of domain ids is not
    bounded here: its 2^32nd increment would overflow. *)

From S2P Require Import Prelude Dma.

(** ** Constants *)

Definition F_INPUT_RANGE : Z := Z.shiftl 1 0.
Definition F_DOMAIN_RANGE : Z := Z.shiftl 1 1.
Definition F_MAP_UNMAP : Z := Z.shiftl 1 2.
Definition F_PROBE : Z := Z.shiftl 1 4.
Definition F_BYPASS_CONFIG : Z := Z.shiftl 1 6.

Definition T_ATTACH : Z := 0x01.
Definition T_DETACH : Z := 0x02.
Definition T_MAP : Z := 0x03.
Definition T_UNMAP : Z := 0x04.
Definition T_PROBE : Z := 0x05.

Definition PROBE_T_NONE : Z := 0.
Definition PROBE_T_RESV_MEM : Z := 1.
Definition PROBE_TYPE_MASK : Z := 0x0fff.
Definition RESV_MEM_T_MSI : Z := 1.

Definition S_OK : Z := 0.
Definition S_UNSUPP : Z := 2.
Definition S_INVAL : Z := 4.
Definition S_RANGE : Z := 5.
Definition S_NOENT : Z := 6.
Definition S_NOMEM : Z := 8.

Definition MAP_F_READ : Z := Z.shiftl 1 0.
Definition MAP_F_WRITE : Z := Z.shiftl 1 1.

Definition FAULT_R_DOMAIN : Z := 1.
Definition FAULT_R_MAPPING : Z := 2.
Definition FAULT_F_WRITE : Z := Z.shiftl 1 1.
Definition FAULT_F_ADDRESS : Z := Z.shiftl 1 8.

Definition REQ_PROBE_LEN : nat := 72.
Definition PROBE_PROPERTY_HEADER : nat := 4.
Definition PROBE_RESV_MEM_LEN : nat := 20.
Definition TAIL_LEN : nat := 4.
Definition FAULT_LEN : nat := 24.

Definition REQUIRED : Z := Z.lor (Z.lor F_MAP_UNMAP F_INPUT_RANGE) F_DOMAIN_RANGE.

Definition negotiate (offered : Z) : result Z Fault :=
  if negb (Z.land offered REQUIRED =? REQUIRED) then Err Unconfirmed
  else Ok (Z.land offered (Z.lor (Z.lor REQUIRED F_BYPASS_CONFIG) F_PROBE)).

(** ** The configuration of the device *)

Record Config := mkConfig {
  page_size_mask : Z;
  input_start : Z;
  input_end : Z;
  domain_start : Z;
  domain_end : Z;
  probe_size : Z;
  bypass : Z;
}.

Definition byte_at (bytes : list Z) (at_ : nat) : Z := nth at_ bytes 0.
Definition le16 (bytes : list Z) (at_ : nat) : Z := le_decode (firstn 2 (skipn at_ bytes)).
Definition le32 (bytes : list Z) (at_ : nat) : Z := le_decode (firstn 4 (skipn at_ bytes)).
Definition le64 (bytes : list Z) (at_ : nat) : Z := le_decode (firstn 8 (skipn at_ bytes)).

(** [u64::trailing_zeros] of a mask that is not zero. *)
Fixpoint low_bit (n : nat) (i z : Z) : Z :=
  match n with
  | O => i
  | S n => if Z.testbit z i then i else low_bit n (i + 1) z
  end.

Module Config.

Definition parse (bytes : list Z) : result Config Fault :=
  if (length bytes <? 36)%nat then Err Malformed
  else
    let config := mkConfig (le64 bytes 0) (le64 bytes 8) (le64 bytes 16) (le32 bytes 24) (le32 bytes 28) (le32 bytes 32)
      (if (36 <? length bytes)%nat then byte_at bytes 36 else 0) in
    if (input_end config <? input_start config) || (domain_end config <? domain_start config) then Err Malformed
    else if page_size_mask config =? 0 then Err Malformed
    else Ok config.

Definition smallest_page (c : Config) : Z := Z.shiftl 1 (low_bit 64 0 (page_size_mask c)).

Definition input_len (c : Config) : Z := sat_add64 (sat_sub64 (input_end c) (input_start c)) 1.

Definition contains (c : Config) (address len : Z) : bool :=
  match checked_add U64_MAX address len with
  | Some end_ => (input_start c <=? address) && (end_ - 1 <=? input_end c)
  | None => false
  end.

End Config.

(** ** Requests and answers *)

Definition encode_attach (domain endpoint flags : Z) : list Z :=
  [T_ATTACH; 0; 0; 0] ++ le_encode 4 domain ++ le_encode 4 endpoint ++ le_encode 4 flags ++ repeat 0 4.

Definition encode_detach (domain endpoint : Z) : list Z :=
  [T_DETACH; 0; 0; 0] ++ le_encode 4 domain ++ le_encode 4 endpoint ++ repeat 0 8.

Definition map_flags (direction : Direction) : Z :=
  let flags := if device_may_read direction then Z.lor 0 MAP_F_READ else 0 in
  if device_may_write direction then Z.lor flags MAP_F_WRITE else flags.

Definition encode_map (domain virt_start len phys_start : Z) (direction : Direction) : result (list Z) Fault :=
  if len =? 0 then Err Malformed
  else
    match checked_add U64_MAX virt_start (len - 1) with
    | None => Err Malformed
    | Some virt_end =>
        Ok ([T_MAP; 0; 0; 0] ++ le_encode 4 domain ++ le_encode 8 virt_start ++ le_encode 8 virt_end
            ++ le_encode 8 phys_start ++ le_encode 4 (map_flags direction))
    end.

Definition encode_unmap (domain virt_start len : Z) : result (list Z) Fault :=
  if len =? 0 then Err Malformed
  else
    match checked_add U64_MAX virt_start (len - 1) with
    | None => Err Malformed
    | Some virt_end =>
        Ok ([T_UNMAP; 0; 0; 0] ++ le_encode 4 domain ++ le_encode 8 virt_start ++ le_encode 8 virt_end ++ le_encode 4 0)
    end.

Definition encode_probe (endpoint : Z) : list Z :=
  let out := [T_PROBE; 0; 0; 0] ++ le_encode 4 endpoint in
  out ++ repeat 0 (REQ_PROBE_LEN - length out).

(** The answers of fallible reservations, in order; one that is not recorded grants. *)
Definition memory : Type := list bool.
Definition reserve (m : memory) : bool * memory := match m with [] => (true, []) | b :: m => (b, m) end.

(** [while at + PROBE_PROPERTY_HEADER <= properties.len()]: every turn moves [at_] by a
    header at least, so the length of the properties is fuel enough. *)
Fixpoint decode_properties (fuel : nat) (properties : list Z) (at_ : nat) (out : list ProbedRegion) (mem : memory) :
    result (list ProbedRegion) Fault * memory :=
  match fuel with
  | O => (Ok out, mem)
  | S fuel =>
      if (at_ + PROBE_PROPERTY_HEADER <=? length properties)%nat then
        let kind := Z.land (le16 properties at_) PROBE_TYPE_MASK in
        let len := Z.to_nat (le16 properties (at_ + 2)) in
        if kind =? PROBE_T_NONE then (Ok out, mem)
        else
          let body := (at_ + PROBE_PROPERTY_HEADER)%nat in
          let stop := (body + len)%nat in
          if (length properties <? stop)%nat then (Err Malformed, mem)
          else if (kind =? PROBE_T_RESV_MEM) && (PROBE_RESV_MEM_LEN <=? len)%nat then
            let subtype := byte_at properties body in
            let start := le64 properties (body + 4) in
            let last := le64 properties (body + 12) in
            if start <=? last then
              match checked_add U64_MAX (last - start) 1 with
              | None => (Err Malformed, mem)
              | Some len =>
                  let kind := if subtype =? RESV_MEM_T_MSI then MsiDoorbell else RegionReserved in
                  let (granted, mem) := reserve mem in
                  if granted then decode_properties fuel properties stop (out ++ [mkProbedRegion kind start len]) mem
                  else (Err NoSpace, mem)
              end
            else decode_properties fuel properties stop out mem
          else decode_properties fuel properties stop out mem
      else (Ok out, mem)
  end.

Definition decode_probe (properties : list Z) (mem : memory) : result (list ProbedRegion) Fault * memory :=
  decode_properties (length properties) properties 0 [] mem.

Definition decode_status (tail : list Z) : result unit Fault :=
  if (length tail <? TAIL_LEN)%nat then Err Unconfirmed
  else
    let code := byte_at tail 0 in
    if code =? S_OK then Ok tt
    else if code =? S_RANGE then Err OutOfRange
    else if code =? S_INVAL then Err Malformed
    else if code =? S_NOENT then Err NotMapped
    else if code =? S_NOMEM then Err NoSpace
    else if code =? S_UNSUPP then Err Unconfirmed
    else Err Unconfirmed.

Definition decode_fault (bytes : list Z) (generation domain : Z) : result FaultEvent Fault :=
  if (length bytes <? FAULT_LEN)%nat then Err Malformed
  else
    let reason := byte_at bytes 0 in
    let flags := le32 bytes 4 in
    let endpoint := le32 bytes 8 in
    let address := if negb (Z.land flags FAULT_F_ADDRESS =? 0) then Some (le64 bytes 16) else None in
    let access := if negb (Z.land flags FAULT_F_WRITE =? 0) then Write else Read in
    let reason :=
      if reason =? FAULT_R_DOMAIN then UnknownEndpoint
      else if reason =? FAULT_R_MAPPING then NotMapped
      else Unconfirmed in
    Ok (mkFaultEvent endpoint domain generation address access reason).

(** ** The transport and the backend over it *)

(** [tr_request request n status_at] hands the device a request and gives the [n]
    bytes it wrote; [tr_take_event] gives the bytes of one record, none of them for a
    completion without a record, or [None] for an empty queue. *)
Class Transport (T : Type) := {
  tr_event_capacity : T -> option Z;
  tr_request : list Z -> nat -> nat -> T -> result (list Z) Fault * T;
  tr_take_event : T -> option (list Z) * T;
}.

Record VirtioIommu (T : Type) := mkVirtioIommu {
  vi_transport : T;
  vi_config : Config;
  vi_features : Z;
  vi_next_domain : Z;
  vi_attached : list (Z * Z);
  vi_dropped_faults : Z;
  vi_emptied : bool;
  vi_memory : memory;
}.
Arguments mkVirtioIommu {T} _ _ _ _ _ _ _ _.
Arguments vi_transport {T} _.
Arguments vi_config {T} _.
Arguments vi_features {T} _.
Arguments vi_next_domain {T} _.
Arguments vi_attached {T} _.
Arguments vi_dropped_faults {T} _.
Arguments vi_emptied {T} _.
Arguments vi_memory {T} _.

Module VirtioIommu.
Section backend.
Context {T : Type} `{Transport T}.
Implicit Types b : VirtioIommu T.

Definition set_transport (t : T) b : VirtioIommu T :=
  mkVirtioIommu t (vi_config b) (vi_features b) (vi_next_domain b) (vi_attached b) (vi_dropped_faults b) (vi_emptied b) (vi_memory b).
Definition set_attached (l : list (Z * Z)) b : VirtioIommu T :=
  mkVirtioIommu (vi_transport b) (vi_config b) (vi_features b) (vi_next_domain b) l (vi_dropped_faults b) (vi_emptied b) (vi_memory b).
Definition set_next_domain (n : Z) b : VirtioIommu T :=
  mkVirtioIommu (vi_transport b) (vi_config b) (vi_features b) n (vi_attached b) (vi_dropped_faults b) (vi_emptied b) (vi_memory b).
Definition set_memory (m : memory) b : VirtioIommu T :=
  mkVirtioIommu (vi_transport b) (vi_config b) (vi_features b) (vi_next_domain b) (vi_attached b) (vi_dropped_faults b) (vi_emptied b) m.
Definition set_drained (t : T) (dropped : Z) (emptied : bool) b : VirtioIommu T :=
  mkVirtioIommu t (vi_config b) (vi_features b) (vi_next_domain b) (vi_attached b) dropped emptied (vi_memory b).

Definition new (transport : T) (config : Config) (features : Z) (mem : memory) : result (VirtioIommu T) Fault :=
  if negb (Z.land features REQUIRED =? REQUIRED) then Err Unconfirmed
  else Ok (mkVirtioIommu transport config features (Z.max (domain_start config) 1) [] 0 false mem).

Definition send (request : list Z) b : result unit Fault * VirtioIommu T :=
  let (answer, t) := tr_request request TAIL_LEN 0 (vi_transport b) in
  (match answer with Err e => Err e | Ok tail => decode_status tail end, set_transport t b).

Definition replace_transport (t : T) b : VirtioIommu T := set_transport t b.

Fixpoint reattach (pairs : list (Z * Z)) b : result unit Fault * VirtioIommu T :=
  match pairs with
  | [] => (Ok tt, b)
  | (domain, endpoint) :: pairs =>
      match send (encode_attach domain endpoint 0) b with
      | (Ok _, b) => reattach pairs b
      | (Err e, b) => (Err e, b)
      end
  end.
Definition reattach_all b : result unit Fault * VirtioIommu T := reattach (vi_attached b) b.

Definition domain_create b : result Z Fault * VirtioIommu T :=
  if domain_end (vi_config b) <? vi_next_domain b then (Err NoSpace, b)
  else (Ok (vi_next_domain b), set_next_domain (vi_next_domain b + 1) b).

Definition detach (domain endpoint : Z) b : result unit Fault * VirtioIommu T :=
  match send (encode_detach domain endpoint) b with
  | (Ok _, b) => (Ok tt, set_attached (base.filter (fun p => ~ (p.1 = domain /\ p.2 = endpoint)) (vi_attached b)) b)
  | (Err e, b) => (Err e, b)
  end.

Fixpoint detach_all (domain : Z) (endpoints : list Z) b : result unit Fault * VirtioIommu T :=
  match endpoints with
  | [] => (Ok tt, b)
  | endpoint :: endpoints =>
      match detach domain endpoint b with
      | (Ok _, b) => detach_all domain endpoints b
      | (Err e, b) => (Err e, b)
      end
  end.
Definition domain_destroy (domain : Z) b : result unit Fault * VirtioIommu T :=
  detach_all domain (base.filter (fun p => p.1 = domain) (vi_attached b)).*2 b.

Definition attach (domain endpoint : Z) b : result unit Fault * VirtioIommu T :=
  if (domain <? domain_start (vi_config b)) || (domain_end (vi_config b) <? domain) then (Err OutOfRange, b)
  else
    let (granted, mem) := reserve (vi_memory b) in
    let b := set_memory mem b in
    if negb granted then (Err NoSpace, b)
    else
      let (answer, b) := send (encode_attach domain endpoint 0) b in
      if is_ok answer || bool_decide (answer = Err Unconfirmed) then
        (answer, set_attached (vi_attached b ++ [(domain, endpoint)]) b)
      else (answer, b).

Definition map (domain iova physical len : Z) (direction : Direction) b : result unit Fault * VirtioIommu T :=
  if negb (Config.contains (vi_config b) iova len) then (Err OutOfRange, b)
  else
    let page := Config.smallest_page (vi_config b) in
    if negb (iova mod page =? 0) || negb (len mod page =? 0) then (Err Malformed, b)
    else
      match encode_map domain iova len physical direction with
      | Err e => (Err e, b)
      | Ok request => send request b
      end.

Definition unmap (domain iova len : Z) b : result unit Fault * VirtioIommu T :=
  match encode_unmap domain iova len with
  | Err e => (Err e, b)
  | Ok request => send request b
  end.

Definition invalidate (domain : Z) b : result unit Fault * VirtioIommu T := (Ok tt, b).

(** [while written < out.len()]; [budget] is [out.len() - written]. *)
Fixpoint drain_loop (budget : nat) (attached : list (Z * Z)) (t : T) (dropped : Z) (kept : list FaultEvent) :
    list FaultEvent * T * Z * bool :=
  match budget with
  | O => (kept, t, dropped, false)
  | S budget =>
      match tr_take_event t with
      | (None, t) => (kept, t, dropped, true)
      | (Some [], t) => drain_loop budget attached t (dropped + 1) kept
      | (Some raw, t) =>
          match decode_fault (firstn FAULT_LEN raw) 0 0 with
          | Err _ => drain_loop budget attached t (dropped + 1) kept
          | Ok event =>
              let event :=
                match list_find (fun p => p.2 = ev_endpoint event) attached with
                | Some (_, (domain, _)) => stamp domain (ev_generation event) event
                | None => event
                end in
              drain_loop budget attached t dropped (kept ++ [event])
          end
      end
  end.
Definition drain_faults (room : nat) b : list FaultEvent * VirtioIommu T :=
  let '(kept, t, dropped, emptied) := drain_loop room (vi_attached b) (vi_transport b) 0 [] in
  (kept, set_drained t (sat_add64 (vi_dropped_faults b) dropped) emptied b).

Definition enforces_directions b : bool := negb (Z.land (vi_features b) F_MAP_UNMAP =? 0).

Definition probe (endpoint : Z) b : result (list ProbedRegion) Fault * VirtioIommu T :=
  if (Z.land (vi_features b) F_PROBE =? 0) || (probe_size (vi_config b) =? 0) then (Ok [], b)
  else
    let size := Z.to_nat (probe_size (vi_config b)) in
    let (granted, mem) := reserve (vi_memory b) in
    let b := set_memory mem b in
    if negb granted then (Err NoSpace, b)
    else
      let (answer, t) := tr_request (encode_probe endpoint) (size + TAIL_LEN) size (vi_transport b) in
      let b := set_transport t b in
      match answer with
      | Err e => (Err e, b)
      | Ok answer =>
          match decode_status (skipn size answer) with
          | Err e => (Err e, b)
          | Ok _ => let (r, mem) := decode_probe (firstn size answer) (vi_memory b) in (r, set_memory mem b)
          end
      end.

End backend.
End VirtioIommu.

#[export] Instance virtio_backend {T} `{Transport T} : Backend (VirtioIommu T) := {
  be_domain_create := VirtioIommu.domain_create;
  be_domain_destroy := VirtioIommu.domain_destroy;
  be_attach := VirtioIommu.attach;
  be_detach := VirtioIommu.detach;
  be_map := VirtioIommu.map;
  be_unmap := VirtioIommu.unmap;
  be_invalidate := VirtioIommu.invalidate;
  be_drain_faults := VirtioIommu.drain_faults;
  be_transport_was_emptied := vi_emptied;
  be_fault_queue_capacity b := tr_event_capacity (vi_transport b);
  be_enforces_directions := VirtioIommu.enforces_directions;
  be_probe := VirtioIommu.probe;
}.
