(* ===== verification/DmaVirtioProps.v ===== *)
(** The [virtio-iommu] backend keeps the promises of [Backend] over any device that
    does what its published format says: what each request means on the wire, what a
    status byte promises, and that the backend's requests and records add up to the
    interface the manager relies on. *)

From S2P Require Import Prelude Dma DmaIova DmaReach DmaOps DmaRevoke DmaProps DmaVirtio.

(** ** The device, from its specification *)

(** A request as the device reads it off the wire. *)
Inductive request :=
| RAttach (domain endpoint flags : Z)
| RDetach (domain endpoint : Z)
| RMap (domain virt_start virt_end phys_start flags : Z)
| RUnmap (domain virt_start virt_end : Z)
| ROther.

Definition parse_request (bytes : list Z) : request :=
  if (byte_at bytes 0 =? 1) && (length bytes =? 20)%nat then RAttach (le32 bytes 4) (le32 bytes 8) (le32 bytes 12)
  else if (byte_at bytes 0 =? 2) && (length bytes =? 20)%nat then RDetach (le32 bytes 4) (le32 bytes 8)
  else if (byte_at bytes 0 =? 3) && (length bytes =? 36)%nat then
    RMap (le32 bytes 4) (le64 bytes 8) (le64 bytes 16) (le64 bytes 24) (le32 bytes 32)
  else if (byte_at bytes 0 =? 4) && (length bytes =? 28)%nat then RUnmap (le32 bytes 4) (le64 bytes 8) (le64 bytes 16)
  else ROther.

(** The accesses a flags word grants. *)
Definition flags_direction (flags : Z) : option Direction :=
  if flags =? 1 then Some ToDevice else if flags =? 2 then Some FromDevice else if flags =? 3 then Some Bidirectional else None.

(** The status codes that say nothing was done. *)
Definition refusal (code : Z) : bool := (code =? 4) || (code =? 5) || (code =? 6) || (code =? 8).

(** What came back says the request was not carried out, or that it was. *)
Definition not_done (answer : result (list Z) Fault) (at_ : nat) : Prop :=
  match answer with Ok bytes => refusal (byte_at bytes at_) = true | Err e => e <> Unconfirmed end.
Definition done_with (answer : result (list Z) Fault) (at_ : nat) : Prop :=
  match answer with Ok bytes => byte_at bytes at_ = 0 | Err _ => False end.

(** The attachments and translations of a device, and its behaviour: it does no more
    than a request asks, nothing when it refuses, and it writes success only once the
    operation has taken effect, its own caches included. *)
Class VirtioDevice (T : Type) `{Transport T} := {
  dev_attached : T -> Z -> Z -> Prop;
  dev_rows : T -> row -> Prop;
  dev_answer req n at_ t bytes t' : tr_request req n at_ t = (Ok bytes, t') -> length bytes = n;
  dev_attaches req n at_ t r t' e d : tr_request req n at_ t = (r, t') -> dev_attached t' e d ->
    dev_attached t e d \/ (~ not_done r at_ /\ exists flags, parse_request req = RAttach d e flags);
  dev_installs req n at_ t r t' x : tr_request req n at_ t = (r, t') -> dev_rows t' x ->
    dev_rows t x \/
    (~ not_done r at_ /\ exists stop flags, parse_request req = RMap (row_domain x) (row_iova x) stop (row_physical x) flags /\
       flags_direction flags = Some (row_direction x) /\ row_len x = stop - row_iova x + 1);
  dev_detached req n at_ t r t' d e : tr_request req n at_ t = (r, t') -> done_with r at_ ->
    parse_request req = RDetach d e -> ~ dev_attached t' e d;
  dev_unmapped req n at_ t r t' d start stop x : tr_request req n at_ t = (r, t') -> done_with r at_ ->
    parse_request req = RUnmap d start stop ->
    row_domain x = d -> row_iova x = start -> row_iova x + row_len x - 1 = stop -> ~ dev_rows t' x;
  dev_event t raw t' : tr_take_event t = (raw, t') ->
    (forall e d, dev_attached t' e d -> dev_attached t e d) /\ (forall x, dev_rows t' x -> dev_rows t x);
}.

(** ** The requests on the wire *)

Lemma le32_encode d pre post :
  u32_range d -> le32 (pre ++ le_encode 4 d ++ post) (length pre) = d.
Proof.
  intros Hd. unfold le32. rewrite drop_app_length. rewrite take_app_length' by (by rewrite length_le_encode).
  apply le_decode_encode. unfold u32_range in Hd. change (256 ^ Z.of_nat 4) with TWO32. lia.
Qed.

Lemma le64_encode d pre post :
  u64_range d -> le64 (pre ++ le_encode 8 d ++ post) (length pre) = d.
Proof.
  intros Hd. unfold le64. rewrite drop_app_length. rewrite take_app_length' by (by rewrite length_le_encode).
  apply le_decode_encode. unfold u64_range in Hd. change (256 ^ Z.of_nat 8) with TWO64. lia.
Qed.

Lemma parse_attach d e : u32_range d -> u32_range e -> parse_request (encode_attach d e 0) = RAttach d e 0.
Proof.
  intros Hd He. transitivity (RAttach (le32 (encode_attach d e 0) 4) (le32 (encode_attach d e 0) 8) (le32 (encode_attach d e 0) 12)); [done |].
  f_equal.
  - by apply (le32_encode d [T_ATTACH; 0; 0; 0]).
  - by apply (le32_encode e ([T_ATTACH; 0; 0; 0] ++ le_encode 4 d)).
Qed.

Lemma parse_detach d e : u32_range d -> u32_range e -> parse_request (encode_detach d e) = RDetach d e.
Proof.
  intros Hd He. transitivity (RDetach (le32 (encode_detach d e) 4) (le32 (encode_detach d e) 8)); [done |]. f_equal.
  - by apply (le32_encode d [T_DETACH; 0; 0; 0]).
  - by apply (le32_encode e ([T_DETACH; 0; 0; 0] ++ le_encode 4 d)).
Qed.

Lemma parse_map d iova len physical dir bytes :
  u32_range d -> range_ok iova len -> u64_range physical -> encode_map d iova len physical dir = Ok bytes ->
  parse_request bytes = RMap d iova (iova + len - 1) physical (map_flags dir).
Proof.
  intros Hd (Hlo & Hlen & Htop) Hp. unfold encode_map, checked_add. rewrite (proj2 (Z.eqb_neq _ _)) by lia.
  rewrite (proj2 (Z.leb_le _ _)) by lia. replace (iova + (len - 1)) with (iova + len - 1) by lia.
  set (stop := iova + len - 1). intros [= <-].
  match goal with |- parse_request ?x = _ => set (bytes := x) end.
  transitivity (RMap (le32 bytes 4) (le64 bytes 8) (le64 bytes 16) (le64 bytes 24) (le32 bytes 32)); [done |].
  assert (u64_range iova /\ u64_range stop) as [Hi Hs] by (unfold u64_range, stop; lia).
  f_equal.
  - by apply (le32_encode d [T_MAP; 0; 0; 0]).
  - by apply (le64_encode iova ([T_MAP; 0; 0; 0] ++ le_encode 4 d)).
  - by apply (le64_encode stop ([T_MAP; 0; 0; 0] ++ le_encode 4 d ++ le_encode 8 iova)).
  - by apply (le64_encode physical ([T_MAP; 0; 0; 0] ++ le_encode 4 d ++ le_encode 8 iova ++ le_encode 8 stop)).
  - destruct dir; reflexivity.
Qed.

Lemma parse_unmap d iova len bytes :
  u32_range d -> range_ok iova len -> encode_unmap d iova len = Ok bytes ->
  parse_request bytes = RUnmap d iova (iova + len - 1).
Proof.
  intros Hd (Hlo & Hlen & Htop). unfold encode_unmap, checked_add. rewrite (proj2 (Z.eqb_neq _ _)) by lia.
  rewrite (proj2 (Z.leb_le _ _)) by lia. replace (iova + (len - 1)) with (iova + len - 1) by lia.
  set (stop := iova + len - 1). intros [= <-].
  match goal with |- parse_request ?x = _ => set (bytes := x) end.
  transitivity (RUnmap (le32 bytes 4) (le64 bytes 8) (le64 bytes 16)); [done |].
  assert (u64_range iova /\ u64_range stop) as [Hi Hs] by (unfold u64_range, stop; lia).
  f_equal.
  - by apply (le32_encode d [T_UNMAP; 0; 0; 0]).
  - by apply (le64_encode iova ([T_UNMAP; 0; 0; 0] ++ le_encode 4 d)).
  - by apply (le64_encode stop ([T_UNMAP; 0; 0; 0] ++ le_encode 4 d ++ le_encode 8 iova)).
Qed.

Lemma flags_of_direction dir : flags_direction (map_flags dir) = Some dir.
Proof. by destruct dir. Qed.

(** What kind of request a first byte makes. *)
Lemma parse_other_attach b bytes d e f : parse_request (b :: bytes) = RAttach d e f -> b = 1.
Proof. unfold parse_request, byte_at. simpl nth. repeat case_match; try done; intros; lia. Qed.

Lemma parse_other_map b bytes d i j p f : parse_request (b :: bytes) = RMap d i j p f -> b = 3.
Proof. unfold parse_request, byte_at. simpl nth. repeat case_match; try done; intros; lia. Qed.

(** ** The laws *)

#[export] Instance virtio_hardware {T} `{VirtioDevice T} : Hardware (VirtioIommu T) := {
  hw_ok b := 0 <= domain_start (vi_config b) /\ domain_end (vi_config b) <= U32_MAX /\ 1 <= vi_next_domain b /\
    (forall e d, dev_attached (vi_transport b) e d -> (d, e) ∈ vi_attached b) /\
    (forall e d, (d, e) ∈ vi_attached b -> u32_range e /\ u32_range d);
  hw_attached b e d := (d, e) ∈ vi_attached b;
  hw_installed b r := dev_rows (vi_transport b) r;
  hw_cached _ _ := False;
  hw_known b d := 1 <= d < vi_next_domain b /\ d <= domain_end (vi_config b);
}.

Section laws.
Context {T : Type} `{VirtioDevice T}.
Implicit Types (b : VirtioIommu T) (t : T).

(** What a status byte means to the caller. *)
Lemma decode_status_done bytes : is_ok (decode_status bytes) = true -> byte_at bytes 0 = 0.
Proof. unfold decode_status, S_OK. repeat case_match; try done. intros _. lia. Qed.

Lemma decode_status_done_or_unsure bytes :
  length bytes = TAIL_LEN -> refusal (byte_at bytes 0) = false ->
  is_ok (decode_status bytes) = true \/ decode_status bytes = Err Unconfirmed.
Proof.
  intros Hlen. unfold decode_status, refusal. rewrite Hlen. change (TAIL_LEN <? TAIL_LEN)%nat with false.
  unfold S_RANGE, S_INVAL, S_NOENT, S_NOMEM. repeat case_match; simpl; auto; lia.
Qed.

(** A request sent: the rest of the backend stays, a confirmation is the device's, and
    what may have been done is confirmed or unconfirmed. *)
Lemma send_spec req b r b' :
  VirtioIommu.send req b = (r, b') ->
  exists answer t', tr_request req TAIL_LEN 0 (vi_transport b) = (answer, t') /\ b' = VirtioIommu.set_transport t' b /\
    (is_ok r = true -> done_with answer 0) /\
    (~ not_done answer 0 -> is_ok r = true \/ r = Err Unconfirmed).
Proof.
  unfold VirtioIommu.send. destruct (tr_request _ _ _ _) as [answer t'] eqn:E. intros [= <- <-].
  exists answer, t'. split; [done |]. split; [done |]. destruct answer as [bytes | e]; simpl.
  - split; [apply decode_status_done |]. intros Hn. apply decode_status_done_or_unsure.
    + by eapply dev_answer.
    + by destruct (refusal _).
  - split; [done |]. intros Hn. right. destruct (decide (e = Unconfirmed)) as [-> | Hne]; [done | by destruct Hn].
Qed.

(** A device that was asked for no attachment and no translation has no more. *)
Definition quiet (req : list Z) : Prop :=
  (forall d e f, parse_request req <> RAttach d e f) /\ (forall d i j p f, parse_request req <> RMap d i j p f).

Lemma quiet_request req n at_ t r t' :
  quiet req -> tr_request req n at_ t = (r, t') ->
  (forall e d, dev_attached t' e d -> dev_attached t e d) /\ (forall x, dev_rows t' x -> dev_rows t x).
Proof.
  intros [Ha Hm] Hr. split.
  - intros e d Hd. destruct (dev_attaches _ _ _ _ _ _ _ _ Hr Hd) as [? | (_ & f & Hf)]; [done | by destruct (Ha d e f)].
  - intros x Hx. destruct (dev_installs _ _ _ _ _ _ _ Hr Hx) as [? | (_ & j & f & Hf & _)]; [done | by destruct (Hm _ _ _ _ _ Hf)].
Qed.

Lemma quiet_head c bytes : c <> 1 -> c <> 3 -> quiet (c :: bytes).
Proof. intros H1 H3. split; [by intros d e f ?%parse_other_attach | by intros d i j p f ?%parse_other_map]. Qed.

(** The transport of a backend may only have lost something. *)
Lemma transport_evolves b t' :
  (forall e d, dev_attached t' e d -> dev_attached (vi_transport b) e d) ->
  (forall x, dev_rows t' x -> dev_rows (vi_transport b) x) -> evolves b (VirtioIommu.set_transport t' b).
Proof. intros Ha Hr. split; simpl; auto. intros (Hs & He & Hn & Hin & Hu). auto 10. Qed.

Lemma send_quiet req b r b' : quiet req -> VirtioIommu.send req b = (r, b') -> evolves b b'.
Proof.
  intros Hq (answer & t' & Ht & -> & _)%send_spec. destruct (quiet_request _ _ _ _ _ _ Hq Ht). by apply transport_evolves.
Qed.

Lemma detach_spec d e b r b' :
  hw_ok b -> VirtioIommu.detach d e b = (r, b') ->
  evolves b b' /\ (is_ok r = true -> vi_attached b' = base.filter (fun p => ~ (p.1 = d /\ p.2 = e)) (vi_attached b)).
Proof.
  intros Hok. unfold VirtioIommu.detach. destruct (VirtioIommu.send _ b) as [r1 b1] eqn:E.
  assert (evolves b b1) as Hev by (by eapply send_quiet; [apply quiet_head | exact E]).
  destruct r1 as [[] | x]; intros [= <- <-]; [| done].
  apply send_spec in E as (answer & t' & Ht & -> & Hdone & _). simpl. split; [| done].
  split; simpl; [| | by apply (evolves_installed _ _ Hev) | tauto | tauto].
  - intros (Hs & He & Hn & Hin & Hu). split; [done |]. split; [done |]. split; [done |].
    split; [| intros e' d' [_ ?]%list_elem_of_filter; auto].
    intros e' d' Ha'. destruct (quiet_request _ _ _ _ _ _ (quiet_head 2 _ ltac:(done) ltac:(done)) Ht) as [Hq _].
    specialize (Hin e' d' (Hq _ _ Ha')). destruct (Hu _ _ Hin) as (He' & Hd').
    apply list_elem_of_filter. split; [| done]. simpl. intros [-> ->].
    by apply (dev_detached _ _ _ _ _ _ d e Ht (Hdone eq_refl) (parse_detach _ _ Hd' He')).
  - intros e' d' [_ Hin]%list_elem_of_filter. done.
Qed.

Lemma detach_all_spec d es b r b' :
  hw_ok b -> VirtioIommu.detach_all d es b = (r, b') ->
  evolves b b' /\ (is_ok r = true -> forall e, (d, e) ∈ vi_attached b' -> e ∉ es).
Proof.
  revert b. induction es as [| e es IH]; simpl; intros b Hok.
  - intros [= <- <-]. split; [done |]. intros _ e _. by intros ?%not_elem_of_nil.
  - destruct (VirtioIommu.detach d e b) as [r1 b1] eqn:E. destruct (detach_spec _ _ _ _ _ Hok E) as [Hev Hl].
    destruct r1 as [[] | x]; [| by intros [= <- <-]].
    intros Hrest. destruct (IH b1 (evolves_ok _ _ Hev Hok) Hrest) as [Hev' Hes]. split; [by transitivity b1 |].
    intros Hr e' Hin. apply not_elem_of_cons. split; [| by apply Hes].
    intros ->. apply (evolves_attached _ _ Hev') in Hin. simpl in Hin. rewrite Hl in Hin by done.
    apply list_elem_of_filter in Hin as [Hne _]. by apply Hne.
Qed.

Lemma destroy_spec d b r b' :
  hw_ok b -> VirtioIommu.domain_destroy d b = (r, b') ->
  evolves b b' /\ (is_ok r = true -> forall e, (d, e) ∉ vi_attached b').
Proof.
  intros Hok Hr. destruct (detach_all_spec _ _ _ _ _ Hok Hr) as [Hev Hes]. split; [done |].
  intros Ho e Hin. apply (Hes Ho e Hin). apply list_elem_of_fmap. exists (d, e). split; [done |].
  apply list_elem_of_filter. split; [done |]. by apply (evolves_attached _ _ Hev).
Qed.

(** The two requests that may give a device something give what they ask for, and only
    when the answer does not deny it. *)
Lemma attach_spec d e b r b' :
  hw_ok b -> hw_known b d -> u32_range e -> VirtioIommu.attach d e b = (r, b') ->
  hw_ok b' /\
  (forall e' d', (d', e') ∈ vi_attached b' ->
     (d', e') ∈ vi_attached b \/ (e' = e /\ d' = d /\ (is_ok r = true \/ r = Err Unconfirmed))) /\
  (forall x, dev_rows (vi_transport b') x -> dev_rows (vi_transport b) x) /\
  vi_next_domain b' = vi_next_domain b /\ vi_config b' = vi_config b.
Proof.
  intros Hok [Hk Hk'] He. unfold VirtioIommu.attach. destruct (_ || _); [intros [= <- <-]; auto |].
  destruct (reserve (vi_memory b)) as [granted mem]. destruct granted; simpl; [| intros [= <- <-]; auto].
  destruct (VirtioIommu.send _ _) as [answer b1] eqn:E. apply send_spec in E as (raw & t' & Ht & -> & _ & Hmay). simpl in Ht.
  destruct Hok as (Hs & Hend & Hn & Hin & Hu).
  assert (u32_range d) as Hd by (unfold u32_range; lia).
  assert (forall e' d', dev_attached t' e' d' -> (d', e') ∈ vi_attached b \/ (~ not_done raw 0 /\ d' = d /\ e' = e)) as Hat.
  { intros e' d' Ha. destruct (dev_attaches _ _ _ _ _ _ _ _ Ht Ha) as [Hb | (Hnd & f & Hf)]; [auto |].
    rewrite parse_attach in Hf by done. injection Hf as <- <- _. auto. }
  assert (forall x, dev_rows t' x -> dev_rows (vi_transport b) x) as Hrows.
  { intros x Hx. destruct (dev_installs _ _ _ _ _ _ _ Ht Hx) as [? | (_ & j & f & Hf & _)]; [done |].
    by rewrite parse_attach in Hf. }
  destruct (is_ok answer || bool_decide (answer = Err Unconfirmed)) eqn:Eans; intros [= <- <-]; simpl.
  - split.
    + split; [done |]. split; [done |]. split; [done |]. split.
      * intros e' d' [Hb | (_ & -> & ->)]%Hat; apply elem_of_app; [by left | right; by apply list_elem_of_singleton].
      * intros e' d' [Hb | [= -> ->]%list_elem_of_singleton]%elem_of_app; auto.
    + split; [| done]. intros e' d' [Hb | [= -> ->]%list_elem_of_singleton]%elem_of_app; [auto |].
      right. split; [done |]. split; [done |]. apply orb_true_iff in Eans as [? | ?%bool_decide_eq_true]; auto.
  - split; [| auto]. split; [done |]. split; [done |]. split; [done |]. split; [| done].
    intros e' d' [Hb | (Hnd & _)]%Hat; [done |]. exfalso. apply orb_false_iff in Eans as [E1 E2%bool_decide_eq_false].
    destruct (Hmay Hnd); congruence.
Qed.

Lemma map_spec d iova physical len dir b r b' :
  hw_ok b -> hw_known b d -> range_ok iova len -> u64_range physical ->
  VirtioIommu.map d iova physical len dir b = (r, b') ->
  (exists t', b' = VirtioIommu.set_transport t' b) /\
  (forall e d, dev_attached (vi_transport b') e d -> dev_attached (vi_transport b) e d) /\
  (forall x, dev_rows (vi_transport b') x -> dev_rows (vi_transport b) x \/
     (x = mkRow d iova physical len dir /\ (is_ok r = true \/ r = Err Unconfirmed))).
Proof.
  intros (_ & Hend & _) [Hk Hk'] Hr Hp. assert (u32_range d) as Hd by (unfold u32_range; lia).
  assert (b = VirtioIommu.set_transport (vi_transport b) b) as Hself by (by destruct b).
  unfold VirtioIommu.map. destruct (negb _); [intros [= <- <-]; eauto |].
  destruct (_ || _); [intros [= <- <-]; eauto |].
  destruct (encode_map _ _ _ _ _) as [req | x] eqn:Ereq; [| intros [= <- <-]; eauto].
  apply (parse_map _ _ _ _ _ _ Hd Hr Hp) in Ereq.
  intros (raw & t' & Ht & -> & _ & Hmay)%send_spec. simpl. split; [eauto |]. split.
  - intros e' d' Ha. destruct (dev_attaches _ _ _ _ _ _ _ _ Ht Ha) as [? | (_ & f & Hf)]; congruence.
  - intros x Hx. destruct (dev_installs _ _ _ _ _ _ _ Ht Hx) as [? | (Hnd & j & f & Hf & Hdir & Hlen)]; [auto |].
    right. split; [| by apply Hmay]. rewrite Ereq in Hf. injection Hf as E1 E2 E3 E4 E5.
    rewrite <- E5, flags_of_direction in Hdir. destruct x as [d' i' p' l' dir']; simpl in *. injection Hdir as <-.
    f_equal; lia.
Qed.

Lemma unmap_spec d iova len b r b' :
  hw_ok b -> VirtioIommu.unmap d iova len b = (r, b') ->
  evolves b b' /\
  (hw_known b d -> range_ok iova len -> is_ok r = true ->
   forall x, row_domain x = d -> row_iova x = iova -> row_len x = len -> ~ dev_rows (vi_transport b') x).
Proof.
  intros (_ & Hend & _). unfold VirtioIommu.unmap.
  destruct (encode_unmap d iova len) as [req | x] eqn:Ereq; [| by intros [= <- <-]].
  intros Hs. split.
  - eapply send_quiet; [| exact Hs]. revert Ereq. unfold encode_unmap. repeat case_match; try done.
    intros [= <-]. by apply quiet_head.
  - intros [Hk Hk'] Hr Hok x Hd Hi Hl. assert (u32_range d) as Hd32 by (unfold u32_range; lia).
    apply (parse_unmap _ _ _ _ Hd32 Hr) in Ereq. apply send_spec in Hs as (raw & t' & Ht & -> & Hdone & _). simpl.
    apply (dev_unmapped _ _ _ _ _ _ _ _ _ x Ht (Hdone Hok) Ereq Hd Hi). lia.
Qed.

Lemma drain_loop_spec budget attached t dropped kept :
  let '(kept', t', _, _) := VirtioIommu.drain_loop budget attached t dropped kept in
  (length kept' <= length kept + budget)%nat /\
  (forall e d, dev_attached t' e d -> dev_attached t e d) /\ (forall x, dev_rows t' x -> dev_rows t x).
Proof.
  revert t dropped kept. induction budget as [| n IH]; intros t dropped kept; simpl; [split; [lia | auto] |].
  destruct (tr_take_event t) as [raw t1] eqn:E. destruct (dev_event _ _ _ E) as [Ha Hr].
  destruct raw as [raw |]; [| split; [lia | auto]].
  assert (forall d k, (length k <= length kept + 1)%nat ->
    let '(kept', t', _, _) := VirtioIommu.drain_loop n attached t1 d k in
    (length kept' <= length kept + S n)%nat /\
    (forall e d, dev_attached t' e d -> dev_attached t e d) /\ (forall x, dev_rows t' x -> dev_rows t x)) as Hrest.
  { intros d k Hk. specialize (IH t1 d k). destruct (VirtioIommu.drain_loop _ _ _ _ _) as [[[k' t'] d'] em].
    destruct IH as (Hl & Ha' & Hr'). split; [lia | auto]. }
  destruct raw as [| c raw]; [by apply Hrest; lia |].
  destruct (decode_fault _ _ _) as [ev | x]; apply Hrest; [rewrite length_app; simpl |]; lia.
Qed.

Lemma drain_spec n b es b' : VirtioIommu.drain_faults n b = (es, b') -> evolves b b' /\ (length es <= n)%nat.
Proof.
  unfold VirtioIommu.drain_faults. pose proof (drain_loop_spec n (vi_attached b) (vi_transport b) 0 []) as Hl.
  destruct (VirtioIommu.drain_loop _ _ _ _ _) as [[[k t'] d'] em]. destruct Hl as (Hn & Ha & Hr). intros [= <- <-].
  split; [| done]. destruct (transport_evolves b t' Ha Hr) as [O A I C K]. by split.
Qed.

Lemma probe_spec e b r b' : VirtioIommu.probe e b = (r, b') -> evolves b b'.
Proof.
  unfold VirtioIommu.probe. destruct (_ || _); [by intros [= <- <-] |].
  destruct (reserve (vi_memory b)) as [granted mem].
  assert (forall m, evolves b (VirtioIommu.set_memory m b)) as Hm by (intros m; by split; simpl; auto).
  destruct granted; simpl; [| intros [= <- <-]; apply Hm].
  destruct (tr_request _ _ _ _) as [answer t'] eqn:Et.
  destruct (quiet_request _ _ _ _ _ _ (quiet_head 5 _ ltac:(done) ltac:(done)) Et) as [Ha Hr].
  assert (forall m, evolves b (VirtioIommu.set_memory m (VirtioIommu.set_transport t' b))) as Hall.
  { intros m. destruct (transport_evolves b t' Ha Hr) as [O A I C K]. by split. }
  destruct answer as [bytes | x]; [| intros [= <- <-]; apply Hall].
  destruct (decode_status _); [| intros [= <- <-]; apply Hall].
  destruct (decode_probe _ _) as [r1 m1]. intros [= <- <-]. apply Hall.
Qed.

#[export] Instance virtio_laws : BackendLaws (VirtioIommu T).
Proof.
  split; simpl.
  - intros b r b' Hok. unfold VirtioIommu.domain_create. destruct (Z.ltb_spec (domain_end (vi_config b)) (vi_next_domain b)); intros [= <- <-]; [done |].
    split.
    + split; simpl; auto; [| lia]. intros (Hs & He & Hn & Hrest). split; [done |]. split; [done |]. split; [lia | done].
    + intros d [= <-]. simpl. destruct Hok as (_ & _ & Hn & _). lia.
  - intros d b r b' Hok Hr. destruct (destroy_spec d b r b' Hok Hr). auto.
  - intros d e b r b' Hok Hk He Hr. destruct (attach_spec d e b r b' Hok Hk He Hr) as (Hok' & Ha & Hx & En & Ec).
    split; [exact Hok' |]. split; [done |]. split; [done |]. split; [tauto |]. by rewrite En, Ec.
  - intros d e b r b' Hok Hr. destruct (detach_spec d e b r b' Hok Hr) as [Hev Hl]. split; [done |].
    intros _ _ Ho. rewrite Hl by done. intros [Hne _]%list_elem_of_filter. by apply Hne.
  - intros d iova p len dir b r b' Hok Hk Hr Hp Hm.
    destruct (map_spec d iova p len dir b r b' Hok Hk Hr Hp Hm) as ([t' ->] & Ha & Hx). simpl in *.
    split; [destruct Hok as (Hs & He & Hn & Hin & Hu); auto 10 |]. auto.
  - intros d iova len b r b' Hok Hr. by apply unmap_spec.
  - intros d b r b' _ [= <- <-]. done.
  - intros n b es b' _. apply drain_spec.
  - intros e b r b' _. apply probe_spec.
Qed.

(** A new transport to a reset device, and attaching again what was attached. *)
Lemma replace_transport_evolves b t :
  (forall e d, ~ dev_attached t e d) -> (forall x, ~ dev_rows t x) -> evolves b (VirtioIommu.replace_transport t b).
Proof. intros Ha Hr. apply transport_evolves; [by intros e d ?%Ha | by intros x ?%Hr]. Qed.

Lemma reattach_spec pairs b r b' :
  hw_ok b -> (forall p, p ∈ pairs -> p ∈ vi_attached b) -> VirtioIommu.reattach pairs b = (r, b') -> evolves b b'.
Proof.
  revert b. induction pairs as [| [d e] pairs IH]; intros b Hok Hp; simpl; [by intros [= <- <-] |].
  destruct (VirtioIommu.send _ b) as [r1 b1] eqn:E.
  assert (evolves b b1 /\ vi_attached b1 = vi_attached b) as [Hev Hl].
  { apply send_spec in E as (raw & t' & Ht & -> & _). split; [| done].
    destruct Hok as (_ & _ & _ & Hin & Hu). assert ((d, e) ∈ vi_attached b) as Hde by (apply Hp; left).
    destruct (Hu e d Hde) as [He Hd]. split; simpl; [| auto | | tauto | auto].
    - intros (Hs & Hend & Hn & _). split; [done |]. split; [done |]. split; [done |]. split; [| done].
      intros e' d' Ha. destruct (dev_attaches _ _ _ _ _ _ _ _ Ht Ha) as [? | (_ & f & Hf)]; [auto |].
      rewrite parse_attach in Hf by done. by injection Hf as <- <- _.
    - intros x Hx. destruct (dev_installs _ _ _ _ _ _ _ Ht Hx) as [? | (_ & j & f & Hf & _)]; [done |].
      by rewrite parse_attach in Hf. }
  destruct r1 as [[] | x]; [| by intros [= <- <-]].
  intros Hr. transitivity b1; [done |]. apply (IH b1); [by apply (evolves_ok _ _ Hev) | | done].
  intros p Hin. rewrite Hl. apply Hp. by right.
Qed.

Lemma reattach_all_evolves b r b' : hw_ok b -> VirtioIommu.reattach_all b = (r, b') -> evolves b b'.
Proof. intros Hok. by apply reattach_spec. Qed.

End laws.

(** ** From the configuration space to the frames *)

Lemma le32_range bytes at_ : Forall byte_range bytes -> 0 <= le32 bytes at_ <= U32_MAX.
Proof.
  intros Hb. unfold le32. set (l := firstn 4 (skipn at_ bytes)).
  assert (Forall byte_range l) as Hl by (by apply Forall_take, Forall_drop).
  pose proof (le_decode_range l Hl) as Hr. assert (length l <= 4)%nat by (unfold l; rewrite length_firstn; lia).
  assert (256 ^ Z.of_nat (length l) <= 256 ^ 4) by (apply Z.pow_le_mono_r; lia). lia.
Qed.

(** What a parsed configuration says of itself. *)
Lemma parse_sound bytes config :
  Forall byte_range bytes -> Config.parse bytes = Ok config ->
  0 <= domain_start config <= domain_end config /\ domain_end config <= U32_MAX /\
  input_start config <= input_end config /\ page_size_mask config <> 0.
Proof.
  intros Hb. unfold Config.parse. destruct (_ <? _)%nat; [done |]. cbv zeta.
  destruct (_ || _) eqn:Er; [done |]. destruct (_ =? 0) eqn:Ep; [done |]. intros [= <-]. cbn [domain_start domain_end input_start input_end page_size_mask] in *.
  pose proof (le32_range bytes 24 Hb). pose proof (le32_range bytes 28 Hb). lia.
Qed.

(** A backend over a device that holds nothing is idle. *)
Lemma virtio_new_idle {T} `{VirtioDevice T} (t : T) bytes config features mem b :
  Forall byte_range bytes -> Config.parse bytes = Ok config -> VirtioIommu.new t config features mem = Ok b ->
  (forall e d, ~ dev_attached t e d) -> (forall x, ~ dev_rows t x) -> idle b.
Proof.
  intros Hb Hc. destruct (parse_sound bytes config Hb Hc) as (Hds & Hde & _ & _).
  unfold VirtioIommu.new. destruct (negb _); [done |]. intros [= <-] Ha Hr. split; [| split]; simpl.
  - split; [lia |]. split; [lia |]. split; [lia |]. split; [by intros e d ?%Ha | by intros e d ?%not_elem_of_nil].
  - intros e d. apply not_elem_of_nil.
  - intros x. split; [apply Hr | tauto].
Qed.

(** C20: A device behind a [virtio-iommu] is confined. From a configuration space that
    parses, a feature set the backend accepts and a device that holds nothing, after any
    sequence of calls into the manager that came back, of hardware moves and of resets
    that attach again, whatever the device itself then holds - an endpoint attached to a
    domain and a translation of that domain - is an unreleased mapping of the ledger,
    and an access it lets through lands inside the frames of that mapping in a direction
    the mapping permits, whatever input range the device reports. The calls do come back
    when the input ranges and reserved regions end an alignment below the end of the
    address space. The device is any that does what the requests say, as they read on
    the wire, and confirms only what it has done. *)
Theorem virtio_device_is_confined {T} `{VirtioDevice T} (ops : list (DmaOp (VirtioIommu T))) (t : T) bytes config features mem b capacity :
  Forall byte_range bytes -> Config.parse bytes = Ok config -> VirtioIommu.new t config features mem = Ok b ->
  (forall e d, ~ dev_attached t e d) -> (forall x, ~ dev_rows t x) ->
  Forall op_sane ops -> 1 + cost ops <= U64_MAX ->
  (forall s, for_each run_op ops (Iommu.new b capacity) = Some (tt, s) ->
    forall e x a access, dev_attached (vi_transport (backend s)) e (row_domain x) -> dev_rows (vi_transport (backend s)) x ->
    row_iova x <= a < row_iova x + row_len x -> direction_permits (row_direction x) access = true ->
    exists id m, mappings s !! id = Some m /\ m_state m <> Released /\ m_domain m = row_domain x /\
      (row_domain x, e) ∈ vi_attached (backend s) /\
      m_iova m <= a < m_iova m + m_len m /\ direction_permits (m_direction m) access = true /\
      row_physical x + (a - row_iova x) = m_physical m + (a - m_iova m)) /\
  (forall A, Forall (op_ok A) ops -> exists s, for_each run_op ops (Iommu.new b capacity) = Some (tt, s)).
Proof.
  intros Hb Hc Hn Ha Hr Hok Hcost. pose proof (virtio_new_idle t bytes config features mem b Hb Hc Hn Ha Hr) as Hidle.
  split; [| intros A HA; by apply (run_ops_return A)]. intros s Hrun e x a access Hat Hx Hcov Hdir.
  destruct (returned_good ops b capacity s Hidle Hok Hcost Hrun) as [Hinv _].
  pose proof (inv_hw _ _ Hinv) as (_ & _ & _ & Hin & _). specialize (Hin _ _ Hat).
  destruct (inv_booked _ _ Hinv x (inv_attached _ _ Hinv e _ Hin) (or_introl Hx)) as (id & m & Hm & <- & Hst).
  exists id, m. done.
Qed.

(** ** A device *)

(** A device that keeps lists and answers the next status it was told to, success once
    it runs out; it acts exactly when the status byte says so. *)
Record Device := mkDevice {
  dv_attached : list (Z * Z);
  dv_rows : list row;
  dv_script : list Z;
  dv_events : list (list Z);
}.

Definition device_does (req : request) (v : Device) : Device :=
  match req with
  | RAttach d e _ => mkDevice ((e, d) :: dv_attached v) (dv_rows v) (dv_script v) (dv_events v)
  | RDetach d e => mkDevice (base.filter (fun p => p <> (e, d)) (dv_attached v)) (dv_rows v) (dv_script v) (dv_events v)
  | RMap d start stop physical flags =>
      match flags_direction flags with
      | Some dir => mkDevice (dv_attached v) (mkRow d start physical (stop - start + 1) dir :: dv_rows v) (dv_script v) (dv_events v)
      | None => v
      end
  | RUnmap d start stop =>
      mkDevice (dv_attached v)
        (base.filter (fun x => ~ (row_domain x = d /\ row_iova x = start /\ row_iova x + row_len x - 1 = stop)) (dv_rows v))
        (dv_script v) (dv_events v)
  | ROther => v
  end.

#[export] Instance device_transport : Transport Device := {
  tr_event_capacity _ := None;
  tr_request req n at_ v :=
    let answer := <[at_ := match dv_script v with c :: _ => c | [] => 0 end]> (repeat 0 n) in
    let v := mkDevice (dv_attached v) (dv_rows v) (tail (dv_script v)) (dv_events v) in
    (Ok answer, if byte_at answer at_ =? 0 then device_does (parse_request req) v else v);
  tr_take_event v :=
    (head (dv_events v), mkDevice (dv_attached v) (dv_rows v) (dv_script v) (tail (dv_events v)));
}.

Lemma refusal_not_zero c : refusal c = true -> c <> 0.
Proof. by intros Hr ->. Qed.

#[export] Instance device_is_virtio : VirtioDevice Device.
Proof.
  refine {| dev_attached v e d := (e, d) ∈ dv_attached v; dev_rows v x := x ∈ dv_rows v |}; simpl.
  - intros req n at_ v bytes v' [= <- _]. by rewrite length_insert, repeat_length.
  - intros req n at_ v r v' e d [= <- <-]. case_match eqn:E; simpl; [| by left].
    assert (forall c, c = 0 -> ~ refusal c = true) as Hz by (by intros c -> ).
    destruct (parse_request req) as [d' e' f | d' e' | d' i j p f | d' i j |] eqn:Er; simpl; try by left.
    + intros [[= -> ->] | Hin]%elem_of_cons; [| by left]. right. split; [apply Hz; lia | by eexists].
    + intros [_ Hin]%list_elem_of_filter. by left.
    + destruct (flags_direction f); by left.
  - intros req n at_ v r v' x [= <- <-]. case_match eqn:E; simpl; [| by left].
    assert (forall c, c = 0 -> ~ refusal c = true) as Hz by (by intros c -> ).
    destruct (parse_request req) as [d' e' f | d' e' | d' i j p f | d' i j |] eqn:Er; simpl; try by left.
    + destruct (flags_direction f) as [dir |] eqn:Ef; [| by left]. intros [-> | Hin]%elem_of_cons; [| by left].
      right. split; [apply Hz; lia |]. exists j, f. done.
    + intros [_ Hin]%list_elem_of_filter. by left.
  - intros req n at_ v r v' d e [= <- <-]. simpl. intros -> ->. simpl. by intros [Hne _]%list_elem_of_filter.
  - intros req n at_ v r v' d i j x [= <- <-]. simpl. intros -> -> <- <- <-. simpl. intros [Hne _]%list_elem_of_filter. by apply Hne.
  - intros v raw v' [= _ <-]. done.
Defined.

(** A configuration space of the device: pages of 4 KiB, 48 bits of address, domains 1
    to 9, no probing. *)
Definition demo_config_bytes : list Z :=
  le_encode 8 0x1000 ++ le_encode 8 0 ++ le_encode 8 0xffffffffffff ++ le_encode 4 1 ++ le_encode 4 9 ++ le_encode 4 0.
Definition demo_config : Config := mkConfig 0x1000 0 0xffffffffffff 1 9 0 0.

(** The third request, the first mapping, is answered by a status the backend does not
    know; later the device is reset and attached again. *)
Definition virtio_demo : list (DmaOp (VirtioIommu Device)) :=
  [OpCreate 0x1000 0x100000 [mkReserved 0x4000 0x1000] 1; OpAttach true 1 7;
   OpMap 1 0x200000 0x2000 ToDevice demo_req; OpMap 1 0x300000 0x1000 Bidirectional demo_req;
   OpMapIdentity 1 0x8000 0x1000 FromDevice; OpClose 2;
   OpHardware (VirtioIommu.replace_transport (mkDevice [] [] [] [])); OpReplay VirtioIommu.reattach_all; OpDrain 4 None].
Definition virtio_demo_backend : VirtioIommu Device :=
  mkVirtioIommu (mkDevice [] [] [0; 9] []) demo_config 7 1 [] 0 false [].

Lemma virtio_demo_ok : Forall (op_ok 4096) virtio_demo.
Proof.
  assert (req_ok 4096 demo_req) by (by split).
  unfold virtio_demo. repeat (apply Forall_cons; split); simpl; try done.
  - split; split; [done | | done | split; [done |]].
    + split; [done |]. by intros r ->%list_elem_of_singleton.
    + by intros r ->%list_elem_of_singleton.
  - intros b. apply replace_transport_evolves; [intros e d; apply not_elem_of_nil | intros x; apply not_elem_of_nil].
  - intros b r b' Hok Hr. by apply (reattach_all_evolves b r b').
Qed.

Lemma virtio_device_is_confined_witness :
  exists s, for_each run_op virtio_demo (Iommu.new virtio_demo_backend 4) = Some (tt, s) /\
    dev_attached (vi_transport (backend s)) 7 1 /\ dev_rows (vi_transport (backend s)) (mkRow 1 0x8000 0x8000 0x1000 FromDevice) /\
    exists id m, mappings s !! id = Some m /\ m_state m <> Released /\ m_domain m = 1 /\
      (1, 7) ∈ vi_attached (backend s) /\ m_iova m <= 0x8010 < m_iova m + m_len m /\
      direction_permits (m_direction m) Write = true /\ 0x8000 + (0x8010 - 0x8000) = m_physical m + (0x8010 - m_iova m).
Proof.
  destruct (virtio_device_is_confined virtio_demo (mkDevice [] [] [0; 9] []) demo_config_bytes demo_config 7 []
    virtio_demo_backend 4) as [Hall Hback].
  - repeat (apply Forall_cons; split; [by split |]). by apply Forall_nil.
  - reflexivity.
  - reflexivity.
  - intros e d. apply not_elem_of_nil.
  - intros x. apply not_elem_of_nil.
  - eapply Forall_impl; [exact virtio_demo_ok |]. intros op. apply op_ok_sane.
  - by vm_compute.
  - destruct (Hback 4096 virtio_demo_ok) as [s Hrun]. specialize (Hall s Hrun). exists s. split; [exact Hrun |].
    assert (dev_attached (vi_transport (backend s)) 7 1) as Ha by (vm_compute in Hrun; injection Hrun as <-; left).
    assert (dev_rows (vi_transport (backend s)) (mkRow 1 0x8000 0x8000 0x1000 FromDevice)) as Hr.
    { vm_compute in Hrun. injection Hrun as <-. vm_compute. by left. }
    split; [exact Ha |]. split; [exact Hr |].
    apply (Hall 7 (mkRow 1 0x8000 0x8000 0x1000 FromDevice) 0x8010 Write Ha Hr); simpl; [lia | done].
Defined.
