(* ===== verification/VaPool.v ===== *)
(** The allocator of a virtual-address window (kernel/mem/vapool.rs): a bump cursor with
    a sorted, coalesced list of released ranges. [None] is a panic, of an addition that
    does not fit 64 bits. *)

From S2P Require Import Prelude.

Definition PAGE_SIZE : Z := 4096.

Record VaPool := mkVaPool {
  vp_next : Z;
  vp_end : Z;
  vp_free : vec (Z * Z);
}.

Module VaPool.

Definition new (base end_ : Z) : VaPool := mkVaPool base end_ vec_new.

(** [checked_next_multiple_of] and a plain addition of two [u64]. *)
Definition whole_pages (len : Z) : option Z :=
  if len mod PAGE_SIZE =? 0 then Some len else checked_add U64_MAX len (PAGE_SIZE - len mod PAGE_SIZE).
Definition add64 (a b : Z) : option Z := checked_add U64_MAX a b.

(** The loop over the free list: the first range that is long enough, and the list
    without what it gives. *)
Fixpoint first_fit (len : Z) (l : list (Z * Z)) : option (option (Z * list (Z * Z))) :=
  match l with
  | [] => Some None
  | (base, flen) :: l =>
      if len <=? flen then
        if flen =? len then Some (Some (base, l))
        else rest ← add64 base len; Some (Some (base, (rest, flen - len) :: l))
      else
        found ← first_fit len l;
        Some (match found with Some (b, l) => Some (b, (base, flen) :: l) | None => None end)
  end.

Definition alloc (len : Z) (p : VaPool) : option (Z * VaPool) :=
  match whole_pages len with
  | None => Some (0, p)
  | Some len =>
      if len =? 0 then Some (0, p)
      else
        found ← first_fit len (items (vp_free p));
        match found with
        | Some (base, l) => Some (base, mkVaPool (vp_next p) (vp_end p) (Vec l (capacity (vp_free p))))
        | None =>
            match add64 (vp_next p) len with
            | None => Some (0, p)
            | Some after =>
                if vp_end p <? after then Some (0, p)
                else Some (vp_next p, mkVaPool after (vp_end p) (vp_free p))
            end
        end
  end.

(** [partition_point(|&(b, _)| b < base)] of a list that is sorted. *)
Fixpoint partition_point (base : Z) (l : list (Z * Z)) : nat :=
  match l with
  | [] => 0
  | (b, _) :: l => if b <? base then S (partition_point base l) else 0
  end.

(** The neighbour on the right, then the one on the left, taken into the range. *)
Definition join_right (pos : nat) (base len : Z) (l : list (Z * Z)) : option (Z * list (Z * Z)) :=
  match l !! pos with
  | Some (b, n) =>
      stop ← add64 base len;
      if stop =? b then joined ← add64 len n; Some (joined, delete pos l) else Some (len, l)
  | None => Some (len, l)
  end.
Definition join_left (pos : nat) (base len : Z) (l : list (Z * Z)) : option (Z * Z * list (Z * Z)) :=
  match pos with
  | O => Some (base, len, l)
  | S before =>
      match l !! before with
      | Some (b, n) =>
          stop ← add64 b n;
          if stop =? base then joined ← add64 len n; Some (b, joined, delete before l) else Some (base, len, l)
      | None => None
      end
  end.

Definition free (base len : Z) (p : VaPool) : M heap VaPool :=
  match whole_pages len with
  | None => mret p
  | Some len =>
      match add64 base len with
      | None => mret p
      | Some _ =>
          if len =? 0 then mret p
          else
            let l := items (vp_free p) in
            let cap := capacity (vp_free p) in
            let pos := partition_point base l in
            '(len, l) ← assert_some (join_right pos base len l);
            '(base, len, l) ← assert_some (join_left pos base len l);
            stop ← assert_some (add64 base len);
            if stop =? vp_next p then mret (mkVaPool base (vp_end p) (Vec l cap))
            else
              let pos := partition_point base l in
              '(ok, v) ← try_reserve (Vec l cap) 1;
              if (ok : bool) then
                mret (mkVaPool (vp_next p) (vp_end p) (Vec (take pos (items v) ++ (base, len) :: drop pos (items v)) (capacity v)))
              else mret (mkVaPool (vp_next p) (vp_end p) v)
      end
  end.

End VaPool.
