(* ===== verification/VaPoolProps.v ===== *)
(** The window allocator against its contract: a set of free addresses, of which whole
    pages are taken and given back, kept in the one form that set has. *)

From S2P Require Import Prelude VaPool.

(** ** Lists of ranges *)

Definition aligned (z : Z) : Prop := (PAGE_SIZE | z).

(** Ranges of whole pages, in order, at or above [lo] and ending below [hi], with a gap
    before each and before [hi]. *)
Fixpoint spans_ok (lo : Z) (l : list (Z * Z)) (hi : Z) : Prop :=
  match l with
  | [] => True
  | (b, n) :: l => lo <= b /\ 0 < n /\ aligned b /\ aligned n /\ b + n < hi /\ spans_ok (b + n + 1) l hi
  end.

Definition covers (l : list (Z * Z)) (a : Z) : Prop := exists r, r ∈ l /\ r.1 <= a < r.1 + r.2.

(** Where the next range may start. *)
Definition after (lo : Z) (l : list (Z * Z)) : Z := foldl (fun _ r => r.1 + r.2 + 1) lo l.

Lemma covers_nil a : ~ covers [] a.
Proof. intros (r & Hr & _). by apply not_elem_of_nil in Hr. Qed.

Lemma covers_cons b n l a : covers ((b, n) :: l) a <-> b <= a < b + n \/ covers l a.
Proof.
  split.
  - intros (r & [-> | Hr]%elem_of_cons & Ha); [by left | right; by exists r].
  - intros [Ha | (r & Hr & Ha)]; [exists (b, n); split; [left | done] | exists r; split; [by right | done]].
Qed.

Lemma covers_app l1 l2 a : covers (l1 ++ l2) a <-> covers l1 a \/ covers l2 a.
Proof. unfold covers. setoid_rewrite elem_of_app. naive_solver. Qed.

Lemma spans_app lo l1 l2 hi : spans_ok lo (l1 ++ l2) hi <-> spans_ok lo l1 hi /\ spans_ok (after lo l1) l2 hi.
Proof. revert lo. induction l1 as [| [b n] l1 IH]; intros lo; simpl; [tauto |]. rewrite IH. tauto. Qed.

Lemma spans_low lo lo' l hi : spans_ok lo l hi -> (forall b n l', l = (b, n) :: l' -> lo' <= b) -> spans_ok lo' l hi.
Proof. destruct l as [| [b n] l]; simpl; [done |]. intros (_ & Hrest) Hlo. split; [by eapply Hlo | done]. Qed.

Lemma after_le lo l hi : spans_ok lo l hi -> lo <= hi -> lo <= after lo l <= hi.
Proof.
  revert lo. induction l as [| [b n] l IH]; intros lo; simpl; [lia |]. intros (Hb & Hn & _ & _ & Hh & Hl) Hlo.
  unfold after in *. simpl in *. specialize (IH _ Hl ltac:(lia)). lia.
Qed.

(** The upper bound may come down to where the list ends. *)
Lemma spans_tighten lo l hi hi' : spans_ok lo l hi -> after lo l <= hi' -> spans_ok lo l hi'.
Proof.
  revert lo. induction l as [| [b n] l IH]; intros lo; simpl; [done |].
  intros (Hb & Hn & Ha & Han & Hh & Hl) Hle. unfold after in Hle. simpl in Hle. fold (after (b + n + 1) l) in Hle.
  pose proof (after_le (b + n + 1) l hi Hl ltac:(lia)). split_and!; try done; [lia | by apply IH].
Qed.

Lemma spans_raise lo l hi hi' : spans_ok lo l hi -> hi <= hi' -> spans_ok lo l hi'.
Proof.
  revert lo. induction l as [| [b n] l IH]; intros lo; simpl; [done |]. intros (Hb & Hn & Ha & Han & Hh & Hl) Hle.
  split_and!; try done; [lia | auto].
Qed.

Lemma covers_range lo l hi a : spans_ok lo l hi -> covers l a -> lo <= a < hi.
Proof.
  revert lo. induction l as [| [b n] l IH]; intros lo; simpl; [by intros _ ?%covers_nil |].
  intros (Hb & Hn & _ & _ & Hh & Hl) [? | Hc]%covers_cons; [lia |]. specialize (IH _ Hl Hc). lia.
Qed.

(** ** The search *)

Lemma first_fit_spec len lo l hi :
  0 < len -> aligned len -> hi <= U64_MAX -> spans_ok lo l hi ->
  exists r, VaPool.first_fit len l = Some r /\
    match r with
    | Some (b, l') =>
        spans_ok lo l' hi /\ (length l' <= length l)%nat /\ aligned b /\ lo <= b /\ b + len < hi /\
        (forall a, b <= a < b + len -> covers l a) /\
        forall a, covers l' a <-> covers l a /\ ~ (b <= a < b + len)
    | None => forall b n, (b, n) ∈ l -> n < len
    end.
Proof.
  intros Hlen Hal Hhi. revert lo. induction l as [| [b n] l IH]; intros lo; simpl.
  { intros _. exists None. split; [done |]. intros b n Hin. by apply not_elem_of_nil in Hin. }
  intros (Hb & Hn & Hab & Han & Hh & Hl).
  assert (forall a, covers l a -> b + n + 1 <= a) as Hout by (intros a Hc; apply (covers_range _ _ _ _ Hl Hc)).
  destruct (Z.leb_spec len n) as [Hle | Hlt].
  - destruct (Z.eqb_spec n len) as [-> | Hne].
    + eexists. split; [done |]. split; [by apply (spans_low (b + len + 1)); [| intros b' n' l' ->; simpl in Hl; lia] |].
      split; [simpl; lia |]. split; [done |]. split; [done |]. split; [done |].
      split; [intros a Ha; apply covers_cons; by left |]. intros a. rewrite covers_cons.
      split; [intros Hc; split; [by right | specialize (Hout a Hc); lia] | tauto].
    + unfold VaPool.add64, checked_add. rewrite (proj2 (Z.leb_le _ _)) by lia. eexists. split; [done |].
      split.
      { simpl. split; [lia |]. split; [lia |]. split; [by apply Z.divide_add_r |]. split; [by apply Z.divide_sub_r |].
        replace (b + len + (n - len)) with (b + n) by lia. split; [lia | done]. }
      split; [simpl; lia |]. split; [done |]. split; [done |]. split; [lia |].
      split; [intros a Ha; apply covers_cons; left; lia |]. intros a. rewrite !covers_cons.
      split; [intros [? | Hc]; [lia | specialize (Hout a Hc); split; [by right | lia]] | intros [[? | ?] ?]; [left; lia | by right]].
  - destruct (IH _ Hl) as (r & -> & Hr). eexists. split; [done |]. destruct r as [[c l'] |].
    + destruct Hr as (Hok & Hlen' & Hac & Hlo & Htop & Hin & Hcov). split; [by simpl; split_and! |].
      split; [simpl; lia |]. split; [done |]. split; [lia |]. split; [done |].
      split; [intros a Ha; apply covers_cons; right; by apply Hin |].
      intros a. rewrite !covers_cons, Hcov. split; [intros [? | [? ?]]; [split; [by left | lia] | tauto] | tauto].
    + intros b' n' [[= -> ->] | Hin]%elem_of_cons; [lia | by eapply Hr].
Qed.

(** ** Joining a range with its neighbours *)

Lemma partition_point_app base l1 l2 :
  (forall r, r ∈ l1 -> r.1 < base) -> (forall r l2', l2 = r :: l2' -> base <= r.1) ->
  VaPool.partition_point base (l1 ++ l2) = length l1.
Proof.
  intros H1 H2. induction l1 as [| [b n] l1 IH]; simpl.
  - destruct l2 as [| [b n] l2]; [done |]. simpl. specialize (H2 _ _ eq_refl). simpl in H2. by rewrite (proj2 (Z.ltb_ge _ _)).
  - specialize (H1 (b, n) ltac:(left)) as Hb. simpl in Hb. rewrite (proj2 (Z.ltb_lt _ _)) by done. f_equal. apply IH.
    intros r Hr. apply H1. by right.
Qed.

(** Where a range that is not in the list belongs. *)
Lemma split_at lo l hi base len :
  spans_ok lo l hi -> lo <= base -> 0 < len -> (forall a, base <= a < base + len -> ~ covers l a) ->
  exists l1 l2, l = l1 ++ l2 /\ (forall r, r ∈ l1 -> r.1 < base) /\ after lo l1 <= base + 1 /\
    spans_ok (base + len) l2 hi.
Proof.
  revert lo. induction l as [| [b n] l IH]; intros lo; simpl.
  { intros _ Hlo _ _. exists [], []. split; [done |]. split; [by intros r ?%not_elem_of_nil |]. split; [unfold after; simpl; lia | done]. }
  intros (Hb & Hn & Hab & Han & Hh & Hl) Hlo Hlen Hfree. destruct (Z.lt_ge_cases b base) as [Hlt | Hge].
  - assert (b + n <= base) as Hle.
    { apply Z.nlt_ge. intros Hgt. apply (Hfree base ltac:(lia)), covers_cons. left. lia. }
    destruct (Z.eq_dec (b + n) base) as [He | Hne].
    + exists [(b, n)], l. split; [done |]. split; [by intros r ->%list_elem_of_singleton |]. split; [unfold after; simpl; lia |].
      apply (spans_low (b + n + 1)); [done |]. intros b' n' l' ->. simpl in Hl. apply Z.nlt_ge. intros Hgt.
      apply (Hfree b' ltac:(lia)). apply covers_cons. right. apply covers_cons. left. lia.
    + destruct (IH (b + n + 1) Hl ltac:(lia) Hlen) as (l1 & l2 & -> & H1 & Ha & H2).
      { intros a Ha Hc. apply (Hfree a Ha), covers_cons. by right. }
      exists ((b, n) :: l1), l2. split; [done |]. split; [intros r [-> | Hr]%elem_of_cons; auto |]. done.
  - exists [], ((b, n) :: l). split; [done |]. split; [by intros r ?%not_elem_of_nil |]. split; [unfold after; simpl; lia |].
    simpl. split; [| done]. apply Z.nlt_ge. intros Hgt. apply (Hfree b ltac:(lia)), covers_cons. left. lia.
Qed.

Lemma join_right_spec l1 l2 hi base len :
  0 < len -> aligned len -> 0 <= base -> base + len <= hi -> hi <= U64_MAX -> spans_ok (base + len) l2 hi ->
  exists len' l2', VaPool.join_right (length l1) base len (l1 ++ l2) = Some (len', l1 ++ l2') /\
    0 < len' /\ aligned len' /\ base + len' <= hi /\ spans_ok (base + len' + 1) l2' hi /\
    (forall a, (base <= a < base + len' \/ covers l2' a) <-> (base <= a < base + len \/ covers l2 a)) /\
    ((len' = len /\ l2' = l2) \/ length l2 = S (length l2')).
Proof.
  intros Hlen Hal Hbase Hhi Hmax Hok. unfold VaPool.join_right, VaPool.add64, checked_add.
  rewrite lookup_app_r, Nat.sub_diag by lia. destruct l2 as [| [b n] l2]; simpl.
  { exists len, []. split; [done |]. split_and!; try done. by left. }
  rewrite (proj2 (Z.leb_le (base + len) U64_MAX)) by lia. destruct Hok as (Hb & Hn & Hab & Han & Hh & Hl). simpl.
  destruct (Z.eqb_spec (base + len) b) as [<- | Hne].
  - rewrite (proj2 (Z.leb_le (len + n) U64_MAX)) by lia. simpl. exists (len + n), l2.
    split; [by rewrite delete_middle |]. split; [lia |]. split; [by apply Z.divide_add_r |]. split; [lia |].
    split; [by rewrite Z.add_assoc |]. split; [| by right]. intros a. rewrite covers_cons.
    split; [intros [? | ?]; [| by auto] | intros [? | [? | ?]]; [left; lia | left; lia | by right]].
    destruct (Z.lt_ge_cases a (base + len)); [left; lia | right; left; lia].
  - exists len, ((b, n) :: l2). split; [done |]. split_and!; try done; [| by left]. simpl. split_and!; try done. lia.
Qed.

Lemma join_left_spec lo l1 l2 hi base len :
  spans_ok lo l1 hi -> lo <= base -> aligned base -> after lo l1 <= base + 1 -> 0 < len -> aligned len ->
  0 <= lo -> base + len <= hi -> hi <= U64_MAX ->
  exists base' len' l1', VaPool.join_left (length l1) base len (l1 ++ l2) = Some (base', len', l1' ++ l2) /\
    lo <= base' <= base /\ 0 < len' /\ aligned base' /\ aligned len' /\ base' + len' = base + len /\
    spans_ok lo l1' hi /\ after lo l1' <= base' /\
    (forall a, (base' <= a < base' + len' \/ covers l1' a) <-> (base <= a < base + len \/ covers l1 a)) /\
    ((base' = base /\ len' = len /\ l1' = l1) \/ length l1 = S (length l1')).
Proof.
  intros Hok Hlo Hab Haf Hlen Hal H0 Hhi Hmax. unfold VaPool.join_left, VaPool.add64, checked_add.
  destruct l1 as [| [b n] l1 _] using rev_ind.
  { exists base, len, []. unfold after in *. simpl in *. split; [done |]. split_and!; try done; by left. }
  rewrite length_app, Nat.add_1_r, <- app_assoc. cbn [app]. rewrite lookup_app_r, Nat.sub_diag by lia. cbn [lookup list_lookup].
  apply spans_app in Hok as [Hok1 (Hb & Hn & Habb & Hann & Hh & _)].
  assert (after lo (l1 ++ [(b, n)]) = b + n + 1) as Haf' by (unfold after; by rewrite foldl_app).
  pose proof (after_le lo l1 hi Hok1 ltac:(lia)) as Hle.
  rewrite (proj2 (Z.leb_le (b + n) U64_MAX)) by lia. cbn [mbind option_bind]. destruct (Z.eqb_spec (b + n) base) as [<- | Hne].
  - rewrite (proj2 (Z.leb_le (len + n) U64_MAX)) by lia. cbn [mbind option_bind]. exists b, (len + n), l1.
    split; [by rewrite delete_middle |]. split; [lia |]. split; [lia |]. split; [done |].
    split; [by apply Z.divide_add_r |]. split; [lia |]. split; [done |]. split; [done |]. split; [| by right].
    intros a. rewrite covers_app, covers_cons. split; [intros [? | ?]; [| auto] | intros [? | [? | [? | []%covers_nil]]]; [left; lia | auto | left; lia]].
    destruct (Z.lt_ge_cases a (b + n)); [right; right; left; lia | left; lia].
  - exists base, len, (l1 ++ [(b, n)]). split; [by rewrite <- app_assoc |]. split_and!; try done; [| lia | by left].
    apply spans_app. split; [done |]. by simpl.
Qed.

(** ** The pool *)

Record pool_ok (base : Z) (p : VaPool) : Prop := mk_pool_ok {
  pk_base : 0 < base <= vp_next p /\ vp_next p <= vp_end p <= U64_MAX;
  pk_aligned : aligned base /\ aligned (vp_next p);
  pk_spans : spans_ok base (items (vp_free p)) (vp_next p);
  pk_vec : vec_wf (vp_free p);
}.

(** The addresses a pool may hand out. *)
Definition available (p : VaPool) (a : Z) : Prop := covers (items (vp_free p)) a \/ vp_next p <= a < vp_end p.

Lemma whole_pages_spec len n :
  0 <= len -> VaPool.whole_pages len = Some n -> aligned n /\ len <= n < len + PAGE_SIZE.
Proof.
  intros Hlen. unfold VaPool.whole_pages, checked_add, aligned. pose proof (Z.mod_pos_bound len PAGE_SIZE ltac:(done)) as Hm.
  destruct (Z.eqb_spec (len mod PAGE_SIZE) 0) as [He | Hne].
  - intros [= <-]. split; [by apply Z.mod_divide | unfold PAGE_SIZE; lia].
  - destruct (_ <=? _); [| done]. intros [= <-]. split; [| lia].
    exists (len / PAGE_SIZE + 1). pose proof (Z.div_mod len PAGE_SIZE ltac:(done)). lia.
Qed.

Lemma new_pool_ok base end_ : 0 < base <= end_ -> end_ <= U64_MAX -> aligned base -> pool_ok base (VaPool.new base end_).
Proof. intros. split; simpl; [lia | done | done | unfold vec_wf, vec_len; simpl; done]. Qed.

(** A run of addresses inside the list and what follows it lies inside one of them. *)
Lemma run_in_one lo l hi stop b n :
  spans_ok lo l hi -> 0 < n -> (forall a, b <= a < b + n -> covers l a \/ hi <= a < stop) ->
  (exists r, r ∈ l /\ r.1 <= b /\ b + n <= r.1 + r.2) \/ (hi <= b /\ b + n <= stop).
Proof.
  intros Hok Hn. revert lo Hok. induction l as [| [c m] l IH]; intros lo Hok Hall.
  - right. pose proof (Hall b ltac:(lia)) as [[]%covers_nil | ?]. pose proof (Hall (b + n - 1) ltac:(lia)) as [[]%covers_nil | ?]. lia.
  - simpl in Hok. destruct Hok as (Hc & Hm & _ & _ & Hh & Hl).
    destruct (Z.le_gt_cases c b) as [Hle | Hgt]; [destruct (Z.lt_ge_cases b (c + m)) as [Hlt | Hge] |].
    + left. exists (c, m). split; [left |]. simpl. split; [done |]. apply Z.nlt_ge. intros Hover.
      destruct (Hall (c + m) ltac:(lia)) as [[? | Hx]%covers_cons | ?]; [lia | | lia].
      pose proof (covers_range _ _ _ _ Hl Hx). lia.
    + destruct (IH _ Hl) as [(r & Hr & Hin) | Hout]; [| left; exists r; split; [by right | done] | by right].
      intros a Ha. destruct (Hall a Ha) as [[? | ?]%covers_cons | ?]; [lia | auto | auto].
    + destruct (Hall b ltac:(lia)) as [Hx | ?]; [| right].
      * exfalso. apply covers_cons in Hx as [? | Hx]; [lia |]. pose proof (covers_range _ _ _ _ Hl Hx). lia.
      * split; [lia |]. destruct (Hall (b + n - 1) ltac:(lia)) as [[? | Hx]%covers_cons | ?]; [lia | | lia].
        pose proof (covers_range _ _ _ _ Hl Hx). lia.
Qed.

Lemma alloc_spec base p len :
  pool_ok base p -> 0 <= len ->
  exists r p', VaPool.alloc len p = Some (r, p') /\ pool_ok base p' /\ vp_end p' = vp_end p /\
    ((r = 0 /\ p' = p /\
      forall n b, VaPool.whole_pages len = Some n -> 0 < n -> ~ (forall a, b <= a < b + n -> available p a)) \/
     (exists n, VaPool.whole_pages len = Some n /\ 0 < n /\ aligned r /\ base <= r /\ r + n <= vp_end p /\
        (forall a, r <= a < r + n -> available p a) /\
        forall a, available p' a <-> available p a /\ ~ (r <= a < r + n))).
Proof.
  intros Hok Hlen. pose proof Hok as [Hb Ha Hs Hv]. unfold VaPool.alloc.
  destruct (VaPool.whole_pages len) as [n |] eqn:En; [| exists 0, p; split_and!; try done; left; by split_and!].
  destruct (whole_pages_spec len n Hlen En) as [Han Hn].
  destruct (Z.eqb_spec n 0) as [-> | Hn0]; [exists 0, p; split_and!; try done; left; split_and!; try done; intros n b [= <-]; lia |].
  destruct (first_fit_spec n base (items (vp_free p)) (vp_next p) ltac:(lia) Han ltac:(lia) Hs) as (r & -> & Hr). cbn [mbind option_bind].
  destruct r as [[c l] |].
  - destruct Hr as (Hok' & Hl & Hac & Hlo & Htop & Hin & Hcov). exists c. eexists. split; [done |].
    split; [split; try done; unfold vec_wf, vec_len in *; simpl; lia |]. split; [done |]. right. exists n.
    split_and!; try done; [lia | lia | by intros a Hx; left; apply Hin |].
    intros a. unfold available. simpl. rewrite Hcov. split; [| tauto]. intros [? | ?]; [tauto |]. split; [by right | lia].
  - assert (vp_end p < vp_next p + n -> forall b, ~ (forall a, b <= a < b + n -> available p a)) as Hno.
    { intros Hover b Hall. destruct (run_in_one _ _ _ (vp_end p) b n Hs ltac:(lia) Hall) as [([c m] & Hin & Hc) | ?]; [| lia].
      specialize (Hr c m Hin). simpl in Hc. lia. }
    unfold VaPool.add64, checked_add. destruct (Z.leb_spec (vp_next p + n) U64_MAX) as [Hle | Hgt].
    + destruct (Z.ltb_spec (vp_end p) (vp_next p + n)) as [Hlt | Hge].
      * exists 0, p. split_and!; try done. left. split_and!; try done. intros n' b [= <-] _. by apply Hno.
      * exists (vp_next p). eexists. split; [done |]. split; [split; simpl; try done; [lia | split; [tauto |]; apply Z.divide_add_r; tauto | by apply (spans_raise _ _ (vp_next p)); [| lia]] |].
        split; [done |]. right. exists n. split_and!; try done; try tauto; [lia | intros a Hx; right; lia |].
        intros a. unfold available. simpl. split.
        -- intros [Hc | ?]; [pose proof (covers_range _ _ _ _ Hs Hc); split; [by left | lia] | split; [right; lia | lia]].
        -- intros [[? | ?] ?]; [by left | right; lia].
    + exists 0, p. split_and!; try done. left. split_and!; try done. intros n' b [= <-] _. apply Hno. lia.
Qed.

(** What the heap was asked: at most one growth, and whether it refused. *)
Definition asked_once (h h' : heap) : Prop := h' = h \/ h' = tail h.
Definition refuses (h : heap) : Prop := match h with Some _ :: _ => False | _ => True end.

(** A vector with room asks for nothing; one without asks once. *)
Lemma try_reserve_one {A} (l : list A) cap h :
  exists ok cap' h', try_reserve (Vec l cap) 1 h = Some ((ok, Vec l cap'), h') /\ asked_once h h' /\
    (ok = true -> (length l < cap')%nat) /\ (ok = false -> (cap <= length l)%nat /\ refuses h /\ cap' = cap).
Proof.
  unfold try_reserve, vec_len. simpl. destruct (Nat.leb_spec (length l + 1) cap) as [Hle | Hgt].
  - exists true, cap, h. split; [done |]. split; [by left |]. split; [lia | done].
  - unfold mbind, M_bind, heap_ask. destruct h as [| [slack |] h]; simpl.
    + exists false, cap, []. split; [done |]. split; [by left |]. split; [done |]. split; [lia | done].
    + exists true, (length l + 1 + slack)%nat, h. split; [done |]. split; [by right |]. split; [lia | done].
    + exists false, cap, h. split; [done |]. split; [by right |]. split; [done |]. split; [lia | done].
Qed.

(** The list with the joined range put in, and without it when it reaches the cursor. *)
Lemma insert_spans lo l1 l2 hi b n :
  spans_ok lo l1 hi -> after lo l1 <= b -> 0 < n -> aligned b -> aligned n -> b + n < hi -> spans_ok (b + n + 1) l2 hi ->
  spans_ok lo (l1 ++ (b, n) :: l2) hi /\
  VaPool.partition_point b (l1 ++ l2) = length l1.
Proof.
  intros H1 Ha Hn Hab Han Hh H2. split; [apply spans_app; by simpl |]. apply partition_point_app.
  - intros [c m] Hin. simpl. assert (spans_ok lo l1 b) as Hb by (by apply (spans_tighten _ _ hi)).
    assert (covers l1 c) as Hc.
    { exists (c, m). split; [done |]. simpl. apply list_elem_of_split in Hin as (x & y & ->).
      apply spans_app in H1 as [_ H1]. simpl in H1. lia. }
    apply (covers_range _ _ _ _ Hb Hc).
  - intros [c m] l' ->. simpl in *. lia.
Qed.

Lemma free_spec base p b len n h :
  pool_ok base p -> VaPool.whole_pages len = Some n -> 0 < n -> 0 <= len -> aligned b -> base <= b -> b + n <= vp_end p ->
  (forall a, b <= a < b + n -> ~ available p a) ->
  exists p' h', VaPool.free b len p h = Some (p', h') /\ pool_ok base p' /\ vp_end p' = vp_end p /\ asked_once h h' /\
    ((forall a, available p' a <-> available p a \/ b <= a < b + n) \/ (p' = p /\ refuses h)).
Proof.
  intros Hok En Hn Hlen Hab Hb Htop Hfree. pose proof Hok as [Hp Ha Hs Hv].
  destruct (whole_pages_spec len n Hlen En) as [Han _].
  assert (b + n <= vp_next p) as Hbn.
  { apply Z.nlt_ge. intros Hgt. apply (Hfree (Z.max b (vp_next p)) ltac:(lia)). right. lia. }
  destruct (split_at base _ _ b n Hs Hb Hn) as (l1 & l2 & El & Hl1 & Haf & Hl2).
  { intros a Hx Hc. apply (Hfree a Hx). by left. }
  unfold VaPool.free. rewrite En. unfold VaPool.add64 at 1, checked_add at 1. rewrite (proj2 (Z.leb_le (b + n) U64_MAX)) by lia.
  rewrite (proj2 (Z.eqb_neq n 0)) by lia. cbv zeta. rewrite El in *. apply spans_app in Hs as [Hs1 Hs2].
  rewrite partition_point_app; [| done | intros [c m] l' ->; simpl in *; lia].
  destruct (join_right_spec l1 l2 (vp_next p) b n) as (n1 & l2' & E1 & Hn1 & Han1 & Hh1 & Hok2 & Hc2 & Hcase2); try done; try lia.
  destruct (join_left_spec base l1 l2' (vp_next p) b n1) as (b' & n' & l1' & E2 & Hb' & Hn' & Hab' & Han' & Hsum & Hok1 & Haf' & Hc1 & Hcase1); try done; try lia.
  rewrite E1. erewrite run_bind by done. cbv beta iota. rewrite E2. erewrite run_bind by done. cbv beta iota.
  unfold VaPool.add64, checked_add. rewrite (proj2 (Z.leb_le (b' + n') U64_MAX)) by lia. erewrite run_bind by done.
  assert (forall a, covers (l1' ++ l2') a \/ b' <= a < b' + n' <-> covers (l1 ++ l2) a \/ b <= a < b + n) as Hcov.
  { intros a. specialize (Hc1 a). specialize (Hc2 a). rewrite !covers_app. tauto. }
  assert (length (l1' ++ l2') <= length (l1 ++ l2))%nat as Hlen'.
  { rewrite !length_app. destruct Hcase1 as [(-> & -> & ->) | ?], Hcase2 as [[-> ->] | ?]; lia. }
  unfold vec_wf, vec_len in Hv. rewrite El in Hv.
  destruct (Z.eqb_spec (b' + n') (vp_next p)) as [He | Hne].
  - assert (l2' = []) as -> by (destruct l2' as [| [c m] l2']; [done | simpl in Hok2; lia]). rewrite app_nil_r in *.
    eexists _, h. split; [done |]. split.
    { split; simpl; [lia | tauto | by apply (spans_tighten _ _ (vp_next p)) | unfold vec_wf, vec_len; simpl; lia]. }
    split; [done |]. split; [by left |]. left. intros a. unfold available. simpl. specialize (Hcov a). rewrite El.
    assert (b' <= a < vp_end p <-> b' <= a < b' + n' \/ vp_next p <= a < vp_end p) by lia. tauto.
  - destruct (insert_spans base l1' l2' (vp_next p) b' n') as [Hins Hpos]; try done; [lia | by rewrite Hsum |].
    destruct (try_reserve_one (l1' ++ l2') (capacity (vp_free p)) h) as (ok & cap' & h' & Et & Hask & Hroom & Hno).
    rewrite (run_bind _ _ _ _ _ Et). destruct ok; eexists _, h'; (split; [done |]).
    + rewrite Hpos. cbn [items]. rewrite take_app_length, drop_app_length. split.
      { split; simpl; [lia | tauto | done |]. unfold vec_wf, vec_len. simpl. specialize (Hroom eq_refl).
        rewrite length_app in *. simpl. lia. }
      split; [done |]. split; [done |]. left. intros a. unfold available. simpl. rewrite El. specialize (Hcov a).
      rewrite covers_app, covers_cons. rewrite covers_app in Hcov. tauto.
    + destruct (Hno eq_refl) as (Hfull & Hrefuse & ->).
      assert (l1' = l1 /\ l2' = l2) as [-> ->].
      { rewrite length_app in *. destruct Hcase1 as [(-> & -> & ->) | ?], Hcase2 as [[-> ->] | ?]; try done; lia. }
      rewrite <- El. destruct p as [nx en [fl cp]]. simpl in *. subst fl. split; [done |]. split; [done |]. split; [done |]. by right.
Qed.

(** ** One form for each set *)

Lemma covers_eq_spans lo l1 l2 hi1 hi2 :
  spans_ok lo l1 hi1 -> spans_ok lo l2 hi2 -> (forall a, covers l1 a <-> covers l2 a) -> l1 = l2.
Proof.
  revert lo l2. induction l1 as [| [b n] l1 IH]; intros lo [| [c m] l2] H1 H2 Hc; [done | ..]; simpl in *.
  - exfalso. apply (covers_nil c), Hc, covers_cons. left. lia.
  - exfalso. apply (covers_nil b), Hc, covers_cons. left. lia.
  - destruct H1 as (Hb & Hn & _ & _ & _ & H1), H2 as (Hc' & Hm & _ & _ & _ & H2).
    assert (forall a, covers l1 a -> b + n < a) as F1 by (intros a Hx; pose proof (covers_range _ _ _ _ H1 Hx); lia).
    assert (forall a, covers l2 a -> c + m < a) as F2 by (intros a Hx; pose proof (covers_range _ _ _ _ H2 Hx); lia).
    assert (forall a, (b <= a < b + n \/ covers l1 a) <-> (c <= a < c + m \/ covers l2 a)) as He.
    { intros a. by rewrite <- !covers_cons. }
    assert (b = c) as <-.
    { pose proof (proj1 (He b) ltac:(left; lia)) as [? | ?%F2]; pose proof (proj2 (He c) ltac:(left; lia)) as [? | ?%F1]; lia. }
    assert (n = m) as <-.
    { destruct (Z.lt_trichotomy n m) as [Hlt | [? | Hlt]]; [| done |].
      - pose proof (proj2 (He (b + n)) ltac:(left; lia)) as [? | ?%F1]; lia.
      - pose proof (proj1 (He (b + m)) ltac:(left; lia)) as [? | ?%F2]; lia. }
    f_equal. apply (IH (b + n + 1) l2 H1 H2). intros a. split; intros Hx.
    + pose proof (F1 a Hx). destruct (proj1 (He a) ltac:(by right)); [lia | done].
    + pose proof (F2 a Hx). destruct (proj2 (He a) ltac:(by right)); [lia | done].
Qed.

(** A covered address is not the last one below the upper bound. *)
Lemma covers_below lo l hi a : spans_ok lo l hi -> covers l a -> a + 1 < hi.
Proof.
  revert lo. induction l as [| [b n] l IH]; intros lo; simpl; [by intros _ ?%covers_nil |].
  intros (_ & _ & _ & _ & Hh & Hl) [? | Hc]%covers_cons; [lia | by eapply IH].
Qed.

Lemma pool_canonical base p1 p2 :
  pool_ok base p1 -> pool_ok base p2 -> vp_end p1 = vp_end p2 -> (forall a, available p1 a <-> available p2 a) ->
  vp_next p1 = vp_next p2 /\ items (vp_free p1) = items (vp_free p2).
Proof.
  intros [B1 _ S1 _] [B2 _ S2 _] He Ha. unfold available in Ha.
  assert (vp_next p1 = vp_next p2) as Hn.
  { destruct (Z.lt_trichotomy (vp_next p1) (vp_next p2)) as [Hlt | [? | Hlt]]; [exfalso | done | exfalso].
    - destruct (proj1 (Ha (vp_next p2 - 1)) ltac:(right; lia)) as [Hc | ?]; [pose proof (covers_below _ _ _ _ S2 Hc) |]; lia.
    - destruct (proj2 (Ha (vp_next p1 - 1)) ltac:(right; lia)) as [Hc | ?]; [pose proof (covers_below _ _ _ _ S1 Hc) |]; lia. }
  split; [done |]. apply (covers_eq_spans base _ _ (vp_next p1) (vp_next p2) S1 S2). intros a. specialize (Ha a). rewrite Hn, He in Ha.
  split; intros Hc.
  - pose proof (covers_below _ _ _ _ S1 Hc). destruct (proj1 Ha (or_introl Hc)); [done | lia].
  - pose proof (covers_below _ _ _ _ S2 Hc). destruct (proj2 Ha (or_introl Hc)); [done | lia].
Qed.

(** ** A client of the pool *)

(** The pool, the heap behind its list, and the ranges that were handed out and not
    yet given back, as they were asked for. *)
Record Client := mkClient { c_pool : VaPool; c_heap : heap; c_held : list (Z * Z) }.

Inductive PoolOp :=
| PoolAlloc (len : Z)
| PoolFree (i : nat).

(** A client gives back what it holds, with the length it asked for. *)
Definition run_pool_op (op : PoolOp) (c : Client) : option Client :=
  match op with
  | PoolAlloc len =>
      '(r, p) ← VaPool.alloc len (c_pool c);
      Some (mkClient p (c_heap c) (if r =? 0 then c_held c else c_held c ++ [(r, len)]))
  | PoolFree i =>
      match c_held c !! i with
      | None => Some c
      | Some (b, len) => '(p, h) ← VaPool.free b len (c_pool c) (c_heap c); Some (mkClient p h (delete i (c_held c)))
      end
  end.
Fixpoint run_pool_ops (ops : list PoolOp) (c : Client) : option Client :=
  match ops with [] => Some c | op :: ops => c ← run_pool_op op c; run_pool_ops ops c end.

Definition pool_op_ok (op : PoolOp) : Prop := match op with PoolAlloc len => 0 <= len | PoolFree _ => True end.

(** The addresses of a range that was asked for with a length. *)
Definition spans (r : Z * Z) (a : Z) : Prop := exists n, VaPool.whole_pages r.2 = Some n /\ r.1 <= a < r.1 + n.

(** What is held: whole pages of the window, none of them available, no two at one
    address. *)
Record held_ok (base : Z) (c : Client) : Prop := mk_held_ok {
  hd_range : forall r, r ∈ c_held c -> exists n, VaPool.whole_pages r.2 = Some n /\ 0 < n /\ 0 <= r.2 /\
    aligned r.1 /\ base <= r.1 /\ r.1 + n <= vp_end (c_pool c);
  hd_taken : forall r a, r ∈ c_held c -> spans r a -> ~ available (c_pool c) a;
  hd_once : NoDup (c_held c);
  hd_apart : forall r1 r2 a, r1 ∈ c_held c -> r2 ∈ c_held c -> spans r1 a -> spans r2 a -> r1 = r2;
}.

(** Every address of the window is available or held. *)
Definition nothing_lost (base : Z) (c : Client) : Prop :=
  forall a, base <= a < vp_end (c_pool c) -> available (c_pool c) a \/ exists r, r ∈ c_held c /\ spans r a.

(** The next [n] growths of the list are granted. *)
Definition granted (n : nat) (h : heap) : Prop := (n <= length h)%nat /\ Forall is_Some (take n h).

Lemma granted_step n h h' : granted (S n) h -> asked_once h h' -> granted n h' /\ ~ refuses h.
Proof.
  intros [Hl Hf] Ha. destruct h as [| x h]; [simpl in Hl; lia |]. simpl in *. apply Forall_cons in Hf as [[slack ->] Hf].
  split; [| tauto]. destruct Ha as [-> | ->]; simpl.
  - split; [simpl; lia |]. destruct n as [| n]; simpl; [done |]. apply Forall_cons. split; [by eexists |].
    replace (take n h) with (take n (take (S n) h)) by (rewrite take_take; f_equal; lia). by apply Forall_take.
  - split; [lia | done].
Qed.

Section client.
Context (base : Z).
Implicit Types c : Client.

Lemma run_alloc c len :
  pool_ok base (c_pool c) -> held_ok base c -> 0 <= len ->
  exists c', run_pool_op (PoolAlloc len) c = Some c' /\ pool_ok base (c_pool c') /\ held_ok base c' /\
    vp_end (c_pool c') = vp_end (c_pool c) /\ c_heap c' = c_heap c /\ (nothing_lost base c -> nothing_lost base c').
Proof.
  intros Hp [Hr Ht Hd Ha] Hlen. destruct (alloc_spec base _ len Hp Hlen) as (r & p & E & Hp' & He & Hcase).
  simpl. rewrite E. cbn [mbind option_bind]. eexists. split; [done |]. split; [done |].
  destruct Hcase as [(-> & -> & _) | (n & En & Hn & Har & Hb & Htop & Hin & Hav)]; [done |].
  assert (0 < r) by (destruct Hp as [? _ _ _]; lia). rewrite (proj2 (Z.eqb_neq r 0)) by lia.
  assert (forall a, spans (r, len) a <-> r <= a < r + n) as Hsp.
  { intros a. unfold spans. simpl. rewrite En. split; [by intros (? & [= <-] & ?) | by eauto]. }
  assert (forall r' a, r' ∈ c_held c -> spans r' a -> ~ spans (r, len) a) as Hfresh.
  { intros r' a Hin' Hs Hs'%Hsp. by apply (Ht r' a Hin' Hs), Hin. }
  split; [split; cbn [c_held c_pool] |].
  - intros r' [Hin' | ->%list_elem_of_singleton]%elem_of_app; [rewrite He; auto |]. exists n. rewrite He. by split_and!.
  - intros r' a [Hin' | ->%list_elem_of_singleton]%elem_of_app Hs [Hx Hno]%Hav; [by apply (Ht r' a) | by apply Hno, Hsp].
  - apply NoDup_app. split; [done |]. split; [| apply NoDup_singleton]. intros r' Hin' ->%list_elem_of_singleton.
    apply (Hfresh (r, len) r Hin'); apply Hsp; lia.
  - intros r1 r2 a [H1 | ->%list_elem_of_singleton]%elem_of_app [H2 | ->%list_elem_of_singleton]%elem_of_app S1 S2; [eauto | | | done].
    + by destruct (Hfresh r1 a).
    + by destruct (Hfresh r2 a).
  - split; [done |]. split; [done |]. intros Hall a. cbn [c_held c_pool]. rewrite He. intros Hx. rewrite Hav.
    destruct (Hall a Hx) as [Hv | (r' & Hin' & Hs)]; [| right; exists r'; rewrite elem_of_app; auto].
    destruct (decide (r <= a < r + n)) as [Hy | Hy]; [right | left; done].
    exists (r, len). split; [apply elem_of_app; right; by apply list_elem_of_singleton | by apply Hsp].
Qed.

Lemma run_free c i :
  pool_ok base (c_pool c) -> held_ok base c ->
  exists c', run_pool_op (PoolFree i) c = Some c' /\ pool_ok base (c_pool c') /\ held_ok base c' /\
    vp_end (c_pool c') = vp_end (c_pool c) /\ asked_once (c_heap c) (c_heap c') /\
    (nothing_lost base c -> ~ refuses (c_heap c) -> nothing_lost base c').
Proof.
  intros Hp [Hr Ht Hd Ha]. simpl. destruct (c_held c !! i) as [[b len] |] eqn:Ei; [| exists c; split_and!; try done; by left].
  pose proof (delete_Permutation _ _ _ Ei) as Hperm.
  assert (forall r, r ∈ c_held c <-> r = (b, len) \/ r ∈ delete i (c_held c)) as Hel.
  { intros r. rewrite Hperm at 1. by rewrite elem_of_cons. }
  rewrite Hperm in Hd. apply NoDup_cons in Hd as [Hno Hd].
  assert ((b, len) ∈ c_held c) as Hin by (apply Hel; by left).
  destruct (Hr _ Hin) as (n & En & Hn & Hlen & Hab & Hb & Htop). simpl in *.
  assert (forall a, spans (b, len) a <-> b <= a < b + n) as Hsp.
  { intros a. unfold spans. simpl. rewrite En. split; [by intros (? & [= <-] & ?) | by eauto]. }
  destruct (free_spec base (c_pool c) b len n (c_heap c)) as (p & h & E & Hp' & He & Hask & Hcase); try done.
  { intros a Hx. by apply (Ht (b, len)); [| apply Hsp]. }
  rewrite E. cbn [mbind option_bind]. eexists. split; [done |]. split; [done |]. cbn [c_pool c_heap c_held].
  split; [split; cbn [c_held c_pool] |].
  - intros r Hin'. rewrite He. apply Hr, Hel. by right.
  - intros r a Hin' Hs. assert (r ∈ c_held c) as Hin2 by (apply Hel; by right).
    destruct Hcase as [Hav | [-> _]]; [rewrite Hav | by apply (Ht r a)]. intros [Hx | Hx]; [by apply (Ht r a) |].
    assert (r = (b, len)) as -> by (apply (Ha r (b, len) a); [done | done | done | by apply Hsp]). done.
  - done.
  - intros r1 r2 a H1 H2. apply Ha; apply Hel; by right.
  - split; [done |]. split; [done |]. intros Hall Hnr. destruct Hcase as [Hav | [_ ?]]; [| done].
    intros a. cbn [c_held c_pool]. rewrite He, Hav. intros Hx.
    destruct (Hall a Hx) as [? | (r & [-> | Hin']%Hel & Hs)]; [by auto | left; right; by apply Hsp | right; by exists r].
Qed.

Lemma run_pool_ops_ok ops c :
  pool_ok base (c_pool c) -> held_ok base c -> Forall pool_op_ok ops ->
  exists c', run_pool_ops ops c = Some c' /\ pool_ok base (c_pool c') /\ held_ok base c' /\
    vp_end (c_pool c') = vp_end (c_pool c) /\
    (nothing_lost base c -> granted (length ops) (c_heap c) -> nothing_lost base c').
Proof.
  revert c. induction ops as [| op ops IH]; intros c Hp Hh Hops; [by exists c |].
  apply Forall_cons in Hops as [Hop Hops].
  assert (exists c1, run_pool_op op c = Some c1 /\ pool_ok base (c_pool c1) /\ held_ok base c1 /\
    vp_end (c_pool c1) = vp_end (c_pool c) /\ asked_once (c_heap c) (c_heap c1) /\
    (nothing_lost base c -> ~ refuses (c_heap c) -> nothing_lost base c1)) as (c1 & E & Hp1 & Hh1 & He1 & Ha1 & Hl1).
  { destruct op as [len | i]; [| by apply run_free].
    destruct (run_alloc c len Hp Hh Hop) as (c1 & E & Hp1 & Hh1 & He1 & Ha1 & Hl1). exists c1. split_and!; try done; [by left | auto]. }
  destruct (IH c1 Hp1 Hh1 Hops) as (c2 & E2 & Hp2 & Hh2 & He2 & Hl2). exists c2.
  split; [cbn [run_pool_ops]; by rewrite E |]. split; [done |]. split; [done |]. split; [congruence |].
  intros Hall Hg. destruct (granted_step _ _ _ Hg Ha1) as [Hg1 Hnr]. auto.
Qed.

End client.

(** C23: The window allocator is a set of addresses in one form. From a new pool, over
    every sequence of requests and of returns of what was handed out, with a heap that
    grants or refuses the list's growth as it likes, every call returns; what is held is
    whole pages of the window, page aligned, no two ranges at one address and none of it
    available; a request is refused only when no run of available addresses is long
    enough for it. If the heap granted every growth, no address was lost; and when
    everything has then been given back, the pool is the empty window it started as. *)
Theorem vapool_is_an_address_set base end_ h ops :
  0 < base <= end_ -> end_ <= U64_MAX -> aligned base -> Forall pool_op_ok ops ->
  exists c, run_pool_ops ops (mkClient (VaPool.new base end_) h []) = Some c /\ held_ok base c /\
    (forall len n p b, VaPool.whole_pages len = Some n -> 0 < n -> 0 <= len ->
       VaPool.alloc len (c_pool c) = Some (0, p) -> ~ (forall a, b <= a < b + n -> available (c_pool c) a)) /\
    (granted (length ops) h ->
       (forall a, base <= a < end_ -> available (c_pool c) a \/ exists r, r ∈ c_held c /\ spans r a) /\
       (c_held c = [] -> vp_next (c_pool c) = base /\ vp_end (c_pool c) = end_ /\ items (vp_free (c_pool c)) = [])).
Proof.
  intros Hb He Hal Hops. set (c0 := mkClient (VaPool.new base end_) h []).
  assert (pool_ok base (c_pool c0)) as Hp0 by (by apply new_pool_ok).
  assert (held_ok base c0) as Hh0.
  { split; simpl; [by intros r ?%not_elem_of_nil | by intros r a ?%not_elem_of_nil | constructor | by intros r1 r2 a ?%not_elem_of_nil]. }
  assert (nothing_lost base c0) as Hl0 by (intros a Ha; left; right; exact Ha).
  destruct (run_pool_ops_ok base ops c0 Hp0 Hh0 Hops) as (c & E & Hp & Hh & Hend & Hl). exists c.
  split; [done |]. split; [done |]. split.
  - intros len n p b En Hn Hlen Halloc. destruct (alloc_spec base (c_pool c) len Hp Hlen) as (r & p' & E' & _ & _ & Hcase).
    rewrite Halloc in E'. injection E' as <- <-. destruct Hcase as [(_ & _ & Hno) | (n' & _ & _ & _ & ? & _)]; [by apply Hno | lia].
  - intros Hg. specialize (Hl Hl0 Hg). split; [intros a Ha; apply Hl; by rewrite Hend |].
    intros Hnone. destruct (pool_canonical base (c_pool c) (c_pool c0) Hp Hp0 Hend) as [Hn Hi]; [| by rewrite Hn, Hi, Hend].
    intros a. split.
    + intros Hx. right. destruct Hx as [Hc | Hx]; simpl; [| destruct Hp as [? _ _ _]; simpl in Hend; lia].
      destruct Hp as [? _ Hs _]. pose proof (covers_range _ _ _ _ Hs Hc). simpl in Hend. lia.
    + intros [[]%covers_nil | Hx]. simpl in Hx, Hend. destruct (Hl a) as [? | (r & Hin & _)]; [lia | done |].
      rewrite Hnone in Hin. by apply not_elem_of_nil in Hin.
Qed.

Lemma vapool_is_an_address_set_witness :
  exists c, run_pool_ops [PoolAlloc 8192; PoolAlloc 1; PoolAlloc 4096; PoolFree 1; PoolFree 0; PoolFree 0]
      (mkClient (VaPool.new 4096 65536) (replicate 6 (Some 0%nat)) []) = Some c /\
    c_held c = [] /\ vp_next (c_pool c) = 4096 /\ items (vp_free (c_pool c)) = [].
Proof.
  destruct (vapool_is_an_address_set 4096 65536 (replicate 6 (Some 0%nat))
    [PoolAlloc 8192; PoolAlloc 1; PoolAlloc 4096; PoolFree 1; PoolFree 0; PoolFree 0]) as (c & E & _ & _ & Hg).
  - lia.
  - lia.
  - exists 1. reflexivity.
  - repeat (apply Forall_cons; split; [simpl; try lia; exact I |]). by apply Forall_nil.
  - exists c. split; [exact E |].
    assert (c_held c = []) as Hn by (vm_compute in E; injection E as <-; reflexivity).
    split; [exact Hn |]. destruct Hg as [_ Hg]; [split; [simpl; lia |]; repeat (apply Forall_cons; split; [by eexists |]); by apply Forall_nil |].
    destruct (Hg Hn) as (H1 & _ & H2). split; [exact H1 | exact H2].
Defined.
