(* ===== verification/TickClock.v ===== *)
(** The monotonic tick (tickclock/src/lib.rs): computed from a free-running counter each
    time it is read, with one offset that takes sleeps out of it. Every field is an
    atomic of its own; an operation of the model is one that no other interrupts, except
    where a definition takes the clock twice. *)

From Stdlib Require Import Sorting.Sorted.
From S2P Require Import Prelude.

Definition TICK_HZ : Z := 100.

Record Clock := mkClock {
  ck_anchor : Z;
  ck_per_tick : Z;
  ck_hz : Z;
  ck_offset : Z;
  ck_max : Z;
  ck_suspended : bool;
  ck_suspended_at : Z;
}.

(** [x as i64]. *)
Definition as_i64 (z : Z) : Z := if z <? 2 ^ 63 then z else z - TWO64.

Definition cycles_to_ns (cycles hz : Z) : Z := if hz =? 0 then 0 else wrap64 (cycles * 1000000000 / hz).

Module Clock.

Definition new : Clock := mkClock 0 0 0 0 0 false 0.

Definition anchor (now hz : Z) (c : Clock) : bool * Clock :=
  let per := hz / TICK_HZ in
  if (per =? 0) || negb (ck_per_tick c =? 0) then (false, c)
  else (true, mkClock now per hz (ck_offset c) (ck_max c) (ck_suspended c) (ck_suspended_at c)).

Definition anchored (c : Clock) : bool := negb (ck_per_tick c =? 0).

Definition reading (c : Clock) (now : Z) : Z := if ck_suspended c then ck_suspended_at c else now.

(** The flag and the offset are two loads: [c1] is the clock at the first, [c2] at the
    second. *)
Definition elapsed_between (c1 c2 : Clock) (now : Z) : Z :=
  Z.max (as_i64 (wrap64 (wrap64 (reading c1 now - ck_offset c2) - ck_anchor c2))) 0.
Definition elapsed (c : Clock) (now : Z) : Z := elapsed_between c c now.

Definition ticks (now : Z) (c : Clock) : Z * Clock :=
  if ck_per_tick c =? 0 then (0, c)
  else
    let raw := elapsed c now / ck_per_tick c in
    (Z.max (ck_max c) raw,
     mkClock (ck_anchor c) (ck_per_tick c) (ck_hz c) (ck_offset c) (Z.max (ck_max c) raw) (ck_suspended c) (ck_suspended_at c)).

Definition nanos_between (c1 c2 : Clock) (now : Z) : Z :=
  if ck_per_tick c1 =? 0 then 0 else cycles_to_ns (wrap64 (reading c1 now - ck_offset c2)) (ck_hz c1).
Definition nanos (c : Clock) (now : Z) : Z := nanos_between c c now.

Definition counter_at (tick : Z) (c : Clock) : option Z :=
  if (ck_per_tick c =? 0) || ck_suspended c then None
  else
    match checked_mul U64_MAX tick (ck_per_tick c) with
    | None => None
    | Some cycles => if 2 ^ 63 - 1 <? cycles then None else Some (wrap64 (wrap64 (ck_anchor c + ck_offset c) + cycles))
    end.

Definition suspend (counter : Z) (c : Clock) : Clock :=
  mkClock (ck_anchor c) (ck_per_tick c) (ck_hz c) (ck_offset c) (ck_max c) true counter.

Definition rebase (suspend_counter resume_counter : Z) (c : Clock) : Clock :=
  let old := ck_offset c in
  let per := ck_per_tick c in
  let at_suspend := Z.max (as_i64 (wrap64 (wrap64 (suspend_counter - old) - ck_anchor c))) 0 in
  let offset := wrap64 (wrap64 (resume_counter - suspend_counter) + old) in
  let max := if per =? 0 then ck_max c else Z.max (ck_max c) (at_suspend / per) in
  mkClock (ck_anchor c) per (ck_hz c) offset max false (ck_suspended_at c).

End Clock.

(** ** A machine with a counter *)

(** The clock, the counter, and the cycles the machine was awake since the anchor. *)
Record Machine := mkMachine { mc_clock : Clock; mc_counter : Z; mc_awake : Z }.

Inductive ClockEvent :=
| Pass (k : Z)            (** the counter moves on while the machine is awake *)
| ReadLag (lag : Z)       (** a core whose counter is behind by [lag] reads the tick *)
| Suspend                 (** a sleep's entry *)
| Resume (counter : Z).   (** and its end, on a counter that may have restarted *)

(** The machine after an event, and what a reading answered. *)
Definition step_clock (ev : ClockEvent) (m : Machine) : option Z * Machine :=
  let '(mkMachine c counter awake) := m in
  match ev with
  | Pass k => (None, mkMachine c (wrap64 (counter + k)) (if ck_suspended c then awake else awake + k))
  | ReadLag lag => let (t, c) := Clock.ticks (wrap64 (counter - lag)) c in (Some t, mkMachine c counter awake)
  | Suspend => (None, if ck_suspended c then m else mkMachine (Clock.suspend counter c) counter awake)
  | Resume counter' => (None, if ck_suspended c then mkMachine (Clock.rebase (ck_suspended_at c) counter' c) counter' awake else m)
  end.
Fixpoint run_clock (evs : list ClockEvent) (m : Machine) : list Z * Machine :=
  match evs with
  | [] => ([], m)
  | ev :: evs =>
      let (o, m) := step_clock ev m in
      let (os, m) := run_clock evs m in
      (match o with Some t => t :: os | None => os end, m)
  end.

Definition event_ok (ev : ClockEvent) : Prop :=
  match ev with
  | Pass k => 0 <= k
  | ReadLag lag => 0 <= lag < 2 ^ 62
  | Suspend => True
  | Resume counter => u64_range counter
  end.
Definition passed (evs : list ClockEvent) : Z := foldr Z.add 0 ((fun ev => match ev with Pass k => k | _ => 0 end) <$> evs).

(** The counter and the offset add up to the time awake, and no answer was ahead of it. *)
Record clock_ok (m : Machine) : Prop := mk_clock_ok {
  co_range : u64_range (ck_anchor (mc_clock m)) /\ u64_range (ck_offset (mc_clock m)) /\
    u64_range (mc_counter m) /\ u64_range (ck_suspended_at (mc_clock m));
  co_per : 0 < ck_per_tick (mc_clock m);
  co_awake : 0 <= mc_awake m;
  co_sum : wrap64 (ck_anchor (mc_clock m) + ck_offset (mc_clock m) + mc_awake m) = Clock.reading (mc_clock m) (mc_counter m);
  co_max : 0 <= ck_max (mc_clock m) <= mc_awake m / ck_per_tick (mc_clock m);
}.

Lemma as_i64_small z : 0 <= z < 2 ^ 63 -> as_i64 z = z.
Proof. intros Hz. unfold as_i64. by rewrite (proj2 (Z.ltb_lt _ _)) by lia. Qed.

Lemma as_i64_neg z : - 2 ^ 63 <= z < 0 -> as_i64 (wrap64 z) = z.
Proof.
  intros Hz. unfold as_i64, wrap64. rewrite <- (Z.mod_add z 1 TWO64) by lia. rewrite Z.mod_small by lia.
  rewrite (proj2 (Z.ltb_ge _ _)) by lia. lia.
Qed.

(** What a reading [lag] behind the clock's own counter has elapsed. *)
Lemma elapsed_lag c now awake lag :
  wrap64 (ck_anchor c + ck_offset c + awake) = wrap64 (Clock.reading c now + lag) -> 0 <= awake < 2 ^ 63 -> 0 <= lag < 2 ^ 62 ->
  Clock.elapsed c now = Z.max (awake - lag) 0.
Proof.
  intros Hsum Haw Hlag. unfold Clock.elapsed, Clock.elapsed_between.
  replace (wrap64 (wrap64 (Clock.reading c now - ck_offset c) - ck_anchor c)) with (wrap64 (awake - lag)).
  - destruct (Z.lt_ge_cases awake lag) as [Hlt | Hge].
    + rewrite as_i64_neg by lia. done.
    + rewrite wrap64_small by (unfold u64_range; lia). rewrite as_i64_small by lia. done.
  - unfold wrap64 in *. rewrite Zminus_mod_idemp_l.
    replace (awake - lag) with ((ck_anchor c + ck_offset c + awake) - (ck_anchor c + ck_offset c + lag)) by lia.
    rewrite Zminus_mod, Hsum, <- Zminus_mod. f_equal. lia.
Qed.

Lemma wrap64_idem z : wrap64 (wrap64 z) = wrap64 z.
Proof. unfold wrap64. by rewrite Z.mod_mod. Qed.

(** A tick that is read: never below one that was answered, never ahead of the time
    awake, and exactly it on a core that is not behind. *)
Lemma ticks_spec m lag now :
  clock_ok m -> mc_awake m < 2 ^ 63 -> 0 <= lag < 2 ^ 62 ->
  wrap64 (Clock.reading (mc_clock m) now + lag) = Clock.reading (mc_clock m) (mc_counter m) ->
  exists t c, Clock.ticks now (mc_clock m) = (t, c) /\ t = ck_max c /\ ck_max (mc_clock m) <= t /\
    clock_ok (mkMachine c (mc_counter m) (mc_awake m)) /\
    ck_anchor c = ck_anchor (mc_clock m) /\ ck_per_tick c = ck_per_tick (mc_clock m) /\ ck_hz c = ck_hz (mc_clock m) /\
    (lag = 0 -> t = mc_awake m / ck_per_tick (mc_clock m)).
Proof.
  intros [Hr Hp Ha Hs Hm] Hlt Hlag Hnow. unfold Clock.ticks. rewrite (proj2 (Z.eqb_neq _ _)) by lia.
  rewrite (elapsed_lag _ _ (mc_awake m) lag) by (try lia; congruence).
  eexists _, _. split; [done |]. simpl.
  assert (Z.max (mc_awake m - lag) 0 / ck_per_tick (mc_clock m) <= mc_awake m / ck_per_tick (mc_clock m)) by (apply Z.div_le_mono; lia).
  assert (0 <= Z.max (mc_awake m - lag) 0 / ck_per_tick (mc_clock m)) by (apply Z.div_pos; lia).
  split; [done |]. split; [lia |]. split; [split; simpl; try done; lia |]. split_and!; try done.
  intros ->. rewrite Z.sub_0_r, (Z.max_l (mc_awake m)) by lia. lia.
Qed.

(** One event keeps the clock in step with the time awake. *)
Lemma step_clock_ok ev m :
  clock_ok m -> event_ok ev -> mc_awake m + passed [ev] < 2 ^ 63 ->
  exists o m', step_clock ev m = (o, m') /\ clock_ok m' /\ mc_awake m <= mc_awake m' <= mc_awake m + passed [ev] /\
    ck_anchor (mc_clock m') = ck_anchor (mc_clock m) /\ ck_per_tick (mc_clock m') = ck_per_tick (mc_clock m) /\
    ck_hz (mc_clock m') = ck_hz (mc_clock m) /\ ck_max (mc_clock m) <= ck_max (mc_clock m') /\
    match o with Some t => t = ck_max (mc_clock m') | None => True end.
Proof.
  intros Hok Hev Hlt. destruct m as [c counter awake]. pose proof Hok as [Hr Hp Ha Hs Hm]. unfold passed in *. simpl in *.
  destruct ev as [k | lag | | counter']; simpl in *.
  - eexists None, _. split; [done |]. split; [| simpl; destruct (ck_suspended c); split_and!; try done; lia].
    split; simpl; try tauto; [pose proof (wrap64_range (counter + k)); tauto | destruct (ck_suspended c); lia | |].
    + unfold Clock.reading in *. destruct (ck_suspended c); [done |]. rewrite <- Hs. unfold wrap64. rewrite Zplus_mod_idemp_l. f_equal. lia.
    + split; [lia |]. etransitivity; [apply Hm |]. apply Z.div_le_mono; destruct (ck_suspended c); lia.
  - assert (exists lag', 0 <= lag' < 2 ^ 62 /\ wrap64 (Clock.reading c (wrap64 (counter - lag)) + lag') = Clock.reading c counter) as (lag' & Hl & Hw).
    { unfold Clock.reading. destruct (ck_suspended c).
      - exists 0. split; [lia |]. rewrite Z.add_0_r. apply wrap64_small, Hr.
      - exists lag. split; [done |]. unfold wrap64. rewrite Zplus_mod_idemp_l. replace (counter - lag + lag) with counter by lia. apply wrap64_small, Hr. }
    destruct (ticks_spec _ lag' _ Hok ltac:(simpl; lia) Hl Hw) as (t & c' & E & Ht & Hmax & Hok' & E1 & E2 & E3 & _). simpl in *.
    rewrite E. eexists (Some t), _. split; [done |]. split; [done |]. simpl. split_and!; try done; lia.
  - exists None. eexists. split; [done |]. unfold Clock.reading in Hs. destruct (ck_suspended c) eqn:Es; [split_and!; try done; simpl; lia |].
    split; [| simpl; split_and!; try done; lia]. split; simpl; tauto.
  - exists None. eexists. split; [done |]. unfold Clock.reading in Hs. destruct (ck_suspended c) eqn:Es; [| split_and!; try done; simpl; lia].
    assert (Z.max (as_i64 (wrap64 (wrap64 (ck_suspended_at c - ck_offset c) - ck_anchor c))) 0 = awake) as Hat.
    { pose proof (elapsed_lag c counter awake 0) as He. unfold Clock.elapsed, Clock.elapsed_between, Clock.reading in He. rewrite Es in He.
      rewrite He; [lia | | lia | lia]. by rewrite Hs, Z.add_0_r, wrap64_small by apply Hr. }
    split; [| simpl; split_and!; try done; try lia; rewrite (proj2 (Z.eqb_neq _ _)) by lia; lia].
    split; simpl; [split_and!; try apply Hr; [apply wrap64_range | done] | done | done | |].
    + unfold Clock.reading. simpl. rewrite <- (wrap64_small counter') at 2 by done. unfold wrap64 in *.
      rewrite Zplus_mod_idemp_l. rewrite (Z.add_comm (ck_anchor c)), <- Z.add_assoc, Zplus_mod_idemp_l.
      replace (counter' - ck_suspended_at c + ck_offset c + (ck_anchor c + awake))
        with ((counter' - ck_suspended_at c) + (ck_anchor c + ck_offset c + awake)) by lia.
      rewrite Zplus_mod, Hs, Zplus_mod_idemp_l. f_equal. lia.
    + rewrite (proj2 (Z.eqb_neq _ _)) by lia. rewrite Hat. lia.
Qed.

Lemma passed_cons ev evs : passed (ev :: evs) = passed [ev] + passed evs.
Proof. unfold passed. rewrite !fmap_cons, fmap_nil. cbn [foldr]. lia. Qed.

Lemma passed_nonneg evs : Forall event_ok evs -> 0 <= passed evs.
Proof.
  induction 1 as [| ev evs Hev _ IH]; [done |]. rewrite passed_cons. unfold passed at 1. simpl. destruct ev; simpl in *; lia.
Qed.

Lemma run_clock_ok evs m :
  clock_ok m -> Forall event_ok evs -> mc_awake m + passed evs < 2 ^ 63 ->
  exists os m', run_clock evs m = (os, m') /\ clock_ok m' /\ mc_awake m <= mc_awake m' <= mc_awake m + passed evs /\
    ck_anchor (mc_clock m') = ck_anchor (mc_clock m) /\ ck_per_tick (mc_clock m') = ck_per_tick (mc_clock m) /\
    ck_hz (mc_clock m') = ck_hz (mc_clock m) /\
    StronglySorted Z.le os /\ Forall (fun t => ck_max (mc_clock m) <= t <= ck_max (mc_clock m')) os /\
    ck_max (mc_clock m) <= ck_max (mc_clock m').
Proof.
  revert m. induction evs as [| ev evs IH]; intros m Hok Hevs Hlt.
  - exists [], m. unfold passed in *. simpl in *. split; [done |]. split; [done |]. split; [lia |]. split; [done |]. split; [done |]. split; [done |]. split; [apply SSorted_nil |]. by split; [apply Forall_nil |].
  - apply Forall_cons in Hevs as [Hev Hevs]. rewrite passed_cons in *. pose proof (passed_nonneg evs Hevs).
    destruct (step_clock_ok ev m Hok Hev ltac:(lia)) as (o & m1 & E & Hok1 & Ha1 & E1 & E2 & E3 & Hm1 & Ho).
    destruct (IH m1 Hok1 Hevs ltac:(lia)) as (os & m2 & E' & Hok2 & Ha2 & E1' & E2' & E3' & Hs & Hf & Hm2).
    assert (Forall (fun t => ck_max (mc_clock m) <= t <= ck_max (mc_clock m2)) os) as Hf'.
    { eapply Forall_impl; [exact Hf |]. simpl. lia. }
    eexists _, m2. cbn [run_clock]. rewrite E, E'. split; [done |]. split; [done |]. split; [lia |].
    split; [congruence |]. split; [congruence |]. split; [congruence |].
    destruct o as [t |]; [subst t | by split_and!; [| | lia]]. split; [| split; [| lia]].
    + apply SSorted_cons; [done |]. eapply Forall_impl; [exact Hf |]. simpl. lia.
    + apply Forall_cons. split; [lia | done].
Qed.

(** The reading a deadline is programmed with is the one at which it is due. *)
Lemma counter_at_spec m t c :
  clock_ok m -> mc_awake m < 2 ^ 63 -> 0 <= t -> Clock.counter_at t (mc_clock m) = Some c ->
  c = wrap64 (mc_counter m + (t * ck_per_tick (mc_clock m) - mc_awake m)) /\
  Clock.elapsed (mc_clock m) c = t * ck_per_tick (mc_clock m).
Proof.
  intros [Hr Hp Ha Hs Hm] Hlt Ht. unfold Clock.counter_at, checked_mul. destruct (_ || _) eqn:Eo; [done |].
  apply orb_false_iff in Eo as [_ Es]. destruct (_ * _ <=? _) eqn:El; [| done].
  destruct (Z.ltb_spec (2 ^ 63 - 1) (t * ck_per_tick (mc_clock m))) as [? | Hle]; [done |]. intros [= <-].
  unfold Clock.reading in Hs. rewrite Es in Hs. split.
  - rewrite <- Hs. unfold wrap64. rewrite !Zplus_mod_idemp_l. f_equal. lia.
  - rewrite (elapsed_lag _ _ (t * ck_per_tick (mc_clock m)) 0); [lia | | nia | lia].
    unfold Clock.reading. rewrite Es. rewrite Z.add_0_r, wrap64_idem. unfold wrap64. rewrite Zplus_mod_idemp_l. done.
Qed.

(** The tick is the time awake. From a clock anchored at a reading, over every
    sequence of counter movements, of readings by cores whose counters lag, and of
    sleeps that end on a counter that ran on or restarted anywhere, short of 2^63 cycles:
    the ticks answered never decrease and are never ahead; a core that does not lag reads
    exactly the cycles awake since the anchor, in ticks, asleep or not; the nanoseconds
    are those of the anchor and the cycles awake; and the counter value given for a tick
    is the value the counter has when that tick begins, if the machine stays awake. *)
Theorem tick_is_the_time_awake now hz evs c0 :
  u64_range now -> Clock.anchor now hz Clock.new = (true, c0) -> 0 <= hz -> Forall event_ok evs -> passed evs < 2 ^ 63 ->
  exists os m, run_clock evs (mkMachine c0 now 0) = (os, m) /\ StronglySorted Z.le os /\
    let per := hz / TICK_HZ in
    Forall (fun t => t <= mc_awake m / per) os /\
    (fst (Clock.ticks (mc_counter m) (mc_clock m)) = mc_awake m / per) /\
    Clock.nanos (mc_clock m) (mc_counter m) = cycles_to_ns (wrap64 (now + mc_awake m)) hz /\
    forall t c, 0 <= t -> Clock.counter_at t (mc_clock m) = Some c ->
      c = wrap64 (mc_counter m + (t * per - mc_awake m)) /\ Clock.elapsed (mc_clock m) c = t * per.
Proof.
  intros Hnow. unfold Clock.anchor. simpl. destruct (Z.eqb_spec (hz / TICK_HZ) 0) as [? | Hper]; [done |]. simpl.
  intros [= <-] Hhz Hevs Hlt. assert (0 < hz / TICK_HZ) by (pose proof (Z.div_pos hz TICK_HZ Hhz ltac:(done)); lia).
  set (c0 := mkClock now (hz / TICK_HZ) hz 0 0 false 0).
  assert (clock_ok (mkMachine c0 now 0)) as Hok.
  { split; simpl; try done. unfold Clock.reading. simpl. by rewrite !Z.add_0_r, wrap64_small. }
  destruct (run_clock_ok evs _ Hok Hevs ltac:(simpl; lia)) as (os & m & E & Hok' & Ha & E1 & E2 & E3 & Hs & Hf & _).
  simpl in *. exists os, m. split; [done |]. split; [done |]. rewrite <- E2. split; [| split; [| split]].
  - eapply Forall_impl; [exact Hf |]. simpl. destruct Hok' as [_ _ _ _ Hm]. lia.
  - destruct (ticks_spec m 0 (mc_counter m) Hok' ltac:(lia) ltac:(lia)) as (t & c & -> & _ & _ & _ & _ & _ & _ & Ht); [| by apply Ht].
    rewrite Z.add_0_r. apply wrap64_small. unfold Clock.reading. destruct Hok' as [Hr _ _ _ _]. destruct (ck_suspended _); apply Hr.
  - unfold Clock.nanos, Clock.nanos_between. destruct Hok' as [Hr Hp Haw Hsum _]. rewrite (proj2 (Z.eqb_neq _ _)) by lia.
    rewrite E3. f_equal. rewrite <- Hsum. unfold wrap64. rewrite Zminus_mod_idemp_l. f_equal. lia.
  - intros t c Ht Hc. apply counter_at_spec; [done | lia | done | done].
Qed.

Lemma tick_is_the_time_awake_witness :
  exists os m, run_clock [Pass 250; ReadLag 10; Suspend; Pass 999; ReadLag 0; Resume 7; Pass 50; ReadLag 0]
      (mkMachine (snd (Clock.anchor 5000 10000 Clock.new)) 5000 0) = (os, m) /\
    os = [2; 2; 3] /\ StronglySorted Z.le os /\ fst (Clock.ticks (mc_counter m) (mc_clock m)) = 300 / 100.
Proof.
  destruct (tick_is_the_time_awake 5000 10000 [Pass 250; ReadLag 10; Suspend; Pass 999; ReadLag 0; Resume 7; Pass 50; ReadLag 0]
    (snd (Clock.anchor 5000 10000 Clock.new))) as (os & m & E & Hs & _ & Ht & _).
  - unfold u64_range. lia.
  - reflexivity.
  - lia.
  - repeat (apply Forall_cons; split; [simpl; unfold u64_range; try lia; exact I |]). by apply Forall_nil.
  - vm_compute. reflexivity.
  - exists os, m. split; [exact E |]. assert (os = [2; 2; 3] /\ mc_awake m = 300) as [Ho Ha] by (vm_compute in E; injection E as <- <-; done).
    split; [exact Ho |]. split; [exact Hs |]. rewrite Ha in Ht. exact Ht.
Defined.

(** The flag and the offset are not read together: a reading that sees the machine
    suspended and then the offset of the rebase takes the sleep out twice. Here a clock
    that answered ten seconds before a sleep of four answers six. *)
Lemma reading_across_a_rebase_steps_back :
  let c := Clock.suspend 1000 (snd (Clock.anchor 0 100 Clock.new)) in
  let c' := Clock.rebase 1000 1400 c in
  Clock.nanos c 1400 = 10000000000 /\ Clock.nanos c' 1400 = 10000000000 /\ Clock.nanos_between c c' 1400 = 6000000000.
Proof. vm_compute. done. Qed.
