(* ===== verification/Tlb.v ===== *)
(** The cross-core shootdown (kernel/mem/tlb.rs): requests carry generations, a core
    acknowledges the generation it flushed for, and a requester waits for every other
    core. Threads and cores interleave at the accesses to shared memory; an action names
    who moves. *)

From S2P Require Import Prelude.

Definition MAX_CPUS : nat := 64.

(** Where a requester is in [shootdown]: [count] is the loop of [acknowledged]. *)
Inductive Requester :=
| Idle
| Started (me : nat) (since : nat)
| Holding (me : nat) (since : nat)
| Publishing (me : nat) (since : nat) (generation : Z) (cpu targets : nat)
| Counting (me : nat) (since : nat) (generation : Z) (targets cpu count : nat)
| Releasing (me : nat) (since : nat) (generation : Z) (complete : bool)
| Returned (me : nat) (since : nat) (complete : bool).

(** Where a run of [service_pending] on a core is: the request it read, and when the
    core last flushed for it. *)
Inductive Service :=
| Wanted (cpu : nat) (wanted : Z)
| Behind (cpu : nat) (wanted : Z)
| Flushed (cpu : nat) (wanted : Z) (at_ : nat).

(** The statics, the core count, the threads and the running services. [now] counts the
    actions; [asked] says when a generation was drawn and [flushed] when a core last
    copied its port bitmap and flushed its translations, neither of which the code reads. *)
Record Tlb := mkTlb {
  cpus : nat;
  request : Z;
  pending : list Z;
  ack : list Z;
  in_flight : bool;
  requesters : list Requester;
  services : list Service;
  now : nat;
  asked : Z -> nat;
  flushed : list nat;
}.

Definition load (l : list Z) (cpu : nat) : Z := nth cpu l 0.

Definition covers_every_core (cpus : nat) : bool := (cpus <=? MAX_CPUS)%nat.

Section setters.
Implicit Type s : Tlb.
Definition set_request (g : Z) (asked' : Z -> nat) s : Tlb :=
  mkTlb (cpus s) g (pending s) (ack s) (in_flight s) (requesters s) (services s) (now s) asked' (flushed s).
Definition set_pending (l : list Z) s : Tlb :=
  mkTlb (cpus s) (request s) l (ack s) (in_flight s) (requesters s) (services s) (now s) (asked s) (flushed s).
Definition set_ack (l : list Z) s : Tlb :=
  mkTlb (cpus s) (request s) (pending s) l (in_flight s) (requesters s) (services s) (now s) (asked s) (flushed s).
Definition set_in_flight (b : bool) s : Tlb :=
  mkTlb (cpus s) (request s) (pending s) (ack s) b (requesters s) (services s) (now s) (asked s) (flushed s).
Definition set_requester (i : nat) (r : Requester) s : Tlb :=
  mkTlb (cpus s) (request s) (pending s) (ack s) (in_flight s) (<[i := r]> (requesters s)) (services s) (now s) (asked s) (flushed s).
Definition set_services (l : list Service) s : Tlb :=
  mkTlb (cpus s) (request s) (pending s) (ack s) (in_flight s) (requesters s) l (now s) (asked s) (flushed s).
Definition set_flushed (l : list nat) s : Tlb :=
  mkTlb (cpus s) (request s) (pending s) (ack s) (in_flight s) (requesters s) (services s) (now s) (asked s) l.
Definition tick s : Tlb :=
  mkTlb (cpus s) (request s) (pending s) (ack s) (in_flight s) (requesters s) (services s) (S (now s)) (asked s) (flushed s).
End setters.

(** One access of [shootdown]. A core count of one and one that is not covered return at
    once; a held flag is tried again. *)
Definition shootdown_step (i : nat) (r : Requester) (s : Tlb) : Tlb :=
  match r with
  | Idle | Returned _ _ _ => s
  | Started me since =>
      if (cpus s <=? 1)%nat then set_requester i (Returned me since true) s
      else if negb (covers_every_core (cpus s)) then set_requester i (Returned me since false) s
      else if in_flight s then s
      else set_requester i (Holding me since) (set_in_flight true s)
  | Holding me since =>
      let generation := request s + 1 in
      set_requester i (Publishing me since generation 0 0)
        (set_request generation (fun g => if g =? generation then now s else asked s g) s)
  | Publishing me since generation cpu targets =>
      if (cpu <? Nat.min (cpus s) MAX_CPUS)%nat then
        if (cpu =? me)%nat then set_requester i (Publishing me since generation (S cpu) targets) s
        else set_requester i (Publishing me since generation (S cpu) (S targets)) (set_pending (<[cpu := generation]> (pending s)) s)
      else set_requester i (Counting me since generation targets 0 0) s
  | Counting me since generation targets cpu count =>
      if (cpu <? Nat.min (cpus s) MAX_CPUS)%nat then
        if negb (cpu =? me)%nat && (generation <=? load (ack s) cpu) then
          set_requester i (Counting me since generation targets (S cpu) (S count)) s
        else set_requester i (Counting me since generation targets (S cpu) count) s
      else if (count =? targets)%nat then set_requester i (Releasing me since generation true) s
      else set_requester i (Counting me since generation targets 0 0) s
  | Releasing me since generation complete => set_requester i (Returned me since complete) (set_in_flight false s)
  end.

(** One access of [service_pending]: the load of the core's acknowledgement, the copy and
    the flush, and the [fetch_max]. *)
Definition service_step (k : nat) (f : Service) (s : Tlb) : Tlb :=
  match f with
  | Wanted cpu wanted =>
      if load (ack s) cpu <? wanted then set_services (<[k := Behind cpu wanted]> (services s)) s
      else set_services (delete k (services s)) s
  | Behind cpu wanted =>
      set_services (<[k := Flushed cpu wanted (now s)]> (services s)) (set_flushed (<[cpu := now s]> (flushed s)) s)
  | Flushed cpu wanted _ =>
      set_services (delete k (services s)) (set_ack (<[cpu := Z.max (load (ack s) cpu) wanted]> (ack s)) s)
  end.

Inductive Action :=
| Call (i me : nat)        (** thread [i] calls [shootdown] on core [me] *)
| Migrate (i me : nat)     (** thread [i] is moved before it has asked which core it is on *)
| Move (i : nat)           (** thread [i] makes its next access *)
| GiveUp (i : nat)         (** thread [i] has counted too long *)
| Look (cpu : nat)         (** a core enters [service_pending] and loads its request *)
| Serve (k : nat).         (** a running [service_pending] makes its next access *)

Definition tlb_step (a : Action) (s : Tlb) : Tlb :=
  let s := tick s in
  match a with
  | Call i me =>
      match requesters s !! i with
      | Some Idle | Some (Returned _ _ _) => if (me <? cpus s)%nat then set_requester i (Started me (now s)) s else s
      | _ => s
      end
  | Migrate i me =>
      match requesters s !! i with
      | Some (Started _ since) => if (me <? cpus s)%nat then set_requester i (Started me since) s else s
      | Some (Holding _ since) => if (me <? cpus s)%nat then set_requester i (Holding me since) s else s
      | _ => s
      end
  | Move i => match requesters s !! i with Some r => shootdown_step i r s | None => s end
  | GiveUp i =>
      match requesters s !! i with
      | Some (Counting me since generation _ _ _) => set_requester i (Releasing me since generation false) s
      | _ => s
      end
  | Look cpu =>
      if (cpu <? Nat.min (cpus s) MAX_CPUS)%nat then set_services (services s ++ [Wanted cpu (load (pending s) cpu)]) s else s
  | Serve k => match services s !! k with Some f => service_step k f s | None => s end
  end.

Definition run_tlb (acts : list Action) (s : Tlb) : Tlb := foldl (fun s a => tlb_step a s) s acts.

(** [threads] threads on [n] cores, before the first request. *)
Definition boot (n threads : nat) : Tlb :=
  mkTlb n 0 (replicate MAX_CPUS 0) (replicate MAX_CPUS 0) false (replicate threads Idle) [] 0 (fun _ => 0%nat) (replicate MAX_CPUS 0%nat).
