(* ===== verification/TlbProps.v ===== *)
(** What a completed shootdown promises: every other core has flushed since it was
    called, whatever requests gave up before and however late their answers come. *)

From S2P Require Import Prelude Tlb.

Implicit Type s : Tlb.

Definition flush_time s (cpu : nat) : nat := nth cpu (flushed s) 0%nat.

(** The cores below [cpu] other than [me], and those of them that acknowledged [g]. *)
Definition others (me cpu : nat) : list nat := base.filter (fun c => c <> me) (seq 0 cpu).
Definition acked s (g : Z) (me cpu : nat) : nat := length (base.filter (fun c => g <= load (ack s) c) (others me cpu)).

(** ** The invariant *)

Definition generation_ok s (g : Z) : Prop := 1 <= g <= request s.

Definition requester_ok s (r : Requester) : Prop :=
  match r with
  | Idle => True
  | Started me since | Holding me since => (me < cpus s)%nat /\ (since <= now s)%nat /\ (r = Holding me since -> (cpus s <= MAX_CPUS)%nat)
  | Publishing me since g cpu targets =>
      (me < cpus s <= MAX_CPUS)%nat /\ generation_ok s g /\ (since <= asked s g)%nat /\
      (cpu <= cpus s)%nat /\ targets = length (others me cpu)
  | Counting me since g targets cpu count =>
      (me < cpus s <= MAX_CPUS)%nat /\ generation_ok s g /\ (since <= asked s g)%nat /\
      (cpu <= cpus s)%nat /\ targets = length (others me (cpus s)) /\ (count <= acked s g me cpu)%nat
  | Releasing me since g complete =>
      (me < cpus s <= MAX_CPUS)%nat /\ generation_ok s g /\ (since <= asked s g)%nat /\
      (complete = true -> forall c, (c < cpus s)%nat -> c <> me -> g <= load (ack s) c)
  | Returned me since complete =>
      (me < cpus s)%nat /\ (complete = true -> forall c, (c < cpus s)%nat -> c <> me -> (since <= flush_time s c)%nat)
  end.

Definition service_ok s (f : Service) : Prop :=
  match f with
  | Wanted cpu w => (cpu < MAX_CPUS)%nat /\ 0 <= w <= request s
  | Behind cpu w => (cpu < MAX_CPUS)%nat /\ generation_ok s w
  | Flushed cpu w t => (cpu < MAX_CPUS)%nat /\ generation_ok s w /\ (asked s w <= t <= flush_time s cpu)%nat
  end.

Record tlb_inv s : Prop := mk_tlb_inv {
  ti_len : length (pending s) = MAX_CPUS /\ length (ack s) = MAX_CPUS /\ length (flushed s) = MAX_CPUS;
  ti_request : 0 <= request s;
  ti_asked : forall g, generation_ok s g -> (asked s g <= now s)%nat;
  ti_order : forall g g', generation_ok s g -> generation_ok s g' -> g <= g' -> (asked s g <= asked s g')%nat;
  ti_pending : forall c, 0 <= load (pending s) c <= request s;
  ti_ack : forall c, load (ack s) c = 0 \/ (generation_ok s (load (ack s) c) /\ (asked s (load (ack s) c) <= flush_time s c)%nat);
  ti_flushed : forall c, (flush_time s c <= now s)%nat;
  ti_services : forall f, f ∈ services s -> service_ok s f;
  ti_requesters : forall r, r ∈ requesters s -> requester_ok s r;
}.

(** Time only adds: requests, acknowledgements, flushes. *)
Record later s s' : Prop := mk_later {
  lt_cpus : cpus s' = cpus s;
  lt_request : request s <= request s';
  lt_asked : forall g, generation_ok s g -> asked s' g = asked s g;
  lt_ack : forall c, load (ack s) c <= load (ack s') c;
  lt_flushed : forall c, (flush_time s c <= flush_time s' c)%nat;
  lt_now : (now s <= now s')%nat;
}.

Lemma later_refl s : later s s.
Proof. by split. Qed.

Lemma generation_later s s' g : later s s' -> generation_ok s g -> generation_ok s' g.
Proof. intros L. pose proof (lt_request _ _ L). unfold generation_ok. lia. Qed.

Lemma acked_later s s' g me cpu : later s s' -> (acked s g me cpu <= acked s' g me cpu)%nat.
Proof.
  intros L. unfold acked. induction (others me cpu) as [| c l IH]; [done |]. rewrite !filter_cons.
  pose proof (lt_ack _ _ L c). repeat case_decide; simpl; lia.
Qed.

Lemma requester_later s s' r : later s s' -> requester_ok s r -> requester_ok s' r.
Proof.
  intros L. pose proof (lt_cpus _ _ L) as Ec. pose proof (lt_now _ _ L).
  destruct r as [| me since | me since | me since g cpu targets | me since g targets cpu count | me since g complete | me since complete];
    simpl; rewrite ?Ec; [done | intros (? & ? & Hx); split_and!; [done | lia | done] | intros (? & ? & Hx); split_and!; [done | lia | done] | ..].
  - intros (? & Hg & Hs & ?). rewrite (lt_asked _ _ L g Hg). split_and!; try tauto. by eapply generation_later.
  - intros (? & Hg & Hs & ? & ? & Hk). rewrite (lt_asked _ _ L g Hg). pose proof (acked_later s s' g me cpu L).
    split_and!; try tauto; [by eapply generation_later | lia].
  - intros (? & Hg & Hs & Hc). rewrite (lt_asked _ _ L g Hg). split_and!; try tauto; [by eapply generation_later |].
    intros Ht c Hlt Hne. pose proof (lt_ack _ _ L c). specialize (Hc Ht c Hlt Hne). lia.
  - intros (? & Hc). split; [done |]. intros Ht c Hlt Hne. pose proof (lt_flushed _ _ L c). specialize (Hc Ht c Hlt Hne). lia.
Qed.

Lemma service_later s s' f : later s s' -> service_ok s f -> service_ok s' f.
Proof.
  intros L. pose proof (lt_request _ _ L). destruct f as [cpu w | cpu w | cpu w t]; simpl.
  - intros [? ?]. split; [done | lia].
  - intros [? Hg]. split; [done | by eapply generation_later].
  - intros (? & Hg & Ht). pose proof (lt_flushed _ _ L cpu). rewrite (lt_asked _ _ L w Hg).
    split_and!; [done | by eapply generation_later | lia | lia].
Qed.

(** ** One access at a time *)

Lemma nth_insert {A} (l : list A) c x c' d :
  (c < length l)%nat -> nth c' (<[c := x]> l) d = if decide (c = c') then x else nth c' l d.
Proof.
  intros Hc. rewrite !nth_lookup. case_decide as Hd; [subst c'; by rewrite list_lookup_insert_eq | by rewrite list_lookup_insert_ne].
Qed.

(** The threads and services an access does not touch. *)
Ltac untouched L Hs Hq :=
  match goal with
  | |- forall f, f ∈ services _ -> _ => intros ? ?; eapply service_later; [exact L | by apply Hs]
  | |- forall r, r ∈ requesters _ -> _ => intros ? ?; eapply requester_later; [exact L | by apply Hq]
  end.

Lemma tick_ok s : tlb_inv s -> tlb_inv (tick s) /\ later s (tick s).
Proof.
  intros I. assert (later s (tick s)) as L by (split; try done; simpl; lia). split; [| done].
  destruct I as [Hl Hr Ha Ho Hp Hk Hf Hs Hq]. split; try done; try untouched L Hs Hq.
  - intros g Hg. specialize (Ha g Hg). simpl. lia.
  - intros c. specialize (Hf c). unfold flush_time in *. simpl. lia.
Qed.

Lemma requester_step s i r : tlb_inv s -> requester_ok s r -> tlb_inv (set_requester i r s) /\ later s (set_requester i r s).
Proof.
  intros I Hr. split; [| by split]. destruct I as [Hl Hrq Ha Ho Hp Hk Hf Hs Hq]. split; try done.
  intros r' Hin. simpl in Hin. assert (r' = r \/ r' ∈ requesters s) as [-> | Hin'].
  { apply list_elem_of_lookup in Hin as [j Hj]. apply list_lookup_insert_Some in Hj as [(_ & <- & _) | (_ & Hj)]; [by left |].
    right. by eapply list_elem_of_lookup_2. }
  - destruct r; exact Hr.
  - specialize (Hq r' Hin'). destruct r'; exact Hq.
Qed.

Lemma in_flight_step s b : tlb_inv s -> tlb_inv (set_in_flight b s) /\ later s (set_in_flight b s).
Proof.
  intros I. assert (later s (set_in_flight b s)) as L by (by split). split; [| done]. destruct I as [Hl Hr Ha Ho Hp Hk Hf Hs Hq]. split; try done; try untouched L Hs Hq.
Qed.

(** A generation is drawn, later than every other. *)
Lemma draw_step s :
  tlb_inv s ->
  let s' := set_request (request s + 1) (fun g => if g =? request s + 1 then now s else asked s g) s in
  tlb_inv s' /\ later s s' /\ generation_ok s' (request s + 1) /\ asked s' (request s + 1) = now s.
Proof.
  intros I s'. pose proof I as [Hl Hr Ha Ho Hp Hk Hf Hs Hq].
  assert (forall g, generation_ok s g -> asked s' g = asked s g) as Hold.
  { intros g Hg. unfold s', generation_ok in *. simpl. by rewrite (proj2 (Z.eqb_neq _ _)) by lia. }
  assert (asked s' (request s + 1) = now s) as Hnew by (unfold s'; simpl; by rewrite Z.eqb_refl).
  assert (forall g, generation_ok s' g -> generation_ok s g \/ g = request s + 1) as Hcase.
  { unfold generation_ok, s'. simpl. lia. }
  assert (later s s') as L by (split; try done; unfold s'; simpl; lia).
  split; [| split; [done |]; split; [unfold generation_ok, s'; simpl; lia | done]].
  split; try done; try untouched L Hs Hq.
  - unfold s'. simpl. lia.
  - intros g [Hg | ->]%Hcase; [rewrite Hold by done; by apply Ha | by rewrite Hnew].
  - intros g g' [Hg | ->]%Hcase [Hg' | ->]%Hcase Hle; rewrite ?Hnew, ?Hold by done; try done; [auto | by apply Ha |].
    unfold generation_ok in Hg'. lia.
  - intros c. specialize (Hp c). unfold s'. simpl. lia.
  - intros c. destruct (Hk c) as [? | [Hg Hfl]]; [by left | right]. split; [by eapply generation_later; [exact L |] |].
    replace (load (ack s') c) with (load (ack s) c) by done. by rewrite Hold.
Qed.

Lemma publish_step s c g :
  tlb_inv s -> generation_ok s g -> (c < MAX_CPUS)%nat ->
  tlb_inv (set_pending (<[c := g]> (pending s)) s) /\ later s (set_pending (<[c := g]> (pending s)) s).
Proof.
  intros I Hg Hc. assert (later s (set_pending (<[c := g]> (pending s)) s)) as L by (by split). split; [| done]. destruct I as [Hl Hr Ha Ho Hp Hk Hf Hs Hq]. split; try done; try untouched L Hs Hq.
  - simpl. rewrite length_insert. done.
  - intros c'. simpl. unfold load. rewrite nth_insert by lia. case_decide; [unfold generation_ok in Hg; lia | apply Hp].
Qed.

Lemma services_step s l :
  tlb_inv s -> (forall f, f ∈ l -> f ∈ services s \/ service_ok s f) -> tlb_inv (set_services l s) /\ later s (set_services l s).
Proof.
  intros I Hall. assert (later s (set_services l s)) as L by (by split). split; [| done]. destruct I as [Hl Hr Ha Ho Hp Hk Hf Hs Hq]. split; try done; try untouched L Hs Hq.
  - intros f Hin. simpl in Hin. destruct (Hall f Hin) as [Hold | Hok]; [specialize (Hs f Hold) as Hok |]; destruct f; exact Hok.
Qed.

Lemma flush_step s c :
  tlb_inv s -> (c < MAX_CPUS)%nat ->
  let s' := set_flushed (<[c := now s]> (flushed s)) s in tlb_inv s' /\ later s s' /\ flush_time s' c = now s.
Proof.
  intros I Hc s'. pose proof I as [Hl Hr Ha Ho Hp Hk Hf Hs Hq].
  assert (forall c', flush_time s' c' = if decide (c = c') then now s else flush_time s c') as Hft.
  { intros c'. unfold flush_time, s'. simpl. apply nth_insert. lia. }
  assert (later s s') as L.
  { split; try done. intros c'. rewrite Hft. case_decide; [subst; apply Hf | done]. }
  split; [| split; [done |]; rewrite Hft; by rewrite decide_True]. split; try done; try untouched L Hs Hq.
  - simpl. rewrite length_insert. done.
  - intros c'. rewrite Hft. destruct (Hk c') as [? | [Hg Hfl]]; [by left | right]. split; [done |].
    case_decide; [by apply Ha | done].
  - intros c'. rewrite Hft. case_decide; [done | apply Hf].
Qed.

Lemma ack_step s c w :
  tlb_inv s -> (c < MAX_CPUS)%nat -> generation_ok s w -> (asked s w <= flush_time s c)%nat ->
  let s' := set_ack (<[c := Z.max (load (ack s) c) w]> (ack s)) s in tlb_inv s' /\ later s s'.
Proof.
  intros I Hc Hg Hfl s'. pose proof I as [Hl Hr Ha Ho Hp Hk Hf Hs Hq].
  assert (forall c', load (ack s') c' = if decide (c = c') then Z.max (load (ack s) c) w else load (ack s) c') as Hld.
  { intros c'. unfold load, s'. simpl. apply nth_insert. lia. }
  assert (later s s') as L.
  { split; try done. intros c'. rewrite Hld. case_decide; [subst; lia | done]. }
  split; [| done]. split; try done; try untouched L Hs Hq.
  - simpl. rewrite length_insert. done.
  - intros c'. rewrite Hld. case_decide as Hd; [subst c' | apply Hk]. right.
    destruct (Z.max_spec (load (ack s) c) w) as [[_ ->] | [Hle ->]]; [done |].
    destruct (Hk c) as [H0 | [Hg' Hfl']]; [unfold generation_ok in Hg; lia | done].
Qed.

Lemma others_S me cpu : others me (S cpu) = others me cpu ++ (if decide (cpu = me) then [] else [cpu]).
Proof.
  unfold others. rewrite seq_S, filter_app. simpl. f_equal. rewrite filter_cons, filter_nil. repeat case_decide; done.
Qed.

Lemma acked_S s g me cpu :
  acked s g me (S cpu) = (acked s g me cpu + (if decide (cpu <> me /\ (g <= load (ack s) cpu)%Z) then 1 else 0))%nat.
Proof.
  unfold acked. rewrite others_S, filter_app, length_app. f_equal. case_decide as Hm.
  - rewrite decide_False by tauto. done.
  - rewrite filter_cons, filter_nil. repeat case_decide; simpl; tauto.
Qed.

(** A count that reaches the targets has seen every one of them. *)
Lemma acked_all s g me n : (length (others me n) <= acked s g me n)%nat -> forall c, (c < n)%nat -> c <> me -> g <= load (ack s) c.
Proof.
  unfold acked. intros Hle c Hc Hne. assert (c ∈ others me n) as Hin.
  { apply list_elem_of_filter. split; [done |]. apply elem_of_seq. lia. }
  apply list_elem_of_split in Hin as (l1 & l2 & E). rewrite E in Hle. rewrite filter_app, filter_cons, !length_app in Hle.
  pose proof (length_filter (fun c => g <= load (ack s) c) l1). pose proof (length_filter (fun c => g <= load (ack s) c) l2).
  case_decide; [done | simpl in *; lia].
Qed.

Lemma later_trans s1 s2 s3 : later s1 s2 -> later s2 s3 -> later s1 s3.
Proof.
  intros L1 L2. pose proof L1 as [C1 R1 A1 K1 F1 N1]. pose proof L2 as [C2 R2 A2 K2 F2 N2]. split; try congruence; try lia.
  - intros g Hg. rewrite A2 by (by eapply generation_later). auto.
  - intros c. etransitivity; [apply K1 | apply K2].
  - intros c. etransitivity; [apply F1 | apply F2].
Qed.

(** Two accesses of one action. *)
Lemma both_steps s1 s2 s3 : tlb_inv s2 /\ later s1 s2 -> (tlb_inv s2 -> tlb_inv s3 /\ later s2 s3) -> tlb_inv s3 /\ later s1 s3.
Proof. intros [I1 L1] H. destruct (H I1). split; [done | by eapply later_trans]. Qed.

Lemma publishing_ok s i me since g cpu targets :
  tlb_inv s -> requester_ok s (Publishing me since g cpu targets) ->
  let s' := shootdown_step i (Publishing me since g cpu targets) s in tlb_inv s' /\ later s s'.
Proof.
  intros I (Hme & Hg & Hs & Hc & Ht). cbn [shootdown_step]. rewrite Nat.min_l by lia.
  destruct (Nat.ltb_spec cpu (cpus s)) as [Hlt | Hge].
  - destruct (Nat.eqb_spec cpu me) as [-> | Hne].
    + apply requester_step; [done |]. simpl. split_and!; try done; try lia. rewrite others_S, decide_True, app_nil_r by done. done.
    + eapply both_steps; [apply (publish_step s cpu g); try done; lia |]. intros I'. apply requester_step; [done |].
      simpl. split_and!; try done; try lia. rewrite others_S, decide_False, length_app by done. simpl. lia.
  - apply requester_step; [done |]. simpl. split_and!; try done; try lia. replace (cpus s) with cpu by lia. done.
Qed.

Lemma counting_ok s i me since g targets cpu count :
  tlb_inv s -> requester_ok s (Counting me since g targets cpu count) ->
  let s' := shootdown_step i (Counting me since g targets cpu count) s in tlb_inv s' /\ later s s'.
Proof.
  intros I (Hme & Hg & Hs & Hc & Ht & Hk). cbn [shootdown_step]. rewrite Nat.min_l by lia.
  destruct (Nat.ltb_spec cpu (cpus s)) as [Hlt | Hge].
  - destruct (negb (cpu =? me)%nat && (g <=? load (ack s) cpu)) eqn:E; apply requester_step; try done; simpl; rewrite acked_S.
    + apply andb_true_iff in E as [E1%negb_true_iff%Nat.eqb_neq E2%Z.leb_le]. rewrite decide_True by done. split_and!; try done; lia.
    + split_and!; try done; lia.
  - destruct (Nat.eqb_spec count targets) as [-> | Hne]; apply requester_step; try done; simpl; split_and!; try done; try lia.
    intros _. replace (cpus s) with cpu in * by lia. apply acked_all. lia.
Qed.

Lemma shootdown_step_ok s i r :
  tlb_inv s -> requester_ok s r -> tlb_inv (shootdown_step i r s) /\ later s (shootdown_step i r s).
Proof.
  intros I Hr. assert (tlb_inv s /\ later s s) as Hstay by (split; [done | apply later_refl]).
  destruct r as [| me since | me since | me since g cpu targets | me since g targets cpu count | me since g complete | me since complete];
    try done; [| | by apply publishing_ok | by apply counting_ok |].
  - cbn [shootdown_step]. destruct Hr as (Hme & Hsn & _). destruct (Nat.leb_spec (cpus s) 1) as [H1 | H1].
    { apply requester_step; [done |]. simpl. split; [done |]. intros _ c. lia. }
    unfold covers_every_core. destruct (Nat.leb_spec (cpus s) MAX_CPUS) as [H2 | H2]; cbn [negb].
    2:{ apply requester_step; [done |]. by simpl. }
    destruct (in_flight s); [done |]. eapply both_steps; [by apply (in_flight_step s true) |]. intros I'.
    apply requester_step; [done |]. simpl. by split_and!.
  - cbn [shootdown_step]. destruct Hr as (Hme & Hsn & Hcov). destruct (draw_step s I) as (I1 & L1 & Hg & Has).
    apply (both_steps _ _ _ (conj I1 L1)). intros _. apply requester_step; [done |].
    cbn [requester_ok]. rewrite Has. split_and!; try done; [by apply Hcov | lia].
  - cbn [shootdown_step]. destruct Hr as (Hme & Hg & Hs & Hc). eapply both_steps; [by apply (in_flight_step s false) |]. intros I'.
    apply requester_step; [done |]. simpl. split; [lia |]. intros Ht c Hlt Hne. specialize (Hc Ht c Hlt Hne).
    destruct (ti_ack _ I c) as [H0 | [Hgk Hfl]]; [unfold generation_ok in Hg; lia |].
    pose proof (ti_order _ I g (load (ack s) c) Hg Hgk Hc). unfold flush_time in *. simpl. lia.
Qed.

Lemma service_step_ok s k f :
  tlb_inv s -> services s !! k = Some f -> tlb_inv (service_step k f s) /\ later s (service_step k f s).
Proof.
  intros I Hk. pose proof (ti_services _ I f (list_elem_of_lookup_2 _ _ _ Hk)) as Hok.
  assert (forall s', services s' = services s -> forall g, g ∈ delete k (services s') -> g ∈ services s') as Hdel.
  { intros s' _ g Hin. apply (sublist_subseteq (delete k (services s'))); [apply sublist_delete | done]. }
  assert (forall (l : list Service) g x, x ∈ <[k := g]> l -> x ∈ l \/ x = g) as Hins.
  { intros l g x Hin. apply list_elem_of_lookup in Hin as [j Hj].
    apply list_lookup_insert_Some in Hj as [(_ & <- & _) | (_ & Hj)]; [by right | left; by eapply list_elem_of_lookup_2]. }
  destruct f as [cpu w | cpu w | cpu w t]; cbn [service_step].
  - destruct Hok as [Hc Hw]. destruct (Z.ltb_spec (load (ack s) cpu) w) as [Hlt | Hge]; apply services_step; try done.
    + intros g [? | ->]%Hins; [by left | right]. simpl. split; [done |]. unfold generation_ok.
      destruct (ti_ack _ I cpu) as [H0 | [Hg _]]; unfold generation_ok in *; lia.
    + intros g Hin. left. by apply (Hdel s).
  - destruct Hok as [Hc Hw]. destruct (flush_step s cpu I Hc) as (I1 & L1 & Hft). apply (both_steps _ _ _ (conj I1 L1)). intros _.
    apply services_step; [done |]. intros g [? | ->]%Hins; [by left | right]. cbn [service_ok]. rewrite Hft.
    split_and!; try done. by apply (ti_asked _ I).
  - destruct Hok as (Hc & Hw & Ht). eapply both_steps; [apply (ack_step s cpu w); try done; lia |]. intros I1.
    apply services_step; [done |]. intros g Hin. left. by apply (Hdel _ eq_refl).
Qed.

Lemma tlb_step_ok s a : tlb_inv s -> tlb_inv (tlb_step a s) /\ later s (tlb_step a s).
Proof.
  intros I. unfold tlb_step. apply (both_steps _ _ _ (tick_ok s I)). generalize (tick s). clear I. intros s' I.
  assert (tlb_inv s' /\ later s' s') as Hstay by (split; [done | apply later_refl]).
  assert (forall i r, requesters s' !! i = Some r -> requester_ok s' r) as Hr.
  { intros i r Hi. by eapply ti_requesters, list_elem_of_lookup_2. }
  destruct a as [i me | i me | i | i | cpu | k]; cbv zeta.
  - destruct (requesters s' !! i) as [[] |] eqn:Ei; try done; (destruct (Nat.ltb_spec me (cpus s')); [| done]);
      apply requester_step; try done; simpl; by split_and!.
  - destruct (requesters s' !! i) as [[] |] eqn:Ei; try done; (destruct (Nat.ltb_spec me (cpus s')); [| done]);
      apply requester_step; try done; pose proof (Hr _ _ Ei) as (_ & ? & Hx); simpl; split_and!; try done; intros _; by apply Hx.
  - destruct (requesters s' !! i) as [r |] eqn:Ei; [| done]. by apply shootdown_step_ok; [| eapply Hr].
  - destruct (requesters s' !! i) as [[] |] eqn:Ei; try done. apply requester_step; [done |].
    pose proof (Hr _ _ Ei) as (? & ? & ? & _). simpl. split_and!; try done; lia.
  - destruct (Nat.ltb_spec cpu (cpus s' `min` MAX_CPUS)); [| done]. apply services_step; [done |].
    intros f [? | ->%list_elem_of_singleton]%elem_of_app; [by left | right]. simpl. split; [lia | apply (ti_pending _ I)].
  - destruct (services s' !! k) as [f |] eqn:Ek; [| done]. by apply service_step_ok.
Qed.

Lemma nth_replicate {A} n (x : A) c : nth c (replicate n x) x = x.
Proof. rewrite nth_lookup. destruct (replicate n x !! c) as [y |] eqn:E; [| done]. by apply lookup_replicate_1 in E as [-> _]. Qed.

Lemma boot_inv n threads : tlb_inv (boot n threads).
Proof.
  assert (forall c, load (replicate MAX_CPUS 0) c = 0) as H0 by (intros c; apply nth_replicate).
  split; cbn [boot pending ack flushed request asked now services requesters]; try done.
  - intros c. by rewrite H0.
  - intros c. left. apply H0.
  - intros c. unfold flush_time. cbn [boot flushed now]. by rewrite nth_replicate.
  - intros f Hin. by apply not_elem_of_nil in Hin.
  - intros r Hin. by apply elem_of_replicate in Hin as [-> _].
Qed.

Lemma run_tlb_inv acts s : tlb_inv s -> tlb_inv (run_tlb acts s) /\ later s (run_tlb acts s).
Proof.
  unfold run_tlb. revert s. induction acts as [| a acts IH]; intros s I; simpl; [split; [done | apply later_refl] |].
  apply (both_steps _ _ _ (tlb_step_ok s a I)). intros I1. by apply IH.
Qed.

(** C22: A completed shootdown reached every core. On any number of cores, for any number
    of threads that call [shootdown], move between cores, are interrupted at every access,
    give up and call again, and for services that start at any time, nest and finish
    late: when a call returns that it completed, every other core has copied its port
    bitmap and flushed its translations after the call was made. *)
Theorem completed_shootdown_reached_every_core n threads acts i me since :
  requesters (run_tlb acts (boot n threads)) !! i = Some (Returned me since true) ->
  forall c, (c < n)%nat -> c <> me -> (since <= flush_time (run_tlb acts (boot n threads)) c)%nat.
Proof.
  intros Hi c Hc Hne. destruct (run_tlb_inv acts _ (boot_inv n threads)) as [I L].
  pose proof (ti_requesters _ I _ (list_elem_of_lookup_2 _ _ _ Hi)) as [_ Hf]. apply Hf; [done | | done].
  by rewrite (lt_cpus _ _ L).
Qed.

(** Three cores: thread 0 on core 0 asks, core 1 reads the request, thread 0 gives up,
    thread 1 asks on core 2, core 1 answers late and then again, core 0 answers. *)
Definition tlb_demo : list Action :=
  [Call 0 0] ++ replicate 6 (Move 0) ++ [Look 1; GiveUp 0; Move 0; Call 1 2] ++ replicate 6 (Move 1) ++
  [Serve 0; Serve 0; Serve 0; Look 1; Serve 0; Serve 0; Serve 0; Look 0; Serve 0; Serve 0; Serve 0] ++ replicate 6 (Move 1).

Lemma completed_shootdown_reached_every_core_witness :
  requesters (run_tlb tlb_demo (boot 3 2)) !! 0%nat = Some (Returned 0 1 false) /\
  requesters (run_tlb tlb_demo (boot 3 2)) !! 1%nat = Some (Returned 2 11 true) /\
  (forall c, (c < 3)%nat -> c <> 2%nat -> (11 <= flush_time (run_tlb tlb_demo (boot 3 2)) c)%nat).
Proof.
  assert (requesters (run_tlb tlb_demo (boot 3 2)) !! 1%nat = Some (Returned 2 11 true)) as Hi by (vm_compute; reflexivity).
  split; [vm_compute; reflexivity |]. split; [exact Hi |].
  exact (completed_shootdown_reached_every_core 3 2 tlb_demo 1 2 11 Hi).
Defined.
