(* ===== verification/PortGrants.v ===== *)
(** Who may be granted which port (kernel/object/port_range/grants.rs): the reserved set,
    the live grants and the spans retired for the boot, one table under one lock. Each
    operation holds the lock throughout. [None] is a panic: a failed debug assertion, a
    counter below zero, or a push that had to grow on an empty heap. *)

From S2P Require Import Prelude.

Definition PORT_SPACE : Z := 0x10000.

Inductive Part := Fixed | Firmware | Installed.
Inductive Refusal :=
| OutOfRange
| Reserved (part : Part)
| Granted
| Retired
| NoMemory.

Definition FIXED : list (Z * Z) :=
  [(0x00, 0x20); (0x20, 2); (0x40, 4); (0x61, 1); (0x70, 2); (0xA0, 2); (0xC0, 0x20); (0xCF8, 1); (0xCFA, 6); (0x510, 12)].

Definition COM1 : Z * Z := (0x3F8, 8).
Definition KERNEL_CONSOLE : Z := 1.
Definition PROCESSOR_POWER : Z := 2.

Record Install := mkInstall { in_item : Z; in_base : Z; in_end : Z; in_count : Z }.
Record Span := mkSpan { sp_base : Z; sp_end : Z; sp_owner : Z; sp_returns : option (Z * Z) }.

(** The owner of a span that is retired. *)
Definition RETIRED : Z := 0.

Record Table := mkTable { firmware : vec (Z * Z); installs : vec Install; spans : vec Span }.

(** The table and the heap it grows on. *)
Record Grants := mkGrants { table : Table; gheap : heap }.

Definition empty_table : Table := mkTable vec_new vec_new vec_new.

Definition end_of (base len : Z) : option Z :=
  if len =? 0 then None else let end_ := base + len in if PORT_SPACE <? end_ then None else Some end_.

Definition overlaps (base end_ other_base other_end : Z) : bool := (base <? other_end) && (other_base <? end_).

Definition reserved (t : Table) (base end_ : Z) : option Part :=
  if existsb (fun r => overlaps base end_ r.1 (r.1 + r.2)) FIXED then Some Fixed
  else if existsb (fun r => overlaps base end_ r.1 r.2) (items (firmware t)) then Some Firmware
  else if existsb (fun i => overlaps base end_ (in_base i) (in_end i)) (items (installs t)) then Some Installed
  else None.

Definition taken (t : Table) (base end_ : Z) : option Refusal :=
  match list_find (fun s => overlaps base end_ (sp_base s) (sp_end s) = true) (items (spans t)) with
  | Some (_, s) => Some (if sp_owner s =? RETIRED then Retired else Granted)
  | None => None
  end.

(** [Vec::swap_remove]. *)
Definition swap_remove {A} (i : nat) (l : list A) : list A :=
  match last l with Some x => take (length l - 1) (<[i := x]> l) | None => l end.

(** ** Access to the table's vectors *)

Definition set_firmware (v : vec (Z * Z)) (t : Table) : Table := mkTable v (installs t) (spans t).
Definition set_installs (v : vec Install) (t : Table) : Table := mkTable (firmware t) v (spans t).
Definition set_spans (v : vec Span) (t : Table) : Table := mkTable (firmware t) (installs t) v.

Definition with_vec {A B} (get : Table -> vec A) (set : vec A -> Table -> Table) (m : vec A -> M heap (B * vec A)) : M Grants B := fun g =>
  match m (get (table g)) (gheap g) with
  | Some ((b, v), h) => Some (b, mkGrants (set v (table g)) h)
  | None => None
  end.
Definition push {A} (x : A) (v : vec A) : M heap (unit * vec A) := v ← vec_push v x; mret (tt, v).
Definition reserve_one {A} (v : vec A) : M heap (bool * vec A) := try_reserve v 1.
Definition put_items {A} (set : vec A -> Table -> Table) (get : Table -> vec A) (l : list A) : M Grants unit :=
  modify (fun g => mkGrants (set (Vec l (capacity (get (table g)))) (table g)) (gheap g)).

Definition on_firmware {B} := @with_vec (Z * Z) B firmware set_firmware.
Definition on_installs {B} := @with_vec Install B installs set_installs.
Definition on_spans {B} := @with_vec Span B spans set_spans.

(** ** The operations *)

Definition reserve_firmware (base len : Z) : M Grants bool :=
  match end_of base len with
  | None => mret false
  | Some end_ =>
      ok ← on_firmware reserve_one;
      if (ok : bool) then on_firmware (push (base, end_)) ;; mret true else mret false
  end.

Definition recordable (base len : Z) (g : Grants) : result unit Refusal :=
  match end_of base len with
  | None => Err OutOfRange
  | Some end_ =>
      match reserved (table g) base end_ with
      | Some part => Err (Reserved part)
      | None => match taken (table g) base end_ with Some refusal => Err refusal | None => Ok tt end
      end
  end.

Definition grant (base len owner : Z) : M Grants (result unit Refusal) :=
  match end_of base len with
  | None => mret (Err OutOfRange)
  | Some end_ =>
      if owner =? RETIRED then abort
      else
        t ← gets table;
        match reserved t base end_ with
        | Some part => mret (Err (Reserved part))
        | None =>
            match taken t base end_ with
            | Some refusal => mret (Err refusal)
            | None =>
                ok ← on_spans reserve_one;
                if (ok : bool) then on_spans (push (mkSpan base end_ owner None)) ;; mret (Ok tt)
                else mret (Err NoMemory)
            end
        end
  end.

(** [installs.iter().position(|install| ...)], with what is found there. *)
Definition find_install (t : Table) (item base end_ : Z) : option (nat * Install) :=
  list_find (fun i => in_item i = item /\ in_base i = base /\ in_end i = end_) (items (installs t)).

Definition grant_from_install (item base len owner : Z) : M Grants (result unit Refusal) :=
  match end_of base len with
  | None => mret (Err OutOfRange)
  | Some end_ =>
      if owner =? RETIRED then abort
      else
        t ← gets table;
        match find_install t item base end_ with
        | None =>
            mret (Err (match taken t base end_ with
                       | Some refusal => refusal
                       | None => Reserved (default Installed (reserved t base end_))
                       end))
        | Some (at_, install) =>
            ok ← on_spans reserve_one;
            if negb ok then mret (Err NoMemory)
            else
              put_items set_installs installs (swap_remove at_ (items (installs t))) ;;
              t ← gets table;
              let refused := match reserved t base end_ with Some part => Some (Reserved part) | None => taken t base end_ end in
              match refused with
              | Some refusal => on_installs (push install) ;; mret (Err refusal)
              | None => on_spans (push (mkSpan base end_ owner (Some (in_item install, in_count install)))) ;; mret (Ok tt)
              end
        end
  end.

Definition retire (at_ : nat) (s : Span) : M Grants unit :=
  t ← gets table;
  put_items set_spans spans (<[at_ := mkSpan (sp_base s) (sp_end s) RETIRED (sp_returns s)]> (items (spans t))).

Definition end_grant (owner : Z) (confirmed : bool) : M Grants unit :=
  t ← gets table;
  match list_find (fun s => sp_owner s = owner) (items (spans t)) with
  | None => mret tt
  | Some (at_, s) =>
      match sp_returns s with
      | Some (item, count) =>
          ok ← on_installs reserve_one;
          if (ok : bool) then
            put_items set_spans spans (swap_remove at_ (items (spans t))) ;;
            on_installs (push (mkInstall item (sp_base s) (sp_end s) count))
          else retire at_ s
      | None => if confirmed then put_items set_spans spans (swap_remove at_ (items (spans t))) else retire at_ s
      end
  end.

Definition install (item base len : Z) : M Grants (result unit Refusal) :=
  match end_of base len with
  | None => mret (Err OutOfRange)
  | Some end_ =>
      t ← gets table;
      match find_install t item base end_ with
      | Some (at_, held) =>
          put_items set_installs installs
            (<[at_ := mkInstall (in_item held) (in_base held) (in_end held) (Z.min (in_count held + 1) U32_MAX)]> (items (installs t))) ;;
          mret (Ok tt)
      | None =>
          match taken t base end_ with
          | Some refusal => mret (Err refusal)
          | None =>
              match reserved t base end_ with
              | Some part => mret (Err (Reserved part))
              | None =>
                  ok ← on_installs reserve_one;
                  if (ok : bool) then on_installs (push (mkInstall item base end_ 1)) ;; mret (Ok tt)
                  else mret (Err NoMemory)
              end
          end
      end
  end.

Definition uninstall (item base len : Z) : M Grants bool :=
  match end_of base len with
  | None => mret false
  | Some end_ =>
      t ← gets table;
      match find_install t item base end_ with
      | None => mret false
      | Some (at_, held) =>
          if in_count held =? 0 then abort
          else
            let left := in_count held - 1 in
            put_items set_installs installs
              (if left =? 0 then swap_remove at_ (items (installs t))
               else <[at_ := mkInstall (in_item held) (in_base held) (in_end held) left]> (items (installs t))) ;;
            mret true
      end
  end.
