(* ===== verification/PortGrantsFacts.v ===== *)
(** The port table keeps its promise: a port is in one grant, one retired span or one
    kernel install at most, and in no grant while the fixed set or the firmware keeps
    it; and what each operation does to the spans. *)

From S2P Require Import Prelude PortGrants.

(** ** Ranges and who holds a port *)

Definition span_range (s : Span) : Z * Z := (sp_base s, sp_end s).
Definition install_range (i : Install) : Z * Z := (in_base i, in_end i).
Definition in_range (p : Z) (r : Z * Z) : Prop := r.1 <= p < r.2.
#[export] Instance in_range_dec p r : Decision (in_range p r).
Proof. unfold in_range. apply _. Defined.

Definition holders (l : list (Z * Z)) (p : Z) : nat := length (base.filter (in_range p) l).

Lemma holders_nil p : holders [] p = 0%nat.
Proof. done. Qed.

Lemma holders_cons r l p : holders (r :: l) p = ((if decide (in_range p r) then 1 else 0) + holders l p)%nat.
Proof. unfold holders. rewrite filter_cons. by case_decide. Qed.

Lemma holders_app l1 l2 p : holders (l1 ++ l2) p = (holders l1 p + holders l2 p)%nat.
Proof. unfold holders. by rewrite filter_app, length_app. Qed.

#[export] Instance holders_proper : Proper ((≡ₚ) ==> (=) ==> (=)) holders.
Proof. intros l1 l2 Hp p ? <-. unfold holders. by rewrite Hp. Qed.

Lemma holders_zero l p : (forall r, r ∈ l -> ~ in_range p r) -> holders l p = 0%nat.
Proof.
  intros Hn. induction l as [| r l IH]; [done |]. rewrite holders_cons, decide_False by (apply Hn; by left).
  apply IH. intros r' Hr'. apply Hn. by right.
Qed.

Lemma holders_in l p r : r ∈ l -> in_range p r -> (1 <= holders l p)%nat.
Proof. intros [l1 [l2 ->]]%list_elem_of_split Hp. rewrite holders_app, holders_cons, decide_True by done. lia. Qed.

(** Where at most one range holds a port, two that do are one. *)
Lemma holders_once l p i j r1 r2 :
  (holders l p <= 1)%nat -> l !! i = Some r1 -> l !! j = Some r2 -> in_range p r1 -> in_range p r2 -> i = j.
Proof.
  revert i j. induction l as [| r l IH]; intros [| i] [| j]; simpl; try done; rewrite holders_cons.
  - intros Hle [= ->] Hj H1 H2. rewrite decide_True in Hle by done. pose proof (holders_in l p r2 (list_elem_of_lookup_2 _ _ _ Hj) H2). lia.
  - intros Hle Hi [= ->] H1 H2. rewrite decide_True in Hle by done. pose proof (holders_in l p r1 (list_elem_of_lookup_2 _ _ _ Hi) H1). lia.
  - intros Hle Hi Hj H1 H2. f_equal. apply IH; try done. lia.
Qed.

(** ** The table *)

Definition span_ranges (t : Table) : list (Z * Z) := span_range <$> items (spans t).
Definition install_ranges (t : Table) : list (Z * Z) := install_range <$> items (installs t).

(** The ports the fixed set or the firmware keeps. *)
Definition kept (fw : list (Z * Z)) (p : Z) : Prop :=
  (exists r, r ∈ FIXED /\ r.1 <= p < r.1 + r.2) \/ exists r, r ∈ fw /\ in_range p r.

Definition range_ok (r : Z * Z) : Prop := 0 <= r.1 < r.2 /\ r.2 <= PORT_SPACE.

Record lists_ok (fw : list (Z * Z)) (ins : list Install) (sps : list Span) : Prop := mk_lists_ok {
  lk_spans : forall s, s ∈ sps -> range_ok (span_range s);
  lk_installs : forall i, i ∈ ins -> range_ok (install_range i) /\ 1 <= in_count i <= U32_MAX;
  lk_returns : forall s item n, s ∈ sps -> sp_returns s = Some (item, n) -> 1 <= n <= U32_MAX;
  lk_once : forall p, (holders ((span_range <$> sps) ++ (install_range <$> ins)) p <= 1)%nat;
  lk_kept : forall p, kept fw p -> holders (span_range <$> sps) p = 0%nat;
  lk_owner : NoDup (base.filter (fun o => o <> RETIRED) (sp_owner <$> sps));
}.

Record table_ok (t : Table) : Prop := mk_table_ok {
  tk_lists : lists_ok (items (firmware t)) (items (installs t)) (items (spans t));
  tk_vecs : vec_wf (firmware t) /\ vec_wf (installs t) /\ vec_wf (spans t);
}.

(** ** The tests *)

Lemma overlaps_false b e b' e' p : overlaps b e b' e' = false -> b <= p < e -> ~ (b' <= p < e').
Proof. unfold overlaps. rewrite andb_false_iff, !Z.ltb_ge. lia. Qed.

Lemma end_of_some base len e : 0 <= base -> 0 <= len -> end_of base len = Some e -> range_ok (base, e) /\ e = base + len.
Proof.
  intros Hb Hl. unfold end_of, range_ok. destruct (Z.eqb_spec len 0); [done |].
  destruct (Z.ltb_spec PORT_SPACE (base + len)); [done |]. intros [= <-]. simpl. lia.
Qed.

Lemma reserved_none t b e :
  reserved t b e = None -> forall p, b <= p < e -> ~ kept (items (firmware t)) p /\ holders (install_ranges t) p = 0%nat.
Proof.
  unfold reserved. destruct (existsb _ FIXED) eqn:E1; [done |]. destruct (existsb _ (items (firmware t))) eqn:E2; [done |].
  destruct (existsb _ (items (installs t))) eqn:E3; [done |]. intros _ p Hp. split.
  - intros [(r & Hr & Hin) | (r & Hr & Hin)].
    + by apply (overlaps_false b e r.1 (r.1 + r.2) p (proj1 (existsb_false _ _) E1 r Hr)).
    + by apply (overlaps_false b e r.1 r.2 p (proj1 (existsb_false _ _) E2 r Hr)).
  - apply holders_zero. intros r (i & -> & Hi)%list_elem_of_fmap.
    apply (overlaps_false b e (in_base i) (in_end i) p (proj1 (existsb_false _ _) E3 i Hi) Hp).
Qed.

Lemma taken_none t b e : taken t b e = None -> forall p, b <= p < e -> holders (span_ranges t) p = 0%nat.
Proof.
  unfold taken. destruct (list_find _ _) as [[i s] |] eqn:E; [done |]. intros _ p Hp.
  apply list_find_None in E. apply holders_zero. intros r (s & -> & Hs)%list_elem_of_fmap.
  apply (overlaps_false b e (sp_base s) (sp_end s) p); [| done].
  rewrite Forall_forall in E. specialize (E s Hs). by destruct (overlaps _ _ _ _).
Qed.

(** ** Changes to the lists *)

Lemma insert_perm {A} i (l : list A) x y : l !! i = Some x -> <[i := y]> l ≡ₚ y :: delete i l.
Proof.
  intros Hi. rewrite insert_take_drop by (by eapply lookup_lt_Some). rewrite delete_take_drop. by rewrite Permutation_middle.
Qed.

Lemma swap_remove_perm {A} i (l : list A) x : l !! i = Some x -> l ≡ₚ x :: swap_remove i l.
Proof.
  intros Hi. unfold swap_remove. destruct l as [| y l _] using rev_ind; [done |]. rewrite last_snoc, length_app. simpl.
  replace (length l + 1 - 1)%nat with (length l) by lia. destruct (decide (i < length l)%nat) as [Hlt | Hge].
  - rewrite insert_app_l, take_app_length' by (rewrite ?length_insert; lia). rewrite lookup_app_l in Hi by lia.
    rewrite Permutation_app_comm. simpl. rewrite (delete_Permutation l i x Hi) at 1.
    rewrite (insert_perm i l x y Hi). by constructor.
  - assert (i = length l) as -> by (apply lookup_lt_Some in Hi; rewrite length_app in Hi; simpl in Hi; lia).
    rewrite lookup_app_r, Nat.sub_diag in Hi by lia. injection Hi as <-.
    rewrite insert_app_r_alt, Nat.sub_diag by lia. simpl. rewrite take_app_length. by rewrite Permutation_app_comm.
Qed.

Lemma lists_perm fw ins ins' sps sps' : ins ≡ₚ ins' -> sps ≡ₚ sps' -> lists_ok fw ins sps -> lists_ok fw ins' sps'.
Proof.
  intros Pi Ps [Hs Hi Hr Ho Hk Hw]. split.
  - intros s Hin. apply Hs. by rewrite Ps.
  - intros i Hin. apply Hi. by rewrite Pi.
  - intros s item n Hin. apply Hr. by rewrite Ps.
  - intros p. by rewrite <- Pi, <- Ps.
  - intros p Hp. rewrite <- Ps. by apply Hk.
  - by rewrite <- Ps.
Qed.

Lemma lists_no_install fw i ins sps : lists_ok fw (i :: ins) sps -> lists_ok fw ins sps.
Proof.
  intros [Hs Hi Hr Ho Hk Hw]. split; try done; [intros x Hin; apply Hi; by right |].
  intros p. specialize (Ho p). rewrite fmap_cons, holders_app, holders_cons in Ho. rewrite holders_app. lia.
Qed.

Lemma lists_install fw i ins sps :
  lists_ok fw ins sps -> range_ok (install_range i) -> 1 <= in_count i <= U32_MAX ->
  (forall p, in_range p (install_range i) -> holders (span_range <$> sps) p = 0%nat /\ holders (install_range <$> ins) p = 0%nat) ->
  lists_ok fw (i :: ins) sps.
Proof.
  intros [Hs Hi Hr Ho Hk Hw] Hok Hc Hfree. split; try done; [intros x [-> | Hin]%elem_of_cons; [done | by apply Hi] |].
  intros p. specialize (Ho p). specialize (Hfree p). rewrite fmap_cons, holders_app, holders_cons. rewrite holders_app in Ho.
  case_decide; [destruct Hfree; [done |] |]; lia.
Qed.

Lemma lists_no_span fw ins s sps : lists_ok fw ins (s :: sps) -> lists_ok fw ins sps.
Proof.
  intros [Hs Hi Hr Ho Hk Hw]. split; try done.
  - intros x Hin. apply Hs. by right.
  - intros x item n Hin. apply Hr. by right.
  - intros p. specialize (Ho p). rewrite fmap_cons in Ho. cbn [app] in Ho. rewrite holders_cons in Ho. lia.
  - intros p Hp. specialize (Hk p Hp). rewrite fmap_cons, holders_cons in Hk. lia.
  - rewrite fmap_cons, filter_cons in Hw. case_decide; [by apply NoDup_cons in Hw as [_ ?] | done].
Qed.

Lemma lists_span fw ins s sps :
  lists_ok fw ins sps -> range_ok (span_range s) -> (forall item n, sp_returns s = Some (item, n) -> 1 <= n <= U32_MAX) ->
  (sp_owner s = RETIRED \/ sp_owner s ∉ sp_owner <$> sps) ->
  (forall p, in_range p (span_range s) ->
     ~ kept fw p /\ holders (span_range <$> sps) p = 0%nat /\ holders (install_range <$> ins) p = 0%nat) ->
  lists_ok fw ins (s :: sps).
Proof.
  intros [Hs Hi Hr Ho Hk Hw] Hok Hret Hown Hfree. split; try done.
  - intros x [-> | Hin]%elem_of_cons; auto.
  - intros x item n [-> | Hin]%elem_of_cons; eauto.
  - intros p. specialize (Ho p). specialize (Hfree p). rewrite fmap_cons. cbn [app]. rewrite holders_cons.
    rewrite holders_app in *. case_decide; [destruct Hfree as (_ & ? & ?); [done |] |]; lia.
  - intros p Hp. rewrite fmap_cons, holders_cons. rewrite (Hk p Hp). case_decide as Hd; [| done]. by destruct (Hfree p Hd).
  - rewrite fmap_cons, filter_cons. case_decide as Hd; [| done]. apply NoDup_cons. split; [| done].
    intros [_ Hin]%list_elem_of_filter. by destruct Hown.
Qed.

(** A span retired keeps its ports. *)
Lemma lists_retired fw ins s sps : lists_ok fw ins (s :: sps) -> lists_ok fw ins (mkSpan (sp_base s) (sp_end s) RETIRED (sp_returns s) :: sps).
Proof.
  intros Hl. pose proof (lists_no_span _ _ _ _ Hl) as Hl'. pose proof Hl as [Hs Hi Hr Ho Hk Hw].
  apply lists_span; try done; [apply (Hs s); by left | | by left |].
  - intros item n Hret. apply (Hr s item n); [by left | done].
  - intros p Hp. specialize (Ho p). rewrite fmap_cons in Ho. cbn [app] in Ho. rewrite holders_cons, holders_app, decide_True in Ho by done.
    split; [| lia]. intros Hkept%Hk. rewrite fmap_cons, holders_cons, decide_True in Hkept by done. lia.
Qed.

(** ** The operations *)

Section operations.
Implicit Type g : Grants.

Lemma wp_reserve_one {A} (get : Table -> vec A) set g (Q : bool -> Grants -> Prop) :
  (forall ok cap h, (ok = true -> (vec_len (get (table g)) < cap)%nat) -> (capacity (get (table g)) <= cap)%nat ->
     Q ok (mkGrants (set (Vec (items (get (table g))) cap) (table g)) h)) ->
  wp (with_vec get set reserve_one) Q g.
Proof.
  intros HQ. unfold wp, with_vec, reserve_one.
  pose proof (wp_try_reserve (get (table g)) 1 (fun r h => Q r.1 (mkGrants (set r.2 (table g)) h)) (gheap g)) as Hw.
  unfold wp in Hw. destruct (try_reserve _ _ _) as [[[ok v] h] |]; apply Hw; intros ok' cap h' Hok Hcap _; apply HQ; try done;
    intros Ht; specialize (Hok Ht); lia.
Qed.

Lemma wp_push_room {A} (x : A) (get : Table -> vec A) set g (Q : unit -> Grants -> Prop) :
  (vec_len (get (table g)) < capacity (get (table g)))%nat ->
  Q tt (mkGrants (set (Vec (items (get (table g)) ++ [x]) (capacity (get (table g)))) (table g)) (gheap g)) ->
  wp (with_vec get set (push x)) Q g.
Proof. intros Hr HQ. unfold wp, with_vec, push, mbind, M_bind. by rewrite (vec_push_room _ x _ Hr). Qed.

Lemma snoc_perm {A} (l : list A) x : l ++ [x] ≡ₚ x :: l.
Proof. by rewrite Permutation_app_comm. Qed.

(** The firmware's part is recorded before anything is granted. *)
Lemma wp_reserve_firmware base len g :
  table_ok (table g) -> items (spans (table g)) = [] ->
  wp (reserve_firmware base len) (fun _ g' => table_ok (table g') /\ items (spans (table g')) = []) g.
Proof.
  intros [Hl Hv] Hn. unfold reserve_firmware. destruct (end_of base len) as [e |]; [| wp_step; done].
  wp_step. apply wp_reserve_one. intros ok cap h Hok Hcap. unfold vec_wf, vec_len in *.
  destruct ok; [| wp_step; split; [split; simpl in *; [done | unfold vec_wf, vec_len in *; simpl; split_and!; lia] | done]].
  wp_step. apply wp_push_room; [by apply Hok |]. wp_step. split; [| done]. split; simpl in *.
  - destruct Hl as [Hs Hi Hr Ho Hk Hw]. split; try done. intros p _. by rewrite Hn.
  - unfold vec_wf, vec_len in *. simpl. rewrite length_app. simpl. specialize (Hok eq_refl). split_and!; lia.
Qed.

Lemma vecs_spans t l cap : table_ok t -> (length l <= cap)%nat -> lists_ok (items (firmware t)) (items (installs t)) l ->
  table_ok (set_spans (Vec l cap) t).
Proof. intros [_ (Hf & Hi & _)] Hc Hl. by split. Qed.

Lemma vecs_installs t l cap : table_ok t -> (length l <= cap)%nat -> lists_ok (items (firmware t)) l (items (spans t)) ->
  table_ok (set_installs (Vec l cap) t).
Proof. intros [_ (Hf & _ & Hs)] Hc Hl. by split. Qed.

Lemma table_span_len t : table_ok t -> (length (items (spans t)) <= capacity (spans t))%nat.
Proof. intros [_ (_ & _ & H)]. exact H. Qed.
Lemma table_install_len t : table_ok t -> (length (items (installs t)) <= capacity (installs t))%nat.
Proof. intros [_ (_ & H & _)]. exact H. Qed.

(** The spans are [l] and the rest is as it was. *)
Definition spans_now g (l : list Span) g' : Prop :=
  table_ok (table g') /\ items (spans (table g')) = l /\
  items (firmware (table g')) = items (firmware (table g)).

Lemma wp_grant base len owner g :
  table_ok (table g) -> 0 <= base -> 0 <= len -> owner <> RETIRED -> owner ∉ sp_owner <$> items (spans (table g)) ->
  wp (grant base len owner) (fun r g' =>
    items (installs (table g')) = items (installs (table g)) /\
    match r with
    | Ok _ => end_of base len = Some (base + len) /\
              spans_now g (items (spans (table g)) ++ [mkSpan base (base + len) owner None]) g'
    | Err _ => spans_now g (items (spans (table g))) g'
    end) g.
Proof.
  intros Hok Hb Hl Ho Hf. assert (spans_now g (items (spans (table g))) g) as Hsame by done. unfold grant.
  destruct (end_of base len) as [e |] eqn:He; [| wp_step; done]. destruct (end_of_some _ _ _ Hb Hl He) as [Hr ->].
  rewrite (proj2 (Z.eqb_neq _ _)) by done. wp_steps.
  destruct (reserved (table g) base (base + len)) as [part |] eqn:Er; [wp_step; done |].
  destruct (taken (table g) base (base + len)) as [refusal |] eqn:Et; [wp_step; done |].
  wp_step. apply wp_reserve_one. intros ok cap h Hroom Hcap. pose proof (table_span_len _ Hok) as Hlen.
  destruct ok; wp_step.
  - apply wp_push_room; [by apply Hroom |]. wp_step. simpl. split; [done |]. split; [done |]. split; [| done].
    apply vecs_spans; [by apply vecs_spans; [| lia | apply Hok] | rewrite length_app; simpl; specialize (Hroom eq_refl); unfold vec_len in Hroom; lia |].
    apply (lists_perm _ (items (installs (table g))) _ (mkSpan base (base + len) owner None :: items (spans (table g))));
      [done | by rewrite snoc_perm |].
    apply lists_span; [apply Hok | done | done | by right |]. intros p Hp.
    destruct (reserved_none _ _ _ Er p Hp). split_and!; try done. by apply (taken_none _ _ _ Et).
  - split; [done |]. split; [| done]. by apply vecs_spans; [| lia | apply Hok].
Qed.

Lemma wp_grant_from_install item base len owner g :
  table_ok (table g) -> 0 <= base -> 0 <= len -> owner <> RETIRED -> owner ∉ sp_owner <$> items (spans (table g)) ->
  wp (grant_from_install item base len owner) (fun r g' =>
    match r with
    | Ok _ => exists n, end_of base len = Some (base + len) /\
                spans_now g (items (spans (table g)) ++ [mkSpan base (base + len) owner (Some (item, n))]) g'
    | Err _ => spans_now g (items (spans (table g))) g'
    end) g.
Proof.
  intros Hok Hb Hl Ho Hf. assert (spans_now g (items (spans (table g))) g) as Hsame by done. unfold grant_from_install.
  destruct (end_of base len) as [e |] eqn:He; [| wp_step; done]. destruct (end_of_some _ _ _ Hb Hl He) as [Hr ->].
  rewrite (proj2 (Z.eqb_neq _ _)) by done. wp_steps.
  destruct (find_install (table g) item base (base + len)) as [[at_ i] |] eqn:Ei; [| wp_step; done].
  apply list_find_Some in Ei as (Hat & (Hitem & Hbase & Hend) & _). pose proof (swap_remove_perm _ _ _ Hat) as Hperm.
  set (rest := swap_remove at_ (items (installs (table g)))) in *.
  wp_step. apply wp_reserve_one. intros ok cap h Hroom Hcap. pose proof (table_span_len _ Hok) as Hlen.
  pose proof (table_install_len _ Hok) as Hilen. pose proof Hok as [Hlk _].
  pose proof (lists_perm _ _ _ _ _ Hperm (Permutation_refl _) Hlk) as Hlk1.
  assert (length rest < length (items (installs (table g))))%nat as Hrest by (rewrite Hperm; simpl; lia).
  destruct ok; cbn [negb]; [| wp_step; split; [by apply vecs_spans; [| lia |] | done]].
  unfold put_items. wp_steps. simpl. unfold vec_len in *.
  set (t1 := set_installs (Vec rest (capacity (installs (table g)))) (set_spans (Vec (items (spans (table g))) cap) (table g))).
  assert (table_ok t1) as Hok1.
  { apply vecs_installs; [by apply vecs_spans; [| lia |] | simpl; lia | simpl]. by eapply lists_no_install. }
  change (reserved t1 base (base + len)) with (reserved t1 base (base + len)).
  destruct (match reserved t1 base (base + len) with Some part => Some (Reserved part) | None => taken t1 base (base + len) end) as [refusal |] eqn:Eref.
  - wp_step. apply wp_push_room; [simpl; unfold vec_len; simpl; lia |]. wp_step. split; [| done]. simpl.
    apply vecs_installs; [done | rewrite length_app; simpl; lia |]. simpl.
    apply (lists_perm _ (items (installs (table g))) _ (items (spans (table g)))); [| done | done]. by rewrite snoc_perm, Hperm.
  - destruct (reserved t1 base (base + len)) as [part |] eqn:Er; [done |].
    wp_step. apply wp_push_room; [simpl; unfold vec_len; simpl; by apply Hroom |]. wp_step. exists (in_count i).
    split; [done |]. split; [| split; [by rewrite Hitem | done]]. simpl.
    apply vecs_spans; [done | rewrite length_app; simpl; specialize (Hroom eq_refl); lia |]. simpl.
    apply (lists_perm _ rest _ (mkSpan base (base + len) owner (Some (in_item i, in_count i)) :: items (spans (table g))));
      [done | by rewrite snoc_perm |].
    apply lists_span; [apply Hok1 | done | | by right |].
    + intros item' n [= <- <-]. apply (lk_installs _ _ _ Hlk i). by eapply list_elem_of_lookup_2.
    + intros p Hp. destruct (reserved_none _ _ _ Er p Hp). split_and!; try done. by apply (taken_none _ _ _ Eref).
Qed.

(** A grant that ends: its span is gone, or stays and is nobody's. *)
Definition ended g (owner : Z) (confirmed : bool) g' : Prop :=
  table_ok (table g') /\ items (firmware (table g')) = items (firmware (table g)) /\
  let sps := items (spans (table g)) in let sps' := items (spans (table g')) in
  ((owner ∉ sp_owner <$> sps /\ sps' = sps) \/
   exists at_ s, sps !! at_ = Some s /\ sp_owner s = owner /\
     ((sps' = swap_remove at_ sps /\ (sp_returns s = None -> confirmed = true)) \/
      (sps' = <[at_ := mkSpan (sp_base s) (sp_end s) RETIRED (sp_returns s)]> sps /\ (sp_returns s = None -> confirmed = false)))).

(** Retiring rewrites the span in place. *)
Lemma wp_retire owner confirmed g g1 at_ s :
  table_ok (table g) -> items (spans (table g)) !! at_ = Some s -> sp_owner s = owner ->
  table_ok (table g1) -> items (firmware (table g1)) = items (firmware (table g)) ->
  items (installs (table g1)) = items (installs (table g)) -> spans (table g1) = spans (table g) ->
  (sp_returns s = None -> confirmed = false) -> wp (retire at_ s) (fun _ g' => ended g owner confirmed g') g1.
Proof.
  intros [Hlk _] Hat Hown Hok1 E1 E2 E3 Hc. pose proof (table_span_len _ Hok1) as Hlen. rewrite E3 in Hlen.
  unfold retire, put_items. wp_steps. rewrite E3. simpl. split; [| split; [done |]].
  - apply vecs_spans; [done | rewrite length_insert; lia |]. rewrite E1, E2.
    apply (lists_perm _ (items (installs (table g))) _ (mkSpan (sp_base s) (sp_end s) RETIRED (sp_returns s) :: delete at_ (items (spans (table g)))));
      [done | symmetry; by apply (insert_perm _ _ s) |].
    apply lists_retired. apply (lists_perm _ _ _ _ _ (Permutation_refl _) (delete_Permutation _ _ _ Hat)), Hlk.
  - right. exists at_, s. split; [done |]. split; [done |]. right. done.
Qed.

Lemma wp_end_grant owner confirmed g :
  table_ok (table g) -> wp (end_grant owner confirmed) (fun _ g' => ended g owner confirmed g') g.
Proof.
  intros Hok. unfold end_grant. wp_steps. destruct (list_find _ _) as [[at_ s] |] eqn:Ef.
  2:{ wp_step. split; [done |]. split; [done |]. left. split; [| done]. apply list_find_None in Ef.
      intros (s & -> & Hs)%list_elem_of_fmap. rewrite Forall_forall in Ef. by apply (Ef s Hs). }
  apply list_find_Some in Ef as (Hat & Hown & _). pose proof (swap_remove_perm _ _ _ Hat) as Hperm.
  pose proof Hok as [Hlk _]. pose proof (table_span_len _ Hok) as Hlen. pose proof (table_install_len _ Hok) as Hilen.
  assert (lists_ok (items (firmware (table g))) (items (installs (table g))) (s :: swap_remove at_ (items (spans (table g))))) as Hlk1.
  { by apply (lists_perm _ _ _ _ _ (Permutation_refl _) Hperm). }
  assert (length (swap_remove at_ (items (spans (table g)))) < length (items (spans (table g))))%nat as Hrest by (rewrite Hperm at 2; simpl; lia).
  destruct (sp_returns s) as [[item n] |] eqn:Eret.
  - wp_step. apply wp_reserve_one. intros ok cap h Hroom Hcap. unfold vec_len in *.
    destruct ok; [| apply wp_retire; try done; simpl; [by apply vecs_installs; [| lia |] | by rewrite Eret]].
    unfold put_items. wp_steps. simpl. apply wp_push_room; [by apply Hroom |]. split; [| split; [done |]].
    + simpl. apply vecs_installs; [| rewrite length_app; simpl; specialize (Hroom eq_refl); lia |].
      * apply vecs_spans; [by apply vecs_installs; [| lia |] | lia | simpl; by eapply lists_no_span].
      * simpl. apply (lists_perm _ (mkInstall item (sp_base s) (sp_end s) n :: items (installs (table g))) _ (swap_remove at_ (items (spans (table g)))));
          [by rewrite snoc_perm | done |].
        apply lists_install; [by eapply lists_no_span | apply (lk_spans _ _ _ Hlk s); by eapply list_elem_of_lookup_2 | |].
        -- apply (lk_returns _ _ _ Hlk s item n); [by eapply list_elem_of_lookup_2 | done].
        -- intros p Hp. pose proof (lk_once _ _ _ Hlk1 p) as Ho. rewrite fmap_cons in Ho. cbn [app] in Ho.
           rewrite holders_cons, holders_app, decide_True in Ho by done. lia.
    + right. exists at_, s. split; [done |]. split; [done |]. left. split; [done |]. by rewrite Eret.
  - destruct confirmed; [| by apply wp_retire]. unfold put_items. wp_steps. split; [| split; [done |]].
    + simpl. apply vecs_spans; [done | lia | by eapply lists_no_span].
    + right. exists at_, s. split; [done |]. split; [done |]. by left.
Qed.

(** A kernel item's install and uninstall leave the spans alone. *)
Lemma lists_recount fw ins sps at_ i n :
  lists_ok fw ins sps -> ins !! at_ = Some i -> 1 <= n <= U32_MAX ->
  lists_ok fw (<[at_ := mkInstall (in_item i) (in_base i) (in_end i) n]> ins) sps.
Proof.
  intros Hl Hat Hn. pose proof (lists_perm _ _ _ _ _ (delete_Permutation _ _ _ Hat) (Permutation_refl _) Hl) as Hl1.
  apply (lists_perm _ (mkInstall (in_item i) (in_base i) (in_end i) n :: delete at_ ins) _ sps); [symmetry; by apply (insert_perm _ _ i) | done |].
  apply lists_install; [by eapply lists_no_install | apply (lk_installs _ _ _ Hl i); by eapply list_elem_of_lookup_2 | done |].
  intros p Hp. pose proof (lk_once _ _ _ Hl1 p) as Ho. rewrite fmap_cons, holders_app, holders_cons, decide_True in Ho by done. lia.
Qed.

Lemma wp_install_ports item base len g :
  table_ok (table g) -> 0 <= base -> 0 <= len ->
  wp (install item base len) (fun _ g' => spans_now g (items (spans (table g))) g') g.
Proof.
  intros Hok Hb Hl. assert (spans_now g (items (spans (table g))) g) as Hsame by done. unfold install.
  destruct (end_of base len) as [e |] eqn:He; [| wp_step; done]. destruct (end_of_some _ _ _ Hb Hl He) as [Hr ->].
  wp_steps. pose proof (table_install_len _ Hok) as Hilen.
  destruct (find_install _ _ _ _) as [[at_ i] |] eqn:Ei.
  - apply list_find_Some in Ei as (Hat & _). unfold put_items. wp_steps. split; [| done]. simpl.
    apply vecs_installs; [done | rewrite length_insert; lia |]. apply lists_recount; [apply Hok | done |].
    pose proof (lk_installs _ _ _ (tk_lists _ Hok) i (list_elem_of_lookup_2 _ _ _ Hat)) as [_ ?]. lia.
  - destruct (taken (table g) base (base + len)) as [refusal |] eqn:Et; [wp_step; done |].
    destruct (reserved (table g) base (base + len)) as [part |] eqn:Er; [wp_step; done |].
    wp_step. apply wp_reserve_one. intros ok cap h Hroom Hcap. unfold vec_len in *.
    destruct ok; wp_step; [| split; [| done]; by apply vecs_installs; [| lia | apply Hok]].
    apply wp_push_room; [by apply Hroom |]. wp_step. split; [| done]. simpl. specialize (Hroom eq_refl).
    apply vecs_installs; [by apply vecs_installs; [| lia | apply Hok] | rewrite length_app; simpl; lia |]. simpl.
    apply (lists_perm _ (mkInstall item base (base + len) 1 :: items (installs (table g))) _ (items (spans (table g)))); [by rewrite snoc_perm | done |].
    apply lists_install; [apply Hok | done | simpl; lia |]. intros p Hp.
    split; [by apply (taken_none _ _ _ Et) | by apply (reserved_none _ _ _ Er)].
Qed.

Lemma wp_uninstall_ports item base len g :
  table_ok (table g) -> wp (uninstall item base len) (fun _ g' => spans_now g (items (spans (table g))) g') g.
Proof.
  intros Hok. assert (spans_now g (items (spans (table g))) g) as Hsame by done. unfold uninstall.
  destruct (end_of base len) as [e |] eqn:He; [| wp_step; done]. wp_steps.
  destruct (find_install _ _ _ _) as [[at_ i] |] eqn:Ei; [| wp_step; done]. apply list_find_Some in Ei as (Hat & _).
  pose proof (table_install_len _ Hok) as Hilen. pose proof (swap_remove_perm _ _ _ Hat) as Hperm.
  pose proof (lk_installs _ _ _ (tk_lists _ Hok) i (list_elem_of_lookup_2 _ _ _ Hat)) as [_ Hn].
  rewrite (proj2 (Z.eqb_neq _ _)) by lia. unfold put_items. wp_steps. split; [| done]. simpl.
  assert (length (swap_remove at_ (items (installs (table g)))) < length (items (installs (table g))))%nat as Hrest by (rewrite Hperm at 2; simpl; lia).
  destruct (Z.eqb_spec (in_count i - 1) 0) as [He0 | Hne].
  - apply vecs_installs; [done | lia |]. eapply lists_no_install.
    apply (lists_perm _ _ _ _ _ Hperm (Permutation_refl _)), Hok.
  - apply vecs_installs; [done | rewrite length_insert; lia |]. apply lists_recount; [apply Hok | done | lia].
Qed.

End operations.
