(* ===== verification/PortBits.v ===== *)
(** A process's port permissions (kernel/object/port_range/mod.rs, [IoPorts]) and the copy
    a core loads (kernel/arch/x86_64/ioports.rs): the bitmap, one bit per port and a set
    bit a refusal, changed word by word under a generation that is odd meanwhile, and
    copied without a lock by a core that reads the generation before and after. The
    generation is not wrapped here: that takes 2^63 changes. *)

From S2P Require Import Prelude.

Definition BITMAP_WORDS : nat := 1024.
Definition COPY_ATTEMPTS : nat := 16.

(** What the process shares: generation, how many leading words a copy needs, bitmap. *)
Record IoMem := mkIoMem {
  generation : Z;
  words : nat;
  bits : list Z;
}.

(** A process before its first map, with its bitmap just allocated. *)
Definition fresh_mem : IoMem := mkIoMem 0 0 (replicate BITMAP_WORDS U64_MAX).

(** ** One change *)

Definition change_mask (first count : Z) : Z :=
  if count =? 64 then U64_MAX else Z.shiftl (Z.shiftl 1 count - 1) first.

(** [fetch_and(!mask)] and [fetch_or(mask)] on one word. *)
Definition change_word (allow : bool) (mask w : Z) : Z :=
  if allow then Z.land w (Z.lxor mask U64_MAX) else Z.lor w mask.

(** [while port < end]: the bitmaps after each turn. Every turn covers a port at least. *)
Fixpoint change_steps (fuel : nat) (port end_ : Z) (allow : bool) (l : list Z) : list (list Z) :=
  match fuel with
  | O => []
  | S fuel =>
      if port <? end_ then
        let word := Z.to_nat (port / 64) in
        let first := port mod 64 in
        let count := Z.min (64 - first) (end_ - port) in
        let l := <[word := change_word allow (change_mask first count) (nth word l 0)]> l in
        l :: change_steps fuel (port + count) end_ allow l
      else []
  end.
Definition changed (base len : Z) (allow : bool) (l : list Z) : list Z :=
  default l (last (change_steps (Z.to_nat len) base (base + len) allow l)).

(** [while words > 0 && bits.words[words - 1] == u64::MAX]. *)
Fixpoint trim (l : list Z) (n : nat) : nat :=
  match n with
  | O => 0
  | S k => if nth k l 0 =? U64_MAX then trim l k else n
  end.
Definition words_after (base len : Z) (allow : bool) (l : list Z) (n : nat) : nat :=
  if allow then Nat.max n (Z.to_nat ((base + len - 1) / 64 + 1)) else trim l n.

(** The states another core may see, first to last. *)
Definition change_trace (base len : Z) (allow : bool) (m : IoMem) : list IoMem :=
  let odd := generation m + 1 in
  let steps := change_steps (Z.to_nat len) base (base + len) allow (bits m) in
  let l := changed base len allow (bits m) in
  let n := words_after base len allow l (words m) in
  [mkIoMem odd (words m) (bits m)] ++ ((fun l => mkIoMem odd (words m) l) <$> steps) ++
  [mkIoMem odd n l; mkIoMem (generation m + 2) n l].

(** The change as one step. *)
Definition change (base len : Z) (allow : bool) (m : IoMem) : IoMem :=
  let l := changed base len allow (bits m) in
  mkIoMem (generation m + 2) (words_after base len allow l (words m)) l.

(** ** The copy of one core *)

(** The core's record and its task-state segment: the words of its bitmap, whether the
    map base is inside the limit, what is loaded, and how many words may be other than
    all ones. *)
Record IoCore := mkIoCore {
  tss_map : list Z;
  tss_base : bool;
  io_koid : Z;
  io_generation : Z;
  io_dirty : nat;
}.

(** [reads k] is the memory of the process at the core's [k]-th access to it. *)
Fixpoint copy_words (reads : nat -> IoMem) (k at_ : nat) (n : nat) (map : list Z) : list Z :=
  match n with
  | O => map
  | S n => copy_words reads (S k) (S at_) n (<[at_ := nth at_ (bits (reads k)) U64_MAX]> map)
  end.

(** [for at in words..io.dirty]. *)
Fixpoint restore_words (at_ n : nat) (map : list Z) : list Z :=
  match n with
  | O => map
  | S n => restore_words (S at_) n (<[at_ := U64_MAX]> map)
  end.

(** The attempts of [load], from the [k]-th access on; the last answer is the number of
    the next access. *)
Fixpoint load_loop (attempts : nat) (owner : Z) (reads : nat -> IoMem) (k : nat) (io : IoCore) : bool * IoCore * nat :=
  match attempts with
  | O => (false, mkIoCore (tss_map io) false 0 0 (io_dirty io), k)
  | S attempts =>
      let g := generation (reads k) in
      if Z.odd g then load_loop attempts owner reads (S k) io
      else
        let n := words (reads (S k)) in
        if (n =? 0)%nat then
          if generation (reads (k + 2)%nat) =? g then (true, mkIoCore (tss_map io) false owner g (io_dirty io), (k + 3)%nat)
          else load_loop attempts owner reads (k + 3)%nat io
        else
          let dirty := Nat.max (io_dirty io) n in
          let map := copy_words reads (k + 2) 0 n (tss_map io) in
          if generation (reads (k + 2 + n)%nat) =? g then
            (true, mkIoCore (restore_words n (dirty - n) map) true owner g n, (k + 3 + n)%nat)
          else load_loop attempts owner reads (k + 3 + n)%nat (mkIoCore map (tss_base io) (io_koid io) (io_generation io) dirty)
  end.
Definition load (owner : Z) (reads : nat -> IoMem) (io : IoCore) : bool * IoCore * nat :=
  load_loop COPY_ATTEMPTS owner reads 0 io.
Arguments load : simpl never.

(** ** What they let through *)

Definition refused (l : list Z) (p : Z) : bool := Z.testbit (nth (Z.to_nat (p / 64)) l U64_MAX) (p mod 64).

Definition process_lets (m : IoMem) (p : Z) : bool := negb (refused (bits m) p).
Definition core_lets (io : IoCore) (p : Z) : bool := tss_base io && negb (refused (tss_map io) p).
