(* ===== verification/PortBitsProps.v ===== *)
(** A change allows or refuses exactly its ports, a copy of a core is the bitmap of one
    moment of its reading, and the words a copy takes are all it needs. *)

From S2P Require Import Prelude PortBits.

(** ** Bits of a word *)

Lemma testbit_max k : 0 <= k < 64 -> Z.testbit U64_MAX k = true.
Proof. intros Hk. change U64_MAX with (Z.ones 64). by rewrite Z.ones_spec_low. Qed.

Lemma testbit_mask first count k :
  0 <= first -> 0 < count -> first + count <= 64 -> 0 <= k < 64 ->
  Z.testbit (change_mask first count) k = (first <=? k) && (k <? first + count).
Proof.
  intros Hf Hc Hle Hk. unfold change_mask. destruct (Z.eqb_spec count 64) as [-> | Hne].
  - rewrite testbit_max by done. symmetry. apply andb_true_iff. lia.
  - rewrite Z.shiftl_spec by lia. rewrite Z.shiftl_1_l.
    replace (2 ^ count - 1) with (Z.ones count) by (rewrite Z.ones_equiv; lia).
    destruct (Z.leb_spec first k) as [Hle' | Hlt]; cbn [andb].
    + rewrite Z.testbit_ones_nonneg by lia. destruct (Z.ltb_spec (k - first) count), (Z.ltb_spec k (first + count)); lia || done.
    + by rewrite Z.testbit_neg_r by lia.
Qed.

Lemma testbit_change allow mask w k :
  0 <= k < 64 -> Z.testbit (change_word allow mask w) k = if Z.testbit mask k then negb allow else Z.testbit w k.
Proof.
  intros Hk. unfold change_word. destruct allow.
  - rewrite Z.land_spec, Z.lxor_spec, testbit_max by done. destruct (Z.testbit mask k), (Z.testbit w k); done.
  - rewrite Z.lor_spec. destruct (Z.testbit mask k), (Z.testbit w k); done.
Qed.

(** ** A change *)

Definition port_ok (p : Z) : Prop := 0 <= p < 0x10000.

Lemma word_below p : port_ok p -> (Z.to_nat (p / 64) < BITMAP_WORDS)%nat.
Proof. unfold port_ok. intros Hp. assert (0 <= p / 64 < 1024) by (split; [apply Z.div_pos | apply Z.div_lt_upper_bound]; lia). unfold BITMAP_WORDS. lia. Qed.

Lemma refused_insert l w x p :
  (w < length l)%nat -> refused (<[w := x]> l) p = if decide (w = Z.to_nat (p / 64)) then Z.testbit x (p mod 64) else refused l p.
Proof.
  intros Hw. unfold refused. rewrite !nth_lookup. case_decide as Hd.
  - subst w. by rewrite list_lookup_insert_eq.
  - by rewrite list_lookup_insert_ne.
Qed.

Lemma change_steps_spec fuel port end_ allow l :
  length l = BITMAP_WORDS -> 0 <= port -> end_ <= 0x10000 -> end_ - port <= Z.of_nat fuel ->
  let l' := default l (last (change_steps fuel port end_ allow l)) in
  length l' = BITMAP_WORDS /\
  forall p, port_ok p -> refused l' p = if decide (port <= p < end_) then negb allow else refused l p.
Proof.
  revert port l. induction fuel as [| fuel IH]; intros port l Hl Hp He Hf; simpl.
  { split; [done |]. intros p Hpo. by rewrite decide_False by lia. }
  destruct (Z.ltb_spec port end_) as [Hlt | Hge]; simpl; [| split; [done |]; intros p Hpo; by rewrite decide_False by lia].
  set (word := Z.to_nat (port / 64)). set (first := port mod 64). set (count := Z.min (64 - first) (end_ - port)).
  set (l1 := <[word := _]> l). pose proof (Z.mod_pos_bound port 64 ltac:(lia)) as Hmod. pose proof (Z.div_mod port 64 ltac:(lia)) as Hdm.
  assert (0 < count /\ first + count <= 64 /\ port + count <= end_) as (Hc & Hc64 & Hce) by (unfold count, first; lia).
  assert (length l1 = BITMAP_WORDS) as Hl1 by (unfold l1; by rewrite length_insert).
  assert (forall p, port_ok p -> refused l1 p = if decide (port <= p < port + count) then negb allow else refused l p) as Hstep.
  { intros p Hpo. pose proof (Z.mod_pos_bound p 64 ltac:(lia)) as Hpm. pose proof (Z.div_mod p 64 ltac:(lia)) as Hpd.
    assert (0 <= p / 64) by (apply Z.div_pos; unfold port_ok in Hpo; lia). assert (0 <= port / 64) by (apply Z.div_pos; lia).
    unfold l1. rewrite refused_insert by (rewrite Hl; apply word_below; unfold port_ok; lia). case_decide as Hw.
    - assert (p / 64 = port / 64) as Hq by (unfold word in Hw; lia).
      rewrite testbit_change, testbit_mask by (try done; lia). unfold refused. rewrite <- Hw.
      destruct (Z.leb_spec first (p mod 64)), (Z.ltb_spec (p mod 64) (first + count)); cbn [andb];
        [rewrite decide_True by (unfold first in *; lia); done | rewrite decide_False by (unfold first in *; lia) .. ];
        rewrite !nth_lookup; destruct (lookup_lt_is_Some_2 l word) as [x ->]; try done; rewrite Hl; apply word_below; unfold port_ok; lia.
    - rewrite decide_False; [done |]. intros Hin. apply Hw. unfold word. f_equal. unfold first in *.
      apply (Z.div_unique p 64 (port / 64) (p - 64 * (port / 64))); lia. }
  destruct (IH (port + count) l1 Hl1 ltac:(lia) He ltac:(lia)) as [Hlen Hrest].
  assert (default l (last (l1 :: change_steps fuel (port + count) end_ allow l1)) = default l1 (last (change_steps fuel (port + count) end_ allow l1))) as ->.
  { destruct (change_steps fuel (port + count) end_ allow l1) as [| y ys] using rev_ind; [done |]. by rewrite app_comm_cons, !last_snoc. }
  split; [done |]. intros p Hpo. rewrite Hrest, Hstep by done. repeat case_decide; done || lia.
Qed.

Lemma changed_spec base len allow l :
  length l = BITMAP_WORDS -> 0 <= base -> 0 <= len -> base + len <= 0x10000 ->
  length (changed base len allow l) = BITMAP_WORDS /\
  forall p, port_ok p -> refused (changed base len allow l) p = if decide (base <= p < base + len) then negb allow else refused l p.
Proof. intros Hl Hb Hn He. apply change_steps_spec; done || lia. Qed.

(** ** Between changes *)

(** No change is running, and the words past [words] refuse. *)
Record mem_ok (m : IoMem) : Prop := mk_mem_ok {
  mo_even : Z.even (generation m) = true;
  mo_len : length (bits m) = BITMAP_WORDS;
  mo_words : (words m <= BITMAP_WORDS)%nat;
  mo_rest : forall p, port_ok p -> Z.of_nat (words m) <= p / 64 -> refused (bits m) p = true;
}.

Lemma refused_max l p : port_ok p -> nth (Z.to_nat (p / 64)) l 0 = U64_MAX -> (Z.to_nat (p / 64) < length l)%nat -> refused l p = true.
Proof.
  intros Hp Hn Hlt. unfold refused. rewrite (nth_indep _ U64_MAX 0) by done. rewrite Hn.
  apply testbit_max. apply Z.mod_pos_bound. lia.
Qed.

Lemma refused_fresh p : port_ok p -> refused (replicate BITMAP_WORDS U64_MAX) p = true.
Proof.
  intros Hp. apply refused_max; [done | | rewrite length_replicate; by apply word_below].
  rewrite nth_lookup, lookup_replicate_2; [done | by apply word_below].
Qed.

Lemma fresh_ok : mem_ok fresh_mem.
Proof. split; cbn; try done; [unfold BITMAP_WORDS; lia | intros p Hp _; by apply refused_fresh]. Qed.

Lemma trim_le l n : (trim l n <= n)%nat.
Proof. induction n as [| n IH]; simpl; [done |]. case_match; lia. Qed.

Lemma trim_max l n k : (trim l n <= k < n)%nat -> nth k l 0 = U64_MAX.
Proof.
  induction n as [| n IH]; simpl; [lia |]. destruct (Z.eqb_spec (nth n l 0) U64_MAX) as [E |]; [| lia].
  intros Hk. destruct (decide (k = n)) as [-> |]; [done | apply IH; lia].
Qed.

(** The request a change makes: [base] and [len] are 16 bits wide and stay in the space. *)
Definition ports_ok (base len : Z) : Prop := 0 <= base /\ 0 < len /\ base + len <= 0x10000.

Lemma change_ok base len allow m : ports_ok base len -> mem_ok m -> mem_ok (change base len allow m).
Proof.
  intros (Hb & Hn & He) [Hev Hl Hw Hr]. destruct (changed_spec base len allow (bits m) Hl Hb ltac:(lia) He) as [Hl' Hs].
  assert (0 <= (base + len - 1) / 64 < 1024) as Hq by (split; [apply Z.div_pos | apply Z.div_lt_upper_bound]; lia).
  unfold change. split; cbn [generation words bits]; [by rewrite Z.even_add, Hev | done | |].
  - unfold words_after, BITMAP_WORDS in *. destruct allow; [lia |]. pose proof (trim_le (changed base len false (bits m)) (words m)). lia.
  - intros p Hp Hge. assert (0 <= p / 64) by (apply Z.div_pos; unfold port_ok in Hp; lia). unfold words_after in Hge. destruct allow.
    + rewrite Hs by done. rewrite decide_False; [apply Hr; [done | lia] |]. intros Hin.
      pose proof (Z.div_le_mono p (base + len - 1) 64 ltac:(lia) ltac:(lia)). lia.
    + destruct (decide (words m <= Z.to_nat (p / 64))%nat) as [Hge' | Hlt].
      * rewrite Hs by done. case_decide; [done |]. apply Hr; [done | lia].
      * apply refused_max; [done | apply (trim_max _ (words m)); lia | rewrite Hl'; by apply word_below].
Qed.

Lemma change_lets base len allow m p :
  ports_ok base len -> mem_ok m -> port_ok p ->
  process_lets (change base len allow m) p = if decide (base <= p < base + len) then allow else process_lets m p.
Proof.
  intros (Hb & Hn & He) [_ Hl _ _] Hp. unfold process_lets, change. cbn [bits].
  destruct (changed_spec base len allow (bits m) Hl Hb ltac:(lia) He) as [_ ->]; [| done].
  case_decide; [apply negb_involutive | done].
Qed.

(** ** What another core may see of a sequence of changes *)

Definition Change : Type := Z * Z * bool.
Definition after (m : IoMem) (c : Change) : IoMem := change c.1.1 c.1.2 c.2 m.
Definition all_after (m : IoMem) (cs : list Change) : IoMem := foldl after m cs.

Fixpoint timeline (m : IoMem) (cs : list Change) : list IoMem :=
  match cs with
  | [] => [m]
  | c :: cs => m :: change_trace c.1.1 c.1.2 c.2 m ++ timeline (after m c) cs
  end.

(** The memory at a time; past the last change it stays. *)
Definition seen (m : IoMem) (cs : list Change) (t : nat) : IoMem := default (all_after m cs) (timeline m cs !! t).

Inductive seq_step : IoMem -> IoMem -> Prop :=
| seq_same m : seq_step m m
| seq_open m : Z.even (generation m) = true -> seq_step m (mkIoMem (generation m + 1) (words m) (bits m))
| seq_inner m m' : Z.even (generation m) = false -> generation m' = generation m -> seq_step m m'
| seq_close m : Z.even (generation m) = false -> seq_step m (mkIoMem (generation m + 1) (words m) (bits m)).

Lemma seq_step_le m m' : seq_step m m' -> generation m <= generation m'.
Proof. destruct 1; simpl; lia. Qed.

Section seqlock.
Context (hist : nat -> IoMem) (Hhist : forall t, seq_step (hist t) (hist (S t))).

Lemma seq_le t t' : (t <= t')%nat -> generation (hist t) <= generation (hist t').
Proof. induction 1 as [| t' Hle IH]; [lia |]. pose proof (seq_step_le _ _ (Hhist t')). lia. Qed.

(** The same even generation at two times: nothing moved between them. *)
Lemma seq_still t0 t1 t :
  (t0 <= t <= t1)%nat -> Z.even (generation (hist t0)) = true -> generation (hist t1) = generation (hist t0) -> hist t = hist t0.
Proof.
  intros [H0 H1] Hev Heq. induction H0 as [| t H0 IH]; [done |]. specialize (IH ltac:(lia)).
  pose proof (seq_le (S t) t1 H1) as Hle. pose proof (Hhist t) as Hstep. rewrite IH in Hstep.
  remember (hist (S t)) as m' eqn:E. remember (hist t0) as m eqn:E0. destruct Hstep as [m | m _ | m m' Hodd _ | m Hodd]; try congruence.
  simpl in Hle. lia.
Qed.
End seqlock.

(** *** The timeline moves by those steps *)

Lemma change_steps_length fuel port end_ allow l b : b ∈ change_steps fuel port end_ allow l -> length l = BITMAP_WORDS -> length b = BITMAP_WORDS.
Proof.
  revert port l. induction fuel as [| fuel IH]; intros port l; simpl; [by intros ?%elem_of_nil |].
  destruct (port <? end_); [| by intros ?%elem_of_nil]. rewrite elem_of_cons. intros [-> | Hb] Hl; [by rewrite length_insert |].
  apply (IH _ _ Hb). by rewrite length_insert.
Qed.

Definition chained (l : list IoMem) : Prop := forall i a b, l !! i = Some a -> l !! S i = Some b -> seq_step a b.

Lemma chained_app l1 l2 :
  chained l1 -> chained l2 -> (forall a b, last l1 = Some a -> head l2 = Some b -> seq_step a b) -> chained (l1 ++ l2).
Proof.
  intros H1 H2 H12 i a b Ha Hb. destruct (decide (S i < length l1)%nat).
  - rewrite lookup_app_l in Ha, Hb by lia. eauto.
  - rewrite lookup_app_r in Hb by lia. destruct (decide (i < length l1)%nat).
    + rewrite lookup_app_l in Ha by lia. apply H12.
      * rewrite last_lookup. by replace (pred (length l1)) with i by lia.
      * rewrite head_lookup. by replace 0%nat with (S i - length l1)%nat by lia.
    + rewrite lookup_app_r in Ha by lia. apply (H2 (i - length l1)%nat); [done |]. by replace (S (i - length l1)) with (S i - length l1)%nat by lia.
Qed.

(** The states of a change but its last store, and that store. *)
Definition trace_odd (base len : Z) (allow : bool) (m : IoMem) : list IoMem :=
  let l := changed base len allow (bits m) in
  mkIoMem (generation m + 1) (words m) (bits m) ::
  ((fun l => mkIoMem (generation m + 1) (words m) l) <$> change_steps (Z.to_nat len) base (base + len) allow (bits m)) ++
  [mkIoMem (generation m + 1) (words_after base len allow l (words m)) l].

Lemma trace_split base len allow m : change_trace base len allow m = trace_odd base len allow m ++ [change base len allow m].
Proof. unfold change_trace, trace_odd. simpl. by rewrite <- app_assoc. Qed.

Lemma trace_odd_last base len allow m :
  last (trace_odd base len allow m) =
  Some (mkIoMem (generation m + 1) (words (change base len allow m)) (bits (change base len allow m))).
Proof. unfold trace_odd. rewrite app_comm_cons. by rewrite last_snoc. Qed.

Lemma trace_odd_generation base len allow m y : y ∈ trace_odd base len allow m -> generation y = generation m + 1.
Proof.
  unfold trace_odd. rewrite elem_of_cons, elem_of_app, list_elem_of_singleton.
  intros [-> | [(b & -> & _)%list_elem_of_fmap | ->]]; done.
Qed.

Lemma chained_one m : chained [m].
Proof. intros [| i] a b _; simpl; done. Qed.

Lemma odd_next g : Z.even g = true -> Z.even (g + 1) = false.
Proof. intros E. by rewrite Z.even_add, E. Qed.

Lemma chained_trace base len allow m : mem_ok m -> chained (m :: change_trace base len allow m).
Proof.
  intros [Hev _ _ _]. apply odd_next in Hev as Hodd. rewrite trace_split. change (m :: ?l) with ([m] ++ l).
  apply chained_app; [apply chained_one | apply chained_app |].
  - intros i a b Ha%list_elem_of_lookup_2%trace_odd_generation Hb%list_elem_of_lookup_2%trace_odd_generation.
    apply seq_inner; [by rewrite Ha | congruence].
  - apply chained_one.
  - rewrite trace_odd_last. intros a b [= <-] [= <-]. unfold change. cbn [words bits].
    replace (generation m + 2) with (generation m + 1 + 1) by lia.
    set (l := changed _ _ _ _). by apply (seq_close (mkIoMem (generation m + 1) (words_after base len allow l (words m)) l)).
  - intros a b [= <-] [= <-]. by apply seq_open.
Qed.

Definition changes_ok (cs : list Change) : Prop := Forall (fun c => ports_ok c.1.1 c.1.2) cs.

Lemma all_after_ok cs m : changes_ok cs -> mem_ok m -> mem_ok (all_after m cs).
Proof. intros Hcs. revert m. induction Hcs as [| c cs Hc Hcs IH]; intros m Hm; [done |]. apply IH. by apply change_ok. Qed.

Lemma timeline_head m cs : head (timeline m cs) = Some m.
Proof. by destruct cs. Qed.

Lemma timeline_last m cs : last (timeline m cs) = Some (all_after m cs).
Proof.
  revert m. induction cs as [| c cs IH]; intros m; [done |]. cbn [timeline]. rewrite app_comm_cons, last_app, IH. done.
Qed.

Lemma timeline_chained m cs : changes_ok cs -> mem_ok m -> chained (timeline m cs).
Proof.
  intros Hcs. revert m. induction Hcs as [| c cs Hc Hcs IH]; intros m Hm; [apply chained_one |].
  cbn [timeline]. rewrite app_comm_cons. apply chained_app; [by apply chained_trace | by apply IH, change_ok |].
  intros a b Ha Hb. rewrite timeline_head in Hb. injection Hb as <-.
  rewrite trace_split, app_comm_cons, last_snoc in Ha. injection Ha as <-. apply seq_same.
Qed.

Lemma seen_step m cs t : changes_ok cs -> mem_ok m -> seq_step (seen m cs t) (seen m cs (S t)).
Proof.
  intros Hcs Hm. unfold seen. destruct (timeline m cs !! t) as [a |] eqn:Ea; simpl.
  - destruct (timeline m cs !! S t) as [b |] eqn:Eb; simpl; [by eapply timeline_chained |].
    assert (last (timeline m cs) = Some a) as Hl.
    { rewrite last_lookup. apply lookup_lt_Some in Ea as Hlt. apply lookup_ge_None in Eb. by replace (pred _) with t by lia. }
    rewrite timeline_last in Hl. injection Hl as ->. apply seq_same.
  - rewrite (proj2 (lookup_ge_None _ _)); [apply seq_same |]. apply lookup_ge_None in Ea. lia.
Qed.

(** Between changes the memory is what a number of whole changes left. *)
Lemma seen_even m cs t :
  changes_ok cs -> mem_ok m -> Z.even (generation (seen m cs t)) = true -> exists n, seen m cs t = all_after m (take n cs).
Proof.
  intros Hcs Hm. unfold seen. destruct (timeline m cs !! t) as [a |] eqn:Ea; simpl; [| exists (length cs); by rewrite firstn_all].
  apply list_elem_of_lookup_2 in Ea. clear t. revert m Hm Ea. induction Hcs as [| c cs Hc Hcs IH]; intros m Hm Ha Hev; cbn [timeline] in Ha.
  - apply list_elem_of_singleton in Ha as ->. by exists 0%nat.
  - apply elem_of_cons in Ha as [-> | Ha]; [by exists 0%nat |]. rewrite trace_split, !elem_of_app in Ha.
    destruct Ha as [[Ha%trace_odd_generation | ->%list_elem_of_singleton] | Ha].
    + apply (mo_even m), odd_next in Hm. congruence.
    + exists 1%nat. by destruct cs.
    + destruct (IH (after m c) ltac:(by apply change_ok) Ha Hev) as [n ->]. by exists (S n).
Qed.

(** At every time the bitmap has its length and [words] is within it. *)
Lemma seen_bounds m cs t :
  changes_ok cs -> mem_ok m -> length (bits (seen m cs t)) = BITMAP_WORDS /\ (words (seen m cs t) <= BITMAP_WORDS)%nat.
Proof.
  intros Hcs Hm. unfold seen. destruct (timeline m cs !! t) as [a |] eqn:Ea; simpl; [| by destruct (all_after_ok cs m Hcs Hm)].
  apply list_elem_of_lookup_2 in Ea. clear t. revert m Hm Ea. induction Hcs as [| c cs Hc Hcs IH]; intros m Hm Ha; cbn [timeline] in Ha.
  - apply list_elem_of_singleton in Ha as ->. by destruct Hm.
  - pose proof (change_ok c.1.1 c.1.2 c.2 m Hc Hm) as Hm'. rewrite elem_of_cons, trace_split, !elem_of_app, list_elem_of_singleton in Ha.
    destruct Ha as [-> | [[Ha | ->] | Ha]]; [by destruct Hm | | by destruct Hm' | by apply (IH (after m c) Hm')].
    unfold trace_odd in Ha. rewrite elem_of_cons, elem_of_app, list_elem_of_singleton in Ha.
    destruct Ha as [-> | [(b & -> & Hb)%list_elem_of_fmap | ->]]; simpl; [by destruct Hm | | by destruct Hm'].
    split; [| by destruct Hm]. by apply (change_steps_length _ _ _ _ _ _ Hb), Hm.
Qed.

(** ** The copy *)

(** The words past [io_dirty] are all ones. *)
Record core_ok (io : IoCore) : Prop := mk_core_ok {
  co_len : length (tss_map io) = BITMAP_WORDS;
  co_dirty : (io_dirty io <= BITMAP_WORDS)%nat;
  co_rest : forall p, port_ok p -> Z.of_nat (io_dirty io) <= p / 64 -> refused (tss_map io) p = true;
}.

Lemma copy_words_length reads k at_ n map : length (copy_words reads k at_ n map) = length map.
Proof. revert k at_ map. induction n as [| n IH]; intros k at_ map; simpl; [done |]. by rewrite IH, length_insert. Qed.

Lemma restore_words_length at_ n map : length (restore_words at_ n map) = length map.
Proof. revert at_ map. induction n as [| n IH]; intros at_ map; simpl; [done |]. by rewrite IH, length_insert. Qed.

Lemma copy_words_refused reads k at_ n map p :
  length map = BITMAP_WORDS -> (at_ + n <= BITMAP_WORDS)%nat -> port_ok p ->
  refused (copy_words reads k at_ n map) p =
  let w := Z.to_nat (p / 64) in
  if decide (at_ <= w < at_ + n)%nat then refused (bits (reads (k + (w - at_))%nat)) p else refused map p.
Proof.
  revert k at_ map. induction n as [| n IH]; intros k at_ map Hl Hn Hp; cbn zeta; cbn [copy_words].
  { by rewrite decide_False by lia. }
  rewrite IH by (rewrite ?length_insert; lia || done). cbn zeta. rewrite refused_insert by lia.
  destruct (decide (S at_ <= Z.to_nat (p / 64) < S at_ + n)%nat).
  - rewrite decide_True by lia. do 3 f_equal. lia.
  - destruct (decide (at_ = Z.to_nat (p / 64))) as [E |].
    + rewrite decide_True by lia. rewrite E, Nat.sub_diag, Nat.add_0_r. done.
    + by rewrite decide_False by lia.
Qed.

Lemma restore_words_refused at_ n map p :
  length map = BITMAP_WORDS -> (at_ + n <= BITMAP_WORDS)%nat -> port_ok p ->
  refused (restore_words at_ n map) p =
  if decide (at_ <= Z.to_nat (p / 64) < at_ + n)%nat then true else refused map p.
Proof.
  revert at_ map. induction n as [| n IH]; intros at_ map Hl Hn Hp; cbn [restore_words].
  { by rewrite decide_False by lia. }
  rewrite IH by (rewrite ?length_insert; lia || done). rewrite refused_insert by lia.
  destruct (decide (S at_ <= Z.to_nat (p / 64) < S at_ + n)%nat); [by rewrite decide_True by lia |].
  destruct (decide (at_ = Z.to_nat (p / 64))); [rewrite decide_True by lia; apply testbit_max, Z.mod_pos_bound; lia | by rewrite decide_False by lia].
Qed.

(** An attempt that is given up leaves the record fit for the next. *)
Lemma copy_attempt_ok reads k n io :
  core_ok io -> (n <= BITMAP_WORDS)%nat ->
  core_ok (mkIoCore (copy_words reads k 0 n (tss_map io)) (tss_base io) (io_koid io) (io_generation io) (Nat.max (io_dirty io) n)).
Proof.
  intros [Hl Hd Hr] Hn. split; cbn; [by rewrite copy_words_length | lia |].
  intros p Hp Hge. rewrite copy_words_refused by (done || lia). cbn zeta. rewrite decide_False by lia. apply Hr; [done | lia].
Qed.

(** What the bitmap of [m] lets through, this core lets through. *)
Definition loaded (owner : Z) (m : IoMem) (io : IoCore) : Prop :=
  io_koid io = owner /\ io_generation io = generation m /\ forall p, port_ok p -> core_lets io p = process_lets m p.

Lemma loaded_empty owner m io :
  mem_ok m -> words m = 0%nat -> loaded owner m (mkIoCore (tss_map io) false owner (generation m) (io_dirty io)).
Proof.
  intros [_ _ _ Hr] Hw. split_and!; [done .. |]. intros p Hp. unfold core_lets, process_lets. cbn.
  rewrite Hr; [done | done |]. rewrite Hw. apply Z.div_pos; unfold port_ok in Hp; lia.
Qed.

Lemma loaded_copy owner m reads k io :
  mem_ok m -> core_ok io -> (forall i, (i < words m)%nat -> reads (k + i)%nat = m) ->
  let map := copy_words reads k 0 (words m) (tss_map io) in
  let io' := mkIoCore (restore_words (words m) (Nat.max (io_dirty io) (words m) - words m) map) true owner (generation m) (words m) in
  core_ok io' /\ loaded owner m io'.
Proof.
  intros [_ Hlm Hw Hrm] [Hl Hd Hr] Hreads. cbn zeta.
  assert (forall p, port_ok p -> refused (restore_words (words m) (Nat.max (io_dirty io) (words m) - words m)
    (copy_words reads k 0 (words m) (tss_map io))) p = refused (bits m) p) as Hall.
  { intros p Hp. rewrite restore_words_refused by (rewrite ?copy_words_length; done || lia).
    assert (0 <= p / 64) by (apply Z.div_pos; unfold port_ok in Hp; lia).
    case_decide; [symmetry; apply Hrm; [done | lia] |]. rewrite copy_words_refused by (done || lia). cbn zeta.
    case_decide; [rewrite Hreads by lia; done |]. rewrite Hr, Hrm by (done || lia). done. }
  split; [split; cbn | split_and!; [done .. |]].
  - by rewrite restore_words_length, copy_words_length.
  - done.
  - intros p Hp Hge. rewrite Hall by done. by apply Hrm.
  - intros p Hp. unfold core_lets, process_lets. cbn [tss_base tss_map andb]. by rewrite Hall.
Qed.

Section loading.
Context (m : IoMem) (cs : list Change) (Hm : mem_ok m) (Hcs : changes_ok cs).
(** When each access of the core happens. *)
Context (times : nat -> nat) (Htimes : forall k, (times k <= times (S k))%nat).
Let reads (k : nat) : IoMem := seen m cs (times k).

Lemma times_mono i j : (i <= j)%nat -> (times i <= times j)%nat.
Proof. induction 1 as [| j _ IH]; [done |]. pose proof (Htimes j). lia. Qed.

(** The same even generation at both ends: all accesses between read one memory. *)
Lemma reads_still k k' i :
  (k <= i <= k')%nat -> Z.odd (generation (reads k)) = false -> generation (reads k') = generation (reads k) -> reads i = reads k.
Proof.
  intros Hi Hodd Hg. apply (seq_still (seen m cs) (fun t => seen_step m cs t Hcs Hm) (times k) (times k') (times i)); [| | done].
  - split; apply times_mono; lia.
  - change (seen m cs (times k)) with (reads k). by rewrite <- Z.negb_odd, Hodd.
Qed.

Lemma load_loop_ok attempts owner k io :
  core_ok io ->
  let '(ok, io', k') := load_loop attempts owner reads k io in
  core_ok io' /\
  if ok then exists j n, (k <= j < k')%nat /\ reads j = all_after m (take n cs) /\ loaded owner (all_after m (take n cs)) io'
  else io_koid io' = 0 /\ forall p, core_lets io' p = false.
Proof.
  revert k io. induction attempts as [| attempts IH]; intros k io Hio; cbn [load_loop].
  { split; [by destruct Hio | by split]. }
  assert (forall k1 io1, (k <= k1)%nat -> core_ok io1 ->
    let '(ok, io', k') := load_loop attempts owner reads k1 io1 in
    core_ok io' /\
    if ok then exists j n, (k <= j < k')%nat /\ reads j = all_after m (take n cs) /\ loaded owner (all_after m (take n cs)) io'
    else io_koid io' = 0 /\ forall p, core_lets io' p = false) as Hnext.
  { intros k1 io1 Hk Hio1. specialize (IH k1 io1 Hio1). destruct (load_loop _ _ _ _ _) as [[[] io'] k']; [| done].
    destruct IH as [Hok (j & n & Hj & Hn)]. split; [done |]. exists j, n. split; [lia | done]. }
  clear IH. destruct (Z.odd (generation (reads k))) eqn:Eodd; [apply Hnext; [lia | done] |].
  destruct (seen_even m cs (times k) Hcs Hm) as [n Hn]; [change (seen m cs (times k)) with (reads k); by rewrite <- Z.negb_odd, Eodd |].
  change (seen m cs (times k)) with (reads k) in Hn.
  assert (mem_ok (all_after m (take n cs))) as Hmn by (apply all_after_ok; [by apply Forall_take | done]).
  destruct (Nat.eqb_spec (words (reads (S k))) 0) as [E0 | Hpos].
  - destruct (Z.eqb_spec (generation (reads (k + 2)%nat)) (generation (reads k))) as [Eg |]; [| apply Hnext; [lia | done]].
    rewrite (reads_still k (k + 2) (S k) ltac:(lia) Eodd Eg), Hn in E0.
    split; [by destruct Hio |]. exists k, n. split; [lia |]. split; [done |]. rewrite Hn. by apply loaded_empty.
  - destruct (Z.eqb_spec (generation (reads (k + 2 + words (reads (S k)))%nat)) (generation (reads k))) as [Eg |].
    + pose proof (fun i Hi => reads_still k _ i Hi Eodd Eg) as Hstill. pose proof (Hstill (S k) ltac:(lia)) as E1. rewrite Hn in E1. rewrite !E1, Hn in *.
      destruct (loaded_copy owner (all_after m (take n cs)) reads (k + 2) io Hmn Hio) as [Hok Hl].
      { intros i Hi. apply Hstill. lia. }
      split; [exact Hok |]. exists k, n. split; [lia |]. by split.
    + apply Hnext; [lia |]. apply copy_attempt_ok; [done |]. apply seen_bounds; done.
Qed.

End loading.

Lemma load_loop_ext attempts owner r1 r2 k io : (forall i, r1 i = r2 i) -> load_loop attempts owner r1 k io = load_loop attempts owner r2 k io.
Proof.
  intros He. revert k io. assert (forall k at_ n map, copy_words r1 k at_ n map = copy_words r2 k at_ n map) as Hc.
  { intros k at_ n. revert k at_. induction n as [| n IH]; intros k at_ map; simpl; [done |]. by rewrite He, IH. }
  induction attempts as [| attempts IH]; intros k io; cbn [load_loop]; [done |]. rewrite !He, !Hc, !IH. done.
Qed.

(** A memory that stands still is copied at the first attempt. *)
Lemma load_loop_quiet attempts owner m k io :
  Z.even (generation m) = true -> (load_loop (S attempts) owner (fun _ => m) k io).1.1 = true.
Proof.
  intros Hev. cbn [load_loop]. rewrite <- Z.negb_even, Hev. cbn [negb]. case_match; by rewrite Z.eqb_refl.
Qed.

(** The console UART mapped and taken back, as a core copying meanwhile may see it. *)
Definition com1_core : IoCore := mkIoCore (replicate BITMAP_WORDS U64_MAX) false 0 0 0.
Definition com1_changes : list Change := [(0x3F8, 8, true); (0x3F8, 8, false)].

Lemma com1_core_ok : core_ok com1_core.
Proof. split; [done | unfold BITMAP_WORDS; simpl; lia | intros p Hp _; by apply refused_fresh]. Qed.

Lemma com1_changes_ok : changes_ok com1_changes.
Proof. repeat constructor; simpl; lia. Qed.

(** C21: A copy a core takes without the lock, whatever changes run meanwhile and however its
    accesses fall between their stores, is the whole bitmap of one moment of the copy, with
    that moment's generation recorded: every port it lets through the process was allowed
    then, every port the process was allowed it lets through. A copy that fails lets nothing
    through and records nothing loaded; one that meets no change succeeds; either way the
    words past the recorded dirty count stay all ones. *)
Theorem copy_is_one_moment m cs (times : nat -> nat) owner io :
  mem_ok m -> changes_ok cs -> (forall k, (times k <= times (S k))%nat) -> core_ok io ->
  let '(ok, io', k') := load owner (fun k => seen m cs (times k)) io in
  core_ok io' /\
  (if ok then
     exists j n, (j < k')%nat /\ seen m cs (times j) = all_after m (take n cs) /\ loaded owner (all_after m (take n cs)) io'
   else io_koid io' = 0 /\ forall p, core_lets io' p = false) /\
  (cs = [] -> ok = true).
Proof.
  intros Hm Hcs Ht Hio. unfold load. pose proof (load_loop_ok m cs Hm Hcs times Ht COPY_ATTEMPTS owner 0 io Hio) as H.
  pose proof (fun Hev => load_loop_quiet 15 owner m 0 io Hev) as Hq.
  assert (cs = [] -> (load_loop COPY_ATTEMPTS owner (fun k => seen m cs (times k)) 0 io).1.1 = true) as Hquiet.
  { intros ->. erewrite load_loop_ext; [apply Hq, Hm |]. intros k. unfold seen. by destruct (times k) as [| []]. }
  destruct (load_loop _ _ _ _ _) as [[ok io'] k']. destruct H as [Hok H]. split; [done |]. split; [| exact Hquiet].
  destruct ok; [| done]. destruct H as (j & n & Hj & H). exists j, n. split; [lia | done].
Qed.

Lemma copy_is_one_moment_witness :
  let '(ok, io', k') := load 7 (fun k => seen fresh_mem com1_changes k) com1_core in
  core_ok io' /\
  (if ok then
     exists j n, (j < k')%nat /\ seen fresh_mem com1_changes j = all_after fresh_mem (take n com1_changes) /\
       loaded 7 (all_after fresh_mem (take n com1_changes)) io'
   else io_koid io' = 0 /\ forall p, core_lets io' p = false) /\
  (com1_changes = [] -> ok = true).
Proof. apply (copy_is_one_moment fresh_mem com1_changes (fun k => k)); [apply fresh_ok | apply com1_changes_ok | lia | apply com1_core_ok]. Defined.
