(* ===== verification/PortRange.v ===== *)
(** Port ranges in their processes and on the cores (kernel/object/port_range/mod.rs,
    kernel/arch/x86_64/ioports.rs): minting, mapping, the three ways a range is taken
    back, and the copies the cores make on a switch, in a revocation round and on a
    fault. Whatever the locks allow runs between the steps of an operation. A map is six
    steps: the bitmap, the slot of the list, the guard against the teardown and the lock
    of the range, and with the range locked the ports and the list; up to the lock it is
    one of [m_maps], from there on it is in the range ([r_mapping]). A range's lock is
    held across its whole take-back too, which is two steps: [r_taking] is the range while
    the round runs, with the cores that have looked at their copy since. What an operation
    does after it unlocks the range waits in [todo] as steps of its own, in any order. A
    copy is one step, at the moment it holds the bitmap of. The counts of a claim's
    mappings are device.rs's. *)

From S2P Require Import Prelude PortGrants PortBits.

Inductive RState := Idle | Mapped (pid : Z) | Ended.
Inductive MapError := Busy | GrantEnded | Terminating | MapNoMemory.

(** Who takes the range back. *)
Inductive Why := Unmap | Revoke | GiveBack.
Record TakeBack := mkTaking { tk_why : Why; tk_pid : Z; tk_done : gset nat }.

(** [r_taking] and [r_mapping] are who has the range's lock: a take-back, or a map, which
    has allowed the ports in the bitmap or has still to. *)
Record Range := mkRange {
  r_base : Z;
  r_len : Z;
  r_state : RState;
  r_taking : option TakeBack;
  r_mapping : option bool;
}.

#[export] Instance rstate_eq_dec : EqDecision RState.
Proof. solve_decision. Defined.

(** A process: its bitmap and whether it is allocated, the ranges mapped into it, whether
    it is going away, whether anything still refers to it, and what [give_back_all] took
    off the list and has not given back. *)
Record Proc := mkProc {
  p_mem : IoMem;
  p_bits : bool;
  p_mapped : vec Z;
  p_terminating : bool;
  p_alive : bool;
  p_giving : option (list Z);
}.

Record Core := mkCore { c_running : option Z; c_io : IoCore }.

(** What is left of an operation once the range is unlocked. *)
Inductive Tail := EndGrant (rid : Z) (confirmed : bool) | Forget (pid rid : Z).

(** A map that has not locked its range yet, and what it does next. *)
Inductive MapAt := ToBitmap | ToReserve | ToExtend | ToLock.
Record MapOp := mkMap { mp_rid : Z; mp_pid : Z; mp_at : MapAt }.

#[export] Instance map_at_eq_dec : EqDecision MapAt.
Proof. solve_decision. Defined.

(** [m_loose] and [m_handed] only record: the ports a round did not confirm, and whose they
    were; [m_handed] where the grant goes back to the kernel item it came from. *)
Record Ports := mkPorts {
  m_grants : Grants;
  m_procs : gmap Z Proc;
  m_ranges : gmap Z Range;
  m_cores : gmap nat Core;
  m_maps : list MapOp;
  m_todo : list Tail;
  m_loose : list (Z * Z * Z);
  m_handed : list (Z * Z * Z);
  m_next : Z;
}.

Definition set_grants (g : Grants) (s : Ports) : Ports :=
  mkPorts g (m_procs s) (m_ranges s) (m_cores s) (m_maps s) (m_todo s) (m_loose s) (m_handed s) (m_next s).
Definition set_proc (pid : Z) (p : Proc) (s : Ports) : Ports :=
  mkPorts (m_grants s) (<[pid := p]> (m_procs s)) (m_ranges s) (m_cores s) (m_maps s) (m_todo s) (m_loose s) (m_handed s) (m_next s).
Definition set_range (rid : Z) (r : Range) (s : Ports) : Ports :=
  mkPorts (m_grants s) (m_procs s) (<[rid := r]> (m_ranges s)) (m_cores s) (m_maps s) (m_todo s) (m_loose s) (m_handed s) (m_next s).
Definition set_core (c : nat) (k : Core) (s : Ports) : Ports :=
  mkPorts (m_grants s) (m_procs s) (m_ranges s) (<[c := k]> (m_cores s)) (m_maps s) (m_todo s) (m_loose s) (m_handed s) (m_next s).
Definition set_todo (l : list Tail) (s : Ports) : Ports :=
  mkPorts (m_grants s) (m_procs s) (m_ranges s) (m_cores s) (m_maps s) l (m_loose s) (m_handed s) (m_next s).
Definition set_ranges (rs : gmap Z Range) (s : Ports) : Ports :=
  mkPorts (m_grants s) (m_procs s) rs (m_cores s) (m_maps s) (m_todo s) (m_loose s) (m_handed s) (m_next s).
Definition add_loose (l : list (Z * Z * Z)) (s : Ports) : Ports :=
  mkPorts (m_grants s) (m_procs s) (m_ranges s) (m_cores s) (m_maps s) (m_todo s) (m_loose s ++ l) (m_handed s) (m_next s).
Definition add_handed (l : list (Z * Z * Z)) (s : Ports) : Ports :=
  mkPorts (m_grants s) (m_procs s) (m_ranges s) (m_cores s) (m_maps s) (m_todo s) (m_loose s) (m_handed s ++ l) (m_next s).
Definition set_maps (l : list MapOp) (s : Ports) : Ports :=
  mkPorts (m_grants s) (m_procs s) (m_ranges s) (m_cores s) l (m_todo s) (m_loose s) (m_handed s) (m_next s).

(** Object ids are handed out in order and never again. *)
Definition new_koid : M Ports Z := fun s =>
  Some (m_next s, mkPorts (m_grants s) (m_procs s) (m_ranges s) (m_cores s) (m_maps s) (m_todo s) (m_loose s) (m_handed s) (m_next s + 1)).

Definition get_range (rid : Z) : M Ports Range := s ← gets m_ranges; assert_some (s !! rid).
Definition get_proc (pid : Z) : M Ports Proc := s ← gets m_procs; assert_some (s !! pid).
Definition get_core (c : nat) : M Ports Core := s ← gets m_cores; assert_some (s !! c).
Definition on_grants {A} : M Grants A -> M Ports A := zoom m_grants set_grants.

(** ** Minting *)

(** The object is allocated first ([allocates] is the heap's answer) and dropped, ended,
    where the grant is refused. *)
Definition mint_with (granting : Z -> M Grants (result unit Refusal)) (base len : Z) (allocates : bool) : M Ports (result Z Refusal) :=
  if negb allocates then mret (Err NoMemory)
  else
    koid ← new_koid;
    r ← on_grants (granting koid);
    match r with
    | Err refusal => mret (Err refusal)
    | Ok _ => modify (set_range koid (mkRange base len Idle None None)) ;; mret (Ok koid)
    end.
Definition mint (base len : Z) (allocates : bool) : M Ports (result Z Refusal) :=
  mint_with (grant base len) base len allocates.
Definition mint_from_install (item base len : Z) (allocates : bool) : M Ports (result Z Refusal) :=
  mint_with (grant_from_install item base len) base len allocates.

(** ** Mapping *)

Definition ensure_bitmap (pid : Z) (allocates : bool) : M Ports bool :=
  p ← get_proc pid;
  if p_bits p then mret true
  else if negb allocates then mret false
  else modify (set_proc pid (mkProc (p_mem p) true (p_mapped p) (p_terminating p) (p_alive p) (p_giving p))) ;; mret true.

Definition set_mapped (v : vec Z) (p : Proc) : Proc := mkProc (p_mem p) (p_bits p) v (p_terminating p) (p_alive p) (p_giving p).
Definition set_mem (m : IoMem) (p : Proc) : Proc := mkProc m (p_bits p) (p_mapped p) (p_terminating p) (p_alive p) (p_giving p).

(** An operation on the heap the table grows on. *)
Definition on_heap {A} (m : M heap A) : M Ports A :=
  on_grants (zoom gheap (fun h g => mkGrants (table g) h) m).

Definition reserve_mapped (pid : Z) : M Ports bool :=
  p ← get_proc pid;
  r ← on_heap (try_reserve (p_mapped p) 1);
  modify (set_proc pid (set_mapped r.2 p)) ;;
  mret r.1.
Definition push_mapped (pid rid : Z) : M Ports unit :=
  p ← get_proc pid;
  v ← on_heap (vec_push (p_mapped p) rid);
  modify (set_proc pid (set_mapped v p)).

(** [change] of a process whose bitmap exists; the assertion fails where it does not. *)
Definition change_ports (pid base len : Z) (allow : bool) : M Ports unit :=
  p ← get_proc pid;
  if p_bits p then modify (set_proc pid (set_mem (change base len allow (p_mem p)) p)) else abort.

(** The call: its map is under way. *)
Definition map_into (rid pid : Z) : M Ports unit := modify (fun s => set_maps (m_maps s ++ [mkMap rid pid ToBitmap]) s).

(** Map [i] goes on, or ends with an answer. *)
Definition map_goes_on (i : nat) (next : MapAt) : M Ports (option (result unit MapError)) :=
  modify (fun s => set_maps (alter (fun o => mkMap (mp_rid o) (mp_pid o) next) i (m_maps s)) s) ;; mret None.
Definition map_ends (i : nat) (e : MapError) : M Ports (option (result unit MapError)) :=
  modify (fun s => set_maps (delete i (m_maps s)) s) ;; mret (Some (Err e)).

(** What [map_into] does up to the lock of the range. The guard of [begin_extend] is the map
    itself, from [ToLock] on. *)
Definition map_step (i : nat) (allocates : bool) : M Ports (option (result unit MapError)) :=
  maps ← gets m_maps;
  o ← assert_some (maps !! i);
  match mp_at o with
  | ToBitmap => ok ← ensure_bitmap (mp_pid o) allocates; if (ok : bool) then map_goes_on i ToReserve else map_ends i MapNoMemory
  | ToReserve => ok ← reserve_mapped (mp_pid o); if (ok : bool) then map_goes_on i ToExtend else map_ends i MapNoMemory
  | ToExtend => p ← get_proc (mp_pid o); if p_terminating p then map_ends i Terminating else map_goes_on i ToLock
  | ToLock =>
      r ← get_range (mp_rid o);
      match r_state r with
      | Mapped _ => map_ends i Busy
      | Ended => map_ends i GrantEnded
      | Idle =>
          modify (fun s => set_maps (delete i (m_maps s)) s) ;;
          modify (set_range (mp_rid o) (mkRange (r_base r) (r_len r) (Mapped (mp_pid o)) None (Some false))) ;;
          mret None
      end
  end.

(** What it does with the range locked: the ports, and then the list. *)
Definition map_locked (rid : Z) : M Ports (option (result unit MapError)) :=
  r ← get_range rid;
  match r_state r, r_mapping r with
  | Mapped pid, Some false =>
      change_ports pid (r_base r) (r_len r) true ;;
      modify (set_range rid (mkRange (r_base r) (r_len r) (Mapped pid) None (Some true))) ;;
      mret None
  | Mapped pid, Some true =>
      push_mapped pid rid ;;
      modify (set_range rid (mkRange (r_base r) (r_len r) (Mapped pid) None None)) ;;
      mret (Some (Ok tt))
  | _, _ => mret None
  end.

(** ** The cores *)

Definition stale (io : IoCore) (pid : Z) (m : IoMem) : bool :=
  negb (io_koid io =? pid) || negb (io_generation io =? generation m).

(** A copy of the bitmap as it is now, or one that gave up. *)
Definition copy (gives_up : bool) (pid : Z) (m : IoMem) (io : IoCore) : IoCore :=
  if gives_up then mkIoCore (tss_map io) false 0 0 (io_dirty io) else (load pid (fun _ => m) io).1.2.
Arguments copy : simpl never.
Definition refresh (gives_up : bool) (pid : Z) (m : IoMem) (io : IoCore) : IoCore :=
  if stale io pid m then copy gives_up pid m io else io.

(** The core has looked at its copy, or runs none of the process: the rounds that take
    ports from the process ([None]: from any) need not wait for it. *)
Definition looked (which : option Z) (c : nat) (r : Range) : Range :=
  mkRange (r_base r) (r_len r) (r_state r)
    ((fun t => if decide (which = None \/ which = Some (tk_pid t)) then mkTaking (tk_why t) (tk_pid t) ({[c]} ∪ tk_done t) else t) <$> r_taking r) (r_mapping r).
Definition look (which : option Z) (c : nat) : M Ports unit := modify (fun s => set_ranges (looked which c <$> m_ranges s) s).

Definition switch_in (c : nat) (pid : Z) (gives_up : bool) : M Ports unit :=
  k ← get_core c; p ← get_proc pid;
  modify (set_core c (mkCore (Some pid) (refresh gives_up pid (p_mem p) (c_io k)))) ;;
  look None c.
Definition switch_to_idle (c : nat) : M Ports unit :=
  k ← get_core c; modify (set_core c (mkCore None (c_io k))) ;; look None c.
Definition service (c : nat) (gives_up : bool) : M Ports unit :=
  k ← get_core c;
  match c_running k with
  | None => look None c
  | Some pid =>
      p ← get_proc pid;
      modify (set_core c (mkCore (Some pid) (refresh gives_up pid (p_mem p) (c_io k)))) ;;
      look None c
  end.
Definition reload_if_running (c : nat) (pid : Z) (gives_up : bool) : M Ports unit :=
  k ← get_core c;
  if decide (c_running k = Some pid) then service c gives_up else look (Some pid) c.

(** The answer: whether the instruction that faulted is tried again. *)
Definition pull_on_gp (c : nat) (gives_up : bool) : M Ports bool :=
  k ← get_core c;
  match c_running k with
  | None => mret false
  | Some pid =>
      p ← get_proc pid;
      if negb (stale (c_io k) pid (p_mem p)) then mret false
      else
        modify (set_core c (mkCore (Some pid) (copy gives_up pid (p_mem p) (c_io k)))) ;;
        look None c ;;
        mret true
  end.

(** ** Taking a range back *)

Definition later (l : list Tail) : M Ports unit := modify (fun s => set_todo (m_todo s ++ l) s).

(** [take_back] up to its round, on core [c]; the range's state is [st] meanwhile. *)
Definition take_back (why : Why) (rid pid : Z) (st : RState) (c : nat) (gives_up : bool) : M Ports unit :=
  r ← get_range rid;
  modify (set_range rid (mkRange (r_base r) (r_len r) st (Some (mkTaking why pid ∅)) None)) ;;
  change_ports pid (r_base r) (r_len r) false ;;
  reload_if_running c pid gives_up.

(** Each caller's end: the range's state, and what is left to do. *)
Definition wind_up (why : Why) (rid pid : Z) (confirmed : bool) : RState * list Tail :=
  let unconfirmed := if confirmed then [] else [EndGrant rid false] in
  match why with
  | Unmap => (if confirmed then Idle else Ended, unconfirmed ++ [Forget pid rid])
  | Revoke => (Ended, [EndGrant rid confirmed; Forget pid rid])
  | GiveBack => (if confirmed then Idle else Ended, unconfirmed)
  end.

(** The ports came from a kernel item and go back to it when the grant ends. *)
Definition returns (rid : Z) (s : Ports) : bool :=
  existsb (fun sp => (sp_owner sp =? rid) && bool_decide (is_Some (sp_returns sp))) (items (spans (table (m_grants s)))).
Definition record_loose (rid pid : Z) (r : Range) : M Ports unit :=
  handed ← gets (returns rid);
  modify ((if (handed : bool) then add_handed else add_loose) [(pid, r_base r, r_base r + r_len r)]).

(** The round is over and its operation goes on: the range is unlocked. *)
Definition round_over (rid : Z) (confirmed : bool) : M Ports unit :=
  r ← get_range rid;
  t ← assert_some (r_taking r);
  (if (confirmed : bool) then mret tt else record_loose rid (tk_pid t) r) ;;
  let '(st, tails) := wind_up (tk_why t) rid (tk_pid t) confirmed in
  modify (set_range rid (mkRange (r_base r) (r_len r) st None None)) ;;
  later tails.

Definition unmap_from (rid pid : Z) (c : nat) (gives_up : bool) : M Ports (result unit MapError) :=
  r ← get_range rid;
  match r_state r with
  | Mapped holder => if decide (holder = pid) then take_back Unmap rid pid (Mapped pid) c gives_up ;; mret (Ok tt) else mret (Err Busy)
  | Ended => mret (Err GrantEnded)
  | Idle => mret (Err Busy)
  end.

Definition revoke (rid : Z) (c : nat) (gives_up : bool) : M Ports unit :=
  r ← get_range rid;
  let ended := set_range rid (mkRange (r_base r) (r_len r) Ended None None) in
  match r_state r with
  | Ended => mret tt
  | Idle => modify ended ;; later [EndGrant rid true]
  | Mapped pid =>
      p ← get_proc pid;
      if p_alive p then take_back Revoke rid pid Ended c gives_up
      else modify ended ;; later [EndGrant rid true]
  end.

Definition give_back_all (pid : Z) : M Ports unit :=
  p ← get_proc pid;
  modify (set_proc pid (mkProc (p_mem p) (p_bits p) vec_new (p_terminating p) (p_alive p)
    (Some (default [] (p_giving p) ++ items (p_mapped p))))).

(** The next range [give_back_all] took off the list. *)
Definition give_back (pid : Z) (c : nat) (gives_up : bool) : M Ports unit :=
  p ← get_proc pid;
  match p_giving p with
  | Some (rid :: rest) =>
      modify (set_proc pid (mkProc (p_mem p) (p_bits p) (p_mapped p) (p_terminating p) (p_alive p) (Some rest))) ;;
      r ← get_range rid;
      if decide (r_state r = Mapped pid) then take_back GiveBack rid pid (Mapped pid) c gives_up else mret tt
  | _ => mret tt
  end.

(** The first of the list that is this range. *)
Definition forget (pid rid : Z) : M Ports unit :=
  p ← get_proc pid;
  match list_find (fun held => held = rid) (items (p_mapped p)) with
  | Some (at_, _) => modify (set_proc pid (set_mapped (Vec (swap_remove at_ (items (p_mapped p))) (capacity (p_mapped p))) p))
  | None => mret tt
  end.

Definition run_tail (i : nat) : M Ports unit :=
  todo ← gets m_todo;
  t ← assert_some (todo !! i);
  modify (set_todo (delete i todo)) ;;
  match t with
  | EndGrant rid confirmed => on_grants (end_grant rid confirmed)
  | Forget pid rid => forget pid rid
  end.

Definition drop_range (rid : Z) : M Ports unit :=
  r ← get_range rid;
  (if decide (r_state r = Ended) then mret tt else on_grants (end_grant rid true)) ;;
  modify (fun s => set_ranges (delete rid (m_ranges s)) s).

(** ** The processes' part *)

Definition new_process : M Ports Z :=
  koid ← new_koid;
  modify (set_proc koid (mkProc fresh_mem false vec_new false true None)) ;;
  mret koid.
Definition begin_teardown (pid : Z) : M Ports unit :=
  p ← get_proc pid;
  modify (set_proc pid (mkProc (p_mem p) (p_bits p) (p_mapped p) true (p_alive p) (p_giving p))).

(** The last reference is gone; [Drop] follows, with [give_back_all] and [give_back]. *)
Definition last_reference (pid : Z) : M Ports unit :=
  p ← get_proc pid;
  modify (set_proc pid (mkProc (p_mem p) (p_bits p) (p_mapped p) (p_terminating p) false (p_giving p))).

(** ** Boot *)

Fixpoint reserve_blocks (blocks : list (Z * Z)) : M Grants unit :=
  match blocks with
  | [] => mret tt
  | (base, len) :: blocks => reserve_firmware base len ;; reserve_blocks blocks
  end.
Definition reserve_firmware_ports (blocks : list (Z * Z)) : M Grants unit :=
  install KERNEL_CONSOLE COM1.1 COM1.2 ;; reserve_blocks blocks.

Definition fresh_core : Core := mkCore None (mkIoCore (replicate BITMAP_WORDS U64_MAX) false 0 0 0).
Definition boot_cores (n : nat) : gmap nat Core := gset_to_gmap fresh_core (set_seq 0 n).

(** [n] cores, the firmware's blocks and the heap's answers; [None] is a panic. *)
Definition boot_ports (n : nat) (blocks : list (Z * Z)) (h : heap) : option Ports :=
  match reserve_firmware_ports blocks (mkGrants empty_table h) with
  | Some (_, g) => Some (mkPorts g ∅ ∅ (boot_cores n) [] [] [] [] 1)
  | None => None
  end.

(** ** The whole *)

Inductive Action :=
| Mint (base len : Z) (allocates : bool)
| MintFromInstall (item base len : Z) (allocates : bool)
| InstallPorts (item base len : Z)
| UninstallPorts (item base len : Z)
| MapInto (rid pid : Z)
| MapStep (i : nat) (allocates : bool)
| MapLocked (rid : Z)
| UnmapFrom (rid pid : Z) (c : nat) (gives_up : bool)
| RevokeRange (rid : Z) (c : nat) (gives_up : bool)
| GiveBackAll (pid : Z)
| GiveBackNext (pid : Z) (c : nat) (gives_up : bool)
| RoundOver (rid : Z) (confirmed : bool)
| RunTail (i : nat)
| DropRange (rid : Z)
| SwitchIn (c : nat) (pid : Z) (gives_up : bool)
| ToIdle (c : nat)
| Serve (c : nat) (gives_up : bool)
| Pull (c : nat) (gives_up : bool)
| NewProcess
| Teardown (pid : Z)
| LastReference (pid : Z).

Definition run (a : Action) : M Ports unit :=
  match a with
  | Mint base len allocates => mint base len allocates ;; mret tt
  | MintFromInstall item base len allocates => mint_from_install item base len allocates ;; mret tt
  | InstallPorts item base len => on_grants (install item base len) ;; mret tt
  | UninstallPorts item base len => on_grants (uninstall item base len) ;; mret tt
  | MapInto rid pid => map_into rid pid
  | MapStep i allocates => map_step i allocates ;; mret tt
  | MapLocked rid => map_locked rid ;; mret tt
  | UnmapFrom rid pid c gives_up => unmap_from rid pid c gives_up ;; mret tt
  | RevokeRange rid c gives_up => revoke rid c gives_up
  | GiveBackAll pid => give_back_all pid
  | GiveBackNext pid c gives_up => give_back pid c gives_up
  | RoundOver rid confirmed => round_over rid confirmed
  | RunTail i => run_tail i
  | DropRange rid => drop_range rid
  | SwitchIn c pid gives_up => switch_in c pid gives_up
  | ToIdle c => switch_to_idle c
  | Serve c gives_up => service c gives_up
  | Pull c gives_up => pull_on_gp c gives_up ;; mret tt
  | NewProcess => new_process ;; mret tt
  | Teardown pid => begin_teardown pid
  | LastReference pid => last_reference pid
  end.

(** *** When a step can happen *)

(** The range exists and nobody holds its lock. *)
Definition unlocked (rid : Z) (s : Ports) : bool :=
  match m_ranges s !! rid with Some r => bool_decide (r_taking r = None /\ r_mapping r = None) | None => false end.
Definition alive (pid : Z) (s : Ports) : bool :=
  match m_procs s !! pid with Some p => p_alive p | None => false end.
Definition core_exists (c : nat) (s : Ports) : bool := bool_decide (is_Some (m_cores s !! c)).
Definition u16 (z : Z) : bool := (0 <=? z) && (z <=? 65535).

Definition tail_range (t : Tail) : Z := match t with EndGrant rid _ => rid | Forget _ rid => rid end.
(** A list or an operation under way refers to the range. *)
Definition referenced (rid : Z) (s : Ports) : bool :=
  existsb (fun pp => bool_decide (rid ∈ items (p_mapped pp.2) ++ default [] (p_giving pp.2))) (map_to_list (m_procs s)) ||
  existsb (fun t => tail_range t =? rid) (m_todo s) || existsb (fun o => mp_rid o =? rid) (m_maps s).
(** A map into the process is under way; and one of those the teardown waits for. *)
Definition locked_for (pid : Z) (s : Ports) : bool :=
  existsb (fun rr => bool_decide (r_mapping rr.2 <> None /\ r_state rr.2 = Mapped pid)) (map_to_list (m_ranges s)).
Definition extending (pid : Z) (s : Ports) : bool :=
  existsb (fun o => (mp_pid o =? pid) && bool_decide (mp_at o = ToLock)) (m_maps s) || locked_for pid s.
Definition mapping_into (pid : Z) (s : Ports) : bool :=
  existsb (fun o => mp_pid o =? pid) (m_maps s) || locked_for pid s.

Definition enabled (a : Action) (s : Ports) : bool :=
  match a with
  | Mint base len _ | MintFromInstall _ base len _ | InstallPorts _ base len | UninstallPorts _ base len => u16 base && u16 len
  | MapInto rid pid => bool_decide (is_Some (m_ranges s !! rid)) && alive pid s
  | MapStep i _ => match m_maps s !! i with Some o => bool_decide (mp_at o <> ToLock) || unlocked (mp_rid o) s | None => false end
  | MapLocked rid => match m_ranges s !! rid with Some r => bool_decide (r_mapping r <> None) | None => false end
  | UnmapFrom rid pid c _ => unlocked rid s && alive pid s && core_exists c s
  | RevokeRange rid c _ => unlocked rid s && core_exists c s
  | GiveBackAll pid => match m_procs s !! pid with Some p => (p_terminating p && negb (extending pid s)) || negb (p_alive p) | None => false end
  | GiveBackNext pid c _ =>
      core_exists c s &&
      match m_procs s !! pid with
      | Some p => match p_giving p with Some (rid :: _) => unlocked rid s | _ => false end
      | None => false
      end
  | RoundOver rid confirmed =>
      match m_ranges s !! rid with
      | Some r =>
          match r_taking r with
          | Some t => if confirmed then bool_decide (dom (m_cores s) ⊆ tk_done t) else true
          | None => false
          end
      | None => false
      end
  | RunTail i => (i <? length (m_todo s))%nat
  | DropRange rid => unlocked rid s && negb (referenced rid s)
  | SwitchIn c pid _ => core_exists c s && alive pid s
  | ToIdle c | Serve c _ | Pull c _ => core_exists c s
  | NewProcess => true
  | Teardown pid => alive pid s
  | LastReference pid => alive pid s && negb (mapping_into pid s) && negb (existsb (fun ck => bool_decide (c_running ck.2 = Some pid)) (map_to_list (m_cores s)))
  end.

(** Steps that cannot happen are passed over. *)
Fixpoint run_ports (acts : list Action) (s : Ports) : option Ports :=
  match acts with
  | [] => Some s
  | a :: acts =>
      if enabled a s then match run a s with Some (_, s) => run_ports acts s | None => None end
      else run_ports acts s
  end.
