(* ===== verification/PortRangeSpans.v ===== *)
(** The table's side of the port ranges: every range that is granted has its span, every
    grant that ends does so once, and the ports a round left loose stay out of every
    later grant. Then the side of the lists of the processes. *)

From S2P Require Import Prelude PortGrants PortGrantsFacts PortBits PortBitsProps PortRange.

Definition covers (r : Range) (p : Z) : Prop := r_base r <= p < r_base r + r_len r.
(** Granted, or being taken back. *)
Definition live (r : Range) : Prop := r_state r <> Ended \/ r_taking r <> None.
Definition table_spans (t : Table) : list Span := items (spans t).
Definition has_span (t : Table) (rid : Z) (r : Range) : Prop := exists ret, mkSpan (r_base r) (r_base r + r_len r) rid ret ∈ table_spans t.

(** The grants that wait to be ended. *)
Definition ends (todo : list Tail) : list Z := omap (fun t => match t with EndGrant rid _ => Some rid | Forget _ _ => None end) todo.

Definition still_out (t : Table) (todo : list Tail) (x : Z * Z * Z) : Prop :=
  exists sp, sp ∈ table_spans t /\ span_range sp = (x.1.2, x.2) /\
    (sp_owner sp = RETIRED \/ (sp_returns sp = None /\ EndGrant (sp_owner sp) false ∈ todo)).

Record span_inv (t : Table) (rs : gmap Z Range) (todo : list Tail) (loose : list (Z * Z * Z)) (next : Z) : Prop := mk_span_inv {
  sv_table : table_ok t;
  sv_next : 0 < next;
  sv_owner : forall sp, sp ∈ table_spans t -> 0 <= sp_owner sp < next;
  sv_range : forall rid r, rs !! rid = Some r -> 0 < rid < next /\ ports_ok (r_base r) (r_len r);
  sv_span : forall rid r, rs !! rid = Some r -> live r -> has_span t rid r;
  sv_end : forall rid b, EndGrant rid b ∈ todo -> exists r, rs !! rid = Some r /\ ~ live r;
  sv_once : NoDup (ends todo);
  sv_loose : forall x, x ∈ loose -> still_out t todo x;
  sv_whose : forall x y p, x ∈ loose -> y ∈ loose -> in_range p (x.1.2, x.2) -> in_range p (y.1.2, y.2) -> x.1.1 = y.1.1;
}.

Lemma elem_of_ends todo rid : rid ∈ ends todo <-> exists b, EndGrant rid b ∈ todo.
Proof.
  unfold ends. rewrite list_elem_of_omap. split.
  - intros ([rid' b | pid rid'] & Hin & Heq); [| done]. injection Heq as ->. by exists b.
  - intros [b Hin]. by exists (EndGrant rid b).
Qed.

Lemma ends_app l1 l2 : ends (l1 ++ l2) = ends l1 ++ ends l2.
Proof. apply omap_app. Qed.

(** ** One span a port *)

Lemma span_unique t s1 s2 p :
  table_ok t -> s1 ∈ table_spans t -> s2 ∈ table_spans t -> in_range p (span_range s1) -> in_range p (span_range s2) -> s1 = s2.
Proof.
  intros [Hl _] [i Hi]%list_elem_of_lookup [j Hj]%list_elem_of_lookup H1 H2.
  pose proof (lk_once _ _ _ Hl p) as Ho. rewrite holders_app in Ho.
  assert (i = j) as ->; [| congruence].
  apply (holders_once (span_range <$> table_spans t) p i j (span_range s1) (span_range s2)); try done;
    [unfold table_spans; lia | |]; rewrite list_lookup_fmap; [by rewrite Hi | by rewrite Hj].
Qed.

(** Nothing the kernel keeps or drives is in a span. *)
Lemma span_kept t s p :
  table_ok t -> s ∈ table_spans t -> in_range p (span_range s) ->
  ~ kept (items (firmware t)) p /\ forall i, i ∈ items (installs t) -> ~ in_range p (install_range i).
Proof.
  intros [Hl _] Hs Hp. assert (1 <= holders (span_range <$> table_spans t) p)%nat as Hh.
  { apply (holders_in _ _ (span_range s)); [by apply list_elem_of_fmap_2 | done]. }
  unfold table_spans in Hh. split.
  - intros Hk. pose proof (lk_kept _ _ _ Hl p Hk). lia.
  - intros i Hi Hin. pose proof (lk_once _ _ _ Hl p) as Ho. rewrite holders_app in Ho.
    pose proof (holders_in (install_range <$> items (installs t)) p (install_range i) ltac:(by apply list_elem_of_fmap_2) Hin). lia.
Qed.

Lemma owner_unique t s1 s2 :
  table_ok t -> s1 ∈ table_spans t -> s2 ∈ table_spans t -> sp_owner s1 = sp_owner s2 -> sp_owner s1 <> RETIRED -> s1 = s2.
Proof.
  intros [Hl _] [l1 [l2 E]]%list_elem_of_split Hs2 Ho Hn. unfold table_spans in *. pose proof (lk_owner _ _ _ Hl) as Hnd.
  rewrite E in *. rewrite fmap_app, filter_app, fmap_cons, filter_cons, decide_True in Hnd by done.
  apply NoDup_app in Hnd as (_ & H1 & [H2 _]%NoDup_cons). apply elem_of_app in Hs2 as [Hin | [-> | Hin]%elem_of_cons]; [| done |]; exfalso.
  - apply (H1 (sp_owner s2)); [apply list_elem_of_filter; split; [congruence | by apply list_elem_of_fmap_2] |]. rewrite <- Ho. by left.
  - apply H2, list_elem_of_filter. split; [done |]. rewrite Ho. by apply list_elem_of_fmap_2.
Qed.

(** Two granted ranges share no port. *)
Lemma live_disjoint t rs todo loose next rid1 r1 rid2 r2 p :
  span_inv t rs todo loose next -> rs !! rid1 = Some r1 -> rs !! rid2 = Some r2 -> live r1 -> live r2 ->
  covers r1 p -> covers r2 p -> rid1 = rid2.
Proof.
  intros V H1 H2 L1 L2 C1 C2. destruct (sv_span _ _ _ _ _ V _ _ H1 L1) as [t1 Hs1]. destruct (sv_span _ _ _ _ _ V _ _ H2 L2) as [t2 Hs2].
  pose proof (span_unique t _ _ p (sv_table _ _ _ _ _ V) Hs1 Hs2 C1 C2). congruence.
Qed.

(** What is loose is nobody's range any more. *)
Lemma loose_not_live t rs todo loose next x rid r p :
  span_inv t rs todo loose next -> x ∈ loose -> in_range p (x.1.2, x.2) -> rs !! rid = Some r -> live r -> ~ covers r p.
Proof.
  intros V Hx Hp Hr Hl Hc. destruct (sv_loose _ _ _ _ _ V x Hx) as (sp & Hsp & Hrange & Hout).
  destruct (sv_span _ _ _ _ _ V _ _ Hr Hl) as [ret Hs]. pose proof (sv_range _ _ _ _ _ V _ _ Hr) as [Hid _].
  assert (sp = mkSpan (r_base r) (r_base r + r_len r) rid ret) as ->.
  { apply (span_unique t _ _ p (sv_table _ _ _ _ _ V)); [done | done | by rewrite Hrange | done]. }
  simpl in Hout. destruct Hout as [-> | [_ Hend]]; [unfold RETIRED in Hid; lia |].
  destruct (sv_end _ _ _ _ _ V _ _ Hend) as (r' & Hr' & Hn). by simplify_eq.
Qed.

(** ** Steps *)

Section steps.
Context (t : Table) (rs : gmap Z Range) (todo : list Tail) (loose : list (Z * Z * Z)) (next : Z).
Context (V : span_inv t rs todo loose next).

(** The spans stay as they are. *)
Lemma spans_same t' next' : table_ok t' -> table_spans t' = table_spans t -> next <= next' -> span_inv t' rs todo loose next'.
Proof using V.
  intros Ht E Hn. destruct V as [_ V0 V1 V2 V3 V4 V5 V6 V7]. unfold has_span, still_out in *. split; try done; rewrite ?E; try lia.
  - intros sp Hsp. specialize (V1 sp Hsp). lia.
  - intros rid r Hr. destruct (V2 _ _ Hr). split; [lia | done].
  - intros rid r Hr Hl. unfold has_span. rewrite E. by apply V3.
  - intros x Hx. unfold still_out. rewrite E. by apply V6.
Qed.

(** A new range with its grant. *)
Lemma spans_mint t' base len ret :
  table_ok t' -> ports_ok base len -> table_spans t' = table_spans t ++ [mkSpan base (base + len) next ret] ->
  span_inv t' (<[next := mkRange base len Idle None None]> rs) todo loose (next + 1).
Proof using V.
  intros Ht Hp E. pose proof V as [_ V0 V1 V2 V3 V4 V5 V6 V7].
  assert (rs !! next = None) as Hnew by (destruct (rs !! next) as [r |] eqn:E'; [destruct (V2 _ _ E'); lia | done]).
  split; try done; try lia.
  - intros sp. rewrite E, elem_of_app, list_elem_of_singleton. intros [Hin%V1 | ->]; simpl; lia.
  - intros rid r [[<- <-] | [_ Hr]]%lookup_insert_Some; [split; [lia | done] |]. destruct (V2 _ _ Hr). split; [lia | done].
  - intros rid r [[<- <-] | [_ Hr]]%lookup_insert_Some Hl; unfold has_span; rewrite E.
    + exists ret. apply elem_of_app. right. by left.
    + destruct (V3 _ _ Hr Hl) as [ret' Hin]. exists ret'. apply elem_of_app. by left.
  - intros rid b Hin. destruct (V4 _ _ Hin) as (r & Hr & Hn). exists r. split; [| done]. rewrite lookup_insert_ne; [done | congruence].
  - intros x Hx. destruct (V6 x Hx) as (sp & Hsp & Hrest). exists sp. rewrite E. split; [apply elem_of_app; by left | done].
Qed.

(** A granted range moves on and stays granted, or is being taken back. *)
Lemma spans_move rid r r' :
  rs !! rid = Some r -> live r -> r_base r' = r_base r -> r_len r' = r_len r -> span_inv t (<[rid := r']> rs) todo loose next.
Proof using V.
  intros Hr Hl Eb El. pose proof V as [Vt V0 V1 V2 V3 V4 V5 V6 V7]. split; try done.
  - intros rid' r1 [[<- <-] | [_ Hr1]]%lookup_insert_Some; [rewrite Eb, El; by apply V2 | by apply V2].
  - intros rid' r1 [[<- <-] | [_ Hr1]]%lookup_insert_Some Hl1; [unfold has_span; rewrite Eb, El; by apply V3 | by apply V3].
  - intros rid' b Hin. destruct (V4 _ _ Hin) as (r1 & Hr1 & Hn). exists r1. split; [| done].
    rewrite lookup_insert_ne; [done |]. intros ->. by simplify_eq.
Qed.

(** The cores look at their copies. *)
Lemma spans_looked which c : span_inv t (looked which c <$> rs) todo loose next.
Proof using V.
  assert (forall r, live (looked which c r) <-> live r) as Hlive by (intros r; unfold live, looked; simpl; destruct (r_taking r); naive_solver).
  pose proof V as [Vt V0 V1 V2 V3 V4 V5 V6 V7]. split; try done.
  - intros rid r' (r & <- & Hr)%lookup_fmap_Some. by apply (V2 _ r).
  - intros rid r' (r & <- & Hr)%lookup_fmap_Some Hl. by apply (V3 _ r Hr), Hlive.
  - intros rid b Hin. destruct (V4 _ _ Hin) as (r & Hr & Hn). exists (looked which c r). split; [by rewrite lookup_fmap, Hr | by rewrite Hlive].
Qed.

(** A range's end is put down, once. *)
Lemma spans_ended rid r r' b tails :
  rs !! rid = Some r -> live r -> r_base r' = r_base r -> r_len r' = r_len r -> ~ live r' ->
  (forall x, x ∈ tails -> exists pid rid, x = Forget pid rid) ->
  span_inv t (<[rid := r']> rs) (todo ++ EndGrant rid b :: tails) loose next.
Proof using V.
  intros Hr Hl Eb El Hn Htails. destruct (spans_move rid r r' Hr Hl Eb El) as [Vt V0 V1 V2 V3 V4 V5 V6 V7].
  assert (ends tails = []) as Et.
  { unfold ends. clear - Htails. induction tails as [| x tails IH]; [done |]. destruct (Htails x) as (pid & rid & ->); [by left |].
    simpl. apply IH. intros y Hy. apply Htails. by right. }
  split; try done.
  - intros rid' b' [Hin | [Heq | Hin]%elem_of_cons]%elem_of_app; [by apply (V4 _ b') | | by destruct (Htails _ Hin) as (? & ? & ?)].
    injection Heq as -> ->. exists r'. by rewrite lookup_insert_eq.
  - rewrite ends_app. simpl. rewrite Et. apply NoDup_snoc. split; [| done]. rewrite elem_of_ends. intros [b' Hin].
    destruct (sv_end _ _ _ _ _ V _ _ Hin) as (r1 & Hr1 & Hn1). by simplify_eq.
  - intros x Hx. destruct (V6 x Hx) as (sp & Hsp & E & Hout). exists sp. split; [done |]. split; [done |].
    destruct Hout as [| [? Hin]]; [by left | right]. split; [done |]. apply elem_of_app. by left.
Qed.

(** Only its own list forgets a range. *)
Lemma spans_more_forgets pid rid : span_inv t rs (todo ++ [Forget pid rid]) loose next.
Proof using V.
  pose proof V as [Vt V0 V1 V2 V3 V4 V5 V6 V7]. split; try done.
  - intros rid' b [Hin | ?%list_elem_of_singleton]%elem_of_app; [by apply (V4 _ b) | done].
  - rewrite ends_app. simpl. by rewrite app_nil_r.
  - intros x Hx. destruct (V6 x Hx) as (sp & Hsp & E & Hout). exists sp. split; [done |]. split; [done |].
    destruct Hout as [| [? Hin]]; [by left | right]. split; [done |]. apply elem_of_app. by left.
Qed.

Lemma spans_fewer_forgets rest pid rid : todo ≡ₚ Forget pid rid :: rest -> span_inv t rs rest loose next.
Proof using V.
  intros Hp. pose proof V as [Vt V0 V1 V2 V3 V4 V5 V6 V7].
  assert (forall rid b, EndGrant rid b ∈ rest <-> EndGrant rid b ∈ todo) as Hsame.
  { intros rid' b. rewrite Hp, elem_of_cons. naive_solver. }
  split; try done.
  - intros rid' b Hin%Hsame. by apply (V4 _ b).
  - unfold ends in *. by rewrite Hp in V5.
  - intros x Hx. destruct (V6 x Hx) as (sp & Hsp & E & Hout). exists sp. rewrite Hsame. done.
Qed.

(** The ports of a round that was not confirmed. *)
Lemma spans_loose rid r pid :
  rs !! rid = Some r -> EndGrant rid false ∈ todo -> has_span t rid r ->
  (forall sp, sp ∈ table_spans t -> sp_owner sp = rid -> sp_returns sp = None) ->
  (forall x p, x ∈ loose -> in_range p (x.1.2, x.2) -> ~ covers r p) ->
  span_inv t rs todo (loose ++ [(pid, r_base r, r_base r + r_len r)]) next.
Proof using V.
  intros Hr Hend [ret Hs] Hret Hfree. pose proof V as [Vt V0 V1 V2 V3 V4 V5 V6 V7]. split; try done.
  - intros x [Hx | ->%list_elem_of_singleton]%elem_of_app; [by apply V6 |]. eexists. split; [exact Hs |]. split; [done |].
    right. split; [by apply (Hret _ Hs) | done].
  - intros x y p [Hx | ->%list_elem_of_singleton]%elem_of_app [Hy | ->%list_elem_of_singleton]%elem_of_app Hpx Hpy; try done.
    + by apply (V7 x y p).
    + by destruct (Hfree x p Hx Hpx).
    + by destruct (Hfree y p Hy Hpy).
Qed.

(** A grant ends: its span is gone or retired. *)
Lemma spans_end_grant g g' rest rid b :
  table g = t -> ended g rid b g' -> todo ≡ₚ EndGrant rid b :: rest -> span_inv (table g') rs rest loose next.
Proof using V.
  intros Eg (Ht' & _ & Hspans) Hp. rewrite Eg in Hspans. pose proof V as [Vt V0 V1 V2 V3 V4 V5 V6 V7].
  assert (0 < rid) as Hid by (destruct (V4 rid b) as (r & Hr & _); [rewrite Hp; by left |]; apply V2 in Hr as [? _]; lia).
  assert (forall rid' b', EndGrant rid' b' ∈ todo -> rid' = rid -> b' = b) as Hsame.
  { intros rid' b' Hin ->. unfold ends in V5. rewrite Hp in V5, Hin. simpl in V5. apply NoDup_cons in V5 as [Hnot _].
    apply elem_of_cons in Hin as [Heq | Hin]; [congruence |]. destruct Hnot. apply (elem_of_ends rest). by exists b'. }
  assert (forall sp, sp ∈ table_spans (table g') -> sp ∈ table_spans t \/ sp_owner sp = RETIRED) as Hsub.
  { intros sp. unfold table_spans. destruct Hspans as [[_ ->] | (at_ & s & Hat & Hown & [[-> _] | [-> _]])]; [by left | |].
    - intros Hin. left. rewrite (swap_remove_perm _ _ _ Hat). by right.
    - rewrite (insert_perm _ _ _ _ Hat). intros [-> | Hin]%elem_of_cons; [by right | left]. rewrite (delete_Permutation _ _ _ Hat). by right. }
  assert (forall sp, sp ∈ table_spans t -> sp_owner sp <> rid -> sp ∈ table_spans (table g')) as Hsup.
  { intros sp Hin Hne. unfold table_spans in *. destruct Hspans as [[_ ->] | (at_ & s & Hat & Hown & [[-> _] | [-> _]])]; [done | |].
    - rewrite (swap_remove_perm _ _ _ Hat) in Hin. apply elem_of_cons in Hin as [-> |]; done.
    - rewrite (insert_perm _ _ _ _ Hat). right. rewrite (delete_Permutation _ _ _ Hat) in Hin. apply elem_of_cons in Hin as [-> |]; done. }
  split; try done.
  - intros sp [Hin | ->]%Hsub; [by apply V1 | unfold RETIRED; lia].
  - intros rid' r Hr Hl. destruct (V3 _ _ Hr Hl) as [ret Hin]. exists ret. apply Hsup; [done |]. simpl. intros ->.
    destruct (V4 rid b) as (r' & Hr' & Hn); [rewrite Hp; by left |]. by simplify_eq.
  - intros rid' b' Hin. apply (V4 _ b'). rewrite Hp. by right.
  - unfold ends in V5. rewrite Hp in V5. by apply NoDup_cons in V5 as [_ ?].
  - intros x Hx. destruct (V6 x Hx) as (sp & Hsp & E & Hout). destruct (decide (sp_owner sp = rid)) as [Ho | Ho].
    + destruct Hout as [Hr | [Hret Hend]]; [unfold RETIRED in Hr; lia |]. apply (Hsame _ _ Hend) in Ho as Hb. subst b.
      destruct Hspans as [[Hnot _] | (at_ & s & Hat & Hown & Hcase)]; [destruct Hnot; rewrite <- Ho; by apply list_elem_of_fmap_2 |].
      assert (s = sp) as -> by (apply (owner_unique t); try done; [by eapply list_elem_of_lookup_2 | congruence | unfold RETIRED; lia]).
      destruct Hcase as [[_ Hb] | [Hnew _]]; [by specialize (Hb Hret) |].
      exists (mkSpan (sp_base sp) (sp_end sp) RETIRED (sp_returns sp)). unfold table_spans. rewrite Hnew, (insert_perm _ _ _ _ Hat).
      split; [by left |]. split; [done | by left].
    + exists sp. split; [by apply Hsup |]. split; [done |]. destruct Hout as [| [? Hin]]; [by left | right]. split; [done |].
      rewrite Hp in Hin. apply elem_of_cons in Hin as [Heq | Hin]; [congruence | done].
Qed.

(** A range that nothing refers to is gone, and its grant with it. *)
Lemma spans_gone rid r : rs !! rid = Some r -> ~ live r -> rid ∉ ends todo -> span_inv t (delete rid rs) todo loose next.
Proof using V.
  intros Hr Hn Hnot. pose proof V as [Vt V0 V1 V2 V3 V4 V5 V6 V7]. split; try done.
  - intros rid' r' [_ Hr']%lookup_delete_Some. by apply V2.
  - intros rid' r' [_ Hr']%lookup_delete_Some. by apply V3.
  - intros rid' b Hin. destruct (V4 _ _ Hin) as (r' & Hr' & Hn'). exists r'. split; [| done].
    rewrite lookup_delete_ne; [done |]. intros ->. apply Hnot, elem_of_ends. by exists b.
Qed.

End steps.

(** * The lists' side of the port ranges: a range mapped into a process is on its list as often
    as it is mapped and still to be forgotten, or among what the teardown took off the list; so a
    range nothing refers to is mapped nowhere. *)

#[export] Instance tail_eq_dec : EqDecision Tail.
Proof. solve_decision. Defined.

Definition cnt {A} `{EqDecision A} (x : A) (l : list A) : nat := length (base.filter (fun y => y = x) l).

Lemma cnt_cons {A} `{EqDecision A} (x y : A) l : cnt x (y :: l) = ((if decide (y = x) then 1 else 0) + cnt x l)%nat.
Proof. unfold cnt. rewrite filter_cons. by case_decide. Qed.

Lemma cnt_app {A} `{EqDecision A} (x : A) l1 l2 : cnt x (l1 ++ l2) = (cnt x l1 + cnt x l2)%nat.
Proof. unfold cnt. by rewrite filter_app, length_app. Qed.

#[export] Instance cnt_proper {A} `{EqDecision A} (x : A) : Proper ((≡ₚ) ==> (=)) (cnt x).
Proof. intros l1 l2 Hp. unfold cnt. by rewrite Hp. Qed.

Lemma cnt_pos {A} `{EqDecision A} (x : A) l : (0 < cnt x l)%nat -> x ∈ l.
Proof. unfold cnt. destruct (base.filter _ l) as [| y k] eqn:E; simpl; [lia |]. intros _. assert (y ∈ base.filter (fun y => y = x) l) as [-> Hin]%list_elem_of_filter by (rewrite E; by left). done. Qed.

(** Whether the range is on the list of [pid] for its mapping. A range that is being mapped
    is not yet, and one the teardown gives back no longer is. *)
Definition held (o : option Range) (pid : Z) : bool :=
  match o with
  | Some r =>
      match r_taking r with
      | Some t => match tk_why t with GiveBack => false | _ => tk_pid t =? pid end
      | None => bool_decide (r_state r = Mapped pid /\ r_mapping r = None)
      end
  | None => false
  end.
Definition owed (rs : gmap Z Range) (todo : list Tail) (pid rid : Z) : nat :=
  ((if held (rs !! rid) pid then 1 else 0) + cnt (Forget pid rid) todo)%nat.
Definition refers (P : Proc) : list Z := items (p_mapped P) ++ default [] (p_giving P).

Record list_inv (ps : gmap Z Proc) (rs : gmap Z Range) (todo : list Tail) : Prop := mk_list_inv {
  lv_vec : forall pid P, ps !! pid = Some P -> vec_wf (p_mapped P);
  lv_known : forall pid P rid, ps !! pid = Some P -> rid ∈ refers P -> is_Some (rs !! rid);
  lv_going : forall pid P, ps !! pid = Some P -> p_giving P <> None -> p_terminating P = true \/ p_alive P = false;
  lv_mapped : forall pid P rid, ps !! pid = Some P -> p_giving P = None -> (owed rs todo pid rid <= cnt rid (items (p_mapped P)))%nat;
  lv_giving : forall pid P l rid, ps !! pid = Some P -> p_giving P = Some l -> held (rs !! rid) pid = true -> rid ∈ l;
  lv_forget : forall pid rid, Forget pid rid ∈ todo -> is_Some (ps !! pid);
}.

Section steps.
Context (ps : gmap Z Proc) (rs : gmap Z Range) (todo : list Tail) (V : list_inv ps rs todo).

(** Less is owed, and what is referred to stays. *)
Lemma lists_less rs' todo' :
  (forall pid rid, (owed rs' todo' pid rid <= owed rs todo pid rid)%nat) ->
  (forall pid rid, held (rs' !! rid) pid = true -> held (rs !! rid) pid = true) ->
  (forall pid P rid, ps !! pid = Some P -> rid ∈ refers P -> is_Some (rs !! rid) -> is_Some (rs' !! rid)) ->
  (forall pid rid, Forget pid rid ∈ todo' -> Forget pid rid ∈ todo \/ is_Some (ps !! pid)) -> list_inv ps rs' todo'.
Proof using V.
  intros Ho Hh Hk Hf. destruct V as [V1 V2 V3 V4 V5 V6]. split; try done.
  - intros pid P rid HP Hin. apply (Hk pid P); [done | done |]. by apply (V2 pid P).
  - intros pid P rid HP Hn. specialize (V4 pid P rid HP Hn). specialize (Ho pid rid). lia.
  - intros pid P l rid HP Hl Hd. apply (V5 pid P l rid HP Hl). by apply Hh.
  - intros pid rid Hin. destruct (Hf pid rid Hin) as [?%V6 |]; done.
Qed.

Lemma lists_proc pid P P' :
  ps !! pid = Some P -> items (p_mapped P') = items (p_mapped P) -> p_giving P' = p_giving P -> vec_wf (p_mapped P') ->
  (p_terminating P = true -> p_terminating P' = true) -> (p_alive P = false -> p_alive P' = false) -> list_inv (<[pid := P']> ps) rs todo.
Proof using V.
  intros HP Em Eg Hv Ht Ha. destruct V as [V1 V2 V3 V4 V5 V6]. split.
  - intros pid' Q [[<- <-] | [_ HQ]]%lookup_insert_Some; [done | by apply (V1 pid')].
  - intros pid' Q rid [[<- <-] | [_ HQ]]%lookup_insert_Some; [unfold refers; rewrite Em, Eg; by apply (V2 pid P) | by apply (V2 pid')].
  - intros pid' Q [[<- <-] | [_ HQ]]%lookup_insert_Some; [| by apply (V3 pid')]. rewrite Eg. intros [|]%(V3 pid P HP); auto.
  - intros pid' Q rid [[<- <-] | [_ HQ]]%lookup_insert_Some; [rewrite Eg, Em; by apply (V4 pid P) | by apply (V4 pid')].
  - intros pid' Q l rid [[<- <-] | [_ HQ]]%lookup_insert_Some; [rewrite Eg; by apply (V5 pid P) | by apply (V5 pid')].
  - intros pid' rid Hin%V6. destruct (decide (pid = pid')) as [<- |]; [by rewrite lookup_insert_eq | by rewrite lookup_insert_ne].
Qed.

Lemma lists_new_proc pid P :
  ps !! pid = None -> p_mapped P = vec_new -> p_giving P = None -> (forall rid, held (rs !! rid) pid = false) -> list_inv (<[pid := P]> ps) rs todo.
Proof using V.
  intros Hn Em Eg Hh. destruct V as [V1 V2 V3 V4 V5 V6].
  assert (forall rid, cnt (Forget pid rid) todo = 0%nat) as Hf.
  { intros rid. destruct (decide (0 < cnt (Forget pid rid) todo)%nat) as [Hc%cnt_pos%V6 |]; [| lia]. rewrite Hn in Hc. by destruct Hc. }
  split.
  - intros pid' Q [[<- <-] | [_ HQ]]%lookup_insert_Some; [rewrite Em; unfold vec_wf, vec_len; simpl; lia | by apply (V1 pid')].
  - intros pid' Q rid [[<- <-] | [_ HQ]]%lookup_insert_Some; [unfold refers; rewrite Em, Eg; by intros ?%elem_of_nil | by apply (V2 pid')].
  - intros pid' Q [[<- <-] | [_ HQ]]%lookup_insert_Some; [done | by apply (V3 pid')].
  - intros pid' Q rid [[<- <-] | [_ HQ]]%lookup_insert_Some; [| by apply (V4 pid')]. unfold owed. rewrite Hh, Hf. lia.
  - intros pid' Q l rid [[<- <-] | [_ HQ]]%lookup_insert_Some; [congruence | by apply (V5 pid')].
  - intros pid' rid Hin%V6. destruct (decide (pid = pid')) as [<- |]; [by rewrite lookup_insert_eq | by rewrite lookup_insert_ne].
Qed.

Lemma lists_map pid P P' rid r r' :
  ps !! pid = Some P -> p_giving P = None -> vec_wf (p_mapped P') ->
  items (p_mapped P') = items (p_mapped P) ++ [rid] -> p_giving P' = p_giving P ->
  rs !! rid = Some r -> (forall pid', held (Some r') pid' = (pid =? pid')) -> list_inv (<[pid := P']> ps) (<[rid := r']> rs) todo.
Proof using V.
  intros HP Hn Hv Em Eg Hr Hh. destruct V as [V1 V2 V3 V4 V5 V6].
  assert (forall rid', is_Some (rs !! rid') -> is_Some (<[rid := r']> rs !! rid')) as Hsome.
  { intros rid' Hs. destruct (decide (rid = rid')) as [<- |]; [by rewrite lookup_insert_eq | by rewrite lookup_insert_ne]. }
  split.
  - intros pid' Q [[<- <-] | [_ HQ]]%lookup_insert_Some; [done | by apply (V1 pid')].
  - intros pid' Q rid' [[<- <-] | [_ HQ]]%lookup_insert_Some; [| intros Hin; by apply Hsome, (V2 pid' Q)].
    unfold refers. rewrite Em, Eg, Hn. simpl. rewrite app_nil_r. intros [Hin | ->%list_elem_of_singleton]%elem_of_app;
      [apply Hsome, (V2 pid P); [done | unfold refers; rewrite elem_of_app; by left] | apply Hsome; eauto].
  - intros pid' Q [[<- <-] | [_ HQ]]%lookup_insert_Some; [congruence | by apply (V3 pid')].
  - intros pid' Q rid' [[<- <-] | [Hne HQ]]%lookup_insert_Some Hg; unfold owed.
    + rewrite Em, cnt_app, cnt_cons. specialize (V4 pid P rid' HP Hn). unfold owed in V4. destruct (decide (rid = rid')) as [<- | Hne].
      * rewrite lookup_insert_eq, Hh, Z.eqb_refl. lia.
      * rewrite lookup_insert_ne by done. lia.
    + specialize (V4 pid' Q rid' HQ Hg). unfold owed in V4. destruct (decide (rid = rid')) as [<- | Hner]; [| by rewrite lookup_insert_ne].
      rewrite lookup_insert_eq, Hh, (proj2 (Z.eqb_neq _ _)) by done. lia.
  - intros pid' Q l rid' [[<- <-] | [Hne HQ]]%lookup_insert_Some Hg; [congruence |]. destruct (decide (rid = rid')) as [<- | Hner].
    + rewrite lookup_insert_eq, Hh, (proj2 (Z.eqb_neq _ _)) by done. done.
    + rewrite lookup_insert_ne by done. by apply (V5 pid' Q).
  - intros pid' rid' Hin%V6. destruct (decide (pid = pid')) as [<- |]; [by rewrite lookup_insert_eq | by rewrite lookup_insert_ne].
Qed.

(** [give_back_all] takes the list. *)
Lemma lists_give_all pid P P' :
  ps !! pid = Some P -> (p_terminating P' = true \/ p_alive P' = false) -> p_mapped P' = vec_new ->
  p_giving P' = Some (default [] (p_giving P) ++ items (p_mapped P)) -> list_inv (<[pid := P']> ps) rs todo.
Proof using V.
  intros HP Ht Em Eg. destruct V as [V1 V2 V3 V4 V5 V6]. split.
  - intros pid' Q [[<- <-] | [_ HQ]]%lookup_insert_Some; [rewrite Em; unfold vec_wf, vec_len; simpl; lia | by apply (V1 pid')].
  - intros pid' Q rid [[<- <-] | [_ HQ]]%lookup_insert_Some; [| by apply (V2 pid')]. unfold refers. rewrite Em, Eg. simpl.
    intros Hin. apply (V2 pid P rid HP). unfold refers. rewrite elem_of_app in *. destruct Hin; auto.
  - intros pid' Q [[<- <-] | [_ HQ]]%lookup_insert_Some; [done | by apply (V3 pid')].
  - intros pid' Q rid [[<- <-] | [_ HQ]]%lookup_insert_Some; [congruence | by apply (V4 pid')].
  - intros pid' Q l rid [[<- <-] | [_ HQ]]%lookup_insert_Some; [| by apply (V5 pid')]. rewrite Eg. intros [= <-] Hd. apply elem_of_app.
    destruct (p_giving P) as [l |] eqn:E; [left; by apply (V5 pid P) |]. right. apply cnt_pos.
    specialize (V4 pid P rid HP E). unfold owed in V4. rewrite Hd in V4. lia.
  - intros pid' rid Hin%V6. destruct (decide (pid = pid')) as [<- |]; [by rewrite lookup_insert_eq | by rewrite lookup_insert_ne].
Qed.

(** The next of what was taken; it is no longer held by the process. *)
Lemma lists_give_one pid P P' rid rest rs' :
  ps !! pid = Some P -> p_giving P = Some (rid :: rest) -> p_giving P' = Some rest -> p_mapped P' = p_mapped P ->
  p_terminating P' = p_terminating P -> p_alive P' = p_alive P ->
  (forall rid', is_Some (rs !! rid') -> is_Some (rs' !! rid')) -> (forall pid' rid', held (rs' !! rid') pid' = true -> held (rs !! rid') pid' = true) ->
  held (rs' !! rid) pid = false -> list_inv (<[pid := P']> ps) rs' todo.
Proof using V.
  intros HP Eg Eg' Em Et Ea Hk Hh Hno. destruct V as [V1 V2 V3 V4 V5 V6]. split.
  - intros pid' Q [[<- <-] | [_ HQ]]%lookup_insert_Some; [rewrite Em; by apply (V1 pid) | by apply (V1 pid')].
  - intros pid' Q rid' [[<- <-] | [_ HQ]]%lookup_insert_Some Hin; apply Hk; [| by apply (V2 pid' Q)]. apply (V2 pid P rid' HP).
    unfold refers in *. rewrite Em, Eg' in Hin. rewrite Eg. simpl in *. rewrite elem_of_app in *. rewrite elem_of_cons. destruct Hin; auto.
  - intros pid' Q [[<- <-] | [_ HQ]]%lookup_insert_Some; [| by apply (V3 pid')]. rewrite Et, Ea. intros _. apply (V3 pid P HP). by rewrite Eg.
  - intros pid' Q rid' [[<- <-] | [_ HQ]]%lookup_insert_Some; [congruence |]. intros Hg. specialize (V4 pid' Q rid' HQ Hg).
    unfold owed in *. specialize (Hh pid' rid'). destruct (held (rs' !! rid') pid'); [rewrite Hh in V4 by done; done | lia].
  - intros pid' Q l rid' [[<- <-] | [_ HQ]]%lookup_insert_Some Hg Hd; [| apply (V5 pid' Q); auto]. rewrite Eg' in Hg. injection Hg as <-.
    pose proof (V5 pid P _ rid' HP Eg (Hh _ _ Hd)) as [-> | Hin]%elem_of_cons; [congruence | done].
  - intros pid' rid' Hin%V6. destruct (decide (pid = pid')) as [<- |]; [by rewrite lookup_insert_eq | by rewrite lookup_insert_ne].
Qed.

(** A range comes off the list. *)
Lemma lists_forget pid P rid rest P' :
  ps !! pid = Some P -> todo ≡ₚ Forget pid rid :: rest -> p_giving P' = p_giving P -> p_terminating P' = p_terminating P -> p_alive P' = p_alive P ->
  vec_wf (p_mapped P') -> (items (p_mapped P) ≡ₚ rid :: items (p_mapped P') \/ (rid ∉ items (p_mapped P) /\ items (p_mapped P') = items (p_mapped P))) ->
  list_inv (<[pid := P']> ps) rs rest.
Proof using V.
  intros HP Hp Eg Et Ea Hv Hm. destruct V as [V1 V2 V3 V4 V5 V6].
  assert (forall x, x ∈ items (p_mapped P') -> x ∈ items (p_mapped P)) as Hsub.
  { intros x. destruct Hm as [-> | [_ ->]]; [by right | done]. }
  split.
  - intros pid' Q [[<- <-] | [_ HQ]]%lookup_insert_Some; [done | by apply (V1 pid')].
  - intros pid' Q rid' [[<- <-] | [_ HQ]]%lookup_insert_Some; [| by apply (V2 pid')]. unfold refers. rewrite Eg. intros Hin.
    apply (V2 pid P rid' HP). unfold refers. rewrite elem_of_app in *. destruct Hin; auto.
  - intros pid' Q [[<- <-] | [_ HQ]]%lookup_insert_Some; [rewrite Et, Ea, Eg; by apply (V3 pid P) | by apply (V3 pid')].
  - intros pid' Q rid' [[<- <-] | [Hne HQ]]%lookup_insert_Some Hg; unfold owed in *.
    + rewrite Eg in Hg. pose proof (V4 pid P rid' HP Hg) as H. rewrite Hp, cnt_cons in H. destruct Hm as [Hm | [Hnot Hm]].
      * rewrite Hm, cnt_cons in H. destruct (decide (rid = rid')) as [<- |]; [rewrite decide_True in H by done |]; [lia |].
        rewrite decide_False in H by congruence. lia.
      * rewrite Hm. destruct (decide (rid = rid')) as [<- |]; [rewrite decide_True in H by done |]; [lia |].
        rewrite decide_False in H by congruence. lia.
    + pose proof (V4 pid' Q rid' HQ Hg) as H. rewrite Hp, cnt_cons in H. lia.
  - intros pid' Q l rid' [[<- <-] | [_ HQ]]%lookup_insert_Some; [rewrite Eg; by apply (V5 pid P) | by apply (V5 pid')].
  - intros pid' rid' Hin. assert (is_Some (ps !! pid')) as Hs by (apply (V6 pid' rid'); rewrite Hp; by right).
    destruct (decide (pid = pid')) as [<- |]; [by rewrite lookup_insert_eq | by rewrite lookup_insert_ne].
Qed.

End steps.

(** * The maps under way: each has its range and a live process, with the bitmap once it is
    past [ensure_bitmap], and holds the process's teardown off its list from its guard on. *)

Definition may_extend (at_ : MapAt) (P : Proc) : Prop :=
  p_alive P = true /\ (at_ <> ToBitmap -> p_bits P = true) /\ (at_ = ToLock -> p_giving P = None).

Record maps_inv (ps : gmap Z Proc) (rs : gmap Z Range) (maps : list MapOp) : Prop := mk_maps_inv {
  mv_op : forall o, o ∈ maps -> is_Some (rs !! mp_rid o) /\ exists P, ps !! mp_pid o = Some P /\ may_extend (mp_at o) P;
  mv_range : forall rid r, rs !! rid = Some r -> r_mapping r <> None ->
    r_taking r = None /\ exists pid P, r_state r = Mapped pid /\ ps !! pid = Some P /\ may_extend ToLock P;
}.

Section maps.
Context (ps : gmap Z Proc) (rs : gmap Z Range) (maps : list MapOp) (V : maps_inv ps rs maps).

Lemma maps_proc pid P P' :
  ps !! pid = Some P ->
  (forall o, o ∈ maps -> mp_pid o = pid -> may_extend (mp_at o) P -> may_extend (mp_at o) P') ->
  (forall rid r, rs !! rid = Some r -> r_mapping r <> None -> r_state r = Mapped pid -> may_extend ToLock P -> may_extend ToLock P') ->
  maps_inv (<[pid := P']> ps) rs maps.
Proof using V.
  intros HP Ho Hr. destruct V as [V1 V2]. split.
  - intros o Hin. destruct (V1 o Hin) as (Hs & Q & HQ & Hm). split; [done |]. destruct (decide (pid = mp_pid o)) as [-> |].
    + exists P'. rewrite lookup_insert_eq. split; [done |]. apply Ho; [done | done |]. by simplify_eq.
    + exists Q. by rewrite lookup_insert_ne.
  - intros rid r Hrid Hmap. destruct (V2 rid r Hrid Hmap) as (Hn & pid' & Q & Hs & HQ & Hm). split; [done |]. exists pid'.
    destruct (decide (pid = pid')) as [-> |].
    + exists P'. rewrite lookup_insert_eq. split_and!; [done | done |]. apply (Hr rid r); [done .. |]. by simplify_eq.
    + exists Q. by rewrite lookup_insert_ne.
Qed.

(** The process stays as far as the maps look at it. *)
Lemma maps_proc_same pid P P' :
  ps !! pid = Some P -> p_alive P' = p_alive P -> (p_bits P = true -> p_bits P' = true) -> (p_giving P = None -> p_giving P' = None) ->
  maps_inv (<[pid := P']> ps) rs maps.
Proof using V.
  intros HP Ea Eb Eg. assert (forall at_, may_extend at_ P -> may_extend at_ P') as Hm; [| by apply (maps_proc pid P); auto].
  intros at_ (Ha & Hb & Hg). split_and!; [congruence | auto ..].
Qed.

Lemma maps_new_proc pid P : ps !! pid = None -> maps_inv (<[pid := P]> ps) rs maps.
Proof using V.
  intros Hn. destruct V as [V1 V2]. split.
  - intros o Hin. destruct (V1 o Hin) as (Hs & Q & HQ & Hm). split; [done |]. exists Q. rewrite lookup_insert_ne; [done | congruence].
  - intros rid r Hrid Hmap. destruct (V2 rid r Hrid Hmap) as (Ht & pid' & Q & Hs & HQ & Hm). split; [done |]. exists pid', Q.
    rewrite lookup_insert_ne; [done | congruence].
Qed.

Lemma maps_ranges rs' :
  (forall o, o ∈ maps -> is_Some (rs !! mp_rid o) -> is_Some (rs' !! mp_rid o)) ->
  (forall rid r, rs' !! rid = Some r -> r_mapping r <> None ->
     exists r0, rs !! rid = Some r0 /\ r_mapping r0 <> None /\ (r_taking r0 = None -> r_taking r = None) /\ r_state r = r_state r0) ->
  maps_inv ps rs' maps.
Proof using V.
  intros Hk Hr. destruct V as [V1 V2]. split.
  - intros o Hin. destruct (V1 o Hin) as (Hs & HP). split; [by apply Hk | done].
  - intros rid r Hrid Hmap. destruct (Hr rid r Hrid Hmap) as (r0 & Hr0 & Hm0 & Ht & ->). destruct (V2 rid r0 Hr0 Hm0) as (Hn & HP). auto.
Qed.

Lemma maps_range rid r' : r_mapping r' = None -> maps_inv ps (<[rid := r']> rs) maps.
Proof using V.
  intros Hn. apply maps_ranges.
  - intros o _ Hs. destruct (decide (rid = mp_rid o)) as [<- |]; [by rewrite lookup_insert_eq | by rewrite lookup_insert_ne].
  - intros rid' r [[<- <-] | [_ Hr]]%lookup_insert_Some Hm; [done |]. by exists r.
Qed.

Lemma maps_locked rid r pid P b :
  r_taking r = None -> r_state r = Mapped pid -> ps !! pid = Some P -> may_extend ToLock P ->
  maps_inv ps (<[rid := mkRange (r_base r) (r_len r) (Mapped pid) None (Some b)]> rs) maps.
Proof using V.
  intros Ht Hs HP Hm. destruct V as [V1 V2]. split.
  - intros o Hin. destruct (V1 o Hin) as (Hsome & HQ). split; [| done].
    destruct (decide (rid = mp_rid o)) as [<- |]; [by rewrite lookup_insert_eq | by rewrite lookup_insert_ne].
  - intros rid' r1 [[<- <-] | [_ Hr1]]%lookup_insert_Some Hmap; [split; [done |]; by exists pid, P | by apply (V2 rid')].
Qed.

Lemma maps_fewer i : maps_inv ps rs (delete i maps).
Proof using V.
  destruct V as [V1 V2]. split; [| done]. intros o [j Hj]%list_elem_of_lookup. apply V1. rewrite list_lookup_delete in Hj.
  case_decide; by eapply list_elem_of_lookup_2.
Qed.

Lemma maps_more o P : is_Some (rs !! mp_rid o) -> ps !! mp_pid o = Some P -> may_extend (mp_at o) P -> maps_inv ps rs (maps ++ [o]).
Proof using V.
  intros Hs HP Hm. destruct V as [V1 V2]. split; [| done]. intros o' [Hin | ->%list_elem_of_singleton]%elem_of_app; [by apply V1 |]. split; [done | by exists P].
Qed.

Lemma maps_on i o next P :
  maps !! i = Some o -> ps !! mp_pid o = Some P -> may_extend next P -> maps_inv ps rs (alter (fun o => mkMap (mp_rid o) (mp_pid o) next) i maps).
Proof using V.
  intros Hi HP Hm. destruct V as [V1 V2]. split; [| done]. intros o' [j Hj]%list_elem_of_lookup. destruct (decide (i = j)) as [<- |].
  - rewrite list_lookup_alter_eq, Hi in Hj. injection Hj as <-. simpl. split; [by apply V1, (list_elem_of_lookup_2 _ i) | by exists P].
  - rewrite list_lookup_alter_ne in Hj by done. by apply V1, (list_elem_of_lookup_2 _ j).
Qed.

End maps.
