(* ===== verification/PortRangeBits.v ===== *)
(** The processes' and the cores' side of the port ranges: a live process's bitmap allows
    exactly the ports of the ranges mapped into it, a core that is up to date lets
    through exactly what its process is allowed, and one that is not lets through, beyond
    that, only ports of a round that still waits for it or of one that gave up. *)

From S2P Require Import Prelude PortGrants PortGrantsFacts PortBits PortBitsProps PortRange PortRangeSpans.

(** Mapped, with the ports allowed in the bitmap: the map is over, or has only the list left. *)
Definition mapped_to (rs : gmap Z Range) (pid rid : Z) (r : Range) : Prop :=
  rs !! rid = Some r /\ r_state r = Mapped pid /\ r_taking r = None /\ r_mapping r <> Some false.
Definition taking_from (r : Range) (pid : Z) : Prop := exists t, r_taking r = Some t /\ tk_pid t = pid.

(** Why core [c], running [pid], may let [p] through though the process is not allowed it. *)
Definition waited_for (rs : gmap Z Range) (c : nat) (pid p : Z) : Prop :=
  exists rid r t, rs !! rid = Some r /\ r_taking r = Some t /\ tk_pid t = pid /\ c ∉ tk_done t /\ covers r p.
Definition let_loose (loose : list (Z * Z * Z)) (pid p : Z) : Prop := exists x, x ∈ loose /\ x.1.1 = pid /\ in_range p (x.1.2, x.2).
Definition allowed (rs : gmap Z Range) (loose : list (Z * Z * Z)) (c : nat) (pid : Z) (m : IoMem) (p : Z) : Prop :=
  process_lets m p = true \/ waited_for rs c pid p \/ let_loose loose pid p.

(** The record tells the truth. *)
Definition record_ok (ps : gmap Z Proc) (next : Z) (io : IoCore) : Prop :=
  core_ok io /\ 0 <= io_koid io < next /\
  forall P, ps !! io_koid io = Some P ->
    io_generation io <= generation (p_mem P) /\
    (io_generation io = generation (p_mem P) -> forall p, port_ok p -> core_lets io p = process_lets (p_mem P) p).

Record bits_inv (ps : gmap Z Proc) (rs : gmap Z Range) (cs : gmap nat Core) (loose : list (Z * Z * Z)) (next : Z) : Prop := mk_bits_inv {
  bv_next : 0 < next;
  bv_proc : forall pid P, ps !! pid = Some P -> 0 < pid < next /\ mem_ok (p_mem P);
  bv_holder : forall rid r pid, rs !! rid = Some r -> (r_state r = Mapped pid \/ taking_from r pid) -> exists P, ps !! pid = Some P /\ p_bits P = true;
  bv_bits : forall pid P p, ps !! pid = Some P -> p_alive P = true -> port_ok p ->
    process_lets (p_mem P) p = true <-> exists rid r, mapped_to rs pid rid r /\ covers r p;
  bv_record : forall c k, cs !! c = Some k -> record_ok ps next (c_io k);
  bv_run : forall c k pid, cs !! c = Some k -> c_running k = Some pid ->
    exists P, ps !! pid = Some P /\ p_alive P = true /\
      forall p, port_ok p -> core_lets (c_io k) p = true -> allowed rs loose c pid (p_mem P) p;
}.

Section steps.
Context (ps : gmap Z Proc) (rs : gmap Z Range) (cs : gmap nat Core) (loose : list (Z * Z * Z)) (next : Z).
Context (V : bits_inv ps rs cs loose next).

Lemma bits_next next' : next <= next' -> bits_inv ps rs cs loose next'.
Proof using V.
  intros Hn. destruct V as [V0 V1 V2 V3 V4 V5]. split; try done; [lia | |].
  - intros pid P HP. destruct (V1 _ _ HP). split; [lia | done].
  - intros c k Hc. destruct (V4 _ _ Hc) as (? & ? & ?). split_and!; try done; lia.
Qed.

Lemma bits_loose loose' : (forall x, x ∈ loose -> x ∈ loose') -> bits_inv ps rs cs loose' next.
Proof using V.
  intros Hsub. destruct V as [V0 V1 V2 V3 V4 V5]. split; try done. intros c k pid Hc Hpid. destruct (V5 _ _ _ Hc Hpid) as (P & HP & Ha & Hall).
  exists P. split; [done |]. split; [done |]. intros p Hp Hl. destruct (Hall p Hp Hl) as [? | [? | (x & Hx & Hrest)]]; [by left | right; by left |].
  right. right. exists x. auto.
Qed.

(** The process's bitmap stays; it may come to an end where no core runs it. *)
Lemma bits_same_mem pid P P' :
  ps !! pid = Some P -> p_mem P' = p_mem P -> (p_bits P = true -> p_bits P' = true) -> (p_alive P' = true -> p_alive P = true) ->
  (p_alive P' = true \/ forall c k, cs !! c = Some k -> c_running k <> Some pid) -> bits_inv (<[pid := P']> ps) rs cs loose next.
Proof using V.
  intros HP Em Eb Ea Hrun. destruct V as [V0 V1 V2 V3 V4 V5]. split; [done | ..].
  - intros pid' Q [[<- <-] | [_ HQ]]%lookup_insert_Some; [rewrite Em; by apply V1 | by apply V1].
  - intros rid r pid' Hr Hh. destruct (V2 _ _ _ Hr Hh) as (Q & HQ & Hb). destruct (decide (pid = pid')) as [<- |].
    + exists P'. rewrite lookup_insert_eq. split; [done |]. apply Eb. by simplify_eq.
    + exists Q. by rewrite lookup_insert_ne.
  - intros pid' Q p [[<- <-] | [_ HQ]]%lookup_insert_Some Hal Hp; [rewrite Em; apply V3; auto | by apply V3].
  - intros c k Hc. destruct (V4 _ _ Hc) as (Hok & Hk & Hrec). split_and!; [done | lia | lia |].
    intros Q [[E <-] | [_ HQ]]%lookup_insert_Some; [rewrite Em; apply Hrec; congruence | by apply Hrec].
  - intros c k pid' Hc Hpid. destruct (V5 _ _ _ Hc Hpid) as (Q & HQ & Hal & Hall). destruct (decide (pid = pid')) as [<- |].
    + simplify_eq. exists P'. rewrite lookup_insert_eq, Em. split; [done |]. split; [| done].
      destruct Hrun as [? | Hno]; [done |]. by destruct (Hno _ _ Hc).
    + exists Q. by rewrite lookup_insert_ne.
Qed.

Lemma bits_new_proc P : p_mem P = fresh_mem -> bits_inv (<[next := P]> ps) rs cs loose (next + 1).
Proof using V.
  intros Em. pose proof V as [V0 V1 V2 V3 V4 V5].
  assert (ps !! next = None) as Hnew by (destruct (ps !! next) as [Q |] eqn:E; [destruct (V1 _ _ E); lia | done]).
  assert (forall p, port_ok p -> process_lets fresh_mem p = false) as Hnone by (intros p Hp; unfold process_lets; simpl; by rewrite refused_fresh).
  split; [lia | ..].
  - intros pid' Q [[<- <-] | [_ HQ]]%lookup_insert_Some; [rewrite Em; split; [lia | apply fresh_ok] |].
    destruct (V1 _ _ HQ). split; [lia | done].
  - intros rid r pid' Hr Hh. destruct (V2 _ _ _ Hr Hh) as (Q & HQ & Hb). exists Q. rewrite lookup_insert_ne; [done | congruence].
  - intros pid' Q p [[<- <-] | [_ HQ]]%lookup_insert_Some Hal Hp; [| by apply V3]. rewrite Em, Hnone by done. split; [done |].
    intros (rid & r & (Hr & Hst & _) & _). destruct (V2 rid r next Hr (or_introl Hst)) as (Q & HQ & _). congruence.
  - intros c k Hc. destruct (V4 _ _ Hc) as (Hok & Hk & Hrec). split_and!; [done | lia | lia |].
    intros Q [[E <-] | [_ HQ]]%lookup_insert_Some; [lia | by apply Hrec].
  - intros c k pid' Hc Hpid. destruct (V5 _ _ _ Hc Hpid) as (Q & HQ & Hrest). exists Q. rewrite lookup_insert_ne; [done | congruence].
Qed.

(** Ranges no live process has mapped and no round takes back come and go. *)
Definition quiet (o : option Range) : Prop :=
  match o with
  | Some r => r_taking r = None /\ forall pid P, r_state r = Mapped pid -> ps !! pid = Some P -> p_alive P = false
  | None => True
  end.

Lemma bits_quiet rid rs' :
  quiet (rs !! rid) -> quiet (rs' !! rid) ->
  (forall r pid, rs' !! rid = Some r -> r_state r <> Mapped pid) -> (forall rid', rid' <> rid -> rs' !! rid' = rs !! rid') ->
  bits_inv ps rs' cs loose next.
Proof using V.
  intros Hq Hq' Hst Heq. destruct V as [V0 V1 V2 V3 V4 V5]. split; try done.
  - intros rid' r pid Hr Hh. destruct (decide (rid' = rid)) as [-> | Hne]; [| apply (V2 rid' r pid); [by rewrite <- Heq | done]].
    rewrite Hr in Hq'. destruct Hq' as [Hn _]. destruct Hh as [Hm | (t & Ht & _)]; [by apply (Hst r pid) in Hr | congruence].
  - intros pid P p HP Hal Hp. rewrite (V3 pid P p HP Hal Hp). split; intros (rid' & r & (Hr & Hm & Hn) & Hc); exists rid', r; (split; [| done]).
    + split; [| done]. destruct (decide (rid' = rid)) as [-> | Hne]; [| by rewrite Heq]. rewrite Hr in Hq.
      destruct Hq as [_ Hq]. rewrite (Hq pid P Hm HP) in Hal. done.
    + split; [| done]. destruct (decide (rid' = rid)) as [-> | Hne]; [| by rewrite <- Heq]. by destruct (Hst r pid Hr).
  - intros c k pid Hc Hpid. destruct (V5 _ _ _ Hc Hpid) as (P & HP & Hal & Hall). exists P. split; [done |]. split; [done |].
    intros p Hp Hl. destruct (Hall p Hp Hl) as [Hb | [(rid' & r & t & Hr & Ht & Hrest) | Hlo]]; [by left | | right; by right].
    right. left. exists rid', r, t. split; [| done]. rewrite Heq; [done |]. intros ->. rewrite Hr in Hq. destruct Hq. congruence.
Qed.

(** The range's lock is taken for a map, or given up after it. *)
Lemma bits_relock rid r r' pid P :
  rs !! rid = Some r -> r_taking r = None -> r_taking r' = None -> r_base r' = r_base r -> r_len r' = r_len r ->
  r_state r' = Mapped pid -> ps !! pid = Some P -> p_bits P = true ->
  (forall pid', mapped_to (<[rid := r']> rs) pid' rid r' <-> mapped_to rs pid' rid r) -> bits_inv ps (<[rid := r']> rs) cs loose next.
Proof using V.
  intros Hr Hn Hn' Eb El Hs HP Hb Hsame. destruct V as [V0 V1 V2 V3 V4 V5].
  assert (forall p, covers r' p <-> covers r p) as Hcov by (intros p; unfold covers; by rewrite Eb, El). split; try done.
  - intros rid' r1 pid' [[<- <-] | [_ Hr1]]%lookup_insert_Some Hh; [| by apply (V2 rid' r1)].
    destruct Hh as [Hs' | (t & Ht & _)]; [| congruence]. assert (pid' = pid) as -> by congruence. by exists P.
  - intros pid' Q p HQ Hal Hp. rewrite (V3 pid' Q p HQ Hal Hp). split; intros (rid' & r1 & Hm & Hc).
    + destruct (decide (rid = rid')) as [<- | Hne].
      * exists rid, r'. destruct Hm as (Hr1 & Hrest). simplify_eq. split; [by apply Hsame | by apply Hcov].
      * exists rid', r1. destruct Hm as (Hr1 & Hrest). split; [| done]. by split; [rewrite lookup_insert_ne |].
    + destruct Hm as (Hr1 & Hrest). apply lookup_insert_Some in Hr1 as [[<- <-] | [_ Hr1]]; [| by exists rid', r1].
      exists rid, r. split; [| by apply Hcov]. apply Hsame. split; [by rewrite lookup_insert_eq | done].
  - intros c k pid' Hc Hpid. destruct (V5 _ _ _ Hc Hpid) as (Q & HQ & HalQ & Hall). exists Q. split; [done |]. split; [done |]. intros p Hp Hl.
    destruct (Hall p Hp Hl) as [? | [(rid' & r1 & t & Hr1 & Ht & Hrest) | ?]]; [by left | | right; by right].
    right. left. exists rid', r1, t. split; [| done]. rewrite lookup_insert_ne; [done |]. intros <-. congruence.
Qed.

(** The ports of a range that is being mapped are allowed. *)
Lemma bits_map rid r pid P :
  rs !! rid = Some r -> r_state r = Mapped pid -> r_mapping r = Some false -> r_taking r = None -> ports_ok (r_base r) (r_len r) ->
  ps !! pid = Some P -> p_alive P = true -> p_bits P = true ->
  bits_inv (<[pid := set_mem (change (r_base r) (r_len r) true (p_mem P)) P]> ps)
    (<[rid := mkRange (r_base r) (r_len r) (Mapped pid) None (Some true)]> rs) cs loose next.
Proof using V.
  intros Hr Hi Hmf Hn Hok HP Hal Hb. destruct V as [V0 V1 V2 V3 V4 V5]. destruct (V1 _ _ HP) as [_ Hmem].
  set (m' := change (r_base r) (r_len r) true (p_mem P)). set (r' := mkRange (r_base r) (r_len r) (Mapped pid) None (Some true)).
  assert (forall p, port_ok p -> process_lets m' p = true <-> covers r p \/ process_lets (p_mem P) p = true) as Hlets.
  { intros p Hp. unfold m'. rewrite change_lets by done. unfold covers. case_decide as Hd; [by split; [left |] | split; [by right |]]. by intros [? | ?]. }
  assert (forall pid' rid' r1, mapped_to (<[rid := r']> rs) pid' rid' r1 <-> (rid' = rid /\ r1 = r' /\ pid' = pid) \/ mapped_to rs pid' rid' r1) as Hmt.
  { intros pid' rid' r1. unfold mapped_to. rewrite lookup_insert_Some. split.
    - intros ([[<- <-] | [Hne Hr1]] & Hs & Ht); [left; injection Hs as <-; done | by right].
    - intros [(-> & -> & ->) | (Hr1 & Hs & Ht & Hm)]; [split; [by left | done] |]. split; [| done]. right. split; [| done].
      intros <-. congruence. }
  split; [done | ..].
  - intros pid' Q [[<- <-] | [_ HQ]]%lookup_insert_Some; [split; [by apply (V1 _ P) | by apply change_ok] | by apply V1].
  - intros rid' r1 pid' Hr1 Hh. assert (exists Q, ps !! pid' = Some Q /\ p_bits Q = true) as (Q & HQ & HbQ).
    { apply lookup_insert_Some in Hr1 as [[<- <-] | [_ Hr1]]; [| by apply (V2 rid' r1)].
      destruct Hh as [[= <-] | (t & [=] & _)]. by exists P. }
    destruct (decide (pid = pid')) as [<- |]; [rewrite lookup_insert_eq | rewrite lookup_insert_ne by done]; eauto.
  - intros pid' Q p HQ HalQ Hp. setoid_rewrite Hmt. apply lookup_insert_Some in HQ as [[<- <-] | [Hne HQ]].
    + cbn [p_mem set_mem]. rewrite Hlets, (V3 pid P p HP Hal Hp) by done. split.
      * intros [Hc | (rid' & r1 & Hm & Hc)]; [exists rid, r'; split; [by left | done] | exists rid', r1; split; [by right | done]].
      * intros (rid' & r1 & [(-> & -> & _) | Hm] & Hc); [by left | right; eauto].
    + rewrite (V3 pid' Q p HQ HalQ Hp). split; [intros (rid' & r1 & Hm & Hc); exists rid', r1; split; [by right | done] |].
      intros (rid' & r1 & [(_ & _ & E) | Hm] & Hc); [congruence | by exists rid', r1].
  - intros c k Hc. destruct (V4 _ _ Hc) as (Hcok & Hk & Hrec). split; [done |]. split; [done |].
    intros Q [[E <-] | [_ HQ]]%lookup_insert_Some; [| by apply Hrec]. rewrite <- E in Hrec. destruct (Hrec P HP) as [Hg _].
    unfold m'. simpl. split; [lia |]. intros Hg'. lia.
  - intros c k pid' Hc Hpid. destruct (V5 _ _ _ Hc Hpid) as (Q & HQ & HalQ & Hall).
    assert (forall p, waited_for rs c pid' p -> waited_for (<[rid := r']> rs) c pid' p) as Hw.
    { intros p (rid' & r1 & t & Hr1 & Ht & Hrest). exists rid', r1, t. split; [| done]. rewrite lookup_insert_ne; [done |]. intros <-. congruence. }
    destruct (decide (pid = pid')) as [<- |].
    + simplify_eq. exists (set_mem m' P). rewrite lookup_insert_eq. split; [done |]. split; [done |]. intros p Hp Hl.
      destruct (Hall p Hp Hl) as [? | [?%Hw | ?]]; [left; apply Hlets; [done | by right] | right; by left | right; by right].
    + exists Q. rewrite lookup_insert_ne by done. split; [done |]. split; [done |]. intros p Hp Hl.
      destruct (Hall p Hp Hl) as [? | [?%Hw | ?]]; [by left | right; by left | right; by right].
Qed.

(** A range is being taken back: no other mapped range covers its ports. *)
Lemma bits_take rid r pid P why st :
  rs !! rid = Some r -> r_state r = Mapped pid -> r_taking r = None -> ports_ok (r_base r) (r_len r) ->
  ps !! pid = Some P -> (st = Mapped pid \/ st = Ended) ->
  (forall rid' r' p, mapped_to rs pid rid' r' -> covers r' p -> covers r p -> rid' = rid) ->
  bits_inv (<[pid := set_mem (change (r_base r) (r_len r) false (p_mem P)) P]> ps)
    (<[rid := mkRange (r_base r) (r_len r) st (Some (mkTaking why pid ∅)) None]> rs) cs loose next.
Proof using V.
  intros Hr Hm Hn Hok HP Hst Hdisj. destruct V as [V0 V1 V2 V3 V4 V5]. destruct (V1 _ _ HP) as [_ Hmem].
  set (m' := change (r_base r) (r_len r) false (p_mem P)). set (r' := mkRange _ _ _ _ _).
  assert (forall p, port_ok p -> process_lets m' p = true <-> ~ covers r p /\ process_lets (p_mem P) p = true) as Hlets.
  { intros p Hp. unfold m'. rewrite change_lets by done. unfold covers. case_decide as Hd; [by split; [| intros [? _]] |]. split; [done | by intros [_ ?]]. }
  assert (forall pid' rid' r1, mapped_to (<[rid := r']> rs) pid' rid' r1 <-> rid' <> rid /\ mapped_to rs pid' rid' r1) as Hmt.
  { intros pid' rid' r1. unfold mapped_to. rewrite lookup_insert_Some. split.
    - intros ([[<- <-] | [Hne Hr1]] & Hs & Ht & Hm1); [done | by split_and!].
    - intros (Hne & Hr1 & Hs & Ht). split; [right; by split | done]. }
  assert (exists Q, ps !! pid = Some Q /\ p_bits Q = true) as (Q0 & HQ0 & HbQ0) by (by apply (V2 rid r); [| left]). simplify_eq.
  split; [done | ..].
  - intros pid' Q [[<- <-] | [_ HQ]]%lookup_insert_Some; [split; [by apply (V1 _ P) | by apply change_ok] | by apply V1].
  - intros rid' r1 pid' Hr1 Hh. assert (exists Q, ps !! pid' = Some Q /\ p_bits Q = true) as (Q & HQ & HbQ).
    { apply lookup_insert_Some in Hr1 as [[<- <-] | [_ Hr1]]; [| by apply (V2 rid' r1)].
      assert (pid' = pid) as -> by (destruct Hh as [Hs | (t & [= <-] & <-)]; [destruct Hst; simpl in Hs; congruence | done]). by exists P. }
    destruct (decide (pid = pid')) as [<- |]; [rewrite lookup_insert_eq; eexists; split; [done |] | rewrite lookup_insert_ne by done; eauto]. simpl. congruence.
  - intros pid' Q p HQ HalQ Hp. setoid_rewrite Hmt. apply lookup_insert_Some in HQ as [[<- <-] | [Hne HQ]].
    + cbn [p_mem set_mem]. rewrite Hlets, (V3 pid P p HP HalQ Hp) by done. split.
      * intros [Hnc (rid' & r1 & Hm1 & Hc)]. exists rid', r1. split; [| done]. split; [| done]. intros ->. destruct Hm1. by simplify_eq.
      * intros (rid' & r1 & [Hne Hm1] & Hc). split; [| by exists rid', r1]. intros Hcr. by apply Hne, (Hdisj rid' r1 p).
    + rewrite (V3 pid' Q p HQ HalQ Hp). split; [| intros (rid' & r1 & [_ Hm1] & Hc); by exists rid', r1].
      intros (rid' & r1 & Hm1 & Hc). exists rid', r1. split; [| done]. split; [| done]. intros ->. destruct Hm1 as (? & ? & _). congruence.
  - intros c k Hc. destruct (V4 _ _ Hc) as (Hcok & Hk & Hrec). split; [done |]. split; [done |].
    intros Q [[E <-] | [_ HQ]]%lookup_insert_Some; [| by apply Hrec]. rewrite <- E in Hrec. destruct (Hrec P HP) as [Hg _].
    unfold m'. simpl. split; [lia |]. intros Hg'. lia.
  - intros c k pid' Hc Hpid. destruct (V5 _ _ _ Hc Hpid) as (Q & HQ & HalQ & Hall).
    assert (forall p, waited_for rs c pid' p -> waited_for (<[rid := r']> rs) c pid' p) as Hw.
    { intros p (rid' & r1 & t & Hr1 & Ht & Hrest). exists rid', r1, t. split; [| done]. rewrite lookup_insert_ne; [done |]. intros <-. congruence. }
    destruct (decide (pid = pid')) as [<- |].
    + simplify_eq. exists (set_mem m' P). rewrite lookup_insert_eq. split; [done |]. split; [done |]. intros p Hp Hl.
      destruct (Hall p Hp Hl) as [Hb | [?%Hw | ?]]; [| right; by left | right; by right].
      destruct (decide (r_base r <= p < r_base r + r_len r)) as [Hcov | Hcov]; [| left; by apply Hlets].
      right. left. exists rid, r', (mkTaking why pid ∅). rewrite lookup_insert_eq. split_and!; done || set_solver.
    + exists Q. rewrite lookup_insert_ne by done. split; [done |]. split; [done |]. intros p Hp Hl.
      destruct (Hall p Hp Hl) as [? | [?%Hw | ?]]; [by left | right; by left | right; by right].
Qed.

(** A core takes up a record that is true, and lets through no more than its process is allowed. *)
Definition up_to_date (k : Core) : Prop :=
  forall pid, c_running k = Some pid ->
    exists P, ps !! pid = Some P /\ p_alive P = true /\ forall p, port_ok p -> core_lets (c_io k) p = true -> process_lets (p_mem P) p = true.

Lemma bits_core c k : record_ok ps next (c_io k) -> up_to_date k -> bits_inv ps rs (<[c := k]> cs) loose next.
Proof using V.
  intros Hrec Hup. destruct V as [V0 V1 V2 V3 V4 V5]. split; try done.
  - intros c' k' [[<- <-] | [_ Hk]]%lookup_insert_Some; [done | by apply (V4 c')].
  - intros c' k' pid [[<- <-] | [_ Hk]]%lookup_insert_Some Hpid; [| by apply V5].
    destruct (Hup pid Hpid) as (P & HP & Hal & Hl). exists P. split; [done |]. split; [done |]. intros p Hp Hc. left. by apply Hl.
Qed.

Lemma bits_look which c :
  (forall k pid, cs !! c = Some k -> c_running k = Some pid -> (which = None \/ which = Some pid) -> up_to_date k) ->
  bits_inv ps (looked which c <$> rs) cs loose next.
Proof using V.
  intros Hup. destruct V as [V0 V1 V2 V3 V4 V5].
  assert (forall pid rid r, mapped_to (looked which c <$> rs) pid rid r <-> mapped_to rs pid rid r) as Hmt.
  { intros pid rid r. unfold mapped_to. rewrite lookup_fmap_Some. split.
    - intros ((r0 & <- & Hr0) & Hs & Ht). destruct r0 as [b l st [t |] mp]; [by destruct Ht | done].
    - intros (Hr & Hs & Ht & Hm). split; [| done]. exists r. split; [| done]. destruct r as [b l st tk mp]. simpl in *. by subst tk. }
  split; try done.
  - intros rid r pid (r0 & <- & Hr0)%lookup_fmap_Some Hh. apply (V2 rid r0 pid Hr0). destruct Hh as [| (t & Ht & <-)]; [by left | right].
    unfold looked in Ht. simpl in Ht. destruct (r_taking r0) as [t0 |] eqn:E; [| done]. exists t0. split; [done |].
    simpl in Ht. injection Ht as <-. by case_decide.
  - intros pid P p HP Hal Hp. setoid_rewrite Hmt. by apply V3.
  - intros c' k pid Hk Hpid. destruct (V5 _ _ _ Hk Hpid) as (P & HP & Hal & Hall). exists P. split; [done |]. split; [done |].
    intros p Hp Hl. destruct (decide (c' = c /\ (which = None \/ which = Some pid))) as [[-> Hwhich] | Hno].
    { destruct (Hup _ _ Hk Hpid Hwhich pid Hpid) as (P' & HP' & _ & Hlet). simplify_eq. left. by apply Hlet. }
    destruct (Hall p Hp Hl) as [? | [(rid & r & t & Hr & Ht & Htp & Hnot & Hcov) | ?]]; [by left | | right; by right].
    right. left. eexists rid, (looked which c r), _. rewrite lookup_fmap, Hr. split; [done |]. unfold looked. simpl. rewrite Ht. simpl.
    split; [done |]. case_decide as Hd; simpl; [| by split_and!]. split_and!; try done. rewrite Htp in Hd.
    apply not_elem_of_union. split; [| done]. intros ->%elem_of_singleton. by apply Hno.
Qed.

(** A round is over. *)
Lemma bits_round rid r t st more :
  rs !! rid = Some r -> r_taking r = Some t -> (st = Idle \/ st = Ended) ->
  (dom cs ⊆ tk_done t \/ forall p, covers r p -> let_loose more (tk_pid t) p) ->
  bits_inv ps (<[rid := mkRange (r_base r) (r_len r) st None None]> rs) cs (loose ++ more) next.
Proof using V.
  intros Hr Ht Hst Hend. destruct V as [V0 V1 V2 V3 V4 V5]. set (r' := mkRange _ _ _ _ _). split; try done.
  - intros rid' r1 pid [[<- <-] | [_ Hr1]]%lookup_insert_Some Hh; [| by apply (V2 rid' r1)].
    destruct Hh as [Hs | (t' & [=] & _)]. simpl in Hs. destruct Hst; congruence.
  - intros pid P p HP Hal Hp. rewrite (V3 pid P p HP Hal Hp). unfold mapped_to. split; intros (rid' & r1 & (Hr1 & Hs & Hn) & Hc); exists rid', r1.
    + split; [| done]. split; [| done]. rewrite lookup_insert_ne; [done |]. intros <-. destruct Hn. congruence.
    + apply lookup_insert_Some in Hr1 as [[<- <-] | [_ Hr1]]; [simpl in Hs; destruct Hst; congruence |]. by split.
  - intros c k pid Hc Hpid. destruct (V5 _ _ _ Hc Hpid) as (P & HP & Hal & Hall). exists P. split; [done |]. split; [done |].
    assert (forall p, let_loose loose pid p \/ let_loose more pid p -> let_loose (loose ++ more) pid p) as Happ.
    { intros p [(x & Hx & Hrest) | (x & Hx & Hrest)]; exists x; (split; [apply elem_of_app; auto | done]). }
    intros p Hp Hl. destruct (Hall p Hp Hl) as [? | [(rid' & r1 & t1 & Hr1 & Ht1 & Htp & Hnot & Hcov) | ?]]; [by left | | right; right; auto].
    destruct (decide (rid' = rid)) as [-> | Hne].
    + simplify_eq. destruct Hend as [Hall' | Hlo]; [| right; right; auto]. destruct Hnot. apply Hall', elem_of_dom. by exists k.
    + right. left. exists rid', r1, t1. by rewrite lookup_insert_ne.
Qed.

End steps.

(** ** What a core copies *)

Lemma quiet_load owner m io :
  mem_ok m -> core_ok io -> core_ok (load owner (fun _ => m) io).1.2 /\ loaded owner m (load owner (fun _ => m) io).1.2.
Proof.
  intros Hm Hio. pose proof (load_loop_ok m [] Hm ltac:(constructor) (fun _ => 0%nat) ltac:(done) COPY_ATTEMPTS owner 0 io Hio) as H.
  pose proof (load_loop_quiet 15 owner m 0 io (mo_even _ Hm)) as Hq. change (seen m [] 0) with m in H.
  change (S 15) with COPY_ATTEMPTS in Hq. unfold load. destruct (load_loop _ _ _ _ _) as [[ok io'] k']. simpl in Hq. subst ok.
  destruct H as [Hok (j & n & _ & Hn & Hl)]. rewrite <- Hn in Hl. done.
Qed.

(** A copy, and the check before it: the record is true, and the core lets through what its
    process is allowed, all of it where the copy did not give up. *)
Definition copied (ps : gmap Z Proc) (next : Z) (m : IoMem) (whole : bool) (io : IoCore) : Prop :=
  record_ok ps next io /\
  (forall p, port_ok p -> core_lets io p = true -> process_lets m p = true) /\
  (whole = true -> forall p, port_ok p -> core_lets io p = process_lets m p).

Lemma copy_copied ps next gives_up pid P io :
  record_ok ps next io -> ps !! 0 = None -> ps !! pid = Some P -> mem_ok (p_mem P) -> 0 < pid < next ->
  copied ps next (p_mem P) (negb gives_up) (copy gives_up pid (p_mem P) io).
Proof.
  intros (Hok & Hk & Hrec) H0 HP Hm Hpid. unfold copy. destruct gives_up.
  - split; [| split; [done |]; intros [=]]. split; [destruct Hok as [H1 H2 H3]; done |]. simpl. split; [lia |].
    intros Q HQ. congruence.
  - destruct (quiet_load pid (p_mem P) io Hm Hok) as [Hok' (Ek & Eg & El)]. split; [| split].
    + split; [done |]. rewrite Ek. split; [lia |]. intros Q HQ. simplify_eq. rewrite Eg. split; [lia | done].
    + intros p Hp. by rewrite El.
    + intros _. exact El.
Qed.

Lemma fresh_copied ps next pid P io :
  record_ok ps next io -> ps !! pid = Some P -> stale io pid (p_mem P) = false -> copied ps next (p_mem P) true io.
Proof.
  intros Hrec HP Hst. unfold stale in Hst. apply orb_false_iff in Hst as [Ek%negb_false_iff%Z.eqb_eq Eg%negb_false_iff%Z.eqb_eq].
  pose proof Hrec as (_ & _ & Hall). rewrite Ek in Hall. destruct (Hall P HP) as [_ El]. split; [done |].
  split; [intros p Hp; by rewrite El | intros _; by apply El].
Qed.

Lemma refresh_copied ps next gives_up pid P io :
  record_ok ps next io -> ps !! 0 = None -> ps !! pid = Some P -> mem_ok (p_mem P) -> 0 < pid < next ->
  copied ps next (p_mem P) (negb gives_up) (refresh gives_up pid (p_mem P) io).
Proof.
  intros Hrec H0 HP Hm Hpid. unfold refresh. destruct (stale io pid (p_mem P)) eqn:E; [by apply copy_copied |].
  destruct (fresh_copied ps next pid P io Hrec HP E) as (? & ? & ?). split_and!; auto.
Qed.
