(* ===== verification/PortRangeProps.v ===== *)
(** Ports are exclusive: whatever the processes, the cores and the kernel do, in any order,
    no port is let through to two processes, nor one the kernel keeps; and a fault that
    stands is one for a port that is not mapped. *)

From S2P Require Import Prelude PortGrants PortGrantsFacts PortBits PortBitsProps PortRange PortRangeSpans PortRangeBits.

Record ports_inv (s : Ports) : Prop := mk_ports_inv {
  pi_spans : span_inv (table (m_grants s)) (m_ranges s) (m_todo s) (m_loose s) (m_next s);
  pi_bits : bits_inv (m_procs s) (m_ranges s) (m_cores s) (m_loose s ++ m_handed s) (m_next s);
  pi_lists : list_inv (m_procs s) (m_ranges s) (m_todo s);
  pi_maps : maps_inv (m_procs s) (m_ranges s) (m_maps s);
}.

(** ** Access *)

Lemma wp_get_range rid r (Q : Range -> Ports -> Prop) s : m_ranges s !! rid = Some r -> Q r s -> wp (get_range rid) Q s.
Proof. intros E HQ. unfold get_range. wp_steps. by apply (wp_assert_some _ _ _ _ E). Qed.
Lemma wp_get_proc pid P (Q : Proc -> Ports -> Prop) s : m_procs s !! pid = Some P -> Q P s -> wp (get_proc pid) Q s.
Proof. intros E HQ. unfold get_proc. wp_steps. by apply (wp_assert_some _ _ _ _ E). Qed.
Lemma wp_get_core c k (Q : Core -> Ports -> Prop) s : m_cores s !! c = Some k -> Q k s -> wp (get_core c) Q s.
Proof. intros E HQ. unfold get_core. wp_steps. by apply (wp_assert_some _ _ _ _ E). Qed.

(** ** Minting *)

Lemma inv_grants s g :
  ports_inv s -> spans_now (m_grants s) (items (spans (table (m_grants s)))) g -> ports_inv (set_grants g s).
Proof.
  intros [V B L W] (Ht & Es & _). split; try done. eapply spans_same; [exact V | done | done | simpl; lia].
Qed.

Lemma inv_new_koid s : ports_inv s -> ports_inv (mkPorts (m_grants s) (m_procs s) (m_ranges s) (m_cores s) (m_maps s) (m_todo s) (m_loose s) (m_handed s) (m_next s + 1)).
Proof.
  intros [V B L W]. split; try done; simpl; [apply (spans_same _ _ _ _ _ V); [apply V | done | lia] |].
  apply (bits_next _ _ _ _ _ B). lia.
Qed.

Lemma inv_mint s g base len ret :
  ports_inv s -> ports_ok base len ->
  spans_now (m_grants s) (items (spans (table (m_grants s))) ++ [mkSpan base (base + len) (m_next s) ret]) g ->
  ports_inv (mkPorts g (m_procs s) (<[m_next s := mkRange base len Idle None None]> (m_ranges s)) (m_cores s) (m_maps s) (m_todo s) (m_loose s) (m_handed s) (m_next s + 1)).
Proof.
  intros [V B L W] Hok (Ht & Es & _).
  assert (m_ranges s !! m_next s = None) as Hnew.
  { destruct (m_ranges s !! m_next s) as [r |] eqn:E; [| done]. destruct (sv_range _ _ _ _ _ V _ _ E). lia. }
  split; simpl.
  - by apply (spans_mint _ _ _ _ _ V _ _ _ ret).
  - apply bits_next with (m_next s); [| lia]. apply (bits_quiet _ _ _ _ _ B (m_next s)).
    + by rewrite Hnew.
    + rewrite lookup_insert_eq. simpl. split; [done |]. intros pid P [=].
    + intros r pid. rewrite lookup_insert_eq. by intros [= <-].
    + intros rid' Hne. by rewrite lookup_insert_ne.
  - apply (lists_less _ _ _ L); unfold owed.
    + intros pid rid. destruct (decide (m_next s = rid)) as [<- |]; [rewrite lookup_insert_eq; simpl; lia | by rewrite lookup_insert_ne].
    + intros pid rid. destruct (decide (m_next s = rid)) as [<- |]; [rewrite lookup_insert_eq; done | by rewrite lookup_insert_ne].
    + intros pid P rid _ _ Hs. destruct (decide (m_next s = rid)) as [<- |]; [by rewrite lookup_insert_eq | by rewrite lookup_insert_ne].
    + auto.
  - by apply maps_range.
Qed.

Lemma fresh_owner s : ports_inv s -> m_next s <> RETIRED /\ m_next s ∉ sp_owner <$> items (spans (table (m_grants s))).
Proof.
  intros [V _ _ _]. pose proof (sv_next _ _ _ _ _ V). split; [unfold RETIRED; lia |].
  intros (sp & E & Hsp)%list_elem_of_fmap. pose proof (sv_owner _ _ _ _ _ V sp Hsp). lia.
Qed.

Lemma end_of_ports base len : 0 <= base -> 0 <= len -> end_of base len = Some (base + len) -> ports_ok base len.
Proof. intros Hb Hl [Hr _]%end_of_some; [| done ..]. unfold range_ok, ports_ok, PORT_SPACE in *. simpl in Hr. lia. Qed.

(** Either way of minting: the grant is refused, or the spans get its span. *)
Lemma wp_mint_with granting base len allocates s :
  ports_inv s ->
  wp (granting (m_next s)) (fun r g => match r with
    | Ok _ => ports_ok base len /\ exists ret, spans_now (m_grants s) (items (spans (table (m_grants s))) ++ [mkSpan base (base + len) (m_next s) ret]) g
    | Err _ => spans_now (m_grants s) (items (spans (table (m_grants s)))) g end) (m_grants s) ->
  wp (mint_with granting base len allocates) (fun _ s' => ports_inv s') s.
Proof.
  intros I Hg. unfold mint_with. destruct allocates; simpl; [| by wp_step]. wp_step. unfold new_koid.
  apply (run_wp _ _ _ _ _ eq_refl). cbv beta. unfold on_grants. wp_steps. simpl. eapply wp_mono; [exact Hg |].
  intros [[] | e] g H; wp_steps.
  - destruct H as [Hok [ret H]]. by apply (inv_mint s g base len ret).
  - apply (inv_grants _ g (inv_new_koid s I)). exact H.
Qed.

Lemma wp_mint base len allocates s :
  ports_inv s -> 0 <= base -> 0 <= len -> wp (mint base len allocates) (fun _ s' => ports_inv s') s.
Proof.
  intros I Hb Hl. destruct (fresh_owner s I) as [Hne Hf]. apply wp_mint_with; [done |].
  eapply wp_mono; [apply wp_grant; try done; apply I |]. intros [[] | e] g [_ H]; [| done].
  destruct H as [He H]. split; [by apply end_of_ports | by exists None].
Qed.

Lemma wp_mint_from_install item base len allocates s :
  ports_inv s -> 0 <= base -> 0 <= len -> wp (mint_from_install item base len allocates) (fun _ s' => ports_inv s') s.
Proof.
  intros I Hb Hl. destruct (fresh_owner s I) as [Hne Hf]. apply wp_mint_with; [done |].
  eapply wp_mono; [apply wp_grant_from_install; try done; apply I |]. intros [[] | e] g H; [| done].
  destruct H as (n & He & H). split; [by apply end_of_ports | eauto].
Qed.

(** ** Mapping *)

(** A process's record changes, not its bitmap nor its list. *)
Lemma inv_proc s pid P P' :
  ports_inv s -> m_procs s !! pid = Some P -> p_mem P' = p_mem P -> (p_bits P = true -> p_bits P' = true) ->
  items (p_mapped P') = items (p_mapped P) -> vec_wf (p_mapped P') -> p_giving P' = p_giving P ->
  (p_terminating P = true -> p_terminating P' = true) -> p_alive P' = p_alive P -> ports_inv (set_proc pid P' s).
Proof.
  intros [V B L W] HP Em Eb Ei Hv Eg Et Ea. split; simpl; [done | | | by apply (maps_proc_same _ _ _ W pid P); [.. | congruence]].
  - apply (bits_same_mem _ _ _ _ _ B pid P); try done; [congruence |]. destruct (p_alive P') eqn:E; [by left | right].
    intros c k Hc Hr. destruct (bv_run _ _ _ _ _ B _ _ _ Hc Hr) as (Q & HQ & Hal & _). congruence.
  - apply (lists_proc _ _ _ L pid P); try done. congruence.
Qed.

Lemma inv_heap s h : ports_inv s -> ports_inv (set_grants (mkGrants (table (m_grants s)) h) s).
Proof. by intros [V B L W]. Qed.

Lemma set_grants_proc g pid P s : set_grants g (set_proc pid P s) = set_proc pid P (set_grants g s).
Proof. done. Qed.

(** The maps under way change, nothing else. *)
Lemma inv_maps s maps : ports_inv s -> maps_inv (m_procs s) (m_ranges s) maps -> ports_inv (set_maps maps s).
Proof. by intros [V B L _] W. Qed.

Lemma wp_map_ends i e s : ports_inv s -> wp (map_ends i e) (fun _ s' => ports_inv s') s.
Proof.
  intros I. unfold map_ends. wp_steps. apply inv_maps; [done |]. apply (maps_fewer _ _ _ (pi_maps _ I)).
Qed.

Lemma wp_map_goes_on i o next P s :
  ports_inv s -> m_maps s !! i = Some o -> m_procs s !! mp_pid o = Some P -> may_extend next P -> wp (map_goes_on i next) (fun _ s' => ports_inv s') s.
Proof. intros I Hi HP Hm. unfold map_goes_on. wp_steps. apply inv_maps; [done |]. by apply (maps_on _ _ _ (pi_maps _ I) i o next P). Qed.

Lemma wp_map_into rid pid s :
  ports_inv s -> is_Some (m_ranges s !! rid) -> alive pid s = true -> wp (map_into rid pid) (fun _ s' => ports_inv s') s.
Proof.
  intros I Hr Ha. unfold alive in Ha. destruct (m_procs s !! pid) as [P |] eqn:HP; [| done]. unfold map_into. wp_step.
  apply inv_maps; [done |]. by apply (maps_more _ _ _ (pi_maps _ I) _ P).
Qed.

(** What a map under way has. *)
Lemma map_has s i o :
  ports_inv s -> m_maps s !! i = Some o -> is_Some (m_ranges s !! mp_rid o) /\ exists P, m_procs s !! mp_pid o = Some P /\ may_extend (mp_at o) P.
Proof. intros I Hi. apply (mv_op _ _ _ (pi_maps _ I)). by apply (list_elem_of_lookup_2 _ i). Qed.

Lemma wp_step_bitmap i o P allocates s :
  ports_inv s -> m_maps s !! i = Some o -> m_procs s !! mp_pid o = Some P -> may_extend (mp_at o) P ->
  wp (ok ← ensure_bitmap (mp_pid o) allocates; if (ok : bool) then map_goes_on i ToReserve else map_ends i MapNoMemory) (fun _ s' => ports_inv s') s.
Proof.
  intros I Hi HP (Ha & _). wp_step. unfold ensure_bitmap. wp_step. apply (wp_get_proc _ P); [done |].
  destruct (p_bits P) eqn:Eb; [wp_step; by apply (wp_map_goes_on i o _ P) |]. destruct allocates; simpl; [| wp_step; by apply wp_map_ends]. wp_steps.
  eapply (wp_map_goes_on i o); [| done | by simpl; rewrite lookup_insert_eq | by split_and!].
  apply (inv_proc s (mp_pid o) P); try done. apply (lv_vec _ _ _ (pi_lists _ I) _ _ HP).
Qed.

Lemma wp_step_reserve i o P s :
  ports_inv s -> m_maps s !! i = Some o -> m_procs s !! mp_pid o = Some P -> mp_at o = ToReserve -> may_extend (mp_at o) P ->
  wp (ok ← reserve_mapped (mp_pid o); if (ok : bool) then map_goes_on i ToExtend else map_ends i MapNoMemory) (fun _ s' => ports_inv s') s.
Proof.
  intros I Hi HP Eat (Ha & Hb & _). wp_step. unfold reserve_mapped. wp_step. apply (wp_get_proc _ P); [done |]. wp_step. unfold on_heap, on_grants. wp_steps.
  apply wp_try_reserve. intros ok cap h Hok Hcap _. wp_steps. simpl. set (P' := set_mapped _ P). set (s1 := set_proc _ P' _).
  assert (ports_inv s1) as I1.
  { pose proof (lv_vec _ _ _ (pi_lists _ I) _ _ HP) as Hv. unfold vec_wf, vec_len in Hv.
    apply (inv_proc _ (mp_pid o) P); try done; [by apply inv_heap |]. unfold vec_wf, vec_len. simpl. lia. }
  destruct ok; [| by apply wp_map_ends]. apply (wp_map_goes_on i o _ P'); [done | done | simpl; by rewrite lookup_insert_eq |].
  split_and!; [done | | done]. intros _. apply Hb. congruence.
Qed.

(** The range is locked and marked, its ports not allowed yet. *)
Lemma inv_lock s i o r P :
  ports_inv s -> m_maps s !! i = Some o -> mp_at o = ToLock -> m_ranges s !! mp_rid o = Some r -> r_state r = Idle -> r_taking r = None ->
  m_procs s !! mp_pid o = Some P -> may_extend ToLock P ->
  ports_inv (set_range (mp_rid o) (mkRange (r_base r) (r_len r) (Mapped (mp_pid o)) None (Some false)) (set_maps (delete i (m_maps s)) s)).
Proof.
  intros [V B L W] Hi Eat Hr Hs Hn HP Hm. set (r' := mkRange _ _ _ _ _). split; simpl.
  - apply (spans_move _ _ _ _ _ V (mp_rid o) r); try done. by left; rewrite Hs.
  - apply (bits_relock _ _ _ _ _ B (mp_rid o) r r' (mp_pid o) P); try done; [by apply Hm |]. intros pid'. unfold mapped_to. split; intros (_ & Hst & _ & Hmf).
    + by destruct Hmf.
    + congruence.
  - assert (forall pid', held (Some r') pid' = false) as Hno.
    { intros pid'. simpl. apply bool_decide_eq_false. by intros [_ ?]. }
    apply (lists_less _ _ _ L); unfold owed.
    + intros pid' rid'. destruct (decide (mp_rid o = rid')) as [<- |]; [rewrite lookup_insert_eq, Hno; lia | by rewrite lookup_insert_ne].
    + intros pid' rid'. destruct (decide (mp_rid o = rid')) as [<- |]; [by rewrite lookup_insert_eq, Hno | by rewrite lookup_insert_ne].
    + intros pid' Q rid' _ _ Hsome. destruct (decide (mp_rid o = rid')) as [<- |]; [by rewrite lookup_insert_eq | by rewrite lookup_insert_ne].
    + auto.
  - pose proof (maps_fewer _ _ _ W i) as W'. by apply (maps_locked _ _ _ W' (mp_rid o) (mkRange (r_base r) (r_len r) (Mapped (mp_pid o)) None None) (mp_pid o) P).
Qed.

Lemma wp_map_step i allocates s : ports_inv s -> enabled (MapStep i allocates) s = true -> wp (map_step i allocates) (fun _ s' => ports_inv s') s.
Proof.
  intros I Hen. simpl in Hen. destruct (m_maps s !! i) as [o |] eqn:Hi; [| done]. destruct (map_has s i o I Hi) as ([r Hr] & P & HP & Hm).
  unfold map_step. wp_steps. apply (wp_assert_some _ o); [done |]. destruct (mp_at o) eqn:Eat.
  - apply (wp_step_bitmap i o P); try done. by rewrite Eat.
  - apply (wp_step_reserve i o P); try done. by rewrite Eat.
  - wp_step. apply (wp_get_proc _ P); [done |]. destruct (p_terminating P) eqn:Et; [by apply wp_map_ends |].
    apply (wp_map_goes_on i o _ P); try done. destruct Hm as (Ha & Hb & _). split_and!; [done | by intros _; apply Hb |]. intros _.
    destruct (p_giving P) eqn:Eg; [| done]. destruct (lv_going _ _ _ (pi_lists _ I) _ _ HP); [by rewrite Eg | congruence ..].
  - apply orb_true_iff in Hen as [Hen%bool_decide_eq_true | Hu]; [done |]. unfold unlocked in Hu. rewrite Hr in Hu. apply bool_decide_eq_true in Hu as [Ht _].
    wp_step. apply (wp_get_range _ r); [done |]. destruct (r_state r) eqn:Es; [| by apply wp_map_ends ..]. wp_steps. by apply (inv_lock s i o r P).
Qed.

(** The ports are allowed. *)
Lemma inv_allow s rid r pid P :
  ports_inv s -> m_ranges s !! rid = Some r -> r_state r = Mapped pid -> r_taking r = None -> r_mapping r = Some false -> m_procs s !! pid = Some P ->
  may_extend ToLock P ->
  ports_inv (set_range rid (mkRange (r_base r) (r_len r) (Mapped pid) None (Some true)) (set_proc pid (set_mem (change (r_base r) (r_len r) true (p_mem P)) P) s)).
Proof.
  intros [V B L W] Hr Hs Hn Hmf HP Hm. pose proof Hm as (Ha & Hb & Hg). set (r' := mkRange _ _ _ _ _). split; simpl.
  - apply (spans_move _ _ _ _ _ V rid r); try done. by left; rewrite Hs.
  - apply (bits_map _ _ _ _ _ B rid r pid P); try done; [by apply (sv_range _ _ _ _ _ V) in Hr as [_ ?] | by apply Hb].
  - assert (list_inv (m_procs s) (<[rid := r']> (m_ranges s)) (m_todo s)) as L'.
    { assert (forall pid' rid', held (<[rid := r']> (m_ranges s) !! rid') pid' = held (m_ranges s !! rid') pid') as Hh.
      { intros pid' rid'. destruct (decide (rid = rid')) as [<- |]; [| by rewrite lookup_insert_ne]. rewrite lookup_insert_eq, Hr. simpl. rewrite Hn, Hmf.
        rewrite !bool_decide_false; [done | by intros [_ ?] ..]. }
      apply (lists_less _ _ _ L); unfold owed; [intros; by rewrite Hh | intros pid' rid'; by rewrite Hh | | auto].
      intros pid' Q rid' _ _ Hsome. destruct (decide (rid = rid')) as [<- |]; [by rewrite lookup_insert_eq | by rewrite lookup_insert_ne]. }
    apply (lists_proc _ _ _ L' pid P); try done. apply (lv_vec _ _ _ L _ _ HP).
  - assert (maps_inv (m_procs s) (<[rid := r']> (m_ranges s)) (m_maps s)) as W' by (by apply (maps_locked _ _ _ W rid r pid P)).
    by apply (maps_proc_same _ _ _ W' pid P).
Qed.

(** The range is on the list and its lock given up. *)
Lemma inv_listed s rid r pid P cap h :
  ports_inv s -> m_ranges s !! rid = Some r -> r_state r = Mapped pid -> r_taking r = None -> r_mapping r = Some true -> m_procs s !! pid = Some P ->
  may_extend ToLock P -> (S (vec_len (p_mapped P)) <= cap)%nat ->
  ports_inv (set_range rid (mkRange (r_base r) (r_len r) (Mapped pid) None None)
    (set_proc pid (set_mapped (Vec (items (p_mapped P) ++ [rid]) cap) P) (set_grants (mkGrants (table (m_grants s)) h) s))).
Proof.
  intros [V B L W] Hr Hs Hn Hmt HP Hm Hcap. pose proof Hm as (Ha & Hb & Hg). set (r' := mkRange _ _ _ _ _). set (P' := set_mapped _ P). split; simpl.
  - apply (spans_move _ _ _ _ _ V rid r); try done. by left; rewrite Hs.
  - assert (bits_inv (m_procs s) (<[rid := r']> (m_ranges s)) (m_cores s) (m_loose s ++ m_handed s) (m_next s)) as B'.
    { apply (bits_relock _ _ _ _ _ B rid r r' pid P); try done; [by apply Hb |]. intros pid'. unfold mapped_to. rewrite lookup_insert_eq, Hr, Hs, Hmt, Hn. naive_solver. }
    apply (bits_same_mem _ _ _ _ _ B' pid P P'); try done. by left.
  - apply (lists_map _ _ _ L pid P P' rid r r'); try done; [by apply Hg | |].
    + unfold vec_wf, vec_len in *. simpl. rewrite length_app. simpl. lia.
    + intros pid'. simpl. destruct (Z.eqb_spec pid pid') as [-> |]; [by rewrite bool_decide_true | rewrite bool_decide_false; [done |]]. by intros [[=] _].
  - assert (maps_inv (m_procs s) (<[rid := r']> (m_ranges s)) (m_maps s)) as W' by (by apply (maps_range _ _ _ W)).
    by apply (maps_proc_same _ _ _ W' pid P).
Qed.

(** A map finds the slot it reserved taken and the heap refuses another. *)
Definition starved (a : Action) (s : Ports) : Prop :=
  exists rid r pid P, a = MapLocked rid /\ m_ranges s !! rid = Some r /\ r_state r = Mapped pid /\ r_mapping r = Some true /\
    m_procs s !! pid = Some P /\ vec_len (p_mapped P) = capacity (p_mapped P) /\ default None (head (gheap (m_grants s))) = None.

Lemma starved_aborts s rid r pid P :
  m_ranges s !! rid = Some r -> r_state r = Mapped pid -> r_mapping r = Some true -> m_procs s !! pid = Some P ->
  vec_len (p_mapped P) = capacity (p_mapped P) -> default None (head (gheap (m_grants s))) = None -> map_locked rid s = None.
Proof.
  intros Hr Hs Hm HP Hfull Hno.
  unfold map_locked, get_range, push_mapped, get_proc, on_heap, on_grants, zoom, vec_push, heap_ask, gets, assert_some, mbind, M_bind, mret, M_ret.
  rewrite Hr, Hs, Hm, HP, Hfull, Nat.ltb_irrefl. by destruct (gheap (m_grants s)) as [| [slack |] h].
Qed.

Lemma wp_map_locked rid s :
  ports_inv s -> enabled (MapLocked rid) s = true -> wp (map_locked rid) (fun _ s' => ports_inv s') s \/ (starved (MapLocked rid) s /\ map_locked rid s = None).
Proof.
  intros I Hen. simpl in Hen. destruct (m_ranges s !! rid) as [r |] eqn:Hr; [| done]. apply bool_decide_eq_true in Hen.
  destruct (mv_range _ _ _ (pi_maps _ I) rid r Hr Hen) as (Hn & pid & P & Hs & HP & Hm). destruct (r_mapping r) as [[|] |] eqn:Emap; [| left | done].
  - destruct (decide (vec_len (p_mapped P) = capacity (p_mapped P) /\ default None (head (gheap (m_grants s))) = None)) as [[Hfull Hno] | Hroom];
      [right; split; [by exists rid, r, pid, P | by apply (starved_aborts s rid r pid P)] | left].
    unfold map_locked. wp_step. apply (wp_get_range _ r); [done |]. rewrite Hs, Emap. unfold push_mapped. wp_steps. apply (wp_get_proc _ P); [done |].
    wp_step. unfold on_heap, on_grants. wp_steps. unfold vec_push. pose proof (lv_vec _ _ _ (pi_lists _ I) _ _ HP) as Hv. unfold vec_wf in Hv.
    destruct (Nat.ltb_spec (vec_len (p_mapped P)) (capacity (p_mapped P))).
    + wp_steps. apply (inv_listed s rid r pid P (capacity (p_mapped P)) (gheap (m_grants s))); try done.
    + wp_step. unfold heap_ask, wp at 1. destruct (gheap (m_grants s)) as [| [slack |] h] eqn:Eh; [by destruct Hroom; split; [lia |] | | by destruct Hroom; split; [lia |]].
      wp_steps. apply (inv_listed s rid r pid P); try done. lia.
  - unfold map_locked. wp_step. apply (wp_get_range _ r); [done |]. rewrite Hs, Emap. unfold change_ports. wp_steps. apply (wp_get_proc _ P); [done |].
    pose proof Hm as (Ha & Hb & Hg). rewrite Hb by done. wp_steps. by apply (inv_allow s rid r pid P).
Qed.

(** ** The cores *)

Lemma no_process_zero s : ports_inv s -> m_procs s !! 0 = None.
Proof. intros [_ B _ _]. destruct (m_procs s !! 0) as [P |] eqn:E; [| done]. destruct (bv_proc _ _ _ _ _ B _ _ E). lia. Qed.

Lemma inv_looked s which c :
  ports_inv s ->
  (forall k pid, m_cores s !! c = Some k -> c_running k = Some pid -> (which = None \/ which = Some pid) -> up_to_date (m_procs s) k) ->
  ports_inv (set_ranges (looked which c <$> m_ranges s) s).
Proof.
  intros [V B L W] Hup. assert (forall o pid, held (looked which c <$> o) pid = held o pid) as Hh.
  { intros [[b l st [t |] mp] |] pid; simpl; [| done ..]. by case_decide. }
  split; simpl; [by apply spans_looked | by apply bits_look | |].
  - apply (lists_less _ _ _ L); unfold owed.
    + intros pid rid. by rewrite lookup_fmap, Hh.
    + intros pid rid. by rewrite lookup_fmap, Hh.
    + intros pid P rid _ _ [r Hr]. rewrite lookup_fmap, Hr. eauto.
    + auto.
  - apply (maps_ranges _ _ _ W).
    + intros o _ [r Hr]. rewrite lookup_fmap, Hr. eauto.
    + intros rid r (r0 & <- & Hr0)%lookup_fmap_Some Hm. exists r0. split_and!; [done | done | | done]. simpl. by intros ->.
Qed.

(** The core takes up a copy of the process it runs, and has looked. *)
Lemma inv_core_copied s c k pid P whole io :
  ports_inv s -> m_cores s !! c = Some k -> m_procs s !! pid = Some P -> p_alive P = true ->
  copied (m_procs s) (m_next s) (p_mem P) whole io ->
  let s' := set_core c (mkCore (Some pid) io) s in ports_inv (set_ranges (looked None c <$> m_ranges s') s').
Proof.
  intros [V B L W] Hk HP Ha (Hrec & Hlet & _). assert (up_to_date (m_procs s) (mkCore (Some pid) io)) as Hup.
  { intros pid' [= <-]. by exists P. }
  apply inv_looked; [split; try done; by apply bits_core |]. intros k' pid' Hk' _ _. simpl in Hk'. rewrite lookup_insert_eq in Hk'. by simplify_eq.
Qed.

Lemma core_record s c k : ports_inv s -> m_cores s !! c = Some k -> record_ok (m_procs s) (m_next s) (c_io k).
Proof. intros [_ B _ _]. apply (bv_record _ _ _ _ _ B). Qed.

Lemma refreshed s c k gives_up pid P :
  ports_inv s -> m_cores s !! c = Some k -> m_procs s !! pid = Some P ->
  copied (m_procs s) (m_next s) (p_mem P) (negb gives_up) (refresh gives_up pid (p_mem P) (c_io k)).
Proof.
  intros I Hk HP. destruct (bv_proc _ _ _ _ _ (pi_bits _ I) _ _ HP) as [Hid Hm].
  apply refresh_copied; try done; [by apply (core_record s c) | by apply no_process_zero].
Qed.

Lemma wp_switch_in c pid gives_up s :
  ports_inv s -> core_exists c s = true -> alive pid s = true -> wp (switch_in c pid gives_up) (fun _ s' => ports_inv s') s.
Proof.
  intros I [k Hk]%bool_decide_eq_true Ha. unfold alive in Ha. destruct (m_procs s !! pid) as [P |] eqn:HP; [| done].
  unfold switch_in, look. wp_step. apply (wp_get_core _ k); [done |]. wp_step. apply (wp_get_proc _ P); [done |]. wp_steps.
  apply (inv_core_copied s c k pid P (negb gives_up)); try done. by apply (refreshed s c).
Qed.

Lemma wp_switch_to_idle c s : ports_inv s -> core_exists c s = true -> wp (switch_to_idle c) (fun _ s' => ports_inv s') s.
Proof.
  intros I [k Hk]%bool_decide_eq_true. unfold switch_to_idle, look. wp_step. apply (wp_get_core _ k); [done |]. wp_steps.
  apply inv_looked.
  - pose proof I as [V B L W]. split; try done. apply bits_core; [done | exact (core_record s c k I Hk) | by intros pid].
  - intros k' pid Hk' Hr _. simpl in Hk'. rewrite lookup_insert_eq in Hk'. by simplify_eq.
Qed.

Lemma wp_service c gives_up s (Q : unit -> Ports -> Prop) :
  ports_inv s -> core_exists c s = true -> (forall s', ports_inv s' -> m_procs s' = m_procs s -> Q tt s') -> wp (service c gives_up) Q s.
Proof.
  intros I [k Hk]%bool_decide_eq_true HQ. unfold service, look. wp_step. apply (wp_get_core _ k); [done |].
  destruct (c_running k) as [pid |] eqn:Er; wp_steps.
  - destruct (bv_run _ _ _ _ _ (pi_bits _ I) _ _ _ Hk Er) as (P & HP & Ha & _). apply (wp_get_proc _ P); [done |]. wp_steps.
    apply HQ; [| done]. apply (inv_core_copied s c k pid P (negb gives_up)); try done. by apply (refreshed s c).
  - apply HQ; [| done]. apply inv_looked; [done |]. intros k' pid Hk' Hr. by simplify_eq.
Qed.

Lemma wp_reload_if_running c pid gives_up s :
  ports_inv s -> core_exists c s = true -> wp (reload_if_running c pid gives_up) (fun _ s' => ports_inv s') s.
Proof.
  intros I Hc. pose proof Hc as [k Hk]%bool_decide_eq_true. unfold reload_if_running. wp_step. apply (wp_get_core _ k); [done |].
  case_decide as Hd; [by apply wp_service |]. unfold look. wp_step. apply inv_looked; [done |].
  intros k' pid' Hk' Hr [? | [= ->]]; [done |]. by simplify_eq.
Qed.

Lemma wp_pull_on_gp c gives_up s : ports_inv s -> core_exists c s = true -> wp (pull_on_gp c gives_up) (fun _ s' => ports_inv s') s.
Proof.
  intros I [k Hk]%bool_decide_eq_true. unfold pull_on_gp, look. wp_step. apply (wp_get_core _ k); [done |].
  destruct (c_running k) as [pid |] eqn:Er; [| by wp_step].
  destruct (bv_run _ _ _ _ _ (pi_bits _ I) _ _ _ Hk Er) as (P & HP & Ha & _). wp_step. apply (wp_get_proc _ P); [done |].
  destruct (stale _ _ _) eqn:Es; simpl; [| by wp_step]. wp_steps.
  apply (inv_core_copied s c k pid P (negb gives_up)); try done.
  destruct (bv_proc _ _ _ _ _ (pi_bits _ I) _ _ HP) as [Hid Hm]. apply copy_copied; try done; [by apply (core_record s c) | by apply no_process_zero].
Qed.

(** ** Taking back *)

Lemma mapped_live r pid : r_state r = Mapped pid -> live r.
Proof. intros E. left. by rewrite E. Qed.

(** The range is locked and its ports refused; the lists are its caller's. *)
Lemma inv_take s rid r pid P P' why st :
  ports_inv s -> m_ranges s !! rid = Some r -> r_state r = Mapped pid -> r_taking r = None -> m_procs s !! pid = Some P ->
  p_mem P' = change (r_base r) (r_len r) false (p_mem P) -> p_bits P' = p_bits P -> p_alive P' = p_alive P ->
  (p_giving P = None -> p_giving P' = None) -> (st = Mapped pid \/ st = Ended) ->
  let r' := mkRange (r_base r) (r_len r) st (Some (mkTaking why pid ∅)) None in
  list_inv (<[pid := P']> (m_procs s)) (<[rid := r']> (m_ranges s)) (m_todo s) -> ports_inv (set_proc pid P' (set_range rid r' s)).
Proof.
  intros [V B _ W] Hr Hm Hn HP Em Eb Ea Eg Hst r' L. split; simpl; [| | done |].
  - apply (spans_move _ _ _ _ _ V rid r); try done. by apply (mapped_live _ pid).
  - assert (bits_inv (<[pid := set_mem (change (r_base r) (r_len r) false (p_mem P)) P]> (m_procs s)) (<[rid := r']> (m_ranges s)) (m_cores s) (m_loose s ++ m_handed s) (m_next s)) as B'.
    { apply bits_take; try done; [by apply (sv_range _ _ _ _ _ V) in Hr as [_ ?] |].
      intros rid' r1 p (Hr1 & Hm1 & _) Hc1 Hc. apply (live_disjoint _ _ _ _ _ rid' r1 rid r p V); try done; by apply (mapped_live _ pid). }
    rewrite <- (insert_insert_eq (m_procs s) pid P' (set_mem (change (r_base r) (r_len r) false (p_mem P)) P)).
    eapply (bits_same_mem _ _ _ _ _ B'); [by rewrite lookup_insert_eq | done | simpl; congruence | simpl; congruence |].
    destruct (p_alive P') eqn:E; [by left | right]. intros c k Hc Hrun. destruct (bv_run _ _ _ _ _ B _ _ _ Hc Hrun) as (Q & HQ & Hal & _). congruence.
  - assert (maps_inv (m_procs s) (<[rid := r']> (m_ranges s)) (m_maps s)) as W' by (by apply (maps_range _ _ _ W)).
    apply (maps_proc_same _ _ _ W' pid P); try done. congruence.
Qed.

Lemma wp_take_back why rid r pid P st c gives_up s :
  m_ranges s !! rid = Some r -> m_procs s !! pid = Some P -> p_bits P = true -> core_exists c s = true ->
  ports_inv (set_proc pid (set_mem (change (r_base r) (r_len r) false (p_mem P)) P)
    (set_range rid (mkRange (r_base r) (r_len r) st (Some (mkTaking why pid ∅)) None) s)) ->
  wp (take_back why rid pid st c gives_up) (fun _ s' => ports_inv s') s.
Proof.
  intros Hr HP Hb Hc I. unfold take_back. wp_step. apply (wp_get_range _ r); [done |]. wp_steps. unfold change_ports. wp_step.
  apply (wp_get_proc _ P); [done |]. rewrite Hb. wp_step. by apply wp_reload_if_running.
Qed.

(** An unmap and a revocation leave the range on its list until the round is over. *)
Lemma lists_take s rid r pid P why st :
  ports_inv s -> m_ranges s !! rid = Some r -> r_state r = Mapped pid -> r_taking r = None -> r_mapping r = None -> m_procs s !! pid = Some P -> why <> GiveBack ->
  list_inv (<[pid := set_mem (change (r_base r) (r_len r) false (p_mem P)) P]> (m_procs s))
    (<[rid := mkRange (r_base r) (r_len r) st (Some (mkTaking why pid ∅)) None]> (m_ranges s)) (m_todo s).
Proof.
  intros [_ _ L _] Hr Hm Hn Hmap HP Hwhy. set (r' := mkRange _ _ _ _ _).
  assert (forall pid' rid', held (<[rid := r']> (m_ranges s) !! rid') pid' = held (m_ranges s !! rid') pid') as Hh.
  { intros pid' rid'. destruct (decide (rid = rid')) as [<- |]; [| by rewrite lookup_insert_ne]. rewrite lookup_insert_eq, Hr. simpl. rewrite Hn, Hm, Hmap.
    destruct why; try done; (destruct (Z.eqb_spec pid pid'); [by subst; rewrite bool_decide_true | rewrite bool_decide_false; [done | by intros [[=] _]]]). }
  assert (list_inv (m_procs s) (<[rid := r']> (m_ranges s)) (m_todo s)) as L'.
  { apply (lists_less _ _ _ L); unfold owed; [intros; by rewrite Hh | intros pid' rid'; by rewrite Hh | | auto].
    intros pid' Q rid' _ _ Hs. destruct (decide (rid = rid')) as [<- |]; [by rewrite lookup_insert_eq | by rewrite lookup_insert_ne]. }
  apply (lists_proc _ _ _ L' pid P); try done. apply (lv_vec _ _ _ L _ _ HP).
Qed.

(** The process a range is mapped into has its bitmap. *)
Lemma holder_proc s rid r pid :
  ports_inv s -> m_ranges s !! rid = Some r -> r_state r = Mapped pid -> exists P, m_procs s !! pid = Some P /\ p_bits P = true.
Proof. intros [_ B _ _] Hr Hm. apply (bv_holder _ _ _ _ _ B rid r pid Hr). by left. Qed.

Lemma unlocked_range rid s : unlocked rid s = true -> exists r, m_ranges s !! rid = Some r /\ r_taking r = None /\ r_mapping r = None.
Proof. unfold unlocked. destruct (m_ranges s !! rid) as [r |]; [| done]. intros H%bool_decide_eq_true. by exists r. Qed.

Lemma wp_unmap_from rid pid c gives_up s :
  ports_inv s -> unlocked rid s = true -> core_exists c s = true -> wp (unmap_from rid pid c gives_up) (fun _ s' => ports_inv s') s.
Proof.
  intros I (r & Hr & Hn & Hmap)%unlocked_range Hc. unfold unmap_from. wp_step. apply (wp_get_range _ r); [done |].
  destruct (r_state r) as [| holder |] eqn:Es; [by wp_step | | by wp_step]. case_decide as Hd; [subst holder | by wp_step].
  destruct (holder_proc s rid r pid I Hr Es) as (P & HP & Hb). wp_step.
  apply (wp_mono _ (fun _ s' => ports_inv s')); [| by intros [] s' I'; wp_step].
  apply (wp_take_back _ _ r _ P); try done. apply (inv_take s rid r pid P); try done; [by left |]. by apply lists_take.
Qed.

(** A range with no live holder ends at once. *)
Lemma inv_end_now s rid r :
  ports_inv s -> m_ranges s !! rid = Some r -> r_state r <> Ended -> r_taking r = None ->
  (forall pid P, r_state r = Mapped pid -> m_procs s !! pid = Some P -> p_alive P = false) ->
  let s' := set_range rid (mkRange (r_base r) (r_len r) Ended None None) s in ports_inv (set_todo (m_todo s' ++ [EndGrant rid true]) s').
Proof.
  intros [V B L W] Hr Hne Hn Hdead. split; simpl.
  - apply (spans_ended _ _ _ _ _ V rid r); try done; [by left | by intros [? | ?] | by intros x ?%elem_of_nil].
  - apply (bits_quiet _ _ _ _ _ B rid); [by rewrite Hr | rewrite lookup_insert_eq; by split | rewrite lookup_insert_eq; by intros ? ? [= <-] |].
    intros rid' Hne'. by rewrite lookup_insert_ne.
  - apply (lists_less _ _ _ L); unfold owed.
    + intros pid rid'. rewrite cnt_app. replace (cnt (Forget pid rid') [EndGrant rid true]) with 0%nat by done.
      destruct (decide (rid = rid')) as [<- |]; [rewrite lookup_insert_eq | rewrite lookup_insert_ne by done]; simpl; lia.
    + intros pid rid'. destruct (decide (rid = rid')) as [<- |]; [by rewrite lookup_insert_eq | by rewrite lookup_insert_ne].
    + intros pid P rid' _ _ Hs. destruct (decide (rid = rid')) as [<- |]; [by rewrite lookup_insert_eq | by rewrite lookup_insert_ne].
    + intros pid rid'. rewrite elem_of_app, list_elem_of_singleton. intros [? | [=]]. by left.
  - by apply (maps_range _ _ _ W).
Qed.

Lemma wp_revoke rid c gives_up s :
  ports_inv s -> unlocked rid s = true -> core_exists c s = true -> wp (revoke rid c gives_up) (fun _ s' => ports_inv s') s.
Proof.
  intros I (r & Hr & Hn & Hmap)%unlocked_range Hc. unfold revoke, later. wp_step. apply (wp_get_range _ r); [done |].
  destruct (r_state r) as [| pid |] eqn:Es; [| | by wp_step].
  - wp_steps. apply inv_end_now; [done | done | by rewrite Es | done | by rewrite Es].
  - destruct (holder_proc s rid r pid I Hr Es) as (P & HP & Hb). wp_step. apply (wp_get_proc _ P); [done |]. destruct (p_alive P) eqn:Ea.
    + apply (wp_take_back _ _ r _ P); try done. apply (inv_take s rid r pid P); try done; [by right |]. by apply lists_take.
    + wp_steps. apply inv_end_now; [done | done | by rewrite Es | done |]. rewrite Es. intros pid' P' [= <-] HP'. congruence.
Qed.

(** ** What the teardown gives back *)

(** No map into the process is past its guard. *)
Lemma not_extending s pid :
  extending pid s = false ->
  (forall o, o ∈ m_maps s -> mp_pid o = pid -> mp_at o <> ToLock) /\
  (forall rid r, m_ranges s !! rid = Some r -> r_mapping r <> None -> r_state r <> Mapped pid).
Proof.
  intros [Ho Hr]%orb_false_iff. unfold locked_for in Hr. rewrite existsb_false in Ho. rewrite existsb_false in Hr. split.
  - intros o Hin Hp Hat. specialize (Ho o Hin). apply andb_false_iff in Ho as [Ho%Z.eqb_neq | Ho%bool_decide_eq_false]; done.
  - intros rid r Hrid Hm Hs. specialize (Hr (rid, r) (proj2 (elem_of_map_to_list _ _ _) Hrid)). apply bool_decide_eq_false in Hr. by apply Hr.
Qed.

Lemma wp_give_back_all pid P s :
  ports_inv s -> m_procs s !! pid = Some P -> (p_terminating P && negb (extending pid s)) || negb (p_alive P) = true ->
  wp (give_back_all pid) (fun _ s' => ports_inv s') s.
Proof.
  intros [V B L W] HP Ht. unfold give_back_all. wp_step. apply (wp_get_proc _ P); [done |]. wp_step. split; simpl; [done | | |].
  - apply (bits_same_mem _ _ _ _ _ B pid P); try done. simpl. destruct (p_alive P) eqn:Ea; [by left | right]. intros c k Hc Hr.
    destruct (bv_run _ _ _ _ _ B _ _ _ Hc Hr) as (Q & HQ & Hal & _). congruence.
  - apply (lists_give_all _ _ _ L pid P); try done. simpl. apply orb_true_iff in Ht as [[? _]%andb_true_iff | ?%negb_true_iff]; auto.
  - apply orb_true_iff in Ht as [[_ [Ho Hr]%negb_true_iff%not_extending]%andb_true_iff | Hd%negb_true_iff]; apply (maps_proc _ _ _ W pid P); try done.
    + intros o Hin Hp (Ha & Hb & _). split_and!; [done | done |]. intros Hat. by destruct (Ho o Hin Hp).
    + intros rid r Hrid Hm Hs. by destruct (Hr rid r Hrid Hm).
    + intros o _ _ (Ha & _). congruence.
    + intros rid r _ _ _ (Ha & _). congruence.
Qed.

Lemma wp_give_back pid P rid rest c gives_up s :
  ports_inv s -> m_procs s !! pid = Some P -> p_giving P = Some (rid :: rest) -> unlocked rid s = true -> core_exists c s = true ->
  wp (give_back pid c gives_up) (fun _ s' => ports_inv s') s.
Proof.
  intros I HP Eg (r & Hr & Hn & Hmap)%unlocked_range Hc. pose proof I as [V B L W]. unfold give_back. wp_step. apply (wp_get_proc _ P); [done |]. rewrite Eg. wp_steps.
  apply (wp_get_range _ r); [done |]. set (P1 := mkProc _ _ _ _ _ _). case_decide as Hd.
  - destruct (holder_proc s rid r pid I Hr Hd) as (P0 & HP0 & Hb). simplify_eq.
    apply (wp_take_back _ _ r _ P1); try done; [by simpl; rewrite lookup_insert_eq |].
    set (r' := mkRange _ _ _ _ _). set (P2 := set_mem _ P1). assert (ports_inv (set_proc pid P2 (set_range rid r' s))) as I'.
    + apply (inv_take s rid r pid P P2); try done; [congruence | by left |]. apply (lists_give_one _ _ _ L pid P P2 rid rest); try done.
      * intros rid' Hs. destruct (decide (rid = rid')) as [<- |]; [by rewrite lookup_insert_eq | by rewrite lookup_insert_ne].
      * intros pid' rid'. destruct (decide (rid = rid')) as [<- |]; [by rewrite lookup_insert_eq | by rewrite lookup_insert_ne].
      * by rewrite lookup_insert_eq.
    + unfold set_proc, set_range in *. simpl in *. by rewrite insert_insert_eq.
  - wp_step. split; simpl; [done | | | by apply (maps_proc_same _ _ _ W pid P); [.. | congruence]].
    + apply (bits_same_mem _ _ _ _ _ B pid P); try done. simpl. destruct (p_alive P) eqn:Ea; [by left | right]. intros c' k Hc' Hrun.
      destruct (bv_run _ _ _ _ _ B _ _ _ Hc' Hrun) as (Q & HQ & Hal & _). congruence.
    + apply (lists_give_one _ _ _ L pid P P1 rid rest); try done. rewrite Hr. simpl. rewrite Hn, bool_decide_false; [done | by intros [? _]].
Qed.

(** ** The end of a round *)

Lemma cnt_end pid rid rid' b l : cnt (Forget pid rid) (EndGrant rid' b :: l) = cnt (Forget pid rid) l.
Proof. by rewrite cnt_cons, decide_False. Qed.

(** The lists when a round is over: what was held is to be forgotten. *)
Lemma lists_round s rid r t confirmed :
  ports_inv s -> m_ranges s !! rid = Some r -> r_taking r = Some t ->
  list_inv (m_procs s) (<[rid := mkRange (r_base r) (r_len r) (wind_up (tk_why t) rid (tk_pid t) confirmed).1 None None]> (m_ranges s))
    (m_todo s ++ (wind_up (tk_why t) rid (tk_pid t) confirmed).2).
Proof.
  intros [_ B L W] Hr Ht. set (r' := mkRange _ _ _ _ _). assert (forall pid', held (Some r') pid' = false) as Hno.
  { intros pid'. unfold r'. simpl. apply bool_decide_eq_false. intros [? _]. by destruct (tk_why t), confirmed. }
  destruct (bv_holder _ _ _ _ _ B rid r (tk_pid t) Hr) as (P & HP & _); [right; by exists t |].
  apply (lists_less _ _ _ L); unfold owed.
  - intros pid rid'. rewrite cnt_app. destruct (decide (rid = rid')) as [<- | Hne]; [rewrite lookup_insert_eq, Hno, Hr | rewrite lookup_insert_ne by done]; simpl.
    + rewrite Ht. destruct (tk_why t), confirmed; simpl; rewrite ?cnt_end, ?cnt_cons; unfold cnt; simpl; try lia;
        (case_decide as Hd; [injection Hd as <-; rewrite Z.eqb_refl | case_match]; lia).
    + assert (cnt (Forget pid rid') (wind_up (tk_why t) rid (tk_pid t) confirmed).2 = 0%nat) as ->; [| lia].
      destruct (tk_why t), confirmed; simpl; rewrite ?cnt_end, ?cnt_cons; unfold cnt; simpl; try done; by rewrite decide_False by congruence.
  - intros pid rid'. destruct (decide (rid = rid')) as [<- |]; [rewrite lookup_insert_eq, Hno; done | by rewrite lookup_insert_ne].
  - intros pid Q rid' _ _ Hs. destruct (decide (rid = rid')) as [<- |]; [by rewrite lookup_insert_eq | by rewrite lookup_insert_ne].
  - intros pid rid'. rewrite elem_of_app. intros [? | Hin]; [by left | right]. assert (pid = tk_pid t) as -> by (destruct (tk_why t), confirmed; set_solver). eauto.
Qed.

Lemma taking_live r t : r_taking r = Some t -> live r.
Proof. intros E. right. by rewrite E. Qed.

Definition left_loose (unreached : bool) (r : Range) (t : TakeBack) : list (Z * Z * Z) :=
  if unreached then [(tk_pid t, r_base r, r_base r + r_len r)] else [].

Lemma spans_round s rid r t confirmed :
  ports_inv s -> m_ranges s !! rid = Some r -> r_taking r = Some t ->
  span_inv (table (m_grants s)) (<[rid := mkRange (r_base r) (r_len r) (wind_up (tk_why t) rid (tk_pid t) confirmed).1 None None]> (m_ranges s))
    (m_todo s ++ (wind_up (tk_why t) rid (tk_pid t) confirmed).2) (m_loose s ++ left_loose (negb confirmed && negb (returns rid s)) r t) (m_next s).
Proof.
  intros [V _ _ _] Hr Ht. pose proof (taking_live r t Ht) as Hl. set (r' := mkRange _ _ _ _ _).
  assert (forall b tails, r_state r' = Ended -> (forall x, x ∈ tails -> exists pid rid, x = Forget pid rid) ->
    span_inv (table (m_grants s)) (<[rid := r']> (m_ranges s)) (m_todo s ++ EndGrant rid b :: tails) (m_loose s) (m_next s)) as Hended.
  { intros b tails He Htails. apply (spans_ended _ _ _ _ _ V rid r); try done. intros [Hs | Hs]; [by rewrite He in Hs | done]. }
  assert (forall x, x ∈ [Forget (tk_pid t) rid] -> exists pid rid, x = Forget pid rid) as Hf by (intros x ->%list_elem_of_singleton; eauto).
  assert (forall x, x ∈ ([] : list Tail) -> exists pid rid, x = Forget pid rid) as Hnil by (by intros x ?%elem_of_nil).
  destruct confirmed; simpl; [rewrite app_nil_r | destruct (returns rid s) eqn:Hret; simpl; [rewrite app_nil_r |]].
  - destruct (tk_why t); simpl in *.
    + apply spans_more_forgets. by apply (spans_move _ _ _ _ _ V rid r).
    + by apply Hended.
    + rewrite app_nil_r. by apply (spans_move _ _ _ _ _ V rid r).
  - destruct (tk_why t); by apply Hended.
  - assert (forall tails, r_state r' = Ended -> (forall x, x ∈ tails -> exists pid rid, x = Forget pid rid) ->
      span_inv (table (m_grants s)) (<[rid := r']> (m_ranges s)) (m_todo s ++ EndGrant rid false :: tails)
        (m_loose s ++ [(tk_pid t, r_base r, r_base r + r_len r)]) (m_next s)) as Hloose.
    { intros tails He Htails. apply (spans_loose _ _ _ _ _ (Hended false tails He Htails) rid r').
      - by rewrite lookup_insert_eq.
      - apply elem_of_app. right. by left.
      - apply (sv_span _ _ _ _ _ V rid r Hr Hl).
      - intros sp Hsp Ho. unfold returns in Hret. rewrite existsb_false in Hret. specialize (Hret sp Hsp).
        rewrite (proj2 (Z.eqb_eq _ _) Ho) in Hret. simpl in Hret. apply bool_decide_eq_false in Hret. by apply eq_None_not_Some.
      - intros x p Hx Hp. by apply (loose_not_live _ _ _ _ _ x rid r p V). }
    destruct (tk_why t); by apply Hloose.
Qed.

(** What [record_loose] adds, and to which of the two. *)
Lemma wp_record_loose confirmed rid pid r (Q : unit -> Ports -> Prop) s :
  let l := left_loose (negb confirmed && negb (returns rid s)) r (mkTaking Unmap pid ∅) in
  let h := left_loose (negb confirmed && returns rid s) r (mkTaking Unmap pid ∅) in
  Q tt (add_handed h (add_loose l s)) -> wp (if confirmed then mret tt else record_loose rid pid r) Q s.
Proof.
  intros l h HQ. destruct confirmed; simpl in *.
  - wp_step. unfold add_handed, add_loose in HQ. simpl in HQ. rewrite !app_nil_r in HQ. by destruct s.
  - unfold record_loose. wp_steps. unfold add_handed, add_loose in HQ.
    destruct (returns rid s); simpl in *; rewrite ?app_nil_r in HQ; exact HQ.
Qed.

Lemma wp_round_over rid r t confirmed s :
  ports_inv s -> m_ranges s !! rid = Some r -> r_taking r = Some t -> (confirmed = true -> dom (m_cores s) ⊆ tk_done t) ->
  wp (round_over rid confirmed) (fun _ s' => ports_inv s') s.
Proof.
  intros I Hr Ht Hc. pose proof (lists_round s rid r t confirmed I Hr Ht) as L'.
  pose proof (spans_round s rid r t confirmed I Hr Ht) as V'.
  unfold round_over, later. wp_step. apply (wp_get_range _ r); [done |]. wp_step. apply (wp_assert_some _ t); [done |]. wp_step. apply wp_record_loose.
  destruct (wind_up (tk_why t) rid (tk_pid t) confirmed) as [st tails] eqn:E. simpl in *. wp_steps.
  split; simpl; [exact V' | | exact L' | by apply (maps_range _ _ _ (pi_maps _ I))].
  apply (bits_loose _ _ _ ((m_loose s ++ m_handed s) ++ left_loose (negb confirmed) r t)).
  - apply (bits_round _ _ _ _ _ (pi_bits _ I) rid r t); [done | done | |].
    + destruct (tk_why t), confirmed; injection E as <- _; auto.
    + destruct confirmed; [left; by apply Hc | right]. intros p Hp. exists (tk_pid t, r_base r, r_base r + r_len r). split; [by left | done].
  - intros x. destruct confirmed, (returns rid s); simpl; set_solver.
Qed.

(** ** What is left of an operation *)

Lemma wp_forget_tail pid rid s rest :
  ports_inv s -> m_todo s ≡ₚ Forget pid rid :: rest -> wp (forget pid rid) (fun _ s' => ports_inv s') (set_todo rest s).
Proof.
  intros [V B L W] Hp. destruct (lv_forget _ _ _ L pid rid) as [P HP]; [rewrite Hp; by left |].
  pose proof (spans_fewer_forgets _ _ _ _ _ V rest pid rid Hp) as V'. pose proof (lv_vec _ _ _ L _ _ HP) as Hv.
  unfold forget. wp_step. apply (wp_get_proc _ P); [done |]. destruct (list_find _ _) as [[i x] |] eqn:Ef.
  - apply list_find_Some in Ef as (Hi & -> & _). pose proof (swap_remove_perm _ _ _ Hi) as Hperm. wp_step. split; simpl; [done | | | by apply (maps_proc_same _ _ _ W pid P)].
    + apply (bits_same_mem _ _ _ _ _ B pid P); try done. simpl. destruct (p_alive P) eqn:Ea; [by left | right]. intros c k Hc Hr.
      destruct (bv_run _ _ _ _ _ B _ _ _ Hc Hr) as (Q & HQ & Hal & _). congruence.
    + apply (lists_forget _ _ _ L pid P rid rest); try done; [| by left]. unfold vec_wf, vec_len in *. simpl. rewrite Hperm in Hv. simpl in Hv. lia.
  - wp_step. split; simpl; [done | done | | done]. rewrite <- (insert_id (m_procs s) pid P HP).
    apply (lists_forget _ _ _ L pid P rid rest P); try done. right. split; [| done]. apply list_find_None in Ef. rewrite Forall_forall in Ef.
    intros Hin. by apply (Ef rid Hin).
Qed.

Lemma wp_end_tail rid b s rest :
  ports_inv s -> m_todo s ≡ₚ EndGrant rid b :: rest -> wp (on_grants (end_grant rid b)) (fun _ s' => ports_inv s') (set_todo rest s).
Proof.
  intros [V B L W] Hp. unfold on_grants. wp_step. eapply wp_mono; [apply wp_end_grant, V |]. intros [] g' Hend. split; simpl; [| done | | done].
  - eapply (spans_end_grant _ _ _ _ _ V); [reflexivity | exact Hend | done].
  - apply (lists_less _ _ _ L); unfold owed; try done.
    + intros pid rid'. by rewrite Hp, cnt_end.
    + intros pid rid' Hin. left. rewrite Hp. by right.
Qed.

Lemma wp_run_tail i s : ports_inv s -> (i < length (m_todo s))%nat -> wp (run_tail i) (fun _ s' => ports_inv s') s.
Proof.
  intros I Hi. destruct (lookup_lt_is_Some_2 _ _ Hi) as [x Hx]. pose proof (delete_Permutation _ _ _ Hx) as Hp.
  unfold run_tail. wp_steps. apply (wp_assert_some _ x); [done |]. wp_steps.
  destruct x; [by apply wp_end_tail | by apply wp_forget_tail].
Qed.

(** A range nothing refers to is mapped nowhere, so its grant can end unasked. *)
Lemma dropped_not_held s rid r :
  ports_inv s -> m_ranges s !! rid = Some r -> r_taking r = None -> r_mapping r = None -> referenced rid s = false -> forall pid, r_state r <> Mapped pid.
Proof.
  intros I Hr Hn Hmap Href pid Hm. destruct (holder_proc s rid r pid I Hr Hm) as (P & HP & _). pose proof (pi_lists _ I) as L.
  assert (held (m_ranges s !! rid) pid = true) as Hh by (rewrite Hr; simpl; by rewrite Hn, Hmap, bool_decide_true).
  unfold referenced in Href. apply orb_false_iff in Href as [[Href _]%orb_false_iff _]. rewrite existsb_false in Href.
  specialize (Href (pid, P) (proj2 (elem_of_map_to_list _ _ _) HP)). apply bool_decide_eq_false in Href. apply Href. simpl. apply elem_of_app.
  destruct (p_giving P) as [l |] eqn:Eg; [right; by apply (lv_giving _ _ _ L pid P) | left; apply cnt_pos].
  pose proof (lv_mapped _ _ _ L pid P rid HP Eg) as Ho. unfold owed in Ho. rewrite Hh in Ho. lia.
Qed.

Lemma inv_gone s rid r :
  ports_inv s -> m_ranges s !! rid = Some r -> r_taking r = None -> r_state r = Ended -> referenced rid s = false -> ports_inv (set_ranges (delete rid (m_ranges s)) s).
Proof.
  intros [V B L W] Hr Hn He Href. unfold referenced in Href. apply orb_false_iff in Href as [[Hlists Htodo]%orb_false_iff Hmaps].
  rewrite existsb_false in Hlists. rewrite existsb_false in Htodo. rewrite existsb_false in Hmaps.
  split; simpl.
  - apply (spans_gone _ _ _ _ _ V rid r); [done | by intros [? | ?] |]. rewrite elem_of_ends. intros [b Hin]. specialize (Htodo _ Hin). simpl in Htodo. lia.
  - apply (bits_quiet _ _ _ _ _ B rid); [rewrite Hr; split; [done | by rewrite He] | by rewrite lookup_delete_eq | by rewrite lookup_delete_eq |].
    intros rid' Hne. by rewrite lookup_delete_ne.
  - apply (lists_less _ _ _ L); unfold owed.
    + intros pid rid'. destruct (decide (rid = rid')) as [<- |]; [rewrite lookup_delete_eq; simpl; lia | by rewrite lookup_delete_ne].
    + intros pid rid'. destruct (decide (rid = rid')) as [<- |]; [by rewrite lookup_delete_eq | by rewrite lookup_delete_ne].
    + intros pid P rid' HP Hin Hs. rewrite lookup_delete_ne; [done |]. intros <-.
      specialize (Hlists (pid, P) (proj2 (elem_of_map_to_list _ _ _) HP)). by apply bool_decide_eq_false in Hlists.
    + auto.
  - apply (maps_ranges _ _ _ W).
    + intros o Hin Hs. rewrite lookup_delete_ne; [done |]. intros E. specialize (Hmaps o Hin). simpl in Hmaps. lia.
    + intros rid' r1 [_ Hr1]%lookup_delete_Some Hm. by exists r1.
Qed.

Lemma wp_drop_range rid s : ports_inv s -> unlocked rid s = true -> referenced rid s = false -> wp (drop_range rid) (fun _ s' => ports_inv s') s.
Proof.
  intros I (r & Hr & Hn & Hmap)%unlocked_range Href. unfold drop_range. wp_step. apply (wp_get_range _ r); [done |]. wp_step. case_decide as Hd; wp_steps.
  - by apply (inv_gone s rid r).
  - pose proof (dropped_not_held s rid r I Hr Hn Hmap Href) as Hnot.
    pose proof (inv_end_now s rid r I Hr Hd Hn ltac:(intros pid P Hm; by destruct (Hnot pid))) as I1. simpl in I1.
    pose proof (wp_end_tail rid true _ (m_todo s) I1 ltac:(simpl; by rewrite Permutation_app_comm)) as Hw.
    apply wp_run in Hw as ([] & s2 & Hrun & I2). unfold on_grants, zoom in Hrun. simpl in Hrun.
    unfold on_grants, zoom, wp. destruct (end_grant rid true (m_grants s)) as [[[] g] |]; [| done]. injection Hrun as <-.
    set (s2 := set_grants g _) in I2. cbv beta iota. unfold modify.
    replace (set_ranges (delete rid (m_ranges (set_grants g s))) (set_grants g s)) with (set_ranges (delete rid (m_ranges s2)) s2).
    + apply (inv_gone s2 rid (mkRange (r_base r) (r_len r) Ended None None)); try done. unfold s2. simpl. by rewrite lookup_insert_eq.
    + unfold s2, set_ranges. simpl. f_equal. apply map_eq. intros rid'.
      destruct (decide (rid = rid')) as [<- |]; [by rewrite !lookup_delete_eq | by rewrite !lookup_delete_ne, lookup_insert_ne].
Qed.

(** ** The processes *)

Lemma wp_new_process s : ports_inv s -> wp new_process (fun _ s' => ports_inv s') s.
Proof.
  intros I. pose proof I as [V B L W]. unfold new_process. wp_step. unfold new_koid. apply (run_wp _ _ _ _ _ eq_refl). cbv beta. wp_steps. split; simpl.
  - apply (spans_same _ _ _ _ _ V); [apply V | done | lia].
  - by apply bits_new_proc.
  - assert (m_procs s !! m_next s = None) as Hnew.
    { destruct (m_procs s !! m_next s) as [P |] eqn:E; [| done]. destruct (bv_proc _ _ _ _ _ B _ _ E). lia. }
    apply lists_new_proc; try done. intros rid. destruct (m_ranges s !! rid) as [r |] eqn:Hr; [| done].
    destruct (held (Some r) (m_next s)) eqn:Hh; [| done]. exfalso.
    destruct (bv_holder _ _ _ _ _ B rid r (m_next s) Hr) as (P & HP & _); [| congruence]. simpl in Hh.
    destruct (r_taking r) as [t |] eqn:Et; [right; exists t; split; [done |]; destruct (tk_why t); lia | left; by apply bool_decide_eq_true in Hh as [? _]].
  - apply (maps_new_proc _ _ _ W). destruct (m_procs s !! m_next s) as [P |] eqn:E; [| done]. destruct (bv_proc _ _ _ _ _ B _ _ E). lia.
Qed.

Lemma wp_begin_teardown pid s : ports_inv s -> alive pid s = true -> wp (begin_teardown pid) (fun _ s' => ports_inv s') s.
Proof.
  intros I Ha. unfold alive in Ha. destruct (m_procs s !! pid) as [P |] eqn:HP; [| done]. unfold begin_teardown. wp_step.
  apply (wp_get_proc _ P); [done |]. wp_step. apply (inv_proc s pid P); try done. apply (lv_vec _ _ _ (pi_lists _ I) _ _ HP).
Qed.

Lemma not_mapping_into s pid :
  mapping_into pid s = false ->
  (forall o, o ∈ m_maps s -> mp_pid o <> pid) /\ (forall rid r, m_ranges s !! rid = Some r -> r_mapping r <> None -> r_state r <> Mapped pid).
Proof.
  intros [Ho Hr]%orb_false_iff. split.
  - rewrite existsb_false in Ho. intros o Hin E. specialize (Ho o Hin). simpl in Ho. lia.
  - apply not_extending. unfold extending. rewrite Hr, orb_false_r. apply existsb_false. rewrite existsb_false in Ho. intros o Hin.
    by rewrite (Ho o Hin).
Qed.

Lemma wp_last_reference pid s :
  ports_inv s -> enabled (LastReference pid) s = true -> wp (last_reference pid) (fun _ s' => ports_inv s') s.
Proof.
  intros [V B L W] [[Ha [Ho Hm]%negb_true_iff%not_mapping_into]%andb_true_iff Hno%negb_true_iff]%andb_true_iff.
  unfold alive in Ha. destruct (m_procs s !! pid) as [P |] eqn:HP; [| done].
  unfold last_reference. wp_step. apply (wp_get_proc _ P); [done |]. wp_step. rewrite existsb_false in Hno. split; simpl; [done | | |].
  - apply (bits_same_mem _ _ _ _ _ B pid P); try done. right. intros c k Hc Hr.
    specialize (Hno (c, k) (proj2 (elem_of_map_to_list _ _ _) Hc)). by apply bool_decide_eq_false in Hno.
  - apply (lists_proc _ _ _ L pid P); try done. apply (lv_vec _ _ _ L _ _ HP).
  - apply (maps_proc _ _ _ W pid P); [done | |].
    + intros o Hin Hp. by destruct (Ho o Hin).
    + intros rid r Hr Hmap Hs. by destruct (Hm rid r Hr Hmap).
Qed.

(** ** Every step *)

Lemma u16_nonneg z : u16 z = true -> 0 <= z.
Proof. unfold u16. lia. Qed.

Ltac enabled_parts H :=
  repeat match type of H with _ && _ = true => let H' := fresh "Hen" in apply andb_true_iff in H as [H H'] end.

Lemma wp_ignore {A} (m : M Ports A) s : wp m (fun _ s' => ports_inv s') s -> wp (m ;; mret tt) (fun _ s' => ports_inv s') s.
Proof. intros Hw. wp_step. eapply wp_mono; [exact Hw |]. intros a s' I. by wp_step. Qed.

Definition locked_step (a : Action) : bool := match a with MapLocked _ => true | _ => false end.

Lemma run_others_ok a s : ports_inv s -> enabled a s = true -> locked_step a = false -> wp (run a) (fun _ s' => ports_inv s') s.
Proof.
  intros I Hen Hne. destruct a; try done; cbn [enabled run] in *; try apply wp_ignore; try (apply wp_last_reference; done); try (apply wp_map_step; done); enabled_parts Hen;
    auto using wp_mint, wp_mint_from_install, u16_nonneg, wp_unmap_from, wp_revoke, wp_drop_range, wp_switch_in, wp_switch_to_idle,
      wp_pull_on_gp, wp_new_process, wp_begin_teardown.
  - unfold on_grants. wp_step. eapply wp_mono; [apply wp_install_ports; [apply I | by apply u16_nonneg ..] |]. intros r g Hg. by apply inv_grants.
  - unfold on_grants. wp_step. eapply wp_mono; [apply wp_uninstall_ports, I |]. intros r g Hg. by apply inv_grants.
  - apply wp_map_into; [done | by apply bool_decide_eq_true in Hen | done].
  - destruct (m_procs s !! pid) as [P |] eqn:HP; [| done]. by apply (wp_give_back_all pid P).
  - destruct (m_procs s !! pid) as [P |] eqn:HP; [| done]. destruct (p_giving P) as [[| rid rest] |] eqn:Eg; [done | | done].
    by apply (wp_give_back pid P rid rest).
  - destruct (m_ranges s !! rid) as [r |] eqn:Hr; [| done]. destruct (r_taking r) as [t |] eqn:Et; [| done].
    apply (wp_round_over rid r t); try done. intros ->. by apply bool_decide_eq_true in Hen.
  - apply wp_run_tail; [done | by apply Nat.ltb_lt].
  - apply wp_drop_range; [done | done | by apply negb_true_iff].
  - by apply wp_service.
Qed.

Lemma run_ok a s : ports_inv s -> enabled a s = true -> wp (run a) (fun _ s' => ports_inv s') s \/ (starved a s /\ run a s = None).
Proof.
  intros I Hen. destruct (locked_step a) eqn:Ea; [| left; by apply run_others_ok]. destruct a; try done.
  destruct (wp_map_locked rid s I Hen) as [Hw | [Hst E]]; [left; by apply wp_ignore | right]. split; [done |].
  cbn [run]. unfold mbind, M_bind. by rewrite E.
Qed.

Lemma run_ports_ok acts s s' : ports_inv s -> run_ports acts s = Some s' -> ports_inv s'.
Proof.
  revert s. induction acts as [| a acts IH]; intros s I; simpl; [by intros [= <-] |]. destruct (enabled a s) eqn:Hen; [| by apply IH].
  destruct (run_ok a s I Hen) as [([] & s1 & -> & I1)%wp_run | [_ ->]]; [by apply IH | done].
Qed.

(** ** Boot *)

Lemma empty_table_ok : table_ok empty_table.
Proof.
  split; [| unfold vec_wf, vec_len; simpl; lia]. split; simpl.
  - by intros s ?%elem_of_nil.
  - by intros i ?%elem_of_nil.
  - by intros s item n ?%elem_of_nil.
  - intros p. unfold holders. simpl. lia.
  - done.
  - constructor.
Qed.

Lemma wp_reserve_blocks blocks g :
  table_ok (table g) -> items (spans (table g)) = [] ->
  wp (reserve_blocks blocks) (fun _ g' => table_ok (table g') /\ items (spans (table g')) = []) g.
Proof.
  revert g. induction blocks as [| [base len] blocks IH]; intros g Ht Hs; simpl; [by wp_step |]. wp_step.
  eapply wp_mono; [by apply wp_reserve_firmware |]. intros ok g' [Ht' Hs']. by apply IH.
Qed.

Lemma boot_ok n blocks h : exists s, boot_ports n blocks h = Some s /\ ports_inv s.
Proof.
  assert (wp (reserve_firmware_ports blocks) (fun _ g => table_ok (table g) /\ items (spans (table g)) = []) (mkGrants empty_table h)) as Hw.
  { unfold reserve_firmware_ports. wp_step. eapply wp_mono; [apply wp_install_ports; [apply empty_table_ok | done | done] |].
    intros r g (Ht & Hs & _). by apply wp_reserve_blocks. }
  apply wp_run in Hw as ([] & g & Hrun & Ht & Hs). unfold boot_ports. rewrite Hrun. eexists. split; [done |]. split; simpl.
  - split; try done; unfold table_spans; rewrite ?Hs; try (by intros ? ?%elem_of_nil); try (by intros ? ? ?%elem_of_nil); try (by intros ? ? ? ?%elem_of_nil).
    constructor.
  - assert (forall c k, boot_cores n !! c = Some k -> k = fresh_core) as Hc by (intros c k [_ <-]%lookup_gset_to_gmap_Some; done).
    split; try done.
    + intros c k ->%Hc. split; [apply com1_core_ok | simpl; split; [lia | done]].
    + by intros c k pid ->%Hc.
  - split; try done. by intros ? ? ?%elem_of_nil.
  - split; [by intros o ?%elem_of_nil | done].
Qed.

Lemma ports_reachable n blocks h acts s0 s : boot_ports n blocks h = Some s0 -> run_ports acts s0 = Some s -> ports_inv s.
Proof.
  intros H0 H1. destruct (boot_ok n blocks h) as (s0' & E0 & I0). apply (run_ports_ok acts s0); [congruence | done].
Qed.

(** ** What is let through *)

Definition let_through (s : Ports) (c : nat) (pid p : Z) : Prop :=
  exists k, m_cores s !! c = Some k /\ c_running k = Some pid /\ core_lets (c_io k) p = true.

(** Who has the range: who it is taken back from, or mapped into. *)
Definition whose (r : Range) (pid : Z) : Prop :=
  match r_taking r with Some t => tk_pid t = pid | None => r_state r = Mapped pid end.

(** The process's own: mapped into it or being taken back from it, or left loose by a round
    that was not confirmed. *)
Definition its_own (s : Ports) (pid p : Z) : Prop :=
  (exists rid r, m_ranges s !! rid = Some r /\ covers r p /\ whose r pid) \/ let_loose (m_loose s ++ m_handed s) pid p.

(** Once taken back by a round that was not confirmed, from a grant that went back to the
    kernel item it came from. *)
Definition handed_back (s : Ports) (p : Z) : Prop := exists x, x ∈ m_handed s /\ in_range p (x.1.2, x.2).

Lemma let_through_own s c pid p : ports_inv s -> port_ok p -> let_through s c pid p -> its_own s pid p.
Proof.
  intros [_ B _ _] Hp (k & Hk & Hr & Hl). destruct (bv_run _ _ _ _ _ B _ _ _ Hk Hr) as (P & HP & Ha & Hall).
  destruct (Hall p Hp Hl) as [Hb | [(rid & r & t & Hr1 & Ht & Htp & _ & Hc) | Hlo]]; [| | by right].
  - apply (bv_bits _ _ _ _ _ B pid P p HP Ha Hp) in Hb as (rid & r & (Hr1 & Hm & Hn & _) & Hc). left. exists rid, r. unfold whose. by rewrite Hn.
  - left. exists rid, r. split; [done |]. split; [done |]. unfold whose. by rewrite Ht.
Qed.

Lemma whose_live r pid : whose r pid -> live r.
Proof. unfold whose. destruct (r_taking r) as [t |] eqn:E; [intros _; by apply (taking_live _ t) | apply mapped_live]. Qed.

(** A port that was not handed back is loose by a grant that is out for good. *)
Lemma loose_out s pid p : ~ handed_back s p -> let_loose (m_loose s ++ m_handed s) pid p -> let_loose (m_loose s) pid p.
Proof. intros Hno (x & [Hx | Hx]%elem_of_app & Hpid & Hp); [by exists x |]. destruct Hno. by exists x. Qed.

Lemma own_span s pid p :
  ports_inv s -> ~ handed_back s p -> its_own s pid p -> exists sp, sp ∈ table_spans (table (m_grants s)) /\ in_range p (span_range sp).
Proof.
  intros [V _ _ _] Hno [(rid & r & Hr & Hc & Hw) | (x & Hx & _ & Hp)%loose_out]; [| | done].
  - destruct (sv_span _ _ _ _ _ V rid r Hr (whose_live r pid Hw)) as [ret Hs]. eexists. split; [exact Hs | exact Hc].
  - destruct (sv_loose _ _ _ _ _ V x Hx) as (sp & Hsp & E & _). exists sp. rewrite E. done.
Qed.

(** A port is the own of one process. *)
Lemma own_unique s pid1 pid2 p : ports_inv s -> ~ handed_back s p -> its_own s pid1 p -> its_own s pid2 p -> pid1 = pid2.
Proof.
  intros [V _ _ _] Hno Ho1 Ho2.
  assert (forall pid, its_own s pid p -> (exists rid r, m_ranges s !! rid = Some r /\ covers r p /\ whose r pid) \/ let_loose (m_loose s) pid p) as Hout
    by (intros pid [? | ?%loose_out]; auto).
  destruct (Hout _ Ho1) as [(rid1 & r1 & Hr1 & Hc1 & Hw1) | (x1 & Hx1 & <- & Hp1)], (Hout _ Ho2) as [(rid2 & r2 & Hr2 & Hc2 & Hw2) | (x2 & Hx2 & <- & Hp2)].
  - pose proof (live_disjoint _ _ _ _ _ _ _ _ _ _ V Hr1 Hr2 (whose_live _ _ Hw1) (whose_live _ _ Hw2) Hc1 Hc2) as <-. simplify_eq.
    unfold whose in *. destruct (r_taking r1); congruence.
  - by destruct (loose_not_live _ _ _ _ _ x2 rid1 r1 p V Hx2 Hp2 Hr1 (whose_live _ _ Hw1)).
  - by destruct (loose_not_live _ _ _ _ _ x1 rid2 r2 p V Hx1 Hp1 Hr2 (whose_live _ _ Hw2)).
  - by apply (sv_whose _ _ _ _ _ V x1 x2 p).
Qed.

(** C10: Ports are exclusive, except for what a round that was not confirmed handed back to
    the kernel. From boot, with any number of cores and any blocks of the firmware's,
    whatever is minted, mapped, unmapped, revoked, dropped and torn down, in whatever order
    the locks allow and with the steps of the maps and take-backs interleaved, wherever the
    cores switch, fault, answer a round, give up a copy or fail to answer at all, and
    whatever the heap refuses: a step panics only where a map finds the slot it reserved in
    the list of its process taken by another map and the heap refuses a new one; a port a
    core lets its process use is the process's own, which includes the ports a round took
    back without reaching every core; and where no unconfirmed round took the port from a
    grant made out of an install of the kernel, no core lets a second process use it, and
    it is neither in the fixed set, nor the firmware's, nor driven by the kernel. *)
Theorem ports_are_exclusive n blocks h :
  exists s0, boot_ports n blocks h = Some s0 /\
    forall acts s, run_ports acts s0 = Some s ->
      (forall a, enabled a s = true -> run a s = None -> starved a s) /\
      (forall c pid p, port_ok p -> let_through s c pid p ->
        its_own s pid p /\
        (~ handed_back s p ->
          (forall c' pid', let_through s c' pid' p -> pid' = pid) /\
          ~ kept (items (firmware (table (m_grants s)))) p /\
          (forall i, i ∈ items (installs (table (m_grants s))) -> ~ in_range p (install_range i)))).
Proof.
  destruct (boot_ok n blocks h) as (s0 & E0 & I0). exists s0. split; [done |]. intros acts s Hrun. pose proof (run_ports_ok acts s0 s I0 Hrun) as I. split.
  { intros a Hen Hno. destruct (run_ok a s I Hen) as [([] & s1 & E1 & _)%wp_run | [? _]]; [congruence | done]. }
  intros c pid p Hp Hl. pose proof (let_through_own s c pid p I Hp Hl) as Hown. split; [done |]. intros Hno. split.
  - intros c' pid' Hl'. apply (own_unique s pid' pid p I Hno); [by apply (let_through_own s c') | done].
  - destruct (own_span s pid p I Hno Hown) as (sp & Hsp & Hin). by apply (span_kept _ sp p (sv_table _ _ _ _ _ (pi_spans _ I))).
Qed.

(** ** Faults *)

(** What a fault does on a core that runs a process, by whether its copy is behind. *)
Lemma pull_result s c k pid P gives_up :
  m_cores s !! c = Some k -> c_running k = Some pid -> m_procs s !! pid = Some P ->
  pull_on_gp c gives_up s =
    if stale (c_io k) pid (p_mem P) then
      let s' := set_core c (mkCore (Some pid) (copy gives_up pid (p_mem P) (c_io k))) s in Some (true, set_ranges (looked None c <$> m_ranges s') s')
    else Some (false, s).
Proof.
  intros Hk Hrun HP. unfold pull_on_gp, look, get_core, get_proc, gets, assert_some, modify, mbind, M_bind, mret, M_ret.
  rewrite Hk, Hrun, HP. by destruct (stale _ _ _).
Qed.

Lemma mapped_allowed s pid P rid r p :
  ports_inv s -> m_procs s !! pid = Some P -> p_alive P = true -> mapped_to (m_ranges s) pid rid r -> covers r p ->
  port_ok p /\ process_lets (p_mem P) p = true.
Proof.
  intros I HP Ha Hm Hc. assert (port_ok p) as Hp.
  { destruct Hm as (Hr & _). apply (sv_range _ _ _ _ _ (pi_spans _ I)) in Hr as [_ (H1 & H2 & H3)]. unfold covers, port_ok in *. lia. }
  split; [done |]. apply (bv_bits _ _ _ _ _ (pi_bits _ I) pid P p HP Ha Hp). eauto.
Qed.

(** A port the process is allowed is let through by a copy that is not behind, and by a new one. *)
Lemma fresh_lets s c k pid P p :
  ports_inv s -> m_cores s !! c = Some k -> c_running k = Some pid -> m_procs s !! pid = Some P -> port_ok p -> process_lets (p_mem P) p = true ->
  stale (c_io k) pid (p_mem P) = false -> let_through s c pid p.
Proof.
  intros I Hk Hrun HP Hp Hb Hst. exists k. split_and!; [done .. |].
  destruct (fresh_copied (m_procs s) (m_next s) pid P (c_io k)) as (_ & _ & El); try done; [by apply (core_record s c k) |]. by rewrite El.
Qed.

Lemma copy_lets s c k pid P p :
  ports_inv s -> m_cores s !! c = Some k -> m_procs s !! pid = Some P -> port_ok p -> process_lets (p_mem P) p = true ->
  core_lets (copy false pid (p_mem P) (c_io k)) p = true.
Proof.
  intros I Hk HP Hp Hb. destruct (bv_proc _ _ _ _ _ (pi_bits _ I) _ _ HP) as [Hid Hmem].
  destruct (copy_copied (m_procs s) (m_next s) false pid P (c_io k)) as (_ & _ & El); try done; [by apply (core_record s c k) | by apply no_process_zero |].
  by rewrite El.
Qed.

(** C34: A mapped port is reached by the faults of its process. In every state the system
    comes to, where a core runs a process, take a port of a range that is mapped into the
    process with its ports allowed (its map has done everything but perhaps the list, and
    no take-back has begun; while a map has only marked the range, a fault for it may
    stand). A fault on that core returns. It stands, answered [false], only where the port
    was let through already. After a copy that did not give up the port is let through;
    after one that gave up, the instruction is tried again and its next fault copies
    again. *)
Theorem mapped_port_is_reached n blocks h acts s0 s c k pid rid r p gives_up :
  boot_ports n blocks h = Some s0 -> run_ports acts s0 = Some s ->
  m_cores s !! c = Some k -> c_running k = Some pid -> mapped_to (m_ranges s) pid rid r -> covers r p ->
  exists retry s', pull_on_gp c gives_up s = Some (retry, s') /\
    (retry = false -> let_through s c pid p) /\
    (gives_up = false -> let_through s' c pid p) /\
    (gives_up = true -> retry = true -> exists s'', pull_on_gp c false s' = Some (true, s'') /\ let_through s'' c pid p).
Proof.
  intros H0 H1 Hk Hrun Hm Hc. pose proof (ports_reachable _ _ _ _ _ _ H0 H1) as I.
  destruct (bv_run _ _ _ _ _ (pi_bits _ I) _ _ _ Hk Hrun) as (P & HP & Ha & _).
  destruct (mapped_allowed s pid P rid r p I HP Ha Hm Hc) as [Hp Hb]. rewrite (pull_result s c k pid P) by done.
  destruct (stale (c_io k) pid (p_mem P)) eqn:Es; [| exists false, s; split_and!; try done; intros _; by apply (fresh_lets s c k pid P)].
  set (k' := mkCore (Some pid) _). set (s1 := set_core c k' s). cbv zeta.
  exists true, (set_ranges (looked None c <$> m_ranges s1) s1). split_and!; try done.
  - intros ->. exists k'. split_and!; [by apply lookup_insert_eq | done |]. by apply (copy_lets s c k pid P).
  - intros -> _. rewrite (pull_result _ c k' pid P); [| by apply lookup_insert_eq | done | done].
    assert (0 < pid) as Hid by (by apply (bv_proc _ _ _ _ _ (pi_bits _ I)) in HP as [? _]; lia).
    assert (stale (c_io k') pid (p_mem P) = true) as -> by (unfold k', stale, copy; simpl; by destruct pid).
    eexists. split; [done |]. exists (mkCore (Some pid) (copy false pid (p_mem P) (c_io k'))). split_and!; [by apply lookup_insert_eq | done |].
    simpl c_io. assert (wp (pull_on_gp c true) (fun _ s' => ports_inv s') s) as Hw by (apply wp_pull_on_gp; [done | apply bool_decide_eq_true; by exists k]).
    apply wp_run in Hw as (b & s2 & E2 & I2). rewrite (pull_result s c k pid P), Es in E2 by done. injection E2 as _ <-.
    by apply (copy_lets _ c k' pid P p I2); [apply lookup_insert_eq | ..].
Qed.

(** A second serial port: its driver runs on core 0 when the range is mapped, faults once
    there, is switched in on core 1 as well, and loses the range to a revocation core 1
    answers. *)
Definition uart_ports : option Ports := boot_ports 2 [(0x600, 128)] (replicate 8 (Some 4%nat)).
Definition whole_map (rid pid : Z) : list Action := MapInto rid pid :: replicate 4 (MapStep 0 true) ++ [MapLocked rid; MapLocked rid].
Definition uart_mapped : list Action := [NewProcess; Mint 0x2F8 8 true; SwitchIn 0 1 false] ++ whole_map 2 1.
Definition uart_revoked : list Action := [Pull 0 false; SwitchIn 1 1 false; RevokeRange 2 0 false; RoundOver 2 true; Serve 1 false; RoundOver 2 true].

Definition uart_lets (acts : list Action) (c : nat) : option bool :=
  s0 ← uart_ports; s ← run_ports acts s0; k ← m_cores s !! c; Some (core_lets (c_io k) 0x2F8).

Example uart_demo :
  uart_lets uart_mapped 0 = Some false /\ uart_lets (uart_mapped ++ take 2 uart_revoked) 0 = Some true /\
  uart_lets (uart_mapped ++ take 4 uart_revoked) 0 = Some false /\ uart_lets (uart_mapped ++ take 4 uart_revoked) 1 = Some true /\
  uart_lets (uart_mapped ++ uart_revoked) 1 = Some false.
Proof. vm_compute. done. Qed.

Definition no_ports : Ports := mkPorts (mkGrants empty_table []) ∅ ∅ ∅ [] [] [] [] 1.
Definition uart_boot : Ports := default no_ports uart_ports.
Definition uart_now : Ports := default no_ports (run_ports uart_mapped uart_boot).
Definition uart_core : Core := default fresh_core (m_cores uart_now !! 0%nat).

Lemma mapped_port_is_reached_witness :
  exists retry s', pull_on_gp 0 false uart_now = Some (retry, s') /\
    (retry = false -> let_through uart_now 0 1 0x2FB) /\ (false = false -> let_through s' 0 1 0x2FB) /\
    (false = true -> retry = true -> exists s'', pull_on_gp 0 false s' = Some (true, s'') /\ let_through s'' 0 1 0x2FB).
Proof.
  apply (mapped_port_is_reached 2 [(0x600, 128)] (replicate 8 (Some 4%nat)) uart_mapped uart_boot uart_now 0 uart_core 1 2
    (mkRange 0x2F8 8 (Mapped 1) None None) 0x2FB false).
  - vm_compute. reflexivity.
  - vm_compute. reflexivity.
  - vm_compute. reflexivity.
  - vm_compute. reflexivity.
  - split; [vm_compute; reflexivity | split_and!; done].
  - unfold covers. simpl. lia.
Defined.

(** ** Where the code and its comments part *)

(** A range minted out of the kernel's console that ends unconfirmed is granted again: [end]
    says that what it puts back "refuses every later mint as a retired span would", and
    [grant_from_install] is the mint it does not refuse. Core 0 never answers the round of
    the revocation, and its process shares the port with the next holder's on core 1. *)
Definition console_shared : list Action :=
  [NewProcess; NewProcess; MintFromInstall KERNEL_CONSOLE 0x3F8 8 true; SwitchIn 0 1 false] ++ whole_map 3 1 ++
  [Pull 0 false; RevokeRange 3 1 false; RoundOver 3 false; RunTail 0; MintFromInstall KERNEL_CONSOLE 0x3F8 8 true; SwitchIn 1 2 false] ++
  whole_map 4 2 ++ [Pull 1 false].
Definition lets_now (c : nat) (p : Z) (s : Ports) : option (option Z * bool) :=
  k ← m_cores s !! c; Some (c_running k, core_lets (c_io k) p).

Lemma unconfirmed_console_is_shared :
  exists s0 s, boot_ports 2 [] (replicate 8 (Some 4%nat)) = Some s0 /\ run_ports console_shared s0 = Some s /\
    lets_now 0 0x3F8 s = Some (Some 1, true) /\ lets_now 1 0x3F8 s = Some (Some 2, true).
Proof. eexists _, _. split; [vm_compute; reflexivity |]. split; [vm_compute; reflexivity |]. split; vm_compute; reflexivity. Qed.

(** Two maps into one process: each reserves before either pushes, so both reserve the one
    slot the list has left, and the second push grows the list, where the heap may refuse
    it: the comment at the push has "two maps racing each reserved their own slot". *)
Definition racing_maps : list Action :=
  [NewProcess; Mint 0x280 8 true; Mint 0x2F8 8 true; MapInto 2 1; MapInto 3 1] ++
  replicate 4 (MapStep 0 true) ++ replicate 4 (MapStep 0 true) ++ [MapLocked 2; MapLocked 3; MapLocked 2].
Definition racing_heap : heap := [Some 4; Some 4; Some 0; None]%nat.

Lemma racing_maps_share_a_slot :
  exists s0 s, boot_ports 1 [] racing_heap = Some s0 /\ run_ports racing_maps s0 = Some s /\
    enabled (MapLocked 3) s = true /\ run (MapLocked 3) s = None.
Proof. eexists _, _. split; [vm_compute; reflexivity |]. split; [vm_compute; reflexivity |]. split; vm_compute; reflexivity. Qed.
