(* ===== verification/Quarantine.v ===== *)
(** How a frame that was mapped comes back to the pool (kernel/mem/frame/mod.rs, [retire],
    [drain_quarantine] and [Quarantine]): through a queue, after a shootdown round. Each
    call is a thread that runs on a core and stops at every point where the code holds no
    lock; a round is the wait for the other cores, as [Tlb] has it, with the cores that
    flushed since. What a core may still translate is explicit, because that is what the
    queue is for. The pool itself is a list; the allocator behind it is [Buddy]. *)

From S2P Require Import Prelude.

Definition QUARANTINE_DRAIN : nat := 64.
Definition QUARANTINE_CAPACITY : nat := 512.
(** The length of [unqueued] and of [batch]. *)
Definition UNQUEUED : nat := 8.
Definition BATCH : nat := 64.

(** The queue, what was given back to the pool, and what is retired for good. *)
Record Store := mkStore { queue : list Z; pool : list Z; retired : list Z }.

(** [Quarantine::push] and [Quarantine::take_into]. *)
Definition push (phys : Z) (s : Store) : option Store :=
  if (length (queue s) =? QUARANTINE_CAPACITY)%nat then None
  else Some (mkStore (queue s ++ [phys]) (pool s) (retired s)).
Definition take_into (n : nat) (s : Store) : list Z * Store :=
  let n := Nat.min (length (queue s)) n in
  (drop (length (queue s) - n) (queue s), mkStore (take (length (queue s) - n) (queue s)) (pool s) (retired s)).
Arguments push : simpl never.
Arguments take_into : simpl never.

Definition deallocate (phys : Z) (s : Store) : Store := mkStore (queue s) (pool s ++ [phys]) (retired s).
Definition note_retired_pages (l : list Z) (s : Store) : Store := mkStore (queue s) (pool s) (retired s ++ l).

(** Where a thread is. [Drain], [DrainRound], [Batches] and [Freeing] carry where it goes
    on. The four rounds wait for the answer of a shootdown. *)
Inductive At :=
| Away
| BigRound (frames : list Z)
| Push (frames unqueued : list Z)
| Retry (phys : Z) (frames unqueued : list Z)
| OwnRound (phys : Z) (frames unqueued : list Z)
| Rest (unqueued : list Z)
| RestRound (unqueued : list Z) (drain : bool)
| Drain (next : At)
| DrainRound (next : At)
| Batches (next : At)
| Freeing (l : list Z) (next : At).

Definition retire (frames : list Z) : At :=
  match frames with
  | [] => Away
  | _ => if (QUARANTINE_CAPACITY <? length frames)%nat then BigRound frames else Push frames []
  end.
Definition drain_quarantine : At := Drain Away.

(** One step of a thread that does not wait for a round. *)
Definition advance (a : At) (s : Store) : At * Store :=
  match a with
  | Push [] unqueued => (Rest unqueued, s)
  | Push (phys :: frames) unqueued =>
      match push phys s with
      | Some s => (Push frames unqueued, s)
      | None => (Drain (Retry phys frames unqueued), s)
      end
  | Retry phys frames unqueued =>
      match push phys s with
      | Some s => (Push frames unqueued, s)
      | None =>
          if (length unqueued <? UNQUEUED)%nat then (Push frames (unqueued ++ [phys]), s)
          else (OwnRound phys frames unqueued, s)
      end
  | Rest unqueued =>
      let drain := (QUARANTINE_DRAIN <=? length (queue s))%nat in
      match unqueued with
      | [] => (if drain then drain_quarantine else Away, s)
      | _ => (RestRound unqueued drain, s)
      end
  | Drain next => match queue s with [] => (next, s) | _ => (DrainRound next, s) end
  | Batches next =>
      let (taken, s) := take_into BATCH s in
      match taken with [] => (next, s) | _ => (Freeing taken (Batches next), s) end
  | Freeing [] next => (next, s)
  | Freeing (phys :: l) next => (Freeing l next, deallocate phys s)
  | _ => (a, s)
  end.

(** The shootdown answers. *)
Definition answered (complete : bool) (a : At) (s : Store) : At * Store :=
  match a with
  | BigRound frames => (if complete then Freeing frames Away else Push frames [], s)
  | OwnRound phys frames unqueued =>
      if complete then (Freeing [phys] (Push frames unqueued), s)
      else (Push frames unqueued, note_retired_pages [phys] s)
  | RestRound unqueued drain =>
      if complete then (Freeing unqueued drain_quarantine, s)
      else (if drain then drain_quarantine else Away, note_retired_pages unqueued s)
  | DrainRound next => (if complete then Batches next else next, s)
  | _ => (a, s)
  end.

Definition waits (a : At) : bool :=
  match a with BigRound _ | OwnRound _ _ _ | RestRound _ _ | DrainRound _ => true | _ => false end.

(** ** The machine *)

Record Worker := mkWorker { w_core : nat; w_at : At; w_done : gset nat }.

(** The frames something maps, what each core may still translate, and the threads. *)
Record Frames := mkFrames {
  store : Store;
  mapped : list Z;
  cached : list (gset Z);
  workers : list Worker;
}.

Inductive Action :=
| Touch (c : nat) (phys : Z)          (** core [c] translates to a mapped frame *)
| Retire (i : nat) (frames : list Z)  (** thread [i] unmaps frames on its core and retires them *)
| DrainNow (i : nat)
| Advance (i : nat)
| Answer (i : nat) (complete : bool)
| Flush (c : nat)
| Migrate (i c : nat)
| Reuse (phys : Z).                   (** the pool hands a frame out and it is mapped *)

Definition drains (w : Worker) : bool :=
  match w_at w with DrainRound _ | Batches _ | Freeing _ (Batches _) => true | _ => false end.
Definition pushes (a : At) : bool := match a with Push (_ :: _) _ | Retry _ _ _ => true | _ => false end.

(** When a step can happen. In the [strict] machine, which is not the code's, no thread
    queues a frame while another drains, and a drain waits for its own core as well. *)
Definition enabled (strict : bool) (a : Action) (m : Frames) : bool :=
  match a with
  | Touch c phys => (c <? length (cached m))%nat && bool_decide (phys ∈ mapped m)
  | Retire i frames =>
      match workers m !! i with
      | Some (mkWorker _ Away _) => bool_decide (NoDup frames) && forallb (fun phys => bool_decide (phys ∈ mapped m)) frames
      | _ => false
      end
  | DrainNow i => match workers m !! i with Some (mkWorker _ Away _) => true | _ => false end
  | Advance i =>
      match workers m !! i with
      | Some w => negb (waits (w_at w)) && negb (strict && pushes (w_at w) && existsb drains (delete i (workers m)))
      | None => false
      end
  | Answer i complete =>
      match workers m !! i with
      | Some w =>
          waits (w_at w) &&
          (negb complete ||
           forallb (fun c => (c =? w_core w)%nat && negb (strict && drains w) || bool_decide (c ∈ w_done w)) (seq 0 (length (cached m))))
      | None => false
      end
  | Flush c => (c <? length (cached m))%nat
  | Migrate i c => match workers m !! i with Some (mkWorker _ Away _) => (c <? length (cached m))%nat | _ => false end
  | Reuse phys => bool_decide (phys ∈ pool (store m))
  end.

Definition without (l frames : list Z) : list Z := base.filter (fun phys => phys ∉ frames) l.
Definition put_worker (i : nat) (w : Worker) (s : Store) (m : Frames) : Frames :=
  mkFrames s (mapped m) (cached m) (<[i := w]> (workers m)).

Definition step (a : Action) (m : Frames) : Frames :=
  match a with
  | Touch c phys => mkFrames (store m) (mapped m) (alter (fun l => {[phys]} ∪ l) c (cached m)) (workers m)
  | Retire i frames =>
      match workers m !! i with
      | Some w =>
          mkFrames (store m) (without (mapped m) frames) (alter (fun l => l ∖ list_to_set frames) (w_core w) (cached m))
            (<[i := mkWorker (w_core w) (retire frames) ∅]> (workers m))
      | None => m
      end
  | DrainNow i =>
      match workers m !! i with Some w => put_worker i (mkWorker (w_core w) drain_quarantine ∅) (store m) m | None => m end
  | Advance i =>
      match workers m !! i with
      | Some w => let (a, s) := advance (w_at w) (store m) in put_worker i (mkWorker (w_core w) a ∅) s m
      | None => m
      end
  | Answer i complete =>
      match workers m !! i with
      | Some w => let (a, s) := answered complete (w_at w) (store m) in put_worker i (mkWorker (w_core w) a ∅) s m
      | None => m
      end
  | Flush c =>
      mkFrames (store m) (mapped m) (<[c := ∅]> (cached m))
        ((fun w => mkWorker (w_core w) (w_at w) ({[c]} ∪ w_done w)) <$> workers m)
  | Migrate i c =>
      match workers m !! i with Some w => put_worker i (mkWorker c (w_at w) ∅) (store m) m | None => m end
  | Reuse phys =>
      mkFrames (mkStore (queue (store m)) (without (pool (store m)) [phys]) (retired (store m))) (phys :: mapped m) (cached m) (workers m)
  end.

(** Steps that cannot happen are passed over. *)
Fixpoint run_frames (strict : bool) (acts : list Action) (m : Frames) : Frames :=
  match acts with
  | [] => m
  | a :: acts => run_frames strict acts (if enabled strict a m then step a m else m)
  end.

(** [n] cores and [threads] threads on core 0; [frames] are mapped and nothing is cached. *)
Definition boot_frames (n threads : nat) (frames : list Z) : Frames :=
  mkFrames (mkStore [] [] []) frames (replicate n ∅) (replicate threads (mkWorker 0 Away ∅)).
