(* ===== verification/QuarantineProps.v ===== *)
(** No frame is lost or given back twice by the quarantine, whatever runs at once. That no
    core can still translate to a frame in the pool holds of the strict machine, and two
    runs show that the code's own does not have it. *)

From S2P Require Import Prelude Quarantine.

(** ** Every frame is in one place *)

Fixpoint hand (a : At) : list Z :=
  match a with
  | Away => []
  | BigRound frames => frames
  | Push frames unqueued => frames ++ unqueued
  | Retry phys frames unqueued | OwnRound phys frames unqueued => phys :: frames ++ unqueued
  | Rest unqueued | RestRound unqueued _ => unqueued
  | Drain next | DrainRound next | Batches next => hand next
  | Freeing l next => l ++ hand next
  end.

Definition hands (ws : list Worker) : list Z := ws ≫= fun w => hand (w_at w).
Definition stored (s : Store) : list Z := queue s ++ pool s ++ retired s.
Definition everywhere (m : Frames) : list Z := mapped m ++ stored (store m) ++ hands (workers m).

Lemma hands_insert ws i w w' : ws !! i = Some w -> hands (<[i := w']> ws) ++ hand (w_at w) ≡ₚ hands ws ++ hand (w_at w').
Proof.
  intros Hi. unfold hands. rewrite insert_take_drop by (by eapply lookup_lt_Some). rewrite <- (take_drop_middle ws i w Hi) at 3.
  rewrite !bind_app. cbn [mbind list_bind]. solve_Permutation.
Qed.

Lemma hands_cons w ws : hands (w :: ws) = hand (w_at w) ++ hands ws.
Proof. done. Qed.

Lemma hands_flush c ws : hands ((fun w => mkWorker (w_core w) (w_at w) ({[c]} ∪ w_done w)) <$> ws) = hands ws.
Proof. induction ws as [| w ws IH]; [done |]. rewrite fmap_cons, !hands_cons, IH. done. Qed.

Lemma stored_push phys s s' : push phys s = Some s' -> stored s' ≡ₚ phys :: stored s.
Proof. unfold push. case_match; [done |]. intros [= <-]. unfold stored. simpl. solve_Permutation. Qed.

Lemma stored_take n s taken s' : take_into n s = (taken, s') -> taken ++ stored s' ≡ₚ stored s.
Proof.
  unfold take_into. intros [= <- <-]. unfold stored. simpl. set (k := (_ - _)%nat). rewrite <- (take_drop k (queue s)) at 3. solve_Permutation.
Qed.

(** A thread takes frames from the store and puts them there, and has the rest. *)
Lemma advance_keeps a s a' s' : advance a s = (a', s') -> hand a' ++ stored s' ≡ₚ hand a ++ stored s.
Proof.
  destruct a as [| frames | [| phys frames] unq | phys frames unq | phys frames unq | unq | unq drain | next | next | next | [| phys l] next]; cbn [advance hand];
    try (intros [= <- <-]; done).
  - destruct (push phys s) as [s1 |] eqn:E; intros [= <- <-]; [| done]. apply stored_push in E. simpl. rewrite E. solve_Permutation.
  - destruct (push phys s) as [s1 |] eqn:E; [intros [= <- <-]; apply stored_push in E; simpl; rewrite E; solve_Permutation |].
    case_match; intros [= <- <-]; simpl; solve_Permutation.
  - destruct unq; intros [= <- <-]; [by case_match |]. done.
  - destruct (queue s); by intros [= <- <-].
  - destruct (take_into BATCH s) as [taken s1] eqn:E. apply stored_take in E. rewrite <- E.
    destruct taken; intros [= <- <-]; simpl; [done |]. solve_Permutation.
  - intros [= <- <-]. simpl. unfold stored, deallocate. simpl. solve_Permutation.
Qed.

Lemma answered_keeps ok a s a' s' : answered ok a s = (a', s') -> hand a' ++ stored s' ≡ₚ hand a ++ stored s.
Proof.
  destruct a; simpl; try (intros [= <- <-]; done); try (intros [= <- <-]; destruct ok; simpl; by rewrite ?app_nil_r).
  - destruct ok; intros [= <- <-]; [done |]. unfold stored, note_retired_pages. simpl. solve_Permutation.
  - destruct ok; intros [= <- <-]; simpl; [by rewrite app_nil_r |]. replace (hand (if drain then drain_quarantine else Away)) with ([] : list Z) by (by destruct drain).
    unfold stored, note_retired_pages. simpl. solve_Permutation.
Qed.

Lemma hand_retire frames : hand (retire frames) = frames.
Proof. unfold retire. destruct frames; [done |]. case_match; simpl; by rewrite ?app_nil_r. Qed.

Lemma without_perm l frames : NoDup l -> NoDup frames -> (forall x, x ∈ frames -> x ∈ l) -> frames ++ without l frames ≡ₚ l.
Proof.
  intros Hl Hf Hsub. apply NoDup_Permutation; [| done |].
  - apply NoDup_app. split; [done |]. split; [| by apply NoDup_filter]. intros x Hx Hin. by apply list_elem_of_filter in Hin as [Hn _].
  - intros x. unfold without. rewrite elem_of_app, list_elem_of_filter. destruct (decide (x ∈ frames)); naive_solver.
Qed.

Lemma put_worker_keeps i w w' s' m :
  workers m !! i = Some w -> hand (w_at w') ++ stored s' ≡ₚ hand (w_at w) ++ stored (store m) -> everywhere (put_worker i w' s' m) ≡ₚ everywhere m.
Proof.
  intros Hi Hk. unfold everywhere, put_worker. simpl. pose proof (hands_insert (workers m) i w w' Hi) as Hh.
  apply (Permutation_app_inv_l (hand (w_at w))).
  transitivity (mapped m ++ stored s' ++ hands (<[i := w']> (workers m)) ++ hand (w_at w)); [solve_Permutation |]. rewrite Hh.
  transitivity (mapped m ++ (hand (w_at w') ++ stored s') ++ hands (workers m)); [solve_Permutation |]. rewrite Hk. solve_Permutation.
Qed.

Lemma step_keeps strict a m : NoDup (everywhere m) -> enabled strict a m = true -> everywhere (step a m) ≡ₚ everywhere m.
Proof.
  intros Hnd Hen. destruct a as [c phys | i frames | i | i | i ok | c | i c | phys]; cbn [step enabled] in *; try done.
  - destruct (workers m !! i) as [w |] eqn:Hi; [| done]. destruct w as [c at_ done_]. destruct at_; try done.
    apply andb_true_iff in Hen as [Hf%bool_decide_eq_true Hall]. unfold everywhere in *. simpl.
    assert (frames ++ without (mapped m) frames ≡ₚ mapped m) as Hw.
    { apply without_perm; [by apply NoDup_app in Hnd as [? _] | done |]. intros x Hx. rewrite forallb_forall in Hall.
      apply (bool_decide_eq_true (x ∈ mapped m)), Hall. by apply list_elem_of_In. }
    pose proof (hands_insert (workers m) i _ (mkWorker c (retire frames) ∅) Hi) as Hh. simpl in Hh. rewrite hand_retire, app_nil_r in Hh.
    rewrite Hh. rewrite <- Hw at 2. solve_Permutation.
  - destruct (workers m !! i) as [w |] eqn:Hi; [| done]. apply (put_worker_keeps i w); [done |]. destruct w as [c at_ d]. by destruct at_.
  - destruct (workers m !! i) as [w |] eqn:Hi; [| done]. destruct (advance (w_at w) (store m)) as [a s] eqn:E. apply (put_worker_keeps i w); [done |].
    by apply advance_keeps.
  - destruct (workers m !! i) as [w |] eqn:Hi; [| done]. destruct (answered ok (w_at w) (store m)) as [a s] eqn:E. apply (put_worker_keeps i w); [done |].
    by apply (answered_keeps ok).
  - unfold everywhere. simpl. by rewrite hands_flush.
  - destruct (workers m !! i) as [w |] eqn:Hi; [| done]. by apply (put_worker_keeps i w).
  - apply bool_decide_eq_true in Hen. unfold everywhere, stored in *. simpl. assert ([phys] ++ without (pool (store m)) [phys] ≡ₚ pool (store m)) as Hw.
    { apply without_perm; [| by apply NoDup_singleton | by intros x ->%list_elem_of_singleton].
      apply NoDup_app in Hnd as (_ & _ & Hnd). apply NoDup_app in Hnd as (Hnd & _). apply NoDup_app in Hnd as (_ & _ & Hnd). by apply NoDup_app in Hnd as (? & _). }
    rewrite <- Hw at 2. solve_Permutation.
Qed.

Lemma run_keeps strict acts m : NoDup (everywhere m) -> everywhere (run_frames strict acts m) ≡ₚ everywhere m.
Proof.
  revert m. induction acts as [| a acts IH]; intros m Hnd; [done |]. cbn [run_frames]. destruct (enabled strict a m) eqn:E; [| by apply IH].
  pose proof (step_keeps strict a m Hnd E) as Hp. rewrite IH; [done |]. by rewrite Hp.
Qed.

(** ** The strict machine *)

Section cores.
Context (cores : list (gset Z)).
(** Core [c] cannot translate to the frame; no core can. *)
Definition off (c : nat) (phys : Z) : Prop := forall l, cores !! c = Some l -> phys ∉ l.
Definition off_all (phys : Z) : Prop := forall c, off c phys.

(** The frames a round is for, and those one was completed for. *)
Definition round_frames (a : At) (q : list Z) : list Z :=
  match a with BigRound frames => frames | OwnRound phys _ _ => [phys] | RestRound unqueued _ => unqueued | DrainRound _ => q | _ => [] end.
Definition clean_frames (a : At) (q : list Z) : list Z :=
  match a with Freeing l (Batches _) => l ++ q | Freeing l _ => l | Batches _ => q | _ => [] end.

Record safe (q : list Z) (w : Worker) : Prop := mk_safe {
  sf_own : forall phys, phys ∈ hand (w_at w) -> off (w_core w) phys;
  sf_round : forall phys c, phys ∈ round_frames (w_at w) q -> c ∈ w_done w -> off c phys;
  sf_clean : forall phys, phys ∈ clean_frames (w_at w) q -> off_all phys;
}.
End cores.

(** Where a drain and a free can go on. *)
Definition after_drain (a : At) : Prop := a = Away \/ exists phys frames unqueued, a = Retry phys frames unqueued.
Definition well_placed (a : At) : Prop :=
  match a with
  | Drain next | DrainRound next | Batches next => after_drain next
  | Freeing _ next => next = Away \/ (exists frames unqueued, next = Push frames unqueued) \/ next = drain_quarantine \/ (exists n, next = Batches n /\ after_drain n)
  | _ => True
  end.

Record frames_inv (m : Frames) : Prop := mk_frames_inv {
  fi_once : NoDup (everywhere m);
  fi_pool : forall phys, phys ∈ pool (store m) -> off_all (cached m) phys;
  fi_worker : forall i w, workers m !! i = Some w -> well_placed (w_at w) /\ safe (cached m) (queue (store m)) w;
}.

(** A frame that is not mapped may not be touched again. *)
Lemma in_hands ws i w phys : ws !! i = Some w -> phys ∈ hand (w_at w) -> phys ∈ hands ws.
Proof. intros Hi Hp. unfold hands. apply list_elem_of_bind. exists w. split; [done | by eapply list_elem_of_lookup_2]. Qed.

Lemma round_in_hand a q phys : phys ∈ round_frames a q -> phys ∈ hand a \/ phys ∈ q.
Proof. destruct a; simpl; try (intros ?%elem_of_nil; done); try (by left); [rewrite list_elem_of_singleton; intros ->; left; by left | by right]. Qed.
Lemma clean_in_hand a q phys : phys ∈ clean_frames a q -> phys ∈ hand a \/ phys ∈ q.
Proof.
  destruct a as [| | | | | | | | | next | l next]; simpl; try (intros ?%elem_of_nil; done); [by right |].
  destruct next; simpl; rewrite ?elem_of_app; naive_solver.
Qed.

(** What the cores may translate to shrinks, but for frames no thread or queue has. *)
Lemma safe_cores cores cores' q w done' :
  safe cores q w ->
  (forall c phys, phys ∈ hand (w_at w) \/ phys ∈ q -> off cores c phys -> off cores' c phys) ->
  (forall c phys, c ∈ done' -> c ∈ w_done w \/ off cores' c phys) -> safe cores' q (mkWorker (w_core w) (w_at w) done').
Proof.
  intros [S1 S2 S3] Hoff Hdone. split; simpl.
  - intros phys Hp. apply Hoff; [by left | by apply S1].
  - intros phys c Hp Hc. destruct (Hdone c phys Hc) as [Hc' | ?]; [| done]. apply Hoff; [by apply (round_in_hand (w_at w)) | by apply S2].
  - intros phys Hp c. apply Hoff; [by apply (clean_in_hand (w_at w)) | by apply S3].
Qed.

(** The queue changes under a thread that does not drain, or only loses frames. *)
Lemma safe_queue cores q q' w : safe cores q w -> drains w = false \/ (forall x, x ∈ q' -> x ∈ q) -> safe cores q' w.
Proof.
  intros [S1 S2 S3] Hq. unfold drains in Hq. split; [done | |]; destruct w as [co at_ dn]; simpl in *.
  - destruct at_; try done. simpl in *. destruct Hq as [Hq | Hq]; [done |]. auto.
  - destruct at_ as [| | | | | | | | | next | l next]; try done; simpl in *; [destruct Hq as [Hq | Hq]; [done | auto] |].
    destruct next; try done. destruct Hq as [Hq | Hq]; [done |]. intros phys [|]%elem_of_app; apply S3, elem_of_app; auto.
Qed.

(** A thread that starts over, at a place that asks nothing of the cores. *)
Definition plain (a : At) : Prop := forall q, clean_frames a q = [].

Lemma safe_plain cores q c a : plain a -> (forall phys, phys ∈ hand a -> off cores c phys) -> safe cores q (mkWorker c a ∅).
Proof. intros Hp Ho. split; simpl; [done | by intros phys c' _ ?%not_elem_of_empty | rewrite Hp; by intros phys ?%elem_of_nil]. Qed.

Lemma after_drain_plain a : after_drain a -> plain a /\ well_placed a.
Proof. intros [-> | (p & f & u & ->)]; done. Qed.

Lemma off_everywhere m phys : frames_inv m -> phys ∈ mapped m -> phys ∉ stored (store m) /\ phys ∉ hands (workers m).
Proof.
  intros [Hnd _ _] Hp. unfold everywhere in Hnd. apply NoDup_app in Hnd as (_ & Hn & _). specialize (Hn phys Hp). by apply not_elem_of_app in Hn.
Qed.

Lemma frames_touch m c phys : frames_inv m -> phys ∈ mapped m -> frames_inv (step (Touch c phys) m).
Proof.
  intros I Hp. destruct (off_everywhere m phys I Hp) as [Hs Hh]. destruct I as [Hnd Hpool Hw].
  assert (forall c' x, x <> phys -> off (cached m) c' x -> off (alter (fun l => {[phys]} ∪ l) c (cached m)) c' x) as Hoff.
  { intros c' x Hne Ho l Hl. destruct (decide (c = c')) as [<- |].
    - rewrite list_lookup_alter_eq in Hl. destruct (cached m !! c) as [l0 |] eqn:E; [| done]. injection Hl as <-. specialize (Ho l0 E). set_solver.
    - rewrite list_lookup_alter_ne in Hl by done. by apply Ho. }
  split; simpl; [done | |].
  - intros x Hx c'. apply Hoff; [| by apply Hpool]. intros ->. apply Hs. unfold stored. rewrite !elem_of_app. auto.
  - intros i w Hi. destruct (Hw i w Hi) as [Hwp Hsafe]. split; [done |]. destruct w as [co at_ dn].
    apply (safe_cores _ _ _ _ dn Hsafe); [| by left]. intros c' x Hx. apply Hoff. intros ->.
    destruct Hx as [Hx | Hx]; [by apply Hh, (in_hands _ i _ _ Hi) | apply Hs; unfold stored; rewrite elem_of_app; by left].
Qed.

Lemma inv_flush m c : frames_inv m -> frames_inv (step (Flush c) m).
Proof.
  intros [Hnd Hpool Hw]. assert (forall c' x, off (cached m) c' x -> off (<[c := ∅]> (cached m)) c' x) as Hoff.
  { intros c' x Ho l Hl. apply list_lookup_insert_Some in Hl as [(<- & <- & _) | [_ Hl]]; [set_solver | by apply Ho]. }
  assert (forall x, off (<[c := ∅]> (cached m)) c x) as Hc.
  { intros x l Hl. apply list_lookup_insert_Some in Hl as [(_ & <- & _) | [? _]]; [set_solver | done]. }
  split; simpl.
  - unfold everywhere in *. simpl. by rewrite hands_flush.
  - intros x Hx c'. by apply Hoff, Hpool.
  - intros i w' Hi. rewrite list_lookup_fmap in Hi. destruct (workers m !! i) as [w |] eqn:Ei; [| done]. injection Hi as <-.
    destruct (Hw i w Ei) as [Hwp Hsafe]. split; [done |]. apply (safe_cores _ _ _ _ _ Hsafe); [auto |].
    intros c' x [->%elem_of_singleton | ?]%elem_of_union; auto.
Qed.

(** One thread moves: the others' conditions are about the queue alone. *)
Lemma inv_worker m i w w' s' :
  frames_inv m -> workers m !! i = Some w -> hand (w_at w') ++ stored s' ≡ₚ hand (w_at w) ++ stored (store m) ->
  (forall phys, phys ∈ pool s' -> phys ∈ pool (store m) \/ off_all (cached m) phys) ->
  (forall j v, j <> i -> workers m !! j = Some v -> drains v = false \/ (forall x, x ∈ queue s' -> x ∈ queue (store m))) ->
  well_placed (w_at w') -> safe (cached m) (queue s') w' -> frames_inv (put_worker i w' s' m).
Proof.
  intros [Hnd Hpool Hw] Hi Hk Hp Hq Hwp Hsafe. split.
  - by rewrite (put_worker_keeps i w w' s' m Hi Hk).
  - intros phys [Hin | ?]%Hp; [by apply Hpool | done].
  - intros j v Hj. simpl in Hj. apply list_lookup_insert_Some in Hj as [(<- & <- & _) | [Hne Hj]]; [done |].
    destruct (Hw j v Hj) as [Hwpj Hsafej]. split; [done |]. simpl. apply (safe_queue _ (queue (store m))); [done |]. by apply (Hq j).
Qed.

Ltac at_cases a := destruct a as [| frames | [| phys frames] unq | phys frames unq | phys frames unq | unq | unq drain | next | next | next | [| phys l] next].

Lemma push_queue phys s s' : push phys s = Some s' -> queue s' = queue s ++ [phys] /\ pool s' = pool s.
Proof. unfold push. case_match; [done |]. by intros [= <-]. Qed.

Lemma take_parts n s taken s' : take_into n s = (taken, s') -> queue s = queue s' ++ taken /\ pool s' = pool s.
Proof. unfold take_into. intros [= <- <-]. simpl. by rewrite take_drop. Qed.

Lemma advance_queue a s a' s' : advance a s = (a', s') -> (forall x, x ∈ queue s' -> x ∈ queue s) \/ pushes a = true.
Proof.
  at_cases a; cbn [advance pushes]; try (intros [= _ <-]; by left); try (by right).
  - intros H. left. destruct unq; by injection H as _ <-.
  - intros H. left. destruct (queue s) eqn:E; injection H as _ <-; by rewrite E.
  - destruct (take_into BATCH s) as [taken s1] eqn:E. apply take_parts in E as [E _]. intros H. left. intros x Hx. rewrite E, elem_of_app. left.
    destruct taken; injection H as _ <-; done.
Qed.

Lemma advance_pool a s a' s' x : advance a s = (a', s') -> x ∈ pool s' -> x ∈ pool s \/ x ∈ clean_frames a (queue s).
Proof.
  at_cases a; cbn [advance]; try (intros [= _ <-]; by left).
  - destruct (push phys s) as [s1 |] eqn:E; intros [= _ <-]; [apply push_queue in E as [_ ->] |]; by left.
  - destruct (push phys s) as [s1 |] eqn:E; [intros [= _ <-]; apply push_queue in E as [_ ->]; by left |]. case_match; intros [= _ <-]; by left.
  - destruct unq; intros [= _ <-]; by left.
  - destruct (queue s); intros [= _ <-]; by left.
  - destruct (take_into BATCH s) as [taken s1] eqn:E. apply take_parts in E as [_ E]. rewrite <- E. destruct taken; intros [= _ <-]; by left.
  - intros [= _ <-]. simpl. rewrite elem_of_app, list_elem_of_singleton. intros [? | ->]; [by left | right]. destruct next; try (by left); apply elem_of_app; left; by left.
Qed.

Lemma advance_placed a s a' s' : well_placed a -> advance a s = (a', s') -> well_placed a'.
Proof.
  at_cases a; cbn [advance well_placed]; intros Hwp; try (intros [= <- _]; done).
  - destruct (push phys s); intros [= <- _]; [done |]. right. eauto.
  - destruct (push phys s); [intros [= <- _]; done |]. case_match; by intros [= <- _].
  - destruct unq; intros [= <- _]; [| done]. case_match; [by left | done].
  - apply after_drain_plain in Hwp as Hn. destruct (queue s); intros [= <- _]; [by destruct Hn | done].
  - apply after_drain_plain in Hwp as Hn. destruct (take_into BATCH s) as [taken s1]. destruct taken; intros [= <- _]; [by destruct Hn |]. right. right. right. eauto.
  - intros [= <- _]. destruct Hwp as [-> | [(f & u & ->) | [-> | (n & -> & Hn)]]]; [done | done | by left | done].
Qed.

Lemma advance_safe cores c a dn s a' s' :
  well_placed a -> safe cores (queue s) (mkWorker c a dn) -> waits a = false -> advance a s = (a', s') -> safe cores (queue s') (mkWorker c a' ∅).
Proof.
  intros Hwp [S1 S2 S3] Hwait. simpl in *. at_cases a; cbn [advance waits] in *; try done.
  - intros [= <- <-]. by apply safe_plain.
  - intros [= <- <-]. by apply safe_plain.
  - destruct (push phys s) as [s1 |]; intros [= <- <-]; apply safe_plain; try done. intros x Hx. apply S1. by right.
  - destruct (push phys s) as [s1 |]; [intros [= <- <-]; apply safe_plain; [done |]; intros x Hx; apply S1; by right |].
    case_match; intros [= <- <-]; apply safe_plain; try done. intros x Hx. apply S1. simpl in *. rewrite elem_of_cons, !elem_of_app, ?list_elem_of_singleton in *. naive_solver.
  - destruct unq; intros [= <- <-]; [| by apply safe_plain]. case_match; apply safe_plain; try done; by intros ? ?%elem_of_nil.
  - destruct (after_drain_plain _ Hwp). destruct (queue s); intros [= <- <-]; by apply safe_plain.
  - destruct (after_drain_plain _ Hwp). destruct (take_into BATCH s) as [taken s1] eqn:E. apply take_parts in E as [E _].
    destruct taken as [| x taken]; intros [= <- <-]; [by apply safe_plain |]. simpl in S3. split; simpl.
    + intros y Hy. rewrite app_comm_cons in Hy. apply elem_of_app in Hy as [Hy | Hy]; [| by apply S1]. apply S3. rewrite E. apply elem_of_app. by right.
    + by intros y c' ?%elem_of_nil.
    + intros y Hy. rewrite app_comm_cons in Hy. apply S3. rewrite E. rewrite elem_of_app in *. naive_solver.
  - intros [= <- <-]. destruct Hwp as [-> | [(f & u & ->) | [-> | (n & -> & Hn)]]]; try (by apply safe_plain).
    split; simpl; [by apply S1 | by intros y c' ?%elem_of_nil | by apply S3].
  - intros [= <- <-]. split; simpl.
    + intros y Hy. apply S1. simpl. by right.
    + by intros y c' ?%elem_of_nil.
    + intros y Hy. apply S3. destruct next; simpl in *; by right.
Qed.

Lemma other_worker {A} (ws : list A) i j v : j <> i -> ws !! j = Some v -> v ∈ delete i ws.
Proof.
  intros Hne Hj. rewrite delete_take_drop. apply elem_of_app. destruct (decide (j < i)%nat).
  - left. apply list_elem_of_lookup. exists j. rewrite lookup_take_lt by done. done.
  - right. apply list_elem_of_lookup. exists (j - S i)%nat. rewrite lookup_drop. by replace (S i + (j - S i))%nat with j by lia.
Qed.

Lemma inv_advance m i : frames_inv m -> enabled true (Advance i) m = true -> frames_inv (step (Advance i) m).
Proof.
  intros I Hen. cbn [enabled step] in *. destruct (workers m !! i) as [w |] eqn:Hi; [| done]. apply andb_true_iff in Hen as [Hwait%negb_true_iff Hpush].
  destruct (advance (w_at w) (store m)) as [a' s'] eqn:E. destruct (fi_worker _ I i w Hi) as [Hwp Hsafe]. destruct w as [c a dn]. simpl in *.
  apply (inv_worker m i (mkWorker c a dn)); try done.
  - by apply advance_keeps.
  - intros phys Hp. destruct (advance_pool _ _ _ _ _ E Hp) as [? | Hc]; [by left | right]. by apply (sf_clean _ _ _ Hsafe).
  - intros j v Hne Hj. destruct (advance_queue _ _ _ _ E) as [? | Hpu]; [by right | left]. rewrite Hpu in Hpush. simpl in Hpush. apply negb_true_iff in Hpush.
    rewrite existsb_false in Hpush. apply Hpush. by apply (other_worker _ i j).
  - by apply (advance_placed a (store m) a' s').
  - by apply (advance_safe _ c a dn (store m)).
Qed.

(** A completed round leaves its frames with no core. *)
Lemma round_off m i w :
  frames_inv m -> workers m !! i = Some w -> enabled true (Answer i true) m = true ->
  forall phys, phys ∈ round_frames (w_at w) (queue (store m)) -> off_all (cached m) phys.
Proof.
  intros I Hi Hen phys Hp c. cbn [enabled] in Hen. rewrite Hi in Hen. apply andb_true_iff in Hen as [_ Hall]. simpl in Hall.
  destruct (fi_worker _ I i w Hi) as [_ [S1 S2 _]]. intros l Hl. assert (c < length (cached m))%nat as Hc by (by eapply lookup_lt_Some).
  rewrite forallb_forall in Hall. specialize (Hall c). rewrite in_seq in Hall. specialize (Hall ltac:(lia)). apply orb_true_iff in Hall as [Hown | Hd].
  - apply andb_true_iff in Hown as [->%Nat.eqb_eq Hnd]. apply (S1 phys); [| done]. destruct w as [co a dn]. unfold drains in Hnd. simpl in *.
    destruct a; simpl in *; try done; try (by apply elem_of_nil in Hp). apply list_elem_of_singleton in Hp as ->. by left.
  - apply bool_decide_eq_true in Hd. by apply (S2 phys c).
Qed.

Lemma answered_queue ok a s a' s' : answered ok a s = (a', s') -> queue s' = queue s /\ pool s' = pool s.
Proof. destruct a; simpl; try (by intros [= _ <-]); destruct ok; by intros [= _ <-]. Qed.

Lemma answered_placed ok a s a' s' : well_placed a -> waits a = true -> answered ok a s = (a', s') -> well_placed a'.
Proof.
  destruct a; simpl; intros Hwp Hw; try done.
  - intros [= <- _]. destruct ok; [by left | done].
  - destruct ok; intros [= <- _]; [| done]. right. left. eauto.
  - destruct ok; intros [= <- _]; [by right; right; left |]. destruct drain; [by left | done].
  - intros [= <- _]. destruct ok; [done |]. by apply after_drain_plain.
Qed.

Lemma inv_answer m i ok : frames_inv m -> enabled true (Answer i ok) m = true -> frames_inv (step (Answer i ok) m).
Proof.
  intros I Hen. pose proof Hen as Hen'. cbn [enabled step] in *. destruct (workers m !! i) as [w |] eqn:Hi; [| done]. apply andb_true_iff in Hen' as [Hwait _].
  destruct (answered ok (w_at w) (store m)) as [a' s'] eqn:E. destruct (fi_worker _ I i w Hi) as [Hwp [S1 S2 S3]].
  destruct (answered_queue _ _ _ _ _ E) as [Eq Ep].
  apply (inv_worker m i w); try done.
  - by apply (answered_keeps ok).
  - rewrite Ep. by left.
  - rewrite Eq. by right.
  - by apply (answered_placed ok (w_at w) (store m) a' s').
  - assert (ok = true -> forall phys, phys ∈ round_frames (w_at w) (queue (store m)) -> off_all (cached m) phys) as Hoff.
    { intros ->. apply (round_off m i w I Hi). cbn [enabled]. by rewrite Hi. }
    rewrite Eq. clear Hen S2 S3. destruct w as [c a dn]. simpl in *. destruct a; try done; simpl in *.
    + injection E as <- _. destruct ok; [| apply safe_plain; [done | intros x; simpl; rewrite app_nil_r; apply S1]]. split; simpl; [intros x; rewrite app_nil_r; apply S1 | by intros ? ? ?%elem_of_nil | by apply Hoff].
    + destruct ok; injection E as <- _; [| apply safe_plain; [done | intros x Hx; apply S1; by right]].
      split; simpl; [done | by intros ? ? ?%elem_of_nil | by apply Hoff].
    + destruct ok; injection E as <- _; [split; simpl; [intros x; rewrite app_nil_r; apply S1 | by intros ? ? ?%elem_of_nil | by apply Hoff] |].
      destruct drain; apply safe_plain; try done; by intros ? ?%elem_of_nil.
    + injection E as <- _. destruct (after_drain_plain _ Hwp). destruct ok; [| by apply safe_plain].
      split; simpl; [done | by intros ? ? ?%elem_of_nil | by apply Hoff].
Qed.

Lemma frames_retire m i frames : frames_inv m -> enabled true (Retire i frames) m = true -> frames_inv (step (Retire i frames) m).
Proof.
  intros I Hen. pose proof (step_keeps true (Retire i frames) m (fi_once _ I) Hen) as Hk. destruct I as [Hnd Hpool Hw].
  cbn [enabled step] in *. destruct (workers m !! i) as [w |] eqn:Hi; [| done]. set (cores := alter _ _ _) in *.
  assert (forall c phys, off (cached m) c phys -> off cores c phys) as Hoff.
  { intros c phys Ho l Hl. unfold cores in Hl. destruct (decide (w_core w = c)) as [<- |]; [| rewrite list_lookup_alter_ne in Hl by done; by apply Ho].
    rewrite list_lookup_alter_eq in Hl. destruct (cached m !! w_core w) as [l0 |] eqn:E; [| done]. injection Hl as <-. specialize (Ho l0 E). set_solver. }
  split; [by rewrite Hk | intros phys Hp c; by apply Hoff, Hpool |].
  intros j v Hj. simpl in Hj. apply list_lookup_insert_Some in Hj as [(<- & <- & _) | [Hne Hj]].
  - assert (plain (retire frames) /\ well_placed (retire frames)) as [Hp Hwp] by (unfold retire; destruct frames; [done |]; by destruct (_ <? _)%nat).
    split; [done |]. apply safe_plain; [done |]. intros phys Hin l Hl. rewrite hand_retire in Hin. simpl in Hl. unfold cores in Hl.
    rewrite list_lookup_alter_eq in Hl. destruct (cached m !! w_core w) as [l0 |]; [| done]. injection Hl as <-. rewrite elem_of_difference, elem_of_list_to_set. naive_solver.
  - destruct (Hw j v Hj) as [Hwp Hsafe]. split; [done |]. destruct v as [co at_ dn]. apply (safe_cores _ _ _ _ dn Hsafe); [auto | by left].
Qed.

Lemma inv_reuse m phys : frames_inv m -> enabled true (Reuse phys) m = true -> frames_inv (step (Reuse phys) m).
Proof.
  intros I Hen. pose proof (step_keeps true (Reuse phys) m (fi_once _ I) Hen) as Hk. destruct I as [Hnd Hpool Hw].
  split; [by rewrite Hk | | exact Hw]. intros x Hx. apply Hpool. simpl in Hx. by apply list_elem_of_filter in Hx as [_ ?].
Qed.

Lemma inv_idle m i w c a :
  frames_inv m -> workers m !! i = Some w -> w_at w = Away -> a = Away \/ a = drain_quarantine -> frames_inv (put_worker i (mkWorker c a ∅) (store m) m).
Proof.
  intros I Hi Ha Hd. apply (inv_worker m i w); try done.
  - rewrite Ha. by destruct Hd as [-> | ->].
  - by left.
  - by right.
  - destruct Hd as [-> | ->]; [done | by left].
  - apply safe_plain; [by destruct Hd as [-> | ->] |]. destruct Hd as [-> | ->]; by intros ? ?%elem_of_nil.
Qed.

Lemma step_inv a m : frames_inv m -> enabled true a m = true -> frames_inv (step a m).
Proof.
  intros I Hen. destruct a as [c phys | i frames | i | i | i ok | c | i c | phys].
  - apply frames_touch; [done |]. cbn [enabled] in Hen. apply andb_true_iff in Hen as [_ Hp]. by apply bool_decide_eq_true in Hp.
  - by apply frames_retire.
  - cbn [enabled step] in *. destruct (workers m !! i) as [w |] eqn:Hi; [| done]. apply (inv_idle m i w); [done | done | | by right]. destruct w as [co a d]. by destruct a.
  - by apply inv_advance.
  - by apply inv_answer.
  - by apply inv_flush.
  - cbn [enabled step] in *. destruct (workers m !! i) as [w |] eqn:Hi; [| done]. assert (w_at w = Away) as Ha by (destruct w as [co a d]; by destruct a).
    rewrite Ha. apply (inv_idle m i w); [done | done | done | by left].
  - by apply inv_reuse.
Qed.

Lemma run_inv acts m : frames_inv m -> frames_inv (run_frames true acts m).
Proof.
  revert m. induction acts as [| a acts IH]; intros m I; [done |]. cbn [run_frames]. apply IH. destruct (enabled true a m) eqn:E; [by apply step_inv | done].
Qed.

Lemma frames_boot n threads frames : NoDup frames -> frames_inv (boot_frames n threads frames).
Proof.
  intros Hf. split.
  - unfold everywhere. simpl. replace (hands (replicate threads (mkWorker 0 Away ∅))) with ([] : list Z) by (induction threads as [| t IH]; [done |]; by rewrite replicate_S, hands_cons, <- IH).
    by rewrite app_nil_r.
  - by intros phys ?%elem_of_nil.
  - intros i w [-> _]%lookup_replicate. split; [done |]. apply safe_plain; [done |]. by intros ? ?%elem_of_nil.
Qed.

(** The pool has a frame some core still translates to. *)
Definition handed_back_early (m : Frames) : Prop :=
  exists phys c l, phys ∈ pool (store m) /\ cached m !! c = Some l /\ phys ∈ l.

(** C19: The quarantine keeps every frame. Whatever number of threads retire and drain at
    once, on whatever cores, interrupted at every lock, with rounds that complete or do
    not: each frame stays in exactly one place, mapped, queued, in the hands of one
    thread, in the pool or retired for good, so none is lost and none is given back
    twice. And if no thread queues a frame while another drains and a drain also waits for
    its own core, no core can translate to a frame of the pool. *)
Theorem quarantine_keeps_every_frame strict n threads frames acts :
  NoDup frames ->
  let m := run_frames strict acts (boot_frames n threads frames) in
  everywhere m ≡ₚ frames /\ (strict = true -> ~ handed_back_early m).
Proof.
  intros Hf m. pose proof (frames_boot n threads frames Hf) as I. split.
  - unfold m. rewrite run_keeps by apply I. unfold everywhere. simpl.
    replace (hands (replicate threads (mkWorker 0 Away ∅))) with ([] : list Z); [by rewrite app_nil_r |].
    clear. induction threads as [| t IH]; [done |]. by rewrite replicate_S, hands_cons, <- IH.
  - intros -> (phys & c & l & Hp & Hc & Hin). by apply (fi_pool _ (run_inv acts _ I) phys Hp c l Hc).
Qed.

(** Core 0 drains frame 1. Between the answer of core 2 and the drain's taking, core 2
    translates to frame 2 and core 1 retires it. *)
Definition late_retire : list Action :=
  [Migrate 1 1; Touch 2 1; Retire 0 [1]; Advance 0; Advance 0; Advance 0; DrainNow 0; Advance 0; Flush 1; Flush 2;
   Touch 2 2; Retire 1 [2]; Advance 1; Answer 0 true; Advance 0; Advance 0; Advance 0].

(** Core 0 translated to frame 1, core 1 retires it, core 0 drains it. *)
Definition drained_at_home : list Action :=
  [Migrate 1 1; Touch 0 1; Retire 1 [1]; Advance 1; DrainNow 0; Advance 0; Flush 1; Flush 2; Answer 0 true; Advance 0; Advance 0].

Lemma quarantine_keeps_every_frame_witness :
  NoDup [1; 2; 3] /\ everywhere (run_frames true (late_retire ++ drained_at_home) (boot_frames 3 2 [1; 2; 3])) ≡ₚ [1; 2; 3] /\
  ~ handed_back_early (run_frames true (late_retire ++ drained_at_home) (boot_frames 3 2 [1; 2; 3])).
Proof.
  assert (NoDup [1; 2; 3]) as Hnd by (repeat constructor; set_solver).
  destruct (quarantine_keeps_every_frame true 3 2 [1; 2; 3] (late_retire ++ drained_at_home) Hnd) as [Hp Hs]. split; [done |]. split; [done |]. by apply Hs.
Defined.

(** C35: A drain gives back frames a core still translates to. [drain_quarantine] completes
    its round first and takes the queue after, so it also takes what another thread
    unmapped and queued since a core flushed; and a round asks every core but its own,
    while the queue holds frames other cores unmapped. Either way a frame is in the pool
    that a core can still read and write. *)
Theorem drain_hands_back_early :
  handed_back_early (run_frames false late_retire (boot_frames 3 2 [1; 2; 3])) /\
  handed_back_early (run_frames false drained_at_home (boot_frames 3 2 [1; 2; 3])).
Proof.
  split; [exists 2, 2%nat, {[2]} | exists 1, 0%nat, {[1]}]; split_and!; by_decide.
Qed.
