(* ===== verification/Manifest.v ===== *)
(** The signed boot manifest (boot/protocol/src/manifest.rs): the reader the loader checks
    what it executes against, and the writer the signing tool uses. Bytes are values in
    0..255. A read moves a position and refuses; a write fills the caller's buffer, which
    keeps what was written where the write is refused. *)

From stdpp Require Import sorting.
From S2P Require Import Prelude.

(** [LBRMAN] and version 3; [LBRMAN]. *)
Definition MAGIC : list Z := [76; 66; 82; 77; 65; 78; 3; 0].
Definition MAGIC_PREFIX : list Z := [76; 66; 82; 77; 65; 78].
Definition ALG_ED25519 : Z := 1.
Definition MAX_MANIFEST_BYTES : nat := 64 * 1024.
Definition MAX_ROWS : nat := 512.
Definition MAX_PATH_BYTES : nat := 255.
Definition MAX_NAME_BYTES : nat := 64.
Definition ARCHES : list Z := [1; 2; 3].
Definition SOURCES : list Z := [1; 2; 3].
Definition KINDS : list Z := [1; 2; 3; 4; 5].
Definition PURPOSES : list Z := [1; 2].
Definition DMA_MODE_ABSENT : Z := 0.
Definition DMA_MODE_PRESENT : Z := 1.
Definition MODES : list Z := [1; 2].

Inductive Refusal :=
| NotAManifest | LegacyVersion | TooLarge | Truncated | TrailingBytes | UnknownValue | TooManyRows | InvalidPath | NotCanonical | Overflow.

Record Row := mkRow { row_kind : Z; row_path : list Z; row_length : Z; row_digest : list Z }.

#[export] Instance row_eq_dec : EqDecision Row.
Proof. solve_decision. Defined.

(** What a manifest says about itself. *)
Record Header := mkHeader {
  key_id : Z;
  product : list Z;
  arch : Z;
  source_kind : Z;
  release : list Z;
  security_generation : Z;
  purpose : Z;
  volume_uuid : list Z;
  dma_mode : option Z;
}.

(** A manifest that was read; the fields it shares with a header are its [m_header]. *)
Record Manifest := mkManifest {
  m_bytes : list Z;
  payload_len : nat;
  m_alg : Z;
  m_header : Header;
  rows_at : nat;
  row_count : nat;
}.

Definition one_of (v : Z) (l : list Z) : bool := existsb (Z.eqb v) l.
#[global] Arguments one_of : simpl never.

(** ** Reading *)

Definition P (A : Type) : Type := list Z -> nat -> result (A * nat) Refusal.
#[export] Instance P_ret : MRet P := fun A a _ at_ => Ok (a, at_).
#[export] Instance P_bind : MBind P := fun A B f p bytes at_ =>
  match p bytes at_ with Ok (a, next) => f a bytes next | Err e => Err e end.
Definition stop {A} (e : Refusal) : P A := fun _ _ => Err e.
Definition check (ok : bool) (e : Refusal) : P unit := if ok then mret tt else stop e.

Definition take_n (n : nat) : P (list Z) := fun bytes at_ =>
  match checked_add U64_MAX (Z.of_nat at_) (Z.of_nat n) with
  | None => Err Overflow
  | Some _ => if (length bytes <? at_ + n)%nat then Err Truncated else Ok (take n (drop at_ bytes), (at_ + n)%nat)
  end.
Definition u16_at : P Z := b ← take_n 2; mret (le_decode b).
Definition u32_at : P Z := b ← take_n 4; mret (le_decode b).
Definition u64_at : P Z := b ← take_n 8; mret (le_decode b).
(** [take(bytes, at, 1)] and its byte. *)
Definition u8_at : P Z := b ← take_n 1; mret (nth 0 b 0).

(** [path.split(|&b| b == b'/')]. *)
Fixpoint segments (path : list Z) : list (list Z) :=
  match path with
  | [] => [[]]
  | b :: path =>
      if b =? 47 then [] :: segments path
      else match segments path with s :: rest => (b :: s) :: rest | [] => [[b]] end
  end.
Definition segment_ok (s : list Z) : bool :=
  negb (bool_decide (s = [])) && negb (bool_decide (s = [46])) && negb (bool_decide (s = [46; 46])) &&
  forallb (fun b => negb ((b <? 0x20) || (b =? 0x7f) || (b =? 92))) s.
Definition path_ok (path : list Z) : bool :=
  negb (bool_decide (path = [])) && (length path <=? MAX_PATH_BYTES)%nat && forallb segment_ok (segments path).

(** Tuples and slices compare lexicographically, and so does the kind before the path. *)
Fixpoint lex (a b : list Z) : comparison :=
  match a, b with
  | [], [] => Eq
  | [], _ => Lt
  | _, [] => Gt
  | x :: a, y :: b => match x ?= y with Eq => lex a b | c => c end
  end.
Definition row_key (kind : Z) (path : list Z) : list Z := kind :: path.

Definition name_ok (name : list Z) : bool := negb (bool_decide (name = [])) && (length name <=? MAX_NAME_BYTES)%nat.

Definition read_name : P (list Z) :=
  len ← u8_at; name ← take_n (Z.to_nat len); check (name_ok name) InvalidPath ;; mret name.

Definition read_dma_mode : P (option Z) :=
  tag ← u8_at;
  if tag =? DMA_MODE_ABSENT then mret None
  else if tag =? DMA_MODE_PRESENT then mode ← u32_at; check (one_of mode MODES) UnknownValue ;; mret (Some mode)
  else stop UnknownValue.

Definition read_header : P (Z * Header) :=
  alg ← u16_at; check (alg =? ALG_ED25519) UnknownValue ;;
  key_id ← u32_at;
  product ← read_name;
  arch ← u8_at; check (one_of arch ARCHES) UnknownValue ;;
  source ← u8_at; check (one_of source SOURCES) UnknownValue ;;
  release ← read_name;
  generation ← u64_at;
  purpose ← u32_at; check (one_of purpose PURPOSES) UnknownValue ;;
  uuid ← take_n 16;
  mode ← read_dma_mode;
  mret (alg, mkHeader key_id product arch source release generation purpose uuid mode).

(** A row's fields, and the check of the order against the row before. *)
Fixpoint walk_rows (n : nat) (previous : option (list Z)) : P unit :=
  match n with
  | O => mret tt
  | S n =>
      kind ← u8_at; check (one_of kind KINDS) UnknownValue ;;
      path_len ← u16_at;
      path ← take_n (Z.to_nat path_len); check (path_ok path) InvalidPath ;;
      _ ← u64_at;
      _ ← take_n 32;
      let key := row_key kind path in
      check (match previous with Some last => bool_decide (lex last key = Lt) | None => true end) NotCanonical ;;
      walk_rows n (Some key)
  end.

Definition here : P nat := fun _ at_ => Ok (at_, at_).

Definition read_body : P (Z * Header * nat * nat * nat) :=
  '(alg, header) ← read_header;
  count ← u16_at; check (Z.to_nat count <=? MAX_ROWS)%nat TooManyRows ;;
  rows_at ← here;
  walk_rows (Z.to_nat count) None ;;
  payload_len ← here;
  _ ← take_n 64;
  mret (alg, header, rows_at, Z.to_nat count, payload_len).

Definition decode (bytes : list Z) : result Manifest Refusal :=
  if (MAX_MANIFEST_BYTES <? length bytes)%nat then Err TooLarge
  else if (length bytes <? length MAGIC)%nat || negb (bool_decide (take (length MAGIC) bytes = MAGIC)) then
    if (length MAGIC <=? length bytes)%nat && bool_decide (take (length MAGIC_PREFIX) bytes = MAGIC_PREFIX) then Err LegacyVersion
    else Err NotAManifest
  else
    match read_body bytes (length MAGIC) with
    | Err e => Err e
    | Ok ((alg, header, rows_at, count, payload_len), next) =>
        if negb (next =? length bytes)%nat then Err TrailingBytes
        else Ok (mkManifest bytes payload_len alg header rows_at count)
    end.

Definition payload (m : Manifest) : list Z := take (payload_len m) (m_bytes m).
Definition signature (m : Manifest) : list Z := take 64 (drop (payload_len m) (m_bytes m)).

(** [row]: past [index] rows, by their path lengths, then the fields. [None] is an index
    out of range, which panics. *)
Fixpoint skip_rows (index : nat) (bytes : list Z) (at_ : nat) : option nat :=
  match index with
  | O => Some at_
  | S index =>
      match u16_at bytes (at_ + 1)%nat with
      | Ok (path_len, _) => skip_rows index bytes (at_ + 1 + 2 + Z.to_nat path_len + 8 + 32)%nat
      | Err _ => None
      end
  end.
Definition read_row (kind : Z) : P Row :=
  path_len ← u16_at; path ← take_n (Z.to_nat path_len); length ← u64_at; digest ← take_n 32;
  mret (mkRow kind path length digest).
Definition row (m : Manifest) (index : nat) : option (option Row) :=
  if (row_count m <=? index)%nat then Some None
  else
    match skip_rows index (m_bytes m) (rows_at m) with
    | None => Some None
    | Some at_ =>
        match m_bytes m !! at_ with
        | None => None
        | Some kind => match read_row kind (m_bytes m) (at_ + 1)%nat with Ok (r, _) => Some (Some r) | Err _ => Some None end
        end
    end.

(** [(0..row_count).map(row).find(...)]. *)
Fixpoint find_from (m : Manifest) (n index : nat) (kind : Z) (path : list Z) : option (option Row) :=
  match n with
  | O => Some None
  | S n =>
      match row m index with
      | None => None
      | Some (Some r) => if bool_decide (row_kind r = kind /\ row_path r = path) then Some (Some r) else find_from m n (S index) kind path
      | Some None => find_from m n (S index) kind path
      end
  end.
Definition find (m : Manifest) (kind : Z) (path : list Z) : option (option Row) := find_from m (row_count m) 0 kind path.

(** ** Writing *)

(** The buffer and the position. *)
Definition W (A : Type) : Type := list Z * nat -> result A Refusal * (list Z * nat).
#[export] Instance W_ret : MRet W := fun A a s => (Ok a, s).
#[export] Instance W_bind : MBind W := fun A B f p s =>
  match p s with (Ok a, s) => f a s | (Err e, s) => (Err e, s) end.

Definition put (bytes : list Z) : W unit := fun '(out, at_) =>
  match checked_add U64_MAX (Z.of_nat at_) (Z.of_nat (length bytes)) with
  | None => (Err Overflow, (out, at_))
  | Some _ =>
      let end_ := (at_ + length bytes)%nat in
      if (length out <? end_)%nat then (Err Truncated, (out, at_)) else (Ok tt, (take at_ out ++ bytes ++ drop end_ out, end_))
  end.

Definition row_le (a b : Row) : Prop := lex (row_key (row_kind a) (row_path a)) (row_key (row_kind b) (row_path b)) <> Gt.
#[export] Instance row_le_dec : RelDecision row_le.
Proof. intros a b. unfold row_le. apply _. Defined.

Definition row_ok (r : Row) : result unit Refusal :=
  if negb (one_of (row_kind r) KINDS) then Err UnknownValue else if negb (path_ok (row_path r)) then Err InvalidPath else Ok tt.
Fixpoint rows_ok (rows : list Row) : result unit Refusal :=
  match rows with [] => Ok tt | r :: rows => match row_ok r with Ok _ => rows_ok rows | Err e => Err e end end.
(** Some two rows in a row name one path. *)
Fixpoint repeated (rows : list Row) : bool :=
  match rows with
  | a :: ((b :: _) as rest) => bool_decide (row_key (row_kind a) (row_path a) = row_key (row_kind b) (row_path b)) || repeated rest
  | _ => false
  end.

Definition header_ok (h : Header) : result unit Refusal :=
  if negb (name_ok (product h)) then Err InvalidPath
  else if negb (name_ok (release h)) then Err InvalidPath
  else if negb (one_of (arch h) ARCHES) then Err UnknownValue
  else if negb (one_of (source_kind h) SOURCES) then Err UnknownValue
  else if negb (one_of (purpose h) PURPOSES) then Err UnknownValue
  else if match dma_mode h with Some mode => negb (one_of mode MODES) | None => false end then Err UnknownValue
  else Ok tt.

Definition put_header (h : Header) : W unit :=
  put MAGIC ;; put (le_encode 2 ALG_ED25519) ;; put (le_encode 4 (key_id h)) ;;
  put [Z.of_nat (length (product h)) mod 256] ;; put (product h) ;;
  put [arch h] ;; put [source_kind h] ;;
  put [Z.of_nat (length (release h)) mod 256] ;; put (release h) ;;
  put (le_encode 8 (security_generation h)) ;; put (le_encode 4 (purpose h)) ;; put (volume_uuid h) ;;
  match dma_mode h with
  | None => put [DMA_MODE_ABSENT]
  | Some mode => put [DMA_MODE_PRESENT] ;; put (le_encode 4 mode)
  end.
Fixpoint put_rows (rows : list Row) : W unit :=
  match rows with
  | [] => mret tt
  | r :: rows =>
      put [row_kind r] ;; put (le_encode 2 (Z.of_nat (length (row_path r)) mod 65536)) ;; put (row_path r) ;;
      put (le_encode 8 (row_length r)) ;; put (row_digest r) ;; put_rows rows
  end.

(** The rows are sorted in place: any order that ascends, for rows with one key are
    refused next. The answer, the rows and the buffer. *)
Definition encode_payload (h : Header) (rows : list Row) (out : list Z) : result nat Refusal * list Row * list Z :=
  match header_ok h with
  | Err e => (Err e, rows, out)
  | Ok _ =>
      if (MAX_ROWS <? length rows)%nat then (Err TooManyRows, rows, out)
      else
        match rows_ok rows with
        | Err e => (Err e, rows, out)
        | Ok _ =>
            let rows := merge_sort row_le rows in
            if repeated rows then (Err NotCanonical, rows, out)
            else
              match (put_header h ;; put (le_encode 2 (Z.of_nat (length rows) mod 65536)) ;; put_rows rows) (out, 0%nat) with
              | (Err e, (out, _)) => (Err e, rows, out)
              | (Ok _, (out, at_)) =>
                  match checked_add U64_MAX (Z.of_nat at_) 64 with
                  | None => (Err Overflow, rows, out)
                  | Some end_ => if Z.of_nat MAX_MANIFEST_BYTES <? end_ then (Err TooLarge, rows, out) else (Ok at_, rows, out)
                  end
              end
        end
  end.
