(* ===== verification/ManifestFacts.v ===== *)
(** The grammar of the signed boot manifest: the bytes of a header, of a row and of a
    payload, and that each reader of [Manifest] accepts exactly its own part of them. *)

From stdpp Require Import sorting.
From S2P Require Import Prelude Manifest.

(** ** The grammar *)

Definition mode_bytes (mode : option Z) : list Z :=
  match mode with None => [DMA_MODE_ABSENT] | Some mode => DMA_MODE_PRESENT :: le_encode 4 mode end.
Definition name_bytes (name : list Z) : list Z := Z.of_nat (length name) :: name.
(** What follows the magic. *)
Definition header_bytes (h : Header) : list Z :=
  le_encode 2 ALG_ED25519 ++ le_encode 4 (key_id h) ++ name_bytes (product h) ++ [arch h] ++ [source_kind h] ++ name_bytes (release h) ++
  le_encode 8 (security_generation h) ++ le_encode 4 (purpose h) ++ volume_uuid h ++ mode_bytes (dma_mode h).
Definition row_bytes (r : Row) : list Z :=
  [row_kind r] ++ le_encode 2 (Z.of_nat (length (row_path r))) ++ row_path r ++ le_encode 8 (row_length r) ++ row_digest r.
Definition rows_bytes (rows : list Row) : list Z := concat (row_bytes <$> rows).
Definition payload_bytes (h : Header) (rows : list Row) : list Z :=
  MAGIC ++ header_bytes h ++ le_encode 2 (Z.of_nat (length rows)) ++ rows_bytes rows.

(** The widths the types of the fields give. *)
Record header_typed (h : Header) : Prop := {
  typed_key : 0 <= key_id h < 256 ^ 4;
  typed_product : Forall byte_range (product h);
  typed_release : Forall byte_range (release h);
  typed_generation : 0 <= security_generation h < 256 ^ 8;
  typed_uuid : Forall byte_range (volume_uuid h) /\ length (volume_uuid h) = 16%nat;
}.
Record row_typed (r : Row) : Prop := {
  typed_path : Forall byte_range (row_path r);
  typed_length : 0 <= row_length r < 256 ^ 8;
  typed_digest : Forall byte_range (row_digest r) /\ length (row_digest r) = 32%nat;
}.

Definition key_of (r : Row) : list Z := row_key (row_kind r) (row_path r).
(** Each row after the one before. *)
Fixpoint ascending (previous : option (list Z)) (rows : list Row) : Prop :=
  match rows with
  | [] => True
  | r :: rows => match previous with Some last => lex last (key_of r) = Lt | None => True end /\ ascending (Some (key_of r)) rows
  end.
Definition row_valid (r : Row) : Prop := one_of (row_kind r) KINDS = true /\ path_ok (row_path r) = true /\ row_typed r.

#[global] Arguments le_encode : simpl never.

(** ** Readers *)

Create HintDb accepts.

(** [p] reads a prefix of what is left, and it is one that [R] relates to its answer. *)
Definition accepts {A} (p : P A) (R : A -> list Z -> Prop) : Prop :=
  forall pre rest, Forall byte_range rest -> Z.of_nat (length (pre ++ rest)) <= U64_MAX ->
    (forall a next, p (pre ++ rest) (length pre) = Ok (a, next) ->
       exists e post, rest = e ++ post /\ R a e /\ next = (length pre + length e)%nat) /\
    (forall a e post, rest = e ++ post -> R a e -> p (pre ++ rest) (length pre) = Ok (a, (length pre + length e)%nat)).

Lemma accepts_ret {A} (a : A) : accepts (mret a) (fun b e => b = a /\ e = []).
Proof.
  intros pre rest _ _. unfold mret, P_ret. split.
  - intros b next [= <- <-]. exists [], rest. simpl. repeat split; lia.
  - intros b e post _ [-> ->]. simpl. do 2 f_equal. lia.
Qed.

Lemma accepts_bind {A B} (p : P A) (f : A -> P B) R Q :
  accepts p R -> (forall a, accepts (f a) (Q a)) ->
  accepts (p ≫= f) (fun b e => exists a e1 e2, R a e1 /\ Q a b e2 /\ e = e1 ++ e2).
Proof.
  intros Hp Hf pre rest Hr Hl. unfold mbind, P_bind. destruct (Hp pre rest Hr Hl) as [Hs Hc]. split.
  - intros b next H. destruct (p (pre ++ rest) (length pre)) as [[a n1] |] eqn:E; [| done].
    destruct (Hs a n1 eq_refl) as (e1 & post & -> & HR & ->). apply Forall_app in Hr as [_ Hr].
    rewrite app_assoc, <- length_app in H. rewrite app_assoc in Hl.
    destruct (Hf a (pre ++ e1) post Hr Hl) as [Hs2 _]. destruct (Hs2 b next H) as (e2 & post2 & -> & HQ & ->).
    exists (e1 ++ e2), post2. rewrite <- app_assoc, !length_app. split; [done |]. split; [by exists a, e1, e2 | lia].
  - intros b e post -> (a & e1 & e2 & HR & HQ & ->). rewrite <- app_assoc in *.
    rewrite (Hc a e1 (e2 ++ post) eq_refl HR). apply Forall_app in Hr as [_ Hr]. rewrite app_assoc in Hl.
    destruct (Hf a (pre ++ e1) (e2 ++ post) Hr Hl) as [_ Hc2]. specialize (Hc2 b e2 post eq_refl HQ).
    rewrite <- app_assoc, length_app in Hc2. rewrite Hc2, length_app. do 2 f_equal. lia.
Qed.

(** A check reads nothing. *)
Lemma accepts_check ok e0 : accepts (check ok e0) (fun _ e => ok = true /\ e = []).
Proof.
  unfold check. destruct ok.
  - intros pre rest Hr Hl. destruct (accepts_ret tt pre rest Hr Hl) as [Hs Hc]. split.
    + intros [] next H. destruct (Hs _ _ H) as (e & post & ? & [_ ->] & ?). by exists [], post.
    + intros [] e post ? [_ ->]. by apply (Hc tt [] post).
  - intros pre rest _ _. split; [intros a next H; discriminate H | by intros a e post _ [? _]].
Qed.

Lemma accepts_stop {A} e0 : accepts (@stop A e0) (fun _ _ => False).
Proof. intros pre rest _ _. by split; [intros a next H; discriminate H | intros]. Qed.

Lemma accepts_iff {A} (p : P A) R R' : accepts p R -> (forall a e, R a e <-> R' a e) -> accepts p R'.
Proof.
  intros Hp HR pre rest Hr Hl. destruct (Hp pre rest Hr Hl) as [Hs Hc]. split.
  - intros a next H. destruct (Hs a next H) as (e & post & ? & ? & ?). exists e, post. by rewrite <- HR.
  - intros a e post ? ?. apply (Hc a e post); [done | by apply HR].
Qed.

Lemma accepts_take n : accepts (take_n n) (fun b e => e = b /\ length b = n /\ Forall byte_range b).
Proof.
  intros pre rest Hr Hl. unfold take_n, checked_add. rewrite drop_app_length. rewrite !length_app in *. split.
  - intros a next. destruct (Z.leb_spec (Z.of_nat (length pre) + Z.of_nat n) U64_MAX); [| done].
    destruct (Nat.ltb_spec (length pre + length rest) (length pre + n)); [done |]. intros [= <- <-].
    exists (take n rest), (drop n rest). rewrite take_drop, length_take_le by lia.
    repeat split; try lia. by apply Forall_take.
  - intros a e post -> (-> & <- & _). rewrite length_app in *. rewrite (proj2 (Z.leb_le _ _)) by lia.
    rewrite (proj2 (Nat.ltb_ge _ _)) by lia. by rewrite take_app_length.
Qed.

Lemma accepts_le n : accepts (b ← take_n n; mret (le_decode b)) (fun v e => e = le_encode n v /\ 0 <= v < 256 ^ Z.of_nat n).
Proof.
  eapply accepts_iff; [apply accepts_bind; [apply accepts_take | intros; apply accepts_ret] |]. cbv beta. intros v e. split.
  - intros (b & e1 & e2 & (-> & <- & Hb) & [-> ->] & ->). rewrite app_nil_r, le_encode_decode by done.
    split; [done | by apply le_decode_range].
  - intros [-> Hv]. exists (le_encode n v), (le_encode n v), []. rewrite app_nil_r, length_le_encode, le_decode_encode by done.
    repeat split. apply le_encode_bytes.
Qed.

Lemma accepts_u8 : accepts u8_at (fun v e => e = [v] /\ byte_range v).
Proof.
  eapply accepts_iff; [apply accepts_bind; [apply accepts_take | intros; apply accepts_ret] |]. cbv beta. intros v e. split.
  - intros (b & e1 & e2 & (-> & Hl & Hb) & [-> ->] & ->). destruct b as [| x [|]]; try done. inversion Hb; subst. by split.
  - intros [-> Hv]. exists [v], [v], []. repeat split. by constructor.
Qed.

Ltac accept :=
  repeat first
    [ apply accepts_check | apply accepts_ret | apply accepts_u8 | apply (accepts_le 2) | apply (accepts_le 4) | apply (accepts_le 8)
    | apply accepts_take | solve [eauto with accepts] | match goal with IH : forall _, accepts _ _ |- _ => apply IH end | apply accepts_bind; [| intros; cbv beta] ].

(** Takes the relation of a sequence of readers apart. *)
Ltac unread := repeat (match goal with
  | H : exists _, _ |- _ => destruct H
  | H : _ /\ _ |- _ => destruct H
  end); subst.
(** ... and puts it together, a value or a check at a time. *)
Lemma seq_value {A} (R Q : A -> list Z -> Prop) a e1 e2 :
  Q a e2 -> R a e1 -> exists a e1' e2', R a e1' /\ Q a e2' /\ e1 ++ e2 = e1' ++ e2'.
Proof. intros. by exists a, e1, e2. Qed.
Lemma seq_check ok (Q : unit -> list Z -> Prop) e :
  ok = true -> Q tt e -> exists a e1 e2, (ok = true /\ e1 = []) /\ Q a e2 /\ e = e1 ++ e2.
Proof. intros. by exists tt, [], e. Qed.
Ltac reread :=
  repeat first
    [ apply seq_check; [first [assumption | reflexivity] |]
    | eapply seq_value; [| split; [reflexivity | first [assumption | split; first [assumption | reflexivity] | unfold ALG_ED25519, byte_range; simpl; lia]]]; cbv beta ].

Lemma name_ok_length name : name_ok name = true -> (0 < length name <= 64)%nat.
Proof.
  unfold name_ok. rewrite andb_true_iff, negb_true_iff, bool_decide_eq_false, Nat.leb_le.
  intros [Hn Hl]. split; [destruct name; simpl; [done | lia] | exact Hl].
Qed.

Lemma accepts_name : accepts read_name (fun name e => e = name_bytes name /\ name_ok name = true /\ Forall byte_range name).
Proof.
  eapply accepts_iff; [unfold read_name; accept |]. cbv beta. intros name e. unfold name_bytes, byte_range at 1. split.
  - intros H. unread. simpl. rewrite app_nil_r. match goal with H : length _ = Z.to_nat _ |- _ => rewrite H end. by rewrite Z2Nat.id by lia.
  - intros (-> & Hn & Hb). pose proof (name_ok_length _ Hn).
    exists (Z.of_nat (length name)), [Z.of_nat (length name)], name. split; [split; [done | lia] |]. split; [| done].
    exists name, name, []. rewrite Nat2Z.id, app_nil_r. split; [done |]. split; [| done]. by exists tt, [], [].
Qed.

Lemma one_of_In v l : one_of v l = true <-> In v l.
Proof.
  unfold one_of. rewrite existsb_exists. split; [intros (x & Hx & E); apply Z.eqb_eq in E; by subst | intros H; exists v; split; [done | apply Z.eqb_refl]].
Qed.

Definition mode_ok (mode : option Z) : bool := match mode with Some m => one_of m MODES | None => true end.

Lemma mode_small m : one_of m MODES = true -> 0 <= m < 256 ^ 4.
Proof. rewrite one_of_In. simpl. intros [<- | [<- | []]]; lia. Qed.

Lemma accepts_mode : accepts read_dma_mode (fun mode e => e = mode_bytes mode /\ mode_ok mode = true).
Proof.
  eapply accepts_iff.
  { unfold read_dma_mode. eapply accepts_bind; [apply accepts_u8 |]. intros tag.
    instantiate (1 := fun tag mode e => if tag =? DMA_MODE_ABSENT then mode = None /\ e = []
       else if tag =? DMA_MODE_PRESENT then exists m, mode = Some m /\ e = le_encode 4 m /\ one_of m MODES = true else False).
    cbv beta. destruct (tag =? DMA_MODE_ABSENT); [apply accepts_ret |]. destruct (tag =? DMA_MODE_PRESENT); [| apply accepts_stop].
    eapply accepts_iff; [accept |]. cbv beta. intros mode e. split.
    - intros H. unread. rewrite !app_nil_r. eauto.
    - intros (m & -> & -> & Hm). exists m, (le_encode 4 m), []. rewrite app_nil_r. split; [split; [done | by apply mode_small] |].
      split; [| done]. by exists tt, [], []. }
  cbv beta. intros mode e. unfold DMA_MODE_ABSENT, DMA_MODE_PRESENT. split.
  - intros (tag & e1 & e2 & [-> _] & H & ->). destruct (Z.eqb_spec tag 0) as [-> |]; [by destruct H as [-> ->] |].
    destruct (Z.eqb_spec tag 1) as [-> |]; [| done]. by destruct H as (m & -> & -> & Hm).
  - intros [-> Hm]. destruct mode as [m |]; [exists 1, [1], (le_encode 4 m) | exists 0, [0], []]; (split; [split; [done | split; lia] |]); split; try done.
    simpl. by exists m.
Qed.

#[export] Hint Resolve accepts_name accepts_mode : accepts.

Lemma header_ok_spec h :
  header_ok h = Ok tt <->
  name_ok (product h) = true /\ name_ok (release h) = true /\ one_of (arch h) ARCHES = true /\ one_of (source_kind h) SOURCES = true /\
  one_of (purpose h) PURPOSES = true /\ mode_ok (dma_mode h) = true.
Proof.
  unfold header_ok, mode_ok.
  destruct (name_ok (product h)), (name_ok (release h)), (one_of (arch h) ARCHES), (one_of (source_kind h) SOURCES), (one_of (purpose h) PURPOSES);
    simpl; try (split; intuition discriminate). destruct (dma_mode h) as [m |]; [destruct (one_of m MODES) |]; simpl; split; intuition congruence.
Qed.

Lemma small_codes v l : one_of v l = true -> Forall (fun x => 0 <= x < 6) l -> 0 <= v < 6.
Proof. rewrite one_of_In, Forall_forall. intros H F. apply (F v). by apply list_elem_of_In. Qed.

Ltac small_code H :=
  let S := fresh in pose proof (small_codes _ _ H ltac:(repeat constructor; lia)) as S.

Lemma accepts_header :
  accepts read_header (fun '(alg, h) e => alg = ALG_ED25519 /\ e = header_bytes h /\ header_ok h = Ok tt /\ header_typed h).
Proof.
  eapply accepts_iff; [unfold read_header; accept |]. cbv beta. intros [alg h] e. rewrite header_ok_spec. split.
  - intros H. unread. simplify_eq. match goal with H : (_ =? ALG_ED25519) = true |- _ => apply Z.eqb_eq in H; subst end.
    unfold header_bytes. cbn [key_id product arch source_kind release security_generation purpose volume_uuid dma_mode].
    split; [done |]. split; [by rewrite ?app_nil_r, ?app_nil_l |]. split; [done |]. by constructor.
  - intros (-> & -> & (Hp & Hr & Ha & Hs & Hu & Hm) & [Tk Tp Tr Tg [Tu Tl]]). small_code Ha. small_code Hs. small_code Hu.
    unfold header_bytes. rewrite <- (app_nil_r (mode_bytes (dma_mode h))). reread. by destruct h.
Qed.

(** ** Rows *)

Lemma path_ok_length path : path_ok path = true -> 0 <= Z.of_nat (length path) < 256 ^ 2.
Proof. unfold path_ok. rewrite !andb_true_iff, Nat.leb_le. unfold MAX_PATH_BYTES. lia. Qed.

Lemma previous_ok previous key :
  match previous with Some last => bool_decide (lex last key = Lt) | None => true end = true <->
  match previous with Some last => lex last key = Lt | None => True end.
Proof. destruct previous; [apply bool_decide_eq_true | done]. Qed.

Lemma rows_bytes_cons r rows :
  rows_bytes (r :: rows) =
  [row_kind r] ++ le_encode 2 (Z.of_nat (length (row_path r))) ++ row_path r ++ le_encode 8 (row_length r) ++ row_digest r ++ rows_bytes rows.
Proof. unfold rows_bytes at 1. cbn [fmap list_fmap concat]. unfold row_bytes at 1. by rewrite <- !app_assoc. Qed.

Lemma accepts_rows n previous :
  accepts (walk_rows n previous)
    (fun _ e => exists rows, length rows = n /\ Forall row_valid rows /\ ascending previous rows /\ e = rows_bytes rows).
Proof.
  revert previous. induction n as [| n IH]; intros previous; cbn [walk_rows].
  { eapply accepts_iff; [apply accepts_ret |]. cbv beta. intros [] e. split; [intros [_ ->]; by exists [] |].
    intros ([|] & ? & _ & _ & ->); done. }
  eapply accepts_iff; [accept |]. cbv beta. intros [] e. split.
  - intros H. unread. rewrite previous_ok in *.
    match goal with K : one_of ?k _ = true, Q : path_ok ?p = true, U : ?l < 256 ^ Z.of_nat 8, D : length ?d = 32%nat, F : Forall row_valid ?rs |- _ =>
      exists (mkRow k p l d :: rs) end.
    cbn [length ascending]. split; [done |]. split; [constructor; [| done]; split; [done | split; [done | by constructor]] |].
    split; [done |]. unfold rows_bytes. cbn [fmap list_fmap concat]. unfold row_bytes. cbn [row_kind row_path row_length row_digest].
    match goal with H : length _ = Z.to_nat _ |- _ => rewrite H end. rewrite Z2Nat.id by lia. by rewrite ?app_nil_l, <- ?app_assoc.
  - intros ([| r rows] & [= <-] & Hv & [Hp Ha] & ->). apply Forall_cons in Hv as [(Hk & Hq & [Tp Tl [Td Td']]) Hv].
    pose proof (path_ok_length _ Hq). small_code Hk. apply previous_ok in Hp. rewrite rows_bytes_cons. reread.
    rewrite Nat2Z.id. reread. by exists rows.
Qed.

(** ** The rows of a manifest that was read *)

Lemma row_tail_bytes r : row_bytes r = [row_kind r] ++ drop 1 (row_bytes r).
Proof. done. Qed.

Lemma length_row_bytes r : row_valid r -> length (row_bytes r) = (1 + 2 + length (row_path r) + 8 + 32)%nat.
Proof. intros (_ & _ & [_ _ [_ Hd]]). unfold row_bytes. rewrite !length_app, !length_le_encode, Hd. simpl. lia. Qed.

Lemma accepts_row kind :
  accepts (read_row kind) (fun r e => row_kind r = kind /\ row_typed r /\ Z.of_nat (length (row_path r)) < 256 ^ 2 /\ row_bytes r = [kind] ++ e).
Proof.
  eapply accepts_iff; [unfold read_row; accept |]. cbv beta. intros r e. split.
  - intros H. unread. unfold row_bytes. cbn [row_kind row_path row_length row_digest].
    match goal with H : length _ = Z.to_nat _ |- _ => rewrite H end. rewrite Z2Nat.id, ?app_nil_r by lia.
    split; [done |]. split; [by constructor |]. split; [simpl in *; lia | by rewrite <- ?app_assoc].
  - intros (<- & [Tp Tl [Td Td']] & Hl & E). apply app_inv_head in E. subst e. rewrite <- (app_nil_r (row_digest r)).
    reread. rewrite Nat2Z.id. reread. by destruct r.
Qed.

Lemma accepts_at {A} (p : P A) R pre e post a :
  accepts p R -> R a e -> Forall byte_range (e ++ post) -> Z.of_nat (length (pre ++ e ++ post)) <= U64_MAX ->
  p (pre ++ e ++ post) (length pre) = Ok (a, (length pre + length e)%nat).
Proof. intros Hp HR Hb Hl. destruct (Hp pre (e ++ post) Hb Hl) as [_ Hc]. by apply (Hc a e post). Qed.

Lemma rows_bytes_app a b : rows_bytes (a ++ b) = rows_bytes a ++ rows_bytes b.
Proof. unfold rows_bytes. by rewrite fmap_app, concat_app. Qed.

Lemma rows_bytes_split r rows : rows_bytes (r :: rows) = row_bytes r ++ rows_bytes rows.
Proof. done. Qed.

(** The path length of the row at [pre]. *)
Lemma path_length_at pre r post :
  row_valid r -> Forall byte_range (row_bytes r ++ post) -> Z.of_nat (length (pre ++ row_bytes r ++ post)) <= U64_MAX ->
  exists next, u16_at (pre ++ row_bytes r ++ post) (length pre + 1)%nat = Ok (Z.of_nat (length (row_path r)), next).
Proof.
  intros (_ & Hq & _) Hb Hf. unfold row_bytes in *. rewrite <- !app_assoc, (app_assoc pre [_]) in *.
  assert (length (pre ++ [row_kind r]) = (length pre + 1)%nat) as <- by (rewrite length_app; done).
  eexists. apply (accepts_at u16_at _ _ _ _ _ (accepts_le 2)); [by split; [| apply path_ok_length] | | exact Hf].
  by apply Forall_cons in Hb as [_ Hb].
Qed.

Lemma skip_rows_to i pre post rows :
  Forall row_valid rows -> Forall byte_range (rows_bytes rows ++ post) -> Z.of_nat (length (pre ++ rows_bytes rows ++ post)) <= U64_MAX ->
  (i <= length rows)%nat ->
  skip_rows i (pre ++ rows_bytes rows ++ post) (length pre) = Some (length (pre ++ rows_bytes (take i rows))).
Proof.
  revert pre rows. induction i as [| i IH]; intros p [| r rs] Hv Hb Hf Hi; cbn [take length skip_rows] in *; rewrite ?app_nil_r; try (done || lia).
  rewrite rows_bytes_split, <- app_assoc in *. apply Forall_cons in Hv as [Hr Hv].
  destruct (path_length_at p r (rows_bytes rs ++ post) Hr Hb Hf) as [next ->]. rewrite Nat2Z.id.
  replace (length p + 1 + 2 + length (row_path r) + 8 + 32)%nat with (length (p ++ row_bytes r)) by (rewrite length_app, length_row_bytes by done; lia).
  rewrite (app_assoc p) in *. rewrite IH; [by rewrite rows_bytes_split, app_assoc | done | | done | lia].
  by apply Forall_app in Hb as [_ Hb].
Qed.

(** The row at [pre]. *)
Lemma row_here pre r post :
  row_valid r -> Forall byte_range (row_bytes r ++ post) -> Z.of_nat (length (pre ++ row_bytes r ++ post)) <= U64_MAX ->
  (pre ++ row_bytes r ++ post) !! length pre = Some (row_kind r) /\
  exists next, read_row (row_kind r) (pre ++ row_bytes r ++ post) (length pre + 1)%nat = Ok (r, next).
Proof.
  intros (_ & Hq & Ht) Hb Hf. rewrite row_tail_bytes, <- app_assoc in *. split; [by apply list_lookup_middle |].
  rewrite (app_assoc pre [_]) in *.
  assert (length (pre ++ [row_kind r]) = (length pre + 1)%nat) as <- by (rewrite length_app; done).
  eexists. apply (accepts_at _ _ _ _ _ _ (accepts_row _)); [| by apply Forall_cons in Hb as [_ Hb] | exact Hf].
  split; [done |]. split; [done |]. split; [by apply path_ok_length | done].
Qed.

(** A manifest whose rows lie where it says. *)
Definition holds (m : Manifest) (rows : list Row) : Prop :=
  exists pre post, m_bytes m = pre ++ rows_bytes rows ++ post /\ rows_at m = length pre /\ row_count m = length rows /\
    Forall row_valid rows /\ Forall byte_range (m_bytes m) /\ Z.of_nat (length (m_bytes m)) <= U64_MAX.

Lemma row_of m rows i : holds m rows -> row m i = Some (rows !! i).
Proof.
  intros (pre & post & Eb & Ea & Ec & Hv & Hb & Hl). unfold row. rewrite Ec, Ea. rewrite Eb in *.
  destruct (Nat.leb_spec (length rows) i) as [Hi | Hi]; [by rewrite lookup_ge_None_2 |].
  pose proof Hb as Hb2. apply Forall_app in Hb2 as [_ Hb2]. rewrite skip_rows_to by (done || lia).
  destruct (lookup_lt_is_Some_2 rows i Hi) as [r Hr]. rewrite Hr.
  assert (rows_bytes rows = rows_bytes (take i rows) ++ row_bytes r ++ rows_bytes (drop (S i) rows)) as E.
  { rewrite <- (take_drop_middle rows i r Hr) at 1. by rewrite rows_bytes_app. }
  rewrite E, <- !app_assoc, (app_assoc pre) in *. apply Forall_app in Hb as [_ Hb].
  destruct (row_here _ r _ (proj1 (Forall_lookup _ _) Hv i r Hr) Hb Hl) as [-> [next ->]]. done.
Qed.

Lemma find_from_spec m rows kind path n i :
  holds m rows -> (i + n = length rows)%nat ->
  find_from m n i kind path = Some (list_find (fun r => row_kind r = kind /\ row_path r = path) (drop i rows) ≫= Some ∘ snd).
Proof.
  intros Hm. revert i. induction n as [| n IH]; intros i Hi; cbn [find_from].
  { by rewrite drop_ge by lia. }
  destruct (lookup_lt_is_Some_2 rows i ltac:(lia)) as [r Hr]. rewrite (row_of _ _ _ Hm), Hr, (drop_S _ _ _ Hr). cbn [list_find].
  case_bool_decide; destruct (decide _); try done. rewrite IH by lia.
  destruct (list_find _ (drop (S i) rows)) as [[] |]; done.
Qed.


(** ** The order of the rows *)

Lemma lex_eq a b : lex a b = Eq <-> a = b.
Proof.
  revert b. induction a as [| x a IH]; intros [| y b]; simpl; try done. destruct (Z.compare_spec x y) as [-> | H | H].
  - rewrite IH. split; congruence.
  - split; [done | intros [=]; lia].
  - split; [done | intros [=]; lia].
Qed.

Lemma lex_flip a b : lex b a = CompOpp (lex a b).
Proof. revert b. induction a as [| x a IH]; intros [| y b]; simpl; try done. rewrite (Z.compare_antisym x y), IH. by destruct (x ?= y). Qed.

Lemma lex_trans a b c : lex a b = Lt -> lex b c = Lt -> lex a c = Lt.
Proof.
  revert b c. induction a as [| x a IH]; intros [| y b] [| z c]; simpl; try done.
  destruct (Z.compare_spec x y) as [-> | Hxy | Hxy], (Z.compare_spec y z) as [-> | Hyz | Hyz]; try done; intros H1 H2.
  - by apply (IH b c).
  - by rewrite (proj2 (Z.compare_lt_iff _ _) Hxy).
  - by rewrite (proj2 (Z.compare_lt_iff x z) ltac:(lia)).
Qed.

Lemma row_le_cases a b : row_le a b <-> lex (key_of a) (key_of b) = Lt \/ key_of a = key_of b.
Proof.
  unfold row_le. fold (key_of a) (key_of b). rewrite <- lex_eq. destruct (lex (key_of a) (key_of b)); split; naive_solver.
Qed.

#[export] Instance row_le_total : Total row_le.
Proof.
  intros a b. unfold row_le. fold (key_of a) (key_of b). rewrite (lex_flip (key_of a) (key_of b)).
  destruct (lex (key_of a) (key_of b)); simpl; auto.
Qed.

#[export] Instance row_le_trans : Transitive row_le.
Proof.
  intros a b c. rewrite !row_le_cases. intros [H1 | H1] [H2 | H2]; [left; by eapply lex_trans | left; congruence | left; congruence | right; congruence].
Qed.

Definition row_lt (a b : Row) : Prop := lex (key_of a) (key_of b) = Lt.

Lemma ascending_sorted last rows : ascending last rows -> Sorted row_lt rows.
Proof.
  revert last. induction rows as [| r rows IH]; intros last; [constructor |]. intros [_ H]. constructor; [by eapply IH |].
  destruct rows; [constructor |]. destruct H as [H _]. by constructor.
Qed.

Lemma ascending_strongly rows : ascending None rows -> StronglySorted row_lt rows.
Proof. intros H. apply Sorted_StronglySorted; [intros a b c; apply lex_trans | by eapply ascending_sorted]. Qed.

(** One row to a key. *)
Lemma ascending_keys rows a b : ascending None rows -> a ∈ rows -> b ∈ rows -> key_of a = key_of b -> a = b.
Proof.
  intros H. apply ascending_strongly in H. induction H as [| r rows _ IH Hr]; [by intros ?%elem_of_nil |].
  rewrite Forall_forall in Hr. assert (forall x y, row_lt x y -> key_of x <> key_of y) as Hne.
  { unfold row_lt. intros x y Hlt ?%lex_eq. congruence. }
  rewrite !elem_of_cons. intros [-> | Ha] [-> | Hb] E; [done | | | by apply IH].
  - by destruct (Hne r b (Hr b Hb)).
  - by destruct (Hne r a (Hr a Ha)).
Qed.

Lemma ascending_le rows : ascending None rows -> Sorted row_le rows.
Proof.
  intros H%ascending_sorted. induction H as [| r rows _ IH Hr]; constructor; [done |]. destruct Hr; constructor. apply row_le_cases. by left.
Qed.

Lemma sorted_ascending rows : Sorted row_le rows -> repeated rows = false -> ascending None rows.
Proof.
  intros H. assert (forall last, match last with Some l => match rows with r :: _ => lex l (key_of r) = Lt | [] => True end | None => True end ->
    repeated rows = false -> ascending last rows) as G; [| intros; by apply G].
  induction H as [| r rows _ IH Hr]; intros last Hl; [done |]. cbn [repeated ascending]. intros Hn. split; [by destruct last |].
  destruct rows as [| r2 rows]; [done |]. apply orb_false_iff in Hn as [Hk Hn]. apply bool_decide_eq_false in Hk.
  apply IH; [| done]. inversion Hr as [| ? ? Hle]; subst. by apply row_le_cases in Hle as [? | ?].
Qed.

Lemma ascending_repeated rows : ascending None rows -> repeated rows = false.
Proof.
  intros H%ascending_sorted. induction H as [| r rows _ IH Hr]; [done |]. destruct rows as [| r2 rows]; [done |].
  apply orb_false_iff. split; [| exact IH]. apply bool_decide_eq_false. inversion Hr as [| ? ? Hlt]; subst. unfold row_lt in Hlt.
  intros E%lex_eq. unfold key_of in Hlt. congruence.
Qed.

(** Rows that ascend are what sorting them, however they are shuffled, gives. *)
Lemma sort_canonical rows shuffled : ascending None rows -> shuffled ≡ₚ rows -> merge_sort row_le shuffled = rows.
Proof.
  intros H P. apply (Sorted_unique_strong row_le); [| apply Sorted_merge_sort, _ | by apply ascending_le | by rewrite merge_sort_Permutation].
  intros a b Ha Hb Hab Hba. rewrite merge_sort_Permutation, P in Ha. apply (ascending_keys rows); try done.
  apply row_le_cases in Hab as [Hab | ?], Hba as [Hba | ?]; try congruence.
  rewrite lex_flip, Hab in Hba. done.
Qed.

(** ** Writing *)

(** [w] writes [e] after what it found, and needs just that room. *)
Definition writes (w : W unit) (e : list Z) : Prop :=
  forall out at_, (at_ <= length out)%nat -> Z.of_nat (length out) <= U64_MAX ->
    match w (out, at_) with
    | (Ok _, (out', next)) =>
        (at_ + length e <= length out)%nat /\ next = (at_ + length e)%nat /\ length out' = length out /\ take next out' = take at_ out ++ e
    | (Err r, (out', _)) => (length out < at_ + length e)%nat /\ length out' = length out
    end.

Lemma writes_put e : writes (put e) e.
Proof.
  intros out at_ Ha Hl. unfold put, checked_add.
  destruct (Z.leb_spec (Z.of_nat at_ + Z.of_nat (length e)) U64_MAX); [| split; [lia | done]].
  destruct (Nat.ltb_spec (length out) (at_ + length e)); [done |].
  split; [lia |]. split; [done |]. split.
  - rewrite !length_app, length_take_le, length_drop by lia. lia.
  - rewrite app_assoc, take_app_le by (rewrite length_app, length_take_le by lia; lia).
    apply take_ge. rewrite length_app, length_take_le by lia. lia.
Qed.

Lemma writes_ret : writes (mret tt) [].
Proof. intros out at_ Ha Hl. simpl. rewrite app_nil_r, Nat.add_0_r. done. Qed.

Lemma writes_seq a b e1 e2 : writes a e1 -> writes b e2 -> writes (a ;; b) (e1 ++ e2).
Proof.
  intros HA HB out at_ Ha Hl. unfold mbind, W_bind. specialize (HA out at_ Ha Hl). destruct (a (out, at_)) as [[[] | r] [out1 n1]].
  - destruct HA as (H1 & -> & H2 & H3). specialize (HB out1 (at_ + length e1)%nat ltac:(lia) ltac:(lia)).
    destruct (b (out1, _)) as [[[] | r] [out2 n2]]; rewrite length_app.
    + destruct HB as (H4 & -> & H5 & H6). rewrite H3, <- app_assoc in H6. split; [lia |]. split; [lia |]. split; [congruence | done].
    + destruct HB. split; [lia | congruence].
  - destruct HA. rewrite length_app. split; [lia | done].
Qed.
