(* ===== verification/ManifestProps.v ===== *)
(** What the signed boot manifest promises: a manifest that is written reads back as the
    facts it was written from, and one that is read is the only encoding of its facts. *)

From stdpp Require Import sorting.
From S2P Require Import Prelude Manifest ManifestFacts.

(** ** Writing a payload *)

Lemma writes_name name tail e :
  name_ok name = true -> writes tail e ->
  writes (put [Z.of_nat (length name) mod 256] ;; put name ;; tail) (name_bytes name ++ e).
Proof.
  intros H%name_ok_length Ht. rewrite Z.mod_small by lia. change (name_bytes name) with ([Z.of_nat (length name)] ++ name).
  rewrite <- app_assoc. repeat (apply writes_seq; [apply writes_put |]). exact Ht.
Qed.

Lemma writes_mode mode : writes (match mode with None => put [DMA_MODE_ABSENT] | Some mode => put [DMA_MODE_PRESENT] ;; put (le_encode 4 mode) end) (mode_bytes mode).
Proof.
  destruct mode as [mode |]; [| apply writes_put]. change (mode_bytes (Some mode)) with ([DMA_MODE_PRESENT] ++ le_encode 4 mode).
  apply writes_seq; apply writes_put.
Qed.

Ltac write_all := repeat first [apply writes_name; [assumption |] | apply writes_mode | apply writes_seq; [apply writes_put |] | apply writes_put].

Lemma writes_header h : header_ok h = Ok tt -> writes (put_header h) (MAGIC ++ header_bytes h).
Proof. rewrite header_ok_spec. intros (Hp & Hr & _). unfold put_header, header_bytes. write_all. Qed.

Lemma writes_rows rows : Forall row_valid rows -> writes (put_rows rows) (rows_bytes rows).
Proof.
  induction 1 as [| r rows (_ & Hq & _) _ IH]; [apply writes_ret |]. cbn [put_rows]. rewrite rows_bytes_cons.
  pose proof (path_ok_length _ Hq). rewrite Z.mod_small by (simpl in *; lia). write_all. exact IH.
Qed.

Lemma max_rows_small n : (n <= MAX_ROWS)%nat -> 0 <= Z.of_nat n < 256 ^ 2.
Proof. unfold MAX_ROWS. lia. Qed.

Lemma writes_payload h rows :
  header_ok h = Ok tt -> Forall row_valid rows -> (length rows <= MAX_ROWS)%nat ->
  writes (put_header h ;; put (le_encode 2 (Z.of_nat (length rows) mod 65536)) ;; put_rows rows) (payload_bytes h rows).
Proof.
  intros Hh Hr Hn%max_rows_small. rewrite Z.mod_small by lia. unfold payload_bytes. rewrite app_assoc.
  apply writes_seq; [by apply writes_header |]. apply writes_seq; [apply writes_put | by apply writes_rows].
Qed.

(** ** Reading one *)

Definition manifest_of (h : Header) (rows : list Row) (sig : list Z) : Manifest :=
  mkManifest (payload_bytes h rows ++ sig) (length (payload_bytes h rows)) ALG_ED25519 h (length (MAGIC ++ header_bytes h ++ le_encode 2 (Z.of_nat (length rows)))) (length rows).

Record facts_ok (h : Header) (rows : list Row) : Prop := {
  facts_header : header_ok h = Ok tt /\ header_typed h;
  facts_rows : Forall row_valid rows;
  facts_count : (length rows <= MAX_ROWS)%nat;
  facts_order : ascending None rows;
}.

Lemma bind_at {A B} (p : P A) (f : A -> P B) R pre e post a :
  accepts p R -> R a e -> Forall byte_range (e ++ post) -> Z.of_nat (length (pre ++ e ++ post)) <= U64_MAX ->
  (p ≫= f) (pre ++ e ++ post) (length pre) = f a ((pre ++ e) ++ post) (length (pre ++ e)).
Proof. intros Hp HR Hb Hl. unfold mbind, P_bind. by rewrite (accepts_at p R pre e post a), <- app_assoc, length_app. Qed.

Lemma bind_inv {A B} (p : P A) (f : A -> P B) R pre rest r :
  accepts p R -> Forall byte_range rest -> Z.of_nat (length (pre ++ rest)) <= U64_MAX ->
  (p ≫= f) (pre ++ rest) (length pre) = Ok r ->
  exists a e post, rest = e ++ post /\ R a e /\ f a ((pre ++ e) ++ post) (length (pre ++ e)) = Ok r /\
    Forall byte_range post /\ Z.of_nat (length ((pre ++ e) ++ post)) <= U64_MAX.
Proof.
  intros Hp Hr Hl. unfold mbind, P_bind. destruct (p (pre ++ rest) (length pre)) as [[a next] |] eqn:E; [| done]. intros H.
  destruct (Hp pre rest Hr Hl) as [Hs _]. destruct (Hs a next E) as (e & post & -> & HR & ->).
  exists a, e, post. rewrite <- app_assoc, length_app. apply Forall_app in Hr as [_ Hr]. done.
Qed.

Lemma here_bind {B} (f : nat -> P B) bytes at_ : (here ≫= f) bytes at_ = f at_ bytes at_.
Proof. done. Qed.

Lemma check_bind {B} ok e (f : unit -> P B) bytes at_ : ok = true -> (check ok e ≫= f) bytes at_ = f tt bytes at_.
Proof. by intros ->. Qed.

Lemma body_parse h rows sig :
  facts_ok h rows -> Forall byte_range (header_bytes h ++ le_encode 2 (Z.of_nat (length rows)) ++ rows_bytes rows ++ sig) ->
  Z.of_nat (length (payload_bytes h rows ++ sig)) <= U64_MAX -> length sig = 64%nat ->
  read_body (payload_bytes h rows ++ sig) (length MAGIC) =
  Ok ((ALG_ED25519, h, rows_at (manifest_of h rows sig), length rows, length (payload_bytes h rows)), length (payload_bytes h rows ++ sig)).
Proof.
  intros [[Hh Ht] Hr Hn Ha] Hb Hl Hs. unfold read_body, payload_bytes, manifest_of in *. cbn [rows_at]. rewrite <- !app_assoc in *.
  rewrite (bind_at _ _ _ _ _ _ (ALG_ED25519, h) accepts_header) by done. apply Forall_app in Hb as [_ Hb]. rewrite (app_assoc MAGIC) in Hl.
  rewrite (bind_at _ _ _ _ _ _ (Z.of_nat (length rows)) (accepts_le 2)) by first [done | split; [done | by apply max_rows_small]].
  apply Forall_app in Hb as [_ Hb]. rewrite (app_assoc (MAGIC ++ _)) in Hl.
  rewrite check_bind by (rewrite Nat2Z.id; by apply Nat.leb_le). rewrite here_bind, Nat2Z.id.
  rewrite (bind_at _ _ _ _ _ _ tt (accepts_rows _ _)) by first [done | by exists rows].
  rewrite here_bind. apply Forall_app in Hb as [_ Hb]. rewrite (app_assoc ((MAGIC ++ _) ++ _)) in Hl.
  rewrite <- (app_nil_r sig) in *. rewrite (bind_at _ _ _ _ _ _ sig (accepts_take 64)) by (rewrite ?app_nil_r in *; done).
  rewrite !app_nil_r, <- !app_assoc. done.
Qed.

Lemma ok_inj {A E} (a b : A) : @Ok A E a = Ok b -> a = b.
Proof. by intros [=]. Qed.

Lemma body_inv rest alg h ra n pl next :
  Forall byte_range rest -> Z.of_nat (length (MAGIC ++ rest)) <= U64_MAX ->
  read_body (MAGIC ++ rest) (length MAGIC) = Ok ((alg, h, ra, n, pl), next) -> next = length (MAGIC ++ rest) ->
  exists rows sig, facts_ok h rows /\ MAGIC ++ rest = payload_bytes h rows ++ sig /\ length sig = 64%nat /\ alg = ALG_ED25519 /\
    ra = rows_at (manifest_of h rows sig) /\ n = length rows /\ pl = length (payload_bytes h rows).
Proof.
  intros Hr Hl H ->. unfold read_body in H.
  apply (bind_inv _ _ _ _ _ _ accepts_header Hr Hl) in H as ([alg' h'] & e1 & p1 & -> & (-> & -> & Hok & Ht) & H & Hr1 & Hl1).
  apply (bind_inv _ _ _ _ _ _ (accepts_le 2) Hr1 Hl1) in H as (count & e2 & p2 & -> & (-> & Hc) & H & Hr2 & Hl2).
  apply (bind_inv _ _ _ _ _ _ (accepts_check _ _) Hr2 Hl2) in H as ([] & e3 & p3 & -> & (Hle & ->) & H & Hr3 & Hl3).
  rewrite app_nil_r in *. rewrite here_bind in H.
  apply (bind_inv _ _ _ _ _ _ (accepts_rows _ _) Hr3 Hl3) in H as ([] & e4 & p4 & -> & (rows & Hn & Hv & Ha & ->) & H & Hr4 & Hl4).
  rewrite here_bind in H.
  apply (bind_inv _ _ _ _ _ _ (accepts_take 64) Hr4 Hl4) in H as (sig & e5 & p5 & -> & (-> & Hs & _) & H & _ & _).
  apply Nat.leb_le in Hle. assert (count = Z.of_nat (length rows)) as -> by lia. rewrite Nat2Z.id in *.
  apply ok_inj in H. rewrite !pair_eq in H. destruct H as (((((<- & <-) & <-) & <-) & <-) & Hnext). assert (p5 = []) as ->.
  { destruct p5; [done |]. rewrite !length_app in Hnext. cbn [length] in Hnext. lia. }
  exists rows, sig. rewrite app_nil_r. unfold payload_bytes, manifest_of. cbn [rows_at]. rewrite <- !app_assoc. split; [by constructor | done].
Qed.

(** ** What the reader accepts *)

Lemma max_manifest : Z.of_nat MAX_MANIFEST_BYTES = 65536.
Proof. reflexivity. Qed.
#[global] Opaque MAX_MANIFEST_BYTES.

Lemma header_bytes_range h : header_ok h = Ok tt -> header_typed h -> Forall byte_range (header_bytes h).
Proof.
  rewrite header_ok_spec. intros (Hp & Hr & Ha & Hs & _) [_ Tp Tr _ [Tu _]]. apply name_ok_length in Hp, Hr. small_code Ha. small_code Hs.
  unfold header_bytes, name_bytes, mode_bytes. rewrite !Forall_app, !Forall_cons.
  repeat split; try apply le_encode_bytes; try done; try lia; try apply Forall_nil_2.
  unfold DMA_MODE_PRESENT, DMA_MODE_ABSENT. destruct (dma_mode h); constructor; try apply le_encode_bytes; try apply Forall_nil_2; split; lia.
Qed.

Lemma row_bytes_range r : row_valid r -> Forall byte_range (row_bytes r).
Proof.
  intros (Hk & _ & [Tp _ [Td _]]). small_code Hk. unfold row_bytes. rewrite !Forall_app, Forall_cons, Forall_nil.
  repeat split; try apply le_encode_bytes; try done; lia.
Qed.

Lemma rows_bytes_range rows : Forall row_valid rows -> Forall byte_range (rows_bytes rows).
Proof.
  induction 1 as [| r rows Hr _ IH]; [constructor |]. rewrite rows_bytes_split. apply Forall_app. split; [by apply row_bytes_range | done].
Qed.

Lemma after_magic_range h rows sig :
  facts_ok h rows -> Forall byte_range sig ->
  Forall byte_range (header_bytes h ++ le_encode 2 (Z.of_nat (length rows)) ++ rows_bytes rows ++ sig).
Proof.
  intros [[Hh Ht] Hr _ _] Hs. rewrite !Forall_app. repeat split; [by apply header_bytes_range | apply le_encode_bytes | by apply rows_bytes_range | done].
Qed.

Lemma magic_split bytes :
  (length bytes <? length MAGIC)%nat || negb (bool_decide (take (length MAGIC) bytes = MAGIC)) = false <-> exists rest, bytes = MAGIC ++ rest.
Proof.
  rewrite orb_false_iff, negb_false_iff, bool_decide_eq_true, Nat.ltb_ge. split.
  - intros [_ E]. exists (drop (length MAGIC) bytes). rewrite <- E at 1. by rewrite take_drop.
  - intros [rest ->]. split; [rewrite length_app; lia | by rewrite take_app_length].
Qed.

Lemma decode_iff bytes m :
  Forall byte_range bytes ->
  decode bytes = Ok m <->
  exists h rows sig, facts_ok h rows /\ bytes = payload_bytes h rows ++ sig /\ length sig = 64%nat /\ (length bytes <= MAX_MANIFEST_BYTES)%nat /\
    m = manifest_of h rows sig.
Proof.
  intros Hb. pose proof max_manifest. unfold decode. destruct (Nat.ltb_spec MAX_MANIFEST_BYTES (length bytes)) as [Hl | Hl].
  { split; [done |]. intros (? & ? & ? & _ & _ & _ & ? & _). lia. }
  destruct (_ || _) eqn:Em.
  { split; [by destruct (_ && _) |]. intros (h & rows & sig & _ & E & _). apply not_false_iff_true in Em. destruct Em.
    apply magic_split. eexists. rewrite E. unfold payload_bytes. by rewrite <- app_assoc. }
  apply magic_split in Em as [rest ->]. apply Forall_app in Hb as [_ Hb]. split.
  - destruct (read_body _ _) as [[[[[[alg h] ra] n] pl] next] |] eqn:E; [| done].
    destruct (Nat.eqb_spec next (length (MAGIC ++ rest))) as [Hn | Hn]; [| done]. intros [= <-].
    destruct (body_inv rest alg h ra n pl next Hb ltac:(lia) E Hn) as (rows & sig & Hf & Eb & Hs & -> & -> & -> & ->).
    exists h, rows, sig. unfold manifest_of. rewrite <- Eb. done.
  - intros (h & rows & sig & Hf & Eb & Hs & _ & ->). rewrite Eb in *. assert (Forall byte_range sig) as Hsig.
    { unfold payload_bytes in Eb. rewrite <- app_assoc in Eb. apply app_inv_head in Eb. subst rest. rewrite !Forall_app in Hb. apply Hb. }
    rewrite body_parse; [| done | by apply after_magic_range | lia | done]. by rewrite Nat.eqb_refl.
Qed.

Lemma manifest_holds h rows sig :
  facts_ok h rows -> Forall byte_range sig -> Z.of_nat (length (payload_bytes h rows ++ sig)) <= U64_MAX -> holds (manifest_of h rows sig) rows.
Proof.
  intros Hf Hs Hl. exists (MAGIC ++ header_bytes h ++ le_encode 2 (Z.of_nat (length rows))), sig. unfold manifest_of. cbn [m_bytes rows_at row_count].
  split; [unfold payload_bytes; by rewrite <- !app_assoc |]. split; [done |]. split; [done |]. split; [apply Hf |]. split; [| done].
  unfold payload_bytes. rewrite <- !app_assoc. apply Forall_app. split; [repeat constructor; lia | by apply after_magic_range].
Qed.

Lemma payload_of h rows sig : payload (manifest_of h rows sig) = payload_bytes h rows.
Proof. unfold payload, manifest_of. cbn [m_bytes payload_len]. by rewrite take_app_length. Qed.

Lemma signature_of h rows sig : length sig = 64%nat -> signature (manifest_of h rows sig) = sig.
Proof. intros H. unfold signature, manifest_of. cbn [m_bytes payload_len]. rewrite drop_app_length. apply take_ge. lia. Qed.

(** A name finds the row that has it, and nothing else. *)
Lemma find_exact m rows kind path :
  holds m rows -> ascending None rows ->
  exists found, find m kind path = Some found /\ forall r, found = Some r <-> r ∈ rows /\ row_kind r = kind /\ row_path r = path.
Proof.
  intros Hm Ha. assert (row_count m = length rows) as Hc by (destruct Hm as (? & ? & ? & ? & ? & ?); done).
  unfold find. rewrite (find_from_spec m rows) by (done || lia). eexists. split; [done |]. intros r. rewrite drop_0.
  destruct (list_find _ rows) as [[i r0] |] eqn:E; simpl.
  - apply list_find_Some in E as (Hi & Hk & _). apply list_elem_of_lookup_2 in Hi. split; [by intros [= <-] |].
    intros (Hr & Hk2 & Hp2). f_equal. apply (ascending_keys rows); try done. unfold key_of. destruct Hk. congruence.
  - apply list_find_None in E. rewrite Forall_forall in E. split; [done |]. intros (Hr & Hk). by destruct (E r Hr).
Qed.

(** ** What the writer accepts *)

Lemma rows_ok_spec rows : Forall row_typed rows -> rows_ok rows = Ok tt <-> Forall row_valid rows.
Proof.
  induction 1 as [| r rows Hr _ IH]; cbn [rows_ok]; [by split; [constructor |] |]. rewrite Forall_cons, <- IH. unfold row_ok, row_valid.
  destruct (one_of (row_kind r) KINDS), (path_ok (row_path r)); simpl; split; intuition congruence.
Qed.

Lemma encode_ok h rows out n rows' out' :
  header_typed h -> Forall row_typed rows -> Z.of_nat (length out) <= U64_MAX ->
  encode_payload h rows out = (Ok n, rows', out') ->
  rows' ≡ₚ rows /\ facts_ok h rows' /\ take n out' = payload_bytes h rows' /\ (n + 64 <= MAX_MANIFEST_BYTES)%nat /\ n = length (payload_bytes h rows').
Proof.
  intros Th Tr Hl. unfold encode_payload. destruct (header_ok h) as [[] |] eqn:Eh; [| done].
  destruct (Nat.ltb_spec MAX_ROWS (length rows)) as [| Hn]; [done |]. destruct (rows_ok rows) as [[] |] eqn:Er; [| done].
  apply (rows_ok_spec _ Tr) in Er. pose proof (merge_sort_Permutation row_le rows) as HP. set (sorted := merge_sort row_le rows) in *.
  destruct (repeated sorted) eqn:Ep; [done |]. rewrite <- HP in Er. apply Permutation_length in HP as HL.
  pose proof (writes_payload h sorted Eh Er ltac:(lia) out 0%nat ltac:(lia) Hl) as HW.
  destruct ((put_header h ≫= _) (out, 0%nat)) as [[[] |] [out1 at_]]; [| done]. destruct HW as (_ & -> & _ & Et). unfold checked_add.
  destruct (Z.leb_spec (Z.of_nat (0 + length (payload_bytes h sorted)) + 64) U64_MAX); [| done].
  destruct (Z.ltb_spec (Z.of_nat MAX_MANIFEST_BYTES) (Z.of_nat (0 + length (payload_bytes h sorted)) + 64)); [done |].
  rewrite !pair_eq. intros [[<-%ok_inj <-] <-]. split; [done |]. split.
  - constructor; [done | done | lia |]. apply sorted_ascending; [| done]. apply Sorted_merge_sort, _.
  - split; [exact Et | lia].
Qed.

Lemma encode_total h rows shuffled out :
  facts_ok h rows -> shuffled ≡ₚ rows -> Z.of_nat (length out) <= U64_MAX -> (length (payload_bytes h rows) <= length out)%nat ->
  (length (payload_bytes h rows) + 64 <= MAX_MANIFEST_BYTES)%nat ->
  exists out', encode_payload h shuffled out = (Ok (length (payload_bytes h rows)), rows, out') /\
    take (length (payload_bytes h rows)) out' = payload_bytes h rows.
Proof.
  intros [[Hh Th] Hv Hn Ha] HP Hl Hfit Hmax. unfold encode_payload. rewrite Hh. pose proof (Permutation_length HP) as HL. pose proof max_manifest.
  rewrite (proj2 (Nat.ltb_ge _ _)) by lia. assert (Forall row_typed shuffled) as Ts.
  { rewrite HP. apply (Forall_impl _ _ _ Hv). by intros r (_ & _ & ?). }
  rewrite (proj2 (rows_ok_spec shuffled Ts)) by (by rewrite HP).
  rewrite (sort_canonical rows shuffled Ha HP), (ascending_repeated rows Ha).
  pose proof (writes_payload h rows Hh Hv Hn out 0%nat ltac:(lia) Hl) as HW.
  destruct ((put_header h ≫= _) (out, 0%nat)) as [[[] |] [out1 at_]]; [| lia]. destruct HW as (_ & -> & _ & Et). unfold checked_add.
  rewrite (proj2 (Z.leb_le _ _)), (proj2 (Z.ltb_ge _ _)) by lia. by exists out1.
Qed.

(** ** The manifest's promises *)

(** C18: A payload the writer accepts, with any 64 bytes of signature behind it, is a
    manifest the reader accepts: the reader gives back the header, the signature and the
    rows the writer sorted, the bytes the signature covers are the ones that were written,
    and a lookup by kind and path finds the row that was written with them, or nothing
    when there is none. *)
Theorem manifest_roundtrip h rows out n rows' out' sig :
  header_typed h -> Forall row_typed rows -> Z.of_nat (length out) <= U64_MAX ->
  Forall byte_range sig -> length sig = 64%nat ->
  encode_payload h rows out = (Ok n, rows', out') ->
  rows' ≡ₚ rows /\
  exists m, decode (take n out' ++ sig) = Ok m /\ m_header m = h /\ payload m = take n out' /\ signature m = sig /\
    (forall i, row m i = Some (rows' !! i)) /\
    (forall kind path, exists found, find m kind path = Some found /\
       forall r, found = Some r <-> r ∈ rows /\ row_kind r = kind /\ row_path r = path).
Proof.
  intros Th Tr Hl Bs Ls E. destruct (encode_ok _ _ _ _ _ _ Th Tr Hl E) as (HP & Hf & -> & Hn & ->). split; [done |].
  pose proof max_manifest. assert (holds (manifest_of h rows' sig) rows') as Hm by (apply manifest_holds; [done | done | rewrite length_app; lia]).
  exists (manifest_of h rows' sig). split; [| split; [done |]].
  - apply decode_iff; [by destruct Hm as (? & ? & _ & _ & _ & _ & ? & _) |]. exists h, rows', sig. rewrite length_app. repeat split; try apply Hf; lia.
  - split; [apply payload_of |]. split; [by apply signature_of |]. split; [intros i; by apply row_of |].
    intros kind path. destruct (find_exact _ rows' kind path Hm (facts_order _ _ Hf)) as (found & Hfound & Hspec).
    exists found. split; [done |]. intros r. by rewrite Hspec, HP.
Qed.

(** C17: A manifest the reader accepts has one encoding: its bytes are what the signature
    covers and the signature, and writing the header and the rows it was read to have, in
    any order and into any buffer with the room, gives back the same rows in the same order
    and exactly the bytes the signature covers. *)
Theorem manifest_canonical bytes m :
  Forall byte_range bytes -> decode bytes = Ok m ->
  bytes = payload m ++ signature m /\
  exists rows, (forall i, row m i = Some (rows !! i)) /\
    forall shuffled out, shuffled ≡ₚ rows -> (payload_len m <= length out)%nat -> Z.of_nat (length out) <= U64_MAX ->
      exists out', encode_payload (m_header m) shuffled out = (Ok (payload_len m), rows, out') /\ take (payload_len m) out' = payload m.
Proof.
  intros Hb. rewrite decode_iff by done. intros (h & rows & sig & Hf & Eb & Ls & Hl & ->). pose proof max_manifest.
  rewrite payload_of, signature_of by done. split; [done |]. exists rows. subst bytes. split.
  - intros i. apply row_of, manifest_holds; [done | by apply Forall_app in Hb as [_ ?] | lia].
  - intros shuffled out HP Hfit Ho. rewrite length_app in Hl. apply encode_total; try done. lia.
Qed.

(** A manifest of two rows, given out of order. *)
Definition sample_header : Header := mkHeader 7 [76; 83] 1 1 [49; 46; 48] 3 1 (replicate 16 9) (Some 2).
Definition sample_kernel : Row := mkRow 1 [107; 47; 97] 4096 (replicate 32 1).
Definition sample_program : Row := mkRow 3 [98] 300 (replicate 32 2).
Definition sample_rows : list Row := [sample_program; sample_kernel].
Definition sample_payload : list Z := payload_bytes sample_header [sample_kernel; sample_program].
Definition sample_out : list Z := replicate 200 0.

Lemma sample_typed : header_typed sample_header /\ Forall row_typed sample_rows.
Proof. split; [constructor | repeat constructor]; simpl; try lia; repeat constructor; try lia. Qed.

Lemma manifest_roundtrip_witness :
  exists n out' m, encode_payload sample_header sample_rows sample_out = (Ok n, [sample_kernel; sample_program], out') /\
    decode (take n out' ++ replicate 64 5) = Ok m /\ find m 1 [107; 47; 97] = Some (Some sample_kernel).
Proof.
  destruct (encode_payload sample_header sample_rows sample_out) as [[[n | e] rows'] out'] eqn:E; [| vm_compute in E; discriminate E].
  destruct (manifest_roundtrip sample_header sample_rows sample_out n rows' out' (replicate 64 5)) as (HP & m & Hd & _ & _ & _ & _ & Hf).
  - apply sample_typed.
  - apply sample_typed.
  - vm_compute. discriminate.
  - repeat constructor; lia.
  - reflexivity.
  - exact E.
  - exists n, out', m. split; [f_equal; f_equal; vm_compute in E; by injection E as <- <- <- |]. split; [exact Hd |].
    destruct (Hf 1 [107; 47; 97]) as (found & -> & Hs). f_equal. apply Hs. repeat split. by right; left.
Defined.

Lemma manifest_canonical_witness :
  exists m, decode (sample_payload ++ replicate 64 5) = Ok m /\ sample_payload ++ replicate 64 5 = payload m ++ signature m.
Proof.
  destruct (decode (sample_payload ++ replicate 64 5)) as [m | e] eqn:E; [| vm_compute in E; discriminate E].
  exists m. split; [reflexivity |]. apply (manifest_canonical (sample_payload ++ replicate 64 5) m); [| exact E].
  apply Forall_app. split; [| repeat constructor; lia]. by apply (bool_decide_unpack _).
Defined.
