(* ===== verification/Waits.v ===== *)
(** How a thread waits and is woken (kernel/sched/mod.rs, kernel/object/thread/mod.rs,
    kernel/object/wait_set.rs and the wait calls of kernel/syscall/mod.rs): the registry of
    waits, the park with its second look, the wakes, the deadlines, the wait sets that
    forward wakes, and the run queues the woken threads go to. Threads, wakes and set
    changes interleave at the locks and the atomic accesses; an action names who moves. *)

From stdpp Require Import functions.
From S2P Require Import Prelude.

Abbreviation Tid := nat.

Definition WAIT_BUCKET_COUNT : Z := 64.
Definition MAX_SETS_PER_OBJECT : nat := 4.
Definition MAX_WAIT_SET_MEMBERS : nat := 256.
Definition NO_DEADLINE : Z := U64_MAX.
Definition BATCH : nat := 16.

Inductive ThreadState := Ready | Running | Exited | Blocked.

#[export] Instance thread_state_eq_dec : EqDecision ThreadState.
Proof. solve_decision. Defined.

(** What a wait is for: an object is ready, or a process is no longer held. Whoever makes
    it true wakes the object behind it. *)
Inductive Cond :=
| ReadyObject (koid : Z)
| Unheld (process : nat) (koid : Z).

#[export] Instance cond_eq_dec : EqDecision Cond.
Proof. solve_decision. Defined.

Definition koid_of (c : Cond) : Z := match c with ReadyObject koid | Unheld _ koid => koid end.

(** The closure a park is given: [|| false], some objects, or the members of a wait set. *)
Inductive Watch :=
| Never
| Any (conds : list Cond)
| Members (set : Z).

#[export] Instance watch_eq_dec : EqDecision Watch.
Proof. solve_decision. Defined.

(** The arguments of [block_on_flagged] ([flagged], one koid) and of [block_on_any].
    [limit] is the caller's own deadline, 0 for none, [deadline] the earliest of it and of the timers. *)
Record Request := mkRequest {
  koids : list Z;
  deadline : Z;
  limit : Z;
  periodic : bool;
  flagged : bool;
  watch : Watch;
}.

(** Where a thread is in the wait code. [outer] is the wait call whose loop it goes back
    to. [seen] is what the second look found false; the code keeps no such list. *)
Inductive Pc :=
| Out
| AskKilled (outer : Request)
| AskHeld (outer : Request)
| AskReady (outer : Request) (todo : option (list Cond))
| Registering (w : Request) (outer : option Request) (done : nat)
| TakingBack (w : Request) (outer : option Request) (registered done : nat)
| Refused (w : Request) (outer : option Request)
| Arming (w : Request) (outer : option Request)
| Checking (w : Request) (outer : option Request) (todo : option (list Cond)) (seen : list Cond)
| Found (w : Request) (outer : option Request)
| Leaving (w : Request) (outer : option Request) (seen : list Cond)
| Switching (w : Request) (outer : option Request) (seen : list Cond)
| Parked (w : Request) (outer : option Request) (seen : list Cond)
| Cleaning (w : Request) (outer : option Request) (done : nat).

(** [sp]: the saved stack pointer is not zero. [started]: [try_start] has been claimed. *)
Record Thread := mkThread {
  state : ThreadState;
  sp : bool;
  started : bool;
  placement : option nat;
  process : nat;
  process_koid : Z;
  pc : Pc;
}.

(** The run queue, the running thread and the one waiting to be reaped. *)
Record Core := mkCore { queue : list Tid; current : option Tid; zombie : option Tid }.

(** Where a wake is. [then_] are the threads [wake_every_thread] visits afterwards. *)
Inductive Waker :=
| Rested
| Waking (koid : Z) (then_ : list Tid)
| Collecting (koid : Z) (then_ : list Tid)
| Draining (koid : Z) (sets : list Z) (then_ : list Tid)
| Queueing (batch : list Tid) (koid : Z) (sets : list Z) (then_ : list Tid)
| Rousing (then_ : list Tid)
| Placing (thread : Tid) (then_ : list Tid)
| Expiring (at_ : Z)
| Overdue (batch : list Tid) (at_ : Z).

(** Where a [WaitSet::add] is, its membership lock held. *)
Inductive Adder :=
| AtRest
| Pushed (set member : Z)
| Observed (set member : Z).

Record BucketWaiter := mkBucketWaiter { w_thread : Tid; w_koid : Z }.
Record TimedWaiter := mkTimedWaiter { t_thread : Tid; t_deadline : Z; t_periodic : bool }.
(** [counted]: [OBSERVER_COUNT] includes it, which the code does not record. *)
Record SetObserver := mkSetObserver { member_koid : Z; set_koid : Z; counted : bool }.

(** [WAIT_BUCKETS] and [SET_OBSERVERS] are each one list; [bucket_of] says which entries
    share a bucket. [account] is what the members of a set cost its Domain. *)
Record Sched := mkSched {
  threads : Tid -> Thread;
  cores : nat -> Core;
  wakers : nat -> Waker;
  adders : nat -> Adder;
  registry : list BucketWaiter;
  timed : list TimedWaiter;
  observers : list SetObserver;
  observer_count : Z;
  members : Z -> list Z;
  account : Z -> Z;
  locked : Z -> bool;
  truth : Cond -> bool;
  killed : nat -> bool;
  now : Z;
}.

Section setters.
Implicit Type s : Sched.
Definition set_threads (x : Tid -> Thread) s : Sched :=
  mkSched x (cores s) (wakers s) (adders s) (registry s) (timed s) (observers s) (observer_count s) (members s) (account s) (locked s) (truth s) (killed s) (now s).
Definition set_cores (x : nat -> Core) s : Sched :=
  mkSched (threads s) x (wakers s) (adders s) (registry s) (timed s) (observers s) (observer_count s) (members s) (account s) (locked s) (truth s) (killed s) (now s).
Definition set_wakers (x : nat -> Waker) s : Sched :=
  mkSched (threads s) (cores s) x (adders s) (registry s) (timed s) (observers s) (observer_count s) (members s) (account s) (locked s) (truth s) (killed s) (now s).
Definition set_adders (x : nat -> Adder) s : Sched :=
  mkSched (threads s) (cores s) (wakers s) x (registry s) (timed s) (observers s) (observer_count s) (members s) (account s) (locked s) (truth s) (killed s) (now s).
Definition set_registry (x : list BucketWaiter) s : Sched :=
  mkSched (threads s) (cores s) (wakers s) (adders s) x (timed s) (observers s) (observer_count s) (members s) (account s) (locked s) (truth s) (killed s) (now s).
Definition set_timed (x : list TimedWaiter) s : Sched :=
  mkSched (threads s) (cores s) (wakers s) (adders s) (registry s) x (observers s) (observer_count s) (members s) (account s) (locked s) (truth s) (killed s) (now s).
Definition set_observers (x : list SetObserver) s : Sched :=
  mkSched (threads s) (cores s) (wakers s) (adders s) (registry s) (timed s) x (observer_count s) (members s) (account s) (locked s) (truth s) (killed s) (now s).
Definition set_observer_count (x : Z) s : Sched :=
  mkSched (threads s) (cores s) (wakers s) (adders s) (registry s) (timed s) (observers s) x (members s) (account s) (locked s) (truth s) (killed s) (now s).
Definition set_members (x : Z -> list Z) s : Sched :=
  mkSched (threads s) (cores s) (wakers s) (adders s) (registry s) (timed s) (observers s) (observer_count s) x (account s) (locked s) (truth s) (killed s) (now s).
Definition set_account (x : Z -> Z) s : Sched :=
  mkSched (threads s) (cores s) (wakers s) (adders s) (registry s) (timed s) (observers s) (observer_count s) (members s) x (locked s) (truth s) (killed s) (now s).
Definition set_locked (x : Z -> bool) s : Sched :=
  mkSched (threads s) (cores s) (wakers s) (adders s) (registry s) (timed s) (observers s) (observer_count s) (members s) (account s) x (truth s) (killed s) (now s).
Definition set_truth (x : Cond -> bool) s : Sched :=
  mkSched (threads s) (cores s) (wakers s) (adders s) (registry s) (timed s) (observers s) (observer_count s) (members s) (account s) (locked s) x (killed s) (now s).
Definition set_killed (x : nat -> bool) s : Sched :=
  mkSched (threads s) (cores s) (wakers s) (adders s) (registry s) (timed s) (observers s) (observer_count s) (members s) (account s) (locked s) (truth s) x (now s).
Definition set_now (x : Z) s : Sched :=
  mkSched (threads s) (cores s) (wakers s) (adders s) (registry s) (timed s) (observers s) (observer_count s) (members s) (account s) (locked s) (truth s) (killed s) x.
End setters.

Section updates.
Implicit Type s : Sched.
Definition set_thread (t : Tid) (th : Thread) s : Sched := set_threads (<[t := th]> (threads s)) s.
Definition set_core (c : nat) (core : Core) s : Sched := set_cores (<[c := core]> (cores s)) s.
Definition set_waker (i : nat) (w : Waker) s : Sched := set_wakers (<[i := w]> (wakers s)) s.
Definition set_adder (j : nat) (a : Adder) s : Sched := set_adders (<[j := a]> (adders s)) s.
Definition set_lock (set : Z) (held : bool) s : Sched := set_locked (<[set := held]> (locked s)) s.
End updates.

Definition with_state (st : ThreadState) (th : Thread) : Thread :=
  mkThread st (sp th) (started th) (placement th) (process th) (process_koid th) (pc th).
Definition with_sp (b : bool) (th : Thread) : Thread :=
  mkThread (state th) b (started th) (placement th) (process th) (process_koid th) (pc th).
Definition with_pc (p : Pc) (th : Thread) : Thread :=
  mkThread (state th) (sp th) (started th) (placement th) (process th) (process_koid th) p.
Definition with_start (place : option nat) (th : Thread) : Thread :=
  mkThread Ready (sp th) true place (process th) (process_koid th) (pc th).

(** ** The registry *)

Definition bucket_of (koid : Z) : Z := koid mod WAIT_BUCKET_COUNT.

(** [retain] by thread, over the bucket of [koid]. *)
Definition retain_bucket (koid : Z) (t : Tid) (l : list BucketWaiter) : list BucketWaiter :=
  filter (fun e => ~ (bucket_of (w_koid e) = bucket_of koid /\ w_thread e = t)) l.
Definition retain_timed (t : Tid) (l : list TimedWaiter) : list TimedWaiter := filter (fun e => t_thread e <> t) l.

Definition begin_park (th : Thread) : Thread := with_state Blocked (with_sp false th).

(** The [retain] of a wake: each entry that is wanted, while there is room, whose thread
    the compare-and-exchange still finds blocked. *)
Fixpoint claim {E} (want : E -> bool) (thread_of : E -> Tid) (room : nat) (threads : Tid -> Thread) (l : list E) : list Tid * list E * (Tid -> Thread) :=
  match l with
  | [] => ([], [], threads)
  | e :: l =>
      let t := thread_of e in
      if (0 <? room)%nat && want e && bool_decide (state (threads t) = Blocked) then
        let '(batch, kept, threads) := claim want thread_of (pred room) (<[t := with_state Ready (threads t)]> threads) l in
        (t :: batch, kept, threads)
      else
        let '(batch, kept, threads) := claim want thread_of room threads l in
        (batch, e :: kept, threads)
  end.

(** ** Waking *)

(** The end of [enqueue]: the push on the placement's queue, or on the waker's. *)
Definition enqueue_on (c : nat) (t : Tid) (s : Sched) : Sched :=
  let c := default c (placement (threads s t)) in
  let core := cores s c in
  set_core c (mkCore (queue core ++ [t]) (current core) (zombie core)) s.
Definition enqueue (c : nat) (t : Tid) (s : Sched) : Sched :=
  enqueue_on c t (set_thread t (with_state Ready (threads s t)) s).

Definition sets_of (koid : Z) (l : list SetObserver) : list Z := set_koid <$> filter (fun o => member_koid o = koid) l.

(** One access of a wake that runs on core [c]. A thread whose stack pointer is not saved
    yet is looked at again. *)
Definition wake_step (i c : nat) (s : Sched) : Sched :=
  match wakers s i with
  | Rested => s
  | Waking koid then_ =>
      set_waker i (if observer_count s =? 0 then Draining koid [] then_ else Collecting koid then_) s
  | Collecting koid then_ =>
      set_waker i (Draining koid (take MAX_SETS_PER_OBJECT (sets_of koid (observers s))) then_) s
  | Draining koid sets then_ =>
      let '(batch, kept, ths) := claim (fun e => w_koid e =? koid) w_thread BATCH (threads s) (registry s) in
      match batch with
      | [] => set_waker i (match sets with [] => Rousing then_ | set :: sets => Draining set sets then_ end) s
      | _ => set_waker i (Queueing batch koid sets then_) (set_registry kept (set_threads ths s))
      end
  | Queueing [] koid sets then_ => set_waker i (Draining koid sets then_) s
  | Queueing (t :: batch) koid sets then_ =>
      if sp (threads s t) then set_waker i (Queueing batch koid sets then_) (enqueue c t s) else s
  | Rousing [] => set_waker i Rested s
  | Rousing (t :: then_) =>
      if bool_decide (state (threads s t) = Blocked) then
        set_waker i (Placing t then_) (set_thread t (with_state Ready (threads s t)) s)
      else set_waker i (Rousing then_) s
  | Placing t then_ =>
      if sp (threads s t) then set_waker i (Rousing then_) (enqueue c t s) else s
  | Expiring at_ =>
      let '(batch, kept, ths) := claim (fun e => t_deadline e <=? at_) t_thread BATCH (threads s) (timed s) in
      match batch with
      | [] => set_waker i Rested s
      | _ => set_waker i (Overdue batch at_) (set_timed kept (set_threads ths s))
      end
  | Overdue [] at_ => set_waker i (Expiring at_) s
  | Overdue (t :: batch) at_ =>
      if sp (threads s t) then set_waker i (Overdue batch at_) (enqueue c t s) else s
  end.

(** ** Waiting *)

(** The end of a park: back to the loop of the wait call, if it was in one. *)
Definition back (outer : option Request) : Pc := match outer with Some w => AskKilled w | None => Out end.

Definition goto (t : Tid) (p : Pc) (s : Sched) : Sched := set_thread t (with_pc p (threads s t)) s.

(** Entering [block_on_flagged] or [block_on_any], the room booked. *)
Definition enter (t : Tid) (w : Request) (outer : option Request) (s : Sched) : Sched :=
  set_thread t (with_pc (Registering w outer 0) (begin_park (threads s t))) s.

(** Where a look at [watch] starts: at the members of a set under its lock. *)
Definition look (w : Watch) (s : Sched) : option (list Cond * Sched) :=
  match w with
  | Never => Some ([], s)
  | Any conds => Some (conds, s)
  | Members set => if locked s set then None else Some (ReadyObject <$> members s set, set_lock set true s)
  end.
Definition look_away (w : Watch) (s : Sched) : Sched := match w with Members set => set_lock set false s | _ => s end.

(** [block_on]: the park of a held process inside a wait call, which looks at nothing. *)
Definition held_request (th : Thread) : Request := mkRequest [process_koid th] NO_DEADLINE 0 false true Never.

(** [reschedule(Block)] up to the switch: the next thread of the queue runs, or the core
    idles. *)
Definition reschedule_block (c : nat) (s : Sched) : Sched :=
  let core := cores s c in
  match queue core with
  | [] => set_core c (mkCore [] None None) s
  | next :: q => set_core c (mkCore q (Some next) None) (set_thread next (with_state Running (threads s next)) s)
  end.

(** One access of the loop of a wait call. [ok] is the answer of the heap where one is asked
    for. *)
Definition ask_step (t : Tid) (ok : bool) (s : Sched) : Sched :=
  let th := threads s t in
  match pc th with
  | AskKilled w => if killed s (process th) then goto t Out s else goto t (AskHeld w) s
  | AskHeld w =>
      if truth s (Unheld (process th) (process_koid th)) then goto t (AskReady w None) s
      else if ok then enter t (held_request th) (Some w) s else goto t (AskKilled w) s
  | AskReady w None =>
      match look (watch w) s with None => s | Some (conds, s) => goto t (AskReady w (Some conds)) s end
  | AskReady w (Some []) =>
      let s := look_away (watch w) s in
      if negb (limit w =? 0) && (limit w <=? now s) then goto t Out s
      else if ok then enter t w (Some w) s else goto t (AskKilled w) s
  | AskReady w (Some (cond :: todo)) =>
      if truth s cond then goto t Out (look_away (watch w) s) else goto t (AskReady w (Some todo)) s
  | _ => s
  end.

(** A park whose registration was refused: the entries are taken back, and the park is
    reclaimed, or completed where a wake has claimed the thread. *)
Definition refuse_step (t : Tid) (s : Sched) : Sched :=
  let th := threads s t in
  match pc th with
  | TakingBack w outer registered done =>
      match take registered (koids w) !! done with
      | None => goto t (Refused w outer) s
      | Some koid => goto t (TakingBack w outer registered (S done)) (set_registry (retain_bucket koid t (registry s)) s)
      end
  | Refused w outer =>
      if bool_decide (state th = Blocked) then set_thread t (with_pc (back outer) (with_state Running th)) s
      else if flagged w then goto t (back outer) s
      else goto t (Arming w outer) s
  | _ => s
  end.

(** The entries a park left behind. *)
Definition clean_step (t : Tid) (s : Sched) : Sched :=
  match pc (threads s t) with
  | Cleaning w outer done =>
      match koids w !! done with
      | Some koid => goto t (Cleaning w outer (S done)) (set_registry (retain_bucket koid t (registry s)) s)
      | None =>
          goto t (back outer) (if deadline w =? NO_DEADLINE then s else set_timed (retain_timed t (timed s)) s)
      end
  | _ => s
  end.

(** One access of the thread [t] that runs on core [c]. *)
Definition wait_step (c : nat) (t : Tid) (ok : bool) (s : Sched) : Sched :=
  let th := threads s t in
  match pc th with
  | Out | Switching _ _ _ => s
  | AskKilled _ | AskHeld _ | AskReady _ _ => ask_step t ok s
  | Registering w outer done =>
      match koids w !! done with
      | None => goto t (Arming w outer) s
      | Some koid =>
          if ok then goto t (Registering w outer (S done)) (set_registry (registry s ++ [mkBucketWaiter t koid]) s)
          else goto t (if flagged w then Refused w outer else TakingBack w outer done 0) s
      end
  | TakingBack _ _ _ _ | Refused _ _ => refuse_step t s
  | Arming w outer =>
      let s := if negb (deadline w =? NO_DEADLINE) && ok then set_timed (timed s ++ [mkTimedWaiter t (deadline w) (periodic w)]) s else s in
      goto t (Checking w outer None []) s
  | Checking w outer None seen =>
      match look (watch w) s with None => s | Some (conds, s) => goto t (Checking w outer (Some conds) seen) s end
  | Checking w outer (Some []) seen => goto t (Leaving w outer seen) (look_away (watch w) s)
  | Checking w outer (Some (cond :: todo)) seen =>
      if truth s cond then goto t (Found w outer) (look_away (watch w) s)
      else goto t (Checking w outer (Some todo) (cond :: seen)) s
  | Found w outer =>
      if bool_decide (state th = Blocked) then set_thread t (with_pc (Cleaning w outer 0) (with_state Running th)) s
      else goto t (Leaving w outer []) s
  | Leaving w outer seen => reschedule_block c (goto t (Switching w outer seen) s)
  | Parked w outer seen => goto t (Cleaning w outer 0) s
  | Cleaning _ _ _ => clean_step t s
  end.

(** The first store of [switch_context]: the stack pointer of a thread that blocked. *)
Definition save (t : Tid) (s : Sched) : Sched :=
  match pc (threads s t) with
  | Switching w outer seen => set_thread t (with_sp true (with_pc (Parked w outer seen) (threads s t))) s
  | _ => s
  end.

(** A thread that is in no park may be preempted, may yield and may exit. *)
Definition preemptible (p : Pc) : bool := match p with Out => true | _ => false end.

(** [reschedule(Requeue)]; [idle] is a core whose thread must make way for its idle context. *)
Definition yield (c : nat) (idle : bool) (s : Sched) : Sched :=
  let core := cores s c in
  match current core with
  | None => s
  | Some t =>
      if negb (preemptible (pc (threads s t))) then s
      else if idle then set_core c (mkCore (queue core ++ [t]) None None) (set_thread t (with_sp true (with_state Ready (threads s t))) s)
      else
        match queue core with
        | [] => set_core c (mkCore [] (Some t) None) (set_thread t (with_state Running (threads s t)) s)
        | next :: q =>
            let s := set_thread t (with_sp true (with_state Ready (threads s t))) s in
            set_core c (mkCore (q ++ [t]) (Some next) None) (set_thread next (with_state Running (threads s next)) s)
        end
  end.

(** [reschedule(Retire)]. *)
Definition retire (c : nat) (s : Sched) : Sched :=
  let core := cores s c in
  match current core with
  | None => s
  | Some t =>
      if negb (preemptible (pc (threads s t))) then s
      else
        let s := set_thread t (with_sp true (with_state Exited (threads s t))) s in
        match queue core with
        | [] => set_core c (mkCore [] None (Some t)) s
        | next :: q => set_core c (mkCore q (Some next) (Some t)) (set_thread next (with_state Running (threads s next)) s)
        end
  end.

(** [reschedule] from the idle context. *)
Definition pick (c : nat) (s : Sched) : Sched :=
  match current (cores s c) with None => reschedule_block c s | Some _ => s end.

(** [thread_start_with_placement]. *)
Definition start (t : Tid) (place : option nat) (c : nat) (s : Sched) : Sched :=
  if started (threads s t) then s else enqueue_on c t (set_thread t (with_start place (threads s t)) s).

(** ** Wait sets *)

(** [WaitSet::add] up to the push, which keeps the membership lock. *)
Definition add (j : nat) (set member : Z) (is_set reserved charged : bool) (s : Sched) : Sched :=
  match adders s j with
  | AtRest =>
      if is_set || locked s set then s
      else if bool_decide (member ∈ members s set) then s
      else if (MAX_WAIT_SET_MEMBERS <=? length (members s set))%nat || negb reserved || negb charged then s
      else
        set_adder j (Pushed set member)
          (set_lock set true (set_account (<[set := account s set + 1]> (account s)) (set_members (<[set := members s set ++ [member]]> (members s)) s)))
  | _ => s
  end.

Definition settle_observer (set member : Z) (o : SetObserver) : SetObserver :=
  if bool_decide (member_koid o = member /\ set_koid o = set) then mkSetObserver member set true else o.

(** [register_set_observer], the rollback of a refusal, and the increment of the count. *)
Definition add_step (j : nat) (ok : bool) (s : Sched) : Sched :=
  match adders s j with
  | AtRest => s
  | Pushed set member =>
      if (MAX_SETS_PER_OBJECT <=? length (sets_of member (observers s)))%nat || negb ok then
        set_adder j AtRest
          (set_lock set false (set_account (<[set := account s set - 1]> (account s)) (set_members (<[set := removelast (members s set)]> (members s)) s)))
      else set_adder j (Observed set member) (set_observers (observers s ++ [mkSetObserver member set false]) s)
  | Observed set member =>
      set_adder j AtRest
        (set_lock set false (set_observer_count (observer_count s + 1) (set_observers (settle_observer set member <$> observers s) s)))
  end.

Definition unregister (set member : Z) (s : Sched) : Sched :=
  let kept := filter (fun o => ~ (member_koid o = member /\ set_koid o = set)) (observers s) in
  set_observer_count (observer_count s - (Z.of_nat (length (observers s)) - Z.of_nat (length kept))) (set_observers kept s).

(** What a thread waiting on [set] saw of [member] no longer counts. *)
Definition forget (set member : Z) (th : Thread) : Thread :=
  let forgotten := filter (fun cond => cond <> ReadyObject member) in
  match pc th with
  | Leaving w outer seen => if bool_decide (watch w = Members set) then with_pc (Leaving w outer (forgotten seen)) th else th
  | Switching w outer seen => if bool_decide (watch w = Members set) then with_pc (Switching w outer (forgotten seen)) th else th
  | Parked w outer seen => if bool_decide (watch w = Members set) then with_pc (Parked w outer (forgotten seen)) th else th
  | _ => th
  end.

(** [WaitSet::remove]. *)
Definition remove (set member : Z) (s : Sched) : Sched :=
  if locked s set || negb (bool_decide (member ∈ members s set)) then s
  else
    let kept := filter (fun m => m <> member) (members s set) in
    let removed := Z.of_nat (length (members s set)) - Z.of_nat (length kept) in
    let s := unregister set member (set_members (<[set := kept]> (members s)) s) in
    set_threads (fun t => forget set member (threads s t)) (set_account (<[set := account s set - removed]> (account s)) s).

(** ** Interleaving *)

Inductive Action :=
| Call (c : nat) (w : Request)                     (** the running thread enters a wait call *)
| Park (c : nat) (w : Request)                     (** ... or parks outside one *)
| Step (c : nat) (ok : bool)                       (** the running thread makes its next access *)
| Save (t : Tid)
| Yield (c : nat) (idle : bool)
| Exit (c : nat)
| Pick (c : nat)
| Start (t : Tid) (place : option nat) (c : nat)
| Signal (i : nat) (cond : Cond)                   (** a condition becomes true, and a wake follows *)
| Withdraw (cond : Cond)                           (** a condition becomes false *)
| WakeObject (i : nat) (koid : Z)                  (** a wake on its own *)
| Rouse (i : nat) (l : list Tid)                   (** threads are woken by name *)
| Kill (i p : nat) (koid : Z) (l : list Tid)       (** [terminate], and its threads are woken *)
| Expire (i : nat)                                 (** [check_deadlines] *)
| Wake (i c : nat)                                 (** a wake makes its next access *)
| Tick
| Add (j : nat) (set member : Z) (is_set reserved charged : bool)
| AddStep (j : nat) (ok : bool)
| Remove (set member : Z).

(** The closure a caller passes looks only at what its koids wake it for. *)
Definition request_ok (w : Request) : bool :=
  match watch w with
  | Never => true
  | Any conds => forallb (fun cond => bool_decide (koid_of cond ∈ koids w)) conds
  | Members set => bool_decide (koids w = [set])
  end && (negb (flagged w) || (length (koids w) =? 1)%nat).

(** A wake begins where none is running. *)
Definition begin_wake (i : nat) (w : Waker) (s : Sched) : Sched := match wakers s i with Rested => set_waker i w s | _ => s end.

Definition sched_step (a : Action) (s : Sched) : Sched :=
  match a with
  | Call c w =>
      match current (cores s c) with
      | Some t => if preemptible (pc (threads s t)) && request_ok w then goto t (AskKilled w) s else s
      | None => s
      end
  | Park c w =>
      match current (cores s c) with
      | Some t => if preemptible (pc (threads s t)) && request_ok w then enter t w None s else s
      | None => s
      end
  | Step c ok => match current (cores s c) with Some t => wait_step c t ok s | None => s end
  | Save t => save t s
  | Yield c idle => yield c idle s
  | Exit c => retire c s
  | Pick c => pick c s
  | Start t place c => start t place c s
  | Signal i cond =>
      match wakers s i with Rested => set_waker i (Waking (koid_of cond) []) (set_truth (<[cond := true]> (truth s)) s) | _ => s end
  | Withdraw cond => set_truth (<[cond := false]> (truth s)) s
  | WakeObject i koid => begin_wake i (Waking koid []) s
  | Rouse i l => begin_wake i (Rousing l) s
  | Kill i p koid l =>
      match wakers s i with Rested => set_waker i (Waking koid l) (set_killed (<[p := true]> (killed s)) s) | _ => s end
  | Expire i => begin_wake i (Expiring (now s)) s
  | Wake i c => wake_step i c s
  | Tick => set_now (now s + 1) s
  | Add j set member is_set reserved charged => add j set member is_set reserved charged s
  | AddStep j ok => add_step j ok s
  | Remove set member => remove set member s
  end.

Definition run (l : list Action) (s : Sched) : Sched := fold_left (fun s a => sched_step a s) l s.

(** No thread has been started, nothing is registered and every condition is false but
    that a process is not held. *)
Definition boot (process_of : Tid -> nat) (koid_of_process : nat -> Z) : Sched :=
  mkSched (fun t => mkThread Ready true false None (process_of t) (koid_of_process (process_of t)) Out) (fun _ => mkCore [] None None)
    (fun _ => Rested) (fun _ => AtRest) [] [] [] 0 (fun _ => []) (fun _ => 0) (fun _ => false)
    (fun cond => match cond with Unheld _ _ => true | _ => false end) (fun _ => false) 0.
