(* ===== verification/WaitsHomes.v ===== *)
(** Where a thread is: running on one core, in one run queue, parked, or in the hands of
    the one wake that claimed it. The invariant of [Waits] that keeps a thread from being
    queued twice or forgotten, and that every action keeps it. *)

From stdpp Require Import functions.
From S2P Require Import Prelude Waits.

(** ** Claims *)

Section claim.
  Context {E : Type} (want : E -> bool) (thread_of : E -> Tid).

Record claim_spec (room : nat) (ths : Tid -> Thread) (l : list E) (r : list Tid * list E * (Tid -> Thread)) : Prop := {
  claim_nodup : NoDup r.1.1;
  claim_blocked : forall t, t ∈ r.1.1 -> state (ths t) = Blocked /\ r.2 t = with_state Ready (ths t);
  claim_other : forall t, t ∉ r.1.1 -> r.2 t = ths t;
  claim_kept : forall e, e ∈ l -> thread_of e ∉ r.1.1 -> e ∈ r.1.2;
  claim_from : forall e, e ∈ r.1.2 -> e ∈ l;
  claim_shorter : (length r.1.1 + length r.1.2 = length l)%nat;
  claim_none : r.1.1 = [] -> (0 < room)%nat -> forall e, e ∈ l -> want e = true -> state (ths (thread_of e)) <> Blocked;
}.

Lemma claim_sound room ths l : claim_spec room ths l (claim want thread_of room ths l).
Proof.
  revert room ths. induction l as [| e l IH]; intros room ths; cbn [claim].
  { constructor; simpl; try done; [constructor | by intros t ?%elem_of_nil | by intros _ _ e ?%elem_of_nil]. }
  destruct ((0 <? room)%nat && want e && bool_decide (state (ths (thread_of e)) = Blocked)) eqn:G.
  - apply andb_true_iff in G as [_ G]. apply bool_decide_eq_true in G. set (t0 := thread_of e) in *.
    set (ths1 := <[t0 := with_state Ready (ths t0)]> ths). specialize (IH (pred room) ths1).
    destruct (claim want thread_of (pred room) ths1 l) as [[batch kept] ths2]. destruct IH as [Hn Hb Ho Hk Hf Hl _]. simpl in *.
    assert (t0 ∉ batch) as Ht0.
    { intros Hin. destruct (Hb t0 Hin) as [Hst _]. unfold ths1 in Hst. rewrite fn_lookup_insert in Hst. discriminate. }
    constructor; simpl.
    + by constructor.
    + intros t. rewrite elem_of_cons. intros [-> | Hin].
      * split; [done |]. rewrite (Ho t0 Ht0). unfold ths1. by rewrite fn_lookup_insert.
      * destruct (Hb t Hin) as [Hst E2]. unfold ths1 in *. rewrite fn_lookup_insert_ne in * by (intros ->; done). done.
    + intros t. rewrite not_elem_of_cons. intros [Hne Hin]. rewrite (Ho t Hin). unfold ths1. by rewrite fn_lookup_insert_ne.
    + intros e'. rewrite elem_of_cons, not_elem_of_cons. intros [-> | Hin] [Hne Hnb]; [done | by apply Hk].
    + intros e' He. apply elem_of_cons. right. by apply Hf.
    + lia.
    + done.
  - specialize (IH room ths). destruct (claim want thread_of room ths l) as [[batch kept] ths2]. destruct IH as [Hn Hb Ho Hk Hf Hl Hz]. simpl in *.
    constructor; simpl; try done.
    + intros e'. rewrite !elem_of_cons. intros [-> | Hin] Hnb; [by left | right; by apply Hk].
    + intros e'. rewrite !elem_of_cons. intros [-> | Hin]; [by left | right; by apply Hf].
    + lia.
    + intros -> Hroom e'. rewrite elem_of_cons. intros [-> | Hin] Hw; [| by apply Hz].
      intros Hst. rewrite (proj2 (Nat.ltb_lt _ _) Hroom), Hw, (bool_decide_eq_true_2 _ Hst) in G. discriminate.
Qed.
End claim.

(** ** The invariant *)

Definition claimed (w : Waker) : list Tid :=
  match w with Queueing batch _ _ _ => batch | Placing t _ => [t] | Overdue batch _ => batch | _ => [] end.

Section homes.
Implicit Types (ths : Tid -> Thread) (cs : nat -> Core) (ws : nat -> Waker).

Definition cur cs (t : Tid) : Prop := exists c, current (cs c) = Some t.
Definition que cs (t : Tid) : Prop := exists c, t ∈ queue (cs c).
Definition cla ws (t : Tid) : Prop := exists i, t ∈ claimed (ws i).

(** A parked thread is blocked, or one wake holds it. *)
Definition held (st : ThreadState) (cl : Prop) : Prop := st = Blocked /\ ~ cl \/ st = Ready /\ cl.

Definition thread_ok (th : Thread) (cu qu cl : Prop) : Prop :=
  match pc th with
  | Out =>
      ~ cl /\ (started th = false /\ ~ cu /\ ~ qu /\ state th = Ready /\ sp th = true \/
               started th = true /\ (cu /\ state th = Running \/ qu /\ state th = Ready /\ sp th = true \/ ~ cu /\ ~ qu /\ state th = Exited))
  | AskKilled _ | AskHeld _ | AskReady _ _ | Cleaning _ _ _ => started th = true /\ cu /\ state th = Running /\ ~ cl
  | Registering _ _ _ | TakingBack _ _ _ _ | Refused _ _ | Arming _ _ | Checking _ _ _ _ | Found _ _ | Leaving _ _ _ =>
      started th = true /\ cu /\ sp th = false /\ held (state th) cl
  | Switching _ _ _ => started th = true /\ ~ cu /\ ~ qu /\ sp th = false /\ held (state th) cl
  | Parked _ _ _ =>
      started th = true /\ sp th = true /\
      (~ cu /\ ~ qu /\ held (state th) cl \/ ~ cl /\ (cu /\ state th = Running \/ qu /\ state th = Ready))
  end.

Definition contents (core : Core) : list Tid := option_list (current core) ++ queue core.

Record places cs : Prop := {
  place_once : forall c, NoDup (contents (cs c));
  one_place : forall c c' t, t ∈ contents (cs c) -> t ∈ contents (cs c') -> c = c';
}.

Record claims ws : Prop := {
  claim_once : forall i, NoDup (claimed (ws i));
  one_claim : forall i j t, t ∈ claimed (ws i) -> t ∈ claimed (ws j) -> i = j;
}.

Record homes ths cs ws : Prop := {
  homes_places : places cs;
  homes_claims : claims ws;
  homes_thread : forall t, thread_ok (ths t) (cur cs t) (que cs t) (cla ws t);
}.

Lemma thread_ok_iff th cu qu cl cu' qu' cl' :
  (cu <-> cu') -> (qu <-> qu') -> (cl <-> cl') -> thread_ok th cu qu cl -> thread_ok th cu' qu' cl'.
Proof. intros A B C. unfold thread_ok, held. destruct (pc th); rewrite ?A, ?B, ?C; exact id. Qed.

#[export] Instance thread_ok_proper th : Proper (iff ==> iff ==> iff ==> iff) (thread_ok th).
Proof. intros a a' A b b' B c c' C. split; apply thread_ok_iff; by rewrite ?A, ?B, ?C. Qed.

Lemma homes_thread_set ths cs ws t th :
  homes ths cs ws -> thread_ok th (cur cs t) (que cs t) (cla ws t) -> homes (<[t := th]> ths) cs ws.
Proof.
  intros [Hp Hc Ht] Hth. constructor; [done | done |]. intros t'. destruct (decide (t = t')) as [<- | Hne].
  - by rewrite fn_lookup_insert.
  - by rewrite fn_lookup_insert_ne.
Qed.

(** A wake that moves on without a change of what it holds. *)
Lemma homes_waker_same ths cs ws i w :
  homes ths cs ws -> claimed w = claimed (ws i) -> homes ths cs (<[i := w]> ws).
Proof.
  intros [Hp [Hn H1] Ht] Hw.
  assert (forall j, claimed ((<[i := w]> ws : nat -> Waker) j) = claimed (ws j)) as E.
  { intros j. destruct (decide (i = j)) as [<- |]; [by rewrite fn_lookup_insert | by rewrite fn_lookup_insert_ne]. }
  constructor; [done | constructor |].
  - intros j. rewrite E. apply Hn.
  - intros j k t. rewrite !E. apply H1.
  - intros t. eapply thread_ok_iff; [reflexivity | reflexivity | | apply Ht]. unfold cla. by setoid_rewrite E.
Qed.

(** A wake that held nothing claims a batch. *)
Lemma homes_claimed ths cs ws i w batch ths' :
  homes ths cs ws -> claimed (ws i) = [] -> claimed w = batch -> NoDup batch ->
  (forall t, t ∈ batch -> state (ths t) = Blocked /\ ths' t = with_state Ready (ths t)) ->
  (forall t, t ∉ batch -> ths' t = ths t) ->
  homes ths' cs (<[i := w]> ws).
Proof.
  intros [Hp [Hn H1] Ht] He Hw Hnd Hb Ho.
  assert (forall t, state (ths t) = Blocked -> ~ cla ws t) as Hfree.
  { intros t Hst. specialize (Ht t). unfold thread_ok, held in Ht. destruct (pc (ths t)); intuition congruence. }
  assert (forall j t, t ∈ claimed ((<[i := w]> ws : nat -> Waker) j) <-> (j = i /\ t ∈ batch) \/ (j <> i /\ t ∈ claimed (ws j))) as E.
  { intros j t. destruct (decide (i = j)) as [<- |]; [rewrite fn_lookup_insert, Hw | rewrite fn_lookup_insert_ne by done]; naive_solver. }
  constructor; [done | constructor |].
  - intros j. destruct (decide (i = j)) as [<- |]; [by rewrite fn_lookup_insert, Hw | by rewrite fn_lookup_insert_ne].
  - intros j k t. rewrite !E. intros [[-> Hin] | [Hj Hin]] [[-> Hin'] | [Hk Hin']]; try done.
    + destruct (Hfree t); [by apply Hb | by exists k].
    + destruct (Hfree t); [by apply Hb | by exists j].
    + by eapply H1.
  - intros t. destruct (decide (t ∈ batch)) as [Hin | Hnin].
    + destruct (Hb t Hin) as [Hst ->]. pose proof (Hfree t Hst) as Hnc. specialize (Ht t).
      assert (cla (<[i := w]> ws) t) as Hc by (exists i; apply E; by left).
      unfold thread_ok, held in *. cbn [pc with_state state sp started] in *. rewrite Hst in Ht. destruct (pc (ths t)); naive_solver.
    + rewrite (Ho t Hnin). eapply thread_ok_iff; [reflexivity | reflexivity | | apply Ht].
      unfold cla. setoid_rewrite E. split; [intros [j Hj]; exists j; right; split; [| done] | naive_solver].
      intros ->. rewrite He in Hj. by apply elem_of_nil in Hj.
Qed.

(** ** Changes of a core *)

Lemma elem_of_contents core t : t ∈ contents core <-> current core = Some t \/ t ∈ queue core.
Proof. unfold contents. rewrite elem_of_app. destruct (current core) as [x |]; simpl; rewrite ?elem_of_cons, ?elem_of_nil; naive_solver. Qed.

Lemma placed cs t : cur cs t \/ que cs t <-> exists c, t ∈ contents (cs c).
Proof. unfold cur, que. setoid_rewrite elem_of_contents. naive_solver. Qed.

Section core_set.
  Context (cs : nat -> Core) (c : nat) (core : Core).
  Hypothesis (Hp : places cs) (Hnd : NoDup (contents core)).
  Hypothesis (Hnew : forall t, t ∈ contents core -> t ∈ contents (cs c) \/ forall c', t ∉ contents (cs c')).

Lemma places_set : places (<[c := core]> cs).
Proof.
  destruct Hp as [Hn H1]. constructor.
  - intros c'. destruct (decide (c = c')) as [<- |]; [by rewrite fn_lookup_insert | by rewrite fn_lookup_insert_ne].
  - assert (forall c' t, c <> c' -> t ∈ contents core -> t ∈ contents (cs c') -> False) as Hx.
    { intros c' t Hne Hin Hin'. destruct (Hnew t Hin) as [Hin2 | Hno]; [by apply Hne, (H1 c c' t) | by apply (Hno c')]. }
    intros c1 c2 t. destruct (decide (c = c1)) as [<- |], (decide (c = c2)) as [<- |]; rewrite ?fn_lookup_insert, ?fn_lookup_insert_ne by done; try done.
    + intros A B. by destruct (Hx c2 t).
    + intros A B. by destruct (Hx c1 t).
    + apply H1.
Qed.

(** A thread of the core, or a new one, is where the new core has it. *)
Lemma here_after t : t ∈ contents (cs c) \/ t ∈ contents core -> (cur (<[c := core]> cs) t <-> current core = Some t) /\ (que (<[c := core]> cs) t <-> t ∈ queue core).
Proof.
  intros Hin. assert (forall c', c <> c' -> t ∉ contents (cs c')) as Hno.
  { intros c' Hne Hin'. assert (t ∈ contents (cs c)) as Hc.
    { destruct Hin as [? | Hin]; [done |]. destruct (Hnew t Hin) as [? | Hno]; [done | by destruct (Hno c')]. }
    by apply Hne, (one_place _ Hp c c' t). }
  split; (split; [intros [c' Hc']; destruct (decide (c = c')) as [<- | Hne] | intros ?; exists c; by rewrite fn_lookup_insert]);
    rewrite ?fn_lookup_insert, ?fn_lookup_insert_ne in Hc' by done; try done; destruct (Hno c' Hne); apply elem_of_contents; auto.
Qed.

Lemma here_before t : t ∈ contents (cs c) -> (cur cs t <-> current (cs c) = Some t) /\ (que cs t <-> t ∈ queue (cs c)).
Proof.
  intros Hin. assert (forall c', t ∈ contents (cs c') -> c' = c) as H1 by (intros c' ?; by apply (one_place _ Hp c' c t)).
  split; (split; [intros [c' Hc'] | intros ?; by exists c]); assert (c' = c) as -> by (apply H1, elem_of_contents; auto); done.
Qed.

Lemma elsewhere t : t ∉ contents (cs c) -> t ∉ contents core -> (cur (<[c := core]> cs) t <-> cur cs t) /\ (que (<[c := core]> cs) t <-> que cs t).
Proof.
  rewrite !elem_of_contents. intros A B.
  split; (split; intros [c' Hc']; exists c'; destruct (decide (c = c')) as [<- | Hne]); rewrite ?fn_lookup_insert, ?fn_lookup_insert_ne in * by done; tauto.
Qed.

(** The invariant after a change of a core and of some threads it has or gets. *)
Lemma homes_core ths ths' ws ws' :
  homes ths cs ws -> claims ws' ->
  (forall t, t ∈ contents (cs c) \/ t ∈ contents core ->
     thread_ok (ths t) (cur cs t) (que cs t) (cla ws t) -> (t ∈ contents (cs c) -> thread_ok (ths t) (current (cs c) = Some t) (t ∈ queue (cs c)) (cla ws t)) ->
     thread_ok (ths' t) (current core = Some t) (t ∈ queue core) (cla ws' t)) ->
  (forall t, t ∉ contents (cs c) -> t ∉ contents core -> thread_ok (ths t) (cur cs t) (que cs t) (cla ws t) -> thread_ok (ths' t) (cur cs t) (que cs t) (cla ws' t)) ->
  homes ths' (<[c := core]> cs) ws'.
Proof.
  intros [_ _ Ht] Hc Hin Hout. constructor; [apply places_set | done |]. intros t.
  destruct (decide (t ∈ contents (cs c) \/ t ∈ contents core)) as [Hi | Hi].
  - destruct (here_after t Hi) as [-> ->].
    apply Hin; [done | apply Ht |]. intros Hb. destruct (here_before t Hb) as [<- <-]. apply Ht.
  - apply Decidable.not_or in Hi as [Hi1 Hi2]. destruct (elsewhere t Hi1 Hi2) as [-> ->]. by apply Hout.
Qed.
End core_set.
End homes.

(** ** Every action keeps it *)

Definition homed (s : Sched) : Prop := homes (threads s) (cores s) (wakers s).

(** A refused registration that a wake by name has overtaken. *)
Definition refused_while_claimed (a : Action) (s : Sched) : bool :=
  match a with
  | Step c _ =>
      match current (cores s c) with
      | Some t =>
          match pc (threads s t) with
          | Refused w _ => flagged w && negb (bool_decide (state (threads s t) = Blocked))
          | _ => false
          end
      | None => false
      end
  | _ => false
  end.

Ltac thread_cases := unfold thread_ok, held in *; cbn [pc state sp started with_state with_pc with_sp with_start begin_park back] in *.

Lemma homed_thread s t th :
  homed s -> thread_ok th (cur (cores s) t) (que (cores s) t) (cla (wakers s) t) -> homed (set_thread t th s).
Proof. apply homes_thread_set. Qed.

Lemma homed_goto s t p :
  homed s -> thread_ok (with_pc p (threads s t)) (cur (cores s) t) (que (cores s) t) (cla (wakers s) t) -> homed (goto t p s).
Proof. apply homed_thread. Qed.

(** A change of anything but threads, cores and wakes. *)
Definition same_homes (s s' : Sched) : Prop := threads s' = threads s /\ cores s' = cores s /\ wakers s' = wakers s.

Lemma look_homes w s conds s' : look w s = Some (conds, s') -> same_homes s s'.
Proof. destruct w; cbn [look]; [by intros [= _ <-] | by intros [= _ <-] |]. destruct (locked s set); [done |]. by intros [= _ <-]. Qed.

Lemma look_away_homes w s : same_homes s (look_away w s).
Proof. by destruct w. Qed.

Lemma homed_same s s' : same_homes s s' -> homed s -> homed s'.
Proof. intros (A & B & C). unfold homed. by rewrite A, B, C. Qed.

Lemma homed_goto_from s s' t p :
  same_homes s s' -> homed s -> thread_ok (with_pc p (threads s t)) (cur (cores s) t) (que (cores s) t) (cla (wakers s) t) -> homed (goto t p s').
Proof. intros Hs H Hok. apply homed_goto; [by eapply homed_same |]. destruct Hs as (-> & -> & ->). exact Hok. Qed.

(** The running thread, in words of its core alone. *)
Lemma homed_current s c t :
  homed s -> current (cores s c) = Some t -> thread_ok (threads s t) (cur (cores s) t) (que (cores s) t) (cla (wakers s) t) /\ cur (cores s) t /\ ~ que (cores s) t.
Proof.
  intros [Hp _ Ht] Hc. split; [apply Ht |]. split; [by exists c |]. intros [c' Hq].
  assert (c' = c) as -> by (apply (one_place _ Hp c' c t); apply elem_of_contents; auto).
  pose proof (place_once _ Hp c) as Hn. unfold contents in Hn. rewrite Hc in Hn. simpl in Hn. by apply NoDup_cons in Hn as [? _].
Qed.

Lemma homed_enter s c t w outer :
  homed s -> current (cores s c) = Some t -> state (threads s t) = Running -> started (threads s t) = true -> ~ cla (wakers s) t ->
  homed (enter t w outer s).
Proof.
  intros H Hc Hst Hs Hcl. destruct (homed_current s c t H Hc) as (_ & Hcu & _). apply homed_thread; [done |]. thread_cases. tauto.
Qed.

(** The running thread at its next place. *)
Ltac moved :=
  match goal with
  | Hs : same_homes ?s _ |- homed (goto _ _ _) => eapply homed_goto_from; [exact Hs | assumption | thread_cases; solve [tauto | intuition congruence]]
  | |- homed (goto _ _ _) => eapply homed_goto_from; [| eassumption | thread_cases; solve [tauto | intuition congruence]]; done
  | |- homed (set_thread _ _ _) => apply homed_thread; [assumption | thread_cases; solve [tauto | intuition congruence]]
  end.

(** The next thread of the queue of a core whose own thread has left. *)
Lemma homed_switch s c t th core' zombie' :
  homed s -> current (cores s c) = Some t ->
  queue (cores s c) = queue core' ->
  thread_ok th False False (cla (wakers s) t) ->
  homed (match queue core' with
         | [] => set_core c (mkCore [] None zombie') (set_thread t th s)
         | next :: q => set_core c (mkCore q (Some next) zombie') (set_thread next (with_state Running (threads (set_thread t th s) next)) (set_thread t th s))
         end).
Proof.
  intros H Hc Hq Hth. pose proof H as [Hp Hl Ht]. pose proof (place_once _ Hp c) as Hnd. unfold contents in Hnd. rewrite Hc, Hq in Hnd.
  apply NoDup_cons in Hnd as [Hnt Hnd]. destruct (queue core') as [| next q].
  - unfold homed. cbn [threads cores wakers set_core set_cores set_thread set_threads].
    apply (homes_core _ _ _ Hp) with (ths := threads s) (ws := wakers s); [constructor | by intros t' ?%elem_of_nil | done | done | |].
    + intros t'. rewrite elem_of_contents, Hc, Hq. cbn. rewrite !elem_of_nil. intros Hin _ _. assert (t' = t) as -> by naive_solver.
      rewrite fn_lookup_insert. eapply thread_ok_iff; [| | reflexivity | exact Hth]; rewrite ?elem_of_nil; split; done.
    + intros t'. rewrite elem_of_contents, Hc, Hq. intros Hn _ Hok. rewrite fn_lookup_insert_ne; [done |]. intros <-. tauto.
  - apply NoDup_cons in Hnd as [Hnq Hnd]. apply not_elem_of_cons in Hnt as [Hne Hntq].
    unfold homed. cbn [threads cores wakers set_core set_cores set_thread set_threads]. rewrite fn_lookup_insert_ne by done.
    apply (homes_core _ _ _ Hp) with (ths := threads s) (ws := wakers s); [by constructor | | done | done | |].
    + intros t'. rewrite !elem_of_contents, Hc, Hq. cbn. rewrite elem_of_cons. intros [[= <-] | Hin]; left; right; auto.
    + intros t'. rewrite !elem_of_contents, Hc, Hq. cbn. rewrite elem_of_cons. intros Hin _ Hok. destruct (decide (t' = next)) as [-> | Hnn].
      * rewrite fn_lookup_insert. specialize (Hok ltac:(auto)). thread_cases. destruct (pc (threads s next)); intuition congruence.
      * rewrite fn_lookup_insert_ne by done. destruct (decide (t' = t)) as [-> | Hnt].
        -- rewrite fn_lookup_insert. eapply thread_ok_iff; [| | reflexivity | exact Hth]; split; try done; congruence.
        -- rewrite fn_lookup_insert_ne by done. assert (t' ∈ q) as Hin' by (destruct Hin as [[? | [? | ?]] | [? | ?]]; congruence || done).
           eapply thread_ok_iff; [| | reflexivity | apply Hok; auto]; split; auto; congruence.
    + intros t'. rewrite !elem_of_contents, Hc, Hq. cbn. rewrite elem_of_cons. intros Hn1 Hn2 Hok.
      rewrite !fn_lookup_insert_ne; [done | |]; intros ->; tauto.
Qed.

Lemma homed_block s c t p :
  homed s -> current (cores s c) = Some t -> thread_ok (with_pc p (threads s t)) False False (cla (wakers s) t) ->
  homed (reschedule_block c (goto t p s)).
Proof. intros H Hc Hth. apply (homed_switch s c t _ (cores s c) None H Hc eq_refl Hth). Qed.

Lemma homed_wait s c t ok :
  homed s -> current (cores s c) = Some t -> refused_while_claimed (Step c ok) s = false -> homed (wait_step c t ok s).
Proof.
  intros H Hc Hsafe. destruct (homed_current s c t H Hc) as (Hok & Hcu & Hqu). unfold refused_while_claimed in Hsafe. rewrite Hc in Hsafe.
  unfold wait_step, ask_step, refuse_step, clean_step. destruct (pc (threads s t)) eqn:Ep; unfold thread_ok in Hok; rewrite Ep in Hok; unfold held in Hok; try done.
  - destruct (killed s _); moved.
  - destruct (truth s _); [moved |]. destruct ok; [by apply (homed_enter s c); tauto | moved].
  - destruct todo as [[| cond todo] |].
    + pose proof (look_away_homes (watch outer) s) as Hs. destruct (_ && _); [moved |].
      destruct ok; [| moved]. pose proof (homed_same _ _ Hs H). destruct Hs as (E1 & E2 & E3).
      apply (homed_enter _ c); rewrite ?E1, ?E2, ?E3; tauto.
    + pose proof (look_away_homes (watch outer) s) as Hs. destruct (truth s cond); [moved | clear Hs; moved].
    + destruct (look (watch outer) s) as [[conds s'] |] eqn:El; [| done]. apply look_homes in El. moved.
  - destruct (koids w !! done); [| moved]. destruct ok; [moved |]. destruct (flagged w); moved.
  - destruct (take registered (koids w) !! done); moved.
  - case_bool_decide as Hb; [destruct outer; moved |]. destruct (flagged w); [discriminate Hsafe | moved].
  - destruct (negb (deadline w =? NO_DEADLINE) && ok); moved.
  - destruct todo as [[| cond todo] |].
    + pose proof (look_away_homes (watch w) s) as Hs. moved.
    + pose proof (look_away_homes (watch w) s) as Hs. destruct (truth s cond); [moved | clear Hs; moved].
    + destruct (look (watch w) s) as [[conds s'] |] eqn:El; [| done]. apply look_homes in El. moved.
  - case_bool_decide as Hb; moved.
  - apply (homed_block s c t); [done | done |]. thread_cases. tauto.
  - moved.
  - destruct (koids w !! done); [moved |]. destruct (deadline w =? NO_DEADLINE), outer; moved.
Qed.

(** A thread that is nowhere goes to the end of a queue. *)
Lemma homes_push ths cs ws ws' c t th :
  homes ths cs ws -> ~ cur cs t -> ~ que cs t -> claims ws' -> (forall t', t' <> t -> cla ws' t' <-> cla ws t') ->
  thread_ok th False True (cla ws' t) ->
  homes (<[t := th]> ths) (<[c := mkCore (queue (cs c) ++ [t]) (current (cs c)) (zombie (cs c))]> cs) ws'.
Proof.
  intros H Hcu Hqu Hcl Hsame Hth. pose proof (homes_places _ _ _ H) as Hp.
  assert (forall c', t ∉ contents (cs c')) as Hno by (intros c' Hin; destruct (proj2 (placed cs t)); [by exists c' | done | done]).
  apply (homes_core cs c _ Hp) with (ths := ths) (ws := ws); try done.
  - unfold contents. cbn. rewrite app_assoc. apply NoDup_app. split; [apply (place_once _ Hp c) |]. split; [| by apply NoDup_singleton].
    intros t' Hin ?%list_elem_of_singleton. subst. by apply (Hno c).
  - intros t'. rewrite !elem_of_contents. cbn. rewrite elem_of_app, list_elem_of_singleton. intros [? | [? | ->]]; [auto | auto | right; apply Hno].
  - intros t'. rewrite !elem_of_contents. cbn. rewrite elem_of_app, list_elem_of_singleton. intros Hin _ Hok.
    destruct (decide (t' = t)) as [-> | Hne].
    + rewrite fn_lookup_insert. eapply thread_ok_iff; [| | reflexivity | exact Hth]; split; try done; [| auto].
      intros Hc. destruct (Hno c). apply elem_of_contents. by left.
    + rewrite fn_lookup_insert_ne, Hsame by done. eapply thread_ok_iff; [reflexivity | | reflexivity | apply Hok]; naive_solver.
  - intros t'. rewrite !elem_of_contents. cbn. rewrite elem_of_app, list_elem_of_singleton. intros _ Hn Hok.
    rewrite fn_lookup_insert_ne, Hsame by naive_solver. done.
Qed.

(** A wake hands over the first thread it holds. *)
Lemma homed_enqueue s i c t batch w :
  homed s -> claimed (wakers s i) = t :: batch -> claimed w = batch -> sp (threads s t) = true -> homed (set_waker i w (enqueue c t s)).
Proof.
  intros H Hi Hw Hsp. pose proof H as [Hp [Hn H1] Ht].
  assert (cla (wakers s) t) as Hcl by (exists i; rewrite Hi; by left).
  assert (forall j t', t' ∈ claimed ((<[i := w]> (wakers s) : nat -> Waker) j) <-> t' ∈ claimed (wakers s j) /\ t' <> t) as E.
  { intros j t'. destruct (decide (i = j)) as [<- | Hne].
    - rewrite fn_lookup_insert, Hw, Hi, elem_of_cons. pose proof (Hn i) as Hnd. rewrite Hi in Hnd. apply NoDup_cons in Hnd as [? _]. naive_solver.
    - rewrite fn_lookup_insert_ne by done. split; [| tauto]. intros Hin. split; [done |]. intros ->. apply Hne, (H1 i j t); [rewrite Hi; by left | done]. }
  pose proof (Ht t) as Hok. unfold homed, enqueue, enqueue_on. cbn [threads cores wakers set_waker set_wakers set_core set_cores set_thread set_threads].
  apply homes_push with (ws := wakers s); try done; try (thread_cases; destruct (pc (threads s t)); intuition congruence).
  - constructor.
    + intros j. destruct (decide (i = j)) as [<- |]; [rewrite fn_lookup_insert, Hw | by rewrite fn_lookup_insert_ne].
      pose proof (Hn i) as Hnd. rewrite Hi in Hnd. by apply NoDup_cons in Hnd as [_ ?].
    + intros j k t'. rewrite !E. intros [? _] [? _]. by eapply H1.
  - intros t' Hne. unfold cla. setoid_rewrite E. naive_solver.
  - assert (~ cla (<[i := w]> (wakers s)) t) as Hgone by (intros [j [_ ?]%E]; done).
    thread_cases. destruct (pc (threads s t)); intuition congruence.
Qed.

Lemma homed_claim {E} s i w (want : E -> bool) thread_of room l s' :
  homed s -> claimed (wakers s i) = [] -> claimed w = (claim want thread_of room (threads s) l).1.1 ->
  threads s' = (claim want thread_of room (threads s) l).2 -> cores s' = cores s -> wakers s' = wakers s ->
  homed (set_waker i w s').
Proof.
  intros H He Hw E1 E2 E3. destruct (claim_sound want thread_of room (threads s) l) as [Hn Hb Ho _ _ _ _].
  unfold homed. cbn [threads cores wakers set_waker set_wakers]. rewrite E1, E2, E3. by eapply homes_claimed.
Qed.

Lemma homed_waker s i w : homed s -> claimed w = claimed (wakers s i) -> homed (set_waker i w s).
Proof. apply homes_waker_same. Qed.

Lemma homed_wake s i c : homed s -> homed (wake_step i c s).
Proof.
  intros H. unfold wake_step. destruct (wakers s i) eqn:Ei; [done | | | | | | | |].
  - apply homed_waker; [done |]. rewrite Ei. by destruct (observer_count s =? 0).
  - apply homed_waker; [done | by rewrite Ei].
  - pose proof (homed_claim s i (Queueing (claim (fun e => w_koid e =? koid) w_thread BATCH (threads s) (registry s)).1.1 koid sets then_) (fun e => w_koid e =? koid) w_thread BATCH (registry s)) as G.
    destruct (claim _ _ _ _ _) as [[batch kept] ths]. cbn in G. destruct batch as [| t batch].
    + apply homed_waker; [done |]. rewrite Ei. by destruct sets.
    + apply G; try done. by rewrite Ei.
  - destruct batch as [| t batch]; [apply homed_waker; [done | by rewrite Ei] |].
    destruct (sp (threads s t)) eqn:Hsp; [| done]. by eapply homed_enqueue; [| rewrite Ei | |].
  - destruct then_ as [| t then_]; [apply homed_waker; [done | by rewrite Ei] |].
    case_bool_decide as Hb; [| apply homed_waker; [done | by rewrite Ei]].
    unfold homed. cbn [threads cores wakers set_waker set_wakers set_thread set_threads].
    apply homes_claimed with (ths := threads s) (batch := [t]); [exact H | by rewrite Ei | done | apply NoDup_singleton | |].
    + intros t' ->%list_elem_of_singleton. cbn. by rewrite fn_lookup_insert.
    + intros t' Hn. cbn. rewrite fn_lookup_insert_ne; [done |]. intros <-. by apply Hn, list_elem_of_singleton.
  - destruct (sp (threads s thread)) eqn:Hsp; [| done]. by eapply homed_enqueue; [| rewrite Ei | |].
  - pose proof (homed_claim s i (Overdue (claim (fun e => t_deadline e <=? at_) t_thread BATCH (threads s) (timed s)).1.1 at_) (fun e => t_deadline e <=? at_) t_thread BATCH (timed s)) as G.
    destruct (claim _ _ _ _ _) as [[batch kept] ths]. cbn in G. destruct batch as [| t batch].
    + apply homed_waker; [done | by rewrite Ei].
    + apply G; try done. by rewrite Ei.
  - destruct batch as [| t batch]; [apply homed_waker; [done | by rewrite Ei] |].
    destruct (sp (threads s t)) eqn:Hsp; [| done]. by eapply homed_enqueue; [| rewrite Ei | |].
Qed.

Lemma homed_save s t : homed s -> homed (save t s).
Proof.
  intros H. unfold save. destruct (pc (threads s t)) eqn:Ep; try done. apply homed_thread; [done |].
  pose proof (homes_thread _ _ _ H t) as Hok. unfold thread_ok in Hok. rewrite Ep in Hok. thread_cases. tauto.
Qed.

Lemma homed_start s t place c : homed s -> homed (start t place c s).
Proof.
  intros H. unfold start. destruct (started (threads s t)) eqn:Es; [done |]. pose proof (homes_thread _ _ _ H t) as Hok.
  unfold homed, enqueue_on. cbn [threads cores wakers set_core set_cores set_thread set_threads].
  apply homes_push with (ws := wakers s); try done; try apply H; try (thread_cases; destruct (pc (threads s t)); intuition congruence).
Qed.

Lemma homed_pick s c : homed s -> homed (pick c s).
Proof.
  intros H. unfold pick, reschedule_block. destruct (current (cores s c)) eqn:Hc; [done |]. pose proof H as [Hp Hl Ht].
  pose proof (place_once _ Hp c) as Hnd. unfold contents in Hnd. rewrite Hc in Hnd. cbn in Hnd. destruct (queue (cores s c)) as [| next q] eqn:Hq.
  - unfold homed. cbn [threads cores wakers set_core set_cores].
    apply (homes_core _ _ _ Hp) with (ths := threads s) (ws := wakers s); [constructor | by intros t' ?%elem_of_nil | done | done | | done].
    intros t'. rewrite elem_of_contents, Hc, Hq. cbn. rewrite !elem_of_nil. naive_solver.
  - apply NoDup_cons in Hnd as [Hnq Hnd]. unfold homed. cbn [threads cores wakers set_core set_cores set_thread set_threads].
    apply (homes_core _ _ _ Hp) with (ths := threads s) (ws := wakers s); [by constructor | | done | done | |].
    + intros t'. rewrite !elem_of_contents, Hc, Hq. cbn. rewrite elem_of_cons. intros [[= <-] | Hin]; left; right; auto.
    + intros t'. rewrite !elem_of_contents, Hc, Hq. cbn. rewrite elem_of_cons. intros Hin _ Hok. destruct (decide (t' = next)) as [-> | Hnn].
      * rewrite fn_lookup_insert. specialize (Hok ltac:(auto)). thread_cases. destruct (pc (threads s next)); intuition congruence.
      * rewrite fn_lookup_insert_ne by done. eapply thread_ok_iff; [| | reflexivity | apply Hok]; naive_solver.
    + intros t'. rewrite !elem_of_contents, Hc, Hq. cbn. rewrite elem_of_cons. intros Hn1 Hn2 Hok. rewrite fn_lookup_insert_ne; [done | naive_solver].
Qed.

Lemma homed_retire s c : homed s -> homed (retire c s).
Proof.
  intros H. unfold retire. destruct (current (cores s c)) as [t |] eqn:Hc; [| done]. destruct (homed_current s c t H Hc) as (Hok & Hcu & Hqu).
  destruct (pc (threads s t)) eqn:Ep; try done. cbn [preemptible negb].
  apply (homed_switch s c t (with_sp true (with_state Exited (threads s t))) (cores s c) (Some t) H Hc eq_refl).
  thread_cases. rewrite Ep in *. intuition congruence.
Qed.

Lemma homed_yield s c idle : homed s -> homed (yield c idle s).
Proof.
  intros H. unfold yield. destruct (current (cores s c)) as [t |] eqn:Hc; [| done]. destruct (homed_current s c t H Hc) as (Hok & Hcu & Hqu).
  destruct (pc (threads s t)) eqn:Ep; try done. cbn [preemptible negb]. pose proof H as [Hp Hl Ht].
  pose proof (place_once _ Hp c) as Hnd. unfold contents in Hnd. rewrite Hc in Hnd. cbn in Hnd. apply NoDup_cons in Hnd as [Hnt Hnd].
  assert (forall th, started th = true -> pc th = Out -> state th = Ready -> sp th = true -> thread_ok th False True (cla (wakers s) t)) as Hready.
  { intros th A B C D. unfold thread_ok. rewrite B. unfold thread_ok in Hok. rewrite Ep in Hok. tauto. }
  assert (started (threads s t) = true) as Hs by (unfold thread_ok in Hok; rewrite Ep in Hok; tauto).
  destruct idle; [| destruct (queue (cores s c)) as [| next q] eqn:Hq].
  - unfold homed. cbn [threads cores wakers set_core set_cores set_thread set_threads].
    apply (homes_core _ _ _ Hp) with (ths := threads s) (ws := wakers s); try done.
    + cbn. apply NoDup_app. split; [done |]. split; [intros t' Hin ->%list_elem_of_singleton; done | apply NoDup_singleton].
    + intros t'. rewrite !elem_of_contents, Hc. cbn. rewrite elem_of_app, list_elem_of_singleton. naive_solver.
    + intros t'. rewrite !elem_of_contents, Hc. cbn. rewrite elem_of_app, list_elem_of_singleton. intros Hin _ Hbef.
      destruct (decide (t' = t)) as [-> | Hne].
      * rewrite fn_lookup_insert. eapply thread_ok_iff; [| | reflexivity | by apply Hready]; naive_solver.
      * rewrite fn_lookup_insert_ne by done. eapply thread_ok_iff; [| | reflexivity | apply Hbef]; naive_solver.
    + intros t'. rewrite !elem_of_contents, Hc. cbn. intros Hn _ ?. rewrite fn_lookup_insert_ne; [done | naive_solver].
  - unfold homed. cbn [threads cores wakers set_core set_cores set_thread set_threads].
    apply (homes_core _ _ _ Hp) with (ths := threads s) (ws := wakers s); try done.
    + cbn. apply NoDup_singleton.
    + intros t'. rewrite !elem_of_contents, Hc. cbn. rewrite elem_of_nil. naive_solver.
    + intros t'. rewrite !elem_of_contents, Hc, Hq. cbn. rewrite elem_of_nil. intros Hin _ Hbef. assert (t' = t) as -> by naive_solver.
      rewrite fn_lookup_insert. specialize (Hbef ltac:(auto)). thread_cases. rewrite Ep in *. rewrite elem_of_nil in *. intuition congruence.
    + intros t'. rewrite !elem_of_contents, Hc. cbn. intros Hn _ ?. rewrite fn_lookup_insert_ne; [done | naive_solver].
  - apply NoDup_cons in Hnd as [Hnq Hnd]. apply not_elem_of_cons in Hnt as [Hne Hntq].
    unfold homed. cbn [threads cores wakers set_core set_cores set_thread set_threads]. rewrite fn_lookup_insert_ne by done.
    apply (homes_core _ _ _ Hp) with (ths := threads s) (ws := wakers s); try done.
    + cbn. constructor; [rewrite elem_of_app, list_elem_of_singleton; naive_solver |].
      apply NoDup_app. split; [done |]. split; [intros t' Hin ->%list_elem_of_singleton; done | apply NoDup_singleton].
    + intros t'. rewrite !elem_of_contents, Hc, Hq. cbn. rewrite elem_of_app, list_elem_of_singleton, elem_of_cons. naive_solver.
    + intros t'. rewrite !elem_of_contents, Hc, Hq. cbn. rewrite elem_of_app, list_elem_of_singleton, elem_of_cons. intros Hin _ Hbef.
      destruct (decide (t' = next)) as [-> | Hnn]; [| destruct (decide (t' = t)) as [-> | Hnt]].
      * rewrite fn_lookup_insert. specialize (Hbef ltac:(auto)). thread_cases. destruct (pc (threads s next)); intuition congruence.
      * rewrite fn_lookup_insert_ne, fn_lookup_insert by done. eapply thread_ok_iff; [| | reflexivity | by apply Hready]; naive_solver.
      * rewrite !fn_lookup_insert_ne by done. eapply thread_ok_iff; [| | reflexivity | apply Hbef]; naive_solver.
    + intros t'. rewrite !elem_of_contents, Hc, Hq. cbn. rewrite elem_of_cons. intros Hn _ ?. rewrite !fn_lookup_insert_ne; [done | naive_solver | naive_solver].
Qed.

Lemma homed_forget s set member : homed s -> homes (fun t => forget set member (threads s t)) (cores s) (wakers s).
Proof.
  intros [Hp Hl Ht]. constructor; [done | done |]. intros t. specialize (Ht t).
  unfold forget. destruct (pc (threads s t)) eqn:Ep; try done; case_bool_decide; try done; unfold thread_ok in *; rewrite Ep in Ht; exact Ht.
Qed.

(** ** Over every run *)

Lemma homed_step s a : homed s -> refused_while_claimed a s = false -> homed (sched_step a s).
Proof.
  intros H Hsafe. destruct a; cbn [sched_step].
  - destruct (current (cores s c)) as [t |] eqn:Hc; [| done]. destruct (homed_current s c t H Hc) as (Hok & Hcu & Hqu).
    destruct (pc (threads s t)) eqn:Ep; try done. cbn [preemptible andb]. destruct (request_ok w); [| done].
    unfold thread_ok in Hok. rewrite Ep in Hok. moved.
  - destruct (current (cores s c)) as [t |] eqn:Hc; [| done]. destruct (homed_current s c t H Hc) as (Hok & Hcu & Hqu).
    destruct (pc (threads s t)) eqn:Ep; try done. cbn [preemptible andb]. destruct (request_ok w); [| done].
    unfold thread_ok in Hok. rewrite Ep in Hok. apply (homed_enter s c); tauto.
  - destruct (current (cores s c)) as [t |] eqn:Hc; [by apply homed_wait | done].
  - by apply homed_save.
  - by apply homed_yield.
  - by apply homed_retire.
  - by apply homed_pick.
  - by apply homed_start.
  - destruct (wakers s i) eqn:Ei; try done. apply homed_waker; [exact H | cbn; by rewrite Ei].
  - exact H.
  - unfold begin_wake. destruct (wakers s i) eqn:Ei; try done. apply homed_waker; [exact H | by rewrite Ei].
  - unfold begin_wake. destruct (wakers s i) eqn:Ei; try done. apply homed_waker; [exact H | by rewrite Ei].
  - destruct (wakers s i) eqn:Ei; try done. apply homed_waker; [exact H | cbn; by rewrite Ei].
  - unfold begin_wake. destruct (wakers s i) eqn:Ei; try done. apply homed_waker; [exact H | by rewrite Ei].
  - by apply homed_wake.
  - exact H.
  - unfold add. destruct (adders s j); try done. destruct (_ || _); [done |]. destruct (bool_decide _); [done |]. by destruct (_ || _ || _).
  - unfold add_step. destruct (adders s j); try done. by destruct (_ || _).
  - unfold remove. destruct (_ || _); [done |]. exact (homed_forget s set member H).
Qed.

Lemma homed_boot process_of koid_of_process : homed (boot process_of koid_of_process).
Proof.
  constructor; [| constructor; [intros i; constructor | by intros i j t ?%elem_of_nil] |].
  - constructor; [intros c; constructor | by intros c c' t ?%elem_of_nil].
  - intros t. unfold thread_ok, cur, que, cla. cbn. setoid_rewrite elem_of_nil. split; [by intros [_ []] |]. left. naive_solver.
Qed.

(** The states the scheduler comes to while no refusal is overtaken. *)
Inductive reach (process_of : Tid -> nat) (koid_of_process : nat -> Z) : Sched -> Prop :=
| reach_boot : reach process_of koid_of_process (boot process_of koid_of_process)
| reach_step s a : reach process_of koid_of_process s -> refused_while_claimed a s = false -> reach process_of koid_of_process (sched_step a s).

Lemma reach_homed process_of koid_of_process s : reach process_of koid_of_process s -> homed s.
Proof. induction 1; [apply homed_boot | by apply homed_step]. Qed.
