(* ===== verification/WaitsWakes.v ===== *)
(** No wake is lost: what a wait call watches is registered where the wakes look, a wait
    set hears from every member it has told so, and a condition that comes true under a
    parked thread has a wake on its way to it. The invariant of [Waits] that says so, and
    that every action keeps it. *)

From stdpp Require Import functions.
From S2P Require Import Prelude Waits WaitsHomes.

(** ** What a thread has done *)

(** The koids it is registered under, if no wake has claimed it. *)
Definition registered (p : Pc) : list Z :=
  match p with
  | Registering w _ done => take done (koids w)
  | Arming w _ | Checking w _ _ _ | Found w _ | Leaving w _ _ | Switching w _ _ | Parked w _ _ => koids w
  | _ => []
  end.

(** What it saw false since then. *)
Definition looked (p : Pc) : option (Request * list Cond) :=
  match p with
  | Checking w _ _ seen | Leaving w _ seen | Switching w _ seen | Parked w _ seen => Some (w, seen)
  | _ => None
  end.

(** The set whose membership lock it holds. *)
Definition scanning (p : Pc) : option Z :=
  match p with
  | AskReady w (Some _) | Checking w _ (Some _) _ => match watch w with Members set => Some set | _ => None end
  | _ => None
  end.

Definition adding (a : Adder) : option Z := match a with AtRest => None | Pushed set _ | Observed set _ => Some set end.

(** The requests it carries. *)
Definition also (o : option Request) : list Request := match o with Some w => [w] | None => [] end.
Definition carried (p : Pc) : list Request :=
  match p with
  | Out => []
  | AskKilled o | AskHeld o | AskReady o _ => [o]
  | Registering w o _ | TakingBack w o _ _ | Refused w o | Arming w o | Checking w o _ _ | Found w o
  | Leaving w o _ | Switching w o _ | Parked w o _ | Cleaning w o _ => w :: also o
  end.

(** The wake comes to the bucket that [w] is registered in for [cond]. *)
Definition reaches (wk : Waker) (w : Request) (cond : Cond) : Prop :=
  match wk with
  | Waking koid _ | Collecting koid _ => koid = koid_of cond
  | Draining koid sets _ | Queueing _ koid sets _ =>
      match watch w with Never => False | Any _ => koid_of cond ∈ koid :: sets | Members set => set ∈ koid :: sets end
  | _ => False
  end.

(** A condition [w] may look at is one whose wakes come to its koids. *)
Definition connected (obs : list SetObserver) (w : Request) (cond : Cond) : Prop :=
  match watch w with
  | Never => False
  | Any _ => koid_of cond ∈ koids w
  | Members set => koids w = [set] /\ exists m, cond = ReadyObject m /\ mkSetObserver m set true ∈ obs
  end.

(** What is left of a look, and what it has seen. *)
Definition viewed (p : Pc) : option (Request * list Cond) :=
  match p with
  | Checking w _ None seen => Some (w, seen)
  | Checking w _ (Some todo) seen => Some (w, todo ++ seen)
  | Leaving w _ seen | Switching w _ seen | Parked w _ seen => Some (w, seen)
  | _ => None
  end.

Section watches.
Implicit Types (reg : list BucketWaiter) (obs : list SetObserver) (tr : Cond -> bool) (ws : nat -> Waker).

Definition pending ws (w : Request) (cond : Cond) : Prop := exists i, reaches (ws i) w cond.

Record watches (t : Tid) (th : Thread) reg obs tr ws : Prop := {
  watches_requests : forall w, w ∈ carried (pc th) -> request_ok w = true;
  watches_unlocked : forall w outer seen, pc th = Checking w outer None seen -> seen = [];
  watches_connected : forall w conds cond, viewed (pc th) = Some (w, conds) -> cond ∈ conds -> connected obs w cond;
  watches_registered : forall k, state th = Blocked -> k ∈ registered (pc th) -> mkBucketWaiter t k ∈ reg;
  watches_pending : forall w seen cond, state th = Blocked -> looked (pc th) = Some (w, seen) -> cond ∈ seen -> tr cond = true -> pending ws w cond;
}.

(** The frame: more entries of its own, the observers it relies on, and wakes that still
    come. *)
Lemma watches_frame t th reg reg' obs obs' tr tr' ws ws' :
  watches t th reg obs tr ws ->
  (forall k, mkBucketWaiter t k ∈ reg -> mkBucketWaiter t k ∈ reg') ->
  (forall w conds cond, viewed (pc th) = Some (w, conds) -> cond ∈ conds -> connected obs w cond -> connected obs' w cond) ->
  (forall w seen cond, state th = Blocked -> looked (pc th) = Some (w, seen) -> cond ∈ seen ->
     (forall k, k ∈ koids w -> mkBucketWaiter t k ∈ reg) -> connected obs w cond -> tr' cond = true -> (tr cond = true -> pending ws w cond) -> pending ws' w cond) ->
  watches t th reg' obs' tr' ws'.
Proof.
  intros [Hr Hu Hc Hg Hp] Hreg Hobs Hpend. constructor; [done | done | | |].
  - intros w conds cond Hv Hin. by eapply Hobs, Hc.
  - intros k Hb Hk. by apply Hreg, Hg.
  - intros w seen cond Hb Hl Hin Htr. eapply Hpend; try done.
    + intros k Hk. apply Hg; [done |]. destruct (pc th); simplify_eq/=; done.
    + destruct (pc th) as [| | | | | | | | ? ? [todo |] ? | | | | |] eqn:Ep; cbn in Hl; simplify_eq; try (eapply Hc; [reflexivity | try apply elem_of_app; auto]).
    + by eapply Hp.
Qed.

(** A thread no wake needs to come to. *)
Lemma watches_awake t th th' reg obs tr ws :
  watches t th reg obs tr ws -> pc th' = pc th -> state th' <> Blocked -> watches t th' reg obs tr ws.
Proof. intros [Hr Hu Hc Hg Hp] E Hb. constructor; rewrite ?E; done. Qed.

(** A place where nothing has been seen. *)
Lemma watches_fresh t th reg obs tr ws :
  (forall w, w ∈ carried (pc th) -> request_ok w = true) ->
  (forall w conds, viewed (pc th) = Some (w, conds) -> conds = []) ->
  (forall k, state th = Blocked -> k ∈ registered (pc th) -> mkBucketWaiter t k ∈ reg) ->
  watches t th reg obs tr ws.
Proof.
  intros Hr Hv Hg. constructor; [done | intros w outer seen E; by apply (Hv w seen); rewrite E | | done |].
  - intros w conds cond E Hin. rewrite (Hv w conds E) in Hin. by apply elem_of_nil in Hin.
  - intros w seen cond _ Hl Hin. assert (exists conds, viewed (pc th) = Some (w, conds) /\ cond ∈ conds) as (conds & E & Hin').
    { destruct (pc th) as [| | | | | | | | ? ? [todo |] ? | | | | |] eqn:Ep; cbn in Hl; simplify_eq; eexists; (split; [reflexivity |]); try apply elem_of_app; auto. }
    rewrite (Hv w conds E) in Hin'. by apply elem_of_nil in Hin'.
Qed.
End watches.

(** ** Locks and tables of the sets *)

(** A membership lock has one holder. *)
Record lock_ok (scan : Tid -> option Z) (ads : nat -> Adder) (lk : Z -> bool) : Prop := {
  scan_locked : forall t set, scan t = Some set -> lk set = true;
  add_locked : forall j set, adding (ads j) = Some set -> lk set = true;
  one_scan : forall t t' set, scan t = Some set -> scan t' = Some set -> t = t';
  one_add : forall j j' set, adding (ads j) = Some set -> adding (ads j') = Some set -> j = j';
  scan_or_add : forall t j set, scan t = Some set -> adding (ads j) = Some set -> False;
}.

Definition pair_of (o : SetObserver) : Z * Z := (member_koid o, set_koid o).

Record table_ok (ads : nat -> Adder) (mem : Z -> list Z) (obs : list SetObserver) (count : Z) (acc : Z -> Z) : Prop := {
  member_observed : forall set m, m ∈ mem set -> mkSetObserver m set true ∈ obs \/ exists j, ads j = Pushed set m \/ ads j = Observed set m;
  observer_member : forall o, o ∈ obs -> member_koid o ∈ mem (set_koid o);
  uncounted_observer : forall o, o ∈ obs -> counted o = false -> exists j, ads j = Observed (set_koid o) (member_koid o);
  pushed_last : forall j set m, ads j = Pushed set m -> (exists l, mem set = l ++ [m]) /\ forall o, o ∈ obs -> pair_of o <> (m, set);
  observed_listed : forall j set m, ads j = Observed set m -> mkSetObserver m set false ∈ obs;
  observers_once : NoDup (pair_of <$> obs);
  members_once : forall set, NoDup (mem set);
  count_exact : count = Z.of_nat (length (filter (fun o => counted o = true) obs));
  sets_bounded : forall m, (length (sets_of m obs) <= MAX_SETS_PER_OBJECT)%nat;
  account_exact : forall set, acc set = Z.of_nat (length (mem set));
  members_bounded : forall set, (length (mem set) <= MAX_WAIT_SET_MEMBERS)%nat;
}.

Definition scan_of (ths : Tid -> Thread) (t : Tid) : option Z := scanning (pc (ths t)).

Record woken (s : Sched) : Prop := {
  woken_watches : forall t, watches t (threads s t) (registry s) (observers s) (truth s) (wakers s);
  woken_locks : lock_ok (scan_of (threads s)) (adders s) (locked s);
  woken_tables : table_ok (adders s) (members s) (observers s) (observer_count s) (account s);
}.

Lemma lock_ok_ext scan scan' ads lk : (forall t, scan' t = scan t) -> lock_ok scan ads lk -> lock_ok scan' ads lk.
Proof. intros E [A B C D F]. constructor; [| done | | done |]; intros *; rewrite ?E; eauto. Qed.

Lemma scan_insert ths t th t' : scan_of (<[t := th]> ths) t' = if decide (t = t') then scanning (pc th) else scan_of ths t'.
Proof. unfold scan_of. destruct (decide (t = t')) as [<- |]; [by rewrite fn_lookup_insert | by rewrite fn_lookup_insert_ne]. Qed.

(** A thread that keeps, takes or gives back a lock. *)
Lemma lock_keep ths ads lk t th :
  lock_ok (scan_of ths) ads lk -> scanning (pc th) = scan_of ths t -> lock_ok (scan_of (<[t := th]> ths)) ads lk.
Proof. intros H E. eapply lock_ok_ext; [| exact H]. intros t'. rewrite scan_insert. by destruct (decide (t = t')) as [<- |]. Qed.

Lemma lock_take ths ads lk t th set :
  lock_ok (scan_of ths) ads lk -> lk set = false -> scanning (pc th) = Some set -> lock_ok (scan_of (<[t := th]> ths)) ads (<[set := true]> lk).
Proof.
  intros [A B C D F] Hfree E. assert (forall set', lk set' = true -> (<[set := true]> lk : Z -> bool) set' = true) as Hmono.
  { intros set' ?. destruct (decide (set = set')) as [<- |]; [by rewrite fn_lookup_insert | by rewrite fn_lookup_insert_ne]. }
  assert (forall t', scan_of ths t' <> Some set) as Hs by (intros t' ?%A; congruence).
  assert (forall j, adding (ads j) <> Some set) as Ha by (intros j ?%B; congruence).
  constructor; [| by eauto | | done |].
  - intros t' set'. rewrite scan_insert. destruct (decide (t = t')); [| by eauto]. rewrite E. intros [= <-]. by rewrite fn_lookup_insert.
  - intros t1 t2 set'. rewrite !scan_insert. destruct (decide (t = t1)) as [<- |], (decide (t = t2)) as [<- |]; rewrite ?E; [done | | | apply C].
    + intros [= <-] ?. by destruct (Hs t2).
    + intros ? [= <-]. by destruct (Hs t1).
  - intros t' j set'. rewrite scan_insert. destruct (decide (t = t')); [| apply F]. rewrite E. intros [= <-] ?. by destruct (Ha j).
Qed.

Lemma lock_drop ths ads lk t th set :
  lock_ok (scan_of ths) ads lk -> scan_of ths t = Some set -> scanning (pc th) = None -> lock_ok (scan_of (<[t := th]> ths)) ads (<[set := false]> lk).
Proof.
  intros [A B C D F] Hold E. assert (forall set', set' <> set -> lk set' = true -> (<[set := false]> lk : Z -> bool) set' = true) as Hmono.
  { intros set' ? ?. by rewrite fn_lookup_insert_ne. }
  constructor; [| | | done |].
  - intros t' set'. rewrite scan_insert. destruct (decide (t = t')) as [<- | Hne]; [by rewrite E |]. intros Hs. apply Hmono; [| by eapply A].
    intros ->. by apply Hne, (C t t' set).
  - intros j set' Ha. apply Hmono; [| by eapply B]. intros ->. by eapply F.
  - intros t1 t2 set'. rewrite !scan_insert. destruct (decide (t = t1)), (decide (t = t2)); rewrite ?E; try done. apply C.
  - intros t' j set'. rewrite scan_insert. destruct (decide (t = t')); [by rewrite E | apply F].
Qed.

(** A step of one thread. *)
Lemma woken_thread s s' t th :
  woken s -> threads s' = <[t := th]> (threads s) ->
  wakers s' = wakers s -> truth s' = truth s -> observers s' = observers s -> adders s' = adders s -> members s' = members s ->
  observer_count s' = observer_count s -> account s' = account s ->
  (forall t' k, t' <> t -> mkBucketWaiter t' k ∈ registry s -> mkBucketWaiter t' k ∈ registry s') ->
  (watches t (threads s t) (registry s) (observers s) (truth s) (wakers s) -> watches t th (registry s') (observers s) (truth s) (wakers s)) ->
  lock_ok (scan_of (<[t := th]> (threads s))) (adders s) (locked s') ->
  woken s'.
Proof.
  intros [Hw _ Ht] Et Ew Er Eo Ea Em Ec Ek Hreg Hth Hl. constructor; [| by rewrite Et, Ea | by rewrite Ea, Em, Eo, Ec, Ek].
  intros t'. rewrite Et, Ew, Er, Eo. destruct (decide (t = t')) as [<- | Hne].
  - rewrite fn_lookup_insert. by apply Hth.
  - rewrite fn_lookup_insert_ne by done. eapply watches_frame; [apply Hw | intros k; by apply Hreg | done |]. intros w seen cond _ _ _ _ _ Htr Hp. by apply Hp.
Qed.

Lemma woken_awake s t th : woken s -> pc th = pc (threads s t) -> state th <> Blocked -> woken (set_thread t th s).
Proof.
  intros H Ep Hb. apply (woken_thread s _ t th); try done; [intros; by eapply watches_awake |].
  apply lock_keep; [apply H | unfold scan_of; by rewrite Ep].
Qed.

Definition watch_lock (w : Watch) : option Z := match w with Members set => Some set | _ => None end.

Lemma lock_look w s conds s' t th :
  lock_ok (scan_of (threads s)) (adders s) (locked s) -> look w s = Some (conds, s') -> scan_of (threads s) t = None -> scanning (pc th) = watch_lock w ->
  lock_ok (scan_of (<[t := th]> (threads s))) (adders s) (locked s').
Proof.
  intros H Hl Hn E. destruct w; cbn [look] in Hl; [injection Hl as _ <-; apply lock_keep; [done | by rewrite E, Hn] .. |].
  destruct (locked s set) eqn:Hf; [done |]. injection Hl as _ <-. by apply lock_take.
Qed.

Lemma lock_look_away w s t th :
  lock_ok (scan_of (threads s)) (adders s) (locked s) -> scan_of (threads s) t = watch_lock w -> scanning (pc th) = None ->
  lock_ok (scan_of (<[t := th]> (threads s))) (adders s) (locked (look_away w s)).
Proof. intros H Hs E. destruct w; cbn [look_away]; [apply lock_keep; [done | by rewrite E, Hs] .. |]. by apply lock_drop. Qed.

Lemma look_same w s conds s' :
  look w s = Some (conds, s') ->
  threads s' = threads s /\ wakers s' = wakers s /\ truth s' = truth s /\ observers s' = observers s /\ adders s' = adders s /\ members s' = members s /\
  observer_count s' = observer_count s /\ account s' = account s /\ registry s' = registry s.
Proof. destruct w; cbn [look]; [by intros [= _ <-] .. |]. destruct (locked s set); [done |]. by intros [= _ <-]. Qed.

Lemma look_away_same w s :
  threads (look_away w s) = threads s /\ wakers (look_away w s) = wakers s /\ truth (look_away w s) = truth s /\ observers (look_away w s) = observers s /\
  adders (look_away w s) = adders s /\ members (look_away w s) = members s /\ observer_count (look_away w s) = observer_count s /\
  account (look_away w s) = account s /\ registry (look_away w s) = registry s.
Proof. by destruct w. Qed.

(** What a look starts from is connected. *)
Lemma look_connected w s conds s' cond :
  woken s -> request_ok w = true -> look (watch w) s = Some (conds, s') -> cond ∈ conds -> connected (observers s) w cond.
Proof.
  intros [_ Hl Ht] Hr Hlook Hin. unfold request_ok in Hr. unfold connected. destruct (watch w) as [| cs | set]; cbn [look] in Hlook.
  - injection Hlook as <- _. by apply elem_of_nil in Hin.
  - injection Hlook as <- _. apply andb_true_iff in Hr as [Hr _]. rewrite forallb_forall in Hr. by apply (bool_decide_eq_true_1 _ (Hr cond (proj1 (list_elem_of_In _ _) Hin))).
  - destruct (locked s set) eqn:Hf; [done |]. injection Hlook as <- _. apply andb_true_iff in Hr as [Hr _]. apply bool_decide_eq_true in Hr.
    split; [done |]. apply list_elem_of_fmap in Hin as (m & -> & Hm). exists m. split; [done |].
    destruct (member_observed _ _ _ _ _ Ht set m Hm) as [? | (j & Hj)]; [done |].
    assert (adding (adders s j) = Some set) as Ha by (destruct Hj as [-> | ->]; done). apply (add_locked _ _ _ Hl) in Ha. congruence.
Qed.

(** ** The steps of a thread *)

Definition same_tables (s s' : Sched) : Prop :=
  threads s' = threads s /\ wakers s' = wakers s /\ truth s' = truth s /\ observers s' = observers s /\ adders s' = adders s /\ members s' = members s /\
  observer_count s' = observer_count s /\ account s' = account s.

Lemma woken_goto s s' t p :
  woken s -> same_tables s s' ->
  (forall t' k, t' <> t -> mkBucketWaiter t' k ∈ registry s -> mkBucketWaiter t' k ∈ registry s') ->
  (watches t (threads s t) (registry s) (observers s) (truth s) (wakers s) ->
   watches t (with_pc p (threads s t)) (registry s') (observers s) (truth s) (wakers s)) ->
  lock_ok (scan_of (<[t := with_pc p (threads s t)]> (threads s))) (adders s) (locked s') ->
  woken (goto t p s').
Proof.
  intros H (E1 & E2 & E3 & E4 & E5 & E6 & E7 & E8) Hreg Hw Hl. apply (woken_thread s _ t (with_pc p (threads s t))); try done.
  cbn. by rewrite E1.
Qed.

Lemma retain_other koid t l t' k : t' <> t -> mkBucketWaiter t' k ∈ l -> mkBucketWaiter t' k ∈ retain_bucket koid t l.
Proof. intros Hne Hin. apply list_elem_of_filter. split; [cbn; tauto | done]. Qed.

(** A thread that goes on with no look behind it. *)
Lemma watches_goto t th p reg reg' obs tr ws :
  watches t th reg obs tr ws -> (forall w, w ∈ carried p -> w ∈ carried (pc th) \/ request_ok w = true) ->
  (forall w conds, viewed p = Some (w, conds) -> conds = []) ->
  (forall k, state th = Blocked -> k ∈ registered p -> mkBucketWaiter t k ∈ reg') -> watches t (with_pc p th) reg' obs tr ws.
Proof.
  intros H Hr Hv Hg. apply watches_fresh; cbn [pc with_pc state]; [| done | done].
  intros w Hin. destruct (Hr w Hin) as [Hin' | ?]; [by apply (watches_requests _ _ _ _ _ _ H) | done].
Qed.

Ltac same := repeat split; reflexivity.
Ltac carry := cbn [carried back also]; intros ?; rewrite ?elem_of_cons, ?elem_of_nil; tauto.

Lemma held_request_ok th : request_ok (held_request th) = true.
Proof. done. Qed.

Lemma woken_enter s s' t w outer :
  woken s -> same_tables s s' -> registry s' = registry s ->
  (forall w', w' ∈ w :: also outer -> w' ∈ carried (pc (threads s t)) \/ request_ok w' = true) ->
  lock_ok (scan_of (<[t := with_pc (Registering w outer 0) (begin_park (threads s t))]> (threads s))) (adders s) (locked s') ->
  woken (enter t w outer s').
Proof.
  intros H (E1 & E2 & E3 & E4 & E5 & E6 & E7 & E8) Er Hr Hl. unfold enter. rewrite E1.
  apply (woken_thread s _ t (with_pc (Registering w outer 0) (begin_park (threads s t)))); try done.
  - cbn. by rewrite E1.
  - cbn. by rewrite Er.
  - intros Hw. apply watches_fresh; cbn [pc with_pc carried viewed registered take]; [| done | by intros k _ ?%elem_of_nil].
    intros w' Hin. destruct (Hr w' Hin); [by apply (watches_requests _ _ _ _ _ _ Hw) | done].
Qed.

(** A step that looks at nothing and keeps its lock. *)
Lemma woken_plain s s' t p :
  woken s -> same_tables s s' -> locked s' = locked s ->
  (forall t' k, t' <> t -> mkBucketWaiter t' k ∈ registry s -> mkBucketWaiter t' k ∈ registry s') ->
  (forall w, w ∈ carried p -> w ∈ carried (pc (threads s t)) \/ request_ok w = true) ->
  (forall w conds, viewed p = Some (w, conds) -> conds = []) ->
  (forall k, state (threads s t) = Blocked -> k ∈ registered p -> mkBucketWaiter t k ∈ registry s') ->
  scanning p = scanning (pc (threads s t)) ->
  woken (goto t p s').
Proof.
  intros H Hs El Hreg Hc Hv Hg Hsc. apply (woken_goto s); try done; [intros Hw; by eapply watches_goto |].
  rewrite El. apply lock_keep; [apply H | done].
Qed.

(** ... and one that gives its lock back. *)
Lemma woken_away s t p w :
  woken s -> scanning (pc (threads s t)) = watch_lock (watch w) -> scanning p = None ->
  (watches t (threads s t) (registry s) (observers s) (truth s) (wakers s) ->
   watches t (with_pc p (threads s t)) (registry s) (observers s) (truth s) (wakers s)) ->
  woken (goto t p (look_away (watch w) s)).
Proof.
  intros H Hsc Hn Hw. destruct (look_away_same (watch w) s) as (E1 & E2 & E3 & E4 & E5 & E6 & E7 & E8 & E9).
  apply (woken_goto s); [done | done | by rewrite E9 | by rewrite E9 |]. apply lock_look_away; [apply H | done | done].
Qed.

Ltac none := intros; match goal with H : _ ∈ registered _ |- _ => by apply elem_of_nil in H | H : viewed _ = Some _ |- _ => by inversion H end.

Ltac plain :=
  match goal with Ep : pc (threads ?s ?t) = _ |- _ =>
    apply (woken_plain s); try done; rewrite ?Ep; try done; try none; try carry; try (by intros; apply retain_other)
  end.

Lemma woken_core s c core : woken s -> woken (set_core c core s).
Proof. by intros []. Qed.

Lemma woken_reschedule s c : woken s -> woken (reschedule_block c s).
Proof. intros H. unfold reschedule_block. destruct (queue (cores s c)) as [| next q]; apply woken_core; [done |]. by apply woken_awake. Qed.

Lemma woken_ask_ready s c t ok outer todo : woken s -> pc (threads s t) = AskReady outer todo -> woken (wait_step c t ok s).
Proof.
  intros H Ep. pose proof (woken_watches _ H t) as Hw. pose proof (woken_locks _ H) as Hl. unfold wait_step, ask_step, refuse_step, clean_step. rewrite Ep.
  destruct todo as [[| cond todo] |].
  - assert (forall p, carried p = [outer] \/ carried p = [] -> viewed p = None -> registered p = [] -> scanning p = None -> woken (goto t p (look_away (watch outer) s))) as G.
    { intros p Hc Hv Hg Hsc. apply woken_away; [done | by rewrite Ep | done |]. intros _. eapply watches_goto; [exact Hw | | by rewrite Hv | by rewrite Hg; intros k _ ?%elem_of_nil].
      rewrite Ep. intros w Hin. left. destruct Hc as [Hc | Hc]; rewrite Hc in Hin; [done | by apply elem_of_nil in Hin]. }
    destruct (_ && _); [apply G; auto |]. destruct ok; [| apply G; auto].
    destruct (look_away_same (watch outer) s) as (E1 & E2 & E3 & E4 & E5 & E6 & E7 & E8 & E9).
    apply (woken_enter s); try done; [rewrite Ep; cbn; intros w'; rewrite !elem_of_cons, elem_of_nil; naive_solver |].
    apply lock_look_away; [done | unfold scan_of; by rewrite Ep | done].
  - destruct (truth s cond); [| plain]. apply woken_away; [done | by rewrite Ep | done |].
    intros _. eapply watches_goto; [exact Hw | by intros w ?%elem_of_nil | done | by intros k _ ?%elem_of_nil].
  - destruct (look (watch outer) s) as [[conds s'] |] eqn:El; [| done].
    pose proof (look_same _ _ _ _ El) as (E1 & E2 & E3 & E4 & E5 & E6 & E7 & E8 & E9).
    apply (woken_goto s); [done | done | by rewrite E9 | | by eapply lock_look; [| exact El | unfold scan_of; by rewrite Ep |]].
    intros _. eapply watches_goto; [exact Hw | rewrite Ep; carry | done | by intros k _ ?%elem_of_nil].
Qed.

Lemma woken_registering s c t ok w outer done : woken s -> pc (threads s t) = Registering w outer done -> woken (wait_step c t ok s).
Proof.
  intros H Ep. pose proof (woken_watches _ H t) as Hw. pose proof (woken_locks _ H) as Hl. unfold wait_step, ask_step, refuse_step, clean_step. rewrite Ep.
  destruct (koids w !! done) as [koid |] eqn:Ek.
  - destruct ok.
    + plain; [intros; apply elem_of_app; auto |].
      intros k Hb. cbn [registered]. rewrite (take_S_r _ _ _ Ek), elem_of_app, list_elem_of_singleton. intros [Hk | ->]; apply elem_of_app; [left | right; by left].
      apply (watches_registered _ _ _ _ _ _ Hw); [done | by rewrite Ep].
    + destruct (flagged w); plain.
  - plain. intros k Hb Hk. apply (watches_registered _ _ _ _ _ _ Hw); [done |].
    rewrite Ep. cbn in *. by rewrite take_ge by (by apply lookup_ge_None).
Qed.

Lemma woken_refused s c t ok w outer : woken s -> pc (threads s t) = Refused w outer -> woken (wait_step c t ok s).
Proof.
  intros H Ep. pose proof (woken_watches _ H t) as Hw. pose proof (woken_locks _ H) as Hl. unfold wait_step, ask_step, refuse_step, clean_step. rewrite Ep.
  case_bool_decide as Hb.
  - apply (woken_thread s _ t (with_pc (back outer) (with_state Running (threads s t)))); try done.
    + intros _. apply watches_fresh; cbn [pc with_pc state with_state]; [| by destruct outer | done].
      intros w' Hin. apply (watches_requests _ _ _ _ _ _ Hw). rewrite Ep. destruct outer; [| by apply elem_of_nil in Hin]. cbn in *. rewrite !elem_of_cons in *. tauto.
    + apply lock_keep; [done |]. unfold scan_of. rewrite Ep. by destruct outer.
  - destruct (flagged w); destruct outer; plain; by intros.
Qed.

Lemma woken_checking s c t ok w outer todo seen : woken s -> pc (threads s t) = Checking w outer todo seen -> woken (wait_step c t ok s).
Proof.
  intros H Ep. pose proof (woken_watches _ H t) as Hw. pose proof (woken_locks _ H) as Hl. unfold wait_step, ask_step, refuse_step, clean_step. rewrite Ep.
  destruct todo as [[| cond todo] |].
  - apply woken_away; [done | by rewrite Ep | done |]. intros [Hr Hu Hc Hg Hp]. rewrite Ep in *.
    constructor; cbn [pc with_pc state carried viewed registered looked] in *; try done.
  - destruct (truth s cond) eqn:Htr.
    + apply woken_away; [done | by rewrite Ep | done |]. intros _. eapply watches_goto; [exact Hw | rewrite Ep; carry | done |].
      intros k Hb Hk. apply (watches_registered _ _ _ _ _ _ Hw); [done | by rewrite Ep].
    + apply (woken_goto s); try done; [| apply lock_keep; [done | unfold scan_of; by rewrite Ep]]. intros [Hr Hu Hc Hg Hp]. rewrite Ep in *.
      constructor; cbn [pc with_pc state carried viewed registered looked] in *; try done.
      * intros w' conds cond' [= <- <-] Hin. apply (Hc w (cond :: todo ++ seen)); [done |]. rewrite elem_of_app, elem_of_cons in Hin. rewrite elem_of_cons, elem_of_app. tauto.
      * intros w' seen' cond' Hb [= <- <-] Hin Ht. apply elem_of_cons in Hin as [-> | Hin]; [congruence | by eapply Hp].
  - destruct (look (watch w) s) as [[conds s'] |] eqn:El; [| done].
    pose proof (look_same _ _ _ _ El) as (E1 & E2 & E3 & E4 & E5 & E6 & E7 & E8 & E9).
    apply (woken_goto s); [done | done | by rewrite E9 | | by eapply lock_look; [| exact El | unfold scan_of; by rewrite Ep |]].
    rewrite E9. intros [Hr Hu Hc Hg Hp]. rewrite Ep in *. rewrite (Hu w outer seen eq_refl) in *.
    constructor; cbn [pc with_pc state carried viewed registered looked] in *; try done.
    intros w' conds' cond' [= <- <-] Hin. rewrite app_nil_r in Hin. eapply look_connected; [done | | exact El | done]. apply Hr. by left.
Qed.

Lemma woken_found s c t ok w outer : woken s -> pc (threads s t) = Found w outer -> woken (wait_step c t ok s).
Proof.
  intros H Ep. pose proof (woken_watches _ H t) as Hw. pose proof (woken_locks _ H) as Hl. unfold wait_step, ask_step, refuse_step, clean_step. rewrite Ep.
  case_bool_decide as Hb.
  - apply (woken_thread s _ t (with_pc (Cleaning w outer 0) (with_state Running (threads s t)))); try done.
    + intros _. apply watches_fresh; cbn [pc with_pc state with_state]; [| done | done].
      intros w' Hin. apply (watches_requests _ _ _ _ _ _ Hw). by rewrite Ep.
    + apply lock_keep; [done |]. unfold scan_of. by rewrite Ep.
  - plain; by intros.
Qed.

Lemma woken_wait s c t ok : woken s -> woken (wait_step c t ok s).
Proof.
  intros H. pose proof (woken_watches _ H t) as Hw. pose proof (woken_locks _ H) as Hl.
  destruct (pc (threads s t)) eqn:Ep; try (by unfold wait_step, ask_step, refuse_step, clean_step; rewrite Ep);
    [| | by eapply woken_ask_ready | by eapply woken_registering | | by eapply woken_refused | | by eapply woken_checking | by eapply woken_found | | |]; unfold wait_step, ask_step, refuse_step, clean_step; rewrite Ep.
  - destruct (killed s _); plain.
  - destruct (truth s _); [plain |].
    destruct ok; [| plain].
    apply (woken_enter s); try done; [rewrite Ep; cbn; intros w'; rewrite !elem_of_cons, elem_of_nil; naive_solver |].
    apply lock_keep; [done | unfold scan_of; by rewrite Ep].
  - destruct (take _ (koids w) !! done); plain.
  - set (s' := if negb (deadline w =? NO_DEADLINE) && ok then _ else _). assert (same_tables s s' /\ locked s' = locked s /\ registry s' = registry s) as (A & B & C) by (unfold s'; by destruct (_ && _)).
    plain; [by rewrite C |]. rewrite C.
    intros k Hb Hk. apply (watches_registered _ _ _ _ _ _ Hw); [done | by rewrite Ep].
  - assert (woken (goto t (Switching w outer seen) s)) as H'.
    { apply (woken_goto s); try done; [| apply lock_keep; [done | unfold scan_of; by rewrite Ep]]. intros [Hr Hu Hc Hg Hp]. rewrite Ep in *.
      constructor; cbn [pc with_pc state carried viewed registered looked] in *; try done. }
    by apply woken_reschedule.
  - plain.
  - destruct (koids w !! done); [plain |].
    destruct (deadline w =? NO_DEADLINE); destruct outer; plain.
Qed.
