(* ===== verification/WaitsSets.v ===== *)
(** The wakes and the wait sets keep the invariant of [WaitsWakes]; the second look of a park. *)

From stdpp Require Import functions.
From S2P Require Import Prelude Waits WaitsHomes WaitsWakes.

(** ** Wakes *)

Lemma pending_insert ws i wk w cond :
  pending ws w cond -> (reaches (ws i) w cond -> reaches wk w cond) -> pending (<[i := wk]> ws) w cond.
Proof.
  intros [j Hj] Hi. destruct (decide (i = j)) as [<- | Hne].
  - exists i. rewrite fn_lookup_insert. by apply Hi.
  - exists j. by rewrite fn_lookup_insert_ne.
Qed.

Lemma woken_waker s i wk :
  woken s ->
  (forall t w seen cond, state (threads s t) = Blocked -> looked (pc (threads s t)) = Some (w, seen) ->
     (forall k, k ∈ koids w -> mkBucketWaiter t k ∈ registry s) -> connected (observers s) w cond ->
     reaches (wakers s i) w cond -> reaches wk w cond) ->
  woken (set_waker i wk s).
Proof.
  intros [Hw Hl Ht] Hr. constructor; [| done | done]. intros t. cbn.
  eapply watches_frame; [apply Hw | done | done |]. intros w seen cond Hb Hk Hin Hreg Hc Htr Hp.
  apply pending_insert; [by apply Hp |]. by eapply Hr.
Qed.

(** Threads that are blocked no longer. *)
Lemma woken_threads s ths reg :
  woken s -> (forall t, pc (ths t) = pc (threads s t)) ->
  (forall t, state (ths t) <> Blocked \/ ths t = threads s t /\ forall k, mkBucketWaiter t k ∈ registry s -> mkBucketWaiter t k ∈ reg) ->
  woken (set_registry reg (set_threads ths s)).
Proof.
  intros [Hw Hl Ht] Hpc Hst. constructor; [| | done].
  - intros t. cbn. destruct (Hst t) as [Hb | [-> Hreg]].
    + pose proof (watches_awake t (threads s t) (ths t) _ _ _ _ (Hw t) (Hpc t) Hb) as [Hr Hu Hc _ _]. constructor; try done.
    + eapply watches_frame; [apply Hw | apply Hreg | done |]. intros w seen cond _ _ _ _ _ Htr Hp. by apply Hp.
  - cbn. eapply lock_ok_ext; [| exact Hl]. intros t. unfold scan_of. by rewrite Hpc.
Qed.

(** A count of none is no observer. *)
Lemma no_observer s m set :
  woken s -> observer_count s = 0 -> mkSetObserver m set true ∈ observers s -> False.
Proof.
  intros [_ _ Ht] Hz Hin. rewrite (count_exact _ _ _ _ _ Ht) in Hz.
  assert (mkSetObserver m set true ∈ filter (fun o => counted o = true) (observers s)) as Hf by (by apply list_elem_of_filter).
  destruct (filter _ _); [by apply elem_of_nil in Hf | done].
Qed.

Lemma observer_set s m set : woken s -> mkSetObserver m set true ∈ observers s -> set ∈ take MAX_SETS_PER_OBJECT (sets_of m (observers s)).
Proof.
  intros [_ _ Ht] Hin. rewrite take_ge by apply (sets_bounded _ _ _ _ _ Ht). apply list_elem_of_fmap. exists (mkSetObserver m set true).
  split; [done |]. by apply list_elem_of_filter.
Qed.

(** A scan that claims nobody leaves nobody blocked under the koid. *)
Lemma drained s koid t w :
  (claim (fun e => w_koid e =? koid) w_thread BATCH (threads s) (registry s)).1.1 = [] ->
  state (threads s t) = Blocked -> (forall k, k ∈ koids w -> mkBucketWaiter t k ∈ registry s) -> koid ∈ koids w -> False.
Proof.
  intros He Hb Hreg Hk. destruct (claim_sound (fun e => w_koid e =? koid) w_thread BATCH (threads s) (registry s)) as [_ _ _ _ _ _ Hz].
  apply (Hz He ltac:(unfold BATCH; lia) (mkBucketWaiter t koid)); [by apply Hreg | apply Z.eqb_refl | done].
Qed.

Lemma woken_enqueue s c t : woken s -> woken (enqueue c t s).
Proof. intros H. unfold enqueue, enqueue_on. apply woken_core. by apply woken_awake. Qed.

Lemma woken_claim s want room :
  woken s -> woken (set_registry (claim want w_thread room (threads s) (registry s)).1.2 (set_threads (claim want w_thread room (threads s) (registry s)).2 s)).
Proof.
  intros H.
  destruct (claim_sound want w_thread room (threads s) (registry s)) as [_ Hb Ho Hk _ _ _].
  destruct (claim want w_thread room (threads s) (registry s)) as [[batch kept] ths]. cbn in *. apply woken_threads; [done | |].
  - intros t. destruct (decide (t ∈ batch)) as [Hin | Hn]; [by rewrite (proj2 (Hb t Hin)) | by rewrite Ho].
  - intros t. destruct (decide (t ∈ batch)) as [Hin | Hn]; [left; by rewrite (proj2 (Hb t Hin)) |]. right. split; [by apply Ho |].
    intros k Hin. by apply Hk.
Qed.

Lemma woken_timed s l : woken s -> woken (set_timed l s).
Proof. by intros []. Qed.

Lemma woken_claim_timed s want room :
  woken s -> woken (set_timed (claim want t_thread room (threads s) (timed s)).1.2 (set_threads (claim want t_thread room (threads s) (timed s)).2 s)).
Proof.
  intros H. destruct (claim_sound want t_thread room (threads s) (timed s)) as [_ Hb Ho _ _ _ _].
  destruct (claim want t_thread room (threads s) (timed s)) as [[batch kept] ths]. cbn in *. apply woken_timed.
  assert (woken (set_registry (registry s) (set_threads ths s))) as G.
  { apply woken_threads; [done | |]; intros t; (destruct (decide (t ∈ batch)) as [Hin | Hn]; [rewrite (proj2 (Hb t Hin)) | rewrite Ho by done]); auto. }
  by destruct G.
Qed.

(** A wake goes on to what it still has to reach. *)
Section reaching.
Context {s : Sched} {w : Request} {cond : Cond} (then_ : list Tid) (H : woken s) (Hc : connected (observers s) w cond).

Lemma reaches_alone : observer_count s = 0 -> reaches (Draining (koid_of cond) [] then_) w cond.
Proof using H Hc.
  intros Hz. unfold connected in Hc. cbn. destruct (watch w) as [| conds | set]; [done | by left |].
  destruct Hc as (_ & m & -> & Hobs). by destruct (no_observer s m set).
Qed.

Lemma reaches_sets : reaches (Draining (koid_of cond) (take MAX_SETS_PER_OBJECT (sets_of (koid_of cond) (observers s))) then_) w cond.
Proof using H Hc.
  unfold connected in Hc. cbn. destruct (watch w) as [| conds | set]; [done | by left |].
  destruct Hc as (_ & m & -> & Hobs). right. by apply observer_set.
Qed.

Lemma reaches_drained t koid sets :
  (claim (fun e => w_koid e =? koid) w_thread BATCH (threads s) (registry s)).1.1 = [] ->
  state (threads s t) = Blocked -> (forall k, k ∈ koids w -> mkBucketWaiter t k ∈ registry s) ->
  reaches (Draining koid sets then_) w cond -> reaches (match sets with [] => Rousing then_ | set :: sets => Draining set sets then_ end) w cond.
Proof using Hc.
  intros Hd Hb Hreg Hr. assert (koid ∈ koids w -> False) as Hno by (by eapply drained). unfold connected in Hc. cbn in Hr.
  destruct (watch w) as [| conds | set] eqn:Ew; [done | |]; apply elem_of_cons in Hr as [E | Hr].
  - destruct Hno. by rewrite <- E.
  - destruct sets as [| set sets]; [by apply elem_of_nil in Hr |]. cbn. by rewrite Ew.
  - destruct Hno. destruct Hc as (-> & _). subst. by left.
  - destruct sets as [| set' sets]; [by apply elem_of_nil in Hr |]. cbn. by rewrite Ew.
Qed.
End reaching.

Lemma woken_wake s i c : woken s -> woken (wake_step i c s).
Proof.
  intros H. unfold wake_step. destruct (wakers s i) eqn:Ei; [done | | | | | | | |].
  - destruct (Z.eqb_spec (observer_count s) 0) as [Hz | Hz]; apply woken_waker; try done; intros t w seen cond Hb Hl Hreg Hc Hr; rewrite Ei in Hr; cbn in Hr; subst; [| done].
    by apply (reaches_alone (s := s)).
  - apply woken_waker; [done |]. intros t w seen cond Hb Hl Hreg Hc Hr. rewrite Ei in Hr. cbn in Hr. subst. by apply reaches_sets.
  - pose proof (woken_claim s (fun e => w_koid e =? koid) BATCH H) as G.
    pose proof (fun w cond Hc t => reaches_drained (s := s) (w := w) (cond := cond) then_ Hc t koid sets) as Hd.
    destruct (claim (fun e => w_koid e =? koid) w_thread BATCH (threads s) (registry s)) as [[batch kept] ths]. cbn [fst snd] in G, Hd.
    destruct batch as [| t0 batch]; apply woken_waker; try done; intros t w seen cond Hb Hl Hreg Hc Hr; cbn in Hr; rewrite Ei in Hr; [by eapply Hd | done].
  - destruct batch as [| t batch]; [apply woken_waker; [done |]; intros t w seen cond _ _ _ _ Hr; by rewrite Ei in Hr |].
    destruct (sp (threads s t)); [| done]. apply woken_waker; [by apply woken_enqueue |]. intros t' w seen cond _ _ _ _ Hr. cbn in Hr. by rewrite Ei in Hr.
  - destruct then_ as [| t then_]; [apply woken_waker; [done |]; intros t w seen cond _ _ _ _ Hr; by rewrite Ei in Hr |].
    case_bool_decide; apply woken_waker; try done; [by apply woken_awake | |]; intros t' w seen cond _ _ _ _ Hr; cbn in Hr; by rewrite Ei in Hr.
  - destruct (sp (threads s thread)); [| done]. apply woken_waker; [by apply woken_enqueue |]. intros t' w seen cond _ _ _ _ Hr. cbn in Hr. by rewrite Ei in Hr.
  - pose proof (woken_claim_timed s (fun e => t_deadline e <=? at_) BATCH H) as G.
    destruct (claim (fun e => t_deadline e <=? at_) t_thread BATCH (threads s) (timed s)) as [[batch kept] ths]. cbn in G.
    destruct batch as [| t batch]; apply woken_waker; try done; intros t' w seen cond _ _ _ _ Hr; cbn in Hr; by rewrite Ei in Hr.
  - destruct batch as [| t batch]; [apply woken_waker; [done |]; intros t w seen cond _ _ _ _ Hr; by rewrite Ei in Hr |].
    destruct (sp (threads s t)); [| done]. apply woken_waker; [by apply woken_enqueue |]. intros t' w seen cond _ _ _ _ Hr. cbn in Hr. by rewrite Ei in Hr.
Qed.

(** ** Wait sets *)

Lemma lock_add scan ads lk j a set :
  lock_ok scan ads lk -> adding (ads j) = None -> lk set = false -> adding a = Some set -> lock_ok scan (<[j := a]> ads) (<[set := true]> lk).
Proof.
  intros [A B C D F] Hn Hfree E.
  assert (forall j' set', adding ((<[j := a]> ads : nat -> Adder) j') = Some set' -> j' = j /\ set' = set \/ j' <> j /\ adding (ads j') = Some set') as Ha.
  { intros j' set'. destruct (decide (j = j')) as [<- |]; [rewrite fn_lookup_insert, E | rewrite fn_lookup_insert_ne by done]; naive_solver. }
  assert (forall set', lk set' = true -> set' <> set) as Hne by congruence.
  constructor.
  - intros t set' Hs. pose proof (A _ _ Hs). by rewrite fn_lookup_insert_ne by (symmetry; auto).
  - intros j' set' [[-> ->] | [_ Hj]]%Ha; [by rewrite fn_lookup_insert |]. pose proof (B _ _ Hj). by rewrite fn_lookup_insert_ne by (symmetry; auto).
  - done.
  - intros j1 j2 set' [[-> ->] | [? H1]]%Ha [[-> ?] | [? H2]]%Ha; [done | | | by eapply D]; subst; [apply B in H2 | apply B in H1]; congruence.
  - intros t j' set' Hs [[-> ->] | [_ Hj]]%Ha; [apply A in Hs; congruence | by eapply F].
Qed.

Lemma lock_add_keep scan ads lk j a : lock_ok scan ads lk -> adding a = adding (ads j) -> lock_ok scan (<[j := a]> ads) lk.
Proof.
  intros [A B C D F] E. assert (forall j', adding ((<[j := a]> ads : nat -> Adder) j') = adding (ads j')) as Ha.
  { intros j'. destruct (decide (j = j')) as [<- |]; [by rewrite fn_lookup_insert | by rewrite fn_lookup_insert_ne]. }
  constructor; [done | | done | |]; intros *; rewrite !Ha; eauto.
Qed.

Lemma lock_add_drop scan ads lk j set :
  lock_ok scan ads lk -> adding (ads j) = Some set -> lock_ok scan (<[j := AtRest]> ads) (<[set := false]> lk).
Proof.
  intros [A B C D F] Hold.
  assert (forall j' set', adding ((<[j := AtRest]> ads : nat -> Adder) j') = Some set' -> j' <> j /\ adding (ads j') = Some set') as Ha.
  { intros j' set'. destruct (decide (j = j')) as [<- |]; [by rewrite fn_lookup_insert | rewrite fn_lookup_insert_ne by done; naive_solver]. }
  constructor.
  - intros t set' Hs. rewrite fn_lookup_insert_ne; [by eapply A |]. intros <-. by eapply F.
  - intros j' set' [Hj H']%Ha. rewrite fn_lookup_insert_ne; [by eapply B |]. intros <-. by apply Hj, (D j' j set).
  - done.
  - intros j1 j2 set' [_ H1]%Ha [_ H2]%Ha. by eapply D.
  - intros t j' set' Hs [_ Hj]%Ha. by eapply F.
Qed.

Section tables.
  Context (ads : nat -> Adder) (mem : Z -> list Z) (obs : list SetObserver) (count : Z) (acc : Z -> Z) (j : nat) (set m : Z).
  Hypothesis Ht : table_ok ads mem obs count acc.
  (** No other [add] holds the lock of [set]. *)
  Hypothesis Hone : forall j' m', ads j' = Pushed set m' \/ ads j' = Observed set m' -> j' = j.

Lemma adder_insert a j' : (<[j := a]> ads : nat -> Adder) j' = if decide (j = j') then a else ads j'.
Proof. destruct (decide (j = j')) as [<- |]; [by rewrite fn_lookup_insert | by rewrite fn_lookup_insert_ne]. Qed.

Lemma at_insert {A} (f : Z -> A) x set' : (<[set := x]> f : Z -> A) set' = if decide (set = set') then x else f set'.
Proof. destruct (decide (set = set')) as [<- |]; [by rewrite fn_lookup_insert | by rewrite fn_lookup_insert_ne]. Qed.

Lemma table_push :
  ads j = AtRest -> m ∉ mem set -> (length (mem set) < MAX_WAIT_SET_MEMBERS)%nat ->
  table_ok (<[j := Pushed set m]> ads) (<[set := mem set ++ [m]]> mem) obs count (<[set := acc set + 1]> acc).
Proof.
  intros Hj Hm Hroom. pose proof Ht as [T1 T2 T3 T4 T5 T6 T7 T8 T9 T10 T11]. constructor; try done.
  - intros set' m'. rewrite at_insert. setoid_rewrite adder_insert. intros Hin.
    assert (m' ∈ mem set' \/ set = set' /\ m' = m) as [Hold | [<- ->]].
    { destruct (decide (set = set')) as [<- |]; [rewrite elem_of_app, list_elem_of_singleton in Hin |]; tauto. }
    + destruct (T1 set' m' Hold) as [? | (j' & Hj')]; [by left | right]. exists j'. destruct (decide (j = j')) as [<- |]; [destruct Hj'; congruence | done].
    + right. exists j. destruct (decide (j = j)); [by left | done].
  - intros o Ho. rewrite at_insert. destruct (decide (set = set_koid o)) as [-> |]; [apply elem_of_app; left |]; by apply T2.
  - intros o Ho Hc. destruct (T3 o Ho Hc) as [j' Hj']. exists j'. rewrite adder_insert. destruct (decide (j = j')); congruence.
  - intros j' set' m'. rewrite adder_insert, at_insert. destruct (decide (j = j')) as [<- | Hne].
    + intros [= <- <-]. destruct (decide (set = set)); [| done]. split; [by eexists |]. intros o Ho [= <- Hs]. apply Hm. rewrite <- Hs. by apply T2.
    + intros Hp. destruct (decide (set = set')) as [<- |]; [destruct Hne; symmetry; apply (Hone j' m'); by left | by eapply T4].
  - intros j' set' m'. rewrite adder_insert. destruct (decide (j = j')); [done | apply T5].
  - intros set'. rewrite at_insert. destruct (decide (set = set')) as [<- |]; [| done]. apply NoDup_app. split; [done |].
    split; [intros x Hx ->%list_elem_of_singleton; done | apply NoDup_singleton].
  - intros set'. rewrite !at_insert. destruct (decide (set = set')) as [<- |]; [| done]. rewrite length_app, T10. cbn. lia.
  - intros set'. rewrite at_insert. destruct (decide (set = set')) as [<- |]; [| done]. rewrite length_app. cbn. lia.
Qed.

Lemma table_rollback :
  ads j = Pushed set m ->
  table_ok (<[j := AtRest]> ads) (<[set := removelast (mem set)]> mem) obs count (<[set := acc set - 1]> acc).
Proof.
  intros Hj. pose proof Ht as [T1 T2 T3 T4 T5 T6 T7 T8 T9 T10 T11]. destruct (T4 j set m Hj) as [[l Hl] Hno].
  pose proof (T7 set) as Hnd. rewrite Hl in Hnd. apply NoDup_app in Hnd as (Hnd & Hml & _).
  assert (m ∉ l) as Hm by (intros Hin; apply (Hml m Hin); by left). rewrite Hl, removelast_last. constructor; try done.
  - intros set' m'. rewrite at_insert. setoid_rewrite adder_insert. intros Hin.
    assert (m' ∈ mem set') as Hold by (destruct (decide (set = set')) as [<- |]; [rewrite Hl; apply elem_of_app; by left | done]).
    destruct (T1 set' m' Hold) as [? | (j' & Hj')]; [by left | right]. exists j'. destruct (decide (j = j')) as [<- |]; [| done].
    destruct Hj' as [Hj' | Hj']; [| congruence]. rewrite Hj in Hj'. injection Hj' as <- <-. destruct (decide (set = set)); [done | done].
  - intros o Ho. rewrite at_insert. destruct (decide (set = set_koid o)) as [E |]; [| by apply T2]. pose proof (T2 o Ho) as Hin. rewrite <- E, Hl in Hin.
    apply elem_of_app in Hin as [? | Em%list_elem_of_singleton]; [done |]. destruct (Hno o Ho). unfold pair_of. congruence.
  - intros o Ho Hc. destruct (T3 o Ho Hc) as [j' Hj']. exists j'. rewrite adder_insert. destruct (decide (j = j')); congruence.
  - intros j' set' m'. rewrite adder_insert, at_insert. destruct (decide (j = j')) as [<- | Hne]; [done |].
    intros Hp. destruct (decide (set = set')) as [<- |]; [destruct Hne; symmetry; apply (Hone j' m'); by left | by eapply T4].
  - intros j' set' m'. rewrite adder_insert. destruct (decide (j = j')); [done | apply T5].
  - intros set'. rewrite at_insert. by destruct (decide (set = set')) as [<- |].
  - intros set'. rewrite !at_insert. destruct (decide (set = set')) as [<- |]; [| done]. rewrite T10, Hl, length_app. cbn. lia.
  - intros set'. rewrite at_insert. destruct (decide (set = set')) as [<- |]; [| done]. specialize (T11 set). rewrite Hl, length_app in T11. lia.
Qed.

Lemma table_observe :
  ads j = Pushed set m -> (length (sets_of m obs) < MAX_SETS_PER_OBJECT)%nat ->
  table_ok (<[j := Observed set m]> ads) mem (obs ++ [mkSetObserver m set false]) count acc.
Proof.
  intros Hj Hlim. pose proof Ht as [T1 T2 T3 T4 T5 T6 T7 T8 T9 T10 T11]. destruct (T4 j set m Hj) as [[l Hl] Hno]. constructor; try done.
  - intros set' m' Hin. setoid_rewrite adder_insert. destruct (T1 set' m' Hin) as [? | (j' & Hj')]; [left; apply elem_of_app; by left | right].
    exists j'. destruct (decide (j = j')) as [<- |]; [| done]. destruct Hj' as [Hj' | Hj']; [| congruence]. rewrite Hj in Hj'. injection Hj' as <- <-. by right.
  - intros o [Ho | ->%list_elem_of_singleton]%elem_of_app; [by apply T2 |]. cbn. rewrite Hl. apply elem_of_app. right. by left.
  - intros o [Ho | ->%list_elem_of_singleton]%elem_of_app Hc; [destruct (T3 o Ho Hc) as [j' Hj']; exists j'; rewrite adder_insert; destruct (decide (j = j')); congruence |].
    exists j. rewrite adder_insert. by destruct (decide (j = j)).
  - intros j' set' m'. rewrite adder_insert. destruct (decide (j = j')) as [<- | Hne]; [done |]. intros Hp. destruct (T4 j' set' m' Hp) as [? Hno']. split; [done |].
    intros o [Ho | ->%list_elem_of_singleton]%elem_of_app; [by apply Hno' |]. intros [= <- <-]. destruct Hne. symmetry. apply (Hone j' m). by left.
  - intros j' set' m'. rewrite adder_insert, elem_of_app. destruct (decide (j = j')) as [<- | Hne]; [intros [= <- <-]; right; by left | intros Hp; left; by eapply T5].
  - rewrite fmap_app. apply NoDup_app. split; [done |]. split; [| apply NoDup_singleton]. intros p (o & -> & Ho)%list_elem_of_fmap Ep%list_elem_of_singleton. by apply (Hno o Ho).
  - rewrite filter_app, filter_cons_False, filter_nil, app_nil_r by done. exact T8.
  - intros m'. specialize (T9 m'). unfold sets_of in *. rewrite filter_app, fmap_app, length_app, filter_cons, filter_nil. cbn [member_koid].
    destruct (decide (m = m')) as [<- |]; cbn; lia.
Qed.

Lemma settle_other o : pair_of o <> (m, set) -> settle_observer set m o = o.
Proof. intros Hne. unfold settle_observer. case_bool_decide as Hb; [destruct Hne; unfold pair_of; naive_solver | done]. Qed.

Lemma settle_pair o : pair_of (settle_observer set m o) = pair_of o.
Proof. unfold settle_observer. case_bool_decide as Hb; [destruct Hb; unfold pair_of; cbn; congruence | done]. Qed.

(** The observer of the pair, between those that stay as they are. *)
Lemma settle_split :
  ads j = Observed set m ->
  exists l1 l2, obs = l1 ++ mkSetObserver m set false :: l2 /\ settle_observer set m <$> obs = l1 ++ mkSetObserver m set true :: l2.
Proof.
  intros Hj. pose proof (observed_listed _ _ _ _ _ Ht j set m Hj) as Hin. pose proof (observers_once _ _ _ _ _ Ht) as Hnd.
  apply list_elem_of_split in Hin as (l1 & l2 & E). exists l1, l2. split; [done |]. rewrite E in Hnd |- *. rewrite fmap_app, fmap_cons in Hnd. rewrite fmap_app, fmap_cons.
  apply NoDup_app in Hnd as (_ & H1 & Hnd). apply NoDup_cons in Hnd as [H2 _].
  assert (forall l : list SetObserver, (forall o, o ∈ l -> pair_of o <> (m, set)) -> settle_observer set m <$> l = l) as Hid.
  { intros l. induction l as [| o l IH]; intros Hl; [done |]. rewrite fmap_cons, IH, settle_other; [done | apply Hl; by left | intros o' ?; apply Hl; by right]. }
  rewrite !Hid.
  - unfold settle_observer. by rewrite bool_decide_eq_true_2 by done.
  - intros o Ho Hp. apply H2. change (pair_of (mkSetObserver m set false)) with (m, set). rewrite <- Hp. by apply list_elem_of_fmap_2.
  - intros o Ho Hp. apply (H1 (pair_of o)); [by apply list_elem_of_fmap_2 |]. rewrite Hp. by left.
Qed.

Lemma table_settle :
  ads j = Observed set m -> table_ok (<[j := AtRest]> ads) mem (settle_observer set m <$> obs) (count + 1) acc.
Proof.
  intros Hj. pose proof Ht as [T1 T2 T3 T4 T5 T6 T7 T8 T9 T10 T11]. destruct (settle_split Hj) as (l1 & l2 & E & E').
  assert (forall o, o ∈ settle_observer set m <$> obs -> o = mkSetObserver m set true \/ o ∈ obs /\ pair_of o <> (m, set)) as Hfrom.
  { intros o (o' & -> & Ho)%list_elem_of_fmap. destruct (decide (pair_of o' = (m, set))) as [Hp | Hp]; [left | right; by rewrite settle_other].
    unfold settle_observer. injection Hp as Hm Hs. by rewrite bool_decide_eq_true_2. }
  assert (forall o, o ∈ obs -> counted o = true -> o ∈ settle_observer set m <$> obs) as Hkeep.
  { intros o Ho Hc. rewrite E'. rewrite E in Ho. rewrite elem_of_app, elem_of_cons in *. destruct Ho as [? | [-> | ?]]; [auto | discriminate Hc | auto]. }
  constructor; try done.
  - intros set' m' Hin. setoid_rewrite adder_insert. destruct (T1 set' m' Hin) as [? | (j' & Hj')]; [left; by apply Hkeep |].
    destruct (decide (j = j')) as [<- | Hne]; [left | right; exists j'; by destruct (decide (j = j'))].
    destruct Hj' as [Hj' | Hj']; [congruence |]. rewrite Hj in Hj'. injection Hj' as <- <-. rewrite E'. apply elem_of_app. right. by left.
  - intros o [-> | [Ho _]]%Hfrom; [| by apply T2]. apply (T2 _ (T5 j set m Hj)).
  - intros o [-> | [Ho Hp]]%Hfrom Hc; [done |]. destruct (T3 o Ho Hc) as [j' Hj']. exists j'. rewrite adder_insert.
    destruct (decide (j = j')) as [<- |]; [| done]. destruct Hp. unfold pair_of. congruence.
  - intros j' set' m'. rewrite adder_insert. destruct (decide (j = j')) as [<- | Hne]; [done |]. intros Hp. destruct (T4 j' set' m' Hp) as [? Hno']. split; [done |].
    intros o (o' & -> & Ho)%list_elem_of_fmap. rewrite settle_pair. by apply Hno'.
  - intros j' set' m'. rewrite adder_insert. destruct (decide (j = j')) as [<- | Hne]; [done |]. intros Hp. pose proof (T5 j' set' m' Hp) as Ho.
    apply list_elem_of_fmap. exists (mkSetObserver m' set' false). split; [| done]. symmetry. apply settle_other. intros [= -> ->]. destruct Hne. symmetry. apply (Hone j' m). by right.
  - rewrite <- list_fmap_compose. replace (pair_of ∘ settle_observer set m <$> obs) with (pair_of <$> obs); [done |]. apply list_fmap_ext. intros i o _. symmetry. apply settle_pair.
  - rewrite E'. rewrite E in T8. rewrite T8, !filter_app, filter_cons_False, filter_cons_True, !length_app by done. cbn [length]. lia.
  - intros m'. specialize (T9 m'). rewrite E'. rewrite E in T9. unfold sets_of in *. rewrite filter_app, filter_cons, fmap_app, length_app in T9. rewrite filter_app, filter_cons, fmap_app, length_app. cbn [member_koid] in *.
    by destruct (decide (m = m')).
Qed.
End tables.

Lemma filter_counted (P : SetObserver -> Prop) `{!forall o, Decision (P o)} (l : list SetObserver) :
  (forall o, o ∈ l -> ~ P o -> counted o = true) ->
  Z.of_nat (length (filter (fun o => counted o = true) (filter P l))) =
  Z.of_nat (length (filter (fun o => counted o = true) l)) - (Z.of_nat (length l) - Z.of_nat (length (filter P l))).
Proof.
  induction l as [| o l IH]; intros Hc; [done |]. specialize (IH (fun o' Ho => Hc o' (list_elem_of_further _ _ _ Ho))). rewrite !filter_cons.
  destruct (decide (P o)) as [Hp | Hp].
  - rewrite filter_cons. destruct (decide (counted o = true)); cbn [length]; lia.
  - destruct (decide (counted o = true)) as [| Hno]; [cbn [length]; lia |]. destruct Hno. apply Hc; [by left | done].
Qed.

Lemma filter_filter_sublist {A} (P Q : A -> Prop) `{!forall x, Decision (P x), !forall x, Decision (Q x)} (l : list A) :
  filter P (filter Q l) `sublist_of` filter P l.
Proof.
  induction l as [| x l IH]; [done |]. rewrite !filter_cons. destruct (decide (Q x)).
  - rewrite filter_cons. destruct (decide (P x)); [by constructor | done].
  - destruct (decide (P x)); [by constructor | done].
Qed.

Lemma table_remove ads mem obs count acc set m :
  table_ok ads mem obs count acc -> (forall j, adding (ads j) <> Some set) ->
  let kept := filter (fun o => ~ (member_koid o = m /\ set_koid o = set)) obs in
  let left_ := filter (fun x => x <> m) (mem set) in
  table_ok ads (<[set := left_]> mem) kept (count - (Z.of_nat (length obs) - Z.of_nat (length kept)))
    (<[set := acc set - (Z.of_nat (length (mem set)) - Z.of_nat (length left_))]> acc).
Proof.
  intros [T1 T2 T3 T4 T5 T6 T7 T8 T9 T10 T11] Hfree kept left_.
  assert (forall o, o ∈ kept <-> o ∈ obs /\ pair_of o <> (m, set)) as Hk.
  { intros o. unfold kept, pair_of. rewrite list_elem_of_filter. split; [intros [? ?]; split; [done | intros [= ? ?]; tauto] | intros [? Hp]; split; [intros [? ?]; congruence | done]]. }
  assert (forall j m', ads j <> Pushed set m' /\ ads j <> Observed set m') as Hnone.
  { intros j m'. specialize (Hfree j). split; intros E; rewrite E in Hfree; done. }
  constructor; try done.
  - intros set' m'. rewrite at_insert, Hk. destruct (decide (set = set')) as [<- | Hne].
    + intros [Hnm Hin]%list_elem_of_filter. destruct (T1 set m' Hin) as [? | (j' & Hj')]; [left; split; [done | by intros [= ->]] | right; by exists j'].
    + intros Hin. destruct (T1 set' m' Hin) as [? | (j' & Hj')]; [left; split; [done |] | right; by exists j']. unfold pair_of. cbn. congruence.
  - intros o [Ho Hp]%Hk. rewrite at_insert. destruct (decide (set = set_koid o)) as [E |]; [| by apply T2]. apply list_elem_of_filter.
    split; [| rewrite E; by apply T2]. intros E'. apply Hp. unfold pair_of. congruence.
  - intros o [Ho _]%Hk. by apply T3.
  - intros j set' m' Hp. destruct (T4 j set' m' Hp) as [Hl Hno]. split; [| intros o [Ho _]%Hk; by apply Hno]. rewrite at_insert.
    destruct (decide (set = set')) as [<- |]; [by destruct (Hnone j m') | done].
  - intros j set' m' Ho. apply Hk. split; [by eapply T5 |]. unfold pair_of. cbn. intros [= -> ->]. by destruct (Hnone j m).
  - unfold kept. eapply sublist_NoDup; [exact T6 | apply fmap_sublist, sublist_filter].
  - intros set'. rewrite at_insert. destruct (decide (set = set')) as [<- |]; [by apply NoDup_filter | done].
  - rewrite T8. unfold kept. rewrite filter_counted; [done |]. intros o Ho Hp. destruct (counted o) eqn:Hc; [done |]. apply dec_stable in Hp as [<- <-].
    destruct (T3 o Ho Hc) as [j' Hj']. by destruct (Hnone j' (member_koid o)).
  - intros m'. etrans; [| apply (T9 m')]. unfold sets_of, kept. apply sublist_length, fmap_sublist, filter_filter_sublist.
  - intros set'. rewrite !at_insert. destruct (decide (set = set')) as [<- |]; [| done]. rewrite T10. lia.
  - intros set'. rewrite at_insert. destruct (decide (set = set')) as [<- |]; [| done]. pose proof (length_filter (fun x => x <> m) (mem set)). specialize (T11 set). unfold left_. lia.
Qed.

(** Observers that are counted stay. *)
Lemma watches_observers s obs :
  woken s -> (forall m set, mkSetObserver m set true ∈ observers s -> mkSetObserver m set true ∈ obs) ->
  forall t, watches t (threads s t) (registry s) obs (truth s) (wakers s).
Proof.
  intros [Hw _ _] Hobs t. eapply watches_frame; [apply Hw | done | | intros w seen cond _ _ _ _ _ Htr Hp; by apply Hp].
  intros w conds cond _ _. unfold connected. destruct (watch w); [done | done |]. naive_solver.
Qed.

Lemma one_adder s j set : woken s -> adding (adders s j) = Some set -> forall j' m', adders s j' = Pushed set m' \/ adders s j' = Observed set m' -> j' = j.
Proof. intros [_ Hl _] Ha j' m' Hj'. apply (one_add _ _ _ Hl j' j set); [by destruct Hj' as [-> | ->] | done]. Qed.

Lemma no_adder s set : woken s -> locked s set = false -> forall j, adding (adders s j) <> Some set.
Proof. intros [_ Hl _] Hf j Ha. apply (add_locked _ _ _ Hl) in Ha. congruence. Qed.

Lemma woken_add s j set member is_set reserved charged : woken s -> woken (add j set member is_set reserved charged s).
Proof.
  intros H. unfold add. destruct (adders s j) eqn:Ej; try done. destruct (is_set || locked s set) eqn:Hl; [done |]. apply orb_false_iff in Hl as [_ Hl].
  case_bool_decide as Hm; [done |]. destruct (_ || _ || _) eqn:Hroom; [done |]. apply orb_false_iff in Hroom as [[Hroom _]%orb_false_iff _].
  apply Nat.leb_gt in Hroom. pose proof (no_adder s set H Hl) as Hno. constructor; cbn.
  - apply H.
  - apply lock_add; [apply H | by rewrite Ej | done | done].
  - apply table_push; [apply H | | done | done | done]. intros j' m' Hj'. destruct (Hno j'). by destruct Hj' as [-> | ->].
Qed.

Lemma woken_add_step s j ok : woken s -> woken (add_step j ok s).
Proof.
  intros H. unfold add_step. destruct (adders s j) as [| set member | set member] eqn:Ej; [done | |].
  - assert (adding (adders s j) = Some set) as Ha by (by rewrite Ej). pose proof (one_adder s j set H Ha) as Hone.
    destruct (Nat.leb_spec MAX_SETS_PER_OBJECT (length (sets_of member (observers s)))) as [? | Hlim]; [| destruct ok]; constructor; cbn.
    + apply H.
    + apply lock_add_drop; [apply H | done].
    + eapply table_rollback; [apply H | exact Hone | exact Ej].
    + apply watches_observers; [done |]. intros. apply elem_of_app. by left.
    + apply lock_add_keep; [apply H | done].
    + apply table_observe; [apply H | exact Hone | exact Ej | lia].
    + apply H.
    + apply lock_add_drop; [apply H | done].
    + eapply table_rollback; [apply H | exact Hone | exact Ej].
  - assert (adding (adders s j) = Some set) as Ha by (by rewrite Ej). pose proof (one_adder s j set H Ha) as Hone. constructor; cbn.
    + apply watches_observers; [done |]. intros m set' Hin. apply list_elem_of_fmap. eexists. split; [| exact Hin]. unfold settle_observer. case_bool_decide as Hb; [| done].
      destruct Hb as [E1 E2]. cbn in *. by subst.
    + apply lock_add_drop; [apply H | done].
    + apply table_settle; [apply H | exact Hone | exact Ej].
Qed.

(** A thread keeps watching what a removal leaves. *)
Lemma watches_forget t th reg obs tr ws set m :
  watches t th reg obs tr ws -> scanning (pc th) <> Some set ->
  watches t (forget set m th) reg (filter (fun o => ~ (member_koid o = m /\ set_koid o = set)) obs) tr ws.
Proof.
  intros [Hr Hu Hc Hg Hp] Hsc. set (obs' := filter _ obs).
  assert (forall w cond, connected obs w cond -> watch w = Members set /\ cond = ReadyObject m \/ connected obs' w cond) as Hcon.
  { intros w cond. unfold connected. destruct (watch w) as [| | set']; [done | by right |]. intros (Hk & m' & -> & Hin).
    destruct (decide (m' = m /\ set' = set)) as [[-> ->] | Hne]; [by left | right]. split; [done |]. exists m'. split; [done |]. by apply list_elem_of_filter. }
  assert (forall w (seen : list Cond), (forall cond, cond ∈ seen -> connected obs w cond) -> watch w <> Members set -> forall cond, cond ∈ seen -> connected obs' w cond) as Hother.
  { intros w seen Hs Hw cond Hin. destruct (Hcon w cond (Hs cond Hin)) as [[? _] | ?]; done. }
  assert (forall w (seen : list Cond), (forall cond, cond ∈ seen -> connected obs w cond) -> forall cond, cond ∈ filter (fun c => c <> ReadyObject m) seen -> connected obs' w cond) as Hfil.
  { intros w seen Hs cond [Hne Hin]%list_elem_of_filter. destruct (Hcon w cond (Hs cond Hin)) as [[_ ?] | ?]; done. }
  unfold forget. destruct (pc th) as [| | | | | | | | w outer [todo |] seen | | w outer seen | w outer seen | w outer seen |] eqn:Ep;
    try (constructor; rewrite ?Ep in *; done).
  { constructor; rewrite ?Ep; try done. cbn [viewed]. intros w' conds cond [= <- <-] Hin. eapply Hother; [by intros; eapply Hc | | exact Hin].
    intros Ew. apply Hsc. cbn. by rewrite Ew. }
  { constructor; rewrite ?Ep; try done. cbn [viewed]. intros w' conds cond [= <- <-] Hin. rewrite (Hu w outer seen eq_refl) in Hin. by apply elem_of_nil in Hin. }
  all: case_bool_decide as Hb; constructor; cbn [with_pc pc state]; rewrite ?Ep; cbn [carried viewed registered looked] in *; try done; intros w' conds cond;
    first [ intros Hst [= <- <-] [_ Hin]%list_elem_of_filter; by apply (Hp w seen)
          | intros [= <- <-]; apply Hfil; by intros; apply (Hc w seen)
          | intros [= <- <-]; apply Hother; [by intros; apply (Hc w seen) | done] ].
Qed.

Lemma scanning_forget set m th : scanning (pc (forget set m th)) = scanning (pc th).
Proof. unfold forget. destruct (pc th) eqn:Ep; rewrite ?Ep; try done; case_bool_decide; by rewrite ?Ep. Qed.

Lemma woken_remove s set member : woken s -> woken (remove set member s).
Proof.
  intros H. unfold remove. destruct (locked s set) eqn:Hl; [done |]. cbn [orb]. destruct (negb _); [done |]. constructor; cbn.
  - intros t. apply watches_forget; [apply H |]. intros Hs. apply (scan_locked _ _ _ (woken_locks _ H) t) in Hs. congruence.
  - eapply lock_ok_ext; [| apply H]. intros t. apply scanning_forget.
  - apply table_remove; [apply H | by apply no_adder].
Qed.

(** ** Every action keeps [woken] *)

Lemma woken_save s t : woken s -> woken (save t s).
Proof.
  intros H. unfold save. destruct (pc (threads s t)) eqn:Ep; try done. apply (woken_thread s _ t (with_sp true (with_pc (Parked w outer seen) (threads s t)))); try done.
  - intros [Hr Hu Hc Hg Hp]. rewrite Ep in *. by constructor.
  - apply lock_keep; [apply H | unfold scan_of; by rewrite Ep].
Qed.

Lemma woken_yield s c idle : woken s -> woken (yield c idle s).
Proof.
  intros H. unfold yield. destruct (current (cores s c)) as [t |]; [| done]. destruct (negb _); [done |]. destruct idle.
  - by apply woken_core, woken_awake.
  - destruct (queue (cores s c)) as [| next q]; [by apply woken_core, woken_awake |]. apply woken_core, woken_awake; [by apply woken_awake | done | done].
Qed.

Lemma woken_retire s c : woken s -> woken (retire c s).
Proof.
  intros H. unfold retire. destruct (current (cores s c)) as [t |]; [| done]. destruct (negb _); [done |].
  assert (woken (set_thread t (with_sp true (with_state Exited (threads s t))) s)) as H' by (by apply woken_awake).
  destruct (queue (cores s c)) as [| next q]; [by apply woken_core |]. by apply woken_core, woken_awake.
Qed.

Lemma woken_start s t place c : woken s -> woken (start t place c s).
Proof. intros H. unfold start, enqueue_on. destruct (started _); [done |]. by apply woken_core, woken_awake. Qed.

(** A wake that begins. *)
Lemma woken_begin s i wk : woken s -> wakers s i = Rested -> woken (set_waker i wk s).
Proof. intros H Ei. apply woken_waker; [done |]. intros t w seen cond _ _ _ _ Hr. by rewrite Ei in Hr. Qed.

Lemma woken_signal s i cond :
  woken s -> wakers s i = Rested -> woken (set_waker i (Waking (koid_of cond) []) (set_truth (<[cond := true]> (truth s)) s)).
Proof.
  intros [Hw Hl Ht] Ei. constructor; [| done | done]. intros t. cbn. eapply watches_frame; [apply Hw | done | done |].
  intros w seen cond' _ _ _ _ _ Htr Hp. destruct (decide (cond = cond')) as [<- | Hne].
  - exists i. by rewrite fn_lookup_insert.
  - rewrite fn_lookup_insert_ne in Htr by done. apply pending_insert; [by apply Hp | by rewrite Ei].
Qed.

Lemma woken_withdraw s cond : woken s -> woken (set_truth (<[cond := false]> (truth s)) s).
Proof.
  intros [Hw Hl Ht]. constructor; [| done | done]. intros t. cbn. eapply watches_frame; [apply Hw | done | done |].
  intros w seen cond' _ _ _ _ _ Htr Hp. destruct (decide (cond = cond')) as [<- | Hne]; [by rewrite fn_lookup_insert in Htr |].
  rewrite fn_lookup_insert_ne in Htr by done. by apply Hp.
Qed.

Lemma woken_other s k n : woken s -> woken (set_killed k s) /\ woken (set_now n s).
Proof. by intros []. Qed.

Lemma woken_step s a : woken s -> woken (sched_step a s).
Proof.
  intros H. destruct a; cbn [sched_step].
  - destruct (current (cores s c)) as [t |]; [| done]. destruct (pc (threads s t)) eqn:Ep; try done. cbn [preemptible andb].
    destruct (request_ok w) eqn:Hr; [| done]. apply (woken_plain s); try done; rewrite ?Ep; try done; [| by intros k _ ?%elem_of_nil].
    cbn. intros w'. rewrite elem_of_cons, elem_of_nil. naive_solver.
  - destruct (current (cores s c)) as [t |]; [| done]. destruct (pc (threads s t)) eqn:Ep; try done. cbn [preemptible andb].
    destruct (request_ok w) eqn:Hr; [| done]. apply (woken_enter s); try done.
    + cbn. intros w'. rewrite elem_of_cons, elem_of_nil. naive_solver.
    + apply lock_keep; [apply H | unfold scan_of; by rewrite Ep].
  - destruct (current (cores s c)) as [t |]; [by apply woken_wait | done].
  - by apply woken_save.
  - by apply woken_yield.
  - by apply woken_retire.
  - unfold pick. destruct (current (cores s c)); [done | by apply woken_reschedule].
  - by apply woken_start.
  - destruct (wakers s i) eqn:Ei; try done. by apply woken_signal.
  - by apply woken_withdraw.
  - unfold begin_wake. destruct (wakers s i) eqn:Ei; try done. by apply woken_begin.
  - unfold begin_wake. destruct (wakers s i) eqn:Ei; try done. by apply woken_begin.
  - destruct (wakers s i) eqn:Ei; try done. apply woken_begin; [by apply (woken_other s _ 0) | done].
  - unfold begin_wake. destruct (wakers s i) eqn:Ei; try done. by apply woken_begin.
  - by apply woken_wake.
  - by apply (woken_other s (killed s)).
  - by apply woken_add.
  - by apply woken_add_step.
  - by apply woken_remove.
Qed.

Lemma woken_boot process_of koid_of_process : woken (boot process_of koid_of_process).
Proof.
  constructor; cbn.
  - intros t. apply watches_fresh; cbn; [by intros w ?%elem_of_nil | done | done].
  - constructor; done.
  - constructor; cbn; try done; try (by intros *; rewrite elem_of_nil); try (intros; constructor). all: intros; unfold MAX_SETS_PER_OBJECT, MAX_WAIT_SET_MEMBERS; lia.
Qed.

Lemma woken_run l s : woken s -> woken (run l s).
Proof. revert s. induction l as [| a l IH]; intros s H; [done |]. by apply IH, woken_step. Qed.

(** * The second look of a park is a whole one: a thread that stays blocked past it saw every
    condition of its request false after it had registered. *)

Definition all_in (w : Request) (l : list Cond) : Prop :=
  match watch w with Any conds => forall cond, cond ∈ conds -> cond ∈ l | _ => True end.

Definition looked_all (th : Thread) : Prop :=
  match pc th with
  | Checking w _ (Some todo) seen => all_in w (todo ++ seen)
  | Leaving w _ seen | Switching w _ seen | Parked w _ seen => state th = Blocked -> all_in w seen
  | _ => True
  end.

(** What becomes of a thread at the hands of others: the same place, blocked no longer. *)
Lemma looked_awake th th' : looked_all th -> pc th' = pc th -> state th' <> Blocked -> looked_all th'.
Proof. unfold looked_all. intros H -> Hb. by destruct (pc th). Qed.

Section steps.
Implicit Type s : Sched.

Definition all_looked s : Prop := forall t, looked_all (threads s t).

Lemma looked_insert s t th : all_looked s -> looked_all th -> forall t', looked_all ((<[t := th]> (threads s) : Tid -> Thread) t').
Proof. intros H Hth t'. destruct (decide (t = t')) as [<- | Hne]; [by rewrite fn_lookup_insert | by rewrite fn_lookup_insert_ne]. Qed.

Lemma looked_set s t th : all_looked s -> looked_all th -> all_looked (set_thread t th s).
Proof. intros H Hth. exact (looked_insert s t th H Hth). Qed.

Lemma looked_wake_up s t th : all_looked s -> pc th = pc (threads s t) -> state th <> Blocked -> all_looked (set_thread t th s).
Proof. intros H Ep Hb. apply looked_set; [done |]. by eapply looked_awake. Qed.

Lemma looked_goto s s' t p : all_looked s -> threads s' = threads s -> looked_all (with_pc p (threads s t)) -> all_looked (goto t p s').
Proof. intros H E Hp. intros t'. unfold goto. cbn. rewrite E. by apply looked_insert. Qed.

Lemma looked_reschedule s c : all_looked s -> all_looked (reschedule_block c s).
Proof. intros H. unfold reschedule_block. destruct (queue (cores s c)) as [| next q]; [done |]. by apply (looked_wake_up s). Qed.

Lemma look_threads w s conds s' : look w s = Some (conds, s') -> threads s' = threads s.
Proof. intros (E & _ & _)%look_homes. done. Qed.

Lemma away_threads w s : threads (look_away w s) = threads s.
Proof. by destruct (look_away_homes w s). Qed.

Ltac moves := match goal with H : all_looked ?s |- _ => apply (looked_goto s); [exact H | first [reflexivity | apply away_threads | assumption] | try done] end.

Lemma looked_wait s c t ok : all_looked s -> all_looked (wait_step c t ok s).
Proof.
  intros H. pose proof (H t) as Hth. unfold wait_step, ask_step, refuse_step, clean_step. destruct (pc (threads s t)) eqn:Ep; try done; unfold looked_all in Hth; rewrite Ep in Hth.
  - destruct (killed _ _); by moves.
  - destruct (truth _ _); [by moves |]. destruct ok; [by apply looked_set | by moves].
  - destruct todo as [[| cond todo] |].
    + destruct (_ && _); [by moves |]. destruct ok; [| by moves]. intros t'. cbn. rewrite away_threads. by apply looked_insert.
    + destruct (truth _ _); by moves.
    + destruct (look _ s) as [[conds s'] |] eqn:El; [| done]. apply look_threads in El. by moves.
  - destruct (koids w !! done); [destruct ok; [by moves | destruct (flagged w); by moves] | by moves].
  - destruct (_ !! done); by moves.
  - case_bool_decide; [by apply looked_set; [| destruct outer] |]. destruct (flagged w); [by destruct outer; moves | by moves].
  - destruct (_ && _); by moves.
  - destruct todo as [[| cond todo] |].
    + moves. intros _. exact Hth.
    + destruct (truth _ _); [by moves |]. moves. unfold looked_all, all_in in *. cbn. destruct (watch w) as [| conds | set]; try done.
      intros cond' Hin. specialize (Hth cond' Hin). cbn in Hth. rewrite elem_of_cons, elem_of_app in Hth. rewrite elem_of_app, elem_of_cons. tauto.
    + destruct (look _ s) as [[conds s'] |] eqn:El; [| done]. pose proof (look_threads _ _ _ _ El). moves. unfold looked_all, all_in. cbn.
      destruct (watch w) as [| conds' | set]; try done. injection El as <- _. intros cond Hin. apply elem_of_app. by left.
  - case_bool_decide; [by apply looked_set |]. moves. unfold looked_all. cbn. done.
  - apply looked_reschedule. by moves.
  - by moves.
  - destruct (koids w !! done); [by moves |]. destruct (deadline w =? NO_DEADLINE); destruct outer; by moves.
Qed.

Lemma looked_claim {E} (want : E -> bool) thread_of room s l t :
  all_looked s -> looked_all ((claim want thread_of room (threads s) l).2 t).
Proof.
  intros H. destruct (claim_sound want thread_of room (threads s) l) as [_ Hb Ho _ _ _ _].
  destruct (decide (t ∈ (claim want thread_of room (threads s) l).1.1)) as [Hin | Hn]; [| by rewrite Ho].
  rewrite (proj2 (Hb t Hin)). by eapply looked_awake.
Qed.

Lemma looked_enqueue s c t : all_looked s -> all_looked (enqueue c t s).
Proof. intros H. by apply (looked_wake_up s). Qed.

Lemma looked_wake s i c : all_looked s -> all_looked (wake_step i c s).
Proof.
  intros H. unfold wake_step.
  destruct (wakers s i) as [| | | koid sets then_ | [| t batch] | [| t then_] | t then_ | at_ | [| t batch]]; try done.
  - pose proof (fun t => looked_claim (fun e => w_koid e =? koid) w_thread BATCH s (registry s) t H) as G.
    by destruct (claim (fun e => w_koid e =? koid) w_thread BATCH (threads s) (registry s)) as [[[| t batch] kept] ths].
  - destruct (sp _); [by apply (looked_enqueue s) | done].
  - case_bool_decide; [by apply (looked_wake_up s) | done].
  - destruct (sp _); [by apply (looked_enqueue s) | done].
  - pose proof (fun t => looked_claim (fun e => t_deadline e <=? at_) t_thread BATCH s (timed s) t H) as G.
    by destruct (claim (fun e => t_deadline e <=? at_) t_thread BATCH (threads s) (timed s)) as [[[| t batch] kept] ths].
  - destruct (sp _); [by apply (looked_enqueue s) | done].
Qed.

Lemma looked_save s t : all_looked s -> all_looked (save t s).
Proof.
  intros H. pose proof (H t) as Hth. unfold save. destruct (pc (threads s t)) eqn:Ep; try done. apply looked_set; [done |].
  unfold looked_all in *. by rewrite Ep in Hth.
Qed.

Lemma looked_yield s c idle : all_looked s -> all_looked (yield c idle s).
Proof.
  intros H. unfold yield. destruct (current (cores s c)) as [t |]; [| done]. destruct (negb _); [done |]. destruct idle; [by apply (looked_wake_up s) |].
  destruct (queue (cores s c)) as [| next q]; [by apply (looked_wake_up s) |].
  assert (all_looked (set_thread t (with_sp true (with_state Ready (threads s t))) s)) as H' by (by apply looked_wake_up). by apply (looked_wake_up _ next _ H').
Qed.

Lemma looked_retire s c : all_looked s -> all_looked (retire c s).
Proof.
  intros H. unfold retire. destruct (current (cores s c)) as [t |]; [| done]. destruct (negb _); [done |].
  assert (all_looked (set_thread t (with_sp true (with_state Exited (threads s t))) s)) as H' by (by apply looked_wake_up).
  destruct (queue (cores s c)) as [| next q]; [done | by apply (looked_wake_up _ next _ H')].
Qed.

(** Nothing a request names object by object is forgotten. *)
Lemma looked_forget set m th : looked_all th -> looked_all (forget set m th).
Proof.
  unfold looked_all, forget, all_in. destruct (pc th) eqn:Ep; try (by rewrite Ep); case_bool_decide as Hb; cbn; rewrite ?Ep; try done; by rewrite Hb.
Qed.

Lemma looked_step s a : all_looked s -> all_looked (sched_step a s).
Proof.
  intros H. destruct a; cbn [sched_step]; unfold begin_wake, pick, add, add_step.
  - destruct (current (cores s c)) as [t |]; [| done]. destruct (_ && _); [by moves | done].
  - destruct (current (cores s c)) as [t |]; [| done]. destruct (_ && _); [by apply looked_set | done].
  - destruct (current (cores s c)) as [t |]; [by apply looked_wait | done].
  - by apply looked_save.
  - by apply looked_yield.
  - by apply looked_retire.
  - destruct (current (cores s c)); [done | by apply looked_reschedule].
  - unfold start. destruct (started _); [done |]. by apply (looked_wake_up s).
  - by destruct (wakers s i).
  - done.
  - by destruct (wakers s i).
  - by destruct (wakers s i).
  - by destruct (wakers s i).
  - by destruct (wakers s i).
  - by apply looked_wake.
  - done.
  - destruct (adders s j); try done. by repeat case_match.
  - destruct (adders s j); try done. by repeat case_match.
  - unfold remove. destruct (_ || _); [done |]. intros t. cbn. apply looked_forget, H.
Qed.

Lemma looked_run l s : all_looked s -> all_looked (run l s).
Proof. revert s. induction l as [| a l IH]; intros s H; [done |]. by apply IH, looked_step. Qed.

Lemma looked_boot process_of koid_of_process : all_looked (boot process_of koid_of_process).
Proof. done. Qed.
End steps.
