(* ===== verification/RunQueue.v ===== *)
(** The intrusive run queues of kernel/sched/mod.rs: a queue is a head, a tail and a length,
    and the link to the next thread lies in the thread, one for all the queues of the
    cores. What a push of a thread in no queue and a pop do to the lists the queues stand
    for, and what a push of a queued thread does to them. *)

From stdpp Require Import functions.
From S2P Require Import Prelude Waits.

Record RunQueue := mkRunQueue { head : option Tid; tail : option Tid; len : Z }.

(** [run_link] of every thread. *)
Abbreviation Links := (Tid -> option Tid).

Definition new : RunQueue := mkRunQueue None None 0.
Definition is_empty (q : RunQueue) : bool := bool_decide (head q = None).

Definition push_back (t : Tid) (links : Links) (q : RunQueue) : Links * RunQueue :=
  let links := <[t := None]> links in
  match tail q with
  | Some last => (<[last := Some t]> links, mkRunQueue (head q) (Some t) (len q + 1))
  | None => (links, mkRunQueue (Some t) (Some t) (len q + 1))
  end.

Definition pop_front (links : Links) (q : RunQueue) : option Tid * Links * RunQueue :=
  match head q with
  | None => (None, links, q)
  | Some first =>
      match links first with
      | Some next => (Some first, <[first := None]> links, mkRunQueue (Some next) (tail q) (len q - 1))
      | None => (Some first, links, mkRunQueue None None (len q - 1))
      end
  end.

(** ** The queues of all cores, and the lists they stand for *)

Inductive Op := Push (c : nat) (t : Tid) | Pop (c : nat).

Record Queues := mkQueues { links : Links; at_core : nat -> RunQueue }.

(** The thread a pop answers with. *)
Definition queues_step (op : Op) (s : Queues) : option Tid * Queues :=
  match op with
  | Push c t =>
      let '(ls, q) := push_back t (links s) (at_core s c) in
      (None, mkQueues ls (<[c := q]> (at_core s)))
  | Pop c =>
      let '(t, ls, q) := pop_front (links s) (at_core s c) in
      (t, mkQueues ls (<[c := q]> (at_core s)))
  end.

Fixpoint queues_run (ops : list Op) (s : Queues) : list (option Tid) * Queues :=
  match ops with
  | [] => ([], s)
  | op :: ops => let '(t, s) := queues_step op s in let '(ts, s) := queues_run ops s in (t :: ts, s)
  end.

Definition no_queues : Queues := mkQueues (fun _ => None) (fun _ => new).

Definition lists_step (op : Op) (xs : nat -> list Tid) : option Tid * (nat -> list Tid) :=
  match op with
  | Push c t => (None, <[c := xs c ++ [t]]> xs)
  | Pop c => match xs c with [] => (None, xs) | t :: l => (Some t, <[c := l]> xs) end
  end.

Fixpoint lists_run (ops : list Op) (xs : nat -> list Tid) : list (option Tid) * (nat -> list Tid) :=
  match ops with
  | [] => ([], xs)
  | op :: ops => let '(t, xs) := lists_step op xs in let '(ts, xs) := lists_run ops xs in (t :: ts, xs)
  end.

(** Every push is of a thread in no queue. *)
Fixpoint fresh_pushes (ops : list Op) (xs : nat -> list Tid) : Prop :=
  match ops with
  | [] => True
  | op :: ops => match op with Push _ t => forall c, t ∉ xs c | Pop _ => True end /\ fresh_pushes ops (lists_step op xs).2
  end.

(** ** The chain *)

Fixpoint chain (links : Links) (l : list Tid) : Prop :=
  match l with
  | [] => True
  | t :: l => links t = hd_error l /\ chain links l
  end.

Record stands_for (links : Links) (q : RunQueue) (l : list Tid) : Prop := {
  stands_head : head q = hd_error l;
  stands_tail : tail q = last l;
  stands_len : len q = Z.of_nat (length l);
  stands_chain : chain links l;
}.

Record simulates (s : Queues) (xs : nat -> list Tid) : Prop := {
  sim_queue : forall c, stands_for (links s) (at_core s c) (xs c);
  sim_once : forall c, NoDup (xs c);
  sim_apart : forall c c' t, t ∈ xs c -> t ∈ xs c' -> c = c';
}.

Lemma chain_frame ls t x l : t ∉ l -> chain ls l -> chain (<[t := x]> ls) l.
Proof.
  induction l as [| y l IH]; [done |]. rewrite not_elem_of_cons. intros [Hne Hn] [Hy Hc].
  split; [by rewrite fn_lookup_insert_ne | by apply IH].
Qed.

Lemma chain_snoc ls l y t : NoDup (l ++ [y]) -> t ∉ l ++ [y] -> chain ls (l ++ [y]) -> chain (<[y := Some t]> (<[t := None]> ls)) (l ++ [y; t]).
Proof.
  induction l as [| x l IH]; cbn; intros Hnd Hn Hc.
  - apply not_elem_of_cons in Hn as [Hne _]. split; [by rewrite fn_lookup_insert |]. split; [| done]. by rewrite fn_lookup_insert_ne, fn_lookup_insert.
  - apply NoDup_cons in Hnd as [Hx Hnd]. apply not_elem_of_cons in Hn as [Hne Hn]. destruct Hc as [Hl Hc]. split; [| by apply IH].
    rewrite !fn_lookup_insert_ne, Hl; [by destruct l | done | intros ->; apply Hx, elem_of_app; right; by left].
Qed.

Lemma stands_frame ls q l t x : t ∉ l -> stands_for ls q l -> stands_for (<[t := x]> ls) q l.
Proof. intros Hn [A B C D]. constructor; try done. by apply chain_frame. Qed.

Lemma stands_push ls q l t :
  NoDup l -> t ∉ l -> stands_for ls q l -> stands_for (push_back t ls q).1 (push_back t ls q).2 (l ++ [t]).
Proof.
  intros Hnd Hn [A B C D]. unfold push_back. rewrite B. destruct l as [| y l' _] using rev_ind.
  - constructor; cbn in *; [done | done | lia | by rewrite fn_lookup_insert].
  - rewrite last_snoc. constructor; cbn.
    + rewrite A. by destruct l'.
    + by rewrite last_snoc.
    + rewrite C, !length_app. cbn. lia.
    + rewrite <- app_assoc. by apply chain_snoc.
Qed.

Lemma stands_pop ls q t l :
  t ∉ l -> stands_for ls q (t :: l) ->
  (pop_front ls q).1.1 = Some t /\ stands_for (pop_front ls q).1.2 (pop_front ls q).2 l /\
  forall t', t' <> t -> (pop_front ls q).1.2 t' = ls t'.
Proof.
  intros Hn [A B C [D E]]. unfold pop_front. rewrite A. cbn [hd_error]. rewrite D. destruct l as [| y l]; cbn in *.
  - split; [done |]. split; [| done]. constructor; cbn; [done | done | lia | done].
  - split; [done |]. split; [| intros; by rewrite fn_lookup_insert_ne]. constructor; cbn; [done | done | lia |]. by apply (chain_frame ls t None (y :: l)).
Qed.

(** ** The simulation *)

Lemma frame_chain ls ls' l : (forall t, t ∈ l -> ls' t = ls t) -> chain ls l -> chain ls' l.
Proof.
  induction l as [| y l IH]; [done |]. intros He [Hy Hc]. split; [by rewrite He by (by left) |]. apply IH; [| done]. intros t Ht. apply He. by right.
Qed.

(** One queue changes, and with it only links of threads that are in no other. *)
Lemma simulates_at s xs c ls q l :
  simulates s xs -> stands_for ls q l -> NoDup l -> (forall t, t ∈ l -> t ∈ xs c \/ forall c', t ∉ xs c') ->
  (forall c' t, c' <> c -> t ∈ xs c' -> ls t = links s t) ->
  simulates (mkQueues ls (<[c := q]> (at_core s))) (<[c := l]> xs).
Proof.
  intros [Hq Hn Ha] Hl Hnd Hin Hfr. constructor; cbn.
  - intros c'. destruct (decide (c = c')) as [<- | Hne]; [by rewrite !fn_lookup_insert |]. rewrite !fn_lookup_insert_ne by done.
    destruct (Hq c') as [A B C D]. constructor; try done. eapply frame_chain; [| done]. intros t Ht. by apply (Hfr c').
  - intros c'. destruct (decide (c = c')) as [<- | Hne]; [by rewrite fn_lookup_insert | by rewrite fn_lookup_insert_ne].
  - intros c1 c2 t. destruct (decide (c = c1)) as [<- | H1], (decide (c = c2)) as [<- | H2]; rewrite ?fn_lookup_insert, ?fn_lookup_insert_ne by done; [done | | | apply Ha].
    + intros Ht Ht2. destruct (Hin t Ht) as [Hc | Hno]; [by eapply Ha | by destruct (Hno c2)].
    + intros Ht1 Ht. destruct (Hin t Ht) as [Hc | Hno]; [by eapply Ha | by destruct (Hno c1)].
Qed.

Lemma push_links ls q t t' : t' <> t -> tail q <> Some t' -> (push_back t ls q).1 t' = ls t'.
Proof.
  intros Hne Ht. unfold push_back. destruct (tail q) as [y |]; cbn; rewrite ?fn_lookup_insert_ne; try done; congruence.
Qed.

Lemma simulates_push s xs c t : simulates s xs -> (forall c', t ∉ xs c') -> simulates (queues_step (Push c t) s).2 (lists_step (Push c t) xs).2.
Proof.
  intros H Hno. pose proof H as [Hq Hn Ha]. pose proof (stands_push _ _ _ t (Hn c) (Hno c) (Hq c)) as Hp.
  pose proof (push_links (links s) (at_core s c) t) as Hfr. cbn. destruct (push_back t (links s) (at_core s c)) as [ls q]. cbn in *.
  apply simulates_at; try done.
  - apply NoDup_app. split; [done |]. split; [intros x Hx ->%list_elem_of_singleton; by destruct (Hno c) | apply NoDup_singleton].
  - intros x. rewrite elem_of_app, list_elem_of_singleton. intros [? | ->]; [by left | by right].
  - intros c' x Hne Hx. apply Hfr; [intros ->; by destruct (Hno c') |]. rewrite (stands_tail _ _ _ (Hq c)). intros Hl. apply last_Some_elem_of in Hl. by apply Hne, (Ha c' c x).
Qed.

Lemma simulates_pop s xs c :
  simulates s xs -> (queues_step (Pop c) s).1 = (lists_step (Pop c) xs).1 /\ simulates (queues_step (Pop c) s).2 (lists_step (Pop c) xs).2.
Proof.
  intros H. pose proof H as [Hq Hn Ha]. pose proof (Hq c) as Hc. pose proof (Hn c) as Hnc. cbn. destruct (xs c) as [| t l] eqn:Ex.
  - unfold pop_front. rewrite (stands_head _ _ _ Hc). cbn. split; [done |]. destruct s as [ls qs]. cbn in *. constructor; cbn; [| done | done].
    intros c'. destruct (decide (c = c')) as [<- | Hne]; [by rewrite fn_lookup_insert, Ex | by rewrite fn_lookup_insert_ne].
  - apply NoDup_cons in Hnc as [Hnt Hnl]. destruct (stands_pop _ _ t l Hnt Hc) as (E & Hl & Hfr).
    destruct (pop_front (links s) (at_core s c)) as [[x ls] q]. cbn in *. split; [done |]. apply simulates_at; try done.
    + intros x' Hx. left. rewrite Ex. by right.
    + intros c' x' Hne Hx. apply Hfr. intros ->. apply Hne, (Ha c' c t); [done |]. rewrite Ex. by left.
Qed.

Lemma simulates_run ops s xs :
  simulates s xs -> fresh_pushes ops xs -> (queues_run ops s).1 = (lists_run ops xs).1 /\ simulates (queues_run ops s).2 (lists_run ops xs).2.
Proof.
  revert s xs. induction ops as [| op ops IH]; intros s xs H Hf; [done |]. destruct Hf as [Hop Hf]. cbn [queues_run lists_run].
  assert ((queues_step op s).1 = (lists_step op xs).1 /\ simulates (queues_step op s).2 (lists_step op xs).2) as [E H'].
  { destruct op as [c t | c]; [| by apply simulates_pop]. split; [| by apply simulates_push]. cbn. by destruct (push_back _ _ _). }
  destruct (queues_step op s) as [a s'], (lists_step op xs) as [b xs']. cbn in *. destruct (IH s' xs' H' Hf) as [E2 H2].
  destruct (queues_run ops s'), (lists_run ops xs'). cbn in *. by split; [f_equal |].
Qed.

Lemma simulates_boot : simulates no_queues (fun _ => []).
Proof. constructor; [by constructor | by intros; constructor | by intros c c' t ?%elem_of_nil]. Qed.
