(* ===== verification/WaitsQueues.v ===== *)
(** The run queues of [Waits] are the intrusive queues of [RunQueue]: what each action
    pushes and pops, and that the linked queues stand for the lists throughout, since a
    thread with one home is never pushed twice. *)

From stdpp Require Import functions.
From S2P Require Import Prelude Waits WaitsHomes RunQueue.

(** What an action does to the run queues: [reschedule] pops before it puts the thread that
    leaves back, [enqueue] and [thread_start_with_placement] push. *)
Definition ops_of (a : Action) (s : Sched) : list Op :=
  match a with
  | Step c _ =>
      match current (cores s c) with
      | Some t => match pc (threads s t) with Leaving _ _ _ => [Pop c] | _ => [] end
      | None => []
      end
  | Yield c idle =>
      match current (cores s c) with
      | Some t =>
          if negb (preemptible (pc (threads s t))) then []
          else if idle then [Push c t]
          else match queue (cores s c) with [] => [Pop c] | _ => [Pop c; Push c t] end
      | None => []
      end
  | Exit c => match current (cores s c) with Some t => if preemptible (pc (threads s t)) then [Pop c] else [] | None => [] end
  | Pick c => match current (cores s c) with None => [Pop c] | Some _ => [] end
  | Start t place c => if started (threads s t) then [] else [Push (default c place) t]
  | Wake i c =>
      match wakers s i with
      | Queueing (t :: _) _ _ _ | Placing t _ | Overdue (t :: _) _ =>
          if sp (threads s t) then [Push (default c (placement (threads s t))) t] else []
      | _ => []
      end
  | _ => []
  end.

Fixpoint linked (l : list Action) (s : Sched) (qs : Queues) : Queues :=
  match l with [] => qs | a :: l => linked l (sched_step a s) (queues_run (ops_of a s) qs).2 end.

Definition queues_of (s : Sched) (c : nat) : list Tid := queue (cores s c).

(** ** What is pushed is in no queue *)

Lemma current_unqueued s t : homed s -> cur (cores s) t -> ~ que (cores s) t.
Proof.
  intros [[P1 P2] _ _] [c Hc] [c' Hq]. assert (c = c') as <- by (apply (P2 c c' t); apply elem_of_contents; auto).
  specialize (P1 c). unfold contents in P1. rewrite Hc in P1. cbn in P1. by apply NoDup_cons in P1 as [? _].
Qed.

Lemma claimed_unqueued s i t : homed s -> t ∈ claimed (wakers s i) -> ~ que (cores s) t.
Proof.
  intros H Hin Hq. assert (cla (wakers s) t) as Hc by (by exists i). pose proof (current_unqueued s t H) as Hcu.
  pose proof (homes_thread _ _ _ H t) as Hok. unfold thread_ok in Hok. destruct (pc (threads s t)); tauto.
Qed.

Lemma unstarted_unqueued s t : homed s -> started (threads s t) = false -> ~ que (cores s) t.
Proof.
  intros H Hs Hq. pose proof (homes_thread _ _ _ H t) as Hok. unfold thread_ok in Hok. rewrite Hs in Hok. destruct (pc (threads s t)); intuition congruence.
Qed.

Lemma unqueued s t : ~ que (cores s) t -> forall c, t ∉ queues_of s c.
Proof. intros Hn c Hin. apply Hn. by exists c. Qed.

Lemma fresh_ops s a : homed s -> fresh_pushes (ops_of a s) (queues_of s).
Proof.
  intros H. destruct a; cbn [ops_of]; try done.
  - destruct (current (cores s c)); [destruct (pc _) | ]; done.
  - destruct (current (cores s c)) as [t |] eqn:Hc; [| done]. assert (forall c', t ∉ queues_of s c') as Hn by (by apply unqueued, current_unqueued; [| exists c]).
    destruct (negb _); [done |]. destruct idle; [done |]. destruct (queue (cores s c)) as [| next q] eqn:Eq; [done |]. split; [done |]. split; [| done].
    intros c'. cbn. unfold queues_of at 1. rewrite Eq. cbn. destruct (decide (c = c')) as [<- | Hne]; [| rewrite fn_lookup_insert_ne by done; apply Hn].
    rewrite fn_lookup_insert. specialize (Hn c). unfold queues_of in Hn. rewrite Eq, not_elem_of_cons in Hn. tauto.
  - destruct (current (cores s c)); [destruct (preemptible _) |]; done.
  - by destruct (current (cores s c)).
  - destruct (started (threads s t)) eqn:Es; [done |]. split; [| done]. by apply unqueued, unstarted_unqueued.
  - pose proof (fun t => claimed_unqueued s i t H) as Hn.
    destruct (wakers s i) as [| | | | [| t batch] | | t | | [| t batch]] eqn:Ei; try done; (destruct (sp _); [| done]); (split; [| done]); apply unqueued, (Hn t); by left.
Qed.

(** ** What the pushes and pops make of the lists *)

Lemma queues_set_core s c core c' : queues_of (set_core c core s) c' = (<[c := queue core]> (queues_of s) : nat -> list Tid) c'.
Proof. unfold queues_of. cbn. destruct (decide (c = c')) as [<- | Hne]; [by rewrite !fn_lookup_insert | by rewrite !fn_lookup_insert_ne]. Qed.

Lemma queues_keep (s s' : Sched) : cores s' = cores s -> forall c, queues_of s' c = queues_of s c.
Proof. unfold queues_of. by intros ->. Qed.

Lemma insert_same (xs : nat -> list Tid) c c' : xs c' = (<[c := xs c]> xs : nat -> list Tid) c'.
Proof. destruct (decide (c = c')) as [<- | Hne]; [by rewrite fn_lookup_insert | by rewrite fn_lookup_insert_ne]. Qed.

Lemma queues_reschedule s c c' : queues_of (reschedule_block c s) c' = (lists_step (Pop c) (queues_of s)).2 c'.
Proof.
  unfold reschedule_block. cbn. unfold queues_of at 2. destruct (queue (cores s c)) as [| next q] eqn:Eq; rewrite queues_set_core; cbn; [| done].
  rewrite <- Eq at 1. symmetry. apply (insert_same (queues_of s)).
Qed.

Lemma queues_wait s c t ok c' :
  queues_of (wait_step c t ok s) c' = (lists_run (match pc (threads s t) with Leaving _ _ _ => [Pop c] | _ => [] end) (queues_of s)).2 c'.
Proof.
  assert (forall w s', cores s' = cores s -> queues_of (look_away w s') c' = queues_of s c') as Haway.
  { intros w s' E. rewrite (queues_keep s'); [by apply queues_keep | by destruct (look_away_homes w s') as (_ & ? & _)]. }
  assert (forall w p, queues_of (goto t p (look_away w s)) c' = queues_of s c') as Hgoto by (intros w p; exact (Haway w s eq_refl)).
  unfold wait_step, ask_step, refuse_step, clean_step. destruct (pc (threads s t)) eqn:Ep; cbn [lists_run snd]; try done.
  - by destruct (killed _ _).
  - destruct (truth _ _); [done |]. by destruct ok.
  - destruct todo as [[| cond todo] |].
    + destruct (_ && _); [apply Hgoto |]. destruct ok; [exact (Haway _ s eq_refl) | apply Hgoto].
    + destruct (truth _ _); [apply Hgoto | done].
    + destruct (look _ s) as [[conds s'] |] eqn:El; [| done]. apply look_homes in El as (_ & E & _). by apply queues_keep.
  - destruct (koids w !! done); [by destruct ok |]. done.
  - by destruct (_ !! done).
  - case_bool_decide; [done |]. by destruct (flagged w).
  - by destruct (_ && _).
  - destruct todo as [[| cond todo] |]; [apply Hgoto | destruct (truth _ _); [apply Hgoto | done] |].
    destruct (look _ s) as [[conds s'] |] eqn:El; [| done]. apply look_homes in El as (_ & E & _). by apply queues_keep.
  - by case_bool_decide.
  - rewrite queues_reschedule. change (queues_of (goto t _ s)) with (queues_of s). by destruct (lists_step (Pop c) (queues_of s)).
  - destruct (koids w !! done); [done |]. by destruct (deadline w =? NO_DEADLINE).
Qed.

Lemma queues_enqueue s c t c' :
  queues_of (enqueue c t s) c' = (lists_run [Push (default c (placement (threads s t))) t] (queues_of s)).2 c'.
Proof. unfold enqueue, enqueue_on. rewrite queues_set_core. cbn. by rewrite fn_lookup_insert. Qed.

Lemma queues_wake s i c c' : queues_of (wake_step i c s) c' = (lists_run (ops_of (Wake i c) s) (queues_of s)).2 c'.
Proof.
  unfold wake_step. cbn [ops_of].
  destruct (wakers s i) as [| | | koid sets then_ | [| t batch] | [| t then_] | t then_ | at_ | [| t batch]]; try done.
  - by destruct (claim _ _ _ _ _) as [[[| t batch] kept] ths].
  - destruct (sp _); [apply queues_enqueue | done].
  - by case_bool_decide.
  - destruct (sp _); [apply queues_enqueue | done].
  - by destruct (claim _ _ _ _ _) as [[[| t batch] kept] ths].
  - destruct (sp _); [apply queues_enqueue | done].
Qed.

Lemma queues_after s a c' : queues_of (sched_step a s) c' = (lists_run (ops_of a s) (queues_of s)).2 c'.
Proof.
  destruct a; cbn [sched_step ops_of]; unfold begin_wake, pick, start, add, add_step, remove; try done.
  - destruct (current (cores s c)); [by destruct (_ && _) | done].
  - destruct (current (cores s c)); [by destruct (_ && _) | done].
  - destruct (current (cores s c)); [apply queues_wait | done].
  - unfold save. by destruct (pc (threads s t)).
  - unfold yield. destruct (current (cores s c)) as [t |]; [| done]. destruct (negb _); [done |]. destruct idle; [by rewrite queues_set_core |].
    cbn. unfold queues_of at 2. destruct (queue (cores s c)) as [| next q] eqn:Eq; rewrite queues_set_core; cbn; [rewrite Eq; rewrite <- Eq at 1; symmetry; apply (insert_same (queues_of s)) |].
    rewrite Eq. cbn. change (queues_of (set_thread _ _ _)) with (queues_of s). rewrite fn_lookup_insert. destruct (decide (c = c')) as [<- | Hne]; [by rewrite !fn_lookup_insert | by rewrite !fn_lookup_insert_ne].
  - unfold retire. destruct (current (cores s c)) as [t |]; [| done]. destruct (preemptible _); [| done]. cbn [negb]. cbn [lists_run lists_step].
    unfold queues_of at 2. destruct (queue (cores s c)) as [| next q] eqn:Eq; rewrite queues_set_core; cbn; [rewrite <- Eq at 1; symmetry; apply (insert_same (queues_of s)) | done].
  - destruct (current (cores s c)); [done |]. rewrite queues_reschedule. cbn [lists_run]. by destruct (lists_step (Pop c) (queues_of s)).
  - destruct (started _); [done |]. unfold enqueue_on. rewrite queues_set_core. cbn. by rewrite fn_lookup_insert.
  - by destruct (wakers s i).
  - by destruct (wakers s i).
  - by destruct (wakers s i).
  - by destruct (wakers s i).
  - by destruct (wakers s i).
  - apply queues_wake.
  - destruct (adders s j); try done. by repeat case_match.
  - destruct (adders s j); try done. by repeat case_match.
  - by destruct (_ || _).
Qed.

Lemma simulates_ext qs xs ys : (forall c, ys c = xs c) -> simulates qs xs -> simulates qs ys.
Proof. intros E [A B C]. constructor; [intros c; rewrite E; apply A | intros c; rewrite E; apply B | intros c c' t; rewrite !E; apply C]. Qed.

Lemma linked_step a s qs :
  homed s -> simulates qs (queues_of s) -> simulates (queues_run (ops_of a s) qs).2 (queues_of (sched_step a s)).
Proof.
  intros H Hq. eapply simulates_ext; [apply queues_after |]. apply simulates_run; [done | by apply fresh_ops].
Qed.
