(* ===== verification/WaitsProps.v ===== *)
(** What the wait registry, the wait sets and the run queues promise: a thread has one
    home, no wake is lost, and the runs in which the code breaks its word. *)

From stdpp Require Import functions.
From S2P Require Import Prelude Waits WaitsHomes WaitsWakes WaitsSets RunQueue WaitsQueues.

(** A run in which no refusal is overtaken. *)
Fixpoint careful (l : list Action) (s : Sched) : bool :=
  match l with [] => true | a :: l => negb (refused_while_claimed a s) && careful l (sched_step a s) end.


Lemma linked_run l s qs : homed s -> simulates qs (queues_of s) -> careful l s = true -> simulates (linked l s qs) (queues_of (run l s)).
Proof.
  revert s qs. induction l as [| a l IH]; intros s qs H Hq Hc; [done |]. apply andb_true_iff in Hc as [Ha Hc]. apply negb_true_iff in Ha.
  apply IH; [by apply homed_step | by apply linked_step | done].
Qed.

(** ** A wake that is on its way arrives *)

Section delivery.
Context (i c : nat).
Implicit Type s : Sched.

(** The threads the wake meets have saved their contexts. *)
Definition saved s : Prop :=
  forall t, (exists k, mkBucketWaiter t k ∈ registry s) \/ t ∈ claimed (wakers s i) -> sp (threads s t) = true.

(** The wake spins for a thread it has claimed, which has not saved its context yet. *)
Definition stalls s : Prop := exists t rest, claimed (wakers s i) = t :: rest /\ sp (threads s t) = false.

Lemma stalls_unsaved s : stalls s -> ~ saved s.
Proof.
  intros (t & rest & Ht & Hsp) Hs. assert (sp (threads s t) = true) as E; [| congruence].
  apply Hs. right. rewrite Ht. by left.
Qed.

Definition wake_measure s : nat :=
  3 * length (registry s) +
  match wakers s i with
  | Waking _ _ => 8
  | Collecting _ _ => 7
  | Draining _ sets _ => length sets + 1
  | Queueing batch _ sets _ => length batch + length sets + 2
  | _ => 0
  end.

Record awaited (t : Tid) (w : Request) (cond : Cond) s : Prop := {
  awaited_blocked : state (threads s t) = Blocked;
  awaited_registered : forall k, k ∈ koids w -> mkBucketWaiter t k ∈ registry s;
  awaited_connected : connected (observers s) w cond;
  awaited_reached : reaches (wakers s i) w cond;
}.

Lemma claim_within {E} (want : E -> bool) (thread_of : E -> Tid) room ths l t :
  t ∈ (claim want thread_of room ths l).1.1 -> exists e, e ∈ l /\ thread_of e = t.
Proof.
  revert room ths. induction l as [| e l IH]; intros room ths; cbn [claim]; [by intros ?%elem_of_nil |]. destruct (_ && _).
  - specialize (IH (pred room) (<[thread_of e := with_state Ready (ths (thread_of e))]> ths)). destruct (claim _ _ _ _ l) as [[batch kept] ths']. cbn in *.
    rewrite elem_of_cons. intros [-> | Hin]; [exists e; by split; [left |] |]. destruct (IH Hin) as (e' & ? & ?). exists e'. by split; [right |].
  - specialize (IH room ths). destruct (claim _ _ _ _ l) as [[batch kept] ths']. cbn in *. intros Hin. destruct (IH Hin) as (e' & ? & ?). exists e'. by split; [right |].
Qed.

Lemma awaited_waker s t w cond wk :
  awaited t w cond s -> claimed wk = [] -> reaches wk w cond -> (saved s -> saved (set_waker i wk s)) /\ awaited t w cond (set_waker i wk s).
Proof.
  intros [Hb Hr Hc _] E Hw. split.
  - intros Hs t' Ht'. apply Hs. left. destruct Ht' as [? | Hin]; [done |]. cbn in Hin. rewrite fn_lookup_insert, E in Hin. by apply elem_of_nil in Hin.
  - constructor; try done. cbn. by rewrite fn_lookup_insert.
Qed.

Lemma waker_set s wk : wakers (set_waker i wk s) i = wk.
Proof. cbn. by rewrite fn_lookup_insert. Qed.

(** What a step of the wake does to a thread it has not claimed yet. *)
Definition advanced (t : Tid) (w : Request) (cond : Cond) s s' : Prop :=
  (saved s -> saved s') /\ ((exists batch koid sets then_, wakers s' i = Queueing batch koid sets then_ /\ t ∈ batch) \/
   awaited t w cond s' /\ (wake_measure s' < wake_measure s)%nat).

Lemma advanced_waker s t w cond wk :
  awaited t w cond s -> claimed wk = [] -> reaches wk w cond -> (wake_measure (set_waker i wk s) < wake_measure s)%nat ->
  advanced t w cond s (set_waker i wk s).
Proof. intros Ha Hc Hr Hm. destruct (awaited_waker s t w cond wk) as [? ?]; try done. split; [done | by right]. Qed.

Lemma advanced_drain s t w cond koid sets then_ :
  awaited t w cond s -> wakers s i = Draining koid sets then_ -> advanced t w cond s (wake_step i c s).
Proof.
  intros Ha Ei. pose proof Ha as [Hb Hreg Hc Hr]. rewrite Ei in Hr. unfold wake_step. rewrite Ei.
  pose proof (reaches_drained (s := s) then_ Hc t koid sets) as Hd.
  pose proof (claim_sound (fun e => w_koid e =? koid) w_thread BATCH (threads s) (registry s)) as Hsp.
  pose proof (claim_within (fun e => w_koid e =? koid) w_thread BATCH (threads s) (registry s)) as Hw.
  destruct (claim (fun e => w_koid e =? koid) w_thread BATCH (threads s) (registry s)) as [[batch kept] ths].
  destruct Hsp as [_ Hbl Hoth Hk Hf Hlen _]. cbn [fst snd] in *. destruct batch as [| t0 batch].
  { specialize (Hd eq_refl Hb Hreg Hr). destruct sets as [| set sets]; [done |]. apply advanced_waker; try done.
    unfold wake_measure. rewrite waker_set, Ei. cbn. lia. }
  split.
  - intros Hs t' Ht'. cbn in Ht' |- *. rewrite fn_lookup_insert in Ht'. cbn in Ht'.
    assert (sp (threads s t') = true) as E.
    { apply Hs. left. destruct Ht' as [[k Hin] | Hin]; [exists k; by apply Hf | destruct (Hw _ Hin) as ([t'' k] & He & <-); by exists k]. }
    destruct (decide (t' ∈ t0 :: batch)) as [Hin | Hnin]; [by rewrite (proj2 (Hbl _ Hin)) | by rewrite Hoth].
  - destruct (decide (t ∈ t0 :: batch)) as [Hin | Hnin]; [left; exists (t0 :: batch), koid, sets, then_; by rewrite waker_set |]. right. split.
    + constructor; cbn; [by rewrite Hoth | intros k Hk'; apply Hk; [by apply Hreg | done] | done | by rewrite fn_lookup_insert].
    + unfold wake_measure. rewrite waker_set, Ei. cbn in *. lia.
Qed.

(** A claimed thread whose context is saved is queued. *)
Lemma queueing_step s t batch koid sets then_ :
  wakers s i = Queueing (t :: batch) koid sets then_ -> sp (threads s t) = true ->
  wake_step i c s = set_waker i (Queueing batch koid sets then_) (enqueue c t s) /\ (saved s -> saved (wake_step i c s)).
Proof.
  intros Ei E. unfold wake_step. rewrite Ei, E. split; [done |].
  intros Hs t' Ht'. cbn in Ht' |- *. rewrite fn_lookup_insert in Ht'. destruct (decide (t = t')) as [<- | Hne]; [by rewrite fn_lookup_insert |].
  rewrite fn_lookup_insert_ne by done. apply Hs. rewrite Ei. destruct Ht' as [? | ?]; [by left | right; by right].
Qed.

Lemma awaited_step s t w cond :
  woken s -> awaited t w cond s -> t ∉ claimed (wakers s i) -> stalls s \/ advanced t w cond s (wake_step i c s).
Proof.
  intros H Ha Hn. pose proof Ha as [Hb Hreg Hc Hr].
  destruct (wakers s i) as [| koid then_ | koid then_ | koid sets then_ | [| t0 batch] koid sets then_ | | | |] eqn:Ei; try done; cbn in Hr; subst.
  - right. unfold wake_step. rewrite Ei. destruct (Z.eqb_spec (observer_count s) 0) as [Hz | Hz]; apply advanced_waker; try done; try by apply (reaches_alone (s := s)).
    all: unfold wake_measure; rewrite waker_set, Ei; cbn; lia.
  - right. unfold wake_step. rewrite Ei. apply advanced_waker; try done; [by apply (reaches_sets (s := s)) |].
    unfold wake_measure. rewrite waker_set, Ei. cbn [registry set_waker set_wakers]. rewrite length_take. unfold MAX_SETS_PER_OBJECT. lia.
  - right. by eapply advanced_drain.
  - right. unfold wake_step. rewrite Ei. apply advanced_waker; try done. unfold wake_measure. rewrite waker_set, Ei. cbn. lia.
  - destruct (sp (threads s t0)) eqn:Hsp; [right | left; exists t0, batch; by rewrite Ei].
    destruct (queueing_step s t0 batch koid sets then_) as [E Hs']; [done | done |]. split; [done |]. right. rewrite E.
    cbn in Hn. apply not_elem_of_cons in Hn as [Hne Hn]. split; [| unfold wake_measure; rewrite waker_set, Ei; cbn; lia].
    constructor; cbn; [by rewrite fn_lookup_insert_ne | done | done | by rewrite fn_lookup_insert].
Qed.

(** The wake holds the thread, or is still to come to it. *)
Definition on_its_way (t : Tid) (w : Request) (cond : Cond) s : Prop := t ∈ claimed (wakers s i) \/ awaited t w cond s.

(** Where the steps of the wake alone lead: the thread is queued, or the wake spins. *)
Definition arrives (t : Tid) (w : Request) (cond : Cond) s : Prop :=
  exists n, let s' := Nat.iter n (wake_step i c) s in
  que (cores s') t \/ (saved s -> saved s') /\ stalls s' /\ on_its_way t w cond s'.

Lemma arrives_step t w cond s : (saved s -> saved (wake_step i c s)) -> arrives t w cond (wake_step i c s) -> arrives t w cond s.
Proof. intros Hs (n & Hn). exists (S n). rewrite Nat.iter_succ_r. cbn in *. tauto. Qed.

(** A claimed thread is queued. *)
Lemma claimed_arrives s t w cond batch koid sets then_ :
  wakers s i = Queueing batch koid sets then_ -> t ∈ batch -> arrives t w cond s.
Proof.
  revert s. induction batch as [| t0 batch IH]; intros s Ei; [by intros ?%elem_of_nil |]. intros Hin.
  destruct (sp (threads s t0)) eqn:Hsp; cycle 1.
  { exists 0%nat. cbv zeta. cbn [Nat.iter nat_rect]. right. split; [done |]. split; [exists t0, batch; by rewrite Ei | left; by rewrite Ei]. }
  destruct (queueing_step s t0 batch koid sets then_) as [E Hs']; [done | done |]. apply elem_of_cons in Hin as [-> | Hin].
  - exists 1%nat. left. cbn [Nat.iter nat_rect]. rewrite E. unfold enqueue, enqueue_on, que. cbn. eexists. rewrite fn_lookup_insert. cbn. apply elem_of_app. right. by left.
  - apply arrives_step; [done |]. apply IH; [by rewrite E, waker_set | done].
Qed.

Lemma awaited_arrives s t w cond : woken s -> awaited t w cond s -> arrives t w cond s.
Proof.
  remember (wake_measure s) as m eqn:Em. revert s Em. induction (lt_wf m) as [m _ IH]. intros s -> H Ha.
  destruct (decide (t ∈ claimed (wakers s i))) as [Hin | Hn].
  { pose proof (awaited_reached _ _ _ _ Ha) as Hr. destruct (wakers s i) eqn:Ei; try (by apply elem_of_nil in Hin); try done. by eapply claimed_arrives. }
  destruct (awaited_step s t w cond H Ha Hn) as [Hst | [Hs' [(batch & koid & sets & then_ & Ei & Hin) | [Ha' Hm]]]].
  - exists 0%nat. cbv zeta. cbn [Nat.iter nat_rect]. right. split; [done |]. split; [done | by right].
  - apply arrives_step; [done |]. by eapply claimed_arrives.
  - apply arrives_step; [done |]. by apply (IH _ Hm _ eq_refl (woken_wake s i c H)).
Qed.
End delivery.

(** ** Sample runs *)

(** One process with koid 100. *)
Definition sample_boot : Sched := boot (fun _ => 0%nat) (fun _ => 100).
Definition sample_start : list Action := [Start 0 None 0; Pick 0].
Definition on_set : Request := mkRequest [9] NO_DEADLINE 0 false true (Members 9).
Definition on_object : Request := mkRequest [7] NO_DEADLINE 0 false true (Any [ReadyObject 7]).
Definition steps (n : nat) : list Action := repeat (Step 0 true) n.
Definition wakes (n : nat) : list Action := repeat (Wake 0 0) n.
Definition add_member : list Action := [Add 0 9 7 false true true; AddStep 0 true; AddStep 0 true].

(** A thread waits on set 9, whose member 7 becomes ready. *)
Definition set_run : list Action :=
  sample_start ++ add_member ++ [Call 0 on_set] ++ steps 12 ++ [Save 0; Signal 0 (ReadyObject 7)].

(** Nothing runs, nothing is queued, no wake is under way, and the thread is blocked. *)
Definition asleep (s : Sched) : Prop :=
  state (threads s 0) = Blocked /\ (forall c, contents (cores s c) = []) /\ (forall i, wakers s i = Rested).

(** The heap refuses a park that a wake by name has claimed; the thread is requeued, another
    is started, and the wake goes on. *)
Definition refused_run : list Action :=
  sample_start ++ [Park 0 on_object; Rouse 0 [0%nat]; Wake 0 0; Step 0 false; Step 0 true; Yield 0 true; Start 1 None 0; Wake 0 0].

(** The process is stopped, its thread is about to park for that, and it is continued. *)
Definition continued_run : list Action :=
  sample_start ++ [Withdraw (Unheld 0 100); Call 0 on_object] ++ steps 2 ++ Signal 0 (Unheld 0 100) :: wakes 3 ++ steps 6 ++ [Save 0].

(** The process is killed when its thread has just asked whether it was. *)
Definition killed_run : list Action :=
  sample_start ++ [Call 0 on_object; Step 0 true; Kill 0 0 100 [0%nat]] ++ wakes 4 ++ steps 11 ++ [Save 0].

(** A ready object joins the set a thread is parked on. *)
Definition joined_run : list Action :=
  sample_start ++ [Call 0 on_set] ++ steps 10 ++ [Save 0; Signal 0 (ReadyObject 7)] ++ wakes 3 ++ add_member.

(** ** The properties *)

(** A thread that stays blocked past its second look, and what it is blocked for: every
    condition its request names, or, on a wait set, the members that it found not ready. *)
Definition sleeping (p : Pc) : option (Request * list Cond) :=
  match p with Leaving w _ seen | Switching w _ seen | Parked w _ seen => Some (w, seen) | _ => None end.

Definition parked_on (s : Sched) (t : Tid) (w : Request) (cond : Cond) : Prop :=
  state (threads s t) = Blocked /\
  exists seen, sleeping (pc (threads s t)) = Some (w, seen) /\ match watch w with Never => False | Any conds => cond ∈ conds | Members _ => cond ∈ seen end.

Lemma parked_awaited s t w cond :
  woken s -> all_looked s -> parked_on s t w cond -> truth s cond = true -> exists i, awaited i t w cond s.
Proof.
  intros [Hw _ _] Ha (Hb & seen & Hl & Hin) Htr. destruct (Hw t) as [_ _ Hc Hg Hp]. specialize (Ha t).
  assert (cond ∈ seen) as Hs.
  { unfold looked_all in Ha. destruct (pc (threads s t)); simplify_eq/=; specialize (Ha Hb); unfold all_in in Ha; destruct (watch w); auto; done. }
  assert (looked (pc (threads s t)) = Some (w, seen) /\ viewed (pc (threads s t)) = Some (w, seen) /\ registered (pc (threads s t)) = koids w) as (E1 & E2 & E3)
    by (destruct (pc (threads s t)); by simplify_eq/=).
  destruct (Hp w seen cond Hb E1 Hs Htr) as [i Hi]. exists i. constructor; [done | | by eapply Hc | done].
  intros k Hk. apply Hg; [done | by rewrite E3].
Qed.

Lemma run_wakes n i c s : run (repeat (Wake i c) n) s = Nat.iter n (wake_step i c) s.
Proof. revert s. induction n as [| n IH]; intros s; [done |]. rewrite Nat.iter_succ_r. apply IH. Qed.

(** C4: However waits, wakes, deadlines, signals and changes of wait sets interleave, the
    signal of a condition that a thread is parked for is not lost. What a thread is parked
    for is what its second look, after it registered, found false: the conditions its
    readiness closure names, or, on a wait set, the members the set then had and still has.
    When such a condition has come true and the thread is still blocked, a wake is on its
    way that reaches the thread, over the wait set when the condition is a member's
    readiness. The steps of that wake alone put the thread in a run queue, or bring the
    wake, still on its way, to a thread it has claimed and whose context is not saved yet,
    for which it spins; they do put it in a run queue when the threads the wake meets have
    saved their contexts. The second look asks neither for a kill nor for the
    continuation of a stopped process, and a member that joins later is not looked at, see
    [parked_thread_is_not_told]. *)
Theorem no_wake_is_lost process_of koid_of_process l t w cond :
  let s := run l (boot process_of koid_of_process) in
  parked_on s t w cond -> truth s cond = true ->
  exists i, awaited i t w cond s /\ forall c,
    (exists n, let s' := run (repeat (Wake i c) n) s in
       que (cores s') t \/ stalls i s' /\ on_its_way i t w cond s') /\
    (saved i s -> exists n, que (cores (run (repeat (Wake i c) n) s)) t).
Proof.
  intros s Hp Htr. assert (woken s) as H by apply woken_run, woken_boot.
  destruct (parked_awaited s t w cond H (looked_run _ _ (looked_boot _ _)) Hp Htr) as [i Ha].
  exists i. split; [done |]. intros c. destruct (awaited_arrives i c s t w cond H Ha) as [n Hn]. cbn in Hn. rewrite <- run_wakes in Hn.
  split; [exists n; cbn; tauto |]. intros Hs. exists n. destruct Hn as [? | (Hk & Hst & _)]; [done |].
  destruct (stalls_unsaved _ _ Hst). auto.
Qed.

Lemma no_wake_is_lost_witness :
  let s := run set_run sample_boot in
  parked_on s 0 on_set (ReadyObject 7) /\ exists i, awaited i 0 on_set (ReadyObject 7) s /\ exists n, que (cores (run (repeat (Wake i 0) n) s)) 0.
Proof.
  assert (parked_on (run set_run sample_boot) 0 on_set (ReadyObject 7)) as Hp by (split; [by vm_compute |]; exists [ReadyObject 7]; split; [by vm_compute | by left]).
  split; [exact Hp |]. destruct (no_wake_is_lost _ _ set_run 0 on_set (ReadyObject 7) Hp) as (i & Ha & Hi); [by vm_compute |].
  exists i. split; [exact Ha |]. apply (Hi 0%nat). intros t [[k Hin] | Hin].
  - replace (registry (run set_run (boot (fun _ => 0%nat) (fun _ => 100)))) with [mkBucketWaiter 0 9] in Hin by (by vm_compute).
    apply list_elem_of_singleton in Hin as [= -> ->]. by vm_compute.
  - replace (claimed _) with (@nil Tid) in Hin; [by apply elem_of_nil in Hin |]. by destruct i; vm_compute.
Defined.



(** C36: However they interleave, the tables of the wait sets agree. A set has no member
    twice and at most 256, an object is observed by at most 4 sets, the Domain of a set is
    charged one registration for each member, the count of observers, on which a wake
    decides whether to look for any, is the number of the registered ones, and where no
    addition to a set is under way its observers are exactly those of its members. *)
Theorem wait_set_tables_agree process_of koid_of_process l :
  let s := run l (boot process_of koid_of_process) in
  (forall set, NoDup (members s set) /\ (length (members s set) <= MAX_WAIT_SET_MEMBERS)%nat /\ account s set = Z.of_nat (length (members s set))) /\
  (forall m, (length (sets_of m (observers s)) <= MAX_SETS_PER_OBJECT)%nat) /\
  ((forall j, adders s j = AtRest) -> observer_count s = Z.of_nat (length (observers s))) /\
  (forall set m, (forall j, adding (adders s j) <> Some set) -> m ∈ members s set <-> set ∈ sets_of m (observers s)).
Proof.
  intros s. assert (woken s) as [_ _ [T1 T2 T3 T4 T5 T6 T7 T8 T9 T10 T11]] by apply woken_run, woken_boot.
  split; [done |]. split; [done |]. split.
  - intros Hr. rewrite T8. do 2 f_equal. assert (forall o, o ∈ observers s -> counted o = true) as Hall.
    { intros o Ho. destruct (counted o) eqn:Hc; [done |]. destruct (T3 o Ho Hc) as [j Hj]. by rewrite Hr in Hj. }
    clear - Hall. induction (observers s) as [| o obs IH]; [done |]. rewrite filter_cons_True by (apply Hall; by left). f_equal. apply IH. intros. apply Hall. by right.
  - intros set m Hno. unfold sets_of. rewrite list_elem_of_fmap. split.
    + intros Hin. destruct (T1 set m Hin) as [Ho | (j & [Hj | Hj])]; [| by destruct (Hno j); rewrite Hj | by destruct (Hno j); rewrite Hj].
      exists (mkSetObserver m set true). by rewrite list_elem_of_filter.
    + intros (o & -> & [<- Ho]%list_elem_of_filter). by apply T2.
Qed.

(** C6: However they interleave, the intrusive run queues, which share one link in each
    thread, stand for the lists of threads the scheduler means: head, tail, length and links
    agree on every core. The runs excepted are those in which a flagged park the heap refused
    returns to its caller while a wake holds its thread; [refused_park_loses_a_thread] is
    one of them, and there the queues break. *)
Theorem run_queues_are_lists process_of koid_of_process l :
  careful l (boot process_of koid_of_process) = true ->
  simulates (linked l (boot process_of koid_of_process) no_queues) (queues_of (run l (boot process_of koid_of_process))).
Proof. intros Hc. apply linked_run; [apply homed_boot | exact simulates_boot | done]. Qed.

Lemma run_queues_are_lists_witness :
  careful (set_run ++ wakes 9) sample_boot = true /\ simulates (linked (set_run ++ wakes 9) sample_boot no_queues) (queues_of (run (set_run ++ wakes 9) sample_boot)).
Proof.
  assert (careful (set_run ++ wakes 9) sample_boot = true) as Hc by (by vm_compute). split; [exact Hc |].
  exact (run_queues_are_lists _ _ (set_run ++ wakes 9) Hc).
Defined.

(** C37: A thread can be queued twice, and a thread can be lost. A flagged park that the heap
    refuses a bucket entry returns to its caller also when a wake by name, of a signal, has
    claimed the thread: the thread runs on, is requeued like any other, and the wake queues
    it again. The second push cuts the chain of links behind the thread, so the one that
    waited there is in the queue of no core and is never run. *)
Theorem refused_park_loses_a_thread :
  let s := run refused_run sample_boot in
  queue (cores s 0) = [0; 1; 0]%nat /\
  (queues_run [Pop 0; Pop 0; Pop 0] (linked refused_run sample_boot no_queues)).1 = [Some 0%nat; None; None] /\
  state (threads s 1) = Ready /\ careful refused_run sample_boot = false.
Proof. by vm_compute. Qed.

(** A parked thread is not told of everything it should be. The park of a stopped process
    looks at nothing after it has registered, and the park of a running one only at the
    object: a continuation, and a kill, that comes after the wait call has asked for it and
    before the thread is registered leaves the thread blocked with no wake under way. So
    does an object that is ready when it joins the wait set the thread is parked on. *)
Theorem parked_thread_is_not_told :
  (let s := run continued_run sample_boot in asleep s /\ truth s (Unheld 0 100) = true) /\
  (let s := run killed_run sample_boot in asleep s /\ killed s 0%nat = true) /\
  (let s := run joined_run sample_boot in asleep s /\ members s 9 = [7] /\ truth s (ReadyObject 7) = true).
Proof. repeat split; try (by vm_compute); intros []; by vm_compute. Qed.
