(* ===== verification/Elf.v ===== *)
(** The ELF reader the loader and the kernel share (boot/protocol/src/elf.rs): the header
    and its segments, the sections and the identity note, the dynamic table with its
    relocations and symbols, and the plan of a load. Bytes are values in 0..255; a [usize]
    is 64 bits; a structure read from the file is its fields at their offsets. *)

From S2P Require Import Prelude Wire.

Definition ELF_MAGIC : list Z := [0x7f; 69; 76; 70].
Definition ELFCLASS64 : Z := 2.
Definition ELFDATA2LSB : Z := 1.
Definition EV_CURRENT : Z := 1.
Definition SHT_NOTE : Z := 7.
Definition SHF_ALLOC : Z := 2.
Definition MAX_LIBER_IDENTITY_RECORD_BYTES : Z := 8 * 1024.
(** [.note.liber.identity] and [LIBER] with its zero. *)
Definition LIBER_IDENTITY_SECTION : list Z := [46; 110; 111; 116; 101; 46; 108; 105; 98; 101; 114; 46; 105; 100; 101; 110; 116; 105; 116; 121].
Definition LIBER_IDENTITY_NOTE_NAME : list Z := [76; 73; 66; 69; 82; 0].
Definition LIBER_IDENTITY_NOTE_TYPE : Z := 1.
Definition ET_EXEC : Z := 2.
Definition ET_DYN : Z := 3.
Definition EM_X86_64 : Z := 62.
Definition EM_AARCH64 : Z := 183.
Definition EM_RISCV : Z := 243.
Definition PT_LOAD : Z := 1.
Definition PT_DYNAMIC : Z := 2.
Definition PF_X : Z := 1.
Definition PF_W : Z := 2.
Definition DT_NULL : Z := 0.
Definition DT_NEEDED : Z := 1.
Definition DT_RELA : Z := 7.
Definition EHSIZE : Z := 64.
Definition PHSIZE : Z := 56.
Definition SHSIZE : Z := 64.
Definition DYNSIZE : Z := 16.
Definition RELASIZE : Z := 24.
Definition SYMSIZE : Z := 24.
Definition MAX_SYMBOLS : Z := 65536.
Definition MAX_NEEDED : nat := 64.

(** ** Bytes *)

Definition usize_add (a b : Z) : option Z := checked_add U64_MAX a b.
Definition usize_mul (a b : Z) : option Z := checked_mul U64_MAX a b.
Definition len (bytes : list Z) : Z := Z.of_nat (length bytes).

(** [bytes.get(start..end)] and [bytes.get(start..)]. *)
Definition slice (bytes : list Z) (start end_ : Z) : option (list Z) :=
  if (start <=? end_) && (end_ <=? len bytes) then Some (take (Z.to_nat (end_ - start)) (drop (Z.to_nat start) bytes)) else None.
Definition slice_from (bytes : list Z) (start : Z) : option (list Z) := slice bytes start (len bytes).

(** [n] bytes of a structure at an offset. *)
Definition field (bytes : list Z) (off n : nat) : Z := le_decode (take n (drop off bytes)).
Definition signed64 (z : Z) : Z := if z <? 2 ^ 63 then z else z - TWO64.

(** [iter().position(|byte| *byte == 0)]. *)
Fixpoint zero_at (bytes : list Z) : option nat :=
  match bytes with
  | [] => None
  | b :: bytes => if b =? 0 then Some O else S <$> zero_at bytes
  end.

(** Run an iterator to its end. *)
Fixpoint collect {I A} (next : I -> option (A * I)) (fuel : nat) (i : I) : list A :=
  match fuel with
  | O => []
  | S fuel => match next i with Some (a, i) => a :: collect next fuel i | None => [] end
  end.

(** ** Structures *)

Inductive DynamicRelocationKind := Relative | ToSymbol.

Definition accepts_symbol (k : DynamicRelocationKind) (symbol : Z) : bool :=
  match k with Relative => symbol =? 0 | ToSymbol => true end.

Definition dynamic_relocation_kind (machine relocation : Z) : option DynamicRelocationKind :=
  let pick relative symbols :=
    if relocation =? relative then Some Relative else if existsb (Z.eqb relocation) symbols then Some ToSymbol else None in
  if machine =? EM_X86_64 then pick 8 [1; 6; 7]
  else if machine =? EM_AARCH64 then pick 1027 [257; 1025; 1026]
  else if machine =? EM_RISCV then pick 3 [2; 5]
  else None.

Record ProgramHeader := mkProgramHeader {
  p_type : Z; p_flags : Z; p_offset : Z; p_vaddr : Z; p_paddr : Z; p_filesz : Z; p_memsz : Z; p_align : Z;
}.

Definition read_program_header (b : list Z) : ProgramHeader :=
  mkProgramHeader (field b 0 4) (field b 4 4) (field b 8 8) (field b 16 8) (field b 24 8) (field b 32 8) (field b 40 8) (field b 48 8).

Record SectionHeader := mkSectionHeader { sh_name : Z; sh_type : Z; sh_flags : Z; sh_offset : Z; sh_size : Z }.

Definition read_section_header (b : list Z) : SectionHeader :=
  mkSectionHeader (field b 0 4) (field b 4 4) (field b 8 8) (field b 24 8) (field b 32 8).

Record DynamicEntry := mkDynamicEntry { d_tag : Z; d_value : Z }.

Definition read_dynamic_entry (b : list Z) : DynamicEntry := mkDynamicEntry (signed64 (field b 0 8)) (field b 8 8).

Record Rela := mkRela { r_offset : Z; r_info : Z; r_addend : Z }.

Definition read_rela (b : list Z) : Rela := mkRela (field b 0 8) (field b 8 8) (signed64 (field b 16 8)).
Definition rela_symbol (r : Rela) : Z := Z.shiftr (r_info r) 32.
Definition relocation_type (r : Rela) : Z := wrap32 (r_info r).

Record Symbol := mkSymbol { st_name : Z; st_info : Z; st_other : Z; st_section : Z; st_value : Z; st_size : Z }.

Definition read_symbol (b : list Z) : Symbol := mkSymbol (field b 0 4) (field b 4 1) (field b 5 1) (field b 6 2) (field b 8 8) (field b 16 8).
Definition binding (s : Symbol) : Z := Z.shiftr (st_info s) 4.
Definition is_defined (s : Symbol) : bool := negb (st_section s =? 0).
Definition symbol_type (s : Symbol) : Z := Z.land (st_info s) 0x0f.
Definition visibility (s : Symbol) : Z := Z.land (st_other s) 0x03.

Record Elf := mkElf {
  e_bytes : list Z;
  image_type : Z;
  entry : Z;
  phoff : Z;
  phentsize : Z;
  phnum : Z;
  shoff : Z;
  shentsize : Z;
  shnum : Z;
  shstrndx : Z;
}.

(** ** Segments *)

Definition segment_count (e : Elf) : nat := Z.to_nat (phnum e).

Definition segment (e : Elf) (i : nat) : option ProgramHeader :=
  if phnum e <=? Z.of_nat i then None
  else
    row ← usize_mul (Z.of_nat i) (phentsize e);
    off ← usize_add (phoff e) row;
    end_ ← usize_add off PHSIZE;
    if len (e_bytes e) <? end_ then None else Some (read_program_header (take (Z.to_nat PHSIZE) (drop (Z.to_nat off) (e_bytes e)))).

Definition segment_data (e : Elf) (ph : ProgramHeader) : option (list Z) :=
  end_ ← usize_add (p_offset ph) (p_filesz ph);
  slice (e_bytes e) (p_offset ph) end_.

Definition is_power_of_two (z : Z) : bool := (0 <? z) && (Z.land z (z - 1) =? 0).

(** The congruence of a segment's address and its place in the file. *)
Definition congruent (ph : ProgramHeader) : bool :=
  if 1 <? p_align ph then is_power_of_two (p_align ph) && (p_vaddr ph mod p_align ph =? p_offset ph mod p_align ph) else true.

Definition is_some {A} (o : option A) : bool := match o with Some _ => true | None => false end.

(** What [parse] asks of a segment. *)
Definition segment_ok (e : Elf) (ph : ProgramHeader) : bool :=
  if p_type ph =? PT_LOAD then
    is_some (checked_add U64_MAX (p_paddr ph) (p_memsz ph)) && is_some (checked_add U64_MAX (p_vaddr ph) (p_memsz ph)) &&
    (p_filesz ph <=? p_memsz ph) && (negb (0 <? p_filesz ph) || is_some (segment_data e ph)) && congruent ph
  else true.

Definition segments_ok (e : Elf) : bool :=
  forallb (fun i => match segment e i with Some ph => segment_ok e ph | None => false end) (seq 0 (segment_count e)).

Definition parse_for_machine (bytes : list Z) (machine : Z) : option Elf :=
  if len bytes <? EHSIZE then None
  else if negb (bool_decide (take 4 bytes = ELF_MAGIC)) then None
  else if negb (field bytes 4 1 =? ELFCLASS64) || negb (field bytes 5 1 =? ELFDATA2LSB) then None
  else if negb (field bytes 6 1 =? EV_CURRENT) || negb (field bytes 20 4 =? EV_CURRENT) then None
  else
    let e_type := field bytes 16 2 in
    let e_phentsize := field bytes 54 2 in
    if (negb (e_type =? ET_EXEC) && negb (e_type =? ET_DYN)) || negb (field bytes 18 2 =? machine) ||
       negb (field bytes 52 2 =? EHSIZE) || negb (e_phentsize =? PHSIZE)
    then None
    else
      let e_phnum := field bytes 56 2 in
      let e_phoff := field bytes 32 8 in
      table_len ← usize_mul e_phnum e_phentsize;
      table_end ← usize_add e_phoff table_len;
      if len bytes <? table_end then None
      else
        let image :=
          mkElf bytes e_type (field bytes 24 8) e_phoff e_phentsize e_phnum (field bytes 40 8) (field bytes 58 2) (field bytes 60 2) (field bytes 62 2) in
        if segments_ok image then Some image else None.

(** ** Sections and the identity note *)

Definition section (e : Elf) (index : Z) : option SectionHeader :=
  if negb (shentsize e =? SHSIZE) || (shnum e <=? index) then None
  else
    row ← usize_mul index (shentsize e);
    start ← usize_add (shoff e) row;
    end_ ← usize_add start SHSIZE;
    read_section_header <$> slice (e_bytes e) start end_.

Definition section_data (e : Elf) (s : SectionHeader) : option (list Z) :=
  end_ ← usize_add (sh_offset s) (sh_size s);
  slice (e_bytes e) (sh_offset s) end_.

Definition section_name (strings : list Z) (offset : Z) : option (list Z) :=
  tail ← slice_from strings offset;
  end_ ← zero_at tail;
  Some (take end_ tail).

(** [x.checked_add(3)? & !3]. *)
Definition round4 (z : Z) : option Z := s ← usize_add z 3; Some (Z.land s (Z.lnot 3)).

Definition u32_of (b : list Z) (off : Z) : option Z := le_decode <$> slice b off (off + 4).

(** The record of one note section, or that the note is malformed. *)
Definition note_record (note : list Z) : option (list Z) :=
  name_len ← u32_of note 0;
  record_len ← u32_of note 4;
  name_end ← usize_add 12 name_len;
  record_start ← round4 name_end;
  record_end ← usize_add record_start record_len;
  padded ← round4 record_end;
  if (record_len =? 0) || (MAX_LIBER_IDENTITY_RECORD_BYTES <? record_len) then None
  else
    kind ← u32_of note 8;
    if negb (kind =? LIBER_IDENTITY_NOTE_TYPE) then None
    else
      name ← slice note 12 name_end;
      if negb (bool_decide (name = LIBER_IDENTITY_NOTE_NAME)) then None
      else
        gap ← slice note name_end record_start;
        if existsb (fun b => negb (b =? 0)) gap then None
        else
          pad ← slice note record_end padded;
          if existsb (fun b => negb (b =? 0)) pad || negb (len note =? padded) then None
          else slice note record_start record_end.

(** The walk over the sections from [index]; a second record refuses the image. *)
Fixpoint find_note (e : Elf) (strings : list Z) (n : nat) (index : Z) (record : option (list Z)) : option (option (list Z)) :=
  match n with
  | O => Some record
  | S n =>
      s ← section e index;
      if negb (sh_type s =? SHT_NOTE) || (Z.land (sh_flags s) SHF_ALLOC =? 0) then find_note e strings n (index + 1) record
      else
        name ← section_name strings (sh_name s);
        if negb (bool_decide (name = LIBER_IDENTITY_SECTION)) then find_note e strings n (index + 1) record
        else
          note ← section_data e s;
          value ← note_record note;
          if is_some record then None else find_note e strings n (index + 1) (Some value)
  end.

Definition liber_identity_note (e : Elf) : option (list Z) :=
  if (shnum e =? 0) || (shnum e <=? shstrndx e) then None
  else
    s ← section e (shstrndx e);
    strings ← section_data e s;
    record ← find_note e strings (Z.to_nat (shnum e)) 0 None;
    record.

(** ** Addresses *)

Fixpoint find_data (e : Elf) (address requested_end len_ : Z) (todo : list nat) : option (list Z) :=
  match todo with
  | [] => None
  | i :: todo =>
      ph ← segment e i;
      if negb (p_type ph =? PT_LOAD) then find_data e address requested_end len_ todo
      else
        segment_end ← checked_add U64_MAX (p_vaddr ph) (p_filesz ph);
        if (address <? p_vaddr ph) || (segment_end <? requested_end) then find_data e address requested_end len_ todo
        else
          start ← checked_add U64_MAX (p_offset ph) (address - p_vaddr ph);
          end_ ← usize_add start len_;
          slice (e_bytes e) start end_
  end.

Definition virtual_data (e : Elf) (address len_ : Z) : option (list Z) :=
  requested_end ← checked_add U64_MAX address len_;
  find_data e address requested_end len_ (seq 0 (segment_count e)).

(** ** The dynamic table *)

Record DynamicEntries := mkDynamicEntries { de_bytes : list Z; de_offset : Z; terminated : bool }.

Definition next_entry (it : DynamicEntries) : option (DynamicEntry * DynamicEntries) :=
  if terminated it || (de_offset it =? len (de_bytes it)) then None
  else
    end_ ← usize_add (de_offset it) DYNSIZE;
    b ← slice (de_bytes it) (de_offset it) end_;
    let d := read_dynamic_entry b in
    Some (d, mkDynamicEntries (de_bytes it) end_ (d_tag d =? DT_NULL)).

Definition entries_of (it : DynamicEntries) : list DynamicEntry := collect next_entry (S (length (de_bytes it))) it.

(** [chunks_exact(16).position(..)]: the index of the first entry that ends the table. *)
Fixpoint terminator (fuel : nat) (bytes : list Z) : option Z :=
  match fuel with
  | O => None
  | S fuel =>
      if len bytes <? DYNSIZE then None
      else if d_tag (read_dynamic_entry (take 16 bytes)) =? DT_NULL then Some 0
      else Z.succ <$> terminator fuel (drop 16 bytes)
  end.

Fixpoint find_dynamic (e : Elf) (todo : list nat) (dynamic : option DynamicEntries) : option (option DynamicEntries) :=
  match todo with
  | [] => Some dynamic
  | i :: todo =>
      ph ← segment e i;
      if negb (p_type ph =? PT_DYNAMIC) then find_dynamic e todo dynamic
      else if is_some dynamic || (p_filesz ph =? 0) || negb (p_filesz ph mod DYNSIZE =? 0) then None
      else
        bytes ← segment_data e ph;
        at_ ← terminator (length bytes) bytes;
        used ← usize_mul (at_ + 1) DYNSIZE;
        find_dynamic e todo (Some (mkDynamicEntries (take (Z.to_nat used) bytes) 0 false))
  end.

Definition dynamic_entries (e : Elf) : option (option DynamicEntries) := find_dynamic e (seq 0 (segment_count e)) None.

Record DynamicInfo := mkDynamicInfo {
  hash : option Z; strtab : option Z; strsz : option Z; symtab : option Z; syment : option Z;
  rela : option Z; relasz : option Z; relaent : option Z; relacount : option Z;
  jmprel : option Z; pltrelsz : option Z; pltrel : option Z;
  init_array : option Z; init_arraysz : option Z; fini_array : option Z; fini_arraysz : option Z;
}.

Definition no_info : DynamicInfo := mkDynamicInfo None None None None None None None None None None None None None None None None.

(** The slot of a tag, and its [replace] where it was empty. *)
Definition store (tag value : Z) (i : DynamicInfo) : option DynamicInfo :=
  let '(mkDynamicInfo hash strtab strsz symtab syment rela relasz relaent relacount jmprel pltrelsz pltrel init_array init_arraysz fini_array fini_arraysz) := i in
  let fresh (slot : option Z) (i : DynamicInfo) := if is_some slot then None else Some i in
  let v := Some value in
  match tag with
  | 4 => fresh hash (mkDynamicInfo v strtab strsz symtab syment rela relasz relaent relacount jmprel pltrelsz pltrel init_array init_arraysz fini_array fini_arraysz)
  | 5 => fresh strtab (mkDynamicInfo hash v strsz symtab syment rela relasz relaent relacount jmprel pltrelsz pltrel init_array init_arraysz fini_array fini_arraysz)
  | 10 => fresh strsz (mkDynamicInfo hash strtab v symtab syment rela relasz relaent relacount jmprel pltrelsz pltrel init_array init_arraysz fini_array fini_arraysz)
  | 6 => fresh symtab (mkDynamicInfo hash strtab strsz v syment rela relasz relaent relacount jmprel pltrelsz pltrel init_array init_arraysz fini_array fini_arraysz)
  | 11 => fresh syment (mkDynamicInfo hash strtab strsz symtab v rela relasz relaent relacount jmprel pltrelsz pltrel init_array init_arraysz fini_array fini_arraysz)
  | 7 => fresh rela (mkDynamicInfo hash strtab strsz symtab syment v relasz relaent relacount jmprel pltrelsz pltrel init_array init_arraysz fini_array fini_arraysz)
  | 8 => fresh relasz (mkDynamicInfo hash strtab strsz symtab syment rela v relaent relacount jmprel pltrelsz pltrel init_array init_arraysz fini_array fini_arraysz)
  | 9 => fresh relaent (mkDynamicInfo hash strtab strsz symtab syment rela relasz v relacount jmprel pltrelsz pltrel init_array init_arraysz fini_array fini_arraysz)
  | 0x6ffffff9 => fresh relacount (mkDynamicInfo hash strtab strsz symtab syment rela relasz relaent v jmprel pltrelsz pltrel init_array init_arraysz fini_array fini_arraysz)
  | 23 => fresh jmprel (mkDynamicInfo hash strtab strsz symtab syment rela relasz relaent relacount v pltrelsz pltrel init_array init_arraysz fini_array fini_arraysz)
  | 2 => fresh pltrelsz (mkDynamicInfo hash strtab strsz symtab syment rela relasz relaent relacount jmprel v pltrel init_array init_arraysz fini_array fini_arraysz)
  | 20 => fresh pltrel (mkDynamicInfo hash strtab strsz symtab syment rela relasz relaent relacount jmprel pltrelsz v init_array init_arraysz fini_array fini_arraysz)
  | 25 => fresh init_array (mkDynamicInfo hash strtab strsz symtab syment rela relasz relaent relacount jmprel pltrelsz pltrel v init_arraysz fini_array fini_arraysz)
  | 27 => fresh init_arraysz (mkDynamicInfo hash strtab strsz symtab syment rela relasz relaent relacount jmprel pltrelsz pltrel init_array v fini_array fini_arraysz)
  | 26 => fresh fini_array (mkDynamicInfo hash strtab strsz symtab syment rela relasz relaent relacount jmprel pltrelsz pltrel init_array init_arraysz v fini_arraysz)
  | 28 => fresh fini_arraysz (mkDynamicInfo hash strtab strsz symtab syment rela relasz relaent relacount jmprel pltrelsz pltrel init_array init_arraysz fini_array v)
  | _ => Some i
  end.

Fixpoint gather (l : list DynamicEntry) (i : DynamicInfo) : option DynamicInfo :=
  match l with
  | [] => Some i
  | d :: l => if d_tag d =? DT_NULL then Some i else i ← store (d_tag d) (d_value d) i; gather l i
  end.

(** Present all together or not at all. *)
Definition rela_ok (e : Elf) (i : DynamicInfo) : bool :=
  match rela i, relasz i, relaent i with
  | None, None, None => true
  | Some at_, Some size, Some ent =>
      (ent =? RELASIZE) && (size mod ent =? 0) && is_some (virtual_data e at_ size) &&
      match relacount i with Some count => count <=? size / ent | None => true end
  | _, _, _ => false
  end.
Definition array_ok (e : Elf) (at_ size : option Z) : bool :=
  match at_, size with
  | None, None => true
  | Some at_, Some size => (size mod 8 =? 0) && is_some (virtual_data e at_ size)
  | _, _ => false
  end.
Definition strings_ok (e : Elf) (i : DynamicInfo) : bool :=
  match strtab i, strsz i with
  | None, None => true
  | Some at_, Some size => is_some (virtual_data e at_ size)
  | _, _ => false
  end.
Definition plt_ok (e : Elf) (i : DynamicInfo) : bool :=
  match jmprel i, pltrelsz i, pltrel i with
  | None, None, None => true
  | Some at_, Some size, Some kind => (kind =? DT_RELA) && (size mod RELASIZE =? 0) && is_some (virtual_data e at_ size)
  | _, _, _ => false
  end.
Definition symtab_ok (i : DynamicInfo) : bool :=
  Bool.eqb (is_some (symtab i)) (is_some (syment i)) && match syment i with Some size => size =? SYMSIZE | None => true end &&
  (negb (is_some (hash i)) || is_some (symtab i) && is_some (strtab i)).

Definition dynamic_info (e : Elf) : option (option DynamicInfo) :=
  entries ← dynamic_entries e;
  match entries with
  | None => Some None
  | Some it =>
      i ← gather (entries_of it) no_info;
      if rela_ok e i && array_ok e (init_array i) (init_arraysz i) && array_ok e (fini_array i) (fini_arraysz i) && strings_ok e i && plt_ok e i && symtab_ok i
      then Some (Some i) else None
  end.

(** ** Relocations, needed names and symbols *)

Record RelaEntries := mkRelaEntries { re_bytes : list Z; re_offset : Z }.

Definition next_rela (it : RelaEntries) : option (Rela * RelaEntries) :=
  if re_offset it =? len (re_bytes it) then None
  else
    end_ ← usize_add (re_offset it) RELASIZE;
    b ← slice (re_bytes it) (re_offset it) end_;
    Some (read_rela b, mkRelaEntries (re_bytes it) end_).

Definition relas_of (it : RelaEntries) : list Rela := collect next_rela (S (length (re_bytes it))) it.

Definition rela_entries (e : Elf) (i : DynamicInfo) : option RelaEntries :=
  match rela i, relasz i, relaent i with
  | Some address, Some size, Some ent =>
      if negb (ent =? RELASIZE) || negb (size mod ent =? 0) then None
      else (fun b => mkRelaEntries b 0) <$> virtual_data e address size
  | _, _, _ => Some (mkRelaEntries [] 0)
  end.

Definition plt_rela_entries (e : Elf) (i : DynamicInfo) : option RelaEntries :=
  match jmprel i, pltrelsz i, pltrel i with
  | Some address, Some size, Some kind =>
      if negb (kind =? DT_RELA) || negb (size mod RELASIZE =? 0) then None
      else (fun b => mkRelaEntries b 0) <$> virtual_data e address size
  | _, _, _ => Some (mkRelaEntries [] 0)
  end.

Definition string_at (strings : list Z) (offset : Z) : option (list Z) :=
  tail ← slice_from strings offset;
  end_ ← zero_at tail;
  if utf8_valid (take end_ tail) then Some (take end_ tail) else None.

(** [DT_NEEDED] up to the end of the table; more than 64 refuse the image. *)
Fixpoint needed_offsets (l : list DynamicEntry) (offsets : list Z) : option (list Z) :=
  match l with
  | [] => Some offsets
  | d :: l =>
      if d_tag d =? DT_NULL then Some offsets
      else if d_tag d =? DT_NEEDED then if (length offsets =? MAX_NEEDED)%nat then None else needed_offsets l (offsets ++ [d_value d])
      else needed_offsets l offsets
  end.

(** The names, which [NeededNames] then hands out one by one. *)
Definition needed_names (e : Elf) (i : DynamicInfo) : option (list (list Z)) :=
  entries ← dynamic_entries e;
  offsets ← needed_offsets (match entries with Some it => entries_of it | None => [] end) [];
  match offsets with
  | [] => Some []
  | _ =>
      at_ ← strtab i;
      size ← strsz i;
      strings ← virtual_data e at_ size;
      mapM (string_at strings) offsets
  end.

Record Symbols := mkSymbols { sy_bytes : list Z; sy_strings : list Z; sy_index : Z }.

Definition next_symbol (it : Symbols) : option ((Symbol * list Z) * Symbols) :=
  offset ← usize_mul (sy_index it) SYMSIZE;
  if offset =? len (sy_bytes it) then None
  else
    end_ ← usize_add offset SYMSIZE;
    b ← slice (sy_bytes it) offset end_;
    let symbol := read_symbol b in
    name ← string_at (sy_strings it) (st_name symbol);
    Some ((symbol, name), mkSymbols (sy_bytes it) (sy_strings it) (sy_index it + 1)).

Definition symbols_of (it : Symbols) : list (Symbol * list Z) := collect next_symbol (S (length (sy_bytes it))) it.

(** Every symbol has its name before any is handed out. *)
Definition names_ok (symbols strings : list Z) (count : Z) : bool :=
  forallb (fun index =>
    match slice symbols (Z.of_nat index * SYMSIZE) (Z.of_nat index * SYMSIZE + SYMSIZE) with
    | Some b => is_some (string_at strings (st_name (read_symbol b)))
    | None => false
    end) (seq 0 (Z.to_nat count)).

Definition symbols (e : Elf) (i : DynamicInfo) : option Symbols :=
  hash_address ← hash i;
  header ← virtual_data e hash_address 8;
  let bucket_count := field header 0 4 in
  let symbol_count := field header 4 4 in
  if (bucket_count =? 0) || (symbol_count =? 0) || (MAX_SYMBOLS <? symbol_count) then None
  else
    words ← checked_add U64_MAX bucket_count symbol_count;
    word_bytes ← checked_mul U64_MAX words 4;
    hash_len ← checked_add U64_MAX 8 word_bytes;
    _ ← virtual_data e hash_address hash_len;
    symbol_bytes ← checked_mul U64_MAX symbol_count SYMSIZE;
    at_ ← symtab i;
    table ← virtual_data e at_ symbol_bytes;
    string_at_ ← strtab i;
    size ← strsz i;
    strings ← virtual_data e string_at_ size;
    if names_ok table strings symbol_count then Some (mkSymbols table strings 0) else None.

(** [self.symbols(info)?.nth(index)]. *)
Definition symbol (e : Elf) (i : DynamicInfo) (index : Z) : option (Symbol * list Z) :=
  it ← symbols e i;
  symbols_of it !! Z.to_nat index.

(** ** The plan of a load *)

Definition MAX_LOAD_SEGMENTS : nat := 16.

Inductive LoadPlanError :=
| NotExecutable
| NoLoadableSegment
| TooManyLoadableSegments
| NotPageAligned (index : nat)
| WritableAndExecutable (index : nat)
| SpanWraps (index : nat)
| Overlap (a b : nat)
| EntryNotInAnExecutableSegment.

Record LoadRules := mkLoadRules {
  page_size : Z;
  require_executable_type : bool;
  require_page_aligned : bool;
  require_w_xor_x : bool;
  require_entry_in_executable_segment : bool;
}.

Definition kernel_rules (page_size : Z) : LoadRules := mkLoadRules page_size true true true true.

Record LoadPlan := mkLoadPlan { plan_entry : Z; plan_segments : nat; virt_low : Z; virt_high : Z; phys_low : Z; phys_high : Z }.

Definition align_down_to (value page : Z) : Z := Z.land value (Z.lnot (page - 1)).
Definition align_up_to (value page : Z) : option Z := s ← checked_add U64_MAX value (page - 1); Some (align_down_to s page).

(** A loadable segment: its index, its pages, virtual and physical, and its flags. *)
Record Span := mkSpan { s_index : nat; vlow : Z; vhigh : Z; plow : Z; phigh : Z; s_flags : Z }.

Definition writable (flags : Z) : bool := negb (Z.land flags PF_W =? 0).
Definition executable (flags : Z) : bool := negb (Z.land flags PF_X =? 0).

Definition span_of (rules : LoadRules) (index : nat) (ph : ProgramHeader) : result Span LoadPlanError :=
  let page := page_size rules in
  if require_page_aligned rules && (negb (p_vaddr ph mod page =? 0) || negb (p_paddr ph mod page =? 0)) then Err (NotPageAligned index)
  else if require_w_xor_x rules && writable (p_flags ph) && executable (p_flags ph) then Err (WritableAndExecutable index)
  else
    match checked_add U64_MAX (p_vaddr ph) (p_memsz ph), checked_add U64_MAX (p_paddr ph) (p_memsz ph) with
    | Some vend, Some pend =>
        match align_up_to vend page, align_up_to pend page with
        | Some vtop, Some ptop => Ok (mkSpan index (align_down_to (p_vaddr ph) page) vtop (align_down_to (p_paddr ph) page) ptop (p_flags ph))
        | _, _ => Err (SpanWraps index)
        end
    | _, _ => Err (SpanWraps index)
    end.

Fixpoint collect_spans (e : Elf) (rules : LoadRules) (todo : list nat) (spans : list Span) : result (list Span) LoadPlanError :=
  match todo with
  | [] => Ok spans
  | index :: todo =>
      match segment e index with
      | None => collect_spans e rules todo spans
      | Some ph =>
          if negb (p_type ph =? PT_LOAD) || (p_memsz ph =? 0) then collect_spans e rules todo spans
          else if (length spans =? MAX_LOAD_SEGMENTS)%nat then Err TooManyLoadableSegments
          else match span_of rules index ph with Ok s => collect_spans e rules todo (spans ++ [s]) | Err err => Err err end
      end
  end.

Definition collide (a b : Span) : bool :=
  (vlow a <? vhigh b) && (vlow b <? vhigh a) || (plow a <? phigh b) && (plow b <? phigh a).

(** The first pair that shares a page. *)
Fixpoint first_overlap (spans : list Span) : option (nat * nat) :=
  match spans with
  | [] => None
  | a :: spans =>
      match List.find (collide a) spans with
      | Some b => Some (s_index a, s_index b)
      | None => first_overlap spans
      end
  end.

Definition grow (plan : LoadPlan) (s : Span) : LoadPlan :=
  mkLoadPlan (plan_entry plan) (plan_segments plan)
    (if vlow s <? virt_low plan then vlow s else virt_low plan) (if virt_high plan <? vhigh s then vhigh s else virt_high plan)
    (if plow s <? phys_low plan then plow s else phys_low plan) (if phys_high plan <? phigh s then phigh s else phys_high plan).

Definition load_plan (e : Elf) (rules : LoadRules) : result LoadPlan LoadPlanError :=
  if require_executable_type rules && negb (image_type e =? ET_EXEC) then Err NotExecutable
  else
    match collect_spans e rules (seq 0 (segment_count e)) [] with
    | Err err => Err err
    | Ok [] => Err NoLoadableSegment
    | Ok spans =>
        match first_overlap spans with
        | Some (a, b) => Err (Overlap a b)
        | None =>
            if require_entry_in_executable_segment rules &&
               negb (existsb (fun s => executable (s_flags s) && (vlow s <=? entry e) && (entry e <? vhigh s)) spans)
            then Err EntryNotInAnExecutableSegment
            else Ok (foldl grow (mkLoadPlan (entry e) (length spans) U64_MAX 0 U64_MAX 0) spans)
        end
    end.
