(* ===== verification/ElfLoad.v ===== *)
(** How the kernel loads an ELF image into an address space (kernel/elf.rs, and what
    kernel/loader.rs does around it): the checks of a segment, its pages with the cache of
    shared ones, the relocations, the exports, and the ways back from a failure. The state
    is the free frames, the contents of frames, the page table of the process, the shared
    pages with their reference counts, and the answers of the heap and of the page-table
    code where they may refuse. *)

From stdpp Require Import functions.
From S2P Require Import Prelude Wire Elf.

Definition PAGE_SIZE : Z := 4096.
Definition DYNAMIC_MAIN_BASE : Z := 0x10000000.
Definition DYNAMIC_MAIN_SIZE : Z := 0x10000000.
Definition DYNAMIC_MODULE_BASE : Z := 0x20000000.
Definition DYNAMIC_MODULE_SLOT_SIZE : Z := 0x01000000.
Definition MAX_DYNAMIC_MODULES : Z := 64.
Definition MAX_SHARED_CACHE_KEYS : nat := 16384.
Definition MAX_HASH_COLLISIONS : nat := 8.
Definition MAX_DYNAMIC_SYMBOL_NAME : nat := 512.
Definition USER_STACK_TOP : Z := 0x80000000.
Definition USER_STACK_PAGES : Z := 8.
Definition STACK_BASE : Z := USER_STACK_TOP - USER_STACK_PAGES * PAGE_SIZE.

(** What differs between the architectures. *)
Record Arch := mkArch { machine : Z; USER_VA_END : Z; USER_MMAP_BASE : Z }.
Definition x86_64 : Arch := mkArch EM_X86_64 0x800000000000 0x400000000000.
Definition aarch64 : Arch := mkArch EM_AARCH64 0x800000000000 0x400000000000.
Definition riscv64 : Arch := mkArch EM_RISCV 0x4000000000 0x2000000000.

Inductive ElfError := BadImage | OutOfMemory.

Record LoadedSegment := mkLoadedSegment { seg_start : Z; seg_end : Z; seg_writable : bool; seg_executable : bool; first_frame : nat }.

(** The flags of a mapping; every one is present and for the user. *)
Record Flags := mkFlags { WRITABLE : bool; NO_EXECUTE : bool }.

Record World := mkWorld {
  pool : list Z;
  memory : Z -> list Z;
  table : gmap Z (Z * Flags);
  pages : gmap nat (Z * nat);            (** the frame of a shared page and its strong count *)
  next_page : nat;
  cache : list (Z * list nat);           (** [SHARED_PAGES]: weak references by hash *)
  answers : list bool;
  frames : list Z;                       (** the frames and shared pages of this load *)
  shared : list nat;
}.

Section setters.
Implicit Type w : World.
Definition set_pool x w := mkWorld x (memory w) (table w) (pages w) (next_page w) (cache w) (answers w) (frames w) (shared w).
Definition set_memory x w := mkWorld (pool w) x (table w) (pages w) (next_page w) (cache w) (answers w) (frames w) (shared w).
Definition set_table x w := mkWorld (pool w) (memory w) x (pages w) (next_page w) (cache w) (answers w) (frames w) (shared w).
Definition set_pages x w := mkWorld (pool w) (memory w) (table w) x (next_page w) (cache w) (answers w) (frames w) (shared w).
Definition set_next_page x w := mkWorld (pool w) (memory w) (table w) (pages w) x (cache w) (answers w) (frames w) (shared w).
Definition set_cache x w := mkWorld (pool w) (memory w) (table w) (pages w) (next_page w) x (answers w) (frames w) (shared w).
Definition set_answers x w := mkWorld (pool w) (memory w) (table w) (pages w) (next_page w) (cache w) x (frames w) (shared w).
Definition set_frames x w := mkWorld (pool w) (memory w) (table w) (pages w) (next_page w) (cache w) (answers w) x (shared w).
Definition set_shared x w := mkWorld (pool w) (memory w) (table w) (pages w) (next_page w) (cache w) (answers w) (frames w) x.
End setters.

(** Code that may refuse; what it changed before stays changed. *)
Definition L (A : Type) : Type := World -> result A ElfError * World.
#[export] Instance L_ret : MRet L := fun A a w => (Ok a, w).
#[export] Instance L_bind : MBind L := fun A B f m w =>
  match m w with
  | (Ok a, w) => f a w
  | (Err err, w) => (Err err, w)
  end.
Definition fail {A} (err : ElfError) : L A := fun w => (Err err, w).
Definition get {A} (f : World -> A) : L A := fun w => (Ok (f w), w).
Definition put (f : World -> World) : L unit := fun w => (Ok tt, f w).
Definition need {A} (o : option A) : L A := match o with Some a => mret a | None => fail BadImage end.
Definition guard_ (ok : bool) : L unit := if ok then mret tt else fail BadImage.

(** [try_reserve], [try_arc], [try_map]'s tables and the like: granted or refused. *)
Definition ask : L bool := fun w => match answers w with [] => (Ok false, w) | b :: l => (Ok b, set_answers l w) end.
Definition ask_room : L unit := granted ← ask; if granted : bool then mret tt else fail OutOfMemory.

(** ** Frames and the page table *)

Definition allocate : L Z := fun w => match pool w with [] => (Err OutOfMemory, w) | f :: l => (Ok f, set_pool l w) end.
Definition retire (l : list Z) (w : World) : World := set_pool (pool w ++ l) w.

Definition user_range_ok (a : Arch) (virt : Z) : bool :=
  (virt <? USER_VA_END a) && match checked_add U64_MAX virt PAGE_SIZE with Some end_ => end_ <=? USER_VA_END a | None => false end.

(** [AddressSpace::try_map]: a live page is not mapped again. *)
Definition try_map (a : Arch) (virt frame : Z) (flags : Flags) : L bool :=
  if negb (user_range_ok a virt) then mret false
  else
    granted ← ask;
    mapped ← get (fun w => is_some (table w !! virt));
    if negb granted || mapped then mret false
    else put (fun w => set_table (<[virt := (frame, flags)]> (table w)) w) ;; mret true.

Definition unmap (virt : Z) (w : World) : World := set_table (delete virt (table w)) w.

(** [n] pages from [start]. *)
Definition unmap_pages (start : Z) (n : nat) (w : World) : World :=
  foldl (fun w i => unmap (start + Z.of_nat i * PAGE_SIZE) w) w (seq 0 n).

(** ** Shared pages *)

(** One strong reference less; the last one gives the frame back. *)
Definition drop_page (id : nat) (w : World) : World :=
  match pages w !! id with
  | Some (f, S (S n)) => set_pages (<[id := (f, S n)]> (pages w)) w
  | Some (f, _) => retire [f] (set_pages (delete id (pages w)) w)
  | None => w
  end.
Definition clone_page (id : nat) (w : World) : World :=
  match pages w !! id with Some (f, n) => set_pages (<[id := (f, S n)]> (pages w)) w | None => w end.
Definition truncate (n : nat) (w : World) : World :=
  set_shared (take n (shared w)) (foldl (fun w id => drop_page id w) w (drop n (shared w))).

(** The bytes of a page: [copy] bytes of the data at their place, zeroes around them. *)
Definition page_of (data : list Z) (source_offset destination_offset copy : nat) : list Z :=
  replicate destination_offset 0 ++ take copy (drop source_offset data) ++ replicate (Z.to_nat PAGE_SIZE - destination_offset - copy) 0.

Definition initialize_page (frame : Z) (data : list Z) (source_offset destination_offset copy : nat) (w : World) : World :=
  set_memory (<[frame := page_of data source_offset destination_offset copy]> (memory w)) w.

Definition hash_byte (h b : Z) : Z := wrap64 (Z.lxor h b * 0x1000000001b3).
Definition page_hash (data : list Z) (source_offset destination_offset copy : nat) : Z :=
  foldl hash_byte 0xcbf29ce484222325 (page_of data source_offset destination_offset copy).

Definition page_matches (bytes data : list Z) (source_offset destination_offset copy : nat) : bool :=
  forallb (Z.eqb 0) (take destination_offset bytes) &&
  bool_decide (take copy (drop destination_offset bytes) = take copy (drop source_offset data)) &&
  forallb (Z.eqb 0) (drop (destination_offset + copy) bytes).

(** [binary_search_by] on the sorted vector: where the key is, or where it belongs. *)
Fixpoint search (hash : Z) (l : list (Z * list nat)) (at_ : nat) : result nat nat :=
  match l with
  | [] => Err at_
  | (key, _) :: l => if key =? hash then Ok at_ else if hash <? key then Err at_ else search hash l (S at_)
  end.

(** A fresh frame with the page in it, owned by a new shared page. *)
Definition new_page (data : list Z) (source_offset destination_offset copy : nat) : L nat :=
  f ← allocate;
  put (initialize_page f data source_offset destination_offset copy) ;;
  granted ← ask;
  if granted : bool then
    id ← get next_page;
    put (fun w => set_next_page (S id) (set_pages (<[id := (f, 1%nat)]> (pages w)) w)) ;; mret id
  else put (retire [f]) ;; fail OutOfMemory.

Definition shared_page (data : list Z) (source_offset destination_offset copy : nat) : L nat :=
  let hash := page_hash data source_offset destination_offset copy in
  found ← get (fun w => search hash (cache w) 0);
  match found with
  | Ok at_ =>
      put (fun w => set_cache (alter (fun '(key, l) => (key, filter (fun id => is_Some (pages w !! id)) l)) at_ (cache w)) w) ;;
      candidates ← get (fun w => match cache w !! at_ with Some (_, l) => l | None => [] end);
      same ← get (fun w => List.find (fun id =>
        match pages w !! id with Some (f, _) => page_matches (memory w f) data source_offset destination_offset copy | None => false end) candidates);
      match same with
      | Some id => put (clone_page id) ;; mret id
      | None =>
          id ← new_page data source_offset destination_offset copy;
          if (length candidates <? MAX_HASH_COLLISIONS)%nat then
            granted ← ask;
            if granted : bool then put (fun w => set_cache (alter (fun '(key, l) => (key, l ++ [id])) at_ (cache w)) w) ;; mret id
            else mret id
          else mret id
      end
  | Err at_ =>
      id ← new_page data source_offset destination_offset copy;
      keys ← get (fun w => length (cache w));
      if (keys <? MAX_SHARED_CACHE_KEYS)%nat then
        one ← ask;
        if one : bool then
          two ← ask;
          if two : bool then put (fun w => set_cache (take at_ (cache w) ++ (hash, [id]) :: drop at_ (cache w)) w) ;; mret id
          else mret id
        else mret id
      else mret id
  end.

(** ** Segments *)

Definition align_down (value : Z) : Z := Z.land value (Z.lnot (PAGE_SIZE - 1)).
Definition align_up (value : Z) : option Z := align_down <$> checked_add U64_MAX value (PAGE_SIZE - 1).

Definition overlaps (a_start a_end b_start b_end : Z) : bool := (a_start <? b_end) && (b_start <? a_end).

(** The pages a segment takes, where its addresses do not wrap. *)
Definition page_range (ph : ProgramHeader) (bias : Z) : option (Z * Z) :=
  load_start ← checked_add U64_MAX (p_vaddr ph) bias;
  load_end ← checked_add U64_MAX load_start (p_memsz ph);
  top ← align_up load_end;
  Some (align_down load_start, top).

Definition validate_segment (a : Arch) (ph : ProgramHeader) (bias : Z) (window : option (Z * Z)) (loaded : list LoadedSegment) : bool :=
  negb ((p_memsz ph =? 0) || (p_memsz ph <? p_filesz ph) || writable (p_flags ph) && executable (p_flags ph)) &&
  congruent ph &&
  match page_range ph bias with
  | None => false
  | Some (start, end_) =>
      negb ((USER_VA_END a <=? start) || (USER_VA_END a <? end_) || (end_ <=? start)) &&
      negb (overlaps start end_ STACK_BASE USER_STACK_TOP || overlaps start end_ (USER_MMAP_BASE a) (USER_VA_END a)) &&
      match window with Some (low, high) => (low <=? start) && (end_ <=? high) | None => true end &&
      negb (existsb (fun s => (start <? seg_end s) && (seg_start s <? end_)) loaded)
  end.

Definition flags_of (ph : ProgramHeader) : Flags := mkFlags (writable (p_flags ph)) (negb (executable (p_flags ph))).

(** What of the data lies in the page at [page_start]: its offset in the data, its offset in
    the page and its length. *)
Definition page_copy (load_start data_end page_start : Z) : nat * nat * nat :=
  let copy_start := Z.max page_start load_start in
  let copy_end := Z.min (page_start + PAGE_SIZE) data_end in
  let copy := Z.to_nat (sat_sub64 copy_end copy_start) in
  ((if (copy =? 0)%nat then 0%nat else Z.to_nat (sat_sub64 copy_start load_start)), Z.to_nat (copy_start - page_start), copy).

(** A page of a segment: the frame, and the shared page that owns it where it is immutable. *)
Definition page_frame (ph : ProgramHeader) (data : list Z) (source_offset destination_offset copy : nat) : L (Z * option nat) :=
  if negb (writable (p_flags ph)) then
    id ← shared_page data source_offset destination_offset copy;
    f ← get (fun w => match pages w !! id with Some (f, _) => f | None => 0 end);
    mret (f, Some id)
  else
    ask_room ;;
    f ← allocate;
    put (initialize_page f data source_offset destination_offset copy) ;;
    put (fun w => set_frames (frames w ++ [f]) w) ;;
    mret (f, None).

(** The local reference of a page that could not be kept. *)
Definition drop_local (page : option nat) (w : World) : World := match page with Some id => drop_page id w | None => w end.

(** The loop over the pages; [first_shared] is where the records of this segment start. *)
Fixpoint map_pages (a : Arch) (ph : ProgramHeader) (data : list Z) (load_start data_end start : Z) (first_shared : nat) (n page : nat) : L unit :=
  match n with
  | O => mret tt
  | S n =>
      let page_start := start + Z.of_nat page * PAGE_SIZE in
      _ ← need (checked_add U64_MAX page_start PAGE_SIZE);
      let '(source_offset, destination_offset, copy) := page_copy load_start data_end page_start in
      fp ← page_frame ph data source_offset destination_offset copy;
      mapped ← try_map a page_start fp.1 (flags_of ph);
      if negb mapped then
        put (fun w => drop_local fp.2 (truncate first_shared (unmap_pages start page w))) ;; fail OutOfMemory
      else
        match fp.2 with
        | None => map_pages a ph data load_start data_end start first_shared n (S page)
        | Some id =>
            granted ← ask;
            if granted : bool then
              put (fun w => set_shared (shared w ++ [id]) w) ;;
              map_pages a ph data load_start data_end start first_shared n (S page)
            else put (fun w => drop_page id (truncate first_shared (unmap_pages start (S page) w))) ;; fail OutOfMemory
        end
  end.

Definition map_segment (a : Arch) (data : list Z) (ph : ProgramHeader) (bias : Z) : L LoadedSegment :=
  load_start ← need (checked_add U64_MAX (p_vaddr ph) bias);
  data_end ← need (checked_add U64_MAX load_start (len data));
  load_end ← need (checked_add U64_MAX load_start (p_memsz ph));
  end_ ← need (align_up load_end);
  let start := align_down load_start in
  first_frame ← get (fun w => length (frames w));
  first_shared ← get (fun w => length (shared w));
  map_pages a ph data load_start data_end start first_shared (Z.to_nat ((end_ - start) / PAGE_SIZE)) 0 ;;
  mret (mkLoadedSegment start end_ (writable (p_flags ph)) (executable (p_flags ph)) first_frame).

Definition unmap_segments (loaded : list LoadedSegment) (w : World) : World :=
  foldl (fun w s => unmap_pages (seg_start s) (Z.to_nat ((seg_end s - seg_start s) / PAGE_SIZE)) w) w loaded.

(** ** Relocations and exports *)

Definition checked_add_signed (a b : Z) : option Z := if (0 <=? a + b) && (a + b <=? U64_MAX) then Some (a + b) else None.

Definition in_segment (address : Z) (s : LoadedSegment) : bool := (seg_start s <=? address) && (address <? seg_end s).

(** [write_unaligned] of a u64 at an offset of a page. *)
Definition write8 (bytes : list Z) (within : nat) (value : Z) : list Z := take within bytes ++ le_encode 8 value ++ drop (within + 8) bytes.

Definition write_loaded_u64 (loaded : list LoadedSegment) (address value : Z) : L unit :=
  s ← need (List.find (fun s => seg_writable s && (seg_start s <=? address) &&
                        match checked_add U64_MAX address 8 with Some end_ => end_ <=? seg_end s | None => false end) loaded);
  let offset := address - seg_start s in
  let within := offset mod PAGE_SIZE in
  guard_ (within + 8 <=? PAGE_SIZE) ;;
  fs ← get frames;
  f ← need (fs !! (first_frame s + Z.to_nat (offset / PAGE_SIZE))%nat);
  put (fun w => set_memory (<[f := write8 (memory w f) (Z.to_nat within) value]> (memory w)) w).

(** Where a relocation writes, and what. *)
Definition relocation_value (a : Arch) (e : Elf) (i : DynamicInfo) (bias : Z) (resolve : list Z -> option Z) (r : Rela) : option (Z * Z) :=
  target ← checked_add U64_MAX (r_offset r) bias;
  kind ← dynamic_relocation_kind (machine a) (relocation_type r);
  if negb (accepts_symbol kind (rela_symbol r)) then None
  else
    value ← match kind with
            | Relative => checked_add_signed bias (r_addend r)
            | ToSymbol =>
                sn ← symbol e i (rela_symbol r);
                if negb (symbol_type sn.1 <=? 2) then None
                else
                  base ← (if is_defined sn.1 then checked_add U64_MAX bias (st_value sn.1)
                          else match resolve sn.2 with
                               | Some address => Some address
                               | None => if binding sn.1 =? 2 then Some 0 else None
                               end);
                  checked_add_signed base (r_addend r)
            end;
    Some (target, value).

Fixpoint apply_each (a : Arch) (e : Elf) (i : DynamicInfo) (loaded : list LoadedSegment) (bias : Z) (resolve : list Z -> option Z) (l : list Rela) : L unit :=
  match l with
  | [] => mret tt
  | r :: l =>
      tv ← need (relocation_value a e i bias resolve r);
      write_loaded_u64 loaded tv.1 tv.2 ;;
      apply_each a e i loaded bias resolve l
  end.

Definition apply_relocations (a : Arch) (e : Elf) (loaded : list LoadedSegment) (bias : Z) (resolve : list Z -> option Z) : L unit :=
  dynamic ← need (dynamic_info e);
  match dynamic with
  | None => mret tt
  | Some i =>
      it ← need (rela_entries e i);
      plt ← need (plt_rela_entries e i);
      apply_each a e i loaded bias resolve (relas_of it ++ relas_of plt)
  end.

Definition exported (s : Symbol) (name : list Z) : bool :=
  is_defined s && ((binding s =? 1) || (binding s =? 2)) && (symbol_type s <=? 2) && ((visibility s =? 0) || (visibility s =? 3)) && negb (bool_decide (name = [])).

Fixpoint collect_each (loaded : list LoadedSegment) (bias : Z) (l : list (Symbol * list Z)) (exports : list (list Z * Z)) : L (list (list Z * Z)) :=
  match l with
  | [] => mret exports
  | (s, name) :: l =>
      if negb (exported s name) then collect_each loaded bias l exports
      else
        guard_ (negb ((MAX_DYNAMIC_SYMBOL_NAME <? length name)%nat || (Z.to_nat MAX_SYMBOLS <=? length exports)%nat)) ;;
        address ← need (checked_add U64_MAX bias (st_value s));
        guard_ (existsb (in_segment address) loaded) ;;
        guard_ (negb (existsb (fun x => bool_decide (x.1 = name)) exports)) ;;
        ask_room ;;
        ask_room ;;
        collect_each loaded bias l (exports ++ [(name, address)])
  end.

Definition collect_exports (e : Elf) (loaded : list LoadedSegment) (bias : Z) : L (list (list Z * Z)) :=
  dynamic ← need (dynamic_info e);
  match dynamic with
  | None => mret []
  | Some i => match symbols e i with Some it => collect_each loaded bias (symbols_of it) [] | None => mret [] end
  end.

(** ** Loading *)

(** The loop over the program headers. The segments that were loaded stay known when a later
    one fails, for the way back. *)
Fixpoint load_segments (a : Arch) (e : Elf) (bias : Z) (window : option (Z * Z)) (todo : list nat) (loaded : list LoadedSegment) (w : World) : (result unit ElfError * list LoadedSegment) * World :=
  match todo with
  | [] => ((Ok tt, loaded), w)
  | i :: todo =>
      match segment e i with
      | None => ((Err BadImage, loaded), w)
      | Some ph =>
          if negb (p_type ph =? PT_LOAD) then load_segments a e bias window todo loaded w
          else if negb (validate_segment a ph bias window loaded) then ((Err BadImage, loaded), w)
          else
            match segment_data e ph with
            | None => ((Err BadImage, loaded), w)
            | Some data =>
                match map_segment a data ph bias w with
                | (Ok s, w) => load_segments a e bias window todo (loaded ++ [s]) w
                | (Err err, w) => ((Err err, loaded), w)
                end
            end
      end
  end.

(** What follows the segments. *)
Definition finish_load (a : Arch) (e : Elf) (bias : Z) (require_entry : bool) (resolve : list Z -> option Z) (loaded : list LoadedSegment) : L (Z * list (list Z * Z)) :=
  guard_ (negb (bool_decide (length loaded = 0%nat))) ;;
  (if image_type e =? ET_DYN then apply_relocations a e loaded bias resolve else mret tt) ;;
  start ← need (checked_add U64_MAX (entry e) bias);
  guard_ (negb (require_entry && negb (existsb (fun s => seg_executable s && in_segment start s) loaded))) ;;
  exports ← collect_exports e loaded bias;
  mret (start, exports).

Definition load_parsed (a : Arch) (e : Elf) (bias : Z) (window : option (Z * Z)) (require_entry : bool) (resolve : list Z -> option Z) : L (Z * list (list Z * Z)) :=
  fun w =>
    match ask_room w with
    | (Err err, w) => (Err err, w)
    | (Ok _, w) =>
        let shared_start := length (shared w) in
        let '((r, loaded), w) := load_segments a e bias window (seq 0 (segment_count e)) [] w in
        let '(r, w) := match r with Ok _ => finish_load a e bias require_entry resolve loaded w | Err err => (Err err, w) end in
        match r with
        | Ok x => (Ok x, w)
        | Err err => (Err err, truncate shared_start (unmap_segments loaded w))
        end
    end.

Definition main_bias (e : Elf) : Z := if image_type e =? ET_DYN then DYNAMIC_MAIN_BASE else 0.
Definition main_window (e : Elf) : option (Z * Z) :=
  if image_type e =? ET_DYN then Some (DYNAMIC_MAIN_BASE, DYNAMIC_MAIN_BASE + DYNAMIC_MAIN_SIZE) else None.

Definition load_resolved_into (a : Arch) (bytes : list Z) (resolve : list Z -> option Z) : L Z :=
  e ← need (parse_for_machine bytes (machine a));
  loaded ← load_parsed a e (main_bias e) (main_window e) true resolve;
  mret loaded.1.
Definition load_into (a : Arch) (bytes : list Z) : L Z := load_resolved_into a bytes (fun _ => None).

Definition load_module_into (a : Arch) (bytes : list Z) (bias : Z) (resolve : list Z -> option Z) : L (list (list Z * Z)) :=
  e ← need (parse_for_machine bytes (machine a));
  guard_ (negb (negb (image_type e =? ET_DYN) || (bias <? DYNAMIC_MODULE_BASE) ||
    (DYNAMIC_MODULE_BASE + MAX_DYNAMIC_MODULES * DYNAMIC_MODULE_SLOT_SIZE <=? bias) || negb ((bias - DYNAMIC_MODULE_BASE) mod DYNAMIC_MODULE_SLOT_SIZE =? 0))) ;;
  loaded ← load_parsed a e bias (Some (bias, bias + DYNAMIC_MODULE_SLOT_SIZE)) false resolve;
  mret loaded.2.

(** [for_each_loaded_range] with the unmapping its callers do. *)
Definition unmap_ranges (e : Elf) (bias : Z) (w : World) : World :=
  foldl (fun w i =>
    match segment e i with
    | Some ph =>
        if negb (p_type ph =? PT_LOAD) then w
        else match page_range ph bias with Some (start, end_) => unmap_pages start (Z.to_nat ((end_ - start) / PAGE_SIZE)) w | None => w end
    | None => w
    end) w (seq 0 (segment_count e)).

Fixpoint unmap_from (e : Elf) (bias : Z) (todo : list nat) (w : World) : World :=
  match todo with
  | [] => w
  | i :: todo =>
      match segment e i with
      | None => w
      | Some ph =>
          if negb (p_type ph =? PT_LOAD) || (p_memsz ph =? 0) then unmap_from e bias todo w
          else
            match page_range ph bias with
            | None => w
            | Some (start, end_) => unmap_from e bias todo (unmap_pages start (Z.to_nat ((end_ - start) / PAGE_SIZE)) w)
            end
      end
  end.
Definition unmap_module (e : Elf) (bias : Z) (w : World) : World := unmap_from e bias (seq 0 (segment_count e)) w.

(** ** What the process loader does around a load *)

Definition free_frames (w : World) : World := set_frames [] (retire (frames w) w).
(** The vector of shared pages goes out of scope. *)
Definition drop_shared (w : World) : World := truncate 0 w.

Fixpoint map_stack_pages (a : Arch) (n page : nat) : L unit :=
  match n with
  | O => mret tt
  | S n => fun w =>
      match allocate w with
      | (Err err, w) => (Err err, unmap_pages STACK_BASE page w)
      | (Ok f, w) =>
          let w := set_memory (<[f := replicate (Z.to_nat PAGE_SIZE) 0]> (memory w)) (set_frames (frames w ++ [f]) w) in
          match try_map a (STACK_BASE + Z.of_nat page * PAGE_SIZE) f (mkFlags true true) w with
          | (Ok true, w) => map_stack_pages a n (S page) w
          | (_, w) => (Err OutOfMemory, unmap_pages STACK_BASE page w)
          end
      end
  end.

Definition map_stack (a : Arch) : L unit := ask_room ;; map_stack_pages a (Z.to_nat USER_STACK_PAGES) 0.
