(* ===== verification/ElfFacts.v ===== *)
(** Facts on the ELF reader and the pages of a segment: what an image that parses satisfies,
    rounding to pages, the byte a page has at an address, and the plan of the boot loaders. *)

From stdpp Require Import functions.
From S2P Require Import Prelude Wire Elf ElfLoad.

(** ** Rounding *)

Lemma land_lnot_pow2 v n : 0 <= n -> Z.land v (Z.lnot (2 ^ n - 1)) = v - v mod 2 ^ n.
Proof.
  intros Hn. rewrite <- Z.ldiff_land. replace (2 ^ n - 1) with (Z.ones n) by (rewrite Z.ones_equiv; lia). rewrite Z.ldiff_ones_r, Z.shiftl_mul_pow2, Z.shiftr_div_pow2 by lia.
  rewrite (Z.mod_eq v (2 ^ n)) by (apply Z.pow_nonzero; lia). lia.
Qed.

Lemma align_down_mod v : align_down v = v - v mod 4096.
Proof. exact (land_lnot_pow2 v 12 ltac:(lia)). Qed.

Lemma align_down_bounds v : 0 <= v -> align_down v <= v < align_down v + 4096 /\ align_down v mod 4096 = 0 /\ 0 <= align_down v.
Proof. intros Hv. rewrite align_down_mod. pose proof (Z.mod_pos_bound v 4096). pose proof (Z.div_mod v 4096). assert ((v - v mod 4096) mod 4096 = 0) by (rewrite Zminus_mod_idemp_r, Z.sub_diag; done). lia. Qed.

Lemma checked_add_Some m x y z : checked_add m x y = Some z <-> z = x + y /\ x + y <= m.
Proof. unfold checked_add. destruct (Z.leb_spec (x + y) m); split; [intros [= <-] | intros [-> _] | done | ]; auto; lia. Qed.

Lemma align_up_Some v top : 0 <= v -> align_up v = Some top -> v <= top < v + 4096 /\ top mod 4096 = 0 /\ top <= U64_MAX.
Proof.
  intros Hv. unfold align_up. destruct (checked_add U64_MAX v (PAGE_SIZE - 1)) as [s |] eqn:Es; [| done]. cbn. intros [= <-].
  apply checked_add_Some in Es as [-> Hs]. unfold PAGE_SIZE in *. pose proof (align_down_bounds (v + (4096 - 1))). lia.
Qed.

(** ** The pages of a segment *)

Record range_ok (ph : ProgramHeader) (bias start end_ : Z) : Prop := {
  range_load : p_vaddr ph + bias + p_memsz ph <= U64_MAX;
  range_start : start <= p_vaddr ph + bias < start + 4096;
  range_end : p_vaddr ph + bias + p_memsz ph <= end_ < p_vaddr ph + bias + p_memsz ph + 4096;
  range_start_mod : start mod 4096 = 0;
  range_end_mod : end_ mod 4096 = 0;
  range_nonneg : 0 <= start;
  range_top : end_ <= U64_MAX;
}.

Lemma page_range_ok ph bias start end_ :
  0 <= p_vaddr ph -> 0 <= p_memsz ph -> 0 <= bias -> page_range ph bias = Some (start, end_) -> range_ok ph bias start end_.
Proof.
  intros Hv Hm Hb. unfold page_range. destruct (checked_add U64_MAX (p_vaddr ph) bias) as [x |] eqn:Ex; [| done]. cbn. apply checked_add_Some in Ex as [-> Hx].
  destruct (checked_add U64_MAX (p_vaddr ph + bias) (p_memsz ph)) as [y |] eqn:Ey; [| done]. cbn. apply checked_add_Some in Ey as [-> Hy].
  destruct (align_up (p_vaddr ph + bias + p_memsz ph)) as [top |] eqn:Et; [| done]. cbn. intros [= <- <-].
  apply align_up_Some in Et; [| lia]. pose proof (align_down_bounds (p_vaddr ph + bias)). constructor; lia.
Qed.

(** The byte an image means at an address of one of its pages. *)
Definition segment_byte (load_start : Z) (data : list Z) (address : Z) : Z :=
  if (load_start <=? address) && (address <? load_start + len data) then nth (Z.to_nat (address - load_start)) data 0 else 0.

Lemma length_page_of data so d c : (d + c <= 4096)%nat -> (so + c <= length data)%nat -> length (page_of data so d c) = 4096%nat.
Proof. intros Hd Hs. unfold page_of, PAGE_SIZE. rewrite !length_app, !length_replicate, length_take, length_drop. lia. Qed.

Lemma page_copy_bounds load_start data page_start :
  0 <= load_start -> load_start < page_start + 4096 ->
  let '(so, d, c) := page_copy load_start (load_start + len data) page_start in (d + c <= 4096)%nat /\ (so + c <= length data)%nat.
Proof.
  intros Hl Hp. unfold page_copy, PAGE_SIZE, sat_sub64, len. cbn zeta.
  destruct (Nat.eqb_spec (Z.to_nat (Z.max (Z.min (page_start + 4096) (load_start + Z.of_nat (length data)) - Z.max page_start load_start) 0)) 0); lia.
Qed.

Lemma nth_replicate0 n j : nth j (replicate n 0) 0 = 0.
Proof. revert j. induction n as [| n IH]; intros [| j]; simpl; auto. Qed.

Lemma nth_page_of data so d c j :
  (so + c <= length data)%nat ->
  nth j (page_of data so d c) 0 = if (d <=? j)%nat && (j <? d + c)%nat then nth (so + (j - d)) data 0 else 0.
Proof.
  intros Hs. unfold page_of. destruct (Nat.leb_spec d j) as [Hd | Hd]; cbn [andb].
  - rewrite app_nth2 by (rewrite length_replicate; lia). rewrite length_replicate. destruct (Nat.ltb_spec j (d + c)) as [Hj | Hj].
    + rewrite app_nth1 by (rewrite length_take, length_drop; lia). rewrite !nth_lookup, lookup_take_lt, lookup_drop by lia. done.
    + rewrite app_nth2 by (rewrite length_take, length_drop; lia). apply nth_replicate0.
  - rewrite app_nth1 by (rewrite length_replicate; lia). apply nth_replicate0.
Qed.

(** The page the loader builds has, at every address in it, the byte the image means. *)
Lemma page_byte load_start data page_start address :
  0 <= load_start -> load_start < page_start + 4096 -> page_start <= address < page_start + 4096 ->
  let '(so, d, c) := page_copy load_start (load_start + len data) page_start in
  nth (Z.to_nat (address - page_start)) (page_of data so d c) 0 = segment_byte load_start data address.
Proof.
  intros Hl Hp Ha. pose proof (page_copy_bounds load_start data page_start Hl Hp) as Hb. unfold segment_byte.
  destruct (page_copy load_start (load_start + len data) page_start) as [[so d] c] eqn:Ec. destruct Hb as [_ Hs]. rewrite nth_page_of by done.
  unfold page_copy, PAGE_SIZE, sat_sub64, len in *. cbn zeta in Ec. injection Ec as <- <- <-.
  set (cs := Z.max page_start load_start) in *. set (ce := Z.min (page_start + 4096) (load_start + Z.of_nat (length data))) in *.
  destruct (Nat.eqb_spec (Z.to_nat (Z.max (ce - cs) 0)) 0) as [E0 | E0].
  - destruct ((_ <=? _)%nat && (_ <? _)%nat) eqn:G; [apply andb_true_iff in G as [G1 G2]; apply Nat.leb_le in G1; apply Nat.ltb_lt in G2; lia |].
    destruct ((_ <=? _) && (_ <? _)) eqn:G'; [apply andb_true_iff in G' as [G1 G2]; lia | done].
  - destruct ((load_start <=? address) && (address <? load_start + Z.of_nat (length data))) eqn:G'.
    + apply andb_true_iff in G' as [G1 G2]. rewrite (proj2 (Nat.leb_le _ _)), (proj2 (Nat.ltb_lt _ _)) by lia. cbn [andb]. f_equal. lia.
    + destruct ((_ <=? _)%nat && (_ <? _)%nat) eqn:G; [| done]. apply andb_true_iff in G as [G1 G2]. apply Nat.leb_le in G1. apply Nat.ltb_lt in G2.
      apply andb_false_iff in G'. lia.
Qed.

(** ** Images that parse *)

Lemma field_range b off n : Forall byte_range b -> 0 <= field b off n < 256 ^ Z.of_nat n.
Proof.
  intros Hb. unfold field. pose proof (le_decode_range (take n (drop off b)) ltac:(by apply Forall_take, Forall_drop)) as H.
  rewrite length_take, length_drop in H. split; [lia |]. eapply Z.lt_le_trans; [apply H |]. apply Z.pow_le_mono_r; lia.
Qed.

Record header_ok (ph : ProgramHeader) : Prop := {
  ok_offset : u64_range (p_offset ph);
  ok_vaddr : u64_range (p_vaddr ph);
  ok_paddr : u64_range (p_paddr ph);
  ok_filesz : u64_range (p_filesz ph);
  ok_memsz : u64_range (p_memsz ph);
  ok_align : u64_range (p_align ph);
}.

Lemma segment_header e i ph : Forall byte_range (e_bytes e) -> segment e i = Some ph -> header_ok ph.
Proof.
  intros Hb. unfold segment. destruct (phnum e <=? Z.of_nat i); [done |]. destruct (usize_mul _ _); [| done]. cbn. destruct (usize_add _ _) as [off |]; [| done]. cbn.
  destruct (usize_add _ _); [| done]. cbn. destruct (len _ <? _); [done |]. intros [= <-].
  assert (forall o n, n = 8%nat -> u64_range (field (take (Z.to_nat PHSIZE) (drop (Z.to_nat off) (e_bytes e))) o n)) as H.
  { intros o n ->. unfold u64_range. pose proof (field_range (take (Z.to_nat PHSIZE) (drop (Z.to_nat off) (e_bytes e))) o 8 ltac:(by apply Forall_take, Forall_drop)). lia. }
  constructor; cbn; by apply H.
Qed.

(** What [parse] asks of every loadable segment, as propositions. *)
Record loadable (e : Elf) (ph : ProgramHeader) : Prop := {
  load_phys : p_paddr ph + p_memsz ph <= U64_MAX;
  load_virt : p_vaddr ph + p_memsz ph <= U64_MAX;
  load_fits : p_filesz ph <= p_memsz ph;
  load_data : 0 < p_filesz ph -> exists data, segment_data e ph = Some data;
  load_congruent : congruent ph = true;
}.

Lemma parse_inv bytes m e :
  parse_for_machine bytes m = Some e ->
  e_bytes e = bytes /\ (image_type e = ET_EXEC \/ image_type e = ET_DYN) /\ segments_ok e = true /\
  phentsize e = PHSIZE /\ phoff e + phnum e * PHSIZE <= len bytes /\ field bytes 18 2 = m.
Proof.
  unfold parse_for_machine. destruct (len bytes <? EHSIZE); [done |]. destruct (negb (bool_decide _)); [done |].
  destruct (_ || _); [done |]. destruct (_ || _); [done |]. cbn zeta. destruct (_ || _ || _ || _) eqn:G; [done |].
  rewrite !orb_false_iff, !negb_false_iff in G. destruct G as [[[Gt Gm] Ge] Gp]. rewrite andb_false_iff, !negb_false_iff in Gt.
  destruct (usize_mul _ _) as [tl |] eqn:Em; [| done]. cbn. destruct (usize_add _ _) as [te |] eqn:Ea; [| done]. cbn. destruct (Z.ltb_spec (len bytes) te); [done |].
  destruct (segments_ok _) eqn:Hs; [| done]. intros [= <-]. cbn. apply checked_add_Some in Ea as [-> _]. apply Z.eqb_eq in Gm, Ge, Gp.
  assert (tl = field bytes 56 2 * field bytes 54 2) as -> by (unfold usize_mul, checked_mul in Em; destruct (_ <=? _); congruence).
  rewrite Gp in *. destruct Gt as [Gt | Gt]; apply Z.eqb_eq in Gt; auto 10.
Qed.

Lemma parse_segment bytes m e i ph :
  parse_for_machine bytes m = Some e -> segment e i = Some ph -> p_type ph = PT_LOAD -> loadable e ph.
Proof.
  intros (_ & _ & Hs & _)%parse_inv Hi Ht. unfold segments_ok in Hs. rewrite forallb_forall in Hs.
  assert (In i (seq 0 (segment_count e))) as Hin.
  { apply in_seq. unfold segment_count. unfold segment in Hi. destruct (Z.leb_spec (phnum e) (Z.of_nat i)); [done | lia]. }
  specialize (Hs i Hin). rewrite Hi in Hs. unfold segment_ok in Hs. rewrite Ht in Hs. cbn in Hs.
  rewrite !andb_true_iff in Hs. destruct Hs as [[[[H1 H2] H3] H4] H5]. constructor.
  - destruct (checked_add U64_MAX (p_paddr ph) (p_memsz ph)) as [x |] eqn:E; [| done]. by apply checked_add_Some in E as [_ ?].
  - destruct (checked_add U64_MAX (p_vaddr ph) (p_memsz ph)) as [x |] eqn:E; [| done]. by apply checked_add_Some in E as [_ ?].
  - lia.
  - intros Hf. destruct (segment_data e ph) as [data |]; [by exists data |]. rewrite (proj2 (Z.ltb_lt _ _) Hf) in H4. done.
  - done.
Qed.

Lemma slice_Some bytes a b d : 0 <= a -> slice bytes a b = Some d -> a <= b <= len bytes /\ d = take (Z.to_nat (b - a)) (drop (Z.to_nat a) bytes) /\ len d = b - a.
Proof.
  intros Ha. unfold slice, len. destruct (_ && _) eqn:G; [| done]. apply andb_true_iff in G as [G1 G2]. intros [= <-]. split; [lia | split; [done |]]. rewrite length_take, length_drop. lia.
Qed.

Lemma segment_data_len e ph data : header_ok ph -> segment_data e ph = Some data -> len data = p_filesz ph.
Proof.
  intros Hh. unfold segment_data. destruct (usize_add _ _) as [x |] eqn:E; [| done]. cbn. apply checked_add_Some in E as [-> _].
  intros (_ & _ & H)%slice_Some; [lia | apply Hh].
Qed.

(** * The load plan of the boot loaders: what the pages of an accepted image are. *)

Lemma collide_sym s s' : collide s s' = collide s' s.
Proof. unfold collide. rewrite (andb_comm (vlow s <? _)), (andb_comm (plow s <? _)). done. Qed.

Lemma no_overlap spans s s' : first_overlap spans = None -> s ∈ spans -> s' ∈ spans -> s <> s' -> collide s s' = false.
Proof.
  revert s s'. induction spans as [| t spans IH]; intros s s'; cbn [first_overlap]; [by intros _ ?%elem_of_nil |].
  destruct (List.find (collide t) spans) eqn:Ef; [done |]. intros Hn' [-> | Hs]%elem_of_cons [-> | Hs']%elem_of_cons Hne; [done | | | by apply IH].
  - apply (find_none _ _ Ef). by apply list_elem_of_In.
  - rewrite collide_sym. apply (find_none _ _ Ef). by apply list_elem_of_In.
Qed.

(** The bounds of a plan that has seen some spans. *)
Definition lowest (f : Span -> Z) (m : Z) (spans : list Span) : Z := foldl (fun m s => if f s <? m then f s else m) m spans.
Definition highest (f : Span -> Z) (m : Z) (spans : list Span) : Z := foldl (fun m s => if m <? f s then f s else m) m spans.

Lemma lowest_ok f m spans : let q := lowest f m spans in q <= m /\ (forall s, s ∈ spans -> q <= f s) /\ (q = m \/ exists s, s ∈ spans /\ q = f s).
Proof.
  unfold lowest. revert m. induction spans as [| s spans IH]; intros m; cbn [foldl].
  { split_and!; [lia | by intros ? ?%elem_of_nil | by left]. }
  set (m' := if f s <? m then f s else m). assert (m' <= m /\ m' <= f s /\ (m' = m \/ m' = f s)) as (M1 & M2 & M3) by (unfold m'; destruct (Z.ltb_spec (f s) m); lia).
  destruct (IH m') as (A & B & C). split_and!; [lia | intros t [-> | Ht]%elem_of_cons; [lia | by apply B] |].
  destruct C as [C | (t & Ht & C)]; [destruct M3 as [M3 | M3]; [left; congruence | right; exists s; split; [left | congruence]] | right; exists t; split; [by right | done]].
Qed.

Lemma highest_ok f m spans : let q := highest f m spans in m <= q /\ (forall s, s ∈ spans -> f s <= q) /\ (q = m \/ exists s, s ∈ spans /\ q = f s).
Proof.
  unfold highest. revert m. induction spans as [| s spans IH]; intros m; cbn [foldl].
  { split_and!; [lia | by intros ? ?%elem_of_nil | by left]. }
  set (m' := if m <? f s then f s else m). assert (m <= m' /\ f s <= m' /\ (m' = m \/ m' = f s)) as (M1 & M2 & M3) by (unfold m'; destruct (Z.ltb_spec m (f s)); lia).
  destruct (IH m') as (A & B & C). split_and!; [lia | intros t [-> | Ht]%elem_of_cons; [lia | by apply B] |].
  destruct C as [C | (t & Ht & C)]; [destruct M3 as [M3 | M3]; [left; congruence | right; exists s; split; [left | congruence]] | right; exists t; split; [by right | done]].
Qed.

Lemma grow_fields spans p :
  foldl grow p spans = mkLoadPlan (plan_entry p) (plan_segments p) (lowest vlow (virt_low p) spans) (highest vhigh (virt_high p) spans) (lowest plow (phys_low p) spans) (highest phigh (phys_high p) spans).
Proof. revert p. induction spans as [| s spans IH]; intros p; [by destruct p |]. cbn [foldl]. by rewrite IH. Qed.

Lemma lowest_attained f spans : spans <> [] -> (forall s, s ∈ spans -> f s < U64_MAX) -> exists s, s ∈ spans /\ lowest f U64_MAX spans = f s.
Proof.
  intros Hne Hs. destruct (lowest_ok f U64_MAX spans) as (_ & A & [C | C]); [| done]. destruct spans as [| s spans]; [done |].
  specialize (A s ltac:(left)). specialize (Hs s ltac:(left)). lia.
Qed.
Lemma highest_attained f spans : spans <> [] -> (forall s, s ∈ spans -> 0 < f s) -> exists s, s ∈ spans /\ highest f 0 spans = f s.
Proof.
  intros Hne Hs. destruct (highest_ok f 0 spans) as (_ & A & [C | C]); [| done]. destruct spans as [| s spans]; [done |].
  specialize (A s ltac:(left)). specialize (Hs s ltac:(left)). lia.
Qed.

(** Below and above a page boundary are different pages. *)
Lemma apart_pages p h x y : 0 < p -> h mod p = 0 -> x < h -> h <= y -> x / p < y / p.
Proof.
  intros Hp Hh Hx Hy. pose proof (Z.div_mod h p). apply Z.lt_le_trans with (h / p); [apply Z.div_lt_upper_bound; lia | apply Z.div_le_mono; lia].
Qed.

Section plan.
Context (e : Elf) (n : Z) (Hn : 0 <= n <= 63) (Hb : Forall byte_range (e_bytes e)).
Let page : Z := 2 ^ n.
Let rules : LoadRules := kernel_rules page.

(** A header the plan is about. *)
Definition planned (i : nat) (ph : ProgramHeader) : Prop := segment e i = Some ph /\ p_type ph = PT_LOAD /\ p_memsz ph <> 0.

Lemma page_pos : 0 < page.
Proof using Hn. apply Z.pow_pos_nonneg; lia. Qed.

Lemma align_up_to_Some v top : 0 <= v -> align_up_to v page = Some top -> v <= top < v + page /\ top mod page = 0 /\ top <= U64_MAX.
Proof using Hn.
  pose proof page_pos. intros Hv. unfold align_up_to. destruct (checked_add _ _ _) as [s |] eqn:E; [| done]. apply checked_add_Some in E as [-> Hs]. cbn. intros [= <-].
  unfold align_down_to, page. rewrite land_lnot_pow2 by lia. fold page. pose proof (Z.mod_pos_bound (v + (page - 1)) page). split; [lia |]. split; [| lia].
  rewrite Zminus_mod_idemp_r, Z.sub_diag. by apply Z.mod_0_l; lia.
Qed.

Record span_ok (ph : ProgramHeader) (s : Span) : Prop := {
  span_aligned : p_vaddr ph mod page = 0 /\ p_paddr ph mod page = 0;
  span_w_xor_x : writable (p_flags ph) && executable (p_flags ph) = false;
  span_low : vlow s = p_vaddr ph /\ plow s = p_paddr ph;
  span_virt : p_vaddr ph + p_memsz ph <= vhigh s < p_vaddr ph + p_memsz ph + page /\ vhigh s mod page = 0 /\ vhigh s <= U64_MAX;
  span_phys : p_paddr ph + p_memsz ph <= phigh s < p_paddr ph + p_memsz ph + page /\ phigh s mod page = 0 /\ phigh s <= U64_MAX;
  span_flags : s_flags s = p_flags ph;
}.

Lemma span_of_ok i ph s : header_ok ph -> span_of rules i ph = Ok s -> span_ok ph s /\ s_index s = i.
Proof using Hn.
  intros Hh. unfold span_of. cbn [rules kernel_rules require_page_aligned require_w_xor_x page_size andb].
  destruct (negb (p_vaddr ph mod page =? 0) || negb (p_paddr ph mod page =? 0)) eqn:Ea; [done |]. rewrite orb_false_iff, !negb_false_iff in Ea. destruct Ea as [A1%Z.eqb_eq A2%Z.eqb_eq].
  destruct (writable (p_flags ph) && executable (p_flags ph)) eqn:Ew; [done |].
  destruct (checked_add U64_MAX (p_vaddr ph) _) as [ve |] eqn:E1; [| done]. destruct (checked_add U64_MAX (p_paddr ph) _) as [pe |] eqn:E2; [| done].
  destruct (align_up_to ve page) as [vt |] eqn:E3; [| done]. destruct (align_up_to pe page) as [pt |] eqn:E4; [| done]. intros [= <-]. split; [| done].
  apply checked_add_Some in E1 as [-> _], E2 as [-> _]. assert (0 <= p_vaddr ph /\ 0 <= p_paddr ph /\ 0 <= p_memsz ph) as (V & P & M) by (split_and!; apply Hh).
  apply align_up_to_Some in E3, E4; [| lia | lia]. constructor; cbn; try done.
  unfold align_down_to, page. rewrite !land_lnot_pow2 by lia. fold page. lia.
Qed.

Lemma collect_spans_ok todo spans spans' :
  collect_spans e rules todo spans = Ok spans' ->
  exists more, spans' = spans ++ more /\ (forall i ph, i ∈ todo -> planned i ph -> exists s, s ∈ more /\ s_index s = i /\ span_ok ph s) /\
    forall s, s ∈ more -> exists ph, planned (s_index s) ph /\ span_ok ph s.
Proof using Hn Hb.
  revert spans. induction todo as [| i todo IH]; intros spans; cbn [collect_spans].
  { intros [= <-]. exists []. rewrite app_nil_r. split_and!; [done | by intros ? ? ?%elem_of_nil | by intros ? ?%elem_of_nil]. }
  assert (forall more : list Span, (forall ph, ~ planned i ph) -> (forall j ph, j ∈ todo -> planned j ph -> exists s, s ∈ more /\ s_index s = j /\ span_ok ph s) ->
    forall j ph, j ∈ i :: todo -> planned j ph -> exists s, s ∈ more /\ s_index s = j /\ span_ok ph s) as Hskip.
  { intros more Hno Ha j ph [-> | Hj]%elem_of_cons Hp; [by destruct (Hno ph) | by apply Ha]. }
  destruct (segment e i) as [ph |] eqn:Es.
  2: { intros (more & -> & A & B)%IH. exists more. split_and!; [done | | done]. apply Hskip; [| done]. intros ph [? _]. congruence. }
  destruct (negb (p_type ph =? PT_LOAD) || (p_memsz ph =? 0)) eqn:Et.
  { intros (more & -> & A & B)%IH. exists more. split_and!; [done | | done]. apply Hskip; [| done]. intros ph' (E & F & G). rewrite Es in E. injection E as <-.
    apply orb_true_iff in Et as [Et%negb_true_iff%Z.eqb_neq | Et%Z.eqb_eq]; done. }
  destruct (_ =? _)%nat; [done |]. destruct (span_of rules i ph) as [s |] eqn:Ep; [| done]. apply span_of_ok in Ep as [So <-]; [| by eapply segment_header].
  rewrite orb_false_iff, negb_false_iff in Et. destruct Et as [Et1%Z.eqb_eq Et2%Z.eqb_neq].
  intros (more & -> & A & B)%IH. exists (s :: more). rewrite <- app_assoc. split_and!; [done | |].
  - intros j ph' [-> | Hj]%elem_of_cons Hp; [exists s; split_and!; [left | done | destruct Hp as [E _]; congruence] |].
    destruct (A j ph' Hj Hp) as (s' & Hs' & ?). exists s'. split; [by right | done].
  - intros s' [-> | Hs']%elem_of_cons; [by exists ph | by apply B].
Qed.

(** A plan that was made, with the spans it was made of. *)
Lemma load_plan_ok plan :
  load_plan e rules = Ok plan ->
  exists spans, spans <> [] /\ first_overlap spans = None /\
    (forall i ph, (i < segment_count e)%nat -> planned i ph -> exists s, s ∈ spans /\ s_index s = i /\ span_ok ph s) /\
    (forall s, s ∈ spans -> exists ph, planned (s_index s) ph /\ span_ok ph s) /\
    (exists s, s ∈ spans /\ executable (s_flags s) = true /\ vlow s <= entry e < vhigh s) /\
    plan = mkLoadPlan (entry e) (length spans) (lowest vlow U64_MAX spans) (highest vhigh 0 spans) (lowest plow U64_MAX spans) (highest phigh 0 spans).
Proof using Hn Hb.
  unfold load_plan. destruct (_ && negb (image_type e =? ET_EXEC)); [done |]. destruct (collect_spans e rules _ []) as [spans |] eqn:Ec; [| done].
  apply collect_spans_ok in Ec as (more & -> & A & B). cbn [app]. destruct more as [| s0 more']; [done |]. set (spans := s0 :: more') in *.
  destruct (first_overlap spans) as [[] |] eqn:Eo; [done |]. destruct (_ && negb (existsb _ _)) eqn:Ee; [done |]. intros [= <-].
  exists spans. split_and!; [done | done | | done | | apply grow_fields].
  - intros i ph Hi Hp. apply A; [apply elem_of_seq; lia | done].
  - cbn [rules kernel_rules require_entry_in_executable_segment andb] in Ee. apply negb_false_iff, existsb_exists in Ee as (s & Hs & Ee). exists s.
    rewrite !andb_true_iff in Ee. split_and!; [by apply list_elem_of_In | tauto | lia | lia].
Qed.

(** A byte of one span is not on a page of another. *)
Lemma spans_apart ph ph' s s' x y :
  span_ok ph s -> span_ok ph' s' -> collide s s' = false -> 0 <= x < p_memsz ph -> 0 <= y < p_memsz ph' ->
  (p_vaddr ph + x) / page <> (p_vaddr ph' + y) / page /\ (p_paddr ph + x) / page <> (p_paddr ph' + y) / page.
Proof using Hn.
  pose proof page_pos as Hp. intros [A _ [L1 L2] V P _] [A' _ [L1' L2'] V' P' _] Hc Hx Hy. unfold collide in Hc. rewrite orb_false_iff, !andb_false_iff, !Z.ltb_ge in Hc. destruct Hc as [Cv Cp]. split.
  - destruct Cv as [C | C]; [pose proof (apart_pages page (vhigh s') (p_vaddr ph' + y) (p_vaddr ph + x)) | pose proof (apart_pages page (vhigh s) (p_vaddr ph + x) (p_vaddr ph' + y))]; lia.
  - destruct Cp as [C | C]; [pose proof (apart_pages page (phigh s') (p_paddr ph' + y) (p_paddr ph + x)) | pose proof (apart_pages page (phigh s) (p_paddr ph + x) (p_paddr ph' + y))]; lia.
Qed.

(** Below the end of the span is at most on the last page of the segment. *)
Lemma span_last ph s x : span_ok ph s -> p_memsz ph <> 0 -> 0 <= p_memsz ph -> x < vhigh s -> x / page <= (p_vaddr ph + p_memsz ph - 1) / page.
Proof using Hn.
  pose proof page_pos as Hp. intros [_ _ _ (V1 & V2 & _) _ _] Hm Hm0 Hx. pose proof (Z.div_mod (vhigh s) page ltac:(lia)) as Hd. rewrite V2 in Hd.
  apply Z.le_trans with (vhigh s / page - 1); [apply Z.lt_le_pred, Z.div_lt_upper_bound; lia | apply Z.div_le_lower_bound; nia].
Qed.
End plan.
