(* ===== verification/ElfPages.v ===== *)
(** The pages of a load: what a page of a segment, a segment and all segments leave behind
    when they succeed, in the frames, the shared pages and the page table, and what it owes. *)

From stdpp Require Import functions.
From S2P Require Import Prelude Wire Elf ElfLoad ElfFacts.

(** * What a load owes: the references it holds on shared pages and the frames it took. Two
    worlds are equivalent when they own the same shared pages and the same frames, in any order;
    giving references back commutes up to that equivalence. *)

(** The frames that are free, or the load's own and freed with it. *)
Definition balance (w : World) : list Z := pool w ++ frames w.

(** The same books. *)
#[export] Instance world_equiv : Equiv World := fun w w' => pages w = pages w' /\ balance w ≡ₚ balance w'.

#[export] Instance world_equivalence : Equivalence (≡@{World}).
Proof.
  split.
  - done.
  - intros w w' [? ?]. split; by symmetry.
  - intros w1 w2 w3 [? ?] [? ?]. split; by etrans.
Qed.

Lemma balance_retire l w : balance (retire l w) ≡ₚ l ++ balance w.
Proof. unfold balance, retire. cbn. by rewrite (Permutation_app_comm (pool w) l), <- app_assoc. Qed.

(** What a drop does to the books. *)
Definition dropped (id : nat) (p : gmap nat (Z * nat)) : gmap nat (Z * nat) * list Z :=
  match p !! id with
  | Some (f, S (S n)) => (<[id := (f, S n)]> p, [])
  | Some (f, _) => (delete id p, [f])
  | None => (p, [])
  end.

Lemma drop_page_dropped id w : pages (drop_page id w) = (dropped id (pages w)).1 /\ balance (drop_page id w) ≡ₚ (dropped id (pages w)).2 ++ balance w.
Proof.
  unfold drop_page, dropped. destruct (pages w !! id) as [[f [| [| n]]] |]; cbn [fst snd]; split; try done; by rewrite balance_retire.
Qed.

Lemma dropped_comm i j p :
  (dropped j (dropped i p).1).1 = (dropped i (dropped j p).1).1 /\
  (dropped i p).2 ++ (dropped j (dropped i p).1).2 ≡ₚ (dropped j p).2 ++ (dropped i (dropped j p).1).2.
Proof.
  destruct (decide (i = j)) as [-> | Hne]; [done |]. unfold dropped.
  destruct (p !! i) as [[f [| [| n]]] |] eqn:Ei; destruct (p !! j) as [[g [| [| m]]] |] eqn:Ej; cbn [fst snd];
    repeat (rewrite ?lookup_insert_ne, ?lookup_delete_ne, ?Ei, ?Ej by done; cbn [fst snd]);
    (split; [first [done | apply insert_insert_ne; done | apply delete_insert_ne; done | by rewrite delete_insert_ne by done | apply delete_delete] | try done; apply Permutation_app_comm]).
Qed.

#[export] Instance drop_page_proper id : Proper ((≡) ==> (≡)) (drop_page id).
Proof.
  intros w w' [Hp Hb]. destruct (drop_page_dropped id w) as [A B], (drop_page_dropped id w') as [A' B'].
  split; [by rewrite A, A', Hp | by rewrite B, B', Hp, Hb].
Qed.

Lemma drop_page_comm i j w : drop_page j (drop_page i w) ≡ drop_page i (drop_page j w).
Proof.
  destruct (drop_page_dropped i w) as [A1 B1], (drop_page_dropped j w) as [A2 B2], (drop_page_dropped j (drop_page i w)) as [A3 B3], (drop_page_dropped i (drop_page j w)) as [A4 B4].
  destruct (dropped_comm i j (pages w)) as [C1 C2]. split; [by rewrite A3, A4, A1, A2 |]. rewrite B3, B4, A1, A2, B1, B2.
  rewrite !(Permutation_app_comm _ (_ ++ balance w)), <- !app_assoc, !(Permutation_app_comm (balance w)), !app_assoc. by rewrite C2.
Qed.

(** References are given back one after the other, in any order. *)
Definition drop_all (l : list nat) (w : World) : World := foldl (fun w id => drop_page id w) w l.

#[export] Instance drop_all_proper l : Proper ((≡) ==> (≡)) (drop_all l).
Proof. induction l as [| id l IH]; intros w w' Hw; [done |]. apply IH. by rewrite Hw. Qed.

Lemma drop_all_cons id l w : drop_all (id :: l) w = drop_all l (drop_page id w).
Proof. done. Qed.

Lemma drop_all_app l l' w : drop_all (l ++ l') w = drop_all l' (drop_all l w).
Proof. unfold drop_all. by rewrite foldl_app. Qed.

Lemma drop_all_drop l id w : drop_all l (drop_page id w) ≡ drop_page id (drop_all l w).
Proof. revert w. induction l as [| j l IH]; intros w; [done |]. rewrite !drop_all_cons, <- IH. apply drop_all_proper, drop_page_comm. Qed.

Lemma drop_all_comm l l' w : drop_all l (drop_all l' w) ≡ drop_all l' (drop_all l w).
Proof. revert w. induction l' as [| j l' IH]; intros w; [done |]. rewrite !drop_all_cons, IH. apply drop_all_proper, drop_all_drop. Qed.

(** The load from [w] to [w'] can be undone by dropping the references it recorded. *)
Definition gives_back (w w' : World) : Prop := exists held, shared w' = shared w ++ held /\ drop_all held w' ≡ w.

#[export] Instance gives_back_preorder : PreOrder gives_back.
Proof.
  split.
  - intros w. exists []. by rewrite app_nil_r.
  - intros w1 w2 w3 (l & Hl & Hd) (l' & Hl' & Hd'). exists (l ++ l'). rewrite Hl', Hl, app_assoc. split; [done |].
    rewrite drop_all_app, drop_all_comm. by rewrite Hd'.
Qed.

Lemma gives_back_equiv w w' : shared w' = shared w -> w' ≡ w -> gives_back w w'.
Proof. intros Hs He. exists []. by rewrite app_nil_r. Qed.

(** One more reference. *)
Lemma gives_back_one w w' id : shared w' = shared w ++ [id] -> drop_page id w' ≡ w -> gives_back w w'.
Proof. intros Hs He. by exists [id]. Qed.

Lemma drop_page_records id w : frames (drop_page id w) = frames w /\ shared (drop_page id w) = shared w /\ table (drop_page id w) = table w /\ memory (drop_page id w) = memory w.
Proof. unfold drop_page. by destruct (pages w !! id) as [[f [| [| n]]] |]. Qed.

Lemma drop_all_records l w : frames (drop_all l w) = frames w /\ shared (drop_all l w) = shared w /\ table (drop_all l w) = table w /\ memory (drop_all l w) = memory w.
Proof.
  revert w. induction l as [| id l IH]; intros w; [done |]. rewrite drop_all_cons. destruct (IH (drop_page id w)) as (-> & -> & -> & ->). apply drop_page_records.
Qed.

(** ** The state *)

Record world_ok (w : World) : Prop := {
  ok_pool : NoDup (pool w);
  ok_pages : forall id f c, pages w !! id = Some (f, c) -> f ∉ pool w /\ (id < next_page w)%nat /\ (1 <= c)%nat;
  ok_pages_once : forall id id' f c c', pages w !! id = Some (f, c) -> pages w !! id' = Some (f, c') -> id = id';
  ok_frames : NoDup (frames w);
  ok_private : forall f, f ∈ frames w -> f ∉ pool w /\ forall id c, pages w !! id <> Some (f, c);
  ok_shared : forall id, id ∈ shared w -> is_Some (pages w !! id);
  ok_length : forall f, length (memory w f) = 4096%nat;
}.

(** Frames leave the pool, and only those change their contents. *)
Record grows (w w' : World) : Prop := {
  grow_pool : forall f, f ∈ pool w' -> f ∈ pool w;
  grow_memory : forall f, f ∉ pool w -> memory w' f = memory w f;
  grow_frames : exists l, frames w' = frames w ++ l /\ forall f, f ∈ l -> f ∈ pool w;
  grow_shared : exists l, shared w' = shared w ++ l;
  grow_pages : forall id f c, pages w !! id = Some (f, c) -> exists c', pages w' !! id = Some (f, c');
}.

(** The records are as before. *)
Ltac no_more := exists []; rewrite app_nil_r; solve [done | split; [done | by intros ? ?%elem_of_nil]].

#[export] Instance grows_preorder : PreOrder grows.
Proof.
  split.
  - intros w. constructor; eauto; no_more.
  - intros w1 w2 w3 [A1 B1 (l1 & C1 & N1) [m1 D1] E1] [A2 B2 (l2 & C2 & N2) [m2 D2] E2]. constructor.
    + eauto.
    + intros f Hf. rewrite B2, B1; auto.
    + exists (l1 ++ l2). split; [by rewrite C2, C1, app_assoc |]. intros f. rewrite elem_of_app. naive_solver.
    + exists (m1 ++ m2). by rewrite D2, D1, app_assoc.
    + intros id f c Hp. destruct (E1 _ _ _ Hp) as [c' Hp']. eauto.
Qed.

(** A page that has been kept: its frame is a frame of the load or of a live shared page. *)
Definition kept (w : World) (f : Z) : Prop := f ∈ frames w \/ exists id c, pages w !! id = Some (f, c).

Lemma kept_unpooled w f : world_ok w -> kept w f -> f ∉ pool w.
Proof. intros H [Hf | (id & c & Hp)]; [by apply (ok_private w H) | by eapply (ok_pages w H)]. Qed.

Lemma kept_memory w w' f : world_ok w -> grows w w' -> kept w f -> memory w' f = memory w f.
Proof. intros H G K. apply G. by apply kept_unpooled. Qed.

(** ** Running the monad *)

Lemma bind_ok {A B} (m : L A) (f : A -> L B) w b w2 :
  mbind f m w = (Ok b, w2) -> exists a w1, m w = (Ok a, w1) /\ f a w1 = (Ok b, w2).
Proof. unfold mbind, L_bind. destruct (m w) as [[a | err] w1]; [eauto | done]. Qed.

Lemma bind_err {A B} (m : L A) (f : A -> L B) w err w2 :
  mbind f m w = (Err err, w2) -> m w = (Err err, w2) \/ exists a w1, m w = (Ok a, w1) /\ f a w1 = (Err err, w2).
Proof. unfold mbind, L_bind. destruct (m w) as [[a | err'] w1]; [eauto | intros [= <- <-]; by left]. Qed.

Ltac run_ok :=
  repeat match goal with
  | H : mbind _ _ _ = (Ok _, _) |- _ => apply bind_ok in H as (? & ? & ? & ?)
  | H : put _ _ = (Ok _, _) |- _ => unfold put in H; injection H as <- <-
  | H : get _ _ = (Ok _, _) |- _ => unfold get in H; injection H as <- <-
  | H : mret _ _ = (Ok _, _) |- _ => unfold mret, L_ret in H; injection H as <- <-
  | H : fail _ _ = (Ok _, _) |- _ => discriminate H
  end.

Lemma ask_same w b w' : ask w = (Ok b, w') -> exists l, w' = set_answers l w.
Proof. unfold ask. destruct (answers w) as [| b' l] eqn:E; intros [= <- <-]; [exists (answers w); by destruct w | by exists l]. Qed.

Lemma ask_room_same w u w' : ask_room w = (Ok u, w') -> exists l, w' = set_answers l w.
Proof. unfold ask_room. intros (b & w1 & Ha & Hb)%bind_ok. destruct b; [| done]. injection Hb as <- <-. by apply ask_same in Ha. Qed.

Lemma ok_answers l w : world_ok w -> world_ok (set_answers l w).
Proof. by intros []. Qed.
Lemma grows_answers l w : grows w (set_answers l w).
Proof. constructor; cbn; eauto; no_more. Qed.
Lemma ok_cache l w : world_ok w -> world_ok (set_cache l w).
Proof. by intros []. Qed.
Lemma grows_cache l w : grows w (set_cache l w).
Proof. constructor; cbn; eauto; no_more. Qed.
Lemma ok_table l w : world_ok w -> world_ok (set_table l w).
Proof. by intros []. Qed.
Lemma grows_table l w : grows w (set_table l w).
Proof. constructor; cbn; eauto; no_more. Qed.

(** Neither the page table nor the records of the load. *)
Definition same_records (w w' : World) : Prop := table w' = table w /\ frames w' = frames w /\ shared w' = shared w.

#[export] Instance same_records_preorder : PreOrder same_records.
Proof. split; [done |]. intros w1 w2 w3 (A & B & C) (A' & B' & C'). repeat split; congruence. Qed.

Lemma need_ok {A} (o : option A) w x w' : need o w = (Ok x, w') -> o = Some x /\ w' = w.
Proof. unfold need. destruct o; [by intros [= <- <-] | done]. Qed.
Lemma need_err {A} (o : option A) w err w' : need o w = (Err err, w') -> o = None.
Proof. by destruct o. Qed.
Lemma guard_ok b w x w' : guard_ b w = (Ok x, w') -> b = true /\ w' = w.
Proof. unfold guard_. destruct b; [by intros [= _ <-] | done]. Qed.

(** A frame is taken and filled. *)
Lemma allocate_ok w f w' : allocate w = (Ok f, w') -> exists l, pool w = f :: l /\ w' = set_pool l w.
Proof. unfold allocate. destruct (pool w) as [| f' l]; intros [= <- <-]. by exists l. Qed.

Lemma filled_ok w f l bytes :
  world_ok w -> pool w = f :: l -> length bytes = 4096%nat ->
  let w' := set_memory (<[f := bytes]> (memory w)) (set_pool l w) in
  world_ok w' /\ grows w w' /\ f ∉ l /\ (forall id c, pages w !! id <> Some (f, c)) /\ f ∉ frames w.
Proof.
  intros H Ep Hb w'. pose proof (ok_pool w H) as Hn. rewrite Ep in Hn. apply NoDup_cons in Hn as [Hfl Hn].
  assert (forall f', f' ∉ pool w -> f' ∉ l /\ f' <> f) as Hsub by (intros f'; rewrite Ep, not_elem_of_cons; tauto).
  split; [| split; [| split; [done |]]].
  - constructor; cbn; try apply H; try done.
    + intros id f' c Hp. destruct (ok_pages w H _ _ _ Hp) as [Hn' ?]. split; [by apply Hsub | done].
    + intros f' Hf'. destruct (ok_private w H f' Hf') as [Hn' ?]. split; [by apply Hsub | done].
    + intros f'. destruct (decide (f = f')) as [<- |]; [by rewrite fn_lookup_insert | rewrite fn_lookup_insert_ne by done; apply H].
  - constructor; cbn; eauto; try (no_more).
    + intros f' Hf'. rewrite Ep. by right.
    + intros f' Hf'. apply fn_lookup_insert_ne. intros <-. apply Hf'. rewrite Ep. by left.
  - split; [intros id c Hp; apply (ok_pages w H) in Hp as [Hp _] | intros Hf; apply (ok_private w H) in Hf as [Hp _]]; apply Hp; rewrite Ep; by left.
Qed.

(** ** One page *)

Section page.
Context (data : list Z) (so d c : nat) (Hd : (d + c <= 4096)%nat) (Hs : (so + c <= length data)%nat).

(** A shared page with these bytes, and nothing else that anyone could see. *)
Definition page_shared (w : World) (id : nat) (w' : World) : Prop :=
  world_ok w' /\ grows w w' /\ same_records w w' /\ drop_page id w' ≡ w /\ exists f n, pages w' !! id = Some (f, n) /\ memory w' f = page_of data so d c.

Lemma new_page_ok w id w' : world_ok w -> new_page data so d c w = (Ok id, w') -> page_shared w id w'.
Proof using Hd Hs.
  intros H. unfold new_page. intros (f & w1 & Ha & Hr)%bind_ok. apply allocate_ok in Ha as (l & Ep & ->).
  destruct (filled_ok w f l (page_of data so d c) H Ep (length_page_of _ _ _ _ Hd Hs)) as (H1 & G1 & Hfl & Hpg & Hfr).
  apply bind_ok in Hr as ([] & w2 & Hp & Hr). unfold put in Hp. injection Hp as <-. change (initialize_page f data so d c (set_pool l w)) with (set_memory (<[f := page_of data so d c]> (memory w)) (set_pool l w)) in Hr.
  set (w1 := set_memory _ _) in *. apply bind_ok in Hr as (b & w2 & Hask & Hr). apply ask_same in Hask as [l' ->].
  destruct b; [| run_ok]. run_ok. cbn [next_page set_answers set_memory set_pool w1].
  assert (pages w !! next_page w = None) as Hnew.
  { destruct (pages w !! next_page w) as [[f' n] |] eqn:E; [| done]. apply (ok_pages w H) in E as (_ & E & _). lia. }
  split; [| split; [| split; [| split]]].
  - constructor; cbn; try apply H1.
    + intros id f' n. rewrite lookup_insert_Some. intros [[<- [= <- <-]] | [Hne Hp]]; [split_and!; [done | lia | lia] |]. pose proof (ok_pages _ H1 _ _ _ Hp) as (? & ? & ?). cbn in *. split_and!; [done | lia | done].
    + intros id id' f' n n'. rewrite !lookup_insert_Some. intros [[<- E] | [Hne Hp]] [[<- E'] | [Hne' Hp']]; simplify_eq; [done | | | by eapply (ok_pages_once w H)].
      * by destruct (Hpg _ _ Hp').
      * by destruct (Hpg _ _ Hp).
    + intros f' Hf'. destruct (ok_private _ H1 f' Hf') as [Hp' Hno]. split; [done |]. intros id n. rewrite lookup_insert_Some. intros [[_ [= <- _]] | [_ Hp'']]; [done | by eapply Hno].
    + intros id Hid. apply (ok_shared w H) in Hid as [x Hx]. exists x. rewrite lookup_insert_ne; [done |]. intros <-. congruence.
  - destruct G1 as [A B C D E]. constructor; cbn; auto. intros id f' n Hp. exists n. rewrite lookup_insert_ne; [done |]. intros <-. cbn in *. congruence.
  - done.
  - unfold drop_page. cbn [pages set_next_page set_pages]. rewrite lookup_insert_eq. split; cbn.
    + by rewrite delete_insert_id.
    + unfold balance. cbn. by rewrite Ep, (Permutation_app_comm l [f]).
  - exists f, 1%nat. cbn. rewrite lookup_insert_eq, fn_lookup_insert. done.
Qed.

Lemma page_matches_eq bytes :
  length bytes = 4096%nat -> page_matches bytes data so d c = true -> bytes = page_of data so d c.
Proof using Hd Hs.
  intros Hl. unfold page_matches. rewrite !andb_true_iff. intros [[H1 H2] H3]. apply bool_decide_eq_true in H2.
  assert (forall l, forallb (Z.eqb 0) l = true -> l = replicate (length l) 0) as Hz.
  { intros l Hl'. induction l as [| x l IH]; [done |]. cbn [forallb] in Hl'. apply andb_true_iff in Hl' as [Hx Hl']. apply Z.eqb_eq in Hx as <-. cbn [length replicate]. f_equal. by apply IH. }
  apply Hz in H1, H3. rewrite length_take, Hl in H1. rewrite length_drop, Hl in H3. unfold page_of.
  rewrite <- (take_drop d bytes) at 1. rewrite <- (take_drop c (drop d bytes)) at 1. rewrite H2, drop_drop, H3, H1.
  f_equal; [f_equal; lia |]. f_equal. f_equal. unfold PAGE_SIZE. lia.
Qed.

Lemma clone_ok w id f n :
  world_ok w -> pages w !! id = Some (f, n) -> memory w f = page_of data so d c -> page_shared w id (clone_page id w).
Proof using Hd Hs.
  intros H Hid Hm. unfold clone_page. rewrite Hid. split; [| split; [| split; [| split]]].
  - constructor; cbn; try apply H.
    + intros id' f' n'. rewrite lookup_insert_Some. intros [[<- [= <- <-]] | [_ Hp]]; [| by eapply (ok_pages w H)]. destruct (ok_pages w H _ _ _ Hid) as (? & ? & ?). split_and!; [done | done | lia].
    + intros id1 id2 f' n1 n2. rewrite !lookup_insert_Some. intros [[<- E] | [Hne Hp]] [[<- E'] | [Hne' Hp']]; simplify_eq; [done | | |]; by eapply (ok_pages_once w H).
    + intros f' Hf'. destruct (ok_private w H f' Hf') as [? Hno]. split; [done |]. intros id' n'. rewrite lookup_insert_Some. intros [[_ [= <- _]] | [_ ?]]; by eapply Hno.
    + intros id' Hid'. destruct (decide (id = id')) as [<- |]; [by rewrite lookup_insert_eq | rewrite lookup_insert_ne by done; by apply (ok_shared w H)].
  - constructor; cbn; eauto; try (no_more). intros id' f' n' Hp. destruct (decide (id = id')) as [<- |].
    + rewrite lookup_insert_eq. rewrite Hid in Hp. injection Hp as <- <-. by eexists.
    + rewrite lookup_insert_ne by done. by eexists.
  - done.
  - destruct (ok_pages w H _ _ _ Hid) as (_ & _ & Hn). destruct n as [| n]; [lia |]. unfold drop_page. cbn [pages set_pages]. rewrite lookup_insert_eq. split; cbn; [| done].
    rewrite insert_insert_eq. by apply insert_id.
  - exists f, (S n). cbn. by rewrite lookup_insert_eq.
Qed.

(** What follows a page may change the cache and ask the heap. *)
Lemma page_shared_after w id w1 w2 :
  page_shared w id w1 -> (exists l l', w2 = set_cache l (set_answers l' w1)) -> page_shared w id w2.
Proof using.
  intros (H & G & S & Bk & f & n & Hp & Hm) (l & l' & ->). split; [by apply ok_cache, ok_answers |]. split; [| split; [| split]].
  - etrans; [exact G |]. etrans; [apply grows_answers | apply grows_cache].
  - etrans; [exact S | done].
  - rewrite <- Bk. by apply drop_page_proper.
  - by exists f, n.
Qed.

Lemma page_shared_before w w1 id w2 : (exists l, w1 = set_cache l w) -> page_shared w1 id w2 -> page_shared w id w2.
Proof using.
  intros [l ->] (H & G & S & Bk & P). split; [done |]. split; [| split; [| split; [| done]]].
  - etrans; [apply grows_cache | exact G].
  - done.
  - by rewrite Bk.
Qed.

Lemma shared_page_ok w id w' : world_ok w -> shared_page data so d c w = (Ok id, w') -> page_shared w id w'.
Proof using Hd Hs.
  intros H. unfold shared_page. intros (found & w1 & Hg & Hr)%bind_ok. unfold get in Hg. injection Hg as <- <-.
  assert (forall w1, w1 = set_cache (cache w1) (set_answers (answers w1) w1)) as Hself by (by intros []).
  destruct (search _ (cache w) 0) as [at_ | at_].
  - apply bind_ok in Hr as ([] & w1 & Hp & Hr). unfold put in Hp. injection Hp as <-. set (w1 := set_cache _ w) in *.
    assert (world_ok w1) as H1 by (by apply ok_cache). apply (page_shared_before w w1); [by eexists |]. clearbody w1.
    apply bind_ok in Hr as (cands & w2 & Hg & Hr). unfold get in Hg. injection Hg as Hcands <-.
    apply bind_ok in Hr as (same & w2 & Hg & Hr). unfold get in Hg. injection Hg as Hf <-. destruct same as [id' |].
    + run_ok. apply find_some in Hf as [_ Hf]. destruct (pages w1 !! id') as [[f n] |] eqn:Hid; [| done].
      apply (clone_ok w1 id' f n); [done | done |]. apply page_matches_eq; [apply H1 | done].
    + apply bind_ok in Hr as (id' & w2 & Hn & Hr). apply new_page_ok in Hn; [| done]. destruct (_ <? _)%nat.
      * apply bind_ok in Hr as (b & w3 & Ha & Hr). apply ask_same in Ha as [l ->]. destruct b; run_ok; eapply page_shared_after; try done; [by eexists _, _ | by exists (cache w2), l; destruct w2].
      * run_ok. done.
  - apply bind_ok in Hr as (id' & w2 & Hn & Hr). apply new_page_ok in Hn; [| done]. apply bind_ok in Hr as (keys & w3 & Hg & Hr). unfold get in Hg. injection Hg as <- <-.
    destruct (_ <? _)%nat; [| by run_ok].
    apply bind_ok in Hr as (b & w3 & Ha & Hr). apply ask_same in Ha as [l ->]. destruct b; [| run_ok; eapply page_shared_after; [done | by exists (cache w2), l; destruct w2]].
    apply bind_ok in Hr as (b & w3 & Ha & Hr). apply ask_same in Ha as [l' ->]. destruct b; run_ok; eapply page_shared_after; try done; [by eexists _, l' | by exists (cache w2), l'; destruct w2].
Qed.
End page.

(** Where a page can fail, memory is short. *)
Lemma ask_err w err w' : ask w = (Err err, w') -> False.
Proof. unfold ask. by destruct (answers w). Qed.

Lemma try_map_err a v f fl w err w' : try_map a v f fl w = (Err err, w') -> False.
Proof.
  unfold try_map. destruct (negb _); [done |]. intros [Hp | (g & w1 & _ & Hr)]%bind_err; [by apply ask_err in Hp |].
  apply bind_err in Hr as [Hp | (m & w2 & _ & Hr)]; [done |]. by destruct (_ || _).
Qed.

Ltac run_err :=
  repeat match goal with
  | H : mbind _ _ _ = (Err _, _) |- _ => apply bind_err in H as [H | (? & ? & _ & H)]
  | H : ask _ = (Err _, _) |- _ => destruct (ask_err _ _ _ H)
  | H : put _ _ = (Err _, _) |- _ => discriminate H
  | H : get _ _ = (Err _, _) |- _ => discriminate H
  | H : mret _ _ = (Err _, _) |- _ => discriminate H
  | H : fail OutOfMemory _ = (Err _, _) |- _ => injection H as <- _; reflexivity
  | H : allocate ?w = (Err _, _) |- _ => unfold allocate in H; destruct (pool w); [injection H as <- _; reflexivity | discriminate H]
  | H : (if ?b then _ else _) _ = (Err _, _) |- _ => destruct b
  | H : (match ?x with _ => _ end) _ = (Err _, _) |- _ => destruct x
  end.

Lemma new_page_err data so d c w err w' : new_page data so d c w = (Err err, w') -> err = OutOfMemory.
Proof. unfold new_page. intros H. run_err. Qed.

Lemma page_frame_err ph data so d c w err w' : page_frame ph data so d c w = (Err err, w') -> err = OutOfMemory.
Proof.
  unfold page_frame, shared_page, ask_room. intros H. run_err; by eapply new_page_err.
Qed.

(** A frame of the load's own. *)
Lemma private_ok w f l bytes :
  world_ok w -> pool w = f :: l -> length bytes = 4096%nat ->
  let w' := set_frames (frames w ++ [f]) (set_memory (<[f := bytes]> (memory w)) (set_pool l w)) in
  world_ok w' /\ grows w w' /\ w' ≡ w /\ memory w' f = bytes.
Proof.
  intros H Ep Hb w'. destruct (filled_ok w f l bytes H Ep Hb) as (H1 & G1 & Hfl & Hpg & Hfr). split; [| split; [| split]].
  - constructor; cbn; try apply H1.
    + apply NoDup_app. split; [apply H |]. split; [intros x Hx ->%list_elem_of_singleton; done | apply NoDup_singleton].
    + intros f'. rewrite elem_of_app, list_elem_of_singleton. intros [Hf' | ->]; [by apply (ok_private _ H1) | by split].
  - destruct G1 as [A B C D E]. constructor; cbn; auto. exists [f]. split; [done |]. intros f' ->%list_elem_of_singleton. rewrite Ep. left.
  - split; [done |]. unfold balance. cbn. by rewrite Ep, app_assoc, (Permutation_app_comm _ [f]).
  - cbn. by rewrite fn_lookup_insert.
Qed.

(** A page of a segment, by the kind of the segment. *)
Definition owned (ph : ProgramHeader) (w w' : World) (f : Z) (page : option nat) : Prop :=
  match page with
  | None => writable (p_flags ph) = true /\ frames w' = frames w ++ [f] /\ w' ≡ w
  | Some id => writable (p_flags ph) = false /\ frames w' = frames w /\ drop_page id w' ≡ w /\ exists n, pages w' !! id = Some (f, n)
  end.

Lemma page_frame_ok ph data so d c w fp w' :
  (d + c <= 4096)%nat -> (so + c <= length data)%nat -> world_ok w -> page_frame ph data so d c w = (Ok fp, w') ->
  world_ok w' /\ grows w w' /\ table w' = table w /\ shared w' = shared w /\ memory w' fp.1 = page_of data so d c /\ owned ph w w' fp.1 fp.2.
Proof.
  intros Hd Hs H. unfold page_frame. destruct (writable (p_flags ph)) eqn:Ew; cbn [negb]; intros Hr.
  - apply bind_ok in Hr as ([] & w1 & Ha & Hr). apply ask_room_same in Ha as [l ->].
    apply bind_ok in Hr as (f & w2 & Ha & Hr). apply allocate_ok in Ha as (l' & Ep & ->). cbn [pool set_answers] in Ep.
    destruct (private_ok (set_answers l w) f l' (page_of data so d c) (ok_answers l w H) Ep (length_page_of _ _ _ _ Hd Hs)) as (H1 & G1 & B1 & M1). run_ok.
    split_and!; [done | by etrans; [apply (grows_answers l) |] | done | done | done |]. by split_and!.
  - apply bind_ok in Hr as (id & w1 & Hp & Hr). apply shared_page_ok in Hp as (H1 & G1 & (T1 & F1 & S1) & Bk & f & n & Hid & Hm); [| done | done | done].
    apply bind_ok in Hr as (f' & w2 & Hg & Hr). unfold get in Hg. injection Hg as <- <-. rewrite Hid in Hr. run_ok. cbn. split_and!; try done. by exists n.
Qed.

Lemma try_map_ok a v f fl w b w' :
  try_map a v f fl w = (Ok b, w') ->
  exists l, if b then table w !! v = None /\ w' = set_table (<[v := (f, fl)]> (table w)) (set_answers l w) else w' = set_answers l w.
Proof.
  unfold try_map. destruct (user_range_ok a v); cbn [negb]; [| intros [= <- <-]; exists (answers w); by destruct w].
  intros (g & w1 & Ha & Hr)%bind_ok. apply ask_same in Ha as [l ->]. apply bind_ok in Hr as (m & w2 & Hg & Hr). unfold get in Hg. injection Hg as <- <-.
  exists l. cbn [table set_answers] in Hr. destruct (table w !! v) as [x |] eqn:Ev; cbn [is_some] in Hr; destruct g; cbn in Hr; run_ok; done.
Qed.

(** The bytes of page [k] of a segment. *)
Definition page_bytes (load_start : Z) (data : list Z) (start : Z) (k : nat) : list Z :=
  let '(so, d, c) := page_copy load_start (load_start + len data) (start + Z.of_nat k * 4096) in page_of data so d c.

(** Page [k], of which [first] is the frame index of page 0. *)
Record page_done (ph : ProgramHeader) (load_start : Z) (data : list Z) (start : Z) (first k : nat) (w : World) (f : Z) : Prop := {
  done_mapped : table w !! (start + Z.of_nat k * 4096) = Some (f, flags_of ph);
  done_bytes : memory w f = page_bytes load_start data start k;
  done_private : writable (p_flags ph) = true -> frames w !! (first + k)%nat = Some f;
  done_shared : writable (p_flags ph) = false -> exists id n, pages w !! id = Some (f, n);
}.

Lemma done_kept ph ls data start first k w f : page_done ph ls data start first k w f -> kept w f.
Proof.
  intros [_ _ Hp Hs]. destruct (writable (p_flags ph)); [left; by eapply list_elem_of_lookup_2, Hp | right; by apply Hs].
Qed.

(** What is done stays done while the table keeps the page. *)
Lemma done_grows ph ls data start first k w w' f :
  world_ok w -> grows w w' -> table w' !! (start + Z.of_nat k * 4096) = table w !! (start + Z.of_nat k * 4096) ->
  page_done ph ls data start first k w f -> page_done ph ls data start first k w' f.
Proof.
  intros H G Ht Hd. pose proof (done_kept _ _ _ _ _ _ _ _ Hd) as Hk. destruct Hd as [D1 D2 D3 D4]. constructor.
  - by rewrite Ht.
  - by rewrite (kept_memory w w' f H G Hk).
  - intros Hw. destruct (grow_frames _ _ G) as (l & -> & _). rewrite lookup_app_l; [by apply D3 |]. apply lookup_lt_is_Some. eexists. by apply D3.
  - intros Hw. destruct (D4 Hw) as (id & n & Hid). destruct (grow_pages _ _ G _ _ _ Hid) as [n' ?]. by exists id, n'.
Qed.

Section pages.
Context (a : Arch) (ph : ProgramHeader) (data : list Z) (load_start start : Z) (first_shared first : nat).
Context (Hstart : 0 <= start <= load_start) (Hload : load_start < start + 4096).

Lemma page_bounds k :
  let '(so, d, c) := page_copy load_start (load_start + len data) (start + Z.of_nat k * 4096) in (d + c <= 4096)%nat /\ (so + c <= length data)%nat.
Proof using Hstart Hload. apply page_copy_bounds; lia. Qed.

(** What the loop leaves when it gets to its end. *)
Record pages_done (n page : nat) (w w' : World) : Prop := {
  all_ok : world_ok w';
  all_grow : grows w w';
  all_frames : length (frames w') = (length (frames w) + if writable (p_flags ph) then n else 0)%nat;
  all_other : forall v, (forall k, (page <= k < page + n)%nat -> v <> start + Z.of_nat k * 4096) -> table w' !! v = table w !! v;
  all_fresh : forall k, (page <= k < page + n)%nat -> table w !! (start + Z.of_nat k * 4096) = None;
  all_done : forall k, (page <= k < page + n)%nat -> exists f, page_done ph load_start data start first k w' f;
  all_back : gives_back w w';
}.

(** One page and the rest. *)
Lemma pages_step n page w w1 w' f :
  world_ok w1 -> grows w w1 -> length (frames w1) = (length (frames w) + if writable (p_flags ph) then 1 else 0)%nat ->
  table w !! (start + Z.of_nat page * 4096) = None -> table w1 = <[start + Z.of_nat page * 4096 := (f, flags_of ph)]> (table w) ->
  page_done ph load_start data start first page w1 f -> gives_back w w1 -> pages_done n (S page) w1 w' -> pages_done (S n) page w w'.
Proof using.
  intros H1 G1 L1 Hnone Ht Hd Hb [A B C D F E Bk]. assert (forall k, (S page <= k < S page + n)%nat -> start + Z.of_nat page * 4096 <> start + Z.of_nat k * 4096) as Hne by lia. constructor.
  - done.
  - by etrans.
  - rewrite C, L1. destruct (writable _); lia.
  - intros v Hv. rewrite D by (intros k Hk; apply Hv; lia). rewrite Ht. apply lookup_insert_ne. intros <-. apply (Hv page); [lia | done].
  - intros k Hk. destruct (decide (k = page)) as [-> |]; [done |]. pose proof (F k ltac:(lia)) as Hf. rewrite Ht, lookup_insert_ne in Hf by lia. done.
  - intros k Hk. destruct (decide (k = page)) as [-> |]; [| apply E; lia]. exists f. apply (done_grows _ _ _ _ _ _ w1); [done | done | | done]. apply D. lia.
  - by etrans.
Qed.

Lemma map_pages_ok n page w u w' :
  world_ok w -> (writable (p_flags ph) = true -> length (frames w) = (first + page)%nat) ->
  map_pages a ph data load_start (load_start + len data) start first_shared n page w = (Ok u, w') -> pages_done n page w w'.
Proof using Hstart Hload.
  revert page w. induction n as [| n IH]; intros page w H Hfirst Hr; cbn [map_pages] in Hr.
  { injection Hr as <- <-. constructor; [done | done | destruct (writable _); lia | done | lia | lia | done]. }
  apply bind_ok in Hr as (x & w1 & Hn & Hr). apply need_ok in Hn as [_ ->]. unfold PAGE_SIZE in Hr. pose proof (page_bounds page) as Hb.
  assert (page_bytes load_start data start page = let '(so, d, c) := page_copy load_start (load_start + len data) (start + Z.of_nat page * 4096) in page_of data so d c) as Hpb by done.
  destruct (page_copy load_start (load_start + len data) (start + Z.of_nat page * 4096)) as [[so d] c]. destruct Hb as [Hd Hs].
  apply bind_ok in Hr as (fp & w1 & Hf & Hr). apply page_frame_ok in Hf as (H1 & G1 & T1 & S1 & M1 & O1); [| done | done | done].
  apply bind_ok in Hr as (b & w2 & Hm & Hr). apply try_map_ok in Hm as [l Hm]. destruct b; cbn [negb] in Hr; [| run_ok]. destruct Hm as [Hnone ->]. rewrite T1 in Hnone, Hr.
  set (w2 := set_table _ (set_answers l w1)) in *.
  assert (world_ok w2) as H2 by (by apply ok_table, ok_answers). assert (grows w1 w2) as G2 by (etrans; [apply grows_answers | apply grows_table]).
  assert (page_done ph load_start data start first page w2 fp.1) as Hdone.
  { destruct fp as [f [id |]]; cbn [fst snd owned] in *; constructor; cbn [table memory frames pages w2 set_table set_answers]; try (by rewrite lookup_insert_eq); try (by rewrite Hpb).
    - by destruct O1 as (-> & _ & _).
    - destruct O1 as (_ & _ & _ & n' & ?). intros _. by exists id, n'.
    - destruct O1 as (Hw & -> & _). intros _. rewrite <- Hfirst by done. by rewrite lookup_app_r, Nat.sub_diag.
    - by destruct O1 as [-> _]. }
  destruct fp as [f [id |]]; cbn [fst snd owned] in *.
  - destruct O1 as (Hw & F1 & Bk & n' & Hid). apply bind_ok in Hr as (g & w3 & Ha & Hr). apply ask_same in Ha as [l' ->]. destruct g; [| run_ok].
    apply bind_ok in Hr as ([] & w3 & Hp & Hr). unfold put in Hp. injection Hp as <-. set (w3 := set_shared _ _) in *.
    assert (world_ok w3) as H3.
    { destruct H2. constructor; cbn; auto. intros id'. rewrite elem_of_app, list_elem_of_singleton. intros [? | ->]; [auto | by rewrite Hid]. }
    assert (grows w2 w3) as G3 by (constructor; cbn; eauto; no_more).
    eapply (pages_step n page w w3 w' f); [done | by etrans; [| etrans] | cbn; rewrite F1, Hw; lia | done | done | by eapply done_grows; [exact H2 | exact G3 | |] | |].
    { apply (gives_back_one w w3 id); [cbn; by rewrite S1 |]. rewrite <- Bk. by apply drop_page_proper. }
    apply IH; [done | by rewrite Hw | done].
  - destruct O1 as (Hw & F1 & Bk). eapply (pages_step n page w w2 w' f); [done | by etrans | cbn; rewrite F1, Hw, length_app; done | done | done | done | by apply gives_back_equiv |].
    apply IH; [done | | done]. intros _. cbn. rewrite F1, length_app, Hfirst by done. cbn. lia.
Qed.
End pages.

(** ** Segments *)

Definition npages (s : LoadedSegment) : nat := Z.to_nat ((seg_end s - seg_start s) / 4096).
Definition covered (s : LoadedSegment) (v : Z) : Prop := exists k, (k < npages s)%nat /\ v = seg_start s + Z.of_nat k * 4096.

Lemma covered_Exists s v : covered s v <-> Exists (fun k => v = seg_start s + Z.of_nat k * 4096) (seq 0 (npages s)).
Proof. rewrite Exists_exists. unfold covered. setoid_rewrite elem_of_seq. split; intros (k & Hk & ->); exists k; (split; [lia | done]). Qed.
#[export] Instance covered_dec s v : Decision (covered s v).
Proof. refine (cast_if (decide (Exists (fun k => v = seg_start s + Z.of_nat k * 4096) (seq 0 (npages s))))); by rewrite covered_Exists. Defined.

Lemma covered_range s v : seg_start s mod 4096 = 0 -> seg_end s mod 4096 = 0 -> seg_start s <= seg_end s -> covered s v -> seg_start s <= v /\ v + 4096 <= seg_end s.
Proof.
  intros H1 H2 H3 (k & Hk & ->). unfold npages in Hk. assert (Z.of_nat k < (seg_end s - seg_start s) / 4096) as Hk' by lia.
  pose proof (Z.mul_div_le (seg_end s - seg_start s) 4096). lia.
Qed.

Record validated (a : Arch) (ph : ProgramHeader) (bias : Z) (window : option (Z * Z)) (loaded : list LoadedSegment) (start end_ : Z) : Prop := {
  valid_range : page_range ph bias = Some (start, end_);
  valid_memsz : p_memsz ph <> 0 /\ p_filesz ph <= p_memsz ph;
  valid_w_xor_x : writable (p_flags ph) && executable (p_flags ph) = false;
  valid_user : start < end_ /\ end_ <= USER_VA_END a;
  valid_clear : overlaps start end_ STACK_BASE USER_STACK_TOP = false /\ overlaps start end_ (USER_MMAP_BASE a) (USER_VA_END a) = false;
  valid_window : forall low high, window = Some (low, high) -> low <= start /\ end_ <= high;
  valid_apart : forall s, s ∈ loaded -> end_ <= seg_start s \/ seg_end s <= start;
}.

Lemma validate_ok a ph bias window loaded :
  validate_segment a ph bias window loaded = true -> exists start end_, validated a ph bias window loaded start end_.
Proof.
  unfold validate_segment. destruct (page_range ph bias) as [[start end_] |] eqn:Er; [| by rewrite andb_false_r].
  rewrite !andb_true_iff, !negb_true_iff, !orb_false_iff. intros [[[[H1 H2] H3] _] [[[[[H5 H6] H7] [H8 H8']] H9] H10]]. exists start, end_.
  constructor; try done.
  - apply Z.eqb_neq in H1. lia.
  - lia.
  - intros low high ->. lia.
  - intros s Hs. apply not_true_iff_false in H10. assert ((start <? seg_end s) && (seg_start s <? end_) = false) as Hx.
    { apply not_true_iff_false. intros Ht. apply H10, existsb_exists. exists s. split; [by apply list_elem_of_In | done]. }
    apply andb_false_iff in Hx. lia.
Qed.

Section segment_load.
Context (a : Arch) (ph : ProgramHeader) (data : list Z) (bias start end_ : Z).
Context (Hh : header_ok ph) (Hbias : 0 <= bias) (Hlen : len data = p_filesz ph) (Hfit : p_filesz ph <= p_memsz ph) (Hr : page_range ph bias = Some (start, end_)).

Lemma segment_range : range_ok ph bias start end_.
Proof using Hh Hbias Hr. apply page_range_ok; [apply Hh | apply Hh | done | done]. Qed.

Lemma map_segment_ok w s w' :
  world_ok w -> map_segment a data ph bias w = (Ok s, w') ->
  s = mkLoadedSegment start end_ (writable (p_flags ph)) (executable (p_flags ph)) (length (frames w)) /\
  pages_done ph data (p_vaddr ph + bias) start (length (frames w)) (npages s) 0 w w'.
Proof using Hh Hbias Hr.
  intros H Hm. pose proof segment_range as [R1 R2 R3 R4 R5 R6 R7]. unfold page_range in Hr. unfold map_segment in Hm.
  apply bind_ok in Hm as (ls & w1 & Hn & Hm). apply need_ok in Hn as [E1 ->]. rewrite E1 in Hr. cbn in Hr. apply checked_add_Some in E1 as [-> _].
  apply bind_ok in Hm as (de & w1 & Hn & Hm). apply need_ok in Hn as [E2 ->]. apply checked_add_Some in E2 as [-> _].
  apply bind_ok in Hm as (le & w1 & Hn & Hm). apply need_ok in Hn as [E3 ->]. rewrite E3 in Hr. cbn in Hr.
  apply bind_ok in Hm as (top & w1 & Hn & Hm). apply need_ok in Hn as [E4 ->]. rewrite E4 in Hr. cbn in Hr. injection Hr as Es ->.
  apply bind_ok in Hm as (n1 & w1 & Hn & Hm). unfold get in Hn. injection Hn as <- <-.
  apply bind_ok in Hm as (n2 & w1 & Hn & Hm). unfold get in Hn. injection Hn as <- <-.
  apply bind_ok in Hm as (u & w1 & Hp & Hm). injection Hm as <- <-. rewrite Es in *. split; [done |]. unfold npages. cbn.
  eapply map_pages_ok; [lia | lia | done | lia | exact Hp].
Qed.

(** Once a segment is valid only memory can be short. *)
Lemma map_pages_err first_shared n page w err w' :
  start + Z.of_nat (page + n) * 4096 <= end_ ->
  map_pages a ph data (p_vaddr ph + bias) (p_vaddr ph + bias + len data) start first_shared n page w = (Err err, w') -> err = OutOfMemory.
Proof using Hh Hbias Hr.
  pose proof segment_range as [R1 R2 R3 R4 R5 R6 R7]. revert page w. induction n as [| n IH]; intros page w Hle; cbn [map_pages]; [done |].
  intros [Hn | (x & w1 & Hn & Hm)]%bind_err.
  { unfold need, PAGE_SIZE in Hn. destruct (checked_add _ _ _) eqn:E; [done |]. unfold checked_add in E. destruct (Z.leb_spec (start + Z.of_nat page * 4096 + 4096) U64_MAX); [done | lia]. }
  apply need_ok in Hn as [_ ->]. destruct (page_copy _ _ _) as [[so d] c].
  apply bind_err in Hm as [Hp | (fp & w2 & _ & Hm)]; [by eapply page_frame_err |].
  apply bind_err in Hm as [Hp | (b & w3 & _ & Hm)]; [by apply try_map_err in Hp |].
  destruct b; cbn [negb] in Hm.
  - destruct fp as [f [id |]]; cbn [snd] in Hm; [| eapply IH; [| exact Hm]; lia].
    apply bind_err in Hm as [Hp | (g & w4 & _ & Hm)]; [by apply ask_err in Hp |]. destruct g.
    + apply bind_err in Hm as [Hp | (u & w5 & _ & Hm)]; [done |]. eapply IH; [| exact Hm]. lia.
    + apply bind_err in Hm as [Hp | (u & w5 & _ & Hm)]; [done |]. by injection Hm as <- _.
  - apply bind_err in Hm as [Hp | (u & w4 & _ & Hm)]; [done |]. by injection Hm as <- _.
Qed.

Lemma map_segment_err w err w' : map_segment a data ph bias w = (Err err, w') -> err = OutOfMemory.
Proof using Hh Hbias Hr Hlen Hfit.
  pose proof segment_range as [R1 R2 R3 R4 R5 R6 R7]. pose proof Hr as Hr'. unfold page_range in Hr'. unfold map_segment.
  destruct (checked_add U64_MAX (p_vaddr ph) bias) as [x |] eqn:E1; [| done]. cbn [mbind option_bind] in Hr'. apply checked_add_Some in E1 as [-> _].
  destruct (checked_add U64_MAX (p_vaddr ph + bias) (p_memsz ph)) as [x |] eqn:E2; [| done]. cbn [mbind option_bind] in Hr'.
  destruct (align_up x) as [top |] eqn:E3; [| done]. cbn [mbind option_bind] in Hr'. injection Hr' as Es ->.
  intros [Hn | (y & w1 & Hn & Hm)]%bind_err; [done | apply need_ok in Hn as [[= <-] ->]].
  apply bind_err in Hm as [Hn | (y & w1 & Hn & Hm)].
  { apply need_err in Hn. unfold checked_add in Hn. destruct (Z.leb_spec (p_vaddr ph + bias + len data) U64_MAX); [done | lia]. }
  apply need_ok in Hn as [E4 ->]. apply checked_add_Some in E4 as [-> _].
  apply bind_err in Hm as [Hn | (y & w1 & Hn & Hm)]; [apply need_err in Hn; congruence | apply need_ok in Hn as [E5 ->]]. rewrite E2 in E5. injection E5 as <-.
  apply bind_err in Hm as [Hn | (y & w1 & Hn & Hm)]; [apply need_err in Hn; congruence | apply need_ok in Hn as [E5 ->]]. rewrite E3 in E5. injection E5 as <-.
  rewrite Es in Hm. apply bind_err in Hm as [Hm | (n1 & w1 & _ & Hm)]; [done |]. apply bind_err in Hm as [Hm | (n2 & w2 & _ & Hm)]; [done |].
  apply bind_err in Hm as [Hm | (u & w3 & _ & Hm)]; [| done]. eapply map_pages_err; [| exact Hm]. pose proof (Z.mul_div_le (end_ - start) 4096). unfold PAGE_SIZE.
  assert (0 <= p_memsz ph) by apply Hh. assert (0 <= (end_ - start) / 4096) by (apply Z.div_pos; lia). lia.
Qed.
End segment_load.
