(* ===== verification/ElfSegments.v ===== *)
(** The segments of a load and its relocations, seen from the address space: which byte is
    at an address, with which rights. *)

From stdpp Require Import functions.
From S2P Require Import Prelude Wire Elf ElfLoad ElfFacts ElfPages.

(** ** The address space *)

Definition page_base (x : Z) : Z := x - x mod 4096.

(** The byte the process finds at an address and the rights it has there. *)
Definition view (w : World) (x : Z) : option (Z * Flags) :=
  match table w !! page_base x with
  | Some (f, fl) => Some (nth (Z.to_nat (x mod 4096)) (memory w f) 0, fl)
  | None => None
  end.

(** No mapped frame is free, and a private frame of the load is mapped once. *)
Record table_ok (w : World) : Prop := {
  mapped_unpooled : forall v f fl, table w !! v = Some (f, fl) -> f ∉ pool w;
  private_once : forall v v' f fl fl', table w !! v = Some (f, fl) -> table w !! v' = Some (f, fl') -> f ∈ frames w -> v = v';
}.

Lemma page_of_range start end_ x :
  start mod 4096 = 0 -> end_ mod 4096 = 0 -> start <= x < end_ ->
  exists k, (k < Z.to_nat ((end_ - start) / 4096))%nat /\ page_base x = start + Z.of_nat k * 4096 /\ x mod 4096 = x - page_base x.
Proof.
  intros Hs He Hx. exists (Z.to_nat ((x - start) / 4096)). unfold page_base.
  pose proof (Z.div_mod start 4096). pose proof (Z.div_mod end_ 4096). pose proof (Z.div_mod x 4096).
  assert ((x - start) / 4096 = x / 4096 - start / 4096) as E1 by (replace (x - start) with (x + - (start / 4096) * 4096) by lia; rewrite Z.div_add; lia).
  assert ((end_ - start) / 4096 = end_ / 4096 - start / 4096) as E2 by (replace (end_ - start) with ((end_ / 4096 - start / 4096) * 4096) by lia; rewrite Z.div_mul; lia).
  pose proof (Z.mod_pos_bound x 4096). rewrite E1, E2. lia.
Qed.

Lemma page_base_inside start end_ x :
  start mod 4096 = 0 -> end_ mod 4096 = 0 -> start <= page_base x -> page_base x < end_ -> start <= x < end_.
Proof. unfold page_base. intros. pose proof (Z.mod_pos_bound x 4096). pose proof (Z.div_mod x 4096). pose proof (Z.div_mod end_ 4096). lia. Qed.

(** ** A segment *)

Section segment_view.
Context (ph : ProgramHeader) (data : list Z) (bias : Z) (s : LoadedSegment) (w w' : World).
Context (M : 0 <= p_memsz ph) (R : range_ok ph bias (seg_start s) (seg_end s)) (H : world_ok w) (T : table_ok w) (F : first_frame s = length (frames w)).
Context (D : pages_done ph data (p_vaddr ph + bias) (seg_start s) (first_frame s) (npages s) 0 w w').

Lemma segment_covered v f fl :
  table w' !! v = Some (f, fl) ->
  table w !! v = Some (f, fl) \/ exists k, (k < npages s)%nat /\ v = seg_start s + Z.of_nat k * 4096 /\ fl = flags_of ph /\ page_done ph (p_vaddr ph + bias) data (seg_start s) (first_frame s) k w' f.
Proof using D F.
  intros Hv. destruct (decide (covered s v)) as [(k & Hk & ->) | Hn].
  - right. exists k. destruct (all_done _ _ _ _ _ _ _ _ _ D k ltac:(lia)) as [f' Hd]. pose proof (done_mapped _ _ _ _ _ _ _ _ Hd) as Hm. rewrite Hv in Hm. by injection Hm as -> ->.
  - left. rewrite <- Hv. symmetry. apply (all_other _ _ _ _ _ _ _ _ _ D). intros k Hk ->. apply Hn. exists k. split; [lia | done].
Qed.

(** The frames of a writable segment are new, those of the others belong to shared pages. *)
Lemma segment_private f k :
  f ∈ frames w' -> page_done ph (p_vaddr ph + bias) data (seg_start s) (first_frame s) k w' f -> writable (p_flags ph) = true /\ f ∈ pool w.
Proof using D F.
  intros Hf [_ _ Hp Hs]. destruct (writable (p_flags ph)).
  - split; [done |]. destruct (grow_frames _ _ (all_grow _ _ _ _ _ _ _ _ _ D)) as (l & El & Hl). apply Hl. specialize (Hp eq_refl).
    rewrite El, lookup_app_r in Hp by lia. by eapply list_elem_of_lookup_2.
  - destruct (Hs eq_refl) as (id & n & Hid). by destruct (ok_private _ (all_ok _ _ _ _ _ _ _ _ _ D) f Hf) as [_ Hno%(fun h => h id n)].
Qed.

Lemma segment_table_ok : table_ok w'.
Proof using D H T F.
  pose proof (all_ok _ _ _ _ _ _ _ _ _ D) as H'. pose proof (all_grow _ _ _ _ _ _ _ _ _ D) as G. destruct (grow_frames _ _ G) as (l & El & Hl).
  constructor.
  - intros v f fl [Ho | (k & _ & _ & _ & Hd)]%segment_covered; [| by eapply kept_unpooled, done_kept].
    intros Hf. by apply (mapped_unpooled _ T _ _ _ Ho), (grow_pool _ _ G).
  - intros v v' f fl fl' H1 H2 Hf.
    apply segment_covered in H1 as [H1 | (k & Hk & -> & _ & D1)]; apply segment_covered in H2 as [H2 | (k' & Hk' & -> & _ & D2)].
    + rewrite El in Hf. apply elem_of_app in Hf as [Hf | Hf]; [by eapply (private_once _ T) | by apply Hl, (mapped_unpooled _ T _ _ _ H1) in Hf].
    + apply segment_private in D2 as [_ Hp]; [| done]. by apply (mapped_unpooled _ T _ _ _ H1) in Hp.
    + apply segment_private in D1 as [_ Hp]; [| done]. by apply (mapped_unpooled _ T _ _ _ H2) in Hp.
    + pose proof (segment_private _ _ Hf D1) as [Hw _]. pose proof (done_private _ _ _ _ _ _ _ _ D1 Hw) as E1. pose proof (done_private _ _ _ _ _ _ _ _ D2 Hw) as E2.
      pose proof (NoDup_lookup _ _ _ _ (ok_frames _ H') E1 E2). lia.
Qed.

Lemma segment_view x :
  view w' x = if (seg_start s <=? x) && (x <? seg_end s) then Some (segment_byte (p_vaddr ph + bias) data x, flags_of ph) else view w x.
Proof using D H T R M F.
  destruct R as [R1 R2 R3 R4 R5 R6 R7]. pose proof (all_grow _ _ _ _ _ _ _ _ _ D) as G. unfold view.
  destruct ((seg_start s <=? x) && (x <? seg_end s)) eqn:Ex.
  - apply andb_true_iff in Ex as [E1 E2]. destruct (page_of_range (seg_start s) (seg_end s) x) as (k & Hk & Eb & Em); [lia | lia | lia |].
    destruct (all_done _ _ _ _ _ _ _ _ _ D k) as [f [Hm Hb _ _]]; [unfold npages; lia |]. rewrite Eb, Hm, Hb, Em, Eb. unfold page_bytes.
    pose proof (page_byte (p_vaddr ph + bias) data (seg_start s + Z.of_nat k * 4096) x) as Hp. destruct (page_copy _ _ _) as [[so d] c]. rewrite Hp; [done | lia | | ]; pose proof (Z.mod_pos_bound x 4096); lia.
  - rewrite (all_other _ _ _ _ _ _ _ _ _ D).
    + destruct (table w !! page_base x) as [[f fl] |] eqn:Et; [| done]. by rewrite (grow_memory _ _ G f (mapped_unpooled _ T _ _ _ Et)).
    + intros k Hk Hx. apply andb_false_iff in Ex. pose proof (covered_range s (page_base x) R4 R5 ltac:(lia)) as Hc. destruct Hc as [C1 C2]; [exists k; split; [lia | done] |].
      pose proof (page_base_inside (seg_start s) (seg_end s) x R4 R5). lia.
Qed.
End segment_view.

(** ** All segments *)

(** The loadable headers with their data, in the order of the program headers. *)
Definition load_headers (e : Elf) (todo : list nat) : list (ProgramHeader * list Z) :=
  omap (fun i =>
    match segment e i with
    | Some ph => if p_type ph =? PT_LOAD then (fun data => (ph, data)) <$> segment_data e ph else None
    | None => None
    end) todo.

(** What an image says of an address: the byte of the file or zero, and the rights. *)
Definition image_byte (bias x : Z) (p : ProgramHeader * list Z) : option (Z * Flags) :=
  match page_range p.1 bias with
  | Some (start, end_) => if (start <=? x) && (x <? end_) then Some (segment_byte (p_vaddr p.1 + bias) p.2 x, flags_of p.1) else None
  | None => None
  end.
Definition image_at (bias x : Z) (l : list (ProgramHeader * list Z)) : option (Z * Flags) := head (omap (image_byte bias x) l).

Lemma image_at_snoc bias x l p : image_at bias x (l ++ [p]) = image_at bias x l ∪ image_byte bias x p.
Proof. unfold image_at. rewrite omap_app. destruct (omap (image_byte bias x) l); cbn; by destruct (image_byte bias x p). Qed.

Record placed (a : Arch) (bias : Z) (window : option (Z * Z)) (p : ProgramHeader * list Z) (s : LoadedSegment) : Prop := {
  placed_valid : validated a p.1 bias window [] (seg_start s) (seg_end s);
  placed_range : range_ok p.1 bias (seg_start s) (seg_end s);
  placed_flags : seg_writable s = writable (p_flags p.1) /\ seg_executable s = executable (p_flags p.1);
}.

(** Where the pages of a loaded segment are. *)
Definition seg_mapped (w : World) (s : LoadedSegment) : Prop :=
  forall k, (k < npages s)%nat ->
  exists f fl, table w !! (seg_start s + Z.of_nat k * 4096) = Some (f, fl) /\ fl = mkFlags (seg_writable s) (negb (seg_executable s)) /\
    (seg_writable s = true -> frames w !! (first_frame s + k)%nat = Some f).

Record load_inv (a : Arch) (bias : Z) (window : option (Z * Z)) (w0 : World) (l : list (ProgramHeader * list Z)) (loaded : list LoadedSegment) (w : World) : Prop := {
  inv_ok : world_ok w;
  inv_table : table_ok w;
  inv_grows : grows w0 w;
  inv_back : gives_back w0 w;
  inv_view : forall x, view w x = image_at bias x l ∪ view w0 x;
  inv_placed : Forall2 (placed a bias window) l loaded;
  inv_mapped : forall s, s ∈ loaded -> seg_mapped w s;
  inv_other : forall v, (forall s, s ∈ loaded -> ~ covered s v) -> table w !! v = table w0 !! v;
  inv_fresh : forall s v, s ∈ loaded -> covered s v -> table w0 !! v = None;
}.

Lemma load_inv_start a bias window w : world_ok w -> table_ok w -> load_inv a bias window w [] [] w.
Proof.
  intros H T. constructor; [done | done | done | done | | constructor | by intros ? ?%elem_of_nil | done | by intros ? ? ?%elem_of_nil].
  intros x. by destruct (view w x).
Qed.

Lemma seg_mapped_grows w w' s : grows w w' -> (forall v, covered s v -> table w' !! v = table w !! v) -> seg_mapped w s -> seg_mapped w' s.
Proof.
  intros G Ht Hs k Hk. destruct (Hs k Hk) as (f & fl & Hm & Hf & Hp). exists f, fl. rewrite Ht by (exists k; done). split_and!; [done | done |].
  intros Hw. destruct (grow_frames _ _ G) as (l & -> & _). rewrite lookup_app_l; [by apply Hp |]. apply lookup_lt_is_Some. eexists. by apply Hp.
Qed.

Section load_step.
Context (a : Arch) (bias : Z) (window : option (Z * Z)) (w0 : World) (Hbias : 0 <= bias).

(** The ranges of two segments that were found apart have no page in common. *)
Lemma apart_covered p s s' v :
  placed a bias window p s' -> seg_start s mod 4096 = 0 -> seg_end s mod 4096 = 0 -> seg_start s <= seg_end s ->
  seg_end s <= seg_start s' \/ seg_end s' <= seg_start s -> covered s v -> covered s' v -> False.
Proof using.
  intros [V [R1 R2 R3 R4 R5 R6 R7] _] E1 E2 E3 Ha C1 C2. pose proof (valid_user _ _ _ _ _ _ _ V).
  pose proof (covered_range s v E1 E2 E3 C1). pose proof (covered_range s' v R4 R5 ltac:(lia) C2). lia.
Qed.

Lemma load_step ph data l loaded w s w' :
  load_inv a bias window w0 l loaded w -> header_ok ph -> len data = p_filesz ph -> validate_segment a ph bias window loaded = true ->
  map_segment a data ph bias w = (Ok s, w') -> load_inv a bias window w0 (l ++ [(ph, data)]) (loaded ++ [s]) w'.
Proof using Hbias.
  intros I Hh Hlen (start & end_ & V)%validate_ok Hm. destruct I as [H T G Bk Iv Ip Im Io If].
  pose proof (segment_range ph bias start end_ Hh Hbias (valid_range _ _ _ _ _ _ _ V)) as R.
  destruct (map_segment_ok a ph data bias start end_ Hh Hbias (valid_range _ _ _ _ _ _ _ V) w s w' H Hm) as [Es D].
  assert (seg_start s = start /\ seg_end s = end_ /\ first_frame s = length (frames w) /\ seg_writable s = writable (p_flags ph) /\ seg_executable s = executable (p_flags ph)) as (Es1 & Es2 & F & Fw & Fx) by by subst s.
  clear Es. rewrite <- Es1 in D, V, R. rewrite <- Es2 in V, R. rewrite <- F in D.
  assert (0 <= p_memsz ph) as Hm0 by apply Hh. pose proof (all_grow _ _ _ _ _ _ _ _ _ D) as G'.
  assert (placed a bias window (ph, data) s) as P. { constructor; [| done | done]. destruct V. constructor; try done. by intros ? ?%elem_of_nil. }
  assert (forall s' v, s' ∈ loaded -> covered s' v -> ~ covered s v) as Hap.
  { intros s' v Hs' Hc' Hc. apply list_elem_of_lookup in Hs' as [i Hi]. destruct (Forall2_lookup_r _ _ _ _ _ Ip Hi) as (p & _ & Pp). destruct R as [R1 R2 R3 R4 R5 R6 R7].
    eapply (apart_covered p s s' v); [done | done | done | lia | | done | done]. apply (valid_apart _ _ _ _ _ _ _ V). by eapply list_elem_of_lookup_2. }
  assert (forall v, ~ covered s v -> table w' !! v = table w !! v) as Hoth.
  { intros v Hv. apply (all_other _ _ _ _ _ _ _ _ _ D). intros k Hk ->. apply Hv. exists k. split; [lia | done]. }
  constructor.
  - apply D.
  - by eapply segment_table_ok.
  - by etrans.
  - etrans; [exact Bk | apply D].
  - intros x. rewrite image_at_snoc, (segment_view ph data bias s w w' Hm0 R H T F D x). unfold image_byte. cbn [fst snd]. rewrite (valid_range _ _ _ _ _ _ _ V).
    destruct (_ && _) eqn:Ex; [| rewrite Iv; by destruct (image_at bias x l)].
    assert (view w x = None) as Hnone.
    { apply andb_true_iff in Ex as [E1 E2]. destruct R as [R1 R2 R3 R4 R5 R6 R7]. destruct (page_of_range (seg_start s) (seg_end s) x) as (k & Hk & Eb & Em); [done | done | lia |].
      unfold view. by rewrite Eb, (all_fresh _ _ _ _ _ _ _ _ _ D k ltac:(unfold npages; lia)). }
    rewrite Iv in Hnone. destruct (image_at bias x l), (view w0 x); done.
  - apply Forall2_app; [done | by constructor].
  - intros s'. rewrite elem_of_app, list_elem_of_singleton. intros [Hs' | ->].
    + eapply seg_mapped_grows; [exact G' | | by apply Im]. intros v Hv. apply Hoth. by eapply Hap.
    + intros k Hk. destruct (all_done _ _ _ _ _ _ _ _ _ D k ltac:(lia)) as [f [D1 _ D3 _]]. exists f, (flags_of ph). unfold flags_of in *. rewrite Fw, Fx. done.
  - intros v Hv. rewrite Hoth by (apply Hv, elem_of_app; right; by apply list_elem_of_singleton). apply Io. intros s' Hs'. apply Hv, elem_of_app. by left.
  - intros s' v. rewrite elem_of_app, list_elem_of_singleton. intros [Hs' | ->] Hc; [by eapply If |]. destruct Hc as (k & Hk & ->).
    rewrite <- Io; [by apply (all_fresh _ _ _ _ _ _ _ _ _ D); lia |]. intros s' Hs' Hc'. apply (Hap s' _ Hs' Hc'). by exists k.
Qed.

(** A header that was found, with its data where it is loadable. *)
Definition read_ok (e : Elf) (i : nat) : Prop := exists ph, segment e i = Some ph /\ (p_type ph = PT_LOAD -> is_Some (segment_data e ph)).

(** The loop over the headers: all of them, or the ones before a bad one. *)
Lemma load_segments_ok e todo l loaded w r loaded' w' :
  Forall byte_range (e_bytes e) -> load_inv a bias window w0 l loaded w -> load_segments a e bias window todo loaded w = ((r, loaded'), w') ->
  match r with
  | Ok _ => load_inv a bias window w0 (l ++ load_headers e todo) loaded' w' /\ forall i, i ∈ todo -> read_ok e i
  | Err BadImage => exists l', load_inv a bias window w0 l' loaded' w'
  | Err OutOfMemory => True
  end.
Proof using Hbias.
  intros Hb. revert l loaded w. induction todo as [| i todo IH]; intros l loaded w I; cbn [load_segments].
  { intros [= <- <- <-]. rewrite app_nil_r. split; [done | by intros ? ?%elem_of_nil]. }
  destruct (segment e i) as [ph |] eqn:Es; [| intros [= <- <- <-]; by exists l].
  assert ((p_type ph = PT_LOAD -> is_Some (segment_data e ph)) -> (forall j, j ∈ todo -> read_ok e j) -> forall j, j ∈ i :: todo -> read_ok e j) as Hall by (intros Hd Ha j [-> | Hj]%elem_of_cons; [by exists ph | by apply Ha]).
  unfold load_headers. cbn [omap list_omap]. rewrite Es. destruct (p_type ph =? PT_LOAD) eqn:Et; cbn [negb].
  2: { intros Hr%(IH l); [| exact I]. destruct r as [[] | []]; [| done | done]. destruct Hr as [Hr Ha]. split; [done |]. apply Hall; [| done]. apply Z.eqb_neq in Et. done. }
  destruct (validate_segment a ph bias window loaded) eqn:Ev; cbn [negb]; [| intros [= <- <- <-]; by exists l].
  destruct (segment_data e ph) as [data |] eqn:Ed; [| intros [= <- <- <-]; by exists l]. cbn [fmap option_fmap option_map].
  pose proof (segment_header e i ph Hb Es) as Hh. pose proof (segment_data_len e ph data Hh Ed) as Hlen.
  destruct (map_segment a data ph bias w) as [[s | err] w1] eqn:Em.
  - intros Hr%(IH (l ++ [(ph, data)])); [| by eapply load_step]. destruct r as [[] | []]; [| done | done]. rewrite <- app_assoc in Hr. destruct Hr as [Hr Ha]. split; [done |]. by apply Hall.
  - intros [= <- <- <-]. destruct (validate_ok _ _ _ _ _ Ev) as (start & end_ & V). by rewrite (map_segment_err a ph data bias start end_ Hh Hbias Hlen (proj2 (valid_memsz _ _ _ _ _ _ _ V)) (valid_range _ _ _ _ _ _ _ V) _ _ _ Em).
Qed.
End load_step.

(** ** The way back *)

Lemma unmap_pages_table start n w v :
  table (unmap_pages start n w) !! v = if decide (Exists (fun k => v = start + Z.of_nat k * 4096) (seq 0 n)) then None else table w !! v.
Proof.
  unfold unmap_pages. revert w. induction (seq 0 n) as [| k l IH]; intros w; cbn [foldl]; [by rewrite decide_False by (by intros ?%Exists_nil) |].
  rewrite IH. cbn [unmap table set_table]. unfold PAGE_SIZE. destruct (decide (Exists _ l)) as [Hl | Hl].
  - by rewrite decide_True by (by apply Exists_cons_tl).
  - destruct (decide (v = start + Z.of_nat k * 4096)) as [-> | Hne]; [by rewrite lookup_delete_eq, decide_True by (by apply Exists_cons_hd) |].
    rewrite lookup_delete_ne by done. rewrite decide_False; [done |]. rewrite Exists_cons. tauto.
Qed.

Lemma unmap_segments_table loaded w v :
  table (unmap_segments loaded w) !! v = if decide (Exists (fun s => covered s v) loaded) then None else table w !! v.
Proof.
  unfold unmap_segments. revert w. induction loaded as [| s l IH]; intros w; cbn [foldl]; [by rewrite decide_False by (by intros ?%Exists_nil) |].
  rewrite IH, unmap_pages_table. change (Z.to_nat ((seg_end s - seg_start s) / PAGE_SIZE)) with (npages s). destruct (decide (Exists _ l)) as [Hl | Hl].
  - by rewrite decide_True by (by apply Exists_cons_tl).
  - destruct (decide (Exists _ (seq 0 (npages s)))) as [Hc | Hc]; rewrite <- covered_Exists in Hc; [by rewrite decide_True by (by apply Exists_cons_hd) |].
    rewrite decide_False; [done |]. rewrite Exists_cons. tauto.
Qed.

Lemma unmap_pages_rest start n w : exists t, unmap_pages start n w = set_table t w.
Proof.
  unfold unmap_pages. revert w. induction (seq 0 n) as [| k l IH]; intros w; cbn [foldl]; [exists (table w); by destruct w |].
  destruct (IH (unmap (start + Z.of_nat k * PAGE_SIZE) w)) as [t ->]. by exists t.
Qed.

Lemma unmap_segments_rest loaded w : exists t, unmap_segments loaded w = set_table t w.
Proof.
  unfold unmap_segments. revert w. induction loaded as [| s l IH]; intros w; cbn [foldl]; [exists (table w); by destruct w |].
  destruct (unmap_pages_rest (seg_start s) (Z.to_nat ((seg_end s - seg_start s) / PAGE_SIZE)) w) as [t ->]. destruct (IH (set_table t w)) as [t' ->]. by exists t'.
Qed.

(** The pages of the load are unmapped, and those were all that the load had mapped. *)
Lemma unmap_restores a bias window w0 l loaded w w' :
  load_inv a bias window w0 l loaded w -> table w' = table w -> table (unmap_segments loaded w') = table w0.
Proof.
  intros I Ht. apply map_eq. intros v. rewrite unmap_segments_table, Ht. destruct (decide (Exists _ loaded)) as [Hc | Hc].
  - apply Exists_exists in Hc as (s & Hs & Hc). symmetry. by eapply (inv_fresh _ _ _ _ _ _ _ I).
  - apply (inv_other _ _ _ _ _ _ _ I). intros s Hs Hcov. apply Hc, Exists_exists. eauto.
Qed.

(** [unmap_module] goes over the segments that were loaded. *)
Lemma unmap_module_loaded a bias window e loaded w :
  (forall i, i ∈ seq 0 (segment_count e) -> read_ok e i) -> Forall2 (placed a bias window) (load_headers e (seq 0 (segment_count e))) loaded ->
  unmap_module e bias w = unmap_segments loaded w.
Proof.
  unfold unmap_module, unmap_segments. generalize (seq 0 (segment_count e)) as todo. intros todo. revert loaded w.
  induction todo as [| i todo IH]; intros loaded w Hr Hp; [by apply Forall2_nil_inv_l in Hp as -> |]. destruct (Hr i ltac:(left)) as (ph & Es & Hd).
  assert (forall j, j ∈ todo -> read_ok e j) as Hr' by (intros j Hj; apply Hr; by right).
  cbn [unmap_from]. rewrite Es. unfold load_headers in Hp. cbn [omap list_omap] in Hp. rewrite Es in Hp. destruct (Z.eqb_spec (p_type ph) PT_LOAD) as [Et | Et]; cbn [negb orb]; [| by apply IH].
  destruct (Hd Et) as [data Ed]. rewrite Ed in Hp. cbn [fmap option_fmap option_map] in Hp. apply Forall2_cons_inv_l in Hp as (s & loaded' & P & Hp & ->).
  pose proof (placed_valid _ _ _ _ _ P) as V. pose proof (valid_range _ _ _ _ _ _ _ V) as Hv. cbn [fst] in Hv. rewrite Hv. cbn [foldl].
  destruct (Z.eqb_spec (p_memsz ph) 0) as [E0 |]; [by destruct (valid_memsz _ _ _ _ _ _ _ V) | by apply IH].
Qed.

(** * The relocations of a load: which bytes they change, and that nothing but the private
    frames of the load changes with them. *)

(** ** What follows the segments changes private frames only *)

Record patched (w w' : World) : Prop := {
  patch_table : table w' = table w;
  patch_pool : pool w' = pool w;
  patch_frames : frames w' = frames w;
  patch_shared : shared w' = shared w;
  patch_pages : pages w' = pages w /\ next_page w' = next_page w;
  patch_memory : forall f, f ∉ frames w -> memory w' f = memory w f;
  patch_length : forall f, length (memory w' f) = length (memory w f);
}.

#[export] Instance patched_preorder : PreOrder patched.
Proof.
  split; [done |]. intros w1 w2 w3 [A B C D [E E'] F G] [A' B' C' D' [E1 E1'] F' G']. constructor; try congruence; [split; congruence |].
  intros f Hf. rewrite F', F; congruence.
Qed.

Lemma patched_ok w w' : patched w w' -> world_ok w -> world_ok w'.
Proof. intros [A B C D [E E'] F G] []. constructor; rewrite ?A, ?B, ?C, ?D, ?E, ?E'; auto. intros f. by rewrite G. Qed.
Lemma patched_table_ok w w' : patched w w' -> table_ok w -> table_ok w'.
Proof. intros [A B C D E F G] []. constructor; rewrite ?A, ?B, ?C; auto. Qed.
Lemma patched_equiv w w' : patched w w' -> w' ≡ w.
Proof. intros [A B C D [E E'] F G]. split; [done |]. unfold balance. by rewrite B, C. Qed.

(** Code that does no more than that. *)
Definition calm {A} (m : L A) : Prop := forall w r w', world_ok w -> m w = (r, w') -> patched w w'.

Lemma calm_bind {A B} (m : L A) (f : A -> L B) : calm m -> (forall x, calm (f x)) -> calm (mbind f m).
Proof.
  intros Hm Hf w r w' H. unfold mbind, L_bind. destruct (m w) as [[x | err] w1] eqn:E; pose proof (Hm _ _ _ H E) as P.
  - intros Hr. etrans; [exact P |]. eapply Hf; [by eapply patched_ok | exact Hr].
  - by intros [= <- <-].
Qed.

(** Code that only asks. *)
Definition quiet {A} (m : L A) : Prop := forall w r w', m w = (r, w') -> exists l, w' = set_answers l w.

Lemma quiet_calm {A} (m : L A) : quiet m -> calm m.
Proof. intros Hm w r w' _ [l ->]%Hm. done. Qed.
Lemma quiet_bind {A B} (m : L A) (f : A -> L B) : quiet m -> (forall x, quiet (f x)) -> quiet (mbind f m).
Proof.
  intros Hm Hf w r w'. unfold mbind, L_bind. destruct (m w) as [[x | err] w1] eqn:E; apply Hm in E as [l ->]; [| intros [= <- <-]; by exists l].
  intros [l' ->]%Hf. by exists l'.
Qed.
Lemma quiet_same {A} (m : L A) : (forall w, (m w).2 = w) -> quiet m.
Proof. intros Hm w r w' E. exists (answers w). pose proof (Hm w) as Hw. rewrite E in Hw. cbn in Hw. subst w'. by destruct w. Qed.
Lemma quiet_ret {A} (x : A) : quiet (mret x).
Proof. by apply quiet_same. Qed.
Lemma quiet_need {A} (o : option A) : quiet (need o).
Proof. apply quiet_same. by destruct o. Qed.
Lemma quiet_guard b : quiet (guard_ b).
Proof. apply quiet_same. by destruct b. Qed.
Lemma quiet_room : quiet ask_room.
Proof.
  intros w r w'. unfold ask_room, mbind, L_bind, ask. destruct (answers w) as [| [] l] eqn:E; intros [= <- <-]; [exists []; rewrite <- E; by destruct w | by exists l | by exists l].
Qed.
#[export] Hint Resolve quiet_calm quiet_ret quiet_need quiet_guard quiet_room : calm.

Lemma length_write8 bytes within value : length bytes = 4096%nat -> (within + 8 <= 4096)%nat -> length (write8 bytes within value) = 4096%nat.
Proof. intros Hb Hw. unfold write8. rewrite !length_app, length_take, length_drop, length_le_encode. lia. Qed.

Lemma calm_write loaded address value : calm (write_loaded_u64 loaded address value).
Proof.
  unfold write_loaded_u64. intros w r w' H. unfold mbind at 1, L_bind at 1. destruct (need _ w) as [[s | err] w1] eqn:E; [apply need_ok in E as [_ ->] | intros [= <- <-]; by eapply quiet_calm, E; auto with calm].
  unfold mbind at 1, L_bind at 1. destruct (guard_ _ w) as [[u | err] w1] eqn:Eg; [| intros [= <- <-]; by eapply quiet_calm, Eg; auto with calm]. apply guard_ok in Eg as [Hw ->].
  unfold mbind, L_bind, get. cbn. destruct (frames w !! _) as [f |] eqn:Ef; cbn; [| by intros [= <- <-]]. intros [= <- <-]. apply Z.leb_le in Hw. unfold PAGE_SIZE in *.
  pose proof (Z.mod_pos_bound (address - seg_start s) 4096). constructor; try done; cbn.
  - intros f' Hf'. rewrite fn_lookup_insert_ne; [done |]. intros <-. by eapply Hf', list_elem_of_lookup_2.
  - intros f'. destruct (decide (f = f')) as [<- |]; [| by rewrite fn_lookup_insert_ne]. rewrite fn_lookup_insert, length_write8, (ok_length w H); [done | apply H | lia].
Qed.

Lemma calm_apply_each a e i loaded bias resolve l : calm (apply_each a e i loaded bias resolve l).
Proof. induction l as [| r l IH]; cbn; auto using calm_bind, calm_write with calm. Qed.

Lemma calm_relocations a e loaded bias resolve : calm (apply_relocations a e loaded bias resolve).
Proof. apply calm_bind; [auto with calm |]. intros [i |]; auto 6 using calm_bind, calm_apply_each with calm. Qed.

Lemma quiet_collect_each loaded bias l exports : quiet (collect_each loaded bias l exports).
Proof.
  revert exports. induction l as [| [s name] l IH]; intros exports; cbn [collect_each]; [auto with calm |].
  destruct (negb (exported s name)); [apply IH |]. repeat (apply quiet_bind; [auto with calm | intros ?]). apply IH.
Qed.

Lemma quiet_exports e loaded bias : quiet (collect_exports e loaded bias).
Proof. apply quiet_bind; [auto with calm |]. intros [i |]; [| auto with calm]. destruct (symbols e i); auto using quiet_collect_each with calm. Qed.

Lemma calm_finish a e bias entry_ resolve loaded : calm (finish_load a e bias entry_ resolve loaded).
Proof.
  apply calm_bind; [auto with calm |]. intros _. apply calm_bind; [destruct (image_type e =? ET_DYN); auto using calm_relocations with calm |]. intros _.
  repeat (apply calm_bind; [auto using quiet_exports with calm | intros ?]). auto with calm.
Qed.

(** ** What they write *)

(** Eight bytes of an address space replaced, where it is mapped. *)
Definition poke (space : Z -> option (Z * Flags)) (tv : Z * Z) (x : Z) : option (Z * Flags) :=
  if (tv.1 <=? x) && (x <? tv.1 + 8) then (fun b => (nth (Z.to_nat (x - tv.1)) (le_encode 8 tv.2) 0, b.2)) <$> space x else space x.

(** Whether all eight bytes lie in a writable segment. *)
Definition target_ok (loaded : list LoadedSegment) (tv : Z * Z) : Prop :=
  exists s, s ∈ loaded /\ seg_writable s = true /\ seg_start s <= tv.1 /\ tv.1 + 8 <= seg_end s.

Lemma nth_write8 bytes within value j :
  length bytes = 4096%nat -> (within + 8 <= 4096)%nat ->
  nth j (write8 bytes within value) 0 = if (within <=? j)%nat && (j <? within + 8)%nat then nth (j - within) (le_encode 8 value) 0 else nth j bytes 0.
Proof.
  intros Hb Hw. unfold write8. destruct (Nat.leb_spec within j) as [H1 | H1]; cbn [andb].
  - rewrite app_nth2 by (rewrite length_take; lia). rewrite length_take, Hb, Nat.min_l by lia. destruct (Nat.ltb_spec j (within + 8)) as [H2 | H2].
    + rewrite app_nth1 by (rewrite length_le_encode; lia). done.
    + rewrite app_nth2 by (rewrite length_le_encode; lia). rewrite length_le_encode, !nth_lookup, lookup_drop. do 2 f_equal. lia.
  - rewrite app_nth1 by (rewrite length_take; lia). rewrite !nth_lookup, lookup_take_lt by lia. done.
Qed.

Lemma page_base_write t x : t mod 4096 + 8 <= 4096 -> t <= x < t + 8 -> page_base x = page_base t /\ x mod 4096 = t mod 4096 + (x - t).
Proof.
  intros Ht Hx. unfold page_base. pose proof (Z.mod_pos_bound t 4096). pose proof (Z.div_mod t 4096).
  assert (x mod 4096 = t mod 4096 + (x - t)) as E; [| rewrite E; lia].
  symmetry. apply (Z.mod_unique_pos _ _ (t / 4096)); lia.
Qed.

Section write.
Context (w : World) (H : world_ok w) (T : table_ok w).

(** A private page that is mapped is written at one place of the address space. *)
Lemma poke_view v f fl t value :
  table w !! page_base t = Some (f, fl) -> f ∈ frames w -> t mod 4096 + 8 <= 4096 -> v = Z.to_nat (t mod 4096) -> forall x,
  view (set_memory (<[f := write8 (memory w f) v value]> (memory w)) w) x = poke (view w) (t, value) x.
Proof using H T.
  intros Hf Hp Ht -> x. unfold poke, view. cbn [fst snd table memory set_memory]. pose proof (Z.mod_pos_bound t 4096).
  destruct (table w !! page_base x) as [[g gl] |] eqn:Eg; [| by destruct (_ && _)].
  destruct (decide (g = f)) as [-> | Hne].
  - pose proof (private_once _ T _ _ _ _ _ Eg Hf Hp) as Eb. rewrite fn_lookup_insert, nth_write8; [| apply H | lia].
    assert (x mod 4096 - t mod 4096 = x - t) as Ed by (unfold page_base in Eb; lia). pose proof (Z.mod_pos_bound x 4096).
    destruct ((t <=? x) && (x <? t + 8)) eqn:Ex.
    + apply andb_true_iff in Ex as [X1%Z.leb_le X2%Z.ltb_lt]. rewrite (proj2 (Nat.leb_le _ _)), (proj2 (Nat.ltb_lt _ _)) by lia. cbn [andb]. by replace (Z.to_nat (x mod 4096) - Z.to_nat (t mod 4096))%nat with (Z.to_nat (x - t)) by lia.
    + replace (_ && _)%bool with false; [done |]. symmetry. apply andb_false_iff. apply andb_false_iff in Ex as [X%Z.leb_gt | X%Z.ltb_ge]; [left; apply Nat.leb_gt; lia | right; apply Nat.ltb_ge; lia].
  - rewrite fn_lookup_insert_ne by done. destruct ((t <=? x) && (x <? t + 8)) eqn:Ex; [| done].
    apply andb_true_iff in Ex. destruct (page_base_write t x Ht ltac:(lia)) as [Eb _]. rewrite Eb, Hf in Eg. congruence.
Qed.

Context (loaded : list LoadedSegment) (Hm : forall s, s ∈ loaded -> seg_mapped w s) (Ha : forall s, s ∈ loaded -> seg_start s mod 4096 = 0 /\ seg_end s mod 4096 = 0).

Lemma write_ok t value u w' :
  write_loaded_u64 loaded t value w = (Ok u, w') -> target_ok loaded (t, value) /\ forall x, view w' x = poke (view w) (t, value) x.
Proof using H T Hm Ha.
  unfold write_loaded_u64. intros (s & w1 & Hn & Hr)%bind_ok. apply need_ok in Hn as [Hs ->]. apply bind_ok in Hr as ([] & w1 & Hg & Hr). apply guard_ok in Hg as [Hw ->].
  apply bind_ok in Hr as (fs & w1 & Hg & Hr). unfold get in Hg. injection Hg as <- <-. apply bind_ok in Hr as (f & w1 & Hn & Hr). apply need_ok in Hn as [Hf ->]. run_ok.
  apply find_some in Hs as [Hin Hs]. apply list_elem_of_In in Hin. rewrite !andb_true_iff in Hs. destruct Hs as [[Hwr Hlo] Hhi].
  destruct (checked_add U64_MAX t 8) as [hi |] eqn:Ehi; [| done]. apply checked_add_Some in Ehi as [-> _]. unfold PAGE_SIZE in *.
  destruct (Ha s Hin) as [A1 A2]. split; [exists s; cbn; split_and!; [done | done | lia | lia] |].
  destruct (page_of_range (seg_start s) (seg_end s) t A1 A2) as (k & Hk & Eb & Em); [lia |].
  assert (t - seg_start s = Z.of_nat k * 4096 + t mod 4096) as Eo by (unfold page_base in Eb; lia). pose proof (Z.mod_pos_bound t 4096).
  assert ((t - seg_start s) mod 4096 = t mod 4096) as E1 by (rewrite Eo, Z.add_comm, Z.mod_add, Z.mod_mod; lia).
  assert ((t - seg_start s) / 4096 = Z.of_nat k) as E2 by (rewrite Eo, Z.add_comm, Z.div_add, Z.div_small; lia).
  rewrite E1, E2 in *. rewrite Nat2Z.id in Hf. destruct (Hm s Hin k Hk) as (f' & fl & Ht & Hfl & Hp). rewrite (Hp Hwr) in Hf. injection Hf as ->.
  intros x. eapply (poke_view _ f fl); [by rewrite Eb | by eapply list_elem_of_lookup_2, Hp | lia | done].
Qed.
End write.

Lemma poke_proper o o' tv : (forall x, o x = o' x) -> forall x, poke o tv x = poke o' tv x.
Proof. intros Ho x. unfold poke. by rewrite Ho. Qed.

Lemma foldl_poke o o' l : (forall x, o x = o' x) -> forall x, foldl poke o l x = foldl poke o' l x.
Proof. revert o o'. induction l as [| tv l IH]; intros o o' Ho; [done |]. cbn. apply IH. by apply poke_proper. Qed.

Lemma seg_mapped_patched w w' s : patched w w' -> seg_mapped w s -> seg_mapped w' s.
Proof. intros P Hs k Hk. rewrite (patch_table _ _ P), (patch_frames _ _ P). by apply Hs. Qed.

(** The writes of the relocations of an image, in their order. *)
Definition relocations_of (a : Arch) (e : Elf) (bias : Z) (resolve : list Z -> option Z) : option (list (Z * Z)) :=
  if image_type e =? ET_DYN then
    dynamic ← dynamic_info e;
    match dynamic with
    | None => Some []
    | Some i =>
        it ← rela_entries e i;
        plt ← plt_rela_entries e i;
        mapM (relocation_value a e i bias resolve) (relas_of it ++ relas_of plt)
    end
  else Some [].

Section relocations.
Context (a : Arch) (e : Elf) (bias : Z) (resolve : list Z -> option Z) (loaded : list LoadedSegment).
Context (Ha : forall s, s ∈ loaded -> seg_start s mod 4096 = 0 /\ seg_end s mod 4096 = 0).

Definition relocated (patches : list (Z * Z)) (w w' : World) : Prop :=
  Forall (target_ok loaded) patches /\ forall x, view w' x = foldl poke (view w) patches x.

Lemma apply_each_ok i l w u w' :
  world_ok w -> table_ok w -> (forall s, s ∈ loaded -> seg_mapped w s) -> apply_each a e i loaded bias resolve l w = (Ok u, w') ->
  exists patches, mapM (relocation_value a e i bias resolve) l = Some patches /\ relocated patches w w'.
Proof using Ha.
  revert w. induction l as [| r l IH]; intros w H T Hm; cbn [apply_each].
  { intros [= <- <-]. exists []. split; [done | by split]. }
  intros ([t v] & w1 & Hn & Hr)%bind_ok. apply need_ok in Hn as [Hv ->]. apply bind_ok in Hr as ([] & w1 & Hw & Hr). cbn [fst snd] in Hw.
  pose proof (calm_write _ _ _ _ _ _ H Hw) as P. destruct (write_ok w H T loaded Hm Ha _ _ _ _ Hw) as [Ht Hx].
  destruct (IH w1) as (patches & Hp & Hf & Hview); [by eapply patched_ok | by eapply patched_table_ok | intros s Hs; eapply seg_mapped_patched; eauto | done |].
  exists ((t, v) :: patches). split; [cbn; rewrite Hv; cbn; by rewrite Hp |]. split; [by constructor |].
  intros x. rewrite Hview. cbn [foldl]. by apply foldl_poke.
Qed.

Lemma relocations_ok w u w' :
  world_ok w -> table_ok w -> (forall s, s ∈ loaded -> seg_mapped w s) ->
  (if image_type e =? ET_DYN then apply_relocations a e loaded bias resolve else mret tt) w = (Ok u, w') ->
  exists patches, relocations_of a e bias resolve = Some patches /\ relocated patches w w'.
Proof using Ha.
  intros H T Hm. unfold relocations_of. assert (relocated [] w w) as Hnil by by split.
  destruct (image_type e =? ET_DYN); [| intros [= <- <-]; by exists []].
  unfold apply_relocations. intros (d & w1 & Hn & Hr)%bind_ok. apply need_ok in Hn as [-> ->]. cbn [mbind option_bind]. destruct d as [i |]; [| injection Hr as <- <-; by exists []].
  apply bind_ok in Hr as (it & w1 & Hn & Hr). apply need_ok in Hn as [-> ->]. apply bind_ok in Hr as (plt & w1 & Hn & Hr). apply need_ok in Hn as [-> ->]. by eapply apply_each_ok.
Qed.
End relocations.

(** ** Exports *)

(** What a module offers: its exported symbols, at their addresses. *)
Definition exports_of (bias : Z) (l : list (Symbol * list Z)) : list (list Z * Z) :=
  (fun '(s, name) => (name, bias + st_value s)) <$> filter (fun '(s, name) => exported s name = true) l.

Lemma collect_each_ok loaded bias l exports w found w' :
  NoDup exports.*1 -> collect_each loaded bias l exports w = (Ok found, w') ->
  found = exports ++ exports_of bias l /\ NoDup found.*1 /\
  Forall (fun x => x.1 <> [] /\ (length x.1 <= MAX_DYNAMIC_SYMBOL_NAME)%nat /\ exists s, s ∈ loaded /\ seg_start s <= x.2 < seg_end s) (exports_of bias l).
Proof.
  revert exports w. induction l as [| [s name] l IH]; intros exports w Hn; cbn [collect_each].
  { intros [= <- <-]. by rewrite app_nil_r. }
  destruct (exported s name) eqn:Ex; cbn [negb].
  2: { intros Hr%IH; [| done]. unfold exports_of in *. rewrite filter_cons_False by congruence. done. }
  intros ([] & w1 & Hg & Hr)%bind_ok. apply guard_ok in Hg as [Hlim ->]. apply bind_ok in Hr as (addr & w1 & Hg & Hr). apply need_ok in Hg as [Hadd ->]. apply checked_add_Some in Hadd as [-> _].
  apply bind_ok in Hr as ([] & w1 & Hg & Hr). apply guard_ok in Hg as [Hin ->]. apply bind_ok in Hr as ([] & w1 & Hg & Hr). apply guard_ok in Hg as [Hnew ->].
  apply bind_ok in Hr as ([] & w1 & _ & Hr). apply bind_ok in Hr as ([] & w2 & _ & Hr). apply IH in Hr as (-> & Hnd & Hall).
  - unfold exports_of in *. rewrite filter_cons_True by done. rewrite <- app_assoc in *. cbn [app fmap list_fmap] in *. split_and!; [done | done |]. constructor; [| done]. cbn [fst snd].
    apply negb_true_iff, orb_false_iff in Hlim as [Hlim _]. apply Nat.ltb_ge in Hlim. split_and!; [| done |].
    + unfold exported in Ex. rewrite !andb_true_iff, negb_true_iff, bool_decide_eq_false in Ex. tauto.
    + apply existsb_exists in Hin as (g & Hg & Hin). exists g. split; [by apply list_elem_of_In |]. unfold in_segment in Hin. lia.
  - rewrite fmap_app. apply NoDup_app. split; [done |]. split; [| apply NoDup_singleton]. cbn. intros n Hn' ->%list_elem_of_singleton.
    apply negb_true_iff, not_true_iff_false in Hnew. apply Hnew, existsb_exists. apply list_elem_of_fmap in Hn' as (y & -> & Hy). exists y. split; [by apply list_elem_of_In | by apply bool_decide_eq_true].
Qed.
