(* ===== verification/ElfWhole.v ===== *)
(** A whole load: what it leaves in the address space when it succeeds, what it takes back
    when the image is refused, and the stack of a new process. *)

From stdpp Require Import functions.
From S2P Require Import Prelude Wire Elf ElfLoad ElfFacts ElfPages ElfSegments.

Definition headers_of (e : Elf) : list (ProgramHeader * list Z) := load_headers e (seq 0 (segment_count e)).

(** ** A load that succeeds *)

Record load_done (a : Arch) (e : Elf) (bias : Z) (window : option (Z * Z)) (resolve : list Z -> option Z) (w : World) (loaded : list LoadedSegment) (patches : list (Z * Z)) (w' : World) : Prop := {
  load_mid : exists w1, load_inv a bias window w (headers_of e) loaded w1 /\ patched w1 w' /\ relocated loaded patches w1 w';
  load_read : forall i, i ∈ seq 0 (segment_count e) -> read_ok e i;
  load_patches : relocations_of a e bias resolve = Some patches;
}.

(** A question that was answered changes nothing else. *)
Lemma load_inv_base a bias window l w h loaded w' : load_inv a bias window (set_answers l w) h loaded w' -> load_inv a bias window w h loaded w'.
Proof.
  intros [A B C D E F G H I]. constructor; try done.
  etrans; [apply (grows_answers l) | exact C].
Qed.

Lemma placed_aligned a bias window h loaded s : Forall2 (placed a bias window) h loaded -> s ∈ loaded -> seg_start s mod 4096 = 0 /\ seg_end s mod 4096 = 0.
Proof. intros Hp Hs. apply list_elem_of_lookup in Hs as [i Hi]. destruct (Forall2_lookup_r _ _ _ _ _ Hp Hi) as (p & _ & [_ [] _]). done. Qed.

(** ** A load that is taken back *)

Record taken_back (w w' : World) : Prop := {
  back_table : table w' = table w;
  back_equiv : w' ≡ w;
  back_shared : shared w' = shared w;
  back_memory : forall f, f ∉ pool w -> f ∉ frames w -> memory w' f = memory w f;
}.

Lemma truncate_held w held n : shared w = take n (shared w) ++ held -> (n <= length (shared w))%nat -> truncate n w = set_shared (take n (shared w)) (drop_all held w).
Proof.
  intros Hs Hn. unfold truncate, drop_all. replace (drop n (shared w)) with held; [done |].
  rewrite <- (take_drop n (shared w)) in Hs at 1. by apply app_inv_head in Hs.
Qed.

(** The references of a load go, and with them all it owned but its frames. *)
Lemma take_back a bias window w h loaded w1 w2 :
  load_inv a bias window w h loaded w1 -> patched w1 w2 -> taken_back w (truncate (length (shared w)) (unmap_segments loaded w2)).
Proof.
  intros I P. pose proof (unmap_restores _ _ _ _ _ _ _ w2 I (patch_table _ _ P)) as Ht. destruct (unmap_segments_rest loaded w2) as [t Eu]. rewrite Eu in *. cbn [table set_table] in Ht.
  destruct (inv_back _ _ _ _ _ _ _ I) as (held & Hs & Hd). pose proof (patch_shared _ _ P) as Ps.
  assert (shared (set_table t w2) = shared w ++ held) as Hs' by (cbn; congruence).
  rewrite (truncate_held _ held) by (rewrite Hs', ?take_app_length, ?length_app; auto; lia). rewrite Hs', take_app_length.
  destruct (drop_all_records held (set_table t w2)) as (Rf & Rs & Rt & Rm). constructor.
  - cbn. by rewrite Rt.
  - transitivity (drop_all held (set_table t w2)); [done |]. transitivity (drop_all held w1); [| done]. apply drop_all_proper. transitivity w2; [done | by apply patched_equiv].
  - done.
  - intros f Hp Hf. cbn. rewrite Rm. cbn. rewrite (patch_memory _ _ P); [by apply (grow_memory _ _ (inv_grows _ _ _ _ _ _ _ I)) |].
    destruct (grow_frames _ _ (inv_grows _ _ _ _ _ _ _ I)) as (l & -> & Hl). rewrite elem_of_app. intros [? | ?%Hl]; done.
Qed.

Lemma ask_room_err w err w' : ask_room w = (Err err, w') -> err = OutOfMemory.
Proof. unfold ask_room, mbind, L_bind, ask. destruct (answers w) as [| [] l]; [by intros [= <- _] | done | by intros [= <- _]]. Qed.

Section load.
Context (a : Arch) (e : Elf) (bias : Z) (window : option (Z * Z)) (req : bool) (resolve : list Z -> option Z) (w : World).
Context (Hb : Forall byte_range (e_bytes e)) (Hbias : 0 <= bias) (H : world_ok w) (T : table_ok w).

Definition entry_ok (loaded : list LoadedSegment) (start : Z) : Prop :=
  start = entry e + bias /\ (req = true -> exists s, s ∈ loaded /\ seg_executable s = true /\ seg_start s <= start < seg_end s).

Definition exports_ok (loaded : list LoadedSegment) (exports : list (list Z * Z)) : Prop :=
  NoDup exports.*1 /\ Forall (fun x => x.1 <> [] /\ (length x.1 <= MAX_DYNAMIC_SYMBOL_NAME)%nat /\ exists s, s ∈ loaded /\ seg_start s <= x.2 < seg_end s) exports.

Lemma exports_done loaded w1 exports w2 : collect_exports e loaded bias w1 = (Ok exports, w2) -> exports_ok loaded exports.
Proof using.
  unfold collect_exports. intros (d & w3 & Hn & Hr)%bind_ok. destruct d as [i |]; [| injection Hr as <- <-; split; constructor].
  destruct (symbols e i) as [it |]; [| injection Hr as <- <-; split; constructor].
  apply collect_each_ok in Hr as (-> & Hnd & Hall); [| constructor]. by split.
Qed.

Lemma load_parsed_ok start exports w' :
  load_parsed a e bias window req resolve w = (Ok (start, exports), w') ->
  exists loaded patches, load_done a e bias window resolve w loaded patches w' /\ entry_ok loaded start /\ exports_ok loaded exports.
Proof using Hb Hbias H T.
  unfold load_parsed. destruct (ask_room w) as [[[] | err] w0] eqn:Ea; [| done]. apply ask_room_same in Ea as [l ->].
  destruct (load_segments a e bias window _ [] _) as [[r loaded] w1] eqn:El.
  apply (load_segments_ok a bias window (set_answers l w) Hbias e _ [] []) in El; [| done | apply load_inv_start; [by apply ok_answers | by destruct T]].
  destruct r as [[] | err]; [| done]. destruct El as [I%load_inv_base Hread]. cbn [app] in I.
  destruct (finish_load a e bias req resolve loaded w1) as [[x | err] w2] eqn:Ef; [| done]. intros [= -> ->].
  pose proof (calm_finish _ _ _ _ _ _ _ _ _ (inv_ok _ _ _ _ _ _ _ I) Ef) as P.
  unfold finish_load in Ef. apply bind_ok in Ef as ([] & w3 & Hg & Ef). apply guard_ok in Hg as [_ ->]. apply bind_ok in Ef as (u & w3 & Hr & Ef).
  apply bind_ok in Ef as (st & w4 & Hn & Ef). apply need_ok in Hn as [Hst ->]. apply checked_add_Some in Hst as [-> _].
  apply bind_ok in Ef as ([] & w4 & Hg & Ef). apply guard_ok in Hg as [He ->]. apply bind_ok in Ef as (ex & w4 & Hx & Ef). run_ok.
  apply relocations_ok in Hr as (patches & Hp & Ht & Hview); [| intros s Hs; by eapply placed_aligned, Hs; apply I | apply I | apply I | apply I].
  exists loaded, patches. split; [| split].
  - constructor; [| done | done]. exists w1. split; [done |]. split; [done |]. split; [done |]. intros x. rewrite <- Hview.
    apply quiet_exports in Hx as [l' Hx]. by subst.
  - split; [done |]. intros ->. apply negb_true_iff in He. cbn in He. apply negb_false_iff, existsb_exists in He as (s & Hs & He). exists s.
    apply andb_true_iff in He as [He1 He2]. unfold in_segment in He2. split_and!; [by apply list_elem_of_In | done | lia | lia].
  - by eapply exports_done.
Qed.

(** ** A load that is refused *)

Lemma load_parsed_bad w' : load_parsed a e bias window req resolve w = (Err BadImage, w') -> taken_back w w'.
Proof using Hb Hbias H T.
  unfold load_parsed. destruct (ask_room w) as [[[] | err] w0] eqn:Ea; [| apply ask_room_err in Ea as ->; done]. apply ask_room_same in Ea as [l ->].
  destruct (load_segments a e bias window _ [] _) as [[r loaded] w1] eqn:El.
  apply (load_segments_ok a bias window (set_answers l w) Hbias e _ [] []) in El; [| done | apply load_inv_start; [by apply ok_answers | by destruct T]].
  destruct r as [[] | []]; [| | done].
  - destruct El as [I%load_inv_base _]. destruct (finish_load a e bias req resolve loaded w1) as [[x | err] w2] eqn:Ef; [done |]. intros [= -> <-].
    eapply take_back; [exact I |]. eapply calm_finish; [apply I | exact Ef].
  - destruct El as [l' I%load_inv_base]. intros [= <-]. by eapply take_back.
Qed.
End load.

(** ** The stack *)

(** The stack is a writable segment without data. *)
Definition stack_header : ProgramHeader := mkProgramHeader PT_LOAD 6 0 STACK_BASE 0 0 (USER_STACK_PAGES * PAGE_SIZE) PAGE_SIZE.
Definition stack_segment (first : nat) : LoadedSegment := mkLoadedSegment STACK_BASE USER_STACK_TOP true false first.

Lemma stack_range : range_ok stack_header 0 STACK_BASE USER_STACK_TOP.
Proof. by constructor. Qed.

Lemma stack_bytes k : page_bytes STACK_BASE [] STACK_BASE k = replicate 4096 0.
Proof.
  unfold page_bytes, page_copy. change (len []) with 0. rewrite Z.add_0_r, Z.max_l by lia.
  replace (sat_sub64 _ (STACK_BASE + Z.of_nat k * 4096)) with 0 by (unfold sat_sub64; lia). rewrite Z.sub_diag. done.
Qed.

Lemma map_stack_pages_ok a first n page w u w' :
  world_ok w -> length (frames w) = (first + page)%nat -> map_stack_pages a n page w = (Ok u, w') ->
  pages_done stack_header [] STACK_BASE STACK_BASE first n page w w'.
Proof.
  revert page w. induction n as [| n IH]; intros page w H Hf; cbn [map_stack_pages].
  { intros [= <- <-]. constructor; [done | done | destruct (writable _); lia | done | lia | lia | done]. }
  destruct (allocate w) as [[f | err] w1] eqn:Ea; [| done]. apply allocate_ok in Ea as (l & Ep & ->).
  destruct (private_ok w f l (replicate (Z.to_nat PAGE_SIZE) 0) H Ep eq_refl) as (H1 & G1 & B1 & M1).
  set (w1 := set_memory _ _). change (set_frames _ _) with w1 in H1, G1, B1, M1. cbv zeta.
  destruct (try_map a _ f _ w1) as [[[] | err] w2] eqn:Em; [| done | done]. apply try_map_ok in Em as (l' & Hnone & ->). unfold PAGE_SIZE in *.
  set (w2 := set_table _ _). intros Hr. assert (world_ok w2) as H2 by (by apply ok_table, ok_answers).
  assert (grows w1 w2) as G2 by (etrans; [apply grows_answers | apply grows_table]).
  eapply (pages_step _ _ _ _ _ n page w w2 w' f); [done | by etrans | cbn; by rewrite length_app | done | done | | by apply gives_back_equiv | apply IH; [done | cbn; rewrite length_app; cbn; lia | done]].
  constructor.
  - cbn [table w2 set_table]. by rewrite lookup_insert_eq.
  - rewrite stack_bytes. exact M1.
  - intros _. cbn [frames w2 w1 set_table set_answers set_memory set_frames]. by rewrite <- Hf, lookup_app_r, Nat.sub_diag.
  - done.
Qed.

(** What the process sees there. *)
Definition stack_at (x : Z) : option (Z * Flags) := if (STACK_BASE <=? x) && (x <? USER_STACK_TOP) then Some (0, mkFlags true true) else None.

Lemma segment_byte_nil b x : segment_byte b [] x = 0.
Proof. unfold segment_byte. destruct (_ && _); [| done]. by destruct (Z.to_nat _). Qed.

Lemma map_stack_ok a w u w' :
  world_ok w -> table_ok w -> map_stack a w = (Ok u, w') ->
  (forall x, view w' x = stack_at x ∪ view w x) /\
  exists w1, (exists l, w1 = set_answers l w) /\ pages_done stack_header [] STACK_BASE STACK_BASE (length (frames w)) 8 0 w1 w' /\ table_ok w'.
Proof.
  intros H T. unfold map_stack. intros ([] & w1 & Ha & Hr)%bind_ok. apply ask_room_same in Ha as [l ->].
  apply (map_stack_pages_ok a (length (frames w))) in Hr; [| by apply ok_answers | cbn; lia].
  assert (table_ok (set_answers l w)) as T1 by (by destruct T). assert (world_ok (set_answers l w)) as H1 by (by apply ok_answers). set (s := stack_segment (length (frames w))).
  split.
  - intros x. rewrite (segment_view stack_header [] 0 s (set_answers l w) w' ltac:(done) stack_range H1 T1 eq_refl Hr x). cbn [seg_start seg_end s stack_segment].
    unfold stack_at. rewrite segment_byte_nil. destruct (_ && _); [| change (view (set_answers l w) x) with (view w x)]; by destruct (view w x).
  - exists (set_answers l w). split; [by exists l |]. split; [done |]. by apply (segment_table_ok stack_header [] 0 s (set_answers l w) w').
Qed.

(** ** What a load leaves *)

Section done.
Context (a : Arch) (e : Elf) (bias : Z) (window : option (Z * Z)) (resolve : list Z -> option Z) (w : World) (loaded : list LoadedSegment) (patches : list (Z * Z)) (w' : World).
Context (D : load_done a e bias window resolve w loaded patches w').

Lemma load_ok : world_ok w' /\ table_ok w'.
Proof using D. destruct D as [(w1 & I & P & _) _ _]. split; [eapply patched_ok | eapply patched_table_ok]; first [exact P | apply I]. Qed.

Lemma load_view x : view w' x = foldl poke (fun x => image_at bias x (headers_of e) ∪ view w x) patches x.
Proof using D. destruct D as [(w1 & I & P & _ & V) _ _]. rewrite V. apply foldl_poke. apply I. Qed.

Lemma load_memory f : f ∉ pool w -> f ∉ frames w -> memory w' f = memory w f.
Proof using D.
  destruct D as [(w1 & I & P & _) _ _]. intros Hp Hf. rewrite (patch_memory _ _ P); [by apply (grow_memory _ _ (inv_grows _ _ _ _ _ _ _ I)) |].
  destruct (grow_frames _ _ (inv_grows _ _ _ _ _ _ _ I)) as (l & -> & Hl). rewrite elem_of_app. intros [? | ?%Hl]; done.
Qed.

(** A page of a loaded segment. *)
Lemma load_segment s x :
  s ∈ loaded -> seg_start s <= x < seg_end s ->
  exists ph f, validated a ph bias window [] (seg_start s) (seg_end s) /\ table w' !! page_base x = Some (f, flags_of ph) /\
    seg_executable s = executable (p_flags ph) /\ (writable (p_flags ph) = true -> frames w = [] -> f ∈ pool w).
Proof using D.
  destruct D as [(w1 & I & P & _) _ _]. intros Hs Hx. pose proof Hs as Hl. apply list_elem_of_lookup in Hl as [i Hi].
  destruct (Forall2_lookup_r _ _ _ _ _ (inv_placed _ _ _ _ _ _ _ I) Hi) as ([ph data] & _ & [V [R1 R2 R3 R4 R5 R6 R7] [Fw Fx]]). cbn [fst] in *.
  destruct (page_of_range (seg_start s) (seg_end s) x R4 R5 Hx) as (k & Hk & Eb & _). destruct (inv_mapped _ _ _ _ _ _ _ I s Hs k Hk) as (f & fl & Ht & -> & Hp).
  exists ph, f. rewrite Eb, (patch_table _ _ P), Ht, Fw, Fx. split_and!; [done | done | done |].
  intros Hw Hnil. rewrite Fw, Hw in Hp. destruct (grow_frames _ _ (inv_grows _ _ _ _ _ _ _ I)) as (l & El & Hl). apply Hl. rewrite El, Hnil in Hp.
  by eapply list_elem_of_lookup_2, Hp.
Qed.

(** A mapping is an old one or a page of a loaded segment. *)
Lemma load_mapping v f fl :
  table w' !! v = Some (f, fl) ->
  table w !! v = Some (f, fl) \/
  exists ph start end_, validated a ph bias window [] start end_ /\ start <= v /\ v + 4096 <= end_ /\ fl = flags_of ph /\ (writable (p_flags ph) = true -> frames w = [] -> f ∈ pool w).
Proof using D.
  intros Hv. destruct (decide (Exists (fun s => covered s v) loaded)) as [Hc | Hc].
  - right. apply Exists_exists in Hc as (s & Hs & Hc). pose proof D as [(w1 & I & P & _) _ _].
    pose proof Hs as Hl. apply list_elem_of_lookup in Hl as [i Hi].
    destruct (Forall2_lookup_r _ _ _ _ _ (inv_placed _ _ _ _ _ _ _ I) Hi) as (p & _ & [V [R1 R2 R3 R4 R5 R6 R7] _]). pose proof (valid_user _ _ _ _ _ _ _ V) as [Hlt _].
    pose proof (covered_range s v R4 R5 ltac:(lia) Hc) as [C1 C2]. destruct (load_segment s v Hs ltac:(lia)) as (ph & f' & V' & Ht & _ & Hp).
    assert (page_base v = v) as Eb by (destruct Hc as (k & _ & ->); unfold page_base; rewrite Z.mod_add, R4 by lia; lia). rewrite Eb, Hv in Ht. injection Ht as <- ->.
    by exists ph, (seg_start s), (seg_end s).
  - left. destruct D as [(w1 & I & P & _) _ _]. rewrite (patch_table _ _ P) in Hv. rewrite <- Hv. symmetry. apply (inv_other _ _ _ _ _ _ _ I).
    intros s Hs Hcov. apply Hc, Exists_exists. eauto.
Qed.

Lemma load_done_answers l : load_done a e bias window resolve w loaded patches (set_answers l w').
Proof using D.
  destruct D as [(w1 & I & P & R1 & R2) Hr Hp]. constructor; [| done | done]. exists w1. split; [done |]. split; [| by split]. by etrans.
Qed.

(** All of it can be undone. *)
Lemma load_undone : taken_back w (truncate (length (shared w)) (unmap_module e bias w')).
Proof using D.
  destruct D as [(w1 & I & P & _) Hr _]. rewrite (unmap_module_loaded a bias window e loaded w' Hr (inv_placed _ _ _ _ _ _ _ I)). by eapply take_back.
Qed.
End done.

(** The process loader starts with no frames and no references. *)
Definition fresh (w : World) : World := set_shared [] (set_frames [] w).
Lemma fresh_world_ok w : world_ok w -> world_ok (fresh w).
Proof. intros []. constructor; cbn; auto; try (by intros ? ?%elem_of_nil); constructor. Qed.
Lemma fresh_table_ok w : table_ok w -> table_ok (fresh w).
Proof. intros []. constructor; cbn; auto. by intros ? ? ? ? ? ? ? ?%elem_of_nil. Qed.

(** ** What the process loader leaves when it gives up *)

Record rolled_back (w w' : World) : Prop := {
  rolled_table : table w' = table w;
  rolled_pages : pages w' = pages w;
  rolled_pool : pool w' ≡ₚ pool w;
  rolled_memory : forall f, f ∉ pool w -> memory w' f = memory w f;
}.

Lemma free_frames_equiv w : free_frames w ≡ w.
Proof. split; [done |]. unfold balance. cbn. by rewrite app_nil_r. Qed.

Lemma settle w u : taken_back (fresh w) (truncate 0 u) -> rolled_back w (drop_shared (free_frames u)).
Proof.
  intros [Bt [Bp Bb] Bs Bm]. unfold drop_shared, truncate in *. rewrite drop_0 in *. change (foldl _ u (shared u)) with (drop_all (shared u) u) in *.
  change (foldl _ (free_frames u) (shared (free_frames u))) with (drop_all (shared u) (free_frames u)).
  destruct (drop_all_records (shared u) u) as (Rf & Rs & Rt & Rm). destruct (drop_all_records (shared u) (free_frames u)) as (Rf' & Rs' & Rt' & Rm').
  destruct (drop_all_proper (shared u) _ _ (free_frames_equiv u)) as [Ep Eb]. cbn in Bt, Bp, Bm. constructor; cbn.
  - rewrite Rt'. cbn. congruence.
  - congruence.
  - unfold balance in Eb, Bb. cbn in Bb. rewrite Rf' in Eb. cbn in Eb. rewrite !app_nil_r in *. by rewrite Eb.
  - intros f Hf. rewrite Rm'. cbn. rewrite <- Rm. apply Bm; [done | apply not_elem_of_nil].
Qed.

Lemma settle_taken w u : taken_back (fresh w) u -> rolled_back w (drop_shared (free_frames u)).
Proof.
  intros B. apply settle. pose proof (back_shared _ _ B) as Hs. cbn in Hs. unfold truncate. rewrite Hs. cbn.
  replace (set_shared [] u) with u; [done |]. rewrite <- Hs. by destruct u.
Qed.

Lemma taken_back_refl w : taken_back w w.
Proof. by constructor. Qed.

(** ** The entries *)

Section entries.
Context (a : Arch) (bytes : list Z) (resolve : list Z -> option Z) (w : World).
Context (Hb : Forall byte_range bytes) (H : world_ok w) (T : table_ok w).

Lemma main_bias_pos e : 0 <= main_bias e.
Proof using. unfold main_bias, DYNAMIC_MAIN_BASE. destruct (_ =? _); lia. Qed.

Lemma resolved_ok start w' :
  load_resolved_into a bytes resolve (fresh w) = (Ok start, w') ->
  exists e loaded patches, parse_for_machine bytes (machine a) = Some e /\ load_done a e (main_bias e) (main_window e) resolve (fresh w) loaded patches w' /\
    entry_ok e (main_bias e) true loaded start.
Proof using Hb H T.
  unfold load_resolved_into. intros (e & w1 & Hn & Hr)%bind_ok. apply need_ok in Hn as [He ->]. apply bind_ok in Hr as ([st ex] & w1 & Hl & Hr). run_ok.
  pose proof (parse_inv _ _ _ He) as (Eb & _). apply load_parsed_ok in Hl as (loaded & patches & D & He' & _); [| by rewrite Eb | apply main_bias_pos | by apply fresh_world_ok | by apply fresh_table_ok].
  by exists e, loaded, patches.
Qed.

Lemma resolved_bad w' : load_resolved_into a bytes resolve (fresh w) = (Err BadImage, w') -> taken_back (fresh w) w'.
Proof using Hb H T.
  unfold load_resolved_into. intros [Hn | (e & w1 & Hn & Hr)]%bind_err; [destruct (parse_for_machine _ _); [done |]; injection Hn as <-; apply taken_back_refl |].
  apply need_ok in Hn as [He ->]. pose proof (parse_inv _ _ _ He) as (Eb & _). apply bind_err in Hr as [Hr | (x & w2 & _ & Hr)]; [| done].
  apply load_parsed_bad in Hr; [done | by rewrite Eb | apply main_bias_pos | by apply fresh_world_ok | by apply fresh_table_ok].
Qed.

Context (bias : Z).
Definition slot_ok : Prop :=
  DYNAMIC_MODULE_BASE <= bias < DYNAMIC_MODULE_BASE + MAX_DYNAMIC_MODULES * DYNAMIC_MODULE_SLOT_SIZE /\ (bias - DYNAMIC_MODULE_BASE) mod DYNAMIC_MODULE_SLOT_SIZE = 0.

Lemma module_into_ok exports w' :
  load_module_into a bytes bias resolve (fresh w) = (Ok exports, w') ->
  exists e loaded patches, parse_for_machine bytes (machine a) = Some e /\ slot_ok /\
    load_done a e bias (Some (bias, bias + DYNAMIC_MODULE_SLOT_SIZE)) resolve (fresh w) loaded patches w' /\ exports_ok loaded exports.
Proof using Hb H T.
  unfold load_module_into. intros (e & w1 & Hn & Hr)%bind_ok. apply need_ok in Hn as [He ->]. apply bind_ok in Hr as ([] & w1 & Hg & Hr). apply guard_ok in Hg as [Hg ->].
  apply bind_ok in Hr as ([st ex] & w1 & Hl & Hr). run_ok. rewrite negb_true_iff, !orb_false_iff, !negb_false_iff in Hg. destruct Hg as [[[_ G1] G2] G3%Z.eqb_eq].
  assert (slot_ok) as Hs by (split; [lia | done]).
  pose proof (parse_inv _ _ _ He) as (Eb & _). apply load_parsed_ok in Hl as (loaded & patches & D & _ & Hx); [| by rewrite Eb | unfold DYNAMIC_MODULE_BASE in *; lia | by apply fresh_world_ok | by apply fresh_table_ok].
  by exists e, loaded, patches.
Qed.

Lemma module_into_bad w' : load_module_into a bytes bias resolve (fresh w) = (Err BadImage, w') -> taken_back (fresh w) w'.
Proof using Hb H T.
  unfold load_module_into. intros [Hn | (e & w1 & Hn & Hr)]%bind_err; [destruct (parse_for_machine _ _); [done |]; injection Hn as <-; apply taken_back_refl |].
  apply need_ok in Hn as [He ->]. pose proof (parse_inv _ _ _ He) as (Eb & _). apply bind_err in Hr as [Hg | ([] & w2 & Hg & Hr)].
  { unfold guard_ in Hg. destruct (negb _); [done |]. injection Hg as <-. apply taken_back_refl. }
  apply guard_ok in Hg as [Hg ->]. rewrite negb_true_iff, !orb_false_iff in Hg. destruct Hg as [[[_ G1] _] _].
  apply bind_err in Hr as [Hr | (x & w2 & _ & Hr)]; [| done].
  apply load_parsed_bad in Hr; [done | by rewrite Eb | unfold DYNAMIC_MODULE_BASE in *; lia | by apply fresh_world_ok | by apply fresh_table_ok].
Qed.
End entries.

Lemma map_stack_pages_err a n page u err w' : map_stack_pages a n page u = (Err err, w') -> err = OutOfMemory.
Proof.
  revert page u. induction n as [| n IH]; intros page u; cbn [map_stack_pages]; [done |]. unfold allocate. destruct (pool u); [by intros [= <- _] |].
  cbv zeta. destruct (try_map _ _ _ _ _) as [[[] | err'] w1]; [apply IH | by intros [= <- _] | by intros [= <- _]].
Qed.

Lemma map_stack_err a u err w' : map_stack a u = (Err err, w') -> err = OutOfMemory.
Proof. unfold map_stack. intros [Es | ([] & w3 & _ & Es)]%bind_err; [by apply ask_room_err in Es | by apply map_stack_pages_err in Es]. Qed.
