(* ===== verification/ElfProcess.v ===== *)
(** The process around a load (kernel/loader.rs and the part of object/process/mod.rs it
    calls): the guards, the slots of the modules, the registry of their symbols, the frames
    and pages the process takes over, and what has to run when it starts. *)

From S2P Require Import Prelude Wire Elf ElfLoad.

Module Load.
Inductive LoadError := OutOfMemory | BadImage | Terminating.
End Load.

Definition load_error (err : ElfError) : Load.LoadError := match err with OutOfMemory => Load.OutOfMemory | BadImage => Load.BadImage end.

Record ModuleLifecycle := mkModuleLifecycle { li_init_array : Z; li_init_count : Z; li_fini_array : Z; li_fini_count : Z; is_main_image : Z }.

(** [charged] is what the Domain was charged for adopted frames. *)
Record Process := mkProcess {
  world : World;
  terminating : bool;
  image_load : bool;
  dynamic_biases : list Z;
  dynamic_symbols : list (list Z * Z);
  lifecycle : list ModuleLifecycle;
  user_frames : list Z;
  shared_image_pages : list nat;
  stack_bytes : Z;
  charged : Z;
  process_name : option (list Z);
}.

Section process_setters.
Implicit Type p : Process.
Definition set_world x p := mkProcess x (terminating p) (image_load p) (dynamic_biases p) (dynamic_symbols p) (lifecycle p) (user_frames p) (shared_image_pages p) (stack_bytes p) (charged p) (process_name p).
Definition set_image_load x p := mkProcess (world p) (terminating p) x (dynamic_biases p) (dynamic_symbols p) (lifecycle p) (user_frames p) (shared_image_pages p) (stack_bytes p) (charged p) (process_name p).
Definition set_biases x p := mkProcess (world p) (terminating p) (image_load p) x (dynamic_symbols p) (lifecycle p) (user_frames p) (shared_image_pages p) (stack_bytes p) (charged p) (process_name p).
Definition set_symbols x p := mkProcess (world p) (terminating p) (image_load p) (dynamic_biases p) x (lifecycle p) (user_frames p) (shared_image_pages p) (stack_bytes p) (charged p) (process_name p).
Definition set_lifecycle x p := mkProcess (world p) (terminating p) (image_load p) (dynamic_biases p) (dynamic_symbols p) x (user_frames p) (shared_image_pages p) (stack_bytes p) (charged p) (process_name p).
Definition set_owned f g p := mkProcess (world p) (terminating p) (image_load p) (dynamic_biases p) (dynamic_symbols p) (lifecycle p) f g (stack_bytes p) (charged p) (process_name p).
Definition set_stack_bytes x p := mkProcess (world p) (terminating p) (image_load p) (dynamic_biases p) (dynamic_symbols p) (lifecycle p) (user_frames p) (shared_image_pages p) x (charged p) (process_name p).
Definition set_charged x p := mkProcess (world p) (terminating p) (image_load p) (dynamic_biases p) (dynamic_symbols p) (lifecycle p) (user_frames p) (shared_image_pages p) (stack_bytes p) x (process_name p).
Definition set_process_name x p := mkProcess (world p) (terminating p) (image_load p) (dynamic_biases p) (dynamic_symbols p) (lifecycle p) (user_frames p) (shared_image_pages p) (stack_bytes p) (charged p) x.
End process_setters.

(** The next answer, of the heap or of the Domain. *)
Definition granted (p : Process) : bool * Process :=
  match ask (world p) with
  | (Ok b, w) => (b, set_world w p)
  | (Err _, w) => (false, set_world w p)
  end.
Fixpoint granted_all (n : nat) (p : Process) : bool * Process :=
  match n with
  | O => (true, p)
  | S n => let '(b, p) := granted p in if b then granted_all n p else (false, p)
  end.

(** ** The symbols of a process *)

(** [str::cmp]: byte by byte. *)
Fixpoint bytes_cmp (a b : list Z) : comparison :=
  match a, b with
  | [], [] => Eq
  | [], _ :: _ => Lt
  | _ :: _, [] => Gt
  | x :: a, y :: b => match x ?= y with Eq => bytes_cmp a b | c => c end
  end.

(** [binary_search_by] on the sorted registry: where the name is, or where it belongs. *)
Fixpoint find_name (name : list Z) (registry : list (list Z * Z)) (at_ : nat) : result nat nat :=
  match registry with
  | [] => Err at_
  | (known, _) :: registry => match bytes_cmp known name with Eq => Ok at_ | Gt => Err at_ | Lt => find_name name registry (S at_) end
  end.

Definition resolve_dynamic_symbol (p : Process) (name : list Z) : option Z :=
  match find_name name (dynamic_symbols p) 0 with
  | Ok at_ => snd <$> dynamic_symbols p !! at_
  | Err _ => None
  end.

Definition known (registry : list (list Z * Z)) (name : list Z) : bool := match find_name name registry 0 with Ok _ => true | Err _ => false end.

Definition insert_symbol (registry : list (list Z * Z)) (entry : list Z * Z) : list (list Z * Z) :=
  match find_name entry.1 registry 0 with
  | Ok at_ => <[at_ := entry]> registry
  | Err at_ => take at_ registry ++ entry :: drop at_ registry
  end.

Definition register_dynamic_symbols (symbols : list (list Z * Z)) (p : Process) : bool * Process :=
  let registry := dynamic_symbols p in
  if (65536 <? Z.of_nat (length registry) + Z.of_nat (length symbols)) ||
     existsb (fun x => bool_decide (x.1 = []) || (MAX_DYNAMIC_SYMBOL_NAME <? length x.1)%nat || known registry x.1) symbols
  then (false, p)
  else
    let '(ok, p) := granted_all (2 + length symbols) p in
    if ok then (true, set_symbols (foldl insert_symbol (dynamic_symbols p) symbols) p) else (false, p).

(** ** The slots of the modules *)

Definition has_dynamic_modules (p : Process) : bool := negb (length (dynamic_biases p) =? 0)%nat.

Definition reserve_dynamic_module_at (bias : Z) (p : Process) : bool * Process :=
  if (64 <=? length (dynamic_biases p))%nat || bool_decide (bias ∈ dynamic_biases p) then (false, p)
  else
    let '(ok, p) := granted p in
    if ok then (true, set_biases (dynamic_biases p ++ [bias]) p) else (false, p).

Definition release_dynamic_module_at (bias : Z) (p : Process) : Process := set_biases (filter (fun taken => taken <> bias) (dynamic_biases p)) p.

(** ** What the process takes over *)

Definition reserve_adopt (frames : nat) (p : Process) : bool * Process :=
  let '(ok, p) := granted_all 3 p in
  if ok then (true, set_charged (charged p + Z.of_nat frames * PAGE_SIZE) p) else (false, p).
Definition release_adopt_charge (frames : nat) (p : Process) : Process := set_charged (charged p - Z.of_nat frames * PAGE_SIZE) p.

Definition adopt (p : Process) : Process :=
  let w := world p in
  set_world (set_shared [] (set_frames [] w)) (set_owned (user_frames p ++ frames w) (shared_image_pages p ++ shared w) p).

(** ** What has to run *)

Definition lifecycle_of (a : Arch) (bytes : list Z) (bias : Z) (main : bool) : ModuleLifecycle :=
  let none := mkModuleLifecycle 0 0 0 0 (if main then 1 else 0) in
  match parse_for_machine bytes (machine a) with
  | None => none
  | Some e =>
      match dynamic_info e with
      | Some (Some i) =>
          let '(ia, ic) := match init_array i, init_arraysz i with Some at_, Some size => (wrap64 (at_ + bias), size / 8) | _, _ => (0, 0) end in
          let '(fa, fc) := match fini_array i, fini_arraysz i with Some at_, Some size => (wrap64 (at_ + bias), size / 8) | _, _ => (0, 0) end in
          mkModuleLifecycle ia ic fa fc (if main then 1 else 0)
      | _ => none
      end
  end.

Definition record_lifecycle (entry : ModuleLifecycle) (p : Process) : bool * Process :=
  if (li_init_count entry =? 0) && (li_fini_count entry =? 0) then (true, p)
  else
    let '(ok, p) := granted p in
    if ok then (true, set_lifecycle (lifecycle p ++ [entry]) p) else (false, p).

(** ** The name of a process *)

Fixpoint split_lines (bytes line : list Z) : list (list Z) :=
  match bytes with
  | [] => [line]
  | b :: bytes => if b =? 10 then line :: split_lines bytes [] else split_lines bytes (line ++ [b])
  end.
Definition ARTIFACT : list Z := [97; 114; 116; 105; 102; 97; 99; 116; 61].
Definition strip_artifact (line : list Z) : option (list Z) := if bool_decide (take 9 line = ARTIFACT) then Some (drop 9 line) else None.

Definition image_artifact_name (a : Arch) (bytes : list Z) : option (list Z) :=
  e ← parse_for_machine bytes (machine a);
  note ← liber_identity_note e;
  value ← head (omap strip_artifact (split_lines note []));
  if utf8_valid value && negb (bool_decide (value = [])) then Some value else None.

Definition set_name (name : option (list Z)) (p : Process) : Process :=
  match name with
  | None => p
  | Some name => let '(ok, p) := granted p in if ok then set_process_name (Some name) p else p
  end.

(** ** The entries *)

(** Frames freed and references dropped, when the load is given up. *)
Definition abandon {A} (err : Load.LoadError) (p : Process) (w : World) : result A Load.LoadError * Process := (Err err, set_world (drop_shared (free_frames w)) p).

(** [begin_extend] and [begin_image_load], with their guards. *)
Definition guarded {A} (body : Process -> result A Load.LoadError * Process) (p : Process) : result A Load.LoadError * Process :=
  if terminating p || image_load p then (Err Load.Terminating, p)
  else let '(r, p) := body (set_image_load true p) in (r, set_image_load false p).

(** The unmapping of the ranges of an image. *)
Definition unmap_image (a : Arch) (bytes : list Z) (w : World) : World :=
  match parse_for_machine bytes (machine a) with Some e => unmap_ranges e (main_bias e) w | None => w end.
Definition unmap_module_of (a : Arch) (bytes : list Z) (bias : Z) (w : World) : World :=
  match parse_for_machine bytes (machine a) with Some e => unmap_module e bias w | None => w end.

Definition bias_of (a : Arch) (bytes : list Z) : Z := match parse_for_machine bytes (machine a) with Some e => main_bias e | None => 0 end.

Definition load_image_body (a : Arch) (bytes : list Z) (p : Process) : result Z Load.LoadError * Process :=
  if has_dynamic_modules p && match parse_for_machine bytes (machine a) with Some e => negb (image_type e =? ET_DYN) | None => true end
  then (Err Load.BadImage, p)
  else
    match load_resolved_into a bytes (resolve_dynamic_symbol p) (set_shared [] (set_frames [] (world p))) with
    | (Err err, w) => abandon (load_error err) p w
    | (Ok start, w) =>
        match map_stack a w with
        | (Err err, w) => abandon (load_error err) p (unmap_image a bytes w)
        | (Ok _, w) =>
            let p := set_name (image_artifact_name a bytes) (set_world w p) in
            let '(ok, p) := reserve_adopt (length (frames (world p))) p in
            if negb ok then abandon Load.OutOfMemory p (unmap_pages STACK_BASE (Z.to_nat USER_STACK_PAGES) (unmap_image a bytes (world p)))
            else
              let p := adopt p in
              let p := set_stack_bytes (stack_bytes p + USER_STACK_PAGES * PAGE_SIZE) p in
              let '(ok, p) := record_lifecycle (lifecycle_of a bytes (bias_of a bytes) true) p in
              if negb ok then (Err Load.OutOfMemory, p) else (Ok start, p)
        end
    end.

Definition load_module_body (a : Arch) (bytes : list Z) (bias : Z) (p : Process) : result unit Load.LoadError * Process :=
  let '(ok, p) := reserve_dynamic_module_at bias p in
  if negb ok then (Err Load.BadImage, p)
  else
    match load_module_into a bytes bias (resolve_dynamic_symbol p) (set_shared [] (set_frames [] (world p))) with
    | (Err err, w) => abandon (load_error err) (release_dynamic_module_at bias p) w
    | (Ok exports, w) =>
        let '(ok, p) := reserve_adopt (length (frames w)) (set_world w p) in
        if negb ok then abandon Load.OutOfMemory (release_dynamic_module_at bias p) (unmap_module_of a bytes bias (world p))
        else
          let '(ok, p) := register_dynamic_symbols exports p in
          if negb ok then abandon Load.BadImage (release_adopt_charge (length (frames (world p))) (release_dynamic_module_at bias p)) (unmap_module_of a bytes bias (world p))
          else
            let p := adopt p in
            let '(ok, p) := record_lifecycle (lifecycle_of a bytes bias false) p in
            if negb ok then (Err Load.OutOfMemory, p) else (Ok tt, p)
    end.

(** A process that is made with its image: a new address space, and what goes with it when
    the spawn is given up. The handle and the first thread come after it. *)
Definition drop_space (w : World) : World := set_table ∅ w.
Definition new_process (w : World) : Process := mkProcess w false false [] [] [] [] [] 0 0 None.

Definition spawn_elf_process (a : Arch) (bytes : list Z) (w : World) : result (Z * Process) Load.LoadError * World :=
  match ask w with
  | (Ok true, w) =>
      match load_into a bytes (set_table ∅ (set_shared [] (set_frames [] w))) with
      | (Err err, w) => (Err (load_error err), drop_space (drop_shared (free_frames w)))
      | (Ok start, w) =>
          match map_stack a w with
          | (Err err, w) => (Err (load_error err), drop_space (drop_shared (free_frames w)))
          | (Ok _, w) =>
              match ask w with
              | (Ok true, w) =>
                  let p := set_name (image_artifact_name a bytes) (new_process w) in
                  let '(ok, p) := reserve_adopt (length (frames (world p))) p in
                  if negb ok then (Err Load.OutOfMemory, drop_space (drop_shared (free_frames (world p))))
                  else
                    let p := adopt p in
                    (Ok (start, set_stack_bytes (stack_bytes p + USER_STACK_PAGES * PAGE_SIZE) p), world p)
              | (_, w) => (Err Load.OutOfMemory, drop_space (set_frames [] (drop_shared w)))
              end
          end
      end
  | (_, w) => (Err Load.OutOfMemory, w)
  end.

Module Loader.
Definition load_image_into (a : Arch) (bytes : list Z) : Process -> result Z Load.LoadError * Process := guarded (load_image_body a bytes).
Definition load_module_into (a : Arch) (bytes : list Z) (bias : Z) : Process -> result unit Load.LoadError * Process := guarded (load_module_body a bytes bias).
End Loader.
