(* ===== verification/ElfLinks.v ===== *)
(** The books of a process over its loads: the order of the symbol registry, the slots of
    the modules, and what every outcome of a load leaves. *)

From Stdlib Require Import Sorted.
From S2P Require Import Prelude Wire Elf ElfLoad ElfFacts ElfPages ElfSegments ElfWhole ElfProcess.

(** ** The registry *)

Definition bytes_lt (a b : list Z) : Prop := bytes_cmp a b = Lt.

Lemma bytes_cmp_eq a b : bytes_cmp a b = Eq <-> a = b.
Proof.
  revert b. induction a as [| x a IH]; intros [| y b]; cbn; try done. destruct (Z.compare_spec x y) as [-> | Hlt | Hgt]; [rewrite IH; naive_solver | |]; split; try done; intros [= -> ->]; lia.
Qed.
Lemma bytes_cmp_refl a : bytes_cmp a a = Eq.
Proof. by apply bytes_cmp_eq. Qed.
Lemma bytes_cmp_opp a b : bytes_cmp b a = CompOpp (bytes_cmp a b).
Proof. revert b. induction a as [| x a IH]; intros [| y b]; cbn; try done. rewrite Z.compare_antisym. destruct (x ?= y); cbn; auto. Qed.

#[export] Instance bytes_lt_trans : Transitive bytes_lt.
Proof.
  unfold bytes_lt. intros a. induction a as [| x a IH]; intros [| y b] [| z c]; cbn; try done.
  destruct (Z.compare_spec x y) as [-> | H1 | H1]; [| | done]; destruct (Z.compare_spec y z) as [-> | H2 | H2]; try done.
  - by apply IH.
  - intros _ _. by rewrite (proj2 (Z.compare_lt_iff x z)) by lia.
  - intros _ _. by rewrite (proj2 (Z.compare_lt_iff x z)) by lia.
Qed.

Definition sorted (registry : list (list Z * Z)) : Prop := StronglySorted (fun x y => bytes_lt x.1 y.1) registry.

(** Where a search ends: at the name, or between the smaller and the greater ones. *)
Lemma find_name_at name registry at_ :
  match find_name name registry at_ with
  | Ok k => exists before v after, registry = before ++ (name, v) :: after /\ k = (at_ + length before)%nat /\ Forall (fun x => bytes_lt x.1 name) before
  | Err k => exists before after, registry = before ++ after /\ k = (at_ + length before)%nat /\ Forall (fun x => bytes_lt x.1 name) before /\
      match after with [] => True | y :: _ => bytes_lt name y.1 end
  end.
Proof.
  revert at_. induction registry as [| [n v] l IH]; intros at_; cbn [find_name]; [exists [], []; split_and!; [done | cbn; lia | constructor | done] |].
  destruct (bytes_cmp n name) eqn:E.
  - apply bytes_cmp_eq in E as ->. exists [], v, l. split_and!; [done | cbn; lia | constructor].
  - specialize (IH (S at_)). destruct (find_name name l (S at_)) as [k | k].
    + destruct IH as (b & v' & c & -> & -> & Hb). exists ((n, v) :: b), v', c. split_and!; [done | cbn; lia | by constructor].
    + destruct IH as (b & c & -> & -> & Hb & Hc). exists ((n, v) :: b), c. split_and!; [done | cbn; lia | by constructor | done].
  - exists [], ((n, v) :: l). split_and!; [done | cbn; lia | constructor |]. unfold bytes_lt. cbn. by rewrite bytes_cmp_opp, E.
Qed.

Lemma sorted_app l1 l2 : sorted (l1 ++ l2) <-> sorted l1 /\ sorted l2 /\ forall x y, x ∈ l1 -> y ∈ l2 -> bytes_lt x.1 y.1.
Proof.
  unfold sorted. induction l1 as [| x l1 IH]; cbn.
  { split; [intros; split_and!; [constructor | done | by intros ? ? ?%elem_of_nil] | tauto]. }
  split.
  - intros [Hs Hf]%StronglySorted_inv. apply IH in Hs as (H1 & H2 & H3). rewrite Forall_app in Hf. destruct Hf as [Hf1 Hf2]. split_and!; [by constructor | done |].
    intros y z [-> | Hy]%elem_of_cons Hz; [rewrite Forall_forall in Hf2; by apply Hf2 | by apply H3].
  - intros ([H1 Hf]%StronglySorted_inv & H2 & H3). constructor; [apply IH; split_and!; [done | done |]; intros y z Hy Hz; apply H3; [by right | done] |].
    apply Forall_app. split; [done |]. apply Forall_forall. intros z Hz. apply H3; [left | done].
Qed.

Lemma sorted_names registry n v v' : sorted registry -> (n, v) ∈ registry -> (n, v') ∈ registry -> v = v'.
Proof.
  unfold sorted. induction 1 as [| x l Hs IH Hf]; [by intros ?%elem_of_nil |]. rewrite Forall_forall in Hf.
  assert (forall w, bytes_lt n n -> (n, w) ∈ l -> False) as Hno by (intros w Hlt; unfold bytes_lt in Hlt; by rewrite bytes_cmp_refl in Hlt).
  intros [<- | Hv]%elem_of_cons [[= <-] | Hv']%elem_of_cons; [done | | | by apply IH].
  - specialize (Hf _ Hv'). cbn in Hf. by destruct (Hno v').
  - specialize (Hf _ Hv). cbn in Hf. by destruct (Hno v).
Qed.

Lemma resolve_iff p name addr : sorted (dynamic_symbols p) -> resolve_dynamic_symbol p name = Some addr <-> (name, addr) ∈ dynamic_symbols p.
Proof.
  intros Hs. unfold resolve_dynamic_symbol. pose proof (find_name_at name (dynamic_symbols p) 0) as Hf. destruct (find_name name (dynamic_symbols p) 0) as [k | k].
  - destruct Hf as (b & v & c & E & -> & _). assert ((name, v) ∈ dynamic_symbols p) as Hin by (rewrite E; apply elem_of_app; right; left).
    replace (dynamic_symbols p !! (0 + length b)%nat) with (Some (name, v)) by (rewrite E, lookup_app_r, Nat.add_0_l, Nat.sub_diag by lia; done).
    cbn. split; [by intros [= <-] | intros Ha; f_equal; by eapply sorted_names].
  - destruct Hf as (b & c & E & _ & Hb & Hc). split; [done |]. intros Hin. exfalso. rewrite E in Hs, Hin. apply sorted_app in Hs as (_ & Hs & _).
    assert (forall x : list Z * Z, x.1 = name -> ~ bytes_lt x.1 name) as Hno by (intros x ->; unfold bytes_lt; by rewrite bytes_cmp_refl).
    apply elem_of_app in Hin as [Hin | Hin]; [rewrite Forall_forall in Hb; by apply (Hno (name, addr) eq_refl), Hb |].
    destruct c as [| y c]; [by apply elem_of_nil in Hin |]. apply elem_of_cons in Hin as [<- | Hin]; [by apply (Hno (name, addr) eq_refl) |].
    apply StronglySorted_inv in Hs as [_ Hf]. rewrite Forall_forall in Hf. specialize (Hf _ Hin). cbn in Hf. apply (Hno (name, addr) eq_refl). cbn. by transitivity y.1.
Qed.

(** A new name goes to its place. *)
Lemma insert_symbol_ok registry entry :
  sorted registry -> known registry entry.1 = false ->
  sorted (insert_symbol registry entry) /\ (forall x, x ∈ insert_symbol registry entry <-> x = entry \/ x ∈ registry) /\ length (insert_symbol registry entry) = S (length registry).
Proof.
  intros Hs. unfold known, insert_symbol. pose proof (find_name_at entry.1 registry 0) as Hf. destruct (find_name entry.1 registry 0) as [k | k]; [done |]. intros _.
  destruct Hf as (b & c & -> & -> & Hb & Hc). cbn [Nat.add]. rewrite take_app_length, drop_app_length. apply sorted_app in Hs as (S1 & S2 & S3). rewrite Forall_forall in Hb.
  assert (forall y, y ∈ c -> bytes_lt entry.1 y.1) as Hc'.
  { intros y Hy. destruct c as [| z c]; [by apply elem_of_nil in Hy |]. apply elem_of_cons in Hy as [-> | Hy]; [done |].
    apply StronglySorted_inv in S2 as [_ Hf]. rewrite Forall_forall in Hf. transitivity z.1; [done | by apply Hf]. }
  split_and!.
  - apply sorted_app. split_and!; [done | constructor; [done | by apply Forall_forall] |]. intros x y Hx [-> | Hy]%elem_of_cons; [by apply Hb | by apply S3].
  - intros x. rewrite !elem_of_app, elem_of_cons. tauto.
  - rewrite !length_app. cbn. lia.
Qed.

Lemma known_iff registry name : sorted registry -> known registry name = true <-> name ∈ registry.*1.
Proof.
  intros Hs. pose proof (resolve_iff (set_symbols registry (new_process (mkWorld [] (fun _ => []) ∅ ∅ 0 [] [] [] []))) name) as Hr. cbn in Hr. unfold known.
  unfold resolve_dynamic_symbol in Hr. cbn in Hr. pose proof (find_name_at name registry 0) as Hf. destruct (find_name name registry 0) as [k | k].
  - destruct Hf as (b & v & c & -> & _). split; [| done]. intros _. rewrite fmap_app. apply elem_of_app. right. left.
  - split; [done |]. intros (x & -> & Hx)%list_elem_of_fmap. destruct x as [n v]. by apply (Hr v) in Hx.
Qed.

Lemma insert_all_ok l registry :
  sorted registry -> (forall x, x ∈ l -> known registry x.1 = false) -> NoDup l.*1 ->
  sorted (foldl insert_symbol registry l) /\ (forall x, x ∈ foldl insert_symbol registry l <-> x ∈ registry \/ x ∈ l) /\ length (foldl insert_symbol registry l) = (length registry + length l)%nat.
Proof.
  revert registry. induction l as [| e l IH]; intros registry Hs Hk Hn; cbn [foldl].
  { split_and!; [done | intros x; rewrite elem_of_nil; tauto | cbn; lia]. }
  cbn in Hn. apply NoDup_cons in Hn as [He Hn]. destruct (insert_symbol_ok registry e Hs (Hk e ltac:(left))) as (S1 & M1 & L1).
  destruct (IH (insert_symbol registry e)) as (S2 & M2 & L2); [done | | done |].
  - intros x Hx. apply not_true_iff_false. rewrite known_iff by done. intros (y & Ey & Hy)%list_elem_of_fmap. apply M1 in Hy as [-> | Hy].
    + apply He. rewrite <- Ey. by apply list_elem_of_fmap_2.
    + specialize (Hk x ltac:(by right)). apply not_true_iff_false in Hk. apply Hk, known_iff; [done |]. rewrite Ey. by apply list_elem_of_fmap_2.
  - split_and!; [done | intros x; rewrite M2, M1, elem_of_cons; tauto | rewrite L2, L1; cbn; lia].
Qed.

(** ** Questions *)

Definition asked (p p' : Process) : Prop := exists l, p' = set_world (set_answers l (world p)) p.

Lemma asked_refl p : asked p p.
Proof. exists (answers (world p)). destruct p as [[] ? ? ? ? ? ? ? ? ? ?]. done. Qed.
Lemma asked_trans p q r : asked p q -> asked q r -> asked p r.
Proof. intros [l ->] [l' ->]. by exists l'. Qed.

Lemma granted_asked p b p' : granted p = (b, p') -> asked p p'.
Proof.
  unfold granted, ask. destruct (answers (world p)) as [| b' l] eqn:E; intros [= <- <-]; [| by exists l]. exists []. destruct p as [[] ? ? ? ? ? ? ? ? ? ?]. cbn in *. by subst.
Qed.
Lemma granted_all_asked n p b p' : granted_all n p = (b, p') -> asked p p'.
Proof.
  revert p. induction n as [| n IH]; intros p; cbn [granted_all]; [intros [= <- <-]; apply asked_refl |]. destruct (granted p) as [g q] eqn:E. apply granted_asked in E.
  destruct g; [intros Hq%IH; by eapply asked_trans | by intros [= <- <-]].
Qed.

Lemma reserve_at_ok bias p b p' :
  reserve_dynamic_module_at bias p = (b, p') ->
  if b then bias ∉ dynamic_biases p /\ (length (dynamic_biases p) < 64)%nat /\ exists q, asked p q /\ p' = set_biases (dynamic_biases p ++ [bias]) q else asked p p'.
Proof.
  unfold reserve_dynamic_module_at. destruct (_ || _) eqn:E; [intros [= <- <-]; apply asked_refl |]. rewrite orb_false_iff, bool_decide_eq_false in E. destruct E as [E1%Nat.leb_gt E2].
  destruct (granted p) as [g q] eqn:Eg. apply granted_asked in Eg. destruct g; intros [= <- <-]; [| done]. split_and!; [done | lia |]. exists q. split; [done |]. by destruct Eg as [l ->].
Qed.

Lemma reserve_adopt_ok n p b p' :
  reserve_adopt n p = (b, p') -> exists q, asked p q /\ p' = if b then set_charged (charged p + Z.of_nat n * PAGE_SIZE) q else q.
Proof.
  unfold reserve_adopt. destruct (granted_all 3 p) as [g q] eqn:E. apply granted_all_asked in E. destruct g; intros [= <- <-]; exists q; (split; [done |]); [| done]. by destruct E as [l ->].
Qed.

Lemma register_ok symbols p b p' :
  register_dynamic_symbols symbols p = (b, p') ->
  exists q, asked p q /\
    if b then p' = set_symbols (foldl insert_symbol (dynamic_symbols p) symbols) q /\ Z.of_nat (length (dynamic_symbols p)) + Z.of_nat (length symbols) <= 65536 /\
      forall x, x ∈ symbols -> x.1 <> [] /\ (length x.1 <= MAX_DYNAMIC_SYMBOL_NAME)%nat /\ known (dynamic_symbols p) x.1 = false
    else p' = q.
Proof.
  unfold register_dynamic_symbols. destruct (_ || existsb _ _) eqn:E; [intros [= <- <-]; exists p; split; [apply asked_refl | done] |]. apply orb_false_iff in E as [E1 E2].
  destruct (granted_all _ p) as [g q] eqn:Eg. apply granted_all_asked in Eg. destruct g; intros [= <- <-]; exists q; (split; [done |]); [| done]. split_and!; [by destruct Eg as [l ->] | lia |].
  intros x Hx. apply not_true_iff_false in E2. assert (bool_decide (x.1 = []) || (MAX_DYNAMIC_SYMBOL_NAME <? length x.1)%nat || known (dynamic_symbols p) x.1 = false) as Hf.
  { apply not_true_iff_false. intros Ht. apply E2, existsb_exists. exists x. split; [by apply list_elem_of_In | done]. }
  rewrite !orb_false_iff, bool_decide_eq_false, Nat.ltb_ge in Hf. tauto.
Qed.

Lemma record_ok entry p b p' : record_lifecycle entry p = (b, p') -> exists q l, asked p q /\ p' = set_lifecycle l q.
Proof.
  assert (forall q, q = set_lifecycle (lifecycle q) q) as Hself by (by intros []).
  unfold record_lifecycle. destruct (_ && _); [intros [= <- <-]; exists p, (lifecycle p); split; [apply asked_refl | done] |].
  destruct (granted p) as [g q] eqn:Eg. apply granted_asked in Eg. destruct g; intros [= <- <-]; exists q; [by eexists | by exists (lifecycle q)].
Qed.

Lemma set_name_ok name p : exists q n, asked p q /\ set_name name p = set_process_name n q.
Proof.
  assert (forall q, q = set_process_name (process_name q) q) as Hself by (by intros []).
  unfold set_name. destruct name as [n |]; [| exists p, (process_name p); split; [apply asked_refl | done]].
  destruct (granted p) as [g q] eqn:Eg. apply granted_asked in Eg. destruct g; exists q; [by exists (Some n) | by exists (process_name q)].
Qed.

(** ** The ends of a load *)

Section ends.
Context (a : Arch) (bytes : list Z) (p : Process).

(** How [load_module_into] ends: no slot, a load that failed, a load that was unwound, a
    module that is part of the process. *)
Inductive module_end (bias : Z) : result unit Load.LoadError -> Process -> Prop :=
| module_refused l : module_end bias (Err Load.BadImage) (set_world (set_answers l (world p)) p)
| module_failed l err w :
    load_module_into a bytes bias (resolve_dynamic_symbol p) (fresh (set_answers l (world p))) = (Err err, w) ->
    module_end bias (Err (load_error err)) (set_world (drop_shared (free_frames w)) p)
| module_unwound l l' exports w err :
    load_module_into a bytes bias (resolve_dynamic_symbol p) (fresh (set_answers l (world p))) = (Ok exports, w) ->
    module_end bias (Err err) (set_world (drop_shared (free_frames (unmap_module_of a bytes bias (set_answers l' w)))) p)
| module_adopted l l' exports w run r :
    load_module_into a bytes bias (resolve_dynamic_symbol p) (fresh (set_answers l (world p))) = (Ok exports, w) ->
    bias ∉ dynamic_biases p -> (length (dynamic_biases p) < 64)%nat -> Z.of_nat (length (dynamic_symbols p)) + Z.of_nat (length exports) <= 65536 ->
    (forall x, x ∈ exports -> known (dynamic_symbols p) x.1 = false) -> r = Ok tt \/ r = Err Load.OutOfMemory ->
    module_end bias r (mkProcess (set_answers l' (fresh w)) (terminating p) (image_load p) (dynamic_biases p ++ [bias]) (foldl insert_symbol (dynamic_symbols p) exports)
      run (user_frames p ++ frames w) (shared_image_pages p ++ shared w) (stack_bytes p) (charged p + Z.of_nat (length (frames w)) * PAGE_SIZE) (process_name p)).

Lemma filter_last (l : list Z) bias : bias ∉ l -> filter (fun taken => taken <> bias) (l ++ [bias]) = l.
Proof using.
  intros Hl. rewrite filter_app, filter_cons_False, filter_nil, app_nil_r by auto. induction l as [| x l IH]; [done |]. apply not_elem_of_cons in Hl as [Hx Hl].
  rewrite filter_cons_True by done. f_equal. by apply IH.
Qed.

Lemma release_ok bias q : bias ∉ dynamic_biases p -> dynamic_biases q = dynamic_biases p ++ [bias] -> release_dynamic_module_at bias q = set_biases (dynamic_biases p) q.
Proof using. intros Hb Hq. unfold release_dynamic_module_at. by rewrite Hq, filter_last. Qed.
Lemma uncharge_ok n q : charged q = charged p + Z.of_nat n * PAGE_SIZE -> release_adopt_charge n q = set_charged (charged p) q.
Proof using. intros Hq. unfold release_adopt_charge. rewrite Hq. f_equal. lia. Qed.

Lemma load_module_ends bias r p' : load_module_body a bytes bias p = (r, p') -> module_end bias r p'.
Proof using.
  unfold load_module_body. destruct (reserve_dynamic_module_at bias p) as [b q] eqn:Er. apply reserve_at_ok in Er. destruct b; cbn [negb].
  2: { intros [= <- <-]. destruct Er as [l ->]. constructor. }
  destruct Er as (Hb & Hlen & q0 & [l ->] & ->). set (q := set_biases _ _). change (resolve_dynamic_symbol q) with (resolve_dynamic_symbol p).
  change (set_shared [] (set_frames [] (world q))) with (fresh (set_answers l (world p))).
  destruct (load_module_into a bytes bias _ _) as [[exports | err] w] eqn:El.
  2: { rewrite release_ok by done. intros [= <- <-]. by apply (module_failed bias l). }
  destruct (reserve_adopt _ (set_world w q)) as [b q2] eqn:Ea. apply reserve_adopt_ok in Ea as (q3 & [l2 ->] & ->). destruct b; cbn [negb].
  2: { rewrite release_ok by done. intros [= <- <-]. exact (module_unwound bias l l2 exports w Load.OutOfMemory El). }
  destruct (register_dynamic_symbols exports _) as [b q4] eqn:Eg. apply register_ok in Eg as (q5 & [l3 ->] & Hb'). destruct b; cbn [negb].
  - destruct Hb' as (-> & Hsum & Hk). destruct (record_lifecycle _ _) as [b q6] eqn:Ec. apply record_ok in Ec as (q7 & run & [l4 ->] & ->).
    intros E. pose proof (module_adopted bias l l4 exports w run r El Hb Hlen Hsum (fun x Hx => proj2 (proj2 (Hk x Hx)))) as Hend.
    destruct b; injection E as <- <-; apply Hend; auto.
  - subst q4. rewrite release_ok by done. rewrite uncharge_ok by done. intros [= <- <-]. exact (module_unwound bias l l3 exports w Load.BadImage El).
Qed.

(** How [load_image_into] ends. *)
Inductive image_end : result Z Load.LoadError -> Process -> Prop :=
| image_refused : image_end (Err Load.BadImage) p
| image_failed err w :
    load_resolved_into a bytes (resolve_dynamic_symbol p) (fresh (world p)) = (Err err, w) ->
    image_end (Err (load_error err)) (set_world (drop_shared (free_frames w)) p)
| image_unwound w name : image_end (Err Load.OutOfMemory) (set_world w (set_process_name name p))
| image_adopted start w w' l run name r :
    load_resolved_into a bytes (resolve_dynamic_symbol p) (fresh (world p)) = (Ok start, w) -> map_stack a w = (Ok tt, w') -> r = Ok start \/ r = Err Load.OutOfMemory ->
    image_end r (mkProcess (set_answers l (fresh w')) (terminating p) (image_load p) (dynamic_biases p) (dynamic_symbols p) run (user_frames p ++ frames w') (shared_image_pages p ++ shared w')
      (stack_bytes p + USER_STACK_PAGES * PAGE_SIZE) (charged p + Z.of_nat (length (frames w')) * PAGE_SIZE) name).

Lemma load_image_ends r p' : load_image_body a bytes p = (r, p') -> image_end r p'.
Proof using.
  unfold load_image_body. destruct (_ && _); [intros [= <- <-]; constructor |]. change (set_shared [] (set_frames [] (world p))) with (fresh (world p)).
  destruct (load_resolved_into a bytes _ _) as [[start | err] w] eqn:El; [| intros [= <- <-]; by constructor].
  destruct (map_stack a w) as [[[] | err] w'] eqn:Es.
  2: { rewrite (map_stack_err _ _ _ _ Es). intros [= <- <-]. replace p with (set_process_name (process_name p) p) at 2 by (by destruct p). constructor. }
  destruct (set_name_ok (image_artifact_name a bytes) (set_world w' p)) as (q & n & [l ->] & ->).
  destruct (reserve_adopt _ _) as [b q2] eqn:Ea. apply reserve_adopt_ok in Ea as (q3 & [l2 ->] & ->). destruct b; cbn [negb].
  2: { intros [= <- <-]. apply (image_unwound _ n). }
  destruct (record_lifecycle _ _) as [b q6] eqn:Ec. apply record_ok in Ec as (q7 & run & [l4 ->] & ->).
  pose proof (image_adopted start w w' l4 run n r El Es) as Hend. intros E. destruct b; injection E as <- <-; apply Hend; auto.
Qed.
End ends.

(** ** Where the symbols of a module are *)

Lemma map_segment_range a data ph bias w s w' : map_segment a data ph bias w = (Ok s, w') -> page_range ph bias = Some (seg_start s, seg_end s).
Proof.
  unfold map_segment, page_range. intros (ls & w1 & Hn & Hm)%bind_ok. apply need_ok in Hn as [-> ->]. apply bind_ok in Hm as (de & w1 & Hn & Hm). apply need_ok in Hn as [_ ->].
  apply bind_ok in Hm as (le & w1 & Hn & Hm). apply need_ok in Hn as [E3 ->]. apply bind_ok in Hm as (top & w1 & Hn & Hm). apply need_ok in Hn as [E4 ->].
  apply bind_ok in Hm as (n1 & w1 & Hn & Hm). apply bind_ok in Hm as (n2 & w2 & Hn2 & Hm). apply bind_ok in Hm as (u & w3 & Hp & Hm). injection Hm as <- <-.
  cbn [mbind option_bind]. rewrite E3. cbn [mbind option_bind]. by rewrite E4.
Qed.

Definition inside (low high : Z) (s : LoadedSegment) : Prop := low <= seg_start s /\ seg_end s <= high.

Lemma load_segments_inside a e bias low high todo loaded w r loaded' w' :
  Forall (inside low high) loaded -> load_segments a e bias (Some (low, high)) todo loaded w = ((r, loaded'), w') -> Forall (inside low high) loaded'.
Proof.
  revert loaded w. induction todo as [| i todo IH]; intros loaded w Hl; cbn [load_segments]; [by intros [= _ <- _] |].
  destruct (segment e i) as [ph |]; [| by intros [= _ <- _]]. destruct (negb _); [by apply IH |]. destruct (validate_segment a ph bias _ loaded) eqn:Ev; cbn [negb]; [| by intros [= _ <- _]].
  destruct (segment_data e ph) as [data |]; [| by intros [= _ <- _]]. destruct (map_segment a data ph bias w) as [[s | err] w1] eqn:Em; [| by intros [= _ <- _]].
  apply IH, Forall_app. split; [done |]. constructor; [| constructor]. apply validate_ok in Ev as (st & en & V). pose proof (valid_range _ _ _ _ _ _ _ V) as Hr.
  rewrite (map_segment_range _ _ _ _ _ _ _ Em) in Hr. injection Hr as <- <-. by apply (valid_window _ _ _ _ _ _ _ V).
Qed.

Definition in_slot (bias : Z) (x : list Z * Z) : Prop := bias <= x.2 < bias + DYNAMIC_MODULE_SLOT_SIZE.

Lemma module_exports a bytes bias resolve w exports w' :
  load_module_into a bytes bias resolve w = (Ok exports, w') -> slot_ok bias /\ NoDup exports.*1 /\ Forall (in_slot bias) exports.
Proof.
  unfold load_module_into. intros (e & w1 & Hn & Hr)%bind_ok. apply need_ok in Hn as [_ ->]. apply bind_ok in Hr as ([] & w1 & Hg & Hr). apply guard_ok in Hg as [Hg ->].
  apply bind_ok in Hr as ([st ex] & w1 & Hl & Hr). run_ok. rewrite negb_true_iff, !orb_false_iff, !negb_false_iff in Hg. destruct Hg as [[[_ G1] G2] G3%Z.eqb_eq].
  split; [split; [lia | done] |]. unfold load_parsed in Hl. destruct (ask_room w) as [[[] | err] w0]; [| done].
  destruct (load_segments a e bias _ _ [] w0) as [[r loaded] w2] eqn:Es. apply load_segments_inside in Es; [| constructor]. destruct r as [[] | err]; [| done].
  destruct (finish_load a e bias false resolve loaded w2) as [[x | err] w3] eqn:Ef; [| done]. injection Hl as -> ->.
  unfold finish_load in Ef. apply bind_ok in Ef as ([] & w4 & _ & Ef). apply bind_ok in Ef as (u & w5 & _ & Ef). apply bind_ok in Ef as (st' & w6 & _ & Ef).
  apply bind_ok in Ef as ([] & w7 & _ & Ef). apply bind_ok in Ef as (ex' & w8 & Hx & Ef). run_ok. apply exports_done in Hx as [Hn Hx]. split; [done |].
  eapply Forall_impl; [exact Hx |]. intros x (_ & _ & s & Hs & Hr). rewrite Forall_forall in Es. destruct (Es s Hs). unfold in_slot. lia.
Qed.

(** ** The books *)

Record linked (p : Process) : Prop := {
  linked_biases : NoDup (dynamic_biases p) /\ Forall slot_ok (dynamic_biases p) /\ (length (dynamic_biases p) <= 64)%nat;
  linked_sorted : sorted (dynamic_symbols p) /\ Z.of_nat (length (dynamic_symbols p)) <= 65536;
  linked_slots : forall x, x ∈ dynamic_symbols p -> exists bias, bias ∈ dynamic_biases p /\ in_slot bias x;
  linked_charge : charged p = Z.of_nat (length (user_frames p)) * PAGE_SIZE;
}.

(** A load into the process, or anything that happens to its memory between loads. *)
Inductive load_step (a : Arch) : Process -> Process -> Prop :=
| step_image p bytes r p' : Loader.load_image_into a bytes p = (r, p') -> load_step a p p'
| step_module p bytes bias r p' : Loader.load_module_into a bytes bias p = (r, p') -> load_step a p p'
| step_other p w : load_step a p (set_world w p).

Lemma linked_new w : linked (new_process w).
Proof. constructor; cbn; [split_and!; [constructor | constructor | lia] | split; [constructor | lia] | by intros ? ?%elem_of_nil | done]. Qed.

Lemma linked_same p q : linked p -> dynamic_biases q = dynamic_biases p -> dynamic_symbols q = dynamic_symbols p -> charged q - charged p = Z.of_nat (length (user_frames q)) * PAGE_SIZE - Z.of_nat (length (user_frames p)) * PAGE_SIZE -> linked q.
Proof. intros [A B C D] E1 E2 E3. constructor; rewrite ?E1, ?E2; auto. lia. Qed.

Lemma linked_image a bytes p r p' : linked p -> image_end a bytes p r p' -> linked p'.
Proof. intros Hp. destruct 1; apply (linked_same p); try done; cbn; rewrite ?length_app; lia. Qed.

Lemma linked_module a bytes bias p r p' : linked p -> module_end a bytes p bias r p' -> linked p'.
Proof.
  intros Hp. destruct 1 as [| | | l l' exports w run r El Hb Hlen Hsum Hk Hr]; [apply (linked_same p); try done; cbn; lia .. |].
  apply module_exports in El as (Hs & Hn & Hx). destruct Hp as [(A1 & A2 & A3) [B1 B2] C D]. destruct (insert_all_ok exports _ B1 Hk Hn) as (S1 & S2 & S3). rewrite Forall_forall in Hx.
  constructor; cbn.
  - split_and!; [apply NoDup_app; split_and!; [done | by intros x Hin ->%list_elem_of_singleton | apply NoDup_singleton] | apply Forall_app; split; [done | by constructor] | rewrite length_app; cbn; lia].
  - split; [done |]. rewrite S3. lia.
  - intros x [Hin | Hin]%S2; [destruct (C x Hin) as (b & ? & ?); exists b; split; [apply elem_of_app; by left | done] |]. exists bias. split; [apply elem_of_app; right; by apply list_elem_of_singleton | by apply Hx].
  - rewrite length_app. lia.
Qed.

Lemma guarded_ok {A} (body : Process -> result A Load.LoadError * Process) (P : Process -> Prop) p r p' :
  (forall q b, P q -> P (set_image_load b q)) -> (forall q r q', P q -> body q = (r, q') -> P q') -> P p -> guarded body p = (r, p') -> P p'.
Proof.
  intros Hs Hb Hp. unfold guarded. destruct (_ || _); [by intros [= <- <-] |]. destruct (body (set_image_load true p)) as [r' q] eqn:E. intros [= <- <-]. apply Hs. eapply Hb; [| exact E]. by apply Hs.
Qed.

Lemma load_step_linked a p p' : load_step a p p' -> linked p -> linked p'.
Proof.
  assert (forall q b, linked q -> linked (set_image_load b q)) as Hs by (intros q b Hq; apply (linked_same q); try done; cbn; lia).
  destruct 1 as [p bytes r p' E | p bytes bias r p' E | p w]; intros Hp.
  - eapply (guarded_ok _ linked); [exact Hs | | exact Hp | exact E]. intros q r' q' Hq Hl%load_image_ends. by eapply linked_image.
  - eapply (guarded_ok _ linked); [exact Hs | | exact Hp | exact E]. intros q r' q' Hq Hl%load_module_ends. by eapply linked_module.
  - apply (linked_same p); try done. cbn. lia.
Qed.

(** ** What a success and a refusal say *)

Lemma guarded_inv {A} (body : Process -> result A Load.LoadError * Process) p r p' :
  guarded body p = (r, p') -> r = Err Load.Terminating \/ exists q, body (set_image_load true p) = (r, q) /\ p' = set_image_load false q /\ image_load p = false.
Proof.
  unfold guarded. destruct (terminating p || image_load p) eqn:E; [intros [= <- <-]; by left |]. apply orb_false_iff in E as [_ E].
  destruct (body (set_image_load true p)) as [r' q]. intros [= <- <-]. right. by exists q.
Qed.

Lemma guard_off p : image_load p = false -> forall w, set_image_load false (set_world w (set_image_load true p)) = set_world w p.
Proof. intros Hp w. unfold set_image_load, set_world. cbn. by rewrite Hp. Qed.

Lemma image_loaded a bytes p start p' :
  Loader.load_image_into a bytes p = (Ok start, p') ->
  exists w1 w2 l, load_resolved_into a bytes (resolve_dynamic_symbol p) (fresh (world p)) = (Ok start, w1) /\ map_stack a w1 = (Ok tt, w2) /\ world p' = set_answers l (fresh w2).
Proof.
  intros [[=] | (q & He%load_image_ends & -> & _)]%guarded_inv. remember (Ok start) as r eqn:Er.
  destruct He as [| | | st w w' l run name r Hl Hs [-> | ->]]; try discriminate Er. injection Er as ->. by exists w, w', l.
Qed.

Lemma module_loaded a bytes bias p p' :
  Loader.load_module_into a bytes bias p = (Ok tt, p') ->
  exists l l' exports w, load_module_into a bytes bias (resolve_dynamic_symbol p) (fresh (set_answers l (world p))) = (Ok exports, w) /\ world p' = set_answers l' (fresh w) /\ bias ∉ dynamic_biases p.
Proof.
  intros [[=] | (q & He%load_module_ends & -> & _)]%guarded_inv. remember (Ok tt) as r eqn:Er.
  destruct He as [| | | l l' exports w run r Hl Hb _ _ _ [-> | ->]]; try discriminate Er. by exists l, l', exports, w.
Qed.

Lemma table_ok_answers l w : table_ok w -> table_ok (set_answers l w).
Proof. by intros []. Qed.

Lemma rolled_back_answers l w w' : rolled_back (set_answers l w) w' -> rolled_back w w'.
Proof. intros []. by constructor. Qed.
