(* ===== verification/ElfProps.v ===== *)
(** The theorems about ELF images: the plan of the boot loaders, what a process finds after
    a load, where a module may be, what a refused image leaves behind, and the load that runs
    out of memory. *)

From stdpp Require Import functions.
From S2P Require Import Prelude Wire Elf ElfLoad ElfFacts ElfPages ElfSegments ElfWhole ElfProcess ElfLinks.

(** ** Samples *)

Definition header (kind phnum ent : Z) : list Z :=
  ELF_MAGIC ++ [2; 1; 1] ++ replicate 9 0 ++ le_encode 2 kind ++ le_encode 2 EM_X86_64 ++ le_encode 4 1 ++ le_encode 8 ent ++ le_encode 8 64 ++
  le_encode 8 0 ++ le_encode 4 0 ++ le_encode 2 64 ++ le_encode 2 56 ++ le_encode 2 phnum ++ le_encode 2 0 ++ le_encode 2 0 ++ le_encode 2 0.
Definition program_header_of (kind flags offset vaddr filesz memsz : Z) : list Z :=
  le_encode 4 kind ++ le_encode 4 flags ++ le_encode 8 offset ++ le_encode 8 vaddr ++ le_encode 8 vaddr ++ le_encode 8 filesz ++ le_encode 8 memsz ++ le_encode 8 4096.
Definition program_header : Z -> Z -> Z -> Z -> Z -> list Z := program_header_of PT_LOAD.

(** Code and data of one page each; data of two pages; a segment that may be written and executed. *)
Definition two_segments : list Z := header ET_DYN 2 16 ++ program_header 5 0 0 176 176 ++ program_header 6 0 4096 176 300.
Definition kernel_image : list Z := header ET_EXEC 2 16 ++ program_header 5 0 0 176 176 ++ program_header 6 0 4096 176 300.
Definition two_pages : list Z := header ET_DYN 1 0 ++ program_header 6 0 0 120 8192.
Definition bad_second : list Z := header ET_DYN 2 0 ++ program_header 5 0 0 176 176 ++ program_header 7 0 4096 176 176.

(** Data with a relocation of its last eight bytes. *)
Definition relocated_data : list Z :=
  header ET_DYN 2 0 ++ program_header 6 0 0 272 272 ++ program_header_of PT_DYNAMIC 6 176 176 64 64 ++
  le_encode 8 DT_RELA ++ le_encode 8 240 ++ le_encode 8 8 ++ le_encode 8 24 ++ le_encode 8 9 ++ le_encode 8 24 ++ le_encode 8 0 ++ le_encode 8 0 ++
  le_encode 8 264 ++ le_encode 8 8 ++ le_encode 8 5 ++ le_encode 8 0.

Definition machine_state (pool : list Z) (grants : nat) : World := mkWorld pool (fun _ => replicate 4096 0) ∅ ∅ 0 [] (repeat true grants) [] [].

Lemma machine_state_ok p n : NoDup p -> world_ok (machine_state p n) /\ table_ok (machine_state p n).
Proof.
  intros Hp. split; constructor; cbn; intros; try (by rewrite lookup_empty in *); try (by apply elem_of_nil in H); try done; try apply NoDup_nil_2. 
Qed.

Lemma sample_bytes (l : list Z) : forallb (fun b => (0 <=? b) && (b <? 256)) l = true -> Forall byte_range l.
Proof. rewrite forallb_forall. intros Hl. apply Forall_forall. intros x Hx%list_elem_of_In%Hl. unfold byte_range. lia. Qed.

Definition big_state : World := machine_state [7; 8; 9; 10; 11; 12; 13; 14; 15; 16; 17; 18] 60.

Lemma big_state_ok : world_ok big_state /\ table_ok big_state.
Proof. apply machine_state_ok. apply (bool_decide_unpack _). vm_compute. exact I. Qed.

Lemma runs {S A} (m : S -> A * S) s r : (m s).1 = r -> m s = (r, (m s).2).
Proof. intros <-. by destruct (m s). Qed.

Ltac sample := match goal with
  | |- Forall byte_range _ => apply sample_bytes; vm_compute; reflexivity
  | |- world_ok _ => apply big_state_ok
  | |- table_ok _ => apply big_state_ok
  | |- Loader.load_image_into ?a ?b ?p = _ => apply (runs (Loader.load_image_into a b)); vm_compute; reflexivity
  | |- Loader.load_module_into ?a ?b ?c ?p = _ => apply (runs (Loader.load_module_into a b c)); vm_compute; reflexivity
  | |- spawn_elf_process ?a ?b ?w = _ => apply (runs (spawn_elf_process a b)); vm_compute; reflexivity
  end.

(** ** The plan of a boot loader *)

(** C39: a plan that [load_plan] accepts under the kernel rules is safe to copy by the page: every
    loadable segment is page aligned and never both writable and executable, no two of them share a
    virtual or a physical page, the bounds of the plan hold all of them and are reached, and the
    entry is on a page of an executable segment. *)
Theorem boot_plan_is_sound e n plan :
  Forall byte_range (e_bytes e) -> 0 <= n <= 63 -> load_plan e (kernel_rules (2 ^ n)) = Ok plan ->
  (forall i ph, (i < segment_count e)%nat -> planned e i ph ->
     p_vaddr ph mod 2 ^ n = 0 /\ p_paddr ph mod 2 ^ n = 0 /\ writable (p_flags ph) && executable (p_flags ph) = false /\
     virt_low plan <= p_vaddr ph /\ p_vaddr ph + p_memsz ph <= virt_high plan /\ phys_low plan <= p_paddr ph /\ p_paddr ph + p_memsz ph <= phys_high plan) /\
  (forall i j ph ph' x y, (i < segment_count e)%nat -> (j < segment_count e)%nat -> i <> j -> planned e i ph -> planned e j ph' ->
     0 <= x < p_memsz ph -> 0 <= y < p_memsz ph' -> (p_vaddr ph + x) / 2 ^ n <> (p_vaddr ph' + y) / 2 ^ n /\ (p_paddr ph + x) / 2 ^ n <> (p_paddr ph' + y) / 2 ^ n) /\
  (exists i ph, planned e i ph /\ executable (p_flags ph) = true /\ p_vaddr ph <= plan_entry plan /\ plan_entry plan / 2 ^ n <= (p_vaddr ph + p_memsz ph - 1) / 2 ^ n) /\
  (exists i ph, planned e i ph /\ virt_low plan = p_vaddr ph) /\ (exists i ph, planned e i ph /\ virt_high plan - 2 ^ n < p_vaddr ph + p_memsz ph) /\
  (exists i ph, planned e i ph /\ phys_low plan = p_paddr ph) /\ (exists i ph, planned e i ph /\ phys_high plan - 2 ^ n < p_paddr ph + p_memsz ph).
Proof.
  intros Hb Hn (spans & Hne & Ho & Hin & Hout & He & ->)%load_plan_ok; [| done | done]. cbn [virt_low virt_high phys_low phys_high plan_entry].
  assert (forall s, s ∈ spans -> exists ph, planned e (s_index s) ph /\ span_ok n ph s /\ 0 < p_memsz ph /\ 0 <= p_vaddr ph /\ 0 <= p_paddr ph) as Hspan.
  { intros s Hs. destruct (Hout s Hs) as (ph & Hp & So). exists ph. pose proof (segment_header _ _ _ Hb (proj1 Hp)) as Hh. destruct Hp as (? & ? & Hm).
    assert (0 <= p_memsz ph) by apply Hh. split_and!; [done | done | lia | apply Hh | apply Hh]. }
  destruct (lowest_ok vlow U64_MAX spans) as (_ & B1 & _), (highest_ok vhigh 0 spans) as (_ & B2 & _), (lowest_ok plow U64_MAX spans) as (_ & B3 & _), (highest_ok phigh 0 spans) as (_ & B4 & _).
  split_and!.
  - intros i ph Hi Hp. destruct (Hin i ph Hi Hp) as (s & Hs & _ & [[A1 A2] W [L1 L2] V P _]). specialize (B1 s Hs). specialize (B2 s Hs). specialize (B3 s Hs). specialize (B4 s Hs). split_and!; try done; lia.
  - intros i j ph ph' x y Hi Hj Hij Hp Hp' Hx Hy. destruct (Hin i ph Hi Hp) as (s & Hs & Is & So), (Hin j ph' Hj Hp') as (s' & Hs' & Is' & So').
    apply (spans_apart n Hn ph ph' s s'); try done. apply (no_overlap spans); try done. congruence.
  - destruct He as (s & Hs & Hx & He). destruct (Hspan s Hs) as (ph & Hp & So & Hm & _). exists (s_index s), ph. destruct So as [A W [L1 L2] V P F] eqn:E. rewrite <- F. split_and!; [done | done | lia |].
    apply (span_last n Hn ph s); [done | lia | lia | lia].
  - destruct (lowest_attained vlow spans Hne) as (s & Hs & ->); [intros s Hs; destruct (Hspan s Hs) as (ph & _ & [_ _ [L1 L2] V P _] & ?); lia |].
    destruct (Hspan s Hs) as (ph & Hp & [_ _ [L1 L2] _ _ _] & _). by exists (s_index s), ph.
  - destruct (highest_attained vhigh spans Hne) as (s & Hs & ->); [intros s Hs; destruct (Hspan s Hs) as (ph & _ & [_ _ [L1 L2] V P _] & ?); lia |].
    destruct (Hspan s Hs) as (ph & Hp & [_ _ _ V _ _] & _). exists (s_index s), ph. split; [done | lia].
  - destruct (lowest_attained plow spans Hne) as (s & Hs & ->); [intros s Hs; destruct (Hspan s Hs) as (ph & _ & [_ _ [L1 L2] V P _] & ?); lia |].
    destruct (Hspan s Hs) as (ph & Hp & [_ _ [L1 L2] _ _ _] & _). by exists (s_index s), ph.
  - destruct (highest_attained phigh spans Hne) as (s & Hs & ->); [intros s Hs; destruct (Hspan s Hs) as (ph & _ & [_ _ [L1 L2] V P _] & ?); lia |].
    destruct (Hspan s Hs) as (ph & Hp & [_ _ _ _ P _] & _). exists (s_index s), ph. split; [done | lia].
Qed.

Lemma boot_plan_is_sound_witness :
  exists e plan, parse_for_machine kernel_image EM_X86_64 = Some e /\ load_plan e (kernel_rules (2 ^ 12)) = Ok plan /\ exists i ph, planned e i ph /\ virt_low plan = p_vaddr ph.
Proof.
  eexists _, _. split; [vm_compute; reflexivity |]. split; [vm_compute; reflexivity |].
  eapply (boot_plan_is_sound _ 12); [apply sample_bytes; vm_compute; reflexivity | lia | vm_compute; reflexivity].
Defined.

(** ** A process *)

(** C1: after a successful [load_image_into] every address of the process reads what the image says:
    the bytes of the file and zeroes, with the rights of the segment, as the relocations changed
    them, a zeroed stack that cannot be executed, and everywhere else what was there before; the
    entry is in an executable page. That holds whichever pages came from the cache of shared pages. *)
Theorem process_image_is_loaded a bytes p start p' :
  Forall byte_range bytes -> world_ok (world p) -> table_ok (world p) -> Loader.load_image_into a bytes p = (Ok start, p') ->
  exists e patches, parse_for_machine bytes (machine a) = Some e /\ relocations_of a e (main_bias e) (resolve_dynamic_symbol p) = Some patches /\
    (forall x, view (world p') x = stack_at x ∪ foldl poke (fun x => image_at (main_bias e) x (headers_of e) ∪ view (world p) x) patches x) /\
    start = entry e + main_bias e /\ exists b fl, view (world p') start = Some (b, fl) /\ NO_EXECUTE fl = false.
Proof.
  intros Hb H T (w1 & w2 & l & Hl & Hs & Ew)%image_loaded. rewrite Ew. clear Ew.
  apply (resolved_ok a bytes _ (world p) Hb H T) in Hl as (e & loaded & patches & He & D & Hst & Hentry). destruct (load_ok _ _ _ _ _ _ _ _ _ D) as [H1 T1].
  apply map_stack_ok in Hs as [Hv _]; [| done | done]. exists e, patches. split_and!; [done | apply D | | done |].
  - intros x. change (view (set_answers l (fresh w2)) x) with (view w2 x). by rewrite Hv, (load_view _ _ _ _ _ _ _ _ _ D).
  - destruct (Hentry eq_refl) as (s & Hin & Hx & Hr). destruct (load_segment _ _ _ _ _ _ _ _ _ D s start Hin Hr) as (ph & f & V & Ht & Fx & _).
    change (view (set_answers l (fresh w2)) start) with (view w2 start). rewrite Hv. assert (stack_at start = None) as ->.
    { destruct (valid_clear _ _ _ _ _ _ _ V) as [Hc _]. unfold overlaps in Hc. unfold stack_at. destruct ((STACK_BASE <=? start) && (start <? USER_STACK_TOP)) eqn:E; [| reflexivity].
      rewrite andb_true_iff in E. rewrite andb_false_iff in Hc. lia. }
    unfold view. rewrite Ht. eexists _, _. split; [done |]. cbn. by rewrite <- Fx, Hx.
Qed.

Lemma process_image_is_loaded_witness :
  exists p', Loader.load_image_into x86_64 two_segments (new_process big_state) = (Ok (DYNAMIC_MAIN_BASE + 16), p') /\
    exists b fl, view (world p') (DYNAMIC_MAIN_BASE + 16) = Some (b, fl) /\ NO_EXECUTE fl = false.
Proof.
  eexists. split; [sample |]. edestruct (process_image_is_loaded x86_64 two_segments (new_process big_state)) as (e & patches & _ & _ & _ & _ & Hx); [sample .. | exact Hx].
Defined.

(** ** A module *)

(** C2: a module is loaded into a slot no other module has: every address reads what the image and
    its relocations say or what was there before, every new mapping lies in the slot, is not both
    writable and executable and is private where it is writable, frames that were not free keep
    their contents, and no mapped frame is free. *)
Theorem module_is_loaded_in_its_slot a bytes bias p p' :
  Forall byte_range bytes -> world_ok (world p) -> table_ok (world p) -> Loader.load_module_into a bytes bias p = (Ok tt, p') ->
  slot_ok bias /\ bias ∉ dynamic_biases p /\
  (exists e patches, parse_for_machine bytes (machine a) = Some e /\ relocations_of a e bias (resolve_dynamic_symbol p) = Some patches /\
     forall x, view (world p') x = foldl poke (fun x => image_at bias x (headers_of e) ∪ view (world p) x) patches x) /\
  (forall v f fl, table (world p') !! v = Some (f, fl) -> table (world p) !! v = Some (f, fl) \/
     bias <= v /\ v + PAGE_SIZE <= bias + DYNAMIC_MODULE_SLOT_SIZE /\ WRITABLE fl && negb (NO_EXECUTE fl) = false /\ (WRITABLE fl = true -> f ∈ pool (world p))) /\
  (forall f, f ∉ pool (world p) -> memory (world p') f = memory (world p) f) /\
  (forall v f fl, table (world p') !! v = Some (f, fl) -> f ∉ pool (world p')).
Proof.
  intros Hb H T (l & l' & exports & w & Hl & Ew & Hbias)%module_loaded.
  apply (module_into_ok a bytes _ _ Hb (ok_answers l _ H) (table_ok_answers l _ T)) in Hl as (e & loaded & patches & He & Hs & D & _).
  destruct (load_ok _ _ _ _ _ _ _ _ _ D) as [H1 T1]. rewrite Ew. split_and!; [done | done | | | | apply T1].
  - exists e, patches. split_and!; [done | apply D |]. intros x. change (view (set_answers l' (fresh w)) x) with (view w x). by rewrite (load_view _ _ _ _ _ _ _ _ _ D).
  - cbn [table set_answers fresh set_shared set_frames]. intros v f fl [? | (ph & lo & hi & V & Hlo & Hhi & -> & Hp)]%(load_mapping _ _ _ _ _ _ _ _ _ D); [by left |]. right.
    destruct (valid_window _ _ _ _ _ _ _ V _ _ eq_refl) as [W1 W2]. pose proof (valid_w_xor_x _ _ _ _ _ _ _ V) as Wx. unfold PAGE_SIZE. cbn [flags_of WRITABLE NO_EXECUTE]. rewrite negb_involutive.
    split_and!; [lia | lia | done | auto].
  - intros f Hf. apply (load_memory _ _ _ _ _ _ _ _ _ D); [done | apply not_elem_of_nil].
Qed.

Lemma module_is_loaded_in_its_slot_witness :
  exists p', Loader.load_module_into x86_64 relocated_data DYNAMIC_MODULE_BASE (new_process big_state) = (Ok tt, p') /\
    (exists e patches, relocations_of x86_64 e DYNAMIC_MODULE_BASE (resolve_dynamic_symbol (new_process big_state)) = Some patches /\
      forall x, view (world p') x = foldl poke (fun x => image_at DYNAMIC_MODULE_BASE x (headers_of e) ∪ view big_state x) patches x) /\
    forall f, f ∉ pool big_state -> memory (world p') f = memory big_state f.
Proof.
  eexists. split; [sample |]. edestruct (module_is_loaded_in_its_slot x86_64 relocated_data DYNAMIC_MODULE_BASE (new_process big_state)) as (_ & _ & (e & patches & _ & Hp & Hx) & _ & Hm & _); [sample .. |].
  split; [exists e, patches; split; [exact Hp | exact Hx] | exact Hm].
Defined.

(** ** The modules of a process *)

(** C38: over any sequence of loads, failed ones included, a name resolves to the one address it is
    registered with, which lies in the slot of a module of the process; no two modules have one
    slot, there are at most 64, and the Domain is charged exactly for the frames the process owns. *)
Theorem symbols_lead_into_their_modules a w p :
  rtc (load_step a) (new_process w) p ->
  (forall name addr, resolve_dynamic_symbol p name = Some addr <-> (name, addr) ∈ dynamic_symbols p) /\
  (forall name addr, resolve_dynamic_symbol p name = Some addr -> exists bias, bias ∈ dynamic_biases p /\ slot_ok bias /\ bias <= addr < bias + DYNAMIC_MODULE_SLOT_SIZE) /\
  NoDup (dynamic_biases p) /\ (length (dynamic_biases p) <= 64)%nat /\ charged p = Z.of_nat (length (user_frames p)) * PAGE_SIZE.
Proof.
  intros Hp. assert (linked p) as [(A1 & A2 & A3) [B1 _] C D] by (apply (rtc_ind_r linked) with (3 := Hp); [apply linked_new | intros y z _ Hs Hy; by eapply load_step_linked]).
  split_and!; [intros name addr; by apply resolve_iff | | done | done | done].
  intros name addr Hr%resolve_iff%C; [| done]. destruct Hr as (bias & Hin & Hs). rewrite Forall_forall in A2. exists bias. split_and!; [done | by apply A2 | apply Hs | apply Hs].
Qed.

Lemma symbols_lead_into_their_modules_witness :
  exists p, Loader.load_module_into x86_64 two_segments DYNAMIC_MODULE_BASE (new_process big_state) = (Ok tt, p) /\ charged p = Z.of_nat (length (user_frames p)) * PAGE_SIZE /\ charged p <> 0.
Proof.
  eexists. split; [sample |]. split; [| vm_compute; discriminate].
  eapply (symbols_lead_into_their_modules x86_64 big_state). apply rtc_once, (step_module _ _ two_segments DYNAMIC_MODULE_BASE (Ok tt)). sample.
Defined.

(** ** An image that is refused *)

(** C3: an image or module that is refused as bad, at whatever point of the load, leaves the page
    table, the shared pages with their counts, the free frames, the contents of all other frames,
    the slots, the symbols and the accounts of the process as they were. *)
Theorem refused_image_leaves_no_trace a bytes p p' :
  Forall byte_range bytes -> world_ok (world p) -> table_ok (world p) ->
  Loader.load_image_into a bytes p = (Err Load.BadImage, p') \/ (exists bias, Loader.load_module_into a bytes bias p = (Err Load.BadImage, p')) ->
  p' = set_world (world p') p /\ rolled_back (world p) (world p').
Proof.
  intros Hb H T [Hl | [bias Hl]].
  - apply guarded_inv in Hl as [[=] | (q & He%load_image_ends & -> & Hg)]. pose proof (guard_off p Hg) as Ho.
    remember (Err Load.BadImage) as r eqn:Er. destruct He as [| err w Hl | w name | ? ? ? ? ? ? ? _ _ [-> | ->]]; try discriminate Er; (split; [exact (Ho (world p)) || exact (Ho _) |]).
    + by constructor.
    + injection Er as Ee. destruct err; [| discriminate Ee]. by apply settle_taken, (resolved_bad a bytes (resolve_dynamic_symbol p) (world p) Hb H T).
  - apply guarded_inv in Hl as [[=] | (q & He%load_module_ends & -> & Hg)]. pose proof (guard_off p Hg) as Ho.
    remember (Err Load.BadImage) as r eqn:Er. destruct He as [l | l err w Hl | l l' exports w err Hl | ? ? ? ? ? ? _ _ _ _ _ [-> | ->]]; try discriminate Er; (split; [exact (Ho (world p)) || exact (Ho _) |]).
    + by constructor.
    + injection Er as Ee. destruct err; [| discriminate Ee]. eapply rolled_back_answers, settle_taken.
      by apply (module_into_bad a bytes (resolve_dynamic_symbol p) (set_answers l (world p)) Hb (ok_answers l _ H) (table_ok_answers l _ T) bias).
    + apply (module_into_ok a bytes _ _ Hb (ok_answers l _ H) (table_ok_answers l _ T)) in Hl as (e & loaded & patches & He & _ & D & _).
      unfold unmap_module_of. cbn [world set_image_load set_world]. rewrite He. eapply rolled_back_answers, settle. exact (load_undone _ _ _ _ _ _ _ _ _ (load_done_answers _ _ _ _ _ _ _ _ _ D l')).
Qed.

Lemma refused_image_leaves_no_trace_witness :
  exists p', Loader.load_module_into x86_64 bad_second DYNAMIC_MODULE_BASE (new_process big_state) = (Err Load.BadImage, p') /\ rolled_back big_state (world p').
Proof.
  eexists. split; [sample |]. eapply (refused_image_leaves_no_trace x86_64 bad_second (new_process big_state)); [sample .. | right; exists DYNAMIC_MODULE_BASE; sample].
Defined.

(** ** A load without memory *)

(** C40: a load that runs out of frames inside a segment gives the frames of that segment back while
    the page table of the live process still maps them, writable; and a spawn whose process object
    cannot be made gives none of its private frames back. *)
Theorem out_of_memory_breaks_the_books :
  (exists p', Loader.load_module_into x86_64 two_pages DYNAMIC_MODULE_BASE (new_process (machine_state [7] 20)) = (Err Load.OutOfMemory, p') /\
     7 ∈ pool (world p') /\ table (world p') !! DYNAMIC_MODULE_BASE = Some (7, mkFlags true true)) /\
  (exists w', spawn_elf_process x86_64 two_segments (machine_state [7; 8; 9; 10; 11; 12; 13; 14; 15; 16] 18) = (Err Load.OutOfMemory, w') /\
     pool w' = [7] /\ table w' = ∅ /\ pages w' = ∅).
Proof.
  split.
  - exists (Loader.load_module_into x86_64 two_pages DYNAMIC_MODULE_BASE (new_process (machine_state [7] 20))).2.
    split; [sample |]. split; [| vm_compute; reflexivity]. apply (bool_decide_unpack _). vm_compute. exact I.
  - exists (spawn_elf_process x86_64 two_segments (machine_state [7; 8; 9; 10; 11; 12; 13; 14; 15; 16] 18)).2. split_and!; [sample | vm_compute; reflexivity ..].
Qed.
